(* ===== verification/_CoqProject ===== *)
-Q . S2P
Prelude.v
Memory.v
CString.v
Printf.v
Sv39.v
Process.v
Vm.v
Malloc.v
Barrier.v
HostPort.v
Runtime.v
Htif.v
Sbrk.v
Torture.v
Ring.v
RingSeq.v
Queue.v
Workqueue.v
CohChecker.v
Towers.v
DramCommon.v
DramConfig.v
DramTiming.v
BankState.v
ChannelState.v
DramRefresh.v
SimpleStats.v
CommandQueue.v
Controller.v
DramSystem.v
HmcXbar.v
Hmc.v
DramCpu.v
Cosim.v
SimRam.v
Comlog.v
FloatFix.v
ElfLoader.v
Compress.v
Image.v
Emulator.v
Kernels.v
Qsort.v
Matmul.v
CkPr.v
Pmp.v
MtLang.v
MtKernels.v
MtMatmul.v
MtVvadd.v
