(* ===== verification/Prelude.v ===== *)
(** * Verification of the C and C++ code of the IntenScale core repository

    The repository holds a many-hart RISC-V processor (in Scala) and the C and C++ code around
    it.  This development models that code: the emulator that runs the design and the DRAM
    simulator behind it, the tools that compare its logs, the runtime its programs are linked with,
    the virtual-memory test environment, and the programs that stress atomic operations, coherence
    and queues.  All paths below are under [src/].

    ** The parts and where they are modelled

    DRAM simulator ([DRAMSIM3/src/]).  A processor model adds transactions to a DRAM system; the
    system routes them to the controller of their channel; the controller turns them into
    commands, which wait in queues until the channel finds them ready; the channel keeps the
    state and timing of every bank; finished transactions are returned to the processor.
    - [DramCommon] ([common.h], [common.cc]): addresses, commands, transactions, bit helpers; the
      ways the program can stop ([stop]); vectors with checked indices and loops.
    - [DramConfig] ([configuration.*]): parameters, geometry, address mapping.  The INI reader is
      a parameter.
    - [DramTiming] ([timing.*]): the five tables of delays.
    - [BankState], [ChannelState] (same names): readiness and effect of commands.
    - [DramRefresh] ([refresh.*]), [SimpleStats] ([simple_stats.*], integer statistics),
      [CommandQueue] ([command_queue.*]), [Controller] ([controller.*]): one channel.
    - [DramSystem] ([dram_system.*]): the interface [BaseDRAMSystem] as a class, the promises
      made by its implementations as the class [DRAMSystemLaws], and the instances for the
      system of controllers and for the ideal memory.
    - [HmcXbar], [Hmc] ([hmc.*]): the hybrid memory cube, a third instance of the interface: packets,
      the two crossbars with their arbitration, links, vaults and clock domains.
    - [DramCpu] ([cpu.*]): the request sources, proved against the interface only.
    - [Cosim] ([memory_system.*], [cosimulation.*], and the end of [csrc/ram.cc]): the facade that
      chooses a system, the co-simulation models as instances of the class [CoDRAMsim3] with the
      promises [CoDRAMLaws], and the bridge to the design, proved against those promises.

    Emulator ([main/resources/csrc/]).  The main loop evaluates the design, which calls the memory
    and the bridge, and steps the DRAM simulator.
    - [SimRam] ([ram.*]): image readers and the memories behind the design's port, with recorded and
      replayed footprints.  [ElfLoader] ([elfloader.*]), [Compress] ([compress.*]), [Image] (the
      constructors of [ram.cc]): the formats of a memory image.
    - [Emulator] ([emulator.cc], [remote_bitbang.*], [SimJTAG.cc]): reset schedule, main loop, outcome,
      JTAG.  The design is any tree of calls ([Emulator.dpi]).
    - [Comlog] ([comlog.cc]), [FloatFix] ([float_fix.cc], with the recoding of floats from
      [hardfloat/src/main/scala]): the tools that put commit logs in order.

    Runtime ([riscv-tests/common/], [riscv-tests/spec95-equivalent/]).
    - [Memory]: byte-addressed memory.  [CString], [Printf]: string and output functions of
      [syscalls.c] and [env/v/string.c].  [Runtime]: exit collection, trap dispatch, counters.
    - [Barrier]: the barrier of [util.h].  [HostPort]: the mailbox to the host.  [Htif]: the file
      and clock calls of [htif_syscalls.c].  [Sbrk]: the program break.  [Malloc]:
      [debug/programs/tiny-malloc.c].
    - [Sv39], [Process]: the page-table format and [process_dispatch.c], which gives each hart a
      private copy of its data.

    Test environment ([riscv-tests/env/v/]).  [Vm]: demand paging, eviction, boot, exit.

    Stress tests ([riscv-tests/common/], [riscv-tests/torture/]).  [Ring], [RingSeq]:
    [ck_ring.h], concurrent and sequential.  [Queue], [Workqueue]: the queues and the test over
    them.  [Torture]: the atomic-operation tests.  [CohChecker]: [coh_checker.h].
    [CkPr]: the atomic primitives [ck/ck_pr.h] over the GCC port, on which the ring is built.

    Benchmarks ([riscv-tests/benchmarks/]).  [Towers], [Qsort] ([qsort_main.c]) and [Kernels] ([rsort.c],
    [median.c], [multiply.c]): the programs of those names.  [Matmul]: the blocked multiplication of
    [mm/], [spmv], [mt-matmul] and [mt-vvadd].  [MtLang], [MtKernels], [MtMatmul]: the variants of
    [mt-matmul] in [riscv-tests/mt], written in a language of assignments and barriers and proved by
    a checker that is itself proved sound for every interleaving; [MtVvadd]: the variants of
    [mt-vvadd] there.  [Pmp] ([pmp.c]): the test of physical memory
    protection, against the rule of the architecture.

    ** How code becomes definitions

    Functions keep the source's names.  Machine integers are [Z] with the wrap-around written out
    ([u64], [s32], ...).  Code that can fail returns [res]: [Ok], [Err] with the way the program
    stops, or [NoFuel].  Objects are records and methods pass them along; loops over containers
    are [forM] and [forR] (with early return).  Code that several harts run at once is a step
    relation whose steps are the source's memory accesses.

    ** What is shown

    - DRAM: a bank obeys the JEDEC state machine; a channel issues what it finds ready without
      error; commands keep the distances of the tables, except for an entry of the bank refreshes
      that the channel does not apply ([ChannelState.bank_refresh_unspaced]), and at most four
      activations fall into tFAW; under the staggered policies each rank or bank comes due once
      per round of refreshes, under the other one only the first rank
      ([DramRefresh.simultaneous_first_rank]); selection takes exactly the issued access out of
      the queues and keeps a write behind earlier reads of its location; a controller never stops
      and never loses, invents or repeats a request; closing an epoch loses no count; processors
      run on every system that keeps the promises of the interface.  The memory cube keeps them
      too, with the kind of answer each packet asks for.  The address mapping of a memory below
      2^64 bytes is a bijection, and malformed mapping strings are refused.
    - Emulator: the bridge hands back exactly the tags it took; the main loop ends, whatever the
      design does, and takes no request during reset; the port reads and writes single words; a
      run, its replay from footprints and a run on the saved image see the same memory; images
      load from every format and snapshots are read back, up to the word behind the page of the
      readers of compressed files, which they store too ([Compress.stale_word_stored]); zstd files
      of several frames are corrupted ([Compress.frames_corrupted]), and ELF segments without data
      are skipped ([ElfLoader.bss_segment_skipped]); the JTAG socket drives the pins, but ignores
      resets and hangs when a client leaves ([Emulator.closed_client_spins]); logs come out in the
      order of commit, and floats at column 40 are repaired except for subnormal numbers
      ([FloatFix.single_digit_not_repaired]).
    - Runtime: the string and output functions meet their contracts; barrier and host port are
      safe and do not deadlock; exits are collected; standard streams stay open; the allocator is
      first fit over a tiling of the heap, with merging, where sizes and the gap to the stack do
      not wrap around ([Malloc.size_overflow], [Malloc.gap_underflow]); harts get disjoint memory.
    - Test environment: paging is invisible to the programs and its checks never fail.
    - Stress tests: ring and spinlocks are correct under every interleaving, and the tests pass on
      hardware that is coherent and atomic.  The atomic primitives, loops around compare-and-swap
      included, are indivisible, and some hart always gets on.
    - Benchmarks: the sorting programs run to their end inside their arrays and stack, and accept
      exactly the sorted data; the blocked multiplication sums the right terms in any arithmetic,
      and the sparse one computes its plain definition in exact arithmetic; forty parallel matrix
      kernels multiply in every interleaving, while two others lose updates and one reads behind
      its array; the vector additions add every element once where their block sizes fit, and
      where not, some lose elements or write behind the end; the protection test passes exactly on
      hardware that follows the architecture in every access it makes.

    ** Bounds and fuel

    Fuelled loops come with theorems that a stated fuel is enough: the length of the string or
    list they walk ([CString], [Malloc.list_fuel], [DramSystem.drain], [Hmc.return_fuel]), 31
    halvings for [LogBase2], the depth of the recursion ([Towers]), a turn per chunk
    ([Compress.chunk_fuel]), a turn per part of the array ([Qsort.qsort_main_passes]), or a turn
    per cycle up to the limit ([Emulator.emulator_runs]).  The loops around socket calls take the
    results of the calls as a list and end with the call that makes them end.  The controller's
    theorems assume that its 64-bit clock is more than 2^31 cycles from its end, since delays are
    [int].  They also assume self-refresh is off ([Controller.self_refresh_wakeup_stops] shows
    why) and, where two commands can be issued per cycle, that the tables keep accesses a cycle
    apart ([Controller.hbm1_system] proves it for the configuration of the unit tests).  The cube
    counts picoseconds, so its horizon is 2^54 cycles; a link faster than a flit per picosecond
    stops its clock ([Hmc.fast_links_stuck]).  How many DRAM cycles fall into a processor cycle is
    computed in floating point and is a parameter of [Cosim.tick].

    ** Not modelled

    Floating point (energy, thermal model, [verifyDouble]); text that is printed and traces;
    option parsing of the emulator and of [DRAMSIM3/src/main.cc]; the front-end server, the
    results of socket calls and compression libraries, which are parameters; cloning of simulated
    memories; assembly code and device registers; vendored headers; the ported benchmark programs;
    of [riscv-tests/benchmarks], Dhrystone, the driver of [mm] and the single-hart vector
    addition; the processor itself, except for the float recoding.  Of the parts listed as partly
    modelled, the manifest says what is left out. *)

From stdpp Require Export base numbers list.
From Stdlib Require Export ZArith Lia Bool.

#[export] Set Default Goal Selector "!".
Local Open Scope Z_scope.

(** ** Machine integers *)

(** Unsigned and signed wrap-around at width [w]. *)
Definition wrapU (w z : Z) : Z := z mod 2 ^ w.
Definition wrapS (w z : Z) : Z := (z + 2 ^ (w - 1)) mod 2 ^ w - 2 ^ (w - 1).

Abbreviation u8 := (wrapU 8).
Abbreviation u32 := (wrapU 32).
Abbreviation u64 := (wrapU 64).
Abbreviation s32 := (wrapS 32).
Abbreviation s64 := (wrapS 64).

Declare Scope word_scope.
Delimit Scope word_scope with word.
Notation "a ⊞ b" := (u64 (a + b)) (at level 50, left associativity) : word_scope.
Notation "a ⊟ b" := (u64 (a - b)) (at level 50, left associativity) : word_scope.
Notation "a ⊠ b" := (u64 (a * b)) (at level 40, left associativity) : word_scope.

Lemma wrapU_range w z : 0 <= w -> 0 <= wrapU w z < 2 ^ w.
Proof. intros. apply Z.mod_pos_bound. lia. Qed.

Lemma wrapU_small w z : 0 <= z < 2 ^ w -> wrapU w z = z.
Proof. apply Z.mod_small. Qed.

Lemma wrapU_wrapU w z : 0 <= w -> wrapU w (wrapU w z) = wrapU w z.
Proof. intros. apply wrapU_small, wrapU_range; lia. Qed.

Lemma wrapU_add_l w a b : wrapU w (wrapU w a + b) = wrapU w (a + b).
Proof. apply Zplus_mod_idemp_l. Qed.

Lemma wrapU_add_r w a b : wrapU w (a + wrapU w b) = wrapU w (a + b).
Proof. apply Zplus_mod_idemp_r. Qed.

Lemma wrapU_sub_l w a b : wrapU w (wrapU w a - b) = wrapU w (a - b).
Proof. apply Zminus_mod_idemp_l. Qed.

Lemma wrapU_sub_r w a b : wrapU w (a - wrapU w b) = wrapU w (a - b).
Proof. apply Zminus_mod_idemp_r. Qed.

Lemma wrapU_eq w a b :
  0 <= w -> wrapU w a = wrapU w b <-> exists k, a = b + k * 2 ^ w.
Proof.
  intros Hw. pose proof (Z.pow_pos_nonneg 2 w ltac:(lia) Hw). unfold wrapU. split.
  - intros E. exists (a / 2 ^ w - b / 2 ^ w).
    pose proof (Z.div_mod a (2 ^ w)). pose proof (Z.div_mod b (2 ^ w)). nia.
  - intros [k ->]. apply Z.mod_add. lia.
Qed.

Lemma wrapS_range w z : 0 < w -> - 2 ^ (w - 1) <= wrapS w z < 2 ^ (w - 1).
Proof.
  intros. unfold wrapS.
  pose proof (Z.mod_pos_bound (z + 2 ^ (w - 1)) (2 ^ w) ltac:(lia)).
  assert (2 ^ w = 2 * 2 ^ (w - 1)) by (rewrite <-Z.pow_succ_r by lia; f_equal; lia).
  lia.
Qed.

Lemma wrapS_small w z : 0 < w -> - 2 ^ (w - 1) <= z < 2 ^ (w - 1) -> wrapS w z = z.
Proof.
  intros. unfold wrapS.
  assert (2 ^ w = 2 * 2 ^ (w - 1)) by (rewrite <-Z.pow_succ_r by lia; f_equal; lia).
  rewrite Z.mod_small by lia. lia.
Qed.

Lemma wrapS_wrapU w z : 0 < w -> wrapS w (wrapU w z) = wrapS w z.
Proof. intros. unfold wrapS, wrapU. by rewrite Zplus_mod_idemp_l. Qed.

Lemma wrapU_wrapS w z : 0 < w -> wrapU w (wrapS w z) = wrapU w z.
Proof.
  intros. unfold wrapS, wrapU. rewrite Zminus_mod_idemp_l. f_equal. lia.
Qed.

Lemma wrapS_cong w a b : 0 < w -> wrapU w a = wrapU w b -> wrapS w a = wrapS w b.
Proof. intros Hw E. by rewrite <- (wrapS_wrapU w a), E, wrapS_wrapU. Qed.

Lemma wrapS_add w a b : 0 < w -> wrapS w (wrapS w a + wrapS w b) = wrapS w (a + b).
Proof.
  intros Hw. apply wrapS_cong; [done|].
  transitivity (wrapU w (wrapU w (wrapS w a) + wrapU w (wrapS w b))); [by rewrite wrapU_add_l, wrapU_add_r|].
  rewrite !wrapU_wrapS by done. by rewrite wrapU_add_l, wrapU_add_r.
Qed.

Lemma wrapS_mul_l w a b : 0 < w -> wrapS w (wrapS w a * b) = wrapS w (a * b).
Proof.
  intros Hw. apply wrapS_cong; [done|]. unfold wrapU at 1 2. rewrite <- Zmult_mod_idemp_l.
  change (wrapS w a mod 2 ^ w) with (wrapU w (wrapS w a)). rewrite wrapU_wrapS by done. apply Zmult_mod_idemp_l.
Qed.

(** ** Results: values, error exits, and exhausted fuel *)

Inductive res (E A : Type) : Type :=
| Ok (a : A)
| Err (e : E)
| NoFuel.
Arguments Ok {E A} a.
Arguments Err {E A} e.
Arguments NoFuel {E A}.

#[export] Instance res_ret E : MRet (res E) := fun A a => Ok a.
#[export] Instance res_bind E : MBind (res E) := fun A B f m =>
  match m with Ok a => f a | Err e => Err e | NoFuel => NoFuel end.

(** ** Loops *)

(** A C [while (cond) body]: at most [fuel] tests of the condition. *)
Fixpoint while {S} (fuel : nat) (cond : S -> bool) (body : S -> S) (s : S) : option S :=
  match fuel with
  | O => None
  | Datatypes.S fuel => if cond s then while fuel cond body (body s) else Some s
  end.

(** The same with a body that may leave the function with an error. *)
Fixpoint whileE {E S} (fuel : nat) (cond : S -> bool) (body : S -> res E S) (s : S)
    : res E S :=
  match fuel with
  | O => NoFuel
  | Datatypes.S fuel =>
      if cond s then
        match body s with
        | Ok s' => whileE fuel cond body s'
        | Err e => Err e
        | NoFuel => NoFuel
        end
      else Ok s
  end.

(** Total correctness of a loop: an invariant and a decreasing measure below the fuel. *)
Lemma while_rule {S} (I : S -> Prop) (m : S -> nat) cond body :
  (forall s, I s -> cond s = true -> I (body s) /\ (m (body s) < m s)%nat) ->
  forall fuel s, I s -> (m s < fuel)%nat ->
  exists s', while fuel cond body s = Some s' /\ I s' /\ cond s' = false.
Proof.
  intros Hbody fuel. induction fuel as [|fuel IH]; intros s HI Hm; [lia|].
  simpl. destruct (cond s) eqn:E; [|eauto].
  destruct (Hbody s HI E) as [HI' Hm']. apply IH; [done|lia].
Qed.

Lemma whileE_rule {E S} (I : S -> Prop) (m : S -> nat) cond (body : S -> res E S) :
  (forall s, I s -> cond s = true ->
     exists s', body s = Ok s' /\ I s' /\ (m s' < m s)%nat) ->
  forall fuel s, I s -> (m s < fuel)%nat ->
  exists s', whileE fuel cond body s = Ok s' /\ I s' /\ cond s' = false.
Proof.
  intros Hbody fuel. induction fuel as [|fuel IH]; intros s HI Hm; [lia|].
  simpl. destruct (cond s) eqn:Ec; [|eauto].
  destruct (Hbody s HI Ec) as (s' & -> & HI' & Hm'). apply IH; [done|lia].
Qed.

(** More fuel never changes a result. *)
Lemma while_more {S} cond (body : S -> S) fuel fuel' s r :
  while fuel cond body s = Some r -> (fuel <= fuel')%nat ->
  while fuel' cond body s = Some r.
Proof.
  revert fuel' s. induction fuel as [|fuel IH]; intros [|fuel'] s; simpl; try done; try lia.
  destruct (cond s); [|done]. intros ? ?. apply IH; [done|lia].
Qed.

(** ** Automation *)

(** Split every boolean integer comparison in sight into its two cases. *)
Ltac split_cmp :=
  repeat match goal with
  | H : context [Z.ltb ?a ?b] |- _ => destruct (Z.ltb_spec a b)
  | H : context [Z.leb ?a ?b] |- _ => destruct (Z.leb_spec a b)
  | H : context [Z.eqb ?a ?b] |- _ => destruct (Z.eqb_spec a b)
  | |- context [Z.ltb ?a ?b] => destruct (Z.ltb_spec a b)
  | |- context [Z.leb ?a ?b] => destruct (Z.leb_spec a b)
  | |- context [Z.eqb ?a ?b] => destruct (Z.eqb_spec a b)
  end; simpl in *.

(** Linear arithmetic with division and remainder by constants. *)
Ltac dlia := Z.to_euclidean_division_equations; lia.

Create HintDb wrap discriminated.
#[export] Hint Rewrite wrapU_wrapU wrapU_add_l wrapU_add_r wrapU_sub_l wrapU_sub_r
  using lia : wrap.
#[export] Hint Resolve wrapU_range wrapS_range : wrap.

(** Remove a wrap-around whose argument is in range. *)
Ltac unwrap :=
  repeat first
    [ rewrite wrapU_small by (simpl; lia)
    | rewrite wrapS_small by (simpl; lia) ].

(** ** Lists of integers *)

Lemma seqZ_snoc (s n : Z) : 0 <= n -> seqZ s (n + 1) = seqZ s n ++ [s + n].
Proof. intros. rewrite <-(Z2Nat.id n), Z.add_1_r, <-Nat2Z.inj_succ by lia. apply seqZ_S. Qed.

(** ** Arrays of unbounded length: one element replaced *)

Definition upd {A} (f : Z -> A) (i : Z) (v : A) : Z -> A := fun j => if j =? i then v else f j.

Lemma upd_eq {A} (f : Z -> A) i v : upd f i v i = v.
Proof. unfold upd. by rewrite Z.eqb_refl. Qed.

Lemma upd_ne {A} (f : Z -> A) i j v : j <> i -> upd f i v j = f j.
Proof. intros. unfold upd. by rewrite (proj2 (Z.eqb_neq j i)). Qed.

(** ** Bits *)

Lemma testbit_high n p i : 0 <= n < 2 ^ p -> 0 <= p <= i -> Z.testbit n i = false.
Proof.
  intros. rewrite <-(Z.mod_small n (2 ^ p)) by lia. apply Z.mod_pow2_bits_high. lia.
Qed.

Lemma testbit_wrapU w z i :
  0 <= w -> Z.testbit (wrapU w z) i = (i <? w) && Z.testbit z i.
Proof.
  intros. unfold wrapU. destruct (Z.ltb_spec i w); simpl.
  - destruct (Z.leb_spec 0 i); [|by rewrite !Z.testbit_neg_r by lia].
    by apply Z.mod_pow2_bits_low.
  - apply Z.mod_pow2_bits_high. lia.
Qed.

Lemma land_pow2_mask x k : 0 <= k -> Z.land x (2 ^ k - 1) = x mod 2 ^ k.
Proof. intros. rewrite <-Z.land_ones by lia. f_equal. by rewrite Z.ones_equiv, Z.sub_1_r. Qed.

Lemma land_bound a b w : 0 <= w -> 0 <= b < 2 ^ w -> 0 <= Z.land a b < 2 ^ w.
Proof.
  intros. assert (0 <= Z.land a b) by (apply Z.land_nonneg; lia).
  split; [done|]. destruct (Z.eq_dec (Z.land a b) 0); [lia|].
  apply Z.log2_lt_pow2; [lia|].
  assert (Z.testbit (Z.land a b) (Z.log2 (Z.land a b)) = true) as Ht
    by (apply Z.bit_log2; lia).
  rewrite Z.land_spec in Ht. apply andb_true_iff in Ht as [_ Hb].
  destruct (Z.lt_ge_cases (Z.log2 (Z.land a b)) w); [done|].
  rewrite (testbit_high b w) in Hb by lia. done.
Qed.

Lemma lor_disjoint_add a b k :
  0 <= k -> 0 <= b < 2 ^ k -> Z.lor (a * 2 ^ k) b = a * 2 ^ k + b.
Proof.
  intros Hk Hb. rewrite <-Z.lxor_lor, <-Z.add_nocarry_lxor; try done;
  apply Z.bits_inj'; intros i Hi; rewrite Z.land_spec, Z.bits_0;
  (destruct (Z.lt_ge_cases i k);
   [ rewrite Z.mul_pow2_bits_low by lia; done
   | rewrite (testbit_high b k) by lia; apply andb_false_r ]).
Qed.

Lemma lor_bound a b w :
  0 <= w -> 0 <= a < 2 ^ w -> 0 <= b < 2 ^ w -> 0 <= Z.lor a b < 2 ^ w.
Proof.
  intros. assert (0 <= Z.lor a b) by (apply Z.lor_nonneg; lia). split; [done|].
  destruct (Z.eq_dec (Z.lor a b) 0); [lia|]. apply Z.log2_lt_pow2; [lia|].
  assert (Z.testbit (Z.lor a b) (Z.log2 (Z.lor a b)) = true) as Ht
    by (apply Z.bit_log2; lia).
  destruct (Z.lt_ge_cases (Z.log2 (Z.lor a b)) w); [done|].
  rewrite Z.lor_spec, (testbit_high a w), (testbit_high b w) in Ht by lia. done.
Qed.

Lemma lxor_bound a b w :
  0 <= w -> 0 <= a < 2 ^ w -> 0 <= b < 2 ^ w -> 0 <= Z.lxor a b < 2 ^ w.
Proof.
  intros. assert (0 <= Z.lxor a b) by (apply Z.lxor_nonneg; lia). split; [done|].
  destruct (Z.eq_dec (Z.lxor a b) 0); [lia|]. apply Z.log2_lt_pow2; [lia|].
  assert (Z.testbit (Z.lxor a b) (Z.log2 (Z.lxor a b)) = true) as Ht
    by (apply Z.bit_log2; lia).
  destruct (Z.lt_ge_cases (Z.log2 (Z.lxor a b)) w); [done|].
  rewrite Z.lxor_spec, (testbit_high a w), (testbit_high b w) in Ht by lia. done.
Qed.

Create HintDb bits discriminated.
#[export] Hint Rewrite Z.land_spec Z.lor_spec Z.lxor_spec Z.bits_0 : bits.
#[export] Hint Rewrite Z.shiftr_spec Z.shiftl_spec testbit_wrapU Z.lnot_spec
  using lia : bits.
