(* ===== verification/Memory.v ===== *)
(** * Byte-addressed memory

    The bare-metal programs run with all of memory mapped, so a memory is a total function
    from addresses to byte values.  Words are little-endian, as on RISC-V.  [cstr m a l]
    says that the NUL-terminated string [l] is stored at [a]. *)
From S2P Require Import Prelude.
Local Open Scope Z_scope.

Abbreviation mem := (Z -> Z).

(** Every cell holds a byte. *)
Definition wf_mem (m : mem) : Prop := forall a, 0 <= m a < 256.

Definition store8 (m : mem) (a v : Z) : mem := fun x => if x =? a then u8 v else m x.

Fixpoint load_le (n : nat) (m : mem) (a : Z) : Z :=
  match n with
  | O => 0
  | S n => m a + 256 * load_le n m (a + 1)
  end.

Fixpoint store_le (n : nat) (m : mem) (a v : Z) : mem :=
  match n with
  | O => m
  | S n => store_le n (store8 m a v) (a + 1) (v / 256)
  end.

Abbreviation load64 := (load_le 8).
Abbreviation store64 := (store_le 8).

(** [in_range a n x]: the address [x] lies in the [n] bytes at [a]. *)
Definition in_range (a n x : Z) : bool := (a <=? x) && (x <? a + n).

Lemma in_range_spec a n x : in_range a n x = true <-> a <= x < a + n.
Proof. unfold in_range. rewrite andb_true_iff, Z.leb_le, Z.ltb_lt. lia. Qed.

Lemma in_range_out a n x : in_range a n x = false <-> ~ (a <= x < a + n).
Proof. rewrite <-not_true_iff_false, in_range_spec. done. Qed.

(** Decide a membership in a byte range by arithmetic. *)
Ltac range_cases :=
  repeat match goal with
  | |- context [in_range ?a ?n ?x] =>
      let H := fresh "Hr" in
      destruct (in_range a n x) eqn:H;
      [apply in_range_spec in H | apply in_range_out in H]
  end.

Lemma store_le_lookup n m a v x :
  store_le n m a v x =
    if in_range a (Z.of_nat n) x then (v / 256 ^ (x - a)) mod 256 else m x.
Proof.
  revert m a v. induction n as [|n IH]; intros m a v; simpl store_le.
  - range_cases; [lia|done].
  - rewrite IH. unfold store8, wrapU. range_cases; try lia.
    + replace (x - a) with (1 + (x - (a + 1))) by lia.
      by rewrite Z.pow_add_r, <-Z.div_div by lia.
    + destruct (Z.eqb_spec x a); [|lia]. subst. by rewrite Z.sub_diag, Z.div_1_r.
    + destruct (Z.eqb_spec x a); [lia|done].
Qed.

Lemma load_le_range n m a : wf_mem m -> 0 <= load_le n m a < 256 ^ Z.of_nat n.
Proof.
  intros Hm. revert a. induction n as [|n IH]; intros a; [simpl; lia|].
  cbn [load_le]. specialize (IH (a + 1)). specialize (Hm a).
  rewrite Nat2Z.inj_succ, Z.pow_succ_r by lia. lia.
Qed.

Lemma load_le_byte n m a i :
  wf_mem m -> 0 <= i < Z.of_nat n -> (load_le n m a / 256 ^ i) mod 256 = m (a + i).
Proof.
  intros Hm. revert a i. induction n as [|n IH]; intros a i Hi; [lia|].
  cbn [load_le]. pose proof (Hm a).
  destruct (Z.eq_dec i 0) as [->|].
  - rewrite Z.div_1_r, Z.add_0_r. rewrite Z.mul_comm, Z.mod_add by lia. by apply Z.mod_small.
  - replace i with (1 + (i - 1)) at 1 by lia.
    rewrite Z.pow_add_r, <-Z.div_div by lia.
    replace ((m a + 256 * load_le n m (a + 1)) / 256 ^ 1) with (load_le n m (a + 1)).
    + rewrite IH by lia. f_equal. lia.
    + rewrite Z.pow_1_r, Z.mul_comm, Z.div_add, Z.div_small by lia. lia.
Qed.

(** Storing a loaded word copies its bytes. *)
Lemma copy_le_lookup n m d s x :
  wf_mem m ->
  store_le n m d (load_le n m s) x =
    if in_range d (Z.of_nat n) x then m (s + (x - d)) else m x.
Proof.
  intros Hm. rewrite store_le_lookup. range_cases; [|done].
  apply load_le_byte; [done|lia].
Qed.

Lemma load_le_ext n m m' a a' :
  (forall i, 0 <= i < Z.of_nat n -> m (a + i) = m' (a' + i)) ->
  load_le n m a = load_le n m' a'.
Proof.
  revert a a'. induction n as [|n IH]; intros a a' H; [done|]. cbn [load_le].
  rewrite (IH (a + 1) (a' + 1)).
  - specialize (H 0). rewrite !Z.add_0_r in H. rewrite H by lia. done.
  - intros i Hi. replace (a + 1 + i) with (a + (i + 1)) by lia.
    replace (a' + 1 + i) with (a' + (i + 1)) by lia. apply H. lia.
Qed.

Lemma load_le_inj n m m' a a' :
  wf_mem m -> wf_mem m' ->
  load_le n m a = load_le n m' a' <->
  (forall i, 0 <= i < Z.of_nat n -> m (a + i) = m' (a' + i)).
Proof.
  intros Hm Hm'. split; [|apply load_le_ext].
  intros E i Hi. rewrite <-(load_le_byte n m a i), <-(load_le_byte n m' a' i) by done.
  by rewrite E.
Qed.

(** A stored word reads back. *)
Lemma load_le_store_le n : forall m a v,
  0 <= v < 256 ^ Z.of_nat n -> load_le n (store_le n m a v) a = v.
Proof.
  induction n as [|n IH]; intros m a v Hv; [simpl in *; lia|].
  rewrite Nat2Z.inj_succ, Z.pow_succ_r in Hv by lia. cbn [load_le store_le].
  rewrite IH by (split; [dlia|apply Z.div_lt_upper_bound; lia]).
  rewrite store_le_lookup. range_cases; [lia|].
  unfold store8, wrapU. rewrite Z.eqb_refl. change (2 ^ 8) with 256. dlia.
Qed.

(** Disjoint words do not interfere. *)
Lemma load_le_store_le_ne n k m a b v :
  b + Z.of_nat n <= a \/ a + Z.of_nat k <= b ->
  load_le n (store_le k m a v) b = load_le n m b.
Proof.
  intros H. apply load_le_ext. intros i Hi. rewrite store_le_lookup. range_cases; [lia|done].
Qed.

Lemma load64_store64 m a b v :
  a mod 8 = 0 -> b mod 8 = 0 -> 0 <= v < 2 ^ 64 ->
  load64 (store64 m a v) b = if a =? b then v else load64 m b.
Proof.
  intros Ha Hb Hv. destruct (Z.eqb_spec a b) as [->|Hne].
  - by apply load_le_store_le.
  - apply load_le_store_le_ne. change (Z.of_nat 8) with 8. dlia.
Qed.

Lemma wf_store8 m a v : wf_mem m -> wf_mem (store8 m a v).
Proof.
  intros Hm x. unfold store8. destruct (x =? a); [|apply Hm].
  apply (wrapU_range 8). lia.
Qed.

Lemma wf_store_le n m a v : wf_mem m -> wf_mem (store_le n m a v).
Proof. revert m a v. induction n; simpl; eauto using wf_store8. Qed.
#[export] Hint Resolve wf_store8 wf_store_le : core.

Lemma store8_lookup m a v x : store8 m a v x = if x =? a then u8 v else m x.
Proof. done. Qed.

(** ** NUL-terminated strings *)

Fixpoint cstr (m : mem) (a : Z) (l : list Z) : Prop :=
  match l with
  | [] => m a = 0
  | c :: l => m a = c /\ 0 < c < 256 /\ cstr m (a + 1) l
  end.

Lemma cstr_ext m m' a l :
  (forall i, 0 <= i <= Z.of_nat (length l) -> m (a + i) = m' (a + i)) ->
  cstr m a l -> cstr m' a l.
Proof.
  revert a. induction l as [|c l IH]; intros a H; simpl.
  - specialize (H 0). rewrite !Z.add_0_r in H. rewrite H by (simpl; lia). done.
  - intros (Ha & Hc & Hl). split_and!; [|lia|lia|].
    + specialize (H 0). rewrite !Z.add_0_r in H. rewrite <-H by lia. done.
    + eapply IH; [|done]. intros i Hi. rewrite <-!Z.add_assoc. apply H. simpl. lia.
Qed.

Lemma cstr_lookup m a l i c :
  cstr m a l -> l !! i = Some c -> m (a + Z.of_nat i) = c /\ 0 < c < 256.
Proof.
  revert a i. induction l as [|c' l IH]; intros a [|i]; simpl; try done.
  - intros (Ha & Hc & _) [= <-]. rewrite Z.add_0_r. done.
  - intros (_ & _ & Hl) Hi. destruct (IH _ _ Hl Hi) as [<- ?]. split; [|done].
    f_equal. lia.
Qed.

Lemma cstr_end m a l : cstr m a l -> m (a + Z.of_nat (length l)) = 0.
Proof.
  revert a. induction l as [|c l IH]; intros a; simpl.
  - by rewrite Z.add_0_r.
  - intros (_ & _ & Hl). rewrite <-(IH _ Hl). f_equal. lia.
Qed.

Lemma cstr_nonzero m a l i :
  cstr m a l -> 0 <= i < Z.of_nat (length l) -> 0 < m (a + i) < 256.
Proof.
  intros Hs Hi. destruct (lookup_lt_is_Some_2 l (Z.to_nat i)) as [c Hc]; [lia|].
  destruct (cstr_lookup _ _ _ _ _ Hs Hc) as [E ?]. rewrite Z2Nat.id in E by lia. lia.
Qed.

(** A memory that holds the string [l] at address [a], and zero elsewhere. *)
Definition mem_of (a : Z) (l : list Z) : mem :=
  fun x => if x <? a then 0 else nth (Z.to_nat (x - a)) l 0.
