(* ===== verification/CString.v ===== *)
(** * The C string routines of the bare-metal runtime

    [memcpy], [memset], [strlen], [strnlen], [strcmp], [strcpy] and [atol] of
    riscv-tests/common/syscalls.c, and [memcmp] of riscv-tests/env/v/string.c (whose other
    functions repeat the first file's text).  [uintptr_t] has 64 bits, [char] is unsigned
    (the RISC-V ABI), pointers are 64-bit addresses. *)
From S2P Require Import Prelude Memory.
Local Open Scope Z_scope.
Local Open Scope word_scope.

(** ** Definitions *)

(** The pointer and length are all multiples of [sizeof(uintptr_t)]. *)
Definition memcpy_aligned (dest src len : Z) : bool :=
  Z.land (Z.lor (Z.lor dest src) len) (8 - 1) =? 0.

Definition memcpy (m : mem) (dest src len : Z) : option (mem * Z) :=
  let fuel := S (Z.to_nat len) in
  r ← (if memcpy_aligned dest src len then
         while fuel (fun '(d, s, m) => d <? dest ⊞ len)
           (fun '(d, s, m) => (d ⊞ 8, s ⊞ 8, store64 m d (load64 m s)))
           (dest, src, m)
       else
         while fuel (fun '(d, s, m) => d <? dest ⊞ len)
           (fun '(d, s, m) => (d ⊞ 1, s ⊞ 1, store8 m d (m s)))
           (dest, src, m));
  mret (r.2, dest).

Definition memset_aligned (dest len : Z) : bool :=
  Z.land (Z.lor dest len) (8 - 1) =? 0.

(** The byte replicated over a 64-bit word by the three shift-and-or steps. *)
Definition memset_word (byte : Z) : Z :=
  let word := Z.land byte 255 in
  let word := u64 (Z.lor word (Z.shiftl word 8)) in
  let word := u64 (Z.lor word (Z.shiftl word 16)) in
  u64 (Z.lor word (Z.shiftl (u64 (Z.shiftl word 16)) 16)).

Definition memset (m : mem) (dest byte len : Z) : option (mem * Z) :=
  let fuel := S (Z.to_nat len) in
  r ← (if memset_aligned dest len then
         while fuel (fun '(d, m) => d <? dest ⊞ len)
           (fun '(d, m) => (d ⊞ 8, store64 m d (memset_word byte))) (dest, m)
       else
         while fuel (fun '(d, m) => d <? dest ⊞ len)
           (fun '(d, m) => (d ⊞ 1, store8 m d byte)) (dest, m));
  mret (r.2, dest).

Definition strlen (fuel : nat) (m : mem) (s : Z) : option Z :=
  p ← while fuel (fun p => negb (m p =? 0)) (fun p => p ⊞ 1) s;
  mret (p ⊟ s).

Definition strnlen (fuel : nat) (m : mem) (s n : Z) : option Z :=
  r ← while fuel (fun '(n, p) => negb (n =? 0) && negb (m p =? 0))
        (fun '(n, p) => (n ⊟ 1, p ⊞ 1)) (n, s);
  mret (r.2 ⊟ s).

(** A [do ... while] loop: the body runs once before the first test. *)
Definition strcmp_step (m : mem) : Z * Z * Z * Z -> Z * Z * Z * Z :=
  fun '(_, _, s1, s2) => (m s1, m s2, s1 ⊞ 1, s2 ⊞ 1).

Definition strcmp (fuel : nat) (m : mem) (s1 s2 : Z) : option Z :=
  r ← while fuel (fun '(c1, c2, _, _) => negb (c1 =? 0) && (c1 =? c2)) (strcmp_step m)
        (strcmp_step m (0, 0, s1, s2));
  let '(c1, c2, _, _) := r in mret (c1 - c2).

(** The assignment in the loop condition of [strcpy]: the state carries the copied byte. *)
Definition strcpy_step : Z * Z * Z * mem -> Z * Z * Z * mem :=
  fun '(_, d, s, m) => (m s, d ⊞ 1, s ⊞ 1, store8 m d (m s)).

Definition strcpy (fuel : nat) (m : mem) (dest src : Z) : option (mem * Z) :=
  r ← while fuel (fun '(c, _, _, _) => negb (c =? 0)) strcpy_step
        (strcpy_step (0, dest, src, m));
  let '(_, _, _, m') := r in mret (m', dest).

(** 64-bit signed accumulation; the digit test is only for NUL, as in the source. *)
Definition atol (fuel : nat) (m : mem) (str : Z) : option Z :=
  str ← while fuel (fun p => m p =? 32) (fun p => p ⊞ 1) str;
  let signed := (m str =? 45) || (m str =? 43) in
  let sign := signed && (m str =? 45) in
  let str := if signed then str ⊞ 1 else str in
  r ← while fuel (fun '(res, p) => negb (m p =? 0))
        (fun '(res, p) => (s64 (s64 (res * 10) + (m p - 48)), p ⊞ 1)) (0, str);
  mret (if sign then s64 (- r.1) else r.1).

(** The whole-word scan of [memcmp]: skips the leading equal words. *)
Definition memcmp_words (m : mem) (s1 s2 n : Z) : option (Z * Z) :=
  let stop := s1 ⊞ 8 * (n / 8) in
  while (S (Z.to_nat n))
    (fun '(u1, u2) => (u1 <? stop) && (load64 m u1 =? load64 m u2))
    (fun '(u1, u2) => (u1 ⊞ 8, u2 ⊞ 8)) (s1, s2).

(** The byte loop [while (n--)] and its early [return c1 - c2]. *)
Fixpoint memcmp_bytes (n : nat) (m : mem) (s1 s2 : Z) : Z :=
  match n with
  | O => 0
  | S n =>
      let c1 := m s1 in
      let c2 := m s2 in
      if negb (c1 =? c2) then c1 - c2 else memcmp_bytes n m (s1 ⊞ 1) (s2 ⊞ 1)
  end.

Definition memcmp (m : mem) (s1 s2 n : Z) : option Z :=
  if Z.land (Z.lor s1 s2) (8 - 1) =? 0 then
    '(u1, u2) ← memcmp_words m s1 s2 n;
    mret (memcmp_bytes (Z.to_nat (n ⊟ (u1 - s1))) m u1 u2)
  else mret (memcmp_bytes (Z.to_nat n) m s1 s2).

(** ** Alignment tests *)

Lemma land7 x : Z.land x (8 - 1) = x mod 8.
Proof. apply (land_pow2_mask x 3). lia. Qed.

Lemma lor_land7 a b :
  Z.land (Z.lor a b) (8 - 1) = 0 <-> Z.land a (8 - 1) = 0 /\ Z.land b (8 - 1) = 0.
Proof. rewrite Z.land_lor_distr_l, Z.lor_eq_0_iff. done. Qed.

Lemma memcpy_aligned_spec d s n :
  memcpy_aligned d s n = true <-> d mod 8 = 0 /\ s mod 8 = 0 /\ n mod 8 = 0.
Proof.
  unfold memcpy_aligned. rewrite Z.eqb_eq, !lor_land7, !land7. tauto.
Qed.

Lemma memset_aligned_spec d n :
  memset_aligned d n = true <-> d mod 8 = 0 /\ n mod 8 = 0.
Proof. unfold memset_aligned. rewrite Z.eqb_eq, lor_land7, !land7. tauto. Qed.

(** ** memcpy *)

(** What a copy of [len] bytes from [src] to [dest] leaves in memory. *)
Definition copied (m : mem) (dest src len : Z) (m' : mem) : Prop :=
  forall x, m' x = if in_range dest len x then m (src + (x - dest)) else m x.

(** The source bytes not yet copied are still intact: [dest] is not inside the source, or
    it starts at or before it (a forward copy). *)
Definition copy_safe (dest src len : Z) : Prop := dest <= src \/ src + len <= dest.

Section memcpy_loop.
Context (m : mem) (dest src len k : Z).
Hypothesis Hm : wf_mem m.
Hypothesis Hk : k = 1 \/ k = 8.
Hypothesis Hlen : 0 <= len /\ len mod k = 0.
Hypothesis Hd : 0 <= dest /\ dest + len < 2 ^ 64.
Hypothesis Hs : 0 <= src /\ src + len < 2 ^ 64.
Hypothesis Hsafe : copy_safe dest src len.

Definition memcpy_inv : Z * Z * mem -> Prop := fun '(d, s, m') =>
  s - src = d - dest /\ 0 <= d - dest <= len /\ (d - dest) mod k = 0 /\
  wf_mem m' /\ copied m dest src (d - dest) m'.

Lemma memcpy_room d s m1 : memcpy_inv (d, s, m1) -> d < dest + len -> d + k <= dest + len.
Proof. intros (_ & ? & ? & _) ?. destruct Hk; subst k; dlia. Qed.

(** One iteration, once its store is known to copy [k] bytes. *)
Lemma memcpy_step d s m1 m2 :
  memcpy_inv (d, s, m1) -> d < dest + len ->
  wf_mem m2 ->
  (forall x, m2 x = if in_range d k x then m1 (s + (x - d)) else m1 x) ->
  memcpy_inv (d ⊞ k, s ⊞ k, m2).
Proof.
  intros HI Hlt Hwf H2. pose proof (memcpy_room _ _ _ HI Hlt).
  destruct HI as (Es & Hr & Hmod & _ & Hc).
  rewrite !wrapU_small by (simpl; lia). unfold memcpy_inv.
  split_and!; [lia|lia|lia|destruct Hk; subst k; dlia|done|].
  intros x. rewrite H2. unfold copied in Hc. rewrite !Hc.
  unfold copy_safe in Hsafe. range_cases; try lia; f_equal; lia.
Qed.

Lemma memcpy_loop_correct store fuel :
  (forall m1 d s, wf_mem m1 -> wf_mem (store m1 d s) /\
     forall x, store m1 d s x = if in_range d k x then m1 (s + (x - d)) else m1 x) ->
  (Z.to_nat len < fuel)%nat ->
  exists d s m', while fuel (fun '(d, s, m) => d <? dest ⊞ len)
      (fun '(d, s, m) => (d ⊞ k, s ⊞ k, store m d s)) (dest, src, m) = Some (d, s, m') /\
    copied m dest src len m' /\ wf_mem m'.
Proof.
  intros Hstore Hfuel.
  edestruct (while_rule memcpy_inv (fun '(d, _, _) => Z.to_nat (dest + len - d))
    (fun '(d, s, m) => d <? dest ⊞ len)
    (fun '(d, s, m) => (d ⊞ k, s ⊞ k, store m d s)))
    with (fuel := fuel) (s := (dest, src, m)) as ([[d s] m'] & Hw & HI & Hc).
  - intros [[d s] m1] HI Hlt. rewrite wrapU_small in Hlt by (simpl; lia).
    apply Z.ltb_lt in Hlt. destruct (Hstore m1 d s) as [Hwf Hst]; [apply HI|].
    split; [by eapply memcpy_step|].
    pose proof (memcpy_room _ _ _ HI Hlt). destruct HI as (? & ? & ? & _).
    rewrite wrapU_small by (simpl; lia). lia.
  - unfold memcpy_inv. split_and!; try lia; [rewrite Z.sub_diag; apply Zmod_0_l|done|].
    intros x. range_cases; [lia|done].
  - lia.
  - exists d, s, m'. split; [done|]. destruct HI as (_ & Hr & _ & Hwf & Hcopy).
    rewrite wrapU_small in Hc by (simpl; lia). apply Z.ltb_ge in Hc.
    replace len with (d - dest) by lia. done.
Qed.
End memcpy_loop.

Lemma memcpy_spec m dest src len :
  wf_mem m -> 0 <= len ->
  0 <= dest -> dest + len < 2 ^ 64 -> 0 <= src -> src + len < 2 ^ 64 ->
  copy_safe dest src len ->
  exists m', memcpy m dest src len = Some (m', dest) /\ copied m dest src len m' /\ wf_mem m'.
Proof.
  intros. unfold memcpy. destruct (memcpy_aligned dest src len) eqn:E.
  - apply memcpy_aligned_spec in E.
    edestruct (memcpy_loop_correct m dest src len 8) with
      (store := fun m d s => store64 m d (load64 m s)) (fuel := S (Z.to_nat len))
      as (d & s & m' & Hw & Hc & Hwf); try tauto; [|lia|].
    + intros m1 d s Hm1. split; [auto|]. intros x. by apply (copy_le_lookup 8).
    + rewrite Hw. simpl. eauto.
  - edestruct (memcpy_loop_correct m dest src len 1) with
      (store := fun m d s => store8 m d (m s)) (fuel := S (Z.to_nat len))
      as (d & s & m' & Hw & Hc & Hwf); try tauto; [split; [done|apply Z.mod_1_r]| |lia|].
    + intros m1 d s Hm1. split; [auto|]. intros x. unfold store8.
      range_cases; split_cmp; try lia. subst.
      rewrite Z.sub_diag, Z.add_0_r. apply (wrapU_small 8), Hm1.
    + rewrite Hw. simpl. eauto.
Qed.

(** ** memset *)

Lemma memset_word_bytes byte i :
  0 <= i < 8 -> (memset_word byte / 256 ^ i) mod 256 = u8 byte.
Proof.
  intros Hi.
  assert (Z.land byte 255 = u8 byte) as Eb by (apply (land_pow2_mask byte 8); lia).
  pose proof (wrapU_range 8 byte ltac:(lia)) as Hb.
  unfold memset_word. rewrite Eb. generalize dependent (u8 byte). intros b _ Hb.
  assert (forallb (fun b => forallb (fun i =>
    let word := u64 (Z.lor b (Z.shiftl b 8)) in
    let word := u64 (Z.lor word (Z.shiftl word 16)) in
    (u64 (Z.lor word (Z.shiftl (u64 (Z.shiftl word 16)) 16)) / 256 ^ i) mod 256 =? b)
      (seqZ 0 8)) (seqZ 0 256) = true) as Hall by (vm_compute; reflexivity).
  rewrite forallb_forall in Hall. specialize (Hall b).
  rewrite <-list_elem_of_In, elem_of_seqZ, forallb_forall in Hall.
  specialize (Hall ltac:(simpl in *; lia) i).
  rewrite <-list_elem_of_In, elem_of_seqZ in Hall. apply Z.eqb_eq, Hall. lia.
Qed.

Definition filled (m : mem) (dest len b : Z) (m' : mem) : Prop :=
  forall x, m' x = if in_range dest len x then b else m x.

Section memset_loop.
Context (m : mem) (dest len k b : Z).
Hypothesis Hm : wf_mem m.
Hypothesis Hk : k = 1 \/ k = 8.
Hypothesis Hlen : 0 <= len /\ len mod k = 0.
Hypothesis Hd : 0 <= dest /\ dest + len < 2 ^ 64.

Lemma memset_loop_correct store fuel :
  (forall m1 d, wf_mem m1 -> wf_mem (store m1 d) /\ filled m1 d k b (store m1 d)) ->
  (Z.to_nat len < fuel)%nat ->
  exists d m', while fuel (fun '(d, m) => d <? dest ⊞ len)
      (fun '(d, m) => (d ⊞ k, store m d)) (dest, m) = Some (d, m') /\
    filled m dest len b m' /\ wf_mem m'.
Proof.
  intros Hstore Hfuel.
  edestruct (while_rule
    (fun '(d, m') => 0 <= d - dest <= len /\ (d - dest) mod k = 0 /\
       wf_mem m' /\ filled m dest (d - dest) b m')
    (fun '(d, _) => Z.to_nat (dest + len - d))
    (fun '(d, m) => d <? dest ⊞ len) (fun '(d, m) => (d ⊞ k, store m d)))
    with (fuel := fuel) (s := (dest, m)) as ([d m'] & Hw & HI & Hc).
  - intros [d m1] (Hr & Hmod & Hwf & Hf) Hlt. rewrite wrapU_small in Hlt by (simpl; lia).
    apply Z.ltb_lt in Hlt. destruct (Hstore m1 d Hwf) as [Hwf' Hst].
    assert (d + k <= dest + len) by (destruct Hk; subst k; dlia).
    rewrite wrapU_small by (simpl; lia).
    split_and!; try lia; [destruct Hk; subst k; dlia|done|].
    intros x. unfold filled in *. rewrite Hst, Hf. range_cases; try lia; done.
  - split_and!; try lia; [rewrite Z.sub_diag; apply Zmod_0_l|done|].
    intros x. range_cases; [lia|done].
  - lia.
  - exists d, m'. split; [done|]. destruct HI as (Hr & _ & Hwf & Hf).
    rewrite wrapU_small in Hc by (simpl; lia). apply Z.ltb_ge in Hc.
    replace len with (d - dest) by lia. done.
Qed.
End memset_loop.

Lemma memset_spec m dest byte len :
  wf_mem m -> 0 <= len -> 0 <= dest -> dest + len < 2 ^ 64 ->
  exists m', memset m dest byte len = Some (m', dest) /\
    filled m dest len (u8 byte) m' /\ wf_mem m'.
Proof.
  intros. unfold memset. destruct (memset_aligned dest len) eqn:E.
  - apply memset_aligned_spec in E.
    edestruct (memset_loop_correct m dest len 8 (u8 byte)) with
      (store := fun m d => store64 m d (memset_word byte)) (fuel := S (Z.to_nat len))
      as (d & m' & Hw & Hf); try tauto; [|lia|].
    + intros m1 d Hm1. split; [auto|]. intros x. rewrite store_le_lookup.
      change (Z.of_nat 8) with 8. range_cases; [apply memset_word_bytes; lia|done].
    + rewrite Hw. simpl. eauto.
  - edestruct (memset_loop_correct m dest len 1 (u8 byte)) with
      (store := fun m d => store8 m d byte) (fuel := S (Z.to_nat len))
      as (d & m' & Hw & Hf); try tauto; [split; [done|apply Z.mod_1_r]| |lia|].
    + intros m1 d Hm1. split; [auto|]. intros x. unfold store8.
      range_cases; split_cmp; try lia; done.
    + rewrite Hw. simpl. eauto.
Qed.

(** ** strlen, strnlen, strcpy *)

(** Walking a string: the pointer stops at the terminator. *)
Lemma strlen_spec fuel m s l :
  cstr m s l -> 0 <= s -> s + Z.of_nat (length l) < 2 ^ 64 -> (length l < fuel)%nat ->
  strlen fuel m s = Some (Z.of_nat (length l)).
Proof.
  intros Hs H0 Hb Hf. unfold strlen.
  edestruct (while_rule (fun p => s <= p <= s + Z.of_nat (length l))
    (fun p => Z.to_nat (s + Z.of_nat (length l) - p))
    (fun p => negb (m p =? 0)) (fun p => p ⊞ 1)) with (fuel := fuel) (s := s)
    as (p & -> & Hp & Hc); [|lia|lia|].
  - intros p Hp Hc. assert (p <> s + Z.of_nat (length l)).
    { intros ->. rewrite (cstr_end _ _ _ Hs) in Hc. done. }
    unwrap. lia.
  - simpl. f_equal. apply negb_false_iff, Z.eqb_eq in Hc.
    assert (p = s + Z.of_nat (length l)) as ->.
    { destruct (decide (p = s + Z.of_nat (length l))); [done|].
      pose proof (cstr_nonzero m s l (p - s) Hs ltac:(lia)) as Hn.
      rewrite Zplus_minus in Hn. lia. }
    unwrap. lia.
Qed.

Lemma strnlen_spec fuel m s n l :
  cstr m s l -> 0 <= s -> s + Z.of_nat (length l) < 2 ^ 64 -> 0 <= n < 2 ^ 64 ->
  (length l < fuel)%nat ->
  strnlen fuel m s n = Some (Z.min n (Z.of_nat (length l))).
Proof.
  intros Hs H0 Hb Hn Hf. unfold strnlen.
  edestruct (while_rule
    (fun '(n', p) => s <= p <= s + Z.of_nat (length l) /\ 0 <= n' /\ n - n' = p - s)
    (fun '(_, p) => Z.to_nat (s + Z.of_nat (length l) - p))
    (fun '(n, p) => negb (n =? 0) && negb (m p =? 0)) (fun '(n, p) => (n ⊟ 1, p ⊞ 1)))
    with (fuel := fuel) (s := (n, s)) as ([n' p] & -> & Hp & Hc); [|lia|lia|].
  - intros [n' p] Hp [Hn' Hc]%andb_true_iff. rewrite negb_true_iff in Hn'.
    apply Z.eqb_neq in Hn'. assert (p <> s + Z.of_nat (length l)).
    { intros ->. rewrite (cstr_end _ _ _ Hs) in Hc. done. }
    unwrap. lia.
  - simpl. f_equal.
    assert (n' = 0 \/ p = s + Z.of_nat (length l)) as Hend.
    { destruct (decide (p = s + Z.of_nat (length l))); [by right|]. left.
      pose proof (cstr_nonzero m s l (p - s) Hs ltac:(lia)) as Hz.
      rewrite Zplus_minus in Hz.
      destruct (Z.eqb_spec n' 0); [done|]. destruct (Z.eqb_spec (m p) 0); [lia|done]. }
    unwrap. lia.
Qed.

Lemma cstr_shift m dest src l :
  cstr m src l -> cstr (fun x => m (src + (x - dest))) dest l.
Proof.
  revert dest src. induction l as [|c l IH]; intros dest src; simpl.
  - by rewrite Z.sub_diag, Z.add_0_r.
  - intros (Ha & Hc & Hl). rewrite Z.sub_diag, Z.add_0_r. split_and!; try lia.
    eapply cstr_ext; [|exact (IH (dest + 1) (src + 1) Hl)].
    intros i _. simpl. f_equal. lia.
Qed.

Lemma copied_cstr m dest src l m' :
  cstr m src l -> copied m dest src (Z.of_nat (length l) + 1) m' -> cstr m' dest l.
Proof.
  intros Hs Hc. eapply cstr_ext; [|exact (cstr_shift m dest src l Hs)].
  intros i Hi. rewrite Hc. range_cases; [done|lia].
Qed.

Section strcpy_loop.
Context (m : mem) (dest src : Z) (l : list Z).
Let n := Z.of_nat (length l).
Hypothesis Hm : wf_mem m.
Hypothesis Hs : cstr m src l.
Hypothesis Hd : 0 <= dest /\ dest + n + 1 < 2 ^ 64.
Hypothesis Hsrc : 0 <= src /\ src + n + 1 < 2 ^ 64.
Hypothesis Hsafe : copy_safe dest src (n + 1).

Definition strcpy_inv : Z * Z * Z * mem -> Prop := fun '(c, d, s, m') =>
  dest + 1 <= d <= dest + n + 1 /\ s - src = d - dest /\
  c = m (s - 1) /\ wf_mem m' /\ copied m dest src (d - dest) m'.

Lemma strcpy_step_inv c d s m0 :
  wf_mem m0 -> dest <= d <= dest + n -> s - src = d - dest ->
  copied m dest src (d - dest) m0 -> strcpy_inv (strcpy_step (c, d, s, m0)).
Proof.
  intros Hm0 Hr He Hc. unfold copied, copy_safe in *.
  assert (m0 s = m s) as E by (rewrite Hc; range_cases; [lia|done]).
  simpl. unwrap. rewrite Z.add_simpl_r.
  split_and!; try lia; [by apply wf_store8|]. intros x.
  rewrite store8_lookup, E, Hc, (wrapU_small 8) by apply Hm.
  range_cases; split_cmp; try lia; f_equal; lia.
Qed.

(** The byte just copied is the terminator exactly at the end of the string. *)
Lemma strcpy_at_end c d s m0 :
  strcpy_inv (c, d, s, m0) -> c = 0 <-> d = dest + n + 1.
Proof.
  intros (Hr & He & -> & _). split.
  - intros Hc. destruct (decide (d = dest + n + 1)); [done|].
    pose proof (cstr_nonzero m src l (d - 1 - dest) Hs ltac:(lia)) as Hz.
    replace (src + (d - 1 - dest)) with (s - 1) in Hz by lia. lia.
  - intros ->. rewrite <-(cstr_end _ _ _ Hs). f_equal. lia.
Qed.
End strcpy_loop.

Lemma strcpy_spec fuel m dest src l :
  wf_mem m -> cstr m src l -> (length l < fuel)%nat ->
  0 <= dest -> dest + Z.of_nat (length l) + 1 < 2 ^ 64 ->
  0 <= src -> src + Z.of_nat (length l) + 1 < 2 ^ 64 ->
  copy_safe dest src (Z.of_nat (length l) + 1) ->
  exists m', strcpy fuel m dest src = Some (m', dest) /\ cstr m' dest l /\
    copied m dest src (Z.of_nat (length l) + 1) m'.
Proof.
  intros Hm Hs Hf Hd Hdb Hsrc Hsb Hsafe. unfold strcpy.
  edestruct (while_rule (strcpy_inv m dest src l)
    (fun '(_, d, _, _) => Z.to_nat (dest + Z.of_nat (length l) + 1 - d))
    (fun '(c, _, _, _) => negb (c =? 0)) strcpy_step)
    with (fuel := fuel) (s := strcpy_step (0, dest, src, m))
    as ([[[c d] s] m'] & Hw & HI & Hc).
  - intros [[[c d] s] m1] HI Hc. pose proof (strcpy_at_end m dest src l Hs c d s m1 HI) as He.
    apply negb_true_iff, Z.eqb_neq in Hc. destruct HI as (Hr & Heq & _ & Hwf & Hcp).
    split; [apply strcpy_step_inv; lia || done|]. simpl. unwrap. lia.
  - apply strcpy_step_inv; try lia; try done. intros x. range_cases; [lia|done].
  - simpl. unwrap. lia.
  - rewrite Hw. simpl. apply negb_false_iff, Z.eqb_eq in Hc.
    apply (strcpy_at_end m dest src l Hs c d s m' HI) in Hc as ->.
    destruct HI as (_ & _ & _ & _ & Hcp).
    replace (_ - dest) with (Z.of_nat (length l) + 1) in Hcp by lia.
    exists m'. eauto using copied_cstr.
Qed.

(** ** strcmp *)

(** The reference comparison of two strings: the difference of the first bytes that
    differ, the terminator counting as zero. *)
Fixpoint cmp_bytes (l1 l2 : list Z) : Z :=
  match l1, l2 with
  | [], [] => 0
  | [], c2 :: _ => 0 - c2
  | c1 :: _, [] => c1
  | c1 :: l1, c2 :: l2 => if c1 =? c2 then cmp_bytes l1 l2 else c1 - c2
  end.

(** Lexicographic order on byte strings. *)
Inductive lex_lt : list Z -> list Z -> Prop :=
| lex_nil c l : lex_lt [] (c :: l)
| lex_head c1 c2 l1 l2 : c1 < c2 -> lex_lt (c1 :: l1) (c2 :: l2)
| lex_tail c l1 l2 : lex_lt l1 l2 -> lex_lt (c :: l1) (c :: l2).
#[export] Hint Constructors lex_lt : core.

Definition chars (l : list Z) : Prop := Forall (fun c => 0 < c < 256) l.

Lemma cstr_chars m a l : cstr m a l -> chars l.
Proof.
  revert a. induction l as [|c l IH]; intros a; simpl; [constructor|].
  intros (_ & Hc & Hl). constructor; [done|]. by eapply IH.
Qed.

Lemma cmp_bytes_eq l1 l2 : chars l1 -> chars l2 -> cmp_bytes l1 l2 = 0 <-> l1 = l2.
Proof.
  unfold chars. intros H1. revert l2. induction H1 as [|c1 l1 Hc1 H1 IH]; intros l2 H2;
    destruct H2 as [|c2 l2 Hc2 H2]; simpl; split; intros E; try done; try lia.
  - destruct (Z.eqb_spec c1 c2); [|lia]. subst. f_equal. by apply IH.
  - injection E as -> ->. rewrite Z.eqb_refl. by apply IH.
Qed.

Lemma cmp_bytes_lt l1 l2 : chars l1 -> chars l2 -> cmp_bytes l1 l2 < 0 <-> lex_lt l1 l2.
Proof.
  unfold chars. intros H1. revert l2. induction H1 as [|c1 l1 Hc1 H1 IH]; intros l2 H2;
    destruct H2 as [|c2 l2 Hc2 H2]; simpl; split; intros E; auto; try lia;
    try (by inversion E).
  - destruct (Z.eqb_spec c1 c2); [subst|]; [apply lex_tail; by apply IH|].
    apply lex_head. lia.
  - inversion E; subst; [destruct (Z.eqb_spec c1 c2); lia|].
    rewrite Z.eqb_refl. by apply IH.
Qed.

Lemma strcmp_loop m l1 : forall fuel l2 s1 s2 x y,
  cstr m s1 l1 -> cstr m s2 l2 ->
  0 <= s1 -> s1 + Z.of_nat (length l1) < 2 ^ 64 ->
  0 <= s2 -> s2 + Z.of_nat (length l2) < 2 ^ 64 -> (length l1 < fuel)%nat ->
  exists c1 c2 p q,
    while fuel (fun '(c1, c2, _, _) => negb (c1 =? 0) && (c1 =? c2)) (strcmp_step m)
      (strcmp_step m (x, y, s1, s2)) = Some (c1, c2, p, q) /\
    c1 - c2 = cmp_bytes l1 l2.
Proof.
  induction l1 as [|c1 l1 IH]; intros [|fuel] l2 s1 s2 x y; simpl; try lia.
  - intros -> H2 **. destruct l2 as [|c2 l2]; simpl in H2; [rewrite H2|]; simpl; eauto 10.
    destruct H2 as [-> _]. eauto 10.
  - intros (-> & Hc1 & H1) H2 **.
    destruct (Z.eqb_spec c1 0); [lia|]. destruct l2 as [|c2 l2]; simpl in H2.
    + rewrite H2. destruct (Z.eqb_spec c1 0); [lia|]. simpl. repeat eexists. lia.
    + destruct H2 as (-> & Hc2 & H2). destruct (Z.eqb_spec c1 c2); simpl in *; [|eauto 10].
      unwrap. destruct (IH fuel l2 (s1 + 1) (s2 + 1) c1 c2) as (a & b & p & q & Hw & E);
        try done; try lia. simpl in Hw. eauto 10.
Qed.

Lemma strcmp_spec fuel m s1 s2 l1 l2 :
  cstr m s1 l1 -> cstr m s2 l2 ->
  0 <= s1 -> s1 + Z.of_nat (length l1) < 2 ^ 64 ->
  0 <= s2 -> s2 + Z.of_nat (length l2) < 2 ^ 64 ->
  (length l1 < fuel)%nat -> strcmp fuel m s1 s2 = Some (cmp_bytes l1 l2).
Proof.
  intros. unfold strcmp.
  edestruct (strcmp_loop m l1 fuel l2 s1 s2) as (c1 & c2 & p & q & -> & E); try done.
  simpl. by f_equal.
Qed.

(** ** memcmp *)

(** [r] is the difference of the first bytes that differ, zero when none does. *)
Definition first_diff (m : mem) (s1 s2 n r : Z) : Prop :=
  (r = 0 /\ forall i, 0 <= i < n -> m (s1 + i) = m (s2 + i)) \/
  (exists i, 0 <= i < n /\ (forall j, 0 <= j < i -> m (s1 + j) = m (s2 + j)) /\
     m (s1 + i) <> m (s2 + i) /\ r = m (s1 + i) - m (s2 + i)).

Lemma first_diff_skip m s1 s2 n k r :
  0 <= k -> (forall i, 0 <= i < k -> m (s1 + i) = m (s2 + i)) ->
  first_diff m (s1 + k) (s2 + k) (n - k) r -> first_diff m s1 s2 n r.
Proof.
  intros Hk Heq [[-> H]|(i & Hi & H & Hne & ->)]; [left|right].
  - split; [done|]. intros i Hi. destruct (Z.lt_ge_cases i k); [by apply Heq; lia|].
    specialize (H (i - k) ltac:(lia)). rewrite <-!Z.add_assoc, !Zplus_minus in H. done.
  - exists (k + i). rewrite !Z.add_assoc. split_and!; try lia; try done.
    intros j Hj. destruct (Z.lt_ge_cases j k); [by apply Heq; lia|].
    specialize (H (j - k) ltac:(lia)). rewrite <-!Z.add_assoc, !Zplus_minus in H. done.
Qed.

Lemma memcmp_bytes_spec m n : forall s1 s2,
  0 <= s1 -> s1 + Z.of_nat n < 2 ^ 64 -> 0 <= s2 -> s2 + Z.of_nat n < 2 ^ 64 ->
  first_diff m s1 s2 (Z.of_nat n) (memcmp_bytes n m s1 s2).
Proof.
  induction n as [|n IH]; intros s1 s2 H1 H1' H2 H2'; cbn [memcmp_bytes].
  - left. split; [done|]. lia.
  - destruct (Z.eqb_spec (m s1) (m s2)) as [E|E]; cbn [negb].
    + unwrap. apply (first_diff_skip m s1 s2 _ 1); [lia| |].
      * intros i Hi. replace i with 0 by lia. by rewrite !Z.add_0_r.
      * replace (Z.of_nat (S n) - 1) with (Z.of_nat n) by lia. apply IH; lia.
    + right. exists 0. rewrite !Z.add_0_r. split_and!; lia || done.
Qed.

Section memcmp_words.
Context (m : mem) (s1 s2 n : Z).
Hypothesis Hm : wf_mem m.
Hypothesis Hn : 0 <= n.
Hypothesis H1 : 0 <= s1 /\ s1 + n < 2 ^ 64.
Hypothesis H2 : 0 <= s2 /\ s2 + n < 2 ^ 64.

Lemma memcmp_words_spec : exists k,
  memcmp_words m s1 s2 n = Some (s1 + k, s2 + k) /\ 0 <= k <= n /\
  (forall i, 0 <= i < k -> m (s1 + i) = m (s2 + i)).
Proof.
  unfold memcmp_words.
  assert (s1 ⊞ 8 * (n / 8) = s1 + 8 * (n / 8)) as -> by (apply wrapU_small; simpl; dlia).
  edestruct (while_rule
    (fun '(u1, u2) => u2 - s2 = u1 - s1 /\ 0 <= u1 - s1 <= 8 * (n / 8) /\
       (u1 - s1) mod 8 = 0 /\
       forall i, 0 <= i < u1 - s1 -> m (s1 + i) = m (s2 + i))
    (fun '(u1, _) => Z.to_nat (s1 + n - u1))
    (fun '(u1, u2) => (u1 <? s1 + 8 * (n / 8)) && (load64 m u1 =? load64 m u2))
    (fun '(u1, u2) => (u1 ⊞ 8, u2 ⊞ 8)))
    with (fuel := S (Z.to_nat n)) (s := (s1, s2)) as ([u1 u2] & -> & HI & _).
  - intros [u1 u2] (He & Hr & Hmod & Heq) [Hlt Hw]%andb_true_iff.
    apply Z.ltb_lt in Hlt. apply Z.eqb_eq in Hw.
    assert (u1 + 8 - s1 <= 8 * (n / 8) <= n) by dlia. unwrap.
    rewrite (load_le_inj 8 m m u1 u2 Hm Hm) in Hw.
    split_and!; try dlia. intros i Hi.
    destruct (Z.lt_ge_cases i (u1 - s1)); [apply Heq; lia|].
    specialize (Hw (i - (u1 - s1)) ltac:(simpl; lia)).
    replace (u1 + (i - (u1 - s1))) with (s1 + i) in Hw by lia.
    replace (u2 + (i - (u1 - s1))) with (s2 + i) in Hw by lia. done.
  - rewrite Z.sub_diag. split_and!; try lia; try dlia.
  - lia.
  - exists (u1 - s1). destruct HI as (He & Hr & _ & Heq).
    split_and!; [repeat f_equal; lia|lia|dlia|done].
Qed.
End memcmp_words.

Lemma memcmp_spec m s1 s2 n :
  wf_mem m -> 0 <= n -> 0 <= s1 -> s1 + n < 2 ^ 64 -> 0 <= s2 -> s2 + n < 2 ^ 64 ->
  exists r, memcmp m s1 s2 n = Some r /\ first_diff m s1 s2 n r.
Proof.
  intros. unfold memcmp. destruct (_ =? 0).
  - destruct (memcmp_words_spec m s1 s2 n) as (k & -> & Hk & Heq); [done..|]. simpl.
    eexists. split; [done|]. apply (first_diff_skip m s1 s2 n k); [lia|done|].
    replace (s1 + k - s1) with k by lia. unwrap.
    replace (n - k) with (Z.of_nat (Z.to_nat (n - k))) at 1 by lia.
    apply memcmp_bytes_spec; lia.
  - eexists. split; [done|]. replace n with (Z.of_nat (Z.to_nat n)) at 1 by lia.
    apply memcmp_bytes_spec; lia.
Qed.

(** ** atol *)

Definition digits (l : list Z) : Prop := Forall (fun c => 48 <= c <= 57) l.

(** The number a list of decimal digit characters denotes, most significant first. *)
Definition dec_value (l : list Z) : Z := fold_left (fun a c => a * 10 + (c - 48)) l 0.

Lemma dec_fold_lower l : digits l -> forall a,
  0 <= a -> a <= fold_left (fun a c => a * 10 + (c - 48)) l a.
Proof.
  induction 1 as [|c l Hc Hl IH]; intros a Ha; simpl; [lia|].
  etransitivity; [|apply IH; lia]. lia.
Qed.

Lemma atol_digits m l : forall fuel p a,
  digits l -> cstr m p l -> 0 <= p -> p + Z.of_nat (length l) < 2 ^ 64 ->
  (length l < fuel)%nat -> 0 <= a ->
  fold_left (fun a c => a * 10 + (c - 48)) l a < 2 ^ 63 ->
  exists q, while fuel (fun '(res, p) => negb (m p =? 0))
      (fun '(res, p) => (s64 (s64 (res * 10) + (m p - 48)), p ⊞ 1)) (a, p) =
    Some (fold_left (fun a c => a * 10 + (c - 48)) l a, q).
Proof.
  induction l as [|c l IH]; intros [|fuel] p a Hd Hs Hp Hb Hf Ha Hv; simpl in *; try lia.
  - rewrite Hs. simpl. eauto.
  - destruct Hs as (-> & Hc & Hs). destruct (Z.eqb_spec c 0); [lia|]. simpl.
    apply Forall_cons in Hd as [Hc' Hd].
    pose proof (dec_fold_lower l Hd (a * 10 + (c - 48)) ltac:(lia)).
    rewrite (wrapS_small 64 (a * 10)) by (simpl; lia).
    rewrite wrapS_small by (simpl; lia). unwrap. apply IH; try done; lia.
Qed.

Lemma atol_spaces m k : forall fuel p l,
  cstr m p (replicate k 32 ++ l) -> head l <> Some 32 -> 0 <= p ->
  p + Z.of_nat (k + length l) < 2 ^ 64 -> (k < fuel)%nat ->
  while fuel (fun p => m p =? 32) (fun p => p ⊞ 1) p = Some (p + Z.of_nat k) /\
  cstr m (p + Z.of_nat k) l.
Proof.
  induction k as [|k IH]; intros [|fuel] p l Hs Hh Hp Hb Hf; simpl in *; try lia.
  - rewrite Z.add_0_r. split; [|done]. destruct l as [|c l]; simpl in *.
    + by rewrite Hs.
    + destruct Hs as (-> & _). destruct (Z.eqb_spec c 32); [congruence|done].
  - destruct Hs as (-> & _ & Hs). simpl. unwrap.
    replace (p + Z.of_nat (S k)) with (p + 1 + Z.of_nat k) by lia.
    apply IH; try done; lia.
Qed.

(** The sign characters [atol] accepts. *)
Definition sign_chars (neg : bool) (plus : bool) : list Z :=
  if neg then [45] else if plus then [43] else [].

Lemma atol_spec fuel m p k neg plus l :
  cstr m p (replicate k 32 ++ sign_chars neg plus ++ l) -> digits l ->
  dec_value l < 2 ^ 63 -> 0 <= p -> p + Z.of_nat (k + 1 + length l) < 2 ^ 64 ->
  (k + length l < fuel)%nat ->
  atol fuel m p = Some (if neg then - dec_value l else dec_value l).
Proof.
  intros Hs Hd Hv Hp Hb Hf. unfold atol.
  assert (head l <> Some 32 /\ head l <> Some 45 /\ head l <> Some 43) as (N1 & N2 & N3).
  { destruct Hd as [|c l Hc Hd]; simpl; split_and!; try done; intros [=]; lia. }
  destruct (atol_spaces m k fuel p (sign_chars neg plus ++ l)) as [-> Hq]; try done; try lia.
  { destruct neg, plus; simpl; congruence || done. }
  { rewrite length_app. destruct neg, plus; simpl; lia. }
  pose proof (dec_fold_lower l Hd 0 ltac:(lia)) as Hpos. simpl.
  set (q := p + Z.of_nat k) in *.
  assert (forall q', cstr m q' l -> (m q' =? 45) = false /\ (m q' =? 43) = false) as Hno.
  { intros q' Hq'. destruct l as [|c l]; simpl in *.
    - by rewrite Hq'.
    - destruct Hq' as (-> & _). split; apply Z.eqb_neq; congruence. }
  assert (forall q', cstr m q' l -> q' = q \/ q' = q + 1 ->
    exists z, while fuel (fun '(res, p) => negb (m p =? 0))
      (fun '(res, p) => (s64 (s64 (res * 10) + (m p - 48)), p ⊞ 1)) (0, q') =
    Some (dec_value l, z)) as Hloop.
  { intros q' Hq' Hor. unfold dec_value in *. apply atol_digits; try done; lia. }
  destruct neg; [|destruct plus]; simpl in Hq.
  - destruct Hq as (E & _ & Hq). rewrite E. simpl. unwrap.
    destruct (Hloop _ Hq ltac:(lia)) as [z ->]. simpl. f_equal.
    unfold dec_value in *. apply wrapS_small; simpl; lia.
  - destruct Hq as (E & _ & Hq). rewrite E. simpl. unwrap.
    destruct (Hloop _ Hq ltac:(lia)) as [z ->]. done.
  - destruct (Hno _ Hq) as [-> ->]. simpl. destruct (Hloop _ Hq ltac:(lia)) as [z ->]. done.
Qed.

(** ** Properties *)

(** [memcpy] always terminates, returns its destination and leaves exactly the [len]
    source bytes there, every other byte of memory untouched, whether the word loop or the
    byte loop ran; the regions may overlap as long as [dest] does not start inside the
    source. *)
Theorem memcpy_correct m dest src len :
  wf_mem m -> 0 <= len ->
  0 <= dest -> dest + len < 2 ^ 64 -> 0 <= src -> src + len < 2 ^ 64 ->
  dest <= src \/ src + len <= dest ->
  exists m', memcpy m dest src len = Some (m', dest) /\
    (forall x, dest <= x < dest + len -> m' x = m (src + (x - dest))) /\
    (forall x, x < dest \/ dest + len <= x -> m' x = m x).
Proof.
  intros. destruct (memcpy_spec m dest src len) as (m' & E & Hc & _); try done.
  exists m'. split_and!; [done|..]; intros x Hx; rewrite Hc; range_cases; lia || done.
Qed.

Lemma memcpy_correct_witness :
  exists m', memcpy (mem_of 64 [1; 2; 3; 4; 5; 6; 7; 8; 9]) 62 64 9 = Some (m', 62) /\
    (forall x, 62 <= x < 62 + 9 -> m' x = mem_of 64 [1; 2; 3; 4; 5; 6; 7; 8; 9] (64 + (x - 62))) /\
    (forall x, x < 62 \/ 62 + 9 <= x -> m' x = mem_of 64 [1; 2; 3; 4; 5; 6; 7; 8; 9] x).
Proof.
  apply (memcpy_correct _ 62 64 9); try lia.
  intros a. unfold mem_of. destruct (a <? 64); [lia|].
  destruct (Z.to_nat (a - 64)) as [|[|[|[|[|[|[|[|[|[|?]]]]]]]]]]; simpl; lia.
Defined.

(** [memset] terminates and fills exactly the [len] bytes at [dest] with the low byte of
    its argument; in particular the word replicated by shifts in the aligned case is the
    same fill as the byte loop. *)
Theorem memset_correct m dest byte len :
  wf_mem m -> 0 <= len -> 0 <= dest -> dest + len < 2 ^ 64 ->
  exists m', memset m dest byte len = Some (m', dest) /\
    (forall x, dest <= x < dest + len -> m' x = byte mod 256) /\
    (forall x, x < dest \/ dest + len <= x -> m' x = m x).
Proof.
  intros. destruct (memset_spec m dest byte len) as (m' & E & Hc & _); try done.
  exists m'. split_and!; [done|..]; intros x Hx; rewrite Hc; range_cases; lia || done.
Qed.

Lemma memset_correct_witness :
  exists m', memset (fun _ => 7) 4096 (-86) 64 = Some (m', 4096) /\
    (forall x, 4096 <= x < 4096 + 64 -> m' x = (-86) mod 256) /\
    (forall x, x < 4096 \/ 4096 + 64 <= x -> m' x = 7).
Proof. apply (memset_correct (fun _ => 7) 4096 (-86) 64); [intros a|..]; lia. Defined.

(** [strcmp] on two strings in memory terminates with a result that is zero exactly when
    the strings are equal and negative exactly when the first is lexicographically
    smaller. *)
Theorem strcmp_correct m s1 s2 l1 l2 fuel :
  cstr m s1 l1 -> cstr m s2 l2 ->
  0 <= s1 -> s1 + Z.of_nat (length l1) < 2 ^ 64 ->
  0 <= s2 -> s2 + Z.of_nat (length l2) < 2 ^ 64 ->
  (length l1 < fuel)%nat ->
  exists r, strcmp fuel m s1 s2 = Some r /\
    (r = 0 <-> l1 = l2) /\ (r < 0 <-> lex_lt l1 l2).
Proof.
  intros H1 H2 **. exists (cmp_bytes l1 l2).
  split; [by apply strcmp_spec|].
  split; [apply cmp_bytes_eq | apply cmp_bytes_lt]; eauto using cstr_chars.
Qed.

Lemma strcmp_correct_witness :
  exists r, strcmp 10 (mem_of 8 [97; 98; 0; 97; 99; 0]) 8 11 = Some r /\
    (r = 0 <-> [97; 98] = [97; 99]) /\ (r < 0 <-> lex_lt [97; 98] [97; 99]).
Proof. apply strcmp_correct; simpl; try lia; repeat split; lia. Defined.

(** [memcmp] terminates with the difference of the first two bytes that differ, and with
    zero exactly when the regions are equal; skipping whole words first changes nothing. *)
Theorem memcmp_correct m s1 s2 n :
  wf_mem m -> 0 <= n -> 0 <= s1 -> s1 + n < 2 ^ 64 -> 0 <= s2 -> s2 + n < 2 ^ 64 ->
  exists r, memcmp m s1 s2 n = Some r /\ first_diff m s1 s2 n r /\
    (r = 0 <-> forall i, 0 <= i < n -> m (s1 + i) = m (s2 + i)).
Proof.
  intros. destruct (memcmp_spec m s1 s2 n) as (r & E & Hr); try done.
  exists r. split_and!; [done|done|].
  destruct Hr as [[-> H']|(i & Hi & Hlt & Hne & ->)]; [done|].
  split; [lia|]. intros Hall. specialize (Hall i Hi). done.
Qed.

Lemma memcmp_correct_witness :
  exists r, memcmp (fun a => if a =? 77 then 1 else 0) 0 64 24 = Some r /\
    first_diff (fun a => if a =? 77 then 1 else 0) 0 64 24 r /\
    (r = 0 <-> forall i, 0 <= i < 24 ->
       (if 0 + i =? 77 then 1 else 0) = (if 64 + i =? 77 then 1 else 0)).
Proof.
  apply (memcmp_correct (fun a => if a =? 77 then 1 else 0) 0 64 24); try lia.
  intros a. simpl. destruct (a =? 77); lia.
Defined.
