(* ===== verification/Printf.v ===== *)
(** * Formatted output

    [printhex], [printnum], [getuint], [getint], [vprintfmt], [putchar], [printf] and
    [sprintf] of riscv-tests/common/syscalls.c, and [put_dec], [put_str] of
    riscv-tests/spec95-equivalent/scripts/process_dispatch.c.

    A format string is the list of its characters up to the NUL, the pointer [fmt] is the
    list that remains.  The variable arguments are the list of the 64-bit argument
    registers.  [vprintfmt] is generic in the state its callback [putch] changes, with [rd]
    the memory string arguments are read from; [printf] and [sprintf] are its two
    instances. *)
From S2P Require Import Prelude Memory CString.
Local Open Scope Z_scope.
Local Open Scope word_scope.

(** ** Numbers *)

(** The digit array of [printnum], least significant first; [room] counts the free slots of
    [digs], so [None] is a write past its end. *)
Fixpoint printnum_digs (room : nat) (num base : Z) : option (list Z) :=
  match room with
  | O => None
  | S room =>
      let d := num mod base in
      if num <? base then Some [d]
      else rest ← printnum_digs room (num / base) base; mret (d :: rest)
  end.

(** [sizeof(num) * CHAR_BIT] slots. *)
Definition digs_size : nat := 64.

Definition digit_char (d : Z) : Z := d + (if 10 <=? d then 97 - 10 else 48).

(** [n] calls of [putch c]. *)
Definition rep (n c : Z) : list Z := replicate (Z.to_nat n) c.

(** The characters [printnum] emits: padding, then the digits from the top. *)
Definition printnum (num base width padc : Z) : option (list Z) :=
  digs ← printnum_digs digs_size num base;
  let pos := Z.of_nat (length digs) in
  mret (rep (width - pos) padc ++ map digit_char (reverse digs)).

(** The sixteen digits [printhex] fills from the right. *)
Fixpoint printhex_loop (n : nat) (x : Z) (str : list Z) : list Z :=
  match n with
  | O => str
  | S n =>
      let d := Z.land x 15 in
      printhex_loop n (Z.shiftr x 4) ((d + (if d <? 10 then 48 else 97 - 10)) :: str)
  end.

Definition printhex (x : Z) : list Z := printhex_loop 16 x [].

Inductive fmt_error := MissingArgument | DigitOverflow.

(** [va_arg] at the three widths. *)
Definition va_arg (ap : list Z) : res fmt_error (Z * list Z) :=
  match ap with [] => Err MissingArgument | a :: ap => Ok (a, ap) end.

Definition getuint (ap : list Z) (lflag : Z) : res fmt_error (Z * list Z) :=
  '(a, ap) ← va_arg ap;
  mret (if 2 <=? lflag then u64 a else if negb (lflag =? 0) then u64 a else u32 a, ap).

Definition getint (ap : list Z) (lflag : Z) : res fmt_error (Z * list Z) :=
  '(a, ap) ← va_arg ap;
  mret (if 2 <=? lflag then s64 a else if negb (lflag =? 0) then s64 a else s32 a, ap).

(** ** The format interpreter *)

Record spec := mkSpec {
  padc : Z; width : Z; precision : Z; lflag : Z; altflag : bool }.

Definition spec0 : spec := mkSpec 32 (-1) (-1) 0 false.

(** The digits of a width, as [for (precision = 0; ; ++fmt)] consumes them. *)
Fixpoint scan_width (precision : Z) (fmt : list Z) : Z * list Z :=
  match fmt with
  | ch :: fmt' =>
      if (ch <? 48) || (57 <? ch) then (precision, fmt)
      else scan_width (s32 (precision * 10 + ch - 48)) fmt'
  | [] => (precision, fmt)
  end.

Definition process_precision (s : spec) (prec : Z) : spec :=
  if width s <? 0 then mkSpec (padc s) prec (-1) (lflag s) (altflag s)
  else mkSpec (padc s) (width s) prec (lflag s) (altflag s).

(** "(null)" *)
Definition null_string : list Z := [40; 110; 117; 108; 108; 41].

Section vprintfmt.
Context {St : Type} (putch : St -> Z -> St) (rd : St -> mem) (sfuel : nat).

Definition puts (st : St) (l : list Z) : St := fold_left putch l st.

(** The character loop of ['%s']; it stops at the NUL or when the precision is used up,
    and counts the width down. *)
Fixpoint s_loop (fuel : nat) (null : bool) (p precision width : Z) (st : St)
    : res fmt_error (Z * St) :=
  match fuel with
  | O => NoFuel
  | S fuel =>
      let ch := if null then nth (Z.to_nat p) null_string 0 else rd st p in
      if ch =? 0 then Ok (width, st)
      else if precision <? 0 then
        s_loop fuel null (p ⊞ 1) precision (width - 1) (putch st ch)
      else if 0 <=? precision - 1 then
        s_loop fuel null (p ⊞ 1) (precision - 1) (width - 1) (putch st ch)
      else Ok (width, st)
  end.

Definition conv_string (s : spec) (p : Z) (st : St) : res fmt_error St :=
  let null := p =? 0 in
  let sm : mem := if null then mem_of 0 null_string else rd st in
  '(w, st) ← (if (0 <? width s) && negb (padc s =? 45) then
      match strnlen sfuel sm p (u64 (precision s)) with
      | None => NoFuel
      | Some n => let w := width s - n in Ok (Z.min w 0, puts st (rep w (padc s)))
      end
    else Ok (width s, st));
  '(w, st) ← s_loop sfuel null p (precision s) w st;
  mret (puts st (rep w 32)).

Definition conv_number (s : spec) (num base : Z) (st : St) : res fmt_error St :=
  match printnum num base (width s) (padc s) with
  | Some l => Ok (puts st l)
  | None => Err DigitOverflow
  end.

(** The [switch] after a ['%'], with the [goto reswitch] of the flags as recursion. *)
Fixpoint reswitch (fuel : nat) (s : spec) (last_fmt fmt ap : list Z) (st : St)
    : res fmt_error (list Z * list Z * St) :=
  match fuel with
  | O => NoFuel
  | S fuel =>
      let ch := match fmt with [] => 0 | c :: _ => c end in
      let fmt := tail fmt in
      if ch =? 45 (* - *) then
        reswitch fuel (mkSpec 45 (width s) (precision s) (lflag s) (altflag s)) last_fmt fmt ap st
      else if ch =? 48 (* 0 *) then
        reswitch fuel (mkSpec 48 (width s) (precision s) (lflag s) (altflag s)) last_fmt fmt ap st
      else if (49 <=? ch) && (ch <=? 57) then
        let '(prec, fmt) := scan_width (ch - 48) fmt in
        reswitch fuel (process_precision s prec) last_fmt fmt ap st
      else if ch =? 42 (* star *) then
        '(prec, ap) ← va_arg ap;
        reswitch fuel (process_precision s (s32 prec)) last_fmt fmt ap st
      else if ch =? 46 (* . *) then
        reswitch fuel (mkSpec (padc s) (if width s <? 0 then 0 else width s) (precision s)
                         (lflag s) (altflag s)) last_fmt fmt ap st
      else if ch =? 35 (* # *) then
        reswitch fuel (mkSpec (padc s) (width s) (precision s) (lflag s) true) last_fmt fmt ap st
      else if ch =? 108 (* l *) then
        reswitch fuel (mkSpec (padc s) (width s) (precision s) (lflag s + 1) (altflag s))
          last_fmt fmt ap st
      else if ch =? 99 (* c *) then
        '(c, ap) ← va_arg ap; mret (fmt, ap, putch st (s32 c))
      else if ch =? 115 (* s *) then
        '(p, ap) ← va_arg ap; st ← conv_string s p st; mret (fmt, ap, st)
      else if ch =? 100 (* d *) then
        '(n, ap) ← getint ap (lflag s);
        let neg := n <? 0 in
        let st := if neg then putch st 45 else st in
        let num := if neg then u64 (- n) else u64 n in
        st ← conv_number s num 10 st; mret (fmt, ap, st)
      else if ch =? 117 (* u *) then
        '(n, ap) ← getuint ap (lflag s); st ← conv_number s n 10 st; mret (fmt, ap, st)
      else if ch =? 111 (* o *) then
        '(n, ap) ← getuint ap (lflag s); st ← conv_number s n 8 st; mret (fmt, ap, st)
      else if ch =? 112 (* p *) then
        '(n, ap) ← getuint ap 1;
        st ← conv_number s n 16 (putch (putch st 48) 120); mret (fmt, ap, st)
      else if ch =? 120 (* x *) then
        '(n, ap) ← getuint ap (lflag s); st ← conv_number s n 16 st; mret (fmt, ap, st)
      else if ch =? 37 (* % *) then mret (fmt, ap, putch st ch)
      else mret (last_fmt, ap, putch st 37)
  end.

(** The outer loop: literal characters up to the next ['%'], then an escape. *)
Fixpoint vprintfmt (fuel : nat) (fmt ap : list Z) (st : St) : res fmt_error St :=
  match fuel with
  | O => NoFuel
  | S fuel =>
      match fmt with
      | [] => Ok st
      | ch :: fmt =>
          if negb (ch =? 37) then vprintfmt fuel fmt ap (putch st ch)
          else
            '(fmt', ap', st') ← reswitch (S (length fmt)) spec0 fmt fmt ap st;
            vprintfmt fuel fmt' ap' st'
      end
  end.
End vprintfmt.

(** ** The two output callbacks *)

(** The thread-local line buffer of [putchar] and the writes issued to the host so far. *)
Record console := mkConsole { con_buf : list Z; con_writes : list (list Z) }.

Definition buf_size : Z := 256.

Definition putchar (c : console) (ch : Z) : console :=
  let buf := con_buf c ++ [u8 ch] in
  if (ch =? 10) || (Z.of_nat (length buf) =? buf_size)
  then mkConsole [] (con_writes c ++ [buf])
  else mkConsole buf (con_writes c).

Definition printf (sfuel : nat) (m : mem) (fmt ap : list Z) (c : console)
    : res fmt_error console :=
  vprintfmt putchar (fun _ => m) sfuel (S (length fmt)) fmt ap c.

(** [sprintf_putch]: the state is the memory and the moving pointer. *)
Definition sprintf_putch (st : mem * Z) (ch : Z) : mem * Z :=
  (store8 st.1 st.2 ch, st.2 ⊞ 1).

Definition sprintf (sfuel : nat) (m : mem) (str : Z) (fmt ap : list Z)
    : res fmt_error (mem * Z) :=
  '(m, p) ← vprintfmt sprintf_putch fst sfuel (S (length fmt)) fmt ap (m, str);
  mret (store8 m p 0, s32 (p - str)).

(** ** The per-copy report of process_dispatch.c *)

Fixpoint put_dec_digs (room : nat) (v : Z) : option (list Z) :=
  match room with
  | O => None
  | S room =>
      let d := 48 + v mod 10 in
      if v / 10 =? 0 then Some [d]
      else rest ← put_dec_digs room (v / 10); mret (d :: rest)
  end.

(** The characters [put_dec] appends; its digit array has 24 slots. *)
Definition put_dec (v : Z) : option (list Z) :=
  d ← put_dec_digs 24 v; mret (reverse d).

(** ** Numerals *)

(** [l] is the canonical numeral of [n] in [base]: digits most significant first, no leading
    zero. *)
Definition is_numeral (base : Z) (l : list Z) (n : Z) : Prop :=
  exists ds, l = map digit_char ds /\ Forall (fun d => 0 <= d < base) ds /\
    fold_left (fun a d => a * base + d) ds 0 = n /\ (n = 0 -> ds = [0]) /\
    (n <> 0 -> exists d ds', ds = d :: ds' /\ d <> 0).

Lemma fold_snoc base ds d a :
  fold_left (fun a d => a * base + d) (ds ++ [d]) a =
  fold_left (fun a d => a * base + d) ds a * base + d.
Proof. by rewrite fold_left_app. Qed.

(** The digits are those of the number, and the array of [room] slots is large enough for
    every number below [base ^ room]. *)
Lemma printnum_digs_spec room base : 2 <= base -> forall num,
  0 <= num < base ^ Z.of_nat room -> (0 < room)%nat ->
  exists ds, printnum_digs room num base = Some ds /\ (length ds <= room)%nat /\
    Forall (fun d => 0 <= d < base) (reverse ds) /\
    fold_left (fun a d => a * base + d) (reverse ds) 0 = num /\
    (num = 0 -> reverse ds = [0]) /\
    (num <> 0 -> exists d ds', reverse ds = d :: ds' /\ d <> 0).
Proof.
  intros Hb. induction room as [|room IH]; intros num Hn Hr; [lia|].
  cbn [printnum_digs]. pose proof (Z.mod_pos_bound num base ltac:(lia)).
  destruct (Z.ltb_spec num base) as [Hlt|Hge].
  - exists [num mod base]. rewrite reverse_singleton. rewrite Z.mod_small by lia. simpl.
    split_and!; [done|lia|repeat constructor; lia|lia|congruence|].
    intros. eauto.
  - rewrite Nat2Z.inj_succ, Z.pow_succ_r in Hn by lia.
    assert (0 < num / base) by (apply Z.div_str_pos; lia).
    assert (num / base < base ^ Z.of_nat room) by (apply Z.div_lt_upper_bound; lia).
    assert (0 < room)%nat by (destruct room; simpl in *; lia).
    destruct (IH (num / base)) as (ds & -> & Hl & Hds & Hv & _ & Hh); [lia|done|].
    exists (num mod base :: ds). rewrite reverse_cons. simpl.
    split_and!; [done|lia| | |lia|].
    + apply Forall_app. split; [done|]. by apply Forall_singleton.
    + rewrite fold_snoc, Hv. pose proof (Z.div_mod num base). lia.
    + intros _. destruct Hh as (d & ds' & -> & Hd); [lia|]. eauto.
Qed.

Lemma printnum_spec num base width padc :
  2 <= base -> 0 <= num < 2 ^ 64 ->
  exists l, is_numeral base l num /\ (length l <= 64)%nat /\
    printnum num base width padc = Some (rep (width - Z.of_nat (length l)) padc ++ l).
Proof.
  intros Hb Hn. unfold printnum.
  destruct (printnum_digs_spec digs_size base Hb num) as (ds & -> & Hl & Hds & Hv & Hz & Hh).
  { split; [lia|]. apply Z.lt_le_trans with (2 ^ 64); [lia|].
    apply Z.pow_le_mono_l. lia. }
  { unfold digs_size. lia. }
  exists (map digit_char (reverse ds)). simpl. rewrite length_map, length_reverse.
  split_and!; [|done|done]. exists (reverse ds). auto.
Qed.

(** The digits of a decimal numeral are decimal digit characters with that value. *)
Lemma numeral_digits l n : is_numeral 10 l n -> digits l /\ dec_value l = n.
Proof.
  intros (ds & -> & Hds & <- & _). split.
  - apply Forall_map. eapply Forall_impl; [exact Hds|]. intros d Hd. simpl in *.
    unfold digit_char. destruct (Z.leb_spec 10 d); lia.
  - unfold dec_value. generalize 0 as a. induction Hds as [|d ds Hd Hds IH]; intros a; [done|].
    simpl. rewrite <-IH. f_equal. unfold digit_char. destruct (Z.leb_spec 10 d); lia.
Qed.

Lemma numeral_nonempty base l n : is_numeral base l n -> l <> [].
Proof.
  intros (ds & -> & _ & _ & H0 & H1). destruct (decide (n = 0)) as [E|E].
  - by rewrite (H0 E).
  - by destruct (H1 E) as (d & ds' & -> & _).
Qed.

(** ** Output callbacks *)

(** Everything written or still buffered, in order. *)
Definition con_output (c : console) : list Z := concat (con_writes c) ++ con_buf c.

Definition con_ok (c : console) : Prop := Z.of_nat (length (con_buf c)) < buf_size.

Lemma putchar_ok c ch : con_ok c -> con_ok (putchar c ch).
Proof.
  unfold con_ok, putchar, buf_size. intros H. destruct (ch =? 10); simpl; [lia|].
  rewrite length_app in *. simpl in *.
  destruct (Z.eqb_spec (Z.of_nat (length (con_buf c) + 1)) 256); simpl; [lia|].
  rewrite length_app. simpl. lia.
Qed.

Lemma putchar_output c ch : con_output (putchar c ch) = con_output c ++ [u8 ch].
Proof.
  unfold con_output, putchar. destruct (_ || _); simpl.
  - by rewrite concat_app, app_nil_r, <-app_assoc; simpl; rewrite app_nil_r.
  - by rewrite app_assoc.
Qed.

Lemma putchar_puts c l :
  con_ok c -> con_ok (puts putchar c l) /\
  con_output (puts putchar c l) = con_output c ++ map u8 l.
Proof.
  unfold puts. revert c. induction l as [|ch l IH]; intros c Hc; simpl.
  - by rewrite app_nil_r.
  - destruct (IH (putchar c ch)) as [H ->]; [by apply putchar_ok|]. split; [done|].
    by rewrite putchar_output, <-app_assoc.
Qed.

(** A buffer written by [sprintf]: [l] stored byte by byte from [a]. *)
Lemma sprintf_puts l : forall m a,
  0 <= a -> a + Z.of_nat (length l) < 2 ^ 64 ->
  exists m', puts sprintf_putch (m, a) l = (m', a + Z.of_nat (length l)) /\
    (forall i c, l !! i = Some c -> m' (a + Z.of_nat i) = u8 c) /\
    (forall x, x < a \/ a + Z.of_nat (length l) <= x -> m' x = m x).
Proof.
  unfold puts. induction l as [|c l IH]; intros m a Ha Hb; cbn [fold_left length] in *.
  - exists m. rewrite Z.add_0_r. split_and!; done.
  - unfold sprintf_putch at 2. simpl fst; simpl snd. unwrap.
    destruct (IH (store8 m a c) (a + 1)) as (m' & -> & Hin & Hout); [lia..|].
    exists m'. split_and!; [f_equal; lia| |].
    + intros [|i] c'; simpl.
      * intros [= ->]. rewrite Z.add_0_r, Hout by lia. unfold store8. by rewrite Z.eqb_refl.
      * intros Hi. replace (a + Z.of_nat (S i)) with (a + 1 + Z.of_nat i) by lia.
        by apply Hin.
    + intros x Hx. rewrite Hout by lia. unfold store8. destruct (Z.eqb_spec x a); [lia|done].
Qed.

Lemma cstr_intro m a l :
  chars l -> (forall i c, l !! i = Some c -> m (a + Z.of_nat i) = c) ->
  m (a + Z.of_nat (length l)) = 0 -> cstr m a l.
Proof.
  intros Hl. revert a. induction Hl as [|c l Hc Hl IH]; intros a Hi He; simpl in *.
  - by rewrite Z.add_0_r in He.
  - split_and!; try lia.
    + specialize (Hi 0%nat c eq_refl). by rewrite Z.add_0_r in Hi.
    + apply IH.
      * intros i c' E. replace (a + 1 + Z.of_nat i) with (a + Z.of_nat (S i)) by lia.
        by apply Hi.
      * rewrite <-He. f_equal. lia.
Qed.

(** ** What a format promises

    The formats the runtime uses, as a list of directives; [fmt_of] spells a directive in a
    format string, [args_of] gives the registers it consumes and [renders] says what it
    prints. *)

Inductive unsigned_conv := Cu | Co | Cx.
#[export] Instance unsigned_conv_eq_dec : EqDecision unsigned_conv.
Proof. solve_decision. Defined.

Inductive directive :=
| Lit (c : Z)
| Percent
| Chr (c : Z)
| Signed (zero : bool) (ws : list Z) (long : bool) (a : Z)
| Unsigned (conv : unsigned_conv) (zero : bool) (ws : list Z) (long : bool) (a : Z)
| Pointer (a : Z)
| Str (lj : bool) (ws : list Z) (p : Z) (l : list Z).

(** A width: empty, or decimal digits without a leading zero. *)
Definition width_of (ws : list Z) : Z := if decide (ws = []) then -1 else dec_value ws.

Definition flags_of (flag : option Z) (ws : list Z) (long : bool) : list Z :=
  option_list flag ++ ws ++ (if long then [108] else []).

Definition conv_char (c : unsigned_conv) : Z :=
  match c with Cu => 117 | Co => 111 | Cx => 120 end.
Definition conv_base (c : unsigned_conv) : Z :=
  match c with Cu => 10 | Co => 8 | Cx => 16 end.

Definition zero_flag (zero : bool) : option Z := if zero then Some 48 else None.
Definition left_flag (lj : bool) : option Z := if lj then Some 45 else None.
Definition pad_of (zero : bool) : Z := if zero then 48 else 32.

Definition fmt_of (d : directive) : list Z :=
  match d with
  | Lit c => [c]
  | Percent => [37; 37]
  | Chr _ => [37; 99]
  | Signed zero ws long _ => 37 :: flags_of (zero_flag zero) ws long ++ [100]
  | Unsigned conv zero ws long _ => 37 :: flags_of (zero_flag zero) ws long ++ [conv_char conv]
  | Pointer _ => [37; 112]
  | Str lj ws _ _ => 37 :: flags_of (left_flag lj) ws false ++ [115]
  end.

Definition args_of (d : directive) : list Z :=
  match d with
  | Lit _ | Percent => []
  | Chr a | Signed _ _ _ a | Unsigned _ _ _ _ a | Pointer a => [a]
  | Str _ _ p _ => [p]
  end.

Definition signed_value (long : bool) (a : Z) : Z := if long then s64 a else s32 a.
Definition unsigned_value (long : bool) (a : Z) : Z := if long then u64 a else u32 a.

(** [numeral] preceded by the padding to the width. *)
Definition padded_numeral (base n : Z) (zero : bool) (ws out : list Z) : Prop :=
  exists l, is_numeral base l n /\
    out = rep (width_of ws - Z.of_nat (length l)) (pad_of zero) ++ l.

Definition renders (d : directive) (out : list Z) : Prop :=
  match d with
  | Lit c => out = [c]
  | Percent => out = [37]
  | Chr a => out = [s32 a]
  | Signed zero ws long a =>
      let n := signed_value long a in
      exists out', padded_numeral 10 (Z.abs n) zero ws out' /\
        out = (if n <? 0 then [45] else []) ++ out'
  | Unsigned conv zero ws long a =>
      padded_numeral (conv_base conv) (unsigned_value long a) zero ws out
  | Pointer a =>
      exists out', padded_numeral 16 (u64 a) false [] out' /\ out = [48; 120] ++ out'
  | Str lj ws _ l =>
      let pad := rep (width_of ws - Z.of_nat (length l)) 32 in
      out = if lj then l ++ pad else pad ++ l
  end.

Definition wf_width (ws : list Z) : Prop :=
  digits ws /\ head ws <> Some 48 /\ dec_value ws < 2 ^ 31.

(** Well-formed directives; a string argument points at a string in the memory [m]. *)
Definition wf_directive (sfuel : nat) (m : mem) (d : directive) : Prop :=
  match d with
  | Lit c => c <> 37
  | Percent | Chr _ | Pointer _ => True
  | Signed _ ws _ _ | Unsigned _ _ ws _ _ => wf_width ws
  | Str _ ws p l =>
      wf_width ws /\ 0 < p /\ p + Z.of_nat (length l) < 2 ^ 64 /\
      (length l < sfuel)%nat /\ cstr m p l
  end.

(** ** Parsing the flags *)

Lemma scan_width_spec ws : forall p rest,
  digits ws -> 0 <= p -> fold_left (fun a c => a * 10 + (c - 48)) ws p < 2 ^ 31 ->
  (forall c r, rest = c :: r -> c < 48 \/ 57 < c) ->
  scan_width p (ws ++ rest) = (fold_left (fun a c => a * 10 + (c - 48)) ws p, rest).
Proof.
  induction ws as [|c ws IH]; intros p rest Hd Hp Hv Hr; simpl.
  - destruct rest as [|c r]; simpl; [done|]. specialize (Hr c r eq_refl).
    destruct (Z.ltb_spec c 48), (Z.ltb_spec 57 c); simpl; done || lia.
  - apply Forall_cons in Hd as [Hc Hd].
    destruct (Z.ltb_spec c 48); [lia|]. destruct (Z.ltb_spec 57 c); [lia|]. simpl in *.
    pose proof (dec_fold_lower ws Hd (p * 10 + (c - 48)) ltac:(lia)).
    replace (p * 10 + c - 48) with (p * 10 + (c - 48)) by lia.
    rewrite wrapS_small by (simpl; lia). apply IH; try done; lia.
Qed.

Section interpreter.
Context {St : Type} (putch : St -> Z -> St) (rd : St -> mem) (sfuel : nat).
(** Output does not overwrite the memory string arguments are read from. *)
Hypothesis rd_stable : forall st c, rd (putch st c) = rd st.

Abbreviation reswitch := (reswitch putch rd sfuel).
Abbreviation vprintfmt := (vprintfmt putch rd sfuel).
Abbreviation puts := (puts putch).

Lemma puts_app st l1 l2 : puts st (l1 ++ l2) = puts (puts st l1) l2.
Proof. apply fold_left_app. Qed.

Lemma rd_puts st l : rd (puts st l) = rd st.
Proof.
  revert st. induction l as [|c l IH]; intros st; simpl; [done|].
  unfold Printf.puts in *. simpl. by rewrite IH.
Qed.

Abbreviation long_chars long := (if long : bool then [108] else @nil Z).

Lemma reswitch_long fuel long pd w ch last rest ap st :
  (length (long_chars long) + S (length rest) < fuel)%nat ->
  exists fuel', reswitch fuel (mkSpec pd w (-1) 0 false) last
      (long_chars long ++ ch :: rest) ap st =
    reswitch (S fuel') (mkSpec pd w (-1) (Z.b2z long) false) last (ch :: rest) ap st.
Proof.
  intros Hf. destruct long; simpl in *.
  - destruct fuel as [|[|fuel]]; [lia..|]. by exists fuel.
  - destruct fuel as [|fuel]; [lia|]. by exists fuel.
Qed.

Lemma reswitch_width fuel pd ws long ch last rest ap st :
  wf_width ws -> (ch < 48 \/ 57 < ch) ->
  (length ws + length (long_chars long) + S (length rest) < fuel)%nat ->
  exists fuel', reswitch fuel (mkSpec pd (-1) (-1) 0 false) last
      (ws ++ long_chars long ++ ch :: rest) ap st =
    reswitch (S fuel') (mkSpec pd (width_of ws) (-1) (Z.b2z long) false) last
      (ch :: rest) ap st.
Proof.
  intros (Hd & H0 & Hw) Hch Hf. unfold width_of. case_decide as E.
  - subst ws. simpl in *. by apply reswitch_long.
  - destruct ws as [|c ws]; [done|]. destruct fuel as [|fuel]; [lia|]. simpl.
    apply Forall_cons in Hd as [Hc Hd]. simpl in H0, Hf.
    assert (c <> 48) by congruence.
    repeat match goal with |- context [c =? ?k] => destruct (Z.eqb_spec c k); [lia|] end.
    destruct (Z.leb_spec 49 c), (Z.leb_spec c 57); try lia. simpl.
    unfold dec_value in *. simpl in Hw |- *.
    change (c - 48) with (0 * 10 + (c - 48)). rewrite scan_width_spec; try done; try lia.
    + apply reswitch_long. lia.
    + intros c' r. destruct long; simpl; intros [= <- _]; lia.
Qed.

(** After the flags of a directive the switch is at the conversion character, with the
    padding, width and length they denote. *)
Lemma reswitch_flags fuel flag ws long ch last rest ap st :
  flag = None \/ flag = Some 48 \/ flag = Some 45 -> wf_width ws ->
  (ch < 48 \/ 57 < ch) ->
  (length (flags_of flag ws long ++ ch :: rest) < fuel)%nat ->
  exists fuel', reswitch fuel spec0 last (flags_of flag ws long ++ ch :: rest) ap st =
    reswitch (S fuel') (mkSpec (default 32 flag) (width_of ws) (-1) (Z.b2z long) false)
      last (ch :: rest) ap st.
Proof.
  intros Hflag Hws Hch. unfold flags_of. rewrite !length_app. intros Hf.
  rewrite <-!app_assoc.
  destruct Hflag as [->|[->| ->]]; simpl in *.
  - apply (reswitch_width fuel 32); done || lia.
  - destruct fuel as [|fuel]; [lia|]. apply (reswitch_width fuel 48); done || lia.
  - destruct fuel as [|fuel]; [lia|]. apply (reswitch_width fuel 45); done || lia.
Qed.

(** ** One directive *)

Lemma conv_number_spec zero ws long n base st :
  2 <= base -> 0 <= n < 2 ^ 64 ->
  exists out, padded_numeral base n zero ws out /\
    conv_number putch (mkSpec (pad_of zero) (width_of ws) (-1) (Z.b2z long) false) n base st
      = Ok (puts st out).
Proof.
  intros Hb Hn. unfold conv_number. simpl.
  destruct (printnum_spec n base (width_of ws) (pad_of zero)) as (l & Hl & _ & ->); try done.
  eexists. split; [|done]. exists l. done.
Qed.

Lemma rep_neg n c : n <= 0 -> rep n c = [].
Proof. intros. unfold rep. by replace (Z.to_nat n) with 0%nat by lia. Qed.

Lemma s_loop_spec l : forall fuel p w st,
  cstr (rd st) p l -> 0 <= p -> p + Z.of_nat (length l) < 2 ^ 64 -> (length l < fuel)%nat ->
  s_loop putch rd fuel false p (-1) w st = Ok (w - Z.of_nat (length l), puts st l).
Proof.
  induction l as [|c l IH]; intros [|fuel] p w st Hs Hp Hb Hf; simpl in *; try lia.
  - rewrite Hs. simpl. by rewrite Z.sub_0_r.
  - destruct Hs as (-> & Hc & Hs). destruct (Z.eqb_spec c 0); [lia|].
    rewrite wrapU_small by (simpl; lia). rewrite IH; try done; try lia.
    + f_equal. f_equal. lia.
    + by rewrite rd_stable.
Qed.

Lemma conv_string_spec lj ws p l st :
  wf_directive sfuel (rd st) (Str lj ws p l) ->
  exists out, renders (Str lj ws p l) out /\
    conv_string putch rd sfuel (mkSpec (default 32 (left_flag lj)) (width_of ws) (-1) 0 false)
      p st = Ok (puts st out).
Proof.
  intros (Hws & Hp & Hb & Hf & Hs). unfold conv_string. cbn [renders width padc precision].
  destruct (Z.eqb_spec p 0); [lia|]. eexists. split; [reflexivity|].
  assert (forall w st, rd st = rd st -> cstr (rd st) p l -> (length l < sfuel)%nat ->
    s_loop putch rd sfuel false p (-1) w st = Ok (w - Z.of_nat (length l), puts st l)) as Hl.
  { intros w st' _ Hs' _. apply s_loop_spec; try done; lia. }
  destruct lj; simpl.
  - rewrite andb_false_r. simpl. rewrite Hl by done. simpl. by rewrite puts_app.
  - rewrite andb_true_r. destruct (Z.ltb_spec 0 (width_of ws)); simpl.
    + assert (u64 (-1) = 2 ^ 64 - 1) as -> by done.
      rewrite (strnlen_spec sfuel (rd st) p _ l), (Z.min_r (2 ^ 64 - 1)) by (done || lia). simpl.
      rewrite Hl by (try rewrite rd_puts; done). simpl.
      by rewrite (rep_neg (Z.min _ _ - _)), puts_app by lia.
    + rewrite Hl by done. simpl. by rewrite !rep_neg by lia.
Qed.

Lemma signed_abs long a :
  let n := signed_value long a in
  (if n <? 0 then u64 (- n) else u64 n) = Z.abs n /\ 0 <= Z.abs n < 2 ^ 64.
Proof.
  simpl. assert (- 2 ^ 63 <= signed_value long a < 2 ^ 63) as H.
  { unfold signed_value. pose proof (wrapS_range 64 a). pose proof (wrapS_range 32 a).
    destruct long; simpl in *; lia. }
  destruct (Z.ltb_spec (signed_value long a) 0); split; try lia;
    rewrite wrapU_small by (simpl; lia); lia.
Qed.

Lemma unsigned_range long a : 0 <= unsigned_value long a < 2 ^ 64.
Proof.
  unfold unsigned_value. pose proof (wrapU_range 64 a). pose proof (wrapU_range 32 a).
  destruct long; simpl in *; lia.
Qed.

Lemma reswitch_directive d rest ap st fmt :
  wf_directive sfuel (rd st) d -> 37 :: fmt = fmt_of d ++ rest -> (forall c, d <> Lit c) ->
  exists out, renders d out /\
    reswitch (S (length fmt)) spec0 fmt fmt (args_of d ++ ap) st = Ok (rest, ap, puts st out).
Proof.
  intros Hwf Hfmt Hlit. destruct d as [c| |a|zero ws long a|cv zero ws long a|a|lj ws p l];
    [by destruct (Hlit c)|..]; simpl in Hfmt; injection Hfmt as ->; cbn [args_of app].
  - exists [37]. done.
  - exists [s32 a]. done.
  - rewrite <-!app_assoc. cbn [app]. simpl in Hwf.
    edestruct (reswitch_flags) as [fuel' ->]; [|exact Hwf| |lia|]; [destruct zero; auto|lia|].
    simpl. unfold getint, va_arg. simpl.
    destruct (signed_abs long a) as [E Hr].
    replace (if 2 <=? Z.b2z long then s64 a else _) with (signed_value long a)
      by (by destruct long). rewrite E.
    destruct (conv_number_spec zero ws long _ 10
      (if signed_value long a <? 0 then putch st 45 else st) ltac:(lia) Hr)
      as (out & Ho & Hc).
    replace (default 32 (zero_flag zero)) with (pad_of zero) by (by destruct zero).
    rewrite Hc. simpl.
    eexists. split; [eexists; split; [exact Ho|reflexivity]|].
    by destruct (signed_value long a <? 0).
  - rewrite <-!app_assoc. cbn [app]. simpl in Hwf.
    edestruct (reswitch_flags) as [fuel' ->]; [|exact Hwf| |lia|];
      [destruct zero; auto|destruct cv; simpl; lia|].
    destruct (conv_number_spec zero ws long (unsigned_value long a) (conv_base cv) st)
      as (out & Ho & Hc); [destruct cv; simpl; lia|apply unsigned_range|].
    replace (default 32 (zero_flag zero)) with (pad_of zero) by (by destruct zero).
    exists out. split; [done|].
    destruct cv; simpl in Hc |- *; unfold getuint, va_arg; simpl;
      replace (if 2 <=? Z.b2z long then u64 a else _) with (unsigned_value long a)
        by (by destruct long); by rewrite Hc.
  - destruct (conv_number_spec false [] false (u64 a) 16 (putch (putch st 48) 120))
      as (out & Ho & Hc); [lia|apply (wrapU_range 64); lia|].
    exists ([48; 120] ++ out). split; [by exists out|].
    change (width_of []) with (-1) in Hc. simpl in Hc |- *.
    unfold spec0 in *. by rewrite Hc.
  - rewrite <-!app_assoc. cbn [app].
    edestruct (reswitch_flags) as [fuel' ->]; [|exact (proj1 Hwf)| |lia|];
      [destruct lj; auto|lia|].
    destruct (conv_string_spec lj ws p l st Hwf) as (out & Ho & Hc).
    exists out. split; [done|]. simpl. by rewrite Hc.
Qed.

(** A format string spelled from directives prints what each of them promises. *)
Lemma vprintfmt_directives ds : forall fuel ap st,
  Forall (wf_directive sfuel (rd st)) ds ->
  (length (concat (map fmt_of ds)) < fuel)%nat ->
  exists outs, Forall2 renders ds outs /\
    vprintfmt fuel (concat (map fmt_of ds)) (concat (map args_of ds) ++ ap) st =
      Ok (puts st (concat outs)).
Proof.
  induction ds as [|d ds IH]; intros [|fuel] ap st Hwf Hf; try lia;
    cbn [map concat] in *.
  - exists []. split; [constructor|done].
  - apply Forall_cons in Hwf as [Hd Hds]. rewrite length_app in Hf.
    assert (forall out, (length (concat (map fmt_of ds)) < fuel)%nat -> exists outs,
      Forall2 renders ds outs /\
      vprintfmt fuel (concat (map fmt_of ds)) (concat (map args_of ds) ++ ap) (puts st out) =
        Ok (puts st (out ++ concat outs))) as Hrest.
    { intros out Hl. destruct (IH fuel ap (puts st out)) as (outs & Ho & E); [|done|].
      - by rewrite rd_puts.
      - exists outs. by rewrite puts_app, E. }
    assert ((exists c, d = Lit c) \/ ~ (exists c, d = Lit c)) as [[c ->]|Hlit].
    { destruct d; [left; eauto|right; by intros [? [=]]..]. }
    + simpl in *. destruct (Z.eqb_spec c 37); [done|]. simpl.
      destruct (Hrest [c]) as (outs & Ho & E); [lia|].
      exists ([c] :: outs). split; [by constructor|]. exact E.
    + assert (exists fmt, 37 :: fmt = fmt_of d ++ concat (map fmt_of ds)) as [fmt Hfmt].
      { destruct d; simpl; eauto. by destruct Hlit; eauto. }
      assert (0 < length (fmt_of d))%nat by (destruct d; simpl; lia).
      destruct (reswitch_directive d (concat (map fmt_of ds))
        (concat (map args_of ds) ++ ap) st fmt Hd Hfmt) as (out & Ho & E).
      { intros c ->. eauto. }
      rewrite <-Hfmt, <-app_assoc. cbn [Printf.vprintfmt Z.eqb Pos.eqb negb].
      rewrite E. cbn [mbind res_bind].
      destruct (Hrest out) as (outs & Hos & E'); [lia|].
      exists (out :: outs). split; [by constructor|]. exact E'.
Qed.
End interpreter.

(** ** printhex *)

Lemma printhex_loop_spec n : forall x str,
  0 <= x -> exists ds, printhex_loop n x str = map digit_char ds ++ str /\ length ds = n /\
    Forall (fun d => 0 <= d < 16) ds /\
    fold_left (fun a d => a * 16 + d) ds 0 = x mod 16 ^ Z.of_nat n.
Proof.
  induction n as [|n IH]; intros x str Hx; cbn [printhex_loop].
  - exists []. simpl. rewrite Z.mod_1_r. split_and!; done || constructor.
  - destruct (IH (Z.shiftr x 4) ((Z.land x 15 +
      (if Z.land x 15 <? 10 then 48 else 97 - 10)) :: str)) as (ds & -> & Hl & Hd & Hv).
    { by apply Z.shiftr_nonneg. }
    change 15 with (2 ^ 4 - 1). rewrite land_pow2_mask by lia. change (2 ^ 4) with 16.
    pose proof (Z.mod_pos_bound x 16 ltac:(lia)).
    exists (ds ++ [x mod 16]). rewrite map_app, <-app_assoc, length_app, fold_snoc, Hv. simpl.
    rewrite Z.shiftr_div_pow2 by lia. change (2 ^ 4) with 16.
    split_and!; [|lia| |].
    + repeat f_equal. unfold digit_char.
      destruct (Z.ltb_spec (x mod 16) 10), (Z.leb_spec 10 (x mod 16)); lia.
    + apply Forall_app. split; [done|]. by apply Forall_singleton.
    + rewrite Nat2Z.inj_succ, Z.pow_succ_r, Z.rem_mul_r by lia. lia.
Qed.

(** ** put_dec *)

Lemma put_dec_digs_spec room : forall v,
  0 <= v < 10 ^ Z.of_nat room ->
  exists ds, put_dec_digs room v = Some (map digit_char ds) /\ printnum_digs room v 10 = Some ds
  \/ room = 0%nat.
Proof.
  induction room as [|room IH]; intros v Hv; [exists []; by right|].
  rewrite Nat2Z.inj_succ, Z.pow_succ_r in Hv by lia. cbn [put_dec_digs printnum_digs].
  pose proof (Z.mod_pos_bound v 10 ltac:(lia)).
  assert (48 + v mod 10 = digit_char (v mod 10)) as ->
    by (unfold digit_char; destruct (Z.leb_spec 10 (v mod 10)); lia).
  destruct (Z.ltb_spec v 10).
  - rewrite Z.div_small by lia. simpl. eexists. left. split; [|done]. done.
  - destruct (Z.eqb_spec (v / 10) 0); [dlia|].
    assert (v / 10 < 10 ^ Z.of_nat room) by (apply Z.div_lt_upper_bound; lia).
    destruct (IH (v / 10)) as [ds [[-> ->]| ->]]; [dlia| |simpl in *; dlia].
    eexists. left. simpl. split; [|done]. done.
Qed.

(** ** Properties *)

(** C18: for a format spelled from literal characters, [%%], [%c], [%s], [%p] and the
    [d], [u], [o], [x] conversions with an optional zero flag, width and [l], [printf]
    terminates and appends to the console exactly the concatenation of what each directive
    promises: canonical numerals of the signed or unsigned value at its width, padded on
    the left to the field width, and strings justified in their field. *)
Theorem printf_contract sfuel m ds ap c :
  Forall (wf_directive sfuel m) ds -> con_ok c ->
  exists outs c', Forall2 renders ds outs /\
    printf sfuel m (concat (map fmt_of ds)) (concat (map args_of ds) ++ ap) c = Ok c' /\
    con_ok c' /\ con_output c' = con_output c ++ map u8 (concat outs).
Proof.
  intros Hds Hc. unfold printf.
  destruct (vprintfmt_directives putchar (fun _ => m) sfuel ltac:(done) ds
    (S (length (concat (map fmt_of ds)))) ap c Hds ltac:(lia)) as (outs & Ho & ->).
  destruct (putchar_puts c (concat outs) Hc) as [H1 H2]. eauto 6.
Qed.

(** The trap report of [handle_trap], "hart %2d unhandled trap 0x%lx at %p": *)
Lemma printf_contract_witness :
  exists outs c', Forall2 renders
      [Lit 104; Signed false [50] false 7; Unsigned Cx false [] true 255; Pointer 4096;
       Str false [56] 1000 [111; 107]] outs /\
    printf 10 (mem_of 1000 [111; 107])
      (concat (map fmt_of [Lit 104; Signed false [50] false 7; Unsigned Cx false [] true 255;
         Pointer 4096; Str false [56] 1000 [111; 107]]))
      (concat (map args_of [Lit 104; Signed false [50] false 7; Unsigned Cx false [] true 255;
         Pointer 4096; Str false [56] 1000 [111; 107]]) ++ []) (mkConsole [] []) = Ok c' /\
    con_ok c' /\ con_output c' = con_output (mkConsole [] []) ++ map u8 (concat outs).
Proof.
  apply printf_contract; [|vm_compute; reflexivity].
  repeat constructor; simpl; try lia; try done.
Defined.

(** formatting a 64-bit integer with ["%ld"] into a buffer and reading it back with
    [atol] returns the integer, for every value but the most negative one. *)
Theorem sprintf_atol_roundtrip m buf n fuel sfuel :
  - 2 ^ 63 < n < 2 ^ 63 -> 0 <= buf -> buf + 66 < 2 ^ 64 -> (66 <= fuel)%nat ->
  exists m' len, sprintf sfuel m buf [37; 108; 100] [n] = Ok (m', len) /\
    atol fuel m' buf = Some n.
Proof.
  intros Hn Hb Hb2 Hf. unfold sprintf. cbn [vprintfmt length reswitch Z.eqb Pos.eqb negb].
  simpl. unfold getint, va_arg. simpl. rewrite wrapS_small by (simpl; lia).
  destruct (signed_abs true n) as [E Hr]. unfold signed_value in E, Hr.
  rewrite wrapS_small in E, Hr by (simpl; lia). rewrite E.
  unfold conv_number. simpl.
  destruct (printnum_spec (Z.abs n) 10 (-1) 32) as (l & Hl & Hlen & ->); [lia|done|].
  rewrite rep_neg by lia. simpl.
  destruct (numeral_digits _ _ Hl) as [Hd Hv].
  set (out := sign_chars (n <? 0) false ++ l).
  assert (puts sprintf_putch (if n <? 0 then sprintf_putch (m, buf) 45 else (m, buf)) l =
    puts sprintf_putch (m, buf) out) as -> by (unfold out; by destruct (n <? 0)).
  assert (length out <= 65)%nat by (unfold out; destruct (n <? 0); simpl; lia).
  destruct (sprintf_puts out m buf) as (m' & -> & Hin & Hout); [lia..|]. simpl.
  eexists _, _. split; [done|].
  assert (chars out) as Hch.
  { assert (chars l) by (eapply Forall_impl; [exact Hd|]; simpl; lia).
    unfold out. destruct (n <? 0); [constructor; [lia|done]|done]. }
  rewrite (atol_spec fuel _ buf 0 (n <? 0) false l); try done; try (simpl; lia).
  - rewrite Hv. destruct (Z.ltb_spec n 0); f_equal; lia.
  - apply cstr_intro; [done| |by rewrite store8_lookup, Z.eqb_refl].
    intros i c Hi. pose proof (lookup_lt_Some _ _ _ Hi). simpl in *.
    rewrite store8_lookup. destruct (Z.eqb_spec (buf + Z.of_nat i)
      (buf + Z.of_nat (length out))); [unfold out in *; lia|].
    rewrite (Hin i c Hi). apply (wrapU_small 8).
    eapply Forall_lookup_1 in Hi; [|exact Hch]. simpl in *. lia.
Qed.

Lemma sprintf_atol_roundtrip_witness :
  exists m' len, sprintf 1 (fun _ => 170) 4096 [37; 108; 100] [-9007199254740993] = Ok (m', len) /\
    atol 66 m' 4096 = Some (-9007199254740993).
Proof. apply sprintf_atol_roundtrip; lia. Defined.

(** [printhex] prints exactly sixteen hexadecimal digits whose value is its 64-bit
    argument. *)
Theorem printhex_correct x :
  exists ds, printhex (u64 x) = map digit_char ds /\ length ds = 16%nat /\
    Forall (fun d => 0 <= d < 16) ds /\
    fold_left (fun a d => a * 16 + d) ds 0 = u64 x.
Proof.
  pose proof (wrapU_range 64 x ltac:(lia)).
  destruct (printhex_loop_spec 16 (u64 x) []) as (ds & E & Hl & Hd & Hv); [lia|].
  exists ds. unfold printhex. rewrite E, app_nil_r. split_and!; try done.
  rewrite Hv. apply Z.mod_small. done.
Qed.

(** [put_dec] never overruns its 24-character digit array on a 64-bit counter and appends
    the canonical decimal numeral of the counter. *)
Theorem put_dec_correct v :
  exists l, put_dec (u64 v) = Some l /\ is_numeral 10 l (u64 v) /\ (length l <= 24)%nat.
Proof.
  pose proof (wrapU_range 64 v ltac:(lia)).
  assert (2 ^ 64 < 10 ^ Z.of_nat 24) by (vm_compute; reflexivity).
  destruct (put_dec_digs_spec 24 (u64 v)) as [ds [[Hp Hq]|Hp]]; [lia| |done].
  destruct (printnum_digs_spec 24 10 ltac:(lia) (u64 v)) as (ds' & Hq' & Hl & Hr); [lia..|].
  rewrite Hq in Hq'. injection Hq' as <-.
  exists (map digit_char (reverse ds)). unfold put_dec. rewrite Hp. simpl.
  change (map digit_char ds) with (digit_char <$> ds). rewrite <-(fmap_reverse digit_char ds).
  rewrite length_map, length_reverse.
  split_and!; [reflexivity| |exact Hl]. exists (reverse ds). split; [reflexivity|exact Hr].
Qed.
