(* ===== verification/Sv39.v ===== *)
(** * Sv39 page tables

    The page-table-entry bits and trap causes of riscv-tests/env/encoding.h and the address translation of
    the RISC-V privileged architecture that the page tables built by vm.c and
    process_dispatch.c are for: a three-level walk that starts at [root], with superpage
    leaves at the two upper levels. *)
From S2P Require Import Prelude Memory.
Local Open Scope Z_scope.

Definition PTE_V : Z := 0x001.
Definition PTE_R : Z := 0x002.
Definition PTE_W : Z := 0x004.
Definition PTE_X : Z := 0x008.
Definition PTE_U : Z := 0x010.
Definition PTE_G : Z := 0x020.
Definition PTE_A : Z := 0x040.
Definition PTE_D : Z := 0x080.
Definition PTE_PPN_SHIFT : Z := 10.
Definition RISCV_PGSHIFT : Z := 12.
Definition RISCV_PGSIZE : Z := Z.shiftl 1 RISCV_PGSHIFT.
Definition SATP_MODE_SV39 : Z := 8.

(** Causes of traps. *)
Definition CAUSE_ILLEGAL_INSTRUCTION : Z := 0x2.
Definition CAUSE_LOAD_ACCESS : Z := 0x5.
Definition CAUSE_USER_ECALL : Z := 0x8.
Definition CAUSE_FETCH_PAGE_FAULT : Z := 0xc.
Definition CAUSE_LOAD_PAGE_FAULT : Z := 0xd.
Definition CAUSE_STORE_PAGE_FAULT : Z := 0xf.

(** A flag test [pte & bit]. *)
Definition has (pte bit : Z) : bool := negb (Z.land pte bit =? 0).

(** The virtual page number field of level [l]. *)
Definition vpn (va l : Z) : Z := Z.shiftr va (12 + 9 * l) mod 512.

Definition pte_ppn (pte : Z) : Z := Z.shiftr pte 10 mod 2 ^ 44.

(** The walk from level [l]: a valid entry without R or X points at the next table, a leaf
    maps the low [12 + 9 * l] bits of the address; a misaligned superpage is a fault. *)
Fixpoint sv39_walk (levels : nat) (rd : Z -> Z) (table va : Z) : option (Z * Z) :=
  match levels with
  | O => None
  | S l =>
      let lv := Z.of_nat l in
      let pte := rd (table + 8 * vpn va lv) in
      if negb (has pte PTE_V) || (negb (has pte PTE_R) && has pte PTE_W) then None
      else if has pte PTE_R || has pte PTE_X then
        if pte_ppn pte mod 2 ^ (9 * lv) =? 0 then
          Some (pte_ppn pte * 4096 + va mod 2 ^ (12 + 9 * lv), pte)
        else None
      else sv39_walk l rd (pte_ppn pte * 4096) va
  end.

(** Translation of a virtual address by the table at [root]; addresses above the sign bit
    are outside the model (the programs use the low half). *)
Definition sv39 (rd : Z -> Z) (root va : Z) : option (Z * Z) := sv39_walk 3 rd root va.

(** Arithmetic on the flag constants. *)
Ltac pte_lia := unfold PTE_V, PTE_R, PTE_W, PTE_X, PTE_U, PTE_G, PTE_A, PTE_D in *; lia.

(** ** Entries *)

(** A table pointer or a leaf: a page-aligned physical address with flag bits below 2^10. *)
Definition mk_pte (pa flags : Z) : Z := Z.lor (Z.shiftl (Z.shiftr pa 12) 10) flags.

Lemma mk_pte_sum pa flags :
  0 <= flags < 2 ^ 10 -> mk_pte pa flags = pa / 4096 * 2 ^ 10 + flags.
Proof.
  intros. unfold mk_pte. rewrite Z.shiftl_mul_pow2, Z.shiftr_div_pow2 by lia.
  by apply lor_disjoint_add.
Qed.

Lemma pte_ppn_mk pa flags :
  0 <= pa < 2 ^ 56 -> 0 <= flags < 2 ^ 10 -> pte_ppn (mk_pte pa flags) = pa / 4096.
Proof.
  intros Hpa Hf. unfold pte_ppn. rewrite mk_pte_sum, Z.shiftr_div_pow2 by lia.
  rewrite Z.div_add_l, (Z.div_small flags), Z.add_0_r by lia.
  apply Z.mod_small. dlia.
Qed.

Lemma has_mk pa flags bit :
  0 <= flags -> 0 <= bit < 2 ^ 10 -> has (mk_pte pa flags) bit = has flags bit.
Proof.
  intros Hf Hb. unfold has, mk_pte. f_equal. f_equal.
  rewrite Z.land_lor_distr_l. replace (Z.land (Z.shiftl _ 10) bit) with 0; [done|].
  symmetry. apply Z.bits_inj'. intros i Hi. rewrite Z.land_spec, Z.bits_0.
  destruct (Z.lt_ge_cases i 10).
  - by rewrite Z.shiftl_spec_low.
  - by rewrite (testbit_high bit 10), andb_false_r by lia.
Qed.

(** One step of the walk through a table entry, and through a leaf. *)
Lemma walk_table l rd table va pa :
  0 <= pa < 2 ^ 56 -> pa mod 4096 = 0 ->
  rd (table + 8 * vpn va (Z.of_nat l)) = mk_pte pa PTE_V ->
  sv39_walk (S l) rd table va = sv39_walk l rd pa va.
Proof.
  intros Hpa Hal E. cbn [sv39_walk]. rewrite E, !has_mk, pte_ppn_mk by pte_lia. simpl.
  f_equal. dlia.
Qed.

Lemma walk_leaf l rd table va pa flags :
  0 <= pa < 2 ^ 56 -> 0 <= flags < 2 ^ 10 ->
  has flags PTE_V = true -> has flags PTE_R = true ->
  pa mod 2 ^ (12 + 9 * Z.of_nat l) = 0 ->
  rd (table + 8 * vpn va (Z.of_nat l)) = mk_pte pa flags ->
  sv39_walk (S l) rd table va =
    Some (pa + va mod 2 ^ (12 + 9 * Z.of_nat l), mk_pte pa flags).
Proof.
  intros Hpa Hf HV HR Hal E. cbn [sv39_walk].
  rewrite E, !has_mk, pte_ppn_mk, HV, HR by pte_lia. simpl orb; simpl andb; simpl negb.
  cbn match. apply Z.mod_divide in Hal; [|lia]. destruct Hal as [q Hq].
  rewrite Z.pow_add_r in Hq by lia. change (2 ^ 12) with 4096 in Hq.
  replace (pa / 4096) with (q * 2 ^ (9 * Z.of_nat l)).
  - rewrite Z.mod_mul by lia. simpl. do 2 f_equal. lia.
  - rewrite Hq. replace (q * (4096 * 2 ^ (9 * Z.of_nat l)))
      with (q * 2 ^ (9 * Z.of_nat l) * 4096) by lia. by rewrite Z.div_mul by lia.
Qed.
