(* ===== verification/Process.v ===== *)
(** * Process mode: one address space per hart

    riscv-tests/spec95-equivalent/scripts/process_dispatch.c: [enter_process] gives a hart a
    private copy of the image's writable data and an Sv39 table that maps it at the
    original addresses; [bm_pa] of
    riscv-tests/spec95-equivalent/benchmarks/baremetal/common/htif_syscalls.c translates
    the pointers handed to the host the same way.  The link-time symbols [bm_data_start]
    and [_end] are parameters.  Memory is accessed by 64-bit words at multiples of 8. *)
From S2P Require Import Prelude Memory Sv39.
Local Open Scope Z_scope.
Local Open Scope word_scope.

(** ** Definitions *)

Definition PAGE : Z := 4096.
Definition MEGA : Z := Z.shiftl 2 20.
Definition GIGA : Z := Z.shiftl 1 30.
Definition PT_BASE : Z := 0x3C000000.
Definition PT_SIZE : Z := Z.shiftl 1 20.
Definition PRIV_BASE : Z := 0x40000000.
Definition PRIV_TOP : Z := 0x80000000.

Definition LEAF_FLAGS : Z :=
  Z.lor (Z.lor (Z.lor (Z.lor (Z.lor (Z.lor PTE_V PTE_R) PTE_W) PTE_X) PTE_U) PTE_A) PTE_D.

Definition LEAF (pa : Z) : Z := mk_pte pa LEAF_FLAGS.
Definition TABLE (pa : Z) : Z := mk_pte pa PTE_V.

(** [x & ~(n - 1)] on 64-bit values. *)
Definition round_down (x n : Z) : Z := Z.land x (u64 (Z.lnot (n - 1))).

Record layout := mkLayout {
  lo : Z; hi : Z; stride : Z; priv : Z; root : Z; l1 : Z; l0 : Z }.

(** The local variables of [enter_process] computed before its first check. *)
Definition layout_of (bm_data_start _end : Z) (h : Z) : layout :=
  let lo := round_down bm_data_start PAGE in
  let hi := round_down (_end ⊞ (PAGE - 1)) PAGE in
  let stride := round_down ((hi - lo) ⊞ (MEGA - 1)) MEGA in
  let root := PT_BASE ⊞ h * PT_SIZE in
  mkLayout lo hi stride (PRIV_BASE ⊞ h * stride) root (root ⊞ 8 * 512) (root ⊞ 8 * 1024).

Inductive process_error := ImageTooLarge | TableAreaTooSmall.

(** [for (p = lo; p < hi; p += 8)]: copy the writable data. *)
Definition copy_data (L : layout) (m : mem) : mem :=
  fold_left (fun m i =>
      let p := lo L + 8 * i in
      store64 m (priv L + (p - lo L)) (load64 m p))
    (seqZ 0 ((hi L - lo L) / 8)) m.

Definition clear_tables (L : layout) (m : mem) : mem :=
  fold_left (fun m i => store64 (store64 m (l1 L + 8 * i) 0) (root L + 8 * i) 0)
    (seqZ 0 512) m.

Definition map_gigas (L : layout) (m : mem) : mem :=
  fold_left (fun m i => store64 m (root L + 8 * i) (LEAF (i * GIGA))) (seqZ 1 31)
    (store64 m (root L) (TABLE (l1 L))).

(** The 512 entries of one last-level table [t] for the 2 MiB at [va]. *)
Definition fill_l0 (L : layout) (t va : Z) (m : mem) : mem :=
  fold_left (fun m i =>
      let pva := va + i * PAGE in
      store64 m (t + 8 * i)
        (LEAF (if (lo L <=? pva) && (pva <? hi L) then priv L + (pva - lo L) else pva)))
    (seqZ 0 512) m.

(** One iteration of the loop over the 512 megapages of the first GiB; [k] counts the
    last-level tables handed out. *)
Definition map_mega (h : Z) (L : layout) (st : mem * Z) (j : Z) : res process_error (mem * Z) :=
  let '(m, k) := st in
  let va := j * MEGA in
  if (va + MEGA <=? lo L) || (hi L <=? va) then
    Ok (store64 m (l1 L + 8 * j) (LEAF va), k)
  else
    let t := l0 L + 8 * (512 * k) in
    if PT_BASE + (h + 1) * PT_SIZE <? t + 8 * 512 then Err TableAreaTooSmall
    else Ok (store64 (fill_l0 L t va m) (l1 L + 8 * j) (TABLE t), k + 1).

Fixpoint map_megas (h : Z) (L : layout) (st : mem * Z) (js : list Z)
    : res process_error (mem * Z) :=
  match js with
  | [] => Ok st
  | j :: js => st ← map_mega h L st j; map_megas h L st js
  end.

(** What [enter_process] leaves behind: memory, [satp], and the globals [bm_pa] reads. *)
Record process := mkProcess {
  p_mem : mem; p_satp : Z; bm_proc_lo : Z; bm_proc_hi : Z; bm_proc_off : Z }.

Definition enter_process (bm_data_start _end h : Z) (m : mem) : res process_error process :=
  let L := layout_of bm_data_start _end h in
  if (GIGA <? hi L) || (PRIV_TOP <? priv L ⊞ stride L) then Err ImageTooLarge
  else
    let m := map_gigas L (clear_tables L (copy_data L m)) in
    '(m, _) ← map_megas h L (m, 0) (seqZ 0 512);
    mret (mkProcess m (Z.lor (u64 (Z.shiftl 8 60)) (Z.shiftr (root L) 12))
            (lo L) (hi L) (s64 (priv L - lo L))).

(** [bm_pa] of htif_syscalls.c. *)
Definition bm_pa (p : process) (a : Z) : Z :=
  if (bm_proc_lo p <=? a) && (a <? bm_proc_hi p) then s64 (a + bm_proc_off p) else s64 a.

(** ** Rounding and layout *)

Lemma round_down_spec x k :
  0 <= k < 64 -> 0 <= x < 2 ^ 64 -> round_down x (2 ^ k) = x / 2 ^ k * 2 ^ k.
Proof.
  intros Hk Hx. rewrite <-Z.shiftr_div_pow2, <-Z.shiftl_mul_pow2 by lia.
  unfold round_down. apply Z.bits_inj'. intros i Hi.
  rewrite Z.land_spec, testbit_wrapU, Z.lnot_spec by lia.
  rewrite Z.sub_1_r, <-Z.ones_equiv.
  destruct (Z.lt_ge_cases i k).
  - rewrite Z.shiftl_spec_low, Z.ones_spec_low by lia. simpl. by rewrite !andb_false_r.
  - rewrite Z.shiftl_spec, Z.shiftr_spec, Z.ones_spec_high by lia.
    rewrite Z.sub_add. destruct (Z.ltb_spec i 64); simpl; rewrite ?andb_true_r; [done|].
    by rewrite (testbit_high x 64) by lia.
Qed.

(** The image fits the address-space layout: it lies below the page tables, the hart is one
    of 64 and its private copy ends below [PRIV_TOP]. *)
Record fits (bm_data_start _end h : Z) : Prop := mkFits {
  fits_image : 0 <= bm_data_start <= _end /\ _end <= PT_BASE;
  fits_hart : 0 <= h < 64;
  fits_copy : PRIV_BASE + (h + 1) * stride (layout_of bm_data_start _end h) <= PRIV_TOP }.

(** The facts about the layout that the rest of the file uses. *)
Record good_layout (h : Z) (L : layout) : Prop := mkGood {
  g_lo : lo L mod 4096 = 0; g_hi : hi L mod 4096 = 0;
  g_lohi : 0 <= lo L <= hi L; g_image : hi L <= PT_BASE;
  g_stride : stride L mod MEGA = 0; g_stride_ge : hi L - lo L <= stride L;
  g_priv : priv L = PRIV_BASE + h * stride L; g_priv_top : priv L + stride L <= PRIV_TOP;
  g_h : 0 <= h < 64;
  g_root : root L = PT_BASE + h * PT_SIZE;
  g_l1 : l1 L = root L + 4096; g_l0 : l0 L = root L + 8192 }.

Ltac consts :=
  change PAGE with 4096 in *; change MEGA with 2097152 in *; change GIGA with 1073741824 in *;
  change PT_BASE with 1006632960 in *; change PT_SIZE with 1048576 in *;
  change PRIV_BASE with 1073741824 in *; change PRIV_TOP with 2147483648 in *.

Lemma fits_good ds e h : fits ds e h -> good_layout h (layout_of ds e h).
Proof.
  intros [Hi Hh Hc]. revert Hc. unfold layout_of.
  change PAGE with (2 ^ 12). change MEGA with (2 ^ 21). consts.
  rewrite !(wrapU_small 64 (e + _)) by lia.
  rewrite !round_down_spec by lia.
  set (L := ds / 2 ^ 12 * 2 ^ 12). set (H := (e + (2 ^ 12 - 1)) / 2 ^ 12 * 2 ^ 12).
  assert (0 <= L <= ds /\ L mod 4096 = 0) by (unfold L; dlia).
  assert (e <= H < e + 4096 /\ H mod 4096 = 0) by (unfold H; dlia).
  rewrite !(wrapU_small 64 (H - L + _)), !round_down_spec by lia.
  set (S := (H - L + (2 ^ 21 - 1)) / 2 ^ 21 * 2 ^ 21).
  assert (H - L <= S /\ S mod 2 ^ 21 = 0) by (unfold S; dlia).
  cbn [stride priv root l1 l0 lo hi]. intros Hc.
  rewrite !(wrapU_small 64) by nia.
  constructor; cbn [stride priv root l1 l0 lo hi]; consts; try lia.
  unfold H in *. dlia.
Qed.

(** ** Tables in memory *)

(** An array of words filled by a counted loop. *)
Lemma load_fill base v s n m b :
  base mod 8 = 0 -> b mod 8 = 0 -> 0 <= n ->
  (forall i, s <= i < s + n -> 0 <= v i < 2 ^ 64) ->
  load64 (fold_left (fun m i => store64 m (base + 8 * i) (v i)) (seqZ s n) m) b =
    if in_range (base + 8 * s) (8 * n) b then v ((b - base) / 8) else load64 m b.
Proof.
  intros Hb0 Hb Hn. pattern n. apply natlike_ind; [|clear n Hn|done].
  - intros _. simpl. range_cases; [lia|done].
  - intros n Hn IH Hv. rewrite <-Z.add_1_r, seqZ_snoc, fold_left_app by lia.
    cbn [fold_left]. rewrite load64_store64 by (try apply Hv; dlia).
    rewrite IH by (intros; apply Hv; lia).
    destruct (Z.eqb_spec (base + 8 * (s + n)) b) as [<-|Hne]; range_cases; try lia; try dlia.
    f_equal. dlia.
Qed.

Lemma LEAF_range pa : 0 <= pa < 2 ^ 56 -> 0 <= LEAF pa < 2 ^ 64.
Proof.
  intros. unfold LEAF. rewrite mk_pte_sum by (vm_compute; split; congruence).
  assert (0 <= LEAF_FLAGS < 2 ^ 10) by (vm_compute; split; congruence). dlia.
Qed.

Lemma TABLE_range pa : 0 <= pa < 2 ^ 56 -> 0 <= TABLE pa < 2 ^ 64.
Proof. intros. unfold TABLE. rewrite mk_pte_sum by pte_lia. unfold PTE_V. dlia. Qed.

Section tables.
Context (h : Z) (L : layout).
Hypothesis G : good_layout h L.

Ltac geom := destruct G; consts; lia || dlia || nia.

Lemma root_range : root L mod 4096 = 0 /\ PT_BASE <= root L /\ root L + PT_SIZE <= PRIV_BASE.
Proof. geom. Qed.

(** The identity-or-private mapping the tables implement. *)
Definition pa_of (va : Z) : Z :=
  if (lo L <=? va) && (va <? hi L) then priv L + (va - lo L) else va.

Lemma pa_of_range va : 0 <= va < 32 * GIGA -> 0 <= pa_of va < 2 ^ 56.
Proof. intros. unfold pa_of. split_cmp; geom. Qed.

Lemma priv_range :
  priv L mod 4096 = 0 /\ PRIV_BASE <= priv L /\ priv L + (hi L - lo L) <= PRIV_TOP.
Proof.
  destruct G. consts. split_and!; [|nia|lia]. rewrite g_priv0.
  apply Z.mod_divide in g_stride0 as [q Hq]; [|lia]. rewrite Hq.
  replace (1073741824 + h * (q * 2097152)) with ((262144 + h * q * 512) * 4096) by lia.
  apply Z.mod_mul. lia.
Qed.

(** The copy loop after [n] words. *)
Definition copy_words (n : Z) (m : mem) : mem :=
  fold_left (fun m i =>
    let p := lo L + 8 * i in store64 m (priv L + (p - lo L)) (load64 m p)) (seqZ 0 n) m.

Lemma copy_words_wf n m : wf_mem m -> wf_mem (copy_words n m).
Proof.
  unfold copy_words. generalize (seqZ 0 n) as l. intros l. revert m.
  induction l; cbn [fold_left]; intros; auto.
Qed.

Lemma copy_words_spec n m : 0 <= n -> wf_mem m -> forall b,
  b mod 8 = 0 -> 8 * n <= hi L - lo L ->
  load64 (copy_words n m) b =
    if in_range (priv L) (8 * n) b then load64 m (lo L + (b - priv L)) else load64 m b.
Proof.
  intros Hn Hm. pose proof priv_range as (P1 & P2 & P3).
  assert (lo L mod 8 = 0 /\ hi L <= priv L) as [P4 P5] by (destruct G; consts; split; dlia).
  pattern n. apply natlike_ind; [|clear n Hn|done].
  - intros b Hb _. simpl. range_cases; [lia|done].
  - intros n Hn IH b Hb Hle. pose proof (copy_words_wf n m Hm) as Hwf.
    unfold copy_words in *. rewrite <-Z.add_1_r, seqZ_snoc, fold_left_app by lia.
    cbn [fold_left] in *. rewrite !Z.add_0_l.
    rewrite load64_store64; [|dlia|done|apply (load_le_range 8); done].
    destruct (Z.eqb_spec (priv L + (lo L + 8 * n - lo L)) b) as [<-|Hne].
    + rewrite IH by (dlia || lia). range_cases; try lia. f_equal. lia.
    + rewrite IH by (done || lia). range_cases; try lia; try done. dlia.
Qed.

Lemma copy_data_spec m b :
  wf_mem m -> b mod 8 = 0 ->
  load64 (copy_data L m) b =
    if in_range (priv L) (hi L - lo L) b then load64 m (lo L + (b - priv L)) else load64 m b.
Proof.
  intros Hm Hb.
  assert (hi L - lo L = 8 * ((hi L - lo L) / 8)) as E by (destruct G; dlia).
  unfold copy_data. fold (copy_words ((hi L - lo L) / 8) m).
  rewrite copy_words_spec by (done || (destruct G; dlia)). by rewrite <-E.
Qed.

Lemma clear_tables_spec m b :
  b mod 8 = 0 ->
  load64 (clear_tables L m) b = if in_range (root L) 8192 b then 0 else load64 m b.
Proof.
  intros Hb. pose proof root_range as (R1 & _). destruct G. unfold clear_tables. rewrite g_l2.
  assert (forall n, 0 <= n -> n <= 512 -> load64 (fold_left (fun m i =>
      store64 (store64 m (root L + 4096 + 8 * i) 0) (root L + 8 * i) 0) (seqZ 0 n) m) b =
    if in_range (root L) (8 * n) b || in_range (root L + 4096) (8 * n) b then 0
    else load64 m b) as H.
  { intros n Hn. pattern n. apply natlike_ind; [|clear n Hn|done].
    - intros _. simpl. range_cases; lia || done.
    - intros n Hn IH Hle. rewrite <-Z.add_1_r, seqZ_snoc, fold_left_app by lia.
      cbn [fold_left]. rewrite !load64_store64, IH by (lia || dlia).
      split_cmp; range_cases; simpl; lia || dlia || done. }
  rewrite H by lia. range_cases; simpl; lia || done.
Qed.

Lemma map_gigas_spec m b :
  b mod 8 = 0 ->
  load64 (map_gigas L m) b =
    if in_range (root L + 8) (8 * 31) b then LEAF ((b - root L) / 8 * GIGA)
    else if root L =? b then TABLE (l1 L) else load64 m b.
Proof.
  intros Hb. pose proof root_range as (R1 & R2 & R3). unfold map_gigas.
  rewrite (load_fill (root L) (fun i => LEAF (i * GIGA))) by
    (lia || dlia || (intros; apply LEAF_range; consts; lia)).
  replace (root L + 8 * 1) with (root L + 8) by lia.
  rewrite load64_store64 by
    (dlia || (apply TABLE_range; destruct G; consts; lia)). done.
Qed.

(** ** The megapage loop *)

Definition outside (j : Z) : bool := (j * MEGA + MEGA <=? lo L) || (hi L <=? j * MEGA).

(** Last-level tables used by the first [n] megapages. *)
Definition tables_used (n : Z) : Z :=
  Z.max 0 (Z.min n ((hi L + MEGA - 1) / MEGA) - lo L / MEGA).

(** The entries of megapage [j] are in place. *)
Definition mega_done (m : mem) (k j : Z) : Prop :=
  if outside j then load64 m (l1 L + 8 * j) = LEAF (j * MEGA)
  else exists k', 0 <= k' < k /\ load64 m (l1 L + 8 * j) = TABLE (l0 L + 4096 * k') /\
    forall i, 0 <= i < 512 ->
      load64 m (l0 L + 4096 * k' + 8 * i) = LEAF (pa_of (j * MEGA + i * PAGE)).

(** Aligned words outside the first-level table and the [k] last-level tables. *)
Definition outside_tables (k b : Z) : Prop :=
  b < l1 L \/ (l1 L + 4096 <= b /\ (b < l0 L \/ l0 L + 4096 * k <= b)).

Hypothesis Hroom : tables_used 512 <= 254.

Lemma tables_used_step n :
  0 <= n < 512 -> tables_used (n + 1) = tables_used n + (if outside n then 0 else 1) /\
  0 <= tables_used n /\ tables_used (n + 1) <= 254.
Proof.
  intros Hn. unfold outside, tables_used in *. destruct G. consts. split_cmp; dlia.
Qed.

Lemma fill_l0_spec t va m b :
  t mod 8 = 0 -> b mod 8 = 0 -> 0 <= va < GIGA ->
  load64 (fill_l0 L t va m) b =
    if in_range t 4096 b then LEAF (pa_of (va + (b - t) / 8 * PAGE)) else load64 m b.
Proof.
  intros Ht Hb Hva. unfold fill_l0.
  rewrite (load_fill t (fun i => LEAF (pa_of (va + i * PAGE)))); [| done | done | lia |].
  - by rewrite Z.mul_0_r, Z.add_0_r.
  - intros i Hi. apply LEAF_range, pa_of_range. consts. lia.
Qed.

Lemma map_mega_step m n :
  0 <= n < 512 ->
  exists m', map_mega h L (m, tables_used n) n = Ok (m', tables_used (n + 1)) /\
    mega_done m' (tables_used (n + 1)) n /\
    (forall b, b mod 8 = 0 -> b <> l1 L + 8 * n ->
       b < l0 L + 4096 * tables_used n \/ l0 L + 4096 * tables_used (n + 1) <= b ->
       load64 m' b = load64 m b).
Proof.
  intros Hn. destruct (tables_used_step n Hn) as (E & H0 & H1).
  pose proof root_range as (R1 & R2 & R3). destruct G as [].
  assert (0 <= n * MEGA /\ n * MEGA < GIGA) as [M1 M2] by (consts; lia).
  unfold map_mega, mega_done. fold (outside n). rewrite E in *. clear E.
  destruct (outside n) eqn:Eo.
  - eexists. split_and!; [by rewrite Z.add_0_r| |].
    + rewrite load64_store64, Z.eqb_refl; [done|dlia|dlia|apply LEAF_range; consts; lia].
    + intros b Hb Hne _. rewrite load64_store64 by
        (dlia || (apply LEAF_range; consts; lia)). by rewrite (proj2 (Z.eqb_neq _ _)).
  - set (k := tables_used n) in *. replace (8 * (512 * k)) with (4096 * k) by lia.
    destruct (Z.ltb_spec (PT_BASE + (h + 1) * PT_SIZE) (l0 L + 4096 * k + 8 * 512)).
    { consts. lia. }
    assert (0 <= TABLE (l0 L + 4096 * k) < 2 ^ 64) by (apply TABLE_range; consts; lia).
    eexists. split_and!; [done| |].
    + exists k. split; [lia|]. split.
      * rewrite load64_store64, Z.eqb_refl; [done|dlia|dlia|done].
      * intros i Hi. rewrite load64_store64, fill_l0_spec by (consts; lia || dlia).
        destruct (Z.eqb_spec (l1 L + 8 * n) (l0 L + 4096 * k + 8 * i)); [lia|].
        range_cases; [|lia]. f_equal. f_equal. consts. dlia.
    + intros b Hb Hne Hout. rewrite load64_store64, fill_l0_spec by (consts; lia || dlia).
      rewrite (proj2 (Z.eqb_neq _ _)) by done. range_cases; [lia|done].
Qed.

Lemma map_megas_app st js j :
  map_megas h L st (js ++ [j]) = (st' ← map_megas h L st js; map_mega h L st' j).
Proof.
  revert st. induction js as [|j' js IH]; intros st; simpl.
  - by destruct (map_mega h L st j).
  - destruct (map_mega h L st j'); simpl; auto.
Qed.

Lemma mega_done_frame m m' k k' j n :
  0 <= j < n -> 0 <= k <= k' -> n < 512 ->
  (forall b, b mod 8 = 0 -> b <> l1 L + 8 * n ->
       b < l0 L + 4096 * k \/ l0 L + 4096 * k' <= b -> load64 m' b = load64 m b) ->
  mega_done m k j -> mega_done m' k' j.
Proof.
  intros Hj Hk Hn Hf. pose proof root_range as (R1 & R2 & R3). destruct G as [].
  unfold mega_done. destruct (outside j).
  - intros <-. apply Hf; [dlia|lia|]. left. lia.
  - intros (k'' & Hk'' & Ht & Hi). exists k''. split; [lia|]. split.
    + rewrite <-Ht. apply Hf; [dlia|lia|]. left. lia.
    + intros i Hi'. rewrite <-(Hi i Hi'). apply Hf; [dlia|lia|]. left. lia.
Qed.

Lemma map_megas_spec m n :
  0 <= n -> n <= 512 ->
  exists m', map_megas h L (m, 0) (seqZ 0 n) = Ok (m', tables_used n) /\
    (forall j, 0 <= j < n -> mega_done m' (tables_used n) j) /\
    (forall b, b mod 8 = 0 -> outside_tables (tables_used n) b -> load64 m' b = load64 m b).
Proof.
  intros Hn. pattern n. apply natlike_ind; [|clear n Hn|done].
  - intros _. exists m. replace (tables_used 0) with 0.
    + split_and!; [done|lia|done].
    + unfold tables_used. destruct G. consts. dlia.
  - intros n Hn IH Hle. destruct IH as (m1 & E1 & Hd & Hf); [lia|].
    rewrite <-Z.add_1_r. destruct (map_mega_step m1 n) as (m2 & E2 & Hd2 & Hf2); [lia|].
    destruct (tables_used_step n ltac:(lia)) as (Eu & U0 & U1).
    exists m2. split_and!.
    + rewrite seqZ_snoc, map_megas_app, E1, Z.add_0_l by lia. simpl. exact E2.
    + intros j Hj. destruct (Z.eq_dec j n) as [->|]; [done|].
      eapply (mega_done_frame m1 m2 (tables_used n)); [| | |exact Hf2|apply Hd; lia];
        [lia|destruct (outside n); lia|lia].
    + intros b Hb Ho. unfold outside_tables in *. destruct G.
      rewrite Hf2, Hf; [done|done| |done|lia|]; destruct (outside n); lia.
Qed.
End tables.

(** ** The whole of [enter_process] *)

(** The memory [enter_process] leaves: the copied data below, the tables of this hart. *)
Record address_space (h : Z) (L : layout) (m m' : mem) : Prop := mkSpace {
  as_root0 : load64 m' (root L) = TABLE (l1 L);
  as_gigas : forall i, 1 <= i < 32 -> load64 m' (root L + 8 * i) = LEAF (i * GIGA);
  as_megas : forall j, 0 <= j < 512 -> mega_done L m' (tables_used L 512) j;
  as_frame : forall b, b mod 8 = 0 -> ~ (root L <= b < root L + PT_SIZE) ->
    load64 m' b = if in_range (priv L) (hi L - lo L) b
                  then load64 m (lo L + (b - priv L)) else load64 m b }.

(** The image leaves room for the last-level tables: it touches at most 254 megapages. *)
Definition tables_fit (bm_data_start _end h : Z) : Prop :=
  tables_used (layout_of bm_data_start _end h) 512 <= 254.

Lemma enter_process_space ds e h m :
  fits ds e h -> tables_fit ds e h -> wf_mem m ->
  exists p, enter_process ds e h m = Ok p /\
    address_space h (layout_of ds e h) m (p_mem p) /\
    p_satp p = Z.lor (u64 (Z.shiftl 8 60)) (Z.shiftr (root (layout_of ds e h)) 12) /\
    bm_proc_lo p = lo (layout_of ds e h) /\ bm_proc_hi p = hi (layout_of ds e h) /\
    bm_proc_off p = s64 (priv (layout_of ds e h) - lo (layout_of ds e h)).
Proof.
  intros Hfit Hroom Hm. pose proof (fits_good ds e h Hfit) as G.
  unfold enter_process. set (L := layout_of ds e h) in *.
  pose proof (root_range h L G) as (R1 & R2 & R3).
  pose proof (priv_range h L G) as (P1 & P2 & P3).
  assert ((GIGA <? hi L) || (PRIV_TOP <? (priv L ⊞ stride L)) = false) as ->.
  { destruct G. consts. rewrite wrapU_small by lia.
    apply orb_false_iff. split; apply Z.ltb_ge; lia. }
  destruct (map_megas_spec h L G Hroom (map_gigas L (clear_tables L (copy_data L m))) 512)
    as (m' & -> & Hd & Hf); [lia..|].
  simpl. eexists. split; [reflexivity|]. simpl. split; [|done].
  assert (forall b, b mod 8 = 0 -> outside_tables L (tables_used L 512) b ->
    load64 m' b = if in_range (root L + 8) (8 * 31) b then LEAF ((b - root L) / 8 * GIGA)
      else if root L =? b then TABLE (l1 L)
      else if in_range (root L) 8192 b then 0
      else if in_range (priv L) (hi L - lo L) b then load64 m (lo L + (b - priv L))
      else load64 m b) as Hb.
  { intros b Hb Ho. rewrite (Hf b Hb Ho), (map_gigas_spec h L G), (clear_tables_spec h L G),
      (copy_data_spec h L G) by done. done. }
  assert (0 <= tables_used L 512) by (unfold tables_used; lia).
  unfold tables_fit in Hroom. fold L in Hroom. unfold outside_tables in Hb.
  constructor; try done.
  - destruct G. rewrite Hb by (lia || dlia). rewrite Z.eqb_refl. range_cases; [lia|done].
  - intros i Hi. destruct G. rewrite Hb by (lia || dlia).
    range_cases; split_cmp; try lia; f_equal; f_equal; dlia.
  - intros b Hb8 Hne. destruct G. consts. rewrite Hb by (lia || dlia).
    range_cases; split_cmp; lia || done.
Qed.

Lemma vpn_div va l :
  0 <= l -> 0 <= va < 2 ^ (12 + 9 * l) * 512 -> vpn va l = va / 2 ^ (12 + 9 * l).
Proof.
  intros Hl Hva. unfold vpn. rewrite Z.shiftr_div_pow2 by lia.
  apply Z.mod_small. split; [apply Z.div_pos; lia|]. apply Z.div_lt_upper_bound; lia.
Qed.

Section translation.
Context (h : Z) (L : layout) (m m' : mem).
Hypothesis G : good_layout h L.
Hypothesis Hroom : tables_used L 512 <= 254.
Hypothesis A : address_space h L m m'.

Lemma LEAF_FLAGS_range : 0 <= LEAF_FLAGS < 2 ^ 10.
Proof. vm_compute. split; congruence. Qed.

(** A superpage or page leaf translates by adding the offset. *)
Lemma leaf_translates l table va base :
  0 <= base < 2 ^ 56 -> base mod 2 ^ (12 + 9 * Z.of_nat l) = 0 ->
  load64 m' (table + 8 * vpn va (Z.of_nat l)) = LEAF base ->
  exists pte, sv39_walk (S l) (load64 m') table va =
    Some (base + va mod 2 ^ (12 + 9 * Z.of_nat l), pte).
Proof.
  intros Hb Ha E. eexists.
  apply (walk_leaf l _ table va base LEAF_FLAGS); done || apply LEAF_FLAGS_range.
Qed.

Lemma translates_page k va :
  0 <= va < GIGA -> 0 <= k < 254 ->
  (forall i, 0 <= i < 512 -> load64 m' (l0 L + 4096 * k + 8 * i) =
     LEAF (pa_of L (va / MEGA * MEGA + i * PAGE))) ->
  exists pte, sv39_walk 1 (load64 m') (l0 L + 4096 * k) va = Some (pa_of L va, pte).
Proof.
  intros Hva Hk Hi. pose proof (priv_range h L G) as (P1 & P2 & P3).
  set (i := (va / 4096) mod 512).
  assert (0 <= i < 512) as Hir by (apply Z.mod_pos_bound; lia).
  assert (va / MEGA * MEGA + i * PAGE = va / 4096 * 4096) as Epv by (unfold i; consts; dlia).
  specialize (Hi i Hir). rewrite Epv in Hi.
  assert (0 <= va / 4096 * 4096 <= va) as Hpv by dlia.
  assert (pa_of L va = pa_of L (va / 4096 * 4096) + va mod 4096 /\
    pa_of L (va / 4096 * 4096) mod 4096 = 0) as [-> Hal].
  { unfold pa_of. destruct G. split_cmp; dlia. }
  apply (leaf_translates 0); [apply (pa_of_range h L G); consts; lia|done|].
  change (Z.of_nat 0) with 0. unfold vpn. rewrite Z.shiftr_div_pow2 by lia. exact Hi.
Qed.

Lemma translates_mega va :
  0 <= va < GIGA ->
  exists pte, sv39_walk 2 (load64 m') (l1 L) va = Some (pa_of L va, pte).
Proof.
  intros Hva. assert (vpn va 1 = va / MEGA) as E1 by (apply (vpn_div va 1); consts; lia).
  assert (0 <= va / MEGA < 512) as Hj by (consts; dlia).
  pose proof (as_megas _ _ _ _ A (va / MEGA) Hj) as HJ. unfold mega_done in HJ.
  destruct (outside L (va / MEGA)) eqn:Eo.
  - assert (pa_of L va = va / MEGA * MEGA + va mod MEGA) as ->.
    { unfold pa_of, outside in *. apply orb_true_iff in Eo.
      rewrite !Z.leb_le in Eo. consts. split_cmp; dlia. }
    apply (leaf_translates 1); [consts; dlia|by apply Z.mod_mul|].
    change (Z.of_nat 1) with 1. by rewrite E1.
  - destruct HJ as (k & Hk & Ht & Hi).
    rewrite (walk_table 1 _ (l1 L) va (l0 L + 4096 * k)).
    + apply translates_page; done || lia.
    + destruct G. consts. lia.
    + pose proof (root_range h L G). destruct G. consts. dlia.
    + change (Z.of_nat 1) with 1. by rewrite E1.
Qed.

Lemma space_translates va :
  0 <= va < 32 * GIGA ->
  exists pte, sv39 (load64 m') (root L) va = Some (pa_of L va, pte).
Proof.
  intros Hva. unfold sv39.
  assert (vpn va 2 = va / GIGA) as E2 by (apply (vpn_div va 2); consts; lia).
  destruct (Z.lt_ge_cases va GIGA) as [Hlt|Hge].
  - rewrite (walk_table 2 _ (root L) va (l1 L)).
    + apply translates_mega. lia.
    + destruct G. consts. lia.
    + pose proof (root_range h L G). destruct G. consts. dlia.
    + change (Z.of_nat 2) with 2. rewrite E2, Z.div_small, Z.mul_0_r, Z.add_0_r by lia.
      apply A.
  - assert (pa_of L va = va / GIGA * GIGA + va mod GIGA) as ->.
    { unfold pa_of. destruct G. consts. split_cmp; dlia. }
    apply (leaf_translates 2); [consts; dlia|by apply Z.mod_mul|].
    change (Z.of_nat 2) with 2. rewrite E2. apply A. consts. dlia.
Qed.
End translation.

Lemma bm_pa_pa_of ds e h p va :
  good_layout h (layout_of ds e h) ->
  bm_proc_lo p = lo (layout_of ds e h) -> bm_proc_hi p = hi (layout_of ds e h) ->
  bm_proc_off p = s64 (priv (layout_of ds e h) - lo (layout_of ds e h)) ->
  0 <= va < 32 * GIGA -> bm_pa p va = pa_of (layout_of ds e h) va.
Proof.
  intros G E1 E2 E3 Hva. unfold bm_pa, pa_of. rewrite E1, E2, E3.
  pose proof (priv_range h _ G) as (P1 & P2 & P3). destruct G. consts.
  rewrite (wrapS_small 64 (priv _ - lo _)) by lia.
  destruct (_ && _) eqn:E; [|apply wrapS_small; lia].
  apply andb_true_iff in E as [?%Z.leb_le ?%Z.ltb_lt].
  rewrite wrapS_small by lia. lia.
Qed.

(** ** Properties *)

(** C19: when the image and its private copy fit the layout, [enter_process] succeeds, and the
    Sv39 tables it built translate every address of the low 32 GiB: writable data of the
    image to the hart's private copy, everything else to itself; [satp] selects Sv39 with
    that table, and [bm_pa] computes the same translation for pointers sent to the host. *)
Theorem enter_process_translation ds e h m :
  fits ds e h -> tables_fit ds e h -> wf_mem m ->
  exists p, enter_process ds e h m = Ok p /\
    p_satp p = 8 * 2 ^ 60 + root (layout_of ds e h) / 4096 /\
    forall va, 0 <= va < 32 * GIGA ->
      (exists pte, sv39 (load64 (p_mem p)) (root (layout_of ds e h)) va
                   = Some (bm_pa p va, pte)) /\
      (ds <= va < e -> priv (layout_of ds e h) <= bm_pa p va) /\
      (~ (lo (layout_of ds e h) <= va < hi (layout_of ds e h)) -> bm_pa p va = va).
Proof.
  intros Hfit Hroom Hm. pose proof (fits_good ds e h Hfit) as G.
  destruct (enter_process_space ds e h m Hfit Hroom Hm) as (p & E & A & Es & E1 & E2 & E3).
  exists p. split; [done|]. pose proof (root_range h _ G) as (R1 & R2 & R3). split.
  - rewrite Es, Z.shiftr_div_pow2, Z.shiftl_mul_pow2, wrapU_small by lia.
    apply lor_disjoint_add; [lia|]. consts. dlia.
  - intros va Hva. rewrite (bm_pa_pa_of ds e h p va G E1 E2 E3 Hva).
    split; [by apply (space_translates h _ m)|]. unfold pa_of. split.
    + intros Hin. assert (lo (layout_of ds e h) <= ds /\ e <= hi (layout_of ds e h)) as [H1 H2].
      { destruct Hfit as [Hi _ _]. unfold layout_of. cbn [lo hi]. consts.
        rewrite wrapU_small by lia. rewrite !(round_down_spec _ 12) by lia. dlia. }
      split_cmp; lia.
    + intros Hout. split_cmp; lia.
Qed.

Lemma enter_process_translation_witness :
  exists p, enter_process 0x20010000 0x20345678 5 (fun _ => 0) = Ok p /\
    p_satp p = 8 * 2 ^ 60 + root (layout_of 0x20010000 0x20345678 5) / 4096 /\
    forall va, 0 <= va < 32 * GIGA ->
      (exists pte, sv39 (load64 (p_mem p)) (root (layout_of 0x20010000 0x20345678 5)) va
                   = Some (bm_pa p va, pte)) /\
      (0x20010000 <= va < 0x20345678 -> priv (layout_of 0x20010000 0x20345678 5) <= bm_pa p va) /\
      (~ (lo (layout_of 0x20010000 0x20345678 5) <= va < hi (layout_of 0x20010000 0x20345678 5)) ->
       bm_pa p va = va).
Proof.
  apply enter_process_translation.
  - constructor; vm_compute; repeat split; congruence.
  - vm_compute. congruence.
  - intros a. lia.
Defined.

(** after [enter_process] the hart still reads the data the loader left: every word of
    the image's writable range, read through the new translation, has its original value;
    no other memory changed except this hart's own copy and page-table area. *)
Theorem enter_process_preserves_data ds e h m :
  fits ds e h -> tables_fit ds e h -> wf_mem m ->
  exists p, enter_process ds e h m = Ok p /\
    (forall va, va mod 8 = 0 -> 0 <= va < 32 * GIGA ->
       lo (layout_of ds e h) <= va < hi (layout_of ds e h) ->
       load64 (p_mem p) (bm_pa p va) = load64 m va) /\
    (forall b, b mod 8 = 0 ->
       ~ (priv (layout_of ds e h) <= b < priv (layout_of ds e h) + stride (layout_of ds e h)) ->
       ~ (root (layout_of ds e h) <= b < root (layout_of ds e h) + PT_SIZE) ->
       load64 (p_mem p) b = load64 m b).
Proof.
  intros Hfit Hroom Hm. pose proof (fits_good ds e h Hfit) as G.
  destruct (enter_process_space ds e h m Hfit Hroom Hm) as (p & E & A & Es & E1 & E2 & E3).
  exists p. split; [done|]. set (L := layout_of ds e h) in *.
  pose proof (root_range h L G) as (R1 & R2 & R3).
  pose proof (priv_range h L G) as (P1 & P2 & P3). split.
  - intros va Ha Hva Hin. rewrite (bm_pa_pa_of ds e h p va G E1 E2 E3 Hva). fold L.
    unfold pa_of. destruct G. rewrite (proj2 (Z.leb_le _ _)), (proj2 (Z.ltb_lt _ _)) by lia.
    cbn [andb]. rewrite (as_frame _ _ _ _ A) by (consts; lia || dlia).
    range_cases; [f_equal; lia|lia].
  - intros b Hb Hp Ht. rewrite (as_frame _ _ _ _ A) by done. destruct G.
    range_cases; [lia|done].
Qed.

Lemma enter_process_preserves_data_witness :
  exists p, enter_process 0x20010008 0x20012000 63 (fun a => a mod 256) = Ok p /\
    (forall va, va mod 8 = 0 -> 0 <= va < 32 * GIGA ->
       lo (layout_of 0x20010008 0x20012000 63) <= va < hi (layout_of 0x20010008 0x20012000 63) ->
       load64 (p_mem p) (bm_pa p va) = load64 (fun a => a mod 256) va) /\
    (forall b, b mod 8 = 0 ->
       ~ (priv (layout_of 0x20010008 0x20012000 63) <= b
          < priv (layout_of 0x20010008 0x20012000 63) + stride (layout_of 0x20010008 0x20012000 63)) ->
       ~ (root (layout_of 0x20010008 0x20012000 63) <= b
          < root (layout_of 0x20010008 0x20012000 63) + PT_SIZE) ->
       load64 (p_mem p) b = load64 (fun a => a mod 256) b).
Proof.
  apply enter_process_preserves_data.
  - constructor; vm_compute; repeat split; congruence.
  - vm_compute. congruence.
  - intros a. apply Z.mod_pos_bound. lia.
Defined.

(** The private copies and page-table areas of two harts never overlap, so what one
    hart writes to the image's data is never seen by the other. *)
Theorem private_copies_disjoint ds e h1 h2 :
  fits ds e h1 -> fits ds e h2 -> h1 <> h2 ->
  forall va1 va2,
    lo (layout_of ds e h1) <= va1 < hi (layout_of ds e h1) ->
    lo (layout_of ds e h2) <= va2 < hi (layout_of ds e h2) ->
    pa_of (layout_of ds e h1) va1 <> pa_of (layout_of ds e h2) va2 /\
    ~ (root (layout_of ds e h2) <= pa_of (layout_of ds e h1) va1
       < root (layout_of ds e h2) + PT_SIZE) /\
    (root (layout_of ds e h1) + PT_SIZE <= root (layout_of ds e h2) \/
     root (layout_of ds e h2) + PT_SIZE <= root (layout_of ds e h1)).
Proof.
  intros F1 F2 Hne va1 va2. pose proof (fits_good _ _ _ F1) as G1.
  pose proof (fits_good _ _ _ F2) as G2.
  assert (stride (layout_of ds e h1) = stride (layout_of ds e h2)) as Es by done.
  assert (lo (layout_of ds e h1) = lo (layout_of ds e h2)) as El by done.
  assert (hi (layout_of ds e h1) = hi (layout_of ds e h2)) as Eh by done.
  pose proof (root_range _ _ G2) as (_ & R2 & R3). intros H1 H2.
  unfold pa_of. rewrite !(proj2 (Z.leb_le _ _)), !(proj2 (Z.ltb_lt _ _)) by lia. cbn [andb].
  destruct G1, G2. rewrite Es, El, Eh in *. rewrite g_priv0, g_priv1, g_root0, g_root1 in *.
  set (S := stride (layout_of ds e h2)) in *. consts.
  assert (h1 * S + S <= h2 * S \/ h2 * S + S <= h1 * S) by (destruct (Z.lt_gt_cases h1 h2); nia).
  assert (0 <= h1 * S) by nia. split_and!; lia.
Qed.

Lemma private_copies_disjoint_witness :
  pa_of (layout_of 0x20010000 0x20345678 0) 0x20010000 <>
    pa_of (layout_of 0x20010000 0x20345678 63) 0x20010008 /\
  ~ (root (layout_of 0x20010000 0x20345678 63) <= pa_of (layout_of 0x20010000 0x20345678 0) 0x20010000
       < root (layout_of 0x20010000 0x20345678 63) + PT_SIZE) /\
  (root (layout_of 0x20010000 0x20345678 0) + PT_SIZE <= root (layout_of 0x20010000 0x20345678 63) \/
   root (layout_of 0x20010000 0x20345678 63) + PT_SIZE <= root (layout_of 0x20010000 0x20345678 0)).
Proof.
  apply private_copies_disjoint; try lia;
    try (constructor; vm_compute; repeat split; congruence);
    vm_compute; repeat split; congruence.
Defined.
