(* ===== verification/Vm.v ===== *)
(** * The virtual-memory test environment

    riscv-tests/env/v/vm.c and riscv_test.h: each of up to eight contexts ("rows") runs a
    user program on demand-paged memory.  [vm_boot] builds the tables and the free list of
    page frames, [handle_fault] maps a page on its first use and maintains the accessed and
    dirty bits, [evict] checks and releases a page at exit, [terminate] collects the exit
    codes.

    The kernel's own variables (tables, free list, [user_mapping]) are objects of their own,
    apart from [ram], which holds the user frames and the backing pages.  The tables live at
    the physical address [pt_addr ctxt], a link-time parameter.  A pointer into the free
    list is a [loc]; nodes are shared by reference, as in the source. *)
From S2P Require Import Prelude Memory CString Sv39.
Local Open Scope Z_scope.
Local Open Scope word_scope.

(** ** Constants and state *)

Definition MAX_NUM_ROWS : Z := 8.
Definition MAX_NUM_CODE_PAGES : Z := 16.
Definition MAX_TEST_PAGES : Z := 63.
Definition PGSIZE : Z := Z.shiftl 1 RISCV_PGSHIFT.
Definition PTES_PER_PT : Z := Z.shiftl 1 9.
Definition MEGAPAGE_SIZE : Z := PTES_PER_PT * PGSIZE.
Definition DRAM_BASE : Z := 0x20000000.

(** A pointer to [freelist_nodes[ctxt][i]] or to [user_mapping[ctxt][i]]. *)
Inductive loc := FNode (i : Z) | UMap (i : Z).

#[export] Instance loc_eq_dec : EqDecision loc.
Proof. solve_decision. Defined.

Record freelist_t := mkNode { addr : Z; next : option loc }.

(** The variables of one context. *)
Record row := mkRow {
  pt : Z -> Z -> Z;
  user_mapping : Z -> freelist_t;
  freelist_nodes : Z -> freelist_t;
  freelist_head : option loc;
  freelist_tail : option loc }.

Record vm := mkVm { v_row : row; v_ram : mem }.

(** How control leaves the handlers: [terminate(code)], or a failed assertion, which prints
    its text and calls [terminate(3)]; a memory access of the kernel that the tables do
    not map. *)
Inductive assertion :=
| AddrRange | Accessed | Dirty | NotDirty | StoreFault | FreeNode | Unmapped
| EpcAligned | IllegalInstruction | UnexpectedException.

Inductive exit := Terminate (code : Z) | Assertion (a : assertion) | KernelFault.

Definition assert (b : bool) (a : assertion) : res exit () :=
  if b then Ok () else Err (Assertion a).

Definition set_pt (r : row) (t i v : Z) : row :=
  mkRow (upd (pt r) t (upd (pt r t) i v)) (user_mapping r) (freelist_nodes r)
    (freelist_head r) (freelist_tail r).

Definition set_mapping (r : row) (i : Z) (n : freelist_t) : row :=
  mkRow (pt r) (upd (user_mapping r) i n) (freelist_nodes r)
    (freelist_head r) (freelist_tail r).

Definition set_list (r : row) (h t : option loc) : row :=
  mkRow (pt r) (user_mapping r) (freelist_nodes r) h t.

Definition deref (r : row) (l : loc) : freelist_t :=
  match l with FNode i => freelist_nodes r i | UMap i => user_mapping r i end.

Definition set_next (r : row) (l : loc) (n : option loc) : row :=
  match l with
  | FNode i => mkRow (pt r) (user_mapping r)
      (upd (freelist_nodes r) i (mkNode (addr (freelist_nodes r i)) n))
      (freelist_head r) (freelist_tail r)
  | UMap i => mkRow (pt r)
      (upd (user_mapping r) i (mkNode (addr (user_mapping r i)) n))
      (freelist_nodes r) (freelist_head r) (freelist_tail r)
  end.

(** [user_l3pt[i]] is [pt[3][i]]. *)
Definition user_l3pt (r : row) (i : Z) : Z := pt r 3 i.

Definition uva2kva (pa : Z) : Z := pa ⊟ MEGAPAGE_SIZE.

(** [(pa >> PGSHIFT << PTE_PPN_SHIFT) | flags] *)
Definition URWX : Z := Z.lor (Z.lor (Z.lor (Z.lor PTE_V PTE_U) PTE_R) PTE_W) PTE_X.
Definition KRWX : Z :=
  Z.lor (Z.lor (Z.lor (Z.lor (Z.lor PTE_V PTE_R) PTE_W) PTE_X) PTE_A) PTE_D.

(** The kinds of access of the user program. *)
Inductive access := Fetch | Load | Store.

#[export] Instance access_eq_dec : EqDecision access.
Proof. solve_decision. Defined.

Section context.
Context (pt_addr : Z).

(** The table words as the page-table walker reads them. *)
Definition pt_word (r : row) (pa : Z) : Z :=
  pt r ((pa - pt_addr) / PGSIZE) ((pa - pt_addr) mod PGSIZE / 8).

Definition translate (r : row) (va : Z) : option (Z * Z) := sv39 (pt_word r) pt_addr va.

(** A kernel access to a mapped address. *)
Definition kernel_pa (r : row) (va : Z) : res exit Z :=
  match translate r va with Some (pa, _) => Ok pa | None => Err KernelFault end.

(** [memcpy]/[memcmp] of one page by virtual addresses. *)
Definition page_memcpy (r : row) (m : mem) (dst src : Z) : res exit mem :=
  d ← kernel_pa r dst; s ← kernel_pa r src;
  match memcpy m d s PGSIZE with Some (m', _) => Ok m' | None => NoFuel end.

Definition page_memcmp (r : row) (m : mem) (p1 p2 : Z) : res exit Z :=
  a ← kernel_pa r p1; b ← kernel_pa r p2;
  match memcmp m a b PGSIZE with Some c => Ok c | None => NoFuel end.

Definition evict (a : Z) (s : vm) : res exit vm :=
  _ ← assert ((PGSIZE * MAX_NUM_CODE_PAGES <=? a) && (a <? MAX_TEST_PAGES * PGSIZE)) AddrRange;
  let p := a / PGSIZE in
  let a := p * PGSIZE in
  let r := v_row s in
  let m := v_ram s in
  if addr (user_mapping r p) =? 0 then Ok s
  else
    _ ← assert (has (user_l3pt r p) PTE_A) Accessed;
    c ← page_memcmp r m a (uva2kva a);
    m ← (if negb (c =? 0) then
           _ ← assert (has (user_l3pt r p) PTE_D) Dirty;
           page_memcpy r m a (uva2kva a)
         else Ok m);
    let r := set_mapping r p (mkNode 0 (next (user_mapping r p))) in
    mret (mkVm
      match freelist_tail r with
      | None => set_list r (Some (UMap p)) (Some (UMap p))
      | Some t => let r := set_next r t (Some (UMap p)) in
                  set_list r (freelist_head r) (Some (UMap p))
      end m).

Definition handle_fault (a cause : Z) (s : vm) : res exit vm :=
  _ ← assert ((PGSIZE <=? a) && (a <? MAX_TEST_PAGES * PGSIZE)) AddrRange;
  let p := a / PGSIZE in
  let a := p * PGSIZE in
  let r := v_row s in
  if negb (user_l3pt r p =? 0) then
    if negb (has (user_l3pt r p) PTE_A) then
      Ok (mkVm (set_pt r 3 p (Z.lor (user_l3pt r p) PTE_A)) (v_ram s))
    else
      _ ← assert (negb (has (user_l3pt r p) PTE_D)) NotDirty;
      _ ← assert (cause =? CAUSE_STORE_PAGE_FAULT) StoreFault;
      mret (mkVm (set_pt r 3 p (Z.lor (user_l3pt r p) PTE_D)) (v_ram s))
  else
    match freelist_head r with
    | None => Err (Assertion FreeNode)
    | Some node =>
        let head := next (deref r node) in
        let tail := if decide (head = freelist_tail r) then None else freelist_tail r in
        let r := set_list r head tail in
        let new_pte := mk_pte (addr (deref r node)) URWX in
        let r := set_pt r 3 p (Z.lor (Z.lor new_pte PTE_A) PTE_D) in
        _ ← assert (addr (user_mapping r p) =? 0) Unmapped;
        let r := set_mapping r p (deref r node) in
        m ← page_memcpy r (v_ram s) a (uva2kva a);
        mret (mkVm (set_pt r 3 p new_pte) m)
    end.

(** [for (i = MAX_NUM_CODE_PAGES; i < MAX_TEST_PAGES; i++) evict(i*PGSIZE)] *)
Fixpoint evict_all (l : list Z) (s : vm) : res exit vm :=
  match l with
  | [] => Ok s
  | i :: l => s ← evict (i * PGSIZE) s; evict_all l s
  end.

Record trapframe_t := mkTf { gpr : Z -> Z; epc : Z; badvaddr : Z; cause : Z }.

(** [fssr] is the encoding of the probe instruction, [insn] the word at [epc]. *)
Definition handle_trap (fssr insn : Z) (tf : trapframe_t) (s : vm) : res exit (trapframe_t * vm) :=
  if cause tf =? CAUSE_USER_ECALL then
    _ ← evict_all (seqZ MAX_NUM_CODE_PAGES (MAX_TEST_PAGES - MAX_NUM_CODE_PAGES)) s;
    Err (Terminate (s32 (gpr tf 10)))
  else if cause tf =? CAUSE_ILLEGAL_INSTRUCTION then
    _ ← assert (epc tf mod 4 =? 0) EpcAligned;
    if insn =? fssr then Err (Terminate 1) else Err (Assertion IllegalInstruction)
  else if (cause tf =? CAUSE_FETCH_PAGE_FAULT) || (cause tf =? CAUSE_LOAD_PAGE_FAULT)
          || (cause tf =? CAUSE_STORE_PAGE_FAULT) then
    s ← handle_fault (badvaddr tf) (cause tf) s; mret (tf, s)
  else Err (Assertion UnexpectedException).

(** The tables and the free list [vm_boot] builds for context [ctxt]. *)
Definition boot_tables (r : row) : row :=
  let r := set_pt r 0 0 (mk_pte (pt_addr + PGSIZE) PTE_V) in
  let r := set_pt r 0 (PTES_PER_PT - 1) (mk_pte (pt_addr + 2 * PGSIZE) PTE_V) in
  let r := set_pt r 2 (PTES_PER_PT - 1) (Z.lor (Z.shiftl (DRAM_BASE / RISCV_PGSIZE) 10) KRWX) in
  set_pt r 1 0 (mk_pte (pt_addr + 3 * PGSIZE) PTE_V).

Definition boot_node (ctxt i : Z) : freelist_t :=
  mkNode (DRAM_BASE + (MAX_TEST_PAGES + (i + MAX_TEST_PAGES * ctxt)) * PGSIZE)
    (Some (FNode (i + 1))).

Definition boot_freelist (ctxt : Z) (r : row) : row :=
  let nodes := fold_left (fun f i => upd f i (boot_node ctxt i)) (seqZ 0 MAX_TEST_PAGES)
                 (freelist_nodes r) in
  let last := MAX_TEST_PAGES - 1 in
  let nodes := upd nodes last (mkNode (addr (nodes last)) None) in
  mkRow (pt r) (user_mapping r) nodes (Some (FNode 0)) (Some (FNode last)).

(** Static storage is zero when the program starts. *)
Definition row0 : row :=
  mkRow (fun _ _ => 0) (fun _ => mkNode 0 None) (fun _ => mkNode 0 None) None None.

(** The value written to [satp]. *)
Definition boot_satp : Z :=
  Z.lor (Z.shiftr pt_addr RISCV_PGSHIFT)
    (SATP_MODE_SV39 * Z.land 0xF000000000000000 (u64 (Z.lnot (u64 (Z.shiftl 0xF000000000000000 1))))).

Definition vm_boot (ctxt : Z) : row := boot_freelist ctxt (boot_tables row0).

(** ** The user program's accesses *)

(** What the hardware requires of a leaf for a user access. *)
Definition permits (k : access) (pte : Z) : bool :=
  has pte PTE_U && has pte PTE_A &&
  match k with Fetch => has pte PTE_X | Load => has pte PTE_R
             | Store => has pte PTE_W && has pte PTE_D end.

Definition fault_cause (k : access) : Z :=
  match k with Fetch => CAUSE_FETCH_PAGE_FAULT | Load => CAUSE_LOAD_PAGE_FAULT
             | Store => CAUSE_STORE_PAGE_FAULT end.

(** One user instruction: it faults into [handle_trap] and is retried until the access is
    permitted; the result is the physical address. *)
Fixpoint user_access (fuel : nat) (k : access) (va : Z) (s : vm) : res exit (Z * vm) :=
  match fuel with
  | O => NoFuel
  | S fuel =>
      let fault := '(_, s) ← handle_trap 0 0 (mkTf (fun _ => 0) 0 va (fault_cause k)) s;
                   user_access fuel k va s in
      match translate (v_row s) va with
      | Some (pa, pte) => if permits k pte then Ok (pa, s) else fault
      | None => fault
      end
  end.

Inductive user_op := ULoad (k : access) (va : Z) | UStore (va v : Z).

(** An operation of the user program: the byte it reads (or stores) and the new state. *)
Definition user_step (o : user_op) (s : vm) : res exit (Z * vm) :=
  match o with
  | ULoad k va => '(pa, s) ← user_access 4 k va s; mret (v_ram s pa, s)
  | UStore va v =>
      '(pa, s) ← user_access 4 Store va s;
      mret (u8 v, mkVm (v_row s) (store8 (v_ram s) pa v))
  end.

Fixpoint user_run (os : list user_op) (s : vm) : res exit (list Z * vm) :=
  match os with
  | [] => Ok ([], s)
  | o :: os => '(v, s) ← user_step o s; '(vs, s) ← user_run os s; mret (v :: vs, s)
  end.
End context.

(** ** The host port, and exit *)

(** [do_tohost]: the port holds the value until the host takes it; the values the host
    receives, in order. *)
Definition cputchar (x : Z) : Z := Z.lor 0x0101000000000000 (u8 x).
Definition cputstring (s : list Z) : list Z := map cputchar s.

Definition lfsr63 (x : Z) : Z :=
  let bit := Z.land (Z.lxor x (Z.shiftr x 1)) 1 in
  Z.lor (Z.shiftr x 1) (u64 (Z.shiftl bit 62)).

(** One iteration of [coherence_torture]: the address it touches and the next [random],
    an [unsigned int]. *)
Definition torture_addr (random : Z) : Z :=
  DRAM_BASE + Z.land (random mod (2 * (MAX_TEST_PAGES + 1) * PGSIZE)) (u64 (-4)).
Definition torture_next (random : Z) : Z := u32 (lfsr63 random).

(** [row_status], one word per context: 1 while running, then [code << 1]. *)
Definition terminate_status (code : Z) : Z := s32 (Z.shiftl code 1).

Definition poll (row_status : Z -> Z) : Z :=
  fold_left (fun stat i => Z.lor stat (row_status i)) (seqZ 0 MAX_NUM_ROWS) 0.

(** The loop of context 0 after it stored its own status: it leaves when no row is running,
    and sends [stat >> 1] to the host. [statuses] are the successive states of the array. *)
Fixpoint terminate_wait (statuses : list (Z -> Z)) : option Z :=
  match statuses with
  | [] => None
  | st :: rest =>
      let stat := poll st in
      if Z.land stat 1 =? 0 then Some (Z.shiftr stat 1) else terminate_wait rest
  end.

(** ** Translation through the boot tables *)

Ltac vconsts :=
  change MAX_NUM_ROWS with 8 in *; change MAX_NUM_CODE_PAGES with 16 in *;
  change MAX_TEST_PAGES with 63 in *; change PGSIZE with 4096 in *;
  change PTES_PER_PT with 512 in *; change MEGAPAGE_SIZE with 2097152 in *;
  change DRAM_BASE with 536870912 in *.

(** The flags of a user page: accessed and dirty are what the handlers maintain. *)
Definition pflags (a d : bool) : Z :=
  Z.lor (Z.lor URWX (if a then PTE_A else 0)) (if d then PTE_D else 0).

Lemma pflags_range a d : 0 <= pflags a d < 2 ^ 10.
Proof. by destruct a, d; vm_compute. Qed.

Lemma lor_mk_pte pa f g : Z.lor (mk_pte pa f) g = mk_pte pa (Z.lor f g).
Proof. unfold mk_pte. by rewrite Z.lor_assoc. Qed.

Section row_proofs.
Context (pt_addr ctxt : Z).
Hypothesis Hpt : 0 <= pt_addr < 2 ^ 55 /\ pt_addr mod 4096 = 0.
Hypothesis Hctxt : 0 <= ctxt < MAX_NUM_ROWS.

Record tables_ok (r : row) : Prop := mkTables {
  t_user2 : pt r 0 0 = mk_pte (pt_addr + 4096) PTE_V;
  t_kernel2 : pt r 0 511 = mk_pte (pt_addr + 8192) PTE_V;
  t_kernel : pt r 2 511 = mk_pte DRAM_BASE KRWX;
  t_user3 : pt r 1 0 = mk_pte (pt_addr + 12288) PTE_V }.

Lemma pt_word_at r t i :
  0 <= i < 512 -> pt_word pt_addr r (pt_addr + 4096 * t + 8 * i) = pt r t i.
Proof. intros. unfold pt_word. vconsts. f_equal; dlia. Qed.

Lemma vpn_small va l : 0 <= l -> 0 <= va < 2 ^ (12 + 9 * l) -> vpn va l = 0.
Proof.
  intros. unfold vpn. rewrite Z.shiftr_div_pow2, Z.div_small by lia. done.
Qed.

Lemma walk_user r va :
  tables_ok r -> 0 <= va < MEGAPAGE_SIZE ->
  translate pt_addr r va = sv39_walk 1 (pt_word pt_addr r) (pt_addr + 4096 * 3) va.
Proof.
  intros T Hva. unfold translate, sv39. vconsts.
  rewrite (walk_table 2 _ _ va (pt_addr + 4096)); [|lia|dlia|].
  - rewrite (walk_table 1 _ _ va (pt_addr + 12288)); [done|lia|dlia|].
    rewrite (vpn_small va) by (simpl; lia).
    rewrite <-(t_user3 r T). rewrite <-(pt_word_at r 1 0) by lia. f_equal.
  - rewrite (vpn_small va) by (simpl; lia).
    rewrite <-(t_user2 r T), <-(pt_word_at r 0 0) by lia. f_equal. lia.
Qed.

Lemma l3_word r va :
  0 <= va < MEGAPAGE_SIZE ->
  pt_word pt_addr r (pt_addr + 4096 * 3 + 8 * vpn va (Z.of_nat 0)) = user_l3pt r (va / PGSIZE).
Proof.
  intros. vconsts. unfold vpn. rewrite Z.shiftr_div_pow2 by lia.
  change (2 ^ (12 + 9 * Z.of_nat 0)) with 4096.
  rewrite (Z.mod_small (va / 4096)) by dlia. by rewrite pt_word_at by dlia.
Qed.

Lemma translate_user r va pa a d :
  tables_ok r -> 0 <= va < MEGAPAGE_SIZE -> 0 <= pa < 2 ^ 56 -> pa mod 4096 = 0 ->
  user_l3pt r (va / PGSIZE) = mk_pte pa (pflags a d) ->
  translate pt_addr r va = Some (pa + va mod 4096, mk_pte pa (pflags a d)).
Proof.
  intros T Hva Hpa Hal E. rewrite walk_user by done.
  rewrite (walk_leaf 0 _ _ va pa (pflags a d)); try done.
  - apply pflags_range.
  - by destruct a, d.
  - by destruct a, d.
  - by rewrite l3_word.
Qed.

Lemma translate_unmapped r va :
  tables_ok r -> 0 <= va < MEGAPAGE_SIZE -> user_l3pt r (va / PGSIZE) = 0 ->
  translate pt_addr r va = None.
Proof.
  intros T Hva E. rewrite walk_user by done. cbn [sv39_walk]. rewrite l3_word, E by done. done.
Qed.

Lemma translate_kernel r va :
  tables_ok r -> 0 <= va < MEGAPAGE_SIZE ->
  kernel_pa pt_addr r (uva2kva va) = Ok (DRAM_BASE + va).
Proof.
  intros T Hva. unfold kernel_pa, translate, sv39, uva2kva. vconsts.
  set (k := va ⊟ 2097152).
  assert (k = 2 ^ 64 - 2097152 + va) as Ek.
  { unfold k, wrapU. rewrite <-(Z.mod_add _ 1), Z.mod_small by lia. lia. }
  assert (vpn k 2 = 511 /\ vpn k 1 = 511 /\ k mod 2 ^ 21 = va) as (E2 & E1 & E0).
  { rewrite Ek. unfold vpn. rewrite !Z.shiftr_div_pow2 by lia. simpl. split_and!; dlia. }
  rewrite (walk_table 2 _ _ _ (pt_addr + 8192)); [|lia|dlia|].
  - rewrite (walk_leaf 1 _ _ _ DRAM_BASE KRWX);
      [|unfold DRAM_BASE; lia|by vm_compute|reflexivity..|].
    + change (2 ^ (12 + 9 * Z.of_nat 1)) with (2 ^ 21). by rewrite E0.
    + change (Z.of_nat 1) with 1. rewrite E1, <-(t_kernel r T).
      rewrite <-(pt_word_at r 2 511) by lia. f_equal.
  - change (Z.of_nat 2) with 2. rewrite E2, <-(t_kernel2 r T).
    rewrite <-(pt_word_at r 0 511) by lia. f_equal. lia.
Qed.

(** ** The invariant of a running context *)

(** The [i]th page frame of this context. *)
Definition frame (i : Z) : Z := DRAM_BASE + (MAX_TEST_PAGES + (i + MAX_TEST_PAGES * ctxt)) * PGSIZE.

Lemma frame_range i :
  0 <= i < 63 ->
  DRAM_BASE + 63 * 4096 <= frame i /\ frame i + 4096 <= DRAM_BASE + 567 * 4096 /\
  frame i mod 4096 = 0 /\ 0 < frame i < 2 ^ 50.
Proof. intros. unfold frame. vconsts. split_and!; lia || dlia. Qed.

(** The frames of this context. *)
Definition own (x : Z) : Prop := frame 0 <= x < frame 63.

Lemma own_frame i o : 0 <= i < 63 -> 0 <= o < 4096 -> own (frame i + o).
Proof. unfold own, frame. vconsts. lia. Qed.

Lemma own_high x : own x -> DRAM_BASE + 63 * 4096 <= x.
Proof. unfold own, frame. vconsts. lia. Qed.

Lemma user_page_range va : PGSIZE <= va < MAX_TEST_PAGES * PGSIZE ->
  1 <= va / PGSIZE < 63 /\ va = va / PGSIZE * 4096 + va mod 4096 /\ 0 <= va mod 4096 < 4096 /\
  0 <= va < MEGAPAGE_SIZE.
Proof. vconsts. intros. split_and!; dlia. Qed.

Section memory.
(** [bk]: the memory outside the context's frames, with the backing pages; [u]: the memory
    the user program should see. *)
Context (bk : mem).

(** What is known of a page: not mapped yet, or its frame and its A and D bits. *)
Abbreviation status := (option (Z * bool * bool)).

(** The page's contents are those of its backing page. *)
Definition backed (u : mem) (p : Z) : Prop :=
  forall o, 0 <= o < 4096 -> u (p * 4096 + o) = bk (DRAM_BASE + p * 4096 + o).

Definition page_ok (r : row) (m u : mem) (p : Z) (st : status) : Prop :=
  match st with
  | None => user_l3pt r p = 0 /\ addr (user_mapping r p) = 0 /\ backed u p
  | Some (i, a, d) =>
      user_l3pt r p = mk_pte (frame i) (pflags a d) /\ addr (user_mapping r p) = frame i /\
      (forall o, 0 <= o < 4096 -> m (frame i + o) = u (p * 4096 + o)) /\
      (d = false -> backed u p)
  end.

(** [mp]: the mapped pages in the order they were mapped, so that the [i]th has frame [i]. *)
Record inv (u : mem) (pg : Z -> status) (mp : list Z) (s : vm) : Prop := mkInv {
  i_tables : tables_ok (v_row s);
  i_wf : wf_mem (v_ram s);
  i_back : forall x, ~ own x -> v_ram s x = bk x;
  i_nodup : NoDup mp;
  i_pages : Forall (fun p => 1 <= p < 63) mp;
  i_slot : forall p i a d, pg p = Some (i, a, d) -> 0 <= i /\ mp !! Z.to_nat i = Some p;
  i_unmapped : forall p, pg p = None -> p ∉ mp;
  i_head : freelist_head (v_row s) = Some (FNode (Z.of_nat (length mp)));
  i_nodes : forall i, Z.of_nat (length mp) <= i < 63 ->
    freelist_nodes (v_row s) i =
      mkNode (frame i) (if i =? 62 then None else Some (FNode (i + 1)));
  i_ok : forall p, 1 <= p < 63 -> page_ok (v_row s) (v_ram s) u p (pg p) }.

Lemma pages_bound (mp : list Z) :
  NoDup mp -> Forall (fun p => 1 <= p < 63) mp -> (length mp <= 62)%nat.
Proof.
  intros Hn Hf. change 62%nat with (length (seqZ 1 62)).
  apply submseteq_length, NoDup_submseteq; [done|]. intros p Hp.
  apply elem_of_seqZ. rewrite Forall_forall in Hf. specialize (Hf p Hp). lia.
Qed.

Lemma slot_range u pg mp s p i a d :
  inv u pg mp s -> pg p = Some (i, a, d) -> 0 <= i < 62 /\ i < Z.of_nat (length mp).
Proof.
  intros I E. destruct (i_slot _ _ _ _ I _ _ _ _ E) as [Hi Hl].
  pose proof (pages_bound mp (i_nodup _ _ _ _ I) (i_pages _ _ _ _ I)).
  apply lookup_lt_Some in Hl. lia.
Qed.

Lemma slot_inj u pg mp s p q i a d a' d' :
  inv u pg mp s -> pg p = Some (i, a, d) -> pg q = Some (i, a', d') -> p = q.
Proof.
  intros I E E'. destruct (i_slot _ _ _ _ I _ _ _ _ E) as [? H].
  destruct (i_slot _ _ _ _ I _ _ _ _ E') as [? H']. congruence.
Qed.

(** Two frames with different numbers are disjoint. *)
Lemma frames_disjoint i j o : 0 <= o < 4096 -> frame j <= frame i + o < frame j + 4096 -> i = j.
Proof. unfold frame. vconsts. lia. Qed.

(** Only the entry of page [p] changes. *)
Lemma tables_set_l3 r p v : tables_ok r -> tables_ok (set_pt r 3 p v).
Proof. intros []. by constructor. Qed.

Lemma l3_set_eq r p v : user_l3pt (set_pt r 3 p v) p = v.
Proof. unfold user_l3pt. simpl. by rewrite !upd_eq. Qed.

Lemma l3_set_ne r p q v : q <> p -> user_l3pt (set_pt r 3 p v) q = user_l3pt r q.
Proof. intros. unfold user_l3pt. simpl. by rewrite upd_eq, upd_ne. Qed.

#[local] Arguments user_l3pt : simpl never.

Lemma inv_set_flags u pg mp s p i a d a' d' :
  inv u pg mp s -> 1 <= p < 63 -> pg p = Some (i, a, d) -> (d' = false -> d = false) ->
  inv u (upd pg p (Some (i, a', d'))) mp
    (mkVm (set_pt (v_row s) 3 p (mk_pte (frame i) (pflags a' d'))) (v_ram s)).
Proof.
  intros I Hp E Hd. destruct s as [r m], I; simpl in *. constructor; simpl; try done.
  - by apply tables_set_l3.
  - intros q j b e. unfold upd. destruct (Z.eqb_spec q p) as [->|]; [|apply i_slot0].
    intros [= <- <- <-]. eauto.
  - intros q. unfold upd. destruct (Z.eqb_spec q p) as [->|]; [done|apply i_unmapped0].
  - intros q Hq. specialize (i_ok0 q Hq). unfold upd.
    destruct (Z.eqb_spec q p) as [->|Hne].
    + rewrite E in i_ok0. destruct i_ok0 as (_ & ? & ? & ?). simpl. rewrite l3_set_eq. split_and!; auto.
    + unfold page_ok in *. by rewrite l3_set_ne.
Qed.

(** A mapped page whose accessed bit is clear: the fault sets it. *)
Lemma fault_accessed u pg mp s va cause i d :
  inv u pg mp s -> PGSIZE <= va < MAX_TEST_PAGES * PGSIZE ->
  pg (va / PGSIZE) = Some (i, false, d) ->
  exists s', handle_fault pt_addr va cause s = Ok s' /\
    inv u (upd pg (va / PGSIZE) (Some (i, true, d))) mp s'.
Proof.
  intros I Hva E. destruct (user_page_range va Hva) as (Hp & _).
  pose proof (i_ok _ _ _ _ I _ Hp) as Hok. rewrite E in Hok. destruct Hok as (Hpte & _).
  pose proof (inv_set_flags u pg mp s _ i false d true d I Hp E ltac:(done)) as I'.
  eexists. split; [|exact I']. unfold handle_fault.
  rewrite (proj2 (Z.leb_le _ _)), (proj2 (Z.ltb_lt _ _)) by lia.
  cbn [assert mbind res_bind andb]. rewrite Hpte.
  rewrite (mk_pte_sum _ _ (pflags_range _ _)) at 1.
  destruct (slot_range _ _ _ _ _ _ _ _ I E) as [Hi _].
  pose proof (frame_range i ltac:(lia)). pose proof (pflags_range false d).
  rewrite (proj2 (Z.eqb_neq _ 0)) by dlia. cbn [negb].
  rewrite has_mk by (destruct d; vm_compute; repeat split; congruence).
  replace (has (pflags false d) PTE_A) with false by (by destruct d). cbn [negb].
  rewrite lor_mk_pte. replace (Z.lor (pflags false d) PTE_A) with (pflags true d)
    by (by destruct d). done.
Qed.

(** A store to a clean page: the fault sets the dirty bit. *)
Lemma fault_dirty u pg mp s va i :
  inv u pg mp s -> PGSIZE <= va < MAX_TEST_PAGES * PGSIZE ->
  pg (va / PGSIZE) = Some (i, true, false) ->
  exists s', handle_fault pt_addr va CAUSE_STORE_PAGE_FAULT s = Ok s' /\
    inv u (upd pg (va / PGSIZE) (Some (i, true, true))) mp s'.
Proof.
  intros I Hva E. destruct (user_page_range va Hva) as (Hp & _).
  pose proof (i_ok _ _ _ _ I _ Hp) as Hok. rewrite E in Hok. destruct Hok as (Hpte & _).
  pose proof (inv_set_flags u pg mp s _ i true false true true I Hp E ltac:(done)) as I'.
  eexists. split; [|exact I']. unfold handle_fault.
  rewrite (proj2 (Z.leb_le _ _)), (proj2 (Z.ltb_lt _ _)) by lia.
  cbn [assert mbind res_bind andb]. rewrite Hpte.
  rewrite (mk_pte_sum _ _ (pflags_range _ _)) at 1.
  destruct (slot_range _ _ _ _ _ _ _ _ I E) as [Hi _].
  pose proof (frame_range i ltac:(lia)). pose proof (pflags_range true false).
  rewrite (proj2 (Z.eqb_neq _ 0)) by dlia. cbn [negb].
  rewrite !has_mk by (vm_compute; repeat split; congruence).
  change (has (pflags true false) PTE_A) with true.
  change (has (pflags true false) PTE_D) with false.
  cbn [negb assert mbind res_bind]. rewrite Z.eqb_refl, lor_mk_pte. done.
Qed.

(** The kernel's copy of a backing page to the frame the page is mapped to. *)
Lemma page_copy r m p i a d :
  tables_ok r -> wf_mem m -> 1 <= p < 63 -> 0 <= i < 63 ->
  user_l3pt r p = mk_pte (frame i) (pflags a d) ->
  kernel_pa pt_addr r (p * PGSIZE) = Ok (frame i) /\
  exists m', page_memcpy pt_addr r m (p * PGSIZE) (uva2kva (p * PGSIZE)) = Ok m' /\
    copied m (frame i) (DRAM_BASE + p * 4096) 4096 m' /\ wf_mem m'.
Proof.
  intros T Hm Hp Hi E. pose proof (frame_range i Hi) as (F1 & F2 & F3 & F4).
  assert (kernel_pa pt_addr r (p * PGSIZE) = Ok (frame i)) as K.
  { unfold kernel_pa. vconsts. rewrite (translate_user r _ (frame i) a d); try done.
    - simpl. f_equal. rewrite Z.mod_mul by lia. lia.
    - vconsts. lia.
    - lia.
    - vconsts. by rewrite Z.div_mul by lia. }
  split; [done|]. unfold page_memcpy.
  rewrite K, translate_kernel by (try done; vconsts; lia). vconsts.
  edestruct (memcpy_spec m (frame i) (536870912 + p * 4096) 4096) as (m' & E' & ? & ?);
    [done|lia..|right; lia|]. cbn [mbind res_bind]. rewrite E'. eauto.
Qed.

(** A page list extended by an unmapped page still has room. *)
Lemma room_for u pg mp s p :
  inv u pg mp s -> 1 <= p < 63 -> pg p = None ->
  NoDup (mp ++ [p]) /\ Forall (fun p => 1 <= p < 63) (mp ++ [p]) /\
  Z.of_nat (length mp) < 62.
Proof.
  intros I Hp E. assert (NoDup (mp ++ [p])) as Hnd.
  { apply NoDup_app. split_and!; [apply I| |apply NoDup_singleton].
    intros q Hq ->%list_elem_of_singleton. by apply (i_unmapped _ _ _ _ I p E). }
  assert (Forall (fun p => 1 <= p < 63) (mp ++ [p])) as Hall.
  { apply Forall_app. split; [apply I|by apply Forall_singleton]. }
  split_and!; try done.
  pose proof (pages_bound _ Hnd Hall) as Hl. rewrite length_app in Hl. simpl in Hl. lia.
Qed.

(** The invariant after page [p] got the next frame, filled from its backing page. *)
Lemma inv_map u pg mp s p r' m' (n := Z.of_nat (length mp)) :
  inv u pg mp s -> 1 <= p < 63 -> pg p = None -> tables_ok r' -> wf_mem m' ->
  copied (v_ram s) (frame n) (DRAM_BASE + p * 4096) 4096 m' ->
  freelist_head r' = Some (FNode (n + 1)) -> freelist_nodes r' = freelist_nodes (v_row s) ->
  (forall q, user_l3pt r' q =
     if q =? p then mk_pte (frame n) (pflags false false) else user_l3pt (v_row s) q) ->
  (forall q, addr (user_mapping r' q) =
     if q =? p then frame n else addr (user_mapping (v_row s) q)) ->
  inv u (upd pg p (Some (n, false, false))) (mp ++ [p]) (mkVm r' m').
Proof.
  intros I Hp E T' Hm' Hc Hh Hnodes Hl3 Hum.
  destruct (room_for _ _ _ _ _ I Hp E) as (Hnd & Hall & Hn). fold n in Hn.
  pose proof (i_ok _ _ _ _ I _ Hp) as Hok. rewrite E in Hok. destruct Hok as (_ & _ & Hbk).
  destruct s as [r m], I; cbn [v_row v_ram] in *.
  pose proof (frame_range n ltac:(lia)) as (F1 & F2 & F3 & F4).
  constructor; cbn [v_row v_ram]; try done.
  - intros x Hx. rewrite (Hc x). range_cases; [|by apply i_back0]. destruct Hx.
    replace x with (frame n + (x - frame n)) by lia. apply own_frame; lia.
  - intros q j b e. unfold upd. destruct (Z.eqb_spec q p) as [->|Hq].
    + intros [= <- <- <-]. split; [lia|]. unfold n. rewrite Nat2Z.id.
      rewrite lookup_app_r, Nat.sub_diag by lia. done.
    + intros Eq. destruct (i_slot0 _ _ _ _ Eq). split; [done|]. by apply lookup_app_l_Some.
  - intros q. unfold upd. destruct (Z.eqb_spec q p) as [->|Hq]; [done|].
    intros Eq. rewrite elem_of_app, list_elem_of_singleton. specialize (i_unmapped0 q Eq). tauto.
  - rewrite Hh, length_app. simpl. do 2 f_equal. lia.
  - rewrite length_app, Hnodes. intros i Hi. apply i_nodes0. simpl in Hi. lia.
  - intros q Hq. specialize (i_ok0 q Hq). specialize (Hl3 q). specialize (Hum q). unfold upd.
    destruct (Z.eqb_spec q p) as [->|Hne].
    + simpl. split_and!; try done. intros o Ho. rewrite (Hc _), Hbk by done.
      range_cases; [|lia]. rewrite i_back0 by (intros ?%own_high; vconsts; lia). f_equal. lia.
    + destruct (pg q) as [[[j b] e]|] eqn:Eq; simpl in *; rewrite Hl3, Hum; [|done].
      destruct i_ok0 as (? & ? & Hcont & ?). split_and!; try done. intros o Ho.
      rewrite (Hc _). range_cases; [|by apply Hcont].
      destruct (i_slot0 _ _ _ _ Eq) as [Hj Hl]. apply lookup_lt_Some in Hl.
      pose proof (frames_disjoint j n o Ho ltac:(lia)). lia.
Qed.

(** The first use of a page: it gets the next frame. *)
Lemma fault_map u pg mp s va cause :
  inv u pg mp s -> PGSIZE <= va < MAX_TEST_PAGES * PGSIZE -> pg (va / PGSIZE) = None ->
  exists s', handle_fault pt_addr va cause s = Ok s' /\
    inv u (upd pg (va / PGSIZE) (Some (Z.of_nat (length mp), false, false)))
      (mp ++ [va / PGSIZE]) s'.
Proof.
  intros I Hva E. destruct (user_page_range va Hva) as (Hp & _). revert E Hp.
  set (p := va / PGSIZE). intros E Hp. set (n := Z.of_nat (length mp)).
  pose proof (i_ok _ _ _ _ I _ Hp) as Hok. rewrite E in Hok. destruct Hok as (Hpte & Hum & _).
  destruct (room_for _ _ _ _ _ I Hp E) as (_ & _ & Hn). fold n in Hn.
  pose proof (i_nodes _ _ _ _ I n ltac:(lia)) as Hnode.
  rewrite (proj2 (Z.eqb_neq n 62)) in Hnode by lia.
  unfold handle_fault. rewrite (proj2 (Z.leb_le _ _)), (proj2 (Z.ltb_lt _ _)) by lia.
  cbn [assert mbind res_bind andb]. fold p. rewrite Hpte. cbn [negb Z.eqb].
  rewrite (i_head _ _ _ _ I). fold n. cbn [deref].
  set (tail := if decide _ then _ else _). rewrite Hnode. cbn [next].
  set (r1 := set_list _ _ _). change (freelist_nodes r1 n) with (freelist_nodes (v_row s) n).
  rewrite Hnode. cbn [addr]. set (r2 := set_pt r1 3 p _).
  change (user_mapping r2 p) with (user_mapping (v_row s) p). rewrite Hum. cbn [Z.eqb assert].
  change (freelist_nodes r2 n) with (freelist_nodes (v_row s) n). rewrite Hnode.
  set (r3 := set_mapping r2 p _).
  assert (tables_ok r3) as T3 by (destruct (i_tables _ _ _ _ I); by constructor).
  destruct (page_copy r3 (v_ram s) p n true true T3 (i_wf _ _ _ _ I) Hp ltac:(lia))
    as [_ (m' & -> & Hc & Hm')].
  { unfold r3, r2, user_l3pt. simpl. rewrite !upd_eq. rewrite !lor_mk_pte. done. }
  eexists. split; [done|].
  apply (inv_map u pg mp s); try done; [by apply tables_set_l3| |];
    intros q; unfold r3, r2, user_l3pt; cbn [pt user_mapping set_pt set_mapping r1 set_list];
    rewrite ?upd_eq; unfold upd; by destruct (q =? p).
Qed.

(** ** User accesses *)

Definition all_accessed (pg : Z -> status) : Prop :=
  forall p i a d, pg p = Some (i, a, d) -> a = true.

Lemma user_fault fuel k va s s' :
  handle_fault pt_addr va (fault_cause k) s = Ok s' ->
  match translate pt_addr (v_row s) va with Some (_, pte) => permits k pte | None => false end
    = false ->
  user_access pt_addr (S fuel) k va s = user_access pt_addr fuel k va s'.
Proof.
  intros E Hf. cbn [user_access].
  assert (handle_trap pt_addr 0 0 (mkTf (fun _ => 0) 0 va (fault_cause k)) s
          = Ok (mkTf (fun _ => 0) 0 va (fault_cause k), s')) as H.
  { unfold handle_trap. destruct k; simpl in *; by rewrite E. }
  rewrite H. destruct (translate pt_addr (v_row s) va) as [[pa pte]|]; [|done].
  by rewrite Hf.
Qed.

Lemma translate_mapped u pg mp s va i a d :
  inv u pg mp s -> PGSIZE <= va < MAX_TEST_PAGES * PGSIZE ->
  pg (va / PGSIZE) = Some (i, a, d) ->
  translate pt_addr (v_row s) va = Some (frame i + va mod 4096, mk_pte (frame i) (pflags a d)).
Proof.
  intros I Hva E. destruct (user_page_range va Hva) as (Hp & _ & _ & Hm).
  pose proof (i_ok _ _ _ _ I _ Hp) as Hok. rewrite E in Hok. destruct Hok as (Hpte & _).
  destruct (slot_range _ _ _ _ _ _ _ _ I E) as [Hi _].
  pose proof (frame_range i ltac:(lia)) as (F1 & F2 & F3 & F4).
  apply translate_user; try done; [apply I|lia].
Qed.

Lemma permits_flags k pa a d :
  permits k (mk_pte pa (pflags a d)) = a && match k with Store => d | _ => true end.
Proof.
  unfold permits. pose proof (pflags_range a d).
  rewrite !has_mk by pte_lia. by destruct k, a, d.
Qed.

(** The result of an access to page [p]: its frame and the final bits. *)
Definition accessed (u : mem) (k : access) (va : Z) (fuel : nat) (s : vm) : Prop :=
  exists pg mp s' i d,
    user_access pt_addr fuel k va s = Ok (frame i + va mod 4096, s') /\
    inv u pg mp s' /\ all_accessed pg /\ pg (va / PGSIZE) = Some (i, true, d) /\
    (k = Store -> d = true).

Lemma all_accessed_upd pg p i d :
  (forall q j a e, q <> p -> pg q = Some (j, a, e) -> a = true) ->
  all_accessed (upd pg p (Some (i, true, d))).
Proof.
  intros H q j a e. unfold upd. destruct (Z.eqb_spec q p); [congruence|]. by apply H.
Qed.

Lemma access_hit u pg mp s va k i d fuel :
  inv u pg mp s -> PGSIZE <= va < MAX_TEST_PAGES * PGSIZE -> all_accessed pg ->
  pg (va / PGSIZE) = Some (i, true, d) -> (k = Store -> d = true) ->
  accessed u k va (S fuel) s.
Proof.
  intros I Hva HA E Hk. exists pg, mp, s, i, d. split_and!; try done.
  cbn [user_access]. rewrite (translate_mapped _ _ _ _ _ _ _ _ I Hva E), permits_flags.
  destruct k; [done|done|]. by rewrite Hk.
Qed.

Lemma access_clean u pg mp s va k i d fuel :
  inv u pg mp s -> PGSIZE <= va < MAX_TEST_PAGES * PGSIZE -> all_accessed pg ->
  pg (va / PGSIZE) = Some (i, true, d) -> accessed u k va (S (S fuel)) s.
Proof.
  intros I Hva HA E. destruct (decide (k = Store /\ d = false)) as [[-> ->]|Hk].
  - destruct (fault_dirty _ _ _ _ _ _ I Hva E) as (s' & Es & I').
    unfold accessed. setoid_rewrite (user_fault _ Store va s s' Es).
    + eapply (access_hit _ _ _ _ _ _ _ _ _ I'); [done| |apply upd_eq|done].
      apply all_accessed_upd. eauto.
    + by rewrite (translate_mapped _ _ _ _ _ _ _ _ I Hva E), permits_flags.
  - eapply (access_hit _ _ _ _ _ _ _ _ _ I); try done. intros ->. by destruct d; [|tauto].
Qed.

Lemma access_mapped u pg mp s va k i a d fuel :
  inv u pg mp s -> PGSIZE <= va < MAX_TEST_PAGES * PGSIZE ->
  (forall q j b e, q <> va / PGSIZE -> pg q = Some (j, b, e) -> b = true) ->
  pg (va / PGSIZE) = Some (i, a, d) -> accessed u k va (S (S (S fuel))) s.
Proof.
  intros I Hva HA E. destruct a.
  - eapply (access_clean _ _ _ _ _ _ _ _ _ I); try done. intros q j b e Eq.
    destruct (Z.eq_dec q (va / PGSIZE)) as [->|]; [|eauto]. congruence.
  - destruct (fault_accessed _ _ _ _ va (fault_cause k) _ _ I Hva E) as (s' & Es & I').
    unfold accessed. setoid_rewrite (user_fault _ k va s s' Es).
    + eapply (access_clean _ _ _ _ _ _ _ _ _ I'); [done| |apply upd_eq].
      by apply all_accessed_upd.
    + by rewrite (translate_mapped _ _ _ _ _ _ _ _ I Hva E), permits_flags.
Qed.

(** Every access of the user program succeeds within three faults. *)
Lemma access_ok u pg mp s va k :
  inv u pg mp s -> PGSIZE <= va < MAX_TEST_PAGES * PGSIZE -> all_accessed pg ->
  accessed u k va 4 s.
Proof.
  intros I Hva HA. destruct (pg (va / PGSIZE)) as [[[i a] d]|] eqn:E.
  - eapply (access_mapped _ _ _ _ _ _ _ _ _ _ I); eauto.
  - destruct (fault_map _ _ _ _ va (fault_cause k) I Hva E) as (s' & Es & I').
    unfold accessed. setoid_rewrite (user_fault _ k va s s' Es).
    + eapply (access_mapped _ _ _ _ _ _ _ _ _ _ I'); [done| |apply upd_eq].
      intros q j b e Hq. rewrite upd_ne by done. apply HA.
    + destruct (user_page_range va Hva) as (Hp & _ & _ & Hm).
      pose proof (i_ok _ _ _ _ I _ Hp) as Hok. rewrite E in Hok.
      by rewrite (translate_unmapped _ _ (i_tables _ _ _ _ I) Hm (proj1 Hok)).
Qed.

(** A byte stored to a dirty page. *)
Lemma inv_store u pg mp s va i v :
  inv u pg mp s -> PGSIZE <= va < MAX_TEST_PAGES * PGSIZE ->
  pg (va / PGSIZE) = Some (i, true, true) ->
  inv (store8 u va v) pg mp (mkVm (v_row s) (store8 (v_ram s) (frame i + va mod 4096) v)).
Proof.
  intros I Hva E. destruct (user_page_range va Hva) as (Hp & Ev & Hm & _).
  destruct (slot_range _ _ _ _ _ _ _ _ I E) as [Hi _].
  pose proof (frame_range i ltac:(lia)) as (F1 & F2 & F3 & F4).
  pose proof (fun q j a d => slot_inj _ _ _ _ q (va / PGSIZE) j a d true true I) as Hinj.
  destruct s as [r m], I; simpl in *. constructor; cbn [v_row v_ram]; try done.
  - by apply wf_store8.
  - intros x Hx. unfold store8. rewrite (proj2 (Z.eqb_neq _ _)); [by apply i_back0|].
    intros ->. apply Hx, own_frame; lia.
  - intros q Hq. specialize (i_ok0 q Hq).
    assert (q <> va / PGSIZE -> backed u q -> backed (store8 u va v) q) as Hb.
    { intros Hne Hb o Ho. unfold store8. rewrite (proj2 (Z.eqb_neq _ _)) by (vconsts; lia).
      by apply Hb. }
    destruct (pg q) as [[[j a] d]|] eqn:Eq; simpl in *.
    + destruct i_ok0 as (? & ? & Hc & Hd). split_and!; try done.
      * intros o Ho. unfold store8. rewrite Hc by done.
        destruct (Z.eqb_spec (frame j + o) (frame i + va mod 4096)) as [Ef|Hf].
        -- pose proof (frames_disjoint j i o Ho ltac:(lia)). subst j.
           rewrite (Hinj q i a d Eq E). rewrite (proj2 (Z.eqb_eq _ _)) by (vconsts; lia). done.
        -- rewrite (proj2 (Z.eqb_neq _ _)); [done|]. intros Ea. apply Hf.
           assert (q = va / PGSIZE) by (vconsts; lia). subst q. rewrite E in Eq.
           injection Eq as <- <- <-. lia.
      * intros ->. apply Hb; [|by apply Hd]. intros ->. congruence.
    + destruct i_ok0 as (? & ? & ?). split_and!; try done. apply Hb; [|done].
      intros ->. congruence.
Qed.

(** ** The user program's steps *)

Definition op_va (o : user_op) : Z := match o with ULoad _ va => va | UStore va _ => va end.
Definition user_range (o : user_op) : Prop := PGSIZE <= op_va o < MAX_TEST_PAGES * PGSIZE.

(** The context's part of the invariant between two user instructions. *)
Definition running (u : mem) (s : vm) : Prop :=
  exists pg mp, inv u pg mp s /\ all_accessed pg.
End memory.

(** The specification: a flat memory. *)
Definition flat_step (o : user_op) (u : mem) : Z * mem :=
  match o with ULoad _ va => (u va, u) | UStore va v => (u8 v, store8 u va v) end.

Lemma user_step_ok bk u s o :
  running bk u s -> user_range o ->
  exists s', user_step pt_addr o s = Ok ((flat_step o u).1, s') /\
    running bk (flat_step o u).2 s'.
Proof.
  intros (pg0 & mp0 & I0 & HA0) Hva.
  assert (accessed bk u (match o with ULoad k _ => k | _ => Store end) (op_va o) 4 s)
    as (pg & mp & s' & i & d & E & I & HA & Hp & Hd) by (by eapply access_ok).
  destruct o as [k va|va v]; cbn [op_va user_step flat_step fst snd] in *; rewrite E;
    cbn [mbind res_bind].
  - eexists. split; [|by exists pg, mp].
    destruct (user_page_range va Hva) as (Hpr & Ev & Hm & _).
    pose proof (i_ok _ _ _ _ _ I _ Hpr) as Hok. rewrite Hp in Hok.
    destruct Hok as (_ & _ & Hc & _). rewrite Hc, <-Ev by done. done.
  - rewrite Hd in Hp by done. eexists. split; [done|]. exists pg, mp. split; [|done].
    by apply inv_store.
Qed.

(** Memory that changes only outside the context's frames and the backing pages. *)
Lemma running_frame bk u r m m' :
  running bk u (mkVm r m) -> wf_mem m' -> (forall x, own x -> m' x = m x) ->
  (forall x, DRAM_BASE <= x < DRAM_BASE + 63 * 4096 -> m' x = m x) ->
  running m' u (mkVm r m').
Proof.
  intros (pg & mp & I & HA) Hwf Hown Hb. exists pg, mp. split; [|done].
  assert (forall p, 1 <= p < 63 -> backed bk u p -> backed m' u p) as Hbk.
  { intros p Hp H o Ho. rewrite H, Hb by (vconsts; lia).
    symmetry. apply I. intros ?%own_high. vconsts. lia. }
  assert (forall p i a d, pg p = Some (i, a, d) -> 0 <= i < 63) as Hi.
  { intros p i a d E. pose proof (slot_range _ _ _ _ _ _ _ _ _ I E). lia. }
  destruct I; constructor; cbn [v_row v_ram] in *; try done.
  intros p Hp. specialize (i_ok0 p Hp). destruct (pg p) as [[[i a] d]|] eqn:E; simpl in *.
  - destruct i_ok0 as (? & ? & Hc & ?). split_and!; auto.
    intros o Ho. rewrite Hown; [by apply Hc|]. apply own_frame; eauto.
  - destruct i_ok0 as (? & ? & ?). auto.
Qed.

(** A step changes memory only in the context's own frames. *)
Lemma running_unchanged bk u s x : running bk u s -> ~ own x -> v_ram s x = bk x.
Proof. intros (pg & mp & I & _). apply I. Qed.

Lemma boot_nodes_lookup f n i :
  0 <= n -> fold_left (fun f i => upd f i (boot_node ctxt i)) (seqZ 0 n) f i =
    if (0 <=? i) && (i <? n) then boot_node ctxt i else f i.
Proof.
  intros Hn. pattern n. apply natlike_ind; [|clear n Hn|done].
  - simpl. split_cmp; lia || done.
  - intros n Hn IH. rewrite <-Z.add_1_r.
    rewrite seqZ_snoc, fold_left_app by lia. cbn [fold_left]. unfold upd at 1. rewrite IH.
    destruct (Z.eqb_spec i n) as [->|]; split_cmp; lia || done.
Qed.

(** What [vm_boot] leaves: the invariant with no page mapped. *)
Lemma boot_running m u :
  wf_mem m -> (forall p, 1 <= p < 63 -> backed m u p) ->
  running m u (mkVm (vm_boot pt_addr ctxt) m).
Proof.
  intros Hm Hb. exists (fun _ => None), []. split; [|by intros ????].
  constructor; cbn [v_row v_ram]; try done.
  - constructor; vconsts; done.
  - intros p _. apply not_elem_of_nil.
  - intros i Hi. unfold vm_boot, boot_freelist. cbn [freelist_nodes]. unfold upd.
    rewrite !boot_nodes_lookup by (vconsts; lia). vconsts. simpl in Hi.
    rewrite (proj2 (Z.leb_le 0 i)), (proj2 (Z.ltb_lt i 63)) by lia. cbn [andb].
    change (63 - 1) with 62.
    destruct (Z.eqb_spec i 62) as [->|]; [done|]. done.
  - intros p Hp. simpl. split_and!; try done. by apply Hb.
Qed.

(** ** Eviction at exit *)

(** Page [q] as the eviction loop finds it. *)
Definition evictable (m : mem) (r : row) (q : Z) : Prop :=
  addr (user_mapping r q) = 0 \/
  exists i d, 0 <= i < 63 /\ addr (user_mapping r q) = frame i /\
    user_l3pt r q = mk_pte (frame i) (pflags true d) /\
    (d = false -> forall o, 0 <= o < 4096 -> m (frame i + o) = m (DRAM_BASE + q * 4096 + o)).

(** The state between two evictions: pages from [q] on are still as the program left them,
    with one frame each. *)
Record evicting (q : Z) (s : vm) : Prop := mkEvicting {
  e_tables : tables_ok (v_row s);
  e_wf : wf_mem (v_ram s);
  e_pages : forall p, q <= p < 63 -> evictable (v_ram s) (v_row s) p;
  e_frames : forall p p', q <= p < 63 -> q <= p' < 63 ->
    addr (user_mapping (v_row s) p) <> 0 ->
    addr (user_mapping (v_row s) p) = addr (user_mapping (v_row s) p') -> p = p' }.

Lemma running_evicting bk u s : running bk u s -> evicting 1 s.
Proof.
  intros (pg & mp & I & HA). constructor; [apply I|apply I| |].
  - intros p Hp. pose proof (i_ok _ _ _ _ _ I _ Hp) as Hok. unfold evictable.
    destruct (pg p) as [[[i a] d]|] eqn:E; [right|left; apply Hok].
    pose proof (slot_range _ _ _ _ _ _ _ _ _ I E) as [Hi _].
    rewrite (HA _ _ _ _ E) in Hok. destruct Hok as (? & ? & Hc & Hd).
    exists i, d. split_and!; try done; try lia. intros Ed o Ho.
    rewrite Hc, (Hd Ed), (i_back _ _ _ _ _ I) by (try done; intros ?%own_high; vconsts; lia).
    done.
  - intros p p' Hp Hp' Hz Heq.
    pose proof (i_ok _ _ _ _ _ I _ Hp) as H. pose proof (i_ok _ _ _ _ _ I _ Hp') as H'.
    destruct (pg p) as [[[i a] d]|] eqn:E; [|by destruct H as (_ & ? & _)].
    destruct (pg p') as [[[i' a'] d']|] eqn:E'; destruct H as (_ & H & _), H' as (_ & H' & _).
    + assert (i = i') by (rewrite H, H' in Heq; unfold frame in Heq; vconsts; lia).
      subst i'. eapply slot_inj; eauto.
    + congruence.
Qed.

(** Relinking the free list changes no table and no mapped address. *)
Definition same_pages (r r' : row) (p : Z) : Prop :=
  pt r' = pt r /\ forall q, q <> p -> addr (user_mapping r' q) = addr (user_mapping r q).

Lemma relink_same r p n : same_pages r
  match freelist_tail (set_mapping r p (mkNode 0 n)) with
  | None => set_list (set_mapping r p (mkNode 0 n)) (Some (UMap p)) (Some (UMap p))
  | Some t => let r := set_next (set_mapping r p (mkNode 0 n)) t (Some (UMap p)) in
              set_list r (freelist_head r) (Some (UMap p))
  end p.
Proof.
  cbn [freelist_tail set_mapping]. destruct (freelist_tail r) as [[i|i]|]; split; simpl; try done;
    intros q Hq; unfold upd; split_cmp; try done; lia || (subst; done).
Qed.

Lemma evicting_step p s m' r' :
  evicting p s -> same_pages (v_row s) r' p -> wf_mem m' ->
  (forall q o i, p < q < 63 -> 0 <= i < 63 -> 0 <= o < 4096 ->
     addr (user_mapping (v_row s) q) = frame i -> m' (frame i + o) = v_ram s (frame i + o)) ->
  (forall q o, 0 <= q < 63 -> 0 <= o < 4096 ->
     m' (DRAM_BASE + q * 4096 + o) = v_ram s (DRAM_BASE + q * 4096 + o)) ->
  0 <= p -> evicting (p + 1) (mkVm r' m').
Proof.
  intros E [Ept Hsame] Hwf Hf Hb Hp. destruct s as [r m], E; cbn [v_row v_ram] in *.
  constructor; cbn [v_row v_ram]; try done.
  - destruct e_tables0. constructor; by rewrite Ept.
  - intros q Hq. unfold evictable, user_l3pt. rewrite Hsame, Ept by lia.
    destruct (e_pages0 q ltac:(lia)) as [|(i & d & ? & ? & ? & Hc)]; [by left|right].
    exists i, d. split_and!; try done; try lia. intros Ed o Ho.
    rewrite (Hf q), Hb by (done || lia). by apply Hc.
  - intros q q' Hq Hq'. rewrite !Hsame by lia. apply e_frames0; lia.
Qed.

Lemma evict_ok p s :
  16 <= p < 63 -> evicting p s ->
  exists s', evict pt_addr (p * PGSIZE) s = Ok s' /\ evicting (p + 1) s'.
Proof.
  intros Hp E. unfold evict. vconsts. rewrite (proj2 (Z.leb_le _ _)), (proj2 (Z.ltb_lt _ _)) by lia.
  cbn [assert andb mbind res_bind]. rewrite Z.div_mul by lia.
  destruct (Z.eqb_spec (addr (user_mapping (v_row s) p)) 0) as [Hz|Hz].
  - eexists. split; [done|]. destruct E; constructor; try done; intros; [apply e_pages0; lia|].
    eapply e_frames0; eauto; lia.
  - destruct (e_pages _ _ E p ltac:(lia)) as [|(i & d & Hi & Ha & Hpte & Hc)]; [done|].
    pose proof (frame_range i Hi) as (F1 & F2 & F3 & F4).
    destruct (page_copy (v_row s) (v_ram s) p i true d (e_tables _ _ E) (e_wf _ _ E) ltac:(lia) Hi Hpte)
      as [K (m' & Em & Hcp & Hm')]. vconsts.
    rewrite Hpte, !has_mk by (pose proof (pflags_range true d); pte_lia).
    replace (has (pflags true d) PTE_A) with true by (by destruct d).
    replace (has (pflags true d) PTE_D) with d by (by destruct d).
    unfold page_memcmp. rewrite K, translate_kernel by (apply E || (vconsts; lia)).
    cbn [assert mbind res_bind]. vconsts.
    destruct (memcmp_spec (v_ram s) (frame i) (536870912 + p * 4096) 4096)
      as (c & -> & Hdiff); [apply E|lia..|]. cbn [assert mbind res_bind].
    destruct (Z.eqb_spec c 0) as [Hc0|Hc0]; cbn [negb].
    + eexists. split; [done|]. eapply evicting_step; try apply relink_same; try done; [apply E|lia].
    + destruct d; [|exfalso; destruct Hdiff as [[? _]|(o & Ho & _ & Hne & _)]; [done|];
        apply Hne; vconsts; rewrite Hc by done; done].
      cbn [assert mbind res_bind]. rewrite Em. cbn [mbind res_bind]. eexists. split; [done|].
      eapply evicting_step; try apply relink_same; try done; [| |lia].
      * intros q o j Hq Hj Ho Eq. rewrite (Hcp _). range_cases; [|done].
        pose proof (frames_disjoint j i o Ho ltac:(lia)). subst j.
        pose proof (e_frames _ _ E p q ltac:(lia) ltac:(lia) Hz ltac:(congruence)). lia.
      * intros q o Hq Ho. rewrite (Hcp _). range_cases; [vconsts; lia|done].
Qed.

Lemma evict_all_ok n : forall p s,
  16 <= p -> p + Z.of_nat n = 63 -> evicting p s ->
  exists s', evict_all pt_addr (seqZ p (Z.of_nat n)) s = Ok s' /\ evicting 63 s'.
Proof.
  induction n as [|n IH]; intros p s Hp Hn E.
  - exists s. split; [done|]. by replace 63 with p by lia.
  - rewrite seqZ_cons by lia. replace (Z.pred (Z.of_nat (S n))) with (Z.of_nat n) by lia.
    cbn [evict_all]. destruct (evict_ok p s ltac:(lia) E) as (s' & -> & E').
    cbn [mbind res_bind]. rewrite <-Z.add_1_r. apply IH; [lia|lia|done].
Qed.

Lemma ecall_terminates bk u s tf fssr insn :
  running bk u s -> cause tf = CAUSE_USER_ECALL ->
  handle_trap pt_addr fssr insn tf s = Err (Terminate (s32 (gpr tf 10))).
Proof.
  intros R%running_evicting E. unfold handle_trap. rewrite E, Z.eqb_refl.
  destruct (evict_all_ok 47 16 s) as (s' & Es & _); [lia|lia| |].
  - destruct R. constructor; try done; intros; [apply e_pages0; lia|].
    eapply e_frames0; eauto; lia.
  - change (MAX_TEST_PAGES - MAX_NUM_CODE_PAGES) with (Z.of_nat 47). vconsts.
    rewrite Es. done.
Qed.
End row_proofs.

(** ** Eight contexts over one memory *)

Record machine := mkMachine { m_rows : Z -> row; m_ram : mem }.

Section machine.
Context (pt_addr : Z -> Z).

Definition machine_step (co : Z * user_op) (M : machine) : res exit (Z * machine) :=
  let '(c, o) := co in
  '(v, s) ← user_step (pt_addr c) o (mkVm (m_rows M c) (m_ram M));
  mret (v, mkMachine (upd (m_rows M) c (v_row s)) (v_ram s)).

Fixpoint machine_run (ops : list (Z * user_op)) (M : machine) : res exit (list Z * machine) :=
  match ops with
  | [] => Ok ([], M)
  | co :: ops =>
      '(v, M) ← machine_step co M; '(vs, M) ← machine_run ops M; mret (v :: vs, M)
  end.

Definition boot (m : mem) : machine := mkMachine (fun c => vm_boot (pt_addr c) c) m.

(** The specification: one flat memory per context. *)
Fixpoint flat_run (ops : list (Z * user_op)) (us : Z -> mem) : list Z * (Z -> mem) :=
  match ops with
  | [] => ([], us)
  | (c, o) :: ops =>
      let '(v, u) := flat_step o (us c) in
      let '(vs, us) := flat_run ops (upd us c u) in (v :: vs, us)
  end.

Definition flat0 (m : mem) : Z -> mem := fun _ va => m (DRAM_BASE + va).

Definition valid_op (co : Z * user_op) : Prop :=
  0 <= co.1 < MAX_NUM_ROWS /\ user_range co.2.

Definition tables_placed : Prop :=
  forall c, 0 <= c < MAX_NUM_ROWS -> 0 <= pt_addr c < 2 ^ 55 /\ pt_addr c mod 4096 = 0.
Hypothesis Hpt : tables_placed.

Definition all_running (M : machine) (us : Z -> mem) : Prop :=
  wf_mem (m_ram M) /\
  forall c, 0 <= c < MAX_NUM_ROWS ->
    exists bk, running (pt_addr c) c bk (us c) (mkVm (m_rows M c) (m_ram M)).

Lemma own_disjoint c c' x :
  0 <= c < MAX_NUM_ROWS -> 0 <= c' < MAX_NUM_ROWS -> c <> c' -> own c x -> ~ own c' x.
Proof. unfold own, frame. vconsts. lia. Qed.

Lemma boot_all_running m : wf_mem m -> all_running (boot m) (flat0 m).
Proof.
  intros Hm. split; [done|]. intros c Hc. exists m. apply boot_running; [done..|].
  intros p Hp o Ho. unfold flat0. f_equal. lia.
Qed.

Lemma machine_step_ok M us c o :
  all_running M us -> valid_op (c, o) ->
  exists M', machine_step (c, o) M = Ok ((flat_step o (us c)).1, M') /\
    all_running M' (upd us c (flat_step o (us c)).2).
Proof.
  intros [Hwf HR] [Hc Ho]. destruct (HR c Hc) as [bk R].
  destruct (user_step_ok (pt_addr c) c (Hpt c Hc) Hc bk _ _ o R Ho) as (s' & E & R').
  eexists. split; [unfold machine_step; rewrite E; done|].
  assert (wf_mem (v_ram s')) as Hwf' by (destruct R' as (? & ? & I & _); apply I).
  split; [done|]. intros c' Hc'. cbn [m_rows m_ram]. unfold upd.
  destruct (Z.eqb_spec c' c) as [->|Hne]; [exists bk; by destruct s'|].
  assert (forall x, ~ own c x -> v_ram s' x = m_ram M x) as Hsame.
  { intros x Hx. rewrite (running_unchanged _ _ _ _ _ _ R' Hx).
    symmetry. by apply (running_unchanged _ _ _ _ _ _ R Hx). }
  destruct (HR c' Hc') as [bk' R2]. exists (v_ram s').
  eapply running_frame; [done|exact R2|done| |].
  - intros x Hx. apply Hsame. by apply (own_disjoint c' c).
  - intros x Hx. apply Hsame. intros ?%own_high; [|done]. lia.
Qed.

Lemma machine_run_ok ops : forall M us,
  all_running M us -> Forall valid_op ops ->
  exists M', machine_run ops M = Ok ((flat_run ops us).1, M') /\
    all_running M' (flat_run ops us).2.
Proof.
  induction ops as [|[c o] ops IH]; intros M us R Hv; [by eexists|].
  apply Forall_cons in Hv as [Hco Hv]. cbn [machine_run flat_run].
  destruct (machine_step_ok M us c o R Hco) as (M1 & -> & R1).
  destruct (flat_step o (us c)) as [v u]. cbn [fst snd mbind res_bind] in *.
  destruct (IH _ _ R1 Hv) as (M2 & -> & R2). destruct (flat_run ops _) as [vs us']. eauto.
Qed.

(** C6: demand paging is transparent and the contexts are isolated: whatever interleaving
    of loads, fetches and stores the eight user programs issue after boot, every access
    succeeds after at most three faults and returns what a private flat memory per context
    (initially the loaded image) would return. *)
Theorem paging_transparent m ops :
  wf_mem m -> Forall valid_op ops ->
  exists M', machine_run ops (boot m) = Ok ((flat_run ops (flat0 m)).1, M').
Proof.
  intros Hm Hv. destruct (machine_run_ok ops _ _ (boot_all_running m Hm) Hv) as (M' & E & _).
  eauto.
Qed.

(** when a context makes its exit call after any such run, the eviction loop passes all
    its checks of the accessed and dirty bits and the context terminates with the code the
    program put in a0. *)
Theorem exit_call_terminates m ops c tf fssr insn :
  wf_mem m -> Forall valid_op ops -> 0 <= c < MAX_NUM_ROWS -> cause tf = CAUSE_USER_ECALL ->
  exists vs M', machine_run ops (boot m) = Ok (vs, M') /\
    handle_trap (pt_addr c) fssr insn tf (mkVm (m_rows M' c) (m_ram M'))
    = Err (Terminate (s32 (gpr tf 10))).
Proof.
  intros Hm Hv Hc Htf.
  destruct (machine_run_ok ops _ _ (boot_all_running m Hm) Hv) as (M' & E & _ & R).
  destruct (R c Hc) as [bk Rc]. exists (flat_run ops (flat0 m)).1, M'. split; [done|].
  by apply (ecall_terminates (pt_addr c) c (Hpt c Hc) Hc bk ((flat_run ops (flat0 m)).2 c)).
Qed.
End machine.

(** The load address and the eight tables of a concrete link. *)
Definition example_pt (c : Z) : Z := 0x20100000 + c * 0x4000.

Lemma example_pt_placed : tables_placed example_pt.
Proof. intros c Hc. unfold example_pt. vconsts. split; [lia|dlia]. Qed.

Lemma paging_transparent_witness :
  exists M', machine_run example_pt
      [(0, UStore 0x2004 7); (1, ULoad Load 0x2004); (0, ULoad Fetch 0x2004)]
      (boot example_pt (fun a => if a =? DRAM_BASE + 0x2004 then 9 else 0))
    = Ok ([7; 9; 7], M').
Proof.
  apply (paging_transparent example_pt example_pt_placed
    (fun a => if a =? DRAM_BASE + 0x2004 then 9 else 0)
    [(0, UStore 0x2004 7); (1, ULoad Load 0x2004); (0, ULoad Fetch 0x2004)]).
  - intros a. split_cmp; lia.
  - repeat constructor; vm_compute; congruence.
Defined.

Lemma exit_call_terminates_witness :
  exists vs M', machine_run example_pt [(3, UStore 0x12345 7)] (boot example_pt (fun _ => 0))
      = Ok (vs, M') /\
    handle_trap (example_pt 3) 0 0 (mkTf (fun _ => 1) 0 0 CAUSE_USER_ECALL)
      (mkVm (m_rows M' 3) (m_ram M')) = Err (Terminate 1).
Proof.
  apply (exit_call_terminates example_pt example_pt_placed (fun _ => 0) [(3, UStore 0x12345 7)] 3
    (mkTf (fun _ => 1) 0 0 CAUSE_USER_ECALL) 0 0).
  - intros a. lia.
  - repeat constructor; vm_compute; congruence.
  - vm_compute. split; congruence.
  - reflexivity.
Defined.

(** ** Collecting the exit codes *)

Lemma poll_bit st k : 0 <= k ->
  Z.testbit (poll st) k = existsb (fun i => Z.testbit (st i) k) (seqZ 0 MAX_NUM_ROWS).
Proof.
  intros Hk. unfold poll. change (seqZ 0 MAX_NUM_ROWS) with [0; 1; 2; 3; 4; 5; 6; 7].
  cbn [fold_left existsb]. rewrite !Z.lor_spec, Z.bits_0, orb_false_r.
  by rewrite !orb_assoc.
Qed.

Lemma poll_wait st rest :
  (exists i, 0 <= i < MAX_NUM_ROWS /\ Z.odd (st i) = true) ->
  terminate_wait (st :: rest) = terminate_wait rest.
Proof.
  intros (i & Hi & Ho). cbn [terminate_wait].
  assert (Z.testbit (poll st) 0 = true) as Hb.
  { rewrite poll_bit by lia. apply existsb_exists. exists i. rewrite Z.bit0_odd. split; [|done].
    apply list_elem_of_In, elem_of_seqZ. lia. }
  change 1 with (Z.ones 1). rewrite Z.land_ones, <-Z.bit0_mod, Hb by lia. done.
Qed.

Lemma poll_codes codes :
  (forall i, 0 <= i < MAX_NUM_ROWS -> 0 <= codes i < 2 ^ 30) ->
  poll (fun i => terminate_status (codes i)) = 2 * poll codes.
Proof.
  intros Hc. assert (forall i, 0 <= i < 8 -> terminate_status (codes i) = Z.shiftl (codes i) 1) as E.
  { intros i Hi. specialize (Hc i Hi). unfold terminate_status.
    rewrite Z.shiftl_mul_pow2 by lia. apply wrapS_small; lia. }
  unfold poll. change (seqZ 0 MAX_NUM_ROWS) with [0; 1; 2; 3; 4; 5; 6; 7]. cbn [fold_left].
  rewrite !E by lia. rewrite <-(Z.shiftl_0_l 1) at 1. rewrite <-!Z.shiftl_lor.
  by rewrite Z.shiftl_mul_pow2, Z.mul_comm by lia.
Qed.

(** Context 0 waits as long as some booted row is running; when all rows have stored
    their codes it reports the bitwise or of the eight codes, so the host sees 0 exactly
    when every code is 0. *)
Theorem terminate_collects sts codes :
  Forall (fun st => exists i, 0 <= i < MAX_NUM_ROWS /\ st i = 1) sts ->
  (forall i, 0 <= i < MAX_NUM_ROWS -> 0 <= codes i < 2 ^ 30) ->
  terminate_wait (sts ++ [fun i => terminate_status (codes i)]) = Some (poll codes) /\
  (poll codes = 0 <-> forall i, 0 <= i < MAX_NUM_ROWS -> codes i = 0).
Proof.
  intros Hs Hc. split.
  - induction Hs as [|st sts (i & Hi & Est) Hs IH].
    + cbn [app terminate_wait]. rewrite (poll_codes _ Hc).
      change 1 with (Z.ones 1) at 1. rewrite Z.land_ones, Z.mul_comm, Z.mod_mul by lia.
      by rewrite Z.shiftr_div_pow2, Z.div_mul by lia.
    + cbn [app]. rewrite poll_wait; [done|]. exists i. by rewrite Est.
  - split.
    + intros E i Hi. apply Z.bits_inj'. intros k Hk. rewrite Z.bits_0.
      assert (Z.testbit (poll codes) k = false) as Hb by (by rewrite E, Z.bits_0).
      rewrite poll_bit in Hb by lia. destruct (Z.testbit (codes i) k) eqn:Ek; [|done].
      rewrite <-Hb. symmetry. apply existsb_exists. exists i. split; [|done].
      apply list_elem_of_In, elem_of_seqZ. lia.
    + intros H. unfold poll. change (seqZ 0 MAX_NUM_ROWS) with [0; 1; 2; 3; 4; 5; 6; 7].
      cbn [fold_left]. by rewrite !H by (vconsts; lia).
Qed.

Lemma terminate_collects_witness :
  terminate_wait ([fun i => if i =? 5 then 1 else 2] ++ [fun i => terminate_status (if i =? 5 then 7 else 1)])
    = Some 7.
Proof.
  apply (terminate_collects [fun i => if i =? 5 then 1 else 2] (fun i => if i =? 5 then 7 else 1)).
  - repeat constructor. exists 5. vm_compute. repeat split; congruence.
  - intros i _. split_cmp; lia.
Defined.

(** ** The coherence torture of the idle harts *)

Lemma torture_next_half random : 0 <= random < 2 ^ 32 -> torture_next random = random / 2.
Proof.
  intros Hr. unfold torture_next, lfsr63. set (bit := Z.land _ 1).
  assert (0 <= bit < 2) as Hb by (apply (land_bound _ 1 1); lia).
  rewrite Z.shiftl_mul_pow2, Z.shiftr_div_pow2, (wrapU_small 64) by lia.
  rewrite Z.lor_comm, lor_disjoint_add by (try lia; dlia). unfold wrapU.
  replace (2 ^ 62) with (2 ^ 30 * 2 ^ 32) by lia.
  rewrite Z.add_comm, Z.mul_assoc, Z.mod_add by lia. apply Z.mod_small. dlia.
Qed.

Lemma torture_iter n : forall random, 0 <= random < 2 ^ 32 ->
  Nat.iter n torture_next random = random / 2 ^ Z.of_nat n.
Proof.
  induction n as [|n IH]; intros random Hr; [by rewrite Z.div_1_r|].
  change (Nat.iter (S n) torture_next random)
    with (torture_next (Nat.iter n torture_next random)). rewrite Nat2Z.inj_succ, Z.pow_succ_r by lia. rewrite IH by lia.
  assert (0 < 2 ^ Z.of_nat n) by lia.
  rewrite torture_next_half.
  - rewrite Z.div_div by lia. f_equal. lia.
  - split; [apply Z.div_pos; lia|]. apply Z.div_lt_upper_bound; [lia|].
    apply Z.lt_le_trans with (1 * 2 ^ 32); [lia|]. apply Z.mul_le_mono_nonneg_r; lia.
Qed.

(** Every address [coherence_torture] touches is a word of the backing pages or of
    context 0's frames; but [random] is only 32 bits wide, so the feedback bit 62 of
    [lfsr63] is lost and from the 32nd iteration on only the word at [DRAM_BASE] is
    touched. *)
Theorem coherence_torture_addresses random n :
  0 <= random < 2 ^ 32 ->
  (DRAM_BASE <= torture_addr (Nat.iter n torture_next random)
     < DRAM_BASE + 2 * (MAX_TEST_PAGES + 1) * PGSIZE /\
   torture_addr (Nat.iter n torture_next random) mod 4 = 0) /\
  ((32 <= n)%nat -> torture_addr (Nat.iter n torture_next random) = DRAM_BASE).
Proof.
  intros Hr. rewrite torture_iter by done. split.
  - unfold torture_addr. vconsts. set (x := _ mod (2 * (63 + 1) * 4096)).
    assert (0 <= x < 524288) as Hx by (apply Z.mod_pos_bound; lia).
    assert (Z.land x (u64 (-4)) = 4 * (x / 4)) as ->.
    { replace (4 * (x / 4)) with (Z.shiftl (Z.shiftr x 2) 2)
        by (rewrite Z.shiftl_mul_pow2, Z.shiftr_div_pow2 by lia; change (2 ^ 2) with 4; lia).
      apply Z.bits_inj'. intros i Hi. rewrite Z.land_spec, testbit_wrapU by lia.
      change (-4) with (Z.lnot 3). rewrite Z.lnot_spec by lia.
      destruct (Z.lt_ge_cases i 2).
      - rewrite Z.shiftl_spec_low by lia.
        assert (i = 0 \/ i = 1) as [-> | ->] by lia; by rewrite andb_false_r.
      - rewrite Z.shiftl_spec, Z.shiftr_spec, Z.sub_add by lia.
        rewrite (testbit_high 3 2) by lia. destruct (Z.ltb_spec i 64); simpl.
        + by rewrite andb_true_r.
        + by rewrite (testbit_high x 64), andb_false_r by lia. }
    split; [dlia|dlia].
  - intros Hn. rewrite Z.div_small; [done|]. split; [lia|].
    apply Z.lt_le_trans with (2 ^ 32); [lia|]. apply Z.pow_le_mono_r; lia.
Qed.

Lemma coherence_torture_addresses_witness :
  torture_addr (Nat.iter 40 torture_next 0xdeadbeef) = DRAM_BASE.
Proof. apply coherence_torture_addresses; lia. Defined.
