(* ===== verification/Malloc.v ===== *)
(** * The heap allocator of the debug programs

    riscv-tests/debug/programs/tiny-malloc.c with [MALLOC_DIRECTION] 1: [malloc], [free],
    [realloc], [calloc], [cfree], [mallinfo] and [malloc_usable_size].

    The free list lives in memory, inside the free blocks: a block at [a] has its size in
    the word at [a] and, while free, the address of the next free block in the word at
    [a + 8].  [nextfree] is the address of the word to follow, first that of the variable
    [__malloc_freelist].  The stack limit [MALLOC_LIMIT] is an argument of each call. *)
From S2P Require Import Prelude Memory CString.
Local Open Scope Z_scope.
Local Open Scope word_scope.

(** ** Definitions *)

(** [M_ALIGN(x, align)]: [-x & (align - 1)]. *)
Definition M_ALIGN (x align : Z) : Z := Z.land (u64 (- x)) (align - 1).

Definition MALLOC_MINIMUM_GAP : Z := 32.

Definition REAL_SIZE (sz : Z) : Z :=
  if sz <? 16 - 8 then 16 else sz ⊞ 8 ⊞ M_ALIGN sz 8.

(** Memory and the variable [__malloc_end]. *)
Record heap := mkHeap { h_mem : mem; h_end : Z }.

Definition CAN_ALLOC_P (limit : Z) (h : heap) (required : Z) : bool :=
  required <=? limit ⊟ h_end h ⊟ MALLOC_MINIMUM_GAP.

Definition set_word (h : heap) (a v : Z) : heap := mkHeap (store64 (h_mem h) a v) (h_end h).

Definition size_of (h : heap) (block : Z) : Z := load64 (h_mem h) block.
Definition next_of (h : heap) (block : Z) : Z := load64 (h_mem h) (block ⊞ 8).

Section allocator.
(** The addresses of [__malloc_start] and of the variable [__malloc_freelist]. *)
Context (start freelist : Z).

(** The code after the label [done]. *)
Definition malloc_done (h : heap) (block real_size : Z) : heap * Z :=
  (set_word h block real_size, block ⊞ 8).

(** The search of [malloc] from [nextfree] on, and what follows it; [None] is exhausted
    fuel, the pointer 0 is NULL. *)
Fixpoint malloc_from (fuel : nat) (limit real_size nextfree : Z) (h : heap) : option (heap * Z) :=
  match fuel with
  | O => None
  | S fuel =>
      let block := load64 (h_mem h) nextfree in
      if block =? 0 then
        if negb (CAN_ALLOC_P limit h real_size) then Some (h, 0)
        else Some (malloc_done (mkHeap (h_mem h) (h_end h ⊞ real_size)) (h_end h) real_size)
      else if real_size <=? size_of h block then
        if size_of h block <? real_size ⊞ 16 then
          Some (set_word h nextfree (next_of h block), block ⊞ 8)
        else
          let newsize := size_of h block ⊟ real_size in
          let newnext := next_of h block in
          let h := set_word h nextfree (block ⊞ real_size) in
          let h := set_word h (block ⊞ real_size) newsize in
          let h := set_word h (block ⊞ real_size ⊞ 8) newnext in
          Some (malloc_done h block real_size)
      else if (next_of h block =? 0) && (h_end h =? block ⊞ size_of h block) then
        let moresize := real_size ⊟ size_of h block in
        if negb (CAN_ALLOC_P limit h moresize) then Some (h, 0)
        else
          let h := set_word h nextfree 0 in
          Some (malloc_done (mkHeap (h_mem h) (block ⊞ real_size)) block real_size)
      else malloc_from fuel limit real_size (block ⊞ 8) h
  end.

(** A bound on the number of blocks, each of at least 16 bytes. *)
Definition list_fuel (h : heap) : nat := S (Z.to_nat (h_end h - start)).

Definition malloc (limit sz : Z) (h : heap) : option (heap * Z) :=
  malloc_from (list_fuel h) limit (REAL_SIZE sz) freelist h.

Fixpoint free_from (fuel : nat) (block nextfree : Z) (h : heap) : option heap :=
  match fuel with
  | O => None
  | S fuel =>
      let thisblock := load64 (h_mem h) nextfree in
      if thisblock =? 0 then
        Some (set_word (set_word h (block ⊞ 8) thisblock) nextfree block)
      else if thisblock ⊞ size_of h thisblock =? block then
        let h := set_word h thisblock (size_of h thisblock ⊞ size_of h block) in
        let next := next_of h thisblock in
        Some (if negb (next =? 0) && (block ⊞ size_of h block =? next) then
                let h := set_word h thisblock (size_of h thisblock ⊞ size_of h next) in
                set_word h (thisblock ⊞ 8) (next_of h next)
              else h)
      else if thisblock =? block ⊞ size_of h block then
        let h := set_word h block (size_of h block ⊞ size_of h thisblock) in
        let h := set_word h (block ⊞ 8) (next_of h thisblock) in
        Some (set_word h nextfree block)
      else if block <? thisblock then
        Some (set_word (set_word h (block ⊞ 8) thisblock) nextfree block)
      else free_from fuel block (thisblock ⊞ 8) h
  end.

Definition free (block_p : Z) (h : heap) : option heap :=
  let block := block_p ⊟ 8 in
  if block_p =? 0 then Some h else free_from (list_fuel h) block freelist h.

Definition realloc (limit block_p sz : Z) (h : heap) : option (heap * Z) :=
  let block := block_p ⊟ 8 in
  let real_size := REAL_SIZE sz in
  if block_p =? 0 then malloc limit sz h
  else
    let old_real_size := size_of h block in
    if old_real_size <? real_size then
      let old_size := old_real_size ⊟ 8 in
      '(h, result) ← malloc limit sz h;
      if result =? 0 then Some (h, 0)
      else
        '(m, _) ← memcpy (h_mem h) result block_p (if old_size <? sz then old_size else sz);
        h ← free block_p (mkHeap m (h_end h));
        Some (h, result)
    else if 16 <=? old_real_size ⊟ real_size then
      let newblock := block ⊞ real_size in
      let h := set_word h block real_size in
      let h := set_word h newblock (old_real_size ⊟ real_size) in
      h ← free (newblock ⊞ 8) h;
      Some (h, block_p)
    else Some (h, block_p).

Definition calloc (limit n elem_size : Z) (h : heap) : option (heap * Z) :=
  let sz := n ⊠ elem_size in
  '(h, result) ← malloc limit sz h;
  if negb (result =? 0) then
    '(m, _) ← memset (h_mem h) result 0 sz; Some (mkHeap m (h_end h), result)
  else Some (h, result).

Definition cfree (p : Z) (h : heap) : option heap := free p h.

Definition malloc_usable_size (block_p : Z) (h : heap) : Z := size_of h (block_p ⊟ 8) ⊟ 8.

(** The fields of [struct mallinfo] that are set. *)
Record mallinfo_t := mkInfo {
  arena : Z; fordblks : Z; uordblks : Z; ordblks : Z; keepcost : Z }.

(** The loop over the free list: bytes, blocks, and [keepcost]. *)
Fixpoint mallinfo_loop (fuel : nat) (h : heap) (fr free_size free_blocks keep : Z)
    : option (Z * Z * Z) :=
  match fuel with
  | O => None
  | S fuel =>
      if fr =? 0 then Some (free_size, free_blocks, keep)
      else
        mallinfo_loop fuel h (next_of h fr) (free_size ⊞ size_of h fr) (free_blocks ⊞ 1)
          (if (next_of h fr =? 0) && (fr ⊞ size_of h fr =? h_end h) then size_of h fr else keep)
  end.

Definition mallinfo (h : heap) : option mallinfo_t :=
  '(free_size, free_blocks, keep) ←
    mallinfo_loop (list_fuel h) h (load64 (h_mem h) freelist) 0 0 0;
  let total_size := h_end h ⊟ start in
  Some (mkInfo total_size free_size (total_size ⊟ free_size) free_blocks keep).
End allocator.

#[local] Arguments load_le : simpl never.
#[local] Arguments store_le : simpl never.

(** ** The heap as a tiling by segments *)

(** A segment: is it free, and its size with the header.  The segments of a heap tile the
    space from [__malloc_start] to [__malloc_end]. *)
Abbreviation seg := (bool * Z)%type.

Definition tot (segs : list seg) : Z := fold_right (fun s n => s.2 + n) 0 segs.

Definition seg_ok (s : seg) : Prop := 16 <= s.2 /\ s.2 mod 8 = 0.

(** [chain m slot a segs]: the headers of the segments laid out from [a] on are in memory,
    and the free ones are linked in order from the word at [slot]. *)
Fixpoint chain (m : mem) (slot a : Z) (segs : list seg) : Prop :=
  match segs with
  | [] => True
  | (f, sz) :: segs =>
      load64 m a = sz /\
      (if f : bool then load64 m slot = a /\ chain m (a + 8) (a + sz) segs
       else chain m slot (a + sz) segs)
  end.

(** The word that links to the first free segment after [segs]. *)
Fixpoint last_slot (slot a : Z) (segs : list seg) : Z :=
  match segs with
  | [] => slot
  | (f, sz) :: segs => last_slot (if f : bool then a + 8 else slot) (a + sz) segs
  end.

(** The header words of the segments. *)
Fixpoint hdrs (a : Z) (segs : list seg) : list Z :=
  match segs with
  | [] => []
  | (f, sz) :: segs => (if f : bool then [a; a + 8] else [a]) ++ hdrs (a + sz) segs
  end.

(** [x] is a byte of an allocated block's payload. *)
Fixpoint payload (a : Z) (segs : list seg) (x : Z) : Prop :=
  match segs with
  | [] => False
  | (f, sz) :: segs => (f = false /\ a + 8 <= x < a + sz) \/ payload (a + sz) segs x
  end.

(** No two free segments are neighbours; [prev]: the segment before is free. *)
Fixpoint coalesced (prev : bool) (segs : list seg) : Prop :=
  match segs with
  | [] => True
  | (f, _) :: segs => prev && f = false /\ coalesced f segs
  end.

Fixpoint last_free (prev : bool) (segs : list seg) : bool :=
  match segs with [] => prev | (f, _) :: segs => last_free f segs end.

Lemma coalesced_app prev s1 s2 :
  coalesced prev (s1 ++ s2) <-> coalesced prev s1 /\ coalesced (last_free prev s1) s2.
Proof.
  revert prev. induction s1 as [|[f sz] s1 IH]; intros prev; simpl; [tauto|].
  rewrite IH. tauto.
Qed.

Lemma coalesced_weaken prev segs : coalesced prev segs -> coalesced false segs.
Proof. destruct segs as [|[f sz] segs]; simpl; tauto. Qed.

Lemma tot_app s1 s2 : tot (s1 ++ s2) = tot s1 + tot s2.
Proof. induction s1 as [|s s1 IH]; simpl; [done|]. lia. Qed.

Lemma tot_ok segs : Forall seg_ok segs -> 16 * Z.of_nat (length segs) <= tot segs /\ tot segs mod 8 = 0.
Proof.
  induction 1 as [|[f sz] segs [H1 H2] _ [IH1 IH2]]; [done|]. simpl in *. split; [lia|dlia].
Qed.

Lemma chain_app m slot a s1 s2 :
  chain m slot a (s1 ++ s2) <->
  chain m slot a s1 /\ chain m (last_slot slot a s1) (a + tot s1) s2.
Proof.
  revert slot a. induction s1 as [|[f sz] s1 IH]; intros slot a; simpl.
  - rewrite Z.add_0_r. tauto.
  - rewrite Z.add_assoc. destruct f; rewrite IH; tauto.
Qed.

Lemma last_slot_app slot a s1 s2 :
  last_slot slot a (s1 ++ s2) = last_slot (last_slot slot a s1) (a + tot s1) s2.
Proof.
  revert slot a. induction s1 as [|[f sz] s1 IH]; intros slot a; simpl.
  - by rewrite Z.add_0_r.
  - by rewrite IH, Z.add_assoc.
Qed.

Lemma hdrs_app a s1 s2 : hdrs a (s1 ++ s2) = hdrs a s1 ++ hdrs (a + tot s1) s2.
Proof.
  revert a. induction s1 as [|[f sz] s1 IH]; intros a; simpl; [by rewrite Z.add_0_r|].
  by rewrite IH, Z.add_assoc, app_assoc.
Qed.

Lemma payload_app a s1 s2 x :
  payload a (s1 ++ s2) x <-> payload a s1 x \/ payload (a + tot s1) s2 x.
Proof.
  revert a. induction s1 as [|[f sz] s1 IH]; intros a; simpl; [rewrite Z.add_0_r; tauto|].
  rewrite IH, Z.add_assoc. tauto.
Qed.

Lemma hdr_in (f : bool) (a w : Z) :
  w ∈ (if f then [a; a + 8] else [a]) <-> w = a \/ (f = true /\ w = a + 8).
Proof.
  destruct f; rewrite !list_elem_of_In; simpl; intuition congruence.
Qed.

Lemma hdrs_range a segs w :
  Forall seg_ok segs -> a mod 8 = 0 -> w ∈ hdrs a segs ->
  a <= w /\ w + 8 <= a + tot segs /\ w mod 8 = 0.
Proof.
  intros Hok. revert a. induction Hok as [|[f sz] segs [H1 H2] Hok IH]; intros a Ha; simpl.
  - by intros ?%elem_of_nil.
  - pose proof (tot_ok segs Hok) as [? _]. simpl in *.
    rewrite elem_of_app. intros [Hw|Hw].
    + apply hdr_in in Hw as [->|[_ ->]]; split_and!; lia || dlia.
    + apply IH in Hw; [lia|dlia].
Qed.

Lemma payload_range a segs x :
  Forall seg_ok segs -> payload a segs x -> a + 8 <= x < a + tot segs.
Proof.
  intros Hok. revert a. induction Hok as [|[f sz] segs [H1 H2] Hok IH]; intros a; simpl; [done|].
  pose proof (tot_ok segs Hok) as [? _]. simpl in *. intros [Hx|Hx%IH]; lia.
Qed.

(** The bytes of a header word are not payload. *)
Lemma hdrs_payload a segs w x :
  Forall seg_ok segs -> a mod 8 = 0 -> w ∈ hdrs a segs -> payload a segs x ->
  ~ (w <= x < w + 8).
Proof.
  intros Hok. revert a. induction Hok as [|[f sz] segs [H1 H2] Hok IH]; intros a Ha; simpl; [done|].
  rewrite elem_of_app. simpl in *. intros Hw Hx.
  assert ((a + sz) mod 8 = 0) as Ha' by dlia.
  destruct Hw as [Hw|Hw], Hx as [[-> Hx]|Hx].
  - apply (hdr_in false) in Hw as [->|[? _]]; [lia|done].
  - apply hdr_in in Hw. apply payload_range in Hx; [lia|done].
  - apply hdrs_range in Hw; [lia|done|done].
  - by apply (IH (a + sz)).
Qed.

Lemma last_slot_hdr slot a segs : last_slot slot a segs = slot \/ last_slot slot a segs ∈ hdrs a segs.
Proof.
  revert slot a. induction segs as [|[f sz] segs IH]; intros slot a; simpl; [tauto|].
  rewrite elem_of_app. destruct (IH (if f then a + 8 else slot) (a + sz)) as [->|]; [|tauto].
  destruct f; [right; left; apply (hdr_in true); tauto|tauto].
Qed.

(** Re-targeting the word that leads into a chain. *)
Lemma chain_slot m m' slot slot' a segs :
  (forall w, w ∈ hdrs a segs -> load64 m' w = load64 m w) ->
  load64 m' slot' = load64 m slot ->
  chain m slot a segs -> chain m' slot' a segs.
Proof.
  revert slot slot' a. induction segs as [|[f sz] segs IH]; intros slot slot' a Hw Hs; [done|].
  simpl in *. setoid_rewrite elem_of_app in Hw. setoid_rewrite hdr_in in Hw.
  intros [Ha Hc]. rewrite (Hw a) by tauto. split; [done|]. destruct f.
  - destruct Hc as [Hl Hc]. rewrite Hs. split; [done|].
    eapply (IH (a + 8)); [|apply Hw; tauto|done]. intros w Hin. apply Hw. tauto.
  - eapply (IH slot); [|done|done]. intros w Hin. apply Hw. tauto.
Qed.

(** Memory that agrees on the header words holds the same chain. *)
Lemma chain_ext m m' slot a segs :
  load64 m' slot = load64 m slot -> (forall w, w ∈ hdrs a segs -> load64 m' w = load64 m w) ->
  chain m slot a segs -> chain m' slot a segs.
Proof. intros Hs Hw. by apply chain_slot. Qed.

(** A chain is only changed by stores to its own words. *)
Lemma chain_store m slot a segs w v :
  Forall seg_ok segs -> slot mod 8 = 0 -> a mod 8 = 0 -> w mod 8 = 0 -> 0 <= v < 2 ^ 64 ->
  w <> slot -> (w < a \/ a + tot segs <= w) ->
  chain m slot a segs -> chain (store64 m w v) slot a segs.
Proof.
  intros Hok Hs Ha Hw Hv Hne Hout. apply chain_ext.
  - rewrite load64_store64 by done. by rewrite (proj2 (Z.eqb_neq w slot)).
  - intros w' Hin. apply hdrs_range in Hin; [|done..]. rewrite load64_store64 by (done || lia).
    rewrite (proj2 (Z.eqb_neq w w')) by lia. done.
Qed.

(** The content of the last link of a chain does not matter to it. *)
Lemma chain_ext_last m m' slot a segs :
  Forall seg_ok segs -> slot mod 8 = 0 -> a mod 8 = 0 -> slot + 8 <= a ->
  (forall w, w mod 8 = 0 -> w <> last_slot slot a segs -> w < a + tot segs ->
     load64 m' w = load64 m w) ->
  chain m slot a segs -> chain m' slot a segs.
Proof.
  intros Hok. revert slot a. induction Hok as [|[f sz] segs [H1 H2] Hok IH];
    intros slot a Hs Ha Hlt Hw; [done|]. simpl in *.
  assert ((a + sz) mod 8 = 0) as Ha' by dlia. pose proof (tot_ok segs Hok) as [? _].
  assert (forall w, w < a + 8 -> w <> slot \/ f = true -> w mod 8 = 0 -> load64 m' w = load64 m w) as Hlow.
  { intros w Hw1 Hw2 Hw3. apply Hw; [done| |lia]. intros E.
    destruct (last_slot_hdr (if f then a + 8 else slot) (a + sz) segs) as [Hl|Hl].
    - rewrite Hl in E. destruct f; [lia|]. by destruct Hw2.
    - rewrite <-E in Hl. apply hdrs_range in Hl; [lia|done|done]. }
  intros [Hh Hc]. split; [rewrite Hlow; [done|lia|lia|done]|].
  destruct f.
  - destruct Hc as [Hl Hc]. rewrite Hlow by (tauto || lia). split; [done|].
    apply IH; [dlia|done|lia| |done]. intros w ???. apply Hw; [done|done|lia].
  - apply IH; [done|done|lia| |done]. intros w ???. apply Hw; [done|done|lia].
Qed.

(** The last link of a chain entered by two different words. *)
Lemma last_slot_two slot slot' a segs :
  (last_slot slot a segs = slot /\ last_slot slot' a segs = slot') \/
  (last_slot slot a segs = last_slot slot' a segs /\ last_slot slot a segs ∈ hdrs a segs).
Proof.
  revert slot slot' a. induction segs as [|[f sz] segs IH]; intros slot slot' a; simpl; [tauto|].
  rewrite elem_of_app. destruct f.
  - right. split; [done|]. destruct (last_slot_hdr (a + 8) (a + sz) segs) as [->|]; [|tauto].
    left. apply (hdr_in true). tauto.
  - destruct (IH slot slot' (a + sz)) as [|[? ?]]; tauto.
Qed.

(** ** The heap invariant *)

Section heap.
Context (start freelist : Z).
Hypothesis Hstart : 0 < start /\ start mod 8 = 0.
Hypothesis Hfreelist : 0 <= freelist /\ freelist mod 8 = 0 /\ freelist + 8 <= start.

Record heap_inv (h : heap) (segs : list seg) : Prop := mkHeapInv {
  hi_wf : wf_mem (h_mem h);
  hi_ok : Forall seg_ok segs;
  hi_coalesced : coalesced false segs;
  hi_chain : chain (h_mem h) freelist start segs;
  hi_last : load64 (h_mem h) (last_slot freelist start segs) = 0;
  hi_end : h_end h = start + tot segs;
  hi_top : start + tot segs < 2 ^ 63 }.

(** The word at [last_slot] of a prefix: aligned, outside the rest, and no payload. *)
Lemma slot_facts pre (s := last_slot freelist start pre) :
  Forall seg_ok pre ->
  s mod 8 = 0 /\ 0 <= s /\ s + 8 <= start + tot pre /\
  (forall x, payload start pre x -> ~ (s <= x < s + 8)).
Proof.
  intros Hp. pose proof (tot_ok pre Hp) as [? _].
  pose proof (last_slot_hdr freelist start pre) as Hs. fold s in Hs.
  assert (s mod 8 = 0 /\ 0 <= s /\ s + 8 <= start + tot pre) as (? & ? & ?).
  { destruct Hs as [->|Hin]; [lia|]. apply hdrs_range in Hin; [|done|lia]. lia. }
  split_and!; try done. intros x Hx Hin. destruct Hs as [Hs|Hs].
  - apply payload_range in Hx; [|done]. lia.
  - by apply (hdrs_payload start pre s x) in Hx; try lia.
Qed.

(** Two memories that differ only in the link word [s] and in the bytes from [b] to [e]. *)
Definition differ_in (m m' : mem) (s b e : Z) : Prop :=
  forall x, ~ (s <= x < s + 8) -> ~ (b <= x < e) -> m' x = m x.

Lemma differ_word m m' s b e w :
  differ_in m m' s b e -> (w + 8 <= s \/ s + 8 <= w) -> (w + 8 <= b \/ e <= w) ->
  load64 m' w = load64 m w.
Proof. intros H ??. apply load_le_ext. change (Z.of_nat 8) with 8. intros i Hi. apply H; lia. Qed.

Lemma differ_store m m' s b e w v :
  differ_in m m' s b e -> w = s \/ (b <= w /\ w + 8 <= e) -> differ_in m (store64 m' w v) s b e.
Proof.
  intros H Hw x H1 H2. rewrite store_le_lookup. change (Z.of_nat 8) with 8.
  range_cases; [lia|]. by apply H.
Qed.

Lemma differ_refl m s b e : differ_in m m s b e.
Proof. by intros x. Qed.

(** Replacing the segments [mid] of a heap by [mid']: it suffices to look at the words of the
    replaced part, the word that links into it and the word that links out of it. *)
Lemma surgery h pre mid mid' post h' e
    (s := last_slot freelist start pre) (b := start + tot pre) :
  heap_inv h (pre ++ mid ++ post) -> wf_mem (h_mem h') ->
  Forall seg_ok mid' -> coalesced false (pre ++ mid' ++ post) ->
  differ_in (h_mem h) (h_mem h') s b e ->
  post = [] \/ (e <= b + tot mid /\ tot mid' = tot mid) ->
  chain (h_mem h') s b mid' ->
  load64 (h_mem h') (last_slot s b mid') = load64 (h_mem h) (last_slot s b mid) ->
  h_end h' = start + tot (pre ++ mid' ++ post) -> start + tot (pre ++ mid' ++ post) < 2 ^ 63 ->
  heap_inv h' (pre ++ mid' ++ post) /\
  (forall x, payload start pre x \/ payload (b + tot mid) post x -> h_mem h' x = h_mem h x).
Proof.
  intros I Hwf Hok' Hco Hd Hpost Hc' Hout He Htop.
  pose proof (hi_ok _ _ I) as Hok. rewrite !Forall_app in Hok. destruct Hok as (Hp & Hm & Hq).
  pose proof (hi_chain _ _ I) as Hc. rewrite !chain_app in Hc. destruct Hc as (Cp & Cm & Cq).
  pose proof (hi_last _ _ I) as Hl. rewrite !last_slot_app in Hl. fold s b in Hl, Cm, Cq.
  destruct (slot_facts pre Hp) as (S1 & S2 & S3 & S4). fold s b in S1, S2, S3, S4.
  pose proof (tot_ok pre Hp) as [? Pm]. pose proof (tot_ok mid Hm) as [? Mm].
  assert (forall w, w ∈ hdrs (b + tot mid) post -> load64 (h_mem h') w = load64 (h_mem h) w) as Hpw.
  { intros w Hw. destruct Hpost as [->|[? ?]]; [by apply elem_of_nil in Hw|].
    apply hdrs_range in Hw; [|done|unfold b; dlia]. eapply differ_word; [done|lia|lia]. }
  assert (post = [] \/ b + tot mid' = b + tot mid) as Hb by (destruct Hpost; [tauto|lia]).
  split.
  - constructor; try done.
    + rewrite !Forall_app. done.
    + rewrite !chain_app. fold s b. split_and!; [|done|].
      * eapply chain_ext_last; [done|lia|lia|lia| |done]. intros w W1 W2 W3. fold s in W2.
        eapply differ_word; [done|dlia|unfold b; dlia].
      * destruct Hb as [Hb|Hb]; [by subst post|]. rewrite Hb. eapply chain_slot; eauto.
    + rewrite !last_slot_app. fold s b. rewrite <-Hl.
      destruct Hb as [Hb|Hb]; [by subst post|]. rewrite Hb.
      destruct (last_slot_two (last_slot s b mid) (last_slot s b mid') (b + tot mid) post)
        as [(E1 & E2) | (E1 & Hin)].
      * by rewrite E1, E2.
      * rewrite <-E1. by apply Hpw.
  - intros x [Hx|Hx].
    + apply Hd; [by apply S4|]. apply payload_range in Hx; [unfold b; lia|done].
    + destruct Hpost as [->|[? ?]]; [done|]. apply payload_range in Hx; [|done]. apply Hd; lia.
Qed.

(** ** malloc *)

(** A free segment that is too small. *)
Definition unfit (real : Z) (s : seg) : Prop := s.1 = true -> s.2 < real.

(** The specification of an allocation: first fit, splitting a segment that is large enough
    for another header; else growing the last segment if it is free, else a new one.  The
    number is the offset of the block. *)
Inductive alloc (real : Z) : list seg -> Z -> list seg -> Prop :=
| alloc_exact pre sz post :
    Forall (unfit real) pre -> real <= sz < real + 16 ->
    alloc real (pre ++ [(true, sz)] ++ post) (tot pre) (pre ++ [(false, sz)] ++ post)
| alloc_split pre sz post :
    Forall (unfit real) pre -> real + 16 <= sz ->
    alloc real (pre ++ [(true, sz)] ++ post) (tot pre)
      (pre ++ [(false, real); (true, sz - real)] ++ post)
| alloc_grow pre sz :
    Forall (unfit real) (pre ++ [(true, sz)]) ->
    alloc real (pre ++ [(true, sz)]) (tot pre) (pre ++ [(false, real)])
| alloc_append segs :
    Forall (unfit real) segs -> alloc real segs (tot segs) (segs ++ [(false, real)]).

(** Read a word back through the stores before it. *)
Ltac words :=
  repeat (rewrite load64_store64 by
      (lia || dlia || match goal with H : forall w, 0 <= load64 _ w < _ |- _ => apply H end);
    match goal with
    | |- context [?a =? ?b] =>
        first [ rewrite (proj2 (Z.eqb_neq a b)) by lia | rewrite (proj2 (Z.eqb_eq a b)) by lia ]
    end).

Ltac differs := repeat (apply differ_store; [|lia]); apply differ_refl.

(** The geometry of a heap around the segment list [mid]. *)
Lemma inv_facts h pre mid post (s := last_slot freelist start pre) (b := start + tot pre) :
  heap_inv h (pre ++ mid ++ post) ->
  (s mod 8 = 0 /\ 0 <= s /\ s + 8 <= b) /\ (0 < b /\ b mod 8 = 0) /\
  b + tot mid + tot post < 2 ^ 63 /\ h_end h = b + tot mid + tot post /\ 0 <= tot post /\
  (forall w, 0 <= load64 (h_mem h) w < 2 ^ 64) /\
  chain (h_mem h) s b mid /\ Forall seg_ok mid /\
  coalesced false pre /\ coalesced (last_free false pre) (mid ++ post).
Proof.
  intros I. pose proof (hi_ok _ _ I) as Hok. rewrite !Forall_app in Hok. destruct Hok as (Hp & Hm & Hq).
  pose proof (hi_chain _ _ I) as Hc. rewrite !chain_app in Hc. destruct Hc as (Cp & Cm & Cq).
  pose proof (hi_coalesced _ _ I) as Hco. rewrite coalesced_app in Hco.
  destruct (slot_facts pre Hp) as (S1 & S2 & S3 & _).
  pose proof (tot_ok pre Hp) as [? Pm]. pose proof (tot_ok post Hq) as [? _].
  pose proof (hi_top _ _ I) as Ht. pose proof (hi_end _ _ I) as He. rewrite !tot_app in Ht, He.
  assert (forall w, 0 <= load64 (h_mem h) w < 2 ^ 64) by
    (intros w; apply (load_le_range 8 (h_mem h) w), (hi_wf _ _ I)).
  split_and!; try done; unfold b; try lia; try dlia; try tauto.
Qed.

Lemma malloc_exact h pre sz post real :
  heap_inv h (pre ++ [(true, sz)] ++ post) -> real <= sz < real + 16 ->
  let h' := set_word h (last_slot freelist start pre) (next_of h (start + tot pre)) in
  heap_inv h' (pre ++ [(false, sz)] ++ post) /\
  (forall x, payload start (pre ++ [(true, sz)] ++ post) x -> h_mem h' x = h_mem h x).
Proof.
  intros I Hr h'. destruct (inv_facts _ _ _ _ I) as (S & B & T & E & Q & L & C & O & Co & Co').
  set (b := start + tot pre) in *. apply Forall_singleton in O as [O1 O2]. cbn [chain tot fold_right fst snd] in *.
  destruct C as (C1 & C2 & _). unfold h', set_word, next_of in *.
  rewrite (wrapU_small 64 (b + 8)) by lia.
  edestruct (surgery h pre [(true, sz)] [(false, sz)] post) with (e := b)
    (h' := mkHeap (store64 (h_mem h) (last_slot freelist start pre) (load64 (h_mem h) (b + 8))) (h_end h))
    as [I' K]; cbn [h_mem h_end]; try done.
  - apply wf_store_le, I.
  - by repeat constructor.
  - rewrite coalesced_app. split; [done|]. simpl in *. rewrite andb_false_r.
    split; [done|]. eapply coalesced_weaken, Co'.
  - differs.
  - right. simpl. lia.
  - simpl. fold b. words. done.
  - simpl. fold b. words. done.
  - rewrite !tot_app. simpl. lia.
  - rewrite !tot_app. simpl. lia.
  - split; [exact I'|]. intros x Hx. apply K. rewrite !payload_app in Hx. simpl in *. fold b in Hx |- *.
    destruct Hx as [?|[[[? _]|[]]|?]]; [tauto|done|]. right. by rewrite Z.add_0_r in *.
Qed.

(** The sums and the payload of a heap with one replaced part. *)
Ltac sums := rewrite ?tot_app in *; cbn [tot fold_right snd app] in *; lia.

Lemma payload_mid pre mid post x (a := start) :
  (forall b, ~ payload b mid x) -> payload a (pre ++ mid ++ post) x ->
  payload a pre x \/ payload (a + tot pre + tot mid) post x.
Proof. intros Hm. rewrite !payload_app. specialize (Hm (a + tot pre)). tauto. Qed.

Lemma no_payload_free sz x b : ~ payload b [(true, sz)] x.
Proof. simpl. intros [[? _]|[]]. done. Qed.

Lemma malloc_split h pre sz post real (s := last_slot freelist start pre) (a := start + tot pre) :
  heap_inv h (pre ++ [(true, sz)] ++ post) -> 16 <= real -> real mod 8 = 0 -> real + 16 <= sz ->
  let h1 := set_word h s (a + real) in
  let h2 := set_word h1 (a + real) (sz - real) in
  let h3 := set_word h2 (a + real + 8) (load64 (h_mem h) (a + 8)) in
  let h4 := set_word h3 a real in
  heap_inv h4 (pre ++ [(false, real); (true, sz - real)] ++ post) /\
  (forall x, payload start (pre ++ [(true, sz)] ++ post) x -> h_mem h4 x = h_mem h x).
Proof.
  intros I H1 H2 H3. destruct (inv_facts _ _ _ _ I) as (S & B & T & E & Q & L & C & O & Co & Co').
  unfold s, a. clear s a. set (s := last_slot freelist start pre) in *.
  set (b := start + tot pre) in *. apply Forall_singleton in O as [O1 O2].
  cbn [chain tot fold_right fst snd] in *. destruct C as (C1 & C2 & _). unfold set_word.
  cbn [h_mem h_end].
  edestruct (surgery h pre [(true, sz)] [(false, real); (true, sz - real)] post) with (e := b + sz)
    as [I' K]; [done|..|split; [exact I'|]]; cbn [h_mem h_end]; fold s b.
  - repeat apply wf_store_le. apply I.
  - repeat constructor; simpl; lia || dlia.
  - rewrite coalesced_app. split; [done|]. simpl in *. rewrite andb_false_r. tauto.
  - differs.
  - right. sums.
  - simpl. words. done.
  - simpl. words. done.
  - sums.
  - sums.
  - intros x Hx. apply K. fold b. eapply payload_mid in Hx; [done|]. exact (no_payload_free sz x).
Qed.

Lemma malloc_grow h pre sz real (s := last_slot freelist start pre) (a := start + tot pre) :
  heap_inv h (pre ++ [(true, sz)]) -> 16 <= real -> real mod 8 = 0 -> sz < real ->
  a + real < 2 ^ 63 ->
  let h' := mkHeap (store64 (store64 (h_mem h) s 0) a real) (a + real) in
  heap_inv h' (pre ++ [(false, real)]) /\
  (forall x, payload start (pre ++ [(true, sz)]) x -> h_mem h' x = h_mem h x).
Proof.
  intros I H1 H2 H3 H4. destruct (inv_facts h pre [(true, sz)] [] I) as (S & B & T & E & Q & L & C & O & Co & Co').
  unfold s, a in *. clear s a. set (s := last_slot freelist start pre) in *.
  set (b := start + tot pre) in *. apply Forall_singleton in O as [O1 O2].
  cbn [chain tot fold_right fst snd] in *. destruct C as (C1 & C2 & _).
  pose proof (hi_last _ _ I) as Hl. rewrite last_slot_app in Hl. fold s b in Hl. simpl in Hl.
  edestruct (surgery h pre [(true, sz)] [(false, real)] []) with (e := b + real)
    as [I' K]; [done|..|split; [exact I'|]]; cbn [h_mem h_end]; fold s b.
  - repeat apply wf_store_le. apply I.
  - repeat constructor; simpl; lia.
  - rewrite coalesced_app. split; [done|]. simpl in *. rewrite andb_false_r. tauto.
  - differs.
  - by left.
  - simpl. words. done.
  - simpl. words. done.
  - unfold b. sums.
  - unfold b in *. sums.
  - intros x Hx. apply K. fold b. rewrite <-(app_nil_r [_]) in Hx.
    eapply payload_mid in Hx; [done|]. exact (no_payload_free sz x).
Qed.

Lemma malloc_append h segs real (a := start + tot segs) :
  heap_inv h segs -> 16 <= real -> real mod 8 = 0 -> a + real < 2 ^ 63 ->
  let h' := mkHeap (store64 (h_mem h) a real) (a + real) in
  heap_inv h' (segs ++ [(false, real)]) /\
  (forall x, payload start segs x -> h_mem h' x = h_mem h x).
Proof.
  intros I0 H1 H2 H4. assert (heap_inv h (segs ++ [] ++ [])) as I by (by rewrite !app_nil_r).
  destruct (inv_facts h segs [] [] I) as (S & B & T & E & Q & L & C & O & Co & Co').
  unfold a in *. clear a. set (s := last_slot freelist start segs) in *.
  set (b := start + tot segs) in *.
  edestruct (surgery h segs [] [(false, real)] []) with (e := b + real)
    as [I' K]; [done|..|split; [exact I'|]]; cbn [h_mem h_end]; fold s b.
  - repeat apply wf_store_le. apply I.
  - repeat constructor; simpl; lia.
  - rewrite coalesced_app. split; [done|]. simpl in *. by rewrite andb_false_r.
  - differs.
  - by left.
  - simpl. words. done.
  - simpl. words. done.
  - unfold b. sums.
  - unfold b in *. sums.
  - intros x Hx. apply K. by left.
Qed.

Lemma can_alloc limit h n :
  0 <= h_end h -> h_end h + 32 <= limit < 2 ^ 63 ->
  CAN_ALLOC_P limit h n = (n <=? limit - h_end h - 32).
Proof.
  intros. unfold CAN_ALLOC_P, MALLOC_MINIMUM_GAP. 
  rewrite (wrapU_small 64 (limit - h_end h)) by lia. by rewrite wrapU_small by lia.
Qed.

(** The size of the last segment, if it is free: it can be enlarged. *)
Definition tail_free (segs : list seg) : Z := match last segs with Some (true, sz) => sz | _ => 0 end.

(** No free segment is large enough, and the space up to the stack limit does not suffice, not even
    with the free segment below it. *)
Definition no_room (limit real : Z) (h : heap) (segs : list seg) : Prop :=
  Forall (unfit real) segs /\ limit - h_end h - 32 < real - tail_free segs.

(** What a call of [malloc] leaves: NULL and an unchanged heap when there is no room, else an
    allocation of the specification. *)
Definition malloc_post (limit real : Z) (h : heap) (segs : list seg) (r : heap * Z) : Prop :=
  (r = (h, 0) /\ no_room limit real h segs) \/
  exists off segs',
    r.2 = start + off + 8 /\ alloc real segs off segs' /\ heap_inv r.1 segs' /\
    h_end r.1 + 32 <= Z.max limit (h_end h + 32) /\
    (forall x, payload start segs x -> h_mem r.1 x = h_mem h x).

Lemma unfit_snoc real pre s :
  Forall (unfit real) pre -> unfit real s -> Forall (unfit real) (pre ++ [s]).
Proof. intros. apply Forall_app. split; [done|]. by apply Forall_singleton. Qed.

Section malloc_loop.
Context (limit real : Z) (h : heap).
Hypothesis Hlimit : h_end h + 32 <= limit < 2 ^ 63.
Hypothesis Hreal : 16 <= real < 2 ^ 63 /\ real mod 8 = 0.

(** The free segment after [pre], as the code sees it. *)
Lemma malloc_at_free pre sz post fuel (b := start + tot pre) :
  heap_inv h (pre ++ [(true, sz)] ++ post) -> Forall (unfit real) pre ->
  (sz < real -> post <> [] ->
   exists r, malloc_from fuel limit real (b + 8) h = Some r /\
     malloc_post limit real h (pre ++ [(true, sz)] ++ post) r) ->
  exists r, malloc_from (S fuel) limit real (last_slot freelist start pre) h = Some r /\
    malloc_post limit real h (pre ++ [(true, sz)] ++ post) r.
Proof.
  intros I Hu IH. destruct (inv_facts _ _ _ _ I) as (S & B & T & E & Q & L & C & O & Co & Co').
  apply Forall_singleton in O as [O1 O2]. cbn [chain tot fold_right fst snd] in *.
  destruct C as (C1 & C2 & _). fold b in C1, C2, T, E, B.
  cbn [malloc_from]. rewrite C2, (proj2 (Z.eqb_neq b 0)) by lia. unfold size_of, next_of.
  rewrite C1, !(wrapU_small 64 (b + 8)), (wrapU_small 64 (real + 16)) by lia.
  destruct (Z.leb_spec real sz) as [Hfit|Hfit].
  - destruct (Z.ltb_spec sz (real + 16)) as [Hx|Hx].
    + destruct (malloc_exact h pre sz post real I ltac:(lia)) as [I' K].
      unfold next_of in *. fold b in I', K. rewrite (wrapU_small 64 (b + 8)) in * by lia.
      eexists. split; [done|]. right. exists (tot pre), (pre ++ [(false, sz)] ++ post). cbn [fst snd].
      split_and!; try done; [by constructor|simpl; lia].
    + destruct (malloc_split h pre sz post real I) as [I' K]; [lia|lia|lia|].
      fold b in I', K. unfold malloc_done. rewrite !wrapU_small by lia.
      eexists. split; [done|]. right. eexists (tot pre), _.
      split_and!; try done; [by constructor|simpl; lia].
  - rewrite (wrapU_small 64 (b + sz)) by lia. rewrite (wrapU_small 64 (real - sz)) by lia.
    destruct (Z.eqb_spec (h_end h) (b + sz)) as [He|He].
    + assert (post = []) as ->.
      { pose proof (hi_ok _ _ I) as Hok. rewrite !Forall_app in Hok. destruct Hok as (_ & _ & Hq).
        destruct (tot_ok post Hq) as [? _]. destruct post; [done|]. simpl in *. lia. }
      pose proof (hi_last _ _ I) as Hl. rewrite app_nil_r, last_slot_app in Hl. fold b in Hl.
      simpl in Hl. rewrite Hl. cbn [Z.eqb andb]. rewrite can_alloc by lia.
      destruct (Z.leb_spec (real - sz) (limit - h_end h - 32)) as [Hc|Hc]; cbn [negb].
      * destruct (malloc_grow h pre sz real I) as [I' K]; [lia|lia|lia|fold b; lia|].
        fold b in I', K. unfold malloc_done, set_word. rewrite !wrapU_small by lia.
        eexists. split; [done|]. right. eexists (tot pre), _. cbn [fst snd].
        split_and!; try done; [|cbn [h_end]; lia].
        apply (alloc_grow real pre sz). apply unfit_snoc; [done|]. intros _. simpl. lia.
      * eexists. split; [done|]. left. split; [done|]. rewrite app_nil_r. split.
        -- apply unfit_snoc; [done|]. intros _. simpl. lia.
        -- unfold tail_free. rewrite last_snoc. lia.
    + rewrite andb_false_r. apply IH; [lia|]. intros ->. simpl in *. lia.
Qed.

Lemma malloc_from_ok post : forall pre fuel,
  heap_inv h (pre ++ post) -> Forall (unfit real) pre -> (post = [] -> tail_free pre = 0) -> (length post < fuel)%nat ->
  exists r, malloc_from fuel limit real (last_slot freelist start pre) h = Some r /\
    malloc_post limit real h (pre ++ post) r.
Proof.
  induction post as [|[[] sz] post IH]; intros pre [|fuel] I Hu Ht Hf; simpl in Hf; try lia.
  - rewrite app_nil_r in *.
    destruct (inv_facts h pre [] []) as (S & B & T & E & Q & L & C & O & Co & Co');
      [by rewrite !app_nil_r|]. cbn [malloc_from].
    rewrite (hi_last _ _ I). cbn [Z.eqb]. rewrite can_alloc by lia. simpl in *.
    destruct (Z.leb_spec real (limit - h_end h - 32)) as [Hc|Hc]; cbn [negb].
    + destruct (malloc_append h pre real I) as [I' K]; [lia|lia|lia|].
      unfold malloc_done, set_word. rewrite !wrapU_small by lia. cbn [h_mem h_end].
      replace (h_end h) with (start + tot pre) by lia. eexists. split; [done|].
      right. eexists (tot pre), _. split_and!; try done; [by constructor|cbn [fst h_end]; lia].
    + eexists. split; [done|]. left. split; [done|]. split; [done|]. rewrite Ht by done. lia.
  - apply malloc_at_free; [done..|]. intros Hs Hp.
    destruct (IH (pre ++ [(true, sz)]) fuel) as (r & E & P).
    + by rewrite <-app_assoc.
    + apply unfit_snoc; [done|]. by intros _.
    + done.
    + lia.
    + rewrite last_slot_app in E. simpl in E. rewrite <-app_assoc in P. eauto.
  - destruct (IH (pre ++ [(false, sz)]) (S fuel)) as (r & E & P).
    + by rewrite <-app_assoc.
    + by apply unfit_snoc.
    + intros _. unfold tail_free. by rewrite last_snoc.
    + lia.
    + rewrite last_slot_app in E. simpl in E. rewrite <-app_assoc in P. eauto.
Qed.
End malloc_loop.

Lemma fuel_enough h segs : heap_inv h segs -> (length segs < list_fuel start h)%nat.
Proof.
  intros I. destruct (tot_ok segs (hi_ok _ _ I)). unfold list_fuel.
  rewrite (hi_end _ _ I). lia.
Qed.

Lemma M_ALIGN_8 x : M_ALIGN x 8 = (- x) mod 8.
Proof.
  unfold M_ALIGN. rewrite (land_pow2_mask _ 3) by lia. unfold wrapU.
  change (2 ^ 3) with 8. apply Z.mod_mod_divide. by exists (2 ^ 61).
Qed.

Lemma REAL_SIZE_ok sz :
  0 <= sz <= 2 ^ 62 ->
  16 <= REAL_SIZE sz < 2 ^ 63 /\ REAL_SIZE sz mod 8 = 0 /\ sz + 8 <= REAL_SIZE sz <= sz + 16.
Proof.
  intros H. unfold REAL_SIZE. destruct (Z.ltb_spec sz (16 - 8)); [split_and!; done || lia|].
  rewrite M_ALIGN_8, (wrapU_small 64 (sz + 8)) by lia.
  rewrite wrapU_small by dlia. split_and!; dlia.
Qed.

Lemma malloc_spec limit sz h segs :
  heap_inv h segs -> h_end h + 32 <= limit < 2 ^ 63 -> 0 <= sz <= 2 ^ 62 ->
  exists r, malloc start freelist limit sz h = Some r /\
    malloc_post limit (REAL_SIZE sz) h segs r.
Proof.
  intros I Hl Hs. destruct (REAL_SIZE_ok sz Hs) as (R1 & R2 & R3).
  apply (malloc_from_ok limit (REAL_SIZE sz) h Hl (conj R1 R2) segs [] (list_fuel start h));
    [done|constructor|done|by apply fuel_enough].
Qed.

(** An allocation that stays below the limit had room. *)
Lemma alloc_room limit real h segs off segs' h' :
  heap_inv h segs -> alloc real segs off segs' -> heap_inv h' segs' -> h_end h' + 32 <= limit ->
  ~ no_room limit real h segs.
Proof.
  intros I A I' Hl [Hu Hr]. rewrite (hi_end _ _ I) in Hr. rewrite (hi_end _ _ I') in Hl.
  destruct A as [pre sz post _ Hsz|pre sz post _ Hsz|pre sz _|segs _].
  - rewrite !Forall_app, Forall_singleton in Hu. destruct Hu as (_ & Hu & _). specialize (Hu eq_refl). simpl in Hu. lia.
  - rewrite !Forall_app, Forall_singleton in Hu. destruct Hu as (_ & Hu & _). specialize (Hu eq_refl). simpl in Hu. lia.
  - unfold tail_free in Hr. rewrite last_snoc in Hr. rewrite !tot_app in *. simpl in *. lia.
  - rewrite tot_app in Hl. simpl in Hl. assert (0 <= tail_free segs); [|lia]. unfold tail_free.
    destruct (last segs) as [[[] z]|] eqn:El; [|lia..]. apply last_Some in El as [pre ->].
    pose proof (hi_ok _ _ I) as Ho. rewrite Forall_app, Forall_singleton in Ho. destruct Ho as (_ & Ho & _). simpl in Ho. lia.
Qed.

(** ** free *)

(** The specification of a release: the block at the offset becomes free and is merged with
    its free neighbours. *)
Inductive release : list seg -> Z -> list seg -> Prop :=
| release_both pre t sz u post :
    release (pre ++ [(true, t); (false, sz); (true, u)] ++ post) (tot pre + t)
      (pre ++ [(true, t + sz + u)] ++ post)
| release_left pre t sz post :
    release (pre ++ [(true, t); (false, sz)] ++ post) (tot pre + t)
      (pre ++ [(true, t + sz)] ++ post)
| release_right pre sz u post :
    release (pre ++ [(false, sz); (true, u)] ++ post) (tot pre)
      (pre ++ [(true, sz + u)] ++ post)
| release_alone pre sz post :
    release (pre ++ [(false, sz)] ++ post) (tot pre) (pre ++ [(true, sz)] ++ post).

Definition free_post (h : heap) (segs : list seg) (off sz : Z) (h' : heap) : Prop :=
  exists segs', release segs off segs' /\ heap_inv h' segs' /\ h_end h' = h_end h /\
    forall x, payload start segs x -> ~ (start + off <= x < start + off + sz) ->
      h_mem h' x = h_mem h x.

(** Where the link of a free list leads: to the first free segment after it, or to NULL. *)
Lemma first_free m slot a segs :
  chain m slot a segs -> load64 m (last_slot slot a segs) = 0 ->
  (load64 m slot = 0 /\ coalesced true segs) \/
  exists q1 u q2, segs = q1 ++ [(true, u)] ++ q2 /\ load64 m slot = a + tot q1 /\
    (q1 <> [] -> coalesced false segs -> coalesced true segs).
Proof.
  revert a. induction segs as [|[f sz] segs IH]; intros a; simpl; [tauto|].
  intros [Ha Hc] Hl. destruct f.
  - right. exists [], sz, segs. simpl. split_and!; [done|lia|done].
  - destruct (IH _ Hc Hl) as [[? ?]|(q1 & u & q2 & -> & E & Hq)].
    + left. split; [done|]. split; [done|]. by eapply coalesced_weaken.
    + right. exists ((false, sz) :: q1), u, q2. simpl. split_and!; [done|lia|done].
Qed.

Ltac surgery_tac h pre mid mid' post lim :=
  edestruct (surgery h pre mid mid' post) with (e := lim) as [I' K];
  [done|..|split_and!; [done|exact I'|done|]]; cbn [h_mem h_end].

Lemma free_alone h pre sz post (s := last_slot freelist start pre) (a := start + tot pre) :
  heap_inv h (pre ++ [(false, sz)] ++ post) -> last_free false pre = false ->
  coalesced true post ->
  free_post h (pre ++ [(false, sz)] ++ post) (tot pre) sz
    (set_word (set_word h (a + 8) (load64 (h_mem h) s)) s a).
Proof.
  intros I Hf Hp. destruct (inv_facts _ _ _ _ I) as (S & B & T & E & Q & L & C & O & Co & Co').
  unfold s, a in *. clear s a. set (s := last_slot freelist start pre) in *.
  set (b := start + tot pre) in *. apply Forall_singleton in O as [O1 O2].
  cbn [chain tot fold_right fst snd] in *. destruct C as (C1 & _). unfold set_word, free_post.
  pose proof (release_alone pre sz post) as R. exists (pre ++ [(true, sz)] ++ post).
  surgery_tac h pre [(false, sz)] [(true, sz)] post (b + sz); fold s b.
  - repeat apply wf_store_le. apply I.
  - repeat constructor; simpl; lia.
  - rewrite coalesced_app. split; [done|]. simpl. by rewrite Hf.
  - differs.
  - right. sums.
  - simpl. words. done.
  - simpl. words. done.
  - sums.
  - sums.
  - intros x Hx Hn. apply K. fold b. rewrite !payload_app in Hx. fold b in Hx. simpl in Hx |- *.
    rewrite Z.add_0_r in *. fold b in Hn. destruct Hx as [?|[[[_ ?]|[]]|?]]; [tauto|lia|tauto].
Qed.

Lemma free_right h pre sz u post (s := last_slot freelist start pre) (a := start + tot pre) :
  heap_inv h (pre ++ [(false, sz); (true, u)] ++ post) -> last_free false pre = false ->
  free_post h (pre ++ [(false, sz); (true, u)] ++ post) (tot pre) sz
    (set_word (set_word (set_word h a (sz + u)) (a + 8) (load64 (h_mem h) (a + sz + 8))) s a).
Proof.
  intros I Hf. destruct (inv_facts _ _ _ _ I) as (S & B & T & E & Q & L & C & O & Co & Co').
  unfold s, a in *. clear s a. set (s := last_slot freelist start pre) in *.
  set (b := start + tot pre) in *. rewrite !Forall_cons in O. destruct O as ([O1 O2] & [O3 O4] & _).
  cbn [chain tot fold_right fst snd] in *. destruct C as (C1 & C2 & C3 & _).
  unfold set_word, free_post.
  pose proof (release_right pre sz u post) as R. exists (pre ++ [(true, sz + u)] ++ post).
  surgery_tac h pre [(false, sz); (true, u)] [(true, sz + u)] post (b + sz + u); fold s b.
  - repeat apply wf_store_le. apply I.
  - repeat constructor; simpl; lia || dlia.
  - rewrite coalesced_app. split; [done|]. simpl in *. rewrite Hf. tauto.
  - differs.
  - right. sums.
  - simpl. words. done.
  - simpl. words. done.
  - sums.
  - sums.
  - intros x Hx Hn. apply K. fold b. rewrite !payload_app in Hx. fold b in Hx. simpl in Hx |- *.
    rewrite Z.add_0_r in *. fold b in Hn.
    destruct Hx as [?|[[[_ ?]|[[? _]|[]]]|?]]; [tauto|lia|done|tauto].
Qed.

Lemma free_left h pre t sz post (c := start + tot pre) :
  heap_inv h (pre ++ [(true, t); (false, sz)] ++ post) -> coalesced true post ->
  free_post h (pre ++ [(true, t); (false, sz)] ++ post) (tot pre + t) sz (set_word h c (t + sz)).
Proof.
  intros I Hp. destruct (inv_facts _ _ _ _ I) as (S & B & T & E & Q & L & C & O & Co & Co').
  unfold c in *. clear c. set (s := last_slot freelist start pre) in *.
  set (b := start + tot pre) in *. rewrite !Forall_cons in O. destruct O as ([O1 O2] & [O3 O4] & _).
  cbn [chain tot fold_right fst snd] in *. destruct C as (C1 & C2 & C3 & _).
  unfold set_word, free_post.
  pose proof (release_left pre t sz post) as R. exists (pre ++ [(true, t + sz)] ++ post).
  surgery_tac h pre [(true, t); (false, sz)] [(true, t + sz)] post (b + t + sz); fold s b.
  - repeat apply wf_store_le. apply I.
  - repeat constructor; simpl; lia || dlia.
  - rewrite coalesced_app. split; [done|]. simpl in *. tauto.
  - differs.
  - right. sums.
  - simpl. words. done.
  - simpl. words. done.
  - sums.
  - sums.
  - intros x Hx Hn. apply K. fold b. rewrite !payload_app in Hx. fold b in Hx. simpl in Hx |- *.
    rewrite !Z.add_0_r in *. rewrite !Z.add_assoc in *. fold b in Hn.
    destruct Hx as [?|[[[? _]|[[_ ?]|[]]]|?]]; [tauto|done|lia|tauto].
Qed.

Lemma free_both h pre t sz u post (c := start + tot pre) :
  heap_inv h (pre ++ [(true, t); (false, sz); (true, u)] ++ post) ->
  free_post h (pre ++ [(true, t); (false, sz); (true, u)] ++ post) (tot pre + t) sz
    (set_word (set_word (set_word h c (t + sz)) c (t + sz + u)) (c + 8)
       (load64 (h_mem h) (c + t + sz + 8))).
Proof.
  intros I. destruct (inv_facts _ _ _ _ I) as (S & B & T & E & Q & L & C & O & Co & Co').
  unfold c in *. clear c. set (s := last_slot freelist start pre) in *.
  set (b := start + tot pre) in *. rewrite !Forall_cons in O.
  destruct O as ([O1 O2] & [O3 O4] & [O5 O6] & _).
  cbn [chain tot fold_right fst snd] in *. destruct C as (C1 & C2 & C3 & C4 & C5 & _).
  unfold set_word, free_post.
  pose proof (release_both pre t sz u post) as R. exists (pre ++ [(true, t + sz + u)] ++ post).
  surgery_tac h pre [(true, t); (false, sz); (true, u)] [(true, t + sz + u)] post
    (b + t + sz + u); fold s b.
  - repeat apply wf_store_le. apply I.
  - repeat constructor; simpl; lia || dlia.
  - rewrite coalesced_app. split; [done|]. simpl in *. tauto.
  - differs.
  - right. sums.
  - simpl. words. done.
  - simpl. words. done.
  - sums.
  - sums.
  - intros x Hx Hn. apply K. fold b. rewrite !payload_app in Hx. fold b in Hx. simpl in Hx |- *.
    rewrite !Z.add_0_r in *. rewrite !Z.add_assoc in *. fold b in Hn.
    destruct Hx as [?|[[[? _]|[[_ ?]|[[? _]|[]]]]|?]]; [tauto|done|lia|done|tauto].
Qed.

(** Reading and writing a header in the loop of [free]. *)
Lemma set_word_read h w v x :
  w mod 8 = 0 -> x mod 8 = 0 -> 0 <= v < 2 ^ 64 ->
  load64 (h_mem (set_word h w v)) x = if w =? x then v else load64 (h_mem h) x.
Proof. apply load64_store64. Qed.

(** The search has passed every free segment before the block. *)
Lemma free_after h pre sz post fuel :
  heap_inv h (pre ++ [(false, sz)] ++ post) -> last_free false pre = false ->
  exists h', free_from (S fuel) (start + tot pre) (last_slot freelist start pre) h = Some h' /\
    free_post h (pre ++ [(false, sz)] ++ post) (tot pre) sz h'.
Proof.
  intros I Hf. destruct (inv_facts _ _ _ _ I) as (S & B & T & E & Q & L & C & O & Co & Co').
  apply Forall_singleton in O as [O1 O2]. cbn [chain tot fold_right fst snd] in *.
  destruct C as (C1 & _). pose proof (hi_chain _ _ I) as Hc. rewrite app_assoc, chain_app in Hc.
  destruct Hc as [_ Hc]. pose proof (hi_last _ _ I) as Hl. rewrite app_assoc, last_slot_app in Hl.
  rewrite last_slot_app, tot_app in Hc, Hl. cbn [last_slot tot fold_right snd] in Hc, Hl.
  rewrite Z.add_0_r, Z.add_assoc in Hc, Hl.
  pose proof (hi_ok _ _ I) as Hok. rewrite !Forall_app in Hok. destruct Hok as (_ & _ & Hq).
  cbn [free_from]. rewrite (wrapU_small 64 (start + tot pre + 8)) by lia.
  destruct (first_free _ _ _ _ Hc Hl) as [[E0 Hp]|(q1 & u & q2 & Eq & E1 & Hp)].
  - rewrite E0. cbn [Z.eqb]. eexists. split; [done|]. rewrite <-E0. by apply free_alone.
  - subst post. rewrite !Forall_app in Hq. destruct Hq as (Hq1 & Hu & Hq2).
    apply Forall_singleton in Hu as [U1 U2]. cbn [snd] in *.
    pose proof (tot_ok q1 Hq1) as [? _]. pose proof (tot_ok q2 Hq2) as [? _].
    rewrite chain_app in Hc. destruct Hc as [_ Hc]. cbn [chain app] in Hc. destruct Hc as (U3 & U4 & _).
    rewrite !tot_app in *. cbn [tot fold_right snd] in *. rewrite E1.
    unfold size_of at 1. rewrite U3, (proj2 (Z.eqb_neq _ 0)) by lia.
    rewrite (wrapU_small 64 (start + tot pre + sz + tot q1 + u)) by lia.
    rewrite (proj2 (Z.eqb_neq _ (start + tot pre))) by lia.
    unfold size_of. rewrite C1, (wrapU_small 64 (start + tot pre + sz)) by lia.
    destruct q1 as [|s1 q1].
    + simpl tot in *. rewrite Z.add_0_r in *. rewrite Z.eqb_refl. rewrite U3.
      unfold next_of. rewrite (wrapU_small 64 (sz + u)), (wrapU_small 64 (start + tot pre + sz + 8)) by lia.
      rewrite set_word_read by (lia || dlia). rewrite (proj2 (Z.eqb_neq _ (_ + sz + 8))) by lia.
      eexists. split; [done|]. by apply (free_right h pre sz u q2).
    + simpl length in *. rewrite (proj2 (Z.eqb_neq _ (start + tot pre + sz))) by lia.
      rewrite (proj2 (Z.ltb_lt _ _)) by lia. eexists. split; [done|]. rewrite <-E1.
      apply free_alone; [done..|]. apply Hp; [done|]. simpl in Co'. tauto.
Qed.

(** The block just after a free segment. *)
Lemma free_merge h pre t sz post fuel :
  heap_inv h (pre ++ [(true, t); (false, sz)] ++ post) ->
  exists h', free_from (S fuel) (start + tot pre + t) (last_slot freelist start pre) h = Some h' /\
    free_post h (pre ++ [(true, t); (false, sz)] ++ post) (tot pre + t) sz h'.
Proof.
  intros I. destruct (inv_facts _ _ _ _ I) as (S & B & T & E & Q & L & C & O & Co & Co').
  rewrite !Forall_cons in O. destruct O as ([O1 O2] & [O3 O4] & _).
  cbn [chain tot fold_right fst snd] in *. destruct C as (C1 & C2 & C3 & _).
  pose proof (hi_chain _ _ I) as Hc. rewrite app_assoc, chain_app in Hc.
  destruct Hc as [_ Hc]. pose proof (hi_last _ _ I) as Hl. rewrite app_assoc, last_slot_app in Hl.
  rewrite last_slot_app, tot_app in Hc, Hl. cbn [last_slot tot fold_right snd] in Hc, Hl.
  rewrite Z.add_0_r, !Z.add_assoc in Hc, Hl. revert B T E C1 C2 C3 Hc Hl S.
  set (c := start + tot pre). intros B T E C1 C2 C3 Hc Hl S.
  cbn [free_from]. unfold size_of, next_of.
  rewrite C2, C1, C3, (proj2 (Z.eqb_neq c 0)), (wrapU_small 64 (c + t)), Z.eqb_refl by lia.
  rewrite (wrapU_small 64 (t + sz)), !(wrapU_small 64 (c + 8)) by lia.
  rewrite !(set_word_read h c) by (lia || dlia || apply L).
  rewrite (proj2 (Z.eqb_neq c (c + 8))), (proj2 (Z.eqb_neq c (c + t))), C3 by lia.
  rewrite (wrapU_small 64 (c + t + sz)) by lia.
  destruct (first_free _ _ _ _ Hc Hl) as [[E0 Hp]|(q1 & u & q2 & Eq & E1 & Hp)].
  - rewrite E0. cbn [Z.eqb negb andb]. eexists. split; [done|]. by apply free_left.
  - rewrite E1. pose proof (hi_ok _ _ I) as Hok. rewrite Eq, !Forall_app in Hok.
    destruct Hok as (_ & _ & Hq1 & Hu & Hq2). apply Forall_singleton in Hu as [U1 U2]. cbn [snd] in *.
    pose proof (tot_ok q1 Hq1) as [? _]. pose proof (tot_ok q2 Hq2) as [? _].
    rewrite Eq, chain_app in Hc. destruct Hc as [_ Hc]. cbn [chain app] in Hc.
    destruct Hc as (U3 & U4 & _). rewrite Eq, !tot_app in T, E. cbn [tot fold_right snd] in T, E.
    rewrite (proj2 (Z.eqb_neq _ 0)) by lia. cbn [negb andb].
    destruct q1 as [|s1 q1].
    + simpl tot in *. rewrite Z.add_0_r in *. rewrite Z.eqb_refl. subst post.
      rewrite !(set_word_read h c) by (lia || dlia).
      rewrite Z.eqb_refl, (proj2 (Z.eqb_neq c (c + t + sz))), U3 by lia.
      rewrite (wrapU_small 64 (t + sz + u)), (wrapU_small 64 (c + t + sz + 8)) by lia.
      rewrite !set_word_read by (lia || dlia).
      rewrite (proj2 (Z.eqb_neq c (c + t + sz + 8))) by lia.
      eexists. split; [done|]. by apply (free_both h pre t sz u q2).
    + simpl length in *. rewrite (proj2 (Z.eqb_neq (c + t + sz) _)) by lia.
      eexists. split; [done|]. apply free_left; [done|]. apply Hp; [done|]. simpl in Co'. tauto.
Qed.

(** A free segment that is neither neighbour of the block is passed over. *)
Lemma free_skip h p1 t mid sz post fuel (b := start + tot p1 + t + tot mid) :
  heap_inv h (p1 ++ [(true, t)] ++ mid ++ [(false, sz)] ++ post) -> mid <> [] ->
  free_from (S fuel) b (last_slot freelist start p1) h =
  free_from fuel b (start + tot p1 + 8) h.
Proof.
  intros I Hm. destruct (inv_facts _ _ _ _ I) as (S & B & T & E & Q & L & C & O & _ & _).
  apply Forall_singleton in O as [O1 O2]. cbn [chain snd] in *. destruct C as (C1 & C2 & _).
  pose proof (hi_ok _ _ I) as Hok. rewrite !Forall_app in Hok.
  destruct Hok as (_ & _ & Hmid & Hsz & Hpost).
  destruct (tot_ok _ Hmid) as [Hm1 _]. destruct (tot_ok _ Hpost) as [Hp1 _].
  assert (length mid <> 0)%nat by (destruct mid; simpl; congruence).
  apply Forall_singleton in Hsz as [Z1 Z2]. pose proof (hi_chain _ _ I) as Hc.
  rewrite !chain_app in Hc. destruct Hc as (_ & _ & _ & Hc & _). cbn [chain] in Hc.
  destruct Hc as [Hc _]. rewrite !tot_app in *. cbn [tot fold_right snd] in *.
  fold (tot mid) (tot post) in *. replace (start + tot p1 + (t + 0) + tot mid) with b in Hc by lia.
  assert (b = start + tot p1 + t + tot mid) as Eb by done. clearbody b. cbn [free_from].
  unfold size_of. rewrite C2, C1, Hc.
  rewrite (proj2 (Z.eqb_neq (start + tot p1) 0)), !(wrapU_small 64 (_ + t)) by lia.
  rewrite !(wrapU_small 64 (b + sz)), !(wrapU_small 64 (start + tot p1 + 8)) by lia.
  rewrite (proj2 (Z.eqb_neq (start + tot p1 + t) _)) by lia.
  rewrite (proj2 (Z.eqb_neq (start + tot p1) _)) by lia.
  by rewrite (proj2 (Z.ltb_ge _ (start + tot p1))) by lia.
Qed.

Lemma last_free_snoc prev segs f sz : last_free prev (segs ++ [(f, sz)]) = f.
Proof. revert prev. induction segs as [|[g x] segs IH]; intros prev; simpl; [done|apply IH]. Qed.

Lemma free_from_ok h sz post p2 : forall p1 fuel,
  heap_inv h (p1 ++ p2 ++ [(false, sz)] ++ post) -> (p2 = [] -> last_free false p1 = false) ->
  (length p2 < fuel)%nat ->
  exists h', free_from fuel (start + tot (p1 ++ p2)) (last_slot freelist start p1) h = Some h' /\
    free_post h (p1 ++ p2 ++ [(false, sz)] ++ post) (tot (p1 ++ p2)) sz h'.
Proof.
  induction p2 as [|[f t] p2 IH]; intros p1 fuel I Hf Hn.
  - destruct fuel as [|fuel]; [simpl in Hn; lia|]. rewrite app_nil_r. apply free_after; auto.
  - assert (p1 ++ ((f, t) :: p2) ++ [(false, sz)] ++ post
      = (p1 ++ [(f, t)]) ++ p2 ++ [(false, sz)] ++ post) as Es by (by rewrite <-app_assoc).
    assert (p1 ++ (f, t) :: p2 = (p1 ++ [(f, t)]) ++ p2) as Ep by (by rewrite <-app_assoc).
    simpl in Hn. destruct f.
    + destruct fuel as [|fuel]; [lia|]. destruct p2 as [|x p2].
      { rewrite tot_app. simpl tot. rewrite Z.add_0_r, Z.add_assoc.
        by apply (free_merge h p1 t sz post fuel). }
      destruct (IH (p1 ++ [(true, t)]) fuel) as (h' & E & P); [by rewrite <-Es|done|simpl in *; lia|].
      exists h'. rewrite Es, Ep. split; [|done]. rewrite last_slot_app in E. cbn [last_slot] in E.
      rewrite <-E. replace (start + tot ((p1 ++ [(true, t)]) ++ x :: p2))
        with (start + tot p1 + t + tot (x :: p2)) by (rewrite !tot_app; simpl; lia).
      by apply (free_skip h p1 t (x :: p2) sz post).
    + destruct (IH (p1 ++ [(false, t)]) fuel) as (h' & E & P); [by rewrite <-Es| |lia|].
      * intros _. apply last_free_snoc.
      * exists h'. rewrite Es, Ep. split; [|done]. by rewrite last_slot_app in E.
Qed.

Lemma free_spec h pre sz post :
  heap_inv h (pre ++ [(false, sz)] ++ post) ->
  exists h', free start freelist (start + tot pre + 8) h = Some h' /\
    free_post h (pre ++ [(false, sz)] ++ post) (tot pre) sz h'.
Proof.
  intros I. destruct (inv_facts _ _ _ _ I) as (S & B & T & E & Q & L & C & O & _ & _).
  apply Forall_singleton in O as [O1 O2]. cbn [tot fold_right snd] in *.
  unfold free. rewrite (proj2 (Z.eqb_neq _ 0)), wrapU_small by lia.
  replace (start + tot pre + 8 - 8) with (start + tot pre) by lia.
  apply (free_from_ok h sz post pre [] (list_fuel start h)); [done|done|].
  pose proof (fuel_enough _ _ I) as Hl. rewrite length_app in Hl. simpl in Hl. lia.
Qed.

(** ** Allocated blocks by offset *)

Fixpoint block_at (segs : list seg) (off sz : Z) : Prop :=
  match segs with
  | [] => False
  | (f, s) :: segs => (f = false /\ off = 0 /\ s = sz) \/ block_at segs (off - s) sz
  end.

Lemma block_at_app s1 s2 off sz :
  block_at (s1 ++ s2) off sz <-> block_at s1 off sz \/ block_at s2 (off - tot s1) sz.
Proof.
  revert off. induction s1 as [|[f s] s1 IH]; intros off; simpl.
  - rewrite Z.sub_0_r. tauto.
  - rewrite IH. replace (off - s - tot s1) with (off - (s + tot s1)) by lia. tauto.
Qed.

Lemma block_at_split segs off sz :
  block_at segs off sz ->
  exists pre post, segs = pre ++ [(false, sz)] ++ post /\ tot pre = off.
Proof.
  revert off. induction segs as [|[f s] segs IH]; intros off; simpl; [done|].
  intros [(-> & -> & ->)|H].
  - by exists [], segs.
  - destruct (IH _ H) as (pre & post & -> & E). exists ((f, s) :: pre), post. simpl. split; [done|lia].
Qed.

Lemma block_at_payload segs off sz a x :
  block_at segs off sz -> a + off + 8 <= x < a + off + sz -> payload a segs x.
Proof.
  revert off a. induction segs as [|[f s] segs IH]; intros off a; simpl; [done|].
  intros [(-> & -> & ->)|H] Hx; [left; split; [done|lia]|]. right. apply (IH _ _ H). lia.
Qed.

(** The allocated block is new, and the others stay where they are. *)
Lemma alloc_block real segs off segs' :
  alloc real segs off segs' -> exists sz, real <= sz /\ block_at segs' off sz.
Proof.
  intros H. destruct H as [pre sz post|pre sz post|pre sz|segs];
    [exists sz|exists real|exists real|exists real]; (split; [lia|]);
    rewrite ?block_at_app; simpl; rewrite ?Z.sub_diag; tauto.
Qed.

Lemma alloc_keeps real segs off segs' o sz :
  alloc real segs off segs' -> block_at segs o sz -> block_at segs' o sz.
Proof.
  intros H. destruct H as [pre z post|pre z post|pre z|segs]; rewrite ?block_at_app; simpl;
    [|replace (real + (z - real + 0)) with (z + 0) by lia| |tauto];
    intuition discriminate.
Qed.

(** The payload bytes between two offsets belong to the segments there. *)
Lemma payload_within pre mid post x :
  Forall seg_ok (pre ++ mid ++ post) -> start + tot pre <= x < start + tot pre + tot mid ->
  payload start (pre ++ mid ++ post) x -> payload (start + tot pre) mid x.
Proof.
  rewrite !Forall_app, !payload_app. intros (Hp & Hm & Hq) Hx [H|[H|H]]; [|done|];
    apply payload_range in H; done || lia.
Qed.

(** The new block lies in space that no block occupied. *)
Lemma alloc_fresh real segs off segs' x :
  Forall seg_ok segs -> alloc real segs off segs' ->
  start + off <= x < start + off + real -> ~ payload start segs x.
Proof.
  intros Hok H Hx Hp. destruct H as [pre z post|pre z post|pre z|segs].
  - apply payload_within in Hp; [|done|simpl; lia]. by apply no_payload_free in Hp.
  - apply payload_within in Hp; [|done|simpl; lia]. by apply no_payload_free in Hp.
  - destruct (Z.lt_ge_cases x (start + tot pre + z)).
    + apply (payload_within pre [(true, z)] [] x) in Hp; [|done|simpl; lia].
      by apply no_payload_free in Hp.
    + apply payload_range in Hp; [|done]. rewrite tot_app in Hp. simpl in Hp. lia.
  - apply payload_range in Hp; [lia|done].
Qed.

(** Writes inside allocated blocks are of no concern to the allocator. *)
Lemma inv_payload_write h segs m :
  heap_inv h segs -> wf_mem m -> (forall x, ~ payload start segs x -> m x = h_mem h x) ->
  heap_inv (mkHeap m (h_end h)) segs.
Proof.
  intros I Hm Hd. pose proof (hi_ok _ _ I) as Hok.
  assert (forall w, w = freelist \/ w ∈ hdrs start segs -> load64 m w = load64 (h_mem h) w) as Hw.
  { intros w Hw. apply load_le_ext. change (Z.of_nat 8) with 8. intros i Hi. apply Hd. intros Hx.
    destruct Hw as [->|Hw].
    - apply payload_range in Hx; [lia|done].
    - by apply (hdrs_payload start segs w (w + i)) in Hx; try lia. }
  destruct I; constructor; cbn [h_mem h_end]; try done.
  - eapply chain_ext; [|intros w ?|done]; auto.
  - rewrite Hw; [done|]. apply last_slot_hdr.
Qed.

(** Splitting an allocated block in two. *)
Lemma split_used h pre sz post real (a := start + tot pre) :
  heap_inv h (pre ++ [(false, sz)] ++ post) -> 16 <= real -> real mod 8 = 0 -> real + 16 <= sz ->
  let h' := set_word (set_word h a real) (a + real) (sz - real) in
  heap_inv h' ((pre ++ [(false, real)]) ++ [(false, sz - real)] ++ post) /\
  (forall x, payload start pre x \/ payload (a + sz) post x \/ a + 8 <= x < a + real ->
     h_mem h' x = h_mem h x).
Proof.
  intros I H1 H2 H3. destruct (inv_facts _ _ _ _ I) as (S & B & T & E & Q & L & C & O & Co & Co').
  unfold a. clear a. set (s := last_slot freelist start pre) in *.
  set (b := start + tot pre) in *. apply Forall_singleton in O as [O1 O2].
  cbn [chain tot fold_right fst snd] in *. destruct C as (C1 & _). unfold set_word.
  cbn [h_mem h_end]. rewrite <-app_assoc. cbn [app].
  edestruct (surgery h pre [(false, sz)] [(false, real); (false, sz - real)] post) with (e := b + sz)
    as [I' K]; [done|..|split; [exact I'|]]; cbn [h_mem h_end]; fold s b.
  - repeat apply wf_store_le. apply I.
  - repeat constructor; simpl; lia || dlia.
  - rewrite coalesced_app. split; [done|]. simpl in *. rewrite !andb_false_r in *. tauto.
  - differs.
  - right. sums.
  - simpl. words. done.
  - simpl. words. done.
  - sums.
  - sums.
  - fold b in K. simpl in K. rewrite Z.add_0_r in K. intros x [Hx|[Hx|Hx]]; [apply K; tauto..|].
    rewrite !store_le_lookup. change (Z.of_nat 8) with 8. range_cases; lia || done.
Qed.

Lemma block_range segs o z :
  Forall seg_ok segs -> block_at segs o z -> 0 <= o /\ o + z <= tot segs /\ 16 <= z /\ o mod 8 = 0.
Proof.
  intros Hok. revert o. induction Hok as [|[f s] segs [H1 H2] Hok IH]; intros o; simpl in *; [done|].
  pose proof (tot_ok segs Hok) as [Ht _]. intros [(-> & -> & ->)|Hb]; [split_and!; done || lia|].
  apply IH in Hb. split_and!; try lia. dlia.
Qed.

Lemma blocks_disjoint segs o z o' z' :
  Forall seg_ok segs -> block_at segs o z -> block_at segs o' z' ->
  (o = o' /\ z = z') \/ o + z <= o' \/ o' + z' <= o.
Proof.
  intros Hok. revert o o'. induction Hok as [|[f s] segs [H1 H2] Hok IH]; intros o o'; simpl in *; [done|].
  intros [(-> & -> & ->)|H] [(E1 & -> & E3)|H'].
  - tauto.
  - apply block_range in H'; [lia|done].
  - apply block_range in H; [lia|done].
  - destruct (IH _ _ H H') as [?|[?|?]]; lia.
Qed.

Lemma release_keeps segs off segs' o z :
  release segs off segs' -> block_at segs o z -> o <> off -> block_at segs' o z.
Proof.
  intros H Hb Hne. destruct H as [pre t sz u post|pre t sz post|pre sz u post|pre sz post];
    rewrite !block_at_app in *; simpl in *;
    rewrite ?Z.add_0_r, ?Z.sub_add_distr, ?Z.sub_0_r in *;
    intuition (discriminate || lia).
Qed.

Lemma block_in_heap h segs off sz :
  heap_inv h segs -> block_at segs off sz ->
  0 <= off /\ start + off + sz <= h_end h /\ h_end h < 2 ^ 63 /\ 16 <= sz /\ off mod 8 = 0 /\
  size_of h (start + off) = sz.
Proof.
  intros I Hb. pose proof (block_range _ _ _ (hi_ok _ _ I) Hb).
  rewrite (hi_end _ _ I). pose proof (hi_top _ _ I).
  destruct (block_at_split _ _ _ Hb) as (pre & post & -> & <-).
  pose proof (hi_chain _ _ I) as Hc. rewrite !chain_app in Hc. destruct Hc as (_ & [Hc _] & _).
  split_and!; done || lia || tauto.
Qed.

(** A block other than the given one, and its bytes, survive. *)
Definition others_kept (h : heap) (segs : list seg) (off : Z) (h' : heap) (segs' : list seg) : Prop :=
  forall o z, block_at segs o z -> o <> off ->
    block_at segs' o z /\
    forall x, start + o + 8 <= x < start + o + z -> h_mem h' x = h_mem h x.

Lemma free_at h segs off sz :
  heap_inv h segs -> block_at segs off sz ->
  exists h' segs', free start freelist (start + off + 8) h = Some h' /\
    heap_inv h' segs' /\ release segs off segs' /\ h_end h' = h_end h /\
    others_kept h segs off h' segs'.
Proof.
  intros I Hb. destruct (block_at_split _ _ _ Hb) as (pre & post & -> & <-).
  destruct (free_spec h pre sz post I) as (h' & E & segs' & R & I' & He & K).
  exists h', segs'. split_and!; try done. intros o z Ho Hne.
  split; [by eapply release_keeps|]. intros x Hx. apply K; [by eapply block_at_payload|].
  pose proof (blocks_disjoint _ _ _ _ _ (hi_ok _ _ I) Ho Hb). lia.
Qed.

(** The heap after the copy of [realloc]: the new block holds the old contents. *)
Lemma realloc_copy h segs off osz off1 z n :
  heap_inv h segs -> block_at segs off osz -> block_at segs off1 z -> off <> off1 ->
  0 <= n <= osz - 8 -> n <= z - 8 ->
  exists m, memcpy (h_mem h) (start + off1 + 8) (start + off + 8) n = Some (m, start + off1 + 8) /\
    copied (h_mem h) (start + off1 + 8) (start + off + 8) n m /\
    heap_inv (mkHeap m (h_end h)) segs.
Proof.
  intros I Hb Hb1 Hne Hn1 Hn2.
  pose proof (block_in_heap _ _ _ _ I Hb) as (B1 & B2 & B3 & B4 & _).
  pose proof (block_in_heap _ _ _ _ I Hb1) as (D1 & D2 & D3 & D4 & _).
  pose proof (blocks_disjoint _ _ _ _ _ (hi_ok _ _ I) Hb Hb1) as Hd.
  edestruct (memcpy_spec (h_mem h) (start + off1 + 8) (start + off + 8) n) as (m & E & Hc & Hw);
    [apply I|lia..|unfold copy_safe; lia|].
  exists m. split_and!; try done. apply inv_payload_write; try done.
  intros x Hx. rewrite (Hc x). range_cases; [|done]. destruct Hx.
  apply (block_at_payload _ _ _ _ _ Hb1). lia.
Qed.

Lemma realloc_grow limit off osz sz h segs :
  heap_inv h segs -> block_at segs off osz -> h_end h + 32 <= limit < 2 ^ 63 ->
  0 <= sz <= 2 ^ 62 -> osz < REAL_SIZE sz ->
  exists h' q, realloc start freelist limit (start + off + 8) sz h = Some (h', q) /\
    ((q = 0 /\ h' = h) \/
     exists segs' z, heap_inv h' segs' /\ block_at segs' (q - 8 - start) z /\ sz + 8 <= z /\
       (forall i, 0 <= i < Z.min (osz - 8) sz -> h_mem h' (q + i) = h_mem h (start + off + 8 + i)) /\
       others_kept h segs off h' segs').
Proof.
  intros I Hb Hl Hs Ho. pose proof (block_in_heap _ _ _ _ I Hb) as (B1 & B2 & B3 & B4 & B5 & B6).
  destruct (REAL_SIZE_ok sz Hs) as (R1 & R2 & R3). unfold realloc.
  rewrite (proj2 (Z.eqb_neq _ 0)), wrapU_small by lia.
  replace (start + off + 8 - 8) with (start + off) by lia. rewrite B6.
  rewrite (proj2 (Z.ltb_lt _ _) Ho), (wrapU_small 64 (osz - 8)) by lia.
  destruct (malloc_spec limit sz h segs I Hl Hs) as ([h1 q] & -> & [[E _]|(off1 & segs1 & E & A & I1 & _ & K)]);
    cbn [mbind option_bind fst snd] in *.
  { injection E as -> ->. eexists h, 0. split; [done|]. by left. }
  subst q. destruct (alloc_block _ _ _ _ A) as (z & Hz & Hb1).
  pose proof (block_in_heap _ _ _ _ I1 Hb1) as (D1 & D2 & D3 & D4 & D5 & D6).
  pose proof (alloc_keeps _ _ _ _ _ _ A Hb) as Hb'.
  assert (off <> off1) as Hne.
  { intros ->. apply (alloc_fresh _ _ _ _ (start + off1 + 8) (hi_ok _ _ I) A); [lia|].
    apply (block_at_payload _ _ _ _ _ Hb). lia. }
  rewrite (proj2 (Z.eqb_neq _ 0)) by lia. set (n := if osz - 8 <? sz then osz - 8 else sz).
  assert (n = Z.min (osz - 8) sz) as En by (unfold n; split_cmp; lia). rewrite <-En. clearbody n.
  destruct (realloc_copy h1 segs1 off osz off1 z n I1 Hb' Hb1 Hne) as (m & -> & Hc & I2); [lia|lia|].
  cbn [mbind option_bind]. destruct (free_at _ _ _ _ I2 Hb') as (h' & segs' & -> & I' & R & He & K').
  cbn [mbind option_bind]. eexists h', _. split; [done|]. right. exists segs', z.
  replace (start + off1 + 8 - 8 - start) with off1 by lia.
  destruct (K' off1 z Hb1 ltac:(lia)) as [Kb Kx]. cbn [h_mem] in Kx.
  split_and!; try done; [lia| |].
  - intros i Hi. rewrite Kx, (Hc _) by lia. range_cases; [|lia].
    replace (start + off + 8 + (start + off1 + 8 + i - (start + off1 + 8))) with (start + off + 8 + i) by lia.
    apply K, (block_at_payload _ _ _ _ _ Hb). lia.
  - intros o z' Ho' Hne'. pose proof (alloc_keeps _ _ _ _ _ _ A Ho') as Ho1.
    destruct (K' o z' Ho1 Hne') as [? Kx']. split; [done|]. intros x Hx. rewrite Kx' by done.
    cbn [h_mem]. pose proof (blocks_disjoint _ _ _ _ _ (hi_ok _ _ I1) Ho1 Hb1) as Hd.
    assert (o <> off1).
    { intros ->. apply (alloc_fresh _ _ _ _ (start + off1 + 8) (hi_ok _ _ I) A); [lia|].
      apply (block_at_payload _ _ _ _ _ Ho'). pose proof (block_in_heap _ _ _ _ I Ho'). lia. }
    rewrite (Hc x). range_cases; [lia|]. apply K, (block_at_payload _ _ _ _ _ Ho'). lia.
Qed.

Lemma realloc_shrink limit off osz sz h segs :
  heap_inv h segs -> block_at segs off osz -> 0 <= sz <= 2 ^ 62 -> REAL_SIZE sz <= osz ->
  exists h' segs' z, realloc start freelist limit (start + off + 8) sz h = Some (h', start + off + 8) /\
    heap_inv h' segs' /\ block_at segs' off z /\ sz + 8 <= z /\
    (forall i, 0 <= i < sz -> h_mem h' (start + off + 8 + i) = h_mem h (start + off + 8 + i)) /\
    others_kept h segs off h' segs'.
Proof.
  intros I Hb Hs Ho. pose proof (block_in_heap _ _ _ _ I Hb) as (B1 & B2 & B3 & B4 & B5 & B6).
  destruct (REAL_SIZE_ok sz Hs) as (R1 & R2 & R3). unfold realloc.
  rewrite (proj2 (Z.eqb_neq _ 0)), wrapU_small by lia.
  replace (start + off + 8 - 8) with (start + off) by lia. rewrite B6.
  rewrite (proj2 (Z.ltb_ge _ _) Ho), (wrapU_small 64 (osz - REAL_SIZE sz)) by lia.
  destruct (Z.leb_spec 16 (osz - REAL_SIZE sz)) as [Hsplit|Hkeep].
  - rewrite (wrapU_small 64 (start + off + REAL_SIZE sz)) by lia.
    rewrite (wrapU_small 64 (_ + 8)) by lia.
    destruct (block_at_split _ _ _ Hb) as (pre & post & -> & <-).
    destruct (split_used h pre osz post (REAL_SIZE sz) I) as [I1 K1]; [lia|lia|lia|].
    set (h1 := set_word _ _ _) in *. set (segs1 := (pre ++ _) ++ _) in *.
    assert (block_at segs1 (tot pre) (REAL_SIZE sz)) as Hb1
      by (unfold segs1; rewrite !block_at_app, Z.sub_diag; simpl; tauto).
    assert (block_at segs1 (tot pre + REAL_SIZE sz) (osz - REAL_SIZE sz)) as Hb2.
    { unfold segs1. rewrite !block_at_app, tot_app. simpl. right. left. left. split_and!; lia. }
    destruct (free_at h1 segs1 _ _ I1 Hb2) as (h' & segs' & E & I' & _ & _ & K).
    rewrite Z.add_assoc in E. rewrite E. cbn [mbind option_bind].
    destruct (K _ _ Hb1 ltac:(lia)) as [Kb Kx].
    exists h', segs', (REAL_SIZE sz). split_and!; try done; [lia| |].
    + intros i Hi. rewrite Kx by lia. apply K1. lia.
    + intros o z Hoz Hne. pose proof (blocks_disjoint _ _ _ _ _ (hi_ok _ _ I) Hoz Hb) as Hd.
      pose proof (block_in_heap _ _ _ _ I Hoz) as (_ & _ & _ & Hz & _).
      assert (block_at pre o z \/ block_at post (o - tot pre - osz) z) as Hpp.
      { rewrite !block_at_app in Hoz. simpl in Hoz. rewrite Z.add_0_r in Hoz. intuition lia. }
      assert (block_at segs1 o z) as Hoz1.
      { unfold segs1. rewrite !block_at_app, tot_app. simpl.
        replace (o - (tot pre + (REAL_SIZE sz + 0)) - (osz - REAL_SIZE sz + 0))
          with (o - tot pre - osz) by lia. tauto. }
      destruct (K _ _ Hoz1 ltac:(lia)) as [? Kx']. split; [done|]. intros x Hx.
      rewrite Kx' by done. apply K1. destruct Hpp as [Hp|Hp].
      * left. by apply (block_at_payload _ _ _ _ _ Hp).
      * right. left. apply (block_at_payload _ _ _ _ _ Hp). lia.
  - exists h, segs, osz. split_and!; done || lia || by intros o z Hoz _.
Qed.

Lemma calloc_at limit n e h segs :
  heap_inv h segs -> h_end h + 32 <= limit < 2 ^ 63 -> 0 <= n -> 0 <= e -> n * e <= 2 ^ 62 ->
  exists h' p, calloc start freelist limit n e h = Some (h', p) /\
    ((p = 0 /\ h' = h) \/
     exists segs' z, heap_inv h' segs' /\ block_at segs' (p - 8 - start) z /\ n * e + 8 <= z /\
       (forall i, 0 <= i < n * e -> h_mem h' (p + i) = 0) /\ others_kept h segs (-1) h' segs').
Proof.
  intros I Hl Hn He Hs. assert (0 <= n * e) by nia. unfold calloc. rewrite wrapU_small by lia.
  destruct (REAL_SIZE_ok (n * e) ltac:(lia)) as (R1 & R2 & R3).
  destruct (malloc_spec limit (n * e) h segs I Hl ltac:(lia))
    as ([h1 p] & -> & [[E _]|(off & segs1 & E & A & I1 & _ & K)]); cbn [mbind option_bind fst snd] in *.
  { injection E as -> ->. eexists h, 0. split; [done|]. by left. }
  subst p. destruct (alloc_block _ _ _ _ A) as (z & Hz & Hb1).
  pose proof (block_in_heap _ _ _ _ I1 Hb1) as (D1 & D2 & D3 & D4 & D5 & D6).
  rewrite (proj2 (Z.eqb_neq _ 0)) by lia. cbn [negb].
  edestruct (memset_spec (h_mem h1) (start + off + 8) 0 (n * e)) as (m & -> & Hf & Hw);
    [apply I1|lia..|]. cbn [mbind option_bind].
  eexists _, _. split; [done|]. right. exists segs1, z.
  replace (start + off + 8 - 8 - start) with off by lia. split_and!; try done; [|lia| |].
  - apply inv_payload_write; try done. intros x Hx. rewrite (Hf x). range_cases; [|done].
    destruct Hx. apply (block_at_payload _ _ _ _ _ Hb1). lia.
  - intros i Hi. cbn [h_mem]. rewrite (Hf _). range_cases; [done|lia].
  - intros o z' Ho _. pose proof (alloc_keeps _ _ _ _ _ _ A Ho) as Ho1. split; [done|].
    intros x Hx. cbn [h_mem]. pose proof (block_at_payload _ _ _ start x Ho ltac:(lia)) as Hp.
    rewrite (Hf x). range_cases; [|by apply K].
    by destruct (alloc_fresh _ _ _ _ x (hi_ok _ _ I) A ltac:(lia)).
Qed.

(** ** mallinfo *)

Definition free_bytes (segs : list seg) : Z := tot (filter (fun s => s.1 = true) segs).
Definition free_count (segs : list seg) : Z := Z.of_nat (length (filter (fun s => s.1 = true) segs)).
Definition keep_of (segs : list seg) : Z :=
  match last segs with Some (true, sz) => sz | _ => 0 end.

Lemma free_bytes_cons f sz segs :
  free_bytes ((f, sz) :: segs) = (if f : bool then sz else 0) + free_bytes segs.
Proof. unfold free_bytes. rewrite filter_cons. by destruct f. Qed.

Lemma free_count_cons f sz segs :
  free_count ((f, sz) :: segs) = (if f : bool then 1 else 0) + free_count segs.
Proof. unfold free_count. rewrite filter_cons. destruct f; simpl; lia. Qed.

Lemma free_bytes_range segs : Forall seg_ok segs -> 0 <= free_bytes segs <= tot segs.
Proof.
  induction 1 as [|[f sz] segs [H1 H2] _ IH]; [done|]. rewrite free_bytes_cons.
  destruct f; simpl in *; lia.
Qed.

(** The next free segment after [pre], with everything the loop reads there. *)
Lemma mallinfo_loop_ok h post : forall pre fuel fs fb keep,
  heap_inv h (pre ++ post) -> (length post < fuel)%nat ->
  0 <= fs -> fs + free_bytes post < 2 ^ 63 -> 0 <= fb -> fb + free_count post < 2 ^ 63 ->
  (post = [] -> keep = keep_of pre) -> (post <> [] -> keep = 0) ->
  mallinfo_loop fuel h (load64 (h_mem h) (last_slot freelist start pre)) fs fb keep =
    Some (fs + free_bytes post, fb + free_count post, keep_of (pre ++ post)).
Proof.
  induction post as [|[f sz] post IH]; intros pre fuel fs fb keep I Hf H1 H2 H3 H4 K1 K2.
  - destruct fuel as [|fuel]; [simpl in Hf; lia|]. rewrite app_nil_r in *. cbn [mallinfo_loop].
    rewrite (hi_last _ _ I), K1 by done. unfold free_bytes, free_count. simpl. by rewrite !Z.add_0_r.
  - destruct (inv_facts h pre [(f, sz)] post I) as (S & B & T & E & Q & L & C & O & _ & _).
    apply Forall_singleton in O as [O1 O2]. cbn [chain tot fold_right fst snd] in *.
    pose proof (hi_ok _ _ I) as Hok. rewrite Forall_app, Forall_cons in Hok. destruct Hok as (_ & _ & Hq).
    pose proof (tot_ok post Hq) as [Hlen _]. pose proof (free_bytes_range post Hq).
    assert (0 <= free_count post) by (unfold free_count; lia).
    rewrite free_bytes_cons, free_count_cons in *. simpl in Hf.
    assert (pre ++ (f, sz) :: post = (pre ++ [(f, sz)]) ++ post) as Es by (by rewrite <-app_assoc).
    rewrite Es. destruct f; cbn [fst] in *.
    + destruct fuel as [|fuel]; [lia|]. cbn [mallinfo_loop]. destruct C as (C1 & C2 & _).
      rewrite C2, (proj2 (Z.eqb_neq _ 0)) by lia. unfold next_of, size_of. rewrite C1.
      rewrite (wrapU_small 64 (start + tot pre + 8)), (wrapU_small 64 (start + tot pre + sz)) by lia.
      rewrite (wrapU_small 64 (fs + sz)), (wrapU_small 64 (fb + 1)) by lia.
      assert (last_slot freelist start (pre ++ [(true, sz)]) = start + tot pre + 8) as El
        by (by rewrite last_slot_app).
      rewrite <-El, IH; [|by rewrite <-Es|lia..| |].
      * do 3 f_equal; lia.
      * intros ->. unfold keep_of. rewrite last_snoc, El. simpl in E.
        pose proof (hi_last _ _ I) as Hl. rewrite El in Hl. rewrite Hl, (proj2 (Z.eqb_eq (_ + sz) _)) by lia.
        done.
      * intros Hne. rewrite K2 by done.
        assert (start + tot pre + sz <> h_end h) as He.
        { destruct post; [done|]. simpl length in Hlen. lia. }
        by rewrite (proj2 (Z.eqb_neq _ _) He), andb_false_r.
    + assert (last_slot freelist start (pre ++ [(false, sz)]) = last_slot freelist start pre) as El
        by (by rewrite last_slot_app).
      rewrite !Z.add_0_l in *. rewrite <-El. apply IH; try done; [by rewrite <-Es|lia| |].
      * intros ->. unfold keep_of. rewrite last_snoc. by apply K2.
      * intros _. by apply K2.
Qed.

Lemma mallinfo_spec h segs :
  heap_inv h segs ->
  mallinfo start freelist h =
    Some (mkInfo (tot segs) (free_bytes segs) (tot segs - free_bytes segs) (free_count segs)
            (keep_of segs)).
Proof.
  intros I. unfold mallinfo. pose proof (hi_top _ _ I). pose proof (hi_end _ _ I).
  pose proof (free_bytes_range segs (hi_ok _ _ I)). pose proof (tot_ok segs (hi_ok _ _ I)) as [Hl _].
  pose proof (length_filter (fun s : seg => s.1 = true) segs) as Hc.
  pose proof (mallinfo_loop_ok h segs [] (list_fuel start h) 0 0 0) as E. simpl last_slot in E.
  rewrite E; [|done|by apply fuel_enough|lia..| |done|done].
  - cbn [mbind option_bind]. rewrite !Z.add_0_l, !wrapU_small by lia. do 3 f_equal; lia.
  - unfold free_count. lia.
Qed.

Lemma coalesced_all_free prev segs :
  coalesced prev segs -> Forall (fun s => s.1 = true) segs -> (length segs <= 1)%nat.
Proof.
  intros Hc Hf. destruct segs as [|[f1 s1] [|[f2 s2] segs]]; simpl in *; try lia.
  rewrite !Forall_cons in Hf. simpl in Hf. destruct Hf as (E1 & E2 & _). subst. simpl in Hc. intuition discriminate.
Qed.

(** ** The properties *)

(** C10: [malloc] of at most 2^62 bytes, on a heap that ends at least [MALLOC_MINIMUM_GAP] bytes below
    the stack limit (so that neither REAL_SIZE nor CAN_ALLOC_P wraps around, see [size_overflow] and
    [gap_underflow]), terminates.  It returns NULL, changing nothing, exactly when there is no room:
    no free block is large enough, and the space below the stack limit, together with a free block
    at the end of the heap, is too small.  Otherwise it returns an aligned block of first-fit
    placement whose bytes belonged to no live block, keeps all live blocks with their contents, and
    preserves the heap invariant. *)
Theorem malloc_correct limit sz h segs :
  heap_inv h segs -> h_end h + 32 <= limit < 2 ^ 63 -> 0 <= sz <= 2 ^ 62 ->
  exists h' p, malloc start freelist limit sz h = Some (h', p) /\
    ((no_room limit (REAL_SIZE sz) h segs /\ p = 0 /\ h' = h) \/
     (~ no_room limit (REAL_SIZE sz) h segs /\
      exists segs', p <> 0 /\ p mod 8 = 0 /\ alloc (REAL_SIZE sz) segs (p - 8 - start) segs' /\
       heap_inv h' segs' /\ h_end h' + 32 <= limit /\
       (forall x, p <= x < p + sz -> payload start segs' x /\ ~ payload start segs x) /\
       (forall x, payload start segs x -> h_mem h' x = h_mem h x))).
Proof.
  intros I Hl Hs. destruct (REAL_SIZE_ok sz Hs) as (R1 & R2 & R3).
  destruct (malloc_spec limit sz h segs I Hl Hs) as ([h' p] & E & [[E' Hr]|(off & segs' & Ep & A & I' & He & K)]).
  - exists h', p. split; [done|]. left. injection E' as -> ->. done.
  - exists h', p. split; [done|]. right. cbn [fst snd] in *. subst p.
    destruct (alloc_block _ _ _ _ A) as (z & Hz & Hb).
    pose proof (block_in_heap _ _ _ _ I' Hb) as (D1 & D2 & D3 & D4 & D5 & D6).
    split; [apply (alloc_room _ _ _ _ _ _ _ I A I'); lia|].
    exists segs'. replace (start + off + 8 - 8 - start) with off by lia.
    split_and!; try done; [lia|dlia|lia|]. intros x Hx. split.
    + apply (block_at_payload _ _ _ _ _ Hb). lia.
    + apply (alloc_fresh _ _ _ _ x (hi_ok _ _ I) A). lia.
Qed.

(** When the stack has come closer than the gap, the difference in CAN_ALLOC_P wraps around and any
    size is taken to fit. *)
Lemma gap_underflow limit h n : 0 <= h_end h <= limit -> limit < h_end h + 32 -> h_end h < 2 ^ 63 -> n <= 2 ^ 63 ->
  CAN_ALLOC_P limit h n = true.
Proof.
  intros H1 H2 H3 H4. unfold CAN_ALLOC_P, MALLOC_MINIMUM_GAP. apply Z.leb_le.
  rewrite (wrapU_small 64 (limit - h_end h)) by lia.
  assert (u64 (limit - h_end h - 32) = limit - h_end h - 32 + 2 ^ 64) as ->; [|lia].
  unfold wrapU. symmetry. apply (Z.mod_unique_pos _ _ (-1)); lia.
Qed.

(** C11: [free] of a live block terminates, makes exactly that block free, merged with its
    free neighbours, and keeps the invariant and all other live blocks with their
    contents. *)
Theorem free_correct h segs off sz :
  heap_inv h segs -> block_at segs off sz ->
  exists h' segs', free start freelist (start + off + 8) h = Some h' /\
    release segs off segs' /\ heap_inv h' segs' /\ h_end h' = h_end h /\
    others_kept h segs off h' segs'.
Proof.
  intros I Hb. destruct (free_at h segs off sz I Hb) as (h' & segs' & ? & ? & ? & ? & ?).
  exists h', segs'. split_and!; done.
Qed.

(** [realloc] of a live block returns NULL with the heap unchanged, or a block that is
    large enough and holds the old contents up to the smaller of the two sizes; all other
    live blocks keep their places and contents. *)
Theorem realloc_correct limit off osz sz h segs :
  heap_inv h segs -> block_at segs off osz -> h_end h + 32 <= limit < 2 ^ 63 ->
  0 <= sz <= 2 ^ 62 ->
  exists h' q, realloc start freelist limit (start + off + 8) sz h = Some (h', q) /\
    ((q = 0 /\ h' = h) \/
     exists segs' z, heap_inv h' segs' /\ block_at segs' (q - 8 - start) z /\ sz + 8 <= z /\
       (forall i, 0 <= i < Z.min (osz - 8) sz ->
          h_mem h' (q + i) = h_mem h (start + off + 8 + i)) /\
       others_kept h segs off h' segs').
Proof.
  intros I Hb Hl Hs. destruct (Z.lt_ge_cases osz (REAL_SIZE sz)) as [Hlt|Hge].
  - by apply realloc_grow.
  - destruct (realloc_shrink limit off osz sz h segs I Hb Hs Hge) as (h' & segs' & z & E & I' & Hb' & Hz & K & O).
    exists h', (start + off + 8). split; [done|]. right. exists segs', z.
    replace (start + off + 8 - 8 - start) with off by lia. split_and!; try done.
    intros i Hi. apply K. lia.
Qed.

(** [calloc] whose product does not overflow returns NULL or a block of that many bytes,
    all zero, and keeps all live blocks. *)
Theorem calloc_correct limit n e h segs :
  heap_inv h segs -> h_end h + 32 <= limit < 2 ^ 63 -> 0 <= n -> 0 <= e -> n * e <= 2 ^ 62 ->
  exists h' p, calloc start freelist limit n e h = Some (h', p) /\
    ((p = 0 /\ h' = h) \/
     exists segs' z, heap_inv h' segs' /\ block_at segs' (p - 8 - start) z /\ n * e + 8 <= z /\
       (forall i, 0 <= i < n * e -> h_mem h' (p + i) = 0) /\
       forall o s, block_at segs o s -> block_at segs' o s /\
         forall x, start + o + 8 <= x < start + o + s -> h_mem h' x = h_mem h x).
Proof.
  intros I Hl Hn He Hs. destruct (calloc_at limit n e h segs I Hl Hn He Hs)
    as (h' & p & E & [H|(segs' & z & I' & Hb & Hz & Hc & O)]); exists h', p; (split; [done|]); [by left|].
  right. exists segs', z. split_and!; try done. intros o s Ho. apply O; [done|].
  pose proof (block_in_heap _ _ _ _ I Ho). lia.
Qed.

(** [mallinfo] reports the size of the heap, the bytes and the number of the free
    segments, the bytes in use, and the size of a trailing free segment; when every block
    has been freed the heap is one free segment or empty. *)
Theorem mallinfo_correct h segs :
  heap_inv h segs ->
  mallinfo start freelist h =
    Some (mkInfo (h_end h - start) (free_bytes segs) (h_end h - start - free_bytes segs)
            (free_count segs) (keep_of segs)) /\
  (Forall (fun s => s.1 = true) segs -> segs = [] \/ segs = [(true, h_end h - start)]).
Proof.
  intros I. rewrite (mallinfo_spec h segs I), (hi_end _ _ I).
  replace (start + tot segs - start) with (tot segs) by lia. split; [done|].
  intros Hf. pose proof (coalesced_all_free _ _ (hi_coalesced _ _ I) Hf) as Hl.
  destruct segs as [|[f sz] [|]]; simpl in *; try lia; [by left|right].
  rewrite Forall_singleton in Hf. simpl in Hf. subst f. do 2 f_equal. lia.
Qed.

(** Sizes near the top of the 64-bit range are not refused: [malloc(2^64 - 1)] on an
    empty heap returns a block of 8 bytes, which has no room beyond its own header, and
    [calloc] of 2^32 elements of 2^32 bytes returns a minimal block. *)
Theorem size_overflow limit h :
  heap_inv h [] -> start + 64 <= limit < 2 ^ 63 ->
  (exists h', malloc start freelist limit (2 ^ 64 - 1) h = Some (h', start + 8) /\
     h_end h' = start + 8 /\ malloc_usable_size (start + 8) h' = 0) /\
  (exists h', calloc start freelist limit (2 ^ 32) (2 ^ 32) h = Some (h', start + 8) /\
     malloc_usable_size (start + 8) h' = 8).
Proof.
  intros I Hl. pose proof (hi_end _ _ I) as He. pose proof (hi_last _ _ I) as H0. simpl in He, H0.
  rewrite Z.add_0_r in He. unfold malloc, calloc.
  change (2 ^ 32 ⊠ 2 ^ 32) with 0. unfold malloc.
  change (REAL_SIZE (2 ^ 64 - 1)) with 8. change (REAL_SIZE 0) with 16.
  unfold list_fuel. cbn [malloc_from]. rewrite H0. cbn [Z.eqb]. rewrite !can_alloc by lia.
  rewrite !(proj2 (Z.leb_le _ _)) by lia. cbn [negb]. unfold malloc_done, set_word. rewrite He.
  rewrite (wrapU_small 64 (start + 8)) by lia. unfold malloc_usable_size, size_of. split.
  - eexists. split; [done|]. cbn [h_end h_mem]. split; [done|].
    rewrite (wrapU_small 64 (start + 8 - 8)) by lia.
    replace (start + 8 - 8) with start by lia. by rewrite load_le_store_le.
  - cbn [mbind option_bind]. rewrite (proj2 (Z.eqb_neq (start + 8) 0)) by lia. cbn [negb h_mem].
    edestruct (memset_spec (store64 (h_mem h) start 16) (start + 8) 0 0) as (m & -> & Hf & _);
      [apply wf_store_le, I|lia..|]. cbn [mbind option_bind]. eexists. split; [done|]. cbn [h_mem].
    rewrite (wrapU_small 64 (start + 8 - 8)) by lia. replace (start + 8 - 8) with start by lia.
    rewrite (load_le_ext 8 m (store64 (h_mem h) start 16) start start).
    + by rewrite load_le_store_le.
    + intros i Hi. rewrite (Hf _). range_cases; [lia|done].
Qed.
End heap.

(** A heap with three segments: two live blocks around a free one. *)
Definition ex_start : Z := 0x20010000.
Definition ex_freelist : Z := 0x20008000.
Definition ex_segs : list seg := [(false, 32); (true, 48); (false, 16)].
Definition ex_heap : heap :=
  mkHeap (store64 (store64 (store64 (store64 (store64 (fun _ => 0)
            ex_start 32) (ex_start + 32) 48) (ex_start + 80) 16) ex_freelist (ex_start + 32))
          (ex_start + 40) 0) (ex_start + 96).

Lemma ex_start_ok : 0 < ex_start /\ ex_start mod 8 = 0.
Proof. by vm_compute. Qed.

Lemma ex_freelist_ok :
  0 <= ex_freelist /\ ex_freelist mod 8 = 0 /\ ex_freelist + 8 <= ex_start.
Proof. vm_compute. repeat split; congruence. Qed.

Lemma ex_heap_inv : heap_inv ex_start ex_freelist ex_heap ex_segs.
Proof.
  constructor.
  - repeat apply wf_store_le. intros a. lia.
  - repeat constructor; simpl; lia.
  - by simpl.
  - unfold ex_segs. cbn [chain]. split_and!; vm_compute; reflexivity.
  - vm_compute. reflexivity.
  - vm_compute. reflexivity.
  - vm_compute. reflexivity.
Qed.

Lemma malloc_correct_witness :
  exists h' p, malloc ex_start ex_freelist 0x30000000 20 ex_heap = Some (h', p) /\
    (p = 0 \/ forall x, p <= x < p + 20 -> ~ payload ex_start ex_segs x).
Proof.
  destruct (malloc_correct ex_start ex_freelist ex_start_ok ex_freelist_ok 0x30000000 20 ex_heap ex_segs)
    as (h' & p & E & H).
  - apply ex_heap_inv.
  - vm_compute. split; congruence.
  - lia.
  - exists h', p. split; [exact E|]. destruct H as [H|(_ & segs' & _ & _ & _ & _ & _ & H & _)]; [left; apply H|].
    right. intros x Hx. apply H, Hx.
Defined.

Lemma free_correct_witness :
  exists h' segs', free ex_start ex_freelist (ex_start + 0 + 8) ex_heap = Some h' /\
    release ex_segs 0 segs' /\ heap_inv ex_start ex_freelist h' segs'.
Proof.
  destruct (free_correct ex_start ex_freelist ex_start_ok ex_freelist_ok ex_heap ex_segs 0 32)
    as (h' & segs' & E & R & I & _).
  - apply ex_heap_inv.
  - simpl. left. repeat split.
  - exists h', segs'. split; [exact E|]. split; [exact R|exact I].
Defined.

Lemma realloc_correct_witness :
  exists h' q, realloc ex_start ex_freelist 0x30000000 (ex_start + 0 + 8) 100 ex_heap = Some (h', q).
Proof.
  destruct (realloc_correct ex_start ex_freelist ex_start_ok ex_freelist_ok 0x30000000 0 32 100
    ex_heap ex_segs) as (h' & q & E & _).
  - apply ex_heap_inv.
  - simpl. left. repeat split.
  - vm_compute. split; congruence.
  - lia.
  - exists h', q. exact E.
Defined.

Lemma calloc_correct_witness :
  exists h' p, calloc ex_start ex_freelist 0x30000000 5 4 ex_heap = Some (h', p).
Proof.
  destruct (calloc_correct ex_start ex_freelist ex_start_ok ex_freelist_ok 0x30000000 5 4
    ex_heap ex_segs) as (h' & p & E & _).
  - apply ex_heap_inv.
  - vm_compute. split; congruence.
  - lia.
  - lia.
  - lia.
  - exists h', p. exact E.
Defined.

Lemma mallinfo_correct_witness :
  mallinfo ex_start ex_freelist ex_heap = Some (mkInfo 96 48 48 1 0).
Proof.
  apply (mallinfo_correct ex_start ex_freelist ex_start_ok ex_freelist_ok ex_heap ex_segs ex_heap_inv).
Defined.

Lemma size_overflow_witness :
  exists h', malloc ex_start ex_freelist 0x30000000 (2 ^ 64 - 1) (mkHeap (fun _ => 0) ex_start)
    = Some (h', ex_start + 8) /\ h_end h' = ex_start + 8 /\ malloc_usable_size (ex_start + 8) h' = 0.
Proof.
  apply (size_overflow ex_start ex_freelist ex_start_ok ex_freelist_ok 0x30000000 (mkHeap (fun _ => 0) ex_start)).
  - constructor; [intros a; simpl; lia|apply Forall_nil_2|exact I|exact I|vm_compute; reflexivity..].
  - vm_compute. split; congruence.
Defined.
