(* ===== verification/Barrier.v ===== *)
(** * The sense-reversing barrier

    [barrier] of riscv-tests/common/util.h, run by [ncores] harts in any interleaving.  The
    shared variables are [sense] and [count]; [threadsense] is thread-local.  A step of a
    hart is one access to a shared variable.  Each hart also carries the numbers of
    barriers it has entered and left, which the code does not have and no step reads. *)
From S2P Require Import Prelude.
Local Open Scope nat_scope.

(** ** Definitions *)

(** Where a hart is: outside the barrier; after [threadsense = !threadsense]; polling
    [sense]; about to run [count = 0]; about to run [sense = threadsense]. *)
Inductive pc := Outside | Toggled | Polling | Resetting | Publishing.

#[export] Instance pc_eq_dec : EqDecision pc.
Proof. solve_decision. Defined.

Record hart := mkHart { h_pc : pc; threadsense : bool; entered : nat; left_ : nat }.

Record barrier_st := mkBarrier { sense : bool; count : nat; harts : list hart }.

Definition set_hart (s : barrier_st) (i : nat) (h : hart) : barrier_st :=
  mkBarrier (sense s) (count s) (<[i := h]> (harts s)).

(** One step of hart [i] through [barrier(ncores)]. *)
Definition barrier_step (ncores i : nat) (s : barrier_st) : option barrier_st :=
  h ← harts s !! i;
  match h_pc h with
  | Outside =>
      Some (set_hart s i (mkHart Toggled (negb (threadsense h)) (S (entered h)) (left_ h)))
  | Toggled =>
      (* __sync_fetch_and_add(&count, 1) == ncores-1 *)
      let s' := mkBarrier (sense s) (S (count s)) (harts s) in
      Some (set_hart s' i
        (mkHart (if decide (count s = ncores - 1) then Resetting else Polling)
           (threadsense h) (entered h) (left_ h)))
  | Resetting =>
      let s' := mkBarrier (sense s) 0 (harts s) in
      Some (set_hart s' i (mkHart Publishing (threadsense h) (entered h) (left_ h)))
  | Publishing =>
      let s' := mkBarrier (threadsense h) (count s) (harts s) in
      Some (set_hart s' i (mkHart Outside (threadsense h) (entered h) (S (left_ h))))
  | Polling =>
      if decide (sense s = threadsense h)
      then Some (set_hart s i (mkHart Outside (threadsense h) (entered h) (S (left_ h))))
      else Some s
  end.

(** All static storage is zero at the start. *)
Definition barrier_init (ncores : nat) : barrier_st :=
  mkBarrier false 0 (replicate ncores (mkHart Outside false 0 0)).

Inductive barrier_reach (ncores : nat) : barrier_st -> Prop :=
| reach_init : barrier_reach ncores (barrier_init ncores)
| reach_step s s' i :
    barrier_reach ncores s -> barrier_step ncores i s = Some s' -> barrier_reach ncores s'.

(** ** Counting over an updated list *)

Definition cnt {A} (P : A -> bool) (l : list A) : nat := length (filter (fun x => P x = true) l).

Lemma cnt_cons {A} (P : A -> bool) x l : cnt P (x :: l) = Nat.b2n (P x) + cnt P l.
Proof. unfold cnt. rewrite filter_cons. by destruct (P x). Qed.

Lemma cnt_insert {A} (P : A -> bool) l i x y :
  l !! i = Some x ->
  cnt P (<[i := y]> l) + Nat.b2n (P x) = cnt P l + Nat.b2n (P y).
Proof.
  revert i. induction l as [|z l IH]; intros [|i]; simpl; try done.
  - intros [= ->]. rewrite !cnt_cons. lia.
  - intros E. rewrite !cnt_cons. specialize (IH i E). lia.
Qed.

Lemma cnt_all {A} (P : A -> bool) l : cnt P l <= length l.
Proof. apply length_filter. Qed.

Lemma cnt_full {A} (P : A -> bool) l j y : cnt P l = length l -> l !! j = Some y -> P y = true.
Proof.
  revert j. induction l as [|z l IH]; intros j; [done|]. rewrite cnt_cons.
  pose proof (cnt_all P l). simpl. destruct (P z) eqn:Ez; simpl; [|lia].
  destruct j as [|j]; simpl; [congruence|]. intros E. apply IH. lia.
Qed.

Lemma cnt_zero {A} (P : A -> bool) l :
  (forall j y, l !! j = Some y -> P y = false) -> cnt P l = 0.
Proof.
  induction l as [|z l IH]; intros H; [done|]. rewrite cnt_cons, (H 0 z eq_refl), IH; [done|].
  intros j. apply (H (S j)).
Qed.

Lemma cnt_lt {A} (P : A -> bool) l i x : l !! i = Some x -> P x = false -> cnt P l < length l.
Proof.
  intros Hl Hx. pose proof (cnt_all P l).
  destruct (decide (cnt P l = length l)) as [E|]; [|lia].
  pose proof (cnt_full P l i x E Hl). congruence.
Qed.

(** All but one element satisfy [P]: then the others do. *)
Lemma cnt_others {A} (P : A -> bool) l i x :
  l !! i = Some x -> P x = false -> cnt P l = length l - 1 ->
  forall j y, l !! j = Some y -> j <> i -> P y = true.
Proof.
  revert i. induction l as [|z l IH]; intros [|i]; simpl; try done; rewrite cnt_cons.
  - intros [= ->] Hx Hc [|j] y; [done|]. intros Hy _. rewrite Hx in Hc. simpl in *.
    apply (cnt_full P l j y); [lia|done].
  - intros Hl Hx Hc. pose proof (cnt_lt P l i x Hl Hx).
    destruct (P z) eqn:Ez; simpl in Hc; [|lia]. intros [|j] y Hy Hne; [simpl in Hy; congruence|].
    eapply (IH i); [done|done|lia|done|lia].
Qed.

(** ** The invariant *)

(** The barrier number [g] is being filled: a hart has arrived when it polls for the next
    sense. *)
Definition arrived (g : nat) (h : hart) : bool :=
  bool_decide (h_pc h = Polling /\ entered h = S g).

Definition hart_ok (g : nat) (h : hart) : Prop :=
  threadsense h = Nat.odd (entered h) /\
  match h_pc h with
  | Outside => entered h = g /\ left_ h = g
  | Toggled | Resetting | Publishing => entered h = S g /\ left_ h = g
  | Polling => (entered h = S g /\ left_ h = g) \/ (entered h = g /\ S (left_ h) = g)
  end.

Definition last_hart (h : hart) : bool :=
  bool_decide (h_pc h = Resetting \/ h_pc h = Publishing).

Definition barrier_inv (ncores : nat) (s : barrier_st) : Prop :=
  length (harts s) = ncores /\
  exists g, sense s = Nat.odd g /\ Forall (hart_ok g) (harts s) /\
    ((Forall (fun h => last_hart h = false) (harts s) /\
      count s = cnt (arrived g) (harts s) /\ count s < ncores) \/
     exists i h, harts s !! i = Some h /\ last_hart h = true /\
       (forall j h', harts s !! j = Some h' -> j <> i -> arrived g h' = true) /\
       (h_pc h = Resetting \/ count s = 0)).

Lemma odd_S g : Nat.odd (S g) = negb (Nat.odd g).
Proof. by rewrite Nat.odd_succ, <-Nat.negb_odd. Qed.

Lemma insert_ok g l i h' : Forall (hart_ok g) l -> hart_ok g h' -> Forall (hart_ok g) (<[i := h']> l).
Proof. intros. by apply Forall_insert. Qed.

(** A hart that is not the last one and changes to a state that is not the last one. *)
Lemma inv_quiet n s g i h h' c :
  length (harts s) = n -> sense s = Nat.odd g -> Forall (hart_ok g) (harts s) ->
  harts s !! i = Some h -> hart_ok g h' -> last_hart h' = false ->
  Forall (fun h => last_hart h = false) (harts s) ->
  c = cnt (arrived g) (<[i := h']> (harts s)) -> c < n ->
  barrier_inv n (mkBarrier (sense s) c (<[i := h']> (harts s))).
Proof.
  intros Hn Hs Hok Hi Hh' Hl Hq Hc Hlt. split; [simpl; by rewrite length_insert|]. exists g. simpl.
  split_and!; [done|by apply insert_ok|]. left. split_and!; [|done|done].
  by apply Forall_insert.
Qed.

(** While a last hart is resetting, every other hart polls for the next sense and does not
    move. *)
Lemma inv_other n s g i j h h0 :
  harts s !! i = Some h0 -> last_hart h0 = true ->
  (forall j h', harts s !! j = Some h' -> j <> i -> arrived g h' = true) ->
  harts s !! j = Some h -> sense s = Nat.odd g -> Forall (hart_ok g) (harts s) ->
  j = i \/ barrier_step n j s = Some s.
Proof.
  intros Hi Hl Ho Hj Hs Hok. destruct (decide (j = i)) as [|Hne]; [by left|right].
  specialize (Ho j h Hj Hne). apply bool_decide_eq_true in Ho as [Hpc He].
  rewrite Forall_lookup in Hok. destruct (Hok j h Hj) as [Ht _].
  unfold barrier_step. rewrite Hj. simpl. rewrite Hpc, decide_False; [done|].
  rewrite Hs, Ht, He, odd_S. by destruct (Nat.odd g).
Qed.

(** A step while no hart is resetting the barrier. *)
Lemma step_quiet n i s s' g :
  length (harts s) = n -> sense s = Nat.odd g -> Forall (hart_ok g) (harts s) ->
  Forall (fun h => last_hart h = false) (harts s) ->
  count s = cnt (arrived g) (harts s) -> count s < n ->
  barrier_step n i s = Some s' -> barrier_inv n s'.
Proof.
  intros Hn Hs Hok Hq Hc Hlt Hstep.
  unfold barrier_step in Hstep. destruct (harts s !! i) as [h|] eqn:Hi; [|done]. simpl in Hstep.
  pose proof (proj1 (Forall_lookup _ _) Hok i h Hi) as [Ht Hp].
  pose proof (proj1 (Forall_lookup _ _) Hq i h Hi) as Hlast. simpl in Hlast.
  apply bool_decide_eq_false in Hlast.
  pose proof (fun h' => cnt_insert (arrived g) _ i h h' Hi) as Hci.
  assert (h_pc h <> Polling -> arrived g h = false) as Hna
    by (intros ?; apply bool_decide_eq_false; tauto).
  destruct (h_pc h) eqn:Hpc; try tauto.
  + injection Hstep as <-. destruct Hp as [He Hle]. set (h' := mkHart _ _ _ _) in *.
    specialize (Hci h'). rewrite Hna in Hci by done. change (arrived g h') with false in Hci.
    cbn [Nat.b2n] in Hci. apply (inv_quiet n s g i h h' (count s)); try done; try lia.
    split; simpl; [by rewrite Ht, He, odd_S|lia].
  + injection Hstep as <-. destruct Hp as [He Hle].
    destruct (decide (count s = n - 1)) as [Hlast'|Hmore].
    * split; [simpl; by rewrite length_insert|]. exists g. simpl. split_and!; [done| |].
      { apply insert_ok; [done|]. split; simpl; [done|lia]. }
      right. eexists i, _. rewrite list_lookup_insert_eq by (by eapply lookup_lt_Some).
      split_and!; [done|done| |by left].
      intros j h' Hj Hne. rewrite list_lookup_insert_ne in Hj by done.
      eapply (cnt_others _ _ i h Hi); [by apply Hna|lia|done|done].
    * set (h' := mkHart _ _ _ _) in *. specialize (Hci h'). rewrite Hna in Hci by done.
      assert (arrived g h' = true) as Ha by (apply bool_decide_eq_true; simpl; tauto).
      rewrite Ha in Hci. cbn [Nat.b2n] in Hci. apply (inv_quiet n s g i h h' (S (count s))); try done; try lia.
      split; simpl; [done|lia].
  + destruct (decide (sense s = threadsense h)) as [Heq|]; [|injection Hstep as <-; split; [done|]; exists g; tauto].
    injection Hstep as <-. set (h' := mkHart _ _ _ _) in *. specialize (Hci h').
    destruct Hp as [[He _]|[He Hle]].
    { rewrite Hs, Ht, He, odd_S in Heq. by destruct (Nat.odd g). }
    assert (arrived g h = false) as Ha by (apply bool_decide_eq_false; lia).
    rewrite Ha in Hci. change (arrived g h') with false in Hci.
    cbn [Nat.b2n] in Hci. apply (inv_quiet n s g i h h' (count s)); try done; try lia;
      split; simpl; done || lia.
Qed.

(** A step while hart [k] is resetting it. *)
Lemma step_last n i s s' g k hk :
  0 < n -> length (harts s) = n -> sense s = Nat.odd g -> Forall (hart_ok g) (harts s) ->
  harts s !! k = Some hk -> last_hart hk = true ->
  (forall j h', harts s !! j = Some h' -> j <> k -> arrived g h' = true) ->
  (h_pc hk = Resetting \/ count s = 0) ->
  barrier_step n i s = Some s' -> barrier_inv n s'.
Proof.
  intros Hn0 Hn Hs Hok Hk Hlk Hothers Hz Hstep. pose proof Hstep as Hstep0.
  unfold barrier_step in Hstep. destruct (harts s !! i) as [h|] eqn:Hi; [|done]. simpl in Hstep.
  pose proof (proj1 (Forall_lookup _ _) Hok i h Hi) as [Ht Hp].
  destruct (inv_other n s g k i h hk Hk Hlk Hothers Hi Hs Hok) as [->|E].
  2:{ rewrite E in Hstep0. injection Hstep0 as <-. split; [done|]. exists g. split_and!; [done..|].
      right. by exists k, hk. }
  assert (h = hk) as <- by congruence. apply bool_decide_eq_true in Hlk.
  destruct (h_pc h) eqn:Hpc; try (by destruct Hlk); injection Hstep as <-; destruct Hp as [He Hle].
  + split; [simpl; by rewrite length_insert|]. exists g. simpl. split_and!; [done| |].
    { apply insert_ok; [done|]. split; simpl; [done|lia]. }
    right. eexists k, _. rewrite list_lookup_insert_eq by (by eapply lookup_lt_Some).
    split_and!; [done|done| |by right]. intros j h' Hj Hne.
    rewrite list_lookup_insert_ne in Hj by done. eauto.
  + assert (count s = 0) as Hc0 by (by destruct Hz).
    split; [simpl; by rewrite length_insert|]. exists (S g). simpl.
    assert (forall j h', <[k := mkHart Outside (threadsense h) (entered h) (S (left_ h))]> (harts s) !! j
              = Some h' -> hart_ok (S g) h' /\ last_hart h' = false /\ arrived (S g) h' = false) as Hall.
    { intros j h' Hj. destruct (decide (j = k)) as [->|Hne].
      - rewrite list_lookup_insert_eq in Hj by (by eapply lookup_lt_Some). injection Hj as <-.
        split_and!; [|done|done]. split; simpl; [done|lia].
      - rewrite list_lookup_insert_ne in Hj by done. specialize (Hothers j h' Hj Hne).
        apply bool_decide_eq_true in Hothers as [Hp' He'].
        destruct (proj1 (Forall_lookup _ _) Hok j h' Hj) as [Ht' Hl']. rewrite Hp' in Hl'.
        split_and!; [|apply bool_decide_eq_false; by rewrite Hp'; intros [?|?]|
          apply bool_decide_eq_false; lia].
        split; [done|]. rewrite Hp'. lia. }
    split_and!; [by rewrite Ht, He|apply Forall_lookup; intros; by eapply Hall|].
    left. split_and!; [apply Forall_lookup; intros; by eapply Hall| |lia].
    rewrite Hc0. symmetry. apply cnt_zero. intros j h' Hj. by apply (Hall j h' Hj).
Qed.

Lemma barrier_reach_inv n s : 0 < n -> barrier_reach n s -> barrier_inv n s.
Proof.
  intros Hn. induction 1 as [|s s' i _ (Hl & g & Hs & Hok & Hcase) Hstep].
  - split; [apply length_replicate|]. exists 0. simpl. split_and!; [done| |].
    + apply Forall_replicate. split; simpl; [done|lia].
    + left. split_and!; [by apply Forall_replicate| |lia]. symmetry. apply cnt_zero.
      intros j y Hj. by apply lookup_replicate in Hj as [-> _].
  - destruct Hcase as [(Hq & Hc & Hlt)|(k & hk & Hk & Hlk & Ho & Hz)].
    + by apply (step_quiet n i s s' g).
    + by apply (step_last n i s s' g k hk).
Qed.

(** C20: no hart leaves a barrier before every hart has entered it: in every state that any
    interleaving of the harts reaches, the number of barriers a hart has left is at most
    the number every other hart has entered, and a hart is at most one barrier inside. *)
Theorem barrier_safe n s i j hi hj :
  0 < n -> barrier_reach n s -> harts s !! i = Some hi -> harts s !! j = Some hj ->
  left_ hi <= entered hj /\ left_ hi <= entered hi <= S (left_ hi).
Proof.
  intros Hn Hr Hi Hj. destruct (barrier_reach_inv n s Hn Hr) as (_ & g & _ & Hok & _).
  rewrite Forall_lookup in Hok. destruct (Hok i hi Hi) as [_ H1]. destruct (Hok j hj Hj) as [_ H2].
  destruct (h_pc hi), (h_pc hj); lia.
Qed.

(** Two harts: hart 0 waits in the barrier, hart 1 is about to arrive. *)
Definition ex_barrier : barrier_st :=
  mkBarrier false 1 [mkHart Polling true 1 0; mkHart Toggled true 1 0].

Lemma ex_barrier_reach : barrier_reach 2 ex_barrier.
Proof.
  apply (reach_step 2 (mkBarrier false 1 [mkHart Polling true 1 0; mkHart Outside false 0 0]) _ 1);
    [|reflexivity].
  apply (reach_step 2 (mkBarrier false 0 [mkHart Toggled true 1 0; mkHart Outside false 0 0]) _ 0);
    [|reflexivity].
  apply (reach_step 2 (barrier_init 2) _ 0); [apply reach_init|reflexivity].
Qed.

Lemma barrier_safe_witness :
  left_ (mkHart Polling true 1 0) <= entered (mkHart Toggled true 1 0).
Proof.
  apply (barrier_safe 2 ex_barrier 0 1); [lia|apply ex_barrier_reach|reflexivity|reflexivity].
Defined.

(** C40: the barrier does not deadlock: whenever all harts are inside it, some hart can take
    a step that changes the state (it is not the case that all poll in vain). *)
Theorem barrier_progress n s :
  0 < n -> barrier_reach n s -> Forall (fun h => h_pc h <> Outside) (harts s) ->
  exists i s', barrier_step n i s = Some s' /\ s' <> s.
Proof.
  intros Hn Hr Hin. destruct (barrier_reach_inv n s Hn Hr) as (Hl & g & Hs & Hok & Hcase).
  assert (forall i h h' c b, harts s !! i = Some h -> h' <> h ->
    set_hart (mkBarrier b c (harts s)) i h' <> s) as Hdiff.
  { intros i h h' c b Hi Hne E. apply (f_equal (fun s => harts s !! i)) in E. simpl in E.
    rewrite list_lookup_insert_eq in E by (by eapply lookup_lt_Some). congruence. }
  assert (forall i h, harts s !! i = Some h -> h_pc h <> Polling \/ sense s = threadsense h ->
    exists s', barrier_step n i s = Some s' /\ s' <> s) as Hmove.
  { intros i h Hi Hor. unfold barrier_step. rewrite Hi. simpl.
    destruct (h_pc h) eqn:Hpc; [| |destruct Hor as [?|Heq]; [done|]; rewrite decide_True by done| |];
      (eexists; split; [done|]; destruct s; eapply Hdiff; [done|]; intros E; destruct h; simpl in *;
       injection E; try congruence; lia || (intros; destruct (decide _); congruence)). }
  destruct Hcase as [(Hq & Hc & Hlt)|(k & hk & Hk & Hlk & _)].
  - destruct (decide (Forall (fun h => arrived g h = true) (harts s))) as [Ha|Ha].
    + exfalso. rewrite Hc in Hlt. assert (cnt (arrived g) (harts s) = length (harts s)); [|lia].
      clear -Ha. induction Ha as [|h l Hh _ IH]; [done|]. rewrite cnt_cons, Hh. simpl. lia.
    + apply not_Forall_Exists in Ha; [|intros ?; apply _].
      apply Exists_exists in Ha as (h & [i Hi]%list_elem_of_lookup & Hh).
      exists i. apply (Hmove i h Hi). destruct (proj1 (Forall_lookup _ _) Hok i h Hi) as [Ht Hp].
      destruct (decide (h_pc h = Polling)) as [Hpc|]; [right|by left].
      rewrite Hpc in Hp. destruct Hp as [[He _]|[He _]]; [|by rewrite Hs, Ht, He].
      destruct Hh. apply bool_decide_eq_true. done.
  - exists k. apply (Hmove k hk Hk). left. apply bool_decide_eq_true in Hlk. by destruct Hlk as [-> | ->].
Qed.

Lemma barrier_progress_witness :
  exists i s', barrier_step 2 i ex_barrier = Some s' /\ s' <> ex_barrier.
Proof.
  apply (barrier_progress 2 ex_barrier); [lia|apply ex_barrier_reach|].
  repeat constructor; discriminate.
Defined.
