(* ===== verification/HostPort.v ===== *)
(** * The shared host port

    All harts reach the host through one mailbox, [tohost]/[fromhost], under the lock
    [hostAccessSema]: [wait_host_free] and [syscall] of riscv-tests/common/syscalls.c, and
    [bm_host_lock], [bm_host_unlock] and [bm_htif_syscall] of
    riscv-tests/spec95-equivalent/benchmarks/baremetal/common/htif_syscalls.c, which use the
    same lock and the same mailbox.  A step of a hart is one access to a shared variable, in
    any interleaving with the other harts and with the host.

    The host is a parameter: [service] gives the value it stores in word 0 of the request
    block, and a host step follows the protocol that htif.h documents (take the address from
    [tohost], execute, set [fromhost]).  The request block of hart [i] is at [magic i]. *)
From S2P Require Import Prelude.
Local Open Scope Z_scope.

(** ** Definitions *)

(** Where a hart is in the call: not in one; before the lock; holding it; after writing
    [tohost]; after clearing [fromhost]; returned. *)
Inductive call_pc := Idle | Waiting | Locked | Sent | Replied | Returned.

#[export] Instance call_pc_eq_dec : EqDecision call_pc.
Proof. solve_decision. Defined.

(** [magic_mem] as the hart's block, and the words it was filled with. *)
Record caller := mkCaller { c_pc : call_pc; magic_mem : list Z; request : list Z }.

Record port := mkPort {
  hostAccessSema : Z; tohost : Z; fromhost : Z; callers : list caller }.

Section port.
Context (magic : nat -> Z) (service : list Z -> Z).

Definition set_caller (s : port) (i : nat) (c : caller) : port :=
  mkPort (hostAccessSema s) (tohost s) (fromhost s) (<[i := c]> (callers s)).

(** The start of a call: the request words are written. *)
Definition call_step (i : nat) (args : list Z) (s : port) : option port :=
  c ← callers s !! i;
  if decide (c_pc c = Idle \/ c_pc c = Returned)
  then Some (set_caller s i (mkCaller Waiting args args)) else None.

(** The lr/sc loop of [wait_host_free]: the semaphore goes from 0 to -1, or the hart tries
    again. *)
Definition wait_host_free (i : nat) (c : caller) (s : port) : port :=
  if hostAccessSema s =? 0 then
    set_caller (mkPort (-1) (tohost s) (fromhost s) (callers s)) i
      (mkCaller Locked (magic_mem c) (request c))
  else s.

Definition syscall_step (i : nat) (s : port) : option port :=
  c ← callers s !! i;
  match c_pc c with
  | Idle | Returned => None
  | Waiting => Some (wait_host_free i c s)
  | Locked =>
      Some (set_caller (mkPort (hostAccessSema s) (magic i) (fromhost s) (callers s)) i
              (mkCaller Sent (magic_mem c) (request c)))
  | Sent =>
      if fromhost s =? 0 then Some s
      else Some (set_caller (mkPort (hostAccessSema s) (tohost s) 0 (callers s)) i
                   (mkCaller Replied (magic_mem c) (request c)))
  | Replied =>
      Some (set_caller (mkPort 0 (tohost s) (fromhost s) (callers s)) i
              (mkCaller Returned (magic_mem c) (request c)))
  end.

(** The value a finished call returns: [magic_mem[0]]. *)
Definition call_result (c : caller) : option Z :=
  if decide (c_pc c = Returned) then head (magic_mem c) else None.

(** The host serves the request block whose address is in [tohost]. *)
Definition host_step (i : nat) (s : port) : option port :=
  c ← callers s !! i;
  if decide (tohost s <> 0 /\ tohost s = magic i) then
    Some (set_caller (mkPort (hostAccessSema s) 0 1 (callers s)) i
            (mkCaller (c_pc c) (service (magic_mem c) :: tail (magic_mem c)) (request c)))
  else None.

Definition port_init (n : nat) : port := mkPort 0 0 0 (replicate n (mkCaller Idle [] [])).

Inductive port_reach (n : nat) : port -> Prop :=
| port_start : port_reach n (port_init n)
| port_call s s' i args :
    port_reach n s -> call_step i args s = Some s' -> port_reach n s'
| port_sys s s' i : port_reach n s -> syscall_step i s = Some s' -> port_reach n s'
| port_host s s' i : port_reach n s -> host_step i s = Some s' -> port_reach n s'.

(** ** The invariant *)

Definition holds_lock (c : caller) : bool :=
  bool_decide (c_pc c = Locked \/ c_pc c = Sent \/ c_pc c = Replied).

Definition served (c : caller) : Prop := head (magic_mem c) = Some (service (request c)).

Definition caller_ok (c : caller) : Prop :=
  match c_pc c with
  | Waiting | Locked => magic_mem c = request c
  | Replied | Returned => served c
  | _ => True
  end.

(** What the mailbox holds while caller [i] has the lock. *)
Definition mailbox_ok (s : port) (i : nat) (c : caller) : Prop :=
  match c_pc c with
  | Sent => (tohost s = magic i /\ fromhost s = 0 /\ magic_mem c = request c) \/
            (tohost s = 0 /\ fromhost s <> 0 /\ served c)
  | _ => tohost s = 0 /\ fromhost s = 0
  end.

Definition port_inv (s : port) : Prop :=
  Forall caller_ok (callers s) /\
  ((hostAccessSema s = 0 /\ tohost s = 0 /\ fromhost s = 0 /\
    Forall (fun c => holds_lock c = false) (callers s)) \/
   (hostAccessSema s <> 0 /\
    exists i c, callers s !! i = Some c /\ holds_lock c = true /\ mailbox_ok s i c /\
      forall j c', callers s !! j = Some c' -> j <> i -> holds_lock c' = false)).

Hypothesis magic_nonzero : forall i, magic i <> 0.
Hypothesis magic_inj : forall i j, magic i = magic j -> i = j.

Lemma callers_lookup s i c j :
  callers s !! i = Some c ->
  forall c', (<[i := c']> (callers s)) !! j = if decide (j = i) then Some c' else callers s !! j.
Proof.
  intros Hi c'. destruct (decide (j = i)) as [->|].
  - apply list_lookup_insert_eq. by eapply lookup_lt_Some.
  - by apply list_lookup_insert_ne.
Qed.

(** A caller outside the lock that stays outside. *)
Lemma inv_outside s i c c' :
  port_inv s -> callers s !! i = Some c -> holds_lock c = false -> holds_lock c' = false ->
  caller_ok c' -> port_inv (set_caller s i c').
Proof.
  intros [Hok Hcase] Hi Hc Hc' Hok'. split; [by apply Forall_insert|].
  destruct Hcase as [(? & ? & ? & Hall)|(Hs & k & ck & Hk & Hlk & Hm & Ho)]; [left|right].
  - split_and!; try done. by apply Forall_insert.
  - split; [done|]. exists k, ck. assert (k <> i) by (intros ->; congruence).
    cbn [callers set_caller]. split_and!; try done.
    + by rewrite list_lookup_insert_ne.
    + intros j cj. rewrite (callers_lookup s i c j Hi). case_decide; [naive_solver|eauto].
Qed.

(** The caller that has the lock moves. *)
Lemma inv_holder s i c c' se t f :
  port_inv s -> callers s !! i = Some c -> holds_lock c = true -> caller_ok c' ->
  (holds_lock c' = true -> se <> 0 /\ mailbox_ok (mkPort se t f []) i c') ->
  (holds_lock c' = false -> se = 0 /\ t = 0 /\ f = 0) ->
  port_inv (set_caller (mkPort se t f (callers s)) i c').
Proof.
  intros [Hok Hcase] Hi Hl Hok' Hin Hout. split; [by apply Forall_insert|]. simpl.
  destruct Hcase as [(_ & _ & _ & Hall)|(Hs & k & ck & Hk & Hlk & Hm & Ho)].
  { pose proof (proj1 (Forall_lookup _ _) Hall i c Hi). simpl in *. congruence. }
  assert (k = i) as -> by (destruct (decide (k = i)); [done|]; pose proof (Ho i c Hi ltac:(done)); congruence).
  destruct (holds_lock c') eqn:El; [right|left].
  - destruct (Hin eq_refl) as [Hse Hmb]. split; [done|]. exists i, c'.
    rewrite (callers_lookup s i c i Hi), decide_True by done. split_and!; try done.
    intros j cj. rewrite (callers_lookup s i c j Hi). case_decide; [done|eauto].
  - destruct (Hout eq_refl) as (-> & -> & ->). split_and!; try done.
    apply Forall_lookup. intros j cj. rewrite (callers_lookup s i c j Hi).
    case_decide; [intros [= <-]; done|eauto].
Qed.

(** The lock holder's view of the mailbox. *)
Lemma inv_mailbox s i c :
  port_inv s -> callers s !! i = Some c -> holds_lock c = true ->
  hostAccessSema s <> 0 /\ mailbox_ok s i c.
Proof.
  intros [_ Hcase] Hi Hl. destruct Hcase as [(_ & _ & _ & Hall)|(Hs & k & ck & Hk & Hlk & Hm & Ho)].
  { pose proof (proj1 (Forall_lookup _ _) Hall i c Hi). simpl in *. congruence. }
  destruct (decide (k = i)) as [->|Hne]; [|pose proof (Ho i c Hi ltac:(done)); congruence].
  split; [done|]. congruence.
Qed.

Lemma inv_lock s i c :
  port_inv s -> callers s !! i = Some c -> c_pc c = Waiting -> port_inv (wait_host_free i c s).
Proof.
  intros I Hi Hpc. unfold wait_host_free. destruct (Z.eqb_spec (hostAccessSema s) 0) as [Hs|]; [|done].
  destruct I as [Hok [(_ & Ht & Hf & Hall)|[? _]]]; [|done].
  pose proof (proj1 (Forall_lookup _ _) Hok i c Hi) as Hc. unfold caller_ok in Hc. rewrite Hpc in Hc.
  split; [by apply Forall_insert|]. right. split; [done|]. eexists i, _. simpl.
  rewrite (callers_lookup s i c i Hi), decide_True by done. split_and!; try done.
  intros j cj. rewrite (callers_lookup s i c j Hi). case_decide; [done|].
  intros Hj _. apply (proj1 (Forall_lookup _ _) Hall j cj Hj).
Qed.

Lemma syscall_step_inv s s' i : port_inv s -> syscall_step i s = Some s' -> port_inv s'.
Proof.
  intros I. unfold syscall_step. destruct (callers s !! i) as [c|] eqn:Hi; [|done]. simpl.
  pose proof (proj1 (Forall_lookup _ _) (proj1 I) i c Hi) as Hc. unfold caller_ok in Hc.
  pose proof (inv_mailbox s i c I Hi) as Hmb. unfold mailbox_ok in Hmb.
  assert (c_pc c = Locked \/ c_pc c = Sent \/ c_pc c = Replied -> holds_lock c = true) as Hl
    by apply bool_decide_eq_true.
  destruct (c_pc c) eqn:Hpc; try done.
  - intros [= <-]. by apply inv_lock.
  - intros [= <-]. destruct Hmb as (Hs & Ht & Hf); [tauto|].
    eapply inv_holder; [done|done|tauto|done| |done]. intros _. split; [done|]. left. done.
  - destruct (Z.eqb_spec (fromhost s) 0) as [|Hf]; intros [= <-]; [done|].
    destruct Hmb as (Hs & Hm); [tauto|]. destruct Hm as [(_ & ? & _)|(Ht & _ & Hsv)]; [done|].
    eapply inv_holder; [done|done|tauto|done| |done]. done.
  - intros [= <-]. destruct Hmb as (Hs & Ht & Hf); [tauto|].
    eapply inv_holder; [done|done|tauto|done|done|done].
Qed.

Lemma host_step_inv s s' i : port_inv s -> host_step i s = Some s' -> port_inv s'.
Proof.
  intros I. unfold host_step. destruct (callers s !! i) as [c|] eqn:Hi; [|done]. simpl.
  case_decide as Ht; [|done]. intros [= <-]. destruct Ht as [Hne Ht].
  destruct I as [Hok Hcase]. pose proof (conj Hok Hcase : port_inv s) as I.
  destruct Hcase as [(_ & ? & _)|(Hs & k & ck & Hk & Hlk & Hm & Ho)]; [done|].
  unfold mailbox_ok in Hm. destruct (c_pc ck) eqn:Hpc; try (by destruct Hm); [].
  destruct Hm as [(Htk & Hf & Hmm)|(? & _)]; [|done].
  assert (k = i) as -> by (apply magic_inj; congruence). assert (ck = c) as -> by congruence.
  eapply inv_holder; try done.
  - unfold caller_ok. simpl. by rewrite Hpc.
  - intros _. split; [done|]. unfold mailbox_ok. simpl. rewrite Hpc. right.
    split_and!; try done. unfold served. simpl. by rewrite Hmm.
  - unfold holds_lock in *. simpl. rewrite Hpc. done.
Qed.

Lemma port_reach_inv n s : port_reach n s -> port_inv s.
Proof.
  induction 1 as [|s s' i args _ I E|s s' i _ I E|s s' i _ I E].
  - split; [by apply Forall_replicate|]. left. split_and!; try done. by apply Forall_replicate.
  - unfold call_step in E. destruct (callers s !! i) as [c|] eqn:Hi; [|done]. simpl in E.
    case_decide as Hpc; [|done]. injection E as <-. eapply inv_outside; try done.
    apply bool_decide_eq_false. destruct Hpc as [-> | ->]; intuition discriminate.
  - by eapply syscall_step_inv.
  - by eapply host_step_inv.
Qed.

(** C21: host calls are atomic: in every interleaving at most one hart is between taking and
    releasing the lock, and a hart whose call has returned got the host's answer to its own
    request. *)
Theorem host_calls_atomic n s i j ci cj :
  port_reach n s -> callers s !! i = Some ci -> callers s !! j = Some cj ->
  (holds_lock ci = true -> holds_lock cj = true -> i = j) /\
  (c_pc ci = Returned -> call_result ci = Some (service (request ci))).
Proof.
  intros Hr Hi Hj. destruct (port_reach_inv n s Hr) as [Hok Hcase]. split.
  - intros Li Lj. destruct Hcase as [(_ & _ & _ & Hall)|(_ & k & ck & Hk & _ & _ & Ho)].
    + pose proof (proj1 (Forall_lookup _ _) Hall i ci Hi). simpl in *. congruence.
    + destruct (decide (i = k)) as [->|Hik]; [|pose proof (Ho i ci Hi Hik); congruence].
      destruct (decide (j = k)) as [->|Hjk]; [done|pose proof (Ho j cj Hj Hjk); congruence].
  - intros E. pose proof (proj1 (Forall_lookup _ _) Hok i ci Hi) as Hc. unfold caller_ok in Hc.
    unfold call_result. rewrite E in *. by rewrite decide_True.
Qed.

(** The port does not deadlock: whenever a call is in progress, some hart or the host
    can take a step that is not another turn of a spin loop. *)
Theorem host_port_progress n s i c :
  port_reach n s -> callers s !! i = Some c -> c_pc c <> Idle -> c_pc c <> Returned ->
  exists j s', (syscall_step j s = Some s' \/ host_step j s = Some s') /\
    (hostAccessSema s', tohost s', fromhost s') <> (hostAccessSema s, tohost s, fromhost s).
Proof.
  intros Hr Hi H1 H2. destruct (port_reach_inv n s Hr) as [Hok Hcase].
  destruct Hcase as [(Hs & Ht & Hf & Hall)|(Hs & k & ck & Hk & Hlk & Hm & Ho)].
  - pose proof (proj1 (Forall_lookup _ _) Hall i c Hi) as Hl. simpl in Hl.
    apply bool_decide_eq_false in Hl. exists i. unfold syscall_step. rewrite Hi. simpl.
    destruct (c_pc c); try tauto. eexists. split; [by left|]. unfold wait_host_free.
    rewrite Hs. simpl. congruence.
  - exists k. unfold mailbox_ok in Hm. apply bool_decide_eq_true in Hlk.
    unfold syscall_step, host_step. rewrite Hk. simpl.
    destruct (c_pc ck) eqn:Hpc; try (by destruct Hlk as [?|[?|?]]).
    + eexists. split; [by left|]. simpl. destruct Hm as [-> _]. pose proof (magic_nonzero k). congruence.
    + destruct Hm as [(Ht & Hf & _)|(Ht & Hf & _)].
      * eexists. split; [right; rewrite decide_True; [done|]; by rewrite Ht|]. simpl. congruence.
      * eexists. rewrite (proj2 (Z.eqb_neq _ _) Hf). split; [by left|]. simpl. congruence.
    + eexists. split; [by left|]. simpl. congruence.
Qed.
End port.

(** Two harts; the second has been served while the first waits for the lock. *)
Definition ex_magic (i : nat) : Z := 0x20000000 + 64 * Z.of_nat i.
Definition ex_service (w : list Z) : Z := nth 3 w 0.
Definition ex_port : port :=
  mkPort (-1) 0 1 [mkCaller Waiting [64; 1; 2; 5] [64; 1; 2; 5];
                   mkCaller Sent [7; 1; 2; 7] [64; 1; 2; 7]].

Lemma ex_magic_nonzero i : ex_magic i <> 0.
Proof. unfold ex_magic. lia. Qed.

Lemma ex_magic_inj i j : ex_magic i = ex_magic j -> i = j.
Proof. unfold ex_magic. lia. Qed.

Lemma ex_port_reach : port_reach ex_magic ex_service 2 ex_port.
Proof.
  pose proof (port_start ex_magic ex_service 2) as R.
  eapply (port_call _ _ _ _ _ 1 [64; 1; 2; 7]) in R; [|reflexivity].
  eapply (port_sys _ _ _ _ _ 1) in R; [|reflexivity].
  eapply (port_call _ _ _ _ _ 0 [64; 1; 2; 5]) in R; [|reflexivity].
  eapply (port_sys _ _ _ _ _ 1) in R; [|reflexivity].
  eapply (port_host _ _ _ _ _ 1) in R; [exact R|reflexivity].
Qed.

Lemma host_calls_atomic_witness :
  exists s c, port_reach ex_magic ex_service 2 s /\ callers s !! 1%nat = Some c /\
    call_result c = Some 7.
Proof.
  assert (port_reach ex_magic ex_service 2
    (mkPort 0 0 0 [mkCaller Waiting [64; 1; 2; 5] [64; 1; 2; 5];
                   mkCaller Returned [7; 1; 2; 7] [64; 1; 2; 7]])) as R.
  { pose proof ex_port_reach as R.
    eapply (port_sys _ _ _ _ _ 1) in R; [|reflexivity].
    eapply (port_sys _ _ _ _ _ 1) in R; [exact R|reflexivity]. }
  eexists _, _. split; [exact R|]. split; [reflexivity|].
  exact (proj2 (host_calls_atomic ex_magic ex_service ex_magic_inj 2 _ 1 1
    (mkCaller Returned [7; 1; 2; 7] [64; 1; 2; 7]) (mkCaller Returned [7; 1; 2; 7] [64; 1; 2; 7])
    R eq_refl eq_refl) eq_refl).
Defined.

Lemma host_port_progress_witness :
  exists j s', (syscall_step ex_magic j ex_port = Some s' \/ host_step ex_magic ex_service j ex_port = Some s') /\
    (hostAccessSema s', tohost s', fromhost s') <> (-1, 0, 1).
Proof.
  apply (host_port_progress ex_magic ex_service ex_magic_nonzero ex_magic_inj 2 ex_port 0
    (mkCaller Waiting [64; 1; 2; 5] [64; 1; 2; 5])); [apply ex_port_reach|reflexivity|discriminate|discriminate].
Defined.
