(* ===== verification/Runtime.v ===== *)
(** * The multi-hart C runtime

    The rest of riscv-tests/common/syscalls.c: the back-off delay, [setStats], [tohost_exit],
    the trap dispatch of [handle_trap] with [set_interrupt_handler] and
    [set_exception_handler] of riscv-tests/common/util.h, and the counter report of [_init];
    and [verify] and [insn_len] of util.h. *)
From S2P Require Import Prelude Memory CString Printf.
Local Open Scope Z_scope.
Local Open Scope word_scope.

(** ** Back-off *)

(** The number of cycles [arch_rand_delay] waits. *)
Definition arch_rand_delay (failCntr hartId : Z) : Z :=
  Z.land (s32 (s32 (Z.shiftl (Z.shiftr failCntr 2) 4) + s32 (Z.shiftl hartId 4))) 0x7ff + 0x7f.

(** ** Exit *)

(** The shared words [rowActive] and [rowFail]. *)
Record rows := mkRows { rowActive : Z; rowFail : Z }.

(** The two atomic updates of [tohost_exit]: [code<<coreId] is 64 bits wide, [1<<coreId] is
    an [int] that is sign-extended to the width of the amoand.d. *)
Definition exit_amo (coreId code : Z) (r : rows) : rows :=
  mkRows (Z.land (rowActive r) (u64 (s32 (Z.lnot (s32 (Z.shiftl 1 coreId))))))
         (Z.lor (rowFail r) (u64 (Z.shiftl code coreId))).

(** What hart 0 does next: it waits while a row is active, then reports. *)
Definition exit_report (r : rows) : option Z :=
  if negb (rowActive r =? 0) then None else Some (u64 (Z.shiftl (rowFail r) 1) ⊞ 1).

(** ** Counters *)

Definition NUM_COUNTERS : Z := 2.

(** [counters]: the saved value, or the difference since it was saved. *)
Definition read_ctr (enable coreId i csr : Z) (counters : Z -> Z) : Z -> Z :=
  let slot := coreId * NUM_COUNTERS + i in
  let v := if enable =? 0 then csr ⊟ counters slot else csr in
  fun j => if j =? slot then v else counters j.

Definition setStats (enable coreId mcycle minstret : Z) (counters : Z -> Z) : Z -> Z :=
  read_ctr enable coreId 1 minstret (read_ctr enable coreId 0 mcycle counters).

(** ** Traps *)

Definition MAX_EXCEPTION_CODE : Z := 63.
Definition MAX_INTERRUPT_CODE : Z := 15.

Section traps.
Context {handler : Type}.

(** The two tables; [None] is a null pointer. *)
Record trap_tables := mkTables {
  exception_handlers : list (option handler);
  interrupt_handlers : list (option handler) }.

Definition tables0 : trap_tables :=
  mkTables (replicate (Z.to_nat (MAX_EXCEPTION_CODE + 1)) None)
    (replicate (Z.to_nat (MAX_INTERRUPT_CODE + 1)) None).

Inductive trap_result := Handled (h : handler) | Unhandled | OutOfBounds.

(** An array access, with the access past the end made visible. *)
Definition table_ref (t : list (option handler)) (i : Z) : trap_result :=
  match t !! Z.to_nat i with
  | Some (Some h) => Handled h
  | Some None => Unhandled
  | None => OutOfBounds
  end.

Definition handle_trap (t : trap_tables) (cause : Z) : trap_result :=
  let trapno := s64 (Z.land cause 0x7fffffffffffffff) in
  if s64 cause <? 0 then
    if trapno <=? MAX_INTERRUPT_CODE then table_ref (interrupt_handlers t) trapno else Unhandled
  else
    if trapno <=? MAX_EXCEPTION_CODE then table_ref (exception_handlers t) trapno else Unhandled.

(** [None] is the exit with code 999. *)
Definition set_interrupt_handler (trapno : Z) (h : handler) (t : trap_tables) : option trap_tables :=
  if MAX_INTERRUPT_CODE <? trapno then None
  else Some (mkTables (exception_handlers t) (<[Z.to_nat trapno := Some h]> (interrupt_handlers t))).

Definition set_exception_handler (trapno : Z) (h : handler) (t : trap_tables) : option trap_tables :=
  if MAX_EXCEPTION_CODE <? trapno then None
  else Some (mkTables (<[Z.to_nat trapno := Some h]> (exception_handlers t)) (interrupt_handlers t)).
End traps.
Arguments trap_tables : clear implicits.
Arguments trap_result : clear implicits.

(** ** The counter report of [_init] *)

(** "R_%x: %s = %d\n" *)
Definition report_fmt : list Z :=
  [82; 95; 37; 120; 58; 32; 37; 115; 32; 61; 32; 37; 100; 10].

(** The text one [sprintf] call of [_init] appends; the names are strings in [m]. *)
Definition report_line (sfuel : nat) (m : mem) (coreId name value : Z) : res fmt_error (list Z) :=
  vprintfmt (fun l c => l ++ [c]) (fun _ => m) sfuel (S (length report_fmt)) report_fmt
    [coreId; name; value] [].

Definition init_report (sfuel : nat) (m : mem) (coreId name0 name1 : Z) (counters : Z -> Z)
    : res fmt_error (list Z) :=
  l0 ← (if negb (counters 0 =? 0)
        then report_line sfuel m coreId name0 (counters (0 + NUM_COUNTERS * coreId)) else Ok []);
  l1 ← (if negb (counters 1 =? 0)
        then report_line sfuel m coreId name1 (counters (1 + NUM_COUNTERS * coreId)) else Ok []);
  mret (l0 ++ l1).

(** ** Checking results *)

(** [verify]: the loop over pairs, then the odd element; arrays are lists of [int]s, read
    inside their bounds.  The length is an [int]. *)
Fixpoint verify_pairs (i : Z) (test verify : list Z) : option Z :=
  match test, verify with
  | t0 :: t1 :: test, v0 :: v1 :: verify =>
      if negb (t0 =? v0) then Some (i + 1)
      else if negb (t1 =? v1) then Some (i + 2)
      else verify_pairs (i + 2) test verify
  | _, _ => None
  end.

Definition verify (n : Z) (test verify : list Z) : Z :=
  let n := s32 n in
  match verify_pairs 0 (take (Z.to_nat n) test) (take (Z.to_nat n) verify) with
  | Some r => r
  | None =>
      if negb (Z.rem n 2 =? 0) &&
         negb (nth (Z.to_nat (n - 1)) test 0 =? nth (Z.to_nat (n - 1)) verify 0)
      then n else 0
  end.

Definition insn_len (insn : Z) : Z := if negb (Z.land insn 3 =? 0) then 4 else 2.

(** ** Back-off: proofs *)

Lemma arch_rand_delay_spec failCntr hartId :
  0 <= failCntr < 2 ^ 28 -> 0 <= hartId < 64 ->
  arch_rand_delay failCntr hartId = ((failCntr / 4 + hartId) mod 128) * 16 + 127.
Proof.
  intros Hf Hh. unfold arch_rand_delay. rewrite !Z.shiftl_mul_pow2, Z.shiftr_div_pow2 by lia.
  change (2 ^ 2) with 4. change (2 ^ 4) with 16.
  assert (0 <= failCntr / 4 < 2 ^ 26) by dlia.
  rewrite (wrapS_small 32 (failCntr / 4 * 16)), (wrapS_small 32 (hartId * 16)) by lia.
  rewrite wrapS_small by lia. change 0x7ff with (2 ^ 11 - 1).
  rewrite land_pow2_mask by lia. rewrite <-Z.mul_add_distr_r. change (2 ^ 11) with (128 * 16).
  rewrite (Zmult_mod_distr_r (failCntr / 4 + hartId) 128 16). done.
Qed.

(** The back-off keeps harts apart: for the same number of failed tries, two of up to
    64 harts never wait the same time, and the wait is between 127 and 2159 cycles. *)
Lemma backoff_distinct failCntr h1 h2 :
  0 <= failCntr < 2 ^ 28 -> 0 <= h1 < 64 -> 0 <= h2 < 64 -> h1 <> h2 ->
  arch_rand_delay failCntr h1 <> arch_rand_delay failCntr h2 /\
  127 <= arch_rand_delay failCntr h1 <= 2159.
Proof. intros. rewrite !arch_rand_delay_spec by lia. split; dlia. Qed.

Lemma backoff_distinct_witness : arch_rand_delay 9 3 <> arch_rand_delay 9 63.
Proof. apply backoff_distinct; lia. Defined.

(** ** Exit: proofs *)

Lemma exit_mask_bit c k :
  0 <= c <= 30 -> 0 <= k < 64 ->
  Z.testbit (u64 (s32 (Z.lnot (s32 (Z.shiftl 1 c))))) k = negb (k =? c).
Proof.
  intros Hc Hk. assert (0 < 2 ^ c <= 2 ^ 30) as Hp by (split; [lia|apply Z.pow_le_mono_r; lia]).
  rewrite Z.shiftl_1_l, (wrapS_small 32 (2 ^ c)) by lia.
  rewrite wrapS_small by (unfold Z.lnot; lia).
  rewrite testbit_wrapU, Z.lnot_spec, Z.pow2_bits_eqb by lia.
  rewrite (proj2 (Z.ltb_lt k 64)) by lia. by rewrite Z.eqb_sym.
Qed.

Section exits.
Context (codes : Z -> Z).

Definition exits (order : list Z) (r : rows) : rows :=
  fold_left (fun r i => exit_amo i (codes i) r) order r.

Lemma exits_active order : forall r k,
  Forall (fun i => 0 <= i <= 30) order -> 0 <= k < 64 ->
  Z.testbit (rowActive (exits order r)) k = Z.testbit (rowActive r) k && negb (bool_decide (k ∈ order)).
Proof.
  induction order as [|i order IH]; intros r k Ho Hk.
  - simpl. by rewrite andb_true_r.
  - apply Forall_cons in Ho as [Hi Ho]. cbn [exits fold_left]. fold (exits order).
    rewrite (IH _ k Ho Hk). simpl. rewrite Z.land_spec, exit_mask_bit by lia.
    rewrite <-andb_assoc. f_equal. destruct (Z.eqb_spec k i) as [->|Hne]; simpl.
    + rewrite bool_decide_true; [done|]. by left.
    + f_equal. apply bool_decide_ext. rewrite elem_of_cons. intuition.
Qed.

Lemma exits_fail order : forall r k,
  Forall (fun i => 0 <= i <= 30) order -> 0 <= k < 64 ->
  Z.testbit (rowFail (exits order r)) k =
    Z.testbit (rowFail r) k || existsb (fun i => Z.testbit (codes i) (k - i)) order.
Proof.
  induction order as [|i order IH]; intros r k Ho Hk.
  - simpl. by rewrite orb_false_r.
  - apply Forall_cons in Ho as [Hi Ho]. cbn [exits fold_left existsb]. fold (exits order).
    rewrite (IH _ k Ho Hk). simpl. rewrite Z.lor_spec, testbit_wrapU, Z.shiftl_spec by lia.
    rewrite (proj2 (Z.ltb_lt k 64)) by lia. simpl. by rewrite orb_assoc.
Qed.
End exits.

Lemma zero_bits n : 0 <= n < 2 ^ 64 -> (forall k, 0 <= k < 64 -> Z.testbit n k = false) -> n = 0.
Proof.
  intros Hn H. apply Z.bits_inj'. intros k Hk. rewrite Z.bits_0.
  destruct (Z.lt_ge_cases k 64); [apply H; lia|]. apply (testbit_high n 64); lia.
Qed.

Lemma exits_active_range codes order : forall r,
  0 <= rowActive r < 2 ^ 64 -> 0 <= rowActive (exits codes order r) < 2 ^ 64.
Proof.
  induction order as [|i order IH]; intros r Hr; [done|]. cbn [exits fold_left]. apply IH. simpl.
  rewrite Z.land_comm. by apply land_bound.
Qed.

(** with up to 31 harts, whatever the order in which they exit, hart 0 reports exactly
    when all of them have exited, and bit k of the failure word is set exactly when some
    hart i returned a code with bit (k - i) set. *)
Theorem exit_collects n codes order (r := exits codes order (mkRows (2 ^ n - 1) 0)) :
  0 < n <= 31 -> Forall (fun i => 0 <= i < n) order ->
  (exit_report r <> None <-> forall i, 0 <= i < n -> i ∈ order) /\
  (forall k, 0 <= k < 64 ->
     Z.testbit (rowFail r) k = existsb (fun i => Z.testbit (codes i) (k - i)) order).
Proof.
  intros Hn Ho. assert (Forall (fun i => 0 <= i <= 30) order) as Ho'
    by (eapply Forall_impl; [done|]; simpl; lia).
  assert (0 < 2 ^ n <= 2 ^ 31) by (split; [lia|apply Z.pow_le_mono_r; lia]).
  assert (0 <= rowActive r < 2 ^ 64) as Hr by (apply exits_active_range; simpl; lia). split.
  - assert (rowActive r = 0 <-> forall i, 0 <= i < n -> i ∈ order) as E.
    { split.
      - intros E i Hi. pose proof (exits_active codes order (mkRows (2 ^ n - 1) 0) i Ho' ltac:(lia)) as Hb.
        fold r in Hb. rewrite E, Z.bits_0 in Hb. simpl rowActive in Hb.
        replace (2 ^ n - 1) with (Z.ones n) in Hb by (rewrite Z.ones_equiv; lia).
        rewrite Z.ones_spec_low in Hb by lia. simpl in Hb.
        destruct (bool_decide_reflect (i ∈ order)); done.
      - intros Hall. apply (zero_bits _ Hr). intros k Hk. unfold r.
        rewrite exits_active by done. simpl rowActive.
        replace (2 ^ n - 1) with (Z.ones n) by (rewrite Z.ones_equiv; lia).
        destruct (Z.lt_ge_cases k n).
        + rewrite bool_decide_true by (apply Hall; lia). apply andb_false_r.
        + by rewrite Z.ones_spec_high by lia. }
    rewrite <-E. unfold exit_report. destruct (Z.eqb_spec (rowActive r) 0); simpl; intuition congruence.
  - intros k Hk. unfold r. rewrite exits_fail by done. simpl rowFail. by rewrite Z.bits_0.
Qed.

Lemma exit_collects_witness :
  exit_report (exits (fun i => if i =? 1 then 3 else 0) [2; 1; 0] (mkRows (2 ^ 3 - 1) 0)) <> None.
Proof.
  apply (exit_collects 3 (fun i => if i =? 1 then 3 else 0) [2; 1; 0]).
  - lia.
  - rewrite !Forall_cons, Forall_nil. lia.
  - intros i Hi. assert (i = 0 \/ i = 1 \/ i = 2) as [-> | [-> | ->]] by lia;
      rewrite !elem_of_cons; tauto.
Defined.

(** The exit of hart 31 clears the active bits of all harts from 31 on, not only its
    own, because the mask is computed in 32 bits; hart 0 then no longer waits for harts 32
    to 63. *)
Lemma hart31_clears_upper code r :
  0 <= rowActive r < 2 ^ 64 -> rowActive (exit_amo 31 code r) = rowActive r mod 2 ^ 31.
Proof.
  intros Hr. unfold exit_amo. simpl rowActive.
  change (u64 (s32 (Z.lnot (s32 (Z.shiftl 1 31))))) with (2 ^ 31 - 1).
  apply land_pow2_mask. lia.
Qed.

Lemma hart31_clears_upper_witness : rowActive (exit_amo 31 0 (mkRows (2 ^ 64 - 1) 0)) = 2 ^ 31 - 1.
Proof. exact (hart31_clears_upper 0 (mkRows (2 ^ 64 - 1) 0) ltac:(simpl; lia)). Defined.

(** ** Traps: proofs *)

Section trap_proofs.
Context {handler : Type}.
Implicit Types t : trap_tables handler.

(** The tables keep their declared sizes. *)
Definition tables_ok t : Prop :=
  Z.of_nat (length (exception_handlers t)) = MAX_EXCEPTION_CODE + 1 /\
  Z.of_nat (length (interrupt_handlers t)) = MAX_INTERRUPT_CODE + 1.

Lemma tables0_ok : tables_ok (@tables0 handler).
Proof. split; simpl; by rewrite ?length_replicate. Qed.

Definition interrupt_cause (trapno : Z) : Z := 2 ^ 63 + trapno.

Lemma cause_split cause :
  0 <= cause < 2 ^ 64 ->
  s64 (Z.land cause 0x7fffffffffffffff) = cause mod 2 ^ 63 /\
  (s64 cause <? 0) = (2 ^ 63 <=? cause).
Proof.
  intros Hc. change 0x7fffffffffffffff with (2 ^ 63 - 1). rewrite land_pow2_mask by lia.
  pose proof (Z.mod_pos_bound cause (2 ^ 63) ltac:(lia)). split; [apply wrapS_small; lia|].
  unfold wrapS. destruct (Z.leb_spec (2 ^ 63) cause).
  - replace (cause + 2 ^ (64 - 1)) with (cause - 2 ^ 63 + 1 * 2 ^ 64) by lia.
    rewrite Z.mod_add, Z.mod_small by lia. apply Z.ltb_lt. lia.
  - rewrite Z.mod_small by lia. apply Z.ltb_ge. lia.
Qed.

Lemma table_ref_bound (l : list (option handler)) i :
  0 <= i < Z.of_nat (length l) -> table_ref l i <> OutOfBounds.
Proof.
  intros Hi. unfold table_ref. destruct (lookup_lt_is_Some_2 l (Z.to_nat i) ltac:(lia)) as [[h|] ->]; done.
Qed.

Lemma table_ref_insert (l : list (option handler)) i j h :
  0 <= i < Z.of_nat (length l) -> 0 <= j ->
  table_ref (<[Z.to_nat i := Some h]> l) j = if decide (j = i) then Handled h else table_ref l j.
Proof.
  intros Hi Hj. unfold table_ref. destruct (decide (j = i)) as [->|Hne].
  - by rewrite list_lookup_insert_eq by lia.
  - by rewrite list_lookup_insert_ne by lia.
Qed.

(** The trap dispatch never reads outside its tables, whatever the 64-bit cause; a
    handler installed for an interrupt number runs for that interrupt and changes the
    dispatch of no other trap. *)
Theorem trap_dispatch t cause trapno h :
  tables_ok t -> 0 <= cause < 2 ^ 64 -> 0 <= trapno <= MAX_INTERRUPT_CODE ->
  handle_trap t cause <> OutOfBounds /\
  exists t', set_interrupt_handler trapno h t = Some t' /\ tables_ok t' /\
    handle_trap t' cause =
      if decide (cause = interrupt_cause trapno) then Handled h else handle_trap t cause.
Proof.
  intros [He Hi] Hc Ht. destruct (cause_split cause Hc) as [E1 E2].
  pose proof (Z.mod_pos_bound cause (2 ^ 63) ltac:(lia)).
  unfold handle_trap, set_interrupt_handler, interrupt_cause, tables_ok in *. rewrite E1, E2.
  rewrite (proj2 (Z.ltb_ge _ _)) by lia. split.
  - split_cmp; try done; apply table_ref_bound; lia.
  - eexists. split; [done|]. simpl. rewrite length_insert. split; [done|].
    destruct (Z.leb_spec (2 ^ 63) cause) as [Hg|Hl].
    + assert (cause mod 2 ^ 63 = cause - 2 ^ 63) as -> by dlia.
      destruct (Z.leb_spec (cause - 2 ^ 63) MAX_INTERRUPT_CODE).
      * rewrite table_ref_insert by lia.
        by destruct (decide (cause - 2 ^ 63 = trapno)), (decide (cause = 2 ^ 63 + trapno)); try lia.
      * destruct (decide (cause = 2 ^ 63 + trapno)); [lia|done].
    + destruct (decide (cause = 2 ^ 63 + trapno)); [lia|done].
Qed.

Lemma set_exception_dispatch t cause trapno h :
  tables_ok t -> 0 <= cause < 2 ^ 64 -> 0 <= trapno <= MAX_EXCEPTION_CODE ->
  exists t', set_exception_handler trapno h t = Some t' /\ tables_ok t' /\
    handle_trap t' cause = if decide (cause = trapno) then Handled h else handle_trap t cause.
Proof.
  intros [He Hi] Hc Ht. destruct (cause_split cause Hc) as [E1 E2].
  unfold handle_trap, set_exception_handler, tables_ok in *. rewrite E1, E2.
  rewrite (proj2 (Z.ltb_ge _ _)) by lia. unfold MAX_EXCEPTION_CODE in *.
  eexists. split; [done|]. simpl. rewrite length_insert. split; [done|].
  destruct (Z.leb_spec (2 ^ 63) cause) as [Hg|Hl].
  - destruct (decide (cause = trapno)); [lia|done].
  - rewrite Z.mod_small by lia. destruct (Z.leb_spec cause 63).
    + rewrite table_ref_insert by lia. done.
    + destruct (decide (cause = trapno)); [lia|done].
Qed.
End trap_proofs.

Lemma trap_dispatch_witness :
  handle_trap (@tables0 nat) 5 <> OutOfBounds /\
  exists t', set_interrupt_handler 7 42%nat tables0 = Some t' /\ tables_ok t' /\
    handle_trap t' (2 ^ 63 + 7) = Handled 42%nat.
Proof.
  split; [apply (trap_dispatch tables0 5 7 42%nat); [apply tables0_ok|vm_compute; intuition congruence..]|].
  destruct (trap_dispatch (@tables0 nat) (2 ^ 63 + 7) 7 42%nat) as (_ & t' & H1 & H2 & H3);
    [apply tables0_ok|vm_compute; intuition congruence..|].
  exists t'. split_and!; [exact H1|exact H2|exact H3].
Defined.

(** ** Counters: proofs *)

(** [setStats(1)] and a later [setStats(0)] leave the elapsed counts of the hart, also when
    a counter wraps in between, and touch no other hart. *)
Lemma setStats_elapsed coreId mc0 mi0 mc1 mi1 counters :
  0 <= coreId ->
  let c := setStats 0 coreId mc1 mi1 (setStats 1 coreId mc0 mi0 counters) in
  c (coreId * NUM_COUNTERS) = mc1 ⊟ mc0 /\ c (coreId * NUM_COUNTERS + 1) = mi1 ⊟ mi0 /\
  forall other i, other <> coreId -> 0 <= i < NUM_COUNTERS ->
    c (other * NUM_COUNTERS + i) = counters (other * NUM_COUNTERS + i).
Proof.
  unfold setStats, read_ctr, NUM_COUNTERS. intros Hc. cbn zeta. simpl (1 =? 0). simpl (0 =? 0).
  cbn match. split_and!; [| |intros]; repeat (case_match; try lia); try done; split_cmp; try lia; done.
Qed.

(** ** The counter report: proofs *)

Lemma fold_digits_lower base ds : 1 < base -> Forall (fun d => 0 <= d < base) ds -> forall a,
  0 <= a -> a * base ^ Z.of_nat (length ds) <= fold_left (fun a d => a * base + d) ds a.
Proof.
  intros Hb Hds. induction Hds as [|d ds Hd Hds IH]; intros a Ha; [simpl; lia|].
  cbn [length fold_left]. rewrite Nat2Z.inj_succ, Z.pow_succ_r by lia.
  specialize (IH (a * base + d) ltac:(nia)). nia.
Qed.

(** A number below [base ^ k] has at most [k] digits. *)
Lemma numeral_length base l n k :
  1 < base -> is_numeral base l n -> n < base ^ Z.of_nat k -> (0 < k)%nat -> (length l <= k)%nat.
Proof.
  intros Hb (ds & -> & Hds & Hv & H0 & H1) Hn Hk. rewrite length_map.
  destruct (decide (n = 0)) as [Hz|Hnz]; [rewrite (H0 Hz); simpl; lia|].
  destruct (H1 Hnz) as (d & ds' & -> & Hd). apply Forall_cons in Hds as [Hd' Hds].
  cbn [fold_left length] in *.
  pose proof (fold_digits_lower base ds' Hb Hds (0 * base + d) ltac:(lia)).
  destruct (le_lt_dec (S (length ds')) k) as [|Hlt]; [done|].
  pose proof (Z.pow_le_mono_r base (Z.of_nat k) (Z.of_nat (length ds')) ltac:(lia) ltac:(lia)).
  assert (0 < base ^ Z.of_nat (length ds')) by (apply Z.pow_pos_nonneg; lia). nia.
Qed.

Lemma collect_puts (l out : list Z) : fold_left (fun l c => l ++ [c]) out l = l ++ out.
Proof.
  revert l. induction out as [|c out IH]; intros l; simpl; [by rewrite app_nil_r|].
  by rewrite IH, <-app_assoc.
Qed.

Definition report_directives (coreId name value : Z) (s : list Z) : list directive :=
  map Lit [82; 95] ++ [Unsigned Cx false [] false coreId] ++ map Lit [58; 32] ++
  [Str false [] name s] ++ map Lit [32; 61; 32] ++ [Signed false [] false value; Lit 10].

Lemma renders_int_length a out : renders (Signed false [] false a) out -> (length out <= 11)%nat.
Proof.
  intros (out' & (l & Hl & ->) & ->). unfold signed_value in *. rewrite !length_app.
  pose proof (wrapS_range 32 a ltac:(lia)). apply (numeral_length 10 _ _ 10) in Hl; try lia.
  rewrite rep_neg by (unfold width_of; simpl; lia). destruct (_ <? _); simpl; lia.
Qed.

Lemma renders_hart_length a out :
  0 <= a < 64 -> renders (Unsigned Cx false [] false a) out -> (length out <= 2)%nat.
Proof.
  intros Ha (l & Hl & ->). simpl unsigned_value in Hl. rewrite wrapU_small in Hl by lia.
  apply (numeral_length 16 _ _ 2) in Hl; try (simpl; lia).
  rewrite rep_neg by (unfold width_of; simpl; lia). done.
Qed.

Lemma report_line_fits sfuel m coreId name value s :
  0 <= coreId < 64 -> 0 < name -> name + Z.of_nat (length s) < 2 ^ 64 ->
  (length s < sfuel)%nat -> cstr m name s ->
  exists out, report_line sfuel m coreId name value = Ok out /\ (length out <= 21 + length s)%nat.
Proof.
  intros Hc Hn Hl Hf Hs.
  destruct (vprintfmt_directives (fun l c => l ++ [c]) (fun _ => m) sfuel ltac:(done)
    (report_directives coreId name value s) (S (length report_fmt)) [] [])
    as (outs & Ho & E).
  - repeat constructor; simpl; try done; lia.
  - simpl. lia.
  - exists (concat outs). split.
    { unfold report_line. change report_fmt with (concat (map fmt_of (report_directives coreId name value s))) at 2.
      change [coreId; name; value] with (concat (map args_of (report_directives coreId name value s)) ++ []).
      rewrite E. unfold puts. by rewrite collect_puts. }
    unfold report_directives in Ho. cbn [map app] in Ho.
    repeat match goal with
    | H : Forall2 _ (_ :: _) _ |- _ => apply Forall2_cons_inv_l in H as (? & ? & ? & H & ->)
    end.
    apply Forall2_nil_inv_l in Ho as ->.
    repeat match goal with
    | H : renders (Lit _) _ |- _ => simpl in H; subst
    | H : renders (Str _ _ _ _) _ |- _ =>
        simpl in H; rewrite rep_neg in H by (unfold width_of; simpl; lia); subst
    | H : renders (Signed _ _ _ _) _ |- _ => apply renders_int_length in H
    | H : renders (Unsigned _ _ _ _ _) _ |- _ => apply renders_hart_length in H; [|done]
    end.
    cbn [concat]. repeat first [rewrite length_app | progress simpl]. lia.
Qed.

(** The two lines that [_init] formats fit its 64-byte buffer with their terminator, for
    every hart number below 64 and all counter values, the counter names being the two that
    [setStats] stores. *)
Theorem init_report_fits sfuel m coreId name0 name1 counters :
  0 <= coreId < 64 -> (8 < sfuel)%nat ->
  0 < name0 < 2 ^ 63 -> cstr m name0 [109; 99; 121; 99; 108; 101] ->
  0 < name1 < 2 ^ 63 -> cstr m name1 [109; 105; 110; 115; 116; 114; 101; 116] ->
  exists out, init_report sfuel m coreId name0 name1 counters = Ok out /\
    Z.of_nat (length out) + 1 <= NUM_COUNTERS * 32.
Proof.
  intros Hc Hf Hn0 H0 Hn1 H1. unfold init_report.
  destruct (report_line_fits sfuel m coreId name0 (counters (0 + NUM_COUNTERS * coreId))
    [109; 99; 121; 99; 108; 101] Hc ltac:(lia) ltac:(simpl; lia) ltac:(simpl; lia) H0) as (o0 & -> & L0).
  destruct (report_line_fits sfuel m coreId name1 (counters (1 + NUM_COUNTERS * coreId))
    [109; 105; 110; 115; 116; 114; 101; 116] Hc ltac:(lia) ltac:(simpl; lia) ltac:(simpl; lia) H1) as (o1 & -> & L1).
  unfold NUM_COUNTERS. simpl in L0, L1.
  destruct (negb (counters 0 =? 0)), (negb (counters 1 =? 0)); simpl;
    eexists; (split; [reflexivity|]); rewrite ?length_app; simpl; lia.
Qed.

Lemma init_report_fits_witness :
  let m := fun a => if a <? 2000 then mem_of 1000 [109; 99; 121; 99; 108; 101] a
                    else mem_of 2000 [109; 105; 110; 115; 116; 114; 101; 116] a in
  exists out, init_report 9 m 63 1000 2000 (fun _ => 2 ^ 31) = Ok out /\
    Z.of_nat (length out) + 1 <= NUM_COUNTERS * 32.
Proof.
  apply init_report_fits; try lia; vm_compute; intuition congruence.
Defined.

(** ** Checking results: proofs *)

(** The first position where the two arrays differ. *)
Fixpoint first_diff (i : Z) (test ver : list Z) : option Z :=
  match test, ver with
  | t :: test, v :: ver => if t =? v then first_diff (i + 1) test ver else Some i
  | _, _ => None
  end.

Lemma first_diff_spec test : forall i ver, length test = length ver ->
  match first_diff i test ver with
  | None => test = ver
  | Some j => i <= j < i + Z.of_nat (length test) /\
      take (Z.to_nat (j - i)) test = take (Z.to_nat (j - i)) ver /\
      test !! Z.to_nat (j - i) <> ver !! Z.to_nat (j - i)
  end.
Proof.
  induction test as [|t test IH]; intros i [|v ver] Hl; simplify_eq/=; [done|].
  destruct (Z.eqb_spec t v) as [->|Hne].
  - specialize (IH (i + 1) ver ltac:(lia)). destruct (first_diff (i + 1) test ver) as [j|]; [|by subst].
    destruct IH as (Hj & Ht & Hn). replace (Z.to_nat (j - i)) with (S (Z.to_nat (j - (i + 1)))) by lia.
    simpl. rewrite Ht. split_and!; [lia|lia|done..].
  - rewrite Z.sub_diag. simpl. split_and!; [lia|lia|done|congruence].
Qed.

Lemma verify_pairs_first_diff n : forall i test ver,
  (length test <= n)%nat -> length test = length ver ->
  match verify_pairs i test ver with
  | Some r => first_diff i test ver = Some (r - 1)
  | None => first_diff i test ver = None \/
      exists t v, last test = Some t /\ last ver = Some v /\ t <> v /\
        Z.odd (Z.of_nat (length test)) = true /\
        first_diff i test ver = Some (i + Z.of_nat (length test) - 1)
  end.
Proof.
  induction n as [|n IH]; intros i [|t0 [|t1 test]] [|v0 [|v1 ver]] Hn Hl; simplify_eq/=; try lia; eauto.
  - destruct (Z.eqb_spec t0 v0); [by left|]. right. exists t0, v0. split_and!; try done. f_equal; lia.
  - destruct (Z.eqb_spec t0 v0); simpl; [|f_equal; lia]. destruct (Z.eqb_spec t1 v1); simpl; [|f_equal; lia].
    replace (i + 1 + 1) with (i + 2) by lia.
    specialize (IH (i + 2) test ver ltac:(lia) ltac:(lia)).
    destruct (verify_pairs (i + 2) test ver); [done|]. destruct IH as [|(t & v & H1 & H2 & H3 & H4 & H5)]; [by left|].
    right. exists t, v. destruct test, ver; try done. rewrite H5. split_and!; try done.
    + change (Z.odd (Z.of_nat (S (S (length (z :: test))))) = true).
      by rewrite !Nat2Z.inj_succ, Z.odd_succ_succ.
    + f_equal. simpl. lia.
Qed.

Lemma nth_last (l : list Z) t : last l = Some t -> nth (length l - 1) l 0 = t.
Proof.
  intros H. rewrite last_lookup in H. rewrite (nth_lookup_Some l _ 0 t); [done|].
  by rewrite Nat.sub_1_r.
Qed.

Lemma verify_first_diff n test ver :
  n < 2 ^ 31 -> Z.of_nat (length test) = n -> Z.of_nat (length ver) = n ->
  verify n test ver = match first_diff 0 test ver with Some j => j + 1 | None => 0 end.
Proof.
  intros Hn Ht Hv. unfold verify. rewrite wrapS_small by lia. cbv zeta. rewrite !take_ge by lia.
  pose proof (verify_pairs_first_diff (length test) 0 test ver ltac:(lia) ltac:(lia)) as H.
  destruct (verify_pairs 0 test ver) as [r|]; [rewrite H; lia|].
  pose proof (first_diff_spec test 0 ver ltac:(lia)) as Hs.
  destruct H as [E|(t & v & H1 & H2 & H3 & H4 & E)]; rewrite E in *.
  - subst ver. rewrite Z.eqb_refl. by rewrite andb_false_r.
  - replace (Z.to_nat (n - 1)) with (length test - 1)%nat by lia.
    rewrite (nth_last test t) by done. replace (length test) with (length ver) by lia.
    rewrite (nth_last ver v) by done. rewrite (proj2 (Z.eqb_neq t v)) by done.
    rewrite Ht in H4. rewrite Z.rem_mod_nonneg, Zmod_odd, H4 by lia. simpl. lia.
Qed.

(** [verify] returns 0 exactly when the two arrays agree, and otherwise one more than
    the first index where they differ, for even and odd lengths. *)
Theorem verify_correct n test ver :
  n < 2 ^ 31 -> Z.of_nat (length test) = n -> Z.of_nat (length ver) = n ->
  (verify n test ver = 0 <-> test = ver) /\
  (verify n test ver <> 0 -> exists j : nat, verify n test ver = Z.of_nat j + 1 /\
     take j test = take j ver /\ test !! j <> ver !! j).
Proof.
  intros Hn Ht Hv. rewrite verify_first_diff by done.
  pose proof (first_diff_spec test 0 ver ltac:(lia)) as H.
  destruct (first_diff 0 test ver) as [j|]; [|done]. destruct H as (Hj & H1 & H2).
  rewrite Z.sub_0_r in *. split; [|intros _; exists (Z.to_nat j); split_and!; [lia|done..]].
  split; [lia|]. intros ->. done.
Qed.

Lemma verify_correct_witness :
  verify 5 [1; 2; 3; 4; 5] [1; 2; 3; 4; 6] = 5 /\
  exists j : nat, verify 5 [1; 2; 3; 4; 5] [1; 2; 3; 4; 6] = Z.of_nat j + 1 /\
     take j [1; 2; 3; 4; 5] = take j [1; 2; 3; 4; 6] /\
     [1; 2; 3; 4; 5] !! j <> [1; 2; 3; 4; 6] !! j.
Proof.
  split; [reflexivity|]. apply (verify_correct 5); [reflexivity..|]. vm_compute. discriminate.
Defined.

(** [insn_len] takes an instruction to be compressed only when its two low bits are 0; the
    encodings with low bits 1 and 2 are compressed too, and get the length 4. *)
Lemma insn_len_quadrants insn :
  insn_len insn = (if decide (insn mod 4 = 0) then 2 else 4) /\ insn_len 0x0001 = 4.
Proof.
  split; [|done]. unfold insn_len. change 3 with (2 ^ 2 - 1). rewrite land_pow2_mask by lia.
  change (2 ^ 2) with 4. destruct (Z.eqb_spec (insn mod 4) 0), (decide (insn mod 4 = 0)); done.
Qed.
