(* ===== verification/Htif.v ===== *)
(** * Newlib system calls over the host interface

    spec95-equivalent/benchmarks/baremetal/common/htif_syscalls.c above the request protocol:
    the error convention [bm_ret], the translation of open flags, the copy of the host's
    [struct stat], the table that redirects the standard streams, the file operations, the
    clocks and [_getcwd].  The host is a parameter, any function that may change memory;
    newlib's own constants and field widths are parameters too, with what the code relies on
    as hypotheses.  Pointers go to the host through [bm_pa], so the section is about one
    process [p] of Process.v: [view] is memory as that process addresses it. *)
From S2P Require Import Prelude Memory CString Process.
Local Open Scope Z_scope.
Local Open Scope word_scope.

(** ** Numbers of htif.h *)

Definition BM_SYS_unlinkat : Z := 35.
Definition BM_SYS_faccessat : Z := 48.
Definition BM_SYS_openat : Z := 56.
Definition BM_SYS_close : Z := 57.
Definition BM_SYS_lseek : Z := 62.
Definition BM_SYS_read : Z := 63.
Definition BM_SYS_write : Z := 64.
Definition BM_SYS_fstatat : Z := 79.
Definition BM_SYS_fstat : Z := 80.
Definition BM_AT_FDCWD : Z := -100.

(** ** Open flags *)

Definition LINUX_O_CREAT : Z := 0x000040.
Definition LINUX_O_EXCL : Z := 0x000080.
Definition LINUX_O_NOCTTY : Z := 0x000100.
Definition LINUX_O_TRUNC : Z := 0x000200.
Definition LINUX_O_APPEND : Z := 0x000400.
Definition LINUX_O_NONBLOCK : Z := 0x000800.
Definition LINUX_O_DIRECTORY : Z := 0x010000.
Definition LINUX_O_NOFOLLOW : Z := 0x020000.
Definition LINUX_O_CLOEXEC : Z := 0x080000.
Definition LINUX_O_SYNC : Z := 0x101000.

(** The values of newlib's <fcntl.h>; [None] for a macro that is not defined. *)
Record newlib_flags := mkFlags {
  O_ACCMODE : Z; O_CREAT : Z; O_EXCL : Z; O_TRUNC : Z; O_APPEND : Z; O_NONBLOCK : Z;
  O_NOCTTY : Z; O_SYNC : Z;
  O_CLOEXEC : option Z; O_DIRECTORY : option Z; O_NOFOLLOW : option Z }.

(** [if (flags & bit) out |= linux_bit]. *)
Definition add_flag (flags bit linux_bit out : Z) : Z :=
  if negb (Z.land flags bit =? 0) then Z.lor out linux_bit else out.

Definition add_flag_opt (flags : Z) (bit : option Z) (linux_bit out : Z) : Z :=
  match bit with Some b => add_flag flags b linux_bit out | None => out end.

Definition bm_open_flags (nf : newlib_flags) (flags : Z) : Z :=
  let out := Z.land flags (O_ACCMODE nf) in
  let out := add_flag flags (O_CREAT nf) LINUX_O_CREAT out in
  let out := add_flag flags (O_EXCL nf) LINUX_O_EXCL out in
  let out := add_flag flags (O_TRUNC nf) LINUX_O_TRUNC out in
  let out := add_flag flags (O_APPEND nf) LINUX_O_APPEND out in
  let out := add_flag flags (O_NONBLOCK nf) LINUX_O_NONBLOCK out in
  let out := add_flag flags (O_NOCTTY nf) LINUX_O_NOCTTY out in
  let out := add_flag flags (O_SYNC nf) LINUX_O_SYNC out in
  let out := add_flag_opt flags (O_CLOEXEC nf) LINUX_O_CLOEXEC out in
  let out := add_flag_opt flags (O_DIRECTORY nf) LINUX_O_DIRECTORY out in
  add_flag_opt flags (O_NOFOLLOW nf) LINUX_O_NOFOLLOW out.

(** ** struct stat *)

Inductive stat_field :=
| st_dev | st_ino | st_mode | st_nlink | st_uid | st_gid | st_rdev | st_size | st_blksize
| st_blocks | st_atime | st_mtime | st_ctime.

#[export] Instance stat_field_eq_dec : EqDecision stat_field.
Proof. solve_decision. Defined.

(** The layout of [struct bm_linux_stat]: offset and size of each field that is copied, and
    the size of the whole. *)
Definition bm_linux_stat (f : stat_field) : Z * nat :=
  match f with
  | st_dev => (0, 8%nat) | st_ino => (8, 8%nat) | st_mode => (16, 4%nat)
  | st_nlink => (20, 4%nat) | st_uid => (24, 4%nat) | st_gid => (28, 4%nat)
  | st_rdev => (32, 8%nat) | st_size => (48, 8%nat) | st_blksize => (56, 4%nat)
  | st_blocks => (64, 8%nat) | st_atime => (72, 8%nat) | st_mtime => (88, 8%nat)
  | st_ctime => (104, 8%nat)
  end.

Definition bm_linux_stat_size : Z := 128.

(** Newlib's [struct stat], field by field. *)
Definition stat : Type := stat_field -> Z.

Definition set_field (f : stat_field) (v : Z) (st : stat) : stat :=
  fun g => if decide (g = f) then v else st g.

(** ** The calls *)

Section htif.
Context {H : Type}.
(** The host: request number, arguments, memory and its own state to the answer. *)
Context (host : Z -> list Z -> mem * H -> Z * (mem * H)).
Context (p : process) (nf : newlib_flags).
(** Newlib's <sys/stat.h>: the conversion of a value to a field's type, and the two macros. *)
Context (to_field : stat_field -> Z -> Z) (S_IFCHR : Z) (S_ISREG : Z -> bool).

Record io := mkIo { io_mem : mem; io_host : H; errno : Z; bm_std_fd : list Z }.

Definition bm_htif_syscall (which : Z) (args : list Z) (s : io) : Z * io :=
  let '(r, (m, h)) := host which args (io_mem s, io_host s) in
  (s64 r, mkIo m h (errno s) (bm_std_fd s)).

Definition bm_ret (r : Z) (s : io) : Z * io :=
  if (r <? 0) && (-4096 <? r)
  then (-1, mkIo (io_mem s) (io_host s) (s32 (- r)) (bm_std_fd s)) else (r, s).

(** [bm_ret(bm_htif_syscall(...))]. *)
Definition bm_call (which : Z) (args : list Z) (s : io) : Z * io :=
  let '(r, s) := bm_htif_syscall which args s in bm_ret r s.

Definition as_int (r : Z * io) : Z * io := (s32 r.1, r.2).

(** Memory as the process addresses it. *)
Definition view (m : mem) : mem := fun a => m (bm_pa p a).

(** A request that names a file: the string's length with its terminator goes along.
    [None] when the scan for the terminator runs out of [fuel]. *)
Definition with_name (fuel : nat) (name : Z) (s : io) (k : Z -> Z * io) : option (Z * io) :=
  n ← strlen fuel (view (io_mem s)) name; Some (k (s64 (n ⊞ 1))).

Definition openat (fuel : nat) (dirfd name flags mode : Z) (s : io) : option (Z * io) :=
  with_name fuel name s (fun n =>
    as_int (bm_call BM_SYS_openat
      [dirfd; bm_pa p name; n; bm_open_flags nf flags; mode; 0; 0] s)).

(** [mode_arg] is the variadic argument. *)
Definition open (fuel : nat) (name flags mode_arg : Z) (s : io) : option (Z * io) :=
  let mode := if negb (Z.land flags (O_CREAT nf) =? 0) then s32 mode_arg else 438 in
  openat fuel BM_AT_FDCWD name flags mode s.

Definition bm_redirect_std (fd host_fd : Z) (s : io) : io :=
  if (0 <=? fd) && (fd <? 3) && (0 <=? host_fd)
  then mkIo (io_mem s) (io_host s) (errno s) (<[Z.to_nat fd := host_fd]> (bm_std_fd s)) else s.

Definition bm_fd (fd : Z) (s : io) : Z :=
  if (0 <=? fd) && (fd <? 3) then nth (Z.to_nat fd) (bm_std_fd s) 0 else fd.

Definition read (fd buf len : Z) (s : io) : Z * io :=
  bm_call BM_SYS_read [bm_fd fd s; bm_pa p buf; s64 len; 0; 0; 0; 0] s.

Definition write (fd buf len : Z) (s : io) : Z * io :=
  bm_call BM_SYS_write [bm_fd fd s; bm_pa p buf; s64 len; 0; 0; 0; 0] s.

Definition close (fd : Z) (s : io) : Z * io :=
  if fd <? 3 then (0, s)
  else as_int (bm_call BM_SYS_close [fd; 0; 0; 0; 0; 0; 0] s).

Definition lseek (fd off whence : Z) (s : io) : Z * io :=
  bm_call BM_SYS_lseek [bm_fd fd s; off; whence; 0; 0; 0; 0] s.

(** [bm_copy_stat]: the fields of the structure at [ls] in the program's memory. *)
Definition bm_copy_stat (m : mem) (ls : Z) : stat :=
  let fld f := to_field f (load_le (bm_linux_stat f).2 m (ls + (bm_linux_stat f).1)) in
  let st := fun _ => 0 in
  let st := set_field st_dev (fld st_dev) st in
  let st := set_field st_ino (fld st_ino) st in
  let st := set_field st_mode (fld st_mode) st in
  let st := set_field st_nlink (fld st_nlink) st in
  let st := set_field st_uid (fld st_uid) st in
  let st := set_field st_gid (fld st_gid) st in
  let st := set_field st_rdev (fld st_rdev) st in
  let st := set_field st_size (fld st_size) st in
  let st := set_field st_blksize (fld st_blksize) st in
  let st := set_field st_blocks (fld st_blocks) st in
  let st := set_field st_atime (fld st_atime) st in
  let st := set_field st_mtime (fld st_mtime) st in
  set_field st_ctime (fld st_ctime) st.

Definition BM_FILE_BLKSIZE : Z := 64 * 1024.

(** [ls] is the address of the local structure; [None] for the result leaves [*st] alone. *)
Definition fstat (fd ls : Z) (s : io) : Z * option stat * io :=
  if fd <? 3 then
    (0, Some (set_field st_blksize (to_field st_blksize 1024)
          (set_field st_mode (to_field st_mode S_IFCHR) (fun _ => 0))), s)
  else
    let '(r, s) := bm_call BM_SYS_fstat [fd; bm_pa p ls; 0; 0; 0; 0; 0] s in
    if r <? 0 then (-1, None, s)
    else
      let st := bm_copy_stat (view (io_mem s)) ls in
      let st := if S_ISREG (st st_mode) && (0 <? BM_FILE_BLKSIZE)
                then set_field st_blksize (to_field st_blksize BM_FILE_BLKSIZE) st else st in
      (0, Some st, s).

Definition stat_file (fuel : nat) (name ls : Z) (s : io) : option (Z * option stat * io) :=
  n ← strlen fuel (view (io_mem s)) name;
  let '(r, s) := bm_call BM_SYS_fstatat
    [BM_AT_FDCWD; bm_pa p name; s64 (n ⊞ 1); bm_pa p ls; 0; 0; 0] s in
  Some (if r <? 0 then (-1, None, s) else (0, Some (bm_copy_stat (view (io_mem s)) ls), s)).

Definition lstat (fuel : nat) (name ls : Z) (s : io) : option (Z * option stat * io) :=
  stat_file fuel name ls s.

Definition unlink (fuel : nat) (name : Z) (s : io) : option (Z * io) :=
  with_name fuel name s (fun n =>
    as_int (bm_call BM_SYS_unlinkat [BM_AT_FDCWD; bm_pa p name; n; 0; 0; 0; 0] s)).

Definition access (fuel : nat) (name mode : Z) (s : io) : option (Z * io) :=
  with_name fuel name s (fun n =>
    as_int (bm_call BM_SYS_faccessat [BM_AT_FDCWD; bm_pa p name; n; mode; 0; 0; 0] s)).

Definition isatty (fd : Z) : Z := 0.
End htif.
Arguments io : clear implicits.

(** ** Clocks *)

Section clocks.
Context (BM_CPU_HZ CLOCKS_PER_SEC : Z).

(** [c] is the cycle counter; the pair is what a non-null argument receives. *)
Definition gettimeofday (c : Z) : Z * Z :=
  (s64 (c / BM_CPU_HZ), s64 ((c mod BM_CPU_HZ ⊠ 1000000) / BM_CPU_HZ)).

Definition times (c : Z) : Z :=
  s64 (c / BM_CPU_HZ ⊠ CLOCKS_PER_SEC ⊞ (c mod BM_CPU_HZ ⊠ CLOCKS_PER_SEC) / BM_CPU_HZ).

Definition clock_gettime (c : Z) : Z * Z :=
  (s64 (c / BM_CPU_HZ), s64 ((c mod BM_CPU_HZ ⊠ 1000000000) / BM_CPU_HZ)).

Definition time (c : Z) : Z := s64 (c / BM_CPU_HZ).
End clocks.

(** [_getcwd]: the buffer filled with ".", or [ERANGE]. *)
Definition getcwd (m : mem) (buf size : Z) : option mem :=
  if size <? 2 then None else Some (store8 (store8 m buf 46) (buf + 1) 0).

(** ** Open flags: proofs *)

Definition requested (flags : Z) (bit : option Z) : bool :=
  match bit with Some b => negb (Z.land flags b =? 0) | None => false end.

(** Newlib's flag and the Linux flag that stands for it. *)
Definition flag_table (nf : newlib_flags) : list (option Z * Z) :=
  [ (Some (O_CREAT nf), LINUX_O_CREAT); (Some (O_EXCL nf), LINUX_O_EXCL);
    (Some (O_TRUNC nf), LINUX_O_TRUNC); (Some (O_APPEND nf), LINUX_O_APPEND);
    (Some (O_NONBLOCK nf), LINUX_O_NONBLOCK); (Some (O_NOCTTY nf), LINUX_O_NOCTTY);
    (Some (O_SYNC nf), LINUX_O_SYNC); (O_CLOEXEC nf, LINUX_O_CLOEXEC);
    (O_DIRECTORY nf, LINUX_O_DIRECTORY); (O_NOFOLLOW nf, LINUX_O_NOFOLLOW) ].

(** The translation is a fold over the table. *)
Lemma bm_open_flags_fold nf flags :
  bm_open_flags nf flags =
  fold_left (fun out e => add_flag_opt flags e.1 e.2 out) (flag_table nf)
    (Z.land flags (O_ACCMODE nf)).
Proof. reflexivity. Qed.

Lemma add_flag_opt_land flags bit l out mask :
  Z.land (add_flag_opt flags bit l out) mask =
  Z.lor (Z.land out mask) (if requested flags bit then Z.land l mask else 0).
Proof.
  unfold add_flag_opt, add_flag, requested. destruct bit as [b|]; [|by rewrite Z.lor_0_r].
  destruct (negb _); [|by rewrite Z.lor_0_r]. apply Z.land_lor_distr_l.
Qed.

Lemma fold_flags_land flags mask tbl : forall out,
  Z.land (fold_left (fun out e => add_flag_opt flags e.1 e.2 out) tbl out) mask =
  fold_left (fun acc e => Z.lor acc (if requested flags e.1 then Z.land e.2 mask else 0)) tbl
    (Z.land out mask).
Proof.
  induction tbl as [|e tbl IH]; intros out; simpl; [done|]. by rewrite IH, add_flag_opt_land.
Qed.

Lemma if_zero (b : bool) : (if b then 0 else 0) = 0.
Proof. by destruct b. Qed.

(** The host's open flags mean what the program asked for: the access mode is kept, each
    Linux flag (both bits of [O_SYNC]) is set exactly when the corresponding newlib flag is
    given, and no other bit is set. *)
Theorem open_flags_correct nf flags (out := bm_open_flags nf flags) :
  O_ACCMODE nf = 3 ->
  Z.land out 3 = Z.land flags 3 /\
  (forall bit linux, (bit, linux) ∈ flag_table nf ->
     Z.land out linux = if requested flags bit then linux else 0) /\
  Z.land out (Z.lnot 0x1b1fc3) = 0.
Proof.
  intros Hacc. unfold out. rewrite bm_open_flags_fold, Hacc, !fold_flags_land. split_and!.
  - cbn -[Z.lor requested]. rewrite <-Z.land_assoc. change (Z.land 3 3) with 3.
    by rewrite !if_zero, !Z.lor_0_r.
  - intros bit linux Hin. rewrite fold_flags_land, <-Z.land_assoc.
    unfold flag_table in Hin. rewrite !elem_of_cons, elem_of_nil in Hin.
    repeat destruct Hin as [[= -> ->]|Hin]; try done;
      cbn -[Z.lor requested]; by rewrite Z.land_0_r, !if_zero, ?Z.lor_0_r.
  - rewrite <-Z.land_assoc. cbn -[Z.lor requested]. by rewrite Z.land_0_r, !if_zero.
Qed.

(** The values of newlib's <sys/_default_fcntl.h>. *)
Definition newlib_fcntl : newlib_flags :=
  mkFlags 3 0x0200 0x0800 0x0400 0x0008 0x4000 0x8000 0x2000
    (Some 0x40000) (Some 0x200000) (Some 0x100000).

Lemma open_flags_correct_witness :
  Z.land (bm_open_flags newlib_fcntl 0x601) 3 = 1 /\ bm_open_flags newlib_fcntl 0x601 = 0x241.
Proof. split; [apply (open_flags_correct newlib_fcntl 0x601 eq_refl)|reflexivity]. Defined.

(** ** The standard streams: proofs *)

Section streams.
Context {H : Type} (host : Z -> list Z -> mem * H -> Z * (mem * H)).
Context (p : process) (nf : newlib_flags).
Context (to_field : stat_field -> Z -> Z) (S_IFCHR : Z) (S_ISREG : Z -> bool).

(** The same host, keeping a log of its requests. *)
Definition logging (which : Z) (args : list Z) (w : mem * (list (Z * list Z) * H))
    : Z * (mem * (list (Z * list Z) * H)) :=
  let '(m, (log, h)) := w in
  let '(r, (m', h')) := host which args (m, h) in
  (r, (m', (log ++ [(which, args)], h'))).

Abbreviation lio := (io (list (Z * list Z) * H)).

Definition requests (s : lio) : list (Z * list Z) := (io_host s).1.

(** What a program may call, with the arguments and the addresses of locals. *)
Inductive io_op :=
| Openat (dirfd name flags mode : Z) | Open (name flags mode_arg : Z)
| Redirect (fd host_fd : Z)
| Read (fd buf len : Z) | Write (fd buf len : Z) | Close (fd : Z) | Lseek (fd off whence : Z)
| Fstat (fd ls : Z) | Stat (name ls : Z) | Unlink (name : Z) | Access (name mode : Z).

Definition run_op (fuel : nat) (o : io_op) (s : lio) : option lio :=
  match o with
  | Openat dirfd name flags mode => snd <$> openat logging p nf fuel dirfd name flags mode s
  | Open name flags mode_arg => snd <$> open logging p nf fuel name flags mode_arg s
  | Redirect fd host_fd => Some (bm_redirect_std fd host_fd s)
  | Read fd buf len => Some (read logging p fd buf len s).2
  | Write fd buf len => Some (write logging p fd buf len s).2
  | Close fd => Some (close logging fd s).2
  | Lseek fd off whence => Some (lseek logging fd off whence s).2
  | Fstat fd ls => Some (fstat logging p to_field S_IFCHR S_ISREG fd ls s).2
  | Stat name ls => snd <$> stat_file logging p to_field fuel name ls s
  | Unlink name => snd <$> unlink logging p fuel name s
  | Access name mode => snd <$> access logging p fuel name mode s
  end.

Fixpoint run_ops (fuel : nat) (os : list io_op) (s : lio) : option lio :=
  match os with
  | [] => Some s
  | o :: os => s ← run_op fuel o s; run_ops fuel os s
  end.

(** The host descriptor behind the program's descriptor [f] after one more call: only a valid
    redirection of [f] changes it. *)
Definition redirected (f : Z) (cur : Z) (o : io_op) : Z :=
  match o with
  | Redirect fd host_fd => if decide (fd = f /\ 0 <= host_fd) then host_fd else cur
  | _ => cur
  end.

Definition no_std_close (r : Z * list Z) : Prop :=
  r.1 = BM_SYS_close -> exists fd args, r.2 = fd :: args /\ 3 <= fd.

(** A host call adds one request and leaves the table alone. *)
Lemma bm_call_requests which args (s : lio) :
  requests (bm_call logging which args s).2 = requests s ++ [(which, args)] /\
  bm_std_fd (bm_call logging which args s).2 = bm_std_fd s.
Proof.
  unfold bm_call, bm_htif_syscall, requests. destruct s as [m [log h] e t]; simpl.
  destruct (host which args (m, h)) as [r [m' h']]. simpl. unfold bm_ret. by destruct (_ && _).
Qed.

(** Where the table and the log stand after one operation. *)
Definition step_ok (s : lio) (o : io_op) (s' : lio) : Prop :=
  (exists new, requests s' = requests s ++ new /\ Forall no_std_close new) /\
  (length (bm_std_fd s) = 3%nat -> length (bm_std_fd s') = 3%nat /\
   forall f, 0 <= f < 3 -> bm_fd f s' = redirected f (bm_fd f s) o).

Lemma step_same s o s' :
  requests s' = requests s -> bm_std_fd s' = bm_std_fd s -> (forall f c, redirected f c o = c) ->
  step_ok s o s'.
Proof.
  intros Hr Ht Ho. split.
  - exists []. rewrite app_nil_r. split; [done|constructor].
  - rewrite Ht. intros. split; [done|]. intros f _. rewrite Ho. unfold bm_fd. by rewrite Ht.
Qed.

Lemma step_call s o which args :
  (which = BM_SYS_close -> exists fd args', args = fd :: args' /\ 3 <= fd) ->
  (forall f c, redirected f c o = c) -> step_ok s o (bm_call logging which args s).2.
Proof.
  intros Hc Ho. destruct (bm_call_requests which args s) as [Hr Ht]. split.
  - eexists. split; [exact Hr|]. by apply Forall_singleton.
  - rewrite Ht. intros. split; [done|]. intros f _. rewrite Ho. unfold bm_fd. by rewrite Ht.
Qed.

Lemma step_redirect s fd host_fd : step_ok s (Redirect fd host_fd) (bm_redirect_std fd host_fd s).
Proof.
  unfold bm_redirect_std. split.
  - exists []. rewrite app_nil_r. split; [by destruct (_ && _)|constructor].
  - intros Hl. destruct (Z.leb_spec 0 fd), (Z.ltb_spec fd 3), (Z.leb_spec 0 host_fd); simpl;
      rewrite ?length_insert; (split; [done|]); intros f Hf; simpl;
      destruct (decide (fd = f /\ 0 <= host_fd)) as [[-> ?]|Hn]; try lia; try done;
      unfold bm_fd; simpl; destruct (Z.leb_spec 0 f), (Z.ltb_spec f 3); try lia; simpl.
    + rewrite (nth_lookup_Some _ _ 0 host_fd); [done|]. rewrite list_lookup_insert_eq; [done|lia].
    + rewrite !nth_lookup. by rewrite list_lookup_insert_ne by lia.
Qed.

Lemma run_op_ok fuel o s s' : run_op fuel o s = Some s' -> step_ok s o s'.
Proof.
  intros E. destruct o; simpl in E; unfold open, openat, unlink, access, stat_file, with_name in E;
    try (destruct (strlen _ _ _) as [n|]; simpl in E; [|done]); simplify_eq.
  - apply step_call; [done|done].
  - apply step_call; [done|done].
  - apply step_redirect.
  - apply step_call; [done|done].
  - apply step_call; [done|done].
  - unfold close. destruct (Z.ltb_spec fd 3); [by apply step_same|].
    apply step_call; [eauto|done].
  - apply step_call; [done|done].
  - unfold fstat. destruct (Z.ltb_spec fd 3); [by apply step_same|].
    pose proof (step_call s (Fstat fd ls) BM_SYS_fstat [fd; bm_pa p ls; 0; 0; 0; 0; 0]) as Hs.
    destruct (bm_call _ _ _ _) as [r s']. destruct (r <? 0); apply Hs; done.
  - pose proof (step_call s (Stat name ls) BM_SYS_fstatat
      [BM_AT_FDCWD; bm_pa p name; s64 (u64 (n + 1)); bm_pa p ls; 0; 0; 0]) as Hs.
    destruct (bm_call _ _ _ _) as [r s'']. simplify_eq/=. destruct (r <? 0); apply Hs; done.
  - apply step_call; [done|done].
  - apply step_call; [done|done].
Qed.

Lemma run_ops_ok fuel os : forall s s', run_ops fuel os s = Some s' ->
  length (bm_std_fd s) = 3%nat ->
  (exists new, requests s' = requests s ++ new /\ Forall no_std_close new) /\
  length (bm_std_fd s') = 3%nat /\
  forall f, 0 <= f < 3 -> bm_fd f s' = fold_left (redirected f) os (bm_fd f s).
Proof.
  induction os as [|o os IH]; intros s s' E Hl; simpl in E.
  - simplify_eq. split_and!; [|done|done]. exists []. rewrite app_nil_r. split; [done|constructor].
  - destruct (run_op fuel o s) as [s1|] eqn:E1; [|done]. simpl in E.
    destruct (run_op_ok _ _ _ _ E1) as [(new1 & Hr1 & Hn1) Ht1]. destruct (Ht1 Hl) as [Hl1 Hf1].
    destruct (IH _ _ E Hl1) as ((new2 & Hr2 & Hn2) & Hl2 & Hf2). split_and!; [|done|].
    + exists (new1 ++ new2). rewrite Hr2, Hr1, app_assoc. split; [done|]. by apply Forall_app.
    + intros f Hf. rewrite Hf2 by done. simpl. by rewrite Hf1.
Qed.
End streams.

(** the three standard streams stay usable whatever a program calls: no request to the
    host closes a descriptor below 3, and output on stream [f] goes to the descriptor of the
    last valid redirection of [f], or to [f] itself, for every host and every sequence of
    calls. *)
Theorem std_streams {H} (host : Z -> list Z -> mem * H -> Z * (mem * H)) p nf to_field ifchr isreg
    fuel os m h e s f buf len :
  run_ops host p nf to_field ifchr isreg fuel os (mkIo m ([], h) e [0; 1; 2]) = Some s ->
  0 <= f < 3 ->
  Forall no_std_close (requests s) /\
  requests (write (logging host) p f buf len s).2 =
    requests s ++ [(BM_SYS_write,
      [fold_left (redirected f) os f; bm_pa p buf; s64 len; 0; 0; 0; 0])].
Proof.
  intros E Hf. destruct (run_ops_ok _ _ _ _ _ _ _ _ _ _ E eq_refl) as ((new & Hr & Hn) & Hl & Ht).
  split; [by rewrite Hr|]. unfold write. rewrite (proj1 (bm_call_requests _ _ _ _)).
  rewrite (Ht f Hf). do 5 f_equal. unfold bm_fd. simpl.
  assert (f = 0 \/ f = 1 \/ f = 2) as [-> | [-> | ->]] by lia; done.
Qed.

Lemma std_streams_witness :
  exists s, run_ops (H := unit) (fun _ _ w => (7, w)) (mkProcess (fun _ => 0) 0 0 0 0) newlib_fcntl
      (fun _ v => v) 0x2000 (fun _ => false) 5
      [Redirect 1 9; Close 1; Write 1 64 3; Close 9] (mkIo (fun _ => 0) ([], tt) 0 [0; 1; 2])
    = Some s /\
  requests (write (logging (fun _ _ w => (7, w))) (mkProcess (fun _ => 0) 0 0 0 0) 1 80 2 s).2 =
    requests s ++ [(BM_SYS_write, [9; 80; 2; 0; 0; 0; 0])].
Proof.
  eexists. split; [reflexivity|].
  eapply (std_streams (fun _ _ w => (7, w)) (mkProcess (fun _ => 0) 0 0 0 0) newlib_fcntl
      (fun _ v => v) 0x2000 (fun _ => false) 5 [Redirect 1 9; Close 1; Write 1 64 3; Close 9]
      (fun _ => 0) tt 0 _ 1 80 2); [reflexivity|lia].
Defined.

(** ** struct stat: proofs *)

(** The fields lie inside the structure and do not overlap. *)
Lemma bm_linux_stat_layout f g :
  0 <= (bm_linux_stat f).1 /\
  (bm_linux_stat f).1 + Z.of_nat (bm_linux_stat f).2 <= bm_linux_stat_size /\
  (f <> g -> (bm_linux_stat f).1 + Z.of_nat (bm_linux_stat f).2 <= (bm_linux_stat g).1 \/
             (bm_linux_stat g).1 + Z.of_nat (bm_linux_stat g).2 <= (bm_linux_stat f).1).
Proof. destruct f, g; simpl; unfold bm_linux_stat_size; split_and!; try lia; done. Qed.

(** The [n] bytes at [a] are all inside the private range of the process or all outside. *)
Definition one_region (p : process) (a n : Z) : Prop :=
  (bm_proc_lo p <= a /\ a + n <= bm_proc_hi p) \/ a + n <= bm_proc_lo p \/ bm_proc_hi p <= a.

Lemma bm_pa_add p a n i :
  one_region p a n -> 0 <= i < n -> 0 <= a -> a + n <= 2 ^ 63 ->
  (bm_proc_lo p <= a /\ a + n <= bm_proc_hi p ->
     - 2 ^ 63 <= a + bm_proc_off p /\ a + n + bm_proc_off p <= 2 ^ 63) ->
  bm_pa p (a + i) = bm_pa p a + i.
Proof.
  intros Hr Hi H0 Hb Hoff. unfold bm_pa.
  destruct (Z.leb_spec (bm_proc_lo p) a), (Z.ltb_spec a (bm_proc_hi p)),
    (Z.leb_spec (bm_proc_lo p) (a + i)), (Z.ltb_spec (a + i) (bm_proc_hi p)); simpl;
    unfold one_region in Hr; try lia; rewrite ?(wrapS_small 64) by lia; lia.
Qed.

Lemma bm_copy_stat_field to_field m ls f :
  bm_copy_stat to_field m ls f =
  to_field f (load_le (bm_linux_stat f).2 m (ls + (bm_linux_stat f).1)).
Proof. unfold bm_copy_stat, set_field. destruct f; simpl decide; by repeat case_decide. Qed.

Section stats.
Context {H : Type} (host : Z -> list Z -> mem * H -> Z * (mem * H)) (p : process).
Context (to_field : stat_field -> Z -> Z) (S_IFCHR : Z) (S_ISREG : Z -> bool).

(** The local structure at [ls] is not split by the private range. *)
Record local_ok (ls : Z) : Prop := mkLocalOk {
  lo_region : one_region p ls bm_linux_stat_size;
  lo_range : 0 <= ls /\ ls + bm_linux_stat_size <= 2 ^ 63;
  lo_off : bm_proc_lo p <= ls /\ ls + bm_linux_stat_size <= bm_proc_hi p ->
    - 2 ^ 63 <= ls + bm_proc_off p /\ ls + bm_linux_stat_size + bm_proc_off p <= 2 ^ 63 }.

(** What the program reads at its address is what the host wrote at the translated one. *)
Lemma view_field m ls f :
  local_ok ls ->
  load_le (bm_linux_stat f).2 (view p m) (ls + (bm_linux_stat f).1) =
  load_le (bm_linux_stat f).2 m (bm_pa p ls + (bm_linux_stat f).1).
Proof.
  intros [Hr Hb Ho]. destruct (bm_linux_stat_layout f f) as (H1 & H2 & _).
  apply load_le_ext. intros i Hi. unfold view. rewrite <-!Z.add_assoc. f_equal.
  apply (bm_pa_add p ls bm_linux_stat_size); try done; lia.
Qed.

(** [_fstat] of a file reports, field by field, what the host stored in the Linux
    layout at the translated address of the local structure, with the block size raised
    for regular files; a host error becomes -1 with the host's error number. *)
Theorem fstat_correct fd ls (s : io H) r m' h' vals :
  3 <= fd -> local_ok ls ->
  host BM_SYS_fstat [fd; bm_pa p ls; 0; 0; 0; 0; 0] (io_mem s, io_host s) = (r, (m', h')) ->
  (forall f, load_le (bm_linux_stat f).2 m' (bm_pa p ls + (bm_linux_stat f).1) = vals f) ->
  (-4096 < r < 0 ->
     fstat host p to_field S_IFCHR S_ISREG fd ls s = (-1, None, mkIo m' h' (- r) (bm_std_fd s))) /\
  (0 <= r < 2 ^ 63 -> exists st,
     fstat host p to_field S_IFCHR S_ISREG fd ls s =
       (0, Some st, mkIo m' h' (errno s) (bm_std_fd s)) /\
     forall f, st f = if decide (f = st_blksize /\ S_ISREG (to_field st_mode (vals st_mode)) = true)
                      then to_field st_blksize 65536 else to_field f (vals f)).
Proof.
  intros Hfd Hls Eh Hv. unfold fstat, bm_call, bm_htif_syscall. rewrite Eh.
  rewrite (proj2 (Z.ltb_ge fd 3)) by lia. split; intros Hr; rewrite wrapS_small by lia; unfold bm_ret.
  - rewrite (proj2 (Z.ltb_lt r 0)), (proj2 (Z.ltb_lt (-4096) r)) by lia. simpl.
    by rewrite wrapS_small by lia.
  - rewrite (proj2 (Z.ltb_ge r 0)) by lia. simpl.
    eexists. split; [rewrite (proj2 (Z.ltb_ge r 0)) by lia; reflexivity|]. intros f.
    rewrite bm_copy_stat_field, view_field, Hv, andb_true_r by done.
    destruct (S_ISREG _) eqn:Ereg; unfold set_field.
    + destruct (decide (f = st_blksize)) as [->|Hne].
      * rewrite decide_True by done. done.
      * rewrite decide_False by tauto. by rewrite bm_copy_stat_field, view_field, Hv.
    + rewrite decide_False by (intros [_ ?]; congruence).
      by rewrite bm_copy_stat_field, view_field, Hv.
Qed.
End stats.

Lemma fstat_correct_witness :
  let pr := mkProcess (fun _ => 0) 0 4096 8192 65536 in
  let host := fun (_ : Z) (_ : list Z) (w : mem * unit) =>
    (0, (store_le 4 (store64 (fun _ => 0) (69632 + 48) 1234) (69632 + 16) 0x8000, w.2)) in
  exists st, fstat host pr (fun _ v => v) 0x2000 (fun mode => mode =? 0x8000) 5 4096
      (mkIo (fun _ => 0) tt 0 [0; 1; 2]) =
      (0, Some st, mkIo (store_le 4 (store64 (fun _ => 0) (69632 + 48) 1234) (69632 + 16) 0x8000)
         tt 0 [0; 1; 2]) /\
    st st_size = 1234 /\ st st_blksize = 65536.
Proof.
  cbv zeta.
  destruct (fstat_correct (fun (_ : Z) (_ : list Z) (w : mem * unit) =>
    (0, (store_le 4 (store64 (fun _ => 0) (69632 + 48) 1234) (69632 + 16) 0x8000, w.2)))
    (mkProcess (fun _ => 0) 0 4096 8192 65536) (fun _ v => v) 0x2000 (fun mode => mode =? 0x8000)
    5 4096 (mkIo (fun _ => 0) tt 0 [0; 1; 2]) 0
    (store_le 4 (store64 (fun _ => 0) (69632 + 48) 1234) (69632 + 16) 0x8000) tt
    (fun f => load_le (bm_linux_stat f).2
       (store_le 4 (store64 (fun _ => 0) (69632 + 48) 1234) (69632 + 16) 0x8000)
       (69632 + (bm_linux_stat f).1))) as [_ Hok].
  - lia.
  - constructor; unfold one_region, bm_linux_stat_size; simpl; lia.
  - reflexivity.
  - intros f. reflexivity.
  - destruct (Hok ltac:(lia)) as (st & E & Hst). exists st. split; [exact E|].
    rewrite !Hst. split; vm_compute; reflexivity.
Defined.

(** ** Clocks: proofs *)

(** Splitting a division over quotient and remainder. *)
Lemma scaled_clock c hz k :
  0 < hz -> 0 <= c -> 0 <= k -> c / hz * k + (c mod hz * k) / hz = c * k / hz.
Proof.
  intros. rewrite (Z.div_mod c hz) at 3 by lia.
  replace ((hz * (c / hz) + c mod hz) * k) with (c mod hz * k + c / hz * k * hz) by lia.
  rewrite Z.div_add by lia. lia.
Qed.

Lemma subsecond_range c hz k : 0 < hz -> 0 < k -> 0 <= (c mod hz * k) / hz < k.
Proof.
  intros. pose proof (Z.mod_pos_bound c hz ltac:(lia)). split.
  - apply Z.div_pos; nia.
  - apply Z.div_lt_upper_bound; nia.
Qed.

(** The clocks derived from the cycle counter are exact: seconds and microseconds (or
    nanoseconds) together are the elapsed cycles scaled to that unit, rounded down, with
    the fraction below one second, for any clock rate up to 1.8e10 Hz; so is the tick count
    of [_times] whenever it fits. *)
Theorem clocks_exact hz cps c :
  0 < hz -> hz * 1000000000 <= 2 ^ 64 -> 0 <= c < 2 ^ 63 ->
  0 <= cps -> hz * cps <= 2 ^ 64 -> c * cps / hz < 2 ^ 63 ->
  (let '(sec, usec) := gettimeofday hz c in
   sec * 1000000 + usec = c * 1000000 / hz /\ 0 <= usec < 1000000) /\
  (let '(sec, nsec) := clock_gettime hz c in
   sec * 1000000000 + nsec = c * 1000000000 / hz /\ 0 <= nsec < 1000000000) /\
  times hz cps c = c * cps / hz /\ time hz c = c / hz.
Proof.
  intros Hz Hz2 Hc Hp Hp2 Ht. pose proof (Z.mod_pos_bound c hz ltac:(lia)).
  assert (0 <= c / hz <= c) by (split; [apply Z.div_pos; lia|apply Z.div_le_upper_bound; nia]).
  unfold gettimeofday, clock_gettime, times, time.
  rewrite !(wrapU_small 64 (c mod hz * _)) by nia. rewrite (wrapS_small 64 (c / hz)) by lia.
  pose proof (subsecond_range c hz 1000000 ltac:(lia) ltac:(lia)).
  pose proof (subsecond_range c hz 1000000000 ltac:(lia) ltac:(lia)).
  rewrite !(wrapS_small 64 (c mod hz * _ / hz)) by lia.
  rewrite !scaled_clock by lia. split_and!; try lia.
  pose proof (scaled_clock c hz cps ltac:(lia) ltac:(lia) ltac:(lia)) as E.
  assert (0 <= c mod hz * cps / hz) by (apply Z.div_pos; nia).
  assert (0 <= c / hz * cps) by nia.
  rewrite (wrapU_small 64 (c / hz * cps)) by lia. rewrite E.
  rewrite wrapU_small by lia. apply wrapS_small; lia.
Qed.

Lemma clocks_exact_witness :
  times 500 1000000 12345 = 24690000 /\ gettimeofday 500 12345 = (24, 690000).
Proof.
  split; [|reflexivity].
  apply (clocks_exact 500 1000000 12345); vm_compute; intuition congruence.
Defined.
