(* ===== verification/Sbrk.v ===== *)
(** * Program break

    The two [_sbrk] of spec95-equivalent/benchmarks/baremetal/common: the single break of
    htif_syscalls.c, and the one break per hart of bm_rate_heap.c, where every hart owns a
    slice of the heap.  Pointers are 64-bit words. *)
From S2P Require Import Prelude.
Local Open Scope Z_scope.
Local Open Scope word_scope.

Definition BM_DRAM_BASE : Z := 0x80000000.

Section sbrk.
(** The linker symbol [__heap_end] and the build's sizes. *)
Context (heap_end BM_HEAP_MB BM_STACK_RESERVE : Z).

Definition BM_HEAP_TOP : Z := BM_DRAM_BASE ⊞ u64 (Z.shiftl BM_HEAP_MB 20).

(** The first break, above the stacks and rounded up to 16 bytes. *)
Definition bm_base : Z :=
  let base := Z.land (heap_end ⊞ BM_STACK_RESERVE ⊞ 15) (u64 (Z.lnot 15)) in
  if base <? BM_DRAM_BASE then BM_DRAM_BASE else base.

(** ** One break for all *)

(** The new value of [bm_brk] and the result; [None] is (void * )-1 with [ENOMEM]. *)
Definition sbrk (incr bm_brk : Z) : Z * option Z :=
  let bm_brk := if bm_brk =? 0 then bm_base else bm_brk in
  let p_old := bm_brk in
  let p_new := p_old ⊞ incr in
  if (p_new <? heap_end) || (BM_HEAP_TOP <? p_new) then (bm_brk, None)
  else (p_new, Some p_old).

(** ** One break per hart *)

Context (NHARTS : Z).

Record zones := mkZones { z_brk : Z -> Z; z_base : Z -> Z; z_top : Z -> Z }.

Definition zones0 : zones := mkZones (fun _ => 0) (fun _ => 0) (fun _ => 0).

(** The first call of hart [h] computes its slice. *)
Definition zone_init (h : Z) (z : zones) : zones :=
  if z_brk z h =? 0 then
    let base := bm_base in
    let total := BM_HEAP_TOP ⊟ base in
    let zone := total / NHARTS in
    let zb := base ⊞ h ⊠ zone in
    mkZones (upd (z_brk z) h zb) (upd (z_base z) h zb) (upd (z_top z) h (base ⊞ (h ⊞ 1) ⊠ zone))
  else z.

Definition rate_sbrk (h incr : Z) (z : zones) : zones * option Z :=
  let z := zone_init h z in
  let p_old := z_brk z h in
  let p_new := p_old ⊞ incr in
  if (p_new <? z_base z h) || (z_top z h <? p_new) then (z, None)
  else (mkZones (upd (z_brk z) h p_new) (z_base z) (z_top z), Some p_old).

(** Any sequence of calls by any harts. *)
Inductive zones_reach : zones -> Prop :=
| zr_init : zones_reach zones0
| zr_call h incr z : zones_reach z -> 0 <= h < NHARTS -> zones_reach (rate_sbrk h incr z).1.

(** The layout fits: the heap starts below its top, inside the address space. *)
Record heap_fits : Prop := mkHeapFits {
  hf_end : 0 <= heap_end; hf_res : 0 <= BM_STACK_RESERVE;
  hf_mb : 0 <= BM_HEAP_MB < 2 ^ 32;
  hf_room : heap_end + BM_STACK_RESERVE + 15 <= BM_DRAM_BASE + BM_HEAP_MB * 2 ^ 20;
  hf_harts : 0 < NHARTS < 2 ^ 16 }.

Hypothesis fit : heap_fits.

Lemma heap_top_eq : BM_HEAP_TOP = BM_DRAM_BASE + BM_HEAP_MB * 2 ^ 20.
Proof.
  destruct fit. unfold BM_HEAP_TOP, BM_DRAM_BASE. rewrite Z.shiftl_mul_pow2 by lia.
  rewrite (wrapU_small 64 (BM_HEAP_MB * _)) by lia. apply wrapU_small. lia.
Qed.

Lemma align16 x : 0 <= x < 2 ^ 64 -> Z.land x (u64 (Z.lnot 15)) = x / 16 * 16.
Proof.
  intros Hx. change (u64 (Z.lnot 15)) with (Z.lnot 15 mod 2 ^ 64).
  rewrite <-(Z.land_ones (Z.lnot 15) 64), Z.land_assoc, (Z.land_comm x), <-Z.land_assoc by lia.
  rewrite Z.land_ones, (Z.mod_small x) by lia. rewrite Z.land_comm.
  change 15 with (Z.ones 4). rewrite <-Z.ldiff_land, Z.ldiff_ones_r by lia.
  rewrite Z.shiftl_mul_pow2, Z.shiftr_div_pow2 by lia. done.
Qed.

(** The heap starts at a 16-byte boundary above the stacks. *)
Lemma bm_base_spec :
  bm_base mod 16 = 0 /\ heap_end + BM_STACK_RESERVE <= bm_base <= BM_HEAP_TOP /\
  BM_DRAM_BASE <= bm_base.
Proof.
  rewrite heap_top_eq. destruct fit as [He Hs Hm Hr Hn]. unfold bm_base, BM_DRAM_BASE in *.
  rewrite (wrapU_small 64 (heap_end + BM_STACK_RESERVE)) by lia. rewrite wrapU_small by lia.
  rewrite align16 by lia. destruct (Z.ltb_spec ((heap_end + BM_STACK_RESERVE + 15) / 16 * 16) 0x80000000).
  - split_and!; try done; dlia.
  - split_and!; dlia.
Qed.

Definition zone_size : Z := (BM_HEAP_TOP - bm_base) / NHARTS.

Lemma zone_bounds h :
  0 <= h < NHARTS ->
  bm_base <= bm_base + h * zone_size /\
  bm_base + (h + 1) * zone_size <= BM_HEAP_TOP /\ 0 <= zone_size.
Proof.
  intros Hh. destruct bm_base_spec as (_ & Hb & _).
  assert (0 <= zone_size) by (apply Z.div_pos; lia).
  pose proof (Z.mul_div_le (BM_HEAP_TOP - bm_base) NHARTS ltac:(lia)) as Hle.
  fold zone_size in Hle. nia.
Qed.

(** A started hart has its slice, and its break lies inside. *)
Definition zones_inv (z : zones) : Prop :=
  forall h, 0 <= h < NHARTS -> z_brk z h <> 0 ->
    z_base z h = bm_base + h * zone_size /\ z_top z h = bm_base + (h + 1) * zone_size /\
    z_base z h <= z_brk z h <= z_top z h.

Lemma zone_init_inv h z :
  zones_inv z -> 0 <= h < NHARTS -> zones_inv (zone_init h z) /\ z_brk (zone_init h z) h <> 0.
Proof.
  intros Hz Hh. unfold zone_init. destruct (Z.eqb_spec (z_brk z h) 0) as [E|Hne]; [|done].
  destruct (zone_bounds h Hh) as (H1 & H2 & H3). destruct bm_base_spec as (_ & Hb & Hd).
  pose proof heap_top_eq as Ht. destruct fit as [He Hs Hm Hr Hn]. unfold BM_DRAM_BASE in *.
  assert (BM_HEAP_TOP < 2 ^ 53) by lia.
  rewrite (wrapU_small 64 (BM_HEAP_TOP - bm_base)) by lia. fold zone_size.
  rewrite (wrapU_small 64 (h + 1)) by lia. rewrite !(wrapU_small 64 (_ * zone_size)) by nia.
  rewrite !(wrapU_small 64 (bm_base + _)) by nia. split.
  - intros h' Hh' Hne. simpl in *. unfold upd in *. destruct (Z.eqb_spec h' h) as [->|].
    + split_and!; lia.
    + by apply Hz.
  - simpl. unfold upd. rewrite Z.eqb_refl. nia.
Qed.

Lemma rate_sbrk_inv h incr z :
  zones_inv z -> 0 <= h < NHARTS -> zones_inv (rate_sbrk h incr z).1.
Proof.
  intros Hz Hh. destruct (zone_init_inv h z Hz Hh) as [Hz' Hne]. unfold rate_sbrk.
  destruct (Z.ltb_spec (u64 (z_brk (zone_init h z) h + incr)) (z_base (zone_init h z) h));
    [done|]. destruct (Z.ltb_spec (z_top (zone_init h z) h) (u64 (z_brk (zone_init h z) h + incr)));
    [done|]. simpl. intros h' Hh' Hb. simpl in *. unfold upd in *.
  destruct (Z.eqb_spec h' h) as [->|]; [|by apply Hz'].
  destruct (Hz' h Hh Hne) as (E1 & E2 & _). split_and!; try done; lia.
Qed.

Lemma zones_reach_inv z : zones_reach z -> zones_inv z.
Proof.
  induction 1 as [|h incr z _ IH Hh]; [|by apply rate_sbrk_inv].
  intros h Hh Hne. by destruct Hne.
Qed.

(** The block [incr] bytes at [a] that a successful call hands to hart [h]. *)
Lemma rate_sbrk_block z h incr a :
  zones_reach z -> 0 <= h < NHARTS -> 0 <= incr < 2 ^ 63 ->
  (rate_sbrk h incr z).2 = Some a ->
  bm_base + h * zone_size <= a /\ a + incr <= bm_base + (h + 1) * zone_size /\
  z_brk (rate_sbrk h incr z).1 h = a + incr.
Proof.
  intros Hz Hh Hi E. apply zones_reach_inv in Hz.
  destruct (zone_init_inv h z Hz Hh) as [Hz' Hne]. destruct (Hz' h Hh Hne) as (E1 & E2 & E3).
  destruct (zone_bounds h Hh) as (H1 & H2 & H3). pose proof heap_top_eq as Ht.
  destruct bm_base_spec as (_ & Hb & Hd). destruct fit as [He Hs Hm Hr Hn]. unfold BM_DRAM_BASE in *.
  unfold rate_sbrk in *. rewrite E1, E2 in *. rewrite wrapU_small in * by lia.
  destruct (Z.ltb_spec (z_brk (zone_init h z) h + incr) (bm_base + h * zone_size)); [done|].
  destruct (Z.ltb_spec (bm_base + (h + 1) * zone_size) (z_brk (zone_init h z) h + incr)); [done|].
  simpl in *. simplify_eq. unfold upd. rewrite Z.eqb_refl. lia.
Qed.

(** with one break per hart, memory handed to two different harts never overlaps and
    lies above the stacks and below the top of the heap, whatever calls of any harts came
    before and between the two. *)
Theorem rate_heap_disjoint z1 z2 h1 h2 n1 n2 a1 a2 :
  zones_reach z1 -> zones_reach z2 -> 0 <= h1 < NHARTS -> 0 <= h2 < NHARTS -> h1 <> h2 ->
  0 <= n1 < 2 ^ 63 -> 0 <= n2 < 2 ^ 63 ->
  (rate_sbrk h1 n1 z1).2 = Some a1 -> (rate_sbrk h2 n2 z2).2 = Some a2 ->
  (a1 + n1 <= a2 \/ a2 + n2 <= a1) /\
  heap_end + BM_STACK_RESERVE <= a1 /\ a1 + n1 <= BM_HEAP_TOP.
Proof.
  intros R1 R2 Hh1 Hh2 Hne Hn1 Hn2 E1 E2.
  destruct (rate_sbrk_block z1 h1 n1 a1 R1 Hh1 Hn1 E1) as (L1 & T1 & _).
  destruct (rate_sbrk_block z2 h2 n2 a2 R2 Hh2 Hn2 E2) as (L2 & T2 & _).
  destruct bm_base_spec as (_ & Hb & _). destruct (zone_bounds h1 Hh1) as (B1 & B2 & B3). nia.
Qed.

(** ** One break: proofs *)

(** States that calls of the single [_sbrk] reach. *)
Inductive brk_reach : Z -> Prop :=
| br_init : brk_reach 0
| br_call incr b : brk_reach b -> brk_reach (sbrk incr b).1.

Lemma brk_range b : brk_reach b -> b = 0 \/ (heap_end <= b <= BM_HEAP_TOP).
Proof.
  destruct bm_base_spec as (_ & Hb & _). destruct fit as [He Hs Hm Hr Hn].
  induction 1 as [|incr b _ IH]; [by left|]. unfold sbrk.
  destruct (Z.eqb_spec b 0).
  - destruct (Z.ltb_spec (u64 (bm_base + incr)) heap_end); simpl; [lia|].
    destruct (Z.ltb_spec BM_HEAP_TOP (u64 (bm_base + incr))); simpl; lia.
  - destruct (Z.ltb_spec (u64 (b + incr)) heap_end); simpl; [lia|].
    destruct (Z.ltb_spec BM_HEAP_TOP (u64 (b + incr))); simpl; lia.
Qed.

(** The single break hands out consecutive blocks: a successful call of [n] bytes
    returns the old break, the next one starts at its end, and the block ends below the
    top of the heap; a request that does not fit fails and moves nothing. *)
Theorem sbrk_correct b n (b' := if b =? 0 then bm_base else b) :
  brk_reach b -> 0 <= n < 2 ^ 63 ->
  sbrk n b = if decide (b' + n <= BM_HEAP_TOP) then (b' + n, Some b') else (b', None).
Proof.
  intros R Hn. pose proof (brk_range b R) as Hb. destruct bm_base_spec as (_ & Hbase & _).
  pose proof heap_top_eq as Ht. destruct fit as [He Hs Hm Hr Hh]. unfold BM_DRAM_BASE in *.
  unfold sbrk. fold b'. assert (heap_end <= b' <= BM_HEAP_TOP).
  { unfold b'. destruct (Z.eqb_spec b 0); lia. }
  rewrite wrapU_small by lia. rewrite (proj2 (Z.ltb_ge _ _)) by lia. simpl.
  destruct (Z.ltb_spec BM_HEAP_TOP (b' + n)), (decide (b' + n <= BM_HEAP_TOP)); try lia; done.
Qed.

(** The lower bound that [_sbrk] checks is [__heap_end], not the break it started from: a
    large enough decrement moves the break into the stacks. *)
Lemma sbrk_into_stacks :
  0 < BM_STACK_RESERVE -> sbrk (heap_end - bm_base) 0 = (heap_end, Some bm_base).
Proof.
  intros Hs. destruct bm_base_spec as (_ & Hb & _). pose proof heap_top_eq as Ht.
  destruct fit as [He _ Hm Hr Hh]. unfold BM_DRAM_BASE in *. unfold sbrk. simpl.
  replace (bm_base + (heap_end - bm_base)) with heap_end by lia. rewrite wrapU_small by lia.
  rewrite (proj2 (Z.ltb_ge _ _)) by lia. simpl. by rewrite (proj2 (Z.ltb_ge _ _)) by lia.
Qed.
End sbrk.

Lemma fits_16 : heap_fits 0x80100000 192 (2 ^ 20) 16.
Proof. constructor; unfold BM_DRAM_BASE; lia. Qed.

Lemma rate_heap_disjoint_witness :
  let z0 := zones0 in
  let z1 := (rate_sbrk 0x80100000 192 (2 ^ 20) 16 3 4096 z0).1 in
  exists a1 a2, (rate_sbrk 0x80100000 192 (2 ^ 20) 16 3 64 z1).2 = Some a1 /\
    (rate_sbrk 0x80100000 192 (2 ^ 20) 16 4 64 z1).2 = Some a2 /\ (a1 + 64 <= a2 \/ a2 + 64 <= a1).
Proof.
  cbv zeta. eexists _, _. split; [vm_compute; reflexivity|]. split; [vm_compute; reflexivity|].
  assert (zones_reach 0x80100000 192 (2 ^ 20) 16 (rate_sbrk 0x80100000 192 (2 ^ 20) 16 3 4096 zones0).1)
    as R by (constructor; [constructor|lia]).
  apply (rate_heap_disjoint 0x80100000 192 (2 ^ 20) 16 fits_16 _ _ 3 4 64 64 _ _ R R);
    try lia; vm_compute; reflexivity.
Defined.

Lemma sbrk_correct_witness :
  sbrk 0x80100000 192 (2 ^ 20) 4096 0 = (0x80201000, Some 0x80200000).
Proof.
  exact (sbrk_correct 0x80100000 192 (2 ^ 20) 16 fits_16 0 4096 (br_init _ _ _) ltac:(lia)).
Defined.
