(* ===== verification/Torture.v ===== *)
(** * Torture-test utilities

    riscv-tests/common/torture_util.h and the tests built on it: the pseudo-random generator
    [lfsr2], the atomic memory operations with their reference functions and the pairwise
    test, the shuffle [permute] with [line_permutation] of torture/amoadd/amoadd.c, and the
    addresses of the pairwise test. *)
From S2P Require Import Prelude.
Local Open Scope Z_scope.
Local Open Scope word_scope.

(** ** Random numbers *)

Definition lfsr2 (x : Z) : Z :=
  let x := Z.lxor x (Z.shiftr x 7) in
  let x := Z.lxor x (u64 (Z.shiftl x 9)) in
  Z.lxor x (Z.shiftr x 13).

(** [lfsr] of util.h. *)
Definition lfsr (x : Z) : Z :=
  let bit := Z.land (Z.lxor x (Z.shiftr x 1)) 1 in
  Z.lor (Z.shiftr x 1) (u64 (Z.shiftl bit 62)).

Definition brand (rand_state : Z) : Z := lfsr2 rand_state.

Definition hart_seed (rndseed hartId : Z) : Z :=
  let rndseed := if rndseed =? 0 then 0xcae7c1de57c82f72 else rndseed in
  rndseed ⊞ hartId ⊠ 0xca691bf6768df51b.

(** ** Atomic memory operations *)

Inductive amo := amoswap | amoadd | amoand | amoor | amoxor | amomin | amomax | amominu | amomaxu.

(** What a 64-bit AMO leaves in memory that held [old]; it returns [old]. *)
Definition amo_d (a : amo) (old src : Z) : Z :=
  match a with
  | amoswap => src
  | amoadd => old ⊞ src
  | amoand => Z.land old src
  | amoor => Z.lor old src
  | amoxor => Z.lxor old src
  | amomin => if s64 src <? s64 old then src else old
  | amomax => if s64 old <? s64 src then src else old
  | amominu => if src <? old then src else old
  | amomaxu => if old <? src then src else old
  end.

(** The reference functions the test compares with. *)
Definition add_func (lhs rhs : Z) : Z := lhs ⊞ rhs.
Definition and_func (lhs rhs : Z) : Z := Z.land lhs rhs.
Definition or_func (lhs rhs : Z) : Z := Z.lor lhs rhs.
Definition xor_func (lhs rhs : Z) : Z := Z.lxor lhs rhs.
Definition max_func (lhs rhs : Z) : Z := u64 (if s64 rhs <? s64 lhs then s64 lhs else s64 rhs).
Definition maxu_func (lhs rhs : Z) : Z := if rhs <? lhs then lhs else rhs.
Definition min_func (lhs rhs : Z) : Z := u64 (if s64 lhs <? s64 rhs then s64 lhs else s64 rhs).
Definition minu_func (lhs rhs : Z) : Z := if lhs <? rhs then lhs else rhs.

(** The tests of torture/amo-megazord/amo-megazord.c: the operation, its reference and the
    initial value. *)
Record paired := mkPaired { pt_amo : amo; pt_crude : Z -> Z -> Z; pt_init : Z }.

Definition ones : Z := u64 (Z.lnot 0).

Definition test_amoadd : paired := mkPaired amoadd add_func 0.
Definition test_amoxor : paired := mkPaired amoxor xor_func 0.
Definition test_amoand : paired := mkPaired amoand and_func ones.
Definition test_amoor : paired := mkPaired amoor or_func 0.
Definition test_amomax : paired := mkPaired amomax max_func (u64 (Z.lnot (Z.shiftr ones 1))).
Definition test_amomaxu : paired := mkPaired amomaxu maxu_func 0.
Definition test_amomin : paired := mkPaired amomin min_func (Z.shiftr ones 1).
Definition test_amominu : paired := mkPaired amominu minu_func ones.

Definition tests : list paired :=
  [test_amoadd; test_amoxor; test_amoand; test_amoor; test_amomax; test_amomaxu; test_amomin;
   test_amominu].

(** One round of [paired_test] on one address: the left side initialises it, then the two
    sides run their operation in either order, and the left side checks. *)
Definition paired_round (t : paired) (left_first : bool) (l r : Z) : Z :=
  if left_first then amo_d (pt_amo t) (amo_d (pt_amo t) (pt_init t) l) r
  else amo_d (pt_amo t) (amo_d (pt_amo t) (pt_init t) r) l.

Definition paired_check (t : paired) (l r mem_val : Z) : bool := mem_val =? pt_crude t l r.

(** One round of [test_amoswap]: the final memory and what each side got. *)
Definition swap_operand (rnd rightside : Z) : Z :=
  Z.lor (Z.land rnd (u64 (Z.lnot 3))) (if negb (rightside =? 0) then 1 else 0).

Definition swap_round (left_first : bool) (l r : Z) : Z * Z * Z :=
  if left_first then (amo_d amoswap (amo_d amoswap 2 l) r, 2, amo_d amoswap 2 l)
  else (amo_d amoswap (amo_d amoswap 2 r) l, amo_d amoswap 2 r, 2).

(** [true] is the error branch. *)
Definition swap_error (dest operand partner_operand : Z) : bool :=
  (Z.land partner_operand 3 =? 1) || (Z.land operand 3 =? 0) || (Z.land dest 3 =? 2) ||
  (dest =? operand) || (dest =? partner_operand) || (operand =? partner_operand).

(** ** Pairs *)

Definition PAIR_HART_ID_SHIFT : Z := 4.
Definition PAIR_HART_ID_MASK : Z := Z.shiftl 1 PAIR_HART_ID_SHIFT - 1.

Definition pair_address_idx (hartId : Z) : Z :=
  Z.lor (Z.lor
    (Z.land hartId (Z.lnot (Z.lor (Z.shiftl PAIR_HART_ID_MASK 1) 1)))
    (Z.shiftl (Z.land hartId PAIR_HART_ID_MASK) 1))
    (Z.land (Z.shiftr hartId PAIR_HART_ID_SHIFT) 1).

(** The line and word of [basic_test_acc] that [basic_paired_test] uses. *)
Definition basic_test_acc_lines : Z := 16.
Definition pair_dest (hartId : Z) : Z * Z :=
  let idx := pair_address_idx hartId in
  (Z.shiftr idx 1, Z.land (Z.shiftr idx 4) 1).

(** ** Shuffling *)

(** The exchange of two elements. *)
Definition exchange (p i : nat) (out : list Z) : list Z :=
  match out !! p, out !! i with
  | Some vp, Some vi => <[i := vp]> (<[p := vi]> out)
  | _, _ => out
  end.

(** The loop of [permute] from [i] down to 1. *)
Fixpoint permute_loop (i : nat) (x : Z) (out : list Z) : list Z :=
  match i with
  | O => out
  | S i' =>
      let x := lfsr2 x mod 2 ^ 16 in
      let p := x mod (Z.of_nat i + 1) in
      permute_loop i' x (exchange (Z.to_nat p) i out)
  end.

Definition permute (seed : Z) (n : nat) : list Z :=
  permute_loop (pred n) (seed mod 2 ^ 16) (map Z.of_nat (seq 0 n)).

(** [line_permutation]: the loop ors the fields in from 15 down to 0. *)
Definition line_permutation (seed : Z) : Z :=
  let a := permute seed 16 in
  fold_left (fun out i => Z.lor out (u64 (Z.shiftl (nth i a 0) (Z.of_nat i * 4))))
    (reverse (seq 0 16)) 0.

Definition nextline (next_line_map line : Z) : Z := Z.land (Z.shiftr next_line_map (line * 4)) 0xf.

(** ** Random numbers: proofs *)

Lemma lxor_shiftr_range x s :
  0 <= s -> 0 <= x < 2 ^ 64 -> 0 <= Z.lxor x (Z.shiftr x s) < 2 ^ 64.
Proof.
  intros. apply lxor_bound; [lia|lia|]. rewrite Z.shiftr_div_pow2 by lia.
  split; [apply Z.div_pos; lia|]. apply Z.div_lt_upper_bound; nia.
Qed.

Lemma lxor_shiftl_range x : 0 <= x < 2 ^ 64 -> 0 <= Z.lxor x (u64 (Z.shiftl x 9)) < 2 ^ 64.
Proof. intros. apply lxor_bound; [lia|lia|]. apply wrapU_range. lia. Qed.

Lemma lfsr2_range x : 0 <= x < 2 ^ 64 -> 0 <= lfsr2 x < 2 ^ 64.
Proof.
  intros. unfold lfsr2. apply lxor_shiftr_range; [lia|]. apply lxor_shiftl_range.
  by apply lxor_shiftr_range.
Qed.

Lemma xorshr_zero x s : 0 < s -> 0 <= x -> Z.lxor x (Z.shiftr x s) = 0 -> x = 0.
Proof.
  intros Hs Hx E. apply Z.lxor_eq in E. rewrite Z.shiftr_div_pow2 in E by lia.
  assert (2 <= 2 ^ s) by (change 2 with (2 ^ 1) at 1; apply Z.pow_le_mono_r; lia).
  destruct (Z.eq_dec x 0); [done|].
  assert (x / 2 ^ s < x) by (apply Z.div_lt; lia). lia.
Qed.

Lemma xorshl_zero x : 0 <= x < 2 ^ 64 -> Z.lxor x (u64 (Z.shiftl x 9)) = 0 -> x = 0.
Proof.
  intros Hx E. apply Z.lxor_eq in E. rewrite Z.shiftl_mul_pow2 in E by lia. unfold wrapU in E.
  pose proof (Z.div_mod (x * 2 ^ 9) (2 ^ 64) ltac:(lia)) as D. rewrite <-E in D.
  set (q := x * 2 ^ 9 / 2 ^ 64) in *. clearbody q. clear E.
  (* 511 is invertible modulo 2^64 *)
  assert (x = 2 ^ 64 * (9205322385119247871 * q - 255 * x)) by lia. nia.
Qed.

(** The generator is linear over bitwise exclusive or. *)
Lemma xorshr_lxor x y s :
  0 <= s -> Z.lxor (Z.lxor x y) (Z.shiftr (Z.lxor x y) s) =
  Z.lxor (Z.lxor x (Z.shiftr x s)) (Z.lxor y (Z.shiftr y s)).
Proof.
  intros. apply Z.bits_inj'. intros i Hi. rewrite !Z.lxor_spec, !Z.shiftr_spec, Z.lxor_spec by lia.
  by destruct (Z.testbit x i), (Z.testbit y i), (Z.testbit x (i + s)), (Z.testbit y (i + s)).
Qed.

Lemma xorshl_lxor x y :
  Z.lxor (Z.lxor x y) (u64 (Z.shiftl (Z.lxor x y) 9)) =
  Z.lxor (Z.lxor x (u64 (Z.shiftl x 9))) (Z.lxor y (u64 (Z.shiftl y 9))).
Proof.
  apply Z.bits_inj'. intros i Hi.
  rewrite !Z.lxor_spec, !testbit_wrapU, !Z.shiftl_spec, Z.lxor_spec by lia.
  by destruct (i <? 64), (Z.testbit x i), (Z.testbit y i), (Z.testbit x (i - 9)), (Z.testbit y (i - 9)).
Qed.

Lemma lfsr2_lxor x y : lfsr2 (Z.lxor x y) = Z.lxor (lfsr2 x) (lfsr2 y).
Proof. unfold lfsr2. cbv zeta. by rewrite (xorshr_lxor x y 7), xorshl_lxor, xorshr_lxor by lia. Qed.

(** [lfsr2] permutes the 64-bit words and fixes 0, so a non-zero seed never degenerates
    to 0 and different states stay different. *)
Theorem lfsr2_bijective x y :
  0 <= x < 2 ^ 64 -> 0 <= y < 2 ^ 64 ->
  0 <= lfsr2 x < 2 ^ 64 /\ (lfsr2 x = lfsr2 y -> x = y) /\ (lfsr2 x = 0 -> x = 0).
Proof.
  assert (forall z, 0 <= z < 2 ^ 64 -> lfsr2 z = 0 -> z = 0) as H0.
  { intros z Hz E. unfold lfsr2 in E. pose proof (lxor_shiftr_range z 7 ltac:(lia) Hz) as R1.
    pose proof (lxor_shiftl_range _ R1) as R2.
    apply xorshr_zero in E; [|lia|lia]. apply xorshl_zero in E; [|done].
    apply xorshr_zero in E; lia. }
  intros Hx Hy. split; [by apply lfsr2_range|]. split; [|by apply H0].
  intros E. apply Z.lxor_eq. apply H0; [apply lxor_bound; lia|].
  by rewrite lfsr2_lxor, E, Z.lxor_nilpotent.
Qed.

Lemma lfsr2_bijective_witness : lfsr2 1 <> lfsr2 2 /\ lfsr2 1 <> 0.
Proof.
  split; intros E; apply (lfsr2_bijective 1 2) in E; lia.
Defined.

(** ** Atomic operations: proofs *)

Lemma u64_s64 x : 0 <= x < 2 ^ 64 -> u64 (s64 x) = x.
Proof. intros. rewrite wrapU_wrapS by lia. by apply wrapU_small. Qed.

Lemma s64_inj x y : 0 <= x < 2 ^ 64 -> 0 <= y < 2 ^ 64 -> s64 x = s64 y -> x = y.
Proof. intros Hx Hy E. by rewrite <-(u64_s64 x), <-(u64_s64 y), E. Qed.

(** The operations with an identity: applied to the initial value of the test, each leaves
    its operand. *)
Lemma amo_identity t x : t ∈ tests -> 0 <= x < 2 ^ 64 -> amo_d (pt_amo t) (pt_init t) x = x.
Proof.
  intros Ht Hx. pose proof (wrapS_range 64 x ltac:(lia)) as Hr. simpl in Hr.
  unfold tests in Ht. rewrite !elem_of_cons, elem_of_nil in Ht.
  repeat destruct Ht as [-> | Ht]; [..|done]; simpl.
  - by apply wrapU_small.
  - done.
  - change ones with (Z.ones 64). rewrite Z.land_comm, Z.land_ones by lia. by apply Z.mod_small.
  - done.
  - change (s64 _) with (- 2 ^ 63) at 1. destruct (Z.ltb_spec (- 2 ^ 63) (s64 x)); [done|].
    apply s64_inj; [vm_compute; intuition congruence|done|].
    change (s64 (u64 _)) with (- 2 ^ 63). simpl. lia.
  - destruct (Z.ltb_spec 0 x); [done|lia].
  - change (s64 (Z.shiftr ones 1)) with (2 ^ 63 - 1). destruct (Z.ltb_spec (s64 x) (2 ^ 63 - 1)); [done|].
    apply s64_inj; [vm_compute; intuition congruence|done|].
    change (s64 (Z.shiftr ones 1)) with (2 ^ 63 - 1). lia.
  - change ones with (2 ^ 64 - 1). destruct (Z.ltb_spec x (2 ^ 64 - 1)); [done|lia].
Qed.

Lemma amo_crude t l r :
  t ∈ tests -> 0 <= l < 2 ^ 64 -> 0 <= r < 2 ^ 64 ->
  amo_d (pt_amo t) l r = pt_crude t l r /\ amo_d (pt_amo t) r l = pt_crude t l r.
Proof.
  intros Ht Hl Hr. unfold tests in Ht. rewrite !elem_of_cons, elem_of_nil in Ht.
  repeat destruct Ht as [-> | Ht]; [..|done]; simpl;
    unfold add_func, and_func, or_func, xor_func, max_func, maxu_func, min_func, minu_func.
  - split; [done|]. f_equal. lia.
  - split; [done|]. apply Z.lxor_comm.
  - split; [done|]. apply Z.land_comm.
  - split; [done|]. apply Z.lor_comm.
  - split; destruct (Z.ltb_spec (s64 l) (s64 r)), (Z.ltb_spec (s64 r) (s64 l)); try lia;
      rewrite u64_s64; try done; apply s64_inj; try done; lia.
  - split; destruct (Z.ltb_spec l r), (Z.ltb_spec r l); lia.
  - split; destruct (Z.ltb_spec (s64 l) (s64 r)), (Z.ltb_spec (s64 r) (s64 l)); try lia;
      rewrite u64_s64; try done; apply s64_inj; try done; lia.
  - split; destruct (Z.ltb_spec l r), (Z.ltb_spec r l); lia.
Qed.

(** the pairwise AMO tests accept atomic hardware: whichever side's operation comes
    first, the check of every one of the eight operations passes for all operands, and so
    does the separate check of [amoswap]; the latter rejects the result of two swaps that
    both read the initial value. *)
Theorem paired_tests_sound t left_first l r rnd1 rnd2 :
  t ∈ tests -> 0 <= l < 2 ^ 64 -> 0 <= r < 2 ^ 64 -> 0 <= rnd1 < 2 ^ 64 -> 0 <= rnd2 < 2 ^ 64 ->
  paired_check t l r (paired_round t left_first l r) = true /\
  (let '(dest, operand, partner) :=
     swap_round left_first (swap_operand rnd1 0) (swap_operand rnd2 1) in
   swap_error dest operand partner = false) /\
  swap_error (swap_operand rnd2 1) 2 2 = true.
Proof.
  intros Ht Hl Hr H1 H2. split; [|split].
  - unfold paired_check, paired_round. apply Z.eqb_eq.
    destruct (amo_crude t l r Ht Hl Hr) as [E1 E2].
    destruct left_first; rewrite amo_identity by done; done.
  - assert (forall rnd x, Z.land (Z.lor (Z.land rnd (u64 (Z.lnot 3))) x) 3 = Z.land x 3) as Hlow.
    { intros rnd x. rewrite Z.land_lor_distr_l, <-Z.land_assoc.
      change (Z.land (u64 (Z.lnot 3)) 3) with 0. by rewrite Z.land_0_r. }
    assert (forall a b, Z.land a 3 <> Z.land b 3 -> (a =? b) = false) as Hne
      by (intros a b Hab; apply Z.eqb_neq; congruence).
    unfold swap_round, swap_error, swap_operand. simpl amo_d. cbn [Z.eqb negb].
    set (L := Z.lor (Z.land rnd1 _) 0). set (R := Z.lor (Z.land rnd2 _) 1).
    assert (Z.land L 3 = 0) as EL by apply Hlow. assert (Z.land R 3 = 1) as ER by apply Hlow.
    destruct left_first.
    + rewrite EL, ER, (Hne R 2), (Hne R L), (Hne 2 L); rewrite ?EL, ?ER; done.
    + rewrite EL, ER, (Hne L R), (Hne L 2), (Hne R 2); rewrite ?EL, ?ER; done.
  - unfold swap_error. by rewrite !orb_true_r.
Qed.

Lemma paired_tests_sound_witness :
  paired_check test_amomin 5 (2 ^ 64 - 3) (paired_round test_amomin false 5 (2 ^ 64 - 3)) = true.
Proof.
  apply (paired_tests_sound test_amomin false 5 (2 ^ 64 - 3) 0 0); try lia.
  unfold tests. rewrite !elem_of_cons. tauto.
Defined.

(** ** Pairs: proofs *)

Lemma all_harts (P : Z -> bool) n :
  forallb P (map Z.of_nat (seq 0 n)) = true -> forall h, 0 <= h < Z.of_nat n -> P h = true.
Proof.
  rewrite forallb_forall. intros H h Hh. apply H. apply in_map_iff. exists (Z.to_nat h).
  split; [lia|]. apply in_seq. lia.
Qed.

(** The partner of a hart is the hart 16 away: their indices differ in the last bit, and
    both use the same word. *)
Lemma pair_address_partner h :
  0 <= h < 64 ->
  pair_address_idx (Z.lxor h 16) = Z.lxor (pair_address_idx h) 1 /\
  pair_dest (Z.lxor h 16) = pair_dest h.
Proof.
  intros Hh. pose proof (all_harts (fun h =>
    (pair_address_idx (Z.lxor h 16) =? Z.lxor (pair_address_idx h) 1) &&
    ((pair_dest (Z.lxor h 16)).1 =? (pair_dest h).1) &&
    ((pair_dest (Z.lxor h 16)).2 =? (pair_dest h).2)) 64 ltac:(vm_compute; reflexivity) h Hh) as E.
  cbv beta in E. rewrite !andb_true_iff, !Z.eqb_eq in E. destruct E as [[E1 E2] E3].
  split; [done|]. destruct (pair_dest (Z.lxor h 16)), (pair_dest h). by simplify_eq/=.
Qed.

(** The default of 64 harts is more than [basic_test_acc] has room for: every hart from 32 on
    uses a line past its end. *)
Lemma pair_dest_out_of_bounds h :
  (0 <= h < 32 -> (pair_dest h).1 < basic_test_acc_lines) /\
  (32 <= h < 64 -> basic_test_acc_lines <= (pair_dest h).1).
Proof.
  pose proof (all_harts (fun h => if h <? 32 then (pair_dest h).1 <? basic_test_acc_lines
    else basic_test_acc_lines <=? (pair_dest h).1) 64 ltac:(vm_compute; reflexivity) h) as E.
  cbv beta in E. split; intros Hh; specialize (E ltac:(lia)); destruct (Z.ltb_spec h 32); lia.
Qed.

(** ** Shuffling: proofs *)

Lemma insert_Permutation (l : list Z) i x y : l !! i = Some x -> x :: <[i := y]> l ≡ₚ y :: l.
Proof.
  revert i. induction l as [|z l IH]; intros [|i] Hi; simplify_eq/=.
  - apply perm_swap.
  - rewrite (perm_swap z x), (IH i Hi). apply perm_swap.
Qed.

Lemma exchange_Permutation p i out : exchange p i out ≡ₚ out.
Proof.
  unfold exchange. destruct (out !! p) as [vp|] eqn:Hp; [|done].
  destruct (out !! i) as [vi|] eqn:Hi; [|done].
  assert (<[p := vi]> out !! i = Some vi) as Hi'.
  { destruct (decide (p = i)) as [->|Hne].
    - rewrite list_lookup_insert_eq; [done|]. by eapply lookup_lt_Some.
    - by rewrite list_lookup_insert_ne. }
  apply (Permutation_cons_inv (a := vi)). rewrite (insert_Permutation _ _ _ vp Hi').
  by apply insert_Permutation.
Qed.

Lemma permute_loop_Permutation i : forall x out, permute_loop i x out ≡ₚ out.
Proof.
  induction i as [|i IH]; intros x out; [done|]. cbn [permute_loop].
  rewrite IH. apply exchange_Permutation.
Qed.

(** [permute] yields a permutation of 0 .. n-1, for every seed. *)
Lemma permute_Permutation seed n : permute seed n ≡ₚ map Z.of_nat (seq 0 n).
Proof. apply permute_loop_Permutation. Qed.

Lemma permute_lookup seed n i :
  (i < n)%nat -> exists v, permute seed n !! i = Some v /\ 0 <= v < Z.of_nat n.
Proof.
  intros Hi. assert (length (permute seed n) = n) as Hl.
  { by rewrite permute_Permutation, length_map, length_seq. }
  destruct (lookup_lt_is_Some_2 (permute seed n) i ltac:(lia)) as [v Hv]. exists v. split; [done|].
  assert (v ∈ permute seed n) as Hin by (eapply list_elem_of_lookup_2; done).
  rewrite permute_Permutation in Hin. apply list_elem_of_In, in_map_iff in Hin as (j & <- & Hj).
  apply in_seq in Hj. lia.
Qed.

Lemma permute_inj seed n i j v :
  permute seed n !! i = Some v -> permute seed n !! j = Some v -> i = j.
Proof.
  apply NoDup_lookup. rewrite permute_Permutation. apply NoDup_fmap_2; [intros ???; lia|].
  apply NoDup_seq.
Qed.

Lemma fold_lor_testbit (f : nat -> Z) idx k : forall acc,
  Z.testbit (fold_left (fun out i => Z.lor out (f i)) idx acc) k =
  Z.testbit acc k || existsb (fun i => Z.testbit (f i) k) idx.
Proof.
  induction idx as [|i idx IH]; intros acc; simpl; [by rewrite orb_false_r|].
  by rewrite IH, Z.lor_spec, orb_assoc.
Qed.

(** Field [i] of the map is element [i] of the permutation. *)
Lemma line_permutation_field seed i :
  (i < 16)%nat -> nextline (line_permutation seed) (Z.of_nat i) = nth i (permute seed 16) 0.
Proof.
  intros Hi. assert (forall j, (j < 16)%nat -> 0 <= nth j (permute seed 16) 0 < 16) as Hr.
  { intros j Hj. destruct (permute_lookup seed 16 j Hj) as (v & Hv & Hb).
    by rewrite (nth_lookup_Some _ _ 0 v Hv). }
  unfold nextline, line_permutation. apply Z.bits_inj'. intros b Hb. change 15 with (Z.ones 4).
  rewrite Z.land_spec. destruct (Z.lt_ge_cases b 4) as [Hb4|Hb4].
  2: { rewrite Z.ones_spec_high, andb_false_r by lia. symmetry. apply (testbit_high _ 4); [|lia].
       by apply Hr. }
  rewrite Z.ones_spec_low, andb_true_r, Z.shiftr_spec, fold_lor_testbit, Z.bits_0 by lia.
  cbn [orb]. apply Bool.eq_iff_eq_true. rewrite existsb_exists. split.
  - intros (j & Hj & Hbit). apply list_elem_of_In in Hj. rewrite elem_of_reverse in Hj.
    apply list_elem_of_In, in_seq in Hj. rewrite testbit_wrapU, Z.shiftl_spec in Hbit by lia.
    apply andb_true_iff in Hbit as [_ Hbit]. destruct (decide (j = i)) as [->|Hne].
    + by replace (b + Z.of_nat i * 4 - Z.of_nat i * 4) with b in Hbit by lia.
    + destruct (Nat.lt_ge_cases j i).
      * rewrite (testbit_high _ 4) in Hbit; [done|apply Hr; lia|lia].
      * rewrite Z.testbit_neg_r in Hbit; [done|lia].
  - intros Hbit. exists i. split.
    + apply list_elem_of_In. rewrite elem_of_reverse. apply list_elem_of_In, in_seq. lia.
    + rewrite testbit_wrapU, Z.shiftl_spec by lia. rewrite (proj2 (Z.ltb_lt _ _)) by lia.
      by replace (b + Z.of_nat i * 4 - Z.of_nat i * 4) with b by lia.
Qed.

(** ** The AMOADD test of torture/amoadd/amoadd.c *)

(** The two used columns of [accumulator_table], by line. *)
Record acc_table := mkAcc { acc0 : Z -> Z; acc1 : Z -> Z }.

Definition acc_zero : acc_table := mkAcc (fun _ => 0) (fun _ => 0).

Definition acc_add (f : Z -> Z) (line v : Z) : Z -> Z :=
  fun l => if l =? line then amo_d amoadd (f l) v else f l.

(** The two AMOADDs of one iteration of a hart, as steps that interleave with those of other
    harts: which column, the line and the hart's prime. *)
Definition acc_step (map : Z) (t : acc_table) (s : bool * Z * Z) : acc_table :=
  let '(second, line, prime) := s in
  if second then mkAcc (acc0 t) (acc_add (acc1 t) (nextline map line) prime)
  else mkAcc (acc_add (acc0 t) line prime) (acc1 t).

(** The check of hart 0: the rows agree, and the total is the expected one. *)
Definition acc_check (map expected : Z) (t : acc_table) : bool :=
  forallb (fun i => acc0 t i =? acc1 t (nextline map i)) (seqZ 0 16) &&
  (fold_left (fun s i => s ⊞ acc0 t i) (seqZ 0 16) 0 =? expected).

Definition is_first (s : bool * Z * Z) : bool := negb s.1.1.

(** What the steps of one column add to a line. *)
Definition line_sum (second : bool) (l : Z) (steps : list (bool * Z * Z)) : Z :=
  fold_right Z.add 0 (map snd (List.filter (fun s => Bool.eqb s.1.1 second && (s.1.2 =? l)) steps)).

Lemma acc_steps_sum seed steps : forall t,
  Forall (fun s => 0 <= s.1.2 < 16) steps ->
  (forall l, 0 <= l < 16 -> 0 <= acc0 t l < 2 ^ 64 /\
     0 <= acc1 t (nextline (line_permutation seed) l) < 2 ^ 64) ->
  let m := line_permutation seed in
  let t' := fold_left (acc_step m) steps t in
  forall l, 0 <= l < 16 -> acc0 t' l = acc0 t l ⊞ line_sum false l steps /\
    acc1 t' (nextline m l) = acc1 t (nextline m l) ⊞ line_sum true l steps.
Proof.
  cbv zeta. induction steps as [|[[second line] v] steps IH]; intros t Hs Ht l Hl.
  - simpl. destruct (Ht l Hl). rewrite !Z.add_0_r, !wrapU_small by lia. done.
  - apply Forall_cons in Hs as [Hline Hs]. cbn [fst snd] in Hline. cbn [fold_left].
    assert (forall a b, 0 <= a < 16 -> 0 <= b < 16 ->
      nextline (line_permutation seed) a = nextline (line_permutation seed) b -> a = b) as Hinj.
    { intros a b Ha Hb E. rewrite <-(Z2Nat.id a), <-(Z2Nat.id b) in E by lia.
      rewrite !line_permutation_field in E by lia.
      destruct (permute_lookup seed 16 (Z.to_nat a) ltac:(lia)) as (va & Hva & _).
      destruct (permute_lookup seed 16 (Z.to_nat b) ltac:(lia)) as (vb & Hvb & _).
      rewrite (nth_lookup_Some _ _ 0 va Hva), (nth_lookup_Some _ _ 0 vb Hvb) in E. subst vb.
      pose proof (permute_inj _ _ _ _ _ Hva Hvb). lia. }
    destruct (IH (acc_step (line_permutation seed) t (second, line, v)) Hs) with (l := l)
      as [E0 E1]; [|done|].
    + intros l' Hl'. destruct (Ht l' Hl') as [R0 R1]. destruct second; simpl; unfold acc_add;
        simpl; (split; [|]); try done; destruct (_ =? _); try done; apply wrapU_range; lia.
    + rewrite E0, E1. unfold line_sum. destruct second; simpl; unfold acc_add; simpl; (split; [|]);
        try done.
      * destruct (Z.eqb_spec (nextline (line_permutation seed) l) (nextline (line_permutation seed) line)) as [E|Hne].
        -- apply Hinj in E as ->; [|done|done]. rewrite Z.eqb_refl. simpl. rewrite wrapU_add_l. f_equal. lia.
        -- destruct (Z.eqb_spec line l) as [->|]; [done|]. done.
      * destruct (Z.eqb_spec l line) as [->|Hne].
        -- rewrite Z.eqb_refl. simpl. rewrite wrapU_add_l. f_equal. lia.
        -- destruct (Z.eqb_spec line l) as [->|]; [done|]. done.
Qed.

(** The lines that a hart visits: [rnd] is an [int]. *)
Fixpoint hart_lines (n : nat) (rnd : Z) : list Z :=
  match n with
  | O => []
  | S n => Z.land rnd 0xf :: hart_lines n (s32 (lfsr2 (u64 rnd)))
  end.

(** All steps of a hart with the given prime. *)
Definition hart_steps (n : nat) (h : Z * Z) : list (bool * Z * Z) :=
  flat_map (fun line => [(false, line, h.1); (true, line, h.1)]) (hart_lines n h.2).

Lemma hart_lines_range n : forall rnd, Forall (fun l => 0 <= l < 16) (hart_lines n rnd).
Proof.
  induction n as [|n IH]; intros rnd; simpl; constructor; [|apply IH].
  change 15 with (2 ^ 4 - 1). rewrite land_pow2_mask by lia. apply Z.mod_pos_bound. lia.
Qed.

Lemma hart_lines_length n : forall rnd, length (hart_lines n rnd) = n.
Proof. induction n as [|n IH]; intros rnd; simpl; by rewrite ?IH. Qed.

Lemma line_sum_app second l s1 s2 :
  line_sum second l (s1 ++ s2) = line_sum second l s1 + line_sum second l s2.
Proof.
  unfold line_sum. rewrite List.filter_app, map_app.
  induction (map snd (List.filter (fun s => Bool.eqb s.1.1 second && (s.1.2 =? l)) s1)); simpl; lia.
Qed.

Lemma line_sum_Permutation second l s1 s2 :
  s1 ≡ₚ s2 -> line_sum second l s1 = line_sum second l s2.
Proof.
  induction 1 as [|x s1 s2 _ IH|x y s|s1 s2 s3 _ IH1 _ IH2]; try done; unfold line_sum in *; simpl;
    repeat (destruct (_ && _); simpl); lia.
Qed.

Lemma hart_steps_sum n h : forall l, line_sum true l (hart_steps n h) = line_sum false l (hart_steps n h).
Proof.
  intros l. unfold hart_steps. induction (hart_lines n h.2) as [|x ls IH]; [done|]. simpl flat_map.
  change ((false, x, h.1) :: (true, x, h.1) :: ?t) with ([(false, x, h.1); (true, x, h.1)] ++ t).
  rewrite !line_sum_app, IH. f_equal. unfold line_sum. simpl. by destruct (x =? l).
Qed.

Definition sum_lines (ls : list Z) (steps : list (bool * Z * Z)) : Z :=
  fold_right Z.add 0 (map (fun l => line_sum false l steps) ls).

Lemma sum_lines_app ls s1 s2 : sum_lines ls (s1 ++ s2) = sum_lines ls s1 + sum_lines ls s2.
Proof.
  unfold sum_lines. induction ls as [|l ls IH]; [done|]. simpl. rewrite IH, line_sum_app. lia.
Qed.

Lemma sum_lines_one line v :
  0 <= line < 16 -> sum_lines (seqZ 0 16) [(false, line, v); (true, line, v)] = v.
Proof.
  intros Hl. unfold sum_lines, line_sum. simpl.
  assert (line = 0 \/ line = 1 \/ line = 2 \/ line = 3 \/ line = 4 \/ line = 5 \/ line = 6 \/
    line = 7 \/ line = 8 \/ line = 9 \/ line = 10 \/ line = 11 \/ line = 12 \/ line = 13 \/
    line = 14 \/ line = 15) as Hc by lia.
  repeat destruct Hc as [-> | Hc]; [..|subst line]; simpl; lia.
Qed.

Lemma hart_steps_total n h : sum_lines (seqZ 0 16) (hart_steps n h) = Z.of_nat n * h.1.
Proof.
  pose proof (hart_lines_range n h.2) as Hr. rewrite <-(hart_lines_length n h.2) at 2.
  unfold hart_steps. induction Hr as [|x ls Hx Hr IH]; [done|]. cbn [flat_map].
  rewrite sum_lines_app, IH, sum_lines_one by done. cbn [length]. lia.
Qed.

Lemma fold_wrap (f : Z -> Z) ls : forall a,
  fold_left (fun s i => s ⊞ u64 (f i)) ls (u64 a) = u64 (a + fold_right Z.add 0 (map f ls)).
Proof.
  induction ls as [|l ls IH]; intros a; simpl; [by rewrite Z.add_0_r|].
  rewrite wrapU_add_l, wrapU_add_r, IH. f_equal. lia.
Qed.

(** C39: the AMOADD torture test passes on hardware with atomic AMOADD: for every seed of
    the line map, any primes and random seeds of the harts, and any interleaving of their
    steps, each row equals the row its map entry names and the total is the expected one,
    also when the sums wrap. *)
Theorem amoadd_test_passes seed n harts steps :
  steps ≡ₚ concat (map (hart_steps n) harts) ->
  acc_check (line_permutation seed) (fold_right Z.add 0 (map fst harts) ⊠ Z.of_nat n)
    (fold_left (acc_step (line_permutation seed)) steps acc_zero) = true.
Proof.
  intros Hp.
  assert (Forall (fun s : bool * Z * Z => 0 <= s.1.2 < 16) steps) as Hr.
  { rewrite Hp. apply Forall_concat, Forall_map, Forall_forall. intros h _.
    unfold hart_steps. induction (hart_lines_range n h.2) as [|x ls Hx _ IH]; [by constructor|].
    simpl. by do 2 (apply Forall_cons; split; [done|]). }
  pose proof (acc_steps_sum seed steps acc_zero Hr) as Hs. cbv zeta in Hs.
  assert (forall l, line_sum true l steps = line_sum false l steps) as Heq.
  { intros l. rewrite !(line_sum_Permutation _ _ _ _ Hp). clear. induction harts as [|h hs IH]; [done|].
    simpl. by rewrite !line_sum_app, IH, hart_steps_sum. }
  assert (sum_lines (seqZ 0 16) steps = fold_right Z.add 0 (map fst harts) * Z.of_nat n) as Htot.
  { transitivity (sum_lines (seqZ 0 16) (concat (map (hart_steps n) harts))).
    - unfold sum_lines. f_equal. apply map_ext. intros l. by apply line_sum_Permutation.
    - clear. induction harts as [|h hs IH]; [done|]. cbn [map concat fold_right].
      rewrite sum_lines_app, IH, hart_steps_total. lia. }
  assert (forall l, 0 <= l < 16 -> acc0 (fold_left (acc_step (line_permutation seed)) steps acc_zero) l =
    u64 (line_sum false l steps)) as H0.
  { intros l Hl. destruct (Hs ltac:(simpl; lia) l Hl) as [E _]. exact E. }
  unfold acc_check. apply andb_true_iff. split.
  - apply forallb_forall. intros l Hl. apply list_elem_of_In, elem_of_seqZ in Hl. apply Z.eqb_eq.
    rewrite H0 by lia. destruct (Hs ltac:(simpl; lia) l ltac:(lia)) as [_ ->]. simpl. by rewrite Heq.
  - apply Z.eqb_eq. rewrite <-Htot. unfold sum_lines.
    rewrite <-(Z.add_0_l (fold_right _ _ _)), <-fold_wrap. cbn [seqZ].
    assert (forall ls a, Forall (fun l => 0 <= l < 16) ls ->
      fold_left (fun s i => u64 (s + acc0 (fold_left (acc_step (line_permutation seed)) steps acc_zero) i)) ls a =
      fold_left (fun s i => u64 (s + u64 (line_sum false i steps))) ls a) as Hf.
    { intros ls. induction ls as [|l ls IH]; intros a Ha; [done|]. simpl.
      apply Forall_cons in Ha as [Hl Ha]. by rewrite H0, IH. }
    apply Hf. apply Forall_forall. intros l Hl. apply elem_of_seqZ in Hl. lia.
Qed.

Lemma amoadd_test_passes_witness :
  let steps := reverse (concat (map (hart_steps 3) [(900001, 12); (900007, 77)])) in
  acc_check (line_permutation 4711) (fold_right Z.add 0 [900001; 900007] ⊠ 3)
    (fold_left (acc_step (line_permutation 4711)) steps acc_zero) = true.
Proof.
  cbv zeta. apply (amoadd_test_passes 4711 3 [(900001, 12); (900007, 77)]).
  apply reverse_Permutation.
Defined.
