(* ===== verification/Ring.v ===== *)
(** * The lock-free ring buffer

    riscv-tests/common/ck/ck_ring.h for rings of pointers: initialisation, size, capacity,
    repair and validity; the single-producer and single-consumer operations as functions;
    and the multi-producer multi-consumer operations that queue_ck.h uses as a transition
    system: every load, store, slot copy and compare-and-swap of a shared word is a step of
    its own, and the steps of any number of threads interleave.  A slot holds one pointer, so
    its copy is one access. *)
From S2P Require Import Prelude.
Local Open Scope Z_scope.
Local Open Scope word_scope.

(** ** The ring *)

Record ring := mkRing {
  c_head : Z; p_tail : Z; p_head : Z; r_size : Z; r_mask : Z }.

Definition ck_ring_init (size : Z) : ring := mkRing 0 0 0 size (size ⊟ 1).

Definition ck_ring_size (r : ring) : Z := Z.land (p_tail r ⊟ c_head r) (r_mask r).

Definition ck_ring_capacity (r : ring) : Z := r_size r.

Definition ck_ring_repair (r : ring) : ring * bool :=
  if negb (p_tail r =? p_head r)
  then (mkRing (c_head r) (p_head r) (p_head r) (r_size r) (r_mask r), true) else (r, false).

Definition ck_ring_valid (r : ring) : bool :=
  if negb (Z.land (r_size r) (r_size r ⊟ 1) =? 0) then false
  else if p_head r <? c_head r then false
  else if r_size r <=? p_head r ⊟ c_head r then false
  else true.

Definition set_c_head (v : Z) (r : ring) : ring :=
  mkRing v (p_tail r) (p_head r) (r_size r) (r_mask r).
Definition set_p_tail (v : Z) (r : ring) : ring :=
  mkRing (c_head r) v (p_head r) (r_size r) (r_mask r).
Definition set_p_head (v : Z) (r : ring) : ring :=
  mkRing (c_head r) (p_tail r) v (r_size r) (r_mask r).

(** The buffer, by slot. *)
Definition buffer : Type := Z -> Z.

Definition set_slot (b : buffer) (i v : Z) : buffer := fun j => if j =? i then v else b j.

(** ** One producer, one consumer *)

(** The slot to write, or [None]; the second part is the value for [*size]. *)
Definition _ck_ring_enqueue_reserve_sp (r : ring) : option Z * Z :=
  let consumer := c_head r in
  let producer := p_tail r in
  let delta := producer ⊞ 1 in
  let size := Z.land (producer ⊟ consumer) (r_mask r) in
  if Z.land delta (r_mask r) =? Z.land consumer (r_mask r) then (None, size)
  else (Some (Z.land producer (r_mask r)), size).

Definition _ck_ring_enqueue_commit_sp (r : ring) : ring := set_p_tail (p_tail r ⊞ 1) r.

Definition _ck_ring_enqueue_sp (r : ring) (b : buffer) (entry : Z) : ring * buffer * bool * Z :=
  let consumer := c_head r in
  let producer := p_tail r in
  let delta := producer ⊞ 1 in
  let size := Z.land (producer ⊟ consumer) (r_mask r) in
  if Z.land delta (r_mask r) =? Z.land consumer (r_mask r) then (r, b, false, size)
  else (set_p_tail delta r, set_slot b (Z.land producer (r_mask r)) entry, true, size).

Definition _ck_ring_dequeue_sc (r : ring) (b : buffer) : ring * option Z :=
  let consumer := c_head r in
  let producer := p_tail r in
  if consumer =? producer then (r, None)
  else (set_c_head (consumer ⊞ 1) r, Some (b (Z.land consumer (r_mask r)))).

(** ** Many producers, many consumers *)

(** Where a thread stands inside [_ck_ring_enqueue_mp] ([E_...]; the local [producer], and
    [consumer] where it is live), [_ck_ring_dequeue_mc] or [_ck_ring_trydequeue_mc] ([D_...]
    with [try] telling the two apart), or after a call with its result. *)
Inductive ring_pc :=
| Outside
| E_load_c (v producer : Z)
| E_cas (v producer consumer : Z)
| E_reload (v producer : Z)
| E_copy (v producer : Z)
| E_wait (v producer : Z)
| E_store (v producer : Z)
| Enqueued (r : bool)
| D_load_p (try : bool) (consumer : Z)
| D_copy (try : bool) (consumer : Z)
| D_cas (try : bool) (consumer data : Z)
| Dequeued (r : option Z).

Inductive ring_op := Enqueue (v : Z) | Dequeue | TryDequeue.

(** The shared state, the threads, and two histories that the code does not keep: the
    entries in the order in which tickets were drawn, and the values handed out in the order
    in which they were claimed. *)
Record ring_st := mkRingSt {
  rg : ring; slots : buffer; threads : list ring_pc; tickets : list Z; taken : list Z }.

(** The first load of a call. *)
Definition ring_begin (o : ring_op) (r : ring) : ring_pc :=
  match o with
  | Enqueue v => E_load_c v (p_head r)
  | Dequeue => D_load_p false (c_head r)
  | TryDequeue => D_load_p true (c_head r)
  end.

(** One access to shared memory by a thread at [pc]: its next position, and the shared state. *)
Definition thread_step (pc : ring_pc) (s : ring_st) : option (ring_pc * ring_st) :=
  let r := rg s in
  let mask := r_mask r in
  let keep pc' := Some (pc', s) in
  match pc with
  | Outside | Enqueued _ | Dequeued _ => None
  | E_load_c v producer => keep (E_cas v producer (c_head r))
  | E_cas v producer consumer =>
      if producer ⊟ consumer <? mask then
        if p_head r =? producer then
          Some (E_copy v producer,
            mkRingSt (set_p_head (producer ⊞ 1) r) (slots s) (threads s) (tickets s ++ [v]) (taken s))
        else keep (E_load_c v (p_head r))
      else keep (E_reload v producer)
  | E_reload v producer =>
      let new_producer := p_head r in
      if producer =? new_producer then keep (Enqueued false) else keep (E_load_c v new_producer)
  | E_copy v producer =>
      Some (E_wait v producer,
        mkRingSt r (set_slot (slots s) (Z.land producer mask) v) (threads s) (tickets s) (taken s))
  | E_wait v producer => if p_tail r =? producer then keep (E_store v producer) else keep pc
  | E_store v producer =>
      Some (Enqueued true,
        mkRingSt (set_p_tail (producer ⊞ 1) r) (slots s) (threads s) (tickets s) (taken s))
  | D_load_p try consumer =>
      if consumer =? p_tail r then keep (Dequeued None) else keep (D_copy try consumer)
  | D_copy try consumer => keep (D_cas try consumer (slots s (Z.land consumer mask)))
  | D_cas try consumer data =>
      if c_head r =? consumer then
        Some (Dequeued (Some data),
          mkRingSt (set_c_head (consumer ⊞ 1) r) (slots s) (threads s) (tickets s) (taken s ++ [data]))
      else if try then keep (Dequeued None) else keep (D_load_p false (c_head r))
  end.

Definition set_thread (i : nat) (pc : ring_pc) (s : ring_st) : ring_st :=
  mkRingSt (rg s) (slots s) (<[i := pc]> (threads s)) (tickets s) (taken s).

(** Thread [i] takes a step. *)
Definition ring_step (i : nat) (s : ring_st) : option ring_st :=
  pc ← threads s !! i;
  '(pc', s') ← thread_step pc s;
  Some (set_thread i pc' s').

(** Thread [i] starts a call. *)
Definition ring_call (i : nat) (o : ring_op) (s : ring_st) : option ring_st :=
  pc ← threads s !! i;
  match pc with
  | Outside | Enqueued _ | Dequeued _ => Some (set_thread i (ring_begin o (rg s)) s)
  | _ => None
  end.

Definition ring_start (size : Z) (n : nat) (b : buffer) : ring_st :=
  mkRingSt (ck_ring_init size) b (replicate n Outside) [] [].

Inductive ring_reach (size : Z) (n : nat) (b : buffer) : ring_st -> Prop :=
| rr_start : ring_reach size n b (ring_start size n b)
| rr_call s i o s' : ring_reach size n b s -> ring_call i o s = Some s' -> ring_reach size n b s'
| rr_step s i s' : ring_reach size n b s -> ring_step i s = Some s' -> ring_reach size n b s'.

(** ** The invariant *)

(** The entry with ticket [i]. *)
Definition ticket_of (s : ring_st) (i : Z) : option Z := tickets s !! Z.to_nat i.

(** The ticket a producer holds between drawing it and publishing its slot. *)
Definition holds (pc : ring_pc) : option Z :=
  match pc with
  | E_copy _ p | E_wait _ p | E_store _ p => Some p
  | _ => None
  end.

Definition published (s : ring_st) (p v : Z) : Prop :=
  p_tail (rg s) <= p < p_head (rg s) /\ ticket_of s p = Some v.

(** What a thread's position says about the shared state. *)
Definition thread_ok (s : ring_st) (pc : ring_pc) : Prop :=
  let r := rg s in
  match pc with
  | Outside | Enqueued _ | Dequeued _ => True
  | E_load_c _ p | E_reload _ p => 0 <= p <= p_head r
  | E_cas _ p c => 0 <= p <= p_head r /\ 0 <= c <= c_head r
  | E_copy v p => published s p v
  | E_wait v p => published s p v /\ slots s (Z.land p (r_mask r)) = v
  | E_store v p =>
      published s p v /\ slots s (Z.land p (r_mask r)) = v /\ p_tail r = p
  | D_load_p _ c => 0 <= c <= c_head r
  | D_copy _ c => 0 <= c <= c_head r /\ (c = c_head r -> c < p_tail r)
  | D_cas _ c d => 0 <= c <= c_head r /\
      (c = c_head r -> c < p_tail r /\ ticket_of s c = Some d)
  end.

Record ring_inv (k : Z) (s : ring_st) : Prop := mkRingInv {
  ri_mask : r_mask (rg s) = 2 ^ k - 1;
  ri_c : c_head (rg s) = Z.of_nat (length (taken s));
  ri_h : p_head (rg s) = Z.of_nat (length (tickets s));
  ri_order : c_head (rg s) <= p_tail (rg s) <= p_head (rg s) /\
    p_head (rg s) <= c_head (rg s) + r_mask (rg s);
  ri_taken : taken s = take (length (taken s)) (tickets s);
  ri_slots : forall i v, c_head (rg s) <= i < p_tail (rg s) -> ticket_of s i = Some v ->
    slots s (Z.land i (r_mask (rg s))) = v;
  ri_threads : Forall (thread_ok s) (threads s);
  ri_own : forall i, p_tail (rg s) <= i < p_head (rg s) ->
    exists j pc, threads s !! j = Some pc /\ holds pc = Some i;
  ri_uniq : forall j1 j2 pc1 pc2 i, threads s !! j1 = Some pc1 -> threads s !! j2 = Some pc2 ->
    holds pc1 = Some i -> holds pc2 = Some i -> j1 = j2 }.

Section ring_proofs.
Context (k : Z) (Hk : 0 <= k < 64).

(** Tickets less than a ring apart use different slots. *)
Lemma slot_ne i j :
  i <> j -> Z.abs (i - j) < 2 ^ k -> Z.land i (2 ^ k - 1) <> Z.land j (2 ^ k - 1).
Proof.
  intros Hne Hd E. rewrite !land_pow2_mask in E by lia.
  pose proof (Z.div_mod i (2 ^ k) ltac:(lia)). pose proof (Z.div_mod j (2 ^ k) ltac:(lia)).
  assert (i / 2 ^ k = j / 2 ^ k) by nia. nia.
Qed.

(** Thread updates. *)
Lemma set_thread_own i pc pc' s (P : Z -> Prop) :
  threads s !! i = Some pc -> holds pc' = holds pc ->
  (forall x, P x -> exists j pc, threads s !! j = Some pc /\ holds pc = Some x) ->
  forall x, P x -> exists j pc, <[i := pc']> (threads s) !! j = Some pc /\ holds pc = Some x.
Proof.
  intros Hi Hh Hown x Hx. destruct (Hown x Hx) as (j & pcj & Hj & Hhj).
  destruct (decide (i = j)) as [->|Hne].
  - exists j, pc'. split; [|by simplify_eq; rewrite Hh].
    apply list_lookup_insert_eq. by eapply lookup_lt_Some.
  - exists j, pcj. by rewrite list_lookup_insert_ne.
Qed.

Definition uniq_tickets (l : list ring_pc) : Prop :=
  forall j1 j2 pc1 pc2 i, l !! j1 = Some pc1 -> l !! j2 = Some pc2 ->
    holds pc1 = Some i -> holds pc2 = Some i -> j1 = j2.

Lemma uniq_insert i pc' l :
  uniq_tickets l ->
  (forall j pcj x, j <> i -> l !! j = Some pcj -> holds pcj = Some x -> holds pc' <> Some x) ->
  uniq_tickets (<[i := pc']> l).
Proof.
  intros Hu Hn j1 j2 pc1 pc2 x H1 H2 E1 E2.
  apply list_lookup_insert_Some in H1 as [(-> & -> & _)|[Hne1 H1]];
    apply list_lookup_insert_Some in H2 as [(-> & -> & _)|[Hne2 H2]]; try done.
  - by destruct (Hn j2 pc2 x).
  - by destruct (Hn j1 pc1 x).
  - by eapply (Hu j1 j2).
Qed.

(** A step that changes no shared word and keeps the thread's ticket. *)
Lemma inv_local s i pc pc' :
  ring_inv k s -> threads s !! i = Some pc -> holds pc' = holds pc -> thread_ok s pc' ->
  ring_inv k (set_thread i pc' s).
Proof.
  intros I Hi Hh Hok. destruct I as [Hm Hc Hhd Ho Ht Hs Hthr Hown Hu].
  split; simpl; try done.
  - apply Forall_insert; [done|]. exact Hok.
  - by eapply (set_thread_own i pc).
  - apply uniq_insert; [exact Hu|]. rewrite Hh. intros j pcj x Hne Hj Hx Hx'.
    apply Hne. by eapply (Hu j i).
Qed.

(** Snapshots of the other threads stay good when the counters grow. *)
Lemma ok_draw s v pc h' :
  h' = p_head (rg s) + 1 -> p_head (rg s) = Z.of_nat (length (tickets s)) ->
  0 <= p_tail (rg s) -> 0 <= c_head (rg s) -> thread_ok s pc ->
  thread_ok (mkRingSt (set_p_head h' (rg s)) (slots s) (threads s) (tickets s ++ [v]) (taken s)) pc.
Proof.
  intros -> Hh Ht Hc Hok.
  assert (forall i x, ticket_of s i = Some x ->
    ticket_of (mkRingSt (set_p_head (p_head (rg s) + 1) (rg s)) (slots s) (threads s)
      (tickets s ++ [v]) (taken s)) i = Some x) as Hx.
  { intros i x E. unfold ticket_of in *. simpl. by apply lookup_app_l_Some. }
  destruct pc; simpl in *; unfold published in *; simpl; intuition (auto; lia).
Qed.

Lemma ok_write s p v pc :
  ring_inv k s -> p_tail (rg s) <= p < p_head (rg s) -> holds pc <> Some p ->
  thread_ok s pc ->
  thread_ok (mkRingSt (rg s) (set_slot (slots s) (Z.land p (r_mask (rg s))) v) (threads s)
    (tickets s) (taken s)) pc.
Proof.
  intros I Hp Hne Hok. pose proof (ri_order _ _ I). pose proof (ri_mask _ _ I) as Hm.
  destruct pc; simpl in *; unfold published, set_slot in *; simpl; try done.
  - destruct Hok as [[Hb Ht] Hs]. split; [done|].
    destruct (Z.eqb_spec (Z.land producer (r_mask (rg s))) (Z.land p (r_mask (rg s)))) as [E|]; [|done].
    rewrite Hm in *. destruct (slot_ne producer p); [congruence|lia|done].
  - destruct Hok as ([Hb Ht] & Hs & Htail). split; [done|]. split; [|done].
    destruct (Z.eqb_spec (Z.land producer (r_mask (rg s))) (Z.land p (r_mask (rg s)))) as [E|]; [|done].
    rewrite Hm in *. destruct (slot_ne producer p); [congruence|lia|done].
Qed.

Lemma ok_publish s pc :
  holds pc <> Some (p_tail (rg s)) -> thread_ok s pc ->
  thread_ok (mkRingSt (set_p_tail (p_tail (rg s) + 1) (rg s)) (slots s) (threads s)
    (tickets s) (taken s)) pc.
Proof.
  intros Hne Hok. unfold ticket_of in *.
  destruct pc; simpl in *; unfold published, ticket_of in *; simpl; intuition (try lia; try congruence).
  - destruct (decide (producer = p_tail (rg s))); [congruence|lia].
  - destruct (decide (producer = p_tail (rg s))); [congruence|lia].
Qed.

Lemma ok_claim s d pc :
  c_head (rg s) < p_tail (rg s) -> thread_ok s pc ->
  thread_ok (mkRingSt (set_c_head (c_head (rg s) + 1) (rg s)) (slots s) (threads s)
    (tickets s) (taken s ++ [d])) pc.
Proof.
  intros Hlt Hok.
  destruct pc; simpl in *; unfold published, ticket_of in *; simpl; intuition (try lia; auto).
Qed.

(** The other threads after thread [i] moved to [pc']. *)
Lemma Forall_threads s s' i pc pc' :
  Forall (thread_ok s) (threads s) -> threads s !! i = Some pc ->
  (forall j pcj, j <> i -> threads s !! j = Some pcj -> thread_ok s pcj -> thread_ok s' pcj) ->
  thread_ok s' pc' -> Forall (thread_ok s') (<[i := pc']> (threads s)).
Proof.
  intros Hall Hi Hot Hok. apply Forall_lookup. intros j pcj Hj.
  apply list_lookup_insert_Some in Hj as [(-> & <- & _)|[Hne Hj]]; [done|].
  eapply Hot; [by apply not_eq_sym|done|]. by eapply Forall_lookup in Hall.
Qed.

(** Thread positions ignore the list of threads. *)
Lemma thread_ok_threads r b t1 t2 tk tn pc :
  thread_ok (mkRingSt r b t1 tk tn) pc -> thread_ok (mkRingSt r b t2 tk tn) pc.
Proof. by destruct pc. Qed.

Lemma step_draw s i v producer consumer :
  ring_inv k s -> threads s !! i = Some (E_cas v producer consumer) ->
  Z.of_nat (length (tickets s)) + 1 < 2 ^ 64 ->
  (producer ⊟ consumer <? r_mask (rg s)) = true -> p_head (rg s) = producer ->
  ring_inv k (set_thread i (E_copy v producer)
    (mkRingSt (set_p_head (producer ⊞ 1) (rg s)) (slots s) (threads s) (tickets s ++ [v]) (taken s))).
Proof.
  intros I Hi Hb Hlt Hp. pose proof (ri_threads _ _ I) as Hthr.
  pose proof (proj1 (Forall_lookup _ _) Hthr _ _ Hi) as Hok. simpl in Hok.
  destruct I as [Hm Hc Hhd Ho Ht Hs _ Hown Hu]. apply Z.ltb_lt in Hlt.
  rewrite wrapU_small in Hlt by lia. rewrite wrapU_small by lia.
  split; simpl; try done; try lia.
  - rewrite length_app. simpl. lia.
  - rewrite take_app_le by lia. exact Ht.
  - intros x w Hx Hw. apply Hs; [lia|]. unfold ticket_of in *. simpl in Hw.
    rewrite lookup_app_l in Hw; [done|lia].
  - eapply Forall_threads; try done.
    + intros j pcj Hne Hj Hokj. apply thread_ok_threads with (threads s).
      apply (ok_draw s v pcj); try done; lia.
    + simpl. unfold published, ticket_of. simpl. split; [lia|]. subst producer. rewrite Hhd, Nat2Z.id.
      by rewrite lookup_app_r, Nat.sub_diag by lia.
  - intros x Hx. destruct (decide (x = producer)) as [->|Hne].
    + exists i, (E_copy v producer). rewrite list_lookup_insert_eq; [done|]. by eapply lookup_lt_Some.
    + destruct (Hown x) as (j & pcj & Hj & Hh); [lia|]. exists j, pcj.
      rewrite list_lookup_insert_ne; [done|]. intros <-. by simplify_eq.
  - apply uniq_insert; [exact Hu|]. intros j pcj x Hne Hj Hx [= <-].
    pose proof (proj1 (Forall_lookup _ _) Hthr _ _ Hj) as Hokj.
    destruct pcj; simplify_eq/=; unfold published in *; lia.
Qed.

Lemma step_write s i v producer :
  ring_inv k s -> threads s !! i = Some (E_copy v producer) ->
  ring_inv k (set_thread i (E_wait v producer)
    (mkRingSt (rg s) (set_slot (slots s) (Z.land producer (r_mask (rg s))) v) (threads s)
       (tickets s) (taken s))).
Proof.
  intros I Hi. pose proof (ri_threads _ _ I) as Hthr.
  pose proof (proj1 (Forall_lookup _ _) Hthr _ _ Hi) as [Hok Htk]. pose proof I as I'.
  destruct I as [Hm Hc Hhd Ho Ht Hs _ Hown Hu].
  split; simpl; try done.
  - intros x w Hx Hw. unfold set_slot.
    destruct (Z.eqb_spec (Z.land x (r_mask (rg s))) (Z.land producer (r_mask (rg s)))) as [E|]; [|by apply Hs].
    rewrite Hm in *. destruct (slot_ne x producer); [lia|lia|done].
  - eapply Forall_threads; try done.
    + intros j pcj Hne Hj Hokj. apply thread_ok_threads with (threads s).
      apply (ok_write s producer v pcj); try done. intros Hh. apply Hne. by eapply (Hu j i).
    + simpl. unfold published, set_slot. simpl. by rewrite Z.eqb_refl.
  - by eapply (set_thread_own i (E_copy v producer)).
  - apply uniq_insert; [exact Hu|]. intros j pcj x Hne Hj Hx [= <-]. apply Hne. by eapply (Hu j i).
Qed.

Lemma step_publish s i v producer :
  ring_inv k s -> threads s !! i = Some (E_store v producer) ->
  Z.of_nat (length (tickets s)) < 2 ^ 64 ->
  ring_inv k (set_thread i (Enqueued true)
    (mkRingSt (set_p_tail (producer ⊞ 1) (rg s)) (slots s) (threads s) (tickets s) (taken s))).
Proof.
  intros I Hi Hb. pose proof (ri_threads _ _ I) as Hthr.
  pose proof (proj1 (Forall_lookup _ _) Hthr _ _ Hi) as ([Hok Htk] & Hsl & Htail).
  destruct I as [Hm Hc Hhd Ho Ht Hs _ Hown Hu]. rewrite wrapU_small by lia. subst producer.
  split; simpl; try done; try lia.
  - intros x w Hx Hw. destruct (decide (x = p_tail (rg s))) as [->|].
    + unfold ticket_of in *. simpl in Hw. congruence.
    + apply Hs; [lia|done].
  - eapply Forall_threads; try done.
    intros j pcj Hne Hj Hokj. apply thread_ok_threads with (threads s).
    apply (ok_publish s); try done. intros Hh. apply Hne. by eapply (Hu j i).
  - intros x Hx. destruct (Hown x) as (j & pcj & Hj & Hh); [lia|]. exists j, pcj.
    rewrite list_lookup_insert_ne; [done|]. intros <-. simplify_eq/=. lia.
  - apply uniq_insert; [exact Hu|]. done.
Qed.

Lemma step_claim s i try consumer data :
  ring_inv k s -> threads s !! i = Some (D_cas try consumer data) ->
  Z.of_nat (length (tickets s)) < 2 ^ 64 -> c_head (rg s) = consumer ->
  ring_inv k (set_thread i (Dequeued (Some data))
    (mkRingSt (set_c_head (consumer ⊞ 1) (rg s)) (slots s) (threads s) (tickets s)
       (taken s ++ [data]))).
Proof.
  intros I Hi Hb Hcc. pose proof (ri_threads _ _ I) as Hthr.
  pose proof (proj1 (Forall_lookup _ _) Hthr _ _ Hi) as [Hok Hd].
  destruct I as [Hm Hc Hhd Ho Ht Hs _ Hown Hu]. destruct Hd as [Hlt Hd]; [done|].
  rewrite wrapU_small by lia. subst consumer.
  split; simpl; try done; try lia.
  - rewrite length_app. simpl. lia.
  - rewrite length_app. simpl. rewrite Nat.add_1_r. unfold ticket_of in Hd.
    rewrite Hc, Nat2Z.id in Hd. rewrite (take_S_r _ _ _ Hd). by rewrite <-Ht.
  - intros x w Hx Hw. apply Hs; [lia|done].
  - eapply Forall_threads; try done.
    intros j pcj Hne Hj Hokj. apply thread_ok_threads with (threads s). by apply (ok_claim s).
  - by eapply (set_thread_own i (D_cas try (c_head (rg s)) data)).
  - apply uniq_insert; [exact Hu|]. done.
Qed.

Lemma inv_step s i s' :
  ring_inv k s -> ring_step i s = Some s' -> Z.of_nat (length (tickets s')) < 2 ^ 64 ->
  ring_inv k s'.
Proof.
  intros I E Hb. unfold ring_step in E. destruct (threads s !! i) as [pc|] eqn:Hi; [|done].
  simpl in E. pose proof (proj1 (Forall_lookup _ _) (ri_threads _ _ I) _ _ Hi) as Hok.
  pose proof (ri_order _ _ I) as Ho. pose proof (ri_c _ _ I) as Hc.
  destruct pc; simplify_eq/=.
  - eapply inv_local; try done. simpl in *. lia.
  - destruct (_ <? _) eqn:Hlt; [destruct (Z.eqb_spec (p_head (rg s)) producer)|]; simplify_eq/=.
    + eapply step_draw; try done. rewrite length_app in Hb. simpl in Hb. lia.
    + eapply inv_local; try done. simpl in *. lia.
    + eapply inv_local; try done. simpl in *. lia.
  - destruct (Z.eqb_spec producer (p_head (rg s))); simplify_eq/=; eapply inv_local; try done.
    simpl. lia.
  - by apply step_write.
  - destruct (Z.eqb_spec (p_tail (rg s)) producer); simplify_eq/=; eapply inv_local; try done.
    simpl in *. tauto.
  - by eapply step_publish.
  - destruct (Z.eqb_spec consumer (p_tail (rg s))); simplify_eq/=; eapply inv_local; try done.
    simpl. lia.
  - eapply inv_local; try done. simpl in *. destruct Hok as [Hr Hlt]. split; [done|].
    intros E. specialize (Hlt E). split; [done|].
    destruct (lookup_lt_is_Some_2 (tickets s) (Z.to_nat consumer)) as [w Hw].
    { pose proof (ri_h _ _ I). lia. }
    unfold ticket_of. rewrite Hw. f_equal. symmetry. apply (ri_slots _ _ I); [lia|done].
  - destruct (Z.eqb_spec (c_head (rg s)) consumer); simplify_eq/=; [by eapply step_claim|].
    destruct try; simplify_eq/=; eapply inv_local; try done. simpl. lia.
Qed.

Lemma inv_call s i o s' : ring_inv k s -> ring_call i o s = Some s' -> ring_inv k s'.
Proof.
  intros I E. unfold ring_call in E. destruct (threads s !! i) as [pc|] eqn:Hi; [|done].
  pose proof (ri_order _ _ I). pose proof (ri_c _ _ I). pose proof (ri_h _ _ I).
  assert (thread_ok s (ring_begin o (rg s))) by (destruct o; simpl; lia).
  destruct pc; simplify_eq/=; eapply inv_local; try done; by destruct o.
Qed.

Lemma step_tickets s i s' : ring_step i s = Some s' -> (length (tickets s) <= length (tickets s'))%nat.
Proof.
  unfold ring_step. destruct (threads s !! i) as [pc|]; [|done]. simpl.
  intros E. destruct pc; simplify_eq/=; try lia;
    repeat (case_match; simplify_eq/=; try lia); rewrite length_app; lia.
Qed.

Lemma ring_reach_inv n b s :
  ring_reach (2 ^ k) n b s -> Z.of_nat (length (tickets s)) < 2 ^ 64 -> ring_inv k s.
Proof.
  assert (0 < 2 ^ k < 2 ^ 64) by (split; [lia|apply Z.pow_lt_mono_r; lia]).
  induction 1 as [|s i o s' R IH E|s i s' R IH E]; intros Hb.
  - split; simpl; try done; try lia.
    + by rewrite wrapU_small by lia.
    + rewrite wrapU_small by lia. lia.
    + apply Forall_replicate. done.
    + intros j1 j2 pc1 pc2 i H1 _ E1. apply lookup_replicate in H1 as [-> _]. done.
  - eapply inv_call; [|done]. apply IH. unfold ring_call in E.
    destruct (threads s !! i) as [pc|]; [|done]. by destruct pc; simplify_eq/=.
  - eapply inv_step; [|done|done]. apply IH. pose proof (step_tickets _ _ _ E). lia.
Qed.
End ring_proofs.

(** ** Theorems for many threads *)

(** C9: the ring is a FIFO queue under any interleaving of any number of producers and
    consumers: the values claimed by consumers, in the order of the claims, are the first
    entries in the order in which producers drew their tickets (nothing is lost, repeated
    or reordered), and never more than [size - 1] entries are in flight.  The number of
    enqueued entries must stay below the width of the counters. *)
Theorem ring_fifo k n b s :
  0 <= k < 64 -> ring_reach (2 ^ k) n b s -> Z.of_nat (length (tickets s)) < 2 ^ 64 ->
  taken s = take (length (taken s)) (tickets s) /\
  Z.of_nat (length (tickets s)) - Z.of_nat (length (taken s)) <= 2 ^ k - 1.
Proof.
  intros Hk R Hb. pose proof (ring_reach_inv k Hk n b s R Hb) as I.
  split; [apply (ri_taken _ _ I)|]. pose proof (ri_c _ _ I). pose proof (ri_h _ _ I).
  pose proof (ri_order _ _ I). pose proof (ri_mask _ _ I). lia.
Qed.

(** A thread that polls in vain. *)
Definition spinning (s : ring_st) (pc : ring_pc) : Prop :=
  match pc with E_wait _ p => p_tail (rg s) <> p | _ => False end.

Definition in_call (pc : ring_pc) : Prop :=
  match pc with Outside | Enqueued _ | Dequeued _ => False | _ => True end.

Lemma thread_moves s i pc :
  threads s !! i = Some pc -> in_call pc -> ~ spinning s pc ->
  exists s', ring_step i s = Some s' /\ s' <> s.
Proof.
  intros Hi Hc Hs. unfold ring_step. rewrite Hi. simpl.
  assert (exists pc' s', thread_step pc s = Some (pc', s') /\ pc' <> pc /\ threads s' = threads s)
    as (pc' & s' & -> & Hne & Ht).
  { destruct pc; simpl in *; try done; repeat case_match; eauto; try (eexists _, _; split_and!; done).
    destruct Hs. by apply Z.eqb_neq. }
  simpl. eexists. split; [done|]. intros E. apply (f_equal threads) in E. simpl in E.
  apply (f_equal (fun l => l !! i)) in E. rewrite Hi, Ht, list_lookup_insert_eq in E;
    [congruence|]. by eapply lookup_lt_Some.
Qed.

(** the ring does not deadlock: whenever a thread is inside a call, some thread has a
    step that changes the state. *)
Theorem ring_progress k n b s i pc :
  0 <= k < 64 -> ring_reach (2 ^ k) n b s -> Z.of_nat (length (tickets s)) < 2 ^ 64 ->
  threads s !! i = Some pc -> in_call pc -> exists j s', ring_step j s = Some s' /\ s' <> s.
Proof.
  intros Hk R Hb Hi Hc. pose proof (ring_reach_inv k Hk n b s R Hb) as I.
  assert ((exists v p, pc = E_wait v p /\ p_tail (rg s) <> p) \/ ~ spinning s pc) as [Hw|Hw].
  { destruct pc; try (by right; intros []).
    destruct (decide (p_tail (rg s) = producer)); [right; intros Hn; by apply Hn|left; eauto]. }
  - destruct Hw as (v & p & -> & Hne).
    pose proof (proj1 (Forall_lookup _ _) (ri_threads _ _ I) _ _ Hi) as [[Hp _] _].
    destruct (ri_own _ _ I (p_tail (rg s)) ltac:(lia)) as (j & pcj & Hj & Hh).
    exists j. apply (thread_moves s j pcj Hj); destruct pcj; simplify_eq/=; done || congruence.
  - exists i. by apply (thread_moves s i pc Hi Hc).
Qed.

(** A consumer is told that the ring is empty only while it is. *)
Lemma ring_empty_step k n b s i s' try consumer :
  0 <= k < 64 -> ring_reach (2 ^ k) n b s -> Z.of_nat (length (tickets s)) < 2 ^ 64 ->
  threads s !! i = Some (D_load_p try consumer) -> ring_step i s = Some s' ->
  threads s' !! i = Some (Dequeued None) -> c_head (rg s) = p_tail (rg s).
Proof.
  intros Hk R Hb Hi E Hd. pose proof (ring_reach_inv k Hk n b s R Hb) as I.
  pose proof (proj1 (Forall_lookup _ _) (ri_threads _ _ I) _ _ Hi) as Hok. simpl in Hok.
  pose proof (ri_order _ _ I). unfold ring_step in E. rewrite Hi in E. simpl in E.
  destruct (Z.eqb_spec consumer (p_tail (rg s))); simplify_eq/=; [lia|].
  rewrite list_lookup_insert_eq in Hd; [done|]. by eapply lookup_lt_Some.
Qed.

(** Two producers race for tickets 0 and 1, the second one writes its slot first, and a
    consumer takes an entry once the first one has published. *)
Definition race : list (nat + nat * ring_op) :=
  [inr (0%nat, Enqueue 7); inr (1%nat, Enqueue 8); inl 0%nat; inl 0%nat; inl 1%nat; inl 1%nat;
   inl 1%nat; inl 1%nat; inl 1%nat; inl 1%nat; inl 1%nat; inl 0%nat; inl 0%nat; inl 0%nat;
   inr (2%nat, Dequeue); inl 2%nat; inl 2%nat; inl 2%nat].

Fixpoint ring_run (evs : list (nat + nat * ring_op)) (s : ring_st) : option ring_st :=
  match evs with
  | [] => Some s
  | inl i :: evs => s ← ring_step i s; ring_run evs s
  | inr (i, o) :: evs => s ← ring_call i o s; ring_run evs s
  end.

Lemma ring_run_reach size n b evs : forall s s',
  ring_reach size n b s -> ring_run evs s = Some s' -> ring_reach size n b s'.
Proof.
  induction evs as [|[i|[i o]] evs IH]; intros s s' R E; simplify_eq/=; [done|..].
  - destruct (ring_step i s) eqn:E1; [|done]. eapply IH; [|done]. by eapply rr_step.
  - destruct (ring_call i o s) eqn:E1; [|done]. eapply IH; [|done]. by eapply rr_call.
Qed.

Lemma ring_fifo_witness :
  exists s, ring_run race (ring_start 4 3 (fun _ => 0)) = Some s /\
    tickets s = [7; 8] /\ taken s = [7] /\
    taken s = take (length (taken s)) (tickets s).
Proof.
  eexists. split; [vm_compute; reflexivity|]. split; [reflexivity|]. split; [reflexivity|].
  refine (proj1 (ring_fifo 2 3 (fun _ => 0) _ ltac:(lia) _ _)); [|reflexivity].
  apply (ring_run_reach (2 ^ 2) 3 (fun _ => 0) race (ring_start 4 3 (fun _ => 0)));
    [constructor|vm_compute; reflexivity].
Defined.

Lemma ring_progress_witness :
  exists s, ring_run (take 9 race) (ring_start 4 3 (fun _ => 0)) = Some s /\
    exists j s', ring_step j s = Some s' /\ s' <> s.
Proof.
  eexists. split; [vm_compute; reflexivity|].
  eapply (ring_progress 2 3 (fun _ => 0) _ 1 (E_wait 8 1) ltac:(lia));
    [|reflexivity|reflexivity|exact Logic.I].
  apply (ring_run_reach (2 ^ 2) 3 (fun _ => 0) (take 9 race) (ring_start 4 3 (fun _ => 0)));
    [constructor|vm_compute; reflexivity].
Defined.
