(* ===== verification/Queue.v ===== *)
(** * Work queues

    The queue interface of riscv-tests/common/workqueue/workqueue.h as a class: what its
    clients may rely on.  Two implementations: the ring protected by a spinlock of
    queue_simple.h, with the spinlock variants that file can be compiled to, and the wrapper
    of queue_ck.h over the lock-free ring (Ring.v), run without interference. *)
From S2P Require Import Prelude Torture Ring RingSeq.
Local Open Scope Z_scope.
Local Open Scope word_scope.

(** ** The interface *)

(** An implementation: its operations, the entries it holds, its well-formedness.  One attempt
    of [queue_enqueue] is [q_try_enqueue]; entries need not come out in order. *)
Class Queue (Q : Type) := {
  q_init : Q;
  q_try_enqueue : Q -> Z -> option Q;
  q_try_dequeue : Q -> option (Z * Q);
  q_isempty : Q -> bool;
  q_contents : Q -> list Z;
  q_ok : Q -> Prop;
  q_init_ok : q_ok q_init /\ q_contents q_init = [];
  q_enqueue_ok q v q' : q_ok q -> q_try_enqueue q v = Some q' ->
    q_ok q' /\ q_contents q' ≡ₚ v :: q_contents q;
  q_enqueue_full q v : q_ok q -> q_try_enqueue q v = None -> q_contents q <> [];
  q_dequeue_ok q v q' : q_ok q -> q_try_dequeue q = Some (v, q') ->
    q_ok q' /\ q_contents q ≡ₚ v :: q_contents q';
  q_dequeue_empty q : q_ok q -> q_try_dequeue q = None -> q_contents q = [];
  q_isempty_ok q : q_ok q -> q_isempty q = true <-> q_contents q = [] }.

(** ** queue_simple.h: the spinlock *)

(** [DEFINE_BASIC_SPINLOCK_WITH_AMO(AMO, INITVAL, LOCKVAL)]. *)
Record spinlock := mkSpinlock { sl_amo : amo; INITVAL : Z; LOCKVAL : Z }.

Definition SPINLOCK_AMOMAX : spinlock := mkSpinlock amomax 0 1.
Definition SPINLOCK_AMOMAXU : spinlock := mkSpinlock amomaxu 0 1.
Definition SPINLOCK_AMOMIN : spinlock := mkSpinlock amomin 1 0.
Definition SPINLOCK_AMOMINU : spinlock := mkSpinlock amominu 1 0.
Definition SPINLOCK_AMOAND : spinlock := mkSpinlock amoand 1 0.
Definition SPINLOCK_AMOOR : spinlock := mkSpinlock amoor 0 1.
Definition SPINLOCK_AMOADD : spinlock := mkSpinlock amoadd 2 3.
Definition SPINLOCK_AMOSWAP : spinlock := mkSpinlock amoswap 0 678.
(** The default uses [lrsc_swap], a swap by lr/sc. *)
Definition SPINLOCK_LRSC : spinlock := mkSpinlock amoswap 0 1.

Definition spinlocks : list spinlock :=
  [SPINLOCK_AMOMAX; SPINLOCK_AMOMAXU; SPINLOCK_AMOMIN; SPINLOCK_AMOMINU; SPINLOCK_AMOAND;
   SPINLOCK_AMOOR; SPINLOCK_AMOADD; SPINLOCK_AMOSWAP; SPINLOCK_LRSC].

Definition spinlock_init (sl : spinlock) : Z := INITVAL sl.

(** The new lock word and whether the lock was taken. *)
Definition spinlock_trywait (sl : spinlock) (lock : Z) : Z * bool :=
  (amo_d (sl_amo sl) lock (LOCKVAL sl), lock =? INITVAL sl).

Definition spinlock_release (sl : spinlock) (lock : Z) : Z := INITVAL sl.

(** The lock word and which threads are inside; [tries] counts the attempts since the lock
    was last free, which must stay below 2^64. *)
Record lock_st := mkLock { l_word : Z; l_inside : list bool; l_tries : Z }.

(** Thread [i] tries to take the lock, or releases it. *)
Definition lock_step (sl : spinlock) (i : nat) (s : lock_st) : option lock_st :=
  inside ← l_inside s !! i;
  Some (if (inside : bool)
        then mkLock (spinlock_release sl (l_word s)) (<[i := false]> (l_inside s)) 0
        else let '(w, got) := spinlock_trywait sl (l_word s) in
             mkLock w (if got then <[i := true]> (l_inside s) else l_inside s) (l_tries s + 1)).

Inductive lock_reach (sl : spinlock) (n : nat) : lock_st -> Prop :=
| lr_init : lock_reach sl n (mkLock (spinlock_init sl) (replicate n false) 0)
| lr_step s i s' : lock_reach sl n s -> lock_step sl i s = Some s' -> l_tries s' < 2 ^ 64 ->
    lock_reach sl n s'.

(** ** queue_simple.h: the ring under the lock *)

Definition QUEUE_SIZE : Z := 8.

(** [head] and [tail] are the positions of the two pointers in [data]. *)
Record simple_queue := mkSimple { sq_head : Z; sq_tail : Z; sq_data : Z -> Z }.

Definition simple_init : simple_queue := mkSimple 0 0 (fun _ => 0).

Definition bump (p : Z) : Z := if QUEUE_SIZE <=? p + 1 then 0 else p + 1.

(** The bodies between taking and releasing the lock. *)
Definition simple_try_enqueue (q : simple_queue) (entry : Z) : option simple_queue :=
  if Z.rem (sq_head q - sq_tail q + QUEUE_SIZE + 1) QUEUE_SIZE =? 0 then None
  else Some (mkSimple (bump (sq_head q)) (sq_tail q)
         (fun i => if i =? sq_head q then entry else sq_data q i)).

Definition simple_try_dequeue (q : simple_queue) : option (Z * simple_queue) :=
  if sq_head q =? sq_tail q then None
  else Some (sq_data q (sq_tail q), mkSimple (sq_head q) (bump (sq_tail q)) (sq_data q)).

Definition simple_isempty (q : simple_queue) : bool := sq_head q =? sq_tail q.

(** ** queue_ck.h *)

(** A call of one thread that nobody interrupts. *)
Fixpoint finish (fuel : nat) (pc : ring_pc) (s : ring_st) : option (ring_pc * ring_st) :=
  match fuel with
  | O => None
  | S fuel =>
      match thread_step pc s with
      | None => Some (pc, s)
      | Some (pc', s') => finish fuel pc' s'
      end
  end.

Definition call_alone (o : ring_op) (q : ring * buffer) : option (ring_pc * ring_st) :=
  finish 8 (ring_begin o q.1) (mkRingSt q.1 q.2 [] [] []).

Definition CK_QUEUE_SIZE : Z := 32.

Definition ck_init : ring * buffer := (ck_ring_init CK_QUEUE_SIZE, fun _ => 0).

(** One round of the loop of [queue_enqueue]. *)
Definition ck_try_enqueue (q : ring * buffer) (entry : Z) : option (ring * buffer) :=
  match call_alone (Enqueue entry) q with
  | Some (Enqueued true, s) => Some (rg s, slots s)
  | _ => None
  end.

Definition ck_try_dequeue (q : ring * buffer) : option (Z * (ring * buffer)) :=
  match call_alone TryDequeue q with
  | Some (Dequeued (Some v), s) => Some (v, (rg s, slots s))
  | _ => None
  end.

Definition ck_isempty (q : ring * buffer) : bool := ck_ring_size q.1 =? 0.

(** ** The spinlock: proofs *)

(** The lock word after [k] attempts on a free lock. *)
Fixpoint word_after (sl : spinlock) (k : nat) : Z :=
  match k with
  | O => INITVAL sl
  | S k => amo_d (sl_amo sl) (word_after sl k) (LOCKVAL sl)
  end.

Lemma word_after_add k : word_after SPINLOCK_AMOADD k = u64 (2 + 3 * Z.of_nat k).
Proof.
  induction k as [|k IH]; [done|]. cbn [word_after]. rewrite IH. simpl sl_amo. simpl LOCKVAL.
  cbn [amo_d]. rewrite wrapU_add_l. f_equal. lia.
Qed.

(** The other variants reach their locked value at once and stay there. *)
Lemma word_after_const sl k :
  amo_d (sl_amo sl) (word_after sl 1) (LOCKVAL sl) = word_after sl 1 ->
  word_after sl (S k) = word_after sl 1.
Proof.
  intros E. induction k as [|k IH]; [done|]. change (word_after sl (S (S k))) with
    (amo_d (sl_amo sl) (word_after sl (S k)) (LOCKVAL sl)). by rewrite IH.
Qed.

Lemma word_after_held sl k :
  sl ∈ spinlocks -> (0 < k)%nat -> Z.of_nat k < 2 ^ 64 -> word_after sl k <> INITVAL sl.
Proof.
  intros Hin Hk Hb. destruct k as [|k]; [lia|]. unfold spinlocks in Hin.
  rewrite !elem_of_cons, elem_of_nil in Hin.
  repeat destruct Hin as [-> | Hin]; [..|done];
    try (rewrite word_after_const by reflexivity; vm_compute; discriminate).
  rewrite word_after_add. intros E. change (INITVAL SPINLOCK_AMOADD) with (u64 2) in E.
  apply wrapU_eq in E as [q Hq]; [|lia].
  assert (Z.of_nat (S k) = 2 ^ 64 * (12297829382473034411 * q - 2 * Z.of_nat (S k))) by lia. nia.
Qed.

Definition lock_inv (sl : spinlock) (s : lock_st) : Prop :=
  0 <= l_tries s < 2 ^ 64 /\ l_word s = word_after sl (Z.to_nat (l_tries s)) /\
  (l_tries s = 0 -> forall i, l_inside s !! i <> Some true) /\
  (0 < l_tries s -> exists i, l_inside s !! i = Some true /\
     forall j, l_inside s !! j = Some true -> j = i).

Lemma lock_inv_step sl i s s' :
  sl ∈ spinlocks -> lock_inv sl s -> lock_step sl i s = Some s' -> l_tries s' < 2 ^ 64 ->
  lock_inv sl s'.
Proof.
  intros Hin (Ht & Hw & H0 & H1) E Hb. unfold lock_step in E.
  destruct (l_inside s !! i) as [[|]|] eqn:Hi; simplify_eq/=.
  - destruct (Z.eq_dec (l_tries s) 0) as [E0|]; [by destruct (H0 E0 i)|].
    destruct H1 as (i0 & Hi0 & Hu); [lia|]. split; simpl; [lia|]. split; [done|]. split; [|lia].
    intros _ j Hj. apply list_lookup_insert_Some in Hj as [(_ & [=] & _)|[Hne Hj]].
    apply Hne. rewrite (Hu i Hi). by rewrite (Hu j Hj).
  - split; simpl; [simpl in Hb; lia|]. split.
    { rewrite Hw. replace (Z.to_nat (l_tries s + 1)) with (S (Z.to_nat (l_tries s))) by lia. done. }
    split; [lia|]. intros _. destruct (Z.eqb_spec (l_word s) (INITVAL sl)) as [Ew|Ew].
    + assert (l_tries s = 0) as E0.
      { destruct (Z.eq_dec (l_tries s) 0); [done|].
        destruct (word_after_held sl (Z.to_nat (l_tries s)) Hin); [lia|lia|congruence]. }
      exists i. rewrite list_lookup_insert_eq by (by eapply lookup_lt_Some). split; [done|].
      intros j Hj. apply list_lookup_insert_Some in Hj as [(-> & _)|[Hne Hj]]; [done|].
      by destruct (H0 E0 j).
    + apply H1. destruct (Z.eq_dec (l_tries s) 0) as [E0|]; [|lia].
      destruct Ew. rewrite Hw, E0. done.
Qed.

(** every variant of the spinlock excludes: in any interleaving of attempts and releases
    by any number of threads, at most one thread is inside, as long as no holder keeps the
    others spinning for 2^64 attempts. *)
Theorem spinlock_exclusion sl n s i j :
  sl ∈ spinlocks -> lock_reach sl n s ->
  l_inside s !! i = Some true -> l_inside s !! j = Some true -> i = j.
Proof.
  intros Hin R Hi Hj. assert (lock_inv sl s) as (Ht & _ & H0 & H1).
  { clear Hi Hj. induction R as [|s k s' R IH E Hb]; [|by eapply lock_inv_step].
    split; simpl; [lia|]. split; [done|]. split; [|lia]. intros _ k Hk.
    by apply lookup_replicate in Hk as [? _]. }
  destruct (Z.eq_dec (l_tries s) 0) as [E0|]; [by destruct (H0 E0 i)|].
  destruct H1 as (k & _ & Hu); [lia|]. by rewrite (Hu i Hi), (Hu j Hj).
Qed.

Lemma spinlock_exclusion_witness :
  exists s, lock_reach SPINLOCK_AMOADD 3 s /\ l_inside s !! 1%nat = Some true /\
    forall j, l_inside s !! j = Some true -> 1%nat = j.
Proof.
  assert (lock_reach SPINLOCK_AMOADD 3 (mkLock 11 [false; true; false] 3)) as R.
  { eapply (lr_step _ _ (mkLock 8 [false; true; false] 2) 2); [|reflexivity|simpl; lia].
    eapply (lr_step _ _ (mkLock 5 [false; true; false] 1) 0); [|reflexivity|simpl; lia].
    eapply (lr_step _ _ (mkLock 2 [false; false; false] 0) 1); [constructor|reflexivity|simpl; lia]. }
  exists (mkLock 11 [false; true; false] 3). split; [exact R|]. split; [reflexivity|].
  intros j Hj. refine (spinlock_exclusion SPINLOCK_AMOADD 3 _ 1 j _ R eq_refl Hj).
  unfold spinlocks. rewrite !elem_of_cons. tauto.
Defined.

(** ** The ring under the lock: proofs *)

Definition simple_ok (q : simple_queue) : Prop :=
  0 <= sq_head q < QUEUE_SIZE /\ 0 <= sq_tail q < QUEUE_SIZE.

Definition simple_contents (q : simple_queue) : list Z :=
  map (fun i => sq_data q ((sq_tail q + i) mod QUEUE_SIZE))
    (seqZ 0 ((sq_head q - sq_tail q) mod QUEUE_SIZE)).

Lemma bump_mod p : 0 <= p < QUEUE_SIZE -> bump p = (p + 1) mod QUEUE_SIZE.
Proof.
  unfold bump, QUEUE_SIZE. intros Hp. destruct (Z.leb_spec 8 (p + 1)); [|by rewrite Z.mod_small by lia].
  replace (p + 1) with 8 by lia. done.
Qed.

Lemma simple_full q :
  simple_ok q ->
  (Z.rem (sq_head q - sq_tail q + QUEUE_SIZE + 1) QUEUE_SIZE =? 0) =
  ((sq_head q - sq_tail q) mod QUEUE_SIZE =? QUEUE_SIZE - 1).
Proof.
  unfold simple_ok, QUEUE_SIZE. intros [? ?]. rewrite Z.rem_mod_nonneg by lia.
  apply Bool.eq_iff_eq_true. rewrite !Z.eqb_eq. split; dlia.
Qed.

Lemma simple_push q v q' :
  simple_ok q -> simple_try_enqueue q v = Some q' ->
  simple_ok q' /\ simple_contents q' = simple_contents q ++ [v].
Proof.
  intros Hok. unfold simple_try_enqueue. rewrite simple_full by done.
  destruct (Z.eqb_spec ((sq_head q - sq_tail q) mod QUEUE_SIZE) (QUEUE_SIZE - 1)) as [|Hne]; [done|].
  intros [= <-]. destruct Hok as [Hh Ht]. unfold simple_ok, simple_contents. simpl.
  rewrite bump_mod by done. unfold QUEUE_SIZE in *. split; [dlia|].
  replace (((sq_head q + 1) mod 8 - sq_tail q) mod 8) with ((sq_head q - sq_tail q) mod 8 + 1) by dlia.
  rewrite seqZ_snoc, map_app by dlia. f_equal.
  - apply map_ext_in. intros i Hi. apply list_elem_of_In, elem_of_seqZ in Hi.
    destruct (Z.eqb_spec ((sq_tail q + i) mod 8) (sq_head q)); [dlia|done].
  - cbn [map]. by rewrite (proj2 (Z.eqb_eq _ _)) by dlia.
Qed.

Lemma simple_pop q v q' :
  simple_ok q -> simple_try_dequeue q = Some (v, q') ->
  simple_ok q' /\ simple_contents q = v :: simple_contents q'.
Proof.
  intros [Hh Ht]. unfold simple_try_dequeue. destruct (Z.eqb_spec (sq_head q) (sq_tail q)) as [|Hne]; [done|].
  intros [= <- <-]. unfold simple_ok, simple_contents. simpl. rewrite bump_mod by done.
  unfold QUEUE_SIZE in *. split; [dlia|].
  replace ((sq_head q - (sq_tail q + 1) mod 8) mod 8) with ((sq_head q - sq_tail q) mod 8 - 1) by dlia.
  rewrite seqZ_cons by dlia. simpl. f_equal; [f_equal; dlia|].
  rewrite <-(fmap_add_seqZ 1 0 _), <-list_fmap_compose. apply map_ext. intros i. simpl. f_equal. dlia.
Qed.

Lemma simple_empty q : simple_ok q -> simple_isempty q = true <-> simple_contents q = [].
Proof.
  intros [Hh Ht]. unfold simple_isempty, simple_contents, QUEUE_SIZE in *. rewrite Z.eqb_eq. split.
  - intros ->. rewrite Z.sub_diag. done.
  - intros E. apply (f_equal length) in E. rewrite length_map, length_seqZ in E. simpl in E. dlia.
Qed.

#[export] Instance simple_Queue : Queue simple_queue.
Proof.
  refine {| q_init := simple_init; q_try_enqueue := simple_try_enqueue;
    q_try_dequeue := simple_try_dequeue; q_isempty := simple_isempty;
    q_contents := simple_contents; q_ok := simple_ok |}.
  - done.
  - intros q v q' Hok E. destruct (simple_push q v q' Hok E) as [H1 ->]. split; [done|].
    by rewrite Permutation_app_comm.
  - intros q v Hok. unfold simple_try_enqueue. rewrite simple_full by done.
    destruct (Z.eqb_spec ((sq_head q - sq_tail q) mod QUEUE_SIZE) (QUEUE_SIZE - 1)) as [E|]; [|done].
    intros _ Hc. apply simple_empty in Hc; [|done]. apply Z.eqb_eq in Hc. rewrite Hc, Z.sub_diag in E. done.
  - intros q v q' Hok E. by destruct (simple_pop q v q' Hok E) as [H1 ->].
  - intros q Hok. unfold simple_try_dequeue. destruct (sq_head q =? sq_tail q) eqn:E; [|done].
    intros _. by apply simple_empty.
  - apply simple_empty.
Defined.

(** ** queue_ck.h: proofs *)

(** The ring holds [l] and no call is in progress. *)
Definition ck_repr (q : ring * buffer) (l : list Z) : Prop :=
  ring_repr 5 q.1 q.2 l /\ p_head q.1 = p_tail q.1.

Definition ck_ok (q : ring * buffer) : Prop := exists l, ck_repr q l.

Definition ck_contents (q : ring * buffer) : list Z :=
  map (fun i => q.2 (Z.land (c_head q.1 + i) 31)) (seqZ 0 (ck_ring_size q.1)).

Lemma ck_contents_repr q l : ck_repr q l -> ck_contents q = l.
Proof.
  intros [R _]. unfold ck_contents. rewrite (repr_size 5 ltac:(lia) _ _ _ R).
  apply list_eq. intros i. rewrite list_lookup_fmap. destruct (l !! i) as [v|] eqn:Hi.
  - pose proof (lookup_lt_Some _ _ _ Hi). rewrite (proj2 (lookup_seqZ _ _ i (Z.of_nat i))) by lia.
    simpl. f_equal. exact (rp_slots _ _ _ _ R i v Hi).
  - apply lookup_ge_None in Hi. rewrite lookup_seqZ_ge; [done|lia].
Qed.

Lemma ck_length_diff q l :
  ck_repr q l -> p_head q.1 ⊟ c_head q.1 = Z.of_nat (length l).
Proof.
  intros [[_ _ Hc Ht Hl _] ->]. rewrite Ht, wrapU_sub_l.
  replace (c_head q.1 + Z.of_nat (length l) - c_head q.1) with (Z.of_nat (length l)) by lia.
  apply wrapU_small. simpl in Hl. lia.
Qed.

Lemma ck_enqueue_spec q l v :
  ck_repr q l ->
  if decide (Z.of_nat (length l) < 31)
  then exists q', ck_try_enqueue q v = Some q' /\ ck_repr q' (l ++ [v])
  else ck_try_enqueue q v = None.
Proof.
  intros R. pose proof (ck_length_diff q l R) as Hd. destruct R as [R Hp].
  pose proof (rp_mask _ _ _ _ R) as Hm. change (2 ^ 5 - 1) with 31 in Hm.
  unfold ck_try_enqueue, call_alone. cbn [ring_begin finish thread_step rg]. rewrite Hd, Hm.
  destruct (Z.ltb_spec (Z.of_nat (length l)) 31), (decide (Z.of_nat (length l) < 31)); try lia.
  - rewrite Z.eqb_refl. cbn [finish thread_step rg slots set_p_head p_tail r_mask].
    rewrite Hp, Z.eqb_refl. cbn [finish thread_step rg slots set_p_head set_p_tail c_head p_tail p_head r_mask r_size].
    eexists. split; [reflexivity|]. split; [|done]. simpl.
    pose proof (repr_push 5 ltac:(lia) q.1 q.2 l v R ltac:(simpl; lia)) as [H1 H2 H3 H4 H5 H6].
    by split.
  - cbn [finish thread_step rg]. rewrite Z.eqb_refl. done.
Qed.

Lemma ck_dequeue_spec q l :
  ck_repr q l ->
  match l with
  | [] => ck_try_dequeue q = None
  | v :: l => exists q', ck_try_dequeue q = Some (v, q') /\ ck_repr q' l
  end.
Proof.
  intros [R Hp]. unfold ck_try_dequeue, call_alone. cbn [ring_begin finish thread_step rg].
  destruct l as [|v l].
  - rewrite (rp_t _ _ _ _ R). simpl length. rewrite Z.add_0_r, wrapU_small, Z.eqb_refl by apply R. done.
  - destruct (repr_pop 5 ltac:(lia) _ _ _ _ R) as (H1 & H2 & ->).
    cbn [finish thread_step rg slots]. rewrite Z.eqb_refl. cbn [finish thread_step rg slots].
    rewrite H2. eexists. split; [reflexivity|]. by split.
Qed.

#[export] Instance ck_Queue : Queue (ring * buffer).
Proof.
  refine {| q_init := ck_init; q_try_enqueue := ck_try_enqueue; q_try_dequeue := ck_try_dequeue;
    q_isempty := ck_isempty; q_contents := ck_contents; q_ok := ck_ok |}.
  - split; [|done]. exists []. split; [|done]. apply (repr_init 5). lia.
  - intros q v q' [l R] E. pose proof (ck_enqueue_spec q l v R) as H. rewrite (ck_contents_repr q l R).
    destruct (decide _); [|congruence]. destruct H as (q1 & E1 & R1). assert (q1 = q') as -> by congruence.
    split; [by exists (l ++ [v])|]. rewrite (ck_contents_repr _ _ R1). by rewrite Permutation_app_comm.
  - intros q v [l R] E. rewrite (ck_contents_repr q l R). intros ->.
    pose proof (ck_enqueue_spec q [] v R) as H. destruct (decide _) as [|Hn]; [|by destruct Hn].
    destruct H as (? & ? & _). congruence.
  - intros q v q' [l R] E. pose proof (ck_dequeue_spec q l R) as H. destruct l as [|w l]; [congruence|].
    destruct H as (q1 & E1 & R1). assert (w = v /\ q1 = q') as [-> ->] by (split; congruence).
    split; [by exists l|]. by rewrite (ck_contents_repr _ _ R), (ck_contents_repr _ _ R1).
  - intros q [l R] E. pose proof (ck_dequeue_spec q l R) as H. rewrite (ck_contents_repr q l R).
    destruct l; [done|]. destruct H as (? & ? & _). congruence.
  - intros q [l R]. rewrite (ck_contents_repr q l R). unfold ck_isempty.
    rewrite (repr_size 5 ltac:(lia) _ _ _ (proj1 R)), Z.eqb_eq. destruct l; simpl; split; done || lia.
Defined.

(** ** queue_lf.h *)

Definition LF_QUEUE_SIZE : Z := 8.

Record lf_queue := mkLf { lf_count : Z; lf_head : Z; lf_tail : Z; lf_data : Z -> Z }.

Definition lf_init (q : lf_queue) : lf_queue := mkLf 0 0 0 (lf_data q).

(** The body of the [do] loop: the condition of the [if] guards an empty statement, and the
    [return] after it is unconditional. *)
Definition lf_enqueue (q : lf_queue) (value : Z) : lf_queue :=
  let next_tail := Z.rem (lf_tail q + 1) LF_QUEUE_SIZE in
  let count := lf_count q in
  q.

(** The result and the queue. *)
Definition lf_try_dequeue (q : lf_queue) : Z * lf_queue :=
  let head := lf_head q in
  let count := lf_count q in
  (0, q).

Definition lf_isempty (q : lf_queue) : bool := lf_head q =? lf_tail q.

(** The queue loses every entry: whatever is enqueued after initialisation, the queue is
    still empty and a dequeue fails. *)
Lemma lf_queue_loses q vs :
  let q' := fold_left lf_enqueue vs (lf_init q) in
  lf_isempty q' = true /\ (lf_try_dequeue q').1 = 0.
Proof.
  simpl. assert (fold_left lf_enqueue vs (lf_init q) = lf_init q) as ->; [|done].
  by induction vs.
Qed.
