(* ===== verification/Workqueue.v ===== *)
(** * The work-queue test

    [workqueue_test] of riscv-tests/common/workqueue/workqueue.h over any implementation of
    the queue interface (Queue.v): producers add 1 to a random element of the work area and
    queue a job for it, consumers take jobs and add 100000, and thread 0 checks the sums.
    The threads interleave at every AMO and every queue operation.  [rnd] starts from any
    seed, as [brand] gives it. *)
From S2P Require Import Prelude Torture Ring Queue.
Local Open Scope Z_scope.
Local Open Scope word_scope.

Definition WORKQUEUE_WORK_AREA_SIZE : Z := 8.

(** Where a thread stands.  Producers: about to add for the next of [todo] iterations, about
    to queue job [d], after the loop, waiting for the queue to drain.  Consumers: testing the
    two parts of the loop condition, trying to dequeue, about to add for job [d].  Both: at
    the final barrier. *)
Inductive wq_pc :=
| P_add (todo : nat) (rnd : Z) | P_enqueue (todo : nat) (rnd d : Z) | P_end | P_drain
| C_test | C_empty | C_try | C_add (d : Z)
| AtBarrier (producer : bool).

#[export] Instance wq_pc_eq_dec : EqDecision wq_pc.
Proof. solve_decision. Defined.

Section workqueue.
Context {Q : Type} `{Queue Q}.
Context (PRODUCERS : Z).

(** The shared state, and two histories: the jobs for which 1 was added, and those done. *)
Record wq_st := mkWq {
  work_area : Z -> Z; queue : Q; producers_done : Z; wthreads : list wq_pc;
  added : list Z; done_jobs : list Z }.

Definition amoadd_at (w : Z -> Z) (d v : Z) : Z -> Z :=
  fun x => if x =? d then amo_d amoadd (w x) v else w x.

(** One step of a thread at [pc]: its next position and the shared state. *)
Definition wq_thread (pc : wq_pc) (s : wq_st) : option (wq_pc * wq_st) :=
  match pc with
  | P_add O _ => Some (P_end, s)
  | P_add (S todo) rnd =>
      let d := rnd mod WORKQUEUE_WORK_AREA_SIZE in
      Some (P_enqueue todo rnd d,
        mkWq (amoadd_at (work_area s) d 1) (queue s) (producers_done s) (wthreads s)
          (d :: added s) (done_jobs s))
  | P_enqueue todo rnd d =>
      match q_try_enqueue (queue s) d with
      | Some q => Some (P_add todo (lfsr2 rnd),
          mkWq (work_area s) q (producers_done s) (wthreads s) (added s) (done_jobs s))
      | None => Some (pc, s)
      end
  | P_end => Some (P_drain, mkWq (work_area s) (queue s) (amo_d amoadd (producers_done s) 1)
               (wthreads s) (added s) (done_jobs s))
  | P_drain => Some (if q_isempty (queue s) then AtBarrier true else P_drain, s)
  | C_test => Some (if producers_done s <? PRODUCERS then C_try else C_empty, s)
  | C_empty => Some (if q_isempty (queue s) then AtBarrier false else C_try, s)
  | C_try =>
      match q_try_dequeue (queue s) with
      | Some (d, q) => Some (C_add d,
          mkWq (work_area s) q (producers_done s) (wthreads s) (added s) (done_jobs s))
      | None => Some (C_test, s)
      end
  | C_add d => Some (C_test,
      mkWq (amoadd_at (work_area s) d 100000) (queue s) (producers_done s) (wthreads s)
        (added s) (d :: done_jobs s))
  | AtBarrier _ => None
  end.

Definition wq_step (i : nat) (s : wq_st) : option wq_st :=
  pc ← wthreads s !! i;
  '(pc', s') ← wq_thread pc s;
  Some (mkWq (work_area s') (queue s') (producers_done s') (<[i := pc']> (wthreads s'))
          (added s') (done_jobs s')).

(** Thread 0 clears the work area and initialises the queue before the threads start. *)
Definition wq_init (iterations : nat) (seeds : list Z) (consumers : nat) : wq_st :=
  mkWq (fun _ => 0) q_init 0 (map (P_add iterations) seeds ++ replicate consumers C_test) [] [].

(** The check of thread 0; [false] is the abort. *)
Definition wq_check (iterations : Z) (s : wq_st) : bool :=
  forallb (fun i => work_area s i mod 100001 =? 0) (seqZ 0 WORKQUEUE_WORK_AREA_SIZE) &&
  (fold_left (fun t i => t ⊞ work_area s i) (seqZ 0 WORKQUEUE_WORK_AREA_SIZE) 0 =?
   100001 ⊠ PRODUCERS ⊠ iterations).

Inductive wq_reach (iterations : nat) (seeds : list Z) (consumers : nat) : wq_st -> Prop :=
| wr_init : wq_reach iterations seeds consumers (wq_init iterations seeds consumers)
| wr_step s i s' : wq_reach iterations seeds consumers s -> wq_step i s = Some s' ->
    wq_reach iterations seeds consumers s'.

(** ** Sums over threads and jobs *)

Definition zsum {A} (f : A -> Z) (l : list A) : Z := fold_right (fun x a => f x + a) 0 l.

Lemma zsum_insert {A} (f : A -> Z) l i x y :
  l !! i = Some x -> zsum f (<[i := y]> l) = zsum f l - f x + f y.
Proof.
  revert i. induction l as [|z l IH]; intros [|i] Hi; simplify_eq/=; [lia|]. rewrite (IH i Hi). lia.
Qed.

Lemma zsum_app {A} (f : A -> Z) l1 l2 : zsum f (l1 ++ l2) = zsum f l1 + zsum f l2.
Proof. induction l1 as [|x l1 IH]; simpl; lia. Qed.

Lemma zsum_Permutation {A} (f : A -> Z) l1 l2 : l1 ≡ₚ l2 -> zsum f l1 = zsum f l2.
Proof. induction 1; simpl in *; lia. Qed.

Lemma zsum_zero {A} (f : A -> Z) l : (forall x, x ∈ l -> f x = 0) -> zsum f l = 0.
Proof.
  induction l as [|x l IH]; intros Hx; simpl; [done|].
  rewrite (Hx x), IH; [done| |by left]. intros y Hy. apply Hx. by right.
Qed.

Lemma zsum_nonneg {A} (f : A -> Z) l : (forall x, 0 <= f x) -> 0 <= zsum f l.
Proof. intros Hf. induction l as [|x l IH]; simpl; [lia|]. specialize (Hf x). lia. Qed.

Lemma zsum_pos {A} (f : A -> Z) l x : (forall x, 0 <= f x) -> x ∈ l -> 0 < f x -> 0 < zsum f l.
Proof.
  intros Hf Hin Hx. induction l as [|y l IH]; [by apply not_elem_of_nil in Hin|]. simpl.
  pose proof (Hf y). pose proof (zsum_nonneg f l Hf).
  apply elem_of_cons in Hin as [->|Hin]; [lia|]. specialize (IH Hin). lia.
Qed.

Definition is_job (d x : Z) : Z := if x =? d then 1 else 0.
Definition occ (d : Z) (l : list Z) : Z := zsum (is_job d) l.

(** The job a thread has in hand. *)
Definition in_hand (d : Z) (pc : wq_pc) : Z :=
  match pc with P_enqueue _ _ x | C_add x => is_job d x | _ => 0 end.

(** Producers still producing, and their remaining iterations. *)
Definition active (pc : wq_pc) : Z :=
  match pc with P_add _ _ | P_enqueue _ _ _ | P_end => 1 | _ => 0 end.
Definition remaining (pc : wq_pc) : Z :=
  match pc with P_add t _ | P_enqueue t _ _ => Z.of_nat t | _ => 0 end.

(** Consumers that have seen all producers done. *)
Definition past_test (pc : wq_pc) : Z :=
  match pc with C_empty | AtBarrier false => 1 | _ => 0 end.
Definition left_loop (pc : wq_pc) : Z := match pc with AtBarrier false => 1 | _ => 0 end.

Record wq_inv (total : Z) (s : wq_st) : Prop := mkWqInv {
  wi_queue : q_ok (queue s);
  wi_jobs : forall d, occ d (added s) =
    zsum (in_hand d) (wthreads s) + occ d (q_contents (queue s)) + occ d (done_jobs s);
  wi_work : forall d, work_area s d = u64 (occ d (added s) + 100000 * occ d (done_jobs s));
  wi_done : producers_done s = PRODUCERS - zsum active (wthreads s) /\ 0 <= producers_done s;
  wi_total : Z.of_nat (length (added s)) + zsum remaining (wthreads s) = total;
  wi_range : Forall (fun d => 0 <= d < WORKQUEUE_WORK_AREA_SIZE) (added s);
  wi_past : 0 < zsum past_test (wthreads s) -> zsum active (wthreads s) = 0;
  wi_left : 0 < zsum left_loop (wthreads s) -> q_contents (queue s) = [] }.

(** ** Preservation *)

Lemma amoadd_at_occ w d v x a :
  (forall x, w x = u64 (a x)) -> amoadd_at w d v x = u64 (a x + v * is_job x d).
Proof.
  intros Hw. unfold amoadd_at, is_job. rewrite Z.eqb_sym. destruct (Z.eqb_spec d x) as [->|].
  - cbn [amo_d]. rewrite Hw, wrapU_add_l. f_equal. lia.
  - rewrite Hw. f_equal. lia.
Qed.

Lemma occ_perm d l1 l2 : l1 ≡ₚ l2 -> occ d l1 = occ d l2.
Proof. apply zsum_Permutation. Qed.

Lemma occ_cons d x l : occ d (x :: l) = is_job d x + occ d l.
Proof. done. Qed.

Lemma active_nonneg l : 0 <= zsum active l.
Proof. apply zsum_nonneg. intros []; simpl; lia. Qed.
Lemma past_nonneg l : 0 <= zsum past_test l.
Proof. apply zsum_nonneg. intros []; simpl; try lia. by destruct producer. Qed.
Lemma left_le_past l : 0 <= zsum left_loop l <= zsum past_test l.
Proof. induction l as [|x l IH]; simpl; [lia|]. destruct x; simpl; try lia. destruct producer; lia. Qed.

Lemma active_pos l i pc : l !! i = Some pc -> active pc = 1 -> 0 < zsum active l.
Proof.
  intros Hi Ha. eapply (zsum_pos active l pc); [|by eapply list_elem_of_lookup_2|lia].
  intros []; simpl; lia.
Qed.

(** The sums of the thread list after thread [i] moved from [pc] to [pc']. *)
Ltac moved Hi :=
  rewrite ?(zsum_insert _ _ _ _ _ Hi); cbn [in_hand active remaining past_test left_loop].

(** A step that moves no job and touches neither counter. *)
Lemma wq_quiet total s i pc pc' :
  wq_inv total s -> wthreads s !! i = Some pc ->
  (forall d, in_hand d pc = in_hand d pc') -> active pc' = active pc -> remaining pc' = remaining pc ->
  (past_test pc < past_test pc' -> zsum active (wthreads s) = 0) ->
  (left_loop pc < left_loop pc' -> q_contents (queue s) = []) ->
  wq_inv total (mkWq (work_area s) (queue s) (producers_done s) (<[i := pc']> (wthreads s))
    (added s) (done_jobs s)).
Proof.
  intros [Hq Hj Hw Hd Ht Hr Hp Hl] Hi Eh Ea Er Hpast Hleft.
  split; simpl; try done; rewrite ?(zsum_insert _ _ _ _ _ Hi).
  - intros d. rewrite (zsum_insert _ _ _ _ _ Hi), Hj, Eh. lia.
  - lia.
  - lia.
  - intros Hpos. rewrite Ea. destruct (Z.lt_ge_cases (past_test pc) (past_test pc')).
    + rewrite Hpast by done. lia.
    + rewrite Hp by lia. lia.
  - intros Hpos. destruct (Z.lt_ge_cases (left_loop pc) (left_loop pc')); [by apply Hleft|].
    apply Hl. lia.
Qed.

Lemma wq_inv_thread total s i s' :
  0 <= PRODUCERS < 2 ^ 64 -> wq_inv total s -> wq_step i s = Some s' -> wq_inv total s'.
Proof.
  intros HP I E. unfold wq_step in E. destruct (wthreads s !! i) as [pc|] eqn:Hi; [|done].
  cbn [mbind option_bind] in E. pose proof I as [Hq Hj Hw Hd Ht Hr Hp Hl].
  pose proof (active_nonneg (wthreads s)) as Hact. pose proof (past_nonneg (wthreads s)) as Hpast.
  pose proof (left_le_past (wthreads s)) as Hlp.
  destruct pc as [[|todo] rnd|todo rnd d| | | | | |d|b]; cbn [wq_thread] in E.
  - injection E as <-. eapply wq_quiet; try done; simpl; lia.
  - injection E as <-. pose proof (active_pos _ _ _ Hi eq_refl) as Hpos.
    split; cbn [work_area queue producers_done wthreads added done_jobs]; try done; moved Hi.
    + intros x. moved Hi. rewrite occ_cons, Hj. unfold in_hand. lia.
    + intros x. rewrite (amoadd_at_occ _ _ _ _ _ Hw), occ_cons. f_equal. lia.
    + lia.
    + cbn [length]. lia.
    + constructor; [|done]. apply Z.mod_pos_bound. done.
    + intros. rewrite Hp in Hpos; lia.
    + intros. rewrite Hp in Hpos; lia.
  - pose proof (active_pos _ _ _ Hi eq_refl) as Hpos.
    destruct (q_try_enqueue (queue s) d) as [q|] eqn:Eq; injection E as <-.
    2: { eapply wq_quiet; try done; simpl; lia. }
    destruct (q_enqueue_ok _ _ _ Hq Eq) as [Hq' Hperm].
    split; cbn [work_area queue producers_done wthreads added done_jobs]; try done; moved Hi.
    + intros x. moved Hi. rewrite (occ_perm x _ _ Hperm), occ_cons, Hj. lia.
    + lia.
    + lia.
    + intros. rewrite Hp in Hpos; lia.
    + intros. rewrite Hp in Hpos; lia.
  - pose proof (active_pos _ _ _ Hi eq_refl) as Hpos. injection E as <-.
    split; cbn [work_area queue producers_done wthreads added done_jobs]; try done; moved Hi.
    + intros x. moved Hi. rewrite Hj. lia.
    + cbn [amo_d]. rewrite wrapU_small; lia.
    + lia.
    + intros. rewrite Hp in Hpos; lia.
    + intros. rewrite Hp in Hpos; lia.
  - injection E as <-. destruct (q_isempty (queue s)); eapply wq_quiet; try done; simpl; lia.
  - injection E as <-. destruct (Z.ltb_spec (producers_done s) PRODUCERS);
      eapply wq_quiet; try done; simpl; intros; lia.
  - injection E as <-. destruct (q_isempty (queue s)) eqn:Ee; eapply wq_quiet; try done; simpl; try lia.
    intros _. by apply q_isempty_ok.
  - destruct (q_try_dequeue (queue s)) as [[d q]|] eqn:Eq; injection E as <-.
    2: { eapply wq_quiet; try done; simpl; lia. }
    destruct (q_dequeue_ok _ _ _ Hq Eq) as [Hq' Hperm].
    split; cbn [work_area queue producers_done wthreads added done_jobs]; try done; moved Hi; try lia.
    + intros x. moved Hi. rewrite Hj, (occ_perm x _ _ Hperm), occ_cons. lia.
    + intros Hpos. rewrite Hl in Hperm by lia. by apply Permutation_nil_cons in Hperm.
  - injection E as <-. split; cbn [work_area queue producers_done wthreads added done_jobs]; try done; moved Hi; try lia.
    + intros x. moved Hi. rewrite Hj, occ_cons. lia.
    + intros x. rewrite (amoadd_at_occ _ _ _ _ _ Hw), occ_cons. f_equal. lia.
    + intros Hpos. apply Hl. lia.
  - done.
Qed.

Lemma zsum_map_replicate (f : wq_pc -> Z) (seeds : list Z) (g : Z -> wq_pc) k x :
  zsum f (map g seeds ++ replicate k x) =
  zsum (fun s => f (g s)) seeds + Z.of_nat k * f x.
Proof.
  rewrite zsum_app. f_equal.
  - induction seeds as [|s l IH]; simpl; [done|]. by rewrite IH.
  - induction k as [|k IH]; [done|]. cbn [replicate zsum fold_right]. unfold zsum in IH. lia.
Qed.

Lemma zsum_const {A} c (l : list A) : zsum (fun _ => c) l = c * Z.of_nat (length l).
Proof. induction l as [|x l IH]; cbn [zsum fold_right length] in *; [lia|]. unfold zsum in IH. lia. Qed.

Lemma wq_inv_init n seeds consumers :
  Z.of_nat (length seeds) = PRODUCERS ->
  wq_inv (PRODUCERS * Z.of_nat n) (wq_init n seeds consumers).
Proof.
  intros HP. destruct q_init_ok as [Hok Hc].
  split; simpl; rewrite ?zsum_map_replicate; cbn [active remaining past_test left_loop];
    rewrite ?zsum_const; try done; try lia.
  intros d. rewrite zsum_map_replicate. cbn [in_hand]. rewrite zsum_const, Hc. simpl. lia.
Qed.

(** ** The final check *)

Lemma zsum_plus {A} (f g : A -> Z) l : zsum (fun x => f x + g x) l = zsum f l + zsum g l.
Proof. induction l as [|x l IH]; simpl; lia. Qed.

Lemma occ_le d l : 0 <= occ d l <= Z.of_nat (length l).
Proof.
  unfold occ, is_job. induction l as [|x l IH]; simpl in *; [lia|]. destruct (x =? d); lia.
Qed.

(** Summing over the elements of the work area counts every job once. *)
Lemma occ_total l :
  Forall (fun d => 0 <= d < WORKQUEUE_WORK_AREA_SIZE) l ->
  zsum (fun d => occ d l) (seqZ 0 WORKQUEUE_WORK_AREA_SIZE) = Z.of_nat (length l).
Proof.
  induction 1 as [|x l Hx Hl IH]; [done|].
  replace (zsum (fun d => occ d (x :: l)) (seqZ 0 WORKQUEUE_WORK_AREA_SIZE)) with
    (zsum (fun d => is_job d x) (seqZ 0 WORKQUEUE_WORK_AREA_SIZE) +
     zsum (fun d => occ d l) (seqZ 0 WORKQUEUE_WORK_AREA_SIZE)) by (by rewrite <-zsum_plus).
  rewrite IH. unfold WORKQUEUE_WORK_AREA_SIZE in Hx.
  assert (x = 0 \/ x = 1 \/ x = 2 \/ x = 3 \/ x = 4 \/ x = 5 \/ x = 6 \/ x = 7) as Hc by lia.
  cbn [length]. rewrite Nat2Z.inj_succ.
  repeat destruct Hc as [-> | Hc]; [..|subst x]; vm_compute (zsum (fun d => is_job d _) _); lia.
Qed.

Lemma fold_wrap_sum (w : Z -> Z) (f : Z -> Z) ls : forall a,
  (forall i, i ∈ ls -> w i = f i) ->
  fold_left (fun t i => t ⊞ w i) ls (u64 a) = u64 (a + zsum f ls).
Proof.
  induction ls as [|x ls IH]; intros a Hw; simpl; [by rewrite Z.add_0_r|].
  rewrite wrapU_add_l, IH, (Hw x) by (intros; try (apply Hw); by constructor). f_equal. lia.
Qed.

(** When every thread is at the barrier and there is a consumer, all jobs are done. *)
Lemma wq_all_done total s :
  wq_inv total s -> Forall (fun pc => exists b, pc = AtBarrier b) (wthreads s) ->
  AtBarrier false ∈ wthreads s ->
  (forall d, occ d (added s) = occ d (done_jobs s)) /\ Z.of_nat (length (added s)) = total.
Proof.
  intros [Hq Hj Hw Hd Ht Hr Hp Hl] Hall Hc. rewrite Forall_forall in Hall.
  assert (q_contents (queue s) = []) as E.
  { apply Hl. eapply zsum_pos; [|exact Hc|done]. intros []; simpl; try lia. by destruct producer. }
  rewrite (zsum_zero remaining) in Ht by (intros x Hx; by destruct (Hall x Hx) as [b ->]).
  split; [|lia]. intros d. rewrite Hj, E.
  rewrite (zsum_zero (in_hand d)) by (intros x Hx; by destruct (Hall x Hx) as [b ->]). simpl. lia.
Qed.

Definition consumer (pc : wq_pc) : Z :=
  match pc with C_test | C_empty | C_try | C_add _ | AtBarrier false => 1 | _ => 0 end.

(** A thread keeps its role. *)
Lemma wq_thread_role pc s pc' s' :
  wq_thread pc s = Some (pc', s') -> consumer pc' = consumer pc /\ wthreads s' = wthreads s.
Proof.
  intros E. destruct pc as [[|]| | | | | | | |]; simpl in E; repeat case_match; by simplify_eq.
Qed.

Lemma wq_reach_inv n seeds consumers s :
  Z.of_nat (length seeds) = PRODUCERS -> PRODUCERS < 2 ^ 64 ->
  wq_reach n seeds consumers s ->
  wq_inv (PRODUCERS * Z.of_nat n) s /\ zsum consumer (wthreads s) = Z.of_nat consumers.
Proof.
  intros HP Hb R. induction R as [|s i s' R [IH1 IH2] E].
  - split; [by apply wq_inv_init|]. simpl. rewrite zsum_map_replicate. cbn [consumer].
    rewrite zsum_const. lia.
  - split; [eapply wq_inv_thread; [lia|done|done]|]. unfold wq_step in E.
    destruct (wthreads s !! i) as [pc|] eqn:Hi; [|done]. cbn [mbind option_bind] in E.
    destruct (wq_thread pc s) as [[pc' s1]|] eqn:Ew; [|done]. injection E as <-.
    destruct (wq_thread_role _ _ _ _ Ew) as [Er Et]. simpl.
    rewrite Et, (zsum_insert _ _ _ _ _ Hi), Er. lia.
Qed.

(** C23: the test passes with every correct queue: for any number of producers, at least one
    consumer, any seeds and any interleaving, once all threads have reached the final
    barrier every element of the work area is a multiple of 100001 and the total is the
    expected one (the total fitting a 64-bit word). *)
Theorem workqueue_passes n seeds consumers s :
  Z.of_nat (length seeds) = PRODUCERS -> (0 < consumers)%nat ->
  100001 * (PRODUCERS * Z.of_nat n) < 2 ^ 64 -> PRODUCERS < 2 ^ 64 ->
  wq_reach n seeds consumers s -> Forall (fun pc => exists b, pc = AtBarrier b) (wthreads s) ->
  wq_check (Z.of_nat n) s = true.
Proof.
  intros HP Hc Hb HPb R Hall. destruct (wq_reach_inv n seeds consumers s HP HPb R) as [I Hk].
  assert (AtBarrier false ∈ wthreads s) as Hin.
  { destruct (decide (AtBarrier false ∈ wthreads s)) as [|Hn]; [done|].
    rewrite zsum_zero in Hk; [lia|]. intros x Hx. rewrite Forall_forall in Hall.
    destruct (Hall x Hx) as [[] ->]; [done|]. by destruct Hn. }
  destruct (wq_all_done _ s I Hall Hin) as [Hocc Hlen].
  assert (forall d, work_area s d = 100001 * occ d (added s)) as Hw.
  { intros d. rewrite (wi_work _ _ I), <-Hocc. pose proof (occ_le d (added s)).
    rewrite wrapU_small; lia. }
  unfold wq_check. apply andb_true_iff. split.
  - apply forallb_forall. intros d _. apply Z.eqb_eq. rewrite Hw, Z.mul_comm. by apply Z.mod_mul.
  - apply Z.eqb_eq. change (fold_left ?f ?l 0) with (fold_left f l (u64 0)).
    rewrite (fold_wrap_sum _ (fun d => 100001 * occ d (added s))) by (intros; apply Hw).
    assert (forall ls, zsum (fun d => 100001 * occ d (added s)) ls =
      100001 * zsum (fun d => occ d (added s)) ls) as Hs.
    { intros ls. induction ls as [|x ls IH]; [done|]. cbn [zsum fold_right] in *. unfold zsum in IH. lia. }
    rewrite Hs, occ_total, Hlen by apply (wi_range _ _ I).
    destruct (Nat.eq_dec n 0) as [->|].
    + rewrite !Z.mul_0_r. done.
    + rewrite (wrapU_small 64 (100001 * PRODUCERS)) by nia. f_equal. lia.
Qed.
End workqueue.
Arguments wq_st Q : clear implicits.

(** One producer and one consumer over each of the two queues. *)
Fixpoint wq_run {Q} `{Queue Q} (P : Z) (sched : list nat) (s : wq_st Q) : option (wq_st Q) :=
  match sched with
  | [] => Some s
  | i :: sched => s ← wq_step P i s; wq_run P sched s
  end.

Lemma wq_run_reach {Q} `{Queue Q} P n seeds k sched : forall s s',
  wq_reach P n seeds k s -> wq_run P sched s = Some s' -> wq_reach P n seeds k s'.
Proof.
  induction sched as [|i sched IH]; intros s s' R E; simplify_eq/=; [done|].
  destruct (wq_step P i s) eqn:E1; [|done]. eapply IH; [|done]. by eapply wr_step.
Qed.

Definition demo : list nat :=
  [0; 0; 1; 1; 1; 0; 0; 0; 0; 1; 1; 1; 1; 1; 1; 0]%nat.

Lemma demo_done {Q} `{Queue Q} :
  wthreads <$> wq_run 1 demo (wq_init 2 [5] 1) = Some [AtBarrier true; AtBarrier false] ->
  exists s : wq_st Q, wq_reach 1 2 [5] 1 s /\ Forall (fun pc => exists b, pc = AtBarrier b) (wthreads s).
Proof.
  intros E. destruct (wq_run 1 demo (wq_init 2 [5] 1)) as [s|] eqn:Er; [|done]. exists s.
  split; [|injection E as ->; repeat constructor; eauto].
  eapply (wq_run_reach 1 2 [5] 1 demo); [constructor|exact Er].
Qed.

Lemma workqueue_passes_witness :
  (exists s : wq_st simple_queue, wq_check 1 2 s = true) /\
  (exists s : wq_st (ring * buffer), wq_check 1 2 s = true).
Proof.
  split.
  - destruct (demo_done (Q := simple_queue)) as (s & R & Hall); [vm_compute; reflexivity|].
    exists s. exact (workqueue_passes 1 2 [5] 1 s eq_refl ltac:(lia) ltac:(simpl; lia) ltac:(lia) R Hall).
  - destruct (demo_done (Q := ring * buffer)) as (s & R & Hall); [vm_compute; reflexivity|].
    exists s. exact (workqueue_passes 1 2 [5] 1 s eq_refl ltac:(lia) ltac:(simpl; lia) ltac:(lia) R Hall).
Defined.
