(* ===== verification/CohChecker.v ===== *)
(** * The coherence checker

    riscv-tests/common/coh_checker.h: harts pass cache-line-sized rows to one another; the
    hart named in a row's [RecipientID] owns it, rewrites its data, counts a hop and passes
    it on, until its originator takes it back and checks it.  The model interleaves the
    harts at the accesses through which a row changes hands ([RecipientID], [circuits_done],
    [stop], [failed]); what a hart does to a row it owns is split into the phases of the
    code. *)
From S2P Require Import Prelude Torture.
Local Open Scope Z_scope.
Local Open Scope word_scope.

Definition MAX_HOPS : Z := 512.
Definition DATA_WORDS : nat := 3.
Definition RCP_ID_DEFAULT : Z := 0x1D00000000000000.

(** The payloads of the first 16 rows; the table repeats them four times. *)
Definition ROW_DATA16 : list Z :=
  [0xDA7A008080800000; 0xDA7A008181810000; 0xDA7A008282820000; 0xDA7A008383830000;
   0xDA7A008484840000; 0xDA7A008585850000; 0xDA7A008686860000; 0xDA7A008787870000;
   0xDA7A008888880000; 0xDA7A008989890000; 0xDA7A008A8A8A0000; 0xDA7A008B8B8B0000;
   0xDA7A008C8C8C0000; 0xDA7A008D8D8D0000; 0xDA7A008E8E8E0000; 0xDA7A008F8F8F0000].

Definition ROW_DATA : list Z := ROW_DATA16 ++ ROW_DATA16 ++ ROW_DATA16 ++ ROW_DATA16.

Record CohStruct := mkCoh {
  RecipientID : Z; numHops : Z; maxHops : Z; origId : Z; payload : Z; OtherData : list Z }.

Definition set_RecipientID (v : Z) (c : CohStruct) : CohStruct :=
  mkCoh v (numHops c) (maxHops c) (origId c) (payload c) (OtherData c).
Definition set_OtherData (v : list Z) (c : CohStruct) : CohStruct :=
  mkCoh (RecipientID c) (numHops c) (maxHops c) (origId c) (payload c) v.
Definition add_hop (c : CohStruct) : CohStruct :=
  mkCoh (RecipientID c) (amo_d amoadd (numHops c) 1) (maxHops c) (origId c) (payload c) (OtherData c).
Definition add_payload (c : CohStruct) : CohStruct :=
  mkCoh (RecipientID c) (numHops c) (maxHops c) (origId c) (amo_d amoadd (payload c) 1) (OtherData c).
Definition restart (lfsr_val : Z) (c : CohStruct) : CohStruct :=
  mkCoh (RecipientID c) 0 (lfsr_val mod MAX_HOPS) (origId c) lfsr_val (OtherData c).

(** What a row's data words hold, and the marks a hart leaves while it works. *)
Definition row_data (row : Z) : Z := Z.lor (nth (Z.to_nat row) ROW_DATA 0) row.

Definition marks (row threadIdx : Z) : list Z :=
  map (fun dw => Z.lor (Z.lor (Z.lor 0xFFFFFFFF00000000 (Z.shiftl row 16)) (Z.shiftl threadIdx 8))
         (Z.of_nat dw)) (seq 0 DATA_WORDS).

(** Where a hart stands: between iterations, scanning row [r], or at one of the phases of its
    work on row [r]; [tmp] is the saved data, [e] the error count, [v] the next recipient. *)
Inductive coh_pc :=
| Loop | Done | Scan (r : nat)
| Mark (r : nat) | WriteBack (r : nat) (tmp : list Z) | Hop (r : nat) (tmp : list Z)
| Pay (r : nat) (tmp : list Z) | Decide (r : nat) (tmp : list Z) | Verify (r : nat) (tmp : list Z)
| Circuit (r : nat) (e : Z) | Restart (r : nat) (e : Z) | Send (r : nat) (v e : Z) | Fail.

Record coh_hart := mkHart { h_pc : coh_pc; lfsr_val : Z }.

Record coh_st := mkCohSt {
  CohArr : list CohStruct; private : list Z;
  circuits_done : Z; failed : Z; stop : Z; harts : list coh_hart }.

Section coh.
Context (COH_CHECKER_ROWS : nat) (TOTAL_CIRCUITS : Z).

Definition upd_row (r : nat) (f : CohStruct -> CohStruct) (s : coh_st) : coh_st :=
  mkCohSt (alter f r (CohArr s)) (private s) (circuits_done s) (failed s) (stop s) (harts s).

Definition set_pc (i : nat) (pc : coh_pc) (s : coh_st) : coh_st :=
  mkCohSt (CohArr s) (private s) (circuits_done s) (failed s) (stop s)
    (alter (fun h => mkHart pc (lfsr_val h)) i (harts s)).

(** Back to the main loop, with the next random number. *)
Definition next_iteration (i : nat) (s : coh_st) : coh_st :=
  mkCohSt (CohArr s) (private s) (circuits_done s) (failed s) (stop s)
    (alter (fun h => mkHart Loop (lfsr2 (lfsr_val h))) i (harts s)).

(** The errors that the owner counts. *)
Definition count_errors (row : Z) (tmp : list Z) (c : CohStruct) (priv : Z) : Z :=
  Z.of_nat (length (List.filter (fun d => negb (d =? row_data row)) tmp)) +
  (if payload c =? priv ⊞ numHops c then 0 else 1).

(** One step of hart [i]. *)
Definition coh_step (i : nat) (s : coh_st) : option coh_st :=
  h ← harts s !! i;
  let rnd := lfsr_val h in
  match h_pc h with
  | Done => None
  | Loop => Some (set_pc i (if negb (stop s =? 0) then Done else Scan 0) s)
  | Scan r =>
      if (COH_CHECKER_ROWS <=? r)%nat then Some (next_iteration i s)
      else
        c ← CohArr s !! r;
        Some (set_pc i (if Z.land (RecipientID c) 0xff =? Z.of_nat i then Mark r else Scan (S r)) s)
  | Mark r =>
      c ← CohArr s !! r;
      Some (set_pc i (WriteBack r (OtherData c))
        (upd_row r (set_OtherData (marks (Z.of_nat r) (Z.of_nat i))) s))
  | WriteBack r tmp => Some (set_pc i (Hop r tmp) (upd_row r (set_OtherData tmp) s))
  | Hop r tmp => Some (set_pc i (Pay r tmp) (upd_row r add_hop s))
  | Pay r tmp => Some (set_pc i (Decide r tmp) (upd_row r add_payload s))
  | Decide r tmp =>
      c ← CohArr s !! r;
      Some (set_pc i
        (if maxHops c <? numHops c then
           if origId c =? Z.of_nat i then Verify r tmp else Send r (origId c) 0
         else Send r (Z.lor RCP_ID_DEFAULT (rnd mod Z.of_nat COH_CHECKER_ROWS)) 0) s)
  | Verify r tmp =>
      c ← CohArr s !! r;
      priv ← private s !! i;
      Some (set_pc i (Circuit r (count_errors (Z.of_nat r) tmp c priv))
        (mkCohSt (CohArr s) (private s) (amo_d amoadd (circuits_done s) 1) (failed s) (stop s) (harts s)))
  | Circuit r e =>
      if TOTAL_CIRCUITS <=? circuits_done s
      then Some (next_iteration i
             (mkCohSt (CohArr s) (private s) (circuits_done s) (failed s) 1 (harts s)))
      else Some (set_pc i (Restart r e) s)
  | Restart r e =>
      Some (set_pc i
        (Send r (Z.lor RCP_ID_DEFAULT (Z.shiftr rnd 16 mod Z.of_nat COH_CHECKER_ROWS)) e)
        (mkCohSt (alter (restart rnd) r (CohArr s)) (<[i := rnd]> (private s))
           (circuits_done s) (failed s) (stop s) (harts s)))
  | Send r v e =>
      Some (set_pc i (if negb (e =? 0) then Fail else Scan (S r)) (upd_row r (set_RecipientID v) s))
  | Fail =>
      Some (next_iteration i (mkCohSt (CohArr s) (private s) (circuits_done s) 1 1 (harts s)))
  end.

(** The initialisation that every hart does for its own row, with its first random number. *)
Definition coh_row0 (i : nat) (rnd : Z) : CohStruct :=
  mkCoh (Z.of_nat i) 0 (rnd mod MAX_HOPS) (Z.of_nat i) rnd
    (replicate DATA_WORDS (row_data (Z.of_nat i))).

Definition coh_init (seeds : list Z) : coh_st :=
  mkCohSt (imap coh_row0 seeds) seeds 0 0 0 (map (fun rnd => mkHart Loop (lfsr2 rnd)) seeds).

(** The verdict of thread 0 when all are done: [true] is SUCCESS. *)
Definition coh_verdict (s : coh_st) : bool := failed s =? 0.

Inductive coh_reach (seeds : list Z) : coh_st -> Prop :=
| cr_init : coh_reach seeds (coh_init seeds)
| cr_step s i s' : coh_reach seeds s -> coh_step i s = Some s' -> coh_reach seeds s'.
End coh.

(** ** The invariant *)

(** The row a hart works on. *)
Definition working (pc : coh_pc) : option nat :=
  match pc with
  | Mark r | WriteBack r _ | Hop r _ | Pay r _ | Decide r _ | Verify r _ | Circuit r _
  | Restart r _ | Send r _ _ => Some r
  | Loop | Done | Scan _ | Fail => None
  end.

Definition good (r : nat) : list Z := replicate DATA_WORDS (row_data (Z.of_nat r)).

(** A row that changes hands: its data is intact and its payload counts the hops. *)
Definition row_ok (r : nat) (priv : Z) (c : CohStruct) : Prop :=
  OtherData c = good r /\ payload c = priv ⊞ numHops c.

(** A row while hart [i] works on it. *)
Definition work_state (n i : nat) (pc : coh_pc) (r : nat) (priv : Z) (c : CohStruct) : Prop :=
  match pc with
  | WriteBack _ tmp => tmp = good r /\ payload c = priv ⊞ numHops c
  | Hop _ tmp | Decide _ tmp => tmp = good r /\ row_ok r priv c
  | Pay _ tmp => tmp = good r /\ OtherData c = good r /\ payload c ⊞ 1 = priv ⊞ numHops c
  | Verify _ tmp => r = i /\ tmp = good r /\ row_ok r priv c
  | Circuit _ e | Restart _ e => r = i /\ e = 0 /\ row_ok r priv c
  | Send _ v e => e = 0 /\ row_ok r priv c /\ 0 <= Z.land v 0xff < Z.of_nat n
  | _ => row_ok r priv c
  end.

Definition row_state (n i : nat) (pc : coh_pc) (r : nat) (priv : Z) (c : CohStruct) : Prop :=
  if decide (working pc = Some r) then work_state n i pc r priv c else row_ok r priv c.

Record coh_inv (n : nat) (s : coh_st) : Prop := mkCohInv {
  ci_rows : length (CohArr s) = n; ci_priv : length (private s) = n; ci_harts : length (harts s) = n;
  ci_failed : failed s = 0;
  ci_nofail : forall i h, harts s !! i = Some h -> h_pc h <> Fail;
  ci_row : forall r c, CohArr s !! r = Some c -> origId c = Z.of_nat r /\
    exists i h p, Z.land (RecipientID c) 0xff = Z.of_nat i /\ harts s !! i = Some h /\
      private s !! r = Some p /\ row_state n i (h_pc h) r p c;
  ci_own : forall i h r, harts s !! i = Some h -> working (h_pc h) = Some r ->
    exists c, CohArr s !! r = Some c /\ Z.land (RecipientID c) 0xff = Z.of_nat i }.

Section coh_proofs.
Context (n : nat) (Hn : (0 < n <= 64)%nat) (TOTAL : Z).

Lemma row_state_idle i pc r p c : working pc <> Some r -> row_state n i pc r p c <-> row_ok r p c.
Proof. intros H. unfold row_state. by rewrite decide_False. Qed.

Lemma row_state_work i pc r p c :
  working pc = Some r -> row_state n i pc r p c <-> work_state n i pc r p c.
Proof. intros H. unfold row_state. by rewrite decide_True. Qed.

Lemma lookup_set_pc i j pc (hs : list coh_hart) h rnd :
  alter (fun h => mkHart pc (rnd (lfsr_val h))) i hs !! j = Some h ->
  (j = i /\ h_pc h = pc /\ is_Some (hs !! i)) \/ (j <> i /\ hs !! j = Some h).
Proof.
  intros H. destruct (decide (j = i)) as [->|Hne].
  - left. rewrite list_lookup_alter_eq in H. destruct (hs !! i); simplify_eq/=. eauto.
  - right. by rewrite list_lookup_alter_ne in H.
Qed.

(** Hart [i] moves to [pc'], changing row [r] by [f], the private words to [priv'] and the
    global counters.  The row keeps its originator; what the mover must show is the state of
    [r] for the hart that owns it next. *)
Lemma inv_move s s' i h pc' r c f rnd :
  coh_inv n s -> harts s !! i = Some h -> pc' <> Fail -> failed s' = 0 ->
  harts s' = alter (fun h => mkHart pc' (rnd (lfsr_val h))) i (harts s) ->
  CohArr s !! r = Some c -> Z.land (RecipientID c) 0xff = Z.of_nat i ->
  (working (h_pc h) = None \/ working (h_pc h) = Some r) ->
  CohArr s' = alter f r (CohArr s) -> origId (f c) = origId c ->
  length (private s') = n -> (forall x, x <> r -> private s' !! x = private s !! x) ->
  (working pc' = None \/ (working pc' = Some r /\ RecipientID (f c) = RecipientID c)) ->
  (forall p, private s !! r = Some p -> row_state n i (h_pc h) r p c ->
     exists i' p', Z.land (RecipientID (f c)) 0xff = Z.of_nat i' /\ (i' < n)%nat /\
       private s' !! r = Some p' /\
       if decide (i' = i) then row_state n i pc' r p' (f c) else row_ok r p' (f c)) ->
  coh_inv n s'.
Proof.
  intros [Hr Hp Hh Hf Hnf Hrow Hown] Hi Hpc Hf' Ehs Hc Hrec Hw Ers Ho Hp' Hpriv Hw' Hnew.
  assert (length (harts s') = n) as Hl by by rewrite Ehs, length_alter.
  assert (exists h', harts s' !! i = Some h' /\ h_pc h' = pc') as (h' & Hi' & Hpc').
  { rewrite Ehs, list_lookup_alter_eq, Hi. simpl. eauto. }
  split; try done.
  - by rewrite Ers, length_alter.
  - intros j hj Hj. rewrite Ehs in Hj. apply lookup_set_pc in Hj as [(_ & -> & _)|[_ Hj]]; eauto.
  - intros x cx Hx. rewrite Ers in Hx. destruct (decide (x = r)) as [->|Hne].
    + rewrite list_lookup_alter_eq, Hc in Hx. injection Hx as <-.
      destruct (Hrow r c Hc) as [Horig (i0 & h0 & p & E0 & Hh0 & Hp0 & Hst)].
      split; [congruence|]. assert (i0 = i) as -> by lia. rewrite Hi in Hh0. injection Hh0 as <-.
      destruct (Hnew p Hp0 Hst) as (i' & p' & E' & Hlt & Hp1 & Hst').
      destruct (decide (i' = i)) as [->|Hne].
      * exists i, h', p'. by rewrite Hpc'.
      * destruct (lookup_lt_is_Some_2 (harts s) i' ltac:(lia)) as [h1 Hh1].
        exists i', h1, p'. rewrite Ehs, list_lookup_alter_ne by done. split_and!; try done.
        apply row_state_idle; [|done]. intros Hwk.
        destruct (Hown i' h1 r Hh1 Hwk) as (c1 & Hc1 & Er1). rewrite Hc in Hc1. injection Hc1 as <-. lia.
    + rewrite list_lookup_alter_ne in Hx by done. destruct (Hrow x cx Hx) as [Horig (i0 & h0 & p & E0 & Hh0 & Hp0 & Hst)].
      split; [done|]. rewrite <-Hpriv in Hp0 by done. destruct (decide (i0 = i)) as [->|Hnei].
      * exists i, h', p. rewrite Hi in Hh0. injection Hh0 as <-. rewrite Hpc'. split_and!; try done.
        apply row_state_idle; [destruct Hw' as [->|[-> _]]; congruence|].
        apply row_state_idle in Hst; [done|]. destruct Hw as [-> | ->]; congruence.
      * exists i0, h0, p. rewrite Ehs, list_lookup_alter_ne by done. done.
  - intros j hj x Hj Hwj. rewrite Ehs in Hj. apply lookup_set_pc in Hj as [(-> & Hpcj & _)|[Hne Hj]].
    + rewrite Hpcj in Hwj. destruct Hw' as [E|[E Er]]; [congruence|]. assert (x = r) as -> by congruence.
      exists (f c). rewrite Ers, list_lookup_alter_eq, Hc. simpl. by rewrite Er.
    + destruct (Hown j hj x Hj Hwj) as (cx & Hcx & Erx). rewrite Ers. destruct (decide (x = r)) as [->|].
      * rewrite Hc in Hcx. injection Hcx as <-. lia.
      * exists cx. by rewrite list_lookup_alter_ne.
Qed.

(** Hart [i] moves without touching a row, from and to positions outside any work. *)
Lemma inv_idle s s' i h pc' rnd :
  coh_inv n s -> harts s !! i = Some h -> pc' <> Fail -> failed s' = 0 ->
  harts s' = alter (fun h => mkHart pc' (rnd (lfsr_val h))) i (harts s) ->
  CohArr s' = CohArr s -> private s' = private s ->
  working (h_pc h) = None -> working pc' = None -> coh_inv n s'.
Proof.
  intros [Hr Hp Hh Hf Hnf Hrow Hown] Hi Hpc Hf' Ehs Ers Ep Hw Hw'.
  split; try (by rewrite ?Ehs, ?Ers, ?Ep, ?length_alter); try done.
  - intros j hj Hj. rewrite Ehs in Hj. apply lookup_set_pc in Hj as [(_ & -> & _)|[_ Hj]]; eauto.
  - intros x cx Hx. rewrite Ers in Hx. destruct (Hrow x cx Hx) as [Ho (i0 & h0 & p & E0 & Hh0 & Hp0 & Hst)].
    split; [done|]. rewrite Ep. destruct (decide (i0 = i)) as [->|Hne].
    + rewrite Hi in Hh0. injection Hh0 as <-. eexists i, _, p. rewrite Ehs, list_lookup_alter_eq, Hi.
      simpl. split_and!; try done. simpl. apply row_state_idle; [congruence|].
      apply row_state_idle in Hst; [done|congruence].
    + exists i0, h0, p. by rewrite Ehs, list_lookup_alter_ne.
  - intros j hj x Hj Hwj. rewrite Ehs in Hj. rewrite Ers.
    apply lookup_set_pc in Hj as [(-> & Hpcj & _)|[Hne Hj]]; [congruence|eauto].
Qed.

(** A phase of the work on row [r] that stays with the row and its private word. *)
Lemma inv_phase s s' i h pc' r c f :
  coh_inv n s -> harts s !! i = Some h -> pc' <> Fail -> failed s' = failed s ->
  harts s' = alter (fun h => mkHart pc' (lfsr_val h)) i (harts s) ->
  working (h_pc h) = Some r -> CohArr s !! r = Some c ->
  CohArr s' = alter f r (CohArr s) -> origId (f c) = origId c -> RecipientID (f c) = RecipientID c ->
  private s' = private s -> working pc' = Some r ->
  (forall p, private s !! r = Some p -> origId c = Z.of_nat r ->
     work_state n i (h_pc h) r p c -> work_state n i pc' r p (f c)) ->
  coh_inv n s'.
Proof.
  intros I Hi Hpc Hf Ehs Hw Hc Ers Ho Er Ep Hw' Hst.
  destruct (ci_own _ _ I i h r Hi Hw) as (c' & Hc' & Erec). rewrite Hc in Hc'. injection Hc' as <-.
  pose proof (ci_row _ _ I r c Hc) as [Horig _].
  eapply (inv_move s s' i h pc' r c f (fun x => x)); try done.
  - rewrite Hf. apply I.
  - by right.
  - rewrite Ep. apply I.
  - by rewrite Ep.
  - by right.
  - intros p Hp Hrs. exists i, p. rewrite Er, Ep. split_and!; try done.
    + rewrite <-(ci_harts _ _ I). by eapply lookup_lt_Some.
    + rewrite decide_True by done. apply row_state_work; [done|].
      apply row_state_work in Hrs; [|done]. eauto.
Qed.

Lemma recipient_land x : 0 <= x < 64 -> Z.land (Z.lor RCP_ID_DEFAULT x) 0xff = x.
Proof.
  intros Hx. rewrite Z.land_lor_distr_l. change (Z.land RCP_ID_DEFAULT 0xff) with 0.
  change 0xff with (2 ^ 8 - 1). rewrite land_pow2_mask by lia. rewrite Z.lor_0_l. apply Z.mod_small. lia.
Qed.

Lemma next_recipient x :
  0 <= Z.land (Z.lor RCP_ID_DEFAULT (x mod Z.of_nat n)) 0xff < Z.of_nat n.
Proof. pose proof (Z.mod_pos_bound x (Z.of_nat n) ltac:(lia)). rewrite recipient_land; lia. Qed.

Lemma own_id r : (r < n)%nat -> 0 <= Z.land (Z.of_nat r) 0xff < Z.of_nat n.
Proof.
  intros. change 0xff with (2 ^ 8 - 1). rewrite land_pow2_mask by lia. rewrite Z.mod_small; lia.
Qed.

Lemma no_errors r c p : row_ok r p c -> count_errors (Z.of_nat r) (good r) c p = 0.
Proof.
  intros [_ E]. unfold count_errors. rewrite E, Z.eqb_refl. simpl. rewrite Z.eqb_refl. done.
Qed.

(** Passing the row on. *)
Lemma inv_send s i h r v e c :
  coh_inv n s -> harts s !! i = Some h -> h_pc h = Send r v e -> CohArr s !! r = Some c ->
  coh_inv n (set_pc i (if negb (e =? 0) then Fail else Scan (S r)) (upd_row r (set_RecipientID v) s)).
Proof.
  intros I Hi Hpc Hc. destruct (ci_own _ _ I i h r Hi ltac:(by rewrite Hpc)) as (c' & Hc' & Erec).
  rewrite Hc in Hc'. injection Hc' as <-.
  pose proof (ci_row _ _ I r c Hc) as [_ (i0 & h0 & p & E0 & Hh0 & Hp0 & Hst)].
  assert (i0 = i) as -> by lia. rewrite Hi in Hh0. injection Hh0 as <-.
  apply row_state_work in Hst; [|by rewrite Hpc]. rewrite Hpc in Hst. destruct Hst as (-> & Hok & Hv).
  eapply (inv_move s _ i h (Scan (S r)) r c (set_RecipientID v) (fun x => x)); try done.
  - apply I.
  - right. by rewrite Hpc.
  - apply I.
  - by left.
  - intros p' Hp' _. exists (Z.to_nat (Z.land v 255)), p'. simpl. split_and!; [lia|lia|done|].
    rewrite Hp0 in Hp'. injection Hp' as <-. case_decide; [|done]. by apply row_state_idle.
Qed.

(** The owner restarts its row. *)
Lemma inv_restart s i h r e c rnd v :
  coh_inv n s -> harts s !! i = Some h -> h_pc h = Restart r e -> CohArr s !! r = Some c ->
  0 <= Z.land v 0xff < Z.of_nat n -> 0 <= rnd < 2 ^ 64 ->
  coh_inv n (set_pc i (Send r v e)
    (mkCohSt (alter (restart rnd) r (CohArr s)) (<[i := rnd]> (private s))
       (circuits_done s) (failed s) (stop s) (harts s))).
Proof.
  intros I Hi Hpc Hc Hv Hrnd. destruct (ci_own _ _ I i h r Hi ltac:(by rewrite Hpc)) as (c' & Hc' & Erec).
  rewrite Hc in Hc'. injection Hc' as <-.
  pose proof (ci_row _ _ I r c Hc) as [_ (i0 & h0 & p & E0 & Hh0 & Hp0 & Hst)].
  assert (i0 = i) as -> by lia. rewrite Hi in Hh0. injection Hh0 as <-.
  apply row_state_work in Hst; [|by rewrite Hpc]. rewrite Hpc in Hst. destruct Hst as (-> & -> & Hok & _).
  eapply (inv_move s _ i h (Send i v 0) i c (restart rnd) (fun x => x)); try done.
  - apply I.
  - right. by rewrite Hpc.
  - simpl. rewrite length_insert. apply I.
  - intros x Hx. simpl. by rewrite list_lookup_insert_ne.
  - by right.
  - intros p' _ _. exists i, rnd. simpl. split_and!; [done| | |].
    + rewrite <-(ci_harts _ _ I). by eapply lookup_lt_Some.
    + rewrite list_lookup_insert_eq; [done|]. by eapply lookup_lt_Some.
    + rewrite decide_True by done. apply row_state_work; [done|]. simpl. split; [done|]. split; [|done].
      split; simpl; [done|]. rewrite Z.add_0_r. symmetry. by apply wrapU_small.
Qed.
End coh_proofs.

Definition seeds_ok (s : coh_st) : Prop :=
  forall i h, harts s !! i = Some h -> 0 <= lfsr_val h < 2 ^ 64.

Lemma seeds_step n T i s s' : seeds_ok s -> coh_step n T i s = Some s' -> seeds_ok s'.
Proof.
  intros Hs E j hj Hj. unfold coh_step in E. destruct (harts s !! i) as [h|] eqn:Hi; [|done].
  simpl in E. destruct (h_pc h); simplify_eq/=; repeat (case_match; simplify_eq/=);
    try (destruct (CohArr s !! r) as [c|]; simplify_eq/=);
    try (destruct (private s !! i) as [p|]; simplify_eq/=);
    (destruct (decide (j = i)) as [->|Hne];
     [rewrite list_lookup_alter_eq, Hi in Hj; simplify_eq/=; try (apply lfsr2_range); by eapply Hs
     |rewrite list_lookup_alter_ne in Hj by done; by eapply Hs]).
Qed.

Lemma coh_inv_step n T i s s' :
  (0 < n <= 64)%nat -> coh_inv n s -> seeds_ok s -> coh_step n T i s = Some s' -> coh_inv n s'.
Proof.
  intros Hn I Hs E. unfold coh_step in E. destruct (harts s !! i) as [h|] eqn:Hi; [|done].
  cbn [mbind option_bind] in E. pose proof (ci_failed _ _ I) as Hf.
  assert (forall r, working (h_pc h) = Some r -> exists c, CohArr s !! r = Some c) as Hrow.
  { intros r Hw. destruct (ci_own _ _ I i h r Hi Hw) as (c & Hc & _). eauto. }
  destruct (h_pc h) as [| |r|r|r tmp|r tmp|r tmp|r tmp|r tmp|r e|r e|r v e|] eqn:Hpc;
    try (destruct (Hrow r eq_refl) as [c Hc]; rewrite ?Hc in E; cbn [mbind option_bind] in E).
  - injection E as <-. eapply (inv_idle n s _ i h _ (fun x => x)); try done; rewrite ?Hpc; try done;
      by destruct (negb (stop s =? 0)).
  - done.
  - destruct (n <=? r)%nat.
    { injection E as <-. by eapply (inv_idle n s _ i h Loop lfsr2); rewrite ?Hpc. }
    destruct (CohArr s !! r) as [c|] eqn:Hc; [|done]. cbn [mbind option_bind] in E. injection E as <-.
    destruct (Z.eqb_spec (Z.land (RecipientID c) 255) (Z.of_nat i)).
    + eapply (inv_move n Hn s _ i h (Mark r) r c (fun c => c) (fun x => x)); try done.
      * by left; rewrite Hpc.
      * simpl. symmetry. by apply list_alter_id.
      * apply I.
      * by right.
      * intros p Hp Hst. exists i, p. split_and!; [done| |done|].
        { rewrite <-(ci_harts _ _ I). by eapply lookup_lt_Some. }
        rewrite decide_True by done. apply row_state_work; [done|]. simpl.
        apply row_state_idle in Hst; [done|]. by rewrite Hpc.
    + by eapply (inv_idle n s _ i h (Scan (S r)) (fun x => x)); rewrite ?Hpc.
  - injection E as <-.
    eapply (inv_phase n Hn s _ i h _ r c); try done; rewrite ?Hpc; done.
  - injection E as <-.
    eapply (inv_phase n Hn s _ i h _ r c); try done; rewrite ?Hpc; try done. by intros p _ _ [-> H2].
  - injection E as <-. eapply (inv_phase n Hn s _ i h _ r c); try done; rewrite ?Hpc; try done.
    intros p _ _ (-> & H1 & H2). split_and!; try done. simpl. rewrite H2, wrapU_add_l, wrapU_add_r.
    f_equal. lia.
  - injection E as <-. eapply (inv_phase n Hn s _ i h _ r c); try done; rewrite ?Hpc; try done.
  - injection E as <-. eapply (inv_phase n Hn s _ i h _ r c (fun c => c)); try done; rewrite ?Hpc; try done.
    + by repeat case_match.
    + simpl. symmetry. by apply list_alter_id.
    + by repeat case_match.
    + intros p _ Ho [-> Hok]. rewrite Ho. destruct (_ <? _);
        [|split; [done|]; split; [done|by apply next_recipient]].
      destruct (Z.eqb_spec (Z.of_nat r) (Z.of_nat i)); [split_and!; [lia|done|done]|].
      split; [done|]. split; [done|]. apply own_id; [done|].
      rewrite <-(ci_rows _ _ I). by eapply lookup_lt_Some.
  - destruct (private s !! i) as [p0|] eqn:Hp0; [|done]. cbn [mbind option_bind] in E. injection E as <-.
    eapply (inv_phase n Hn s _ i h _ r c (fun c => c)); try done; rewrite ?Hpc; try done.
    + simpl. symmetry. by apply list_alter_id.
    + intros p Hp Ho (-> & -> & Hok). rewrite Hp0 in Hp. injection Hp as <-.
      split_and!; [done|by apply no_errors|done..].
  - destruct (T <=? circuits_done s).
    + injection E as <-. destruct (ci_own _ _ I i h r Hi ltac:(by rewrite Hpc)) as (c' & Hc' & Erec).
      rewrite Hc in Hc'. injection Hc' as <-.
      eapply (inv_move n Hn s _ i h Loop r c (fun c => c) lfsr2); try done.
      * by right; rewrite Hpc.
      * simpl. symmetry. by apply list_alter_id.
      * apply I.
      * by left.
      * intros p Hp Hst. exists i, p. split_and!; [done| |done|].
        { rewrite <-(ci_harts _ _ I). by eapply lookup_lt_Some. }
        rewrite decide_True by done. apply row_state_idle; [done|].
        apply row_state_work in Hst; [|by rewrite Hpc]. rewrite Hpc in Hst. by destruct Hst as (_ & _ & ?).
    + injection E as <-. eapply (inv_phase n Hn s _ i h _ r c (fun c => c)); try done; rewrite ?Hpc; try done.
      simpl. symmetry. by apply list_alter_id.
  - injection E as <-. eapply inv_restart; try done; [by apply next_recipient|by eapply Hs].
  - injection E as <-. by eapply inv_send.
  - by destruct (ci_nofail _ _ I i h Hi).
Qed.

Lemma coh_inv_init seeds :
  (0 < length seeds <= 64)%nat -> Forall (fun x => 0 <= x < 2 ^ 64) seeds ->
  coh_inv (length seeds) (coh_init seeds) /\ seeds_ok (coh_init seeds).
Proof.
  intros Hn Hs. split.
  - split; simpl; rewrite ?length_imap, ?length_map; try done.
    + intros i h Hi. rewrite list_lookup_fmap in Hi. destruct (seeds !! i); simplify_eq/=. done.
    + intros r c Hc. rewrite list_lookup_imap in Hc. destruct (seeds !! r) as [x|] eqn:Hx; simplify_eq/=.
      split; [done|]. exists r, (mkHart Loop (lfsr2 x)), x. rewrite list_lookup_fmap, Hx.
      pose proof (lookup_lt_Some _ _ _ Hx). split_and!; try done.
      * change 255 with (2 ^ 8 - 1). rewrite land_pow2_mask, Z.mod_small; lia.
      * apply row_state_idle; [done|]. split; [done|]. simpl. rewrite Z.add_0_r. symmetry.
        apply wrapU_small. by eapply Forall_lookup in Hs.
    + intros i h r Hi. rewrite list_lookup_fmap in Hi. destruct (seeds !! i); by simplify_eq/=.
  - intros i h Hi. simpl in Hi. rewrite list_lookup_fmap in Hi.
    destruct (seeds !! i) eqn:Hx; simplify_eq/=. apply lfsr2_range. by eapply Forall_lookup in Hs.
Qed.

(** C22: the checker has no false alarm: on coherent memory, for any number of harts up to
    64, any seeds and any interleaving, no hart ever counts an error, so [failed] stays 0
    and the verdict is SUCCESS; a row is only ever worked on by the hart it names. *)
Theorem coh_checker_sound seeds T s :
  (0 < length seeds <= 64)%nat -> Forall (fun x => 0 <= x < 2 ^ 64) seeds ->
  coh_reach (length seeds) T seeds s ->
  coh_verdict s = true /\
  forall i h r, harts s !! i = Some h -> working (h_pc h) = Some r ->
    (exists c, CohArr s !! r = Some c /\ Z.land (RecipientID c) 0xff = Z.of_nat i) /\
    forall e, h_pc h = Circuit r e -> e = 0.
Proof.
  intros Hn Hs R. assert (coh_inv (length seeds) s /\ seeds_ok s) as [I _].
  { induction R as [|s i s' R [IH1 IH2] E]; [by apply coh_inv_init|].
    split; [by eapply coh_inv_step|by eapply seeds_step]. }
  split; [unfold coh_verdict; by rewrite (ci_failed _ _ I)|].
  intros i h r Hi Hw. pose proof (ci_own _ _ I i h r Hi Hw) as (c & Hc & Er). split; [eauto|].
  intros e Hpc. pose proof (ci_row _ _ I r c Hc) as [_ (i0 & h0 & p & E0 & Hh0 & _ & Hst)].
  assert (i0 = i) as -> by lia. rewrite Hi in Hh0. injection Hh0 as <-.
  apply row_state_work in Hst; [|done]. rewrite Hpc in Hst. by destruct Hst as (_ & -> & _).
Qed.

Fixpoint coh_run (n : nat) (T : Z) (sched : list nat) (s : coh_st) : option coh_st :=
  match sched with
  | [] => Some s
  | i :: sched => s ← coh_step n T i s; coh_run n T sched s
  end.

Lemma coh_run_reach n T seeds sched : forall s s',
  coh_reach n T seeds s -> coh_run n T sched s = Some s' -> coh_reach n T seeds s'.
Proof.
  induction sched as [|i sched IH]; intros s s' R E; simplify_eq/=; [done|].
  destruct (coh_step n T i s) eqn:E1; [|done]. eapply IH; [|done]. by eapply cr_step.
Qed.

Lemma coh_checker_sound_witness :
  exists s, coh_run 2 5 (concat (replicate 40 [0; 1]%nat)) (coh_init [12; 345]) = Some s /\
    coh_verdict s = true.
Proof.
  eexists. split; [vm_compute; reflexivity|].
  apply (coh_checker_sound [12; 345] 5); [simpl; lia|repeat constructor; lia|].
  apply (coh_run_reach 2 5 [12; 345] (concat (replicate 40 [0; 1]%nat)) (coh_init [12; 345]));
    [constructor|vm_compute; reflexivity].
Defined.

(** When the last circuit is found corrupt, the owner sets [stop] and returns before it
    reports: its error count is dropped. *)
Lemma last_circuit_error_lost n T i s h r e s' :
  harts s !! i = Some h -> h_pc h = Circuit r e -> T <= circuits_done s ->
  coh_step n T i s = Some s' -> failed s' = failed s /\ stop s' = 1.
Proof.
  intros Hi Hpc HT E. unfold coh_step in E. rewrite Hi in E. cbn [mbind option_bind] in E.
  rewrite Hpc, (proj2 (Z.leb_le _ _)) in E by done. by injection E as <-.
Qed.
