(* ===== verification/Towers.v ===== *)
(** * Towers of Hanoi

    riscv-tests/benchmarks/towers/towers_main.c: linked lists of nodes from a pool with a
    free list, the three pegs, the recursive solver and the program's own verification.
    Nodes live in a heap of two fields, addressed by pointers; 0 is the null pointer. *)
From S2P Require Import Prelude.
Local Open Scope Z_scope.

(** ** Nodes and lists *)

Record heap := mkHeap { n_val : Z -> Z; n_next : Z -> Z }.

Record List := mkList { l_size : Z; l_head : Z }.

Definition list_getSize (l : List) : Z := l_size l.

Definition list_init : List := mkList 0 0.

(** The free list is a [List] whose size is not maintained; only its head is used. *)
Definition list_push (list : List) (val : Z) (h : heap) (free : Z) : List * heap * Z :=
  let newNode := free in
  let free := n_next h free in
  let h := mkHeap (n_val h) (upd (n_next h) newNode (l_head list)) in
  let h := mkHeap (upd (n_val h) newNode val) (n_next h) in
  (mkList (s32 (l_size list + 1)) newNode, h, free).

Definition list_pop (list : List) (h : heap) (free : Z) : Z * List * heap * Z :=
  let val := n_val h (l_head list) in
  let freedNode := l_head list in
  let head := n_next h (l_head list) in
  let h := mkHeap (n_val h) (upd (n_next h) freedNode free) in
  (val, mkList (s32 (l_size list - 1)) head, h, freedNode).

(** ** Towers *)

Inductive peg := PegA | PegB | PegC.
#[export] Instance peg_eq_dec : EqDecision peg.
Proof. solve_decision. Defined.

(** [struct Towers] with the heap and the head of the free list. *)
Record Towers := mkTowers {
  numDiscs : Z; numMoves : Z; pegs : peg -> List; t_heap : heap; t_free : Z }.

Definition set_peg (p : peg) (l : List) (f : peg -> List) : peg -> List :=
  fun q => if decide (q = p) then l else f q.

Definition push (p : peg) (val : Z) (t : Towers) : Towers :=
  let '(l, h, free) := list_push (pegs t p) val (t_heap t) (t_free t) in
  mkTowers (numDiscs t) (numMoves t) (set_peg p l (pegs t)) h free.

Definition pop (p : peg) (t : Towers) : Z * Towers :=
  let '(v, l, h, free) := list_pop (pegs t p) (t_heap t) (t_free t) in
  (v, mkTowers (numDiscs t) (numMoves t) (set_peg p l (pegs t)) h free).

(** [while ( list_getSize(list) > 0 ) list_pop(list, ...)], with [fuel] tests. *)
Definition list_clear (fuel : nat) (p : peg) (t : Towers) : option Towers :=
  while fuel (fun t => 0 <? list_getSize (pegs t p)) (fun t => (pop p t).2) t.

(** The loop of [towers_init] for [i] from [n - todo] to [n - 1]. *)
Fixpoint push_discs (todo : nat) (t : Towers) : Towers :=
  match todo with
  | O => t
  | S todo => push_discs todo (push PegA (Z.of_nat (S todo)) t)
  end.

Definition towers_init (n : Z) (h : heap) (free : Z) : Towers :=
  push_discs (Z.to_nat n) (mkTowers n 0 (fun _ => list_init) h free).

Definition towers_clear (fuel : nat) (t : Towers) : option Towers :=
  t ← list_clear fuel PegA t;
  t ← list_clear fuel PegB t;
  t ← list_clear fuel PegC t;
  Some (towers_init (numDiscs t) (t_heap t) (t_free t)).

(** [towers_solve_h]; [None] when the recursion is deeper than [fuel]. *)
Fixpoint towers_solve_h (fuel : nat) (n : Z) (startPeg tempPeg destPeg : peg) (t : Towers)
    : option Towers :=
  match fuel with
  | O => None
  | S fuel =>
      if n =? 1 then
        let '(val, t) := pop startPeg t in
        let t := push destPeg val t in
        Some (mkTowers (numDiscs t) (s32 (numMoves t + 1)) (pegs t) (t_heap t) (t_free t))
      else
        t ← towers_solve_h fuel (n - 1) startPeg destPeg tempPeg t;
        t ← towers_solve_h fuel 1 startPeg tempPeg destPeg t;
        towers_solve_h fuel (n - 1) tempPeg startPeg destPeg t
  end.

Definition towers_solve (fuel : nat) (t : Towers) : option Towers :=
  towers_solve_h fuel (numDiscs t) PegA PegB PegC t.

(** The walk over peg C: [Some true] when the discs are numbered 1, 2, ... *)
Fixpoint walk (fuel : nat) (h : heap) (ptr numDiscs : Z) : option bool :=
  match fuel with
  | O => None
  | S fuel =>
      if ptr =? 0 then Some true
      else if negb (n_val h ptr =? numDiscs + 1) then Some false
      else walk fuel h (n_next h ptr) (numDiscs + 1)
  end.

Definition towers_verify (fuel : nat) (t : Towers) : option Z :=
  if negb (list_getSize (pegs t PegA) =? 0) then Some 2
  else if negb (list_getSize (pegs t PegB) =? 0) then Some 3
  else if negb (list_getSize (pegs t PegC) =? numDiscs t) then Some 4
  else
    ok ← walk fuel (t_heap t) (l_head (pegs t PegC)) 0;
    Some (if negb ok then 5
          else if negb (numMoves t =? s32 (s32 (Z.shiftl 1 (numDiscs t)) - 1)) then 6
          else 0).

(** The node pool of [main]: node [i] is at address [i + 1]. *)
Definition pool (NUM_DISCS : Z) : heap :=
  mkHeap (fun a => if a =? NUM_DISCS then 99 else a - 1) (fun a => if a =? NUM_DISCS then 0 else a + 1).

(** [main] without the preallocation: initialise, clear, solve, verify. *)
Definition main (fuel : nat) (NUM_DISCS : Z) : option Z :=
  let t := towers_init NUM_DISCS (pool NUM_DISCS) 1 in
  t ← towers_clear fuel t;
  t ← towers_solve fuel t;
  towers_verify fuel t.

(** ** Representation *)

(** The nodes from [a] on are at the addresses [l]. *)
Fixpoint chain (next : Z -> Z) (a : Z) (l : list Z) : Prop :=
  match l with
  | [] => a = 0
  | x :: l => a = x /\ x <> 0 /\ chain next (next x) l
  end.

(** The nodes of the pegs and of the free list are apart; peg [p] holds the discs [P p]. *)
Record rep (t : Towers) (P : peg -> list Z) (ad : peg -> list Z) (fr : list Z) : Prop := mkRep {
  rp_nodup : NoDup (ad PegA ++ ad PegB ++ ad PegC ++ fr);
  rp_chain : forall p, chain (n_next (t_heap t)) (l_head (pegs t p)) (ad p);
  rp_vals : forall p, map (n_val (t_heap t)) (ad p) = P p;
  rp_size : forall p, l_size (pegs t p) = Z.of_nat (length (P p)) /\ Z.of_nat (length (P p)) < 2 ^ 30;
  rp_free : chain (n_next (t_heap t)) (t_free t) fr }.

Definition set_list (p : peg) (l : list Z) (f : peg -> list Z) : peg -> list Z :=
  fun q => if decide (q = p) then l else f q.

Lemma chain_upd next a l b v : b ∉ l -> chain next a l -> chain (upd next b v) a l.
Proof.
  revert a. induction l as [|x l IH]; intros a Hb; simpl; [done|]. intros (-> & Hx & Hc).
  apply not_elem_of_cons in Hb as [Hb1 Hb2]. split_and!; try done. unfold upd at 2.
  destruct (Z.eqb_spec x b); [congruence|]. by apply IH.
Qed.

Lemma map_upd {A} (f : Z -> A) l b v : b ∉ l -> map (upd f b v) l = map f l.
Proof.
  intros Hb. apply map_ext_in. intros x Hx. unfold upd. destruct (Z.eqb_spec x b) as [->|]; [|done].
  destruct Hb. by apply list_elem_of_In.
Qed.

(** A node of one place is in no other. *)
Lemma rep_apart t P ad fr p a l :
  rep t P ad fr -> ad p = a :: l ->
  (a ∉ l) /\ (a ∉ fr) /\ (forall q, q <> p -> a ∉ ad q).
Proof.
  intros R E. pose proof (rp_nodup _ _ _ _ R) as Hn. rewrite !NoDup_app in Hn.
  setoid_rewrite elem_of_app in Hn. setoid_rewrite elem_of_app in Hn.
  destruct Hn as (HA & HAx & HB & HBx & HC & HCx & HF).
  assert (a ∈ ad p) as Hin by (rewrite E; by left).
  assert (NoDup (ad p)) as Hnd by (by destruct p). rewrite E, NoDup_cons in Hnd.
  split; [tauto|]. clear Hnd E. split; [destruct p; naive_solver|].
  intros q Hq Haq. destruct p, q; try done; naive_solver.
Qed.

Lemma rep_free_apart t P ad fr a :
  rep t P ad (a :: fr) -> (a ∉ fr) /\ forall q, a ∉ ad q.
Proof.
  intros R. pose proof (rp_nodup _ _ _ _ R) as Hn. rewrite !NoDup_app in Hn.
  setoid_rewrite elem_of_app in Hn. setoid_rewrite elem_of_app in Hn.
  destruct Hn as (HA & HAx & HB & HBx & HC & HCx & HF). apply NoDup_cons in HF as [HF _].
  split; [done|]. intros q Hq. assert (a ∈ a :: fr) by by left. destruct q; naive_solver.
Qed.

Lemma nodup_move p a l ad fr :
  NoDup (ad PegA ++ ad PegB ++ ad PegC ++ fr) -> ad p = a :: l ->
  NoDup (set_list p l ad PegA ++ set_list p l ad PegB ++ set_list p l ad PegC ++ a :: fr).
Proof.
  intros Hn E. unfold set_list. destruct p; simpl; rewrite E in Hn; simpl in Hn;
    (eapply NoDup_Permutation_proper; [|exact Hn]); by rewrite <-!Permutation_middle.
Qed.

Lemma nodup_move_back p a ad fr :
  NoDup (ad PegA ++ ad PegB ++ ad PegC ++ a :: fr) ->
  NoDup (set_list p (a :: ad p) ad PegA ++ set_list p (a :: ad p) ad PegB ++
         set_list p (a :: ad p) ad PegC ++ fr).
Proof.
  intros Hn. unfold set_list. destruct p; simpl;
    (eapply NoDup_Permutation_proper; [|exact Hn]); by rewrite <-?app_comm_cons, <-!Permutation_middle.
Qed.

(** [list_pop] takes the top disc and gives its node to the free list. *)
Lemma rep_pop t P ad fr p v d :
  rep t P ad fr -> P p = v :: d ->
  (pop p t).1 = v /\ numMoves (pop p t).2 = numMoves t /\ numDiscs (pop p t).2 = numDiscs t /\
  exists a l, ad p = a :: l /\ rep (pop p t).2 (set_list p d P) (set_list p l ad) (a :: fr).
Proof.
  intros R HP. pose proof (rp_vals _ _ _ _ R p) as Hv. rewrite HP in Hv.
  destruct (ad p) as [|a l] eqn:E; [done|]. simpl in Hv. injection Hv as Hva Hvl.
  pose proof (rp_chain _ _ _ _ R p) as Hc. rewrite E in Hc. destruct Hc as (Hh & H0 & Hc).
  destruct (rep_apart _ _ _ _ _ _ _ R E) as (Hl & Hf & Hq).
  unfold pop, list_pop. simpl. rewrite Hh, Hva. split_and!; try done.
  exists a, l. split; [done|]. destruct R as [Hn Hch Hvs Hs Hfree]. split; simpl.
  - by apply nodup_move.
  - intros q. unfold set_list, set_peg. destruct (decide (q = p)) as [->|Hne]; simpl;
      apply chain_upd; auto.
  - intros q. unfold set_list. destruct (decide (q = p)) as [->|Hne]; [done|]. apply Hvs.
  - intros q. unfold set_list, set_peg. destruct (decide (q = p)) as [->|Hne]; simpl; [|apply Hs].
    destruct (Hs p) as [Hs1 Hs2]. rewrite HP in Hs1, Hs2. simpl in *. rewrite wrapS_small by lia. lia.
  - split_and!; try done. unfold upd at 2. rewrite Z.eqb_refl. by apply chain_upd.
Qed.

Lemma rep_push t P ad fr p v a :
  rep t P ad (a :: fr) -> Z.of_nat (length (P p)) + 1 < 2 ^ 30 ->
  numMoves (push p v t) = numMoves t /\ numDiscs (push p v t) = numDiscs t /\
  rep (push p v t) (set_list p (v :: P p) P) (set_list p (a :: ad p) ad) fr.
Proof.
  intros R Hb. destruct (rep_free_apart _ _ _ _ _ R) as [Hf Hq].
  destruct R as [Hn Hch Hvs Hs (Hh & H0 & Hfree)].
  unfold push, list_push. simpl. rewrite Hh. split_and!; try done. split; simpl.
  - by apply nodup_move_back.
  - intros q. unfold set_list, set_peg. destruct (decide (q = p)) as [->|Hne]; simpl.
    + split_and!; try done. unfold upd at 2. rewrite Z.eqb_refl. apply chain_upd; auto.
    + apply chain_upd; auto.
  - intros q. unfold set_list. destruct (decide (q = p)) as [->|Hne]; simpl.
    + rewrite map_upd by auto. unfold upd. by rewrite Z.eqb_refl, Hvs.
    + rewrite map_upd by auto. apply Hvs.
  - intros q. unfold set_list, set_peg. destruct (decide (q = p)) as [->|Hne]; simpl; [|apply Hs].
    destruct (Hs p) as [Hs1 Hs2]. rewrite Hs1, wrapS_small by lia. lia.
  - by apply chain_upd.
Qed.

(** ** The solver *)

(** [t] holds the discs [P], with [k] free nodes. *)
Definition holds_discs (t : Towers) (P : peg -> list Z) (k : nat) : Prop :=
  exists ad fr, rep t P ad fr /\ length fr = k.

Lemma holds_ext t P P' k : (forall p, P p = P' p) -> holds_discs t P k -> holds_discs t P' k.
Proof.
  intros E (ad & fr & [Hn Hc Hv Hs Hf] & Hl). exists ad, fr. split; [|done].
  split; try done; intros p; rewrite <-E; auto.
Qed.

(** Moving the top disc. *)
Lemma solve_one fuel s m d t P v l k :
  s <> d -> holds_discs t P k -> P s = v :: l -> Z.of_nat (length (P d)) + 1 < 2 ^ 30 ->
  exists t', towers_solve_h (S fuel) 1 s m d t = Some t' /\
    holds_discs t' (set_list d (v :: P d) (set_list s l P)) k /\
    numMoves t' = s32 (numMoves t + 1) /\ numDiscs t' = numDiscs t.
Proof.
  intros Hsd (ad & fr & R & Hl) HP Hb. destruct (rep_pop t P ad fr s v l R HP) as (Ev & Em & Ed & a & la & Ea & R1).
  cbn [towers_solve_h Z.eqb Pos.eqb]. destruct (pop s t) as [v' t1]. cbn [fst snd] in *. subst v'.
  assert (set_list s l P d = P d) as EP.
  { unfold set_list. by rewrite decide_False by congruence. }
  destruct (rep_push t1 _ _ fr d v a R1) as (Em2 & Ed2 & R2); [by rewrite EP|].
  eexists. split; [reflexivity|]. cbn [numMoves numDiscs]. rewrite Em2, Ed2, Em, Ed. split; [|done].
  rewrite EP in R2. destruct R2 as [H1 H2 H3 H4 H5].
  exists (set_list d (a :: set_list s la ad d) (set_list s la ad)), fr. split; [|done]. by split.
Qed.

Definition sum_ok (P : peg -> list Z) : Prop :=
  Z.of_nat (length (P PegA) + length (P PegB) + length (P PegC)) < 2 ^ 29.

Lemma sum_ok_move P s d top l :
  s <> d -> P s = top ++ l -> sum_ok P -> sum_ok (set_list d (top ++ P d) (set_list s l P)).
Proof.
  unfold sum_ok, set_list. intros Hsd HP.
  destruct s, d; try done; simpl; rewrite HP, ?length_app; lia.
Qed.

Lemma pow_moves n m : (0 < n)%nat -> 0 <= m -> m + 2 ^ Z.of_nat n < 2 ^ 31 ->
  m + 2 ^ Z.of_nat (pred n) < 2 ^ 31 /\ 2 ^ Z.of_nat n = 2 * 2 ^ Z.of_nat (pred n).
Proof.
  intros Hn Hm Hb. assert (2 ^ Z.of_nat n = 2 * 2 ^ Z.of_nat (pred n)) as E.
  { rewrite <-Z.pow_succ_r by lia. f_equal. lia. }
  pose proof (Z.pow_pos_nonneg 2 (Z.of_nat (pred n)) ltac:(lia) ltac:(lia)). lia.
Qed.

(** The recursion moves the top [n] discs in [2 ^ n - 1] moves. *)
Lemma solve_spec n : (0 < n)%nat -> forall fuel s m d t P top l k,
  s <> d -> s <> m -> m <> d -> (n <= fuel)%nat ->
  holds_discs t P k -> P s = top ++ l -> length top = n -> sum_ok P ->
  0 <= numMoves t -> numMoves t + 2 ^ Z.of_nat n < 2 ^ 31 ->
  exists t', towers_solve_h fuel (Z.of_nat n) s m d t = Some t' /\
    holds_discs t' (set_list d (top ++ P d) (set_list s l P)) k /\
    numMoves t' = numMoves t + 2 ^ Z.of_nat n - 1 /\ numDiscs t' = numDiscs t.
Proof.
  induction n as [|n IH]; [lia|]. intros _ fuel s m d t P top l k Hsd Hsm Hmd Hf R HP Ht Hok Hm0 Hb.
  destruct fuel as [|fuel]; [lia|]. destruct (decide (n = 0)%nat) as [->|Hn].
  - destruct top as [|v [|]]; try done.
    assert (Z.of_nat (length (P d)) + 1 < 2 ^ 30) by (unfold sum_ok in Hok; destruct d; lia).
    destruct (solve_one fuel s m d t P v l k) as (t' & E & R' & Em & Ed); try done.
    exists t'. split; [exact E|]. split; [done|]. split; [|done]. rewrite Em, wrapS_small; lia.
  - destruct (pow_moves (S n) (numMoves t) ltac:(lia) Hm0 Hb) as [Hb1 E2]. simpl pred in *.
    assert (exists top' v, top = top' ++ [v] /\ length top' = n) as (top' & v & -> & Ht').
    { destruct top as [|x top _] using rev_ind; [done|]. exists top, x. rewrite length_app in Ht.
      simpl in Ht. split; [done|lia]. }
    rewrite <-app_assoc in HP. simpl in HP. cbn [towers_solve_h].
    destruct (Z.eqb_spec (Z.of_nat (S n)) 1); [lia|].
    replace (Z.of_nat (S n) - 1) with (Z.of_nat n) by lia.
    destruct (IH ltac:(lia) fuel s d m t P top' (v :: l) k) as (t1 & -> & R1 & Em1 & Ed1);
      try done; try lia.
    cbn [mbind option_bind]. set (P1 := set_list m (top' ++ P m) (set_list s (v :: l) P)) in *.
    assert (sum_ok P1) as Hok1 by (by apply (sum_ok_move P s m top' (v :: l))).
    destruct fuel as [|fuel]; [lia|].
    assert (P1 s = v :: l) as HP1 by (unfold P1, set_list; by rewrite decide_False, decide_True).
    destruct (solve_one fuel s m d t1 P1 v l k) as (t2 & -> & R2 & Em2 & Ed2); try done.
    { unfold sum_ok in Hok1. destruct d; lia. }
    cbn [mbind option_bind]. set (P2 := set_list d (v :: P1 d) (set_list s l P1)) in *.
    assert (sum_ok P2) as Hok2 by (by apply (sum_ok_move P1 s d [v] l)).
    assert (P2 m = top' ++ P m) as HP2.
    { unfold P2, P1, set_list. rewrite !decide_False by congruence. by rewrite decide_True. }
    rewrite Em1 in Em2. rewrite wrapS_small in Em2 by lia.
    destruct (IH ltac:(lia) (S fuel) m s d t2 P2 top' (P m) k) as (t3 & -> & R3 & Em3 & Ed3);
      try done; try lia.
    exists t3. split; [done|]. split; [|split; [lia|congruence]].
    eapply holds_ext; [|exact R3]. intros q. unfold P2, P1, set_list.
    repeat case_decide; subst; try congruence; by rewrite <-app_assoc.
Qed.

(** ** Initialisation, clearing and verification *)

Lemma chain_seq n f a k :
  (forall x, f x = if x =? n then 0 else x + 1) -> 0 < a -> a + Z.of_nat k = n + 1 -> (0 < k)%nat ->
  chain f a (seqZ a (Z.of_nat k)).
Proof.
  intros Hf. revert a. induction k as [|k IH]; intros a Ha Hk Hp; [lia|].
  rewrite seqZ_cons by lia. replace (Z.pred (Z.of_nat (S k))) with (Z.of_nat k) by lia.
  split_and!; [done|lia|]. rewrite Hf, Z.add_1_r. destruct (Z.eqb_spec a n) as [->|].
  - destruct k; [done|lia].
  - apply IH; lia.
Qed.

Lemma blank_holds n d :
  0 < n -> holds_discs (mkTowers d 0 (fun _ => list_init) (pool n) 1) (fun _ => []) (Z.to_nat n).
Proof.
  intros Hn. exists (fun _ => []), (seqZ 1 n). split; [|by rewrite length_seqZ].
  split; simpl; try done. { apply NoDup_seqZ. }
  pose proof (chain_seq n (n_next (pool n)) 1 (Z.to_nat n)) as H. rewrite Z2Nat.id in H by lia.
  apply H; [done|lia..].
Qed.

Lemma push_discs_spec todo : forall t P k,
  holds_discs t P (todo + k) -> Z.of_nat (length (P PegA) + todo) < 2 ^ 30 ->
  holds_discs (push_discs todo t) (set_list PegA (seqZ 1 (Z.of_nat todo) ++ P PegA) P) k /\
  numMoves (push_discs todo t) = numMoves t /\ numDiscs (push_discs todo t) = numDiscs t.
Proof.
  induction todo as [|todo IH]; intros t P k R Hb.
  - split; [|done]. eapply holds_ext; [|exact R]. intros p. unfold set_list. by case_decide; subst.
  - cbn [push_discs]. destruct R as (ad & fr & R & Hl). destruct fr as [|a fr]; [done|].
    destruct (rep_push t P ad fr PegA (Z.of_nat (S todo)) a R ltac:(lia)) as (Em & Ed & R').
    destruct (IH (push PegA (Z.of_nat (S todo)) t) (set_list PegA (Z.of_nat (S todo) :: P PegA) P) k)
      as (R2 & Em2 & Ed2).
    + exists (set_list PegA (a :: ad PegA) ad), fr. split; [done|]. simpl in Hl. lia.
    + unfold set_list. simpl. lia.
    + split; [|split; congruence]. eapply holds_ext; [|exact R2]. intros p. unfold set_list.
      case_decide; [|done]. simpl. replace (Z.of_nat (S todo)) with (Z.of_nat todo + 1) by lia.
      rewrite seqZ_snoc, <-app_assoc by lia. cbn [app].
      by replace (Z.of_nat todo + 1) with (1 + Z.of_nat todo) by lia.
Qed.

Lemma set_list_eq p l P : set_list p l P p = l.
Proof. unfold set_list. by rewrite decide_True. Qed.

Lemma list_clear_spec fuel p : forall t P k,
  holds_discs t P k -> (length (P p) < fuel)%nat ->
  exists t', list_clear fuel p t = Some t' /\ numDiscs t' = numDiscs t /\
    holds_discs t' (set_list p [] P) (length (P p) + k).
Proof.
  induction fuel as [|fuel IH]; intros t P k R Hf; [lia|]. unfold list_clear. cbn [while].
  destruct R as (ad & fr & R & Hl). destruct (rp_size _ _ _ _ R p) as [Hs _].
  unfold list_getSize at 1. rewrite Hs. destruct (P p) as [|v d] eqn:HP.
  - exists t. split_and!; try done. apply (holds_ext t P).
    + intros q. unfold set_list. case_decide; congruence.
    + exists ad, fr. auto.
  - cbn [length]. rewrite (proj2 (Z.ltb_lt 0 (Z.of_nat _))) by lia.
    destruct (rep_pop t P ad fr p v d R HP) as (_ & _ & Ed & a & l & _ & R').
    destruct (IH (pop p t).2 (set_list p d P) (S k)) as (t' & E & Ed' & R2).
    + eexists _, (a :: fr). split; [exact R'|]. simpl. lia.
    + rewrite set_list_eq. simpl in Hf. lia.
    + exists t'. split; [exact E|]. split; [congruence|].
      rewrite set_list_eq in R2.
      replace (S (length d) + k)%nat with (length d + S k)%nat by lia.
      eapply holds_ext; [|exact R2]. intros q. unfold set_list. by case_decide.
Qed.

Lemma towers_init_spec n h free d :
  0 <= n < 2 ^ 29 ->
  holds_discs (mkTowers d 0 (fun _ => list_init) h free) (fun _ => []) (Z.to_nat n) ->
  holds_discs (towers_init n h free) (set_list PegA (seqZ 1 n) (fun _ => [])) 0 /\
  numMoves (towers_init n h free) = 0 /\ numDiscs (towers_init n h free) = n.
Proof.
  intros Hn (ad & fr & [H1 H2 H3 H4 H5] & Hl).
  destruct (push_discs_spec (Z.to_nat n) (mkTowers n 0 (fun _ => list_init) h free) (fun _ => []) 0)
    as (R & Em & Ed).
  - exists ad, fr. split; [by split|lia].
  - simpl. lia.
  - split; [|done]. eapply holds_ext; [|exact R]. intros p. unfold set_list.
    case_decide; [|done]. rewrite app_nil_r. f_equal. lia.
Qed.

(** A tower without discs whose heads are null can be re-initialised. *)
Lemma holds_empty t k :
  holds_discs t (fun _ => []) k ->
  holds_discs (mkTowers (numDiscs t) 0 (fun _ => list_init) (t_heap t) (t_free t)) (fun _ => []) k.
Proof.
  intros (ad & fr & [H1 H2 H3 H4 H5] & Hl). exists ad, fr. split; [|done].
  assert (forall p, ad p = []) as E by (intros p; specialize (H3 p); by destruct (ad p)).
  split; simpl; try done. intros p. by rewrite E.
Qed.

Lemma towers_clear_spec fuel t n :
  0 <= n < 2 ^ 29 -> numDiscs t = n -> (Z.to_nat n < fuel)%nat ->
  holds_discs t (set_list PegA (seqZ 1 n) (fun _ => [])) 0 ->
  exists t', towers_clear fuel t = Some t' /\ numMoves t' = 0 /\ numDiscs t' = n /\
    holds_discs t' (set_list PegA (seqZ 1 n) (fun _ => [])) 0.
Proof.
  intros Hn Hd Hf R. unfold towers_clear.
  destruct (list_clear_spec fuel PegA _ _ _ R) as (t1 & -> & E1 & R1).
  { rewrite set_list_eq, length_seqZ. lia. }
  rewrite set_list_eq, length_seqZ, Nat.add_0_r in R1. cbn [mbind option_bind].
  destruct (list_clear_spec fuel PegB _ _ _ R1) as (t2 & -> & E2 & R2); [simpl; lia|].
  cbn [mbind option_bind].
  destruct (list_clear_spec fuel PegC _ _ _ R2) as (t3 & -> & E3 & R3); [simpl; lia|].
  cbn [mbind option_bind]. eexists. split; [reflexivity|].
  assert (holds_discs t3 (fun _ => []) (Z.to_nat n)) as R4.
  { eapply holds_ext; [|exact R3]. intros []; reflexivity. }
  apply holds_empty in R4.
  destruct (towers_init_spec (numDiscs t3) (t_heap t3) (t_free t3) (numDiscs t3)) as (R5 & Em & Ed).
  - by rewrite E3, E2, E1, Hd.
  - rewrite E3, E2, E1, Hd in *. done.
  - rewrite E3, E2, E1, Hd in *. done.
Qed.

Lemma walk_spec fuel h n : forall a l d,
  chain (n_next h) a l -> map (n_val h) l = seqZ (d + 1) (Z.of_nat n) -> (n < fuel)%nat ->
  walk fuel h a d = Some true.
Proof.
  revert n. induction fuel as [|fuel IH]; intros n a l d Hc Hv Hf; [lia|]. simpl.
  destruct l as [|x l]; simpl in *; [by subst|]. destruct Hc as (-> & Hx & Hc).
  destruct n as [|n]; [done|]. rewrite seqZ_cons in Hv by lia. injection Hv as Hv Hvl.
  destruct (Z.eqb_spec x 0); [done|]. rewrite Hv, Z.eqb_refl. simpl.
  replace (Z.succ (d + 1)) with (d + 1 + 1) in Hvl by lia.
  replace (Z.pred (Z.of_nat (S n))) with (Z.of_nat n) in Hvl by lia. eapply IH; [done|exact Hvl|lia].
Qed.

(** the program solves the puzzle: for 1 to 30 discs and any fuel above the number of
    discs, the recursion returns, the linked lists stay intact, and the program's own
    verification of the final state (all discs on peg C in order, [2 ^ n - 1] moves)
    returns 0. *)
Theorem towers_correct n fuel :
  0 < n <= 30 -> (Z.to_nat n < fuel)%nat -> main fuel n = Some 0.
Proof.
  intros Hn Hf. unfold main.
  assert (2 ^ n <= 2 ^ 30) as Hpow by (apply Z.pow_le_mono_r; lia).
  destruct (towers_init_spec n (pool n) 1 n) as (R0 & _ & Ed0); [lia|by apply blank_holds; lia|].
  destruct (towers_clear_spec fuel (towers_init n (pool n) 1) n) as (t1 & -> & Em1 & Ed1 & R1);
    try done; [lia|]. cbn [mbind option_bind]. unfold towers_solve. rewrite Ed1.
  pose proof (solve_spec (Z.to_nat n) ltac:(lia) fuel PegA PegB PegC t1 _ (seqZ 1 n) [] 0%nat
    ltac:(done) ltac:(done) ltac:(done) ltac:(lia) R1) as Hsolve.
  rewrite !Z2Nat.id in Hsolve by lia.
  destruct Hsolve as (t2 & -> & (ad & fr & R2 & _) & Em2 & Ed2).
  - unfold set_list. simpl. by rewrite app_nil_r.
  - by rewrite length_seqZ.
  - unfold sum_ok, set_list. simpl. rewrite length_seqZ. lia.
  - lia.
  - rewrite Em1. lia.
  - cbn [mbind option_bind]. unfold towers_verify, list_getSize.
    rewrite !(proj1 (rp_size _ _ _ _ R2 _)). unfold set_list. simpl.
    rewrite length_app, length_seqZ, Nat.add_0_r, Z2Nat.id, Ed2, Ed1, Z.eqb_refl by lia. simpl.
    rewrite (walk_spec fuel (t_heap t2) (Z.to_nat n) _ (ad PegC) 0); [|apply R2| |lia].
    + cbn [mbind option_bind negb]. rewrite Em2, Em1, Z.shiftl_1_l.
      rewrite (wrapS_small 32 (2 ^ n)), wrapS_small by lia.
      by rewrite (proj2 (Z.eqb_eq _ _)) by lia.
    + rewrite (rp_vals _ _ _ _ R2). unfold set_list. simpl. rewrite app_nil_r. f_equal. lia.
Qed.

Lemma towers_correct_witness : main 5 4 = Some 0.
Proof. exact (towers_correct 4 5 ltac:(lia) ltac:(simpl; lia)). Defined.
