(* ===== verification/DramCommon.v ===== *)
(** * Vocabulary of the DRAM simulator

    [DRAMSIM3/src/common.h] and [common.cc]: addresses, command types, commands and
    transactions, the bit helpers, and the ways the simulator stops ([AbruptExit], [exit(1)],
    an exception, a vector access outside its bounds). *)
From S2P Require Import Prelude.
From stdpp Require Export sets strings.
Local Open Scope Z_scope.

(** ** How a run can stop *)

(** [AbruptExit] is [common.cc]'s own exit; [ExitFailure] a direct [exit(1)]; [Uncaught] a
    C++ exception nobody catches ([std::map::at]); [BadIndex] an access outside a vector;
    [DivZero] an integer division by zero; [AssertFailed] an [assert]; [BadConversion] a
    floating-point value converted to an integer type that cannot hold it; [Aborted] a call of
    [abort]. *)
Inductive stop :=
| AbruptExit | ExitFailure | Uncaught | BadIndex | DivZero | AssertFailed | BadConversion
| Aborted.

Abbreviation M := (res stop).

#[export] Instance stop_eq_dec : EqDecision stop.
Proof. solve_decision. Defined.

(** ** Vectors *)

(** [v[i]] and [v[i] = x] on a [std::vector], with an [int] index. *)
Definition vget {A} (v : list A) (i : Z) : M A :=
  if i <? 0 then Err BadIndex
  else match v !! Z.to_nat i with Some x => Ok x | None => Err BadIndex end.

Definition vset {A} (v : list A) (i : Z) (x : A) : M (list A) :=
  if (i <? 0) || (Z.of_nat (length v) <=? i) then Err BadIndex
  else Ok (<[Z.to_nat i := x]> v).

(** [v[i] = f(v[i])]. *)
Definition vmod {A} (v : list A) (i : Z) (f : A -> M A) : M (list A) :=
  x ← vget v i; y ← f x; vset v i y.

(** ** Loops *)

(** [for (i : l) body]. *)
Fixpoint forM {I S} (l : list I) (body : I -> S -> M S) (s : S) : M S :=
  match l with
  | [] => Ok s
  | i :: l => s' ← body i s; forM l body s'
  end.

(** The same with a body that may return from the function ([inl]). *)
Fixpoint forR {I S R} (l : list I) (body : I -> S -> M (R + S)) (s : S) : M (R + S) :=
  match l with
  | [] => Ok (inr s)
  | i :: l =>
      r ← body i s;
      match r with inl v => Ok (inl v) | inr s' => forR l body s' end
  end.

(** ** Addresses and commands *)

Record Address := mkAddress {
  channel : Z; rank : Z; bankgroup : Z; bank : Z; row : Z; column : Z }.

(** [Address()]. *)
Definition noAddress : Address := mkAddress (-1) (-1) (-1) (-1) (-1) (-1).

Inductive CommandType :=
| READ | READ_PRECHARGE | WRITE | WRITE_PRECHARGE | ACTIVATE | PRECHARGE
| REFRESH_BANK | REFRESH | SREF_ENTER | SREF_EXIT | CT_SIZE.

#[export] Instance Address_eq_dec : EqDecision Address.
Proof. solve_decision. Defined.
#[export] Instance CommandType_eq_dec : EqDecision CommandType.
Proof. solve_decision. Defined.

(** [static_cast<int>(CommandType)]. *)
Definition ct_index (t : CommandType) : Z :=
  match t with
  | READ => 0 | READ_PRECHARGE => 1 | WRITE => 2 | WRITE_PRECHARGE => 3 | ACTIVATE => 4
  | PRECHARGE => 5 | REFRESH_BANK => 6 | REFRESH => 7 | SREF_ENTER => 8 | SREF_EXIT => 9
  | CT_SIZE => 10
  end.

Definition ct_eqb (a b : CommandType) : bool := bool_decide (a = b).

Record Command := mkCommand { cmd_type : CommandType; addr : Address; hex_addr : Z }.

#[export] Instance Command_eq_dec : EqDecision Command.
Proof. solve_decision. Defined.

(** [Command()]. *)
Definition noCommand : Command := mkCommand CT_SIZE noAddress 0.

Definition IsValid (c : Command) : bool := negb (ct_eqb (cmd_type c) CT_SIZE).
Definition IsRefresh (c : Command) : bool :=
  ct_eqb (cmd_type c) REFRESH || ct_eqb (cmd_type c) REFRESH_BANK.
Definition IsRead (c : Command) : bool :=
  ct_eqb (cmd_type c) READ || ct_eqb (cmd_type c) READ_PRECHARGE.
Definition IsWrite (c : Command) : bool :=
  ct_eqb (cmd_type c) WRITE || ct_eqb (cmd_type c) WRITE_PRECHARGE.
Definition IsReadWrite (c : Command) : bool := IsRead c || IsWrite c.
Definition IsRankCMD (c : Command) : bool :=
  ct_eqb (cmd_type c) REFRESH || ct_eqb (cmd_type c) SREF_ENTER
  || ct_eqb (cmd_type c) SREF_EXIT.

Definition Channel (c : Command) : Z := channel (addr c).
Definition Rank (c : Command) : Z := rank (addr c).
Definition Bankgroup (c : Command) : Z := bankgroup (addr c).
Definition Bank (c : Command) : Z := bank (addr c).
Definition Row (c : Command) : Z := row (addr c).
Definition Column (c : Command) : Z := column (addr c).

Record Transaction := mkTransaction {
  t_addr : Z; added_cycle : Z; complete_cycle : Z; is_write : bool }.

#[export] Instance Transaction_eq_dec : EqDecision Transaction.
Proof. solve_decision. Defined.

(** [Transaction(addr, is_write)]. *)
Definition newTransaction (a : Z) (w : bool) : Transaction := mkTransaction a 0 0 w.

Definition set_added (t : Transaction) (c : Z) : Transaction :=
  mkTransaction (t_addr t) c (complete_cycle t) (is_write t).
Definition set_complete (t : Transaction) (c : Z) : Transaction :=
  mkTransaction (t_addr t) (added_cycle t) c (is_write t).

(** ** Bit helpers *)

(** [uint32_t ModuloWidth(uint64_t addr, uint32_t bit_width, uint32_t pos)]. *)
Definition ModuloWidth (a bit_width pos : Z) : Z :=
  let a := Z.shiftr a pos in
  let store := a in
  let a := Z.shiftr a bit_width in
  let a := u64 (Z.shiftl a bit_width) in
  u32 (Z.lxor store a).

(** [int GetBitInPos(uint64_t bits, int pos)]. *)
Definition GetBitInPos (bits pos : Z) : Z := Z.land (Z.shiftr bits pos) 1.

(** [LogBase2]: the loop halves an [int], so it makes at most 31 turns. *)
Fixpoint log_base2 (fuel : nat) (power_of_two i : Z) : Z :=
  match fuel with
  | O => i
  | S fuel =>
      if power_of_two >? 1 then log_base2 fuel (Z.quot power_of_two 2) (i + 1) else i
  end.
Definition LogBase2 (power_of_two : Z) : Z := log_base2 31 power_of_two 0.

(** ** Vector and loop lemmas *)

Lemma vget_Ok {A} (v : list A) i x :
  vget v i = Ok x <-> 0 <= i /\ v !! Z.to_nat i = Some x.
Proof.
  unfold vget. destruct (Z.ltb_spec i 0); [split; [done|lia]|].
  destruct (v !! Z.to_nat i) eqn:E; naive_solver.
Qed.

Lemma vget_in_range {A} (v : list A) i :
  0 <= i < Z.of_nat (length v) -> exists x, vget v i = Ok x.
Proof.
  intros. destruct (lookup_lt_is_Some_2 v (Z.to_nat i)) as [x Hx]; [lia|].
  exists x. apply vget_Ok. split; [lia|done].
Qed.

Lemma vget_range {A} (v : list A) i x : vget v i = Ok x -> 0 <= i < Z.of_nat (length v).
Proof. rewrite vget_Ok. intros [? ?%lookup_lt_Some]. lia. Qed.

Lemma vset_Ok {A} (v : list A) i x :
  0 <= i < Z.of_nat (length v) -> vset v i x = Ok (<[Z.to_nat i := x]> v).
Proof. intros. unfold vset. split_cmp; try lia. done. Qed.

Lemma vset_inv {A} (v v' : list A) i x :
  vset v i x = Ok v' -> 0 <= i < Z.of_nat (length v) /\ v' = <[Z.to_nat i := x]> v.
Proof.
  unfold vset. destruct (Z.ltb_spec i 0), (Z.leb_spec (Z.of_nat (length v)) i);
    simpl; naive_solver lia.
Qed.

Lemma vset_length {A} (v v' : list A) i x : vset v i x = Ok v' -> length v' = length v.
Proof. intros [_ ->]%vset_inv. apply length_insert. Qed.

Lemma vget_vset {A} (v v' : list A) i j x :
  vset v i x = Ok v' -> vget v' j = if j =? i then Ok x else vget v j.
Proof.
  intros [Hi ->]%vset_inv. unfold vget. destruct (Z.ltb_spec j 0), (Z.eqb_spec j i); try lia; try done.
  - subst. rewrite list_lookup_insert_eq by lia. done.
  - rewrite list_lookup_insert_ne by lia. done.
Qed.

Lemma vmod_inv {A} (v v' : list A) i f :
  vmod v i f = Ok v' -> exists x y, vget v i = Ok x /\ f x = Ok y /\ vset v i y = Ok v'.
Proof.
  unfold vmod. destruct (vget v i) as [x| |] eqn:E; try done. simpl.
  destruct (f x) as [y| |] eqn:E'; try done. simpl. eauto.
Qed.

Lemma vmod_Ok {A} (v : list A) i x y f :
  vget v i = Ok x -> f x = Ok y -> exists v', vmod v i f = Ok v' /\ vset v i y = Ok v'.
Proof.
  intros Hx Hf. unfold vmod. rewrite Hx. simpl. rewrite Hf. simpl.
  rewrite vset_Ok by (by eapply vget_range). eauto.
Qed.

Lemma forM_app {I S} (l k : list I) (body : I -> S -> M S) s :
  forM (l ++ k) body s = (s' ← forM l body s; forM k body s').
Proof.
  revert s. induction l as [|i l IH]; intros s; [done|].
  simpl. destruct (body i s); simpl; [apply IH|done..].
Qed.

(** Total correctness of a loop over a list. *)
Lemma forM_rule {I S} (P : list I -> S -> Prop) (body : I -> S -> M S) l :
  (forall i k s, P (i :: k) s -> i ∈ l -> exists s', body i s = Ok s' /\ P k s') ->
  forall s, P l s -> exists s', forM l body s = Ok s' /\ P [] s'.
Proof.
  assert (forall k, k ⊆ l ->
    (forall i k s, P (i :: k) s -> i ∈ l -> exists s', body i s = Ok s' /\ P k s') ->
    forall s, P k s -> exists s', forM k body s = Ok s' /\ P [] s') as Hgen.
  { intros k Hk Hb. induction k as [|i k IH]; intros s Hs; [by exists s|].
    destruct (Hb i k s Hs) as (s' & E & Hs'); [set_solver|]. simpl. rewrite E.
    apply IH; [set_solver|done]. }
  intros. by apply (Hgen l).
Qed.

(** An invariant of a loop. *)
Lemma forM_inv {I S} (P : S -> Prop) (body : I -> S -> M S) l s :
  (forall i s, i ∈ l -> P s -> exists s', body i s = Ok s' /\ P s') ->
  P s -> exists s', forM l body s = Ok s' /\ P s'.
Proof. intros Hb HP. apply (forM_rule (fun _ => P)); eauto. Qed.

(** Partial correctness: what a loop that ends keeps. *)
Lemma forM_keeps {I S} (P : S -> Prop) (body : I -> S -> M S) l s s' :
  (forall i s s', i ∈ l -> P s -> body i s = Ok s' -> P s') ->
  P s -> forM l body s = Ok s' -> P s'.
Proof.
  revert s. induction l as [|i l IH]; intros s Hb HP E; simpl in E; [naive_solver|].
  destruct (body i s) as [s1| |] eqn:Es; try done. simpl in E.
  eapply IH; [|eapply Hb, Es; [set_solver|done]|done]. intros; eapply Hb; eauto; set_solver.
Qed.

Lemma elem_of_range i n : i ∈ seqZ 0 n <-> 0 <= i < n.
Proof. rewrite elem_of_seqZ. lia. Qed.

(** ** Bit helpers *)

(** The masked field: for shifts below the word size, [ModuloWidth] is the [bit_width] bits of
    the address from [pos] on, cut to 32 bits. *)
Lemma ModuloWidth_spec a w p :
  0 <= a < 2 ^ 64 -> 0 <= w < 64 -> 0 <= p < 64 ->
  ModuloWidth a w p = u32 ((a / 2 ^ p) mod 2 ^ w).
Proof.
  intros Ha Hw Hp. unfold ModuloWidth. f_equal.
  rewrite <-(Z.shiftr_div_pow2 a p), <-Z.land_ones by lia.
  apply Z.bits_inj'. intros i Hi.
  autorewrite with bits. rewrite Z.testbit_ones_nonneg by lia.
  destruct (Z.ltb_spec i w).
  - rewrite (Z.testbit_neg_r _ (i - w)) by lia. rewrite andb_false_r. by rewrite xorb_false_r, andb_true_r.
  - rewrite andb_false_r. rewrite Z.shiftr_spec by lia. replace (i - w + w) with i by lia. rewrite Z.shiftr_spec by lia.
    destruct (Z.ltb_spec i 64).
    + by rewrite andb_true_l, xorb_nilpotent.
    + rewrite (testbit_high a 64) by lia. done.
Qed.

Lemma log_base2_spec fuel p i :
  1 <= p < 2 ^ Z.of_nat fuel -> log_base2 fuel p i = i + Z.log2 p.
Proof.
  revert p i. induction fuel as [|fuel IH]; intros p i Hp; [simpl in *; lia|].
  cbn [log_base2]. rewrite Z.gtb_ltb. destruct (Z.ltb_spec 1 p).
  - rewrite Nat2Z.inj_succ, Z.pow_succ_r in Hp by lia.
    rewrite IH by (Z.to_euclidean_division_equations; lia).
    rewrite Z.quot_div_nonneg by lia.
    change 2 with (2 ^ 1) at 1. rewrite <-Z.shiftr_div_pow2, Z.log2_shiftr by lia.
    pose proof (Z.log2_pos p). lia.
  - assert (p = 1) as -> by lia. simpl. lia.
Qed.

(** [LogBase2] is the integer logarithm of every positive [int]. *)
Lemma LogBase2_spec p : 1 <= p < 2 ^ 31 -> LogBase2 p = Z.log2 p.
Proof. intros. unfold LogBase2. rewrite log_base2_spec by (simpl; lia). lia. Qed.

Lemma ct_eqb_true a b : ct_eqb a b = true <-> a = b.
Proof. apply bool_decide_eq_true. Qed.

(** Evaluate the predicates on command types by cases on the type. *)
Ltac cmd_cases t := destruct t; simpl in *; try done; try congruence.

(** Run a successful chain of monadic steps backwards. *)
Ltac run_ok H :=
  repeat match type of H with
  | mbind _ ?m = Ok _ =>
      let x := fresh "x" in let E := fresh "E" in
      destruct m as [x| |] eqn:E; [|discriminate H|discriminate H]; simpl in H
  | (if ?b then Err _ else _) = Ok _ =>
      let E := fresh "E" in destruct b eqn:E; [discriminate H|]
  end.
