(* ===== verification/DramConfig.v ===== *)
(** * Configuration and address mapping of the DRAM simulator

    [DRAMSIM3/src/configuration.h] and [configuration.cc]: the parameters, in the order the
    constructor computes them, and the mapping of addresses to channel, rank, bank group, bank,
    row and column.  The INI file reader is a parameter.  Power parameters are [double]s and
    only scale statistics; they and the output paths are left out.  Products of [int]s wrap around,
    addresses are cut to 64 bits. *)
From S2P Require Import Prelude DramCommon.
From stdpp Require Import gmap.
Local Open Scope string_scope.
Local Open Scope Z_scope.

Inductive DRAMProtocol :=
| DDR3 | DDR4 | GDDR5 | GDDR5X | GDDR6 | LPDDR | LPDDR3 | LPDDR4 | LPDDR5 | HBM | HBM2 | HMC.

Inductive RefreshPolicy :=
| RANK_LEVEL_SIMULTANEOUS | RANK_LEVEL_STAGGERED | BANK_LEVEL_STAGGERED.

#[export] Instance DRAMProtocol_eq_dec : EqDecision DRAMProtocol.
Proof. solve_decision. Defined.
#[export] Instance RefreshPolicy_eq_dec : EqDecision RefreshPolicy.
Proof. solve_decision. Defined.

(** What the constructor asks of the INI file: section, option and default. *)
Record INIReader := mkReader {
  Get : string -> string -> string -> string;
  reader_GetInteger : string -> string -> Z -> Z;
  GetBoolean : string -> string -> bool -> bool }.

(** [Config::GetInteger]: the reader's [long] cut to [int]. *)
Definition GetInteger (reader : INIReader) (sec opt : string) (default_val : Z) : Z :=
  s32 (reader_GetInteger reader sec opt default_val).

(** ** System parameters *)

Record SystemParams := mkSystem {
  requested_size : Z; channels : Z; bus_width : Z;
  address_mapping : string; queue_structure : string; row_buf_policy : string;
  cmd_queue_size : Z; trans_queue_size : Z; unified_queue : bool; write_buf_size : Z;
  refresh_policy : RefreshPolicy;
  enable_self_refresh : bool; sref_threshold : Z;
  aggressive_precharging_enabled : bool }.

Definition InitSystemParams (reader : INIReader) : M SystemParams :=
  let ref_policy := Get reader "system" "refresh_policy" "RANK_LEVEL_STAGGERED" in
  refresh_policy ←
    (if bool_decide (ref_policy = "RANK_LEVEL_SIMULTANEOUS") then Ok RANK_LEVEL_SIMULTANEOUS
     else if bool_decide (ref_policy = "RANK_LEVEL_STAGGERED") then Ok RANK_LEVEL_STAGGERED
     else if bool_decide (ref_policy = "BANK_LEVEL_STAGGERED") then Ok BANK_LEVEL_STAGGERED
     else Err AbruptExit);
  Ok {| requested_size := GetInteger reader "system" "channel_size" 1024;
        channels := GetInteger reader "system" "channels" 1;
        bus_width := GetInteger reader "system" "bus_width" 64;
        address_mapping := Get reader "system" "address_mapping" "chrobabgraco";
        queue_structure := Get reader "system" "queue_structure" "PER_BANK";
        row_buf_policy := Get reader "system" "row_buf_policy" "OPEN_PAGE";
        cmd_queue_size := GetInteger reader "system" "cmd_queue_size" 16;
        trans_queue_size := GetInteger reader "system" "trans_queue_size" 32;
        unified_queue := GetBoolean reader "system" "unified_queue" false;
        write_buf_size := GetInteger reader "system" "write_buf_size" 16;
        refresh_policy := refresh_policy;
        enable_self_refresh := GetBoolean reader "system" "enable_self_refresh" false;
        sref_threshold := GetInteger reader "system" "sref_threshold" 1000;
        aggressive_precharging_enabled :=
          GetBoolean reader "system" "aggressive_precharging_enabled" false |}.

(** ** DRAM structure *)

Record DRAMParams := mkDRAM {
  protocol : DRAMProtocol;
  bankgroups : Z; banks_per_group : Z; bankgroup_enable : bool; banks : Z;
  rows : Z; columns : Z; device_width : Z; BL : Z; burst_cycle : Z; num_dies : Z;
  enable_hbm_dual_cmd : bool;
  num_links : Z; link_width : Z; link_speed : Z; block_size : Z; xbar_queue_depth : Z }.

Definition p_in (p : DRAMProtocol) (l : list DRAMProtocol) : bool := bool_decide (p ∈ l).
Definition p_IsGDDR (p : DRAMProtocol) : bool := p_in p [GDDR5; GDDR5X; GDDR6].
Definition p_IsHBM (p : DRAMProtocol) : bool := p_in p [HBM; HBM2].
Definition p_IsHMC (p : DRAMProtocol) : bool := p_in p [HMC].
Definition p_IsLP5 (p : DRAMProtocol) : bool := p_in p [LPDDR5].

Definition protocol_pairs : gmap string DRAMProtocol :=
  list_to_map [("DDR3", DDR3); ("DDR4", DDR4); ("GDDR5", GDDR5); ("GDDR5X", GDDR5X);
    ("GDDR6", GDDR6); ("LPDDR", LPDDR); ("LPDDR3", LPDDR3); ("LPDDR4", LPDDR4);
    ("LPDDR5", LPDDR5); ("HBM", HBM); ("HBM2", HBM2); ("HMC", HMC)].

Definition GetDRAMProtocol (protocol_str : string) : M DRAMProtocol :=
  match protocol_pairs !! protocol_str with Some p => Ok p | None => Err AbruptExit end.

(** C++ integer division. *)
Definition idiv (a b : Z) : M Z := if b =? 0 then Err DivZero else Ok (Z.quot a b).

(** The burst length and its cycles per protocol, [BL = 0] standing for perfect bandwidth. *)
Definition burst (p : DRAMProtocol) (bl : Z) : Z * Z :=
  let ratio :=
    if bool_decide (p = GDDR5) then 4
    else if bool_decide (p = GDDR5X) then 8
    else if bool_decide (p = GDDR6) then 16 else 2 in
  let default_bl := if p_IsHBM p then 4 else 8 in
  (if bl =? 0 then 0 else Z.quot bl ratio, if bl =? 0 then default_bl else bl).

Definition InitDRAMParams (reader : INIReader) : M DRAMParams :=
  protocol ← GetDRAMProtocol (Get reader "dram_structure" "protocol" "DDR3");
  let bankgroups := GetInteger reader "dram_structure" "bankgroups" 2 in
  let banks_per_group := GetInteger reader "dram_structure" "banks_per_group" 2 in
  let bankgroup_enable := GetBoolean reader "dram_structure" "bankgroup_enable" true in
  let '(banks_per_group, bankgroups) :=
    if negb bankgroup_enable then (s32 (banks_per_group * bankgroups), 1)
    else (banks_per_group, bankgroups) in
  let banks := s32 (bankgroups * banks_per_group) in
  let rows := GetInteger reader "dram_structure" "rows" (Z.shiftl 1 16) in
  let columns := GetInteger reader "dram_structure" "columns" (Z.shiftl 1 10) in
  let device_width := GetInteger reader "dram_structure" "device_width" 8 in
  let BL := GetInteger reader "dram_structure" "BL" 8 in
  let num_dies := GetInteger reader "dram_structure" "num_dies" 1 in
  let enable_hbm_dual_cmd :=
    GetBoolean reader "dram_structure" "hbm_dual_cmd" true && p_IsHBM protocol in
  let num_links := GetInteger reader "hmc" "num_links" 4 in
  let link_width := GetInteger reader "hmc" "link_width" 16 in
  let link_speed := GetInteger reader "hmc" "link_speed" 15000 in
  let block_size := GetInteger reader "hmc" "block_size" 64 in
  let xbar_queue_depth := GetInteger reader "hmc" "xbar_queue_depth" 16 in
  BL ← (if p_IsHMC protocol then idiv (s32 (block_size * 8)) device_width else Ok BL);
  let '(burst_cycle, BL) := burst protocol BL in
  burst_cycle ←
    (if p_IsLP5 protocol then
       if negb (BL =? 16) && negb (BL =? 32) then Err AbruptExit
       else Ok (Z.quot BL (2 * 4))
     else Ok burst_cycle);
  let columns :=
    if p_IsGDDR protocol then s32 (columns * BL)
    else if p_IsHBM protocol then s32 (columns * 2) else columns in
  Ok {| protocol := protocol; bankgroups := bankgroups; banks_per_group := banks_per_group;
        bankgroup_enable := bankgroup_enable; banks := banks; rows := rows;
        columns := columns; device_width := device_width; BL := BL;
        burst_cycle := burst_cycle; num_dies := num_dies;
        enable_hbm_dual_cmd := enable_hbm_dual_cmd; num_links := num_links;
        link_width := link_width; link_speed := link_speed; block_size := block_size;
        xbar_queue_depth := xbar_queue_depth |}.

(** ** Sizes *)

Record SizeParams := mkSize { devices_per_rank : Z; ranks : Z; channel_size : Z }.

Definition page_size (d : DRAMParams) : Z :=
  if p_IsLP5 (protocol d) then
    Z.quot (s32 (s32 (columns d
      * (if bankgroup_enable d then 128 else if banks_per_group d =? 16 then 128 else 256))
      * (if device_width d =? 8 then 1 else 2))) 8
  else Z.quot (s32 (columns d * device_width d)) 8.

Definition megs_per_bank (d : DRAMParams) : Z := Z.quot (s32 (page_size d * Z.quot (rows d) 1024)) 1024.
Definition megs_per_rank (d : DRAMParams) (devices_per_rank : Z) : Z :=
  s32 (s32 (megs_per_bank d * banks d) * devices_per_rank).

Definition CalculateSize (s : SystemParams) (d : DRAMParams) : M SizeParams :=
  devices_per_rank ← idiv (bus_width s) (device_width d);
  let megs_per_rank := megs_per_rank d devices_per_rank in
  if megs_per_rank >? requested_size s then
    Ok (mkSize devices_per_rank 1 megs_per_rank)
  else
    ranks ← idiv (requested_size s) megs_per_rank;
    Ok (mkSize devices_per_rank ranks (s32 (ranks * megs_per_rank))).

(** ** Address mapping *)

Record AddressParams := mkAddressParams {
  request_size_bytes : Z; shift_bits : Z;
  ch_pos : Z; ra_pos : Z; bg_pos : Z; ba_pos : Z; ro_pos : Z; co_pos : Z;
  ch_mask : Z; ra_mask : Z; bg_mask : Z; ba_mask : Z; ro_mask : Z; co_mask : Z }.

Definition field_widths (s : SystemParams) (d : DRAMParams) (z : SizeParams)
    : gmap string Z :=
  let col_low_bits := LogBase2 (BL d) in
  let actual_col_bits :=
    if p_IsLP5 (protocol d) then LogBase2 (columns d)
    else LogBase2 (columns d) - col_low_bits in
  <["co" := actual_col_bits]> (<["ro" := LogBase2 (rows d)]>
    (<["ba" := LogBase2 (banks_per_group d)]> (<["bg" := LogBase2 (bankgroups d)]>
      (<["ra" := LogBase2 (ranks z)]> (<["ch" := LogBase2 (channels s)]> ∅))))).

(** [address_mapping.substr(i, 2)] for [i = 0, 2, ...]. *)
Fixpoint fields_of (mapping : string) : list string :=
  match mapping with
  | String a (String b rest) => String a (String b EmptyString) :: fields_of rest
  | String a EmptyString => [String a EmptyString]
  | EmptyString => []
  end.

(** The [while (!fields.empty())] loop; [fields] is consumed from its back, so the caller
    passes it reversed. *)
Fixpoint place_fields (widths : gmap string Z) (fields : list string) (pos : Z)
    (field_pos : gmap string Z) : M (gmap string Z) :=
  match fields with
  | [] => Ok field_pos
  | token :: fields =>
      match widths !! token with
      | None => Err AbruptExit
      | Some w => place_fields widths fields (pos + w) (<[token := pos]> field_pos)
      end
  end.

(** [std::map::at] throws when the key is missing. *)
Definition map_at (m : gmap string Z) (k : string) : M Z :=
  match m !! k with Some v => Ok v | None => Err Uncaught end.

(** [(1 << width) - 1]. *)
Definition field_mask (w : Z) : Z := u64 (Z.shiftl 1 w - 1).

Definition SetAddressMapping (s : SystemParams) (d : DRAMParams) (z : SizeParams)
    : M AddressParams :=
  let request_size_bytes := s32 (Z.quot (bus_width s) 8 * BL d) in
  let shift_bits := LogBase2 request_size_bytes in
  let widths := field_widths s d z in
  if negb (String.length (address_mapping s) =? 12)%nat then Err AbruptExit
  else
    field_pos ← place_fields widths (rev (fields_of (address_mapping s))) 0 ∅;
    ch_pos ← map_at field_pos "ch";
    ra_pos ← map_at field_pos "ra";
    bg_pos ← map_at field_pos "bg";
    ba_pos ← map_at field_pos "ba";
    ro_pos ← map_at field_pos "ro";
    co_pos ← map_at field_pos "co";
    ch_w ← map_at widths "ch";
    ra_w ← map_at widths "ra";
    bg_w ← map_at widths "bg";
    ba_w ← map_at widths "ba";
    ro_w ← map_at widths "ro";
    co_w ← map_at widths "co";
    Ok {| request_size_bytes := request_size_bytes; shift_bits := shift_bits;
          ch_pos := ch_pos; ra_pos := ra_pos; bg_pos := bg_pos; ba_pos := ba_pos;
          ro_pos := ro_pos; co_pos := co_pos;
          ch_mask := field_mask ch_w; ra_mask := field_mask ra_w;
          bg_mask := field_mask bg_w; ba_mask := field_mask ba_w;
          ro_mask := field_mask ro_w; co_mask := field_mask co_w |}.

(** One field of an address: [(hex_addr >> pos) & mask] as an [int]. *)
Definition field_at (hex pos mask : Z) : Z := s32 (Z.land (Z.shiftr hex pos) mask).

Definition AddressMapping (a : AddressParams) (hex_addr : Z) : Address :=
  let hex_addr := Z.shiftr (u64 hex_addr) (shift_bits a) in
  let channel := field_at hex_addr (ch_pos a) (ch_mask a) in
  let rank := field_at hex_addr (ra_pos a) (ra_mask a) in
  let bg := field_at hex_addr (bg_pos a) (bg_mask a) in
  let ba := field_at hex_addr (ba_pos a) (ba_mask a) in
  let ro := field_at hex_addr (ro_pos a) (ro_mask a) in
  let co := field_at hex_addr (co_pos a) (co_mask a) in
  mkAddress channel rank bg ba ro co.

(** ** Timing parameters *)

Record TimingParams := mkTimingParams {
  AL : Z; CL : Z; CWL : Z; RL : Z; WL : Z; tCCD_L : Z; tCCD_S : Z; tRTRS : Z; tRTP : Z;
  tWTR_L : Z; tWTR_S : Z; tWR : Z; tRP : Z; tRRD_L : Z; tRRD_S : Z; tRAS : Z; tRCD : Z;
  tRFC : Z; tRC : Z; tCKE : Z; tCKESR : Z; tXS : Z; tXP : Z; tRFCb : Z; tREFI : Z;
  tREFIb : Z; tFAW : Z; tRPRE : Z; tWPRE : Z; tPPD : Z; t32AW : Z; tRCDRD : Z; tRCDWR : Z;
  ideal_memory_latency : Z; read_delay : Z; write_delay : Z }.

Definition InitTimingParams (reader : INIReader) (d : DRAMParams) : TimingParams :=
  let get := GetInteger reader "timing" in
  let AL := get "AL" 0 in
  let CL := get "CL" 12 in
  let CWL := get "CWL" 12 in
  let tRAS := get "tRAS" 24 in
  let tRP := get "tRP" 10 in
  let RL := AL + CL in
  let WL := AL + CWL in
  {| AL := AL; CL := CL; CWL := CWL;
     tCCD_L := get "tCCD_L" 6; tCCD_S := get "tCCD_S" 4; tRTRS := get "tRTRS" 2;
     tRTP := get "tRTP" 5; tWTR_L := get "tWTR_L" 5; tWTR_S := get "tWTR_S" 5;
     tWR := get "tWR" 10; tRP := tRP; tRRD_L := get "tRRD_L" 4; tRRD_S := get "tRRD_S" 4;
     tRAS := tRAS; tRCD := get "tRCD" 10; tRFC := get "tRFC" 74; tRC := tRAS + tRP;
     tCKE := get "tCKE" 6; tCKESR := get "tCKESR" 12; tXS := get "tXS" 432;
     tXP := get "tXP" 8; tRFCb := get "tRFCb" 20; tREFI := get "tREFI" 7800;
     tREFIb := get "tREFIb" 1950; tFAW := get "tFAW" 50; tRPRE := get "tRPRE" 1;
     tWPRE := get "tWPRE" 1; tPPD := get "tPPD" 0; t32AW := get "t32AW" 330;
     tRCDRD := get "tRCDRD" 24; tRCDWR := get "tRCDWR" 20;
     ideal_memory_latency := get "ideal_memory_latency" 10;
     RL := RL; WL := WL; read_delay := RL + burst_cycle d;
     write_delay := WL + burst_cycle d |}.

(** ** The whole configuration *)

Record Config := mkConfig {
  system :> SystemParams; dram :> DRAMParams; size :> SizeParams;
  address :> AddressParams; timing_params :> TimingParams;
  epoch_period : Z }.

(** [Config::Config] on a file that parses. *)
Definition newConfig (reader : INIReader) : M Config :=
  s ← InitSystemParams reader;
  d ← InitDRAMParams reader;
  z ← CalculateSize s d;
  a ← SetAddressMapping s d z;
  let t := InitTimingParams reader d in
  Ok (mkConfig s d z a t (GetInteger reader "other" "epoch_period" 100000)).

Definition IsGDDR (c : Config) : bool := p_IsGDDR (protocol c).
Definition IsHBM (c : Config) : bool := p_IsHBM (protocol c).
Definition IsHMC (c : Config) : bool := p_IsHMC (protocol c).
Definition IsLP5 (c : Config) : bool := p_IsLP5 (protocol c).

(** ** Field placement *)

(** Sum of the widths of a list of fields. *)
Fixpoint total_width (widths : gmap string Z) (l : list string) : Z :=
  match l with [] => 0 | t :: l => default 0 (widths !! t) + total_width widths l end.

Section placement.
Context (widths : gmap string Z).

Lemma place_fields_keeps l pos m m' t :
  place_fields widths l pos m = Ok m' -> t ∉ l -> m' !! t = m !! t.
Proof.
  revert pos m. induction l as [|u l IH]; intros pos m E Ht; simpl in E; [congruence|].
  destruct (widths !! u) as [w|]; [|done]. rewrite (IH _ _ E) by set_solver.
  apply lookup_insert_ne. set_solver.
Qed.

Lemma place_fields_known l pos m m' t :
  place_fields widths l pos m = Ok m' -> t ∈ l -> is_Some (widths !! t).
Proof.
  revert pos m. induction l as [|u l IH]; intros pos m E Ht; simpl in E; [set_solver|].
  destruct (widths !! u) as [w|] eqn:Ew; [|done]. apply elem_of_cons in Ht as [->|Ht]; eauto.
Qed.

Hypothesis widths_nonneg : forall t w, widths !! t = Some w -> 0 <= w.

(** A field lies inside the space from [pos] on. *)
Lemma place_fields_within l pos m m' t p w :
  place_fields widths l pos m = Ok m' -> NoDup l -> t ∈ l -> m' !! t = Some p ->
  widths !! t = Some w -> pos <= p /\ p + w <= pos + total_width widths l.
Proof.
  revert pos m. induction l as [|u l IH]; intros pos m E Hnd Ht Hp Hw; [set_solver|].
  apply NoDup_cons in Hnd as [Hu Hnd]. simpl in E.
  destruct (widths !! u) as [v|] eqn:Ev; [|done]. simpl. rewrite Ev. simpl.
  assert (forall k, (forall t, t ∈ k -> t ∈ l) -> 0 <= total_width widths k) as Hpos.
  { intros k _. induction k as [|x k IHk]; simpl; [lia|].
    destruct (widths !! x) eqn:Ex; simpl; [|lia]. apply widths_nonneg in Ex. lia. }
  specialize (Hpos l (fun _ H => H)). pose proof (widths_nonneg _ _ Ev).
  apply elem_of_cons in Ht as [->|Ht].
  - rewrite (place_fields_keeps _ _ _ _ _ E Hu), lookup_insert_eq in Hp. naive_solver lia.
  - destruct (IH _ _ E Hnd Ht Hp Hw). lia.
Qed.

(** Two fields do not overlap. *)
Lemma place_fields_disjoint l pos m m' t u p q v w :
  place_fields widths l pos m = Ok m' -> NoDup l -> t ∈ l -> u ∈ l -> t <> u ->
  m' !! t = Some p -> m' !! u = Some q -> widths !! t = Some v -> widths !! u = Some w ->
  p + v <= q \/ q + w <= p.
Proof.
  revert pos m. induction l as [|x l IH]; intros pos m E Hnd Ht Hu Hne Hp Hq Hv Hw;
    [set_solver|].
  apply NoDup_cons in Hnd as [Hx Hnd]. simpl in E.
  destruct (widths !! x) as [wx|] eqn:Ex; [|done].
  pose proof (place_fields_keeps _ _ _ _ x E Hx) as Kx. rewrite lookup_insert_eq in Kx.
  apply elem_of_cons in Ht as [->|Ht]; apply elem_of_cons in Hu as [->|Hu]; try done.
  - destruct (place_fields_within _ _ _ _ _ _ _ E Hnd Hu Hq Hw). left.
    rewrite Kx in Hp. naive_solver lia.
  - destruct (place_fields_within _ _ _ _ _ _ _ E Hnd Ht Hp Hv). right.
    rewrite Kx in Hq. naive_solver lia.
  - eauto.
Qed.

(** The fields cover the space. *)
Lemma place_fields_cover l pos m m' i :
  place_fields widths l pos m = Ok m' -> NoDup l ->
  pos <= i < pos + total_width widths l ->
  exists t p w, t ∈ l /\ m' !! t = Some p /\ widths !! t = Some w /\ p <= i < p + w.
Proof.
  revert pos m. induction l as [|x l IH]; intros pos m E Hnd Hi; simpl in *; [lia|].
  apply NoDup_cons in Hnd as [Hx Hnd].
  destruct (widths !! x) as [wx|] eqn:Ex; [|done]. simpl in Hi.
  destruct (Z.lt_ge_cases i (pos + wx)).
  - exists x, pos, wx. split_and!; try done; try lia; [set_solver|].
    by rewrite (place_fields_keeps _ _ _ _ x E Hx), lookup_insert_eq.
  - destruct (IH _ _ E Hnd) as (t & p & w & ? & ? & ? & ?); [lia|].
    exists t, p, w. split_and!; try done; try lia; set_solver.
Qed.

End placement.

(** ** Fields of a word *)

Lemma field_at_mod x p w :
  0 <= p -> 0 <= w <= 30 -> field_at x p (field_mask w) = (x / 2 ^ p) mod 2 ^ w.
Proof.
  intros Hp Hw. unfold field_at, field_mask.
  assert (2 ^ w <= 2 ^ 30) by (apply Z.pow_le_mono_r; lia).
  rewrite Z.shiftl_1_l, wrapU_small, land_pow2_mask, Z.shiftr_div_pow2 by lia.
  pose proof (Z.mod_pos_bound (x / 2 ^ p) (2 ^ w)). apply wrapS_small; lia.
Qed.

Lemma field_bits x p w i :
  0 <= p -> 0 <= w -> 0 <= i ->
  Z.testbit ((x / 2 ^ p) mod 2 ^ w) i = (i <? w) && Z.testbit x (i + p).
Proof.
  intros. change ((x / 2 ^ p) mod 2 ^ w) with (wrapU w (x / 2 ^ p)).
  rewrite testbit_wrapU, <-Z.shiftr_div_pow2, Z.shiftr_spec by lia. done.
Qed.

(** Values put side by side at given positions. *)
Definition assemble (l : list (Z * Z)) : Z :=
  foldr (fun '(v, p) acc => Z.lor (Z.shiftl v p) acc) 0 l.

Lemma assemble_bits l i :
  0 <= i -> Z.testbit (assemble l) i = existsb (fun '(v, p) => Z.testbit v (i - p)) l.
Proof.
  intros Hi. induction l as [|[v p] l IH]; simpl; [apply Z.bits_0|].
  by rewrite Z.lor_spec, Z.shiftl_spec, IH by lia.
Qed.

(** Extraction gives a value back when nothing else reaches into its field. *)
Lemma assemble_field l v p w :
  (v, p) ∈ l -> 0 <= p -> 0 <= w -> 0 <= v < 2 ^ w ->
  (forall v' p', (v', p') ∈ l -> (v', p') = (v, p) \/
     exists w', 0 <= v' < 2 ^ w' /\ 0 <= w' /\ (p + w <= p' \/ p' + w' <= p)) ->
  (assemble l / 2 ^ p) mod 2 ^ w = v.
Proof.
  intros Hin Hp Hw Hv Hothers. apply Z.bits_inj'. intros i Hi.
  rewrite field_bits, assemble_bits by lia.
  destruct (Z.ltb_spec i w); simpl; [|by rewrite (testbit_high v w)].
  apply eq_true_iff_eq. rewrite existsb_exists. split.
  - intros ([v' p'] & Hin'%list_elem_of_In & Hb).
    destruct (Hothers _ _ Hin') as [[= -> ->]|(w' & Hv' & Hw' & [?|?])].
    + by replace (i + p - p) with i in Hb by lia.
    + rewrite Z.testbit_neg_r in Hb by lia. done.
    + rewrite (testbit_high v' w') in Hb by lia. done.
  - intros Hb. exists (v, p). split; [by apply list_elem_of_In|].
    by replace (i + p - p) with i by lia.
Qed.

Lemma assemble_bound l n :
  0 <= n -> (forall v p, (v, p) ∈ l -> exists w, 0 <= v < 2 ^ w /\ 0 <= w /\ 0 <= p /\ p + w <= n) ->
  0 <= assemble l < 2 ^ n.
Proof.
  intros Hn. induction l as [|[v p] l IH]; intros Hl; simpl.
  { pose proof (Z.pow_pos_nonneg 2 n). lia. }
  destruct (Hl v p) as (w & Hv & Hw & Hp & Hb); [set_solver|].
  apply lor_bound; [done| |apply IH; set_solver].
  rewrite Z.shiftl_mul_pow2 by lia.
  assert (2 ^ w * 2 ^ p <= 2 ^ n) by (rewrite <-Z.pow_add_r by lia; apply Z.pow_le_mono_r; lia).
  pose proof (Z.pow_pos_nonneg 2 p). nia.
Qed.

(** ** Geometry *)

Definition field_names : list string := ["ch"; "ra"; "bg"; "ba"; "ro"; "co"].

(** Prove that a name is a field; split on which field a name is. *)
Ltac is_field := refine (bool_decide_unpack _ _); vm_compute; exact I.
Ltac each_field H tac :=
  unfold field_names in H;
  repeat (apply elem_of_cons in H as [->|H]; [tac|]); by apply not_elem_of_nil in H.

(** The width in bits of one field of the address. *)
Definition width (c : Config) (t : string) : Z := default 0 (field_widths c c c !! t).

(** The number of byte addresses the mapping distinguishes. *)
Definition capacity (c : Config) : Z :=
  2 ^ (shift_bits c + total_width (field_widths c c c) field_names).

(** The geometry a configuration file should describe: at least one of everything, a column
    width that is not negative, counts that are [int]s, a rank whose size did not become negative
    by an overflow, and addresses of fewer than 64 bits. *)
Record geometry_ok (c : Config) : Prop := {
  g_channels : 1 <= channels c < 2 ^ 31;
  g_bankgroups : 1 <= bankgroups c < 2 ^ 31;
  g_banks : 1 <= banks_per_group c < 2 ^ 31;
  g_rows : 1 <= rows c < 2 ^ 31;
  g_columns : 0 <= width c "co" <= 30;
  g_megs : 0 <= megs_per_rank c (devices_per_rank c);
  g_request : 1 <= request_size_bytes c < 2 ^ 31;
  g_capacity : capacity c < 2 ^ 64 }.

(** An address inside the geometry: every field below the power of two it is given. *)
Definition in_geometry (c : Config) (a : Address) : Prop :=
  0 <= channel a < 2 ^ width c "ch" /\ 0 <= rank a < 2 ^ width c "ra" /\
  0 <= bankgroup a < 2 ^ width c "bg" /\ 0 <= bank a < 2 ^ width c "ba" /\
  0 <= row a < 2 ^ width c "ro" /\ 0 <= column a < 2 ^ width c "co".

(** The six positions of a mapping, by field name. *)
Definition position (a : AddressParams) (t : string) : Z :=
  default 0 ((list_to_map [("ch", ch_pos a); ("ra", ra_pos a); ("bg", bg_pos a);
    ("ba", ba_pos a); ("ro", ro_pos a); ("co", co_pos a)] : gmap string Z) !! t).

Lemma newConfig_inv reader c :
  newConfig reader = Ok c ->
  InitSystemParams reader = Ok (system c) /\ InitDRAMParams reader = Ok (dram c) /\
  CalculateSize c c = Ok (size c) /\ SetAddressMapping c c c = Ok (address c) /\
  timing_params c = InitTimingParams reader c.
Proof. unfold newConfig. intros H. run_ok H. injection H as <-. done. Qed.

Lemma CalculateSize_ranks s d z :
  CalculateSize s d = Ok z -> requested_size s < 2 ^ 31 -> 0 <= megs_per_rank d (devices_per_rank z) -> 1 <= ranks z < 2 ^ 31.
Proof.
  unfold CalculateSize, idiv. destruct (Z.eqb_spec (device_width d) 0); [done|]. cbn [mbind res_bind]. generalize (megs_per_rank d).
  intros megs. rewrite Z.gtb_ltb. destruct (Z.ltb_spec (requested_size s) (megs (Z.quot (bus_width s) (device_width d)))).
  - intros [= <-]. cbn [ranks devices_per_rank]. lia.
  - destruct (Z.eqb_spec (megs (Z.quot (bus_width s) (device_width d))) 0); [done|]. cbn [mbind res_bind]. intros [= <-].
    cbn [ranks devices_per_rank]. set (m := megs _) in *. intros Hr Hm. rewrite Z.quot_div_nonneg by lia.
    pose proof (Z.div_str_pos (requested_size s) m). pose proof (Z.div_le_upper_bound (requested_size s) m (requested_size s)). nia.
Qed.

Lemma fields_of_length m : String.length m = 12%nat -> length (fields_of m) = 6%nat.
Proof.
  intros H. do 12 (destruct m as [|? m]; [done|]). by destruct m.
Qed.

Lemma map_at_Ok m k v : map_at m k = Ok v <-> m !! k = Some v.
Proof. unfold map_at. destruct (m !! k); naive_solver. Qed.

(** What a successful [SetAddressMapping] leaves behind. *)
Lemma SetAddressMapping_inv s d z a :
  SetAddressMapping s d z = Ok a ->
  exists l fp, l ≡ₚ field_names /\
    place_fields (field_widths s d z) l 0 ∅ = Ok fp /\
    (forall t, t ∈ field_names -> fp !! t = Some (position a t)) /\
    shift_bits a = LogBase2 (request_size_bytes a) /\
    (ch_mask a, ra_mask a, bg_mask a, ba_mask a, ro_mask a, co_mask a) =
    (let w t := field_mask (default 0 (field_widths s d z !! t)) in
     (w "ch", w "ra", w "bg", w "ba", w "ro", w "co")).
Proof.
  unfold SetAddressMapping. intros H. run_ok H. injection H as <-.
  apply negb_false_iff, Nat.eqb_eq in E.
  repeat match goal with H : map_at _ _ = Ok _ |- _ => apply map_at_Ok in H end.
  exists (rev (fields_of (address_mapping s))), x.
  assert (forall t, t ∈ field_names -> is_Some (x !! t)) as Hall.
  { intros t Ht. each_field Ht ltac:(eauto). }
  split_and!; try done.
  - symmetry. apply submseteq_length_Permutation.
    + apply NoDup_submseteq; [is_field|].
      intros t Ht. destruct (decide (t ∈ rev (fields_of (address_mapping s)))) as [|Hn]; [done|].
      destruct (Hall t Ht) as [v Hv].
      rewrite (place_fields_keeps _ _ _ _ x _ E0 Hn) in Hv. done.
    + rewrite length_rev, fields_of_length by done. done.
  - intros t Ht. each_field Ht ltac:(done).
  - simpl. by rewrite E7, E8, E9, E10, E11, E12.
Qed.

(** The field of an address a name stands for. *)
Definition component (a : Address) (t : string) : Z :=
  default 0 ((list_to_map [("ch", channel a); ("ra", rank a); ("bg", bankgroup a);
    ("ba", bank a); ("ro", row a); ("co", column a)] : gmap string Z) !! t).

(** The byte address of the first byte of a location: the inverse of the mapping. *)
Definition compose (c : Config) (a : Address) : Z :=
  Z.shiftl (assemble ((fun t => (component a t, position c t)) <$> field_names)) (shift_bits c).

Lemma in_geometry_component c a :
  in_geometry c a <-> forall t, t ∈ field_names -> 0 <= component a t < 2 ^ width c t.
Proof.
  split.
  - intros (H1 & H2 & H3 & H4 & H5 & H6). apply Forall_forall.
    apply Forall_cons_2; [exact H1|]. apply Forall_cons_2; [exact H2|].
    apply Forall_cons_2; [exact H3|]. apply Forall_cons_2; [exact H4|].
    apply Forall_cons_2; [exact H5|]. apply Forall_cons_2; [exact H6|]. constructor.
  - intros H. refine (conj (H "ch" _) (conj (H "ra" _) (conj (H "bg" _) (conj (H "ba" _)
      (conj (H "ro" _) (H "co" _)))))); is_field.
Qed.

Lemma address_eq_component a b :
  (forall t, t ∈ field_names -> component a t = component b t) -> a = b.
Proof.
  intros H. destruct a as [a1 a2 a3 a4 a5 a6], b as [b1 b2 b3 b4 b5 b6].
  assert (a1 = b1) by exact (H "ch" ltac:(is_field)).
  assert (a2 = b2) by exact (H "ra" ltac:(is_field)).
  assert (a3 = b3) by exact (H "bg" ltac:(is_field)).
  assert (a4 = b4) by exact (H "ba" ltac:(is_field)).
  assert (a5 = b5) by exact (H "ro" ltac:(is_field)).
  assert (a6 = b6) by exact (H "co" ltac:(is_field)).
  congruence.
Qed.

Section mapping.
Context (reader : INIReader) (c : Config).
Hypothesis built : newConfig reader = Ok c.
Hypothesis geometry : geometry_ok c.

Lemma ranks_positive : 1 <= ranks c < 2 ^ 31.
Proof.
  destruct (newConfig_inv _ _ built) as (HS & _ & HC & _). apply (CalculateSize_ranks _ _ _ HC); [|apply geometry].
  unfold InitSystemParams in HS. run_ok HS. injection HS as HS. rewrite <-HS. apply (wrapS_range 32). lia.
Qed.

Lemma width_bounds t : t ∈ field_names -> 0 <= width c t <= 30.
Proof.
  pose proof ranks_positive. destruct geometry. intros Ht.
  assert (forall n, 1 <= n < 2 ^ 31 -> 0 <= LogBase2 n <= 30) as Hlog.
  { intros n Hn. rewrite LogBase2_spec by done. split; [apply Z.log2_nonneg|].
    assert (Z.log2 n < 31); [apply Z.log2_lt_pow2; lia|lia]. }
  each_field Ht ltac:(first [done | by apply Hlog]).
Qed.

Lemma total_width_perm l k :
  l ≡ₚ k -> total_width (field_widths c c c) l = total_width (field_widths c c c) k.
Proof. induction 1; simpl; lia. Qed.

(** The placement behind the mapping. *)
Lemma mapping_layout :
  (forall t, t ∈ field_names ->
     0 <= position c t /\
     position c t + width c t <= total_width (field_widths c c c) field_names) /\
  (forall t u, t ∈ field_names -> u ∈ field_names -> t <> u ->
     position c t + width c t <= position c u \/ position c u + width c u <= position c t) /\
  (forall i, 0 <= i < total_width (field_widths c c c) field_names ->
     exists t, t ∈ field_names /\ position c t <= i < position c t + width c t).
Proof.
  destruct (newConfig_inv _ _ built) as (_ & _ & _ & HA & _).
  destruct (SetAddressMapping_inv _ _ _ _ HA) as (l & fp & Hl & HP & Hpos & _).
  assert (NoDup l) as Hnd by (rewrite Hl; is_field).
  assert (forall t, t ∈ field_names -> field_widths c c c !! t = Some (width c t)) as Hw.
  { intros t Ht. unfold width. rewrite <-Hl in Ht.
    by destruct (place_fields_known _ _ _ _ _ _ HP Ht) as [w ->]. }
  assert (forall t w, field_widths c c c !! t = Some w -> 0 <= w) as Hnn.
  { intros t w Ht. assert (t ∈ field_names) as Hin.
    { unfold field_widths in Ht. rewrite !lookup_insert_Some in Ht. unfold field_names.
      rewrite !elem_of_cons. rewrite lookup_empty in Ht. intuition auto; done. }
    pose proof (width_bounds t Hin). rewrite (Hw t Hin) in Ht. naive_solver lia. }
  rewrite <-(total_width_perm _ _ Hl). split_and!.
  - intros t Ht.
    apply (place_fields_within _ Hnn l 0 ∅ fp t (position c t) (width c t));
      [done|done|by rewrite Hl|auto..].
  - intros t u Ht Hu Hne.
    apply (place_fields_disjoint _ Hnn l 0 ∅ fp t u);
      [done|done|by rewrite Hl|by rewrite Hl|auto..].
  - intros i Hi. destruct (place_fields_cover _ Hnn l 0 ∅ fp i HP Hnd Hi) as (t & p & w & Ht & Hp & Hwt & ?).
    rewrite Hl in Ht. exists t. split; [done|]. rewrite (Hw t Ht) in Hwt. rewrite (Hpos t Ht) in Hp. naive_solver.
Qed.

Lemma shift_nonneg : 0 <= shift_bits c.
Proof.
  destruct (newConfig_inv _ _ built) as (_ & _ & _ & HA & _). destruct geometry.
  destruct (SetAddressMapping_inv _ _ _ _ HA) as (_ & _ & _ & _ & _ & -> & _).
  rewrite LogBase2_spec by done. apply Z.log2_nonneg.
Qed.

(** Each field of the mapped address is the bits of its place. *)
Lemma mapping_component x t :
  t ∈ field_names ->
  component (AddressMapping c x) t =
  (u64 x / 2 ^ shift_bits c / 2 ^ position c t) mod 2 ^ width c t.
Proof.
  intros Ht. pose proof (proj1 (proj1 mapping_layout t Ht)).
  pose proof (width_bounds t Ht).
  rewrite <-(Z.shiftr_div_pow2 (u64 x)), <-field_at_mod by (done || apply shift_nonneg).
  destruct (newConfig_inv _ _ built) as (_ & _ & _ & HA & _).
  destruct (SetAddressMapping_inv _ _ _ _ HA) as (_ & _ & _ & _ & _ & _ & HM).
  simpl in HM. injection HM as M1 M2 M3 M4 M5 M6.
  unfold AddressMapping. rewrite M1, M2, M3, M4, M5, M6.
  each_field Ht ltac:(exact eq_refl).
Qed.
End mapping.

Section bijection.
Context (reader : INIReader) (c : Config).
Hypothesis built : newConfig reader = Ok c.
Hypothesis geometry : geometry_ok c.

Local Abbreviation total := (total_width (field_widths c c c) field_names).
Local Abbreviation parts a := ((fun t => (component a t, position c t)) <$> field_names).

Lemma total_nonneg : 0 <= total.
Proof.
  destruct (mapping_layout reader c built geometry) as (Hin & _).
  destruct (Hin "ch"); [is_field|]. destruct (width_bounds reader c built geometry "ch"); [is_field|]. lia.
Qed.

Lemma parts_bound a : in_geometry c a -> 0 <= assemble (parts a) < 2 ^ total.
Proof.
  intros Ha. rewrite in_geometry_component in Ha. apply assemble_bound; [apply total_nonneg|].
  intros v p Hvp. apply list_elem_of_fmap in Hvp as (t & Heq & Ht). injection Heq as -> ->.
  exists (width c t). destruct (mapping_layout reader c built geometry) as (Hin & _).
  pose proof (Hin t Ht). pose proof (width_bounds reader c built geometry t Ht).
  split; [by apply Ha|lia].
Qed.

Lemma parts_component a t :
  in_geometry c a -> t ∈ field_names ->
  (assemble (parts a) / 2 ^ position c t) mod 2 ^ width c t = component a t.
Proof.
  intros Ha Ht. rewrite in_geometry_component in Ha.
  destruct (mapping_layout reader c built geometry) as (Hin & Hdis & _).
  apply assemble_field.
  - apply list_elem_of_fmap. eauto.
  - by apply Hin.
  - by apply (width_bounds reader c built geometry).
  - by apply Ha.
  - intros v p (u & Heq & Hu)%list_elem_of_fmap. injection Heq as -> ->.
    destruct (decide (t = u)) as [->|Hne]; [by left|right].
    exists (width c u). pose proof (width_bounds reader c built geometry u Hu).
    split; [by apply Ha|]. split; [lia|by apply Hdis].
Qed.

Lemma below_capacity x : 0 <= x < capacity c -> u64 x = x.
Proof. intros Hx. pose proof (g_capacity c geometry). apply wrapU_small. lia. Qed.

Lemma compose_mapping a :
  in_geometry c a ->
  0 <= compose c a < capacity c /\ AddressMapping c (compose c a) = a.
Proof.
  intros Ha. pose proof (shift_nonneg reader c built geometry). pose proof total_nonneg.
  pose proof (parts_bound a Ha). assert (0 <= compose c a < capacity c) as Hc.
  { unfold compose, capacity. rewrite Z.shiftl_mul_pow2, Z.pow_add_r by lia. pose proof (Z.pow_pos_nonneg 2 (shift_bits c)). nia. }
  split; [done|]. apply address_eq_component. intros t Ht.
  rewrite (mapping_component reader c built geometry), below_capacity by done.
  unfold compose. rewrite Z.shiftl_mul_pow2, Z.div_mul by lia. by apply parts_component.
Qed.

Lemma mapping_injective x y :
  0 <= x < capacity c -> 0 <= y < capacity c ->
  AddressMapping c x = AddressMapping c y -> x / 2 ^ shift_bits c = y / 2 ^ shift_bits c.
Proof.
  intros Hx Hy Heq. pose proof (shift_nonneg reader c built geometry). pose proof total_nonneg.
  assert (forall z, 0 <= z < capacity c -> 0 <= z / 2 ^ shift_bits c < 2 ^ total) as Hb.
  { intros z Hz. unfold capacity in Hz. rewrite Z.pow_add_r in Hz by lia.
    pose proof (Z.pow_pos_nonneg 2 (shift_bits c)).
    split; [apply Z.div_pos; lia|apply Z.div_lt_upper_bound; lia]. }
  pose proof (below_capacity x Hx) as Wx. pose proof (below_capacity y Hy) as Wy.
  apply Hb in Hx, Hy. destruct (mapping_layout reader c built geometry) as (Hin & _ & Hcov).
  apply Z.bits_inj'. intros i Hi. destruct (Z.lt_ge_cases i total) as [Hlt|];
    [|by rewrite !(testbit_high _ total) by lia].
  destruct (Hcov i (conj Hi Hlt)) as (t & Ht & Hti). pose proof (proj1 (Hin t Ht)).
  pose proof (width_bounds reader c built geometry t Ht).
  pose proof (mapping_component reader c built geometry x t Ht) as Ex.
  rewrite Heq, (mapping_component reader c built geometry y t Ht), Wx, Wy in Ex.
  apply (f_equal (fun z => Z.testbit z (i - position c t))) in Ex.
  rewrite !field_bits in Ex by lia. replace (i - position c t + position c t) with i in Ex by lia.
  destruct (Z.ltb_spec (i - position c t) (width c t)); [done|lia].
Qed.

Lemma mapping_in_geometry x : in_geometry c (AddressMapping c x).
Proof.
  apply in_geometry_component. intros t Ht.
  rewrite (mapping_component reader c built geometry) by done.
  apply Z.mod_pos_bound. pose proof (width_bounds reader c built geometry t Ht). lia.
Qed.

(** A location of the geometry indexes vectors of the configured counts. *)
Lemma mapping_in_range x :
  let a := AddressMapping c x in
  0 <= channel a < channels c /\ 0 <= rank a < ranks c /\
  0 <= bankgroup a < bankgroups c /\ 0 <= bank a < banks_per_group c /\ 0 <= row a.
Proof.
  cbv zeta. pose proof (mapping_in_geometry x) as (H1 & H2 & H3 & H4 & H5 & _).
  pose proof (ranks_positive reader c built geometry) as HR. destruct geometry.
  assert (forall n, 1 <= n < 2 ^ 31 -> 2 ^ LogBase2 n <= n) as Hlog.
  { intros n Hn. rewrite LogBase2_spec by done. apply Z.log2_spec. lia. }
  change (width c "ch") with (LogBase2 (channels c)) in H1.
  change (width c "ra") with (LogBase2 (ranks c)) in H2.
  change (width c "bg") with (LogBase2 (bankgroups c)) in H3.
  change (width c "ba") with (LogBase2 (banks_per_group c)) in H4.
  assert (2 ^ LogBase2 (channels c) <= channels c) by auto.
  assert (2 ^ LogBase2 (ranks c) <= ranks c) by auto.
  assert (2 ^ LogBase2 (bankgroups c) <= bankgroups c) by auto.
  assert (2 ^ LogBase2 (banks_per_group c) <= banks_per_group c) by auto.
  lia.
Qed.
End bijection.

(** C17: The address mapping of a configuration whose addresses have fewer than 64 bits is a
    bijection: every location of the geometry is reached, by the byte address that [compose] puts
    together, which is a [uint64_t] below the capacity; two addresses below the capacity that map to
    the same location lie in the same request; and whatever the address, the location it maps to
    lies inside the geometry and inside the configured counts. *)
Theorem address_mapping_bijective reader c :
  newConfig reader = Ok c -> geometry_ok c ->
  (forall a, in_geometry c a ->
     0 <= compose c a < capacity c /\ AddressMapping c (compose c a) = a) /\
  (forall x y, 0 <= x < capacity c -> 0 <= y < capacity c ->
     AddressMapping c x = AddressMapping c y ->
     x / 2 ^ shift_bits c = y / 2 ^ shift_bits c) /\
  (forall x, in_geometry c (AddressMapping c x) /\
     let a := AddressMapping c x in
     0 <= channel a < channels c /\ 0 <= rank a < ranks c /\
     0 <= bankgroup a < bankgroups c /\ 0 <= bank a < banks_per_group c).
Proof.
  intros Hc Hg. split; [|split].
  - intros a. by apply (compose_mapping reader).
  - intros x y. by apply (mapping_injective reader).
  - intros x. split; [by apply (mapping_in_geometry reader)|].
    pose proof (mapping_in_range reader c Hc Hg x). simpl in *. tauto.
Qed.

(** [configs/HBM1_4Gb_x128.ini], the file of the unit tests, as a reader. *)
Definition hbm1_values : gmap (string * string) Z :=
  list_to_map [(("dram_structure", "bankgroups"), 4); (("dram_structure", "banks_per_group"), 4);
    (("dram_structure", "rows"), 16384); (("dram_structure", "columns"), 64);
    (("dram_structure", "device_width"), 128); (("dram_structure", "BL"), 4);
    (("dram_structure", "num_dies"), 4);
    (("timing", "CL"), 7); (("timing", "CWL"), 2); (("timing", "tRCDRD"), 7);
    (("timing", "tRCDWR"), 7); (("timing", "tRP"), 7); (("timing", "tRAS"), 17);
    (("timing", "tRFC"), 130); (("timing", "tREFI"), 1950); (("timing", "tREFIb"), 64);
    (("timing", "tRRD_S"), 2); (("timing", "tRRD_L"), 3); (("timing", "tWTR_S"), 3);
    (("timing", "tWTR_L"), 4); (("timing", "tFAW"), 15); (("timing", "tWR"), 8);
    (("timing", "tCCD_S"), 1); (("timing", "tCCD_L"), 1); (("timing", "tXS"), 134);
    (("timing", "tCKE"), 4); (("timing", "tXP"), 4);
    (("system", "channel_size"), 512); (("system", "channels"), 8);
    (("system", "bus_width"), 128); (("system", "cmd_queue_size"), 8);
    (("system", "trans_queue_size"), 32); (("other", "epoch_period"), 500000)].

Definition hbm1_strings : gmap (string * string) string :=
  list_to_map [(("dram_structure", "protocol"), "HBM");
    (("system", "address_mapping"), "rorabgbachco");
    (("system", "queue_structure"), "PER_BANK"); (("system", "row_buf_policy"), "OPEN_PAGE")].

Definition hbm1_reader : INIReader := {|
  Get sec opt def := default def (hbm1_strings !! (sec, opt));
  reader_GetInteger sec opt def := default def (hbm1_values !! (sec, opt));
  GetBoolean sec opt def := def |}.

Definition hbm1 : Config :=
  ltac:(let r := eval vm_compute in (newConfig hbm1_reader) in
        match r with Ok ?c => exact c end).

Lemma hbm1_built : newConfig hbm1_reader = Ok hbm1.
Proof. vm_compute. reflexivity. Qed.

Lemma hbm1_geometry : geometry_ok hbm1.
Proof. split; vm_compute; intuition discriminate. Qed.

(** The positions the unit test [tests/test_config.cc] expects of that file. *)
Lemma hbm1_positions :
  (co_pos hbm1, ch_pos hbm1, ba_pos hbm1, bg_pos hbm1, ra_pos hbm1, ro_pos hbm1)
  = (0, 5, 8, 10, 12, 12).
Proof. reflexivity. Qed.

Lemma address_mapping_bijective_witness :
  AddressMapping hbm1 (compose hbm1 (mkAddress 5 0 2 3 17 31)) = mkAddress 5 0 2 3 17 31.
Proof.
  apply (address_mapping_bijective hbm1_reader _ hbm1_built hbm1_geometry).
  vm_compute. intuition discriminate.
Defined.

(** ** Malformed mappings *)

Lemma field_widths_dom s d z t : is_Some (field_widths s d z !! t) <-> t ∈ field_names.
Proof.
  split.
  - intros [w Ht]. unfold field_widths in Ht. rewrite !lookup_insert_Some in Ht.
    unfold field_names. rewrite !elem_of_cons. rewrite lookup_empty in Ht. intuition auto; done.
  - intros Ht. each_field Ht ltac:(eexists; reflexivity).
Qed.

Lemma place_fields_result widths l pos m :
  ((forall t, t ∈ l -> is_Some (widths !! t)) /\
   exists m', place_fields widths l pos m = Ok m' /\
     forall t, is_Some (m' !! t) <-> t ∈ l \/ is_Some (m !! t)) \/
  ((exists t, t ∈ l /\ widths !! t = None) /\ place_fields widths l pos m = Err AbruptExit).
Proof.
  revert pos m. induction l as [|u l IH]; intros pos m; simpl.
  { left. split; [set_solver|]. exists m. set_solver. }
  destruct (widths !! u) as [w|] eqn:Ew.
  - destruct (IH (pos + w) (<[u := pos]> m)) as [(Hk & m' & -> & Hm')|((t & Ht & Hn) & ->)].
    + left. split; [set_solver|]. exists m'. split; [done|]. intros t.
      rewrite Hm', lookup_insert_is_Some', elem_of_cons. intuition (subst; auto).
    + right. split; [|done]. exists t. set_solver.
  - right. split; [|done]. exists u. set_solver.
Qed.

(** Six names that include all the fields are the fields in some order. *)
Lemma fields_permutation l :
  length l = 6%nat -> (forall t, t ∈ field_names -> t ∈ l) -> l ≡ₚ field_names.
Proof.
  intros Hl Hin. symmetry. apply submseteq_length_Permutation; [|by rewrite Hl].
  apply NoDup_submseteq; [is_field|done].
Qed.

Lemma map_at_None m k : m !! k = None -> map_at m k = Err Uncaught.
Proof. unfold map_at. by intros ->. Qed.

Lemma SetAddressMapping_result s d z :
  let m := address_mapping s in
  String.length m = 12%nat -> (forall t, t ∈ fields_of m -> t ∈ field_names) ->
  (fields_of m ≡ₚ field_names /\ exists a, SetAddressMapping s d z = Ok a) \/
  (~ fields_of m ≡ₚ field_names /\ SetAddressMapping s d z = Err Uncaught).
Proof.
  intros m Hlen Hknown. unfold SetAddressMapping. fold m. rewrite Hlen. simpl.
  destruct (place_fields_result (field_widths s d z) (rev (fields_of m)) 0 ∅)
    as [(_ & fp & -> & Hfp)|((t & Ht & Hn) & _)]; cycle 1.
  { apply list_elem_of_In, in_rev, list_elem_of_In in Ht. apply Hknown, (field_widths_dom s d z) in Ht as [w Hw].
    congruence. }
  simpl.
  assert (forall t, t ∈ field_names -> exists w, map_at (field_widths s d z) t = Ok w) as Hw.
  { intros t Ht. apply (field_widths_dom s d z) in Ht as [w Hw]. exists w. by apply map_at_Ok. }
  destruct (decide (Forall (fun t => is_Some (fp !! t)) field_names)) as [Hall|Hmiss].
  - left. rewrite Forall_forall in Hall. split.
    + apply fields_permutation; [by apply fields_of_length|]. intros t Ht.
      apply Hall, Hfp in Ht as [Ht|Ht]; [by apply list_elem_of_In, in_rev, list_elem_of_In in Ht|].
      rewrite lookup_empty in Ht. by destruct Ht.
    + repeat match goal with
      | |- context [map_at fp ?t] =>
          let E := fresh in destruct (Hall t ltac:(is_field)) as [? E];
          rewrite (proj2 (map_at_Ok _ _ _) E); cbn [mbind res_bind]
      end.
      repeat match goal with
      | |- context [map_at (field_widths s d z) ?t] =>
          destruct (Hw t ltac:(is_field)) as [? ->]; cbn [mbind res_bind]
      end. by eexists.
  - right. split.
    + intros Hp. apply Hmiss, Forall_forall. intros t Ht. apply Hfp. left.
      apply list_elem_of_In, in_rev. rewrite rev_involutive. apply list_elem_of_In.
      by rewrite Hp.
    + repeat match goal with
      | |- context [map_at fp ?t] =>
          let E := fresh in destruct (fp !! t) eqn:E;
          [rewrite (proj2 (map_at_Ok _ _ _) E); simpl
          |rewrite (map_at_None _ _ E); reflexivity]
      end.
      exfalso. apply Hmiss. repeat (apply Forall_cons_2; [by eexists|]). constructor.
Qed.

(** [SetAddressMapping] accepts a mapping string exactly when it is the six field names in
    some order; it exits abruptly when the length is not 12 or a field is unknown; and when a
    field is repeated, so that another is missing, [std::map::at] throws. *)
Theorem mapping_string_errors s d z :
  let m := address_mapping s in
  ((exists a, SetAddressMapping s d z = Ok a) <->
     String.length m = 12%nat /\ fields_of m ≡ₚ field_names) /\
  (SetAddressMapping s d z = Err AbruptExit <->
     String.length m <> 12%nat \/ exists t, t ∈ fields_of m /\ t ∉ field_names) /\
  (SetAddressMapping s d z = Err Uncaught <->
     String.length m = 12%nat /\ (forall t, t ∈ fields_of m -> t ∈ field_names) /\
     ~ fields_of m ≡ₚ field_names).
Proof.
  cbv zeta. set (m := address_mapping s).
  destruct (decide (String.length m = 12%nat)) as [Hlen|Hlen]; cycle 1.
  { assert (SetAddressMapping s d z = Err AbruptExit) as ->.
    { unfold SetAddressMapping. fold m. by rewrite (proj2 (Nat.eqb_neq _ _) Hlen). }
    naive_solver. }
  destruct (decide (Forall (.∈ field_names) (fields_of m))) as [Hk|Hk].
  - rewrite Forall_forall in Hk.
    destruct (SetAddressMapping_result s d z Hlen Hk) as [[Hp [a Ha]]|[Hp ->]].
    + rewrite Ha. naive_solver.
    + naive_solver.
  - apply not_Forall_Exists, Exists_exists in Hk as (t & Ht & Hn); [|apply _].
    assert (SetAddressMapping s d z = Err AbruptExit) as ->.
    { unfold SetAddressMapping. fold m. rewrite Hlen. simpl.
      destruct (place_fields_result (field_widths s d z) (rev (fields_of m)) 0 ∅)
        as [(Hall & _)|(_ & ->)]; [|done].
      destruct Hn. apply (field_widths_dom s d z), Hall, list_elem_of_In.
      apply in_rev. rewrite rev_involutive. by apply list_elem_of_In. }
    assert (~ fields_of m ≡ₚ field_names) by (intros Hp; apply Hn; by rewrite <-Hp).
    naive_solver.
Qed.
