(* ===== verification/DramTiming.v ===== *)
(** * Timing tables of the DRAM simulator

    [DRAMSIM3/src/timing.h] and [timing.cc]: the constructor of [Timing], which turns the
    timing parameters of a configuration into five tables.  Entry [cmd] of a table lists, for
    banks in one relation to the bank of [cmd], the commands that must wait and for how long. *)
From S2P Require Import Prelude DramCommon DramConfig.
Local Open Scope Z_scope.

Definition table : Type := list (list (CommandType * Z)).

Record Timing := mkTiming {
  same_bank : table; other_banks_same_bankgroup : table;
  other_bankgroups_same_rank : table; other_ranks : table; same_rank : table }.

(** Five vectors of [CommandType::SIZE] empty lists. *)
Definition empty_table : table := replicate 10 [].
Definition Timing0 : Timing :=
  mkTiming empty_table empty_table empty_table empty_table empty_table.

(** [table[static_cast<int>(cmd)] = l], [cmd] a real command. *)
Definition assign (cmd : CommandType) (l : list (CommandType * Z)) (t : table) : table :=
  <[Z.to_nat (ct_index cmd) := l]> t.

Definition set_same_bank cmd l (t : Timing) : Timing :=
  mkTiming (assign cmd l (same_bank t)) (other_banks_same_bankgroup t)
    (other_bankgroups_same_rank t) (other_ranks t) (same_rank t).
Definition set_other_banks cmd l (t : Timing) : Timing :=
  mkTiming (same_bank t) (assign cmd l (other_banks_same_bankgroup t))
    (other_bankgroups_same_rank t) (other_ranks t) (same_rank t).
Definition set_other_bankgroups cmd l (t : Timing) : Timing :=
  mkTiming (same_bank t) (other_banks_same_bankgroup t)
    (assign cmd l (other_bankgroups_same_rank t)) (other_ranks t) (same_rank t).
Definition set_other_ranks cmd l (t : Timing) : Timing :=
  mkTiming (same_bank t) (other_banks_same_bankgroup t) (other_bankgroups_same_rank t)
    (assign cmd l (other_ranks t)) (same_rank t).
Definition set_same_rank cmd l (t : Timing) : Timing :=
  mkTiming (same_bank t) (other_banks_same_bankgroup t) (other_bankgroups_same_rank t)
    (other_ranks t) (assign cmd l (same_rank t)).

(** ** The delays *)

(** The local variables of the constructor. *)
Record delays := mkDelays {
  read_to_read_l : Z; read_to_read_s : Z; read_to_read_o : Z; read_to_write : Z;
  read_to_write_o : Z; read_to_precharge : Z; readp_to_act : Z;
  write_to_read_l : Z; write_to_read_s : Z; write_to_read_o : Z;
  write_to_write_l : Z; write_to_write_s : Z; write_to_write_o : Z; write_to_precharge : Z;
  precharge_to_activate : Z; precharge_to_precharge : Z;
  read_to_activate : Z; write_to_activate : Z;
  activate_to_activate : Z; activate_to_activate_l : Z; activate_to_activate_s : Z;
  activate_to_precharge : Z; activate_to_read : Z; activate_to_write : Z;
  activate_to_refresh : Z;
  refresh_to_refresh : Z; refresh_to_activate : Z; refresh_to_activate_bank : Z;
  self_refresh_entry_to_exit : Z; self_refresh_exit : Z }.

Definition delays_of (config : Config) : delays :=
  let short := bankgroups config =? 1 in
  let read_to_precharge := AL config + tRTP config in
  let write_to_precharge := WL config + burst_cycle config + tWR config in
  let precharge_to_activate := tRP config in
  {| read_to_read_l :=
       Z.max (burst_cycle config) (if short then tCCD_S config else tCCD_L config);
     read_to_read_s := Z.max (burst_cycle config) (tCCD_S config);
     read_to_read_o := burst_cycle config + tRTRS config;
     read_to_write := RL config + burst_cycle config - WL config + tRTRS config;
     read_to_write_o :=
       read_delay config + burst_cycle config + tRTRS config - write_delay config;
     read_to_precharge := read_to_precharge;
     readp_to_act := AL config + burst_cycle config + tRTP config + tRP config;
     write_to_read_l :=
       write_delay config + (if short then tWTR_S config else tWTR_L config);
     write_to_read_s := write_delay config + tWTR_S config;
     write_to_read_o :=
       write_delay config + burst_cycle config + tRTRS config - read_delay config;
     write_to_write_l :=
       Z.max (burst_cycle config) (if short then tCCD_S config else tCCD_L config);
     write_to_write_s := Z.max (burst_cycle config) (tCCD_S config);
     write_to_write_o := burst_cycle config;
     write_to_precharge := write_to_precharge;
     precharge_to_activate := precharge_to_activate;
     precharge_to_precharge := tPPD config;
     read_to_activate := read_to_precharge + precharge_to_activate;
     write_to_activate := write_to_precharge + precharge_to_activate;
     activate_to_activate := tRC config;
     activate_to_activate_l := if short then tRRD_S config else tRRD_L config;
     activate_to_activate_s := tRRD_S config;
     activate_to_precharge := tRAS config;
     activate_to_read :=
       if IsGDDR config || IsHBM config then tRCDRD config else tRCD config - AL config;
     activate_to_write :=
       if IsGDDR config || IsHBM config then tRCDWR config else tRCD config - AL config;
     activate_to_refresh := tRC config;
     refresh_to_refresh := tREFI config;
     refresh_to_activate := tRFC config;
     refresh_to_activate_bank := tRFCb config;
     self_refresh_entry_to_exit := tCKESR config;
     self_refresh_exit := tXS config |}.

(** The four access commands wait [r] when they read and [w] when they write, in the order the
    source lists them. *)
Definition accesses (r w : Z) : list (CommandType * Z) :=
  [(READ, r); (WRITE, w); (READ_PRECHARGE, r); (WRITE_PRECHARGE, w)].

(** What must wait [d] after a bank has started to close. *)
Definition reopenings (act d : Z) : list (CommandType * Z) :=
  [(ACTIVATE, act); (REFRESH, d); (REFRESH_BANK, d); (SREF_ENTER, d)].

(** ** The tables, command by command *)

Section tables.
Context (config : Config).
Let v := delays_of config.

Definition after_READ (t : Timing) : Timing :=
  let t := set_same_bank READ
    (accesses (read_to_read_l v) (read_to_write v) ++ [(PRECHARGE, read_to_precharge v)]) t in
  let t := set_other_banks READ (accesses (read_to_read_l v) (read_to_write v)) t in
  let t := set_other_bankgroups READ (accesses (read_to_read_s v) (read_to_write v)) t in
  set_other_ranks READ (accesses (read_to_read_o v) (read_to_write_o v)) t.

Definition after_WRITE (t : Timing) : Timing :=
  let t := set_same_bank WRITE
    (accesses (write_to_read_l v) (write_to_write_l v)
       ++ [(PRECHARGE, write_to_precharge v)]) t in
  let t := set_other_banks WRITE (accesses (write_to_read_l v) (write_to_write_l v)) t in
  let t := set_other_bankgroups WRITE (accesses (write_to_read_s v) (write_to_write_s v)) t in
  set_other_ranks WRITE (accesses (write_to_read_o v) (write_to_write_o v)) t.

Definition after_READ_PRECHARGE (t : Timing) : Timing :=
  let t := set_same_bank READ_PRECHARGE
    (reopenings (readp_to_act v) (read_to_activate v)) t in
  let t := set_other_banks READ_PRECHARGE
    (accesses (read_to_read_l v) (read_to_write v)) t in
  let t := set_other_bankgroups READ_PRECHARGE
    (accesses (read_to_read_s v) (read_to_write v)) t in
  set_other_ranks READ_PRECHARGE (accesses (read_to_read_o v) (read_to_write_o v)) t.

Definition after_WRITE_PRECHARGE (t : Timing) : Timing :=
  let t := set_same_bank WRITE_PRECHARGE
    (reopenings (write_to_activate v) (write_to_activate v)) t in
  let t := set_other_banks WRITE_PRECHARGE
    (accesses (write_to_read_l v) (write_to_write_l v)) t in
  let t := set_other_bankgroups WRITE_PRECHARGE
    (accesses (write_to_read_s v) (write_to_write_s v)) t in
  set_other_ranks WRITE_PRECHARGE (accesses (write_to_read_o v) (write_to_write_o v)) t.

Definition after_ACTIVATE (t : Timing) : Timing :=
  let t := set_same_bank ACTIVATE
    [(ACTIVATE, activate_to_activate v); (READ, activate_to_read v);
     (WRITE, activate_to_write v); (READ_PRECHARGE, activate_to_read v);
     (WRITE_PRECHARGE, activate_to_write v); (PRECHARGE, activate_to_precharge v)] t in
  let t := set_other_banks ACTIVATE
    [(ACTIVATE, activate_to_activate_l v); (REFRESH_BANK, activate_to_refresh v)] t in
  set_other_bankgroups ACTIVATE
    [(ACTIVATE, activate_to_activate_s v); (REFRESH_BANK, activate_to_refresh v)] t.

Definition after_PRECHARGE (t : Timing) : Timing :=
  let t := set_same_bank PRECHARGE
    (reopenings (precharge_to_activate v) (precharge_to_activate v)) t in
  if IsGDDR config || bool_decide (protocol config = LPDDR4) then
    let t := set_other_banks PRECHARGE [(PRECHARGE, precharge_to_precharge v)] t in
    set_other_bankgroups PRECHARGE [(PRECHARGE, precharge_to_precharge v)] t
  else t.

(** The first table is written to [same_rank], as in the source. *)
Definition after_REFRESH_BANK (t : Timing) : Timing :=
  let t := set_same_rank REFRESH_BANK
    (reopenings (refresh_to_activate_bank v) (refresh_to_activate_bank v)) t in
  let t := set_other_banks REFRESH_BANK
    [(ACTIVATE, refresh_to_activate v); (REFRESH_BANK, refresh_to_refresh v)] t in
  set_other_bankgroups REFRESH_BANK
    [(ACTIVATE, refresh_to_activate v); (REFRESH_BANK, refresh_to_refresh v)] t.

Definition after_rank_commands (t : Timing) : Timing :=
  let t := set_same_rank REFRESH
    [(ACTIVATE, refresh_to_activate v); (REFRESH, refresh_to_activate v);
     (SREF_ENTER, refresh_to_activate v)] t in
  let t := set_same_rank SREF_ENTER [(SREF_EXIT, self_refresh_entry_to_exit v)] t in
  set_same_rank SREF_EXIT (reopenings (self_refresh_exit v) (self_refresh_exit v)) t.

Definition newTiming : Timing :=
  after_rank_commands (after_REFRESH_BANK (after_PRECHARGE (after_ACTIVATE
    (after_WRITE_PRECHARGE (after_READ_PRECHARGE (after_WRITE (after_READ Timing0))))))).
End tables.

(** Look a command up in a table. *)
Definition entries (t : table) (cmd : CommandType) : M (list (CommandType * Z)) :=
  vget t (ct_index cmd).

(** ** Shape of the tables *)

(** Ten entries, none of which constrains [CommandType::SIZE]. *)
Definition table_ok (t : table) : Prop :=
  length t = 10%nat /\ Forall (Forall (fun e => fst e <> CT_SIZE)) t.

Record Timing_ok (t : Timing) : Prop := {
  ok_same_bank : table_ok (same_bank t);
  ok_other_banks : table_ok (other_banks_same_bankgroup t);
  ok_other_bankgroups : table_ok (other_bankgroups_same_rank t);
  ok_other_ranks : table_ok (other_ranks t);
  ok_same_rank : table_ok (same_rank t) }.

Lemma entries_Ok t cmd :
  table_ok t -> cmd <> CT_SIZE ->
  exists l, entries t cmd = Ok l /\ Forall (fun e => fst e <> CT_SIZE) l.
Proof.
  intros [Hlen Hall] Hc. unfold entries.
  destruct (vget_in_range t (ct_index cmd)) as [l Hl]; [rewrite Hlen; by destruct cmd|].
  exists l. split; [done|]. rewrite Forall_forall in Hall. apply Hall.
  apply vget_Ok in Hl as [_ Hl]. by eapply list_elem_of_lookup_2.
Qed.

(** Every configuration gives well-formed tables. *)
Lemma newTiming_ok config : Timing_ok (newTiming config).
Proof.
  unfold newTiming, after_PRECHARGE.
  destruct (IsGDDR config || bool_decide (protocol config = LPDDR4));
    split; (split; [done|]); repeat constructor; done.
Qed.
