(* ===== verification/BankState.v ===== *)
(** * State of a DRAM bank

    [DRAMSIM3/src/bankstate.h] and [bankstate.cc]: the state machine of a bank, its open row and
    row-hit count, and the earliest time of each command. *)
From S2P Require Import Prelude DramCommon.
Local Open Scope Z_scope.

Inductive State := OPEN | CLOSED | SREF | PD | ST_SIZE.

#[export] Instance State_eq_dec : EqDecision State.
Proof. solve_decision. Defined.

Record BankState := mkBank {
  state_ : State; cmd_timing_ : list Z; open_row_ : Z; row_hit_count_ : Z }.

(** [BankState::BankState]. *)
Definition newBankState : BankState := mkBank CLOSED (replicate 10 0) (-1) 0.

Definition IsRowOpen (b : BankState) : bool := bool_decide (state_ b = OPEN).
Definition OpenRow (b : BankState) : Z := open_row_ b.
Definition RowHitCount (b : BankState) : Z := row_hit_count_ b.

(** The [switch] of [GetReadyCommand]: the command that has to be issued next. *)
Definition required_type (b : BankState) (cmd : Command) : M CommandType :=
  match state_ b with
  | CLOSED =>
      match cmd_type cmd with
      | READ | READ_PRECHARGE | WRITE | WRITE_PRECHARGE => Ok ACTIVATE
      | REFRESH | REFRESH_BANK | SREF_ENTER => Ok (cmd_type cmd)
      | _ => Err AbruptExit
      end
  | OPEN =>
      match cmd_type cmd with
      | READ | READ_PRECHARGE | WRITE | WRITE_PRECHARGE =>
          if Row cmd =? open_row_ b then Ok (cmd_type cmd) else Ok PRECHARGE
      | REFRESH | REFRESH_BANK | SREF_ENTER => Ok PRECHARGE
      | _ => Err AbruptExit
      end
  | SREF =>
      match cmd_type cmd with
      | READ | READ_PRECHARGE | WRITE | WRITE_PRECHARGE => Ok SREF_EXIT
      | _ => Err AbruptExit
      end
  | PD | ST_SIZE => Err AbruptExit
  end.

Definition GetReadyCommand (b : BankState) (cmd : Command) (clk : Z) : M Command :=
  required_type ← required_type b cmd;
  if negb (ct_eqb required_type CT_SIZE) then
    t ← vget (cmd_timing_ b) (ct_index required_type);
    if t <=? clk then Ok (mkCommand required_type (addr cmd) (hex_addr cmd))
    else Ok noCommand
  else Ok noCommand.

Definition UpdateState (b : BankState) (cmd : Command) : M BankState :=
  match state_ b with
  | OPEN =>
      match cmd_type cmd with
      | READ | WRITE => Ok (mkBank OPEN (cmd_timing_ b) (open_row_ b) (s32 (row_hit_count_ b + 1)))
      | READ_PRECHARGE | WRITE_PRECHARGE | PRECHARGE =>
          Ok (mkBank CLOSED (cmd_timing_ b) (-1) 0)
      | _ => Err AbruptExit
      end
  | CLOSED =>
      match cmd_type cmd with
      | REFRESH | REFRESH_BANK => Ok b
      | ACTIVATE => Ok (mkBank OPEN (cmd_timing_ b) (Row cmd) (row_hit_count_ b))
      | SREF_ENTER => Ok (mkBank SREF (cmd_timing_ b) (open_row_ b) (row_hit_count_ b))
      | _ => Err AbruptExit
      end
  | SREF =>
      match cmd_type cmd with
      | SREF_EXIT => Ok (mkBank CLOSED (cmd_timing_ b) (open_row_ b) (row_hit_count_ b))
      | _ => Err AbruptExit
      end
  | PD | ST_SIZE => Err AbruptExit
  end.

Definition UpdateTiming (b : BankState) (cmd_type : CommandType) (time : Z) : M BankState :=
  t ← vget (cmd_timing_ b) (ct_index cmd_type);
  ts ← vset (cmd_timing_ b) (ct_index cmd_type) (Z.max t time);
  Ok (mkBank (state_ b) ts (open_row_ b) (row_hit_count_ b)).

(** ** Invariant *)

(** The state is one the code uses; only an open bank has a row and row hits. *)
Record bank_ok (b : BankState) : Prop := {
  bank_timing_len : length (cmd_timing_ b) = 10%nat;
  bank_state : state_ b = OPEN \/ state_ b = CLOSED \/ state_ b = SREF;
  bank_row : if IsRowOpen b then 0 <= open_row_ b
             else open_row_ b = -1 /\ row_hit_count_ b = 0 }.

(** The earliest time of a command. *)
Definition timing_of (b : BankState) (t : CommandType) : Z :=
  default 0 (cmd_timing_ b !! Z.to_nat (ct_index t)).

Lemma newBankState_ok : bank_ok newBankState.
Proof. split; simpl; auto; lia. Qed.

Lemma vget_timing b t :
  bank_ok b -> t <> CT_SIZE -> vget (cmd_timing_ b) (ct_index t) = Ok (timing_of b t).
Proof.
  intros Hb Ht. apply vget_Ok. split; [by destruct t|]. unfold timing_of.
  destruct (lookup_lt_is_Some_2 (cmd_timing_ b) (Z.to_nat (ct_index t))) as [x ->]; [|done].
  rewrite (bank_timing_len b Hb). destruct t; simpl; try lia; done.
Qed.

Lemma ct_index_inj t u : ct_index t = ct_index u -> t = u.
Proof. destruct t, u; done. Qed.

Lemma ct_index_nonneg t : 0 <= ct_index t.
Proof. by destruct t. Qed.

(** [UpdateTiming] raises one bound and touches nothing else. *)
Lemma UpdateTiming_spec b t time :
  bank_ok b -> t <> CT_SIZE ->
  exists b', UpdateTiming b t time = Ok b' /\ bank_ok b' /\
    state_ b' = state_ b /\ open_row_ b' = open_row_ b /\ row_hit_count_ b' = row_hit_count_ b /\
    forall u, timing_of b' u = if ct_eqb u t then Z.max (timing_of b t) time else timing_of b u.
Proof.
  intros Hb Ht. unfold UpdateTiming. rewrite vget_timing by done. simpl.
  assert (0 <= ct_index t < Z.of_nat (length (cmd_timing_ b))) as Hr
    by (rewrite (bank_timing_len b Hb); by destruct t).
  rewrite vset_Ok by done. simpl. eexists. split; [done|]. split; [|split_and!; try done].
  - destruct Hb. split; simpl; [by rewrite length_insert|done..].
  - intros u. unfold timing_of. simpl. unfold ct_eqb. case_bool_decide as E.
    + subst. by rewrite list_lookup_insert_eq by lia.
    + rewrite list_lookup_insert_ne; [done|]. intros Heq. apply E, ct_index_inj.
      pose proof (ct_index_nonneg u). pose proof (ct_index_nonneg t). lia.
Qed.

(** ** Readiness *)

Lemma required_type_valid b cmd t : required_type b cmd = Ok t -> t <> CT_SIZE.
Proof.
  unfold required_type. destruct (state_ b), (cmd_type cmd);
    try destruct (Row cmd =? open_row_ b); naive_solver.
Qed.

(** [GetReadyCommand] returns the required command once its time has come. *)
Lemma GetReadyCommand_spec b cmd clk :
  bank_ok b ->
  GetReadyCommand b cmd clk =
    (t ← required_type b cmd;
     if timing_of b t <=? clk then Ok (mkCommand t (addr cmd) (hex_addr cmd))
     else Ok noCommand).
Proof.
  intros Hb. unfold GetReadyCommand. destruct (required_type b cmd) as [t| |] eqn:E; try done.
  simpl. pose proof (required_type_valid _ _ _ E) as Ht.
  unfold ct_eqb. rewrite bool_decide_eq_false_2 by done. simpl. by rewrite vget_timing.
Qed.

Lemma GetReadyCommand_inv b cmd clk c :
  bank_ok b -> GetReadyCommand b cmd clk = Ok c -> IsValid c = true ->
  required_type b cmd = Ok (cmd_type c) /\ timing_of b (cmd_type c) <= clk /\
  c = mkCommand (cmd_type c) (addr cmd) (hex_addr cmd).
Proof.
  intros Hb. rewrite GetReadyCommand_spec by done.
  destruct (required_type b cmd) as [t| |]; try done. simpl.
  destruct (Z.leb_spec (timing_of b t) clk); intros [= <-]; done.
Qed.

(** The requests a bank is asked to serve. *)
Definition is_request (t : CommandType) : bool :=
  match t with
  | READ | READ_PRECHARGE | WRITE | WRITE_PRECHARGE | REFRESH | REFRESH_BANK | SREF_ENTER =>
      true
  | _ => false
  end.

Definition is_access (t : CommandType) : bool :=
  match t with READ | READ_PRECHARGE | WRITE | WRITE_PRECHARGE => true | _ => false end.

(** When [GetReadyCommand] leaves the program. *)
Lemma request_errors b cmd clk :
  bank_ok b ->
  (GetReadyCommand b cmd clk = Err AbruptExit <->
     is_request (cmd_type cmd) = false \/
     (state_ b = SREF /\ is_access (cmd_type cmd) = false)) /\
  (forall e, GetReadyCommand b cmd clk = Err e -> e = AbruptExit) /\
  GetReadyCommand b cmd clk <> NoFuel.
Proof.
  intros Hb. rewrite GetReadyCommand_spec by done.
  assert (forall t, (if timing_of b t <=? clk then Ok (mkCommand t (addr cmd) (hex_addr cmd))
                     else Ok noCommand : M Command) <> Err AbruptExit) as Hok
    by (intros t; destruct (timing_of b t <=? clk); done).
  unfold required_type. destruct (bank_state b Hb) as [E|[E|E]]; rewrite E;
    destruct (cmd_type cmd); simpl; try destruct (Row cmd =? open_row_ b); simpl;
    repeat match goal with |- context [?x <=? ?y] => destruct (x <=? y) end;
    intuition congruence.
Qed.

(** ** The bank refines the JEDEC automaton *)

Inductive jedec := Idle | Active (row : Z) | SelfRefresh.

(** One command on a bank of the standard: accesses go to the open row only, refreshes and
    self-refresh need an idle bank. *)
Inductive jedec_step : jedec -> Command -> jedec -> Prop :=
| step_activate c : cmd_type c = ACTIVATE -> jedec_step Idle c (Active (Row c))
| step_access r c :
    cmd_type c = READ \/ cmd_type c = WRITE -> Row c = r -> jedec_step (Active r) c (Active r)
| step_access_close r c :
    cmd_type c = READ_PRECHARGE \/ cmd_type c = WRITE_PRECHARGE -> Row c = r ->
    jedec_step (Active r) c Idle
| step_precharge r c : cmd_type c = PRECHARGE -> jedec_step (Active r) c Idle
| step_refresh c : IsRefresh c = true -> jedec_step Idle c Idle
| step_enter c : cmd_type c = SREF_ENTER -> jedec_step Idle c SelfRefresh
| step_exit c : cmd_type c = SREF_EXIT -> jedec_step SelfRefresh c Idle.

Definition abstract (b : BankState) : jedec :=
  match state_ b with OPEN => Active (open_row_ b) | SREF => SelfRefresh | _ => Idle end.

Lemma UpdateState_timing b cmd b' :
  UpdateState b cmd = Ok b' -> forall t, timing_of b' t = timing_of b t.
Proof.
  unfold UpdateState. destruct (state_ b), (cmd_type cmd); intros [= <-]; done.
Qed.

Lemma UpdateState_ok b cmd b' :
  bank_ok b -> (cmd_type cmd = ACTIVATE -> 0 <= Row cmd) -> UpdateState b cmd = Ok b' ->
  bank_ok b'.
Proof.
  intros [Hlen Hst Hr] Hrow. unfold UpdateState, IsRowOpen in *.
  destruct (state_ b) eqn:Es, (cmd_type cmd) eqn:Ec; intros [= <-]; simpl in *;
    try specialize (Hrow eq_refl); split; unfold IsRowOpen; simpl; rewrite ?Es; simpl; auto; lia.
Qed.

(** A ready command is accepted and is a step of the automaton. *)
Lemma ready_step b cmd clk c :
  bank_ok b -> (is_access (cmd_type cmd) = true -> 0 <= Row cmd) ->
  GetReadyCommand b cmd clk = Ok c -> IsValid c = true ->
  timing_of b (cmd_type c) <= clk /\
  exists b', UpdateState b c = Ok b' /\ bank_ok b' /\
    jedec_step (abstract b) c (abstract b').
Proof.
  intros Hb Hrow E Hv. destruct (GetReadyCommand_inv _ _ _ _ Hb E Hv) as (Hreq & Ht & Hc).
  split; [done|].
  assert (cmd_type c = ACTIVATE -> 0 <= Row c) as Hact.
  { intros Ha. rewrite Hc. change (0 <= Row cmd). apply Hrow. revert Hreq. rewrite Ha.
    unfold required_type. destruct (state_ b), (cmd_type cmd);
      try destruct (Row cmd =? open_row_ b); naive_solver. }
  assert (exists b', UpdateState b c = Ok b' /\ jedec_step (abstract b) c (abstract b'))
    as (b' & Hu & Hj); [|eauto using UpdateState_ok].
  assert (Row c = Row cmd) as HR by by rewrite Hc.
  clear E Hv Hb Ht Hact Hrow Hc. unfold required_type in Hreq. unfold UpdateState, abstract.
  destruct (state_ b) eqn:Es, (cmd_type cmd) eqn:Ec; try discriminate Hreq;
    try destruct (Z.eqb_spec (Row cmd) (open_row_ b)); injection Hreq as Hreq;
    rewrite <-Hreq; (eexists; split; [reflexivity|]); cbn [state_ open_row_]; rewrite ?Es.
  all: first
    [ apply step_access; [rewrite <-Hreq; tauto|congruence]
    | apply step_access_close; [rewrite <-Hreq; tauto|congruence]
    | apply step_precharge; congruence
    | apply step_refresh; unfold IsRefresh; rewrite <-Hreq; reflexivity
    | apply step_enter; congruence | apply step_exit; congruence
    | apply step_activate; congruence ].
Qed.

(** C35: A command that [GetReadyCommand] returns is always accepted by [UpdateState], which
    then makes a step of the JEDEC bank automaton: reads and writes go to the open row, a bank
    is closed before it is refreshed or put to sleep.  The time of the command has come, and
    the invariant of the bank is preserved. *)
Theorem bank_refines_jedec b cmd clk c :
  bank_ok b -> (is_access (cmd_type cmd) = true -> 0 <= Row cmd) ->
  GetReadyCommand b cmd clk = Ok c -> IsValid c = true ->
  timing_of b (cmd_type c) <= clk /\
  exists b', UpdateState b c = Ok b' /\ bank_ok b' /\
    jedec_step (abstract b) c (abstract b').
Proof. apply ready_step. Qed.

Definition req (t : CommandType) (r : Z) : Command :=
  mkCommand t (mkAddress 0 0 0 0 r 0) 64.

Lemma bank_refines_jedec_witness :
  exists b', UpdateState newBankState (req ACTIVATE 5) = Ok b' /\ abstract b' = Active 5.
Proof.
  destruct (bank_refines_jedec newBankState (req READ 5) 9 (req ACTIVATE 5))
    as (_ & b' & E & _ & J); [apply newBankState_ok|done|reflexivity|reflexivity|].
  exists b'. split; [exact E|]. injection E as <-. reflexivity.
Defined.

(** ** A request is served in at most three commands *)

(** Issue what the bank asks for until the request itself is issued. *)
Fixpoint serve (fuel : nat) (b : BankState) (cmd : Command) (clk : Z)
    : M (list CommandType * BankState) :=
  match fuel with
  | O => NoFuel
  | S fuel =>
      c ← GetReadyCommand b cmd clk;
      b' ← UpdateState b c;
      if ct_eqb (cmd_type c) (cmd_type cmd) then Ok ([cmd_type c], b')
      else '(l, b'') ← serve fuel b' cmd clk; Ok (cmd_type c :: l, b'')
  end.

Section serving.
Context (cmd : Command) (clk : Z).
Hypothesis access : is_access (cmd_type cmd) = true.
Hypothesis row_ok : 0 <= Row cmd.

(** A bank whose constraints have all passed. *)
Definition rested (b : BankState) : Prop := bank_ok b /\ forall t, timing_of b t <= clk.

Lemma serve_step n b t b' :
  rested b -> required_type b cmd = Ok t ->
  UpdateState b (mkCommand t (addr cmd) (hex_addr cmd)) = Ok b' ->
  rested b' /\
  serve (S n) b cmd clk =
    if ct_eqb t (cmd_type cmd) then Ok ([t], b')
    else '(l, b'') ← serve n b' cmd clk; Ok (t :: l, b'').
Proof.
  intros [Hb Ht] Hr Hu. split.
  - split; [refine (UpdateState_ok b _ b' Hb _ Hu); intros _; exact row_ok|]. intros u. by rewrite (UpdateState_timing _ _ _ Hu).
  - cbn [serve]. rewrite GetReadyCommand_spec by done. rewrite Hr. simpl.
    rewrite (proj2 (Z.leb_le _ _) (Ht t)). simpl. by rewrite Hu.
Qed.

Lemma serve_open n b :
  rested b -> state_ b = OPEN -> open_row_ b = Row cmd ->
  exists b', serve (S n) b cmd clk = Ok ([cmd_type cmd], b') /\ rested b'.
Proof.
  intros Hb Hs Hr.
  assert (exists b', UpdateState b (mkCommand (cmd_type cmd) (addr cmd) (hex_addr cmd)) = Ok b')
    as [b' Hu] by (unfold UpdateState; rewrite Hs; simpl; destruct (cmd_type cmd); eauto; done).
  exists b'. destruct (serve_step n b (cmd_type cmd) b' Hb) as [Hb' ->]; try done.
  - unfold required_type. rewrite Hs, Hr, Z.eqb_refl. by destruct (cmd_type cmd).
  - unfold ct_eqb. by rewrite bool_decide_eq_true_2.
Qed.

Lemma serve_closed n b :
  rested b -> state_ b = CLOSED ->
  exists b', serve (S (S n)) b cmd clk = Ok ([ACTIVATE; cmd_type cmd], b') /\ rested b'.
Proof.
  intros Hb Hs.
  destruct (serve_step (S n) b ACTIVATE (mkBank OPEN (cmd_timing_ b) (Row cmd) (row_hit_count_ b)) Hb)
    as [Hb' ->].
  - unfold required_type. rewrite Hs. by destruct (cmd_type cmd).
  - unfold UpdateState. by rewrite Hs.
  - destruct (serve_open n _ Hb') as (b' & -> & Hb''); [done..|].
    exists b'. split; [|done]. by destruct (cmd_type cmd).
Qed.
End serving.

(** Whatever state a bank is in, a read or write is issued after at most two preparing
    commands once the bank's timing constraints have passed: a precharge or a self-refresh
    exit, and an activation. *)
Theorem bank_serves b cmd clk :
  bank_ok b -> is_access (cmd_type cmd) = true -> 0 <= Row cmd ->
  (forall t, timing_of b t <= clk) ->
  exists l b', serve 3 b cmd clk = Ok (l, b') /\ (length l <= 3)%nat /\
    last l = Some (cmd_type cmd) /\ bank_ok b'.
Proof.
  intros Hb Ha Hrow Ht. assert (rested clk b) as HR by done.
  assert (forall t b1, required_type b cmd = Ok t -> ct_eqb t (cmd_type cmd) = false ->
    UpdateState b (mkCommand t (addr cmd) (hex_addr cmd)) = Ok b1 -> state_ b1 = CLOSED ->
    exists l b', serve 3 b cmd clk = Ok (l, b') /\ (length l <= 3)%nat /\
      last l = Some (cmd_type cmd) /\ bank_ok b') as Hprep.
  { intros t b1 Hr Hne Hu Hs. destruct (serve_step cmd clk Hrow 2 b t b1 HR Hr Hu) as [HR' ->].
    rewrite Hne. destruct (serve_closed cmd clk Ha Hrow 0 b1 HR' Hs) as (b' & -> & [? _]).
    exists [t; ACTIVATE; cmd_type cmd], b'. split_and!; simpl; done || lia. }
  destruct (bank_state b Hb) as [E|[E|E]].
  - destruct (decide (open_row_ b = Row cmd)) as [Er|Er].
    + destruct (serve_open cmd clk Ha Hrow 2 b HR E Er) as (b' & -> & [? _]).
      exists [cmd_type cmd], b'. split_and!; simpl; done || lia.
    + apply (Hprep PRECHARGE (mkBank CLOSED (cmd_timing_ b) (-1) 0)); try done.
      * unfold required_type. rewrite E.
        destruct (cmd_type cmd); try done; destruct (Z.eqb_spec (Row cmd) (open_row_ b)); congruence.
      * by destruct (cmd_type cmd).
      * unfold UpdateState. by rewrite E.
  - destruct (serve_closed cmd clk Ha Hrow 1 b HR E) as (b' & -> & [? _]).
    exists [ACTIVATE; cmd_type cmd], b'. split_and!; simpl; done || lia.
  - apply (Hprep SREF_EXIT (mkBank CLOSED (cmd_timing_ b) (open_row_ b) (row_hit_count_ b))); try done.
    + unfold required_type. rewrite E. by destruct (cmd_type cmd).
    + by destruct (cmd_type cmd).
    + unfold UpdateState. by rewrite E.
Qed.

Lemma bank_serves_witness :
  exists l b', serve 3 (mkBank OPEN (replicate 10 4) 3 2) (req WRITE 5) 9 = Ok (l, b') /\
    l = [PRECHARGE; ACTIVATE; WRITE].
Proof.
  destruct (bank_serves (mkBank OPEN (replicate 10 4) 3 2) (req WRITE 5) 9) as (l & b' & E & _).
  - split; simpl; auto; lia.
  - reflexivity.
  - done.
  - intros t. by destruct t.
  - exists l, b'. split; [exact E|]. vm_compute in E. by injection E as <- _.
Defined.
