(* ===== verification/ChannelState.v ===== *)
(** * State of a DRAM channel

    [DRAMSIM3/src/channel_state.h] and [channel_state.cc]: the banks of all ranks, the ranks in
    self-refresh, the queue of pending refreshes and the activation windows; readiness of a
    command, and the update of states and timing constraints when it is issued. *)
From S2P Require Import Prelude DramCommon DramConfig DramTiming BankState.
Local Open Scope Z_scope.

Abbreviation bank_array := (list (list (list BankState))).

Record ChannelState := mkChannel {
  rank_idle_cycles : list Z;
  rank_is_sref_ : list bool;
  bank_states_ : bank_array;
  refresh_q_ : list Command;
  four_aw_ : list (list Z);
  thirty_two_aw_ : list (list Z) }.

Definition set_idle (s : ChannelState) v : ChannelState :=
  mkChannel v (rank_is_sref_ s) (bank_states_ s) (refresh_q_ s) (four_aw_ s) (thirty_two_aw_ s).
Definition set_sref (s : ChannelState) v : ChannelState :=
  mkChannel (rank_idle_cycles s) v (bank_states_ s) (refresh_q_ s) (four_aw_ s) (thirty_two_aw_ s).
Definition set_banks (s : ChannelState) v : ChannelState :=
  mkChannel (rank_idle_cycles s) (rank_is_sref_ s) v (refresh_q_ s) (four_aw_ s) (thirty_two_aw_ s).
Definition set_refresh_q (s : ChannelState) v : ChannelState :=
  mkChannel (rank_idle_cycles s) (rank_is_sref_ s) (bank_states_ s) v (four_aw_ s) (thirty_two_aw_ s).
Definition set_windows (s : ChannelState) v w : ChannelState :=
  mkChannel (rank_idle_cycles s) (rank_is_sref_ s) (bank_states_ s) (refresh_q_ s) v w.

(** [bank_states_[r][g][b]], and a call of a method that changes it. *)
Definition bank_at (bs : bank_array) (r g b : Z) : M BankState :=
  x ← vget bs r; y ← vget x g; vget y b.
Definition bank_mod (bs : bank_array) (r g b : Z) (f : BankState -> M BankState) : M bank_array :=
  vmod bs r (fun x => vmod x g (fun y => vmod y b f)).

Definition IsRowOpen (s : ChannelState) (r g b : Z) : M bool :=
  x ← bank_at (bank_states_ s) r g b; Ok (BankState.IsRowOpen x).
Definition OpenRow (s : ChannelState) (r g b : Z) : M Z :=
  x ← bank_at (bank_states_ s) r g b; Ok (BankState.OpenRow x).
Definition RowHitCount (s : ChannelState) (r g b : Z) : M Z :=
  x ← bank_at (bank_states_ s) r g b; Ok (BankState.RowHitCount x).
Definition IsRankSelfRefreshing (s : ChannelState) (r : Z) : M bool := vget (rank_is_sref_ s) r.
Definition IsRefreshWaiting (s : ChannelState) : bool :=
  negb (bool_decide (refresh_q_ s = [])).
Definition PendingRefCommand (s : ChannelState) : M Command := vget (refresh_q_ s) 0.

(** ** The queue of pending refreshes *)

(** [refresh_q_.erase(it)] at the first element that satisfies [p]. *)
Fixpoint erase_first {A} (p : A -> bool) (l : list A) : list A :=
  match l with [] => [] | x :: l => if p x then l else x :: erase_first p l end.

Definition BankNeedRefresh (s : ChannelState) (r g b : Z) (need : bool) : ChannelState :=
  if need then
    set_refresh_q s
      (refresh_q_ s ++ [mkCommand REFRESH_BANK (mkAddress (-1) r g b (-1) (-1)) (u64 (-1))])
  else
    set_refresh_q s
      (erase_first (fun it => (Rank it =? r) && (Bankgroup it =? g) && (Bank it =? b))
         (refresh_q_ s)).

Definition RankNeedRefresh (s : ChannelState) (r : Z) (need : bool) : ChannelState :=
  if need then
    set_refresh_q s
      (refresh_q_ s ++ [mkCommand REFRESH (mkAddress (-1) r (-1) (-1) (-1) (-1)) (u64 (-1))])
  else
    set_refresh_q s (erase_first (fun it => Rank it =? r) (refresh_q_ s)).

Section channel.
Context (config : Config) (timing_ : Timing).

(** [ChannelState::ChannelState]. *)
Definition newChannelState : ChannelState :=
  let n := Z.to_nat (ranks config) in
  mkChannel (replicate n 0) (replicate n false)
    (replicate n (replicate (Z.to_nat (bankgroups config))
      (replicate (Z.to_nat (banks_per_group config)) newBankState)))
    [] (replicate n []) (replicate n []).

(** The loops over the bank groups and banks of a rank, and over the banks of a group. *)
Definition rank_banks : list (Z * Z) :=
  j ← seqZ 0 (bankgroups config); (fun k => (j, k)) <$> seqZ 0 (banks_per_group config).

Definition IsAllBankIdleInRank (s : ChannelState) (r : Z) : M bool :=
  res ← forR rank_banks (fun '((j, k) : Z * Z) (_ : unit) =>
    o ← IsRowOpen s r j k; if (o : bool) then Ok (inl false) else Ok (inr tt)) tt;
  match res with inl v => Ok v | inr _ => Ok true end.

Definition IsRWPendingOnRef (s : ChannelState) (cmd : Command) : M bool :=
  let '(r, g, b) := (Rank cmd, Bankgroup cmd, Bank cmd) in
  o ← IsRowOpen s r g b;
  if negb o then Ok false
  else
    h ← RowHitCount s r g b;
    if negb (h =? 0) then Ok false
    else row ← OpenRow s r g b; Ok (row =? Row cmd).

(** ** Activation windows *)

Definition IsFAWReady (s : ChannelState) (r curr_time : Z) : M bool :=
  w ← vget (four_aw_ s) r;
  match w with
  | [] => Ok true
  | first :: _ => Ok (negb ((curr_time <? first) && (4 <=? Z.of_nat (length w))))
  end.

Definition Is32AWReady (s : ChannelState) (r curr_time : Z) : M bool :=
  w ← vget (thirty_two_aw_ s) r;
  match w with
  | [] => Ok true
  | first :: _ => Ok (negb ((curr_time <? first) && (32 <=? Z.of_nat (length w))))
  end.

Definition ActivationWindowOk (s : ChannelState) (r curr_time : Z) : M bool :=
  tfaw_ok ← IsFAWReady s r curr_time;
  if IsGDDR config then
    if negb tfaw_ok then Ok false else Is32AWReady s r curr_time
  else Ok tfaw_ok.

(** Drop the first time of a window if it has passed, then add the new one. *)
Definition slide (w : list Z) (curr_time t : Z) : list Z :=
  match w with
  | first :: rest => if first <=? curr_time then rest else w
  | [] => []
  end ++ [u64 (curr_time + t)].

Definition UpdateActivationTimes (s : ChannelState) (r curr_time : Z) : M ChannelState :=
  four ← vmod (four_aw_ s) r (fun w => Ok (slide w curr_time (tFAW config)));
  if IsGDDR config then
    thirty_two ← vmod (thirty_two_aw_ s) r (fun w => Ok (slide w curr_time (t32AW config)));
    Ok (set_windows s four thirty_two)
  else Ok (set_windows s four (thirty_two_aw_ s)).

(** ** Readiness *)

(** The loop of a rank command: the command of the last bank and the number of ready banks, or
    a command that has to come first. *)
Definition rank_ready (s : ChannelState) (cmd : Command) (clk : Z)
    : M (Command + Command * Z) :=
  forR rank_banks (fun '((j, k) : Z * Z) '((_, num_ready) : Command * Z) =>
    x ← bank_at (bank_states_ s) (Rank cmd) j k;
    ready_cmd ← BankState.GetReadyCommand x cmd clk;
    if negb (IsValid ready_cmd) then Ok (inr (ready_cmd, num_ready))
    else if negb (ct_eqb (cmd_type ready_cmd) (cmd_type cmd)) then
      Ok (inl (mkCommand (cmd_type ready_cmd)
                 (mkAddress (-1) (Rank cmd) j k (-1) (-1)) (hex_addr ready_cmd)))
    else Ok (inr (ready_cmd, num_ready + 1)))
  (noCommand, 0).

Definition GetReadyCommand (s : ChannelState) (cmd : Command) (clk : Z) : M Command :=
  if IsRankCMD cmd then
    res ← rank_ready s cmd clk;
    match res with
    | inl ready_cmd => Ok ready_cmd
    | inr (ready_cmd, num_ready) =>
        if num_ready =? banks config then Ok ready_cmd else Ok noCommand
    end
  else
    x ← bank_at (bank_states_ s) (Rank cmd) (Bankgroup cmd) (Bank cmd);
    ready_cmd ← BankState.GetReadyCommand x cmd clk;
    if negb (IsValid ready_cmd) then Ok noCommand
    else if ct_eqb (cmd_type ready_cmd) ACTIVATE then
      ok ← ActivationWindowOk s (Rank ready_cmd) clk;
      if negb ok then Ok noCommand else Ok ready_cmd
    else Ok ready_cmd.

(** ** States *)

Definition UpdateState (s : ChannelState) (cmd : Command) : M ChannelState :=
  if IsRankCMD cmd then
    bs ← forM rank_banks (fun '((j, k) : Z * Z) bs =>
      bank_mod bs (Rank cmd) j k (fun x => BankState.UpdateState x cmd)) (bank_states_ s);
    let s := set_banks s bs in
    if IsRefresh cmd then Ok (RankNeedRefresh s (Rank cmd) false)
    else if ct_eqb (cmd_type cmd) SREF_ENTER then
      v ← vset (rank_is_sref_ s) (Rank cmd) true; Ok (set_sref s v)
    else if ct_eqb (cmd_type cmd) SREF_EXIT then
      v ← vset (rank_is_sref_ s) (Rank cmd) false; Ok (set_sref s v)
    else Ok s
  else
    bs ← bank_mod (bank_states_ s) (Rank cmd) (Bankgroup cmd) (Bank cmd)
           (fun x => BankState.UpdateState x cmd);
    let s := set_banks s bs in
    if IsRefresh cmd then
      Ok (BankNeedRefresh s (Rank cmd) (Bankgroup cmd) (Bank cmd) false)
    else Ok s.

(** ** Timing *)

(** Apply a list of constraints to one bank. *)
Definition delay_bank (l : list (CommandType * Z)) (clk r g b : Z) (bs : bank_array)
    : M bank_array :=
  forM l (fun '((t, d) : CommandType * Z) bs =>
    bank_mod bs r g b (fun x => BankState.UpdateTiming x t (u64 (clk + d)))) bs.

Definition UpdateSameBankTiming (a : Address) l clk (bs : bank_array) : M bank_array :=
  delay_bank l clk (rank a) (bankgroup a) (bank a) bs.

Definition UpdateOtherBanksSameBankgroupTiming (a : Address) l clk (bs : bank_array)
    : M bank_array :=
  forM (seqZ 0 (banks_per_group config)) (fun k bs =>
    if negb (k =? bank a) then delay_bank l clk (rank a) (bankgroup a) k bs else Ok bs) bs.

Definition UpdateOtherBankgroupsSameRankTiming (a : Address) l clk (bs : bank_array)
    : M bank_array :=
  forM (seqZ 0 (bankgroups config)) (fun j bs =>
    if negb (j =? bankgroup a) then
      forM (seqZ 0 (banks_per_group config)) (fun k bs => delay_bank l clk (rank a) j k bs) bs
    else Ok bs) bs.

Definition UpdateOtherRanksTiming (a : Address) l clk (bs : bank_array) : M bank_array :=
  forM (seqZ 0 (ranks config)) (fun i bs =>
    if negb (i =? rank a) then
      forM rank_banks (fun '((j, k) : Z * Z) bs => delay_bank l clk i j k bs) bs
    else Ok bs) bs.

Definition UpdateSameRankTiming (a : Address) l clk (bs : bank_array) : M bank_array :=
  forM rank_banks (fun '((j, k) : Z * Z) bs => delay_bank l clk (rank a) j k bs) bs.

Definition UpdateTiming (s : ChannelState) (cmd : Command) (clk : Z) : M ChannelState :=
  let same_and_others s :=
    l1 ← entries (same_bank timing_) (cmd_type cmd);
    bs ← UpdateSameBankTiming (addr cmd) l1 clk (bank_states_ s);
    l2 ← entries (other_banks_same_bankgroup timing_) (cmd_type cmd);
    bs ← UpdateOtherBanksSameBankgroupTiming (addr cmd) l2 clk bs;
    l3 ← entries (other_bankgroups_same_rank timing_) (cmd_type cmd);
    bs ← UpdateOtherBankgroupsSameRankTiming (addr cmd) l3 clk bs;
    l4 ← entries (other_ranks timing_) (cmd_type cmd);
    bs ← UpdateOtherRanksTiming (addr cmd) l4 clk bs;
    Ok (set_banks s bs) in
  match cmd_type cmd with
  | ACTIVATE => s ← UpdateActivationTimes s (Rank cmd) clk; same_and_others s
  | READ | READ_PRECHARGE | WRITE | WRITE_PRECHARGE | PRECHARGE | REFRESH_BANK =>
      same_and_others s
  | REFRESH | SREF_ENTER | SREF_EXIT =>
      l ← entries (same_rank timing_) (cmd_type cmd);
      bs ← UpdateSameRankTiming (addr cmd) l clk (bank_states_ s);
      Ok (set_banks s bs)
  | CT_SIZE => Err AbruptExit
  end.

Definition UpdateTimingAndStates (s : ChannelState) (cmd : Command) (clk : Z)
    : M ChannelState :=
  s ← UpdateState s cmd; UpdateTiming s cmd clk.
End channel.

(** ** Constraints on one bank *)

(** The bank after [UpdateTiming]. *)
Definition raise (x : BankState) (t : CommandType) (time : Z) : BankState :=
  mkBank (state_ x) (<[Z.to_nat (ct_index t) := Z.max (timing_of x t) time]> (cmd_timing_ x))
    (open_row_ x) (row_hit_count_ x).

(** The bank after a list of constraints. *)
Definition delay (l : list (CommandType * Z)) (clk : Z) (x : BankState) : BankState :=
  foldl (fun x '(t, d) => raise x t (u64 (clk + d))) x l.

Lemma UpdateTiming_raise x t time :
  bank_ok x -> t <> CT_SIZE -> BankState.UpdateTiming x t time = Ok (raise x t time).
Proof.
  intros Hx Ht. unfold BankState.UpdateTiming. rewrite vget_timing by done. simpl.
  rewrite vset_Ok; [done|]. rewrite (bank_timing_len x Hx). by destruct t.
Qed.

Lemma raise_ok x t time : bank_ok x -> bank_ok (raise x t time).
Proof. intros []. split; simpl; [by rewrite length_insert|done..]. Qed.

Lemma raise_timing x t time u :
  bank_ok x -> t <> CT_SIZE ->
  timing_of (raise x t time) u = if ct_eqb u t then Z.max (timing_of x t) time else timing_of x u.
Proof.
  intros Hx Ht. destruct (UpdateTiming_spec x t time Hx Ht) as (b' & E & _ & _ & _ & _ & HT).
  rewrite UpdateTiming_raise in E by done. injection E as ->. apply HT.
Qed.

Definition constrains (l : list (CommandType * Z)) : Prop := Forall (fun e => fst e <> CT_SIZE) l.

Lemma delay_ok l clk x : bank_ok x -> bank_ok (delay l clk x).
Proof. revert x. induction l as [|[t d] l IH]; intros x Hx; simpl; auto using raise_ok. Qed.

Lemma delay_same l clk x :
  state_ (delay l clk x) = state_ x /\ open_row_ (delay l clk x) = open_row_ x /\
  row_hit_count_ (delay l clk x) = row_hit_count_ x.
Proof.
  revert x. induction l as [|[t d] l IH]; intros x; simpl; [done|].
  by destruct (IH (raise x t (u64 (clk + d)))) as (-> & -> & ->).
Qed.

(** Constraints only ever move times back. *)
Lemma delay_mono l clk x u :
  bank_ok x -> constrains l -> timing_of x u <= timing_of (delay l clk x) u.
Proof.
  intros Hx Hl. revert x Hx. induction Hl as [|[t d] l Ht _ IH]; intros x Hx; simpl; [lia|].
  etrans; [|apply IH, raise_ok, Hx]. rewrite raise_timing by done.
  destruct (ct_eqb u t) eqn:E; [apply ct_eqb_true in E as ->|]; lia.
Qed.

(** Every constraint of the list holds afterwards. *)
Lemma delay_bound l clk x u d :
  bank_ok x -> constrains l -> (u, d) ∈ l -> u64 (clk + d) <= timing_of (delay l clk x) u.
Proof.
  intros Hx Hl. revert x Hx. induction Hl as [|[t e] l Ht Hl IH]; intros x Hx Hin; [set_solver|].
  simpl. apply elem_of_cons in Hin as [[= -> ->]|Hin]; [|apply IH; [by apply raise_ok|done]].
  etrans; [|apply delay_mono; [by apply raise_ok|done]].
  rewrite raise_timing by done. unfold ct_eqb. rewrite bool_decide_eq_true_2 by done. lia.
Qed.

(** ** The bank array as a function *)

Abbreviation loc := (Z * Z * Z)%type.

Section array.
Context (config : Config).

Definition in_range (l : loc) : Prop :=
  let '(r, g, b) := l in
  0 <= r < ranks config /\ 0 <= g < bankgroups config /\ 0 <= b < banks_per_group config.

Definition shape (bs : bank_array) : Prop :=
  Z.of_nat (length bs) = ranks config /\
  Forall (fun x => Z.of_nat (length x) = bankgroups config /\
    Forall (fun y => Z.of_nat (length y) = banks_per_group config) x) bs.

(** [bs] holds the banks [F], all well-formed. *)
Record holds (bs : bank_array) (F : loc -> BankState) : Prop := {
  holds_shape : shape bs;
  holds_at : forall r g b, in_range (r, g, b) -> bank_at bs r g b = Ok (F (r, g, b));
  holds_ok : forall l, in_range l -> bank_ok (F l) }.

Lemma vget_Forall {A} (P : A -> Prop) v i x : Forall P v -> vget v i = Ok x -> P x.
Proof.
  intros HP [_ Hx]%vget_Ok. eapply Forall_lookup_1; eauto.
Qed.

Lemma bank_at_inv bs r g b x :
  bank_at bs r g b = Ok x ->
  exists v w, vget bs r = Ok v /\ vget v g = Ok w /\ vget w b = Ok x.
Proof. unfold bank_at. intros H. run_ok H. eauto. Qed.

Lemma bank_at_range bs r g b x : shape bs -> bank_at bs r g b = Ok x -> in_range (r, g, b).
Proof.
  intros [Hl Hs] (v & w & Hv & Hw & Hx)%bank_at_inv.
  destruct (vget_Forall _ _ _ _ Hs Hv) as [Hlv Hsv].
  pose proof (vget_Forall _ _ _ _ Hsv Hw) as Hlw. simpl in Hlw.
  apply vget_range in Hv, Hw, Hx. simpl. lia.
Qed.

Lemma vset_shape {A} (P : A -> Prop) v i x v' :
  Forall P v -> P x -> vset v i x = Ok v' -> Forall P v' /\ length v' = length v.
Proof.
  intros Hv Hx Hs. split; [|by eapply vset_length]. apply vset_inv in Hs as [_ ->].
  by apply Forall_insert.
Qed.

(** Calling a method of one bank. *)
Lemma bank_mod_spec bs r g b x y f :
  shape bs -> bank_at bs r g b = Ok x -> f x = Ok y ->
  exists bs', bank_mod bs r g b f = Ok bs' /\ shape bs' /\
    forall r' g' b', bank_at bs' r' g' b' =
      if (r' =? r) && (g' =? g) && (b' =? b) then Ok y else bank_at bs r' g' b'.
Proof.
  intros [Hl Hs] (v & w & Hv & Hw & Hx)%bank_at_inv Hf.
  destruct (vget_Forall _ _ _ _ Hs Hv) as [Hlv Hsv].
  pose proof (vget_Forall _ _ _ _ Hsv Hw) as Hlw. simpl in Hlw.
  destruct (vmod_Ok w b x y f Hx Hf) as (w' & Ew & Sw).
  destruct (vmod_Ok v g w w' (fun y => vmod y b f) Hw Ew) as (v' & Ev & Sv).
  destruct (vmod_Ok bs r v v' (fun x => vmod x g (fun y => vmod y b f)) Hv Ev) as (bs' & Eb & Sb).
  exists bs'. split; [exact Eb|]. split.
  - pose proof (vset_length _ _ _ _ Sw) as Lw.
    destruct (vset_shape _ _ _ _ _ Hsv ltac:(simpl; rewrite Lw; exact Hlw) Sv) as [Fv Lv].
    destruct (vset_shape _ _ _ _ _ Hs ltac:(simpl; rewrite Lv; exact (conj Hlv Fv)) Sb) as [Fb Lb].
    split; [by rewrite Lb|done].
  - intros r' g' b'. unfold bank_at. rewrite (vget_vset _ _ _ r' _ Sb).
    destruct (Z.eqb_spec r' r) as [->|]; simpl; [|done]. rewrite Hv. simpl.
    rewrite (vget_vset _ _ _ g' _ Sv). destruct (Z.eqb_spec g' g) as [->|]; simpl; [|done].
    rewrite Hw. simpl. rewrite (vget_vset _ _ _ b' _ Sw). by destruct (b' =? b).
Qed.

Definition loc_eqb (l l' : loc) : bool := bool_decide (l = l').

Lemma holds_mod bs F r g b y f :
  holds bs F -> in_range (r, g, b) -> f (F (r, g, b)) = Ok y -> bank_ok y ->
  exists bs', bank_mod bs r g b f = Ok bs' /\
    holds bs' (fun l => if loc_eqb l (r, g, b) then y else F l).
Proof.
  intros [Hsh Hat Hok] Hr Hf Hy.
  destruct (bank_mod_spec bs r g b _ y f Hsh (Hat _ _ _ Hr) Hf) as (bs' & E & Hsh' & Hat').
  exists bs'. split; [done|]. split; [done| |].
  - intros r' g' b' Hr'. rewrite Hat'. unfold loc_eqb.
    destruct (Z.eqb_spec r' r), (Z.eqb_spec g' g), (Z.eqb_spec b' b); simpl;
      case_bool_decide; try congruence; by apply Hat.
  - intros l Hl. unfold loc_eqb. case_bool_decide; auto.
Qed.

Lemma holds_banks_ext bs F F' :
  holds bs F -> (forall l, in_range l -> F l = F' l) -> holds bs F'.
Proof.
  intros [Hsh Hat Hok] He. split; [done| |].
  - intros r g b Hr. rewrite Hat by done. by rewrite He.
  - intros l Hl. rewrite <-He by done. auto.
Qed.

(** A loop over parts of the array that do not overlap: part [i] is selected by [sel i] and
    its banks are changed by [h]. *)
Lemma forM_parts {I} (sel : I -> loc -> bool) (h : loc -> BankState -> BankState)
    (P : loc -> BankState -> Prop) (body : I -> bank_array -> M bank_array) (L : list I) :
  NoDup L ->
  (forall i j l, i ∈ L -> j ∈ L -> sel i l = true -> sel j l = true -> i = j) ->
  (forall i bs F, i ∈ L -> holds bs F ->
     (forall l, in_range l -> sel i l = true -> P l (F l)) ->
     exists bs', body i bs = Ok bs' /\ holds bs' (fun l => if sel i l then h l (F l) else F l)) ->
  forall bs F, holds bs F ->
  (forall i l, i ∈ L -> in_range l -> sel i l = true -> P l (F l)) ->
  exists bs', forM L body bs = Ok bs' /\
    holds bs' (fun l => if existsb (fun i => sel i l) L then h l (F l) else F l).
Proof.
  intros Hnd. induction Hnd as [|i L Hi Hnd IH]; intros Hdis Hbody bs F HF HP; simpl.
  { by exists bs. }
  destruct (Hbody i bs F) as (bs1 & -> & H1); [set_solver|done|intros; eapply HP; eauto; set_solver|].
  destruct (IH ltac:(intros; apply (Hdis i0 j l); set_solver)
               ltac:(intros; apply Hbody; [set_solver|done|done]) bs1 _ H1) as (bs' & E & HE).
  { intros j l Hj Hl Hs. destruct (sel i l) eqn:Ei; [|eapply HP; eauto; set_solver].
    assert (i = j) by (apply (Hdis i j l); set_solver). congruence. }
  exists bs'. split; [done|]. apply (holds_banks_ext _ _ _ HE). intros l Hl. simpl.
  destruct (sel i l) eqn:Ei; simpl; [|done].
  destruct (existsb (fun i => sel i l) L) eqn:Ex; [|done].
  apply existsb_exists in Ex as (j & Hj%list_elem_of_In & Hs).
  assert (i = j) by (apply (Hdis i j l); set_solver). congruence.
Qed.
End array.

(** ** What the timing loops do *)

Lemma elem_of_rank_banks config j k :
  (j, k) ∈ rank_banks config <->
  0 <= j < bankgroups config /\ 0 <= k < banks_per_group config.
Proof.
  unfold rank_banks. rewrite list_elem_of_bind. split.
  - intros (j' & (k' & [= -> ->] & Hk)%list_elem_of_fmap & Hj).
    apply elem_of_range in Hk, Hj. done.
  - intros [Hj Hk]. exists j. split; [|by apply elem_of_range].
    apply list_elem_of_fmap. exists k. split; [done|by apply elem_of_range].
Qed.

Lemma NoDup_rank_banks config : NoDup (rank_banks config).
Proof.
  unfold rank_banks. apply NoDup_bind.
  - intros j j' [a b] _ _ (k & [= -> ->] & _)%list_elem_of_fmap
      (k' & [= -> ->] & _)%list_elem_of_fmap. done.
  - intros j _. apply (NoDup_fmap_2 _), NoDup_seqZ.
  - apply NoDup_seqZ.
Qed.

Section delays.
Context (config : Config) (l : list (CommandType * Z)) (clk : Z).
Hypothesis l_ok : constrains l.

(** Delay the banks a predicate selects. *)
Definition delay_where (p : loc -> bool) (F : loc -> BankState) : loc -> BankState :=
  fun x => if p x then delay l clk (F x) else F x.

Lemma delay_bank_spec bs F r g b :
  holds config bs F -> in_range config (r, g, b) ->
  exists bs', delay_bank l clk r g b bs = Ok bs' /\
    holds config bs' (delay_where (fun x => loc_eqb x (r, g, b)) F).
Proof.
  intros HF Hr. unfold delay_bank, delay_where.
  revert bs F HF. induction l_ok as [|[t d] k Ht Hk IH]; intros bs F HF; simpl.
  { exists bs. split; [done|]. apply (holds_banks_ext _ _ _ _ HF). intros x _. by destruct (loc_eqb _ _). }
  pose proof (holds_ok _ _ _ HF _ Hr) as Hok.
  destruct (holds_mod config bs F r g b (raise (F (r, g, b)) t (u64 (clk + d)))
    (fun x => BankState.UpdateTiming x t (u64 (clk + d)))) as (bs1 & -> & H1);
    [done|done|by apply UpdateTiming_raise|by apply raise_ok|].
  destruct (IH Hk bs1 _ H1) as (bs' & E & H'). exists bs'. split; [exact E|].
  apply (holds_banks_ext _ _ _ _ H'). intros x _. unfold loc_eqb. case_bool_decide; [subst|]; done.
Qed.

(** A loop of [delay_bank] over distinct places. *)
Lemma delay_loop {I} (at_ : I -> loc) (L : list I) bs F :
  NoDup L -> (forall i j, i ∈ L -> j ∈ L -> at_ i = at_ j -> i = j) ->
  (forall i, i ∈ L -> in_range config (at_ i)) -> holds config bs F ->
  exists bs', forM L (fun i bs => let '(r, g, b) := at_ i in delay_bank l clk r g b bs) bs
    = Ok bs' /\ holds config bs' (delay_where (fun x => existsb (fun i => loc_eqb x (at_ i)) L) F).
Proof.
  intros Hnd Hinj Hr HF.
  apply (forM_parts config (fun i x => loc_eqb x (at_ i)) (fun _ => delay l clk) (fun _ _ => True));
    auto.
  - intros i j x Hi Hj Hx Hy. apply Hinj; [done..|].
    apply bool_decide_eq_true in Hx, Hy. congruence.
  - intros i bs0 F0 Hi H0 _. specialize (Hr i Hi). destruct (at_ i) as [[r g] b].
    by apply delay_bank_spec.
Qed.

Lemma existsb_loc {I} (at_ : I -> loc) (L : list I) x :
  existsb (fun i => loc_eqb x (at_ i)) L = true <-> exists i, i ∈ L /\ x = at_ i.
Proof.
  rewrite existsb_exists. split.
  - intros (i & Hi%list_elem_of_In & Hx%bool_decide_eq_true). eauto.
  - intros (i & Hi%list_elem_of_In & ->). exists i. split; [done|]. by apply bool_decide_eq_true.
Qed.

(** Change the predicate of [delay_where] to an equivalent one. *)
Lemma delay_where_ext bs F p q :
  (forall x, in_range config x -> p x = true <-> q x = true) ->
  holds config bs (delay_where p F) -> holds config bs (delay_where q F).
Proof.
  intros Hpq HF. apply (holds_banks_ext _ _ _ _ HF). intros x Hx. unfold delay_where.
  specialize (Hpq x Hx). destruct (p x), (q x); naive_solver.
Qed.

Section one_address.
Context (a : Address).
Hypothesis a_ok : in_range config (rank a, bankgroup a, bank a).

Definition is_same_bank (x : loc) : bool := loc_eqb x (rank a, bankgroup a, bank a).
Definition is_other_bank (x : loc) : bool :=
  let '(r, g, b) := x in (r =? rank a) && (g =? bankgroup a) && negb (b =? bank a).
Definition is_other_group (x : loc) : bool :=
  let '(r, g, b) := x in (r =? rank a) && negb (g =? bankgroup a).
Definition is_other_rank (x : loc) : bool := let '(r, g, b) := x in negb (r =? rank a).
Definition is_same_rank (x : loc) : bool := let '(r, g, b) := x in r =? rank a.

Lemma UpdateSameBank_spec bs F :
  holds config bs F ->
  exists bs', UpdateSameBankTiming a l clk bs = Ok bs' /\
    holds config bs' (delay_where is_same_bank F).
Proof. intros. by apply delay_bank_spec. Qed.

Lemma UpdateOtherBanks_spec bs F :
  holds config bs F ->
  exists bs', UpdateOtherBanksSameBankgroupTiming config a l clk bs = Ok bs' /\
    holds config bs' (delay_where is_other_bank F).
Proof.
  intros HF.
  destruct (forM_parts config (fun k '(r, g, b) =>
      (r =? rank a) && (g =? bankgroup a) && (b =? k) && negb (b =? bank a))
    (fun _ => delay l clk) (fun _ _ => True)
    (fun k bs => if negb (k =? bank a) then delay_bank l clk (rank a) (bankgroup a) k bs else Ok bs)
    (seqZ 0 (banks_per_group config))) with bs F as (bs' & E & H'); auto using NoDup_seqZ.
  - intros i j [[r g] b] _ _ Hi Hj. lia.
  - intros k bs0 F0 Hk%elem_of_range H0 _. destruct (Z.eqb_spec k (bank a)); simpl.
    + exists bs0. split; [done|]. apply (holds_banks_ext _ _ _ _ H0). intros [[r g] b] _.
      destruct (_ && _) eqn:E; [lia|done].
    + destruct (delay_bank_spec bs0 F0 (rank a) (bankgroup a) k) as (bs1 & -> & H1);
        [done|simpl in *; lia|]. exists bs1. split; [done|].
      eapply delay_where_ext; [|exact H1]. intros [[r g] b] _. simpl. unfold loc_eqb.
      rewrite bool_decide_eq_true. split; [intros [= -> -> ->]; lia|intros; f_equal; [f_equal|]; lia].
  - exists bs'. split; [exact E|]. eapply delay_where_ext; [|exact H'].
    intros [[r g] b] Hx. simpl. rewrite existsb_exists. split.
    + intros (k & _ & Hk). lia.
    + intros Hk. exists b. split; [apply list_elem_of_In, elem_of_range; simpl in Hx; lia|lia].
Qed.

Lemma UpdateRank_spec bs F i :
  0 <= i < ranks config -> holds config bs F ->
  exists bs', forM (rank_banks config) (fun '((j, k) : Z * Z) bs => delay_bank l clk i j k bs) bs
    = Ok bs' /\ holds config bs' (delay_where (fun '(r, g, b) => r =? i) F).
Proof.
  intros Hi HF.
  destruct (delay_loop (fun '(j, k) => (i, j, k)) (rank_banks config) bs F) as (bs' & E & H');
    auto using NoDup_rank_banks.
  - intros [j k] [j' k'] _ _. congruence.
  - intros [j k] Hjk%elem_of_rank_banks. simpl. lia.
  - exists bs'. split.
    + rewrite <-E. clear. revert bs. induction (rank_banks config) as [|[j k] L IH]; intros bs; [done|].
      simpl. destruct (delay_bank l clk i j k bs); simpl; auto.
    + eapply delay_where_ext; [|exact H']. intros [[r g] b] Hx. rewrite existsb_loc. split.
      * intros ([j k] & _ & [= -> -> ->]). lia.
      * intros Hr. exists (g, b). rewrite elem_of_rank_banks. simpl in Hx.
        split; [lia|f_equal; f_equal; lia].
Qed.

Lemma UpdateSameRank_spec bs F :
  holds config bs F ->
  exists bs', UpdateSameRankTiming config a l clk bs = Ok bs' /\
    holds config bs' (delay_where is_same_rank F).
Proof. intros HF. apply UpdateRank_spec; [simpl in a_ok; lia|done]. Qed.

Lemma UpdateOtherGroups_spec bs F :
  holds config bs F ->
  exists bs', UpdateOtherBankgroupsSameRankTiming config a l clk bs = Ok bs' /\
    holds config bs' (delay_where is_other_group F).
Proof.
  intros HF.
  destruct (forM_parts config (fun j '(r, g, b) => (r =? rank a) && (g =? j) && negb (g =? bankgroup a))
    (fun _ => delay l clk) (fun _ _ => True)
    (fun j bs => if negb (j =? bankgroup a) then
       forM (seqZ 0 (banks_per_group config)) (fun k bs => delay_bank l clk (rank a) j k bs) bs
       else Ok bs)
    (seqZ 0 (bankgroups config))) with bs F as (bs' & E & H'); auto using NoDup_seqZ.
  - intros i j [[r g] b] _ _ Hi Hj. lia.
  - intros j bs0 F0 Hj%elem_of_range H0 _. destruct (Z.eqb_spec j (bankgroup a)); simpl.
    + exists bs0. split; [done|]. apply (holds_banks_ext _ _ _ _ H0). intros [[r g] b] _.
      destruct (_ && _) eqn:E; [lia|done].
    + destruct (delay_loop (fun k => (rank a, j, k)) (seqZ 0 (banks_per_group config)) bs0 F0)
        as (bs1 & E1 & H1); auto using NoDup_seqZ.
      * intros k k' _ _. congruence.
      * intros k Hk%elem_of_range. simpl in *. lia.
      * exists bs1. split; [exact E1|]. eapply delay_where_ext; [|exact H1].
        intros [[r g] b] Hx. rewrite existsb_loc. split.
        -- intros (k & _ & [= -> -> ->]). lia.
        -- intros Hg. exists b. rewrite elem_of_range. simpl in Hx.
           split; [lia|f_equal; f_equal; lia].
  - exists bs'. split; [exact E|]. eapply delay_where_ext; [|exact H'].
    intros [[r g] b] Hx. simpl. rewrite existsb_exists. split.
    + intros (k & _ & Hk). lia.
    + intros Hk. exists g. split; [apply list_elem_of_In, elem_of_range; simpl in Hx; lia|lia].
Qed.

Lemma UpdateOtherRanks_spec bs F :
  holds config bs F ->
  exists bs', UpdateOtherRanksTiming config a l clk bs = Ok bs' /\
    holds config bs' (delay_where is_other_rank F).
Proof.
  intros HF.
  destruct (forM_parts config (fun i '(r, g, b) => (r =? i) && negb (r =? rank a))
    (fun _ => delay l clk) (fun _ _ => True)
    (fun i bs => if negb (i =? rank a) then
       forM (rank_banks config) (fun '((j, k) : Z * Z) bs => delay_bank l clk i j k bs) bs
       else Ok bs)
    (seqZ 0 (ranks config))) with bs F as (bs' & E & H'); auto using NoDup_seqZ.
  - intros i j [[r g] b] _ _ Hi Hj. lia.
  - intros i bs0 F0 Hi%elem_of_range H0 _. destruct (Z.eqb_spec i (rank a)); simpl.
    + exists bs0. split; [done|]. apply (holds_banks_ext _ _ _ _ H0). intros [[r g] b] _.
      destruct (_ && _) eqn:E; [lia|done].
    + destruct (UpdateRank_spec bs0 F0 i Hi H0) as (bs1 & -> & H1). exists bs1. split; [done|].
      eapply delay_where_ext; [|exact H1]. intros [[r g] b] _. lia.
  - exists bs'. split; [exact E|]. eapply delay_where_ext; [|exact H'].
    intros [[r g] b] Hx. simpl. rewrite existsb_exists. split.
    + intros (k & _ & Hk). lia.
    + intros Hk. exists r. split; [apply list_elem_of_In, elem_of_range; simpl in Hx; lia|lia].
Qed.
End one_address.
End delays.

(** ** Invariant of a channel *)

Section invariant.
Context (config : Config) (timing_ : Timing).

(** The banks a command acts on. *)
Definition affected (c : Command) (x : loc) : bool :=
  if IsRankCMD c then is_same_rank (addr c) x else is_same_bank (addr c) x.

(** Its rank, or its bank, exists. *)
Definition target_ok (c : Command) : Prop :=
  if IsRankCMD c then 0 <= Rank c < ranks config
  else in_range config (Rank c, Bankgroup c, Bank c).

(** A pending refresh. *)
Definition refresh_ok (c : Command) : Prop := IsRefresh c = true /\ target_ok c.

(** The banks are [F]; one entry per rank everywhere; a rank is marked as self-refreshing
    exactly when its banks are. *)
Record chan_ok (s : ChannelState) (F : loc -> BankState) : Prop := {
  ch_holds : holds config (bank_states_ s) F;
  ch_sref_len : Z.of_nat (length (rank_is_sref_ s)) = ranks config;
  ch_idle_len : Z.of_nat (length (rank_idle_cycles s)) = ranks config;
  ch_four_len : Z.of_nat (length (four_aw_ s)) = ranks config;
  ch_thirty_len : Z.of_nat (length (thirty_two_aw_ s)) = ranks config;
  ch_sref : forall r g b v, in_range config (r, g, b) ->
    vget (rank_is_sref_ s) r = Ok v -> (v = true <-> state_ (F (r, g, b)) = SREF);
  ch_refresh : Forall refresh_ok (refresh_q_ s) }.

Lemma newChannelState_ok :
  0 <= ranks config -> 0 <= bankgroups config -> 0 <= banks_per_group config ->
  chan_ok (newChannelState config) (fun _ => newBankState).
Proof.
  intros Hr Hg Hb. unfold newChannelState.
  assert (forall A (x : A) n i, 0 <= i < n -> vget (replicate (Z.to_nat n) x) i = Ok x) as Hrep.
  { intros A x n i Hi. apply vget_Ok. split; [lia|]. apply lookup_replicate. split; [done|lia]. }
  split; simpl; rewrite ?length_replicate; try lia; try done.
  - split.
    + split; [rewrite length_replicate; lia|]. apply Forall_replicate.
      split; [rewrite length_replicate; lia|]. apply Forall_replicate.
      rewrite length_replicate. lia.
    + intros r g b (? & ? & ?). unfold bank_at. rewrite Hrep by done. simpl.
      rewrite Hrep by done. simpl. by apply Hrep.
    + intros. apply newBankState_ok.
  - intros r g b v [? _] E. rewrite Hrep in E by done. by injection E as <-.
Qed.

(** ** Issuing a command *)

(** What a bank waits for after [c] has been issued, by its relation to the target. *)
Definition waits (c : Command) (x : loc) : list (CommandType * Z) :=
  let e t := match entries t (cmd_type c) with Ok l => l | _ => [] end in
  if IsRankCMD c then if is_same_rank (addr c) x then e (same_rank timing_) else []
  else if is_same_bank (addr c) x then e (same_bank timing_)
  else if is_other_bank (addr c) x then e (other_banks_same_bankgroup timing_)
  else if is_other_group (addr c) x then e (other_bankgroups_same_rank timing_)
  else if is_other_rank (addr c) x then e (other_ranks timing_) else [].

Hypothesis timing_ok : Timing_ok timing_.

Lemma waits_constrains c x : constrains (waits c x).
Proof.
  assert (forall t, table_ok t ->
    constrains (match entries t (cmd_type c) with Ok l => l | _ => [] end)) as He.
  { intros t Ht. destruct (decide (cmd_type c = CT_SIZE)) as [E|E].
    - rewrite E. destruct Ht as [Hl _]. destruct (entries t CT_SIZE) eqn:Et; try constructor.
      unfold entries in Et. apply vget_range in Et. rewrite Hl in Et. simpl in Et. lia.
    - destruct (entries_Ok t (cmd_type c) Ht E) as (l & -> & Hl). exact Hl. }
  destruct timing_ok. unfold waits.
  repeat match goal with |- context [if ?b then _ else _] => destruct b end;
    first [by apply He | constructor].
Qed.

Lemma UpdateActivationTimes_spec s F r clk :
  chan_ok s F -> 0 <= r < ranks config ->
  exists s', UpdateActivationTimes config s r clk = Ok s' /\ chan_ok s' F /\
    bank_states_ s' = bank_states_ s /\
    (forall w, vget (four_aw_ s) r = Ok w ->
       vset (four_aw_ s) r (slide w clk (tFAW config)) = Ok (four_aw_ s')).
Proof.
  intros [H1 H2 H3 H4 H5 H6 H7] Hr. unfold UpdateActivationTimes.
  destruct (vget_in_range (four_aw_ s) r) as [w Hw]; [lia|].
  destruct (vmod_Ok _ r w (slide w clk (tFAW config)) (fun w => Ok (slide w clk (tFAW config))) Hw)
    as (four & -> & Sf); [done|]. simpl.
  pose proof (vset_length _ _ _ _ Sf) as Lf.
  destruct (IsGDDR config).
  - destruct (vget_in_range (thirty_two_aw_ s) r) as [v Hv]; [lia|].
    destruct (vmod_Ok _ r v (slide v clk (t32AW config)) (fun w => Ok (slide w clk (t32AW config))) Hv)
      as (thirty & -> & St); [done|]. simpl. pose proof (vset_length _ _ _ _ St) as Lt.
    eexists. split; [done|]. split; [split; simpl; try done; lia|]. split; [done|].
    intros w' Hw'. simpl. assert (w' = w) as -> by congruence. done.
  - eexists. split; [done|]. split; [split; simpl; try done; lia|]. split; [done|].
    intros w' Hw'. simpl. assert (w' = w) as -> by congruence. done.
Qed.

(** The four loops of a bank command, together. *)
Lemma bank_command_timing bs F c clk :
  holds config bs F -> IsRankCMD c = false -> target_ok c -> cmd_type c <> CT_SIZE ->
  exists bs',
    (l1 ← entries (same_bank timing_) (cmd_type c);
     bs ← UpdateSameBankTiming (addr c) l1 clk bs;
     l2 ← entries (other_banks_same_bankgroup timing_) (cmd_type c);
     bs ← UpdateOtherBanksSameBankgroupTiming config (addr c) l2 clk bs;
     l3 ← entries (other_bankgroups_same_rank timing_) (cmd_type c);
     bs ← UpdateOtherBankgroupsSameRankTiming config (addr c) l3 clk bs;
     l4 ← entries (other_ranks timing_) (cmd_type c);
     UpdateOtherRanksTiming config (addr c) l4 clk bs) = Ok bs' /\
    holds config bs' (fun x => delay (waits c x) clk (F x)).
Proof.
  intros HF Hrk Ht Hc. unfold target_ok in Ht. rewrite Hrk in Ht.
  destruct timing_ok as [T1 T2 T3 T4 _].
  destruct (entries_Ok _ _ T1 Hc) as (l1 & E1 & C1), (entries_Ok _ _ T2 Hc) as (l2 & E2 & C2),
    (entries_Ok _ _ T3 Hc) as (l3 & E3 & C3), (entries_Ok _ _ T4 Hc) as (l4 & E4 & C4).
  rewrite E1, E2, E3, E4. simpl.
  destruct (UpdateSameBank_spec config l1 clk C1 (addr c) Ht _ _ HF) as (b1 & -> & H1). simpl.
  destruct (UpdateOtherBanks_spec config l2 clk C2 (addr c) Ht _ _ H1) as (b2 & -> & H2). simpl.
  destruct (UpdateOtherGroups_spec config l3 clk C3 (addr c) Ht _ _ H2) as (b3 & -> & H3). simpl.
  destruct (UpdateOtherRanks_spec config l4 clk C4 (addr c) _ _ H3) as (b4 & -> & H4). simpl.
  exists b4. split; [done|]. apply (holds_banks_ext _ _ _ _ H4). intros [[r g] b] Hx.
  unfold waits. rewrite Hrk, E1, E2, E3, E4. unfold delay_where, is_same_bank, loc_eqb. simpl.
  case_bool_decide as Eb.
  - injection Eb as -> -> ->. rewrite !Z.eqb_refl. done.
  - destruct (Z.eqb_spec r (rank (addr c))), (Z.eqb_spec g (bankgroup (addr c))),
      (Z.eqb_spec b (bank (addr c))); simpl; try done; congruence.
Qed.

(** Changing the banks without touching the self-refresh states. *)
Lemma chan_ok_banks s F bs F' :
  chan_ok s F -> holds config bs F' ->
  (forall x, in_range config x -> state_ (F' x) = SREF <-> state_ (F x) = SREF) ->
  chan_ok (set_banks s bs) F'.
Proof.
  intros [] HF' Hst. split; simpl; try done. intros r g b v Hr Hv.
  pose proof (Hst (r, g, b) Hr). pose proof (ch_sref0 _ _ _ _ Hr Hv). tauto.
Qed.

(** [UpdateTiming] delays every bank by what its relation to the command asks for. *)
Lemma UpdateTiming_holds s F c clk :
  chan_ok s F -> target_ok c -> cmd_type c <> CT_SIZE ->
  exists s', UpdateTiming config timing_ s c clk = Ok s' /\
    chan_ok s' (fun x => delay (waits c x) clk (F x)) /\
    (cmd_type c <> ACTIVATE -> four_aw_ s' = four_aw_ s) /\
    (cmd_type c = ACTIVATE -> forall w, vget (four_aw_ s) (Rank c) = Ok w ->
       vset (four_aw_ s) (Rank c) (slide w clk (tFAW config)) = Ok (four_aw_ s')).
Proof.
  intros HF Ht Hc.
  assert (forall s, chan_ok s F -> IsRankCMD c = false ->
    exists s', (l1 ← entries (same_bank timing_) (cmd_type c);
     bs ← UpdateSameBankTiming (addr c) l1 clk (bank_states_ s);
     l2 ← entries (other_banks_same_bankgroup timing_) (cmd_type c);
     bs ← UpdateOtherBanksSameBankgroupTiming config (addr c) l2 clk bs;
     l3 ← entries (other_bankgroups_same_rank timing_) (cmd_type c);
     bs ← UpdateOtherBankgroupsSameRankTiming config (addr c) l3 clk bs;
     l4 ← entries (other_ranks timing_) (cmd_type c);
     bs ← UpdateOtherRanksTiming config (addr c) l4 clk bs;
     Ok (set_banks s bs)) = Ok s' /\
     chan_ok s' (fun x => delay (waits c x) clk (F x)) /\ four_aw_ s' = four_aw_ s) as Hbank.
  { intros s0 H0 Hrk.
    destruct (bank_command_timing _ _ _ clk (ch_holds _ _ H0) Hrk Ht Hc) as (bs' & E & HE).
    run_ok E.
    repeat (simpl; match goal with H : ?t = Ok _ |- context [?t] => rewrite H end). simpl.
    eexists. split; [done|]. split; [|done].
    apply (chan_ok_banks _ _ _ _ H0 HE). intros y _.
    by rewrite (proj1 (delay_same (waits c y) clk (F y))). }
  assert (IsRankCMD c = true -> exists s',
    (l ← entries (same_rank timing_) (cmd_type c);
     bs ← UpdateSameRankTiming config (addr c) l clk (bank_states_ s);
     Ok (set_banks s bs)) = Ok s' /\
     chan_ok s' (fun x => delay (waits c x) clk (F x)) /\ four_aw_ s' = four_aw_ s) as Hrank.
  { intros Hrk. unfold target_ok in Ht. rewrite Hrk in Ht.
    destruct (entries_Ok _ _ (ok_same_rank _ timing_ok) Hc) as (l & E & C). rewrite E. simpl.
    destruct (UpdateRank_spec config l clk C _ _ (Rank c) Ht (ch_holds _ _ HF)) as (bs' & E' & HE).
    unfold UpdateSameRankTiming. unfold Rank in E'. rewrite E'. simpl.
    eexists. split; [done|]. split; [|done].
    apply (chan_ok_banks s F); [done| |intros x _; by rewrite (proj1 (delay_same (waits c x) clk (F x)))].
    apply (holds_banks_ext _ _ _ _ HE). intros [[r g] b] _. unfold waits, delay_where. rewrite Hrk, E.
    simpl. unfold Rank. by destruct (r =? rank (addr c)). }
  unfold UpdateTiming.
  destruct (cmd_type c) eqn:Ec; try done;
    try (destruct (Hbank s HF) as (s' & -> & ? & ?);
      [unfold IsRankCMD; by rewrite Ec|exists s'; split_and!; try done]);
    try (destruct Hrank as (s' & -> & ? & ?);
      [unfold IsRankCMD; by rewrite Ec|exists s'; split_and!; try done]).
  assert (IsRankCMD c = false) as Hrk by (unfold IsRankCMD; by rewrite Ec).
  destruct (UpdateActivationTimes_spec s F (Rank c) clk HF) as (s1 & -> & H1 & _ & Hw).
  { unfold target_ok in Ht. rewrite Hrk in Ht. simpl in Ht. lia. }
  simpl. destruct (Hbank s1 H1 Hrk) as (s' & -> & ? & E). exists s'.
  split_and!; try done. intros _. by rewrite E.
Qed.
End invariant.

(** The bank after a command it accepts. *)
Definition upd (x : BankState) (c : Command) : BankState :=
  match BankState.UpdateState x c with Ok y => y | _ => x end.

Definition accepts (c : Command) (x : BankState) : Prop :=
  exists y, BankState.UpdateState x c = Ok y /\ bank_ok y.

Lemma upd_sref x c y :
  BankState.UpdateState x c = Ok y ->
  (state_ y = SREF <->
   if ct_eqb (cmd_type c) SREF_ENTER then True
   else if ct_eqb (cmd_type c) SREF_EXIT then False else state_ x = SREF).
Proof.
  unfold BankState.UpdateState.
  destruct (state_ x) eqn:Ex, (cmd_type c) eqn:Ec; intros E; try discriminate E; injection E as <-;
    simpl; rewrite ?Ex; simpl; intuition congruence.
Qed.

Lemma Forall_erase_first {A} (P : A -> Prop) p l : Forall P l -> Forall P (erase_first p l).
Proof. induction 1; simpl; [done|]. destruct (p x); auto. Qed.

Section updating.
Context (config : Config).

(** The loop of a rank command over its banks. *)
Lemma rank_update_holds bs F c :
  holds config bs F -> 0 <= Rank c < ranks config ->
  (forall x, in_range config x -> is_same_rank (addr c) x = true -> accepts c (F x)) ->
  exists bs', forM (rank_banks config) (fun '((j, k) : Z * Z) bs =>
      bank_mod bs (Rank c) j k (fun x => BankState.UpdateState x c)) bs = Ok bs' /\
    holds config bs' (fun x => if is_same_rank (addr c) x then upd (F x) c else F x).
Proof.
  intros HF Hr Hacc.
  destruct (forM_parts config (fun '(j, k) x => loc_eqb x (Rank c, j, k)) (fun _ x => upd x c)
    (fun _ => accepts c) (fun '((j, k) : Z * Z) bs =>
      bank_mod bs (Rank c) j k (fun x => BankState.UpdateState x c)) (rank_banks config))
    with bs F as (bs' & E & H'); auto using NoDup_rank_banks.
  - intros [j k] [j' k'] x _ _ Hx%bool_decide_eq_true Hy%bool_decide_eq_true.
    rewrite Hx in Hy. by injection Hy as -> ->.
  - intros [j k] bs0 F0 Hjk%elem_of_rank_banks H0 HP.
    assert (in_range config (Rank c, j, k)) as Hin by (simpl; lia).
    destruct (HP (Rank c, j, k) Hin) as (y & Ey & Hy); [by apply bool_decide_eq_true|].
    destruct (holds_mod config bs0 F0 (Rank c) j k y (fun x => BankState.UpdateState x c))
      as (bs1 & -> & H1); [done..|]. exists bs1. split; [done|].
    apply (holds_banks_ext _ _ _ _ H1). intros x _. unfold loc_eqb, upd. case_bool_decide; [|done].
    subst. by rewrite Ey.
  - intros [j k] x Hjk Hx Hl%bool_decide_eq_true. apply Hacc; [done|].
    subst x. apply Z.eqb_refl.
  - exists bs'. split; [exact E|]. apply (holds_banks_ext _ _ _ _ H'). intros [[r g] b] Hx. simpl.
    destruct (existsb _ _) eqn:Ex; destruct (Z.eqb_spec r (rank (addr c))) as [Er|Er]; try done.
    + apply existsb_exists in Ex as ([j k] & _ & Hl%bool_decide_eq_true).
      destruct Er. by injection Hl as -> _ _.
    + apply not_true_iff_false in Ex. destruct Ex. apply existsb_exists. exists (g, b). split.
      * apply list_elem_of_In, elem_of_rank_banks. simpl in Hx. lia.
      * apply bool_decide_eq_true. by rewrite Er.
Qed.

(** [UpdateState] succeeds when every bank concerned accepts the command. *)
Lemma UpdateState_holds s F c :
  chan_ok config s F -> target_ok config c ->
  (forall x, in_range config x -> affected c x = true -> accepts c (F x)) ->
  exists s', UpdateState config s c = Ok s' /\
    chan_ok config s' (fun x => if affected c x then upd (F x) c else F x) /\
    four_aw_ s' = four_aw_ s.
Proof.
  intros HF Ht Hacc. unfold UpdateState, target_ok, affected in *.
  destruct (IsRankCMD c) eqn:Hrk.
  - destruct (rank_update_holds _ _ c (ch_holds _ _ _ HF) Ht Hacc) as (bs' & -> & H'). simpl.
    destruct HF as [H1 H2 H3 H4 H5 H6 H7].
    assert (forall r g b, in_range config (r, g, b) -> r = Rank c ->
      exists y, BankState.UpdateState (F (r, g, b)) c = Ok y) as Hy.
    { intros r g b Hx ->. destruct (Hacc (Rank c, g, b) Hx) as (y & E & _); [apply Z.eqb_refl|].
      eauto. }
    assert (forall v0, (cmd_type c = SREF_ENTER /\ v0 = true) \/ (cmd_type c = SREF_EXIT /\ v0 = false) ->
      exists v', vset (rank_is_sref_ s) (Rank c) v0 = Ok v' /\
      chan_ok config (set_sref (set_banks s bs') v')
        (fun x => if is_same_rank (addr c) x then upd (F x) c else F x)) as Hset.
    { intros v0 Hv0. rewrite vset_Ok by lia. eexists. split; [done|].
      assert (vset (rank_is_sref_ s) (Rank c) v0 = Ok (<[Z.to_nat (Rank c):=v0]> (rank_is_sref_ s)))
        as Hs by (apply vset_Ok; lia).
      split; simpl; try done; [by rewrite length_insert|].
      intros r g b v Hx Hv. rewrite (vget_vset _ _ _ _ _ Hs) in Hv. unfold Rank in Hv.
      destruct (Z.eqb_spec r (rank (addr c))) as [Er|Er]; [|by eapply H6].
      injection Hv as <-. destruct (Hy r g b Hx Er) as [y Ey]. unfold upd. rewrite Ey.
      rewrite (upd_sref _ _ _ Ey). destruct Hv0 as [[-> ->]|[-> ->]]; simpl; intuition done. }
    destruct (cmd_type c) eqn:Ec; unfold IsRankCMD, IsRefresh in *; rewrite Ec in *; simpl in *;
      try done.
    + eexists. split; [done|]. split; [|done]. split; simpl; try done.
      * intros r g b v Hx Hv. destruct (Z.eqb_spec r (rank (addr c))) as [Er|Er]; [|by eapply H6].
        destruct (Hy r g b Hx Er) as [y Ey]. unfold upd. rewrite Ey, (upd_sref _ _ _ Ey), Ec.
        simpl. by eapply H6.
      * by apply Forall_erase_first.
    + destruct (Hset true) as (v' & -> & ?); [tauto|]. simpl. eauto.
    + destruct (Hset false) as (v' & -> & ?); [tauto|]. simpl. eauto.
  - destruct (Hacc (Rank c, Bankgroup c, Bank c) Ht) as (y & Ey & Hy);
      [by apply bool_decide_eq_true|].
    destruct (holds_mod config (bank_states_ s) F (Rank c) (Bankgroup c) (Bank c) y
      (fun x => BankState.UpdateState x c)) as (bs' & -> & H'); [apply HF|done..|]. simpl.
    unfold Rank, Bankgroup, Bank in Ey, H'.
    assert (chan_ok config (set_banks s bs')
      (fun x => if is_same_bank (addr c) x then upd (F x) c else F x)) as Hok.
    { apply (chan_ok_banks config s F); [done| |].
      - apply (holds_banks_ext _ _ _ _ H'). intros x _. unfold is_same_bank, loc_eqb.
        case_bool_decide as Eb; [|done]. unfold upd. by rewrite Eb, Ey.
      - intros x _. unfold is_same_bank, loc_eqb. case_bool_decide as Eb; [|done].
        unfold upd. rewrite Eb, Ey, (upd_sref _ _ _ Ey).
        unfold IsRankCMD in Hrk. destruct (cmd_type c); done. }
    destruct (IsRefresh c); [|eauto]. eexists. split; [done|]. split; [|done].
    destruct Hok. split; simpl; try done. by apply Forall_erase_first.
Qed.
End updating.

Section readiness.
Context (config : Config).
Hypothesis banks_eq : banks config = bankgroups config * banks_per_group config.
Hypothesis groups_pos : 1 <= bankgroups config.
Hypothesis group_pos : 1 <= banks_per_group config.

Lemma length_rank_banks : Z.of_nat (length (rank_banks config)) = banks config.
Proof.
  unfold rank_banks. rewrite banks_eq.
  rewrite <-(Z2Nat.id (bankgroups config)) at 2 by lia.
  rewrite <-(length_seqZ 0 (bankgroups config)).
  induction (seqZ 0 (bankgroups config)) as [|j l IH]; [done|].
  cbn [mbind list_bind length]. rewrite length_app, length_fmap, length_seqZ. lia.
Qed.

(** A request a channel can be asked about. *)
Record askable (F : loc -> BankState) (cmd : Command) : Prop := {
  ask_request : is_request (cmd_type cmd) = true;
  ask_target : target_ok config cmd;
  ask_row : is_access (cmd_type cmd) = true -> 0 <= Row cmd;
  ask_awake : is_access (cmd_type cmd) = false ->
    forall x, in_range config x -> affected cmd x = true -> state_ (F x) <> SREF }.

(** Banks whose timing [GetReadyCommand] has checked: all the command acts on, except that a
    self-refresh exit is checked at the bank that asked for it. *)
Definition checked (c : Command) (x : loc) : bool :=
  if ct_eqb (cmd_type c) SREF_EXIT then is_same_bank (addr c) x else affected c x.

(** A command that can be issued now. *)
Record ready (s : ChannelState) (F : loc -> BankState) (clk : Z) (c : Command) : Prop := {
  rd_valid : cmd_type c <> CT_SIZE;
  rd_target : target_ok config c;
  rd_step : forall x, in_range config x -> affected c x = true ->
    accepts c (F x) /\ jedec_step (abstract (F x)) c (abstract (upd (F x) c));
  rd_time : forall x, in_range config x -> checked c x = true ->
    timing_of (F x) (cmd_type c) <= clk;
  rd_window : cmd_type c = ACTIVATE -> ActivationWindowOk config s (Rank c) clk = Ok true }.

(** What one bank answers to a request. *)
Lemma bank_answer (F : loc -> BankState) cmd clk x :
  bank_ok (F x) -> is_request (cmd_type cmd) = true ->
  (is_access (cmd_type cmd) = true -> 0 <= Row cmd) ->
  (is_access (cmd_type cmd) = false -> state_ (F x) <> SREF) ->
  exists c, BankState.GetReadyCommand (F x) cmd clk = Ok c /\
    (IsValid c = true ->
       addr c = addr cmd /\ hex_addr c = hex_addr cmd /\ timing_of (F x) (cmd_type c) <= clk /\
       required_type (F x) cmd = Ok (cmd_type c) /\
       accepts c (F x) /\ jedec_step (abstract (F x)) c (abstract (upd (F x) c))).
Proof.
  intros Hok Hreq Hrow Hawake.
  destruct (BankState.GetReadyCommand (F x) cmd clk) as [c|e|] eqn:E.
  - exists c. split; [done|]. intros Hv.
    destruct (GetReadyCommand_inv _ _ _ _ Hok E Hv) as (Hr & Ht & Hc).
    assert (timing_of (F x) (cmd_type c) <= clk /\
      exists b', BankState.UpdateState (F x) c = Ok b' /\ bank_ok b' /\
        jedec_step (abstract (F x)) c (abstract b')) as (_ & y & Ey & Hy & Hj).
    { by apply (ready_step (F x) cmd clk c). }
    split_and!; try done; try (rewrite Hc; done).
    + by exists y.
    + unfold upd. by rewrite Ey.
  - exfalso. destruct (request_errors (F x) cmd clk Hok) as (Hiff & He & _).
    pose proof (He e E) as ->. apply Hiff in E as [E|[E1 E2]]; [congruence|].
    by apply Hawake in E2.
  - exfalso. destruct (request_errors (F x) cmd clk Hok) as (_ & _ & Hn). done.
Qed.

(** The commands on whole ranks and the precharges are accepted in their states. *)
Lemma simple_accepts c x :
  bank_ok x ->
  (state_ x = CLOSED /\ (cmd_type c = REFRESH \/ cmd_type c = SREF_ENTER)) \/
  (state_ x = SREF /\ cmd_type c = SREF_EXIT) \/ (state_ x = OPEN /\ cmd_type c = PRECHARGE) ->
  accepts c x /\ jedec_step (abstract x) c (abstract (upd x c)).
Proof.
  intros Hok Hst.
  assert (exists y, BankState.UpdateState x c = Ok y /\ jedec_step (abstract x) c (abstract y))
    as (y & Ey & Hj).
  { unfold BankState.UpdateState, abstract.
    destruct Hst as [(Es & [Ec|Ec])|[(Es & Ec)|(Es & Ec)]]; rewrite Es, Ec;
      (eexists; split; [reflexivity|]); simpl; rewrite ?Es.
    - apply step_refresh. unfold IsRefresh. by rewrite Ec.
    - by apply step_enter.
    - by apply step_exit.
    - by apply step_precharge. }
  split; [|unfold upd; by rewrite Ey]. exists y. split; [done|].
  eapply UpdateState_ok; [done| |done]. intros Ha. destruct Hst as [(_ & [E|E])|[(_ & E)|(_ & E)]]; congruence.
Qed.

(** The loop over the banks of a rank, from any point on. *)
Lemma rank_ready_loop s F cmd clk L acc n :
  chan_ok config s F -> askable F cmd -> IsRankCMD cmd = true ->
  (forall j k, (j, k) ∈ L -> in_range config (Rank cmd, j, k)) ->
  let body := (fun '((j, k) : Z * Z) '((_, num_ready) : Command * Z) =>
    x ← bank_at (bank_states_ s) (Rank cmd) j k;
    ready_cmd ← BankState.GetReadyCommand x cmd clk;
    if negb (IsValid ready_cmd) then Ok (inr (ready_cmd, num_ready))
    else if negb (ct_eqb (cmd_type ready_cmd) (cmd_type cmd)) then
      Ok (inl (mkCommand (cmd_type ready_cmd)
                 (mkAddress (-1) (Rank cmd) j k (-1) (-1)) (hex_addr ready_cmd)))
    else Ok (inr (ready_cmd, num_ready + 1))) in
  (exists j k, (j, k) ∈ L /\ state_ (F (Rank cmd, j, k)) = OPEN /\
     timing_of (F (Rank cmd, j, k)) PRECHARGE <= clk /\
     forR L body (acc, n) = Ok (inl (mkCommand PRECHARGE
       (mkAddress (-1) (Rank cmd) j k (-1) (-1)) (hex_addr cmd)))) \/
  (exists c m, forR L body (acc, n) = Ok (inr (c, m)) /\ m <= n + Z.of_nat (length L) /\
     (m = n + Z.of_nat (length L) ->
        (L = [] -> c = acc) /\ (L <> [] -> c = mkCommand (cmd_type cmd) (addr cmd) (hex_addr cmd)) /\
        forall j k, (j, k) ∈ L ->
          state_ (F (Rank cmd, j, k)) = CLOSED /\
          timing_of (F (Rank cmd, j, k)) (cmd_type cmd) <= clk)).
Proof.
  intros HF Hask Hrk HL body.
  assert (is_access (cmd_type cmd) = false) as Hna
    by (unfold IsRankCMD in Hrk; destruct (cmd_type cmd); done).
  revert acc n. induction L as [|[j k] L IH]; intros acc n.
  { right. exists acc, n. simpl. split; [done|]. split; [lia|]. intros _. set_solver. }
  assert (in_range config (Rank cmd, j, k)) as Hin by (apply HL; set_solver).
  pose proof (holds_ok _ _ _ (ch_holds _ _ _ HF) _ Hin) as Hok.
  assert (state_ (F (Rank cmd, j, k)) <> SREF) as Hns.
  { apply (ask_awake _ _ Hask Hna _ Hin). unfold affected. rewrite Hrk. apply Z.eqb_refl. }
  destruct (bank_answer F cmd clk (Rank cmd, j, k) Hok (ask_request _ _ Hask) (ask_row _ _ Hask)
    (fun _ => Hns)) as (c & Ec & Hc).
  assert (forR ((j, k) :: L) body (acc, n) =
    if negb (IsValid c) then forR L body (c, n)
    else if negb (ct_eqb (cmd_type c) (cmd_type cmd)) then
      Ok (inl (mkCommand (cmd_type c) (mkAddress (-1) (Rank cmd) j k (-1) (-1)) (hex_addr c)))
    else forR L body (c, n + 1)) as ->.
  { simpl. rewrite (holds_at _ _ _ (ch_holds _ _ _ HF)) by done. simpl. rewrite Ec. simpl.
    destruct (IsValid c); simpl; [|done]. by destruct (ct_eqb _ _). }
  specialize (IH ltac:(intros; apply HL; set_solver)).
  destruct (IsValid c) eqn:Hv; simpl.
  - destruct (Hc eq_refl) as (Ha & Hh & Ht & Hr & _). unfold required_type in Hr.
    destruct (bank_state _ Hok) as [Es|[Es|Es]]; [| |done].
    + assert (cmd_type c = PRECHARGE) as Hp
        by (rewrite Es in Hr; unfold IsRankCMD in Hrk; destruct (cmd_type cmd); simpl in *; congruence).
      rewrite Hp in Ht |- *.
      replace (ct_eqb PRECHARGE (cmd_type cmd)) with false
        by (unfold IsRankCMD in Hrk; by destruct (cmd_type cmd)). simpl. left.
      exists j, k. rewrite Hh. split_and!; try done. set_solver.
    + assert (cmd_type c = cmd_type cmd) as Hp
        by (rewrite Es in Hr; unfold IsRankCMD in Hrk; destruct (cmd_type cmd); simpl in *; congruence).
      rewrite Hp. unfold ct_eqb. rewrite bool_decide_eq_true_2 by done. simpl.
      assert (c = mkCommand (cmd_type cmd) (addr cmd) (hex_addr cmd)) as Hceq
        by (destruct c; simpl in *; congruence).
      destruct (IH c (n + 1)) as [(j' & k' & ? & ?)|(c' & m & E & Hm & Hall)].
      * left. exists j', k'. split; [set_solver|done].
      * right. exists c', m. split; [exact E|]. rewrite Hp in Ht.
        split; [simpl; lia|]. intros Hmeq. destruct Hall as (H1 & H2 & H3); [simpl in Hmeq; lia|].
        split; [done|]. split.
        -- intros _. destruct L; [rewrite H1; done|by apply H2].
        -- intros j' k' [[= -> ->]|Hin']%elem_of_cons; [done|by apply H3].
  - destruct (IH c n) as [(j' & k' & ? & ?)|(c' & m & E & Hm & Hall)].
    + left. exists j', k'. split; [set_solver|done].
    + right. exists c', m. split; [exact E|]. split; [simpl; lia|]. simpl. lia.
Qed.

(** The answer to a command for a whole rank. *)
Lemma rank_request_ready s F cmd clk :
  chan_ok config s F -> askable F cmd -> IsRankCMD cmd = true ->
  exists c,
    (res ← rank_ready config s cmd clk;
     match res with
     | inl ready_cmd => Ok ready_cmd
     | inr (ready_cmd, num_ready) =>
         if num_ready =? banks config then Ok ready_cmd else Ok noCommand
     end) = Ok c /\
    (IsValid c = true -> ready s F clk c /\ hex_addr c = hex_addr cmd /\
       (is_access (cmd_type cmd) = true -> addr c = addr cmd) /\
       (IsReadWrite c = true -> c = cmd) /\ Rank c = Rank cmd /\
       (cmd_type c = SREF_ENTER -> cmd_type cmd = SREF_ENTER)).
Proof.
  intros HF Hask Hrk. pose proof (ask_target _ _ Hask) as Ht. unfold target_ok in Ht.
  rewrite Hrk in Ht.
  assert (forall j k, (j, k) ∈ rank_banks config -> in_range config (Rank cmd, j, k)) as HL
    by (intros j k Hjk%elem_of_rank_banks; simpl; lia).
  assert (is_access (cmd_type cmd) = false) as Hna
    by (unfold IsRankCMD in Hrk; by destruct (cmd_type cmd)).
  unfold rank_ready.
  destruct (rank_ready_loop s F cmd clk (rank_banks config) noCommand 0 HF Hask Hrk HL)
    as [(j & k & Hjk & Hs & Htm & ->)|(c & m & -> & Hm & Hall)]; cbn [mbind res_bind].
  - eexists. split; [done|]. intros _. split; [|by rewrite Hna].
    specialize (HL j k Hjk). split; simpl; try done.
    + intros x Hx Hxl%bool_decide_eq_true. subst x. apply simple_accepts; [|tauto].
      by apply (holds_ok _ _ _ (ch_holds _ _ _ HF)).
    + intros x Hx Hxl%bool_decide_eq_true. by subst x.
  - destruct (Z.eqb_spec m (banks config)) as [Em|Em]; [|exists noCommand; done].
    rewrite <-length_rank_banks in Em. destruct (Hall Em) as (_ & Hc & Hbanks).
    rewrite Hc; cycle 1.
    { intros E. pose proof length_rank_banks as HLn. rewrite E, banks_eq in HLn. simpl in HLn. nia. }
    assert (cmd_type cmd = REFRESH \/ cmd_type cmd = SREF_ENTER) as Hty.
    { pose proof (ask_request _ _ Hask). unfold IsRankCMD in Hrk. destruct (cmd_type cmd); naive_solver. }
    replace (mkCommand (cmd_type cmd) (addr cmd) (hex_addr cmd)) with cmd by by destruct cmd.
    exists cmd. split; [done|]. intros _. split; [|done].
    assert (forall x, in_range config x -> is_same_rank (addr cmd) x = true ->
      state_ (F x) = CLOSED /\ timing_of (F x) (cmd_type cmd) <= clk) as Hx.
    { intros [[r g] b] Hx Hr. simpl in Hr. apply Z.eqb_eq in Hr as ->.
      apply (Hbanks g b). apply elem_of_rank_banks. simpl in Hx. lia. }
    split; try done.
    + intros E. rewrite E in Hty. naive_solver.
    + unfold target_ok. by rewrite Hrk.
    + intros x Hxr Ha. unfold affected in Ha. rewrite Hrk in Ha. destruct (Hx x Hxr Ha).
      apply simple_accepts; [by apply (holds_ok _ _ _ (ch_holds _ _ _ HF))|]. left. done.
    + intros x Hxr Ha. apply Hx; [done|]. unfold checked, affected in Ha. rewrite Hrk in Ha.
      destruct Hty as [E|E]; rewrite E in Ha; done.
    + intros E. destruct Hty; congruence.
Qed.

(** The answer to a command for one bank. *)
Lemma bank_request_ready s F cmd clk :
  chan_ok config s F -> askable F cmd -> IsRankCMD cmd = false ->
  exists c,
    (x ← bank_at (bank_states_ s) (Rank cmd) (Bankgroup cmd) (Bank cmd);
     ready_cmd ← BankState.GetReadyCommand x cmd clk;
     if negb (IsValid ready_cmd) then Ok noCommand
     else if ct_eqb (cmd_type ready_cmd) ACTIVATE then
       ok ← ActivationWindowOk config s (Rank ready_cmd) clk;
       if negb ok then Ok noCommand else Ok ready_cmd
     else Ok ready_cmd) = Ok c /\
    (IsValid c = true -> ready s F clk c /\ hex_addr c = hex_addr cmd /\
       (is_access (cmd_type cmd) = true -> addr c = addr cmd) /\
       (IsReadWrite c = true -> c = cmd) /\ Rank c = Rank cmd /\
       (cmd_type c = SREF_ENTER -> cmd_type cmd = SREF_ENTER)).
Proof.
  intros HF Hask Hrk. pose proof (ask_target _ _ Hask) as Ht. unfold target_ok in Ht.
  rewrite Hrk in Ht. set (l := (Rank cmd, Bankgroup cmd, Bank cmd)) in *.
  rewrite (holds_at _ _ _ (ch_holds _ _ _ HF)) by exact Ht. fold l. simpl.
  pose proof (holds_ok _ _ _ (ch_holds _ _ _ HF) l Ht) as Hok.
  destruct (bank_answer F cmd clk l Hok (ask_request _ _ Hask) (ask_row _ _ Hask)) as (c & -> & Hc).
  { intros Hna. apply (ask_awake _ _ Hask Hna l Ht). unfold affected. rewrite Hrk.
    by apply bool_decide_eq_true. }
  cbn [mbind res_bind]. destruct (IsValid c) eqn:Hv; [|exists noCommand; done]. simpl.
  destruct (Hc eq_refl) as (Ha & Hh & Htm & Hr & Hstep). clear Hc.
  assert (cmd_type c <> CT_SIZE) as Hcs by (intros E; unfold IsValid in Hv; by rewrite E in Hv).
  assert (forall x, is_same_bank (addr c) x = true -> x = l) as Hl
    by (intros x Hx%bool_decide_eq_true; rewrite Ha in Hx; done).
  assert (0 <= Rank c < ranks config) as HR by (unfold Rank; rewrite Ha; unfold l in Ht; simpl in Ht; tauto).
  assert ((cmd_type c = ACTIVATE -> ActivationWindowOk config s (Rank c) clk = Ok true) ->
    ready s F clk c) as Hready.
  { intros Hw. split; try done.
    - unfold target_ok. destruct (IsRankCMD c); [done|]. unfold Rank, Bankgroup, Bank. by rewrite Ha.
    - intros x Hx Haff. unfold affected in Haff. destruct (IsRankCMD c) eqn:Hrc.
      + apply simple_accepts; [by apply (holds_ok _ _ _ (ch_holds _ _ _ HF))|].
        right. left.
        assert (state_ (F l) = SREF /\ cmd_type c = SREF_EXIT) as [Hs ->].
        { unfold required_type in Hr. unfold IsRankCMD in Hrk, Hrc.
          destruct (state_ (F l)), (cmd_type cmd); try done;
            try destruct (Row cmd =? open_row_ (F l)); injection Hr as Hr; rewrite <-Hr in *; done. }
        split; [|done]. destruct x as [[r g] b]. simpl in Haff. apply Z.eqb_eq in Haff as ->.
        destruct (vget_in_range (rank_is_sref_ s) (Rank c)) as [v Hv'];
          [rewrite (ch_sref_len _ _ _ HF); done|].
        apply (ch_sref _ _ _ HF _ _ _ v Hx Hv').
        unfold Rank in Hv'. rewrite Ha in Hv'.
        by apply (ch_sref _ _ _ HF _ _ _ v Ht Hv').
      + apply Hl in Haff as ->. done.
    - intros x Hx Hch. assert (x = l) as ->; [|done]. unfold checked, affected in Hch.
      destruct (ct_eqb (cmd_type c) SREF_EXIT) eqn:Ex; [by apply Hl|].
      destruct (IsRankCMD c) eqn:Hrc; [|by apply Hl]. exfalso.
      unfold required_type in Hr. unfold IsRankCMD in Hrk, Hrc.
      destruct (state_ (F l)), (cmd_type cmd); try done;
        try destruct (Row cmd =? open_row_ (F l)); injection Hr as Hr; rewrite <-Hr in *; done. }
  assert (IsReadWrite c = true -> c = cmd) as Hrw.
  { intros Hrw. assert (cmd_type c = cmd_type cmd); [|destruct c, cmd; simpl in *; congruence].
    unfold required_type in Hr. unfold IsReadWrite, IsRead, IsWrite in Hrw.
    destruct (state_ (F l)), (cmd_type cmd); try done;
      try destruct (Row cmd =? open_row_ (F l)); injection Hr as Hr; rewrite <-Hr in *; done. }
  assert (Rank c = Rank cmd) as HRk by (unfold Rank; by rewrite Ha).
  assert (cmd_type c = SREF_ENTER -> cmd_type cmd = SREF_ENTER) as Hse.
  { intros E. rewrite E in Hr. unfold required_type in Hr.
    destruct (state_ (F l)), (cmd_type cmd); try done;
      try destruct (Row cmd =? open_row_ (F l)); done. }
  destruct (ct_eqb (cmd_type c) ACTIVATE) eqn:Eact.
  - assert (exists ok, ActivationWindowOk config s (Rank c) clk = Ok ok) as [ok Eok].
    { unfold ActivationWindowOk, IsFAWReady, Is32AWReady.
      destruct (vget_in_range (four_aw_ s) (Rank c)) as [w ->]; [rewrite (ch_four_len _ _ _ HF); done|].
      destruct (vget_in_range (thirty_two_aw_ s) (Rank c)) as [v ->]; [rewrite (ch_thirty_len _ _ _ HF); done|].
      simpl. destruct w, (IsGDDR config), v; simpl; eauto; destruct (negb _); simpl; eauto. }
    rewrite Eok. simpl. destruct ok; simpl; [|exists noCommand; done].
    exists c. split; [done|]. intros _. split; [by apply Hready|].
    split_and!; done.
  - exists c. split; [done|]. intros _. split; [|split_and!; done].
    apply Hready. intros E. rewrite E in Eact. done.
Qed.

(** A request a channel can be asked about is answered, and the answer can be issued. *)
Lemma GetReadyCommand_ready s F cmd clk :
  chan_ok config s F -> askable F cmd ->
  exists c, GetReadyCommand config s cmd clk = Ok c /\
    (IsValid c = true -> ready s F clk c /\ hex_addr c = hex_addr cmd /\
       (is_access (cmd_type cmd) = true -> addr c = addr cmd) /\
       (IsReadWrite c = true -> c = cmd) /\ Rank c = Rank cmd /\
       (cmd_type c = SREF_ENTER -> cmd_type cmd = SREF_ENTER)).
Proof.
  intros HF Hask. unfold GetReadyCommand. destruct (IsRankCMD cmd) eqn:Hrk.
  - by apply rank_request_ready.
  - by apply bank_request_ready.
Qed.
End readiness.

(** ** Issuing *)

Section issuing.
Context (config : Config) (timing_ : Timing).
Hypothesis timing_ok : Timing_ok timing_.
Hypothesis banks_eq : banks config = bankgroups config * banks_per_group config.
Hypothesis groups_pos : 1 <= bankgroups config.
Hypothesis group_pos : 1 <= banks_per_group config.

(** The banks after a command. *)
Definition issued (F : loc -> BankState) (c : Command) (clk : Z) : loc -> BankState :=
  fun x => delay (waits timing_ c x) clk (if affected c x then upd (F x) c else F x).

(** Issuing a ready command succeeds and keeps the invariant. *)
Lemma issue_ok s F clk c :
  chan_ok config s F -> ready config s F clk c ->
  exists s', UpdateTimingAndStates config timing_ s c clk = Ok s' /\
    chan_ok config s' (issued F c clk) /\
    (cmd_type c <> ACTIVATE -> four_aw_ s' = four_aw_ s) /\
    (cmd_type c = ACTIVATE -> forall w, vget (four_aw_ s) (Rank c) = Ok w ->
       vset (four_aw_ s) (Rank c) (slide w clk (tFAW config)) = Ok (four_aw_ s')).
Proof.
  intros HF [Hv Ht Hstep _ _]. unfold UpdateTimingAndStates.
  destruct (UpdateState_holds config s F c HF Ht) as (s1 & -> & H1 & E1).
  { intros x Hx Ha. by apply Hstep. }
  simpl. rewrite <-E1. by apply (UpdateTiming_holds config timing_ timing_ok).
Qed.

Lemma issued_abstract F c clk x :
  abstract (issued F c clk x) = abstract (if affected c x then upd (F x) c else F x).
Proof.
  unfold issued, abstract.
  by destruct (delay_same (waits timing_ c x) clk (if affected c x then upd (F x) c else F x)) as (-> & -> & _).
Qed.

(** Times never move forward, and what the command asks for holds. *)
Lemma issued_timing s F clk c x u :
  chan_ok config s F -> ready config s F clk c -> in_range config x ->
  timing_of (F x) u <= timing_of (issued F c clk x) u /\
  forall d, (u, d) ∈ waits timing_ c x -> u64 (clk + d) <= timing_of (issued F c clk x) u.
Proof.
  intros HF Hrd Hx. unfold issued. set (y := if affected c x then upd (F x) c else F x).
  pose proof (holds_ok _ _ _ (ch_holds _ _ _ HF) x Hx) as Hok.
  assert (bank_ok y /\ timing_of y u = timing_of (F x) u) as [Hy <-].
  { unfold y. destruct (affected c x) eqn:Ha; [|done].
    destruct (rd_step _ _ _ _ _ Hrd x Hx Ha) as [(z & Ez & Hz) _].
    unfold upd. rewrite Ez. split; [done|]. by eapply UpdateState_timing. }
  pose proof (waits_constrains timing_ timing_ok c x). split.
  - by apply delay_mono.
  - intros d Hd. by apply delay_bound.
Qed.

(** C7: Whatever a channel is asked (a read, a write, a refresh, or to enter self-refresh, of
    ranks that are awake), it answers, and the command it answers with can be issued: no bank
    rejects it, every bank it acts on makes a step of the JEDEC automaton and the others keep
    their state, and the invariant of the channel is preserved. *)
Theorem channel_issue s F cmd clk :
  chan_ok config s F -> askable config F cmd ->
  exists c, GetReadyCommand config s cmd clk = Ok c /\
    (IsValid c = true ->
     exists s' F', UpdateTimingAndStates config timing_ s c clk = Ok s' /\
       chan_ok config s' F' /\
       forall x, in_range config x ->
         if affected c x then jedec_step (abstract (F x)) c (abstract (F' x))
         else abstract (F' x) = abstract (F x)).
Proof.
  intros HF Hask.
  destruct (GetReadyCommand_ready config banks_eq groups_pos group_pos s F cmd clk HF Hask)
    as (c & E & Hc).
  exists c. split; [done|]. intros Hv. destruct (Hc Hv) as [Hrd _].
  destruct (issue_ok s F clk c HF Hrd) as (s' & E' & HF' & _).
  exists s', (issued F c clk). split; [done|]. split; [done|]. intros x Hx.
  rewrite issued_abstract. destruct (affected c x) eqn:Ha; [|done].
  by apply (rd_step _ _ _ _ _ Hrd).
Qed.

(** ** Histories *)

(** A request is one the channel can be asked about. *)
Definition asked (s : ChannelState) (cmd : Command) : Prop :=
  exists F, chan_ok config s F /\ askable config F cmd.

(** The commands issued so far, with their times, and the state reached: a request is put to
    the channel and its answer issued, at a time not before the earlier ones; a refresh becomes
    due; idle cycles are counted. *)
Inductive history : list (Z * Command) -> ChannelState -> Prop :=
| h_start : history [] (newChannelState config)
| h_issue log s cmd clk c s' :
    history log s -> 0 <= clk -> (forall t c1, (t, c1) ∈ log -> t <= clk) ->
    asked s cmd -> GetReadyCommand config s cmd clk = Ok c -> IsValid c = true -> UpdateTimingAndStates config timing_ s c clk = Ok s' ->
    history (log ++ [(clk, c)]) s'
| h_rank_refresh log s r :
    history log s -> 0 <= r < ranks config -> history log (RankNeedRefresh s r true)
| h_bank_refresh log s r g b :
    history log s -> in_range config (r, g, b) -> history log (BankNeedRefresh s r g b true)
| h_idle log s v :
    history log s -> length v = length (rank_idle_cycles s) -> history log (set_idle s v).

Hypothesis ranks_nonneg : 0 <= ranks config.

Lemma chan_ok_refresh s F c :
  chan_ok config s F -> refresh_ok config c ->
  chan_ok config (set_refresh_q s (refresh_q_ s ++ [c])) F.
Proof. intros [] Hc. split; simpl; try done. by apply Forall_app_2; [|constructor]. Qed.

(** What a history leaves in the banks: the constraints of everything issued. *)
Lemma history_timing log s :
  history log s -> exists F, chan_ok config s F /\
    forall t c x u d, (t, c) ∈ log -> in_range config x -> (u, d) ∈ waits timing_ c x ->
      u64 (t + d) <= timing_of (F x) u.
Proof.
  induction 1 as [|log s cmd clk c s' _ (F & HF & IH) _ _ (F0 & HF0 & Hask) E Hv E'
    |log s r _ (F & HF & IH) Hr|log s r g b _ (F & HF & IH) Hr|log s v _ (F & HF & IH) Hlen].
  - exists (fun _ => newBankState). split; [apply newChannelState_ok; lia|]. intros. set_solver.
  - assert (askable config F cmd) as Hask'.
    { destruct Hask. split; try done. intros Hna x Hx Ha.
      assert (F x = F0 x) as ->; [|by apply ask_awake0]. destruct x as [[r g] b].
      pose proof (holds_at _ _ _ (ch_holds _ _ _ HF) r g b Hx) as E1.
      rewrite (holds_at _ _ _ (ch_holds _ _ _ HF0) r g b Hx) in E1. congruence. }
    destruct (GetReadyCommand_ready config banks_eq groups_pos group_pos s F cmd clk HF Hask')
      as (c' & E1 & Hc). rewrite E in E1. injection E1 as <-. destruct (Hc Hv) as [Hrd _].
    destruct (issue_ok s F clk c HF Hrd) as (s1 & E1 & HF' & _). rewrite E' in E1. injection E1 as <-.
    exists (issued F c clk). split; [done|]. intros t c1 x u d Hin Hx Hd.
    destruct (issued_timing s F clk c x u HF Hrd Hx) as [Hm Hb].
    apply elem_of_app in Hin as [Hin|Hin].
    + etrans; [|exact Hm]. by eapply IH.
    + apply list_elem_of_singleton in Hin as [= -> ->]. by apply Hb.
  - exists F. split; [|done]. apply chan_ok_refresh; [done|]. split; [done|]. unfold target_ok. simpl. done.
  - exists F. split; [|done]. apply chan_ok_refresh; [done|]. split; [done|]. unfold target_ok. simpl. done.
  - exists F. split; [|done]. destruct HF. split; simpl; try done. by rewrite Hlen.
Qed.

(** ** The four-activate window *)

(** The times at which a rank has been activated. *)
Definition activations (r : Z) (log : list (Z * Command)) : list Z :=
  omap (fun '(t, c) => if ct_eqb (cmd_type c) ACTIVATE && (Rank c =? r) then Some t else None) log.

(** What the window remembers: the recent activations, at most four; those forgotten had
    expired by the last activation. *)
Record window_ok (acts w : list Z) : Prop := {
  win_len : (length w <= 4)%nat;
  win_suffix : exists k, w = (fun t => t + tFAW config) <$> drop k acts /\ (k <= length acts)%nat /\
    forall i ti, (i < k)%nat -> acts !! i = Some ti ->
      exists tl, last acts = Some tl /\ ti + tFAW config <= tl;
  win_gap : forall i ti tj, acts !! i = Some ti -> acts !! (i + 4)%nat = Some tj ->
    ti + tFAW config <= tj }.

Lemma window_slide acts w clk :
  window_ok acts w -> (forall t, last acts = Some t -> t <= clk) ->
  0 <= tFAW config -> 0 <= clk -> clk + tFAW config < 2 ^ 64 ->
  (forall f rest, w = f :: rest -> clk < f -> (length w < 4)%nat) ->
  window_ok (acts ++ [clk]) (slide w clk (tFAW config)).
Proof.
  intros [Hlen (k & Hw & Hk & Hold) Hgap] Hlast HFAW Hclk Hb Hready.
  assert (length w = (length acts - k)%nat) as Hlw by by rewrite Hw, length_fmap, length_drop.
  assert (forall i ti, (i < k)%nat -> acts !! i = Some ti -> ti + tFAW config <= clk) as Hold'.
  { intros i ti Hi Hti. destruct (Hold i ti Hi Hti) as (tl & Htl & ?). specialize (Hlast tl Htl). lia. }
  assert (forall i ti tj, acts !! i = Some ti -> (acts ++ [clk]) !! (i + 4)%nat = Some tj ->
    (i + 4)%nat = length acts -> ti + tFAW config <= tj) as Hnew.
  { intros i ti tj Hti Htj Hi. rewrite lookup_app_r, Hi, Nat.sub_diag in Htj by lia.
    simpl in Htj. injection Htj as <-. destruct (decide (i < k)%nat); [by eapply Hold'|].
    assert (i = k) as -> by lia. rewrite (drop_S _ _ _ Hti) in Hw. simpl in Hw.
    destruct (Z.le_gt_cases (ti + tFAW config) clk); [done|].
    pose proof (Hready _ _ Hw ltac:(lia)). lia. }
  unfold slide. rewrite wrapU_small by lia.
  assert (forall k', (k' <= length acts)%nat -> (length acts - k' < 4)%nat ->
    (forall i ti, (i < k')%nat -> acts !! i = Some ti -> ti + tFAW config <= clk) ->
    window_ok (acts ++ [clk])
      (((fun t => t + tFAW config) <$> drop k' acts) ++ [clk + tFAW config])) as Hgoal.
  { intros k' Hk' Hl Ho. split.
    - rewrite length_app, length_fmap, length_drop. simpl. lia.
    - exists k'. split; [by rewrite drop_app_le, fmap_app by done|]. split; [rewrite length_app; lia|].
      intros i ti Hi Hti. rewrite lookup_app_l in Hti by lia. exists clk.
      rewrite last_snoc. split; [done|]. by eapply Ho.
    - intros i ti tj Hti Htj. pose proof (lookup_lt_Some _ _ _ Htj) as Hlt.
      rewrite length_app in Hlt. simpl in Hlt.
      rewrite lookup_app_l in Hti by lia.
      destruct (decide ((i + 4)%nat = length acts)); [by eapply Hnew|].
      rewrite lookup_app_l in Htj by lia. by eapply Hgap. }
  destruct w as [|f rest].
  - specialize (Hgoal k Hk). rewrite <-Hw in Hgoal. apply Hgoal; [simpl in Hlw; lia|done].
  - destruct (acts !! k) as [tk|] eqn:Ek; cycle 1.
    { apply lookup_ge_None in Ek. simpl in Hlw. lia. }
    rewrite (drop_S _ _ _ Ek) in Hw. simpl in Hw. injection Hw as -> ->.
    destruct (Z.leb_spec (tk + tFAW config) clk).
    + apply Hgoal; [apply lookup_lt_Some in Ek; lia|simpl in *; lia|].
      intros i ti Hi Hti. destruct (decide (i = k)) as [->|]; [congruence|]. apply (Hold' i); [lia|done].
    + specialize (Hgoal k Hk). rewrite (drop_S _ _ _ Ek) in Hgoal. simpl in Hgoal. apply Hgoal; [|done].
      pose proof (Hready _ _ eq_refl ltac:(lia)). simpl in *. lia.
Qed.

Lemma IsFAWReady_first s r clk f rest :
  vget (four_aw_ s) r = Ok (f :: rest) -> ActivationWindowOk config s r clk = Ok true ->
  clk < f -> (length (f :: rest) < 4)%nat.
Proof.
  unfold ActivationWindowOk, IsFAWReady. intros -> E Hf. cbn [mbind res_bind] in E.
  destruct (Z.ltb_spec clk f); [|lia].
  destruct (Z.leb_spec 4 (Z.of_nat (length (f :: rest)))); [|lia].
  destruct (IsGDDR config); done.
Qed.

(** A history ends in a channel whose windows are right, rank by rank. *)
Lemma history_windows log s r :
  history log s -> 0 <= tFAW config ->
  (forall t c, (t, c) ∈ log -> t + tFAW config < 2 ^ 64) -> 0 <= r < ranks config ->
  exists w, vget (four_aw_ s) r = Ok w /\ window_ok (activations r log) w.
Proof.
  intros Hh HFAW. induction Hh as [|log s cmd clk c s' Hh IH Hclk Hmono Hask E Hv E' | | |];
    intros Hb Hr; try by apply IHHh.
  - exists []. split.
    + apply vget_Ok. split; [lia|]. apply lookup_replicate. split; [done|lia].
    + split; [simpl; lia| |done]. exists 0%nat. split_and!; done.
  - destruct IH as (w & Hw & Hwin); [intros t c1 Hin; apply (Hb t c1); set_solver|done|].
    destruct Hask as (F & HF & Hask).
    destruct (GetReadyCommand_ready config banks_eq groups_pos group_pos s F cmd clk HF Hask)
      as (c' & E1 & Hc). rewrite E in E1. injection E1 as <-. destruct (Hc Hv) as [Hrd _].
    destruct (issue_ok s F clk c HF Hrd) as (s1 & E1 & _ & Hsame & Hslide).
    rewrite E' in E1. injection E1 as <-.
    unfold activations. rewrite omap_app. simpl. fold (activations r log).
    destruct (ct_eqb (cmd_type c) ACTIVATE) eqn:Ea; simpl; cycle 1.
    { exists w. rewrite app_nil_r, Hsame; [done|]. intros Ha. by rewrite Ha in Ea. }
    apply ct_eqb_true in Ea. specialize (Hslide Ea).
    destruct (Z.eqb_spec (Rank c) r) as [Er|Er]; simpl.
    + subst r. specialize (Hslide w Hw). exists (slide w clk (tFAW config)).
      split; [rewrite (vget_vset _ _ _ (Rank c) _ Hslide), Z.eqb_refl; done|].
      apply window_slide; try done.
      * intros t Ht. assert (t ∈ activations (Rank c) log) as Hin by (by apply last_Some_elem_of).
        apply list_elem_of_omap in Hin as ([t' c1] & Hin & Heq).
        destruct (_ && _); [|done]. injection Heq as ->. by eapply Hmono.
      * apply (Hb clk c). set_solver.
      * intros f rest -> Hf. eapply IsFAWReady_first; [exact Hw|by apply (rd_window _ _ _ _ _ Hrd)|done].
    + exists w. rewrite app_nil_r. split; [|done].
      destruct (vget_in_range (four_aw_ s) (Rank c)) as [v Hv'].
      { rewrite (ch_four_len _ _ _ HF). pose proof (rd_target _ _ _ _ _ Hrd) as Ht.
        unfold target_ok, IsRankCMD in Ht. rewrite Ea in Ht. simpl in Ht. tauto. }
      specialize (Hslide v Hv'). rewrite (vget_vset _ _ _ r _ Hslide).
      destruct (Z.eqb_spec r (Rank c)); [congruence|done].
Qed.

(** C36: In every history of a channel, a rank is never activated more than four times within
    the window [tFAW]: the fifth of any five successive activations comes at least [tFAW]
    cycles after the first. *)
Theorem four_activate_window log s r i t1 t5 :
  history log s -> 0 <= tFAW config ->
  (forall t c, (t, c) ∈ log -> t + tFAW config < 2 ^ 64) -> 0 <= r < ranks config ->
  activations r log !! i = Some t1 -> activations r log !! (i + 4)%nat = Some t5 ->
  t1 + tFAW config <= t5.
Proof.
  intros Hh HFAW Hb Hr H1 H5.
  destruct (history_windows log s r Hh HFAW Hb Hr) as (w & _ & Hwin).
  by eapply (win_gap _ _ Hwin).
Qed.
End issuing.

(** ** Spacing by the tables *)

(** The five tables, by the relation of a bank to the target of the earlier command. *)
Inductive relation := SameBank | OtherBank | OtherGroup | OtherRank | SameRank.

Definition table_of (q : relation) (t : Timing) : table :=
  match q with
  | SameBank => same_bank t
  | OtherBank => other_banks_same_bankgroup t
  | OtherGroup => other_bankgroups_same_rank t
  | OtherRank => other_ranks t
  | SameRank => same_rank t
  end.

Definition related (q : relation) (a : Address) (x : loc) : bool :=
  match q with
  | SameBank => is_same_bank a x
  | OtherBank => is_other_bank a x
  | OtherGroup => is_other_group a x
  | OtherRank => is_other_rank a x
  | SameRank => is_same_rank a x
  end.

(** The table for relation [q] lists the delay [d] for [u] after [c]. *)
Definition lists (config : Config) (q : relation) (c : Command) (u : CommandType) (d : Z) : Prop :=
  exists l, entries (table_of q (newTiming config)) (cmd_type c) = Ok l /\ (u, d) ∈ l.

(** Commands to a rank only have entries in the table of the rank, those to a bank, a refresh apart,
    only in the others. *)
Lemma newTiming_split config q c u d : lists config q c u d ->
  if IsRankCMD c then q = SameRank else q = SameRank -> cmd_type c = REFRESH_BANK.
Proof.
  intros (l & E & Hin). unfold IsRankCMD, newTiming, after_PRECHARGE in *.
  destruct (IsGDDR config || bool_decide (protocol config = LPDDR4)), q, (cmd_type c); cbn in E |- *;
    try done; injection E as <-; by apply not_elem_of_nil in Hin.
Qed.

Lemma lists_waits config q c u d x : lists config q c u d -> related q (addr c) x = true ->
  ~ (q = SameRank /\ cmd_type c = REFRESH_BANK) -> (u, d) ∈ waits (newTiming config) c x.
Proof.
  intros Hl Hr Hne. pose proof (newTiming_split _ _ _ _ _ Hl) as Hs. destruct Hl as (l & E & Hin).
  unfold waits. destruct (IsRankCMD c).
  - subst q. cbn [related table_of] in *. by rewrite Hr, E.
  - destruct x as [[r g] b]. unfold is_same_bank, is_other_bank, is_other_group, is_other_rank, loc_eqb in *.
    destruct q; cbn [related table_of] in Hr, E; unfold is_same_bank, is_other_bank, is_other_group, is_other_rank, loc_eqb in Hr;
      [..|destruct Hne; split; [done|by apply Hs]]; rewrite ?andb_true_iff, ?negb_true_iff in Hr.
    + by rewrite Hr, E.
    + destruct Hr as [[H1 H2] H3]. rewrite bool_decide_eq_false_2 by (intros [= -> -> ->]; by rewrite Z.eqb_refl in H3).
      by rewrite H1, H2, H3, E.
    + destruct Hr as [H1 H2]. rewrite bool_decide_eq_false_2 by (intros [= -> -> ->]; by rewrite Z.eqb_refl in H2).
      by rewrite H1, H2, E.
    + rewrite bool_decide_eq_false_2 by (intros [= -> -> ->]; by rewrite Z.eqb_refl in Hr). by rewrite Hr, E.
Qed.

Section spacing.
Context (config : Config).
Hypothesis banks_eq : banks config = bankgroups config * banks_per_group config.
Hypothesis groups_pos : 1 <= bankgroups config.
Hypothesis group_pos : 1 <= banks_per_group config.
Hypothesis ranks_nonneg : 0 <= ranks config.

(** C8: Between any two commands the channel issues lie at least the cycles its timing tables
    ask for: if [c1] was issued at [t] and [c] is found ready at [clk], then at every bank whose
    readiness was checked for [c], [clk] is not before [t] plus the delay that a table lists for
    [c] after [c1], for every table whose relation the bank has to the target of [c1].  One entry
    is left out, the delays of REFRESH_BANK in [same_rank], which the channel does not apply
    ([bank_refresh_unspaced]). *)
Theorem command_spacing log s cmd clk c :
  history config (newTiming config) log s -> asked config s cmd ->
  GetReadyCommand config s cmd clk = Ok c -> IsValid c = true ->
  forall t c1 x q d, (t, c1) ∈ log -> in_range config x -> checked c x = true ->
    related q (addr c1) x = true -> lists config q c1 (cmd_type c) d ->
    ~ (q = SameRank /\ cmd_type c1 = REFRESH_BANK) ->
    0 <= t + d < 2 ^ 64 -> t + d <= clk.
Proof.
  intros Hh (F0 & HF0 & Hask) E Hv t c1 x q d Hin Hx Hch Hr Hl Hne Hw.
  pose proof (lists_waits _ _ _ _ _ _ Hl Hr Hne) as Hd.
  destruct (history_timing config _ (newTiming_ok config) banks_eq groups_pos group_pos ranks_nonneg log s Hh) as (F & HF & HT).
  destruct (GetReadyCommand_ready config banks_eq groups_pos group_pos s F0 cmd clk HF0 Hask)
    as (c' & E1 & Hc). rewrite E in E1. injection E1 as <-. destruct (Hc Hv) as [Hrd _].
  pose proof (HT _ _ _ _ _ Hin Hx Hd) as H1. rewrite wrapU_small in H1 by done.
  pose proof (rd_time _ _ _ _ _ Hrd x Hx Hch) as H2.
  assert (F x = F0 x) as E0; [|rewrite E0 in H1; lia]. destruct x as [[r g] b].
  pose proof (holds_at _ _ _ (ch_holds _ _ _ HF) r g b Hx) as E1.
  rewrite (holds_at _ _ _ (ch_holds _ _ _ HF0) r g b Hx) in E1. congruence.
Qed.
End spacing.

(** ** A played history *)

Section playing.
Context (config : Config) (timing_ : Timing).

(** Put requests to the channel at given times and issue the answers. *)
Fixpoint play (reqs : list (Z * Command)) (log : list (Z * Command)) (s : ChannelState)
    : M (list (Z * Command) * ChannelState) :=
  match reqs with
  | [] => Ok (log, s)
  | (clk, cmd) :: reqs =>
      c ← GetReadyCommand config s cmd clk;
      if IsValid c then
        s' ← UpdateTimingAndStates config timing_ s c clk; play reqs (log ++ [(clk, c)]) s'
      else play reqs log s
  end.

(** Reads and writes of existing banks. *)
Definition access_ok (cmd : Command) : bool :=
  is_access (cmd_type cmd) && (0 <=? Rank cmd) && (Rank cmd <? ranks config)
  && (0 <=? Bankgroup cmd) && (Bankgroup cmd <? bankgroups config)
  && (0 <=? Bank cmd) && (Bank cmd <? banks_per_group config) && (0 <=? Row cmd).

Fixpoint requests_ok (lo : Z) (reqs : list (Z * Command)) : bool :=
  match reqs with
  | [] => true
  | (clk, cmd) :: reqs => (lo <=? clk) && access_ok cmd && requests_ok clk reqs
  end.

Lemma access_askable F cmd : access_ok cmd = true -> askable config F cmd.
Proof.
  unfold access_ok. rewrite !andb_true_iff, !Z.leb_le, !Z.ltb_lt.
  intros (((((((Ha & ?) & ?) & ?) & ?) & ?) & ?) & ?). split.
  - by destruct (cmd_type cmd).
  - unfold target_ok. destruct (IsRankCMD cmd) eqn:E; [|simpl; lia].
    unfold IsRankCMD in E. by destruct (cmd_type cmd).
  - done.
  - congruence.
Qed.

Hypothesis timing_ok : Timing_ok timing_.
Hypothesis banks_eq : banks config = bankgroups config * banks_per_group config.
Hypothesis groups_pos : 1 <= bankgroups config.
Hypothesis group_pos : 1 <= banks_per_group config.
Hypothesis ranks_nonneg : 0 <= ranks config.

Lemma play_history reqs log s lo log' s' :
  history config timing_ log s -> 0 <= lo -> (forall t c, (t, c) ∈ log -> t <= lo) ->
  requests_ok lo reqs = true -> play reqs log s = Ok (log', s') ->
  history config timing_ log' s'.
Proof.
  revert log s lo. induction reqs as [|[clk cmd] reqs IH]; intros log s lo Hh Hlo Hlog Hreq E.
  { by injection E as <- <-. }
  simpl in Hreq, E. rewrite !andb_true_iff, Z.leb_le in Hreq. destruct Hreq as [[Hclk Ha] Hreq].
  run_ok E. destruct (IsValid x) eqn:Hv; [run_ok E|].
  - eapply (IH _ _ clk); [|lia| |done|exact E].
    + destruct (history_timing config timing_ timing_ok banks_eq groups_pos group_pos ranks_nonneg
        log s Hh) as (F & HF & _).
      eapply h_issue; [exact Hh|lia| | |exact E0|done|done].
      * intros t c Hin. specialize (Hlog t c Hin). lia.
      * exists F. split; [done|]. by apply access_askable.
    + intros t c [Hin|Hin]%elem_of_app; [specialize (Hlog t c Hin); lia|].
      apply list_elem_of_singleton in Hin as [= -> ->]. lia.
  - eapply (IH _ _ clk); [done|lia| |done|exact E]. intros t c Hin. specialize (Hlog t c Hin). lia.
Qed.
End playing.

(** Five rows of different banks of one rank of the HBM configuration; the fifth is refused at
    cycle 8 and activated at cycle 15. *)
Definition row_request (g b r : Z) : Command := mkCommand READ (mkAddress 0 0 g b r 0) (64 * r).
Definition five_rows : list (Z * Command) :=
  [(0, row_request 0 0 1); (2, row_request 1 0 2); (4, row_request 2 0 3);
   (6, row_request 3 0 4); (8, row_request 0 1 5); (15, row_request 0 1 5)].

Definition five_rows_run : M (list (Z * Command) * ChannelState) :=
  Eval vm_compute in play hbm1 (newTiming hbm1) five_rows [] (newChannelState hbm1).

Definition five_rows_log : list (Z * Command) :=
  Eval vm_compute in match five_rows_run with Ok (log, _) => log | _ => [] end.

Lemma five_rows_history : exists s, history hbm1 (newTiming hbm1) five_rows_log s /\
  five_rows_run = Ok (five_rows_log, s).
Proof.
  eexists. split; [|reflexivity].
  apply (play_history hbm1 (newTiming hbm1) (newTiming_ok hbm1) eq_refl ltac:(done) ltac:(done)
    ltac:(done) five_rows [] (newChannelState hbm1) 0).
  - constructor.
  - done.
  - intros t c Hin. by apply not_elem_of_nil in Hin.
  - vm_compute. reflexivity.
  - vm_compute. reflexivity.
Qed.

Lemma channel_issue_witness :
  exists c, GetReadyCommand hbm1 (newChannelState hbm1) (row_request 2 1 9) 4 = Ok c /\
    cmd_type c = ACTIVATE /\
    exists s' F', UpdateTimingAndStates hbm1 (newTiming hbm1) (newChannelState hbm1) c 4 = Ok s' /\
      abstract (F' (0, 2, 1)) = Active 9 /\ chan_ok hbm1 s' F'.
Proof.
  destruct (channel_issue hbm1 (newTiming hbm1) (newTiming_ok hbm1) eq_refl ltac:(done) ltac:(done)
    (newChannelState hbm1) (fun _ => newBankState) (row_request 2 1 9) 4) as (c & E & Hc).
  - by apply newChannelState_ok.
  - by apply access_askable.
  - assert (c = mkCommand ACTIVATE (mkAddress 0 0 2 1 9 0) 576) as ->
      by (vm_compute in E; congruence).
    destruct (Hc eq_refl) as (s' & F' & E' & HF' & Hj). exists (mkCommand ACTIVATE (mkAddress 0 0 2 1 9 0) 576).
    split; [exact E|]. split; [reflexivity|]. exists s', F'. split; [exact E'|]. split; [|exact HF'].
    assert (in_range hbm1 (0, 2, 1)) as Hin by (clear; vm_compute; intuition discriminate).
    specialize (Hj (0, 2, 1) Hin).
    change (jedec_step Idle (mkCommand ACTIVATE (mkAddress 0 0 2 1 9 0) 576) (abstract (F' (0, 2, 1)))) in Hj.
    inversion Hj; done.
Defined.

Lemma command_spacing_witness : 0 + 7 <= 15.
Proof.
  destruct five_rows_history as (s & Hh & Es).
  apply (command_spacing hbm1 eq_refl ltac:(done) ltac:(done)
    ltac:(done) five_rows_log s (row_request 0 0 1) 15 (row_request 0 0 1) Hh) with
    (c1 := mkCommand ACTIVATE (mkAddress 0 0 0 0 1 0) 64) (x := (0, 0, 0)) (q := SameBank).
  - destruct (history_timing hbm1 (newTiming hbm1) (newTiming_ok hbm1) eq_refl ltac:(done)
      ltac:(done) ltac:(done) _ s Hh) as (F & HF & _).
    exists F. split; [exact HF|]. by apply access_askable.
  - injection Es as <-. vm_compute. reflexivity.
  - reflexivity.
  - set_solver.
  - done.
  - reflexivity.
  - reflexivity.
  - eexists. split; [vm_compute; reflexivity|]. set_solver.
  - by intros [? _].
  - done.
Defined.

(** A bank that has just been refreshed is activated in the next cycle, although its rank's table
    lists 20 cycles. *)
Definition refreshed : Command := mkCommand REFRESH_BANK (mkAddress (-1) 0 0 0 (-1) (-1)) (u64 (-1)).

Lemma bank_refresh_unspaced : exists log s,
  history hbm1 (newTiming hbm1) log s /\ log = [(0, refreshed)] /\
  asked hbm1 s (row_request 0 0 1) /\
  GetReadyCommand hbm1 s (row_request 0 0 1) 1 = Ok (mkCommand ACTIVATE (mkAddress 0 0 0 0 1 0) 64) /\
  related SameRank (addr refreshed) (0, 0, 0) = true /\ lists hbm1 SameRank refreshed ACTIVATE 20.
Proof.
  destruct (UpdateTimingAndStates hbm1 (newTiming hbm1) (newChannelState hbm1) refreshed 0) as [s|e|] eqn:E;
    [|vm_compute in E; discriminate..].
  assert (history hbm1 (newTiming hbm1) ([] ++ [(0, refreshed)]) s) as Hh.
  { eapply (h_issue _ _ _ (newChannelState hbm1) refreshed); [constructor|done| | |vm_compute; reflexivity|done|exact E].
    - intros t c Hin. by apply not_elem_of_nil in Hin.
    - exists (fun _ => newBankState). split; [by apply newChannelState_ok|]. split; [done| |done|done].
      vm_compute. intuition discriminate. }
  exists ([] ++ [(0, refreshed)]), s. split; [done|]. split; [done|].
  destruct (history_timing hbm1 (newTiming hbm1) (newTiming_ok hbm1) eq_refl ltac:(done)
    ltac:(done) ltac:(done) _ s Hh) as (F & HF & _).
  split; [exists F; split; [exact HF|by apply access_askable]|].
  vm_compute in E. injection E as <-. split; [vm_compute; reflexivity|]. split; [done|].
  eexists. split; [vm_compute; reflexivity|]. set_solver.
Qed.

Lemma four_activate_window_witness : 0 + 15 <= 15.
Proof.
  destruct five_rows_history as (s & Hh & _).
  apply (four_activate_window hbm1 (newTiming hbm1) (newTiming_ok hbm1) eq_refl ltac:(done)
    ltac:(done) ltac:(done) five_rows_log s 0 0%nat 0 15 Hh).
  - done.
  - intros t c Hin. unfold five_rows_log in Hin.
    repeat (apply elem_of_cons in Hin as [[= -> ->]|Hin]; [done|]). by apply not_elem_of_nil in Hin.
  - done.
  - vm_compute. reflexivity.
  - vm_compute. reflexivity.
Defined.
