(* ===== verification/DramRefresh.v ===== *)
(** * Refresh scheduling of the DRAM simulator

    [DRAMSIM3/src/refresh.h] and [refresh.cc]: the refresh counter of a channel, the three
    policies and the order in which ranks and banks come due. *)
From S2P Require Import Prelude DramCommon DramConfig DramTiming BankState ChannelState.
Local Open Scope Z_scope.

Record Refresh := mkRefresh {
  refresh_clk_ : Z; refresh_interval_ : Z; refresh_policy_ : RefreshPolicy;
  next_rank_ : Z; next_bg_ : Z; next_bank_ : Z }.

Definition set_next (f : Refresh) (r g b : Z) : Refresh :=
  mkRefresh (refresh_clk_ f) (refresh_interval_ f) (refresh_policy_ f) r g b.
Definition refresh_tick (f : Refresh) : Refresh :=
  mkRefresh (u64 (refresh_clk_ f + 1)) (refresh_interval_ f) (refresh_policy_ f)
    (next_rank_ f) (next_bg_ f) (next_bank_ f).

Section refresh.
Context (config : Config).

Definition newRefresh : M Refresh :=
  refresh_interval ←
    match refresh_policy config with
    | RANK_LEVEL_SIMULTANEOUS => Ok (tREFI config)
    | BANK_LEVEL_STAGGERED => Ok (tREFIb config)
    | RANK_LEVEL_STAGGERED => idiv (tREFI config) (ranks config)
    end;
  Ok (mkRefresh 0 refresh_interval (refresh_policy config) 0 0 0).

(** C++ [%] of an [int], the divisor not zero. *)
Definition imod (a b : Z) : M Z := if b =? 0 then Err DivZero else Ok (Z.rem a b).

Definition IterateNext (f : Refresh) : M Refresh :=
  match refresh_policy_ f with
  | RANK_LEVEL_STAGGERED =>
      next_rank ← imod (next_rank_ f + 1) (ranks config);
      Ok (set_next f next_rank (next_bg_ f) (next_bank_ f))
  | BANK_LEVEL_STAGGERED =>
      next_bg ← imod (next_bg_ f + 1) (bankgroups config);
      if next_bg =? 0 then
        next_bank ← imod (next_bank_ f + 1) (banks_per_group config);
        if next_bank =? 0 then
          next_rank ← imod (next_rank_ f + 1) (ranks config);
          Ok (set_next f next_rank next_bg next_bank)
        else Ok (set_next f (next_rank_ f) next_bg next_bank)
      else Ok (set_next f (next_rank_ f) next_bg (next_bank_ f))
  | RANK_LEVEL_SIMULTANEOUS => Err AbruptExit
  end.

Definition InsertRefresh (f : Refresh) (s : ChannelState) : M (Refresh * ChannelState) :=
  match refresh_policy_ f with
  | RANK_LEVEL_SIMULTANEOUS =>
      (* the loop leaves with [break] after the first rank that is awake *)
      res ← forR (seqZ 0 (ranks config)) (fun i s =>
        sref ← IsRankSelfRefreshing s i;
        if negb sref then Ok (inl (RankNeedRefresh s i true)) else Ok (inr s)) s;
      match res with inl s' => Ok (f, s') | inr s' => Ok (f, s') end
  | RANK_LEVEL_STAGGERED =>
      sref ← IsRankSelfRefreshing s (next_rank_ f);
      let s := if negb sref then RankNeedRefresh s (next_rank_ f) true else s in
      f ← IterateNext f;
      Ok (f, s)
  | BANK_LEVEL_STAGGERED =>
      sref ← IsRankSelfRefreshing s (next_rank_ f);
      let s :=
        if negb sref then BankNeedRefresh s (next_rank_ f) (next_bg_ f) (next_bank_ f) true
        else s in
      f ← IterateNext f;
      Ok (f, s)
  end.

(** [clk_ % refresh_interval_] converts the [int] to [uint64_t]. *)
Definition ClockTick (f : Refresh) (s : ChannelState) : M (Refresh * ChannelState) :=
  m ← imod (refresh_clk_ f) (u64 (refresh_interval_ f));
  '(f, s) ← (if (m =? 0) && (0 <? refresh_clk_ f) then InsertRefresh f s else Ok (f, s));
  Ok (refresh_tick f, s).
End refresh.

(** ** The order of refreshes *)

(** Counting in base [n]. *)
Lemma succ_mod k n : 0 < n -> 0 <= k -> Z.rem (k mod n + 1) n = (k + 1) mod n.
Proof.
  intros Hn Hk. pose proof (Z.mod_pos_bound k n Hn).
  rewrite Z.rem_mod_nonneg, Zplus_mod_idemp_l by lia. done.
Qed.

Lemma succ_div k n :
  0 < n -> 0 <= k ->
  (k + 1) / n = if (k + 1) mod n =? 0 then k / n + 1 else k / n.
Proof.
  intros Hn Hk. pose proof (Z.div_mod k n ltac:(lia)). pose proof (Z.mod_pos_bound k n Hn).
  destruct (decide (k mod n = n - 1)) as [E|E].
  - rewrite <-(Z.mod_unique (k + 1) n (k / n + 1) 0) by nia. simpl.
    symmetry. apply (Z.div_unique _ _ _ 0); nia.
  - rewrite <-(Z.mod_unique (k + 1) n (k / n) (k mod n + 1)) by nia.
    destruct (Z.eqb_spec (k mod n + 1) 0); [lia|].
    symmetry. apply (Z.div_unique _ _ _ (k mod n + 1)); nia.
Qed.

Section order.
Context (config : Config).
Hypothesis ranks_pos : 1 <= ranks config.
Hypothesis groups_pos : 1 <= bankgroups config.
Hypothesis group_pos : 1 <= banks_per_group config.

(** The place refreshed at turn [k]: bank groups fastest, then banks, then ranks. *)
Definition place (p : RefreshPolicy) (k : Z) : loc :=
  match p with
  | BANK_LEVEL_STAGGERED =>
      ((k / bankgroups config / banks_per_group config) mod ranks config,
       k mod bankgroups config, (k / bankgroups config) mod banks_per_group config)
  | RANK_LEVEL_STAGGERED => (k mod ranks config, 0, 0)
  | RANK_LEVEL_SIMULTANEOUS => (0, 0, 0)
  end.

Definition next_place (f : Refresh) : loc := (next_rank_ f, next_bg_ f, next_bank_ f).

(** [IterateNext] goes from one place to the next. *)
Lemma IterateNext_place f k :
  refresh_policy_ f <> RANK_LEVEL_SIMULTANEOUS -> 0 <= k ->
  next_place f = place (refresh_policy_ f) k ->
  exists f', IterateNext config f = Ok f' /\
    next_place f' = place (refresh_policy_ f) (k + 1) /\
    refresh_policy_ f' = refresh_policy_ f /\ refresh_clk_ f' = refresh_clk_ f /\
    refresh_interval_ f' = refresh_interval_ f.
Proof.
  intros Hp Hk Hn. unfold IterateNext, imod, next_place in *.
  destruct (refresh_policy_ f) eqn:Ep; [done| |]; simpl in Hn; injection Hn as Hr Hg Hb.
  - destruct (Z.eqb_spec (ranks config) 0); [lia|]. simpl.
    eexists. split; [done|]. simpl. rewrite Ep, Hr, Hg, Hb, succ_mod by lia. done.
  - destruct (Z.eqb_spec (bankgroups config) 0); [lia|].
    destruct (Z.eqb_spec (banks_per_group config) 0); [lia|].
    destruct (Z.eqb_spec (ranks config) 0); [lia|]. simpl.
    pose proof (Z.div_pos k (bankgroups config) Hk ltac:(lia)).
    pose proof (Z.div_pos (k / bankgroups config) (banks_per_group config) ltac:(lia) ltac:(lia)).
    rewrite Hr, Hg, Hb, (succ_mod k), (succ_mod (k / bankgroups config)),
      (succ_mod (k / bankgroups config / banks_per_group config)) by lia.
    rewrite (succ_div k) by lia.
    destruct ((k + 1) mod bankgroups config =? 0) eqn:E1; simpl.
    + rewrite (succ_div (k / bankgroups config)) by lia.
      destruct ((k / bankgroups config + 1) mod banks_per_group config =? 0) eqn:E2; simpl;
        eexists; (split; [done|]); simpl; rewrite Ep; done.
    + eexists. split; [done|]. simpl. rewrite Ep. done.
Qed.




Lemma place_range p k : in_range config (place p k).
Proof.
  destruct p; simpl; split_and!; try lia; apply Z.mod_pos_bound; lia.
Qed.

(** ** The schedule *)


(** All ranks are awake. *)
Definition awake (s : ChannelState) : Prop :=
  forall r, 0 <= r < ranks config -> IsRankSelfRefreshing s r = Ok false.



End order.

Section schedule.
Context (config : Config).
Hypothesis ranks_pos : 1 <= ranks config.
Hypothesis groups_pos : 1 <= bankgroups config.
Hypothesis group_pos : 1 <= banks_per_group config.


(** Under RANK_LEVEL_SIMULTANEOUS only the first rank comes due, however many there are. *)
Lemma simultaneous_first_rank f s :
  refresh_policy_ f = RANK_LEVEL_SIMULTANEOUS -> awake config s ->
  InsertRefresh config f s = Ok (f, RankNeedRefresh s 0 true).
Proof.
  intros Hp Haw. unfold InsertRefresh. rewrite Hp, (seqZ_cons 0) by lia. simpl.
  by rewrite (Haw 0) by lia.
Qed.

(** ** Ticking in any state *)

Record refresh_wf (f : Refresh) : Prop := {
  rf_interval : u64 (refresh_interval_ f) <> 0;
  rf_clk : 0 <= refresh_clk_ f;
  rf_place : exists k, 0 <= k /\ next_place f = place config (refresh_policy_ f) k }.

Lemma newRefresh_wf f :
  newRefresh config = Ok f -> u64 (refresh_interval_ f) <> 0 -> refresh_wf f.
Proof.
  intros Hf HI. split; [done| |]; unfold newRefresh in Hf; run_ok Hf; injection Hf as <-; simpl.
  - done.
  - exists 0. split; [done|]. unfold next_place, place. simpl.
    by destruct (refresh_policy config); rewrite ?Z.mod_0_l by lia.
Qed.

(** What one tick does to the channel. *)
Inductive refresh_effect (s : ChannelState) : ChannelState -> Prop :=
| no_refresh : refresh_effect s s
| due_refresh c : refresh_ok config c ->
    refresh_effect s (set_refresh_q s (refresh_q_ s ++ [c])).

Lemma refresh_ok_rank r :
  0 <= r < ranks config ->
  refresh_ok config (mkCommand REFRESH (mkAddress (-1) r (-1) (-1) (-1) (-1)) (u64 (-1))).
Proof. intros. by split. Qed.

Lemma refresh_ok_bank r g b :
  in_range config (r, g, b) ->
  refresh_ok config (mkCommand REFRESH_BANK (mkAddress (-1) r g b (-1) (-1)) (u64 (-1))).
Proof. intros. by split. Qed.

Lemma InsertRefresh_ok f s F :
  chan_ok config s F -> refresh_wf f ->
  exists f' s', InsertRefresh config f s = Ok (f', s') /\ refresh_wf f' /\ refresh_effect s s' /\
    refresh_clk_ f' = refresh_clk_ f.
Proof.
  intros HF [HI Hc (k & Hk & Hn)].
  assert (forall r, 0 <= r < ranks config -> exists v, IsRankSelfRefreshing s r = Ok v) as Hv.
  { intros r Hr. apply vget_in_range. by rewrite (ch_sref_len _ _ _ HF). }
  pose proof (place_range config ranks_pos groups_pos group_pos (refresh_policy_ f) k) as Hin.
  rewrite <-Hn in Hin.
  destruct (decide (refresh_policy_ f = RANK_LEVEL_SIMULTANEOUS)) as [Ep|Ep].
  - unfold InsertRefresh. rewrite Ep.
    assert (forall L, (forall r, r ∈ L -> 0 <= r < ranks config) ->
      (exists s', forR L (fun i s =>
        sref ← IsRankSelfRefreshing s i;
        if negb sref then Ok (inl (RankNeedRefresh s i true)) else Ok (inr s)) s = Ok (inl s') /\
        refresh_effect s s') \/
      forR L (fun i s =>
        sref ← IsRankSelfRefreshing s i;
        if negb sref then Ok (inl (RankNeedRefresh s i true)) else Ok (inr s)) s = Ok (inr s)) as HL.
    { induction L as [|i L IH]; intros HL; [by right|]. simpl.
      assert (0 <= i < ranks config) as Hi by (apply HL; set_solver).
      destruct (Hv i Hi) as [v ->]. simpl.
      destruct v; simpl; [apply IH; intros; apply HL; set_solver|].
      left. eexists. split; [done|]. apply due_refresh. by apply refresh_ok_rank. }
    destruct (HL (seqZ 0 (ranks config))) as [(s' & -> & He)| ->].
    + intros r Hr. by apply elem_of_range.
    + simpl. exists f, s'. split; [done|]. split; [|done]. split; eauto.
    + simpl. exists f, s. split; [done|]. split; [split; eauto|]. split; [constructor|done].
  - destruct (IterateNext_place config ranks_pos groups_pos group_pos f k Ep Hk Hn)
      as (f' & E & Hf' & Hp' & Hc' & HI').
    assert (refresh_wf f') as Hwf.
    { split; [by rewrite HI'|by rewrite Hc'|]. exists (k + 1). rewrite Hp'. split; [lia|done]. }
    unfold InsertRefresh. unfold next_place in Hin. destruct (Hv _ (proj1 Hin)) as [v ->].
    cbn [mbind res_bind]. rewrite E.
    destruct (refresh_policy_ f) eqn:Ep'; [done| |]; destruct v; simpl;
      exists f'; eexists; (split; [done|]); split; [done| |done| |done| |done|];
      (split; [|done]); constructor; (apply refresh_ok_rank || apply refresh_ok_bank);
      try exact (proj1 Hin); exact Hin.
Qed.

Lemma refresh_ClockTick_ok f s F :
  chan_ok config s F -> refresh_wf f ->
  exists f' s', ClockTick config f s = Ok (f', s') /\ refresh_wf f' /\ refresh_effect s s'.
Proof.
  intros HF Hwf. unfold ClockTick, imod. destruct (Z.eqb_spec (u64 (refresh_interval_ f)) 0) as [E|E];
    [by destruct (rf_interval f Hwf)|]. cbn [mbind res_bind].
  assert (forall f, refresh_wf f -> refresh_wf (refresh_tick f)) as Ht.
  { intros g [H1 H2 H3]. split; simpl; [done|apply wrapU_range; lia|done]. }
  destruct (_ && _).
  - destruct (InsertRefresh_ok f s F HF Hwf) as (f' & s' & -> & Hf' & He & _). simpl. eauto 10.
  - simpl. eexists _, _. split; [done|]. split; [auto|constructor].
Qed.
End schedule.


