(* ===== verification/SimpleStats.v ===== *)
(** * Statistics of the DRAM simulator

    [DRAMSIM3/src/simple_stats.h] and [simple_stats.cc]: counters, per-rank counters and
    histograms, per epoch and overall.  The [double] statistics (energy, bandwidth, averages),
    the headers and the printing are left out. *)
From S2P Require Import Prelude DramCommon DramConfig.
From stdpp Require Import gmap.
Local Open Scope string_scope.
Local Open Scope list_scope.
Local Open Scope Z_scope.

Abbreviation HistoCount := (gmap Z Z).

Record SimpleStats := mkStats {
  counters_ : gmap string Z;
  epoch_counters_ : gmap string Z;
  vec_counters_ : gmap string (list Z);
  epoch_vec_counters_ : gmap string (list Z);
  histo_bounds_ : gmap string (Z * Z);
  bin_widths_ : gmap string Z;
  histo_counts_ : gmap string HistoCount;
  epoch_histo_counts_ : gmap string HistoCount;
  histo_bins_ : gmap string (list Z);
  epoch_histo_bins_ : gmap string (list Z) }.

Definition emptyStats : SimpleStats := mkStats ∅ ∅ ∅ ∅ ∅ ∅ ∅ ∅ ∅ ∅.

(** [std::unordered_map::emplace]: an existing entry is kept. *)
Definition emplace {A} (k : string) (v : A) (m : gmap string A) : gmap string A :=
  match m !! k with Some _ => m | None => <[k := v]> m end.

(** ** Initialisation *)

(** [InitStat(name, "counter", ...)]. *)
Definition InitStat (name : string) (s : SimpleStats) : SimpleStats :=
  mkStats (emplace name 0 (counters_ s)) (emplace name 0 (epoch_counters_ s))
    (vec_counters_ s) (epoch_vec_counters_ s) (histo_bounds_ s) (bin_widths_ s)
    (histo_counts_ s) (epoch_histo_counts_ s) (histo_bins_ s) (epoch_histo_bins_ s).

(** [InitVecStat(name, "vec_counter", ...)]. *)
Definition InitVecStat (name : string) (vec_len : Z) (s : SimpleStats) : SimpleStats :=
  let zeros := replicate (Z.to_nat vec_len) 0 in
  mkStats (counters_ s) (epoch_counters_ s)
    (emplace name zeros (vec_counters_ s)) (emplace name zeros (epoch_vec_counters_ s))
    (histo_bounds_ s) (bin_widths_ s)
    (histo_counts_ s) (epoch_histo_counts_ s) (histo_bins_ s) (epoch_histo_bins_ s).

Definition InitHistoStat (name : string) (start_val end_val num_bins : Z) (s : SimpleStats)
    : SimpleStats :=
  let bin_width := Z.quot (end_val - start_val) num_bins in
  let zeros := replicate (Z.to_nat (num_bins + 2)) 0 in
  mkStats (counters_ s) (epoch_counters_ s) (vec_counters_ s) (epoch_vec_counters_ s)
    (emplace name (start_val, end_val) (histo_bounds_ s))
    (emplace name bin_width (bin_widths_ s))
    (emplace name ∅ (histo_counts_ s)) (emplace name ∅ (epoch_histo_counts_ s))
    (emplace name zeros (histo_bins_ s)) (emplace name zeros (epoch_histo_bins_ s)).

Definition counter_names : list string :=
  ["num_cycles"; "epoch_num"; "num_reads_done"; "num_writes_done"; "num_write_buf_hits";
   "num_read_row_hits"; "num_write_row_hits"; "num_read_cmds"; "num_write_cmds";
   "num_act_cmds"; "num_pre_cmds"; "num_ondemand_pres"; "num_ref_cmds"; "num_refb_cmds";
   "num_srefe_cmds"; "num_srefx_cmds"; "hbm_dual_cmds"].

Definition vec_names : list string :=
  ["all_bank_idle_cycles"; "rank_active_cycles"; "sref_cycles"].

(** [SimpleStats::SimpleStats], its integer statistics. *)
Definition newSimpleStats (config : Config) : SimpleStats :=
  let s := foldl (fun s n => InitStat n s) emptyStats counter_names in
  let s := foldl (fun s n => InitVecStat n (ranks config) s) s vec_names in
  let s := InitHistoStat "read_latency" 0 200 10 s in
  let s := InitHistoStat "write_latency" 0 200 10 s in
  InitHistoStat "interarrival_latency" 0 100 10 s.

(** ** Counting *)

Definition set_epoch_counters (s : SimpleStats) m : SimpleStats :=
  mkStats (counters_ s) m (vec_counters_ s) (epoch_vec_counters_ s) (histo_bounds_ s)
    (bin_widths_ s) (histo_counts_ s) (epoch_histo_counts_ s) (histo_bins_ s)
    (epoch_histo_bins_ s).
Definition set_epoch_vec (s : SimpleStats) m : SimpleStats :=
  mkStats (counters_ s) (epoch_counters_ s) (vec_counters_ s) m (histo_bounds_ s)
    (bin_widths_ s) (histo_counts_ s) (epoch_histo_counts_ s) (histo_bins_ s)
    (epoch_histo_bins_ s).
Definition set_epoch_counts (s : SimpleStats) m : SimpleStats :=
  mkStats (counters_ s) (epoch_counters_ s) (vec_counters_ s) (epoch_vec_counters_ s)
    (histo_bounds_ s) (bin_widths_ s) (histo_counts_ s) m (histo_bins_ s)
    (epoch_histo_bins_ s).

(** [epoch_counters_[name] += 1]. *)
Definition Increment (s : SimpleStats) (name : string) : SimpleStats :=
  set_epoch_counters s
    (<[name := u64 (default 0 (epoch_counters_ s !! name) + 1)]> (epoch_counters_ s)).

(** [epoch_vec_counters_[name][pos] += num]. *)
Definition IncrementVecBy (s : SimpleStats) (name : string) (pos num : Z) : M SimpleStats :=
  v ← vmod (default [] (epoch_vec_counters_ s !! name)) pos (fun x => Ok (u64 (x + num)));
  Ok (set_epoch_vec s (<[name := v]> (epoch_vec_counters_ s))).

Definition IncrementVec (s : SimpleStats) (name : string) (pos : Z) : M SimpleStats :=
  IncrementVecBy s name pos 1.

(** The value is an [int]. *)
Definition AddValue (s : SimpleStats) (name : string) (value : Z) : SimpleStats :=
  let value := s32 value in
  let epoch_counts := default ∅ (epoch_histo_counts_ s !! name) in
  let epoch_counts :=
    match epoch_counts !! value with
    | None => <[value := 1]> epoch_counts
    | Some n => <[value := u64 (n + 1)]> epoch_counts
    end in
  set_epoch_counts s (<[name := epoch_counts]> (epoch_histo_counts_ s)).

(** ** Epochs *)

(** [for (it : epoch) total[it.first] += it.second]. *)
Definition add_counters (total epoch : gmap string Z) : gmap string Z :=
  map_fold (fun k n acc => <[k := u64 (default 0 (acc !! k) + n)]> acc) total epoch.

(** [final[i] += epoch[i]], over the indices of the first argument. *)
Definition add_vec (over final epoch : list Z) : M (list Z) :=
  forM (seqZ 0 (Z.of_nat (length over))) (fun i acc =>
    n ← vget epoch i; vmod acc i (fun x => Ok (u64 (x + n)))) final.

Definition UpdateCounters (s : SimpleStats) : M SimpleStats :=
  let counters := add_counters (counters_ s) (epoch_counters_ s) in
  vecs ← forM (map_to_list (epoch_vec_counters_ s)) (fun '((k, v) : string * list Z) acc =>
    w ← add_vec v (default [] (acc !! k)) v;
    Ok (<[k := w]> acc)) (vec_counters_ s);
  Ok (mkStats counters (epoch_counters_ s) vecs (epoch_vec_counters_ s) (histo_bounds_ s)
    (bin_widths_ s) (histo_counts_ s) (epoch_histo_counts_ s) (histo_bins_ s)
    (epoch_histo_bins_ s)).

(** The bin of a value. *)
Definition bin_index (bounds : Z * Z) (bin_width : Z) (num_bins : Z) (value : Z) : M Z :=
  if value <? fst bounds then Ok 0
  else if snd bounds <? value then Ok (num_bins - 1)
  else q ← idiv (value - fst bounds) bin_width; Ok (q + 1).

(** The bins of one histogram, filled from its counts. *)
Definition fill_bins (bounds : Z * Z) (bin_width : Z) (bins : list Z) (counts : HistoCount)
    : M (list Z) :=
  forM (map_to_list counts) (fun '((value, count) : Z * Z) acc =>
    bin_idx ← bin_index bounds bin_width (Z.of_nat (length bins)) value;
    vmod acc bin_idx (fun n => Ok (u64 (n + count))))
  (replicate (length bins) 0).

(** The first loop of [UpdateHistoBins]: the bins of every histogram for this epoch. *)
Definition epoch_bins_of (s : SimpleStats) : M (gmap string (list Z)) :=
  forM (map_to_list (epoch_histo_bins_ s))
    (fun '((name, bins) : string * list Z) (acc : gmap string (list Z)) =>
      b ← fill_bins (default (0, 0) (histo_bounds_ s !! name))
            (default 0 (bin_widths_ s !! name)) bins
            (default (∅ : HistoCount) (epoch_histo_counts_ s !! name));
      Ok (<[name := b]> acc)) (epoch_histo_bins_ s).

(** Its second loop: the counts and bins of one histogram added to the overall ones. *)
Definition add_counts (final epoch : HistoCount) : HistoCount :=
  map_fold (fun value count (acc : HistoCount) =>
    match acc !! value with
    | None => <[value := count]> acc
    | Some n => <[value := u64 (n + count)]> acc
    end) final epoch.

Definition merge_histo (epoch_bins : gmap string (list Z)) (e : string * HistoCount)
    (acc : gmap string HistoCount * gmap string (list Z))
    : M (gmap string HistoCount * gmap string (list Z)) :=
  let '(name, epoch_counts) := e in
  let '(counts, bins) := acc in
  let final_counts := add_counts (default (∅ : HistoCount) (counts !! name)) epoch_counts in
  let final_bins := default [] (bins !! name) in
  b ← add_vec final_bins final_bins (default [] (epoch_bins !! name));
  Ok (<[name := final_counts]> counts, <[name := b]> bins).

Definition UpdateHistoBins (s : SimpleStats) : M SimpleStats :=
  epoch_bins ← epoch_bins_of s;
  r ← forM (map_to_list (epoch_histo_counts_ s)) (merge_histo epoch_bins)
    (histo_counts_ s, histo_bins_ s);
  Ok (mkStats (counters_ s) (epoch_counters_ s) (vec_counters_ s) (epoch_vec_counters_ s)
    (histo_bounds_ s) (bin_widths_ s) (fst r) (epoch_histo_counts_ s) (snd r) epoch_bins).

Definition zeros (v : list Z) : list Z := replicate (length v) 0.

(** [UpdateEpochStats]: accumulate, then start the next epoch. *)
Definition UpdateEpochStats (s : SimpleStats) : M SimpleStats :=
  s ← UpdateCounters s;
  s ← UpdateHistoBins s;
  Ok (mkStats (counters_ s) ((fun _ => 0) <$> epoch_counters_ s)
    (vec_counters_ s) (zeros <$> epoch_vec_counters_ s) (histo_bounds_ s) (bin_widths_ s)
    (histo_counts_ s) ((fun _ => ∅) <$> epoch_histo_counts_ s) (histo_bins_ s)
    (epoch_histo_bins_ s)).

Definition UpdateFinalStats (s : SimpleStats) : M SimpleStats :=
  s ← UpdateCounters s; UpdateHistoBins s.

Definition Reset (s : SimpleStats) : SimpleStats :=
  mkStats ((fun _ => 0) <$> counters_ s) ((fun _ => 0) <$> epoch_counters_ s)
    (zeros <$> vec_counters_ s) (zeros <$> epoch_vec_counters_ s)
    (histo_bounds_ s) (bin_widths_ s)
    ((fun _ => ∅) <$> histo_counts_ s) ((fun _ => ∅) <$> epoch_histo_counts_ s)
    (histo_bins_ s) (epoch_histo_bins_ s).

(** ** Adding up *)

Definition total (l : list Z) : Z := foldr Z.add 0 l.

Lemma total_app l k : total (l ++ k) = total l + total k.
Proof. induction l as [|x l IH]; simpl; [done|]. rewrite IH. lia. Qed.

Lemma total_insert l i x y : l !! i = Some x -> total (<[i := y]> l) = total l - x + y.
Proof.
  intros H. rewrite <-(take_drop_middle l i x H) at 2.
  rewrite insert_take_drop by (by eapply lookup_lt_Some). rewrite !total_app. simpl. lia.
Qed.

Lemma u64_add_l a b : u64 (u64 a + b) = u64 (a + b).
Proof. unfold u64. apply Z.add_mod_idemp_l. lia. Qed.

(** [u64 (total l)] is the number of samples [l] counts, as [uint64_t]. *)
Lemma total_zip_add (l k : list Z) :
  length l = length k -> u64 (total (zip_with (fun x n => u64 (x + n)) l k)) = u64 (total l + total k).
Proof.
  revert k. induction l as [|x l IH]; intros [|n k]; simpl; try done. intros [= Hl].
  rewrite u64_add_l. replace (x + n + total (zip_with _ l k)) with
    (total (zip_with (fun x n => u64 (x + n)) l k) + (x + n)) by lia.
  rewrite <-u64_add_l, IH, u64_add_l by done. f_equal. lia.
Qed.

(** The addition loops, on vectors of one length. *)
Lemma add_vec_ok over final epoch :
  length over = length final -> length final = length epoch ->
  add_vec over final epoch = Ok (zip_with (fun x n => u64 (x + n)) final epoch).
Proof.
  intros Hl He. unfold add_vec. set (f := fun x n => u64 (x + n)).
  set (body := fun i acc => _). rewrite Hl.
  assert (forall m k, (k + m = length final)%nat ->
    forM (seqZ (Z.of_nat k) (Z.of_nat m)) body
      (zip_with f (take k final) (take k epoch) ++ drop k final) = Ok (zip_with f final epoch)) as H.
  { induction m as [|m IH]; intros k Hk.
    - rewrite drop_ge, app_nil_r, !take_ge by lia. done.
    - rewrite (seqZ_cons (Z.of_nat k)) by lia. cbn [forM].
      destruct (lookup_lt_is_Some_2 final k) as [x Hx]; [lia|].
      destruct (lookup_lt_is_Some_2 epoch k) as [n Hn]; [lia|].
      set (pre := zip_with f (take k final) (take k epoch)).
      assert (length pre = k) as Hpre.
      { unfold pre. rewrite length_zip_with, !length_take. lia. }
      assert ((pre ++ drop k final) !! k = Some x) as Hgx.
      { rewrite lookup_app_r by lia. by rewrite Hpre, Nat.sub_diag, lookup_drop, Nat.add_0_r. }
      assert (body (Z.of_nat k) (pre ++ drop k final) = Ok (<[k := f x n]> (pre ++ drop k final))) as ->.
      { unfold body. rewrite (proj2 (vget_Ok epoch (Z.of_nat k) n)) by (rewrite Nat2Z.id; split; [lia|done]).
        cbn [mbind res_bind]. unfold vmod.
        rewrite (proj2 (vget_Ok _ (Z.of_nat k) x)) by (rewrite Nat2Z.id; split; [lia|done]).
        cbn [mbind res_bind]. rewrite vset_Ok by (apply lookup_lt_Some in Hgx; lia).
        by rewrite Nat2Z.id. }
      cbn [mbind res_bind].
      rewrite insert_app_r_alt, Hpre, Nat.sub_diag by lia.
      rewrite (drop_S _ _ _ Hx). simpl.
      rewrite <-(IH (S k)) by lia. f_equal; [f_equal; lia|].
      rewrite (take_S_r _ _ _ Hx), (take_S_r _ _ _ Hn).
      rewrite (zip_with_app f (take k final)) by (rewrite !length_take; lia).
      by rewrite <-app_assoc. }
  by apply (H (length final) 0%nat).
Qed.

(** ** Histograms *)

(** Bounds, bin width and number of bins that fit together. *)
Definition bins_fit (bounds : Z * Z) (w : Z) (bins : list Z) : Prop :=
  1 <= w /\ fst bounds <= snd bounds /\
  Z.quot (snd bounds - fst bounds) w + 1 < Z.of_nat (length bins).

(** Every value has a bin. *)
Lemma bin_index_ok bounds w (bins : list Z) value :
  bins_fit bounds w bins ->
  exists i, bin_index bounds w (Z.of_nat (length bins)) value = Ok i /\
    0 <= i < Z.of_nat (length bins).
Proof.
  intros (Hw & Hb & Hn). unfold bin_index, idiv.
  assert (0 <= Z.quot (snd bounds - fst bounds) w) by (apply Z.quot_pos; lia).
  destruct (Z.ltb_spec value (fst bounds)); [exists 0; split; [done|lia]|].
  destruct (Z.ltb_spec (snd bounds) value); [eexists; split; [done|lia]|].
  destruct (Z.eqb_spec w 0); [lia|]. cbn [mbind res_bind]. eexists. split; [done|].
  assert (0 <= Z.quot (value - fst bounds) w <= Z.quot (snd bounds - fst bounds) w).
  { split; [apply Z.quot_pos; lia|]. apply Z.quot_le_mono; lia. }
  lia.
Qed.

(** The bins of an epoch hold every sample of it exactly once. *)
Lemma fill_bins_ok bounds w bins counts :
  bins_fit bounds w bins ->
  exists b, fill_bins bounds w bins counts = Ok b /\ length b = length bins /\
    u64 (total b) = u64 (total (map_to_list counts).*2).
Proof.
  intros Hfit. unfold fill_bins.
  destruct (forM_rule (fun (l : list (Z * Z)) acc => length acc = length bins /\
    u64 (total acc + total l.*2) = u64 (total (map_to_list counts).*2))
    (fun '((value, count) : Z * Z) acc =>
      bin_idx ← bin_index bounds w (Z.of_nat (length bins)) value;
      vmod acc bin_idx (fun n => Ok (u64 (n + count))))
    (map_to_list counts)) with (s := replicate (length bins) 0) as (b & E & Hl & Ht).
  - intros [value count] k acc [Hl Ht] _.
    destruct (bin_index_ok bounds w bins value Hfit) as (i & -> & Hi). cbn [mbind res_bind].
    destruct (vget_in_range acc i) as [x Hx]; [lia|].
    destruct (vmod_Ok acc i x (u64 (x + count)) (fun n => Ok (u64 (n + count))) Hx eq_refl)
      as (acc' & -> & [_ ->]%vset_inv).
    eexists. split; [done|]. rewrite length_insert. split; [done|].
    apply vget_Ok in Hx as [_ Hx]. rewrite (total_insert _ _ _ _ Hx), <-Ht.
    change (total ((value, count) :: k).*2) with (count + total k.*2).
    replace (total acc - x + u64 (x + count) + total k.*2)
      with (u64 (x + count) + (total acc - x + total k.*2)) by lia.
    rewrite u64_add_l. f_equal. lia.
  - rewrite length_replicate. split; [done|]. f_equal.
    assert (total (replicate (length bins) 0) = 0) as -> by (induction (length bins); done). lia.
  - exists b. split; [done|]. split; [done|]. rewrite <-Ht. simpl. f_equal. lia.
Qed.

(** A loop over the entries of a map, each working on its own key of the state. *)
Lemma forM_keys {A S B} (get : S -> string -> B) (Inv : S -> Prop)
    (Q : string -> A -> B -> B -> Prop) (body : string * A -> S -> M S)
    (L : list (string * A)) (s : S) :
  NoDup L.*1 -> Inv s ->
  (forall k v s, (k, v) ∈ L -> Inv s -> exists s', body (k, v) s = Ok s' /\ Inv s' /\
     Q k v (get s k) (get s' k) /\ forall j, j <> k -> get s' j = get s j) ->
  exists s', forM L body s = Ok s' /\ Inv s' /\
    (forall k v, (k, v) ∈ L -> Q k v (get s k) (get s' k)) /\
    forall j, j ∉ L.*1 -> get s' j = get s j.
Proof.
  revert s. induction L as [|[k v] L IH]; intros s Hnd HI Hb.
  { exists s. split; [done|]. split; [done|]. split; [|done]. intros k v H. by apply elem_of_nil in H. }
  simpl in Hnd. apply NoDup_cons in Hnd as [Hk Hnd].
  destruct (Hb k v s) as (s1 & E1 & HI1 & HQ & Hother); [apply elem_of_cons; by left|done|].
  destruct (IH s1 Hnd HI1) as (s2 & E2 & HI2 & HQ2 & Hother2).
  { intros k' v' s' Hin. apply Hb. apply elem_of_cons. by right. }
  exists s2. cbn [forM]. rewrite E1. split; [done|]. split; [done|]. split.
  - intros k' v' Hin. apply elem_of_cons in Hin as [[= -> ->]|Hin].
    + by rewrite (Hother2 k Hk).
    + rewrite <-(Hother k'); [by apply HQ2|]. intros ->. apply Hk.
      apply list_elem_of_fmap. by exists (k, v').
  - intros j Hj. simpl in Hj. apply not_elem_of_cons in Hj as [Hj1 Hj2].
    by rewrite Hother2, Hother.
Qed.

Lemma add_counters_spec (counters epoch : gmap string Z) k :
  add_counters counters epoch !! k =
  match epoch !! k with
  | Some n => Some (u64 (default 0 (counters !! k) + n)) | None => counters !! k end.
Proof.
  revert k. unfold add_counters. apply (map_fold_weak_ind (fun r m => forall k, r !! k =
    match m !! k with Some n => Some (u64 (default 0 (counters !! k) + n)) | None => counters !! k end));
    [done|].
  intros j n m r Hj IH k. destruct (decide (k = j)) as [->|].
  - rewrite !lookup_insert_eq, IH, Hj. done.
  - rewrite !lookup_insert_ne by done. apply IH.
Qed.

(** ** Well-formed statistics *)

Definition size_of (m : gmap string (list Z)) (k : string) : nat := length (default [] (m !! k)).

(** Every vector of an epoch has its overall vector, of the same length, and every value has a
    bin. *)
Record stats_wf (s : SimpleStats) : Prop := {
  sw_vec : forall k v, epoch_vec_counters_ s !! k = Some v ->
    exists w, vec_counters_ s !! k = Some w /\ length w = length v;
  sw_bins : forall k, size_of (histo_bins_ s) k = size_of (epoch_histo_bins_ s) k;
  sw_fit : forall k bins, epoch_histo_bins_ s !! k = Some bins ->
    bins_fit (default (0, 0) (histo_bounds_ s !! k)) (default 0 (bin_widths_ s !! k)) bins }.

(** What well-formedness depends on, which counting and sampling leave alone. *)
Definition shape_of (s : SimpleStats) :=
  (vec_counters_ s, epoch_vec_counters_ s, histo_bounds_ s, bin_widths_ s, histo_bins_ s,
   epoch_histo_bins_ s).

Lemma shape_wf s s' : shape_of s' = shape_of s -> stats_wf s -> stats_wf s'.
Proof. unfold shape_of. intros [= E1 E2 E3 E4 E5 E6] []. split; by rewrite ?E1, ?E2, ?E3, ?E4, ?E5, ?E6. Qed.

Lemma Increment_wf s name : stats_wf s -> stats_wf (Increment s name).
Proof. by apply shape_wf. Qed.

Lemma AddValue_wf s name v : stats_wf s -> stats_wf (AddValue s name v).
Proof. by apply shape_wf. Qed.

Lemma newSimpleStats_wf config : stats_wf (newSimpleStats config).
Proof.
  split.
  - intros k v Hk. exists v. split; [|done]. exact Hk.
  - done.
  - assert (epoch_histo_bins_ (newSimpleStats config) =
      <["read_latency" := replicate 12 0]> (<["write_latency" := replicate 12 0]>
        (<["interarrival_latency" := replicate 12 0]> ∅))) as -> by reflexivity.
    intros k bins. rewrite !lookup_insert_Some, lookup_empty.
    intros [[<- <-]|[_ [[<- <-]|[_ [[<- <-]|[_ H]]]]]]; [..|done];
      unfold bins_fit; vm_compute; intuition discriminate.
Qed.

Lemma IncrementVec_wf s name i s' : stats_wf s -> IncrementVec s name i = Ok s' -> stats_wf s'.
Proof.
  intros [H1 H2 H3] E. unfold IncrementVec, IncrementVecBy in E. run_ok E. injection E as <-.
  apply vmod_inv in E0 as (y & z & Hy & _ & Hv%vset_length). split; try done. simpl.
  intros k v Hk. destruct (decide (k = name)) as [->|]; cycle 1.
  { rewrite lookup_insert_ne in Hk by done. by apply H1. }
  rewrite lookup_insert_eq in Hk. injection Hk as <-.
  destruct (epoch_vec_counters_ s !! name) as [v|] eqn:E; [|by apply vget_range in Hy; simpl in Hy; lia].
  destruct (H1 _ _ E) as (w & Ew & Hw). exists w. simpl in Hv. split; [done|congruence].
Qed.

(** ** The end of an epoch *)

Lemma UpdateCounters_ok s :
  stats_wf s -> exists vecs,
    UpdateCounters s = Ok (mkStats (add_counters (counters_ s) (epoch_counters_ s))
      (epoch_counters_ s) vecs (epoch_vec_counters_ s) (histo_bounds_ s) (bin_widths_ s)
      (histo_counts_ s) (epoch_histo_counts_ s) (histo_bins_ s) (epoch_histo_bins_ s)) /\
    forall k v w, epoch_vec_counters_ s !! k = Some v -> vec_counters_ s !! k = Some w ->
      vecs !! k = Some (zip_with (fun x n => u64 (x + n)) w v).
Proof.
  intros Hwf. unfold UpdateCounters. cbv zeta.
  set (body := fun '((k, v) : string * list Z) acc => _).
  destruct (forM_keys (fun (m : gmap string (list Z)) k => m !! k)
    (fun m => forall k v, epoch_vec_counters_ s !! k = Some v ->
       exists w, m !! k = Some w /\ length w = length v)
    (fun _ v old new => forall w, old = Some w -> new = Some (zip_with (fun x n => u64 (x + n)) w v))
    body (map_to_list (epoch_vec_counters_ s)) (vec_counters_ s)) as (vecs & -> & _ & HQ & _).
  - apply NoDup_fst_map_to_list.
  - apply (sw_vec _ Hwf).
  - intros k v m Hin%elem_of_map_to_list HI. destruct (HI k v Hin) as (w & Ew & Hw).
    unfold body. rewrite Ew. cbn [default from_option id]. rewrite add_vec_ok by done. cbn [mbind res_bind].
    eexists. split; [done|]. split_and!.
    + intros k' v' Hk'. destruct (decide (k' = k)) as [->|].
      * rewrite lookup_insert_eq. eexists. split; [done|]. rewrite length_zip_with.
        assert (v' = v) as -> by congruence. unfold id. lia.
      * rewrite lookup_insert_ne by done. by apply HI.
    + intros w' [= <-]. apply lookup_insert_eq.
    + intros j Hj. by apply lookup_insert_ne.
  - cbn [mbind res_bind]. exists vecs. split; [done|]. intros k v w Hk Hw.
    by apply (HQ k v); [apply elem_of_map_to_list|].
Qed.

Lemma epoch_bins_ok s :
  stats_wf s -> exists eb, epoch_bins_of s = Ok eb /\
    (forall k, size_of eb k = size_of (epoch_histo_bins_ s) k) /\
    (forall k, is_Some (eb !! k) <-> is_Some (epoch_histo_bins_ s !! k)) /\
    forall k b, epoch_histo_bins_ s !! k = Some b -> exists b', eb !! k = Some b' /\
      u64 (total b') = u64 (total (map_to_list (default ∅ (epoch_histo_counts_ s !! k))).*2).
Proof.
  intros Hwf. unfold epoch_bins_of.
  set (body := fun '((name, bins) : string * list Z) (acc : gmap string (list Z)) => _).
  destruct (forM_keys (fun (m : gmap string (list Z)) k => m !! k) (fun _ => True)
    (fun k b _ new => exists b', new = Some b' /\ length b' = length b /\
      u64 (total b') = u64 (total (map_to_list (default ∅ (epoch_histo_counts_ s !! k))).*2))
    body (map_to_list (epoch_histo_bins_ s)) (epoch_histo_bins_ s)) as (eb & -> & _ & HQ & Ho).
  - apply NoDup_fst_map_to_list.
  - done.
  - intros k b m Hin%elem_of_map_to_list _. unfold body.
    destruct (fill_bins_ok _ _ b (default ∅ (epoch_histo_counts_ s !! k)) (sw_fit _ Hwf k b Hin))
      as (b' & -> & Hl & Ht). cbn [mbind res_bind]. eexists. split; [done|]. split; [done|].
    rewrite lookup_insert_eq. split; [by exists b'|]. intros j Hj. by apply lookup_insert_ne.
  - assert (forall k, epoch_histo_bins_ s !! k = None -> eb !! k = None) as Hn.
    { intros k Hk. rewrite Ho; [done|]. intros ([k' b] & -> & Hin%elem_of_map_to_list)%list_elem_of_fmap.
      simpl in Hk. congruence. }
    exists eb. split; [done|]. split_and!; intros k; unfold size_of.
    + destruct (epoch_histo_bins_ s !! k) as [b|] eqn:Ek; [|by rewrite Hn].
      destruct (HQ k b) as (b' & -> & Hl & _); [by apply elem_of_map_to_list|]. done.
    + destruct (epoch_histo_bins_ s !! k) as [b|] eqn:Ek; [|by rewrite Hn].
      destruct (HQ k b) as (b' & -> & _); [by apply elem_of_map_to_list|]. done.
    + intros b Hk. destruct (HQ k b) as (b' & ? & _ & ?); [by apply elem_of_map_to_list|]. eauto.
Qed.

Lemma UpdateHistoBins_ok s :
  stats_wf s -> exists hc hb eb,
    UpdateHistoBins s = Ok (mkStats (counters_ s) (epoch_counters_ s) (vec_counters_ s)
      (epoch_vec_counters_ s) (histo_bounds_ s) (bin_widths_ s) hc (epoch_histo_counts_ s) hb eb) /\
    (forall k, size_of hb k = size_of eb k) /\
    (forall k, size_of eb k = size_of (epoch_histo_bins_ s) k) /\
    (forall k, is_Some (eb !! k) <-> is_Some (epoch_histo_bins_ s !! k)) /\
    forall k c b, epoch_histo_counts_ s !! k = Some c -> epoch_histo_bins_ s !! k = Some b ->
      u64 (total (default [] (hb !! k))) =
      u64 (total (default [] (histo_bins_ s !! k)) + total (map_to_list c).*2).
Proof.
  intros Hwf. unfold UpdateHistoBins. destruct (epoch_bins_ok s Hwf) as (eb & -> & Hl & Hd & Ht).
  cbn [mbind res_bind].
  destruct (forM_keys (fun (m : gmap string HistoCount * gmap string (list Z)) k => default [] (m.2 !! k))
    (fun m => forall k, size_of m.2 k = size_of eb k)
    (fun k _ old new => new = zip_with (fun x n => u64 (x + n)) old (default [] (eb !! k)))
    (merge_histo eb) (map_to_list (epoch_histo_counts_ s)) (histo_counts_ s, histo_bins_ s))
    as ([hc hb] & -> & HI & HQ & _).
  - apply NoDup_fst_map_to_list.
  - intros k. simpl. by rewrite (sw_bins _ Hwf), Hl.
  - intros k c [hc hb] _ HI. unfold merge_histo. cbv zeta. simpl in HI. pose proof (HI k) as Hk.
    unfold size_of in Hk. rewrite add_vec_ok by done. cbn [mbind res_bind]. eexists. split; [done|].
    simpl. split_and!.
    + intros j. unfold size_of. destruct (decide (j = k)) as [->|].
      * rewrite lookup_insert_eq. simpl. rewrite length_zip_with. lia.
      * rewrite lookup_insert_ne by done. apply HI.
    + by rewrite lookup_insert_eq.
    + intros j Hj. by rewrite lookup_insert_ne.
  - cbn [mbind res_bind fst snd]. exists hc, hb, eb. split; [done|]. split_and!; try done.
    intros k c b Hc Hb. simpl in HQ. rewrite (HQ k c) by (by apply elem_of_map_to_list).
    destruct (Ht k b Hb) as (b' & Eb' & Hs). rewrite Hc in Hs. simpl in Hs.
    rewrite total_zip_add by (pose proof (sw_bins _ Hwf k) as H; unfold size_of in *; rewrite H, <-Hl; done).
    rewrite Eb'. simpl. rewrite Z.add_comm, <-u64_add_l, Hs, u64_add_l. f_equal. lia.
Qed.

Lemma UpdateEpochStats_ok s :
  stats_wf s ->
  exists s', UpdateEpochStats s = Ok s' /\ stats_wf s' /\
    (forall k n, epoch_counters_ s !! k = Some n ->
       counters_ s' !! k = Some (u64 (default 0 (counters_ s !! k) + n)) /\
       epoch_counters_ s' !! k = Some 0) /\
    (forall k v w, epoch_vec_counters_ s !! k = Some v -> vec_counters_ s !! k = Some w ->
       vec_counters_ s' !! k = Some (zip_with (fun x n => u64 (x + n)) w v) /\
       epoch_vec_counters_ s' !! k = Some (replicate (length v) 0)) /\
    (forall k c b, epoch_histo_counts_ s !! k = Some c -> epoch_histo_bins_ s !! k = Some b ->
       u64 (total (default [] (histo_bins_ s' !! k))) =
       u64 (total (default [] (histo_bins_ s !! k)) + total (map_to_list c).*2) /\
       epoch_histo_counts_ s' !! k = Some ∅).
Proof.
  intros Hwf. unfold UpdateEpochStats.
  destruct (UpdateCounters_ok s Hwf) as (vecs & -> & Hvec). cbn [mbind res_bind].
  set (s1 := mkStats _ _ vecs _ _ _ _ _ _ _).
  assert (stats_wf s1) as Hwf1.
  { split; [|apply Hwf..]. intros k v Hk. destruct (sw_vec _ Hwf k v Hk) as (w & Ew & Hw).
    eexists. split; [by apply Hvec|]. rewrite length_zip_with. lia. }
  destruct (UpdateHistoBins_ok s1 Hwf1) as (hc & hb & eb & -> & Hhb & Heb & Hdom & Ht).
  cbn [mbind res_bind]. eexists. split; [done|]. simpl. split_and!.
  - split; simpl.
    + intros k v'. rewrite lookup_fmap. intros (v & Hk & ->)%fmap_Some_1. unfold zeros.
      rewrite length_replicate. by apply (sw_vec _ Hwf1).
    + done.
    + intros k b' Hk. destruct (proj1 (Hdom k)) as [b Eb]; [by eexists|].
      pose proof (sw_fit _ Hwf k b Eb) as Hf. specialize (Heb k). unfold size_of in Heb.
      simpl in Heb, Eb. rewrite Hk, Eb in Heb. simpl in Heb. unfold bins_fit in *. by rewrite Heb.
  - intros k n Hk. rewrite add_counters_spec, lookup_fmap, Hk. done.
  - intros k v w Hk Hw. rewrite lookup_fmap, Hk. split; [by apply Hvec|done].
  - intros k c b Hc Hb. split; [by eapply Ht|]. by rewrite lookup_fmap, Hc.
Qed.

(** Closing an epoch succeeds on well-formed statistics and loses nothing: every counter of
    the epoch, and every per-rank counter, is added to its overall counter, every sample of a
    histogram is added to exactly one of its bins, and the next epoch starts from zero. *)
Theorem epoch_totals s :
  stats_wf s ->
  exists s', UpdateEpochStats s = Ok s' /\ stats_wf s' /\
    (forall k n, epoch_counters_ s !! k = Some n ->
       counters_ s' !! k = Some (u64 (default 0 (counters_ s !! k) + n)) /\
       epoch_counters_ s' !! k = Some 0) /\
    (forall k v w, epoch_vec_counters_ s !! k = Some v -> vec_counters_ s !! k = Some w ->
       vec_counters_ s' !! k = Some (zip_with (fun x n => u64 (x + n)) w v) /\
       epoch_vec_counters_ s' !! k = Some (replicate (length v) 0)) /\
    (forall k c b, epoch_histo_counts_ s !! k = Some c -> epoch_histo_bins_ s !! k = Some b ->
       u64 (total (default [] (histo_bins_ s' !! k))) =
       u64 (total (default [] (histo_bins_ s !! k)) + total (map_to_list c).*2) /\
       epoch_histo_counts_ s' !! k = Some ∅).
Proof. apply UpdateEpochStats_ok. Qed.

(** Two reads of 5 cycles and one of 210. *)
Definition sampled : SimpleStats :=
  let s := newSimpleStats hbm1 in
  let s := AddValue (AddValue (AddValue s "read_latency" 5) "read_latency" 5) "read_latency" 210 in
  Increment (Increment s "num_reads_done") "num_reads_done".

Lemma epoch_totals_witness : exists s',
  UpdateEpochStats sampled = Ok s' /\ counters_ s' !! "num_reads_done" = Some 2 /\
  u64 (total (default [] (histo_bins_ s' !! "read_latency"))) = 3.
Proof.
  destruct (epoch_totals sampled) as (s' & E & _ & Hc & _ & Hh).
  - by do 2 apply Increment_wf; do 3 apply AddValue_wf; apply newSimpleStats_wf.
  - exists s'. split; [exact E|]. split.
    + apply (Hc "num_reads_done" 2). reflexivity.
    + refine (proj1 (Hh "read_latency" (<[5 := 2]> (<[210 := 1]> ∅)) (replicate 12 0) _ _)); reflexivity.
Defined.

(** [Reset] keeps the bins of the histograms. *)
Lemma Reset_keeps_bins s : histo_bins_ (Reset s) = histo_bins_ s.
Proof. done. Qed.
