(* ===== verification/CommandQueue.v ===== *)
(** * Command queues of the DRAM simulator

    [DRAMSIM3/src/command_queue.h] and [command_queue.cc]: the queues of commands waiting for
    their bank, round-robin selection of the next command, the arbitration of precharges, and
    the precedence of pending refreshes.  The statistics object the class holds by reference is
    passed along. *)
From S2P Require Import Prelude DramCommon DramConfig DramTiming BankState ChannelState SimpleStats.
From stdpp Require Import gmap.
Local Open Scope string_scope.
Local Open Scope list_scope.
Local Open Scope Z_scope.

Inductive QueueStructure := PER_RANK | PER_BANK.

#[export] Instance QueueStructure_eq_dec : EqDecision QueueStructure.
Proof. solve_decision. Defined.

Abbreviation CMDQueue := (list Command).

Record CommandQueue := mkQueue {
  rank_q_empty : list bool;
  queue_structure_ : QueueStructure;
  queues_ : list CMDQueue;
  ref_q_indices_ : gset Z;
  is_in_ref_ : bool;
  num_queues_ : Z;
  queue_size_ : Z;
  queue_idx_ : Z;
  queue_clk_ : Z }.

Definition set_queues (q : CommandQueue) v : CommandQueue :=
  mkQueue (rank_q_empty q) (queue_structure_ q) v (ref_q_indices_ q) (is_in_ref_ q)
    (num_queues_ q) (queue_size_ q) (queue_idx_ q) (queue_clk_ q).
Definition set_queue_idx (q : CommandQueue) v : CommandQueue :=
  mkQueue (rank_q_empty q) (queue_structure_ q) (queues_ q) (ref_q_indices_ q) (is_in_ref_ q)
    (num_queues_ q) (queue_size_ q) v (queue_clk_ q).
Definition set_in_ref (q : CommandQueue) v b : CommandQueue :=
  mkQueue (rank_q_empty q) (queue_structure_ q) (queues_ q) v b
    (num_queues_ q) (queue_size_ q) (queue_idx_ q) (queue_clk_ q).
Definition set_rank_empty (q : CommandQueue) v : CommandQueue :=
  mkQueue v (queue_structure_ q) (queues_ q) (ref_q_indices_ q) (is_in_ref_ q)
    (num_queues_ q) (queue_size_ q) (queue_idx_ q) (queue_clk_ q).

(** [CommandQueue::ClockTick]. *)
Definition ClockTick (q : CommandQueue) : CommandQueue :=
  mkQueue (rank_q_empty q) (queue_structure_ q) (queues_ q) (ref_q_indices_ q) (is_in_ref_ q)
    (num_queues_ q) (queue_size_ q) (queue_idx_ q) (u64 (queue_clk_ q + 1)).

Section queue.
Context (config : Config).

(** [CommandQueue::CommandQueue]. *)
Definition newCommandQueue : M CommandQueue :=
  '(structure, num_queues) ←
    (if bool_decide (queue_structure config = "PER_BANK") then
       Ok (PER_BANK, banks config * ranks config)
     else if bool_decide (queue_structure config = "PER_RANK") then
       Ok (PER_RANK, ranks config)
     else Err AbruptExit);
  Ok (mkQueue (replicate (Z.to_nat (ranks config)) true) structure
        (replicate (Z.to_nat num_queues) []) ∅ false num_queues
        (u64 (cmd_queue_size config)) 0 0).

Definition GetQueueIndex (q : CommandQueue) (r g b : Z) : Z :=
  match queue_structure_ q with
  | PER_RANK => r
  | PER_BANK => r * banks config + g * banks_per_group config + b
  end.

Definition GetQueue (q : CommandQueue) (r g b : Z) : M CMDQueue :=
  vget (queues_ q) (GetQueueIndex q r g b).

(** [GetNextQueue]: advance the round-robin pointer. *)
Definition GetNextQueue (q : CommandQueue) : M (CMDQueue * CommandQueue) :=
  let i := queue_idx_ q + 1 in
  let i := if i =? num_queues_ q then 0 else i in
  queue ← vget (queues_ q) i;
  Ok (queue, set_queue_idx q i).

Definition WillAcceptCommand (q : CommandQueue) (r g b : Z) : M bool :=
  queue ← GetQueue q r g b;
  Ok (Z.of_nat (length queue) <? queue_size_ q).

Definition QueueEmpty (q : CommandQueue) : bool :=
  forallb (fun queue => bool_decide (queue = [])) (queues_ q).

Definition QueueUsage (q : CommandQueue) : Z :=
  foldl (fun usage queue => usage + Z.of_nat (length queue)) 0 (queues_ q).

Definition AddCommand (q : CommandQueue) (cmd : Command) : M (bool * CommandQueue) :=
  let i := GetQueueIndex q (Rank cmd) (Bankgroup cmd) (Bank cmd) in
  queue ← vget (queues_ q) i;
  if Z.of_nat (length queue) <? queue_size_ q then
    qs ← vset (queues_ q) i (queue ++ [cmd]);
    e ← vset (rank_q_empty q) (Rank cmd) false;
    Ok (true, set_rank_empty (set_queues q qs) e)
  else Ok (false, q).

(** ** Arbitration *)

Definition same_place (a b : Command) : bool :=
  (Rank a =? Rank b) && (Bankgroup a =? Bankgroup b) && (Bank a =? Bank b).

(** [prev] are the commands before the iterator, [cmd :: rest] those from it on. *)
Definition ArbitratePrecharge (s : ChannelState) (st : SimpleStats) (prev : CMDQueue)
    (cmd : Command) (rest : CMDQueue) : M (bool * SimpleStats) :=
  if existsb (fun p => same_place p cmd) prev then Ok (false, st)
  else
    open_row ← ChannelState.OpenRow s (Rank cmd) (Bankgroup cmd) (Bank cmd);
    let pending_row_hits_exist :=
      existsb (fun p => (Row p =? open_row) && same_place p cmd) (cmd :: rest) in
    hits ← ChannelState.RowHitCount s (Rank cmd) (Bankgroup cmd) (Bank cmd);
    let rowhit_limit_reached := 4 <=? hits in
    if negb pending_row_hits_exist || rowhit_limit_reached then
      Ok (true, Increment st "num_ondemand_pres")
    else Ok (false, st).

Definition HasRWDependency (prev : CMDQueue) (cmd : Command) : bool :=
  existsb (fun it => IsRead it && (Row it =? Row cmd) && (Column it =? Column cmd)
    && (Bank it =? Bank cmd) && (Bankgroup it =? Bankgroup cmd)) prev.

(** The loop of [GetFirstReadyInQueue], from one position on. *)
Fixpoint first_ready (s : ChannelState) (clk : Z) (st : SimpleStats) (prev queue : CMDQueue)
    : M (Command * SimpleStats) :=
  match queue with
  | [] => Ok (noCommand, st)
  | it :: rest =>
      cmd ← ChannelState.GetReadyCommand config s it clk;
      if negb (IsValid cmd) then first_ready s clk st (prev ++ [it]) rest
      else if ct_eqb (cmd_type cmd) PRECHARGE then
        '(ok, st) ← ArbitratePrecharge s st prev it rest;
        if negb ok then first_ready s clk st (prev ++ [it]) rest else Ok (cmd, st)
      else if IsWrite cmd && HasRWDependency prev it then
        first_ready s clk st (prev ++ [it]) rest
      else Ok (cmd, st)
  end.

Definition GetFirstReadyInQueue (q : CommandQueue) (s : ChannelState) (st : SimpleStats)
    (queue : CMDQueue) : M (Command * SimpleStats) :=
  first_ready s (queue_clk_ q) st [] queue.

(** [queue.erase] of the first command that matches. *)
Fixpoint erase_cmd (cmd : Command) (queue : CMDQueue) : option CMDQueue :=
  match queue with
  | [] => None
  | it :: rest =>
      if (hex_addr cmd =? hex_addr it) && ct_eqb (cmd_type cmd) (cmd_type it) then Some rest
      else rest' ← erase_cmd cmd rest; Some (it :: rest')
  end.

Definition EraseRWCommand (q : CommandQueue) (cmd : Command) : M CommandQueue :=
  let i := GetQueueIndex q (Rank cmd) (Bankgroup cmd) (Bank cmd) in
  queue ← vget (queues_ q) i;
  match erase_cmd cmd queue with
  | Some queue' => qs ← vset (queues_ q) i queue'; Ok (set_queues q qs)
  | None => Err ExitFailure
  end.

Definition GetCommandToIssue (q : CommandQueue) (s : ChannelState) (st : SimpleStats)
    : M (Command * CommandQueue * SimpleStats) :=
  res ← forR (seqZ 0 (num_queues_ q)) (fun _ '((q, st) : CommandQueue * SimpleStats) =>
    '(queue, q) ← GetNextQueue q;
    if is_in_ref_ q && bool_decide (queue_idx_ q ∈ ref_q_indices_ q) then Ok (inr (q, st))
    else
      '(cmd, st) ← GetFirstReadyInQueue q s st queue;
      if IsValid cmd then
        if IsReadWrite cmd then q ← EraseRWCommand q cmd; Ok (inl (cmd, q, st))
        else Ok (inl (cmd, q, st))
      else Ok (inr (q, st))) (q, st);
  match res with inl r => Ok r | inr (q, st) => Ok (noCommand, q, st) end.

(** ** Refreshes *)

Definition GetRefQIndices (q : CommandQueue) (ref : Command) : M (gset Z) :=
  if ct_eqb (cmd_type ref) REFRESH then
    match queue_structure_ q with
    | PER_BANK =>
        forM (seqZ 0 (num_queues_ q)) (fun i acc =>
          r ← idiv i (banks config);
          if r =? Rank ref then Ok ({[i]} ∪ acc) else Ok acc) (ref_q_indices_ q)
    | PER_RANK => Ok ({[Rank ref]} ∪ ref_q_indices_ q)
    end
  else Ok ({[GetQueueIndex q (Rank ref) (Bankgroup ref) (Bank ref)]} ∪ ref_q_indices_ q).

Definition FinishRefresh (q : CommandQueue) (s : ChannelState) : M (Command * CommandQueue) :=
  ref ← PendingRefCommand s;
  q ← (if negb (is_in_ref_ q) then
         idx ← GetRefQIndices q ref; Ok (set_in_ref q idx true)
       else Ok q);
  cmd ← ChannelState.GetReadyCommand config s ref (queue_clk_ q);
  if IsRefresh cmd then Ok (cmd, set_in_ref q ∅ false) else Ok (cmd, q).
End queue.

(** ** Invariant *)

Section invariant.
Context (config : Config).
Hypothesis banks_eq : banks config = bankgroups config * banks_per_group config.
Hypothesis groups_pos : 1 <= bankgroups config.
Hypothesis group_pos : 1 <= banks_per_group config.
Hypothesis ranks_pos : 1 <= ranks config.

(** A waiting command: an access to the place its address maps to. *)
Definition waiting_ok (cmd : Command) : Prop :=
  access_ok config cmd = true /\ addr cmd = AddressMapping config (hex_addr cmd).

(** Every command waits in the queue of its bank or rank. *)
Record cq_ok (q : CommandQueue) : Prop := {
  cq_num : num_queues_ q =
    match queue_structure_ q with
    | PER_BANK => banks config * ranks config | PER_RANK => ranks config end;
  cq_len : Z.of_nat (length (queues_ q)) = num_queues_ q;
  cq_idx : 0 <= queue_idx_ q < num_queues_ q;
  cq_ranks : Z.of_nat (length (rank_q_empty q)) = ranks config;
  cq_place : forall i queue cmd, vget (queues_ q) i = Ok queue -> cmd ∈ queue ->
    waiting_ok cmd /\ GetQueueIndex config q (Rank cmd) (Bankgroup cmd) (Bank cmd) = i }.

Lemma access_range cmd :
  access_ok config cmd = true ->
  in_range config (Rank cmd, Bankgroup cmd, Bank cmd) /\ is_access (cmd_type cmd) = true.
Proof.
  unfold access_ok. rewrite !andb_true_iff, !Z.leb_le, !Z.ltb_lt.
  intros (((((((Ha & ?) & ?) & ?) & ?) & ?) & ?) & ?). split; [simpl; lia|done].
Qed.

Lemma queue_index_range q r g b :
  num_queues_ q = match queue_structure_ q with
    | PER_BANK => banks config * ranks config | PER_RANK => ranks config end ->
  in_range config (r, g, b) ->
  0 <= GetQueueIndex config q r g b < num_queues_ q.
Proof.
  intros Hn (Hr & Hg & Hb). unfold GetQueueIndex. rewrite Hn.
  destruct (queue_structure_ q); [done|]. rewrite banks_eq.
  assert (0 <= g * banks_per_group config + b < bankgroups config * banks_per_group config) by nia.
  nia.
Qed.

Lemma newCommandQueue_ok q : newCommandQueue config = Ok q -> cq_ok q.
Proof.
  unfold newCommandQueue. intros H.
  assert (forall s n, 1 <= n -> n = match s with PER_BANK => banks config * ranks config
      | PER_RANK => ranks config end ->
    cq_ok (mkQueue (replicate (Z.to_nat (ranks config)) true) s (replicate (Z.to_nat n) [])
      ∅ false n (u64 (cmd_queue_size config)) 0 0)) as Hok.
  { intros s n Hn Hs. split; simpl; rewrite ?length_replicate; try done; try lia.
    intros i queue cmd [_ Hq]%vget_Ok Hin. apply lookup_replicate in Hq as [-> _]. set_solver. }
  destruct (bool_decide (queue_structure config = "PER_BANK")); simpl in H.
  - injection H as <-. apply Hok; [rewrite banks_eq; nia|done].
  - destruct (bool_decide (queue_structure config = "PER_RANK")); simpl in H; [|done].
    injection H as <-. apply Hok; [lia|done].
Qed.

(** ** Adding a command *)

Lemma concat_vset (qs qs' : list CMDQueue) i queue queue' :
  vget qs i = Ok queue -> vset qs i queue' = Ok qs' ->
  exists rest, concat qs ≡ₚ queue ++ rest /\ concat qs' ≡ₚ queue' ++ rest.
Proof.
  intros [Hi Hq]%vget_Ok [_ ->]%vset_inv.
  exists (concat (take (Z.to_nat i) qs) ++ concat (drop (S (Z.to_nat i)) qs)). split.
  - rewrite <-(take_drop_middle _ _ _ Hq) at 1. rewrite concat_app. simpl. solve_Permutation.
  - rewrite insert_take_drop by (by eapply lookup_lt_Some). rewrite concat_app. simpl.
    solve_Permutation.
Qed.

(** [AddCommand] puts a command at the end of its queue when [WillAcceptCommand] says so, and
    otherwise changes nothing. *)
Lemma AddCommand_spec q cmd :
  cq_ok q -> waiting_ok cmd ->
  exists acc q', WillAcceptCommand config q (Rank cmd) (Bankgroup cmd) (Bank cmd) = Ok acc /\
    AddCommand config q cmd = Ok (acc, q') /\ cq_ok q' /\
    concat (queues_ q') ≡ₚ (if acc then [cmd] else []) ++ concat (queues_ q) /\
    queue_clk_ q' = queue_clk_ q /\ is_in_ref_ q' = is_in_ref_ q /\ ref_q_indices_ q' = ref_q_indices_ q.
Proof.
  intros Hq Hc. destruct (access_range cmd (proj1 Hc)) as [Hin _].
  unfold AddCommand, WillAcceptCommand, GetQueue.
  set (i := GetQueueIndex config q (Rank cmd) (Bankgroup cmd) (Bank cmd)).
  pose proof (queue_index_range q _ _ _ (cq_num q Hq) Hin) as Hi. fold i in Hi.
  destruct (vget_in_range (queues_ q) i) as [queue Hqueue]; [rewrite (cq_len q Hq); done|].
  rewrite Hqueue. simpl. destruct (Z.of_nat (length queue) <? queue_size_ q).
  - rewrite (vset_Ok (queues_ q) i) by (rewrite (cq_len q Hq); done). simpl.
    rewrite (vset_Ok (rank_q_empty q)) by (rewrite (cq_ranks q Hq); apply Hin). simpl.
    eexists true, _. split; [done|]. split; [done|].
    assert (vset (queues_ q) i (queue ++ [cmd]) = Ok (<[Z.to_nat i:=queue ++ [cmd]]> (queues_ q)))
      as Hs by (apply vset_Ok; rewrite (cq_len q Hq); done).
    split; [|split; [|done]].
    + destruct Hq. split; simpl; rewrite ?length_insert; try done.
      intros j queue' c Hj Hc'. rewrite (vget_vset _ _ _ j _ Hs) in Hj.
      destruct (Z.eqb_spec j i) as [->|]; [|by eapply cq_place0].
      injection Hj as <-. apply elem_of_app in Hc' as [Hc'|Hc'%list_elem_of_singleton];
        [by eapply cq_place0|]. by subst c.
    + simpl. destruct (concat_vset _ _ _ _ _ Hqueue Hs) as (rest & -> & ->). solve_Permutation.
  - exists false, q. split; [done|]. done.
Qed.

(** ** Selecting a command *)

Section selecting.
Context (s : ChannelState) (F : loc -> BankState).
Hypothesis s_ok : chan_ok config s F.

Lemma bank_at_ok r g b : in_range config (r, g, b) -> bank_at (bank_states_ s) r g b = Ok (F (r, g, b)).
Proof. apply (holds_at _ _ _ (ch_holds _ _ _ s_ok)). Qed.

Lemma ArbitratePrecharge_ok st prev cmd rest :
  access_ok config cmd = true -> exists ok st', ArbitratePrecharge s st prev cmd rest = Ok (ok, st').
Proof.
  intros [Hin _]%access_range. unfold ArbitratePrecharge, ChannelState.OpenRow, ChannelState.RowHitCount.
  rewrite (bank_at_ok _ _ _ Hin). simpl. destruct (existsb _ prev); [eauto|].
  destruct (negb _ || _); eauto.
Qed.

Lemma first_ready_ok clk st prev queue :
  Forall (fun c => access_ok config c = true) queue ->
  exists c st', first_ready config s clk st prev queue = Ok (c, st') /\
    (IsValid c = true -> ready config s F clk c /\ (IsReadWrite c = true -> c ∈ queue) /\
       cmd_type c <> SREF_ENTER).
Proof.
  intros Hall. revert st prev. induction Hall as [|it rest Hit _ IH]; intros st prev.
  { exists noCommand, st. done. }
  destruct (GetReadyCommand_ready config banks_eq groups_pos group_pos s F it clk s_ok
    (access_askable config F it Hit)) as (c & E & Hc).
  cbn [first_ready]. rewrite E. cbn [mbind res_bind].
  assert (forall st, exists c st', first_ready config s clk st (prev ++ [it]) rest = Ok (c, st') /\
    (IsValid c = true -> ready config s F clk c /\ (IsReadWrite c = true -> c ∈ it :: rest) /\
       cmd_type c <> SREF_ENTER)) as Hskip.
  { intros st0. destruct (IH st0 (prev ++ [it])) as (c' & st' & E' & Hc'). exists c', st'.
    split; [done|]. intros Hv. destruct (Hc' Hv) as (? & ? & ?). split; [done|].
    split; [|done]. intros. apply elem_of_cons. auto. }
  destruct (IsValid c) eqn:Hv; simpl; [|apply Hskip].
  destruct (Hc eq_refl) as (Hrd & _ & _ & Hrw & _ & Hse).
  assert (ready config s F clk c /\ (IsReadWrite c = true -> c ∈ it :: rest) /\
    cmd_type c <> SREF_ENTER) as Hdone.
  { split; [done|]. split; [intros H; rewrite (Hrw H); set_solver|]. intros E'. specialize (Hse E').
    destruct (access_range it Hit) as [_ Ha]. by rewrite Hse in Ha. }
  destruct (ct_eqb (cmd_type c) PRECHARGE).
  - destruct (ArbitratePrecharge_ok st prev it rest Hit) as (ok & st' & ->). simpl.
    destruct ok; simpl; [eauto|apply Hskip].
  - destruct (IsWrite c && HasRWDependency prev it); [apply Hskip|]. eauto.
Qed.

(** Erasing the command that was selected. *)
Lemma erase_cmd_spec (cmd : Command) (queue : CMDQueue) :
  Forall waiting_ok queue -> cmd ∈ queue ->
  exists queue', erase_cmd cmd queue = Some queue' /\ queue ≡ₚ cmd :: queue'.
Proof.
  intros Hall Hin.
  assert (addr cmd = AddressMapping config (hex_addr cmd)) as Hcmd
    by (rewrite Forall_forall in Hall; by apply Hall).
  induction Hall as [|it rest [_ Hit] _ IH]; [set_solver|]. simpl.
  destruct ((hex_addr cmd =? hex_addr it) && ct_eqb (cmd_type cmd) (cmd_type it)) eqn:E.
  - apply andb_true_iff in E as [Eh%Z.eqb_eq Et%ct_eqb_true].
    assert (it = cmd) as -> by (destruct it, cmd; simpl in *; congruence). eauto.
  - apply elem_of_cons in Hin as [->|Hin].
    + rewrite Z.eqb_refl in E. unfold ct_eqb in E. by rewrite bool_decide_eq_true_2 in E.
    + destruct (IH Hin) as (queue' & -> & Hp). simpl. eexists. split; [done|].
      rewrite Hp. apply Permutation_swap.
Qed.

Lemma EraseRWCommand_spec q cmd i queue :
  cq_ok q -> vget (queues_ q) i = Ok queue -> cmd ∈ queue ->
  exists q', EraseRWCommand config q cmd = Ok q' /\ cq_ok q' /\
    concat (queues_ q) ≡ₚ cmd :: concat (queues_ q') /\
    q' = set_queues q (queues_ q').
Proof.
  intros Hq Hqueue Hin. destruct (cq_place q Hq _ _ _ Hqueue Hin) as [Hc Hi].
  unfold EraseRWCommand. rewrite Hi, Hqueue. cbn [mbind res_bind].
  destruct (erase_cmd_spec cmd queue) as (queue' & -> & Hp); [|done|].
  { apply Forall_forall. intros c Hc'. by apply (cq_place q Hq _ _ _ Hqueue). }
  pose proof (vget_range _ _ _ Hqueue) as Hr.
  rewrite vset_Ok by done. simpl. eexists. split; [done|].
  assert (vset (queues_ q) i queue' = Ok (<[Z.to_nat i:=queue']> (queues_ q))) as Hs
    by by apply vset_Ok.
  split; [|split; [|done]].
  - destruct Hq. split; simpl; rewrite ?length_insert; try done.
    intros j queue0 c Hj Hc'. rewrite (vget_vset _ _ _ j _ Hs) in Hj.
    destruct (Z.eqb_spec j i) as [->|]; [|by eapply cq_place0].
    injection Hj as <-. eapply cq_place0; [exact Hqueue|]. rewrite Hp. set_solver.
  - simpl. destruct (concat_vset _ _ _ _ _ Hqueue Hs) as (rest & -> & ->). by rewrite Hp.
Qed.

Lemma GetNextQueue_ok q :
  cq_ok q -> exists queue q', GetNextQueue q = Ok (queue, q') /\ cq_ok q' /\
    q' = set_queue_idx q (queue_idx_ q') /\ vget (queues_ q') (queue_idx_ q') = Ok queue.
Proof.
  intros Hq. unfold GetNextQueue. pose proof (cq_idx q Hq).
  set (i := if queue_idx_ q + 1 =? num_queues_ q then 0 else queue_idx_ q + 1).
  assert (0 <= i < num_queues_ q) as Hi.
  { unfold i. destruct (Z.eqb_spec (queue_idx_ q + 1) (num_queues_ q)); lia. }
  destruct (vget_in_range (queues_ q) i) as [queue Hqueue]; [rewrite (cq_len q Hq); done|].
  rewrite Hqueue. simpl. eexists _, _. split; [done|]. split; [|done].
  destruct Hq. split; done.
Qed.

(** A write that is selected stands behind no read of the same location. *)
Definition no_earlier_read (queue : CMDQueue) (c : Command) : Prop :=
  exists prev rest, queue = prev ++ c :: rest /\
    forall p, p ∈ prev -> IsRead p = true ->
      ~ (Row p = Row c /\ Column p = Column c /\ Bank p = Bank c /\ Bankgroup p = Bankgroup c).

Lemma first_ready_write clk st prev queue c st' :
  Forall (fun c => access_ok config c = true) queue ->
  first_ready config s clk st prev queue = Ok (c, st') -> IsValid c = true -> IsWrite c = true ->
  no_earlier_read (prev ++ queue) c.
Proof.
  intros Hall. revert st prev. induction Hall as [|it rest Hit _ IH]; intros st prev E Hv Hw.
  { injection E as <- <-. done. }
  destruct (GetReadyCommand_ready config banks_eq groups_pos group_pos s F it clk s_ok
    (access_askable config F it Hit)) as (c' & E' & Hc').
  cbn [first_ready] in E. rewrite E' in E. cbn [mbind res_bind] in E.
  assert (forall st, first_ready config s clk st (prev ++ [it]) rest = Ok (c, st') ->
    no_earlier_read (prev ++ it :: rest) c) as Hskip.
  { intros st0 E0. rewrite (cons_middle it prev rest), app_assoc. by eapply IH. }
  destruct (IsValid c') eqn:Hv'; simpl in E; [|by eapply Hskip].
  destruct (Hc' eq_refl) as (_ & _ & _ & Hrw & _).
  destruct (ct_eqb (cmd_type c') PRECHARGE) eqn:Ep.
  - destruct (ArbitratePrecharge_ok st prev it rest Hit) as (ok & st1 & Ea). rewrite Ea in E.
    simpl in E. destruct ok; simpl in E; [|by eapply Hskip]. injection E as -> ->.
    apply ct_eqb_true in Ep. unfold IsWrite in Hw. by rewrite Ep in Hw.
  - destruct (IsWrite c') eqn:Hw'; simpl in E; [|injection E as -> ->; congruence].
    destruct (HasRWDependency prev it) eqn:Hd; [by eapply Hskip|]. injection E as -> ->.
    assert (c = it) as -> by (apply Hrw; unfold IsReadWrite; rewrite Hw'; apply orb_true_r).
    exists prev, rest. split; [done|]. intros p Hp Hr (E1 & E2 & E3 & E4).
    apply not_true_iff_false in Hd. apply Hd. unfold HasRWDependency.
    apply existsb_exists. exists p. split; [by apply list_elem_of_In|].
    by rewrite Hr, E1, E2, E3, E4, !Z.eqb_refl.
Qed.

(** A selected command: it can be issued, an access has left its queue, and a write has not
    overtaken a read of the same location. *)
Definition selected (clk : Z) (q : CommandQueue) (c : Command) (q' : CommandQueue) : Prop :=
  (IsValid c = true -> ready config s F clk c /\ cmd_type c <> SREF_ENTER) /\
  (if IsReadWrite c then concat (queues_ q) ≡ₚ c :: concat (queues_ q')
   else queues_ q' = queues_ q) /\
  q' = set_queue_idx (set_queues q (queues_ q')) (queue_idx_ q') /\
  (IsValid c = true -> IsWrite c = true ->
     exists i queue, vget (queues_ q) i = Ok queue /\ no_earlier_read queue c).

Lemma GetCommandToIssue_ok q st :
  cq_ok q ->
  exists c q' st', GetCommandToIssue config q s st = Ok (c, q', st') /\ cq_ok q' /\
    selected (queue_clk_ q) q c q'.
Proof.
  intros Hq. unfold GetCommandToIssue.
  set (body := fun (_ : Z) '((q, st) : CommandQueue * SimpleStats) => _).
  assert (forall L q1 st1, cq_ok q1 -> q1 = set_queue_idx q (queue_idx_ q1) ->
    (exists q2 st2, forR L body (q1, st1) = Ok (inr (q2, st2)) /\ cq_ok q2 /\
       q2 = set_queue_idx q (queue_idx_ q2)) \/
    (exists c q2 st2, forR L body (q1, st1) = Ok (inl (c, q2, st2)) /\ cq_ok q2 /\
       selected (queue_clk_ q) q c q2)) as Hloop.
  { induction L as [|i L IH]; intros q1 st1 Hq1 E1; [left; by exists q1, st1|].
    destruct (GetNextQueue_ok q1 Hq1) as (queue & q2 & EN & Hq2 & E2 & Hqueue).
    assert (q2 = set_queue_idx q (queue_idx_ q2)) as E2' by (rewrite E2, E1; done).
    assert (exists r, body i (q1, st1) = Ok r /\ match r with
      | inr (q3, st3) => cq_ok q3 /\ q3 = set_queue_idx q (queue_idx_ q3)
      | inl (c, q3, st3) => cq_ok q3 /\ selected (queue_clk_ q) q c q3 end) as (r & Er & Hr).
    { unfold body. rewrite EN. cbn [mbind res_bind].
      destruct (is_in_ref_ q2 && _); [by eexists|].
      destruct (first_ready_ok (queue_clk_ q2) st1 [] queue) as (c & st2 & Ec & Hc).
      { apply Forall_forall. intros c Hc. by apply (cq_place q2 Hq2 _ _ _ Hqueue). }
      unfold GetFirstReadyInQueue. rewrite Ec. cbn [mbind res_bind].
      assert (queue_clk_ q2 = queue_clk_ q) as Eclk by by rewrite E2'.
      destruct (IsValid c) eqn:Hv; [|by eexists].
      destruct (Hc eq_refl) as (Hrd & Hrw & Hse). rewrite Eclk in Hrd.
      assert (IsWrite c = true -> exists i queue, vget (queues_ q) i = Ok queue /\
        no_earlier_read queue c) as Hwr.
      { intros Hw. exists (queue_idx_ q2), queue. split; [by rewrite E2' in Hqueue|].
        eapply (first_ready_write _ _ [] queue); [|exact Ec|done|done].
        apply Forall_forall. intros c' Hc'. by apply (cq_place q2 Hq2 _ _ _ Hqueue). }
      destruct (IsReadWrite c) eqn:Erw.
      - destruct (EraseRWCommand_spec q2 c _ queue Hq2 Hqueue (Hrw eq_refl)) as (q3 & -> & Hq3 & Hp & E3).
        cbn [mbind res_bind]. eexists. split; [done|]. split; [done|]. split; [done|].
        rewrite Erw. split; [by rewrite <-Hp, E2'|].
        split; [rewrite E3, E2'; done|done].
      - eexists. split; [done|]. split; [done|]. split; [done|].
        rewrite Erw. split; [by rewrite E2'|]. split; [rewrite E2'; done|done]. }
    cbn [forR]. rewrite Er. cbn [mbind res_bind].
    destruct r as [[[c q3] st3]|[q3 st3]]; [right|apply IH; tauto]. exists c, q3, st3. tauto. }
  destruct (Hloop (seqZ 0 (num_queues_ q)) q st Hq ltac:(by destruct q))
    as [(q2 & st2 & -> & Hq2 & E2)|(c & q2 & st2 & -> & Hq2 & Hsel)]; cbn [mbind res_bind].
  - exists noCommand, q2, st2. split; [done|]. split; [done|]. split; [done|]. simpl.
    split; [by rewrite E2|]. split; [rewrite E2; done|done].
  - eauto 10.
Qed.

(** ** Refreshes *)

Lemma GetRefQIndices_ok q ref : exists idx, GetRefQIndices config q ref = Ok idx.
Proof.
  unfold GetRefQIndices. destruct (ct_eqb _ _); [|eauto]. destruct (queue_structure_ q); [eauto|].
  destruct (forM_inv (fun _ : gset Z => True) (fun i acc =>
    r ← idiv i (banks config); if r =? Rank ref then Ok ({[i]} ∪ acc) else Ok acc)
    (seqZ 0 (num_queues_ q)) (ref_q_indices_ q)) as (idx & E & _); [|done|eauto].
  intros i acc _ _. unfold idiv. destruct (Z.eqb_spec (banks config) 0); [nia|]. simpl.
  destruct (_ =? _); eauto.
Qed.

Lemma FinishRefresh_ok q :
  cq_ok q -> IsRefreshWaiting s = true -> (forall x, in_range config x -> state_ (F x) <> SREF) ->
  exists c q', FinishRefresh config q s = Ok (c, q') /\ cq_ok q' /\ queues_ q' = queues_ q /\
    queue_clk_ q' = queue_clk_ q /\ rank_q_empty q' = rank_q_empty q /\
    (IsValid c = true -> ready config s F (queue_clk_ q) c /\ IsReadWrite c = false /\
       cmd_type c <> SREF_ENTER).
Proof.
  intros Hq Hw Haw. unfold FinishRefresh, PendingRefCommand.
  pose proof (ch_refresh _ _ _ s_ok) as Href. unfold IsRefreshWaiting in Hw.
  destruct (refresh_q_ s) as [|ref l]; [done|]. apply Forall_cons in Href as [[Hr Ht] _].
  change (vget (ref :: l) 0) with (Ok ref : M Command). cbn [mbind res_bind].
  assert (exists q1, (if negb (is_in_ref_ q) then
      idx ← GetRefQIndices config q ref; Ok (set_in_ref q idx true) else Ok q) = Ok q1 /\
    cq_ok q1 /\ queues_ q1 = queues_ q /\ queue_clk_ q1 = queue_clk_ q /\
    rank_q_empty q1 = rank_q_empty q) as (q1 & -> & Hq1 & E1 & E2 & E3).
  { destruct (is_in_ref_ q); simpl; [by exists q|]. destruct (GetRefQIndices_ok q ref) as [idx ->]. simpl.
    eexists. split; [done|]. split; [|done]. destruct Hq. split; done. }
  cbn [mbind res_bind].
  assert (askable config F ref) as Hask.
  { unfold IsRefresh in Hr. split; [by destruct (cmd_type ref)|done|by destruct (cmd_type ref)|].
    intros _ x Hx _. by apply Haw. }
  destruct (GetReadyCommand_ready config banks_eq groups_pos group_pos s F ref (queue_clk_ q1) s_ok Hask)
    as (c & -> & Hc). cbn [mbind res_bind].
  assert (IsValid c = true -> ready config s F (queue_clk_ q) c /\ IsReadWrite c = false /\
    cmd_type c <> SREF_ENTER) as Hgood.
  { intros Hv. destruct (Hc Hv) as (Hrd & _ & _ & Hrw & _ & Hse). rewrite <-E2. split; [done|].
    split; cycle 1.
    { intros E. specialize (Hse E). unfold IsRefresh in Hr. by rewrite Hse in Hr. }
    destruct (IsReadWrite c) eqn:E; [|done]. rewrite (Hrw eq_refl) in E.
    unfold IsReadWrite, IsRead, IsWrite in E. unfold IsRefresh in Hr. by destruct (cmd_type ref). }
  destruct (IsRefresh c).
  - exists c, (set_in_ref q1 ∅ false). split; [done|]. split; [destruct Hq1; split; done|]. done.
  - exists c, q1. done.
Qed.
End selecting.
End invariant.

(** C16: [GetCommandToIssue] always answers.  The command it returns, if any, can be issued at
    once; if it is a read or a write it is one that was waiting, it has been taken out of the
    queues and nothing else has; otherwise the queues are as before.  A write is never taken
    before a read of the same location that waits ahead of it. *)
Theorem command_selection (config : Config) s F q st :
  banks config = bankgroups config * banks_per_group config ->
  1 <= bankgroups config -> 1 <= banks_per_group config -> 1 <= ranks config ->
  chan_ok config s F -> cq_ok config q ->
  exists c q' st', GetCommandToIssue config q s st = Ok (c, q', st') /\ cq_ok config q' /\
    (IsValid c = true -> ready config s F (queue_clk_ q) c) /\
    (if IsReadWrite c then concat (queues_ q) ≡ₚ c :: concat (queues_ q')
     else queues_ q' = queues_ q) /\
    (IsValid c = true -> IsWrite c = true ->
       exists i queue prev rest, vget (queues_ q) i = Ok queue /\ queue = prev ++ c :: rest /\
         forall p, p ∈ prev -> IsRead p = true ->
           ~ (Row p = Row c /\ Column p = Column c /\ Bank p = Bank c /\
              Bankgroup p = Bankgroup c)).
Proof.
  intros Hb Hg Hk Hr Hs Hq.
  destruct (GetCommandToIssue_ok config Hb Hg Hk Hr s F Hs q st Hq)
    as (c & q' & st' & E & Hq' & H1 & H2 & _ & H4).
  exists c, q', st'. split_and!; try done; [intros Hv; by apply H1|]. intros Hv Hw.
  destruct (H4 Hv Hw) as (i & queue & Hi & prev & rest & -> & Hp). eauto 10.
Qed.

(** One read in the queue of its bank: its row is opened first. *)
Definition read_at (config : Config) (hex : Z) : Command :=
  mkCommand READ (AddressMapping config hex) hex.

Lemma command_selection_witness :
  exists q c q' st', AddCommand hbm1 (mkQueue [true] PER_BANK (replicate 16 []) ∅ false 16 8 0 0)
      (read_at hbm1 4096) = Ok (true, q) /\
    GetCommandToIssue hbm1 q (newChannelState hbm1) emptyStats = Ok (c, q', st') /\
    cmd_type c = ACTIVATE /\ queues_ q' = queues_ q.
Proof.
  destruct (newCommandQueue hbm1) as [q0| |] eqn:E0; [|done..].
  assert (q0 = mkQueue [true] PER_BANK (replicate 16 []) ∅ false 16 8 0 0) as ->
    by (vm_compute in E0; injection E0 as <-; vm_compute; reflexivity).
  pose proof (newCommandQueue_ok hbm1 eq_refl ltac:(done) ltac:(done) ltac:(done) _ E0) as Hq0.
  destruct (AddCommand_spec hbm1 eq_refl ltac:(done) ltac:(done) _
    (read_at hbm1 4096) Hq0) as (acc & q & Ew & Ea & Hq & _); [by split|].
  assert (acc = true) as -> by (vm_compute in Ew; by injection Ew as <-).
  destruct (command_selection hbm1 (newChannelState hbm1) (fun _ => newBankState) q emptyStats
    eq_refl ltac:(done) ltac:(done) ltac:(done) (newChannelState_ok hbm1 ltac:(done) ltac:(done)
    ltac:(done)) Hq) as (c & q' & st' & E & _ & _ & Hk & _).
  exists q, c, q', st'. split; [exact Ea|]. split; [exact E|].
  assert (cmd_type c = ACTIVATE) as Hc.
  { vm_compute in Ea. injection Ea as <-. vm_compute in E. by injection E as <- _ _. }
  split; [exact Hc|]. unfold IsReadWrite, IsRead, IsWrite in Hk. by rewrite Hc in Hk.
Defined.

(** ** Statistics *)

(** Selecting a command only counts on-demand precharges. *)
Lemma first_ready_vec config s clk st prev queue c st' :
  first_ready config s clk st prev queue = Ok (c, st') ->
  shape_of st' = shape_of st.
Proof.
  revert st prev. induction queue as [|it rest IH]; intros st prev E; cbn [first_ready] in E.
  { by injection E as <- <-. }
  run_ok E. destruct (negb (IsValid x)); [by eapply IH|].
  destruct (ct_eqb (cmd_type x) PRECHARGE).
  - run_ok E. destruct x0 as [ok st1].
    assert (shape_of st1 = shape_of st) as <-.
    { unfold ArbitratePrecharge in E1. destruct (existsb _ _); [by injection E1 as <- <-|].
      run_ok E1. destruct (negb _ || _); by injection E1 as <- <-. }
    destruct (negb ok); [by eapply IH|by injection E as <- <-].
  - destruct (_ && _); [by eapply IH|by injection E as <- <-].
Qed.

Lemma GetCommandToIssue_vec config q s st c q' st' :
  GetCommandToIssue config q s st = Ok (c, q', st') ->
  shape_of st' = shape_of st.
Proof.
  unfold GetCommandToIssue. set (body := fun (_ : Z) '((q, st) : CommandQueue * SimpleStats) => _).
  assert (forall L q st r, forR L body (q, st) = Ok r -> match r with
    | inl (_, _, st') | inr (_, st') => shape_of st' = shape_of st end) as HL.
  { induction L as [|i L IH]; intros q0 st0 r E; [by injection E as <-|].
    cbn [forR] in E. run_ok E.
    assert (match x with | inl (_, _, st') | inr (_, st') =>
      shape_of st' = shape_of st0 end) as Hx.
    { unfold body in E0. run_ok E0. destruct x0 as [queue q1].
      destruct (_ && _); [by injection E0 as <-|]. run_ok E0. destruct x0 as [cmd st1].
      apply first_ready_vec in E2.
      destruct (IsValid cmd); [|by injection E0 as <-].
      destruct (IsReadWrite cmd); [run_ok E0|]; by injection E0 as <-. }
    destruct x as [[[c1 q1] st1]|[q1 st1]]; [by injection E as <-|].
    apply IH in E. destruct r as [[[c2 q2] st2]|[q2 st2]]; congruence. }
  intros E. run_ok E. specialize (HL _ _ _ _ E0).
  destruct x as [[[c1 q1] st1]|[q1 st1]]; injection E as <- <- <-; done.
Qed.
