(* ===== verification/Controller.v ===== *)
(** * Memory controller of one channel

    [DRAMSIM3/src/controller.h] and [controller.cc], built without THERMAL and CMD_TRACE:
    transactions from the processor side, their translation to commands, the issue of commands
    cycle by cycle, refresh and self-refresh, and the return of finished transactions. *)
From S2P Require Import Prelude DramCommon DramConfig DramTiming BankState ChannelState.
From S2P Require Import DramRefresh SimpleStats CommandQueue.
From stdpp Require Import gmap.
Local Open Scope string_scope.
Local Open Scope list_scope.
Local Open Scope Z_scope.

Inductive RowBufPolicy := OPEN_PAGE | CLOSE_PAGE.

(** A [std::vector] whose [capacity()] is read: [reserve] on an empty vector sets it, a
    [push_back] on a full one doubles it. *)
Record tvec := mkVec { elems : list Transaction; capacity : Z }.

Definition vec_size (v : tvec) : Z := Z.of_nat (length (elems v)).
Definition reserve (n : Z) : tvec := mkVec [] n.
Definition push_back (v : tvec) (t : Transaction) : tvec :=
  mkVec (elems v ++ [t])
    (if vec_size v =? capacity v then Z.max 1 (2 * capacity v) else capacity v).

(** A [std::multimap] from addresses; equal keys stay in the order of insertion. *)
Abbreviation multimap A := (list (Z * A)).
Definition mm_count {A} (k : Z) (m : multimap A) : Z :=
  Z.of_nat (length (filter (fun e => fst e = k) m)).
Fixpoint mm_find {A} (k : Z) (m : multimap A) : option A :=
  match m with [] => None | (a, t) :: m => if a =? k then Some t else mm_find k m end.
Fixpoint mm_erase {A} (k : Z) (m : multimap A) : multimap A :=
  match m with [] => [] | (a, t) :: m => if a =? k then m else (a, t) :: mm_erase k m end.

Record Controller := mkController {
  clk_ : Z;
  simple_stats_ : SimpleStats;
  channel_state_ : ChannelState;
  cmd_queue_ : CommandQueue;
  refresh_ : Refresh;
  unified_queue_ : tvec;
  read_queue_ : tvec;
  write_buffer_ : tvec;
  pending_rd_q_ : multimap Transaction;
  pending_wr_q_ : multimap Transaction;
  return_queue_ : list Transaction;
  last_trans_clk_ : Z;
  write_draining_ : Z }.

Definition with_stats (c : Controller) v : Controller :=
  mkController (clk_ c) v (channel_state_ c) (cmd_queue_ c) (refresh_ c) (unified_queue_ c)
    (read_queue_ c) (write_buffer_ c) (pending_rd_q_ c) (pending_wr_q_ c) (return_queue_ c)
    (last_trans_clk_ c) (write_draining_ c).
Definition with_channel (c : Controller) v : Controller :=
  mkController (clk_ c) (simple_stats_ c) v (cmd_queue_ c) (refresh_ c) (unified_queue_ c)
    (read_queue_ c) (write_buffer_ c) (pending_rd_q_ c) (pending_wr_q_ c) (return_queue_ c)
    (last_trans_clk_ c) (write_draining_ c).
Definition with_queue (c : Controller) v : Controller :=
  mkController (clk_ c) (simple_stats_ c) (channel_state_ c) v (refresh_ c) (unified_queue_ c)
    (read_queue_ c) (write_buffer_ c) (pending_rd_q_ c) (pending_wr_q_ c) (return_queue_ c)
    (last_trans_clk_ c) (write_draining_ c).
Definition with_refresh (c : Controller) v : Controller :=
  mkController (clk_ c) (simple_stats_ c) (channel_state_ c) (cmd_queue_ c) v (unified_queue_ c)
    (read_queue_ c) (write_buffer_ c) (pending_rd_q_ c) (pending_wr_q_ c) (return_queue_ c)
    (last_trans_clk_ c) (write_draining_ c).
Definition with_unified (c : Controller) v : Controller :=
  mkController (clk_ c) (simple_stats_ c) (channel_state_ c) (cmd_queue_ c) (refresh_ c) v
    (read_queue_ c) (write_buffer_ c) (pending_rd_q_ c) (pending_wr_q_ c) (return_queue_ c)
    (last_trans_clk_ c) (write_draining_ c).
Definition with_reads (c : Controller) v : Controller :=
  mkController (clk_ c) (simple_stats_ c) (channel_state_ c) (cmd_queue_ c) (refresh_ c)
    (unified_queue_ c) v (write_buffer_ c) (pending_rd_q_ c) (pending_wr_q_ c)
    (return_queue_ c) (last_trans_clk_ c) (write_draining_ c).
Definition with_writes (c : Controller) v : Controller :=
  mkController (clk_ c) (simple_stats_ c) (channel_state_ c) (cmd_queue_ c) (refresh_ c)
    (unified_queue_ c) (read_queue_ c) v (pending_rd_q_ c) (pending_wr_q_ c)
    (return_queue_ c) (last_trans_clk_ c) (write_draining_ c).
Definition with_pending (c : Controller) rd wr ret : Controller :=
  mkController (clk_ c) (simple_stats_ c) (channel_state_ c) (cmd_queue_ c) (refresh_ c)
    (unified_queue_ c) (read_queue_ c) (write_buffer_ c) rd wr ret
    (last_trans_clk_ c) (write_draining_ c).
Definition with_last (c : Controller) v : Controller :=
  mkController (clk_ c) (simple_stats_ c) (channel_state_ c) (cmd_queue_ c) (refresh_ c)
    (unified_queue_ c) (read_queue_ c) (write_buffer_ c) (pending_rd_q_ c) (pending_wr_q_ c)
    (return_queue_ c) v (write_draining_ c).
Definition with_draining (c : Controller) v : Controller :=
  mkController (clk_ c) (simple_stats_ c) (channel_state_ c) (cmd_queue_ c) (refresh_ c)
    (unified_queue_ c) (read_queue_ c) (write_buffer_ c) (pending_rd_q_ c) (pending_wr_q_ c)
    (return_queue_ c) (last_trans_clk_ c) v.
Definition with_clk (c : Controller) v : Controller :=
  mkController v (simple_stats_ c) (channel_state_ c) (cmd_queue_ c) (refresh_ c)
    (unified_queue_ c) (read_queue_ c) (write_buffer_ c) (pending_rd_q_ c) (pending_wr_q_ c)
    (return_queue_ c) (last_trans_clk_ c) (write_draining_ c).

Definition count_stat (c : Controller) (name : string) : Controller :=
  with_stats c (Increment (simple_stats_ c) name).
Definition count_rank (c : Controller) (name : string) (i : Z) : M Controller :=
  st ← IncrementVec (simple_stats_ c) name i; Ok (with_stats c st).
Definition add_value (c : Controller) (name : string) (v : Z) : Controller :=
  with_stats c (AddValue (simple_stats_ c) name v).

Section controller.
Context (config : Config) (timing : Timing).

Definition row_buf_policy_ : RowBufPolicy :=
  if bool_decide (row_buf_policy config = "CLOSE_PAGE") then CLOSE_PAGE else OPEN_PAGE.

(** [Controller::Controller]. *)
Definition newController : M Controller :=
  q ← newCommandQueue config;
  f ← newRefresh config;
  let n := trans_queue_size config in
  if n <? 0 then Err Uncaught
  else
    Ok (mkController 0 (newSimpleStats config) (newChannelState config) q f
      (if unified_queue config then reserve n else reserve 0)
      (if unified_queue config then reserve 0 else reserve n)
      (if unified_queue config then reserve 0 else reserve n)
      [] [] [] 0 0).

(** ** The processor side *)

(** The [while] loop of [ReturnDoneTrans]: the first finished transaction. *)
Fixpoint take_done (clk : Z) (l : list Transaction) : option (Transaction * list Transaction) :=
  match l with
  | [] => None
  | t :: l =>
      if complete_cycle t <=? clk then Some (t, l)
      else '(d, rest) ← take_done clk l; Some (d, t :: rest)
  end.

(** [None] stands for the pair [(-1, -1)]. *)
Definition ReturnDoneTrans (c : Controller) (clk : Z) : option (Z * bool) * Controller :=
  match take_done clk (return_queue_ c) with
  | None => (None, c)
  | Some (t, rest) =>
      let c :=
        if is_write t then count_stat c "num_writes_done"
        else add_value (count_stat c "num_reads_done") "read_latency"
               (u64 (clk_ c - added_cycle t)) in
      (Some (t_addr t, is_write t), with_pending c (pending_rd_q_ c) (pending_wr_q_ c) rest)
  end.

Definition WillAcceptTransaction (c : Controller) (is_write : bool) : bool :=
  let v := if unified_queue config then unified_queue_ c
           else if negb is_write then read_queue_ c else write_buffer_ c in
  vec_size v <? capacity v.

Definition AddTransaction (c : Controller) (trans : Transaction) : Controller :=
  let trans := set_added trans (clk_ c) in
  let c := add_value c "interarrival_latency" (u64 (clk_ c - last_trans_clk_ c)) in
  let c := with_last c (clk_ c) in
  if is_write trans then
    let c :=
      if mm_count (t_addr trans) (pending_wr_q_ c) =? 0 then
        let c := with_pending c (pending_rd_q_ c)
          (pending_wr_q_ c ++ [(t_addr trans, trans)]) (return_queue_ c) in
        if unified_queue config then with_unified c (push_back (unified_queue_ c) trans)
        else with_writes c (push_back (write_buffer_ c) trans)
      else c in
    with_pending c (pending_rd_q_ c) (pending_wr_q_ c)
      (return_queue_ c ++ [set_complete trans (u64 (clk_ c + 1))])
  else if 0 <? mm_count (t_addr trans) (pending_wr_q_ c) then
    with_pending c (pending_rd_q_ c) (pending_wr_q_ c)
      (return_queue_ c ++ [set_complete trans (u64 (clk_ c + 1))])
  else
    let c := with_pending c (pending_rd_q_ c ++ [(t_addr trans, trans)]) (pending_wr_q_ c)
      (return_queue_ c) in
    if mm_count (t_addr trans) (pending_rd_q_ c) =? 1 then
      if unified_queue config then with_unified c (push_back (unified_queue_ c) trans)
      else with_reads c (push_back (read_queue_ c) trans)
    else c.

(** ** Scheduling *)

Definition TransToCommand (trans : Transaction) : Command :=
  let a := AddressMapping config (t_addr trans) in
  let cmd_type :=
    match row_buf_policy_ with
    | OPEN_PAGE => if is_write trans then WRITE else READ
    | CLOSE_PAGE => if is_write trans then WRITE_PRECHARGE else READ_PRECHARGE
    end in
  mkCommand cmd_type a (t_addr trans).

(** The loop of [ScheduleTransaction] from one position on: the queue it leaves, the command
    queue and the draining count. *)
Fixpoint schedule (c : Controller) (prev queue : list Transaction)
    : M (list Transaction * CommandQueue * Z) :=
  match queue with
  | [] => Ok (prev, cmd_queue_ c, write_draining_ c)
  | it :: rest =>
      let cmd := TransToCommand it in
      acc ← WillAcceptCommand config (cmd_queue_ c) (Rank cmd) (Bankgroup cmd) (Bank cmd);
      if (acc : bool) then
        if negb (unified_queue config) && IsWrite cmd then
          if 0 <? mm_count (t_addr it) (pending_rd_q_ c) then
            Ok (prev ++ it :: rest, cmd_queue_ c, 0)
          else
            '(_, q) ← AddCommand config (cmd_queue_ c) cmd;
            Ok (prev ++ rest, q, write_draining_ c - 1)
        else
          '(_, q) ← AddCommand config (cmd_queue_ c) cmd;
          Ok (prev ++ rest, q, write_draining_ c)
      else schedule c (prev ++ [it]) rest
  end.

Definition start_draining (c : Controller) : Controller :=
  if (write_draining_ c =? 0) && negb (unified_queue config) then
    let size := vec_size (write_buffer_ c) in
    if (capacity (write_buffer_ c) <=? size)
       || ((8 <? size) && QueueEmpty (cmd_queue_ c))
    then with_draining c size else c
  else c.

Definition ScheduleTransaction (c : Controller) : M Controller :=
  let c := start_draining c in
  let queue := if unified_queue config then unified_queue_ c
               else if 0 <? write_draining_ c then write_buffer_ c else read_queue_ c in
  '(l, q, d) ← schedule c [] (elems queue);
  let queue' := mkVec l (capacity queue) in
  let c' := with_draining (with_queue c q) d in
  Ok (if unified_queue config then with_unified c' queue'
      else if 0 <? write_draining_ c then with_writes c' queue' else with_reads c' queue').

(** ** Issue *)

Definition UpdateCommandStats (c : Controller) (cmd : Command) : M Controller :=
  let row_hit c name :=
    h ← ChannelState.RowHitCount (channel_state_ c) (Rank cmd) (Bankgroup cmd) (Bank cmd);
    Ok (if negb (h =? 0) then count_stat c name else c) in
  match cmd_type cmd with
  | READ | READ_PRECHARGE => row_hit (count_stat c "num_read_cmds") "num_read_row_hits"
  | WRITE | WRITE_PRECHARGE => row_hit (count_stat c "num_write_cmds") "num_write_row_hits"
  | ACTIVATE => Ok (count_stat c "num_act_cmds")
  | PRECHARGE => Ok (count_stat c "num_pre_cmds")
  | REFRESH => Ok (count_stat c "num_ref_cmds")
  | REFRESH_BANK => Ok (count_stat c "num_refb_cmds")
  | SREF_ENTER => Ok (count_stat c "num_srefe_cmds")
  | SREF_EXIT => Ok (count_stat c "num_srefx_cmds")
  | CT_SIZE => Err AbruptExit
  end.

(** The loop over the reads waiting for an address. *)
Fixpoint return_reads (n : nat) (k time : Z) (pend : multimap Transaction) (ret : list Transaction)
    : multimap Transaction * list Transaction :=
  match n with
  | O => (pend, ret)
  | S n =>
      match mm_find k pend with
      | Some t => return_reads n k time (mm_erase k pend) (ret ++ [set_complete t time])
      | None => (pend, ret)
      end
  end.

(** The first part of [IssueCommand]: the pending and return queues of an access. *)
Definition settle (c : Controller) (cmd : Command) : M Controller :=
  if IsRead cmd then
    let num_reads := mm_count (hex_addr cmd) (pending_rd_q_ c) in
    if num_reads =? 0 then Err ExitFailure
    else
      let '(pend, ret) := return_reads (Z.to_nat num_reads) (hex_addr cmd)
        (u64 (clk_ c + read_delay config)) (pending_rd_q_ c) (return_queue_ c) in
      Ok (with_pending c pend (pending_wr_q_ c) ret)
  else if IsWrite cmd then
    match mm_find (hex_addr cmd) (pending_wr_q_ c) with
    | None => Err ExitFailure
    | Some t =>
        let wr_lat := u64 (clk_ c - added_cycle t + write_delay config) in
        let c := add_value c "write_latency" wr_lat in
        Ok (with_pending c (pending_rd_q_ c) (mm_erase (hex_addr cmd) (pending_wr_q_ c))
              (return_queue_ c))
    end
  else Ok c.

Definition IssueCommand (c : Controller) (cmd : Command) : M Controller :=
  c ← settle c cmd;
  c ← UpdateCommandStats c cmd;
  s ← UpdateTimingAndStates config timing (channel_state_ c) cmd (clk_ c);
  Ok (with_channel c s).

(** ** One cycle *)

Definition next_command (c : Controller) : M (Command * Controller) :=
  '(cmd, c) ←
    (if IsRefreshWaiting (channel_state_ c) then
       '(cmd, q) ← FinishRefresh config (cmd_queue_ c) (channel_state_ c);
       Ok (cmd, with_queue c q)
     else Ok (noCommand, c));
  if negb (IsValid cmd) then
    '(cmd, q, st) ← GetCommandToIssue config (cmd_queue_ c) (channel_state_ c) (simple_stats_ c);
    Ok (cmd, with_stats (with_queue c q) st)
  else Ok (cmd, c).

Definition second_command (c : Controller) (cmd : Command) : M Controller :=
  if enable_hbm_dual_cmd config then
    '(second_cmd, q, st) ←
      GetCommandToIssue config (cmd_queue_ c) (channel_state_ c) (simple_stats_ c);
    let c := with_stats (with_queue c q) st in
    if IsValid second_cmd then
      if negb (Bool.eqb (IsReadWrite second_cmd) (IsReadWrite cmd)) then
        c ← IssueCommand c second_cmd;
        Ok (count_stat c "hbm_dual_cmds")
      else Ok c
    else Ok c
  else Ok c.

Definition issue_phase (c : Controller) : M (bool * Controller) :=
  '(cmd, c) ← next_command c;
  if IsValid cmd then
    c ← IssueCommand c cmd;
    c ← second_command c cmd;
    Ok (true, c)
  else Ok (false, c).

(** Power updates, part 1: the idle cycles of the ranks. *)
Definition count_idle (c : Controller) : M Controller :=
  forM (seqZ 0 (ranks config)) (fun i c =>
    sref ← IsRankSelfRefreshing (channel_state_ c) i;
    if (sref : bool) then count_rank c "sref_cycles" i
    else
      all_idle ← IsAllBankIdleInRank config (channel_state_ c) i;
      if (all_idle : bool) then
        c ← count_rank c "all_bank_idle_cycles" i;
        v ← vmod (rank_idle_cycles (channel_state_ c)) i (fun n => Ok (s32 (n + 1)));
        Ok (with_channel c (set_idle (channel_state_ c) v))
      else
        c ← count_rank c "rank_active_cycles" i;
        v ← vset (rank_idle_cycles (channel_state_ c)) i 0;
        Ok (with_channel c (set_idle (channel_state_ c) v))) c.

(** The command [Command(type, addr, -1)] of the self-refresh loop. *)
Definition rank_command (t : CommandType) (i : Z) : Command :=
  mkCommand t (mkAddress (-1) i (-1) (-1) (-1) (-1)) (u64 (-1)).

(** Power updates, part 2: put idle ranks to sleep, wake ranks with work. *)
Definition self_refresh (c : Controller) : M Controller :=
  let attempt c t i :=
    cmd ← ChannelState.GetReadyCommand config (channel_state_ c) (rank_command t i) (clk_ c);
    if IsValid cmd then c ← IssueCommand c cmd; Ok (inl c) else Ok (inr c) in
  res ← forR (seqZ 0 (ranks config)) (fun i c =>
    sref ← IsRankSelfRefreshing (channel_state_ c) i;
    empty ← vget (rank_q_empty (cmd_queue_ c)) i;
    if (sref : bool) then
      if negb empty then attempt c SREF_EXIT i else Ok (inr c)
    else
      idle ← vget (rank_idle_cycles (channel_state_ c)) i;
      if (empty : bool) && (sref_threshold config <=? idle) then attempt c SREF_ENTER i
      else Ok (inr c)) c;
  match res with inl c => Ok c | inr c => Ok c end.

Definition ClockTick (c : Controller) : M Controller :=
  '(f, s) ← DramRefresh.ClockTick config (refresh_ c) (channel_state_ c);
  let c := with_channel (with_refresh c f) s in
  '(cmd_issued, c) ← issue_phase c;
  c ← count_idle c;
  c ← (if enable_self_refresh config && negb cmd_issued then self_refresh c else Ok c);
  c ← ScheduleTransaction c;
  let c := with_clk c (u64 (clk_ c + 1)) in
  let c := with_queue c (CommandQueue.ClockTick (cmd_queue_ c)) in
  Ok (count_stat c "num_cycles").

Definition QueueUsage (c : Controller) : Z := CommandQueue.QueueUsage (cmd_queue_ c).

(** ** Statistics; what is printed is left out *)

Definition PrintEpochStats (c : Controller) : M Controller :=
  let c := count_stat c "epoch_num" in
  st ← UpdateEpochStats (simple_stats_ c);
  Ok (with_stats c st).

Definition PrintFinalStats (c : Controller) : M Controller :=
  st ← UpdateFinalStats (simple_stats_ c); Ok (with_stats c st).

Definition ResetStats (c : Controller) : Controller := with_stats c (Reset (simple_stats_ c)).
End controller.

(** ** Multimaps *)

Lemma mm_count_pos {A} k (m : multimap A) : 0 < mm_count k m <-> k ∈ m.*1.
Proof.
  unfold mm_count. induction m as [|[a t] m IH]; simpl.
  { rewrite elem_of_nil. lia. }
  rewrite elem_of_cons, filter_cons. simpl. destruct (decide (a = k)) as [->|]; simpl; [|naive_solver].
  split; [by left|lia].
Qed.

Lemma mm_count_zero {A} k (m : multimap A) : mm_count k m = 0 <-> k ∉ m.*1.
Proof. rewrite <-mm_count_pos. assert (0 <= mm_count k m) by (unfold mm_count; lia). lia. Qed.

Lemma mm_find_erase {A} k (m : multimap A) :
  k ∈ m.*1 -> exists t, mm_find k m = Some t /\ m ≡ₚ (k, t) :: mm_erase k m /\
    filter (fun e => fst e = k) m = (k, t) :: filter (fun e => fst e = k) (mm_erase k m) /\
    filter (fun e => fst e <> k) m = filter (fun e => fst e <> k) (mm_erase k m).
Proof.
  induction m as [|[a t] m IH]; simpl; [set_solver|]. intros Hin.
  rewrite !filter_cons. destruct (Z.eqb_spec a k) as [->|Hne]; simpl.
  - exists t. by rewrite !decide_True, decide_False by naive_solver.
  - apply elem_of_cons in Hin as [->|Hin]; [done|].
    destruct (IH Hin) as (t' & -> & Hp & E1 & E2). exists t'. split; [done|].
    rewrite !filter_cons. simpl. rewrite !decide_False, !decide_True by done.
    split_and!; [|done|by rewrite E2]. rewrite Hp at 1. apply Permutation_swap.
Qed.

Lemma mm_find_None {A} k (m : multimap A) : k ∉ m.*1 -> mm_find k m = None.
Proof.
  induction m as [|[a t] m IH]; simpl; [done|]. intros Hn.
  destruct (Z.eqb_spec a k); [set_solver|]. apply IH. set_solver.
Qed.

(** All the reads of one address leave the pending queue. *)
Lemma return_reads_spec k time pend ret :
  return_reads (Z.to_nat (mm_count k pend)) k time pend ret =
  (filter (fun e => fst e <> k) pend,
   ret ++ ((fun t => set_complete t time) <$> (filter (fun e => fst e = k) pend).*2)).
Proof.
  remember (Z.to_nat (mm_count k pend)) as n eqn:Hn. revert pend ret Hn.
  induction n as [|n IH]; intros pend ret Hn.
  - assert (k ∉ pend.*1) as Hk by (apply mm_count_zero; unfold mm_count in *; lia).
    simpl. f_equal.
    + clear -Hk. induction pend as [|[a t] pend IH]; [done|]. simpl in Hk. rewrite filter_cons. simpl.
      rewrite decide_True by set_solver. f_equal. apply IH. set_solver.
    + assert (filter (fun e => fst e = k) pend = []) as ->; [|by rewrite app_nil_r].
      apply nil_length_inv. unfold mm_count in Hn. lia.
  - assert (k ∈ pend.*1) as Hk by (apply mm_count_pos; lia).
    destruct (mm_find_erase k pend Hk) as (t & Hf & _ & E1 & E2). cbn [return_reads]. rewrite Hf.
    rewrite IH.
    + rewrite E2, E1. simpl. by rewrite <-app_assoc.
    + unfold mm_count in *. rewrite E1 in Hn. simpl in Hn. lia.
Qed.

(** ** Bookkeeping *)

(** The addresses of the reads, and of the writes, that still wait to be issued. *)
Definition reads_of (trans : list Transaction) (cmds : list Command) : list Z :=
  (t_addr <$> filter (fun t => is_write t = false) trans)
  ++ (hex_addr <$> filter (fun m => IsRead m = true) cmds).
Definition writes_of (trans : list Transaction) (cmds : list Command) : list Z :=
  (t_addr <$> filter (fun t => is_write t = true) trans)
  ++ (hex_addr <$> filter (fun m => IsWrite m = true) cmds).

(** An address has a read waiting to be issued exactly when reads of it are pending, and then
    only one; every pending write waits exactly once. *)
Record books (trans : list Transaction) (cmds : list Command) (rd wr : multimap Transaction) : Prop := {
  bk_reads_once : NoDup (reads_of trans cmds);
  bk_reads : forall a, a ∈ reads_of trans cmds <-> a ∈ rd.*1;
  bk_writes_once : NoDup wr.*1;
  bk_writes : writes_of trans cmds ≡ₚ wr.*1;
  bk_pending : Forall (fun e => t_addr (snd e) = fst e /\ is_write (snd e) = false) rd }.

#[export] Instance reads_of_proper :
  Proper ((≡ₚ) ==> (≡ₚ) ==> (≡ₚ)) reads_of.
Proof. intros t t' Ht c c' Hc. unfold reads_of. by rewrite Ht, Hc. Qed.
#[export] Instance writes_of_proper :
  Proper ((≡ₚ) ==> (≡ₚ) ==> (≡ₚ)) writes_of.
Proof. intros t t' Ht c c' Hc. unfold writes_of. by rewrite Ht, Hc. Qed.

Lemma books_perm trans trans' cmds cmds' rd wr :
  trans ≡ₚ trans' -> cmds ≡ₚ cmds' -> books trans cmds rd wr -> books trans' cmds' rd wr.
Proof.
  intros Ht Hc [H1 H2 H3 H4 H5]. split; try done.
  - by rewrite <-Ht, <-Hc.
  - intros a. by rewrite <-H2, Ht, Hc.
  - by rewrite <-Ht, <-Hc.
Qed.

Lemma reads_of_trans t trans cmds :
  reads_of (t :: trans) cmds = (if is_write t then [] else [t_addr t]) ++ reads_of trans cmds.
Proof. unfold reads_of. rewrite filter_cons. by destruct (is_write t). Qed.
Lemma writes_of_trans t trans cmds :
  writes_of (t :: trans) cmds = (if is_write t then [t_addr t] else []) ++ writes_of trans cmds.
Proof. unfold writes_of. rewrite filter_cons. by destruct (is_write t). Qed.
Lemma reads_of_cmd m trans cmds :
  reads_of trans (m :: cmds) ≡ₚ (if IsRead m then [hex_addr m] else []) ++ reads_of trans cmds.
Proof.
  unfold reads_of. rewrite filter_cons. destruct (IsRead m); simpl; [|done]. solve_Permutation.
Qed.
Lemma writes_of_cmd m trans cmds :
  writes_of trans (m :: cmds) ≡ₚ (if IsWrite m then [hex_addr m] else []) ++ writes_of trans cmds.
Proof.
  unfold writes_of. rewrite filter_cons. destruct (IsWrite m); simpl; [|done]. solve_Permutation.
Qed.

(** Moving a transaction to the command queues. *)
Lemma books_schedule t m trans cmds rd wr :
  hex_addr m = t_addr t -> IsRead m = negb (is_write t) -> IsWrite m = is_write t ->
  books (t :: trans) cmds rd wr -> books trans (m :: cmds) rd wr.
Proof.
  intros Ha Hr Hw [H1 H2 H3 H4 H5].
  assert (reads_of trans (m :: cmds) ≡ₚ reads_of (t :: trans) cmds) as ER.
  { rewrite reads_of_cmd, reads_of_trans, Hr, Ha. by destruct (is_write t). }
  assert (writes_of trans (m :: cmds) ≡ₚ writes_of (t :: trans) cmds) as EW.
  { rewrite writes_of_cmd, writes_of_trans, Hw, Ha. by destruct (is_write t). }
  split; try done.
  - by rewrite ER.
  - intros a. by rewrite ER.
  - by rewrite EW.
Qed.

(** A write to an address with no pending write. *)
Lemma books_add_write t trans cmds rd wr :
  is_write t = true -> t_addr t ∉ wr.*1 -> books trans cmds rd wr ->
  books (t :: trans) cmds rd (wr ++ [(t_addr t, t)]).
Proof.
  intros Hw Hn [H1 H2 H3 H4 H5].
  split; rewrite ?reads_of_trans, ?writes_of_trans, ?Hw; simpl; try done.
  - rewrite fmap_app. simpl. rewrite Permutation_app_comm. simpl. by constructor.
  - rewrite fmap_app, H4. simpl. rewrite (Permutation_app_comm wr.*1). done.
Qed.

(** A read: the first for its address also joins the waiting ones. *)
Lemma books_add_read t trans cmds rd wr :
  is_write t = false -> books trans cmds rd wr ->
  books (if decide (t_addr t ∈ rd.*1) then trans else t :: trans) cmds
    (rd ++ [(t_addr t, t)]) wr.
Proof.
  intros Hr [H1 H2 H3 H4 H5]. destruct (decide (t_addr t ∈ rd.*1)) as [Hin|Hin].
  - split; try done.
    + intros a. rewrite H2, fmap_app, elem_of_app. simpl. set_solver.
    + apply Forall_app_2; [done|]. by constructor.
  - split; rewrite ?reads_of_trans, ?writes_of_trans, ?Hr; simpl; try done.
    + constructor; [by rewrite H2|done].
    + intros a. rewrite fmap_app, elem_of_app, elem_of_cons, H2. set_solver.
    + apply Forall_app_2; [done|]. by constructor.
Qed.

(** Issuing a read answers every read of its address. *)
Lemma books_issue_read m trans cmds rd wr :
  IsRead m = true -> IsWrite m = false -> books trans (m :: cmds) rd wr ->
  hex_addr m ∈ rd.*1 /\ books trans cmds (filter (fun e => fst e <> hex_addr m) rd) wr.
Proof.
  intros Hr Hw [H1 H2 H3 H4 H5].
  rewrite reads_of_cmd, Hr in H1. simpl in H1. apply NoDup_cons in H1 as [Hn H1].
  assert (forall a, a ∈ rd.*1 <-> a = hex_addr m \/ a ∈ reads_of trans cmds) as H2'.
  { intros a. rewrite <-H2, reads_of_cmd, Hr. simpl. by rewrite elem_of_cons. }
  split; [apply H2'; by left|]. split; try done.
  - intros a. split.
    + intros Ha. assert (a ∈ rd.*1) as Hk by (apply H2'; by right).
      apply list_elem_of_fmap in Hk as ([a' t] & -> & Hin). apply list_elem_of_fmap.
      exists (a', t). split; [done|]. apply list_elem_of_filter. split; [|done].
      simpl in *. congruence.
    + intros (e & -> & [He Hin]%list_elem_of_filter)%list_elem_of_fmap.
      assert (fst e ∈ rd.*1) as Hk by (apply list_elem_of_fmap; eauto).
      apply H2' in Hk as [|]; done.
  - rewrite <-H4, writes_of_cmd, Hw. done.
  - apply Forall_forall. intros e [_ Hin]%list_elem_of_filter. rewrite Forall_forall in H5. auto.
Qed.

(** Issuing a write retires its entry. *)
Lemma books_issue_write m trans cmds rd wr :
  IsRead m = false -> IsWrite m = true -> books trans (m :: cmds) rd wr ->
  hex_addr m ∈ wr.*1 /\ books trans cmds rd (mm_erase (hex_addr m) wr).
Proof.
  intros Hr Hw [H1 H2 H3 H4 H5]. rewrite writes_of_cmd, Hw in H4. simpl in H4.
  assert (hex_addr m ∈ wr.*1) as Hin by (rewrite <-H4; set_solver).
  destruct (mm_find_erase (hex_addr m) wr Hin) as (t & _ & Hp & _).
  split; [done|]. assert (wr.*1 ≡ₚ hex_addr m :: (mm_erase (hex_addr m) wr).*1) as Hk by by rewrite Hp at 1.
  split; try done.
  - by rewrite reads_of_cmd, Hr in H1.
  - intros a. by rewrite <-H2, reads_of_cmd, Hr.
  - rewrite Hk in H3. by apply NoDup_cons in H3 as [_ ?].
  - rewrite Hk in H4. by apply Permutation_cons_inv in H4.
Qed.

(** ** Invariant of a controller *)

(** What the theorems assume of a configuration: its geometry, an address mapping inside it,
    self-refresh switched off, and, where two commands can be issued in a cycle, that no two
    accesses are ever ready in the same cycle. *)
Record system_ok (config : Config) (timing : Timing) : Prop := {
  so_banks : banks config = bankgroups config * banks_per_group config;
  so_groups : 1 <= bankgroups config;
  so_group : 1 <= banks_per_group config;
  so_ranks : 1 <= ranks config;
  so_timing : Timing_ok timing;
  so_mapping : forall x, let a := AddressMapping config x in
    in_range config (rank a, bankgroup a, bank a) /\ 0 <= row a;
  so_awake : enable_self_refresh config = false;
  so_dual : enable_hbm_dual_cmd config = true ->
    forall c x u, IsReadWrite c = true -> target_ok config c -> in_range config x ->
      is_access u = true ->
      (affected c x = true /\ (cmd_type c = READ_PRECHARGE \/ cmd_type c = WRITE_PRECHARGE)) \/
      exists d, (u, d) ∈ waits timing c x /\ 1 <= d < 2 ^ 31 }.

Section invariant.
Context (config : Config) (timing : Timing).
Hypothesis system : system_ok config timing.

(** The per-rank counters have an entry for every rank. *)
Record stats_ok (st : SimpleStats) : Prop := {
  st_ranks : forall name, name ∈ vec_names -> exists v, epoch_vec_counters_ st !! name = Some v /\
    Z.of_nat (length v) = ranks config;
  st_wf : stats_wf st }.

Definition trans_of (c : Controller) : list Transaction :=
  elems (unified_queue_ c) ++ elems (read_queue_ c) ++ elems (write_buffer_ c).
Definition cmds_of (c : Controller) : list Command := concat (queues_ (cmd_queue_ c)).

(** The requests accepted and not yet answered. *)
Definition id_of (t : Transaction) : Z * bool := (t_addr t, is_write t).
Definition ids (c : Controller) : list (Z * bool) :=
  id_of <$> ((pending_rd_q_ c).*2 ++ return_queue_ c).

(** [hand] are accesses taken out of the queues and not yet issued. *)
Record ctrl_inv (c : Controller) (F : loc -> BankState) (hand : list Command) : Prop := {
  ci_chan : chan_ok config (channel_state_ c) F;
  ci_awake : forall x, in_range config x -> state_ (F x) <> SREF;
  ci_queue : cq_ok config (cmd_queue_ c);
  ci_clk : queue_clk_ (cmd_queue_ c) = clk_ c;
  ci_refresh : refresh_wf config (refresh_ c);
  ci_stats : stats_ok (simple_stats_ c);
  ci_books : books (trans_of c) (hand ++ cmds_of c) (pending_rd_q_ c) (pending_wr_q_ c) }.

Definition hand_of (cmd : Command) : list Command := if IsReadWrite cmd then [cmd] else [].

(** Statistics do not matter to the rest. *)
Lemma ctrl_inv_stats c F hand st :
  ctrl_inv c F hand -> stats_ok st -> ctrl_inv (with_stats c st) F hand.
Proof. intros []. by split. Qed.

Lemma stats_ok_vec st st' :
  shape_of st' = shape_of st -> stats_ok st -> stats_ok st'.
Proof.
  intros E [H1 H2]. split; [|by apply (shape_wf st)]. unfold shape_of in E.
  by assert (epoch_vec_counters_ st' = epoch_vec_counters_ st) as -> by congruence.
Qed.

Lemma stats_ok_count st name : stats_ok st -> stats_ok (Increment st name).
Proof. by apply stats_ok_vec. Qed.
Lemma stats_ok_value st name v : stats_ok st -> stats_ok (AddValue st name v).
Proof. by apply stats_ok_vec. Qed.

(** The fields of [ctrl_inv], after an update of the statistics and of some queues. *)
Ltac inv_fields :=
  split; try done; repeat first [apply stats_ok_count | apply stats_ok_value]; try done.

Lemma UpdateCommandStats_ok c F hand cmd :
  ctrl_inv c F hand -> target_ok config cmd -> cmd_type cmd <> CT_SIZE ->
  exists st, UpdateCommandStats c cmd = Ok (with_stats c st) /\
    stats_ok st.
Proof.
  intros Hc Ht Hv. pose proof (ci_stats _ _ _ Hc) as Hst.
  assert (IsRankCMD cmd = false -> exists h,
    ChannelState.RowHitCount (channel_state_ c) (Rank cmd) (Bankgroup cmd) (Bank cmd) = Ok h) as Hh.
  { intros Hrk. unfold target_ok in Ht. rewrite Hrk in Ht. unfold ChannelState.RowHitCount.
    rewrite (bank_at_ok config _ F (ci_chan _ _ _ Hc) _ _ _ Ht). simpl. eauto. }
  unfold UpdateCommandStats, IsRankCMD in *.
  destruct (cmd_type cmd) eqn:Ec; try done;
    try (destruct (Hh eq_refl) as [h Eh]; cbn [count_stat with_stats channel_state_ simple_stats_];
         rewrite Eh; cbn [mbind res_bind]; destruct (h =? 0); cbn [negb];
         eexists; (split; [reflexivity|]); by eapply stats_ok_vec; [|exact Hst]);
    eexists; (split; [reflexivity|]); by eapply stats_ok_vec; [|exact Hst].
Qed.

Lemma id_set_complete (l : list Transaction) t :
  id_of <$> ((fun x => set_complete x t) <$> l) = id_of <$> l.
Proof. rewrite <-list_fmap_compose. by apply list_fmap_ext. Qed.

Lemma filter_split {A} k (m : multimap A) :
  filter (fun e => fst e <> k) m ++ filter (fun e => fst e = k) m ≡ₚ m.
Proof.
  induction m as [|[a t] m IH]; [done|]. rewrite !filter_cons. simpl.
  destruct (decide (a = k)) as [->|]; simpl.
  - rewrite decide_False by naive_solver. by rewrite <-Permutation_middle, IH.
  - rewrite decide_True by done. simpl. by rewrite IH.
Qed.

(** An access finds its pending requests, and settles them. *)
Lemma settle_ok c F cmd :
  ctrl_inv c F (hand_of cmd) ->
  exists c1, settle config c cmd = Ok c1 /\ ctrl_inv c1 F [] /\ ids c1 ≡ₚ ids c /\
    clk_ c1 = clk_ c /\ cmd_queue_ c1 = cmd_queue_ c /\ channel_state_ c1 = channel_state_ c.
Proof.
  unfold settle.
  intros Hc. destruct Hc as [C1 C2 C3 C4 C5 C6 C7]. unfold hand_of, IsReadWrite in C7.
  destruct (IsRead cmd) eqn:Hr; [|destruct (IsWrite cmd) eqn:Hw]; simpl in C7.
  - assert (IsWrite cmd = false) as Hw.
    { unfold IsRead, IsWrite in *. by destruct (cmd_type cmd). }
    destruct (books_issue_read _ _ _ _ _ Hr Hw C7) as [Hin Hb].
    apply mm_count_pos in Hin. cbv zeta. destruct (Z.eqb_spec (mm_count (hex_addr cmd) (pending_rd_q_ c)) 0);
      [lia|]. rewrite return_reads_spec. eexists. split; [done|].
    split; [by split|]. split; [|done]. unfold ids. simpl.
    rewrite !fmap_app, id_set_complete.
    trans ((id_of <$> (filter (fun e => fst e <> hex_addr cmd) (pending_rd_q_ c)
      ++ filter (fun e => fst e = hex_addr cmd) (pending_rd_q_ c)).*2) ++ (id_of <$> return_queue_ c)).
    + rewrite !fmap_app. solve_Permutation.
    + by rewrite filter_split.
  - destruct (books_issue_write _ _ _ _ _ Hr Hw C7) as [Hin Hb].
    destruct (mm_find_erase _ _ Hin) as (t & -> & _). cbv zeta. eexists. split; [done|].
    split; [|done]. inv_fields.
  - exists c. done.
Qed.

(** Issuing a ready command succeeds: an access finds its pending requests, the channel accepts
    the command, and no request is lost. *)
Lemma IssueCommand_ok c F cmd :
  ctrl_inv c F (hand_of cmd) -> ready config (channel_state_ c) F (clk_ c) cmd ->
  cmd_type cmd <> SREF_ENTER ->
  exists c', IssueCommand config timing c cmd = Ok c' /\
    ctrl_inv c' (issued timing F cmd (clk_ c)) [] /\ ids c' ≡ₚ ids c /\
    clk_ c' = clk_ c /\ cmd_queue_ c' = cmd_queue_ c.
Proof.
  intros Hc Hrd Hse. pose proof (rd_valid _ _ _ _ _ Hrd) as Hv.
  pose proof (rd_target _ _ _ _ _ Hrd) as Ht.
  assert (exists c1, settle config c cmd = Ok c1 /\ ctrl_inv c1 F [] /\ ids c1 ≡ₚ ids c /\
    clk_ c1 = clk_ c /\ cmd_queue_ c1 = cmd_queue_ c /\ channel_state_ c1 = channel_state_ c)
    as (c1 & E1 & Hc1 & Hids & Eclk & Eq & Ech); [by apply settle_ok|].
  unfold IssueCommand. rewrite E1. cbn [mbind res_bind].
  destruct (UpdateCommandStats_ok c1 F [] cmd Hc1 Ht Hv) as (st & -> & Hst). cbn [mbind res_bind].
  destruct (issue_ok config timing (so_timing _ _ system) (channel_state_ c) F (clk_ c) cmd
    (ci_chan _ _ _ Hc) Hrd) as (s' & Es & Hs' & _).
  cbn [with_stats channel_state_ clk_]. rewrite Ech, Eclk, Es. cbn [mbind res_bind].
  eexists. split; [done|]. split; [|split_and!; try done].
  destruct Hc1 as [D1 D2 D3 D4 D5 D6 D7]. split; try done.
  intros x Hx. unfold issued. rewrite (proj1 (delay_same _ _ _)).
  destruct (affected cmd x) eqn:Ha; [|by apply D2].
  destruct (rd_step _ _ _ _ _ Hrd x Hx Ha) as [(y & Ey & _) _]. unfold upd. rewrite Ey.
  rewrite (upd_sref _ _ _ Ey). destruct (cmd_type cmd) eqn:Ect; simpl; try (by apply D2); try done; tauto.
Qed.

(** ** Selecting and issuing *)

(** Taking a command from the queues. *)
Lemma take_ok c F :
  ctrl_inv c F [] ->
  exists cmd q st, GetCommandToIssue config (cmd_queue_ c) (channel_state_ c) (simple_stats_ c)
      = Ok (cmd, q, st) /\
    ctrl_inv (with_stats (with_queue c q) st) F (hand_of cmd) /\
    (IsValid cmd = true ->
       ready config (channel_state_ c) F (clk_ c) cmd /\ cmd_type cmd <> SREF_ENTER).
Proof.
  intros Hc. destruct (GetCommandToIssue_ok config (so_banks _ _ system) (so_groups _ _ system)
    (so_group _ _ system) (so_ranks _ _ system) _ F (ci_chan _ _ _ Hc) (cmd_queue_ c)
    (simple_stats_ c) (ci_queue _ _ _ Hc)) as (cmd & q & st & E & Hq & Hsel).
  exists cmd, q, st. split; [done|]. destruct Hsel as (Hv & Hk & Eq & _).
  rewrite (ci_clk _ _ _ Hc) in Hv. split; [|done].
  apply GetCommandToIssue_vec in E. destruct Hc as [C1 C2 C3 C4 C5 C6 C7].
  split; try done; simpl.
  - by rewrite Eq.
  - by eapply stats_ok_vec.
  - eapply books_perm; [done| |exact C7]. unfold cmds_of, hand_of. simpl.
    destruct (IsReadWrite cmd); [by rewrite Hk|by rewrite Hk].
Qed.

Lemma next_command_ok c F :
  ctrl_inv c F [] ->
  exists cmd c', next_command config c = Ok (cmd, c') /\ ctrl_inv c' F (hand_of cmd) /\
    (IsValid cmd = true ->
       ready config (channel_state_ c') F (clk_ c') cmd /\ cmd_type cmd <> SREF_ENTER) /\
    ids c' = ids c /\ clk_ c' = clk_ c.
Proof.
  intros Hc. unfold next_command.
  assert (exists cmd c1, (if IsRefreshWaiting (channel_state_ c) then
       '(cmd, q) ← FinishRefresh config (cmd_queue_ c) (channel_state_ c); Ok (cmd, with_queue c q)
     else Ok (noCommand, c)) = Ok (cmd, c1) /\ ctrl_inv c1 F [] /\ IsReadWrite cmd = false /\
    (IsValid cmd = true ->
       ready config (channel_state_ c1) F (clk_ c1) cmd /\ cmd_type cmd <> SREF_ENTER) /\
    ids c1 = ids c /\ clk_ c1 = clk_ c) as (cmd & c1 & -> & Hc1 & Hrw & Hv & Ei & Ek).
  { destruct (IsRefreshWaiting (channel_state_ c)) eqn:Hw; [|by exists noCommand, c].
    destruct (FinishRefresh_ok config (so_banks _ _ system) (so_groups _ _ system)
      (so_group _ _ system) _ F (ci_chan _ _ _ Hc) _ (ci_queue _ _ _ Hc) Hw
      (ci_awake _ _ _ Hc)) as (cmd & q & -> & Hq & E1 & E2 & E3 & Hv).
    cbn [mbind res_bind]. eexists _, _. split; [done|]. pose proof (ci_clk _ _ _ Hc) as Eclk.
    split; [|split; [|split; [|done]]].
    - destruct Hc as [C1 C2 C3 C4 C5 C6 C7]. split; try done; simpl; [congruence|].
      unfold cmds_of in *. simpl. by rewrite E1.
    - destruct (IsValid cmd) eqn:E; [by apply Hv|].
      unfold IsValid, IsReadWrite, IsRead, IsWrite in *. by destruct (cmd_type cmd).
    - intros E. rewrite Eclk in Hv. by destruct (Hv E) as (? & _ & ?). }
  cbn [mbind res_bind]. destruct (IsValid cmd) eqn:E; cbn [negb].
  - exists cmd, c1. split; [done|]. unfold hand_of. rewrite Hrw. auto.
  - destruct (take_ok c1 F Hc1) as (cmd2 & q & st & -> & Hc2 & Hv2). cbn [mbind res_bind].
    eexists _, _. split; [done|]. done.
Qed.

(** Two accesses are never ready in the same cycle. *)
Lemma one_access c F cmd cmd2 s :
  enable_hbm_dual_cmd config = true -> 0 <= clk_ c -> clk_ c + 2 ^ 31 < 2 ^ 64 ->
  chan_ok config (channel_state_ c) F -> ready config (channel_state_ c) F (clk_ c) cmd ->
  ready config s (issued timing F cmd (clk_ c)) (clk_ c) cmd2 ->
  IsReadWrite cmd = true -> IsReadWrite cmd2 = true -> False.
Proof.
  intros Hd Hlo Hhi HF H1 H2 E1 E2.
  assert (is_access (cmd_type cmd2) = true) as Ea.
  { unfold IsReadWrite, IsRead, IsWrite in E2. by destruct (cmd_type cmd2). }
  assert (IsRankCMD cmd2 = false) as Er by (unfold IsRankCMD; by destruct (cmd_type cmd2)).
  pose proof (rd_target _ _ _ _ _ H2) as Ht. unfold target_ok in Ht. rewrite Er in Ht.
  set (x := (Rank cmd2, Bankgroup cmd2, Bank cmd2)) in *.
  assert (affected cmd2 x = true) as Hax.
  { unfold affected. rewrite Er. unfold is_same_bank, x. by apply bool_decide_eq_true. }
  assert (checked cmd2 x = true) as Hch.
  { unfold checked, ct_eqb. rewrite bool_decide_eq_false_2; [done|]. by destruct (cmd_type cmd2). }
  destruct (so_dual _ _ system Hd cmd x (cmd_type cmd2) E1 (rd_target _ _ _ _ _ H1) Ht Ea) as [[Ha Hp]|(d & Hin & Hdr)].
  - destruct (rd_step _ _ _ _ _ H1 x Ht Ha) as [_ Hs].
    destruct (rd_step _ _ _ _ _ H2 x Ht Hax) as [_ Hs2]. rewrite issued_abstract, Ha in Hs2.
    assert (abstract (upd (F x) cmd) = Idle) as Ei.
    { destruct (cmd_type cmd) eqn:Ec; try (by destruct Hp);
        inversion Hs; subst; unfold IsRefresh in *; rewrite ?Ec in *; naive_solver. }
    rewrite Ei in Hs2. unfold is_access in Ea.
    inversion Hs2 as [c0 Hc| | | |c0 Hc|c0 Hc| ]; subst; try (unfold IsRefresh in Hc);
      destruct (cmd_type cmd2); done.
  - destruct (issued_timing config timing (so_timing _ _ system) _ F (clk_ c) cmd x (cmd_type cmd2)
      HF H1 Ht) as [_ Hb]. specialize (Hb d Hin).
    pose proof (rd_time _ _ _ _ _ H2 x Ht Hch). unfold u64 in Hb. rewrite Z.mod_small in Hb; lia.
Qed.

(** The issue of up to two commands in a cycle. *)
Lemma issue_phase_ok c F :
  ctrl_inv c F [] -> 0 <= clk_ c -> clk_ c + 2 ^ 31 < 2 ^ 64 ->
  exists b c' F', issue_phase config timing c = Ok (b, c') /\ ctrl_inv c' F' [] /\ ids c' ≡ₚ ids c /\ clk_ c' = clk_ c.
Proof.
  intros Hc Hlo Hhi. unfold issue_phase.
  destruct (next_command_ok c F Hc) as (cmd & c1 & -> & Hc1 & Hv & Ei & Ek). cbn [mbind res_bind].
  destruct (IsValid cmd) eqn:Ev; cycle 1.
  { exists false, c1, F. split; [done|]. rewrite Ei. split; [|done].
    unfold hand_of, IsReadWrite, IsRead, IsWrite, IsValid in *. by destruct (cmd_type cmd). }
  destruct (Hv eq_refl) as [Hrd Hse].
  destruct (IssueCommand_ok c1 F cmd Hc1 Hrd Hse) as (c2 & -> & Hc2 & Ei2 & Ek2 & _).
  cbn [mbind res_bind]. unfold second_command.
  destruct (enable_hbm_dual_cmd config) eqn:Hdual; cbn [mbind res_bind]; cycle 1.
  { exists true, c2, (issued timing F cmd (clk_ c1)). rewrite Ei2, Ei, Ek2. done. }
  destruct (take_ok c2 _ Hc2) as (cmd2 & q & st & -> & Hc3 & Hv2). cbn [mbind res_bind].
  assert (ids (with_stats (with_queue c2 q) st) ≡ₚ ids c) as Ei3 by (rewrite <-Ei, <-Ei2; done).
  destruct (IsValid cmd2) eqn:Ev2; cbn [mbind res_bind]; cycle 1.
  { exists true, (with_stats (with_queue c2 q) st), (issued timing F cmd (clk_ c1)).
    split; [done|]. split; [|split; [done|simpl; congruence]].
    unfold hand_of, IsReadWrite, IsRead, IsWrite, IsValid in Hc3, Ev2. by destruct (cmd_type cmd2). }
  destruct (Hv2 eq_refl) as [Hrd2 Hse2].
  destruct (Bool.eqb (IsReadWrite cmd2) (IsReadWrite cmd)) eqn:Eb; cbn [negb mbind res_bind].
  - exists true, (with_stats (with_queue c2 q) st), (issued timing F cmd (clk_ c1)).
    split; [done|]. split; [|split; [done|simpl; congruence]].
    apply eqb_prop in Eb. unfold hand_of in Hc3. destruct (IsReadWrite cmd2) eqn:E2; [|done].
    rewrite Ek2 in Hrd2. exfalso.
    apply (one_access c1 F cmd cmd2 (channel_state_ c2)); try done; try lia. apply Hc1.
  - destruct (IssueCommand_ok _ _ cmd2 Hc3 Hrd2 Hse2) as (c4 & -> & Hc4 & Ei4 & Ek4 & _).
    cbn [mbind res_bind]. eexists true, _, _. split; [done|].
    split; [|split; [by rewrite <-Ei3, <-Ei4|simpl; simpl in Ek4; congruence]].
    apply ctrl_inv_stats; [exact Hc4|]. eapply stats_ok_vec; [|apply Hc4]. done.
Qed.

(** ** Idle cycles *)

Lemma IncrementVec_ok st name i :
  stats_ok st -> name ∈ vec_names -> 0 <= i < ranks config ->
  exists st', IncrementVec st name i = Ok st' /\ stats_ok st'.
Proof.
  intros [Hst Hwf] Hn Hi. destruct (Hst name Hn) as (v & Ev & Hl).
  assert (forall st', IncrementVec st name i = Ok st' -> stats_wf st') as Hwf'
    by (intros st'; by apply IncrementVec_wf).
  unfold IncrementVec, IncrementVecBy in *. rewrite Ev in *. simpl in *.
  destruct (vget_in_range v i) as [x Hx]; [lia|].
  destruct (vmod_Ok v i x (u64 (x + 1)) (fun x => Ok (u64 (x + 1))) Hx eq_refl) as (v' & E & Es).
  rewrite E in *. simpl in *. eexists. split; [done|]. split; [|by apply Hwf']. intros n Hn'. simpl.
  destruct (decide (n = name)) as [->|].
  - rewrite lookup_insert_eq. eexists. split; [done|]. apply vset_inv in Es as [_ ->].
    by rewrite length_insert.
  - rewrite lookup_insert_ne by done. by apply Hst.
Qed.

Lemma count_rank_ok c F name i :
  ctrl_inv c F [] -> name ∈ vec_names -> 0 <= i < ranks config ->
  exists st, count_rank c name i = Ok (with_stats c st) /\ ctrl_inv (with_stats c st) F [].
Proof.
  intros Hc Hn Hi. destruct (IncrementVec_ok _ _ _ (ci_stats _ _ _ Hc) Hn Hi) as (st & E & Hst).
  exists st. unfold count_rank. rewrite E. split; [done|by apply ctrl_inv_stats].
Qed.

Lemma IsAllBankIdleInRank_ok s F r :
  chan_ok config s F -> 0 <= r < ranks config -> exists b, IsAllBankIdleInRank config s r = Ok b.
Proof.
  intros HF Hr. unfold IsAllBankIdleInRank.
  set (body := fun '((j, k) : Z * Z) (_ : unit) => _).
  assert (forall L, (forall p, p ∈ L -> p ∈ rank_banks config) -> exists res : bool + unit,
    forR L body tt = Ok res) as Hl.
  { induction L as [|[j k] L IH]; intros HL; [by eexists|]. cbn [forR].
    assert ((j, k) ∈ rank_banks config) as Hin by (apply HL; apply elem_of_cons; by left).
    apply elem_of_rank_banks in Hin.
    assert (bank_at (bank_states_ s) r j k = Ok (F (r, j, k))) as Eb
      by (apply (bank_at_ok config s F HF); simpl; lia).
    assert (body (j, k) tt = Ok (if BankState.IsRowOpen (F (r, j, k)) then inl false else inr tt)) as ->.
    { unfold body, ChannelState.IsRowOpen. rewrite Eb. simpl. by destruct (BankState.IsRowOpen _). }
    cbn [mbind res_bind].
    destruct (BankState.IsRowOpen _); [by eexists|]. apply IH. intros p Hp. apply HL.
    apply elem_of_cons. by right. }
  destruct (Hl (rank_banks config)) as [[b|[]] ->]; [done|by exists b|by exists true].
Qed.

Lemma ctrl_inv_idle c F v :
  ctrl_inv c F [] -> Z.of_nat (length v) = ranks config ->
  ctrl_inv (with_channel c (set_idle (channel_state_ c) v)) F [].
Proof. intros [[] ? ? ? ? ? ?] Hv. by split. Qed.

Lemma count_idle_ok c F :
  ctrl_inv c F [] ->
  exists c', count_idle config c = Ok c' /\ ctrl_inv c' F [] /\ ids c' = ids c /\ clk_ c' = clk_ c.
Proof.
  intros Hc. unfold count_idle.
  apply (forM_inv (fun c' => ctrl_inv c' F [] /\ ids c' = ids c /\ clk_ c' = clk_ c)); [|done].
  intros i c1 Hi%elem_of_seqZ (Hc1 & E1 & E2). pose proof (ci_chan _ _ _ Hc1) as Hch.
  assert (0 <= i < ranks config) as Hi' by lia.
  destruct (vget_in_range (rank_is_sref_ (channel_state_ c1)) i) as [sref Es];
    [rewrite (ch_sref_len _ _ _ Hch); lia|].
  unfold IsRankSelfRefreshing. rewrite Es. cbn [mbind res_bind].
  assert (forall name, name ∈ vec_names -> exists st, count_rank c1 name i = Ok (with_stats c1 st) /\
    ctrl_inv (with_stats c1 st) F []) as Hk by (intros; by apply count_rank_ok).
  destruct sref.
  { destruct (Hk "sref_cycles") as (st & -> & Hst); [by repeat constructor|]. eauto. }
  destruct (IsAllBankIdleInRank_ok _ F i Hch Hi') as [b ->]. cbn [mbind res_bind].
  assert (forall name y, name ∈ vec_names -> exists st v, count_rank c1 name i = Ok (with_stats c1 st) /\
    vset (rank_idle_cycles (channel_state_ c1)) i y = Ok v /\
    ctrl_inv (with_channel (with_stats c1 st) (set_idle (channel_state_ c1) v)) F []) as Hset.
  { intros name y Hn. destruct (Hk name Hn) as (st & E & Hst).
    exists st, (<[Z.to_nat i := y]> (rank_idle_cycles (channel_state_ c1))). split; [done|].
    split; [apply vset_Ok; rewrite (ch_idle_len _ _ _ Hch); lia|].
    apply (ctrl_inv_idle _ _ _ Hst). rewrite length_insert. apply Hch. }
  destruct b.
  - destruct (vget_in_range (rank_idle_cycles (channel_state_ c1)) i) as [n En];
      [rewrite (ch_idle_len _ _ _ Hch); lia|].
    destruct (Hset "all_bank_idle_cycles" (s32 (n + 1))) as (st & v & -> & Ev & Hinv);
      [by repeat constructor|]. cbn [mbind res_bind with_stats channel_state_].
    unfold vmod. rewrite En. cbn [mbind res_bind]. rewrite Ev. cbn [mbind res_bind]. eauto.
  - destruct (Hset "rank_active_cycles" 0) as (st & v & -> & Ev & Hinv);
      [by repeat constructor|]. cbn [mbind res_bind with_stats channel_state_].
    rewrite Ev. cbn [mbind res_bind]. eauto.
Qed.

(** ** Scheduling *)

Lemma TransToCommand_kind t :
  hex_addr (TransToCommand config t) = t_addr t /\
  IsRead (TransToCommand config t) = negb (is_write t) /\
  IsWrite (TransToCommand config t) = is_write t.
Proof.
  unfold TransToCommand, IsRead, IsWrite. simpl.
  by destruct (row_buf_policy_ config), (is_write t).
Qed.

Lemma TransToCommand_ok t : waiting_ok config (TransToCommand config t).
Proof.
  destruct (so_mapping _ _ system (t_addr t)) as [(Hr & Hg & Hb) Hrow]. split; [|done].
  unfold access_ok, Rank, Bankgroup, Bank, Row, TransToCommand. simpl.
  rewrite !andb_true_iff, !Z.leb_le, !Z.ltb_lt. split_and!; try tauto.
  by destruct (row_buf_policy_ config), (is_write t).
Qed.

(** The loop moves at most one transaction, to the queue of its bank. *)
Lemma schedule_ok c F prev queue :
  ctrl_inv c F [] ->
  exists l q d, schedule config c prev queue = Ok (l, q, d) /\ cq_ok config q /\
    queue_clk_ q = queue_clk_ (cmd_queue_ c) /\
    ((l = prev ++ queue /\ q = cmd_queue_ c) \/
     exists it, prev ++ queue ≡ₚ it :: l /\
       concat (queues_ q) ≡ₚ TransToCommand config it :: cmds_of c).
Proof.
  intros Hc. revert prev. induction queue as [|it rest IH]; intros prev; cbn [schedule].
  { eexists _, _, _. split; [done|]. split; [apply Hc|]. split; [done|]. left. by rewrite app_nil_r. }
  destruct (AddCommand_spec config (so_banks _ _ system) (so_groups _ _ system) (so_group _ _ system)
    (cmd_queue_ c) (TransToCommand config it) (ci_queue _ _ _ Hc) (TransToCommand_ok it))
    as (acc & q & -> & Ea & Hq & Hp & Eclk & _). cbn [mbind res_bind].
  destruct acc; cycle 1.
  { destruct (IH (prev ++ [it])) as (l & q' & d & -> & Hq' & E' & H'). eexists _, _, _.
    split; [done|]. rewrite (cons_middle it), app_assoc. done. }
  rewrite Ea. cbn [mbind res_bind].
  assert (exists it0, prev ++ it :: rest ≡ₚ it0 :: prev ++ rest /\
    concat (queues_ q) ≡ₚ TransToCommand config it0 :: cmds_of c) as Hmoved.
  { exists it. split; [by rewrite Permutation_middle|done]. }
  destruct (negb (unified_queue config) && IsWrite (TransToCommand config it)).
  - destruct (0 <? mm_count (t_addr it) (pending_rd_q_ c)).
    + eexists _, _, _. split; [done|]. split; [apply Hc|]. split; [done|]. by left.
    + eexists _, _, _. split; [done|]. split; [done|]. split; [done|]. by right.
  - eexists _, _, _. split; [done|]. split; [done|]. split; [done|]. by right.
Qed.

Lemma start_draining_ok c F : ctrl_inv c F [] -> ctrl_inv (start_draining config c) F [] /\
  ids (start_draining config c) = ids c /\ clk_ (start_draining config c) = clk_ c.
Proof.
  intros Hc. unfold start_draining. destruct (_ && negb _); [|done].
  destruct (_ || _); [|done]. split; [|done]. by destruct Hc.
Qed.

Lemma ScheduleTransaction_ok c F :
  ctrl_inv c F [] ->
  exists c', ScheduleTransaction config c = Ok c' /\ ctrl_inv c' F [] /\ ids c' = ids c /\
    clk_ c' = clk_ c.
Proof.
  intros Hc0. unfold ScheduleTransaction. destruct (start_draining_ok c F Hc0) as (Hc & <- & <-).
  generalize dependent (start_draining config c). intros c1 Hc. clear c Hc0. rename c1 into c.
  cbv zeta. set (queue := if unified_queue config then _ else _).
  destruct (schedule_ok c F [] (elems queue) Hc) as (l & q & d & -> & Hq & Eclk & Hl).
  cbn [mbind res_bind app] in *.
  assert (exists rest, trans_of c ≡ₚ elems queue ++ rest /\
    trans_of (if unified_queue config then with_unified (with_draining (with_queue c q) d)
                (mkVec l (capacity queue))
      else if 0 <? write_draining_ c then with_writes (with_draining (with_queue c q) d)
                (mkVec l (capacity queue))
      else with_reads (with_draining (with_queue c q) d) (mkVec l (capacity queue)))
    ≡ₚ l ++ rest) as (rest & Et & Et').
  { unfold queue, trans_of. destruct (unified_queue config); [|destruct (0 <? write_draining_ c)]; simpl.
    - by eexists.
    - exists (elems (unified_queue_ c) ++ elems (read_queue_ c)).
      split; rewrite (app_assoc (elems (unified_queue_ c))); apply Permutation_app_comm.
    - exists (elems (unified_queue_ c) ++ elems (write_buffer_ c)). split; solve_Permutation. }
  eexists. split; [done|]. split; [|by destruct (unified_queue config), (0 <? write_draining_ c)].
  assert (books (l ++ rest) (concat (queues_ q)) (pending_rd_q_ c) (pending_wr_q_ c)) as Hb.
  { destruct Hl as [[-> ->]|(it & Hp & Hk)].
    - eapply books_perm; [exact Et|done|]. apply Hc.
    - destruct (TransToCommand_kind it) as (E1 & E2 & E3).
      eapply books_perm; [reflexivity|by symmetry|]. eapply books_schedule; [done..|].
      apply (books_perm (trans_of c) _ (cmds_of c) _); [by rewrite Et, Hp|done|apply Hc]. }
  apply (books_perm _ _ _ _ _ _ (Permutation_sym Et') (Permutation_refl _)) in Hb. clear Et Et' Hl.
  destruct Hc as [C1 C2 C3 C4 C5 C6 C7].
  destruct (unified_queue config), (0 <? write_draining_ c); split; try done; simpl; congruence.
Qed.

(** ** The operations of a controller *)

(** A cycle never stops the program and loses no request. *)
Lemma ClockTick_ok c F :
  ctrl_inv c F [] -> 0 <= clk_ c -> clk_ c + 2 ^ 31 < 2 ^ 64 ->
  exists c' F', ClockTick config timing c = Ok c' /\ ctrl_inv c' F' [] /\ ids c' ≡ₚ ids c /\
    clk_ c' = clk_ c + 1.
Proof.
  intros Hc Hlo Hhi. unfold ClockTick.
  destruct (refresh_ClockTick_ok config (so_ranks _ _ system) (so_groups _ _ system)
    (so_group _ _ system) (refresh_ c) _ F (ci_chan _ _ _ Hc) (ci_refresh _ _ _ Hc))
    as (f & s & -> & Hf & Heff). cbn [mbind res_bind].
  assert (ctrl_inv (with_channel (with_refresh c f) s) F []) as Hc1.
  { pose proof (ci_chan _ _ _ Hc) as Hch. destruct Hc as [C1 C2 C3 C4 C5 C6 C7]. split; try done. simpl.
    destruct Heff; [done|]. by apply chan_ok_refresh. }
  destruct (issue_phase_ok _ F Hc1) as (b & c2 & F' & -> & Hc2 & Ei2 & Ek2); [done..|].
  cbn [mbind res_bind]. destruct (count_idle_ok c2 F' Hc2) as (c3 & -> & Hc3 & Ei3 & Ek3).
  cbn [mbind res_bind]. rewrite (so_awake _ _ system). cbn [andb mbind res_bind].
  destruct (ScheduleTransaction_ok c3 F' Hc3) as (c4 & -> & Hc4 & Ei4 & Ek4). cbn [mbind res_bind].
  assert (clk_ c4 = clk_ c) as Ek by (simpl in Ek2; congruence).
  eexists _, F'. split; [done|]. split; [|split].
  - destruct Hc4 as [C1 C2 C3 C4 C5 C6 C7]. inv_fields; simpl; [|by rewrite C4].
    by destruct C3; split.
  - change (ids c4 ≡ₚ ids c). by rewrite Ei4, Ei3, Ei2.
  - simpl. rewrite Ek. unfold u64. by apply Z.mod_small; lia.
Qed.

(** A transaction is accepted whatever the queues hold. *)
Lemma AddTransaction_ok c F t :
  ctrl_inv c F [] ->
  ctrl_inv (AddTransaction config c t) F [] /\
  ids (AddTransaction config c t) ≡ₚ id_of t :: ids c /\
  clk_ (AddTransaction config c t) = clk_ c.
Proof.
  intros Hc. unfold AddTransaction. cbv zeta.
  set (t' := set_added t (clk_ c)). assert (id_of t' = id_of t) as Et by done.
  set (c0 := with_last _ _).
  assert (ctrl_inv c0 F []) as Hc0 by (destruct Hc; inv_fields).
  change (clk_ c) with (clk_ c0). change (ids c) with (ids c0).
  rewrite <-Et. clearbody c0 t'. clear c Hc t Et.
  pose proof (ci_books _ _ _ Hc0) as Hb. destruct Hc0 as [C1 C2 C3 C4 C5 C6 _].
  destruct (is_write t') eqn:Ew.
  - destruct (Z.eqb_spec (mm_count (t_addr t') (pending_wr_q_ c0)) 0) as [En|En].
    + apply mm_count_zero in En.
      destruct (unified_queue config); (split; [|split; [|done]]).
      all: try (unfold ids; simpl; rewrite app_assoc, fmap_app; simpl; solve_Permutation).
      all: split; try done; simpl; unfold trans_of, cmds_of; simpl.
      all: eapply books_perm; [|reflexivity|apply (books_add_write _ _ _ _ _ Ew En Hb)].
      all: unfold trans_of; solve_Permutation.
    + split; [by split|split; [|done]]. unfold ids. simpl. rewrite app_assoc, fmap_app. simpl.
      solve_Permutation.
  - destruct (Z.ltb_spec 0 (mm_count (t_addr t') (pending_wr_q_ c0))) as [Hp|Hp].
    + split; [by split|split; [|done]]. unfold ids. simpl. rewrite app_assoc, fmap_app. simpl.
      solve_Permutation.
    + pose proof (books_add_read _ _ _ _ _ Ew Hb) as Hb'.
      assert (mm_count (t_addr t') (pending_rd_q_ c0 ++ [(t_addr t', t')]) =
        mm_count (t_addr t') (pending_rd_q_ c0) + 1) as Ecnt.
      { unfold mm_count. rewrite filter_app, length_app. simpl. rewrite filter_cons. simpl.
        rewrite decide_True by done. simpl. lia. }
      cbn [with_pending pending_rd_q_]. rewrite Ecnt.
      destruct (decide (t_addr t' ∈ (pending_rd_q_ c0).*1)) as [Hin|Hin].
      * apply mm_count_pos in Hin. destruct (Z.eqb_spec (mm_count (t_addr t') (pending_rd_q_ c0) + 1) 1);
          [lia|]. split; [by split|split; [|done]].
        unfold ids. simpl. rewrite !fmap_app. simpl. solve_Permutation.
      * apply mm_count_zero in Hin. rewrite Hin. simpl.
        destruct (unified_queue config); (split; [|split; [|done]]).
        all: try (unfold ids; simpl; rewrite !fmap_app; simpl; solve_Permutation).
        all: split; try done; simpl; unfold trans_of, cmds_of; simpl.
        all: eapply books_perm; [|reflexivity|exact Hb'].
        all: unfold trans_of; solve_Permutation.
Qed.

Lemma take_done_spec clk l t rest :
  take_done clk l = Some (t, rest) -> l ≡ₚ t :: rest /\ complete_cycle t <= clk.
Proof.
  revert t rest. induction l as [|x l IH]; intros t rest; simpl; [done|].
  destruct (Z.leb_spec (complete_cycle x) clk); [by intros [= <- <-]|].
  destruct (take_done clk l) as [[d r]|]; simpl; [|done]. intros [= <- <-].
  destruct (IH d r eq_refl) as [-> ?]. split; [apply Permutation_swap|done].
Qed.

(** An answer takes one of the accepted requests away. *)
Lemma ReturnDoneTrans_ok c F clk :
  ctrl_inv c F [] ->
  let '(out, c') := ReturnDoneTrans c clk in
  ctrl_inv c' F [] /\ ids c ≡ₚ match out with Some a => [a] | None => [] end ++ ids c' /\
  clk_ c' = clk_ c.
Proof.
  intros Hc. unfold ReturnDoneTrans. destruct (take_done clk (return_queue_ c)) as [[t rest]|] eqn:E; [|done].
  apply take_done_spec in E as [Hp _]. destruct Hc as [C1 C2 C3 C4 C5 C6 C7].
  assert (ids c ≡ₚ (t_addr t, is_write t) :: (id_of <$> (pending_rd_q_ c).*2 ++ rest)) as Hids.
  { unfold ids. rewrite Hp, !fmap_app. simpl. solve_Permutation. }
  destruct (is_write t); (split; [inv_fields|done]).
Qed.

(** The end of an epoch only touches the statistics. *)
Lemma PrintEpochStats_ok c F :
  ctrl_inv c F [] ->
  exists c', PrintEpochStats c = Ok c' /\ ctrl_inv c' F [] /\ ids c' = ids c /\ clk_ c' = clk_ c.
Proof.
  intros Hc. unfold PrintEpochStats. cbn [count_stat with_stats simple_stats_].
  pose proof (stats_ok_count _ "epoch_num" (ci_stats _ _ _ Hc)) as [Hr Hwf].
  destruct (UpdateEpochStats_ok _ Hwf) as (st & -> & Hwf' & _ & Hvec & _). cbn [mbind res_bind].
  eexists. split; [done|]. split; [|done]. apply ctrl_inv_stats; [by apply ctrl_inv_stats|].
  split; [|done]. intros name Hn. destruct (Hr name Hn) as (v & Ev & Hl).
  destruct (sw_vec _ Hwf name v Ev) as (w & Ew & _). destruct (Hvec name v w Ev Ew) as [_ E].
  eexists. split; [exact E|]. by rewrite length_replicate.
Qed.

(** A new controller: its refresh interval must not be zero, since [Refresh::ClockTick] divides
    by it. *)
Lemma newSimpleStats_ok : stats_ok (newSimpleStats config).
Proof.
  pose proof (so_ranks _ _ system). split; [|apply newSimpleStats_wf]. intros name Hn.
  exists (replicate (Z.to_nat (ranks config)) 0). rewrite length_replicate. split; [|lia].
  rewrite list_elem_of_In in Hn. destruct Hn as [<-|[<-|[<-|[]]]]; reflexivity.
Qed.

Lemma newController_ok c :
  newController config = Ok c -> u64 (refresh_interval_ (refresh_ c)) <> 0 ->
  ctrl_inv c (fun _ => newBankState) [] /\ ids c = [] /\ clk_ c = 0.
Proof.
  destruct system as [Sb Sg Sk Sr _ _ _ _].
  unfold newController. intros H HI. run_ok H. rename x into q, x0 into f, E into Eq, E0 into Ef.
  destruct (trans_queue_size config <? 0); [done|]. injection H as <-. simpl in HI.
  split; [|done]. split; simpl.
  - apply newChannelState_ok; lia.
  - done.
  - by eapply newCommandQueue_ok.
  - unfold newCommandQueue in Eq. run_ok Eq. destruct x as [st n]. by injection Eq as <-.
  - by apply newRefresh_wf.
  - apply newSimpleStats_ok.
  - assert (concat (queues_ q) = []) as E.
    { unfold newCommandQueue in Eq. run_ok Eq. destruct x as [st n]. injection Eq as <-. simpl.
      induction (Z.to_nat n); done. }
    unfold trans_of, cmds_of. simpl. rewrite E.
    destruct (unified_queue config); (split; simpl; try done; constructor).
Qed.
End invariant.

(** ** The HBM configuration of the unit tests *)

(** Every access keeps every other access of the rank off the next cycle. *)
Definition keeps_off (c u : CommandType) (l : list (CommandType * Z)) : bool :=
  existsb (fun e => ct_eqb (fst e) u && (1 <=? snd e) && (snd e <? 2 ^ 31)) l.

Definition access_types : list CommandType := [READ; READ_PRECHARGE; WRITE; WRITE_PRECHARGE].

Lemma hbm1_gaps :
  forallb (fun c => forallb (fun u =>
    let e t := match entries t c with Ok l => l | _ => [] end in
    (ct_eqb c READ_PRECHARGE || ct_eqb c WRITE_PRECHARGE
     || keeps_off c u (e (same_bank (newTiming hbm1))))
    && keeps_off c u (e (other_banks_same_bankgroup (newTiming hbm1)))
    && keeps_off c u (e (other_bankgroups_same_rank (newTiming hbm1)))) access_types) access_types
  = true.
Proof. vm_compute. reflexivity. Qed.

Lemma hbm1_system : system_ok hbm1 (newTiming hbm1).
Proof.
  split; [reflexivity|done|done|done|apply newTiming_ok| |reflexivity|].
  - intros x. destruct (mapping_in_range hbm1_reader hbm1 hbm1_built hbm1_geometry x)
      as (_ & ? & ? & ? & ?). by split.
  - intros _ c [[r g] b] u Hc Ht Hx Hu.
    assert (forall l, keeps_off (cmd_type c) u l = true -> exists d, (u, d) ∈ l /\ 1 <= d < 2 ^ 31) as Hk.
    { intros l (e & He & H)%existsb_exists. rewrite !andb_true_iff, Z.leb_le, Z.ltb_lt in H.
      destruct H as [[H0%ct_eqb_true H1] H2]. exists (snd e). split; [|done].
      apply list_elem_of_In. destruct e; simpl in *. by subst. }
    assert (In (cmd_type c) access_types /\ In u access_types) as [Ic Iu].
    { unfold IsReadWrite, IsRead, IsWrite, access_types in *.
      destruct (cmd_type c); try done; destruct u; try done; simpl; tauto. }
    pose proof hbm1_gaps as Hg. rewrite forallb_forall in Hg. specialize (Hg _ Ic).
    rewrite forallb_forall in Hg. specialize (Hg _ Iu). cbv zeta in Hg.
    rewrite !andb_true_iff, !orb_true_iff in Hg. destruct Hg as [[Hg1 Hg2] Hg3].
    assert (IsRankCMD c = false) as Er.
    { unfold IsRankCMD, IsReadWrite, IsRead, IsWrite in *. by destruct (cmd_type c). }
    unfold affected, waits. unfold target_ok in Ht. rewrite Er in *.
    destruct (is_same_bank (addr c) (r, g, b)) eqn:E1.
    { destruct Hg1 as [[H%ct_eqb_true|H%ct_eqb_true]|H]; [left; auto..|right; auto]. }
    right. destruct (is_other_bank (addr c) (r, g, b)) eqn:E2; [auto|].
    destruct (is_other_group (addr c) (r, g, b)) eqn:E3; [auto|]. exfalso.
    change (ranks hbm1) with 1 in *. destruct Ht as [Ht _], Hx as [Hx _]. simpl in Ht, Hx.
    change (ranks hbm1) with 1 in *. unfold Rank in Ht.
    assert (r = rank (addr c)) as -> by lia.
    unfold is_same_bank, loc_eqb, is_other_bank, is_other_group in *.
    rewrite Z.eqb_refl in *. simpl in *. apply bool_decide_eq_false in E1.
    destruct (Z.eqb_spec g (bankgroup (addr c))); simpl in *; [|done].
    destruct (Z.eqb_spec b (bank (addr c))); simpl in *; [|done]. congruence.
Qed.

(** ** Self-refresh *)

(** The same device with self-refresh switched on, entered after one idle cycle. *)
Definition sref_config : Config :=
  mkConfig (let s := system hbm1 in
    mkSystem (requested_size s) (channels s) (bus_width s) (address_mapping s) (queue_structure s)
      (row_buf_policy s) (cmd_queue_size s) (trans_queue_size s) (unified_queue s)
      (write_buf_size s) (refresh_policy s) true 1 false)
    (dram hbm1) (DramConfig.size hbm1) (address hbm1) (timing_params hbm1) (epoch_period hbm1).

Fixpoint tick_times (n : nat) (config : Config) (timing : Timing) (c : Controller) : M Controller :=
  match n with
  | O => Ok c
  | S n => c ← ClockTick config timing c; tick_times n config timing c
  end.

(** A rank that sleeps stops the program when work arrives for it: the wake-up command is asked of
    a bank, and [BankState::GetReadyCommand] knows no SREF_EXIT request. *)
Lemma self_refresh_wakeup_stops :
  (c ← newController sref_config;
   c ← tick_times 3 sref_config (newTiming sref_config) c;
   let c := AddTransaction sref_config c (newTransaction 4096 false) in
   tick_times 2 sref_config (newTiming sref_config) c) = Err AbruptExit.
Proof. reflexivity. Qed.

(** ** Runs *)

Section runs.
Context (config : Config) (timing : Timing).

(** The states a controller goes through before its 64-bit clock comes near its end, with the
    requests it was given and the answers it has returned. *)
Inductive serves : Controller -> list (Z * bool) -> list (Z * bool) -> Prop :=
| serves_new c : newController config = Ok c -> serves c [] []
| serves_add c acc ans t :
    serves c acc ans -> WillAcceptTransaction config c (is_write t) = true ->
    serves (AddTransaction config c t) (id_of t :: acc) ans
| serves_tick c c' acc ans :
    serves c acc ans -> clk_ c + 2 ^ 31 < 2 ^ 64 -> ClockTick config timing c = Ok c' ->
    serves c' acc ans
| serves_return c c' acc ans clk out :
    serves c acc ans -> ReturnDoneTrans c clk = (Some out, c') -> serves c' acc (out :: ans).

(** [Refresh::ClockTick] divides by the refresh interval. *)
Definition interval_ok : Prop :=
  forall c, newController config = Ok c -> u64 (refresh_interval_ (refresh_ c)) <> 0.

Hypothesis system : system_ok config timing.
Hypothesis interval : interval_ok.

Lemma serves_inv c acc ans :
  serves c acc ans -> 0 <= clk_ c /\ exists F, ctrl_inv config c F [] /\ acc ≡ₚ ans ++ ids c.
Proof.
  induction 1 as [c E|c acc ans t _ (Hlo & F & Hc & Hp) Hw
    |c c' acc ans _ (Hlo & F & Hc & Hp) Hhi E|c c' acc ans clk out _ (Hlo & F & Hc & Hp) E].
  - destruct (newController_ok config timing system c E (interval c E)) as (Hc & Eids & Ek).
    rewrite Ek, Eids. split; [done|]. by exists (fun _ => newBankState).
  - destruct (AddTransaction_ok config c F t Hc) as (Hc' & Hi & ->). split; [done|].
    exists F. split; [done|]. rewrite Hi, Hp. by rewrite Permutation_middle.
  - destruct (ClockTick_ok config timing system c F Hc Hlo Hhi) as (c1 & F' & E1 & Hc' & Hi & Ek).
    rewrite E in E1. injection E1 as <-. split; [lia|]. exists F'. by rewrite Hi.
  - pose proof (ReturnDoneTrans_ok config c F clk Hc) as H. rewrite E in H.
    destruct H as (Hc' & Hi & ->). split; [done|]. exists F. split; [done|]. rewrite Hp, Hi. simpl.
    by rewrite Permutation_middle.
Qed.

(** C5: A controller never stops: in every state it reaches the next cycle succeeds, whatever
    the configuration, as long as self-refresh is off, the mapping stays inside the geometry and
    (when two commands can be issued per cycle) accesses keep a cycle apart.  In particular the
    checks of [IssueCommand] that a read or write is pending never fail.  No request is lost,
    invented or answered twice: those accepted are those answered and those still pending or
    about to be returned.  An address has at most one read and one write waiting, which serve
    all its pending requests. *)
Theorem controller_serves c acc ans :
  serves c acc ans ->
  (clk_ c + 2 ^ 31 < 2 ^ 64 -> exists c', ClockTick config timing c = Ok c') /\
  acc ≡ₚ ans ++ ids c /\
  NoDup (reads_of (trans_of c) (cmds_of c)) /\ NoDup (writes_of (trans_of c) (cmds_of c)) /\
  (forall a, a ∈ reads_of (trans_of c) (cmds_of c) <-> a ∈ (pending_rd_q_ c).*1) /\
  (forall a, a ∈ writes_of (trans_of c) (cmds_of c) <-> a ∈ (pending_wr_q_ c).*1).
Proof.
  intros H. destruct (serves_inv _ _ _ H) as (Hlo & F & Hc & Hp).
  destruct (ci_books _ _ _ _ Hc) as [B1 B2 B3 B4 _]. simpl in *. split_and!; try done.
  - intros Hhi. destruct (ClockTick_ok config timing system c F Hc Hlo Hhi) as (c' & _ & E & _). eauto.
  - by rewrite B4.
  - intros a. by rewrite B4.
Qed.
End runs.

(** The controller of the test configuration, and the same with a read accepted. *)
Lemma hbm1_new : exists c, newController hbm1 = Ok c /\
  u64 (refresh_interval_ (refresh_ c)) = 1950 /\ WillAcceptTransaction hbm1 c false = true /\
  clk_ (AddTransaction hbm1 c (newTransaction 4096 false)) = 0.
Proof. eexists. split; [reflexivity|]. split; [reflexivity|]. split; reflexivity. Qed.

Lemma hbm1_interval : interval_ok hbm1.
Proof.
  intros c E. destruct hbm1_new as (c' & E' & Hi & _). rewrite E in E'. injection E' as <-.
  by rewrite Hi.
Qed.

Lemma controller_serves_witness : exists c,
  newController hbm1 = Ok c /\
  exists c', ClockTick hbm1 (newTiming hbm1) (AddTransaction hbm1 c (newTransaction 4096 false)) = Ok c'.
Proof.
  destruct hbm1_new as (c & E & _ & Hw & Hk). exists c. split; [done|].
  refine (proj1 (controller_serves hbm1 (newTiming hbm1) hbm1_system hbm1_interval
    (AddTransaction hbm1 c (newTransaction 4096 false)) [(4096, false)] [] _) _).
  - by apply (serves_add _ _ _ [] [] (newTransaction 4096 false)); [constructor|].
  - by rewrite Hk.
Defined.

(** A read takes its way through the controller of the test configuration in 45 cycles. *)
Lemma one_read_answered :
  (c ← newController hbm1;
   let c := AddTransaction hbm1 c (newTransaction 4096 false) in
   c ← tick_times 45 hbm1 (newTiming hbm1) c;
   Ok (fst (ReturnDoneTrans c (clk_ c)))) = Ok (Some (4096, false)).
Proof. reflexivity. Qed.
