(* ===== verification/DramSystem.v ===== *)
(** * DRAM systems

    [DRAMSIM3/src/dram_system.h], [dram_system.cc] and [memory_system.cc]: the interface
    [BaseDRAMSystem], the system with one controller per channel that implements it, the ideal
    memory with a fixed latency, and the processor models of [cpu.h] and [cpu.cc] that drive any
    of them.  Callbacks are the list of requests a cycle answers; trace output, printing and the
    THERMAL build are left out. *)
From S2P Require Import Prelude DramCommon DramConfig DramTiming BankState ChannelState.
From S2P Require Import DramRefresh SimpleStats CommandQueue Controller.
From stdpp Require Import gmap.
Local Open Scope string_scope.
Local Open Scope list_scope.
Local Open Scope Z_scope.

(** ** The interface *)

(** The virtual methods of [BaseDRAMSystem].  A cycle also gives the calls of the read and write
    callbacks, in order: the address and whether it was a write. *)
Class BaseDRAMSystem (S : Type) := {
  WillAcceptTransaction : S -> Z -> bool -> M bool;
  AddTransaction : S -> Z -> bool -> M (bool * S);
  ClockTick : S -> M (S * list (Z * bool)) }.

(** What a DRAM system promises: a request it says it will accept is accepted; up to the
    [horizon] of its clock, where 64-bit counters come near their end, a cycle always succeeds;
    and each request is answered at most once. *)
Class DRAMSystemLaws (S : Type) `{BaseDRAMSystem S} := {
  sys_inv : S -> Prop;
  outstanding : S -> list (Z * bool);
  now : S -> Z;
  horizon : Z;
  will_accept_ok s a w : sys_inv s -> exists b, WillAcceptTransaction s a w = Ok b;
  add_ok s a w : sys_inv s -> WillAcceptTransaction s a w = Ok true ->
    exists s', AddTransaction s a w = Ok (true, s') /\ sys_inv s' /\ now s' = now s /\
      outstanding s' ≡ₚ (a, w) :: outstanding s;
  tick_ok s : sys_inv s -> now s < horizon ->
    exists s' out, ClockTick s = Ok (s', out) /\ sys_inv s' /\ now s' = now s + 1 /\
      outstanding s ≡ₚ out ++ outstanding s' }.
Arguments horizon S {_ _}.

(** ** One controller per channel *)

Record JedecDRAMSystem := mkJedec {
  sys_clk_ : Z;
  last_req_clk_ : Z;
  ctrls_ : list Controller }.

(** The inner loop of [JedecDRAMSystem::ClockTick]: all finished transactions of a controller. *)
Fixpoint drain (fuel : nat) (clk : Z) (c : Controller) (out : list (Z * bool))
    : M (Controller * list (Z * bool)) :=
  match fuel with
  | O => NoFuel
  | S fuel =>
      match ReturnDoneTrans c clk with
      | (Some p, c) => drain fuel clk c (out ++ [p])
      | (None, c) => Ok (c, out)
      end
  end.

Section jedec.
Context (config : Config) (timing : Timing).

Definition GetChannel (hex_addr : Z) : Z :=
  let hex_addr := Z.shiftr (u64 hex_addr) (shift_bits config) in
  s32 (Z.land (Z.shiftr hex_addr (ch_pos config)) (ch_mask config)).

Definition newJedecDRAMSystem : M JedecDRAMSystem :=
  if IsHMC config then Err AbruptExit
  else if channels config <? 0 then Err Uncaught
  else
    ctrls ← mapM (fun _ => newController config) (seqZ 0 (channels config));
    Ok (mkJedec 0 0 ctrls).

Definition jedec_will_accept (s : JedecDRAMSystem) (hex_addr : Z) (is_write : bool) : M bool :=
  c ← vget (ctrls_ s) (GetChannel hex_addr);
  Ok (Controller.WillAcceptTransaction config c is_write).

Definition jedec_add (s : JedecDRAMSystem) (hex_addr : Z) (is_write : bool)
    : M (bool * JedecDRAMSystem) :=
  let channel := GetChannel hex_addr in
  c ← vget (ctrls_ s) channel;
  let ok := Controller.WillAcceptTransaction config c is_write in
  if negb ok then Err AssertFailed
  else
    ctrls ← vset (ctrls_ s) channel
      (Controller.AddTransaction config c (newTransaction hex_addr is_write));
    Ok (ok, mkJedec (sys_clk_ s) (sys_clk_ s) ctrls).

(** The end of a cycle, from the cycle of the controllers on: the controllers after it. *)
Definition cycle_ctrls (clk : Z) (ctrls : list Controller) : M (list Controller) :=
  ctrls ← mapM (Controller.ClockTick config timing) ctrls;
  let clk := u64 (clk + 1) in
  if u64 (epoch_period config) =? 0 then Err DivZero
  else if clk mod u64 (epoch_period config) =? 0 then mapM PrintEpochStats ctrls
  else Ok ctrls.

Definition jedec_tick (s : JedecDRAMSystem) : M (JedecDRAMSystem * list (Z * bool)) :=
  returned ← mapM (fun c => drain (S (length (return_queue_ c))) (sys_clk_ s) c []) (ctrls_ s);
  ctrls ← cycle_ctrls (sys_clk_ s) returned.*1;
  Ok (mkJedec (u64 (sys_clk_ s + 1)) (last_req_clk_ s) ctrls, concat returned.*2).

Definition jedec_reset_stats (s : JedecDRAMSystem) : JedecDRAMSystem :=
  mkJedec (sys_clk_ s) (last_req_clk_ s) (ResetStats <$> ctrls_ s).
End jedec.

(** ** The ideal memory *)

Record IdealDRAMSystem := mkIdeal {
  ideal_clk_ : Z;
  latency_ : Z;
  infinite_buffer_q_ : list Transaction }.

Definition ideal_add (s : IdealDRAMSystem) (hex_addr : Z) (is_write : bool)
    : M (bool * IdealDRAMSystem) :=
  let trans := set_added (newTransaction hex_addr is_write) (ideal_clk_ s) in
  Ok (true, mkIdeal (ideal_clk_ s) (latency_ s) (infinite_buffer_q_ s ++ [trans])).

(** The loop of [IdealDRAMSystem::ClockTick] from one position on: what stays in the buffer and
    the callbacks.  The element after an erased one is stepped over. *)
Fixpoint ideal_scan (clk latency : Z) (l : list Transaction)
    : list Transaction * list (Z * bool) :=
  match l with
  | [] => ([], [])
  | t :: rest =>
      if u64 latency <=? u64 (clk - added_cycle t) then
        match rest with
        | [] => ([], [id_of t])
        | x :: rest => let '(keep, out) := ideal_scan clk latency rest in (x :: keep, id_of t :: out)
        end
      else let '(keep, out) := ideal_scan clk latency rest in (t :: keep, out)
  end.

Definition ideal_tick (s : IdealDRAMSystem) : M (IdealDRAMSystem * list (Z * bool)) :=
  let '(keep, out) := ideal_scan (ideal_clk_ s) (latency_ s) (infinite_buffer_q_ s) in
  Ok (mkIdeal (u64 (ideal_clk_ s + 1)) (latency_ s) keep, out).

#[export] Instance ideal_system : BaseDRAMSystem IdealDRAMSystem := {
  WillAcceptTransaction _ _ _ := Ok true;
  AddTransaction := ideal_add;
  ClockTick := ideal_tick }.

(** ** Loops over the controllers *)

Lemma mapM_total {A B} (f : A -> M B) (Q : A -> B -> Prop) l :
  (forall x, x ∈ l -> exists y, f x = Ok y /\ Q x y) ->
  exists k, mapM f l = Ok k /\ Forall2 Q l k.
Proof.
  induction l as [|x l IH]; intros H; [by exists []|].
  destruct (H x) as (y & Ey & Hy); [set_solver|].
  destruct IH as (k & Ek & Hk); [intros z Hz; apply H; set_solver|].
  exists (y :: k). simpl. rewrite Ey. cbn [mbind res_bind]. rewrite Ek. cbn [mbind res_bind].
  split; [done|by constructor].
Qed.

Lemma concat_ids_nil l : (forall c, c ∈ l -> ids c = []) -> concat (ids <$> l) = [].
Proof.
  induction l as [|c l IH]; intros Hc; [done|]. simpl. rewrite Hc by set_solver.
  apply IH. intros; apply Hc; set_solver.
Qed.

(** [drain] returns within the length of the return queue: each call takes one entry away. *)
Lemma drain_ok config F fuel clk c out :
  ctrl_inv config c F [] -> (length (return_queue_ c) < fuel)%nat ->
  exists c' done, drain fuel clk c out = Ok (c', out ++ done) /\ ctrl_inv config c' F [] /\
    clk_ c' = clk_ c /\ ids c ≡ₚ done ++ ids c' /\
    (forall t, t ∈ return_queue_ c' -> clk < complete_cycle t).
Proof.
  revert c out. induction fuel as [|fuel IH]; intros c out Hc Hf; [lia|]. cbn [drain].
  pose proof (ReturnDoneTrans_ok config c F clk Hc) as Hr. unfold ReturnDoneTrans in *.
  destruct (take_done clk (return_queue_ c)) as [[t rest]|] eqn:E.
  - destruct Hr as (Hc1 & Hi & Ek). set (c1 := with_pending _ _ _ rest) in *.
    destruct (IH c1 (out ++ [(t_addr t, is_write t)]) Hc1) as (c2 & done & -> & Hc2 & Ek2 & Hi2 & Hd).
    { apply take_done_spec in E as [Hp _]. rewrite Hp in Hf. simpl in *. lia. }
    exists c2, ((t_addr t, is_write t) :: done). split; [by rewrite <-app_assoc|].
    split; [done|]. split; [congruence|]. split; [|done]. rewrite Hi. simpl. by rewrite Hi2.
  - exists c, []. rewrite app_nil_r. split_and!; try done.
    clear Hf. revert E. induction (return_queue_ c) as [|x l IHl]; simpl; [set_solver|].
    destruct (Z.leb_spec (complete_cycle x) clk); [done|].
    destruct (take_done clk l) as [[? ?]|] eqn:E'; [done|]. intros _ t [->|Ht]%elem_of_cons; [done|by apply IHl].
Qed.

Section jedec_laws.
Context (config : Config) (timing : Timing).

(** A configuration the channels can work with. *)
Record jedec_ok : Prop := {
  jo_system : system_ok config timing;
  jo_interval : interval_ok config;
  jo_channel : forall x, 0 <= channel (AddressMapping config x) < channels config;
  jo_epoch : u64 (epoch_period config) <> 0 }.

Hypothesis ok : jedec_ok.

(** Every controller is in order, at the time of the system, and holds requests of its own
    channel only. *)
Definition ctrl_ok (clk : Z) (i : nat) (c : Controller) : Prop :=
  (exists F, ctrl_inv config c F []) /\ clk_ c = clk /\
  Forall (fun p => GetChannel config (fst p) = Z.of_nat i) (ids c).

Record jedec_inv (s : JedecDRAMSystem) : Prop := {
  ji_clk : 0 <= sys_clk_ s;
  ji_channels : Z.of_nat (length (ctrls_ s)) = channels config;
  ji_ctrls : forall i c, ctrls_ s !! i = Some c -> ctrl_ok (sys_clk_ s) i c }.

Definition jedec_outstanding (s : JedecDRAMSystem) : list (Z * bool) := concat (ids <$> ctrls_ s).

Lemma GetChannel_range x : 0 <= GetChannel config x < channels config.
Proof. apply (jo_channel ok x). Qed.

Lemma ctrl_at s x :
  jedec_inv s -> exists c, vget (ctrls_ s) (GetChannel config x) = Ok c /\
    ctrls_ s !! Z.to_nat (GetChannel config x) = Some c /\
    ctrl_ok (sys_clk_ s) (Z.to_nat (GetChannel config x)) c.
Proof.
  intros Hs. pose proof (GetChannel_range x) as Hr.
  destruct (vget_in_range (ctrls_ s) (GetChannel config x)) as [c Hc];
    [rewrite (ji_channels s Hs); lia|].
  exists c. split; [done|]. apply vget_Ok in Hc as [_ Hc]. split; [done|]. by apply (ji_ctrls s Hs).
Qed.

Lemma jedec_will_accept_ok s a w : jedec_inv s -> exists b, jedec_will_accept config s a w = Ok b.
Proof.
  intros Hs. destruct (ctrl_at s a Hs) as (c & E & _). unfold jedec_will_accept. rewrite E. by eexists.
Qed.

Lemma jedec_add_ok s a w :
  jedec_inv s -> jedec_will_accept config s a w = Ok true ->
  exists s', jedec_add config s a w = Ok (true, s') /\ jedec_inv s' /\ sys_clk_ s' = sys_clk_ s /\
    jedec_outstanding s' ≡ₚ (a, w) :: jedec_outstanding s.
Proof.
  intros Hs Hw. destruct (ctrl_at s a Hs) as (c & E & El & (F & Hc) & Ek & Hch).
  unfold jedec_will_accept, jedec_add in *. rewrite E in *. cbn [mbind res_bind] in *.
  injection Hw as ->. cbn [negb]. pose proof (GetChannel_range a) as Hr.
  rewrite vset_Ok by (rewrite (ji_channels s Hs); lia). cbn [mbind res_bind].
  set (i := Z.to_nat (GetChannel config a)) in *.
  destruct (AddTransaction_ok config c F (newTransaction a w) Hc) as (Hc' & Hi & Ek').
  eexists. split; [done|]. split; [|split; [done|]].
  - destruct Hs as [S1 S2 S3]. split; simpl; [done|by rewrite length_insert|].
    intros j c' Hj. apply list_lookup_insert_Some in Hj as [(<- & <- & _)|[_ Hj]]; [|by apply S3].
    split; [eauto|]. split; [congruence|]. rewrite Hi. constructor; [simpl; unfold i; lia|done].
  - unfold jedec_outstanding. cbn [ctrls_]. rewrite <-(take_drop_middle _ _ _ El) at 2.
    rewrite insert_take_drop by (by eapply lookup_lt_Some).
    rewrite !fmap_app, !fmap_cons, !concat_app. simpl. rewrite Hi. simpl. solve_Permutation.
Qed.

(** One pass over the controllers: each stays in order, moves its clock to [k'], and hands out
    some of its requests. *)
Lemma pass_ok {B} (f : Controller -> M B) (proj : B -> Controller) (out : B -> list (Z * bool))
    k k' l :
  (forall c F, ctrl_inv config c F [] -> clk_ c = k ->
     exists y F', f c = Ok y /\ ctrl_inv config (proj y) F' [] /\ clk_ (proj y) = k' /\
       ids c ≡ₚ out y ++ ids (proj y)) ->
  (forall i c, l !! i = Some c -> ctrl_ok k i c) ->
  exists ys, mapM f l = Ok ys /\ length ys = length l /\
    (forall i c, (proj <$> ys) !! i = Some c -> ctrl_ok k' i c) /\
    concat (ids <$> l) ≡ₚ concat (out <$> ys) ++ concat (ids <$> (proj <$> ys)).
Proof.
  intros Hf Hl. destruct (mapM_total f (fun c y => (exists F', ctrl_inv config (proj y) F' []) /\
    clk_ (proj y) = k' /\ ids c ≡ₚ out y ++ ids (proj y)) l) as (ys & E & HF).
  { intros c (i & Hi)%list_elem_of_lookup. destruct (Hl i c Hi) as ((F & Hc) & Hk & _).
    destruct (Hf c F Hc Hk) as (y & F' & Ey & Hy). exists y. naive_solver. }
  exists ys. split; [done|]. split; [symmetry; by eapply Forall2_length|]. split.
  - intros i c Hi. apply list_lookup_fmap_Some_1 in Hi as (y & -> & Hy).
    destruct (Forall2_lookup_r _ _ _ _ _ HF Hy) as (c0 & H0 & HF' & Hk & Hp).
    split; [done|]. split; [done|]. destruct (Hl i c0 H0) as (_ & _ & Hch).
    rewrite Hp in Hch. by apply Forall_app in Hch as [_ ?].
  - clear E Hl. induction HF as [|c y l ys (_ & _ & Hp) HF IH]; [done|].
    rewrite !fmap_cons. simpl. rewrite Hp, IH. solve_Permutation.
Qed.

Lemma concat_nils {A B} (l : list A) : concat ((fun _ => [] : list B) <$> l) = [].
Proof. by induction l. Qed.

(** A pass that hands out nothing. *)
Lemma quiet_pass_ok (f : Controller -> M Controller) k k' l :
  (forall c F, ctrl_inv config c F [] -> clk_ c = k ->
     exists y F', f c = Ok y /\ ctrl_inv config y F' [] /\ clk_ y = k' /\ ids c ≡ₚ ids y) ->
  (forall i c, l !! i = Some c -> ctrl_ok k i c) ->
  exists ys, mapM f l = Ok ys /\ length ys = length l /\
    (forall i c, ys !! i = Some c -> ctrl_ok k' i c) /\
    concat (ids <$> l) ≡ₚ concat (ids <$> ys).
Proof.
  intros Hf Hl. destruct (pass_ok f id (fun _ => []) k k' l Hf Hl) as (ys & E & L & H & P).
  rewrite list_fmap_id in H, P. rewrite concat_nils in P. eauto.
Qed.

Lemma cycle_ctrls_ok clk l :
  0 <= clk < 2 ^ 64 - 2 ^ 31 -> (forall i c, l !! i = Some c -> ctrl_ok clk i c) ->
  exists ys, cycle_ctrls config timing clk l = Ok ys /\ length ys = length l /\
    (forall i c, ys !! i = Some c -> ctrl_ok (clk + 1) i c) /\
    concat (ids <$> l) ≡ₚ concat (ids <$> ys).
Proof.
  intros Hk Hl. unfold cycle_ctrls.
  destruct (quiet_pass_ok (Controller.ClockTick config timing) clk (clk + 1) l)
    as (cs & -> & L2 & H2 & P2); [|done|].
  { intros c F Hc Ek. destruct (ClockTick_ok config timing (jo_system ok) c F Hc)
      as (c' & F' & E & Hc' & Hi & Hk'); [lia..|]. exists c', F'. rewrite Hi. split_and!; [done..|lia|done]. }
  cbn [mbind res_bind].
  destruct (Z.eqb_spec (u64 (epoch_period config)) 0); [by destruct (jo_epoch ok)|].
  destruct (_ =? 0); [|by exists cs].
  destruct (quiet_pass_ok PrintEpochStats (clk + 1) (clk + 1) cs)
    as (cs' & -> & L3 & H3 & P3); [|done|].
  - intros c F Hc Ek. destruct (PrintEpochStats_ok config c F Hc) as (c' & E & Hc' & Hi & Hk').
    exists c', F. rewrite Hi. split_and!; [done..|lia|done].
  - exists cs'. split; [done|]. split; [lia|]. split; [done|]. by rewrite P2.
Qed.

Lemma jedec_tick_ok s :
  jedec_inv s -> sys_clk_ s < 2 ^ 64 - 2 ^ 31 ->
  exists s' out, jedec_tick config timing s = Ok (s', out) /\ jedec_inv s' /\
    sys_clk_ s' = sys_clk_ s + 1 /\ jedec_outstanding s ≡ₚ out ++ jedec_outstanding s'.
Proof.
  intros [S1 S2 S3] Hhi. unfold jedec_tick.
  destruct (pass_ok (fun c => drain (S (length (return_queue_ c))) (sys_clk_ s) c []) fst snd
    (sys_clk_ s) (sys_clk_ s) (ctrls_ s)) as (r & -> & L1 & H1 & P1); [|done|].
  { intros c F Hc Hk. destruct (drain_ok config F (S (length (return_queue_ c))) (sys_clk_ s) c [] Hc)
      as (c' & dn & E & Hc' & Hk' & Hi & _); [lia|]. exists (c', dn), F. split; [done|].
    split; [done|]. split; [simpl; lia|done]. }
  cbn [mbind res_bind]. destruct (cycle_ctrls_ok (sys_clk_ s) r.*1) as (cs & -> & L2 & H2 & P2); [lia|done|].
  cbn [mbind res_bind]. rewrite wrapU_small by lia.
  eexists _, _. split; [done|]. split; [|split; [done|]].
  - split; simpl; [lia| |done]. rewrite L2, length_fmap, L1. done.
  - unfold jedec_outstanding. simpl. by rewrite P1, P2.
Qed.

Lemma mapM_const {A B} (r : M B) (l : list A) x :
  mapM (fun _ => r) l = Ok x -> Forall (fun c => r = Ok c) x /\ length x = length l.
Proof.
  destruct r as [c| |]; revert x; induction l as [|i l IH]; intros x E; simpl in E;
    try (by injection E as <-); try done.
  run_ok E. injection E as <-. destruct (IH _ eq_refl) as [? Hl]. split; [by constructor|simpl; congruence].
Qed.

Lemma newJedec_ok s :
  newJedecDRAMSystem config = Ok s -> jedec_inv s /\ jedec_outstanding s = [] /\ sys_clk_ s = 0.
Proof.
  unfold newJedecDRAMSystem. destruct (IsHMC config); [done|].
  destruct (Z.ltb_spec (channels config) 0) as [|Hch]; [done|]. intros E. run_ok E.
  injection E as <-.
  assert (Forall (fun c => newController config = Ok c) x /\ Z.of_nat (length x) = channels config)
    as [Hall Hlen].
  { apply mapM_const in E0 as [? E0]. split; [done|]. rewrite E0, length_seqZ. lia. }
  assert (forall c, c ∈ x -> ctrl_inv config c (fun _ => newBankState) [] /\ ids c = [] /\ clk_ c = 0) as Hc.
  { intros c Hin. rewrite Forall_forall in Hall. pose proof (Hall c Hin) as Ec.
    apply (newController_ok config timing (jo_system ok) c Ec). by apply (jo_interval ok). }
  split; [|split; [|done]].
  - split; simpl; [done|done|]. intros i c Hi. apply list_elem_of_lookup_2 in Hi.
    destruct (Hc c Hi) as (H1 & H2 & H3). split; [eauto|]. split; [done|]. by rewrite H2.
  - apply concat_ids_nil. intros c Hin. by apply Hc.
Qed.

#[export] Instance jedec_system : BaseDRAMSystem JedecDRAMSystem := {
  WillAcceptTransaction := jedec_will_accept config;
  AddTransaction := jedec_add config;
  ClockTick := jedec_tick config timing }.

#[export] Instance jedec_laws : DRAMSystemLaws JedecDRAMSystem := {
  sys_inv := jedec_inv;
  outstanding := jedec_outstanding;
  now := sys_clk_;
  horizon := 2 ^ 64 - 2 ^ 31;
  will_accept_ok := jedec_will_accept_ok;
  add_ok := jedec_add_ok;
  tick_ok := jedec_tick_ok }.
End jedec_laws.

(** A configuration read from a file, without self-refresh and dual commands. *)
Lemma built_jedec_ok reader c :
  newConfig reader = Ok c -> geometry_ok c ->
  banks c = bankgroups c * banks_per_group c -> 1 <= bankgroups c -> 1 <= banks_per_group c ->
  1 <= ranks c -> enable_self_refresh c = false -> enable_hbm_dual_cmd c = false ->
  interval_ok c -> u64 (epoch_period c) <> 0 -> jedec_ok c (newTiming c).
Proof.
  intros E Hg Hb Hbg Hbp Hr Hs Hd Hi He. split; [|done| |done].
  - split; try done; [apply newTiming_ok| |by rewrite Hd].
    intros x. destruct (mapping_in_range reader c E Hg x) as (_ & ? & ? & ? & ?). by split.
  - intros x. by destruct (mapping_in_range reader c E Hg x) as [? _].
Qed.

(** ** The ideal memory *)

Lemma ideal_scan_spec clk latency n l :
  (length l <= n)%nat -> let '(keep, out) := ideal_scan clk latency l in
  exists gone, l ≡ₚ gone ++ keep /\ out = id_of <$> gone /\
    forall t, t ∈ gone -> u64 latency <= u64 (clk - added_cycle t).
Proof.
  revert l. induction n as [|n IH]; intros [|t rest] Hn; try (simpl in Hn; lia);
    try (exists []; split_and!; try done; intros t Ht; by apply elem_of_nil in Ht).
  cbn [ideal_scan]. destruct (Z.leb_spec (u64 latency) (u64 (clk - added_cycle t))) as [Hle|Hlt].
  - destruct rest as [|x rest].
    + exists [t]. split_and!; try done. by intros t' ->%list_elem_of_singleton.
    + specialize (IH rest). destruct (ideal_scan clk latency rest) as [keep out].
      destruct IH as (gone & Hp & -> & Hg); [simpl in Hn; lia|]. exists (t :: gone).
      split_and!; [|done|intros t' [->|Ht]%elem_of_cons; auto].
      rewrite Hp. simpl. constructor. by rewrite Permutation_middle.
  - specialize (IH rest). destruct (ideal_scan clk latency rest) as [keep out].
    destruct IH as (gone & Hp & -> & Hg); [simpl in Hn; lia|]. exists gone.
    split_and!; [|done|done]. rewrite Hp. by rewrite Permutation_middle.
Qed.

#[export] Program Instance ideal_laws : DRAMSystemLaws IdealDRAMSystem := {
  sys_inv s := 0 <= ideal_clk_ s;
  outstanding s := id_of <$> infinite_buffer_q_ s;
  now := ideal_clk_;
  horizon := 2 ^ 64 - 1 }.
Next Obligation. simpl. eauto. Qed.
Next Obligation.
  simpl. intros s a w Hs _. eexists. split; [reflexivity|]. split; [done|]. split; [done|]. simpl.
  rewrite fmap_app. simpl. rewrite Permutation_app_comm. done.
Qed.
Next Obligation.
  simpl. intros s Hs Hhi. unfold ideal_tick.
  pose proof (ideal_scan_spec (ideal_clk_ s) (latency_ s) _ (infinite_buffer_q_ s) (Nat.le_refl _)) as H.
  destruct (ideal_scan _ _ _) as [keep out]. destruct H as (gone & Hp & -> & _).
  assert (u64 (ideal_clk_ s + 1) = ideal_clk_ s + 1) as E by (unfold u64; apply Z.mod_small; lia).
  eexists _, _. split; [reflexivity|]. simpl. split_and!; [lia|lia|].
  by rewrite Hp, fmap_app.
Qed.

(** Two requests of the same cycle on a memory without latency: the second waits for the next
    cycle, because the loop steps over the element after one it erases. *)
Lemma ideal_second_waits :
  exists s1 s2 s3, ideal_add (mkIdeal 0 0 []) 0 false = Ok (true, s1) /\
    ideal_add s1 64 false = Ok (true, s2) /\
    ideal_tick s2 = Ok (s3, [(0, false)]) /\ infinite_buffer_q_ s3 <> [].
Proof. by eexists _, _, _. Qed.
