(* ===== verification/HmcXbar.v ===== *)
(** * Packets and crossbars of the hybrid memory cube

    [DRAMSIM3/src/hmc.h] and [hmc.cc], first part: the request and response packets, the order
    in which a crossbar serves its inputs ([BuildAgeQueue]), and one arbitration round.  The code
    has two crossbars, from the links to the quadrants and back, with the same arbitration loop;
    the loop is modelled once, for any kind of packet. *)
From S2P Require Import Prelude DramCommon.
Local Open Scope list_scope.
Local Open Scope Z_scope.

(** ** Packets *)

Inductive HMCReqType :=
| RD0 | RD16 | RD32 | RD48 | RD64 | RD80 | RD96 | RD112 | RD128 | RD256
| WR0 | WR16 | WR32 | WR48 | WR64 | WR80 | WR96 | WR112 | WR128 | WR256
| P_WR16 | P_WR32 | P_WR48 | P_WR64 | P_WR80 | P_WR96 | P_WR112 | P_WR128 | P_WR256
| ADD8 | ADD16 | P_2ADD8 | P_ADD16 | ADDS8R | ADDS16R | INC8 | P_INC8
| XOR16 | OR16 | NOR16 | AND16 | NAND16
| CASGT8 | CASGT16 | CASLT8 | CASLT16 | CASEQ8 | CASZERO16
| EQ8 | EQ16 | BWR | P_BWR | BWR8R | SWAP16 | REQ_SIZE.

Inductive HMCRespType := NONE | RD_RS | WR_RS | ERR | RESP_SIZE.

#[export] Instance HMCReqType_eq_dec : EqDecision HMCReqType.
Proof. solve_decision. Defined.
#[export] Instance HMCRespType_eq_dec : EqDecision HMCRespType.
Proof. solve_decision. Defined.

Record HMCRequest := mkReq {
  req_type : HMCReqType; mem_operand : Z; req_link : Z; req_quad : Z; vault : Z;
  req_flits : Z; req_is_write : bool; req_exit_time : Z }.

Record HMCResponse := mkResp {
  resp_id : Z; resp_type : HMCRespType; resp_link : Z; resp_quad : Z;
  resp_flits : Z; resp_exit_time : Z }.

(** [type >= WR0 && type <= P_WR256]. *)
Definition is_write_type (t : HMCReqType) : bool :=
  match t with
  | WR0 | WR16 | WR32 | WR48 | WR64 | WR80 | WR96 | WR112 | WR128 | WR256
  | P_WR16 | P_WR32 | P_WR48 | P_WR64 | P_WR80 | P_WR96 | P_WR112 | P_WR128 | P_WR256 => true
  | _ => false
  end.

(** The length of a request packet, in flits of 16 bytes. *)
Definition request_flits (t : HMCReqType) : M Z :=
  match t with
  | RD0 | WR0 => Ok 0
  | RD16 | RD32 | RD48 | RD64 | RD80 | RD96 | RD112 | RD128 | RD256 => Ok 1
  | WR16 | P_WR16 => Ok 2
  | WR32 | P_WR32 => Ok 3
  | WR48 | P_WR48 => Ok 4
  | WR64 | P_WR64 => Ok 5
  | WR80 | P_WR80 => Ok 6
  | WR96 | P_WR96 => Ok 7
  | WR112 | P_WR112 => Ok 8
  | WR128 | P_WR128 => Ok 9
  | WR256 | P_WR256 => Ok 17
  | ADD8 | ADD16 => Ok 2
  | P_2ADD8 | P_ADD16 => Ok 2
  | ADDS8R | ADDS16R => Ok 2
  | INC8 => Ok 1
  | P_INC8 => Ok 1
  | XOR16 | OR16 | NOR16 | AND16 | NAND16 | CASGT8 | CASGT16 | CASLT8 | CASLT16 | CASEQ8
  | CASZERO16 => Ok 2
  | EQ8 | EQ16 | BWR => Ok 2
  | P_BWR => Ok 2
  | BWR8R | SWAP16 => Ok 2
  | REQ_SIZE => Err AbruptExit
  end.

(** [HMCRequest::HMCRequest]; [link] and [exit_time] are set before they are first read. *)
Definition newHMCRequest (t : HMCReqType) (hex_addr vault : Z) : M HMCRequest :=
  flits ← request_flits t;
  Ok (mkReq t hex_addr 0 (Z.rem vault 4) vault flits (is_write_type t) 0).

(** The kind and the length of the response to a request. *)
Definition response_kind (t : HMCReqType) : M (HMCRespType * Z) :=
  match t with
  | RD0 => Ok (RD_RS, 0)
  | RD16 => Ok (RD_RS, 2)
  | RD32 => Ok (RD_RS, 3)
  | RD48 => Ok (RD_RS, 4)
  | RD64 => Ok (RD_RS, 5)
  | RD80 => Ok (RD_RS, 6)
  | RD96 => Ok (RD_RS, 7)
  | RD112 => Ok (RD_RS, 8)
  | RD128 => Ok (RD_RS, 9)
  | RD256 => Ok (RD_RS, 17)
  | WR0 => Ok (WR_RS, 0)
  | WR16 | WR32 | WR48 | WR64 | WR80 | WR96 | WR112 | WR128 | WR256 => Ok (WR_RS, 1)
  | P_WR16 | P_WR32 | P_WR48 | P_WR64 | P_WR80 | P_WR96 | P_WR112 | P_WR128 | P_WR256 =>
      Ok (NONE, 0)
  | ADD8 | ADD16 => Ok (WR_RS, 1)
  | P_2ADD8 | P_ADD16 => Ok (NONE, 0)
  | ADDS8R | ADDS16R => Ok (RD_RS, 2)
  | INC8 => Ok (WR_RS, 1)
  | P_INC8 => Ok (NONE, 0)
  | XOR16 | OR16 | NOR16 | AND16 | NAND16 | CASGT8 | CASGT16 | CASLT8 | CASLT16 | CASEQ8
  | CASZERO16 => Ok (RD_RS, 2)
  | EQ8 | EQ16 | BWR => Ok (WR_RS, 1)
  | P_BWR => Ok (NONE, 0)
  | BWR8R | SWAP16 => Ok (RD_RS, 2)
  | REQ_SIZE => Err AbruptExit
  end.

Definition newHMCResponse (id : Z) (t : HMCReqType) (dest_link src_quad : Z) : M HMCResponse :=
  '(type, flits) ← response_kind t;
  Ok (mkResp id type dest_link src_quad flits 0).

(** ** Crossbars *)

(** What a crossbar needs of a packet: the output it goes to, its length, and the time it leaves
    the crossbar, which the crossbar sets. *)
Class Packet (P : Type) := {
  dest : P -> Z;
  flits : P -> Z;
  exit_time : P -> Z;
  set_exit_time : P -> Z -> P }.

Class PacketLaws (P : Type) `{Packet P} := {
  dest_set p t : dest (set_exit_time p t) = dest p;
  set_set p t u : set_exit_time (set_exit_time p t) u = set_exit_time p u }.

#[export] Instance request_packet : Packet HMCRequest := {
  dest := req_quad; flits := req_flits; exit_time := req_exit_time;
  set_exit_time r t := mkReq (req_type r) (mem_operand r) (req_link r) (req_quad r) (vault r)
    (req_flits r) (req_is_write r) t }.
#[export] Instance request_laws : PacketLaws HMCRequest.
Proof. by split. Qed.

#[export] Instance response_packet : Packet HMCResponse := {
  dest := resp_link; flits := resp_flits; exit_time := resp_exit_time;
  set_exit_time r t := mkResp (resp_id r) (resp_type r) (resp_link r) (resp_quad r)
    (resp_flits r) t }.
#[export] Instance response_laws : PacketLaws HMCResponse.
Proof. by split. Qed.

(** The queues of a crossbar, how long its outputs are still busy, and the ages of its inputs.
    For requests these are [link_req_queues_], [quad_req_queues_], [quad_busy_] and
    [link_age_counter_]; for responses [quad_resp_queues_], [link_resp_queues_], [link_busy_] and
    [quad_age_counter_]. *)
Record Xbar (P : Type) := mkXbar {
  x_in : list (list P); x_out : list (list P); x_busy : list Z; x_age : list Z }.
Arguments mkXbar {P}.
Arguments x_in {P}.
Arguments x_out {P}.
Arguments x_busy {P}.
Arguments x_age {P}.

(** The inner loop of [BuildAgeQueue]: [pos] goes before the first entry smaller than [age]. *)
Fixpoint insert_by_age (age pos : Z) (age_queue : list Z) : list Z :=
  match age_queue with
  | [] => [pos]
  | it :: rest =>
      if it <? age then pos :: it :: rest else it :: insert_by_age age pos rest
  end.

Definition BuildAgeQueue (logic_clk : Z) (age_counter : list Z) : M (list Z) :=
  let queue_len := Z.of_nat (length age_counter) in
  if queue_len =? 0 then Err DivZero
  else
    let start_pos := logic_clk mod queue_len in
    forM (seqZ 0 queue_len) (fun i age_queue =>
      let pos := (i + start_pos) mod queue_len in
      age ← vget age_counter pos;
      Ok (if 0 <? age then insert_by_age age pos age_queue else age_queue)) [].

(** [for (auto &&i : busy) if (i > 0) i -= 2]. *)
Definition drain_busy (busy : list Z) : list Z := (fun i => if 0 <? i then i - 2 else i) <$> busy.

Section xbar.
Context {P : Type} `{Packet P} (queue_depth logic_clk : Z).

(** One turn of the arbitration loop: the first packet of input [src] moves to its output, or the
    input grows older. *)
Definition arbitrate (src : Z) (x : Xbar P) : M (Xbar P) :=
  q ← vget (x_in x) src;
  match q with
  | [] => Err BadIndex
  | p :: rest =>
      out ← vget (x_out x) (dest p);
      busy ← vget (x_busy x) (dest p);
      if (Z.of_nat (length out) <? queue_depth) && (busy <=? 0) then
        ins ← vset (x_in x) src rest;
        outs ← vset (x_out x) (dest p) (out ++ [set_exit_time p (u64 (logic_clk + flits p))]);
        busys ← vset (x_busy x) (dest p) (flits p);
        ages ← vset (x_age x) src (match rest with [] => 0 | _ => 1 end);
        Ok (mkXbar ins outs busys ages)
      else
        ages ← vmod (x_age x) src (fun a => Ok (s32 (a + 1)));
        Ok (mkXbar (x_in x) (x_out x) (x_busy x) ages)
  end.

(** A packet enters at input [i]: [in[i].push_back(p); age[i] = 1]. *)
Definition push_in (i : Z) (p : P) (x : Xbar P) : M (Xbar P) :=
  ins ← vmod (x_in x) i (fun q => Ok (q ++ [p]));
  ages ← vset (x_age x) i 1;
  Ok (mkXbar ins (x_out x) (x_busy x) ages).

(** The first packet of output [i] leaves: [out[i].erase(out[i].begin())]. *)
Definition pop_out (i : Z) (x : Xbar P) : M (Xbar P) :=
  outs ← vmod (x_out x) i (fun q => match q with [] => Err BadIndex | _ :: rest => Ok rest end);
  Ok (mkXbar (x_in x) outs (x_busy x) (x_age x)).

(** The busy counters go down, then every waiting input has its turn. *)
Definition drain_xbar (x : Xbar P) : M (Xbar P) :=
  let x := mkXbar (x_in x) (x_out x) (drain_busy (x_busy x)) (x_age x) in
  age_queue ← BuildAgeQueue logic_clk (x_age x);
  forM age_queue arbitrate x.
End xbar.

(** ** Order of service *)

Lemma insert_by_age_perm age pos q : insert_by_age age pos q ≡ₚ pos :: q.
Proof.
  induction q as [|it q IH]; simpl; [done|]. destruct (it <? age); [done|].
  rewrite IH. apply Permutation_swap.
Qed.

(** An input with a positive age. *)
Definition aged (age_counter : list Z) (pos : Z) : bool :=
  match vget age_counter pos with Ok a => 0 <? a | _ => false end.

(** The inputs of a round, from its start position on. *)
Lemma rotation_NoDup s n : 0 < n -> NoDup ((fun i => (i + s) mod n) <$> seqZ 0 n).
Proof.
  intros Hn. apply NoDup_fmap_2_strong; [|apply NoDup_seqZ].
  intros i j Hi%elem_of_range Hj%elem_of_range E.
  assert ((i - j) mod n = 0) as E0.
  { replace (i - j) with ((i + s) - (j + s)) by lia. rewrite Zminus_mod, E, Z.sub_diag. apply Z.mod_0_l. lia. }
  apply Z.mod_divide in E0 as [k E0]; [|lia].
  assert (k = 0) as -> by nia. lia.
Qed.

Lemma rotation_elem s n p : 0 < n -> p ∈ (fun i => (i + s) mod n) <$> seqZ 0 n <-> 0 <= p < n.
Proof.
  intros Hn. rewrite list_elem_of_fmap. split.
  - intros (i & -> & _). apply Z.mod_pos_bound. lia.
  - intros Hp. exists ((p - s) mod n). split.
    + rewrite Z.add_mod_idemp_l by lia. replace (p - s + s) with p by lia. by rewrite Z.mod_small.
    + apply elem_of_range. apply Z.mod_pos_bound. lia.
Qed.

(** [BuildAgeQueue] lists every input with a positive age, once. *)
Lemma BuildAgeQueue_ok clk ages :
  ages <> [] -> exists q, BuildAgeQueue clk ages = Ok q /\ NoDup q /\
    forall p, p ∈ q <-> aged ages p = true.
Proof.
  intros Hne. unfold BuildAgeQueue. set (n := Z.of_nat (length ages)).
  assert (0 < n) as Hn by (unfold n; destruct ages; [done|simpl; lia]).
  destruct (Z.eqb_spec n 0); [lia|]. set (f := fun i => (i + clk mod n) mod n).
  destruct (forM_rule (fun k q => exists dn, seqZ 0 n = dn ++ k /\
      q ≡ₚ filter (fun p => aged ages p = true) (f <$> dn))
    (fun i q => age ← vget ages (f i); Ok (if 0 <? age then insert_by_age age (f i) q else q))
    (seqZ 0 n)) with (s := [] : list Z) as (q & E & dn & El & Hq).
  - intros i k q (dn & El & Hq) Hi.
    destruct (vget_in_range ages (f i)) as [a Ea]; [apply Z.mod_pos_bound; lia|].
    rewrite Ea. cbn [mbind res_bind]. eexists. split; [done|]. exists (dn ++ [i]).
    split; [by rewrite <-app_assoc|]. rewrite fmap_app, filter_app. simpl.
    rewrite filter_cons, filter_nil. unfold aged. rewrite Ea. destruct (0 <? a); simpl.
    + by rewrite insert_by_age_perm, Hq, Permutation_app_comm.
    + by rewrite app_nil_r.
  - by exists [].
  - rewrite app_nil_r in El. subst dn. exists q. split; [exact E|]. rewrite Hq. split.
    + apply NoDup_filter, rotation_NoDup, Hn.
    + intros p. rewrite Hq, list_elem_of_filter. unfold f. rewrite rotation_elem by done.
      split; [tauto|]. intros Ha. split; [done|]. unfold aged in Ha.
      destruct (vget ages p) eqn:E1; [|done|done]. by apply vget_range in E1.
Qed.

(** The order is not by age: an age is compared with a position. *)
Lemma younger_input_first : BuildAgeQueue 0 [9; 1] = Ok [1; 0].
Proof. reflexivity. Qed.

(** ** Queues *)

Lemma concat_lookup {A} (l : list (list A)) i q :
  l !! i = Some q -> concat l ≡ₚ q ++ concat (delete i l).
Proof.
  intros E. rewrite <-(take_drop_middle _ _ _ E) at 1. rewrite delete_take_drop.
  rewrite !concat_app. simpl. solve_Permutation.
Qed.

Lemma concat_insert {A} (l : list (list A)) i q q' :
  l !! i = Some q -> concat (<[i := q']> l) ≡ₚ q' ++ concat (delete i l).
Proof.
  intros E. rewrite insert_take_drop by (by eapply lookup_lt_Some). rewrite delete_take_drop.
  rewrite !concat_app. simpl. solve_Permutation.
Qed.

(** ** Invariant of a crossbar *)

(** The packet without its time. *)
Definition strip {P} `{Packet P} (p : P) : P := set_exit_time p 0.
Definition packets {P} (x : Xbar P) : list P := concat (x_in x) ++ concat (x_out x).

Section xbar_laws.
Context {P : Type} `{PacketLaws P} (queue_depth : Z) (in_depth : option Z) (nin nout : nat).

(** The packets of the inputs go to outputs that exist, an input with a positive age has a
    packet, and no output (nor, where they are limited too, an input) holds more than the depth
    allows. *)
Record xbar_ok (x : Xbar P) : Prop := {
  xo_in : length (x_in x) = nin;
  xo_age : length (x_age x) = nin;
  xo_out : length (x_out x) = nout;
  xo_busy : length (x_busy x) = nout;
  xo_dest : Forall (Forall (fun p => 0 <= dest p < Z.of_nat nout)) (x_in x);
  xo_aged : forall i a q, x_age x !! i = Some a -> x_in x !! i = Some q -> 0 < a -> q <> [];
  xo_depth : Forall (fun q => Z.of_nat (length q) <= queue_depth) (x_out x);
  xo_room : forall d, in_depth = Some d -> Forall (fun q => Z.of_nat (length q) <= d) (x_in x) }.

Lemma strip_set p t : strip (set_exit_time p t) = strip p.
Proof. apply set_set. Qed.

Lemma arbitrate_ok clk src x :
  xbar_ok x -> aged (x_age x) src = true ->
  exists x', arbitrate queue_depth clk src x = Ok x' /\ xbar_ok x' /\
    strip <$> packets x ≡ₚ strip <$> packets x' /\
    (forall j, j <> src -> aged (x_age x') j = aged (x_age x) j).
Proof.
  intros [X1 X2 X3 X4 X5 X6 X7 X8] Ha. unfold aged in Ha.
  destruct (vget (x_age x) src) as [a| |] eqn:Ea; [|done|done]. apply Z.ltb_lt in Ha.
  pose proof (vget_range _ _ _ Ea) as Hr. rewrite X2 in Hr. apply vget_Ok in Ea as [_ Ea].
  destruct (vget_in_range (x_in x) src) as [q Eq]; [lia|].
  unfold arbitrate. rewrite Eq. cbn [mbind res_bind]. apply vget_Ok in Eq as [_ Eq].
  destruct q as [|p rest]; [by destruct (X6 _ _ _ Ea Eq Ha)|].
  assert (Forall (fun p => 0 <= dest p < Z.of_nat nout) (p :: rest)) as [Hd Hrest]%Forall_cons
    by (rewrite Forall_lookup in X5; eauto).
  destruct (vget_in_range (x_out x) (dest p)) as [o Eo]; [lia|]. rewrite Eo. cbn [mbind res_bind].
  apply vget_Ok in Eo as [_ Eo].
  destruct (vget_in_range (x_busy x) (dest p)) as [b Eb]; [lia|]. rewrite Eb. cbn [mbind res_bind].
  destruct ((Z.of_nat (length o) <? queue_depth) && (b <=? 0)) eqn:Ec.
  - apply andb_true_iff in Ec as [Ho%Z.ltb_lt _]. rewrite !vset_Ok by lia. cbn [mbind res_bind]. eexists. split; [done|]. split; [|split].
    + split; cbn; rewrite ?length_insert; try done.
      * by apply Forall_insert.
      * intros i a' q Hi Hq. apply list_lookup_insert_Some in Hi as [(<- & <- & _)|[Hne Hi]].
        -- rewrite list_lookup_insert_eq in Hq by lia. injection Hq as <-. destruct rest; [lia|done].
        -- rewrite list_lookup_insert_ne in Hq by done. eauto.
      * apply Forall_insert; [done|]. rewrite length_app. simpl. lia.
      * intros d Ed. specialize (X8 d Ed). apply Forall_insert; [done|].
        rewrite Forall_lookup in X8. specialize (X8 _ _ Eq). simpl in X8. lia.
    + unfold packets. cbn. rewrite (concat_insert _ _ _ _ Eq), (concat_insert _ _ _ _ Eo).
      rewrite (concat_lookup _ _ _ Eq), (concat_lookup _ _ _ Eo), !fmap_app. simpl.
      rewrite strip_set. solve_Permutation.
    + intros j Hj. unfold aged, vget. cbn. destruct (Z.ltb_spec j 0); [done|].
      by rewrite list_lookup_insert_ne by lia.
  - destruct (vmod_Ok (x_age x) src a (s32 (a + 1)) (fun a => Ok (s32 (a + 1)))) as (ages & -> & Es);
      [apply vget_Ok; split; [lia|done]|done|]. cbn [mbind res_bind].
    apply vset_inv in Es as [_ ->]. eexists. split; [done|]. split; [|split; [done|]].
    + split; cbn; rewrite ?length_insert; try done.
      intros i a' q Hi Hq. apply list_lookup_insert_Some in Hi as [(<- & <- & _)|[Hne Hi]]; [|eauto].
      rewrite Eq in Hq. by injection Hq as <-.
    + intros j Hj. unfold aged, vget. cbn. destruct (Z.ltb_spec j 0); [done|].
      by rewrite list_lookup_insert_ne by lia.
Qed.

Lemma push_in_ok i p x :
  xbar_ok x -> 0 <= i < Z.of_nat nin -> 0 <= dest p < Z.of_nat nout ->
  (forall d q, in_depth = Some d -> x_in x !! Z.to_nat i = Some q -> Z.of_nat (length q) < d) ->
  exists x', push_in i p x = Ok x' /\ xbar_ok x' /\ packets x' ≡ₚ p :: packets x /\
    x_out x' = x_out x /\ forall q, x_in x !! Z.to_nat i = Some q ->
    x_in x' = <[Z.to_nat i := q ++ [p]]> (x_in x).
Proof.
  intros [X1 X2 X3 X4 X5 X6 X7 X8] Hi Hd Hroom. unfold push_in.
  destruct (vget_in_range (x_in x) i) as [q Eq]; [lia|].
  destruct (vmod_Ok (x_in x) i q (q ++ [p]) (fun q => Ok (q ++ [p])) Eq eq_refl) as (ins & -> & Es).
  apply vset_inv in Es as [_ ->]. cbn [mbind res_bind]. rewrite vset_Ok by lia. cbn [mbind res_bind].
  apply vget_Ok in Eq as [_ Eq]. eexists. split; [done|]. split; [|split].
  - split; cbn; rewrite ?length_insert; try done.
    + apply Forall_insert; [done|]. apply Forall_app. split; [by rewrite Forall_lookup in X5; eauto|by constructor].
    + intros j a q' Hj Hq. apply list_lookup_insert_Some in Hj as [(<- & <- & _)|[Hne Hj]].
      * rewrite list_lookup_insert_eq in Hq by lia. injection Hq as <-. by destruct q.
      * rewrite list_lookup_insert_ne in Hq by done. eauto.
    + intros d Ed. apply Forall_insert; [by apply X8|]. rewrite length_app. simpl.
      specialize (Hroom d q Ed Eq). lia.
  - unfold packets. cbn. rewrite (concat_insert _ _ _ _ Eq), (concat_lookup _ _ _ Eq). solve_Permutation.
  - split; [done|]. cbn. intros q' E. rewrite Eq in E. by injection E as <-.
Qed.

Lemma pop_out_ok i p rest x :
  xbar_ok x -> vget (x_out x) i = Ok (p :: rest) ->
  exists x', pop_out i x = Ok x' /\ xbar_ok x' /\ packets x ≡ₚ p :: packets x' /\ x_in x' = x_in x.
Proof.
  intros [X1 X2 X3 X4 X5 X6 X7 X8] Eo. unfold pop_out.
  destruct (vmod_Ok (x_out x) i _ rest
    (fun q => match q with [] => Err BadIndex | _ :: rest => Ok rest end) Eo eq_refl) as (outs & -> & Es).
  apply vset_inv in Es as [_ ->]. cbn [mbind res_bind]. apply vget_Ok in Eo as [_ Eo].
  eexists. split; [done|]. split; [|split; [|done]].
  - split; cbn; rewrite ?length_insert; try done. apply Forall_insert; [done|].
    rewrite Forall_lookup in X7. specialize (X7 _ _ Eo). simpl in X7. lia.
  - unfold packets. cbn. rewrite (concat_insert _ _ _ _ Eo), (concat_lookup _ _ _ Eo). solve_Permutation.
Qed.

(** A round always ends well: it moves packets from inputs to outputs and loses none. *)
Lemma drain_xbar_ok clk x :
  nin <> O -> xbar_ok x ->
  exists x', drain_xbar queue_depth clk x = Ok x' /\ xbar_ok x' /\
    strip <$> packets x ≡ₚ strip <$> packets x'.
Proof.
  intros Hn Hx. unfold drain_xbar. cbn [x_age].
  destruct (BuildAgeQueue_ok clk (x_age x)) as (l & -> & Hnd & Hl).
  { intros E. pose proof (xo_age x Hx) as Hlen. rewrite E in Hlen. by destruct Hn. }
  cbn [mbind res_bind]. set (x0 := mkXbar _ _ _ _).
  assert (xbar_ok x0) as Hx0 by (destruct Hx; split; cbn; unfold drain_busy; rewrite ?length_fmap; done).
  destruct (forM_rule (fun k y => xbar_ok y /\ strip <$> packets x ≡ₚ strip <$> packets y /\
      NoDup k /\ forall p, p ∈ k -> aged (x_age y) p = true) (arbitrate queue_depth clk) l)
    with (s := x0) as (x' & E & Hx' & Hp & _); [|split_and!; try done; intros p; apply Hl|eauto].
  intros src k y (Hy & Hp & Hk & Ha) _. apply NoDup_cons in Hk as [Hnin Hk].
  destruct (arbitrate_ok clk src y Hy) as (y' & E & Hy' & Hp' & Hage); [apply Ha; set_solver|].
  exists y'. split; [done|]. split; [done|]. split; [by rewrite Hp|]. split; [done|].
  intros p Hin. rewrite Hage by set_solver. apply Ha. set_solver.
Qed.
End xbar_laws.
