(* ===== verification/Hmc.v ===== *)
(** * The hybrid memory cube

    [DRAMSIM3/src/hmc.h] and [hmc.cc]: the third DRAM system.  Requests enter at the links, cross
    to the quadrants, are executed by the controllers of the vaults, and the responses cross back.
    The logic die and the DRAM run on two clocks; one [ClockTick] is a DRAM cycle with the logic
    cycles that fall into it.  The theorems show that it keeps the promises of the interface
    [BaseDRAMSystem]. *)
From S2P Require Import Prelude DramCommon DramConfig DramTiming BankState ChannelState.
From S2P Require Import DramRefresh SimpleStats CommandQueue Controller DramSystem HmcXbar.
From stdpp Require Import gmap.
Local Open Scope string_scope.
Local Open Scope list_scope.
Local Open Scope Z_scope.

(** ** State *)

(** The two clock domains, in picoseconds and in cycles. *)
Record Clocks := mkClocks {
  logic_clk_ : Z; ps_per_logic_ : Z; logic_ps_ : Z; dram_ps_ : Z }.

(** [links_], [queue_depth_] and [ps_per_dram_] are constants of a configuration, below.  The
    crossbar [reqs_] holds [link_req_queues_], [quad_req_queues_], [quad_busy_] and
    [link_age_counter_]; [resps_] holds [quad_resp_queues_], [link_resp_queues_], [link_busy_] and
    [quad_age_counter_]. *)
Record HMCMemorySystem := mkHMC {
  clocks_ : Clocks;
  next_link_ : Z;
  resp_lookup_table_ : multimap HMCResponse;
  reqs_ : Xbar HMCRequest;
  resps_ : Xbar HMCResponse;
  hmc_clk_ : Z;
  hmc_last_req_clk_ : Z;
  hmc_ctrls_ : list Controller }.

Definition with_clocks (s : HMCMemorySystem) v : HMCMemorySystem :=
  mkHMC v (next_link_ s) (resp_lookup_table_ s) (reqs_ s) (resps_ s) (hmc_clk_ s)
    (hmc_last_req_clk_ s) (hmc_ctrls_ s).
Definition with_next (s : HMCMemorySystem) v : HMCMemorySystem :=
  mkHMC (clocks_ s) v (resp_lookup_table_ s) (reqs_ s) (resps_ s) (hmc_clk_ s)
    (hmc_last_req_clk_ s) (hmc_ctrls_ s).
Definition with_table (s : HMCMemorySystem) v : HMCMemorySystem :=
  mkHMC (clocks_ s) (next_link_ s) v (reqs_ s) (resps_ s) (hmc_clk_ s)
    (hmc_last_req_clk_ s) (hmc_ctrls_ s).
Definition with_reqs (s : HMCMemorySystem) v : HMCMemorySystem :=
  mkHMC (clocks_ s) (next_link_ s) (resp_lookup_table_ s) v (resps_ s) (hmc_clk_ s)
    (hmc_last_req_clk_ s) (hmc_ctrls_ s).
Definition with_resps (s : HMCMemorySystem) v : HMCMemorySystem :=
  mkHMC (clocks_ s) (next_link_ s) (resp_lookup_table_ s) (reqs_ s) v (hmc_clk_ s)
    (hmc_last_req_clk_ s) (hmc_ctrls_ s).
Definition with_hmc_clk (s : HMCMemorySystem) v : HMCMemorySystem :=
  mkHMC (clocks_ s) (next_link_ s) (resp_lookup_table_ s) (reqs_ s) (resps_ s) v
    (hmc_last_req_clk_ s) (hmc_ctrls_ s).
Definition with_last_req (s : HMCMemorySystem) v : HMCMemorySystem :=
  mkHMC (clocks_ s) (next_link_ s) (resp_lookup_table_ s) (reqs_ s) (resps_ s) (hmc_clk_ s)
    v (hmc_ctrls_ s).
Definition with_ctrls (s : HMCMemorySystem) v : HMCMemorySystem :=
  mkHMC (clocks_ s) (next_link_ s) (resp_lookup_table_ s) (reqs_ s) (resps_ s) (hmc_clk_ s)
    (hmc_last_req_clk_ s) v.

Definition ps_per_dram_ : Z := 800.

(** One logic cycle has passed: [logic_ps_ += ps_per_logic_; logic_clk_ += 1]. *)
Definition logic_step (s : HMCMemorySystem) : HMCMemorySystem :=
  let k := clocks_ s in
  with_clocks s (mkClocks (u64 (logic_clk_ k + 1)) (ps_per_logic_ k)
    (u64 (logic_ps_ k + ps_per_logic_ k)) (dram_ps_ k)).

(** [dram_ps_ += ps_per_dram_]. *)
Definition dram_step (s : HMCMemorySystem) : HMCMemorySystem :=
  let k := clocks_ s in
  with_clocks s (mkClocks (logic_clk_ k) (ps_per_logic_ k) (logic_ps_ k)
    (u64 (dram_ps_ k + ps_per_dram_))).

Section hmc.
Context (config : Config) (timing : Timing).

Definition links_ : Z := num_links config.
Definition queue_depth_ : Z := u64 (xbar_queue_depth config).

(** ** Construction *)

(** [SetClockRatio], the value of [ps_per_logic_].  The quotient of the double-precision division
    is cut to an integer: for a speed of at least 1 MHz that is the integer quotient, since a
    quotient below 2^20 that is not an integer stays 2^-31 away from the next one. *)
Definition SetClockRatio : M Z :=
  link_cycles_per_flit ← idiv 128 (link_width config);
  logic_speed ← idiv (link_speed config) link_cycles_per_flit;
  if logic_speed =? 0 then Err BadConversion
  else
    let ps_per_logic := Z.quot 1000000 logic_speed in
    if ps_per_logic <? 0 then Err BadConversion
    else Ok (if ps_per_dram_ <? ps_per_logic then ps_per_dram_ else ps_per_logic).

(** A crossbar with [nin] inputs and [nout] outputs, all empty. *)
Definition emptyXbar {P} (nin nout : Z) : Xbar P :=
  mkXbar (replicate (Z.to_nat nin) []) (replicate (Z.to_nat nout) [])
    (replicate (Z.to_nat nout) 0) (replicate (Z.to_nat nin) 0).

(** A [reserve] of a negative number of elements throws. *)
Definition newHMCMemorySystem : M HMCMemorySystem :=
  if negb (IsHMC config) then Err AbruptExit
  else
    ps_per_logic ← SetClockRatio;
    if channels config <? 0 then Err Uncaught
    else
      ctrls ← mapM (fun _ => newController config) (seqZ 0 (channels config));
      if links_ <? 0 then Err Uncaught
      else
        Ok (mkHMC (mkClocks 0 ps_per_logic 0 0) 0 [] (emptyXbar links_ 4) (emptyXbar 4 links_)
              0 0 ctrls).

(** ** Requests from the processor *)

Definition IterateNextLink (s : HMCMemorySystem) : M HMCMemorySystem :=
  if links_ =? 0 then Err DivZero
  else Ok (with_next s (Z.rem (next_link_ s + 1) links_)).

Definition hmc_will_accept (s : HMCMemorySystem) (hex_addr : Z) (is_write : bool) : M bool :=
  Ok (existsb (fun q => Z.of_nat (length q) <? queue_depth_) (x_in (reqs_ s))).

Definition set_link (r : HMCRequest) (link : Z) : HMCRequest :=
  mkReq (req_type r) (mem_operand r) link (req_quad r) (vault r) (req_flits r) (req_is_write r)
    (req_exit_time r).

Definition InsertReqToLink (s : HMCMemorySystem) (req : HMCRequest) (link : Z)
    : M (bool * HMCMemorySystem) :=
  q ← vget (x_in (reqs_ s)) link;
  if Z.of_nat (length q) <? queue_depth_ then
    let req := set_link req link in
    resp ← newHMCResponse (mem_operand req) (req_type req) link (req_quad req);
    reqs ← push_in link req (reqs_ s);
    let s := with_reqs s reqs in
    let s := with_table s (resp_lookup_table_ s ++ [(resp_id resp, resp)]) in
    Ok (true, with_last_req s (hmc_clk_ s))
  else Ok (false, s).

(** The [while] loop of [InsertHMCReq]. *)
Fixpoint try_links (fuel : nat) (req : HMCRequest) (start_link : Z) (s : HMCMemorySystem)
    : M (bool * HMCMemorySystem) :=
  match fuel with
  | O => NoFuel
  | S fuel =>
      if start_link =? next_link_ s then Ok (false, s)
      else
        '(ok, s) ← InsertReqToLink s req (next_link_ s);
        s ← IterateNextLink s;
        if (ok : bool) then Ok (true, s) else try_links fuel req start_link s
  end.

Definition InsertHMCReq (s : HMCMemorySystem) (req : HMCRequest) : M (bool * HMCMemorySystem) :=
  '(is_inserted, s) ← InsertReqToLink s req (next_link_ s);
  if negb is_inserted then
    let start_link := next_link_ s in
    s ← IterateNextLink s;
    try_links (Z.to_nat links_) req start_link s
  else
    s ← IterateNextLink s;
    Ok (true, s).

Definition request_type (is_write : bool) : M HMCReqType :=
  let b := block_size config in
  if b =? 0 then Ok (if is_write then WR0 else RD0)
  else if b =? 32 then Ok (if is_write then WR32 else RD32)
  else if b =? 64 then Ok (if is_write then WR64 else RD64)
  else if b =? 128 then Ok (if is_write then WR128 else RD128)
  else if b =? 256 then Ok (if is_write then WR256 else RD256)
  else Err AbruptExit.

Definition hmc_add (s : HMCMemorySystem) (hex_addr : Z) (is_write : bool)
    : M (bool * HMCMemorySystem) :=
  req_type ← request_type is_write;
  let vault := GetChannel config hex_addr in
  req ← newHMCRequest req_type hex_addr vault;
  InsertHMCReq s req.

(** ** From the links to the vaults *)

Definition InsertReqToDRAM (s : HMCMemorySystem) (req : HMCRequest) : M HMCMemorySystem :=
  let trans := newTransaction (mem_operand req) (req_is_write req) in
  c ← vget (hmc_ctrls_ s) (vault req);
  ctrls ← vset (hmc_ctrls_ s) (vault req) (Controller.AddTransaction config c trans);
  Ok (with_ctrls s ctrls).

(** The first loop of [DrainRequests] at quadrant [i]. *)
Definition drain_quad (i : Z) (s : HMCMemorySystem) : M HMCMemorySystem :=
  q ← vget (x_out (reqs_ s)) i;
  r ← vget (x_in (resps_ s)) i;
  match q with
  | [] => Ok s
  | req :: _ =>
      if (Z.of_nat (length r) <? queue_depth_) && (exit_time req <=? logic_clk_ (clocks_ s)) then
        c ← vget (hmc_ctrls_ s) (vault req);
        if Controller.WillAcceptTransaction config c (req_is_write req) then
          s ← InsertReqToDRAM s req;
          reqs ← pop_out i (reqs_ s);
          Ok (with_reqs s reqs)
        else Ok s
      else Ok s
  end.

Definition DrainRequests (s : HMCMemorySystem) : M HMCMemorySystem :=
  s ← forM (seqZ 0 4) drain_quad s;
  reqs ← drain_xbar queue_depth_ (logic_clk_ (clocks_ s)) (reqs_ s);
  Ok (with_reqs s reqs).

(** ** From the vaults to the processor *)

(** [read_callback_] for a read response, [write_callback_] for any other. *)
Definition answer (r : HMCResponse) : Z * bool :=
  (resp_id r, negb (bool_decide (resp_type r = RD_RS))).

(** The first loop of [DrainResponses] at link [i], with the callbacks made so far. *)
Definition drain_link (i : Z) (so : HMCMemorySystem * list (Z * bool))
    : M (HMCMemorySystem * list (Z * bool)) :=
  let '(s, out) := so in
  q ← vget (x_out (resps_ s)) i;
  match q with
  | [] => Ok (s, out)
  | resp :: _ =>
      if exit_time resp <=? logic_clk_ (clocks_ s) then
        resps ← pop_out i (resps_ s);
        Ok (with_resps s resps, out ++ [answer resp])
      else Ok (s, out)
  end.

Definition DrainResponses (s : HMCMemorySystem) : M (HMCMemorySystem * list (Z * bool)) :=
  '(s, out) ← forM (seqZ 0 links_) drain_link (s, []);
  resps ← drain_xbar queue_depth_ (logic_clk_ (clocks_ s)) (resps_ s);
  Ok (with_resps s resps, out).

Definition VaultCallback (s : HMCMemorySystem) (req_id : Z) : M HMCMemorySystem :=
  match mm_find req_id (resp_lookup_table_ s) with
  | None => Err BadIndex
  | Some resp =>
      let s := with_table s (mm_erase req_id (resp_lookup_table_ s)) in
      resps ← push_in (resp_quad resp) resp (resps_ s);
      Ok (with_resps s resps)
  end.

(** ** Cycles *)

(** The inner loop of [DRAMClockTick] at vault [i]. *)
Fixpoint return_vault (fuel : nat) (i : Z) (s : HMCMemorySystem) : M HMCMemorySystem :=
  match fuel with
  | O => NoFuel
  | S fuel =>
      c ← vget (hmc_ctrls_ s) i;
      match ReturnDoneTrans c (hmc_clk_ s) with
      | (Some (addr, _), c) =>
          ctrls ← vset (hmc_ctrls_ s) i c;
          s ← VaultCallback (with_ctrls s ctrls) addr;
          return_vault fuel i s
      | (None, c) =>
          ctrls ← vset (hmc_ctrls_ s) i c;
          Ok (with_ctrls s ctrls)
      end
  end.

(** A controller returns at most what its return queue holds. *)
Definition return_fuel (s : HMCMemorySystem) (i : Z) : nat :=
  match vget (hmc_ctrls_ s) i with Ok c => S (length (return_queue_ c)) | _ => 1 end.

Definition DRAMClockTick (s : HMCMemorySystem) : M HMCMemorySystem :=
  s ← forM (seqZ 0 (Z.of_nat (length (hmc_ctrls_ s)))) (fun i s => return_vault (return_fuel s i) i s) s;
  ctrls ← cycle_ctrls config timing (hmc_clk_ s) (hmc_ctrls_ s);
  Ok (with_hmc_clk (with_ctrls s ctrls) (u64 (hmc_clk_ s + 1))).

(** The [while] loop of [ClockTick]. *)
Fixpoint logic_cycles (fuel : nat) (s : HMCMemorySystem) (out : list (Z * bool))
    : M (HMCMemorySystem * list (Z * bool)) :=
  match fuel with
  | O => NoFuel
  | S fuel =>
      if logic_ps_ (clocks_ s) <? u64 (dram_ps_ (clocks_ s) + ps_per_dram_) then
        '(s, o) ← DrainResponses s;
        s ← DrainRequests s;
        logic_cycles fuel (logic_step s) (out ++ o)
      else Ok (s, out)
  end.

(** The first part of [ClockTick]: the DRAM cycle, together with a logic cycle when both clocks
    meet. *)
Definition dram_cycle (s : HMCMemorySystem) : M (HMCMemorySystem * list (Z * bool)) :=
  if dram_ps_ (clocks_ s) =? logic_ps_ (clocks_ s) then
    '(s, out) ← DrainResponses s;
    s ← DRAMClockTick s;
    s ← DrainRequests s;
    Ok (logic_step s, out)
  else
    s ← DRAMClockTick s;
    Ok (s, []).

(** Each turn of the loop moves [logic_ps_] on by at least a picosecond, so [ps_per_dram_] turns
    and the last test are enough. *)
Definition hmc_tick (s : HMCMemorySystem) : M (HMCMemorySystem * list (Z * bool)) :=
  '(s, out) ← dram_cycle s;
  '(s, out) ← logic_cycles (S (Z.to_nat ps_per_dram_)) s out;
  Ok (dram_step s, out).
End hmc.

(** ** Invariant *)

(** What does not depend on the times survives a crossbar. *)
Lemma strip_fmap {P B} `{Packet P} (f : P -> B) l l' :
  (forall p, f (strip p) = f p) -> strip <$> l ≡ₚ strip <$> l' -> f <$> l ≡ₚ f <$> l'.
Proof.
  intros Hf Hp. apply (fmap_Permutation f) in Hp. rewrite <-!list_fmap_compose in Hp.
  by rewrite !(list_fmap_ext (f ∘ strip) f) in Hp by (intros; apply Hf).
Qed.

Lemma strip_Forall {P} `{Packet P} (Q : P -> Prop) l l' :
  (forall p, Q (strip p) <-> Q p) -> strip <$> l ≡ₚ strip <$> l' -> Forall Q l -> Forall Q l'.
Proof.
  intros HQ Hp Hl. assert (Forall Q (strip <$> l')) as H'.
  { rewrite <-Hp. apply Forall_fmap. eapply Forall_impl; [exact Hl|]. intros p Hq. by apply HQ. }
  rewrite Forall_fmap in H'. eapply Forall_impl; [exact H'|]. intros p Hq. by apply HQ.
Qed.

Lemma mem_operand_strip (r : HMCRequest) : mem_operand (strip r) = mem_operand r.
Proof. done. Qed.
Lemma answer_strip (r : HMCResponse) : answer (strip r) = answer r.
Proof. done. Qed.

Section laws.
Context (config : Config) (timing : Timing).

(** A configuration the crossbars and the vaults can work with. *)
Record hmc_ok : Prop := {
  ho_vaults : jedec_ok config timing;
  ho_links : 1 <= num_links config;
  ho_block : block_size config ∈ [0; 32; 64; 128; 256] }.

Hypothesis ok : hmc_ok.
Abbreviation nlinks := (Z.to_nat (links_ config)).
Abbreviation depth := (queue_depth_ config).

Definition in_vaults (s : HMCMemorySystem) : list (Z * bool) := concat (ids <$> hmc_ctrls_ s).

(** A request that was routed by its address. *)
Definition req_ok (r : HMCRequest) : Prop := vault r = GetChannel config (mem_operand r).

Definition resp_ok (e : Z * HMCResponse) : Prop :=
  resp_id (snd e) = fst e /\ 0 <= resp_quad (snd e) < 4 /\ 0 <= resp_link (snd e) < links_ config.

(** Both crossbars and all vaults are in order; the responses prepared in the lookup table are
    those of the requests in the request crossbar, in the vaults, and in [hand]: taken from a
    vault and not yet looked up. *)
Record hmc_core (hand : list Z) (s : HMCMemorySystem) : Prop := {
  hc_clk : 0 <= hmc_clk_ s;
  hc_next : 0 <= next_link_ s < links_ config;
  hc_reqs : xbar_ok depth (Some depth) nlinks 4 (reqs_ s);
  hc_resps : xbar_ok depth None 4 nlinks (resps_ s);
  hc_routed : Forall req_ok (packets (reqs_ s));
  hc_table : (resp_lookup_table_ s).*1 ≡ₚ
    hand ++ (mem_operand <$> packets (reqs_ s)) ++ (in_vaults s).*1;
  hc_resp : Forall resp_ok (resp_lookup_table_ s);
  hc_vaults : Z.of_nat (length (hmc_ctrls_ s)) = channels config;
  hc_ctrls : forall i c, hmc_ctrls_ s !! i = Some c -> ctrl_ok config (hmc_clk_ s) i c }.

(** The answers that are still due. *)
Definition hmc_outstanding (s : HMCMemorySystem) : list (Z * bool) :=
  answer <$> ((resp_lookup_table_ s).*2 ++ packets (resps_ s)).

(** A step that touches no clock. *)
Definition same_time (s s' : HMCMemorySystem) : Prop :=
  clocks_ s' = clocks_ s /\ hmc_clk_ s' = hmc_clk_ s.

Lemma same_time_trans s1 s2 s3 : same_time s1 s2 -> same_time s2 s3 -> same_time s1 s3.
Proof. unfold same_time. intros [-> ->] [-> ->]. done. Qed.

(** One vault changes, and the request crossbar with it: the books balance when what is in hand, in
    the crossbar and in that vault does. *)
Lemma core_vault hand hand' s i c c' x :
  hmc_core hand s -> hmc_ctrls_ s !! i = Some c -> ctrl_ok config (hmc_clk_ s) i c' ->
  Forall req_ok (packets x) -> xbar_ok depth (Some depth) nlinks 4 x ->
  hand ++ (mem_operand <$> packets (reqs_ s)) ++ (ids c).*1 ≡ₚ
    hand' ++ (mem_operand <$> packets x) ++ (ids c').*1 ->
  hmc_core hand' (with_reqs (with_ctrls s (<[i := c']> (hmc_ctrls_ s))) x).
Proof.
  intros [C1 C2 C3 C4 C5 C6 C7 C8 C9] El Hc' Hx1 Hx2 Hp. split; try done; simpl.
  - rewrite C6. unfold in_vaults. simpl.
    assert ((ids <$> hmc_ctrls_ s) !! i = Some (ids c)) as El' by (by rewrite list_lookup_fmap, El).
    rewrite list_fmap_insert, (concat_insert _ _ _ _ El'), (concat_lookup _ _ _ El').
    rewrite !fmap_app, !(assoc_L (++)). apply Permutation_app_tail. by rewrite <-!(assoc_L (++)).
  - by rewrite length_insert.
  - intros j d Hj. apply list_lookup_insert_Some in Hj as [(<- & <- & _)|[_ Hj]]; [done|by apply C9].
Qed.

(** ** Responses *)

Lemma VaultCallback_ok a hand s :
  hmc_core (a :: hand) s ->
  exists s', VaultCallback s a = Ok s' /\ hmc_core hand s' /\ same_time s s' /\
    hmc_ctrls_ s' = hmc_ctrls_ s /\ hmc_outstanding s ≡ₚ hmc_outstanding s'.
Proof.
  intros [C1 C2 C3 C4 C5 C6 C7 C8 C9]. unfold VaultCallback.
  destruct (mm_find_erase a (resp_lookup_table_ s)) as (r & -> & Hp & _).
  { rewrite C6. by left. }
  set (rest := mm_erase a _) in *. rewrite Hp in C7, C6. apply Forall_cons in C7 as [(Hid & Hq & Hl) C7]. simpl in *.
  apply Permutation_cons_inv in C6.
  destruct (push_in_ok depth None 4 nlinks (resp_quad r) r (resps_ s) C4) as (x & -> & Hx & Hpx & _);
    [lia|simpl; lia|done|].
  cbn [mbind res_bind]. eexists. split; [done|]. split; [by split|]. split; [done|]. split; [done|].
  unfold hmc_outstanding. simpl. rewrite Hp, Hpx. rewrite !fmap_app. simpl. solve_Permutation.
Qed.

(** A vault hands back what it has finished, within the length of its return queue. *)
Lemma return_vault_ok fuel i s c :
  hmc_core [] s -> vget (hmc_ctrls_ s) i = Ok c -> (length (return_queue_ c) < fuel)%nat ->
  exists s', return_vault fuel i s = Ok s' /\ hmc_core [] s' /\ same_time s s' /\
    length (hmc_ctrls_ s') = length (hmc_ctrls_ s) /\ hmc_outstanding s ≡ₚ hmc_outstanding s'.
Proof.
  revert s c. induction fuel as [|fuel IH]; intros s c Hs Ec Hf; [lia|]. cbn [return_vault].
  rewrite Ec. cbn [mbind res_bind]. pose proof (vget_range _ _ _ Ec) as Hr.
  pose proof Ec as [_ El]%vget_Ok. destruct (hc_ctrls _ _ Hs _ _ El) as ((F & Hc) & Hk & Hch).
  pose proof (ReturnDoneTrans_ok config c F (hmc_clk_ s) Hc) as Hrt. unfold ReturnDoneTrans in *.
  destruct (take_done (hmc_clk_ s) (return_queue_ c)) as [[t rest]|] eqn:E.
  - destruct Hrt as (Hc1 & Hi & Ek). set (c1 := with_pending _ _ _ rest) in *.
    rewrite vset_Ok by done. cbn [mbind res_bind]. set (s1 := with_ctrls s _).
    assert (hmc_core [t_addr t] s1) as Hs1.
    { apply (core_vault [] [t_addr t] s _ c c1 (reqs_ s) Hs El).
      - split; [eauto|]. split; [congruence|]. rewrite Hi in Hch. by apply Forall_cons in Hch as [_ ?].
      - apply (hc_routed _ _ Hs).
      - apply (hc_reqs _ _ Hs).
      - rewrite Hi. simpl. solve_Permutation. }
    destruct (VaultCallback_ok _ _ _ Hs1) as (s2 & -> & Hs2 & Ht2 & Ec2 & Hp2). cbn [mbind res_bind].
    destruct (IH s2 c1 Hs2) as (s3 & -> & Hs3 & Ht3 & El3 & Hp3).
    { rewrite Ec2. unfold s1. simpl. apply vget_Ok. split; [lia|]. apply list_lookup_insert_eq. lia. }
    { apply take_done_spec in E as [Hp _]. rewrite Hp in Hf. simpl in *. lia. }
    exists s3. split; [done|]. split; [done|]. split; [|split].
    + eapply same_time_trans; [exact Ht2|exact Ht3].
    + rewrite El3, Ec2. unfold s1. simpl. apply length_insert.
    + by rewrite <-Hp3, <-Hp2.
  - rewrite vset_Ok by done. cbn [mbind res_bind]. rewrite list_insert_id by done.
    exists s. split; [by destruct s|]. done.
Qed.

Lemma DRAMClockTick_ok s :
  hmc_core [] s -> hmc_clk_ s < 2 ^ 64 - 2 ^ 31 ->
  exists s', DRAMClockTick config timing s = Ok s' /\ hmc_core [] s' /\ clocks_ s' = clocks_ s /\
    hmc_clk_ s' = hmc_clk_ s + 1 /\ hmc_outstanding s ≡ₚ hmc_outstanding s'.
Proof.
  intros Hs Hk. unfold DRAMClockTick. set (n := length (hmc_ctrls_ s)).
  destruct (forM_inv (fun s' => hmc_core [] s' /\ same_time s s' /\ length (hmc_ctrls_ s') = n /\
      hmc_outstanding s ≡ₚ hmc_outstanding s') (fun i s => return_vault (return_fuel s i) i s)
    (seqZ 0 (Z.of_nat n)) s) as (s1 & -> & Hs1 & [Et Ek] & El & Hp).
  { intros i s1 Hi%elem_of_range (Hs1 & Ht1 & El1 & Hp1).
    destruct (vget_in_range (hmc_ctrls_ s1) i) as [c Ec]; [lia|]. unfold return_fuel. rewrite Ec.
    destruct (return_vault_ok (S (length (return_queue_ c))) i s1 c Hs1 Ec)
      as (s2 & -> & Hs2 & Ht2 & El2 & Hp2); [lia|].
    exists s2. split; [done|]. split; [done|]. split; [by eapply same_time_trans|].
    split; [congruence|]. by rewrite Hp1. }
  { done. }
  cbn [mbind res_bind]. destruct Hs1 as [C1 C2 C3 C4 C5 C6 C7 C8 C9].
  destruct (cycle_ctrls_ok config timing (ho_vaults ok) (hmc_clk_ s1) (hmc_ctrls_ s1))
    as (cs & -> & L & Hcs & Hpc); [lia|done|].
  cbn [mbind res_bind]. rewrite wrapU_small by lia. eexists. split; [done|].
  split; [|split; [done|split; [simpl; lia|done]]].
  split; try done; simpl; [lia| |lia]. rewrite C6. unfold in_vaults. simpl. by rewrite Hpc.
Qed.

(** The times of the packets do not matter. *)
Lemma core_reqs hand s x :
  hmc_core hand s -> xbar_ok depth (Some depth) nlinks 4 x ->
  strip <$> packets (reqs_ s) ≡ₚ strip <$> packets x -> hmc_core hand (with_reqs s x).
Proof.
  intros [C1 C2 C3 C4 C5 C6 C7 C8 C9] Hx Hp. split; try done; simpl.
  - by eapply strip_Forall; [|exact Hp|].
  - rewrite C6. by rewrite (strip_fmap mem_operand _ _ mem_operand_strip Hp).
Qed.

(** ** Requests *)

Lemma drain_quad_ok i s :
  hmc_core [] s -> 0 <= i < 4 ->
  exists s', drain_quad config i s = Ok s' /\ hmc_core [] s' /\ same_time s s' /\
    hmc_outstanding s = hmc_outstanding s'.
Proof.
  intros Hs Hi. unfold drain_quad.
  destruct (vget_in_range (x_out (reqs_ s)) i) as [q Eq]; [rewrite (xo_out _ _ _ _ _ (hc_reqs _ _ Hs)); lia|].
  destruct (vget_in_range (x_in (resps_ s)) i) as [r Er]; [rewrite (xo_in _ _ _ _ _ (hc_resps _ _ Hs)); lia|].
  rewrite Eq, Er. cbn [mbind res_bind]. destruct q as [|req rest]; [by exists s|].
  destruct (_ && _); [|by exists s].
  destruct (pop_out_ok _ _ _ _ i req rest (reqs_ s) (hc_reqs _ _ Hs) Eq) as (x & Ex & Hx & Hp & _).
  pose proof (hc_routed _ _ Hs) as Hro. rewrite Hp in Hro. apply Forall_cons in Hro as [Hv Hro].
  unfold req_ok in Hv. pose proof (GetChannel_range config timing (ho_vaults ok) (mem_operand req)) as Hr.
  destruct (vget_in_range (hmc_ctrls_ s) (vault req)) as [c Ec]; [rewrite (hc_vaults _ _ Hs); lia|].
  rewrite Ec. cbn [mbind res_bind]. destruct (Controller.WillAcceptTransaction _ _ _); [|by exists s].
  unfold InsertReqToDRAM. rewrite Ec. cbn [mbind res_bind].
  rewrite vset_Ok by (rewrite (hc_vaults _ _ Hs); lia). cbn [mbind res_bind].
  change (reqs_ (with_ctrls _ _)) with (reqs_ s). rewrite Ex. cbn [mbind res_bind].
  apply vget_Ok in Ec as [_ Ec]. destruct (hc_ctrls _ _ Hs _ _ Ec) as ((F & Hc) & Hk & Hch).
  destruct (AddTransaction_ok config c F (newTransaction (mem_operand req) (req_is_write req)) Hc)
    as (Hc' & Hi' & Ek').
  eexists. split; [done|]. split; [|done].
  apply (core_vault [] [] s _ c _ x Hs Ec); [|done|done|rewrite Hp, Hi'; simpl; solve_Permutation].
  split; [eauto|]. split; [congruence|]. rewrite Hi'. constructor; [simpl; lia|done].
Qed.

Lemma DrainRequests_ok s :
  hmc_core [] s ->
  exists s', DrainRequests config s = Ok s' /\ hmc_core [] s' /\ same_time s s' /\
    hmc_outstanding s = hmc_outstanding s'.
Proof.
  intros Hs. unfold DrainRequests.
  destruct (forM_inv (fun s' => hmc_core [] s' /\ same_time s s' /\ hmc_outstanding s = hmc_outstanding s')
    (drain_quad config) (seqZ 0 4) s) as (s1 & -> & Hs1 & Ht1 & Hp1); [|done|].
  { intros i s1 Hi%elem_of_range (Hs1 & Ht1 & Hp1).
    destruct (drain_quad_ok i s1 Hs1 Hi) as (s2 & -> & Hs2 & Ht2 & Hp2).
    exists s2. split; [done|]. split; [done|]. split; [by eapply same_time_trans|congruence]. }
  cbn [mbind res_bind]. pose proof (ho_links ok) as Hlinks.
  destruct (drain_xbar_ok depth (Some depth) nlinks 4 (logic_clk_ (clocks_ s1)) (reqs_ s1))
    as (x & -> & Hx & Hp); [unfold links_; lia|apply (hc_reqs _ _ Hs1)|].
  cbn [mbind res_bind]. eexists. split; [done|]. split; [by apply core_reqs|]. done.
Qed.

(** ** Answers *)

Lemma drain_link_ok i s out :
  hmc_core [] s -> 0 <= i < links_ config ->
  exists s' o, drain_link i (s, out) = Ok (s', out ++ o) /\ hmc_core [] s' /\ same_time s s' /\
    hmc_outstanding s ≡ₚ o ++ hmc_outstanding s'.
Proof.
  intros Hs Hi. unfold drain_link.
  destruct (vget_in_range (x_out (resps_ s)) i) as [q Eq]; [rewrite (xo_out _ _ _ _ _ (hc_resps _ _ Hs)); lia|].
  rewrite Eq. cbn [mbind res_bind].
  assert (exists s' o, Ok (s, out) = Ok (s', out ++ o) :> M _ /\ hmc_core [] s' /\ same_time s s' /\
    hmc_outstanding s ≡ₚ o ++ hmc_outstanding s') as Hstay.
  { exists s, []. by rewrite app_nil_r. }
  destruct q as [|r rest]; [done|]. destruct (_ <=? _); [|done].
  destruct (pop_out_ok _ _ _ _ i r rest (resps_ s) (hc_resps _ _ Hs) Eq) as (x & -> & Hx & Hp & _).
  cbn [mbind res_bind]. eexists _, [answer r]. split; [done|]. split; [|split; [done|]].
  - destruct Hs. by split.
  - unfold hmc_outstanding. simpl. rewrite Hp, !fmap_app. simpl. solve_Permutation.
Qed.

Lemma DrainResponses_ok s :
  hmc_core [] s ->
  exists s' out, DrainResponses config s = Ok (s', out) /\ hmc_core [] s' /\ same_time s s' /\
    hmc_outstanding s ≡ₚ out ++ hmc_outstanding s'.
Proof.
  intros Hs. unfold DrainResponses.
  destruct (forM_inv (fun so => hmc_core [] so.1 /\ same_time s so.1 /\
      hmc_outstanding s ≡ₚ so.2 ++ hmc_outstanding so.1)
    drain_link (seqZ 0 (links_ config)) (s, [])) as ([s1 out] & -> & Hs1 & Ht1 & Hp1); [|done|].
  { intros i [s1 out] Hi%elem_of_range (Hs1 & Ht1 & Hp1). simpl in *.
    destruct (drain_link_ok i s1 out Hs1 Hi) as (s2 & o & E & Hs2 & Ht2 & Hp2).
    exists (s2, out ++ o). split; [exact E|]. split; [done|]. split; [by eapply same_time_trans|].
    simpl. by rewrite Hp1, Hp2, (assoc_L (++)). }
  simpl in *. cbn [mbind res_bind].
  destruct (drain_xbar_ok depth None 4 nlinks (logic_clk_ (clocks_ s1)) (resps_ s1))
    as (x & -> & Hx & Hp); [done|apply (hc_resps _ _ Hs1)|].
  cbn [mbind res_bind]. eexists _, _. split; [done|]. split; [|split; [done|]].
  - destruct Hs1. by split.
  - rewrite Hp1. unfold hmc_outstanding. simpl. rewrite !fmap_app.
    by rewrite (strip_fmap answer _ _ answer_strip Hp).
Qed.
(** ** Clocks *)

(** [k] DRAM cycles have passed; the logic clock is ahead by less than one of its cycles. *)
Record clocks_ok (k : Z) (c : Clocks) : Prop := {
  ck_ratio : 1 <= ps_per_logic_ c <= ps_per_dram_;
  ck_dram : dram_ps_ c = k * ps_per_dram_;
  ck_phase : 0 <= logic_ps_ c - dram_ps_ c < ps_per_logic_ c;
  ck_logic : logic_ps_ c = logic_clk_ c * ps_per_logic_ c }.

(** The logic clock on its way through a DRAM cycle that starts at [D]. *)
Record on_the_way (r D : Z) (c : Clocks) : Prop := {
  ow_ratio : ps_per_logic_ c = r;
  ow_dram : dram_ps_ c = D;
  ow_phase : D <= logic_ps_ c < D + ps_per_dram_ + r;
  ow_logic : logic_ps_ c = logic_clk_ c * r }.

Lemma logic_step_ok r D s :
  1 <= r <= ps_per_dram_ -> 0 <= D < 2 ^ 64 - 2 * ps_per_dram_ -> on_the_way r D (clocks_ s) ->
  logic_ps_ (clocks_ s) < D + ps_per_dram_ ->
  on_the_way r D (clocks_ (logic_step s)) /\
  logic_ps_ (clocks_ (logic_step s)) = logic_ps_ (clocks_ s) + r.
Proof.
  unfold ps_per_dram_. intros Hr HD [E1 E2 E3 E4] Hlt. unfold logic_step. simpl. rewrite E1.
  assert (0 <= logic_clk_ (clocks_ s) <= logic_ps_ (clocks_ s)) by nia.
  rewrite !wrapU_small by lia. split; [|done]. split; simpl; [done|done|unfold ps_per_dram_; lia|lia].
Qed.

Lemma core_clocks hand s k : hmc_core hand s -> hmc_core hand (with_clocks s k).
Proof. intros []. by split. Qed.

(** The logic cycles of a DRAM cycle: there are finitely many, because each takes at least a
    picosecond. *)
Lemma logic_cycles_ok r D fuel s out :
  1 <= r <= ps_per_dram_ -> 0 <= D < 2 ^ 64 - 2 * ps_per_dram_ ->
  hmc_core [] s -> on_the_way r D (clocks_ s) ->
  (Z.to_nat (D + ps_per_dram_ - logic_ps_ (clocks_ s)) < fuel)%nat ->
  exists s' o, logic_cycles config fuel s out = Ok (s', out ++ o) /\ hmc_core [] s' /\
    hmc_clk_ s' = hmc_clk_ s /\ on_the_way r D (clocks_ s') /\
    D + ps_per_dram_ <= logic_ps_ (clocks_ s') /\ hmc_outstanding s ≡ₚ o ++ hmc_outstanding s'.
Proof.
  intros Hr HD. revert s out. induction fuel as [|fuel IH]; intros s out Hs Hw Hf; [lia|].
  cbn [logic_cycles]. rewrite (ow_dram _ _ _ Hw).
  rewrite (wrapU_small 64 (D + ps_per_dram_)) by (unfold ps_per_dram_ in *; lia).
  destruct (Z.ltb_spec (logic_ps_ (clocks_ s)) (D + ps_per_dram_)) as [Hlt|Hge]; cycle 1.
  { exists s, []. by rewrite app_nil_r. }
  destruct (DrainResponses_ok s Hs) as (s1 & o1 & -> & Hs1 & [Et1 Ek1] & Hp1). cbn [mbind res_bind].
  destruct (DrainRequests_ok s1 Hs1) as (s2 & -> & Hs2 & [Et2 Ek2] & Hp2). cbn [mbind res_bind].
  destruct (logic_step_ok r D s2 Hr HD) as [Hw3 El3]; [congruence..|].
  destruct (IH (logic_step s2) (out ++ o1)) as (s4 & o & -> & Hs4 & Ek4 & Hw4 & Hge & Hp4);
    [by apply core_clocks|done|rewrite El3; rewrite Et2, Et1; lia|].
  exists s4, (o1 ++ o). split; [by rewrite (assoc_L (++))|]. split; [done|].
  split; [rewrite Ek4; simpl; congruence|]. split; [done|]. split; [done|].
  rewrite Hp1, Hp2, <-(assoc_L (++)). by rewrite <-Hp4.
Qed.

Record hmc_inv (s : HMCMemorySystem) : Prop := {
  hi_core : hmc_core [] s;
  hi_clocks : clocks_ok (hmc_clk_ s) (clocks_ s) }.

(** The picoseconds of [2 ^ 54] DRAM cycles still fit 64 bits. *)
Definition hmc_horizon : Z := 2 ^ 54.

Lemma dram_cycle_ok r D s :
  1 <= r <= ps_per_dram_ -> 0 <= D < 2 ^ 64 - 2 * ps_per_dram_ -> hmc_clk_ s < 2 ^ 64 - 2 ^ 31 ->
  hmc_core [] s -> on_the_way r D (clocks_ s) ->
  exists s' out, dram_cycle config timing s = Ok (s', out) /\ hmc_core [] s' /\
    hmc_clk_ s' = hmc_clk_ s + 1 /\ on_the_way r D (clocks_ s') /\
    hmc_outstanding s ≡ₚ out ++ hmc_outstanding s'.
Proof.
  intros Hr HD Hhi Hs Hw. unfold dram_cycle. rewrite (ow_dram _ _ _ Hw).
  destruct (Z.eqb_spec D (logic_ps_ (clocks_ s))) as [HDl|HDl].
  - destruct (DrainResponses_ok s Hs) as (s1 & o1 & -> & Hs1 & [Et1 Ek1] & Hp1). cbn [mbind res_bind].
    destruct (DRAMClockTick_ok s1 Hs1) as (s2 & -> & Hs2 & Et2 & Ek2 & Hp2); [lia|]. cbn [mbind res_bind].
    destruct (DrainRequests_ok s2 Hs2) as (s3 & -> & Hs3 & [Et3 Ek3] & Hp3). cbn [mbind res_bind].
    assert (clocks_ s3 = clocks_ s) as Et by congruence.
    destruct (logic_step_ok r D s3 Hr HD) as [Hw4 _]; [by rewrite Et|rewrite Et; unfold ps_per_dram_; lia|].
    eexists _, _. split; [done|]. split; [by apply core_clocks|]. split; [simpl; lia|].
    split; [done|]. by rewrite Hp1, Hp2, Hp3.
  - destruct (DRAMClockTick_ok s Hs) as (s2 & -> & Hs2 & Et2 & Ek2 & Hp2); [lia|]. cbn [mbind res_bind].
    exists s2, []. split; [done|]. split; [done|]. split; [done|]. by rewrite Et2.
Qed.

Lemma hmc_tick_ok s :
  hmc_inv s -> hmc_clk_ s < hmc_horizon ->
  exists s' out, hmc_tick config timing s = Ok (s', out) /\ hmc_inv s' /\
    hmc_clk_ s' = hmc_clk_ s + 1 /\ hmc_outstanding s ≡ₚ out ++ hmc_outstanding s'.
Proof.
  unfold hmc_horizon. intros [Hs [K1 K2 K3 K4]] Hhi. pose proof (hc_clk _ _ Hs) as Hlo.
  set (r := ps_per_logic_ (clocks_ s)) in *. set (D := dram_ps_ (clocks_ s)) in *.
  assert (0 <= D < 2 ^ 64 - 2 * ps_per_dram_) as HD by (unfold ps_per_dram_ in *; lia).
  unfold hmc_tick. destruct (dram_cycle_ok r D s K1 HD) as (s1 & o1 & -> & Hs1 & Ek1 & Hw1 & Hp1);
    [lia|done|split; try done; unfold ps_per_dram_ in *; lia|].
  cbn [mbind res_bind].
  destruct (logic_cycles_ok r D (S (Z.to_nat ps_per_dram_)) s1 o1 K1 HD Hs1 Hw1)
    as (s2 & o2 & -> & Hs2 & Ek2 & [W1 W2 W3 W4] & Hge & Hp2);
    [pose proof (ow_phase _ _ _ Hw1); unfold ps_per_dram_ in *; lia|].
  cbn [mbind res_bind]. eexists _, _. split; [done|]. split; [split|split].
  - by apply core_clocks.
  - simpl. rewrite W2. rewrite wrapU_small by (unfold ps_per_dram_ in *; lia).
    split; simpl; rewrite ?W1; unfold ps_per_dram_ in *; lia.
  - simpl. lia.
  - by rewrite Hp1, Hp2, (assoc_L (++)).
Qed.

(** ** Insertion *)

(** A link with a place left. *)
Definition room (s : HMCMemorySystem) (link : Z) : bool :=
  match vget (x_in (reqs_ s)) link with Ok q => Z.of_nat (length q) <? depth | _ => false end.

(** A request as [AddTransaction] makes them, with the response it expects. *)
Definition routed (req : HMCRequest) (k : HMCRespType) : Prop :=
  req_ok req /\ 0 <= req_quad req < 4 /\ exists f, response_kind (req_type req) = Ok (k, f).

Definition expects (req : HMCRequest) (k : HMCRespType) : Z * bool :=
  (mem_operand req, negb (bool_decide (k = RD_RS))).

Lemma InsertReqToLink_ok s req k link :
  hmc_core [] s -> routed req k -> 0 <= link < links_ config ->
  if room s link then
    exists s', InsertReqToLink config s req link = Ok (true, s') /\ hmc_core [] s' /\
      same_time s s' /\ next_link_ s' = next_link_ s /\
      hmc_outstanding s' ≡ₚ expects req k :: hmc_outstanding s
  else InsertReqToLink config s req link = Ok (false, s).
Proof.
  intros Hs (Hro & Hq & f & Hk) Hl. unfold room, InsertReqToLink.
  destruct (vget_in_range (x_in (reqs_ s)) link) as [q Eq];
    [rewrite (xo_in _ _ _ _ _ (hc_reqs _ _ Hs)); lia|].
  rewrite Eq. cbn [mbind res_bind]. destruct (Z.ltb_spec (Z.of_nat (length q)) depth) as [Hlt|]; [|done].
  unfold newHMCResponse. cbn [set_link req_type]. rewrite Hk. cbn [mbind res_bind].
  apply vget_Ok in Eq as [_ Eq]. destruct Hs as [C1 C2 C3 C4 C5 C6 C7 C8 C9].
  destruct (push_in_ok depth (Some depth) nlinks 4 link (set_link req link) (reqs_ s) C3)
    as (x & -> & Hx & Hp & _); [lia|simpl; lia| |].
  { intros d q' Ed Eq'. injection Ed as <-. rewrite Eq in Eq'. by injection Eq' as <-. }
  cbn [mbind res_bind]. eexists. split; [done|]. split; [|split; [done|split; [done|]]].
  - split; try done; simpl.
    + rewrite Hp. by constructor.
    + rewrite fmap_app, C6, Hp. simpl. unfold in_vaults. simpl. solve_Permutation.
    + apply Forall_app. split; [done|]. constructor; [|done]. by split.
  - unfold hmc_outstanding, expects. simpl. rewrite !fmap_app. simpl. solve_Permutation.
Qed.

Lemma IterateNextLink_ok s :
  hmc_core [] s -> exists n, IterateNextLink config s = Ok (with_next s n) /\
    n = (next_link_ s + 1) mod links_ config /\ hmc_core [] (with_next s n).
Proof.
  intros Hs. unfold IterateNextLink. pose proof (ho_links ok). pose proof (hc_next _ _ Hs).
  destruct (Z.eqb_spec (links_ config) 0); [unfold links_ in *; lia|].
  rewrite Z.rem_mod_nonneg by lia. eexists. split; [done|]. split; [done|].
  destruct Hs. split; try done. simpl. apply Z.mod_pos_bound. lia.
Qed.

(** The loop over the links: the first [j] links from [start] on are full, the next one to try is
    link [start + j]. *)
Lemma try_links_ok req k start s j fuel :
  hmc_core [] s -> routed req k -> 0 <= start < links_ config ->
  1 <= j <= links_ config -> next_link_ s = (start + j) mod links_ config ->
  (forall i, 0 <= i < j -> room s ((start + i) mod links_ config) = false) ->
  (Z.to_nat (links_ config - j) < fuel)%nat ->
  (exists s' l, try_links config fuel req start s = Ok (true, s') /\ hmc_core [] s' /\
     same_time s s' /\ hmc_outstanding s' ≡ₚ expects req k :: hmc_outstanding s /\
     0 <= l < links_ config /\ room s l = true) \/
  (try_links config fuel req start s = Ok (false, with_next s start) /\
   forall l, 0 <= l < links_ config -> room s l = false).
Proof.
  intros Hs Hreq Hst. revert s j Hs. induction fuel as [|fuel IH]; intros s j Hs Hj En Hfull Hf; [lia|].
  cbn [try_links]. pose proof (ho_links ok) as Hpos. set (n := links_ config) in *.
  destruct (Z.eqb_spec start (next_link_ s)) as [E|E].
  - right. split; [by rewrite E; destruct s|]. intros l Hl.
    assert (j = n) as ->.
    { destruct (Z.eq_dec j n) as [|Hne]; [done|]. exfalso.
      destruct (Z.lt_ge_cases (start + j) n).
      - rewrite (Z.mod_small (start + j)) in En by lia. lia.
      - rewrite <-(Z.mod_add _ (-1)), (Z.mod_small (start + j + -1 * n)) in En by lia. lia. }
    specialize (Hfull ((l - start) mod n)). rewrite Z.add_mod_idemp_r in Hfull by lia.
    replace (start + (l - start)) with l in Hfull by lia. rewrite (Z.mod_small l) in Hfull by lia.
    apply Hfull. apply Z.mod_pos_bound. lia.
  - pose proof (InsertReqToLink_ok s req k (next_link_ s) Hs Hreq (hc_next _ _ Hs)) as Hi.
    destruct (room s (next_link_ s)) eqn:Er.
    + destruct Hi as (s1 & -> & Hs1 & Ht1 & En1 & Hp1). cbn [mbind res_bind].
      destruct (IterateNextLink_ok s1 Hs1) as (m & -> & _ & Hs2). cbn [mbind res_bind].
      left. eexists _, (next_link_ s). split; [done|]. split; [done|]. split; [done|]. split; [done|].
      split; [apply (hc_next _ _ Hs)|done].
    + rewrite Hi. cbn [mbind res_bind].
      destruct (IterateNextLink_ok s Hs) as (m & -> & Em & Hs2). cbn [mbind res_bind].
      assert (j < n) as Hjn.
      { destruct (Z.eq_dec j n) as [->|]; [|lia]. exfalso. apply E. rewrite En.
        rewrite <-(Z.mod_add _ (-1)), Z.mod_small by lia. lia. }
      apply (IH (with_next s m) (j + 1)); [done|lia| | |lia].
      * simpl. rewrite Em, En. fold n. rewrite Z.add_mod_idemp_l by lia. f_equal. lia.
      * intros i Hi'. destruct (Z.eq_dec i j) as [->|]; [by rewrite <-En|]. apply Hfull. lia.
Qed.

(** A request is taken exactly when some link has room; otherwise nothing changes. *)
Lemma InsertHMCReq_ok s req k :
  hmc_core [] s -> routed req k ->
  (exists s', InsertHMCReq config s req = Ok (true, s') /\ hmc_core [] s' /\ same_time s s' /\
     hmc_outstanding s' ≡ₚ expects req k :: hmc_outstanding s /\
     hmc_will_accept config s (mem_operand req) (req_is_write req) = Ok true) \/
  (InsertHMCReq config s req = Ok (false, s) /\
   hmc_will_accept config s (mem_operand req) (req_is_write req) = Ok false).
Proof.
  intros Hs Hreq. unfold InsertHMCReq. pose proof (hc_next _ _ Hs) as Hn.
  assert (forall l, 0 <= l < links_ config -> room s l = true ->
    hmc_will_accept config s (mem_operand req) (req_is_write req) = Ok true) as Hyes.
  { intros l Hl Hr. unfold hmc_will_accept, room in *. destruct (vget _ l) as [q| |] eqn:Eq; [|done|done].
    f_equal. apply existsb_exists. exists q. split; [|done].
    apply vget_Ok in Eq as [_ Eq]. by eapply list_elem_of_In, list_elem_of_lookup_2. }
  pose proof (InsertReqToLink_ok s req k (next_link_ s) Hs Hreq Hn) as Hi.
  destruct (room s (next_link_ s)) eqn:Er.
  - destruct Hi as (s1 & -> & Hs1 & Ht1 & En1 & Hp1). cbn [mbind res_bind negb].
    destruct (IterateNextLink_ok s1 Hs1) as (m & -> & _ & Hs2). cbn [mbind res_bind].
    left. eexists. split_and!; [done..|]. by eapply Hyes.
  - rewrite Hi. cbn [mbind res_bind negb].
    destruct (IterateNextLink_ok s Hs) as (m & -> & Em & Hs2). cbn [mbind res_bind].
    destruct (try_links_ok req k (next_link_ s) (with_next s m) 1 (Z.to_nat (links_ config)) Hs2 Hreq Hn)
      as [(s' & l & -> & Hs' & Ht' & Hp' & Hl & Hr)|[-> Hfull]]; [lia|done| |lia| |].
    + intros i Hi'. assert (i = 0) as -> by lia. rewrite Z.add_0_r, Z.mod_small by lia. exact Er.
    + left. eexists. split_and!; [done..|]. by eapply Hyes.
    + right. split; [by destruct s|]. unfold hmc_will_accept. f_equal.
      apply not_true_is_false. intros (q & Hq%list_elem_of_In & Hlt)%existsb_exists.
      apply list_elem_of_lookup_1 in Hq as (i & Hq). pose proof (lookup_lt_Some _ _ _ Hq) as Hlen.
      rewrite (xo_in _ _ _ _ _ (hc_reqs _ _ Hs)) in Hlen.
      specialize (Hfull (Z.of_nat i)). unfold room in Hfull. simpl in Hfull.
      assert (vget (x_in (reqs_ s)) (Z.of_nat i) = Ok q) as Ev by (apply vget_Ok; rewrite Nat2Z.id; split; [lia|done]).
      rewrite Ev in Hfull. rewrite Hfull in Hlt by lia. done.
Qed.

(** ** The interface *)

Lemma request_type_ok w : exists t f g,
  request_type config w = Ok t /\ request_flits t = Ok f /\
  response_kind t = Ok (if w then WR_RS else RD_RS, g).
Proof.
  pose proof (ho_block ok) as Hb. unfold request_type. rewrite !elem_of_cons in Hb.
  destruct Hb as [-> |[-> |[-> |[-> |[-> |Hb]]]]]; [destruct w; by eexists _, _, _..|].
  by apply elem_of_nil in Hb.
Qed.

Lemma quad_range a : 0 <= Z.rem (GetChannel config a) 4 < 4.
Proof. pose proof (GetChannel_range config timing (ho_vaults ok) a). apply Z.rem_bound_pos; lia. Qed.

(** [AddTransaction] takes a request exactly when the system said it would, and otherwise leaves
    the system as it was. *)
Lemma hmc_add_spec s a w :
  hmc_core [] s ->
  (exists s', hmc_add config s a w = Ok (true, s') /\ hmc_core [] s' /\ same_time s s' /\
     hmc_outstanding s' ≡ₚ (a, w) :: hmc_outstanding s /\ hmc_will_accept config s a w = Ok true) \/
  (hmc_add config s a w = Ok (false, s) /\ hmc_will_accept config s a w = Ok false).
Proof.
  intros Hs. unfold hmc_add. destruct (request_type_ok w) as (t & f & g & -> & Hf & Hg).
  cbn [mbind res_bind]. unfold newHMCRequest. rewrite Hf. cbn [mbind res_bind].
  set (req := mkReq _ _ _ _ _ _ _ _).
  assert (routed req (if w then WR_RS else RD_RS)) as Hreq by (split; [done|]; split; [apply quad_range|eauto]).
  assert (expects req (if w then WR_RS else RD_RS) = (a, w)) as He by (by destruct w).
  pose proof (InsertHMCReq_ok s req _ Hs Hreq) as H. by rewrite He in H.
Qed.

Lemma hmc_will_accept_ok s a w : hmc_inv s -> exists b, hmc_will_accept config s a w = Ok b.
Proof. intros _. by eexists. Qed.

Lemma hmc_add_ok s a w :
  hmc_inv s -> hmc_will_accept config s a w = Ok true ->
  exists s', hmc_add config s a w = Ok (true, s') /\ hmc_inv s' /\ hmc_clk_ s' = hmc_clk_ s /\
    hmc_outstanding s' ≡ₚ (a, w) :: hmc_outstanding s.
Proof.
  intros [Hs Hk] Hw. destruct (hmc_add_spec s a w Hs) as [(s' & E & Hs' & [Et Ek] & Hp & _)|[_ E]];
    [|congruence].
  exists s'. split; [done|]. split; [|done]. split; [done|]. by rewrite Et, Ek.
Qed.

#[export] Instance hmc_system : BaseDRAMSystem HMCMemorySystem := {
  WillAcceptTransaction := hmc_will_accept config;
  AddTransaction := hmc_add config;
  ClockTick := hmc_tick config timing }.

#[export] Instance hmc_laws : DRAMSystemLaws HMCMemorySystem := {
  sys_inv := hmc_inv;
  outstanding := hmc_outstanding;
  now := hmc_clk_;
  horizon := hmc_horizon;
  will_accept_ok := hmc_will_accept_ok;
  add_ok := hmc_add_ok;
  tick_ok := hmc_tick_ok }.

(** ** Construction *)

Lemma SetClockRatio_max r : SetClockRatio config = Ok r -> 0 <= r <= ps_per_dram_.
Proof.
  unfold SetClockRatio. intros E. run_ok E. destruct (Z.ltb_spec (Z.quot 1000000 x0) 0); [done|].
  destruct (Z.ltb_spec ps_per_dram_ (Z.quot 1000000 x0)); injection E as <-; unfold ps_per_dram_ in *; lia.
Qed.

Lemma concat_replicate_nil {A} n : concat (replicate n ([] : list A)) = [].
Proof. by induction n. Qed.

Lemma emptyXbar_ok {P} `{PacketLaws P} d (nin nout : Z) :
  (forall m, d = Some m -> 0 <= m) ->
  xbar_ok depth d (Z.to_nat nin) (Z.to_nat nout) (emptyXbar nin nout : Xbar P) /\
  packets (emptyXbar nin nout : Xbar P) = [].
Proof.
  intros Hd. split.
  - split; simpl; rewrite ?length_replicate; try done.
    + by apply Forall_replicate.
    + intros i a q [-> _]%lookup_replicate. lia.
    + apply Forall_replicate. simpl. apply wrapU_range. lia.
    + intros m Hm. apply Forall_replicate. simpl. by apply Hd.
  - unfold packets. simpl. by rewrite !concat_replicate_nil.
Qed.

Lemma newHMC_ok s :
  newHMCMemorySystem config = Ok s -> 1 <= ps_per_logic_ (clocks_ s) ->
  hmc_inv s /\ hmc_outstanding s = [] /\ hmc_clk_ s = 0.
Proof.
  unfold newHMCMemorySystem. destruct (negb _); [done|]. intros E Hr.
  destruct (SetClockRatio config) as [r| |] eqn:Er; [|done|done]. cbn [mbind res_bind] in E.
  destruct (Z.ltb_spec (channels config) 0) as [|Hch]; [done|]. run_ok E. injection E as <-.
  pose proof (ho_links ok) as Hl. apply mapM_const in E0 as [Hall Hlen].
  assert (forall c, c ∈ x -> ctrl_inv config c (fun _ => newBankState) [] /\ ids c = [] /\ clk_ c = 0) as Hc.
  { intros c Hin. rewrite Forall_forall in Hall. pose proof (Hall c Hin) as Ec.
    apply (newController_ok config timing (jo_system _ _ (ho_vaults ok)) c Ec).
    by apply (jo_interval _ _ (ho_vaults ok)). }
  destruct (emptyXbar_ok (P := HMCRequest) (Some depth) (links_ config) 4) as [X1 P1];
    [intros m Em; injection Em as <-; apply wrapU_range; lia|].
  destruct (emptyXbar_ok (P := HMCResponse) None 4 (links_ config)) as [X2 P2]; [done|].
  split; [|split; [|done]]; [split|].
  - split; simpl; try done; [unfold links_; lia|by rewrite P1| |by rewrite Hlen, length_seqZ; lia|].
    + rewrite P1. unfold in_vaults. simpl. rewrite (concat_ids_nil x); [done|]. intros c Hin. by apply Hc.
    + intros i c Hi. apply list_elem_of_lookup_2 in Hi. destruct (Hc c Hi) as (H1 & H2 & H3).
      split; [eauto|]. split; [done|]. by rewrite H2.
  - pose proof (SetClockRatio_max _ Er). split; simpl in *; lia.
  - unfold hmc_outstanding. simpl. by rewrite P2.
Qed.

(** When the links are so fast that a logic cycle rounds down to no picoseconds at all, the loop
    of [ClockTick] never ends. *)
Lemma logic_clock_stuck s out fuel :
  hmc_core [] s -> ps_per_logic_ (clocks_ s) = 0 -> 0 <= logic_ps_ (clocks_ s) < 2 ^ 64 ->
  logic_ps_ (clocks_ s) < u64 (dram_ps_ (clocks_ s) + ps_per_dram_) ->
  logic_cycles config fuel s out = NoFuel.
Proof.
  revert s out. induction fuel as [|fuel IH]; intros s out Hs Hr Hl Hlt; [done|]. cbn [logic_cycles].
  rewrite (proj2 (Z.ltb_lt _ _) Hlt).
  destruct (DrainResponses_ok s Hs) as (s1 & o1 & -> & Hs1 & [Et1 _] & _). cbn [mbind res_bind].
  destruct (DrainRequests_ok s1 Hs1) as (s2 & -> & Hs2 & [Et2 _] & _). cbn [mbind res_bind].
  assert (logic_ps_ (clocks_ (logic_step s2)) = logic_ps_ (clocks_ s)) as El.
  { simpl. rewrite Et2, Et1, Hr, Z.add_0_r. by apply wrapU_small. }
  apply IH; [by apply core_clocks|simpl; congruence|by rewrite El|].
  rewrite El. simpl. by rewrite Et2, Et1.
Qed.

(** ** Runs *)

(** Whether the answer to a request is a call of the write callback. *)
Definition answered_as_write (t : HMCReqType) : bool :=
  match response_kind t with Ok (k, _) => negb (bool_decide (k = RD_RS)) | _ => true end.

(** The states a cube goes through before its clock reaches the horizon, with the requests it
    took, of any kind, and the callbacks it made. *)
Inductive hmc_reach : HMCMemorySystem -> list (Z * bool) -> list (Z * bool) -> Prop :=
| reach_new s : newHMCMemorySystem config = Ok s -> hmc_reach s [] []
| reach_insert s s' acc ans t a req b :
    hmc_reach s acc ans -> newHMCRequest t a (GetChannel config a) = Ok req ->
    InsertHMCReq config s req = Ok (b, s') ->
    hmc_reach s' (if (b : bool) then (a, answered_as_write t) :: acc else acc) ans
| reach_tick s s' acc ans out :
    hmc_reach s acc ans -> hmc_clk_ s < hmc_horizon -> hmc_tick config timing s = Ok (s', out) ->
    hmc_reach s' acc (ans ++ out).

Lemma newHMCRequest_routed t a req :
  newHMCRequest t a (GetChannel config a) = Ok req ->
  exists k, routed req k /\ expects req k = (a, answered_as_write t).
Proof.
  unfold newHMCRequest. intros E. run_ok E. injection E as <-.
  unfold routed, expects, answered_as_write. simpl.
  assert (exists k f, response_kind t = Ok (k, f)) as (k & f & Ek) by (destruct t; try done; by eexists _, _).
  exists k. rewrite Ek. split; [|done]. split; [done|]. split; [apply quad_range|eauto].
Qed.

(** The logic clock runs: [SetClockRatio] gives at least a picosecond. *)
Definition ratio_ok : Prop := exists r, SetClockRatio config = Ok r /\ 1 <= r.

Lemma reach_inv s acc ans :
  ratio_ok -> hmc_reach s acc ans -> hmc_inv s /\ acc ≡ₚ ans ++ hmc_outstanding s.
Proof.
  intros (r & Er & Hr). induction 1 as [s E|s s' acc ans t a req b _ [Hs Hp] Ereq E|s s' acc ans out _ [Hs Hp] Hk E].
  - destruct (newHMC_ok s E) as (Hs & -> & _); [|done].
    unfold newHMCMemorySystem in E. rewrite Er in E. destruct (negb _); [done|].
    cbn [mbind res_bind] in E. run_ok E. by injection E as <-.
  - destruct (newHMCRequest_routed t a req Ereq) as (k & Hreq & He). destruct Hs as [Hs Hc].
    destruct (InsertHMCReq_ok s req k Hs Hreq) as [(s1 & E1 & Hs1 & [Et Ek] & Hp1 & _)|[E1 _]];
      rewrite E in E1; injection E1 as -> ->; [|done].
    split; [split; [done|by rewrite Et, Ek]|]. rewrite Hp1, He, Hp. by rewrite Permutation_middle.
  - destruct (hmc_tick_ok s Hs Hk) as (s1 & out1 & E1 & Hs1 & _ & Hp1). rewrite E in E1.
    injection E1 as -> ->. split; [done|]. by rewrite Hp, Hp1, (assoc_L (++)).
Qed.
End laws.

(** C2: A hybrid memory cube never stops while its links have a working speed: from every state
    it reaches, with requests of every kind (posted and atomic ones too) inserted in any order,
    the next cycle ends well; in particular every finished transaction of a vault finds its
    prepared response, the arbiters never look at an empty queue, and the logic cycles of a DRAM
    cycle come to an end.  A transaction is added exactly when the system said it would accept it,
    and a refused one changes nothing.  No request is lost, invented or answered twice; the queues
    of the crossbars that have a limit keep to it; and the two clocks keep their ratio, the logic
    clock being ahead by less than one of its cycles. *)
Theorem hmc_serves config timing s acc ans :
  hmc_ok config timing -> ratio_ok config -> hmc_reach config timing s acc ans ->
  (hmc_clk_ s < hmc_horizon -> exists s' out, hmc_tick config timing s = Ok (s', out)) /\
  (forall a w, exists b s', hmc_will_accept config s a w = Ok b /\ hmc_add config s a w = Ok (b, s') /\
     (b = false -> s' = s)) /\
  acc ≡ₚ ans ++ hmc_outstanding s /\
  Forall (fun q => Z.of_nat (length q) <= queue_depth_ config) (x_in (reqs_ s)) /\
  Forall (fun q => Z.of_nat (length q) <= queue_depth_ config) (x_out (reqs_ s)) /\
  Forall (fun q => Z.of_nat (length q) <= queue_depth_ config) (x_out (resps_ s)) /\
  clocks_ok (hmc_clk_ s) (clocks_ s).
Proof.
  intros ok Hr H. destruct (reach_inv config timing ok s acc ans Hr H) as [Hs Hp]. split_and!.
  - intros Hk. destruct (hmc_tick_ok config timing ok s Hs Hk) as (s' & out & E & _). eauto.
  - intros a w. destruct (hmc_add_spec config timing ok s a w (hi_core _ _ Hs))
      as [(s' & E & _ & _ & _ & Ew)|[E Ew]]; eexists _, _; by split_and!.
  - done.
  - apply (xo_room _ _ _ _ _ (hc_reqs _ _ _ (hi_core _ _ Hs))). done.
  - apply (xo_depth _ _ _ _ _ (hc_reqs _ _ _ (hi_core _ _ Hs))).
  - apply (xo_depth _ _ _ _ _ (hc_resps _ _ _ (hi_core _ _ Hs))).
  - apply (hi_clocks _ _ Hs).
Qed.

(** ** A configuration of the repository *)

(** [configs/HMC_4GB_4Lx16.ini] as a reader. *)
Definition hmc4_values : gmap (string * string) Z :=
  list_to_map [(("hmc", "num_links"), 4); (("hmc", "link_width"), 16); (("hmc", "link_speed"), 15000);
    (("hmc", "block_size"), 64); (("hmc", "xbar_queue_depth"), 6);
    (("dram_structure", "bankgroups"), 1); (("dram_structure", "banks_per_group"), 16);
    (("dram_structure", "rows"), 65536); (("dram_structure", "columns"), 64);
    (("dram_structure", "device_width"), 32); (("dram_structure", "num_dies"), 4);
    (("timing", "CL"), 17); (("timing", "CWL"), 17); (("timing", "tRCD"), 17);
    (("timing", "tRP"), 17); (("timing", "tRAS"), 34); (("timing", "tRFC"), 420);
    (("timing", "tREFI"), 9364); (("timing", "tRRD_S"), 4); (("timing", "tRRD_L"), 4);
    (("timing", "tWTR_S"), 3); (("timing", "tWTR_L"), 3); (("timing", "tFAW"), 27);
    (("timing", "tWR"), 17); (("timing", "tCCD_S"), 6); (("timing", "tCCD_L"), 6);
    (("timing", "tXS"), 12); (("timing", "tCKSRE"), 1); (("timing", "tXP"), 8);
    (("timing", "tRTP_L"), 8); (("timing", "tRTP_S"), 8); (("timing", "tRTRS"), 0);
    (("system", "channel_size"), 256); (("system", "channels"), 16); (("system", "bus_width"), 32);
    (("system", "cmd_queue_size"), 8); (("system", "trans_queue_size"), 32);
    (("other", "epoch_period"), 1250000)].

Definition hmc4_strings : gmap (string * string) string :=
  list_to_map [(("dram_structure", "protocol"), "HMC");
    (("system", "address_mapping"), "rocorabgbach");
    (("system", "queue_structure"), "PER_BANK"); (("system", "row_buf_policy"), "CLOSE_PAGE")].

Definition hmc4_reader : INIReader := {|
  Get sec opt def := default def (hmc4_strings !! (sec, opt));
  reader_GetInteger sec opt def := default def (hmc4_values !! (sec, opt));
  GetBoolean sec opt def := if bool_decide ((sec, opt) = ("system", "unified_queue")) then true else def |}.

Definition hmc4 : Config :=
  ltac:(let r := eval vm_compute in (newConfig hmc4_reader) in
        match r with Ok ?c => exact c end).

Lemma hmc4_built : newConfig hmc4_reader = Ok hmc4.
Proof. vm_compute. reflexivity. Qed.

Lemma hmc4_geometry : geometry_ok hmc4.
Proof. split; vm_compute; intuition discriminate. Qed.

Lemma hmc4_interval : interval_ok hmc4.
Proof.
  assert (exists c, newController hmc4 = Ok c /\ u64 (refresh_interval_ (refresh_ c)) = 9364) as (c' & E' & Hi).
  { eexists. split; reflexivity. }
  intros c E. rewrite E in E'. injection E' as <-. by rewrite Hi.
Qed.

Lemma hmc4_ok : hmc_ok hmc4 (newTiming hmc4).
Proof.
  split; [|done|vm_compute; set_solver].
  by apply (built_jedec_ok hmc4_reader); [apply hmc4_built|apply hmc4_geometry|..|apply hmc4_interval|].
Qed.

Lemma hmc4_ratio : SetClockRatio hmc4 = Ok 533.
Proof. reflexivity. Qed.

Lemma hmc4_new : exists s, newHMCMemorySystem hmc4 = Ok s /\ hmc_clk_ s = 0 /\
  ps_per_logic_ (clocks_ s) = 533.
Proof. eexists. split; [reflexivity|]. split; reflexivity. Qed.

Lemma hmc_serves_witness : exists s, newHMCMemorySystem hmc4 = Ok s /\
  exists s' out, hmc_tick hmc4 (newTiming hmc4) s = Ok (s', out).
Proof.
  destruct hmc4_new as (s & E & Hk & _). exists s. split; [done|].
  refine (proj1 (hmc_serves hmc4 (newTiming hmc4) s [] [] hmc4_ok _ _) _).
  - exists 533. by split; [apply hmc4_ratio|].
  - by apply reach_new.
  - by rewrite Hk.
Defined.

(** Some cycles of that cube, with the answers of each. *)
Fixpoint hmc_ticks (n : nat) (s : HMCMemorySystem) : M (HMCMemorySystem * list (list (Z * bool))) :=
  match n with
  | O => Ok (s, [])
  | S n =>
      '(s, out) ← hmc_tick hmc4 (newTiming hmc4) s;
      '(s, outs) ← hmc_ticks n s;
      Ok (s, out :: outs)
  end.

(** A read alone is answered in the 48th cycle. *)
Lemma cube_read :
  (s ← newHMCMemorySystem hmc4;
   '(_, s) ← hmc_add hmc4 s 4096 false;
   '(_, outs) ← hmc_ticks 48 s; Ok outs) = Ok (replicate 47 [] ++ [[(4096, false)]]).
Proof. vm_compute. reflexivity. Qed.

(** A write of the same address five cycles later answers it in the 14th: the controller reports
    finished transactions by address, and the response found first is the one of the read. *)
Lemma write_answers_read :
  (s ← newHMCMemorySystem hmc4;
   '(_, s) ← hmc_add hmc4 s 4096 false;
   '(s, _) ← hmc_ticks 5 s;
   '(_, s) ← hmc_add hmc4 s 4096 true;
   '(_, outs) ← hmc_ticks 9 s; Ok outs) = Ok (replicate 8 [] ++ [[(4096, false)]]).
Proof. vm_compute. reflexivity. Qed.

(** The same device with links so fast that a logic cycle takes no time. *)
Lemma fast_links_stuck (config : Config) :
  link_width config = 16 -> link_speed config = 8000008 -> SetClockRatio config = Ok 0.
Proof. intros Hw Hs. unfold SetClockRatio. by rewrite Hw, Hs. Qed.
