(* ===== verification/DramCpu.v ===== *)
(** * Processor models of the DRAM simulator

    [DRAMSIM3/src/cpu.h] and [cpu.cc]: the three request sources.  They run on any DRAM system
    that keeps the promises of its interface.  The random generator ([std::mt19937_64]) and the
    trace file are parameters: everything here holds whatever they produce. *)
From S2P Require Import Prelude DramCommon DramConfig DramTiming Controller DramSystem Hmc.
From stdpp Require Import gmap.
Local Open Scope list_scope.
Local Open Scope Z_scope.

Section cpu.
Context {S : Type} `{DRAMSystemLaws S}.

(** What a cycle of a processor does: the new states, the requests it has added and the ones that
    were answered. *)
Abbreviation cycle C := (C * S * list (Z * bool) * list (Z * bool))%type.

(** [if (WillAcceptTransaction(a, w)) AddTransaction(a, w)]. *)
Definition offer (s : S) (a : Z) (w : bool) : M (bool * S * list (Z * bool)) :=
  ok ← WillAcceptTransaction s a w;
  if (ok : bool) then '(_, s) ← AddTransaction s a w; Ok (true, s, [(a, w)])
  else Ok (false, s, []).

(** ** Random requests *)

Section generator.
Context {G : Type} (gen : G -> Z * G).

Record RandomCPU := mkRandom {
  rand_clk_ : Z; last_addr_ : Z; last_write_ : bool; rand_gen : G; get_next_ : bool }.

Definition random_tick (c : RandomCPU) (s : S) : M (cycle RandomCPU) :=
  '(s, answered) ← ClockTick s;
  let '(a, w, g) :=
    if get_next_ c then
      let '(a, g) := gen (rand_gen c) in
      let '(b, g) := gen g in
      (a, b mod 3 =? 0, g)
    else (last_addr_ c, last_write_ c, rand_gen c) in
  '(get_next, s, added) ← offer s a w;
  Ok (mkRandom (u64 (rand_clk_ c + 1)) a w g get_next, s, added, answered).

(** ** Streams *)

Record StreamCPU := mkStream {
  stream_clk_ : Z;
  addr_a_ : Z; addr_b_ : Z; addr_c_ : Z; offset_ : Z;
  stream_gen : G;
  inserted_a_ : bool; inserted_b_ : bool; inserted_c_ : bool }.

Definition array_size_ : Z := Z.shiftl 2 20.
Definition stride_ : Z := 64.

(** [if (!inserted && WillAccept...) { Add...; inserted = true; }]. *)
Definition insert_one (inserted : bool) (s : S) (a : Z) (w : bool)
    : M (bool * S * list (Z * bool)) :=
  if negb inserted then offer s a w else Ok (true, s, []).

Definition stream_tick (c : StreamCPU) (s : S) : M (cycle StreamCPU) :=
  '(s, answered) ← ClockTick s;
  let '(a, b, d, off, g) :=
    if (array_size_ <=? offset_ c) || (stream_clk_ c =? 0) then
      let '(a, g) := gen (stream_gen c) in
      let '(b, g) := gen g in
      let '(d, g) := gen g in
      (a, b, d, 0, g)
    else (addr_a_ c, addr_b_ c, addr_c_ c, offset_ c, stream_gen c) in
  '(ia, s, ra) ← insert_one (inserted_a_ c) s (u64 (a + off)) false;
  '(ib, s, rb) ← insert_one (inserted_b_ c) s (u64 (b + off)) false;
  '(ic, s, rc) ← insert_one (inserted_c_ c) s (u64 (d + off)) true;
  let next := ia && ib && ic in
  Ok (mkStream (u64 (stream_clk_ c + 1)) a b d (if next then u64 (off + stride_) else off) g
        (if next then false else ia) (if next then false else ib) (if next then false else ic),
      s, ra ++ rb ++ rc, answered).
End generator.

(** ** Traces *)

Section trace.
Context {T : Type} (eof : T -> bool) (read : T -> Transaction -> Transaction * T).

Record TraceBasedCPU := mkTrace {
  trace_clk_ : Z; trace_file_ : T; trans_ : Transaction; trace_next_ : bool }.

Definition trace_tick (c : TraceBasedCPU) (s : S) : M (cycle TraceBasedCPU) :=
  '(s, answered) ← ClockTick s;
  let clk := u64 (trace_clk_ c + 1) in
  if negb (eof (trace_file_ c)) then
    let '(t, f) :=
      if trace_next_ c then read (trace_file_ c) (trans_ c) else (trans_ c, trace_file_ c) in
    if added_cycle t <=? trace_clk_ c then
      '(next, s, added) ← offer s (t_addr t) (is_write t);
      Ok (mkTrace clk f t next, s, added, answered)
    else Ok (mkTrace clk f t false, s, [], answered)
  else Ok (mkTrace clk (trace_file_ c) (trans_ c) (trace_next_ c), s, [], answered).
End trace.

(** ** Any number of cycles *)

(** The requests added and answered by [n] cycles, in order. *)
Fixpoint run {C} (tick : C -> S -> M (cycle C)) (n : nat) (c : C) (s : S) : M (cycle C) :=
  match n with
  | O => Ok (c, s, [], [])
  | Datatypes.S n =>
      '(c, s, added, answered) ← tick c s;
      '(c, s, added', answered') ← run tick n c s;
      Ok (c, s, added ++ added', answered ++ answered')
  end.

(** A cycle that keeps the books. *)
Definition fair_cycle {C} (tick : C -> S -> M (cycle C)) : Prop :=
  forall c s, sys_inv s -> now s < horizon S ->
    exists c' s' added answered, tick c s = Ok (c', s', added, answered) /\ sys_inv s' /\
      now s' = now s + 1 /\ outstanding s ++ added ≡ₚ answered ++ outstanding s'.

Lemma offer_ok s a w :
  sys_inv s -> exists ok s' added, offer s a w = Ok (ok, s', added) /\ sys_inv s' /\
    now s' = now s /\ outstanding s ++ added ≡ₚ outstanding s'.
Proof.
  intros Hs. unfold offer. destruct (will_accept_ok s a w Hs) as [[] E]; rewrite E; cbn [mbind res_bind].
  - destruct (add_ok s a w Hs E) as (s' & -> & Hs' & Hn & Hp). cbn [mbind res_bind].
    eexists _, _, _. split; [done|]. split; [done|]. split; [done|].
    rewrite Hp. by rewrite Permutation_app_comm.
  - eexists _, _, _. split; [done|]. split; [done|]. split; [done|]. by rewrite app_nil_r.
Qed.

Lemma insert_one_ok i s a w :
  sys_inv s -> exists ok s' added, insert_one i s a w = Ok (ok, s', added) /\ sys_inv s' /\
    now s' = now s /\ outstanding s ++ added ≡ₚ outstanding s'.
Proof.
  intros Hs. destruct i; [|by apply offer_ok]. exists true, s, []. by rewrite app_nil_r.
Qed.

Lemma run_fair {C} (tick : C -> S -> M (cycle C)) n c s :
  fair_cycle tick -> sys_inv s -> now s + Z.of_nat n <= horizon S ->
  exists c' s' added answered, run tick n c s = Ok (c', s', added, answered) /\ sys_inv s' /\
    now s' = now s + Z.of_nat n /\ outstanding s ++ added ≡ₚ answered ++ outstanding s'.
Proof.
  intros Ht. revert c s. induction n as [|n IH]; intros c s Hs Hn.
  { exists c, s, [], []. rewrite app_nil_r. split_and!; try done. lia. }
  destruct (Ht c s Hs) as (c1 & s1 & add1 & ans1 & E1 & Hs1 & Hn1 & Hp1); [lia|].
  destruct (IH c1 s1 Hs1) as (c2 & s2 & add2 & ans2 & E2 & Hs2 & Hn2 & Hp2); [lia|].
  exists c2, s2, (add1 ++ add2), (ans1 ++ ans2). cbn [run]. rewrite E1. cbn [mbind res_bind].
  rewrite E2. cbn [mbind res_bind]. split_and!; [done|done|lia|].
  by rewrite app_assoc, Hp1, <-app_assoc, Hp2, app_assoc.
Qed.

Lemma random_fair {G} (gen : G -> Z * G) : fair_cycle (random_tick gen).
Proof.
  intros c s Hs Hn. unfold random_tick.
  destruct (tick_ok s Hs Hn) as (s1 & ans & -> & Hs1 & Hn1 & Hp1). cbn [mbind res_bind].
  set (req := if get_next_ c then _ else _). destruct req as [[a w] g].
  destruct (offer_ok s1 a w Hs1) as (ok & s2 & added & -> & Hs2 & Hn2 & Hp2). cbn [mbind res_bind].
  eexists _, _, _, _. split; [done|]. split_and!; [done|lia|]. by rewrite Hp1, <-app_assoc, Hp2.
Qed.

Lemma stream_fair {G} (gen : G -> Z * G) : fair_cycle (stream_tick gen).
Proof.
  intros c s Hs Hn. unfold stream_tick.
  destruct (tick_ok s Hs Hn) as (s1 & ans & -> & Hs1 & Hn1 & Hp1). cbn [mbind res_bind].
  set (req := if (array_size_ <=? offset_ c) || (stream_clk_ c =? 0) then _ else _).
  destruct req as [[[[a b] d] off] g].
  destruct (insert_one_ok (inserted_a_ c) s1 (u64 (a + off)) false Hs1)
    as (ia & s2 & ra & -> & Hs2 & Hn2 & Hp2). cbn [mbind res_bind].
  destruct (insert_one_ok (inserted_b_ c) s2 (u64 (b + off)) false Hs2)
    as (ib & s3 & rb & -> & Hs3 & Hn3 & Hp3). cbn [mbind res_bind].
  destruct (insert_one_ok (inserted_c_ c) s3 (u64 (d + off)) true Hs3)
    as (ic & s4 & rc & -> & Hs4 & Hn4 & Hp4). cbn [mbind res_bind].
  eexists _, _, _, _. split; [done|]. split_and!; [done|lia|].
  by rewrite Hp1, <-Hp4, <-Hp3, <-Hp2, !app_assoc.
Qed.

Lemma trace_fair {T} (eof : T -> bool) (read : T -> Transaction -> Transaction * T) :
  fair_cycle (trace_tick eof read).
Proof.
  intros c s Hs Hn. unfold trace_tick.
  destruct (tick_ok s Hs Hn) as (s1 & ans & -> & Hs1 & Hn1 & Hp1). cbn [mbind res_bind]. cbv zeta.
  destruct (negb (eof (trace_file_ c))); cycle 1.
  { eexists _, _, _, _. split; [done|]. by rewrite app_nil_r. }
  set (next := if trace_next_ c then _ else _). destruct next as [t f].
  destruct (added_cycle t <=? trace_clk_ c); cycle 1.
  { eexists _, _, _, _. split; [done|]. by rewrite app_nil_r. }
  destruct (offer_ok s1 (t_addr t) (is_write t) Hs1) as (ok & s2 & added & -> & Hs2 & Hn2 & Hp2).
  cbn [mbind res_bind]. eexists _, _, _, _. split; [done|]. split_and!; [done|lia|].
  by rewrite Hp1, <-app_assoc, Hp2.
Qed.
End cpu.

(** C1: The three processor models work on any DRAM system that keeps the promises of its
    interface, whatever the random generator or the trace produces: for any number of cycles
    (up to the horizon of the system's clock) nothing stops, in particular the assertion that an added
    request is accepted holds, and the requests answered together with those still outstanding
    are exactly the requests that were added. *)
Theorem processors_served {S} `{DRAMSystemLaws S} {G} (gen : G -> Z * G) {T} (eof : T -> bool)
    (read : T -> Transaction -> Transaction * T) n s cr cs ct :
  sys_inv s -> outstanding s = [] -> now s + Z.of_nat n <= horizon S ->
  (exists c' s' added answered, run (random_tick gen) n cr s = Ok (c', s', added, answered) /\
     added ≡ₚ answered ++ outstanding s') /\
  (exists c' s' added answered, run (stream_tick gen) n cs s = Ok (c', s', added, answered) /\
     added ≡ₚ answered ++ outstanding s') /\
  (exists c' s' added answered, run (trace_tick eof read) n ct s = Ok (c', s', added, answered) /\
     added ≡ₚ answered ++ outstanding s').
Proof.
  intros Hs Ho Hn.
  assert (forall C (tick : C -> S -> _) c, fair_cycle tick -> exists c' s' added answered,
    run tick n c s = Ok (c', s', added, answered) /\ added ≡ₚ answered ++ outstanding s') as Hrun.
  { intros C tick c Ht. destruct (run_fair tick n c s Ht Hs Hn) as (c' & s' & add & ans & E & _ & _ & Hp).
    rewrite Ho in Hp. eauto 10. }
  split_and!; apply Hrun; [apply random_fair|apply stream_fair|apply trace_fair].
Qed.

(** ** The test configuration *)

Lemma hbm1_jedec : jedec_ok hbm1 (newTiming hbm1).
Proof.
  split; [apply hbm1_system|apply hbm1_interval| |done].
  intros x. by destruct (mapping_in_range hbm1_reader hbm1 hbm1_built hbm1_geometry x) as [? _].
Qed.

Lemma hbm1_channels : exists s, newJedecDRAMSystem hbm1 = Ok s /\ length (ctrls_ s) = 8%nat.
Proof. eexists. split; reflexivity. Qed.

(** A linear congruential generator, and a trace of one read. *)
Definition lcg (x : Z) : Z * Z := (x, u64 (6364136223846793005 * x + 1442695040888963407)).
Definition one_line (left : nat) (t : Transaction) : Transaction * nat :=
  match left with O => (t, O) | Datatypes.S n => (newTransaction 4096 false, n) end.

(** The random processor on the channels of one test configuration and on a memory cube. *)
Lemma processors_served_witness :
  (exists s c' s' added answered, newJedecDRAMSystem hbm1 = Ok s /\
     run (random_tick (H := jedec_system hbm1 (newTiming hbm1)) lcg) 1000
       (mkRandom 0 0 false 1 true) s = Ok (c', s', added, answered) /\
     added ≡ₚ answered ++ jedec_outstanding s') /\
  (exists s c' s' added answered, newHMCMemorySystem hmc4 = Ok s /\
     run (random_tick (H := hmc_system hmc4 (newTiming hmc4)) lcg) 1000
       (mkRandom 0 0 false 1 true) s = Ok (c', s', added, answered) /\
     added ≡ₚ answered ++ hmc_outstanding s').
Proof.
  pose (cs := mkStream 0 0 0 0 0 1 false false false).
  pose (ct := mkTrace 0 1%nat (newTransaction 0 false) true). split.
  - destruct hbm1_channels as (s & E & _).
    destruct (newJedec_ok hbm1 (newTiming hbm1) hbm1_jedec s E) as (Hs & Ho & Hk).
    destruct (processors_served (H0 := jedec_laws hbm1 (newTiming hbm1) hbm1_jedec) lcg
      (Nat.eqb 0) one_line 1000 s (mkRandom 0 0 false 1 true) cs ct Hs Ho)
      as [(c' & s' & added & answered & Er & Hp) _]; [simpl; rewrite Hk; lia|].
    exists s, c', s', added, answered. split; [exact E|]. split; [exact Er|exact Hp].
  - destruct hmc4_new as (s & E & _ & Hr).
    destruct (newHMC_ok hmc4 (newTiming hmc4) hmc4_ok s E) as (Hs & Ho & Hk); [by rewrite Hr|].
    destruct (processors_served (H0 := hmc_laws hmc4 (newTiming hmc4) hmc4_ok) lcg
      (Nat.eqb 0) one_line 1000 s (mkRandom 0 0 false 1 true) cs ct Hs Ho)
      as [(c' & s' & added & answered & Er & Hp) _]; [simpl; rewrite Hk; unfold hmc_horizon; lia|].
    exists s, c', s', added, answered. split; [exact E|]. split; [exact Er|exact Hp].
Defined.
