(* ===== verification/Cosim.v ===== *)
(** * Co-simulation of the processor with the DRAM simulator

    Three layers between the Verilog memory port and the DRAM systems: [DRAMSIM3]'s facade
    [memory_system.cc], its co-simulation wrapper [cosimulation.h] and [cosimulation.cc], which
    matches the completions of the simulator to the requests by address, and the bridge at the end
    of the emulator's [ram.cc] (the WITH_DRAMSIM3 build), whose calls the Verilog side makes.

    How many DRAM cycles fall into a processor cycle is decided by sums of doubles; it is an
    argument [n] of [tick], and the theorems hold for every choice of it.  The lock of the wrapper
    is left out: all calls come from the one simulation thread. *)
From S2P Require Import Prelude DramCommon DramConfig DramTiming Controller DramSystem Hmc.
From stdpp Require Import gmap.
Local Open Scope string_scope.
Local Open Scope list_scope.
Local Open Scope Z_scope.

(** ** The facade *)

(** [MemorySystem]: the pointer [dram_system_] to one of two kinds of system. *)
Inductive MemorySystem :=
| HMCSystem (s : HMCMemorySystem)
| JedecSystem (s : JedecDRAMSystem).

Section facade.
Context (config : Config).

Definition newMemorySystem : M MemorySystem :=
  if IsHMC config then s ← newHMCMemorySystem config; Ok (HMCSystem s)
  else s ← newJedecDRAMSystem config; Ok (JedecSystem s).

#[export] Instance memory_system : BaseDRAMSystem MemorySystem := {
  WillAcceptTransaction s a w :=
    match s with
    | HMCSystem s => hmc_will_accept config s a w
    | JedecSystem s => jedec_will_accept config s a w
    end;
  AddTransaction s a w :=
    match s with
    | HMCSystem s => '(b, s) ← hmc_add config s a w; Ok (b, HMCSystem s)
    | JedecSystem s => '(b, s) ← jedec_add config s a w; Ok (b, JedecSystem s)
    end;
  ClockTick s :=
    match s with
    | HMCSystem s => '(s, out) ← hmc_tick config (newTiming config) s; Ok (HMCSystem s, out)
    | JedecSystem s => '(s, out) ← jedec_tick config (newTiming config) s; Ok (JedecSystem s, out)
    end }.
End facade.

(** ** The co-simulation interface *)

(** [CoDRAMRequest]; [meta] points to the tag of the Verilog side. *)
Record CoDRAMRequest := mkCoReq { co_address : Z; co_is_write : bool; co_meta : Z }.

(** [CoDRAMResponse]; [finish_time] is set when the request completes. *)
Record CoDRAMResponse := mkCoResp { co_req : CoDRAMRequest; req_time : Z; finish_time : Z }.

#[export] Instance CoDRAMRequest_eq_dec : EqDecision CoDRAMRequest.
Proof. solve_decision. Defined.

(** The virtual methods of [CoDRAMsim3]; [check_response] is [check_write_response] or
    [check_read_response]. *)
Class CoDRAMsim3 (C : Type) := {
  tick : nat -> C -> M C;
  will_accept : C -> Z -> bool -> M bool;
  add_request : C -> CoDRAMRequest -> M (bool * C);
  check_response : bool -> C -> option CoDRAMResponse * C }.

(** What the bridge relies on: up to the horizon of the clock nothing stops, a request that would
    be accepted enters, and a response is that of a request in flight, which then leaves. *)
Class CoDRAMLaws (C : Type) `{CoDRAMsim3 C} := {
  co_inv : C -> Prop;
  in_flight : C -> list CoDRAMRequest;
  co_time : C -> Z;
  co_horizon : Z;
  co_accept_ok c a w : co_inv c -> exists b, will_accept c a w = Ok b;
  co_add_ok c r : co_inv c -> will_accept c (co_address r) (co_is_write r) = Ok true ->
    exists c', add_request c r = Ok (true, c') /\ co_inv c' /\ co_time c' = co_time c /\
      in_flight c' ≡ₚ r :: in_flight c;
  co_tick_ok n c : co_inv c -> co_time c + Z.of_nat n <= co_horizon ->
    exists c', tick n c = Ok c' /\ co_inv c' /\ co_time c' <= co_time c + Z.of_nat n /\
      in_flight c' ≡ₚ in_flight c;
  co_check_ok w c : co_inv c ->
    match check_response w c with
    | (None, c') => c' = c
    | (Some x, c') => co_inv c' /\ co_time c' = co_time c /\ co_is_write (co_req x) = w /\
        in_flight c ≡ₚ co_req x :: in_flight c'
    end }.
Arguments co_horizon C {_ _}.

(** ** A fixed latency *)

Record SimpleCoDRAMsim3 := mkSimple {
  simple_clock : Z; latency : Z; resp_list : list CoDRAMResponse }.

(** The loop of [SimpleCoDRAMsim3::check_response]: the first finished response of the kind. *)
Fixpoint take_response (is_write : bool) (now : Z) (l : list CoDRAMResponse)
    : option (CoDRAMResponse * list CoDRAMResponse) :=
  match l with
  | [] => None
  | resp :: l =>
      if Bool.eqb (co_is_write (co_req resp)) is_write && (finish_time resp <=? now)
      then Some (resp, l)
      else '(r, rest) ← take_response is_write now l; Some (r, resp :: rest)
  end.

#[export] Instance simple_cosim : CoDRAMsim3 SimpleCoDRAMsim3 := {
  tick _ c := Ok (mkSimple (u64 (simple_clock c + 1)) (latency c) (resp_list c));
  will_accept _ _ _ := Ok true;
  add_request c r :=
    let now := simple_clock c in
    Ok (true, mkSimple now (latency c)
                (resp_list c ++ [mkCoResp r now (u64 (now + latency c))]));
  check_response w c :=
    match take_response w (simple_clock c) (resp_list c) with
    | Some (resp, rest) => (Some resp, mkSimple (simple_clock c) (latency c) rest)
    | None => (None, c)
    end }.

(** ** The DRAM simulator behind the interface *)

Section complex.
Context {S : Type} `{BaseDRAMSystem S}.

Record ComplexCoDRAMsim3 := mkComplex {
  memory : S;
  dram_clock : Z;
  padding : Z;
  req_list : list CoDRAMResponse;
  resp_read_queue : list CoDRAMResponse;
  resp_write_queue : list CoDRAMResponse }.

(** The first request in the list that matches a completion, and the others. *)
Fixpoint take_match (a : Z) (is_write : bool) (l : list CoDRAMResponse)
    : option (CoDRAMResponse * list CoDRAMResponse) :=
  match l with
  | [] => None
  | resp :: l =>
      if (co_address (co_req resp) =? a) && Bool.eqb (co_is_write (co_req resp)) is_write
      then Some (resp, l)
      else '(r, rest) ← take_match a is_write l; Some (r, resp :: rest)
  end.

Definition callback (p : Z * bool) (c : ComplexCoDRAMsim3) : M ComplexCoDRAMsim3 :=
  let '(a, is_write) := p in
  match take_match a is_write (req_list c) with
  | None => Err Aborted
  | Some (resp, rest) =>
      let finish := u64 (req_time resp + (dram_clock c - req_time resp) + padding c) in
      let resp := mkCoResp (co_req resp) (req_time resp) finish in
      Ok (if co_is_write (co_req resp) then
            mkComplex (memory c) (dram_clock c) (padding c) rest (resp_read_queue c)
              (resp_write_queue c ++ [resp])
          else
            mkComplex (memory c) (dram_clock c) (padding c) rest (resp_read_queue c ++ [resp])
              (resp_write_queue c))
  end.

(** One turn of the loop of [ComplexCoDRAMsim3::tick]. *)
Definition dram_tick (c : ComplexCoDRAMsim3) : M ComplexCoDRAMsim3 :=
  '(m, out) ← ClockTick (memory c);
  forM out callback (mkComplex m (dram_clock c) (padding c) (req_list c) (resp_read_queue c)
                       (resp_write_queue c)).

Fixpoint dram_ticks (n : nat) (c : ComplexCoDRAMsim3) : M ComplexCoDRAMsim3 :=
  match n with
  | O => Ok c
  | Datatypes.S n => c ← dram_tick c; dram_ticks n c
  end.

(** [check_response(queue)]: the front of the queue, once its padding has passed. *)
Definition front_done (now : Z) (q : list CoDRAMResponse)
    : option (CoDRAMResponse * list CoDRAMResponse) :=
  match q with
  | [] => None
  | resp :: rest => if finish_time resp <=? now then Some (resp, rest) else None
  end.

#[export] Instance complex_cosim : CoDRAMsim3 ComplexCoDRAMsim3 := {
  tick n c :=
    dram_ticks n (mkComplex (memory c) (u64 (dram_clock c + 1)) (padding c) (req_list c)
                    (resp_read_queue c) (resp_write_queue c));
  will_accept c a w := WillAcceptTransaction (memory c) a w;
  add_request c r :=
    '(_, m) ← AddTransaction (memory c) (co_address r) (co_is_write r);
    Ok (true, mkComplex m (dram_clock c) (padding c) (req_list c ++ [mkCoResp r (dram_clock c) 0])
                (resp_read_queue c) (resp_write_queue c));
  check_response w c :=
    match front_done (dram_clock c) (if w then resp_write_queue c else resp_read_queue c) with
    | None => (None, c)
    | Some (resp, rest) =>
        (Some resp,
         if w then mkComplex (memory c) (dram_clock c) (padding c) (req_list c)
                     (resp_read_queue c) rest
         else mkComplex (memory c) (dram_clock c) (padding c) (req_list c) rest
                (resp_write_queue c))
    end }.
End complex.
Arguments ComplexCoDRAMsim3 S : clear implicits.

(** [ComplexCoDRAMsim3::ComplexCoDRAMsim3] on a file that parses, with no memory set up before:
    only some protocols are supported, and the two frequencies must be given. *)
Definition cosim_protocols : list string := ["DDR4"; "DDR5"; "DDR3"; "LPDDR5"].

Definition newComplexCoDRAMsim3 (reader : INIReader) (padding_time : Z)
    : M (Config * ComplexCoDRAMsim3 MemorySystem) :=
  if bool_decide (Get reader "dram_structure" "protocol" "DDR3" ∈ cosim_protocols) then
    if (reader_GetInteger reader "other" "cpu_freq" 0 =? 0)
       || (reader_GetInteger reader "other" "dram_freq" 0 =? 0)
    then Err Aborted
    else
      config ← newConfig reader;
      m ← newMemorySystem config;
      Ok (config, mkComplex m 0 padding_time [] [] [])
  else Err Aborted.

(** ** The bridge *)

Section bridge.
Context {C : Type} `{CoDRAMsim3 C}.

(** The statics of [ram.cc]. *)
Record Bridge := mkBridge {
  dram : option C;
  dram_step_count : Z;
  read_addrs_outstanding : gset Z;
  write_addrs_outstanding : gset Z }.

Definition DRAM_RESET_SETTLE_TICKS : Z := 200.

(** [dramsim3_init] with a model that could be built. *)
Definition dramsim3_init (c : C) (b : Bridge) : M Bridge :=
  match dram b with
  | Some _ => Err AssertFailed
  | None => Ok (mkBridge (Some c) (dram_step_count b) (read_addrs_outstanding b)
                  (write_addrs_outstanding b))
  end.

Definition dramsim3_step (n : nat) (b : Bridge) : M Bridge :=
  match dram b with
  | None => Ok b
  | Some c =>
      c ← tick n c;
      Ok (mkBridge (Some c) (u64 (dram_step_count b + 1)) (read_addrs_outstanding b)
            (write_addrs_outstanding b))
  end.

Definition dramsim3_finish (b : Bridge) : Bridge :=
  mkBridge None (dram_step_count b) (read_addrs_outstanding b) (write_addrs_outstanding b).

Definition outstanding_of (isWrite : bool) (b : Bridge) : gset Z :=
  if isWrite then write_addrs_outstanding b else read_addrs_outstanding b.

Definition set_outstanding (isWrite : bool) (v : gset Z) (c : C) (b : Bridge) : Bridge :=
  if isWrite then mkBridge (Some c) (dram_step_count b) (read_addrs_outstanding b) v
  else mkBridge (Some c) (dram_step_count b) v (write_addrs_outstanding b).

(** Bit 32 of the value says that there is a response. *)
Definition memory_response (isWrite : bool) (b : Bridge) : Z * Bridge :=
  match dram b with
  | None => (0, b)
  | Some c =>
      match check_response isWrite c with
      | (Some response, c) =>
          let outstanding := outstanding_of isWrite b ∖ {[ co_address (co_req response) ]} in
          (Z.lor (co_meta (co_req response)) (Z.shiftl 1 32), set_outstanding isWrite outstanding c b)
      | (None, c) => (0, mkBridge (Some c) (dram_step_count b) (read_addrs_outstanding b)
                           (write_addrs_outstanding b))
      end
  end.

Definition memory_request (address id : Z) (isWrite : bool) (b : Bridge) : M (bool * Bridge) :=
  match dram b with
  | None => Ok (false, b)
  | Some c =>
      if dram_step_count b <? DRAM_RESET_SETTLE_TICKS then Ok (false, b)
      else if bool_decide (u64 address ∈ outstanding_of isWrite b) then Ok (false, b)
      else
        ok ← will_accept c (u64 address) isWrite;
        if (ok : bool) then
          '(_, c) ← add_request c (mkCoReq (u64 address) isWrite (u32 id));
          Ok (true, set_outstanding isWrite ({[ u64 address ]} ∪ outstanding_of isWrite b) c b)
        else Ok (false, b)
  end.
End bridge.
Arguments Bridge C : clear implicits.

(** ** The facade keeps the promises of both systems *)

Section facade_laws.
Context (config : Config).

(** A configuration its kind of system can work with. *)
Definition memory_ok : Prop :=
  if IsHMC config then hmc_ok config (newTiming config) /\ ratio_ok config
  else jedec_ok config (newTiming config).
Hypothesis ok : memory_ok.

Definition memory_inv (s : MemorySystem) : Prop :=
  match s with
  | HMCSystem s => IsHMC config = true /\ hmc_inv config s
  | JedecSystem s => IsHMC config = false /\ jedec_inv config s
  end.
Definition memory_outstanding (s : MemorySystem) : list (Z * bool) :=
  match s with HMCSystem s => hmc_outstanding s | JedecSystem s => jedec_outstanding s end.
Definition memory_now (s : MemorySystem) : Z :=
  match s with HMCSystem s => hmc_clk_ s | JedecSystem s => sys_clk_ s end.

Lemma memory_hmc : IsHMC config = true -> hmc_ok config (newTiming config) /\ ratio_ok config.
Proof. intros E. unfold memory_ok in ok. by rewrite E in ok. Qed.
Lemma memory_jedec : IsHMC config = false -> jedec_ok config (newTiming config).
Proof. intros E. unfold memory_ok in ok. by rewrite E in ok. Qed.

#[export] Program Instance memory_laws :
    @DRAMSystemLaws MemorySystem (memory_system config) := {
  sys_inv := memory_inv;
  outstanding := memory_outstanding;
  now := memory_now;
  horizon := hmc_horizon }.
Next Obligation.
  intros [s|s] a w [E Hs]; simpl; [by eapply hmc_will_accept_ok|].
  by apply (jedec_will_accept_ok _ _ (memory_jedec E)).
Qed.
Next Obligation.
  intros [s|s] a w [E Hs]; simpl; intros Hw.
  - destruct (hmc_add_ok _ _ (proj1 (memory_hmc E)) s a w Hs Hw) as (s' & -> & Hs' & Hk & Hp).
    eexists. split; [done|]. by split.
  - destruct (jedec_add_ok _ _ (memory_jedec E) s a w Hs Hw) as (s' & -> & Hs' & Hk & Hp).
    eexists. split; [done|]. by split.
Qed.
Next Obligation.
  intros [s|s] [E Hs]; simpl; intros Hk.
  - destruct (hmc_tick_ok _ _ (proj1 (memory_hmc E)) s Hs Hk) as (s' & out & -> & Hs' & Hk' & Hp).
    eexists _, _. split; [done|]. by split.
  - destruct (jedec_tick_ok _ _ (memory_jedec E) s Hs) as (s' & out & -> & Hs' & Hk' & Hp);
      [unfold hmc_horizon in *; lia|]. eexists _, _. split; [done|]. by split.
Qed.

Lemma newMemorySystem_ok s :
  newMemorySystem config = Ok s -> memory_inv s /\ memory_outstanding s = [] /\ memory_now s = 0.
Proof.
  unfold newMemorySystem. destruct (IsHMC config) eqn:E; intros Es; run_ok Es; injection Es as <-.
  - destruct (memory_hmc E) as [Hok Hr].
    destruct (reach_inv config _ Hok x [] [] Hr) as [Hs _]; [by apply reach_new|].
    destruct (newHMC_ok config _ Hok x E0) as (_ & Ho & Hk); [apply (hi_clocks _ _ Hs)|]. done.
  - destruct (newJedec_ok config _ (memory_jedec E) x E0) as (Hs & Ho & Hk). done.
Qed.
End facade_laws.

(** ** The fixed latency keeps the promises of the co-simulation *)

Lemma take_response_spec w now l :
  match take_response w now l with
  | None => True
  | Some (r, rest) => co_is_write (co_req r) = w /\ finish_time r <= now /\ l ≡ₚ r :: rest
  end.
Proof.
  induction l as [|x l IH]; simpl; [done|].
  destruct (Bool.eqb _ w) eqn:Ew; cbn [andb]; [destruct (Z.leb_spec (finish_time x) now)|].
  - apply eqb_prop in Ew. by split.
  - destruct (take_response w now l) as [[r rest]|]; [|done]. destruct IH as (? & ? & Hp).
    split; [done|]. split; [done|]. rewrite Hp. apply Permutation_swap.
  - destruct (take_response w now l) as [[r rest]|]; [|done]. destruct IH as (? & ? & Hp).
    split; [done|]. split; [done|]. rewrite Hp. apply Permutation_swap.
Qed.

#[export] Program Instance simple_laws : CoDRAMLaws SimpleCoDRAMsim3 := {
  co_inv _ := True;
  in_flight c := co_req <$> resp_list c;
  co_time _ := 0;
  co_horizon := 2 ^ 64 }.
Next Obligation. simpl. eauto. Qed.
Next Obligation.
  intros c r _ _. simpl. eexists. split; [done|]. split; [done|]. split; [done|]. simpl.
  rewrite fmap_app. simpl. by rewrite Permutation_app_comm.
Qed.
Next Obligation. intros n c _ _. simpl. eexists. split; [done|]. split; [done|]. split; [lia|done]. Qed.
Next Obligation.
  intros w c _. simpl. pose proof (take_response_spec w (simple_clock c) (resp_list c)) as H.
  destruct (take_response _ _ _) as [[r rest]|]; [|done]. destruct H as (Hw & _ & Hp).
  split; [done|]. split; [done|]. split; [done|]. simpl. by rewrite Hp.
Qed.

(** ** The DRAM simulator keeps them too *)

Section complex_laws.
Context {S : Type} `{DRAMSystemLaws S}.

Definition id_of_req (r : CoDRAMRequest) : Z * bool := (co_address r, co_is_write r).

(** The requests not completed are those the memory has outstanding; completed ones wait in the
    queue of their kind. *)
Record complex_inv (c : ComplexCoDRAMsim3 S) : Prop := {
  xi_memory : sys_inv (memory c);
  xi_list : outstanding (memory c) ≡ₚ id_of_req <$> (co_req <$> req_list c);
  xi_reads : Forall (fun r => co_is_write (co_req r) = false) (resp_read_queue c);
  xi_writes : Forall (fun r => co_is_write (co_req r) = true) (resp_write_queue c) }.

Definition complex_in_flight (c : ComplexCoDRAMsim3 S) : list CoDRAMRequest :=
  co_req <$> (req_list c ++ resp_read_queue c ++ resp_write_queue c).

Lemma take_match_spec a w l :
  (a, w) ∈ id_of_req <$> (co_req <$> l) ->
  exists r rest, take_match a w l = Some (r, rest) /\ id_of_req (co_req r) = (a, w) /\ l ≡ₚ r :: rest.
Proof.
  induction l as [|x l IH]; simpl; [by intros ?%elem_of_nil|]. intros [E|Hin]%elem_of_cons.
  - exists x, l. injection E as -> ->. by rewrite Z.eqb_refl, eqb_reflx.
  - destruct (_ && _) eqn:Eb.
    + apply andb_true_iff in Eb as [Ea%Z.eqb_eq Ew%eqb_prop]. exists x, l. unfold id_of_req.
      split; [done|]. split; [congruence|done].
    + destruct (IH Hin) as (r & rest & -> & Hid & Hp). exists r, (x :: rest). split; [done|].
      split; [done|]. rewrite Hp. apply Permutation_swap.
Qed.

(** A request that is found moves to the queue of its kind. *)
Definition completed (clk pad : Z) (r : CoDRAMResponse) : CoDRAMResponse :=
  mkCoResp (co_req r) (req_time r) (u64 (req_time r + (clk - req_time r) + pad)).

Lemma callback_found (m : S) clk pad l rq wq a w r rest :
  take_match a w l = Some (r, rest) -> co_is_write (co_req r) = w ->
  callback (a, w) (mkComplex m clk pad l rq wq) =
  Ok (mkComplex m clk pad rest (if w then rq else rq ++ [completed clk pad r])
        (if w then wq ++ [completed clk pad r] else wq)).
Proof. intros E Ew. unfold callback. simpl. rewrite E. simpl. rewrite Ew. by destruct w. Qed.

(** While the callbacks of a cycle are made, the memory has already let go of the requests. *)
Lemma callbacks_ok m out clk pad l rq wq :
  sys_inv m -> out ++ outstanding m ≡ₚ id_of_req <$> (co_req <$> l) ->
  Forall (fun r => co_is_write (co_req r) = false) rq ->
  Forall (fun r => co_is_write (co_req r) = true) wq ->
  exists c, forM out callback (mkComplex m clk pad l rq wq) = Ok c /\ complex_inv c /\
    memory c = m /\ complex_in_flight c ≡ₚ co_req <$> (l ++ rq ++ wq).
Proof.
  intros Hm. revert l rq wq. induction out as [|[a w] out IH]; intros l rq wq Hl Hr Hw.
  { eexists. split; [done|]. split; [by split|]. done. }
  destruct (take_match_spec a w l) as (r & rest & E & Hid & Hp); [rewrite <-Hl; by left|].
  rewrite Hp in Hl. cbn [fmap list_fmap app] in Hl. rewrite Hid in Hl.
  apply Permutation_cons_inv in Hl. unfold id_of_req in Hid. injection Hid as Ha Ew.
  cbn [forM]. rewrite (callback_found _ _ _ _ _ _ _ _ _ _ E Ew). cbn [mbind res_bind].
  edestruct (IH rest) as (c & E' & Hc & Em & Hf); [done| | |].
  3: { exists c. split; [exact E'|]. split; [done|]. split; [done|]. rewrite Hf, Hp, !fmap_app.
    destruct w; rewrite !fmap_app; simpl; solve_Permutation. }
  all: destruct w; try done; apply Forall_app; (split; [done|]); by constructor.
Qed.

Lemma dram_ticks_ok n c :
  complex_inv c -> now (memory c) + Z.of_nat n <= horizon S ->
  exists c', dram_ticks n c = Ok c' /\ complex_inv c' /\
    now (memory c') = now (memory c) + Z.of_nat n /\ complex_in_flight c' ≡ₚ complex_in_flight c.
Proof.
  revert c. induction n as [|n IH]; intros c Hc Hn.
  { exists c. split; [done|]. split; [done|]. split; [lia|done]. }
  destruct Hc as [X1 X2 X3 X4]. cbn [dram_ticks]. unfold dram_tick.
  destruct (tick_ok (memory c) X1) as (m & out & -> & Hm & Hk & Hp); [lia|]. cbn [mbind res_bind].
  rewrite Hp in X2.
  destruct (callbacks_ok m out (dram_clock c) (padding c) _ _ _ Hm X2 X3 X4) as (c1 & -> & Hc1 & Em & Hf).
  cbn [mbind res_bind]. destruct (IH c1 Hc1) as (c2 & -> & Hc2 & Hk2 & Hf2); [rewrite Em; lia|].
  exists c2. split; [done|]. split; [done|]. split; [rewrite Hk2, Em; lia|]. by rewrite Hf2, Hf.
Qed.

Lemma front_done_spec now q r rest : front_done now q = Some (r, rest) -> q = r :: rest /\ finish_time r <= now.
Proof.
  destruct q as [|x q]; simpl; [done|]. destruct (Z.leb_spec (finish_time x) now); [|done].
  by intros [= -> ->].
Qed.

#[export] Program Instance complex_laws : CoDRAMLaws (ComplexCoDRAMsim3 S) := {
  co_inv := complex_inv;
  in_flight := complex_in_flight;
  co_time c := now (memory c);
  co_horizon := horizon S }.
Next Obligation. intros c a w Hc. simpl. apply will_accept_ok, Hc. Qed.
Next Obligation.
  intros c r [X1 X2 X3 X4] Hw. simpl in *. destruct (add_ok _ _ _ X1 Hw) as (m & -> & Hm & Hk & Hp).
  cbn [mbind res_bind]. eexists. split; [done|]. split; [|split; [done|]].
  - split; simpl; try done. rewrite Hp, X2, !fmap_app. simpl. by rewrite Permutation_app_comm.
  - unfold complex_in_flight. simpl. rewrite !fmap_app. simpl. solve_Permutation.
Qed.
Next Obligation.
  intros n c [X1 X2 X3 X4] Hn. simpl.
  destruct (dram_ticks_ok n (mkComplex (memory c) (u64 (dram_clock c + 1)) (padding c) (req_list c)
    (resp_read_queue c) (resp_write_queue c))) as (c' & -> & Hc' & Hk & Hf); [by split|done|].
  exists c'. split; [done|]. split; [done|]. split; [rewrite Hk; simpl; lia|exact Hf].
Qed.
Next Obligation.
  intros w c [X1 X2 X3 X4]. simpl. destruct (front_done _ _) as [[r rest]|] eqn:E; [|done].
  apply front_done_spec in E as [E _]. unfold complex_in_flight.
  destruct w; rewrite E in *; cbn [req_list resp_read_queue resp_write_queue].
  - apply Forall_cons in X4 as [Hw X4]. split; [by split|]. split; [done|]. split; [done|].
    rewrite !fmap_app. simpl. solve_Permutation.
  - apply Forall_cons in X3 as [Hw X3]. split; [by split|]. split; [done|]. split; [done|].
    rewrite !fmap_app, fmap_cons. cbn [app]. by rewrite <-Permutation_middle.
Qed.
End complex_laws.

(** ** The bridge *)

Section bridge_laws.
Context {C : Type} `{CoDRAMLaws C}.

(** The addresses with a request of a kind in flight. *)
Definition addrs (w : bool) (l : list CoDRAMRequest) : list Z :=
  co_address <$> filter (fun r => co_is_write r = w) l.

#[local] Instance addrs_proper w : Proper ((≡ₚ) ==> (≡ₚ)) (addrs w).
Proof. intros l l' Hp. unfold addrs. by rewrite Hp. Qed.

Lemma addrs_cons w r l :
  addrs w (r :: l) = (if Bool.eqb (co_is_write r) w then [co_address r] else []) ++ addrs w l.
Proof.
  unfold addrs. rewrite filter_cons. destruct (decide (co_is_write r = w)) as [->|Hne].
  - by rewrite eqb_reflx.
  - by rewrite (proj2 (eqb_false_iff _ _) Hne).
Qed.

Lemma elem_of_addrs w l a : a ∈ addrs w l <-> exists r, r ∈ l /\ id_of_req r = (a, w).
Proof.
  unfold addrs, id_of_req. rewrite list_elem_of_fmap. split.
  - intros (r & -> & [Hw Hr]%list_elem_of_filter). exists r. by rewrite Hw.
  - intros (r & Hr & [= <- <-]). exists r. by rewrite list_elem_of_filter.
Qed.

(** The sets of the bridge are the addresses in flight, and of each kind there is at most one
    request per address. *)
Record bridge_inv (b : Bridge C) (c : C) : Prop := {
  bi_dram : dram b = Some c;
  bi_inv : co_inv c;
  bi_once : forall w, NoDup (addrs w (in_flight c));
  bi_sets : forall w a, a ∈ outstanding_of w b <-> a ∈ addrs w (in_flight c);
  bi_tags : Forall (fun r => 0 <= co_meta r < 2 ^ 32) (in_flight c) }.

(** At most one request of each kind per address: the request a completion belongs to is known. *)
Lemma in_flight_unique b c r r' :
  bridge_inv b c -> r ∈ in_flight c -> r' ∈ in_flight c -> id_of_req r = id_of_req r' -> r = r'.
Proof.
  intros Hb Hr Hr' Hid. apply elem_of_Permutation in Hr as (l & Hl). rewrite Hl in Hr'.
  apply elem_of_cons in Hr' as [->|Hr']; [done|]. exfalso.
  pose proof (bi_once _ _ Hb (co_is_write r)) as Hn. rewrite Hl, addrs_cons, eqb_reflx in Hn.
  apply NoDup_cons in Hn as [Hn _]. apply Hn, elem_of_addrs. exists r'. by rewrite <-Hid.
Qed.

Lemma outstanding_set w w' v c (b : Bridge C) :
  outstanding_of w (set_outstanding w' v c b) = if Bool.eqb w' w then v else outstanding_of w b.
Proof. by destruct w, w'. Qed.

Lemma memory_request_ok a id w b c :
  bridge_inv b c ->
  exists ok b' c', memory_request a id w b = Ok (ok, b') /\ bridge_inv b' c' /\ co_time c' = co_time c /\
    (ok = false -> b' = b /\ c' = c) /\
    (ok = true -> u64 a ∉ addrs w (in_flight c) /\ in_flight c' ≡ₚ mkCoReq (u64 a) w (u32 id) :: in_flight c).
Proof.
  intros Hb. unfold memory_request. rewrite (bi_dram _ _ Hb).
  destruct (_ <? _); [by exists false, b, c|].
  destruct (bool_decide_reflect (u64 a ∈ outstanding_of w b)) as [Hin|Hout]; [by exists false, b, c|].
  destruct (co_accept_ok c (u64 a) w (bi_inv _ _ Hb)) as [[] E]; rewrite E; cbn [mbind res_bind];
    [|by exists false, b, c].
  set (r := mkCoReq (u64 a) w (u32 id)).
  destruct (co_add_ok c r (bi_inv _ _ Hb) E) as (c' & -> & Hc' & Ht & Hp). cbn [mbind res_bind].
  rewrite (bi_sets _ _ Hb) in Hout.
  eexists _, _, c'. split; [done|]. split; [|split; [done|split; [done|by split]]].
  destruct Hb as [B1 B2 B3 B4 B5]. split; [by destruct w|done|..].
  - intros w'. rewrite Hp, addrs_cons. simpl. destruct (Bool.eqb w w') eqn:Ew; [|apply B3].
    apply eqb_prop in Ew as <-. by apply NoDup_cons.
  - intros w' x. rewrite outstanding_set, Hp, addrs_cons. simpl. destruct (Bool.eqb w w') eqn:Ew; [|apply B4].
    apply eqb_prop in Ew as <-. rewrite elem_of_union, elem_of_singleton, B4, elem_of_app,
      list_elem_of_singleton. done.
  - rewrite Hp. constructor; [apply wrapU_range; lia|done].
Qed.

Lemma memory_response_ok w b c :
  bridge_inv b c ->
  memory_response w b = (0, b) \/
  exists b' c' r, memory_response w b = (Z.lor (co_meta r) (Z.shiftl 1 32), b') /\ bridge_inv b' c' /\
    co_time c' = co_time c /\ co_is_write r = w /\ in_flight c ≡ₚ r :: in_flight c'.
Proof.
  intros Hb. unfold memory_response. rewrite (bi_dram _ _ Hb).
  pose proof (co_check_ok w c (bi_inv _ _ Hb)) as Hx.
  destruct (check_response w c) as [[x|] c']; [|left; subst c'].
  - destruct Hx as (Hc' & Ht & Hw & Hp). right. eexists _, c', (co_req x). split; [done|].
    split; [|done]. destruct Hb as [B1 B2 B3 B4 B5]. split; [by destruct w|done|..].
    + intros w'. specialize (B3 w'). rewrite Hp, addrs_cons in B3. by apply NoDup_app in B3 as (_ & _ & ?).
    + intros w' y. rewrite outstanding_set. specialize (B3 w'). specialize (B4 w' y).
      rewrite Hp, addrs_cons, Hw in B3, B4. destruct (Bool.eqb w w') eqn:Ew; [|done].
      apply eqb_prop in Ew as <-. apply NoDup_cons in B3 as [Hn _].
      rewrite elem_of_difference, B4, not_elem_of_singleton, elem_of_app, list_elem_of_singleton.
      split; [intros [[->|?] ?]; done|]. intros Hy. split; [by right|]. intros ->. done.
    + rewrite Hp in B5. by apply Forall_cons in B5 as [_ ?].
  - f_equal. destruct b. simpl in *. by rewrite <-(bi_dram _ _ Hb).
Qed.

Lemma dramsim3_step_ok n b c :
  bridge_inv b c -> co_time c + Z.of_nat n <= co_horizon C ->
  exists b' c', dramsim3_step n b = Ok b' /\ bridge_inv b' c' /\
    co_time c' <= co_time c + Z.of_nat n /\ in_flight c' ≡ₚ in_flight c.
Proof.
  intros Hb Hn. unfold dramsim3_step. rewrite (bi_dram _ _ Hb).
  destruct (co_tick_ok n c (bi_inv _ _ Hb) Hn) as (c' & -> & Hc' & Ht & Hp). cbn [mbind res_bind].
  eexists _, c'. split; [done|]. split; [|done]. destruct Hb as [B1 B2 B3 B4 B5].
  split; [done|done|..].
  - intros w. by rewrite Hp.
  - intros w a. rewrite Hp. apply (B4 w a).
  - by rewrite Hp.
Qed.

(** ** Runs of the bridge *)

(** The tag and the kind of a request. *)
Definition tag_of (r : CoDRAMRequest) : bool * Z := (co_is_write r, co_meta r).

(** The states of a bridge, with the tags it took and the tags it gave back. *)
Inductive bridge_reach : Bridge C -> list (bool * Z) -> list (bool * Z) -> Prop :=
| br_init c b : co_inv c -> in_flight c = [] ->
    dramsim3_init c (mkBridge None 0 ∅ ∅) = Ok b -> bridge_reach b [] []
| br_step n b b' c taken given :
    bridge_reach b taken given -> dram b = Some c -> co_time c + Z.of_nat n <= co_horizon C ->
    dramsim3_step n b = Ok b' -> bridge_reach b' taken given
| br_request a id w ok b b' taken given :
    bridge_reach b taken given -> memory_request a id w b = Ok (ok, b') ->
    bridge_reach b' (if (ok : bool) then (w, u32 id) :: taken else taken) given
| br_response w v b b' taken given :
    bridge_reach b taken given -> memory_response w b = (v, b') ->
    bridge_reach b' taken (if v =? 0 then given else (w, u32 v) :: given).

(** The value of a response: its tag, and bit 32. *)
Lemma response_value m : 0 <= m < 2 ^ 32 -> Z.lor m (Z.shiftl 1 32) <> 0 /\ u32 (Z.lor m (Z.shiftl 1 32)) = m.
Proof.
  intros Hm. change (Z.shiftl 1 32) with (1 * 2 ^ 32). rewrite Z.lor_comm.
  rewrite (lor_disjoint_add 1 _ 32) by lia. split; [lia|].
  unfold wrapU. rewrite Z.add_comm, Z.mod_add by lia. by apply Z.mod_small.
Qed.

Lemma bridge_reach_inv b taken given :
  bridge_reach b taken given ->
  exists c, bridge_inv b c /\ taken ≡ₚ given ++ (tag_of <$> in_flight c).
Proof.
  induction 1 as [c b Hc Hf E|n b b' c taken given _ (c0 & Hb & Hp) Ec Hn E
    |a id w ok b b' taken given _ (c & Hb & Hp) E|w v b b' taken given _ (c & Hb & Hp) E].
  - injection E as <-. exists c. rewrite Hf. split; [|done]. split; [done|done|..]; rewrite ?Hf.
    + intros w. constructor.
    + intros [] a; simpl; set_solver.
    + constructor.
  - rewrite (bi_dram _ _ Hb) in Ec. injection Ec as ->.
    destruct (dramsim3_step_ok n b c Hb Hn) as (b1 & c' & E1 & Hb' & _ & Hf). rewrite E in E1.
    injection E1 as <-. exists c'. by rewrite Hf.
  - destruct (memory_request_ok a id w b c Hb) as (ok' & b1 & c' & E1 & Hb' & _ & Hno & Hyes).
    rewrite E in E1. injection E1 as <- <-. exists c'. split; [done|]. destruct ok.
    + destruct (Hyes eq_refl) as [_ Hf]. rewrite Hf. simpl. rewrite Hp. by rewrite Permutation_middle.
    + destruct (Hno eq_refl) as [_ ->]. done.
  - destruct (memory_response_ok w b c Hb) as [E1|(b1 & c' & r & E1 & Hb' & _ & Hw & Hf)]; rewrite E in E1.
    + injection E1 as -> ->. exists c. by rewrite Z.eqb_refl.
    + injection E1 as -> ->. exists c'. split; [done|].
      pose proof (bi_tags _ _ Hb) as Ht. rewrite Hf in Ht, Hp. apply Forall_cons in Ht as [Ht _].
      destruct (response_value _ Ht) as [Hnz Hv]. rewrite (proj2 (Z.eqb_neq _ _) Hnz), Hv.
      rewrite Hp. simpl. unfold tag_of at 1. rewrite Hw. by rewrite Permutation_middle.
Qed.
End bridge_laws.

(** C3: The bridge hands back the right tags.  Over any model that keeps the promises of the
    co-simulation, and however many DRAM cycles a processor cycle takes: nothing aborts, in
    particular every completion finds its request; a request is refused while one of the same kind
    and address is in flight, so at any time a completion belongs to exactly one request; a
    response with bit 32 set carries the tag of a request in flight of its kind, which leaves, and
    a response without it changes nothing; and the tags given back together with those in flight
    are exactly the tags taken. *)
Theorem bridge_serves {C} `{CoDRAMLaws C} b taken given :
  bridge_reach b taken given ->
  exists c, dram b = Some c /\ taken ≡ₚ given ++ (tag_of <$> in_flight c) /\
  (forall r r', r ∈ in_flight c -> r' ∈ in_flight c -> id_of_req r = id_of_req r' -> r = r') /\
  (forall n, co_time c + Z.of_nat n <= co_horizon C -> exists b', dramsim3_step n b = Ok b') /\
  (forall a id w, exists ok b', memory_request a id w b = Ok (ok, b') /\
     (ok = true -> u64 a ∉ addrs w (in_flight c)) /\ (ok = false -> b' = b)) /\
  (forall w v b', memory_response w b = (v, b') ->
     (v = 0 /\ b' = b) \/
     exists r c', r ∈ in_flight c /\ co_is_write r = w /\ dram b' = Some c' /\
       v = 2 ^ 32 + co_meta r /\ in_flight c ≡ₚ r :: in_flight c').
Proof.
  intros Hr. destruct (bridge_reach_inv b taken given Hr) as (c & Hb & Hp). exists c.
  split; [apply Hb|]. split; [done|]. split; [intros r r'; by apply (in_flight_unique b)|]. split; [|split].
  - intros n Hn. destruct (dramsim3_step_ok n b c Hb Hn) as (b' & _ & E & _). eauto.
  - intros a id w. destruct (memory_request_ok a id w b c Hb) as (ok & b' & c' & E & _ & _ & Hno & Hyes).
    exists ok, b'. split; [done|]. split; [intros Ho; by apply Hyes|intros Ho; by apply Hno].
  - intros w v b' E. destruct (memory_response_ok w b c Hb) as [E1|(b1 & c' & r & E1 & Hb' & _ & Hw & Hf)];
      rewrite E in E1; [left; by injection E1|right]. injection E1 as -> ->. exists r, c'.
    pose proof (bi_tags _ _ Hb) as Ht. rewrite Hf in Ht. apply Forall_cons in Ht as [Ht _].
    split; [rewrite Hf; by left|]. split; [done|]. split; [apply Hb'|]. split; [|done].
    change (Z.shiftl 1 32) with (1 * 2 ^ 32). rewrite Z.lor_comm, (lor_disjoint_add 1 _ 32) by lia. lia.
Qed.

(** ** The configuration of the emulator *)

(** [configs/intenscore_DDR4_8Gb_x8_3200_1ch_2ra_16GB.ini], which the emulator is built with. *)
Definition ddr4_values : gmap (string * string) Z :=
  list_to_map [(("dram_structure", "bankgroups"), 4); (("dram_structure", "banks_per_group"), 4);
    (("dram_structure", "rows"), 65536); (("dram_structure", "columns"), 1024);
    (("dram_structure", "device_width"), 8); (("dram_structure", "BL"), 8);
    (("timing", "AL"), 0); (("timing", "CL"), 20); (("timing", "CWL"), 16);
    (("timing", "tRCD"), 20); (("timing", "tRP"), 20); (("timing", "tRAS"), 52);
    (("timing", "tRFC"), 576); (("timing", "tRFC2"), 416); (("timing", "tRFC4"), 256);
    (("timing", "tREFI"), 12480); (("timing", "tRPRE"), 1); (("timing", "tWPRE"), 1);
    (("timing", "tRRD_S"), 4); (("timing", "tRRD_L"), 8); (("timing", "tWTR_S"), 4);
    (("timing", "tWTR_L"), 12); (("timing", "tFAW"), 34); (("timing", "tWR"), 24);
    (("timing", "tWR2"), 25); (("timing", "tRTP"), 12); (("timing", "tCCD_S"), 4);
    (("timing", "tCCD_L"), 8); (("timing", "tCKE"), 8); (("timing", "tCKESR"), 9);
    (("timing", "tXS"), 576); (("timing", "tXP"), 10); (("timing", "tRTRS"), 1);
    (("system", "channel_size"), 16384); (("system", "channels"), 1); (("system", "bus_width"), 64);
    (("system", "cmd_queue_size"), 8); (("system", "trans_queue_size"), 32);
    (("other", "epoch_period"), 1587301); (("other", "cpu_freq"), 3500); (("other", "dram_freq"), 500)].

Definition ddr4_strings : gmap (string * string) string :=
  list_to_map [(("dram_structure", "protocol"), "DDR4");
    (("system", "address_mapping"), "roracobabgch");
    (("system", "queue_structure"), "PER_BANK"); (("system", "row_buf_policy"), "OPEN_PAGE");
    (("system", "refresh_policy"), "RANK_LEVEL_STAGGERED")].

Definition ddr4_reader : INIReader := {|
  Get sec opt def := default def (ddr4_strings !! (sec, opt));
  reader_GetInteger sec opt def := default def (ddr4_values !! (sec, opt));
  GetBoolean sec opt def := def |}.

Definition ddr4 : Config :=
  ltac:(let r := eval vm_compute in (newConfig ddr4_reader) in
        match r with Ok ?c => exact c end).

Lemma ddr4_built : newConfig ddr4_reader = Ok ddr4.
Proof. vm_compute. reflexivity. Qed.

Lemma ddr4_geometry : geometry_ok ddr4.
Proof. split; vm_compute; intuition discriminate. Qed.

Lemma ddr4_interval : interval_ok ddr4.
Proof.
  assert (exists c, newController ddr4 = Ok c /\ u64 (DramRefresh.refresh_interval_ (refresh_ c)) = 6240)
    as (c' & E' & Hi) by (eexists; split; reflexivity).
  intros c E. rewrite E in E'. injection E' as <-. by rewrite Hi.
Qed.

Lemma ddr4_memory : memory_ok ddr4.
Proof.
  unfold memory_ok. cbn.
  by apply (built_jedec_ok ddr4_reader); [apply ddr4_built|apply ddr4_geometry|..|apply ddr4_interval|].
Qed.

(** The model [dramsim3_init] makes. *)
Lemma ddr4_cosim : exists m, newMemorySystem ddr4 = Ok m /\
  newComplexCoDRAMsim3 ddr4_reader 66 = Ok (ddr4, mkComplex m 0 66 [] [] []).
Proof.
  assert (exists m, newMemorySystem ddr4 = Ok m) as [m E] by (eexists; reflexivity).
  exists m. split; [done|]. unfold newComplexCoDRAMsim3. rewrite bool_decide_eq_true_2 by (vm_compute; set_solver).
  change (_ || _) with false. rewrite ddr4_built. cbn [mbind res_bind]. by rewrite E.
Qed.

Lemma bridge_serves_witness : exists m b,
  newMemorySystem ddr4 = Ok m /\
  dramsim3_init (mkComplex m 0 66 [] [] []) (mkBridge None 0 ∅ ∅) = Ok b /\
  exists b', dramsim3_step (H := complex_cosim (H := memory_system ddr4)) 1000 b = Ok b'.
Proof.
  destruct ddr4_cosim as (m & E & _).
  destruct (newMemorySystem_ok ddr4 ddr4_memory m E) as (Hm & Ho & Hk).
  eexists m, _. split; [exact E|]. split; [reflexivity|].
  pose (laws := memory_laws ddr4 ddr4_memory).
  destruct (bridge_serves (H0 := complex_laws (H0 := laws))
    (mkBridge (Some (mkComplex m 0 66 [] [] [])) 0 ∅ ∅) [] []) as (c & Ec & _ & _ & Hstep & _).
  - apply (br_init (mkComplex m 0 66 [] [] [])); [|done|done].
    split; simpl; [exact Hm|by rewrite Ho|constructor|constructor].
  - injection Ec as <-. apply Hstep. simpl. rewrite Hk. unfold hmc_horizon. lia.
Defined.

(** Steps of that bridge, one DRAM cycle each. *)
Fixpoint ddr4_steps (n : nat) (b : Bridge (ComplexCoDRAMsim3 MemorySystem))
    : M (Bridge (ComplexCoDRAMsim3 MemorySystem)) :=
  match n with
  | O => Ok b
  | Datatypes.S n =>
      b ← dramsim3_step (H := complex_cosim (H := memory_system ddr4)) 1 b; ddr4_steps n b
  end.

(** A read with tag 7: refused before the reset has settled, taken after it, refused while it is in
    flight, and answered with its tag. *)
Lemma ddr4_read :
  (m ← newMemorySystem ddr4;
   let co := complex_cosim (H := memory_system ddr4) in
   b ← dramsim3_init (mkComplex m 0 66 [] [] []) (mkBridge None 0 ∅ ∅);
   '(ok0, b) ← memory_request (H := co) 4096 7 false b;
   b ← ddr4_steps 200 b;
   '(ok1, b) ← memory_request (H := co) 4096 7 false b;
   '(ok2, b) ← memory_request (H := co) 4096 8 false b;
   b ← ddr4_steps 150 b;
   Ok (ok0, ok1, ok2, fst (memory_response (H := co) false b))) =
  Ok (false, true, false, 2 ^ 32 + 7).
Proof. vm_compute. reflexivity. Qed.
