(* ===== verification/SimRam.v ===== *)
(** * Simulated memory of the emulator

    [src/main/resources/csrc/ram.h] and [ram.cc]: the readers of memory images, the memories that
    stand behind the Verilog port ([difftest_ram_read], [difftest_ram_write], [pmem_read],
    [pmem_write]), and the memories that record and replay footprints.  Built without PMEM_CHECK,
    FUZZING, ENABLE_RAM_LOGGING and the performance counters; the DRAMsim3 bridge at the end of
    [ram.cc] is modelled with the co-simulation.

    A memory is a byte memory; [at(index)] is the 64-bit word at byte [8 * index], as a reference:
    reading it and assigning through it are the two operations below. *)
From S2P Require Import Prelude DramCommon Memory.
From stdpp Require Import gmap.
Local Open Scope list_scope.
Local Open Scope Z_scope.

(** ** Words and bytes *)

Fixpoint to_bytes (n : nat) (v : Z) : list Z :=
  match n with O => [] | S n => v mod 256 :: to_bytes n (v / 256) end.

Fixpoint of_bytes (l : list Z) : Z :=
  match l with [] => 0 | b :: l => b + 256 * of_bytes l end.

(** Bytes copied to memory, as [memcpy] and [istream::read] do. *)
Fixpoint put_bytes (m : mem) (a : Z) (l : list Z) : mem :=
  match l with [] => m | b :: l => put_bytes (store8 m a b) (a + 1) l end.

(** Bytes read from memory. *)
Definition get_bytes (m : mem) (a n : Z) : list Z := (fun i => m (a + i)) <$> seqZ 0 n.

(** ** Input readers *)

(** The virtual methods of [InputReader]; [read_all] writes to [dest] and gives the count it
    reports. *)
Class InputReader (R : Type) := {
  len : R -> Z;
  next : R -> Z * R;
  read_all : R -> mem -> Z -> Z -> Z * mem * R }.

(** The bytes of a file that are still to be read. *)
Record FileReader := mkFile { file : list Z; file_size : Z }.

Definition newFileReader (content : list Z) : FileReader := mkFile content (Z.of_nat (length content)).

(** A read of eight bytes that fails leaves the stream failed: nothing is left. *)
#[export] Instance file_reader : InputReader FileReader := {
  len r := file_size r;
  next r :=
    if Z.of_nat (length (file r)) <? 8 then (0, mkFile [] (file_size r))
    else (of_bytes (take 8 (file r)), mkFile (drop 8 (file r)) (file_size r));
  read_all r m dest max_bytes :=
    let read_size := if max_bytes <? file_size r then max_bytes else file_size r in
    let n := Z.to_nat read_size in
    (read_size, put_bytes m dest (take n (file r)), mkFile (drop n (file r)) (file_size r)) }.

(** An image in the memory [wim_host] of the simulator itself. *)
Record WimReader := mkWim { wim_host : mem; base_addr : Z; wim_size : Z; wim_index : Z }.

#[export] Instance wim_reader : InputReader WimReader := {
  len r := wim_size r;
  next r :=
    if wim_size r <? u64 (wim_index r + 8) then (0, r)
    else (load64 (wim_host r) (base_addr r + 8 * (wim_index r / 8)),
          mkWim (wim_host r) (base_addr r) (wim_size r) (u64 (wim_index r + 8)));
  read_all r m dest max_bytes :=
    let n_read := u64 (wim_size r - wim_index r) in
    let n_read := if max_bytes <=? n_read then max_bytes else n_read in
    (n_read, put_bytes m dest (get_bytes (wim_host r) (base_addr r) n_read),
     mkWim (wim_host r) (base_addr r) (wim_size r) (u64 (wim_index r + n_read))) }.

(** The standard input: the bytes to come, and the count read from its first eight. *)
Record StdinReader := mkStdin { stdin : list Z; n_bytes : Z }.

Definition stdin_word (l : list Z) : Z * list Z :=
  if Z.of_nat (length l) <? 8 then (0, []) else (of_bytes (take 8 l), drop 8 l).

Definition newStdinReader (l : list Z) : StdinReader :=
  let '(n, l) := stdin_word l in mkStdin l n.

(** [istream::get(s, n)]: at most [n - 1] characters, up to a newline, then a NUL. *)
Fixpoint get_line (n : nat) (l : list Z) : list Z * list Z :=
  match n, l with
  | S n, c :: rest => if c =? 10 then ([], l) else let '(g, r) := get_line n rest in (c :: g, r)
  | _, _ => ([], l)
  end.

#[export] Instance stdin_reader : InputReader StdinReader := {
  len _ := 0;
  next r := let '(v, l) := stdin_word (stdin r) in (v, mkStdin l (n_bytes r));
  read_all r m dest max_bytes :=
    let n_read := if max_bytes <=? n_bytes r then max_bytes else n_bytes r in
    let '(got, rest) := get_line (Z.to_nat (n_read - 1)) (stdin r) in
    (n_read, if 0 <? n_read then put_bytes m dest (got ++ [0]) else m,
     mkStdin rest (u64 (n_bytes r - n_read))) }.

(** ** Memories *)

(** [SimMemory]: the word behind a reference [at(index)], and an assignment through it. *)
Class SimMemory (T : Type) := {
  get_size : T -> Z;
  at_ : T -> Z -> Z * T;
  assign : T -> Z -> Z -> T }.

Record MmapMemory := mkMmap { ram : mem; memory_size : Z; img_size : Z }.

#[export] Instance mmap_memory : SimMemory MmapMemory := {
  get_size m := memory_size m;
  at_ m index := (load64 (ram m) (8 * index), m);
  assign m index v := mkMmap (store64 (ram m) (8 * index) v) (memory_size m) (img_size m) }.

(** [MmapMemory::MmapMemory] when [mmap] gives the memory: zeros, then the image of the reader. *)
Definition newMmapMemory {R} `{InputReader R} (image : option R) (n_bytes : Z) : MmapMemory :=
  match image with
  | None => mkMmap (fun _ => 0) n_bytes 0
  | Some r => let '(n, m, _) := read_all r (fun _ => 0) 0 n_bytes in mkMmap m n_bytes n
  end.

(** The first touch of a word writes it to the footprints file. *)
Record MmapMemoryWithFootprints := mkFootprinted {
  base : MmapMemory; touched : Z -> bool; footprints_file : list Z }.

#[export] Instance footprinted_memory : SimMemory MmapMemoryWithFootprints := {
  get_size m := memory_size (base m);
  at_ m index :=
    let '(data, b) := at_ (base m) index in
    if negb (touched m index)
    then (data, mkFootprinted b (upd (touched m) index true) (footprints_file m ++ to_bytes 8 data))
    else (data, m);
  assign m index v := mkFootprinted (assign (base m) index v) (touched m) (footprints_file m) }.

(** The words come from a reader in the order they are touched. *)
Record FootprintsMemory (R : Type) := mkFootprints {
  words : gmap Z Z; reader : R; n_accessed : Z; fm_size : Z }.
Arguments mkFootprints {R}.
Arguments words {R}.
Arguments reader {R}.
Arguments n_accessed {R}.
Arguments fm_size {R}.

Definition newFootprintsMemory {R} (r : R) (n_bytes : Z) : FootprintsMemory R :=
  mkFootprints ∅ r 0 n_bytes.

(** [FootprintsMemory::at], with the arguments of the callbacks it makes. *)
Definition footprints_at {R} `{InputReader R} (m : FootprintsMemory R) (index : Z)
    : Z * FootprintsMemory R * option (Z * Z) :=
  match words m !! index with
  | Some v => (v, m, None)
  | None =>
      let '(value, r) := next (reader m) in
      (value, mkFootprints (<[index := value]> (words m)) r (u64 (n_accessed m + 8)) (fm_size m),
       Some (index, value))
  end.

#[export] Instance footprints_memory {R} `{InputReader R} : SimMemory (FootprintsMemory R) := {
  get_size m := fm_size m;
  at_ m index := let '(v, m, _) := footprints_at m index in (v, m);
  assign m index v := mkFootprints (<[index := v]> (words m)) (reader m) (n_accessed m) (fm_size m) }.

(** The same, with a linear copy of the words as they were touched first. *)
Record LinearizedFootprintsMemory (R : Type) := mkLinear {
  footprints : FootprintsMemory R; linear_memory : Z -> Z; n_touched : Z }.
Arguments mkLinear {R}.
Arguments footprints {R}.
Arguments linear_memory {R}.
Arguments n_touched {R}.

Definition newLinearized {R} (r : R) (n_bytes : Z) : LinearizedFootprintsMemory R :=
  mkLinear (newFootprintsMemory r n_bytes) (fun _ => 0) 0.

#[export] Instance linearized_memory {R} `{InputReader R} : SimMemory (LinearizedFootprintsMemory R) := {
  get_size m := fm_size (footprints m);
  at_ m index :=
    match footprints_at (footprints m) index with
    | (v, f, Some (i, value)) =>
        if value =? 0 then (v, mkLinear f (linear_memory m) (n_touched m))
        else (v, mkLinear f (upd (linear_memory m) i value) (u64 (n_touched m + 1)))
    | (v, f, None) => (v, mkLinear f (linear_memory m) (n_touched m))
    end;
  assign m index v := mkLinear (assign (footprints m) index v) (linear_memory m) (n_touched m) }.

(** The loop of [save_linear_memory] over the words from [i] on. *)
Fixpoint last_nonzero (fuel : nat) (lin : Z -> Z) (n touched i last count : Z) : Z :=
  match fuel with
  | O => last
  | S fuel =>
      if (i <? n) && (count <? touched) then
        if lin i =? 0 then last_nonzero fuel lin n touched (i + 1) last count
        else last_nonzero fuel lin n touched (i + 1) i (count + 1)
      else last
  end.

(** The words [save_linear_memory] writes; the loop makes at most a turn per word. *)
Definition save_linear_memory {R} (m : LinearizedFootprintsMemory R) : list Z :=
  let n := fm_size (footprints m) / 8 in
  let last := last_nonzero (Z.to_nat n) (linear_memory m) n (n_touched m) 0 0 0 in
  mjoin ((fun i => to_bytes 8 (linear_memory m i)) <$> seqZ 0 (last + 1)).

(** ** The Verilog port *)

Definition PMEM_BASE : Z := 0x20000000.

Section port.
Context {T : Type} `{SimMemory T}.

Definition in_range_u64 (m : T) (index : Z) : bool := index <? get_size m / 8.

Definition difftest_ram_read (rIdx : Z) (sim : option T) : M (Z * option T) :=
  match sim with
  | None => Ok (0, None)
  | Some m =>
      if get_size m / 8 =? 0 then Err DivZero
      else let '(rdata, m) := at_ m (u64 rIdx mod (get_size m / 8)) in Ok (rdata, Some m)
  end.

(** [(old & ~mask) | (data & mask)] on 64 bits. *)
Definition masked (old data mask : Z) : Z :=
  Z.lor (Z.land old (u64 (Z.lnot mask))) (Z.land (u64 data) (u64 mask)).

(** [at(wIdx) = (at(wIdx) & ~wmask) | (wdata & wmask)]. *)
Definition difftest_ram_write (wIdx wdata wmask : Z) (sim : option T) : option T :=
  match sim with
  | None => None
  | Some m =>
      if negb (in_range_u64 m (u64 wIdx)) then Some m
      else
        let '(old, m) := at_ m (u64 wIdx) in
        let '(_, m) := at_ m (u64 wIdx) in
        Some (assign m (u64 wIdx) (masked old wdata wmask))
  end.

Definition pmem_read (raddr : Z) (sim : option T) : M (Z * option T) :=
  difftest_ram_read (u64 (raddr - PMEM_BASE) / 8) sim.

Definition pmem_write (waddr wdata : Z) (sim : option T) : option T :=
  difftest_ram_write (u64 (waddr - PMEM_BASE) / 8) wdata (u64 (-1)) sim.

(** Accesses of the Verilog side, in order, and what its reads see. *)
Inductive access := RamRead (idx : Z) | RamWrite (idx data mask : Z).

Fixpoint accesses (l : list access) (sim : option T) : M (list Z * option T) :=
  match l with
  | [] => Ok ([], sim)
  | RamRead i :: l =>
      '(v, sim) ← difftest_ram_read i sim;
      '(vs, sim) ← accesses l sim;
      Ok (v :: vs, sim)
  | RamWrite i d k :: l => accesses l (difftest_ram_write i d k sim)
  end.
End port.

(** ** Bytes *)

Lemma of_to_bytes n v : of_bytes (to_bytes n v) = v mod 256 ^ Z.of_nat n.
Proof.
  revert v. induction n as [|n IH]; intros v; [by rewrite Z.mod_1_r|]. cbn [to_bytes of_bytes].
  rewrite IH, Nat2Z.inj_succ, Z.pow_succ_r, Z.rem_mul_r by lia. lia.
Qed.

Lemma to_bytes_length n v : length (to_bytes n v) = n.
Proof. revert v. induction n as [|n IH]; intros v; simpl; [done|]. by rewrite IH. Qed.

Lemma to_bytes_ok n v : Forall (fun b => 0 <= b < 256) (to_bytes n v).
Proof. revert v. induction n as [|n IH]; intros v; simpl; constructor; [apply Z.mod_pos_bound; lia|done]. Qed.

Lemma put_bytes_app m a l k : put_bytes m a (l ++ k) = put_bytes (put_bytes m a l) (a + Z.of_nat (length l)) k.
Proof.
  revert m a. induction l as [|b l IH]; intros m a; simpl; [by rewrite Z.add_0_r|].
  rewrite IH. f_equal. lia.
Qed.

Lemma put_to_bytes n m a v : put_bytes m a (to_bytes n v) = store_le n m a v.
Proof.
  revert m a v. induction n as [|n IH]; intros m a v; simpl; [done|]. rewrite IH. f_equal.
  unfold store8, wrapU. by rewrite Z.mod_mod by lia.
Qed.

(** The first word of a file. *)
Lemma next_word v rest size :
  0 <= v < 2 ^ 64 -> next (mkFile (to_bytes 8 v ++ rest) size) = (v, mkFile rest size).
Proof.
  intros Hv. unfold next. simpl file_reader. cbn -[to_bytes of_bytes].
  rewrite length_app, to_bytes_length. destruct (Z.ltb_spec (Z.of_nat (8 + length rest)) 8); [lia|].
  rewrite take_app_length', drop_app_length' by (by rewrite to_bytes_length).
  rewrite of_to_bytes. f_equal. by apply Z.mod_small.
Qed.

Lemma words_length (f : Z -> Z) k :
  0 <= k -> Z.of_nat (length (mjoin ((fun j => to_bytes 8 (f j)) <$> seqZ 0 k))) = 8 * k.
Proof.
  revert k. apply natlike_ind; [done|]. intros k Hk IH.
  rewrite <-Z.add_1_r, seqZ_snoc, fmap_app, join_app, length_app by done.
  cbn [fmap list_fmap mjoin list_join]. rewrite app_nil_r, to_bytes_length. lia.
Qed.

(** Words written in order from the start of a memory. *)
Lemma load_words f m k i :
  0 <= k -> (forall j, 0 <= j < k -> 0 <= f j < 2 ^ 64) ->
  load64 (put_bytes m 0 (mjoin ((fun j => to_bytes 8 (f j)) <$> seqZ 0 k))) (8 * i) =
  if (0 <=? i) && (i <? k) then f i else load64 m (8 * i).
Proof.
  intros Hk. pattern k. revert k Hk. apply natlike_ind.
  - intros _. simpl. split_cmp; try lia; done.
  - intros k Hk IH Hf. rewrite <-Z.add_1_r, seqZ_snoc, fmap_app, join_app, put_bytes_app by done.
    cbn [fmap list_fmap mjoin list_join]. rewrite app_nil_r, put_to_bytes.
    rewrite words_length by done.
    rewrite load64_store64; [|dlia|dlia|apply Hf; lia].
    rewrite IH by (intros; apply Hf; lia).
    destruct (Z.eqb_spec (0 + 8 * k) (8 * i)) as [E|E]; split_cmp; try lia; try done. f_equal. lia.
Qed.

(** ** The port on one memory *)

(** The mask chooses bit by bit between the old word and the data. *)
Lemma masked_bits old data mask i :
  0 <= i < 64 ->
  Z.testbit (masked old data mask) i = if Z.testbit mask i then Z.testbit data i else Z.testbit old i.
Proof.
  intros Hi. unfold masked. autorewrite with bits. rewrite ?Z.lnot_spec by lia.
  destruct (Z.ltb_spec i 64); [|lia]. destruct (Z.testbit mask i), (Z.testbit data i), (Z.testbit old i); done.
Qed.

Lemma masked_all old data : masked old data (u64 (-1)) = u64 data.
Proof.
  unfold masked. change (u64 (Z.lnot (u64 (-1)))) with 0. change (u64 (u64 (-1))) with (2 ^ 64 - 1).
  rewrite Z.land_0_r, Z.lor_0_l, land_pow2_mask by lia. apply (wrapU_wrapU 64). lia.
Qed.

Lemma masked_range old data mask : 0 <= old < 2 ^ 64 -> 0 <= masked old data mask < 2 ^ 64.
Proof.
  intros Ho. unfold masked. apply lor_bound; [lia|..].
  - apply land_bound; [lia|apply wrapU_range; lia].
  - apply land_bound; [lia|apply wrapU_range; lia].
Qed.

(** ** Simulation between memories *)

(** Two memories give the same reads when a relation between them is kept by the two uses of a
    reference.  It may mention the state [fin] in which the run of the first memory ends. *)
Section simulation.
Context {T1 T2 : Type} `{SimMemory T1} `{SimMemory T2}.
Context (grows : T1 -> T1 -> Prop) `{!PreOrder grows} (seen : T1 -> Z -> Prop).
Context (R : T1 -> T1 -> T2 -> Prop).

Record memory_sim : Prop := {
  ms_size fin t1 t2 : R fin t1 t2 -> 0 <= get_size t1 /\ get_size t1 = get_size t2;
  ms_at_grows t1 i : grows t1 (snd (at_ t1 i)) /\ get_size (snd (at_ t1 i)) = get_size t1;
  ms_assign_grows t1 i v : seen t1 i -> grows t1 (assign t1 i v) /\ get_size (assign t1 i v) = get_size t1;
  ms_seen t1 i : seen (snd (at_ t1 i)) i;
  ms_at fin t1 t2 i v t1' : R fin t1 t2 -> 0 <= i < get_size t1 / 8 -> at_ t1 i = (v, t1') ->
    grows t1' fin -> 0 <= v < 2 ^ 64 /\ exists t2', at_ t2 i = (v, t2') /\ R fin t1' t2';
  ms_assign fin t1 t2 i v : R fin t1 t2 -> 0 <= i < get_size t1 / 8 -> 0 <= v < 2 ^ 64 ->
    seen t1 i -> grows (assign t1 i v) fin -> R fin (assign t1 i v) (assign t2 i v) }.
Hypothesis sim : memory_sim.

Lemma ram_read_grows i t1 v t1' :
  difftest_ram_read i (Some t1) = Ok (v, Some t1') -> grows t1 t1' /\ get_size t1' = get_size t1.
Proof.
  unfold difftest_ram_read. destruct (_ =? 0); [done|].
  pose proof (ms_at_grows sim t1 (u64 i mod (get_size t1 / 8))) as Hg.
  destruct (at_ t1 _) as [w t']. intros [= <- <-]. done.
Qed.

Lemma ram_write_grows i d k t1 :
  exists t1', difftest_ram_write i d k (Some t1) = Some t1' /\ grows t1 t1' /\ get_size t1' = get_size t1.
Proof.
  unfold difftest_ram_write. destruct (negb _); [by exists t1|].
  destruct (at_ t1 (u64 i)) as [old t2] eqn:E1. pose proof (ms_at_grows sim t1 (u64 i)) as [G1 S1].
  destruct (at_ t2 (u64 i)) as [x t3] eqn:E2. pose proof (ms_at_grows sim t2 (u64 i)) as [G2 S2].
  rewrite E1 in *. rewrite E2 in *. simpl in *. pose proof (ms_seen sim t2 (u64 i)) as Hs. rewrite E2 in Hs.
  destruct (ms_assign_grows sim t3 (u64 i) (masked old d k) Hs) as [G3 S3].
  eexists. split; [done|]. split; [by etrans; [|etrans]|congruence].
Qed.

Lemma accesses_grow l t1 vs t1' :
  accesses l (Some t1) = Ok (vs, Some t1') -> grows t1 t1' /\ get_size t1' = get_size t1.
Proof.
  revert t1 vs. induction l as [|[i|i d k] l IH]; intros t1 vs; cbn [accesses].
  - intros [= <- <-]. done.
  - destruct (difftest_ram_read i (Some t1)) as [[v [t|]]| |] eqn:E; cbn [mbind res_bind]; try done.
    + apply ram_read_grows in E as [Hg Hsz].
      destruct (accesses l (Some t)) as [[vs' t']| |] eqn:E'; try done.
      cbn [mbind res_bind]. intros [= <- ->]. destruct (IH _ _ E') as [Hg' Hsz'].
      split; [by etrans|congruence].
    + unfold difftest_ram_read in E. destruct (_ =? 0); [done|]. by destruct (at_ _ _).
  - destruct (ram_write_grows i d k t1) as (t & -> & Hg & Hsz). intros E. destruct (IH _ _ E) as [Hg' Hsz'].
    split; [by etrans|congruence].
Qed.

Lemma write_sim i d k t1 t2 t fin :
  difftest_ram_write i d k (Some t1) = Some t -> grows t fin -> R fin t1 t2 ->
  exists t2', difftest_ram_write i d k (Some t2) = Some t2' /\ R fin t t2'.
Proof.
  unfold difftest_ram_write, in_range_u64. intros E Hg HR. destruct (ms_size sim _ _ _ HR) as [Hpos Hsz].
  rewrite <-Hsz. destruct (Z.ltb_spec (u64 i) (get_size t1 / 8)) as [Hi|Hi]; cbn [negb] in *;
    [|injection E as <-; by exists t2].
  assert (0 <= u64 i) by (apply wrapU_range; lia).
  destruct (at_ t1 (u64 i)) as [old ta] eqn:E1, (at_ ta (u64 i)) as [x tb] eqn:E2. injection E as <-.
  pose proof (ms_at_grows sim t1 (u64 i)) as [G1 S1]. pose proof (ms_at_grows sim ta (u64 i)) as [G2 S2].
  pose proof (ms_seen sim ta (u64 i)) as Hs. rewrite E1 in G1, S1. rewrite E2 in G2, S2, Hs. simpl in *.
  destruct (ms_assign_grows sim tb (u64 i) (masked old d k) Hs) as [G3 _].
  destruct (ms_at sim fin t1 t2 (u64 i) old ta HR ltac:(lia) E1) as (Ho & t2a & -> & HRa); [by etrans; [|etrans]|].
  destruct (ms_at sim fin ta t2a (u64 i) x tb HRa ltac:(rewrite S1; lia) E2) as (_ & t2b & -> & HRb); [by etrans|].
  eexists. split; [done|]. apply (ms_assign sim); [done|rewrite S2, S1; lia|by apply masked_range|done|done].
Qed.

Lemma accesses_sim l t1 t2 vs fin :
  accesses l (Some t1) = Ok (vs, Some fin) -> R fin t1 t2 ->
  exists t2', accesses l (Some t2) = Ok (vs, Some t2') /\ R fin fin t2'.
Proof.
  revert t1 t2 vs. induction l as [|[i|i d k] l IH]; intros t1 t2 vs; cbn [accesses].
  - intros [= <- <-] HR. eauto.
  - destruct (difftest_ram_read i (Some t1)) as [[v [t|]]| |] eqn:E; cbn [mbind res_bind]; try done.
    2: { unfold difftest_ram_read in E. destruct (_ =? 0); [done|]. by destruct (at_ _ _). }
    destruct (accesses l (Some t)) as [[vs' t']| |] eqn:E'; try done.
    cbn [mbind res_bind]. intros [= <- ->] HR. pose proof (accesses_grow _ _ _ _ E') as [Hg _].
    unfold difftest_ram_read in *. destruct (ms_size sim _ _ _ HR) as [Hpos <-].
    destruct (Z.eqb_spec (get_size t1 / 8) 0); [done|]. set (j := u64 i mod (get_size t1 / 8)) in *.
    destruct (at_ t1 j) as [w t1'] eqn:E1. injection E as -> ->.
    destruct (ms_at sim fin t1 t2 j v t HR) as (_ & t2' & -> & HR'); [|done|done|].
    { apply Z.mod_pos_bound. dlia. }
    cbn [mbind res_bind]. destruct (IH t t2' vs' E' HR') as (t2'' & -> & HR''). by eexists.
  - intros E HR. destruct (ram_write_grows i d k t1) as (t & Ew & _ & _). rewrite Ew in E.
    pose proof (accesses_grow _ _ _ _ E) as [Hg _].
    assert (exists t2', difftest_ram_write i d k (Some t2) = Some t2' /\ R fin t t2') as (t2' & -> & HR');
      [|by eapply IH]. by eapply write_sim.
Qed.
End simulation.

(** ** Recording *)

#[local] Arguments load_le : simpl never.
#[local] Arguments store_le : simpl never.
#[local] Arguments to_bytes : simpl never.

Definition word (m : MmapMemory) (i : Z) : Z := load64 (ram m) (8 * i).

Definition mmap_ok (m : MmapMemory) : Prop := wf_mem (ram m) /\ 0 <= memory_size m < 2 ^ 64.

Lemma word_range m i : mmap_ok m -> 0 <= word m i < 2 ^ 64.
Proof. intros [Hm _]. apply (load_le_range 8 (ram m) (8 * i) Hm). Qed.

Lemma assign_ok m i v : mmap_ok m -> mmap_ok (assign m i v).
Proof. intros [Hm Hs]. split; [|done]. by apply wf_store_le. Qed.

Lemma word_assign m i j v : 0 <= v < 2 ^ 64 -> word (assign m i v) j = if j =? i then v else word m j.
Proof.
  intros Hv. unfold word. change (ram (assign m i v)) with (store64 (ram m) (8 * i) v). rewrite load64_store64; [|dlia|dlia|done].
  destruct (Z.eqb_spec (8 * i) (8 * j)), (Z.eqb_spec j i); done || lia.
Qed.

(** A memory that records sees what the plain one sees, and its file is made of bytes. *)
Definition recording (_ m : MmapMemory) (r : MmapMemoryWithFootprints) : Prop :=
  mmap_ok m /\ base r = m /\ Forall (fun b => 0 <= b < 256) (footprints_file r).

#[local] Instance always_preorder {A} : PreOrder (fun _ _ : A => True).
Proof. by split. Qed.

Lemma recording_sim :
  memory_sim (T1 := MmapMemory) (T2 := MmapMemoryWithFootprints)
    (fun _ _ => True) (fun _ _ => True) recording.
Proof.
  split; simpl; try done.
  - intros fin m r ([_ ?] & -> & _). split; [lia|done].
  - intros fin m r i v m' (Hm & <- & Hf) _ [= <- <-] _. split; [by apply word_range|].
    destruct (touched r i); simpl; eexists; (split; [done|]); [done|]. split; [done|]. split; [done|].
    apply Forall_app. split; [done|apply to_bytes_ok].
  - intros fin m r i v (Hm & <- & Hf) _ Hv _ _. split; [by apply assign_ok|done].
Qed.

(** ** Replay *)

(** The number of words below [n] that are not zero. *)
Definition nonzeros (lin : Z -> Z) (n : Z) : Z :=
  Z.of_nat (length (filter (fun i => lin i <> 0) (seqZ 0 n))).

Lemma nonzeros_upd lin n j v :
  lin j = 0 -> v <> 0 -> 0 <= j < n -> nonzeros (upd lin j v) n = nonzeros lin n + 1.
Proof.
  intros Hj Hv Hn. unfold nonzeros.
  assert (j ∈ seqZ 0 n) as Hin by (apply elem_of_range; lia).
  pose proof (NoDup_seqZ 0 n) as Hnd. apply elem_of_Permutation in Hin as (k & Hk).
  rewrite Hk in Hnd. apply NoDup_cons in Hnd as [Hnot _]. rewrite Hk, !filter_cons, upd_eq.
  rewrite decide_True, decide_False by naive_solver. simpl.
  assert (filter (fun i => upd lin j v i <> 0) k = filter (fun i => lin i <> 0) k) as ->; [|lia].
  clear -Hnot. induction k as [|x k IH]; [done|]. apply not_elem_of_cons in Hnot as [Hx Hk].
  rewrite !filter_cons, upd_ne, IH by done. done.
Qed.

Lemma nonzeros_step lin i :
  0 <= i -> nonzeros lin (i + 1) = nonzeros lin i + (if lin i =? 0 then 0 else 1).
Proof.
  intros Hi. unfold nonzeros. rewrite seqZ_snoc, filter_app, length_app by done.
  rewrite filter_cons, filter_nil, Z.add_0_l. destruct (Z.eqb_spec (lin i) 0).
  - rewrite decide_False by naive_solver. simpl. lia.
  - rewrite decide_True by done. simpl. lia.
Qed.

Lemma nonzeros_zero n : nonzeros (fun _ => 0) n = 0.
Proof. unfold nonzeros. by induction (seqZ 0 n) as [|x l IH]. Qed.

Lemma nonzeros_mono lin i n : 0 <= i <= n -> nonzeros lin i <= nonzeros lin n.
Proof.
  intros Hi. replace n with (i + (n - i)) by lia. generalize (n - i), (proj2 (Z.le_0_sub i n) (proj2 Hi)).
  apply natlike_ind; [by rewrite Z.add_0_r|]. intros k Hk IH.
  replace (i + Z.succ k) with (i + k + 1) by lia. rewrite nonzeros_step by lia. destruct (_ =? 0); lia.
Qed.

(** When all non-zero words have been counted, the rest is zero. *)
Lemma nonzeros_rest lin i n j :
  0 <= i -> nonzeros lin n <= nonzeros lin i -> i <= j < n -> lin j = 0.
Proof.
  intros Hi Hle Hj. destruct (Z.eq_dec (lin j) 0) as [|Hne]; [done|].
  pose proof (nonzeros_mono lin i j). pose proof (nonzeros_mono lin (j + 1) n).
  pose proof (nonzeros_step lin j) as Hs. rewrite (proj2 (Z.eqb_neq _ _) Hne) in Hs. lia.
Qed.

(** The loop of [save_linear_memory] may stop early: past the index it gives all words are zero. *)
Lemma last_nonzero_spec fuel lin n t i last count :
  0 <= i <= n -> (Z.to_nat (n - i) <= fuel)%nat -> count = nonzeros lin i -> t = nonzeros lin n ->
  0 <= last -> last <= Z.max 0 (n - 1) -> (forall j, last < j < i -> lin j = 0) ->
  0 <= last_nonzero fuel lin n t i last count <= Z.max 0 (n - 1) /\
  forall j, last_nonzero fuel lin n t i last count < j < n -> lin j = 0.
Proof.
  revert i last count. induction fuel as [|fuel IH]; intros i last count Hi Hf Hc Ht Hl Hln Hz; cbn [last_nonzero].
  { split; [lia|]. intros j Hj. destruct (Z.lt_ge_cases j i); [apply Hz|]; lia. }
  destruct (Z.ltb_spec i n), (Z.ltb_spec count t); cbn [andb].
  - pose proof (nonzeros_step lin i ltac:(lia)) as Hs. destruct (Z.eqb_spec (lin i) 0) as [E|E].
    + apply IH; try lia. intros j Hj. destruct (Z.eq_dec j i) as [->|]; [done|]. apply Hz. lia.
    + apply IH; try lia.
  - split; [lia|]. intros j Hj. destruct (Z.lt_ge_cases j i); [apply Hz; lia|].
    apply (nonzeros_rest lin i n); lia.
  - split; [lia|]. intros j Hj. apply Hz. lia.
  - split; [lia|]. intros j Hj. apply Hz. lia.
Qed.

Abbreviation linear := (LinearizedFootprintsMemory FileReader).

(** The linear copy holds the words touched so far, as they were touched, and counts those that
    are not zero. *)
Record lin_ok (n : Z) (m : linear) : Prop := {
  lo_unseen : forall i, words (footprints m) !! i = None -> linear_memory m i = 0;
  lo_count : n_touched m = nonzeros (linear_memory m) n;
  lo_range : forall i, 0 <= linear_memory m i < 2 ^ 64;
  lo_out : forall i, ~ (0 <= i < n) -> linear_memory m i = 0 }.

Lemma nonzeros_range lin n : 0 <= n -> 0 <= nonzeros lin n <= n.
Proof.
  intros Hn. unfold nonzeros. pose proof (length_filter (fun i => lin i <> 0) (seqZ 0 n)) as H.
  rewrite length_seqZ in H. lia.
Qed.

(** The state after a touch. *)
Definition touch (m : linear) (i v : Z) (r : FileReader) : linear :=
  let f := mkFootprints (<[i := v]> (words (footprints m))) r
    (u64 (n_accessed (footprints m) + 8)) (fm_size (footprints m)) in
  if v =? 0 then mkLinear f (linear_memory m) (n_touched m)
  else mkLinear f (upd (linear_memory m) i v) (u64 (n_touched m + 1)).

Lemma touch_footprints m i v r :
  footprints (touch m i v r) = mkFootprints (<[i := v]> (words (footprints m))) r
    (u64 (n_accessed (footprints m) + 8)) (fm_size (footprints m)).
Proof. unfold touch. by destruct (v =? 0). Qed.

Lemma linear_at_seen (m : linear) i v :
  words (footprints m) !! i = Some v -> at_ m i = (v, m).
Proof. intros E. simpl. unfold footprints_at. rewrite E. by destruct m. Qed.

Lemma linear_at_new (m : linear) i v r :
  words (footprints m) !! i = None -> next (reader (footprints m)) = (v, r) -> at_ m i = (v, touch m i v r).
Proof.
  intros E En. cbn [at_ linearized_memory]. unfold footprints_at. rewrite E, En. unfold touch.
  by destruct (v =? 0).
Qed.

Lemma touch_ok n m i v r :
  lin_ok n m -> words (footprints m) !! i = None -> 0 <= v < 2 ^ 64 -> 0 <= i < n -> n < 2 ^ 61 ->
  lin_ok n (touch m i v r) /\ linear_memory (touch m i v r) i = v.
Proof.
  intros [L1 L2 L3 L4] E Hv Hi Hn. unfold touch. pose proof (L1 i E) as H0.
  destruct (Z.eqb_spec v 0) as [->|Hne].
  - split; [|done]. split; simpl; try done. intros j [Hj _]%lookup_insert_None. by apply L1.
  - pose proof (nonzeros_range (linear_memory m) n). split; [|simpl; apply upd_eq].
    split; simpl.
    + intros j [Hj Hji]%lookup_insert_None. rewrite upd_ne by done. by apply L1.
    + rewrite nonzeros_upd by done. rewrite wrapU_small by lia. lia.
    + intros j. unfold upd. by destruct (j =? i).
    + intros j Hj. rewrite upd_ne by (intros ->; lia). by apply L4.
Qed.

(** The footprints recorded so far are followed by those the replay has not read yet; what was
    touched has the same value on both sides. *)
Record replaying (fin rec : MmapMemoryWithFootprints) (m : linear) : Prop := {
  rp_base : mmap_ok (base rec);
  rp_size : fm_size (footprints m) = memory_size (base rec);
  rp_words : forall i, words (footprints m) !! i = if touched rec i then Some (word (base rec) i) else None;
  rp_file : footprints_file rec ++ file (reader (footprints m)) = footprints_file fin;
  rp_lin : lin_ok (memory_size (base rec) / 8) m }.

Definition file_grows (r r' : MmapMemoryWithFootprints) : Prop :=
  footprints_file r `prefix_of` footprints_file r'.

#[local] Instance file_grows_preorder : PreOrder file_grows.
Proof. split; [intros r; unfold file_grows; done|]. intros r1 r2 r3 H1 H2. unfold file_grows in *. by etrans. Qed.

Lemma replay_sim :
  memory_sim (T1 := MmapMemoryWithFootprints) (T2 := linear) file_grows
    (fun r i => touched r i = true) replaying.
Proof.
  split.
  - intros fin r m [[_ Hs] Hsz _ _ _]. simpl. split; [lia|done].
  - intros r i. unfold file_grows. simpl. destruct (touched r i); simpl; [done|]. split; [by eexists|done].
  - intros r i v Ht. unfold file_grows. done.
  - intros r i. simpl. destruct (touched r i) eqn:E; simpl; [done|apply upd_eq].
  - intros fin r m i v r' [P1 P2 P3 P4 P5] Hi E Hg. simpl in E, Hi. pose proof (P3 i) as Hw.
    pose proof (word_range (base r) i P1) as Hr. fold (word (base r) i) in E.
    destruct (touched r i) eqn:Et; simpl in E; injection E as <- <-; (split; [done|]).
    { exists m. split; [by apply linear_at_seen|]. by split. }
    destruct Hg as [k Hk]. simpl in Hk. rewrite <-P4, <-(assoc_L (++)) in Hk. apply app_inv_head in Hk.
    assert (next (reader (footprints m)) = (word (base r) i, mkFile k (file_size (reader (footprints m))))) as En.
    { destruct (reader (footprints m)) as [l sz]. simpl in *. rewrite Hk. by apply next_word. }
    eexists. split; [by apply linear_at_new|].
    destruct (touch_ok _ m i (word (base r) i) (mkFile k (file_size (reader (footprints m)))) P5 Hw Hr)
      as [Hl _]; [lia|destruct P1 as [_ ?]; dlia|].
    split; simpl; [done|by rewrite touch_footprints| | |done].
    + intros j. rewrite touch_footprints. simpl. unfold upd. destruct (Z.eqb_spec j i) as [->|];
        [by rewrite lookup_insert_eq|]. rewrite lookup_insert_ne by done. apply P3.
    + by rewrite touch_footprints, <-P4, Hk, (assoc_L (++)).
  - intros fin r m i v [P1 P2 P3 P4 [L1 L2 L3 L4]] Hi Hv Ht Hg. split; simpl.
    + by apply assign_ok.
    + done.
    + intros j. change (word _ j) with (word (assign (base r) i v) j).
      rewrite word_assign by done. destruct (Z.eqb_spec j i) as [->|].
      * by rewrite lookup_insert_eq, Ht.
      * rewrite lookup_insert_ne by done. apply P3.
    + done.
    + split; simpl; try done. intros j [Hj _]%lookup_insert_None. by apply L1.
Qed.

(** ** Reloading the linear copy *)

Lemma of_bytes_range l : Forall (fun b => 0 <= b < 256) l -> 0 <= of_bytes l < 256 ^ Z.of_nat (length l).
Proof.
  induction 1 as [|b l Hb _ IH]; cbn [of_bytes length]; [lia|].
  rewrite Nat2Z.inj_succ, Z.pow_succ_r by lia. lia.
Qed.

Lemma next_range r v r' :
  Forall (fun b => 0 <= b < 256) (file r) -> next r = (v, r') ->
  0 <= v < 2 ^ 64 /\ Forall (fun b => 0 <= b < 256) (file r').
Proof.
  intros Hf. cbn [next file_reader]. destruct (Z.ltb_spec (Z.of_nat (length (file r))) 8); intros [= <- <-].
  - split; [lia|constructor].
  - split; [|simpl; by apply Forall_drop]. pose proof (of_bytes_range (take 8 (file r)) (Forall_take _ _ _ Hf)) as Hb.
    rewrite length_take in Hb. by replace (Nat.min 8 (length (file r))) with 8%nat in Hb by lia.
Qed.

(** A memory that starts from the final linear copy has, in every word, the value the run has given
    it or, before it is touched, the value it will be touched with. *)
Record reloaded (fin m : linear) (p : MmapMemory) : Prop := {
  rl_ok : mmap_ok p;
  rl_size : memory_size p = fm_size (footprints m);
  rl_bytes : Forall (fun b => 0 <= b < 256) (file (reader (footprints m)));
  rl_unseen : forall i, words (footprints m) !! i = None -> linear_memory m i = 0;
  rl_words : forall i v, words (footprints m) !! i = Some v -> word p i = v;
  rl_rest : forall i, words (footprints m) !! i = None -> 0 <= i < memory_size p / 8 ->
    word p i = linear_memory fin i }.

Definition lin_grows (m m' : linear) : Prop :=
  forall i, is_Some (words (footprints m) !! i) ->
    is_Some (words (footprints m') !! i) /\ linear_memory m' i = linear_memory m i.

#[local] Instance lin_grows_preorder : PreOrder lin_grows.
Proof.
  split; [by intros m i Hi|]. intros m1 m2 m3 H1 H2 i Hi. destruct (H1 i Hi) as [Hi2 E1].
  destruct (H2 i Hi2) as [Hi3 E2]. split; [done|congruence].
Qed.

Lemma touch_linear m i v r j :
  linear_memory (touch m i v r) j = if (j =? i) && negb (v =? 0) then v else linear_memory m j.
Proof.
  unfold touch. destruct (Z.eqb_spec v 0); simpl; [by rewrite andb_false_r|]. unfold upd. by rewrite andb_true_r.
Qed.

Lemma linear_at_cases (m : linear) i :
  (exists v, words (footprints m) !! i = Some v /\ at_ m i = (v, m)) \/
  (exists v r, words (footprints m) !! i = None /\ next (reader (footprints m)) = (v, r) /\
     at_ m i = (v, touch m i v r)).
Proof.
  destruct (words (footprints m) !! i) as [v|] eqn:E; [left|right].
  - exists v. split; [done|]. by apply linear_at_seen.
  - destruct (next (reader (footprints m))) as [v r] eqn:En. exists v, r. split; [done|]. split; [done|].
    by apply linear_at_new.
Qed.

Lemma touch_grows m i v r : words (footprints m) !! i = None -> lin_grows m (touch m i v r).
Proof.
  intros E j [x Hj]. rewrite touch_footprints, touch_linear. simpl.
  destruct (Z.eqb_spec j i) as [->|Hne]; [congruence|]. rewrite lookup_insert_ne by done. by rewrite Hj.
Qed.

Lemma reload_sim :
  memory_sim (T1 := linear) (T2 := MmapMemory) lin_grows
    (fun m i => is_Some (words (footprints m) !! i)) reloaded.
Proof.
  split.
  - intros fin m p [[_ Hs] Hsz _ _ _ _]. simpl. rewrite <-Hsz. split; [lia|done].
  - intros m i. destruct (linear_at_cases m i) as [(v & E & ->)|(v & r & E & En & ->)]; [done|].
    cbn [snd]. split; [by apply touch_grows|].
    change (fm_size (footprints (touch m i v r)) = fm_size (footprints m)). by rewrite touch_footprints.
  - intros m i v [x Hx]. split; [|done]. intros j [y Hj]. simpl. split; [|done].
    destruct (decide (j = i)) as [->|]; [by rewrite lookup_insert_eq|]. rewrite lookup_insert_ne by done. eauto.
  - intros m i. destruct (linear_at_cases m i) as [(v & E & ->)|(v & r & E & En & ->)]; cbn [snd]; [eauto|].
    rewrite touch_footprints. simpl. by rewrite lookup_insert_eq.
  - intros fin m p i v m' [R1 R2 R3 R4 R5 R6] Hi E Hg.
    assert (forall x, at_ p i = (word p i, p)) as Hp by done. cbn [get_size linearized_memory] in Hi.
    destruct (linear_at_cases m i) as [(x & Ex & Ea)|(x & r & Ex & En & Ea)]; rewrite Ea in E; injection E as -> <-.
    + rewrite <-(R5 i v Ex). split; [by apply word_range|]. by exists p.
    + destruct (next_range _ _ _ R3 En) as [Hv Hr]. split; [done|]. exists p.
      assert (word p i = v) as Ew.
      { rewrite R6 by (done || congruence). destruct (Hg i) as [_ ->].
        - rewrite touch_footprints. simpl. by rewrite lookup_insert_eq.
        - rewrite touch_linear, Z.eqb_refl. destruct (Z.eqb_spec v 0) as [->|]; simpl; [by apply R4|done]. }
      split; [by rewrite Hp, Ew|]. split; rewrite ?touch_footprints; cbn [words reader fm_size]; try done.
      * intros j [Hj Hne]%lookup_insert_None. rewrite touch_linear, (proj2 (Z.eqb_neq j i)) by done. by apply R4.
      * intros j y [[<- <-]|[_ Hj]]%lookup_insert_Some; [done|by apply R5].
      * intros j [Hj _]%lookup_insert_None. by apply R6.
  - intros fin m p i v [R1 R2 R3 R4 R5 R6] Hi Hv _ _. split; cbn [words reader fm_size footprints linear_memory assign linearized_memory footprints_memory]; try done.
    + by apply assign_ok.
    + intros j [Hj _]%lookup_insert_None. by apply R4.
    + intros j y Hj. rewrite word_assign by done. simpl in Hj. apply lookup_insert_Some in Hj as [[<- <-]|[Hne Hj]].
      * by rewrite Z.eqb_refl.
      * rewrite (proj2 (Z.eqb_neq j i)) by done. by apply R5.
    + intros j [Hj Hne]%lookup_insert_None Hjn. rewrite word_assign by done.
      rewrite (proj2 (Z.eqb_neq j i)) by done. by apply R6.
Qed.

Lemma wf_put_bytes m a l : wf_mem m -> wf_mem (put_bytes m a l).
Proof. revert m a. induction l as [|b l IH]; intros m a Hm; simpl; [done|]. by apply IH, wf_store8. Qed.

(** The saved image, loaded again, is the linear copy. *)
Lemma saved_image m size :
  lin_ok (size / 8) m -> fm_size (footprints m) = size -> 8 <= size < 2 ^ 64 ->
  let p := newMmapMemory (Some (newFileReader (save_linear_memory m))) size in
  mmap_ok p /\ memory_size p = size /\ forall i, 0 <= i < size / 8 -> word p i = linear_memory m i.
Proof.
  intros [L1 L2 L3 L4] Hsz Hs. cbv zeta. set (n := size / 8) in *.
  assert (1 <= n) by (unfold n; dlia). unfold save_linear_memory. rewrite Hsz. fold n.
  destruct (last_nonzero_spec (Z.to_nat n) (linear_memory m) n (n_touched m) 0 0 0) as [Hr Hz];
    [lia|lia|by unfold nonzeros|exact L2|lia|lia|lia|].
  set (last := last_nonzero _ _ _ _ _ _ _) in *.
  set (img := mjoin ((fun i => to_bytes 8 (linear_memory m i)) <$> seqZ 0 (last + 1))).
  assert (Z.of_nat (length img) = 8 * (last + 1)) as Hlen by (apply words_length; lia).
  unfold newMmapMemory. cbn [read_all file_reader newFileReader file file_size]. rewrite Hlen.
  destruct (Z.ltb_spec size (8 * (last + 1))); [unfold n in *; dlia|].
  rewrite take_ge by lia. split; [|split; [done|]].
  - split; [|simpl; lia]. simpl. apply wf_put_bytes. intros a. lia.
  - intros i Hi. unfold word. cbn [ram]. unfold img. rewrite load_words by (lia || done).
    destruct (Z.leb_spec 0 i), (Z.ltb_spec i (last + 1)); simpl; try lia.
    by rewrite Hz by lia.
Qed.

(** ** The port never stops *)

Lemma mmap_accesses_total l (m : MmapMemory) :
  8 <= memory_size m -> exists vs m', accesses l (Some m) = Ok (vs, Some m').
Proof.
  revert m. induction l as [|[i|i d k] l IH]; intros m Hm; cbn [accesses]; [by eexists _, _| |].
  - unfold difftest_ram_read. cbn [get_size mmap_memory at_]. destruct (Z.eqb_spec (memory_size m / 8) 0); [dlia|].
    cbn [mbind res_bind]. destruct (IH m Hm) as (vs & m' & ->). by eexists _, _.
  - unfold difftest_ram_write. destruct (negb _); [by apply IH|]. cbn [at_ mmap_memory assign]. by apply IH.
Qed.

(** ** What the memories promise *)

(** C12: Recording, replaying and linearising a run are faithful.  For every memory of at least
    one word and every sequence of accesses of the Verilog side, the memory with footprints, the
    memory that replays the recorded footprints, and a plain memory loaded from the image the
    replay saves (which stops after the last word that is not zero) all give the reads that the
    plain memory gives, and none of them stops. *)
Theorem footprints_roundtrip (m : MmapMemory) l :
  mmap_ok m -> 8 <= memory_size m ->
  exists vs m1 r (lin : linear) m2,
  accesses l (Some m) = Ok (vs, Some m1) /\
  accesses l (Some (mkFootprinted m (fun _ => false) [])) = Ok (vs, Some r) /\
  accesses l (Some (newLinearized (newFileReader (footprints_file r)) (memory_size m))) = Ok (vs, Some lin) /\
  accesses l (Some (newMmapMemory (Some (newFileReader (save_linear_memory lin))) (memory_size m)))
    = Ok (vs, Some m2).
Proof.
  intros Hm Hs. destruct (mmap_accesses_total l m Hs) as (vs & m1 & E1).
  destruct (accesses_sim _ _ _ recording_sim l m (mkFootprinted m (fun _ => false) []) vs m1 E1)
    as (r & E2 & _ & Hb & Hf); [done|].
  destruct (accesses_sim _ _ _ replay_sim l (mkFootprinted m (fun _ => false) [])
    (newLinearized (newFileReader (footprints_file r)) (memory_size m)) vs r E2) as (lin & E3 & Hl).
  { split; try done. split; simpl; try done. by rewrite nonzeros_zero. }
  exists vs, m1, r, lin.
  assert (memory_size (base r) = memory_size m) as Hsz.
  { rewrite Hb. apply (accesses_grow _ _ _ recording_sim l m vs m1 E1). }
  destruct (saved_image lin (memory_size m)) as (Hp & Hps & Hpw);
    [rewrite <-Hsz; apply (rp_lin _ _ _ Hl)|rewrite (rp_size _ _ _ Hl); done|destruct Hm; lia|].
  destruct (accesses_sim _ _ _ reload_sim l (newLinearized (newFileReader (footprints_file r)) (memory_size m))
    (newMmapMemory (Some (newFileReader (save_linear_memory lin))) (memory_size m)) vs lin E3) as (m2 & E4 & _).
  { split; try done. intros i _ Hi. apply Hpw. by rewrite <-Hps. }
  by exists m2.
Qed.

Lemma footprints_roundtrip_witness :
  exists vs (m1 m2 : MmapMemory) r (lin : linear),
  accesses [RamRead 1; RamWrite 1 7 255; RamRead 1] (Some (mkMmap (fun a => if a =? 8 then 5 else 0) 64 0))
    = Ok (vs, Some m1) /\ vs = [5; 7] /\ footprints_file r = to_bytes 8 5 /\
  accesses [RamRead 1; RamWrite 1 7 255; RamRead 1]
    (Some (newMmapMemory (Some (newFileReader (save_linear_memory lin))) 64)) = Ok (vs, Some m2).
Proof.
  destruct (footprints_roundtrip (mkMmap (fun a => if a =? 8 then 5 else 0) 64 0)
    [RamRead 1; RamWrite 1 7 255; RamRead 1]) as (vs & m1 & r & lin & m2 & E1 & E2 & _ & E4).
  - split; [intros a; cbn; destruct (a =? 8); lia|cbn; lia].
  - cbn. lia.
  - exists vs, m1, m2, r, lin. split; [exact E1|]. split; [by injection E1|].
    split; [by injection E2 as <- <-|exact E4].
Defined.

(** C33: The port over a plain memory is an array of 64-bit words.  A read gives the word at the
    index modulo the size; a write inside the memory replaces, bit by bit, the bits of the mask and
    leaves every other word; a write outside it changes nothing.  A word written by [pmem_write] at
    an address of the memory is the one [pmem_read] gives there. *)
Theorem ram_port_words (m : MmapMemory) idx data mask :
  mmap_ok m -> 8 <= memory_size m ->
  difftest_ram_read idx (Some m) = Ok (word m (u64 idx mod (memory_size m / 8)), Some m) /\
  (exists m', difftest_ram_write idx data mask (Some m) = Some m' /\ mmap_ok m' /\
     forall j b, 0 <= b < 64 ->
       Z.testbit (word m' j) b =
       if (j =? u64 idx) && (u64 idx <? memory_size m / 8) && Z.testbit mask b
       then Z.testbit data b else Z.testbit (word m j) b) /\
  (forall addr, PMEM_BASE <= addr < 2 ^ 64 -> (addr - PMEM_BASE) / 8 < memory_size m / 8 ->
   exists m', pmem_write addr data (Some m) = Some m' /\ pmem_read addr (Some m') = Ok (u64 data, Some m')).
Proof.
  intros Hm Hs. split; [|split].
  - unfold difftest_ram_read. cbn [get_size mmap_memory at_].
    destruct (Z.eqb_spec (memory_size m / 8) 0); [dlia|done].
  - unfold difftest_ram_write, in_range_u64. cbn [get_size mmap_memory].
    destruct (Z.ltb_spec (u64 idx) (memory_size m / 8)) as [Hi|Hi]; cbn [negb].
    + eexists. split; [done|]. split; [by apply assign_ok|]. intros j b Hb.
      rewrite word_assign by (apply masked_range; by apply word_range).
      destruct (Z.eqb_spec j (u64 idx)) as [->|]; cbn [andb]; [|done]. by apply masked_bits.
    + exists m. split; [done|]. split; [done|]. intros j b Hb. by rewrite andb_false_r.
  - intros addr Ha Hr. unfold pmem_write, pmem_read.
    rewrite (wrapU_small 64 (addr - PMEM_BASE)) by (unfold PMEM_BASE in *; lia).
    set (i := (addr - PMEM_BASE) / 8) in *. assert (0 <= i) by (unfold i; apply Z.div_pos; lia).
    assert (u64 i = i) as Ei by (apply wrapU_small; destruct Hm; unfold i; dlia).
    unfold difftest_ram_write, in_range_u64. rewrite Ei. cbn [get_size mmap_memory].
    destruct (Z.ltb_spec i (memory_size m / 8)); [|lia]. cbn [negb]. eexists. split; [done|].
    unfold difftest_ram_read. cbn [get_size mmap_memory]. change (memory_size (assign m _ _)) with (memory_size m).
    destruct (Z.eqb_spec (memory_size m / 8) 0); [dlia|]. rewrite Ei, (Z.mod_small i) by lia.
    change (at_ ?x i) with (word x i, x). by rewrite word_assign, Z.eqb_refl, masked_all
      by (apply masked_range; by apply word_range).
Qed.

Lemma ram_port_words_witness :
  exists m', pmem_write (PMEM_BASE + 8) 5 (Some (mkMmap (fun _ => 0) 64 0)) = Some m' /\
    pmem_read (PMEM_BASE + 8) (Some m') = Ok (5, Some m').
Proof.
  refine (proj2 (proj2 (ram_port_words (mkMmap (fun _ => 0) 64 0) 0 5 0 _ _)) (PMEM_BASE + 8) _ _).
  - split; [intros a; cbn; lia|cbn; lia].
  - cbn. lia.
  - unfold PMEM_BASE. lia.
  - reflexivity.
Defined.

(** ** Images from the standard input *)

(** [read_all] reports all the bytes announced, but takes them with [istream::get]: it stops at a
    newline byte and leaves no room for the last byte, although the image is binary. *)
Lemma stdin_image_cut :
  let r := newStdinReader (to_bytes 8 4 ++ [1; 10; 3; 4]) in
  let '(n, m, _) := read_all r (fun _ => 0) 0 64 in
  n = 4 /\ get_bytes m 0 4 = [1; 0; 0; 0].
Proof. vm_compute. done. Qed.

(** A reader of an image in memory that has given words copies from the start again. *)
Lemma wim_read_all_restarts :
  let host := fun a => if a =? 8 then 9 else if a =? 0 then 7 else 0 in
  let '(_, r) := next (mkWim host 0 16 0) in
  let '(n, m, _) := read_all r (fun _ => 0) 0 64 in n = 8 /\ m 0 = 7.
Proof. vm_compute. done. Qed.
