(* ===== verification/Comlog.v ===== *)
(** * Commit log post-processing

    [src/main/resources/csrc/comlog.cc]: the raw commit log of a processor that writes some results
    back after the commit point is put in order again.  Partial entries wait in a reorder buffer
    until their writeback arrives; the vector [pdst_to_rob] holds a pointer to the entry that waits
    for each physical register.  A pointer into the deque is the number of the entry since the start
    of the log: entries keep their place while others are pushed behind or popped before them. *)
From S2P Require Import Prelude DramCommon.
From Stdlib Require Import Ascii.
From stdpp Require Import strings.
Local Open Scope string_scope.
Local Open Scope list_scope.
Local Open Scope Z_scope.

(** ** Strings *)

Definition npos : Z := 2 ^ 64 - 1.
Definition slen (s : string) : Z := Z.of_nat (String.length s).

(** [s.at(i)]. *)
Definition char_at (s : string) (i : Z) : M ascii :=
  match String.get (Z.to_nat i) s with Some c => Ok c | None => Err Uncaught end.

(** [s.find(t, from)], and [s.find_first_of(c)] for a single character. *)
Definition find (t s : string) (from : Z) : Z :=
  match String.index (Z.to_nat from) t s with Some i => Z.of_nat i | None => npos end.
Definition find_first_of (c : ascii) (s : string) : Z := find (String c "") s 0.

(** [s.substr(pos, n)], [s.replace(pos, n, t)] and [s.erase(pos, n)]. *)
Definition substr (s : string) (pos n : Z) : M string :=
  if slen s <? pos then Err Uncaught
  else Ok (String.substring (Z.to_nat pos) (Z.to_nat (Z.min n (slen s - pos))) s).
Definition replace (s : string) (pos n : Z) (t : string) : M string :=
  if slen s <? pos then Err Uncaught
  else
    let rest := pos + Z.min n (slen s - pos) in
    Ok (String.substring 0 (Z.to_nat pos) s +:+ t
        +:+ String.substring (Z.to_nat rest) (Z.to_nat (slen s - rest)) s).
Definition erase (s : string) (pos n : Z) : M string := replace s pos n "".

Definition is_space (c : ascii) : bool :=
  let n := Z.of_N (N_of_ascii c) in (n =? 32) || ((9 <=? n) && (n <=? 13)).
Definition digit_of (c : ascii) : option Z :=
  let n := Z.of_N (N_of_ascii c) in
  if (48 <=? n) && (n <=? 57) then Some (n - 48) else None.

(** [atoi]: blanks, a sign, digits. *)
Fixpoint digits (s : string) (acc : Z) : Z :=
  match s with
  | String c s => match digit_of c with Some d => digits s (10 * acc + d) | None => acc end
  | EmptyString => acc
  end.
Fixpoint atoi (s : string) : Z :=
  match s with
  | EmptyString => 0
  | String c rest =>
      if is_space c then atoi rest
      else if Ascii.eqb c "-"%char then - digits rest 0
      else if Ascii.eqb c "+"%char then digits rest 0
      else digits s 0
  end.

(** ** The reorder buffer *)

Definition kMaxPdst : Z := 64.

Record RobEntry := mkEntry { ready : bool; pdst : Z; str : string }.

(** [first] is the number of the entry at the front of [rob]. *)
Record comlog := mkComlog {
  rob : list RobEntry; first : nat; pdst_to_rob : list (option nat); cout : list string }.

Definition newComlog : comlog := mkComlog [] 0 (replicate (Z.to_nat kMaxPdst) None) [].

Definition is_reg (c : ascii) : bool := Ascii.eqb c "x"%char || Ascii.eqb c "f"%char.

Definition is_partial_commit (line : string) : M bool :=
  if 46 <? slen line then
    c ← char_at line 34;
    if is_reg c then d ← char_at line 46; Ok (Ascii.eqb d "X"%char) else Ok false
  else Ok false.

Definition is_instruction (line : string) : M bool :=
  c ← char_at line 0; Ok (negb (is_reg c)).

(** The number after the first ['p']. *)
Definition tag_after_p (line : string) (idx : Z) : M Z :=
  t ← substr line (u64 (idx + 1)) 2; Ok (atoi t).

Definition get_pdst (line : string) : M Z :=
  if slen line <=? 46 then Err AssertFailed
  else tag_after_p line (s32 (find_first_of "p"%char line)).

Definition push (line : string) (c : comlog) : M comlog :=
  is_partial ← is_partial_commit line;
  if (is_partial : bool) then
    p ← get_pdst line;
    if kMaxPdst <=? p then Err AssertFailed
    else
      waiting ← vget (pdst_to_rob c) p;
      match waiting with
      | Some _ => Err AssertFailed
      | None =>
          ptrs ← vset (pdst_to_rob c) p (Some (first c + length (rob c))%nat);
          Ok (mkComlog (rob c ++ [mkEntry false p line]) (first c) ptrs (cout c))
      end
  else Ok (mkComlog (rob c ++ [mkEntry true 0 line]) (first c) (pdst_to_rob c) (cout c)).

(** The loop of [commit]: the ready entries at the front are printed. *)
Fixpoint ready_prefix (l : list RobEntry) : list RobEntry * list RobEntry :=
  match l with
  | e :: l => if ready e then let '(out, rest) := ready_prefix l in (e :: out, rest) else ([], e :: l)
  | [] => ([], [])
  end.
Definition commit (c : comlog) : comlog :=
  let '(out, rest) := ready_prefix (rob c) in
  mkComlog rest (first c + length out)%nat (pdst_to_rob c) (cout c ++ (str <$> out)).

(** The commit string with the data of the writeback in place of the placeholder, and without the
    physical tag. *)
Definition patch (line rob_str : string) : M string :=
  if slen rob_str <=? 32 then Err AssertFailed
  else
    wbdata ← substr line (u64 (find "0x" line 0 + 2)) 16;
    let idx := find "0x" rob_str 32 in
    let p_idx := s32 (find_first_of "p"%char rob_str) in
    rob_str ← replace rob_str (u64 (idx + 2)) 16 wbdata;
    erase rob_str (u64 p_idx) (u64 (idx - p_idx)).

Definition writeback (line : string) (c : comlog) : M comlog :=
  c0 ← char_at line 0;
  if negb (is_reg c0) then Err AssertFailed
  else
    let idx := find_first_of "p"%char line in
    if idx =? npos then Err AssertFailed
    else
      p ← tag_after_p line idx;
      if kMaxPdst <=? p then Err AssertFailed
      else
        waiting ← vget (pdst_to_rob c) p;
        match waiting with
        | None => Err AssertFailed
        | Some k =>
            ptrs ← vset (pdst_to_rob c) p None;
            e ← vget (rob c) (Z.of_nat k - Z.of_nat (first c));
            s ← patch line (str e);
            rob' ← vset (rob c) (Z.of_nat k - Z.of_nat (first c)) (mkEntry true (pdst e) s);
            Ok (mkComlog rob' (first c) ptrs (cout c))
        end.

(** The body of the loop of [main], and the loop over the lines of the standard input. *)
Definition process (line : string) (c : comlog) : M comlog :=
  inst ← is_instruction line;
  c ← (if (inst : bool) then push line c else writeback line c);
  Ok (commit c).

Definition comlog_main (lines : list string) : M comlog := forM lines process newComlog.

(** The last lines of the example in the file's header. *)
Definition header_log : list string :=
  ["0 0x0000000000002cdc (0xea5ff0ef) x1 0x0000000000002ce0";
   "0 0x000000000000208c (0x00b6b72f) x14 p 1 0xXXXXXXXXXXXXXXXX";
   "0 0x0000000000002090 (0x80000eb7) x29 0xffffffff80000000";
   "x14 p 1 0xffffffff80000000";
   "0 0x0000000000002cdc (0xea5ff0ef) x1 0x0000000000002ce0"].

Lemma comlog_example :
  (c ← comlog_main header_log; Ok (cout c, rob c)) =
  Ok (["0 0x0000000000002cdc (0xea5ff0ef) x1 0x0000000000002ce0";
       "0 0x000000000000208c (0x00b6b72f) x14 0xffffffff80000000";
       "0 0x0000000000002090 (0x80000eb7) x29 0xffffffff80000000";
       "0 0x0000000000002cdc (0xea5ff0ef) x1 0x0000000000002ce0"], []).
Proof. vm_compute. reflexivity. Qed.

(** ** What the post-processed log is *)

(** The entries of a log in the order of their commit, after some lines of the raw log: an
    instruction is appended, waiting if its result is missing, and a writeback completes the entry
    that waits for its register. *)
Inductive log_step : list RobEntry -> string -> list RobEntry -> Prop :=
| log_instruction h line :
    is_instruction line = Ok true -> is_partial_commit line = Ok false ->
    log_step h line (h ++ [mkEntry true 0 line])
| log_partial h line p :
    is_instruction line = Ok true -> is_partial_commit line = Ok true -> get_pdst line = Ok p ->
    0 <= p < kMaxPdst -> (forall e, e ∈ h -> ready e = false -> pdst e <> p) ->
    log_step h line (h ++ [mkEntry false p line])
| log_writeback h line p k e s :
    is_instruction line = Ok false -> find_first_of "p"%char line <> npos ->
    tag_after_p line (find_first_of "p"%char line) = Ok p ->
    h !! k = Some e -> ready e = false -> pdst e = p -> patch line (str e) = Ok s ->
    log_step h line (<[k := mkEntry true p s]> h).

Inductive logged : list string -> list RobEntry -> Prop :=
| logged_nil : logged [] []
| logged_line lines line h h' : logged lines h -> log_step h line h' -> logged (lines ++ [line]) h'.

(** The pointers lead to the entries that wait. *)
Definition ptrs_ok (ptrs : list (option nat)) (h : list RobEntry) : Prop :=
  Z.of_nat (length ptrs) = kMaxPdst /\
  forall p k, vget ptrs p = Ok (Some k) <->
    exists e, h !! k = Some e /\ ready e = false /\ pdst e = p.

(** The entries printed, followed by those in the buffer, are the log. *)
Record splits (c : comlog) (h pre : list RobEntry) : Prop := {
  sp_log : h = pre ++ rob c;
  sp_first : first c = length pre;
  sp_ready : Forall (fun e => ready e = true) pre;
  sp_cout : cout c = str <$> pre;
  sp_ptrs : ptrs_ok (pdst_to_rob c) h }.

Definition stalled (l : list RobEntry) : Prop := match l with e :: _ => ready e = false | [] => True end.

Lemma ready_prefix_spec l :
  let '(out, rest) := ready_prefix l in
  l = out ++ rest /\ Forall (fun e => ready e = true) out /\ stalled rest.
Proof.
  induction l as [|e l IH]; simpl; [done|]. destruct (ready e) eqn:E; [|done].
  destruct (ready_prefix l) as [out rest]. destruct IH as (-> & Hr & Hs).
  split; [done|]. split; [by constructor|done].
Qed.

Lemma ready_prefix_unique pre rest :
  Forall (fun e => ready e = true) pre -> stalled rest -> ready_prefix (pre ++ rest) = (pre, rest).
Proof.
  induction 1 as [|e pre He _ IH]; intros Hs; simpl.
  - destruct rest as [|e rest]; simpl in *; [done|]. by rewrite Hs.
  - rewrite He, IH by done. done.
Qed.

Lemma commit_ok c h pre :
  splits c h pre -> exists pre', splits (commit c) h pre' /\ stalled (rob (commit c)).
Proof.
  intros [-> S2 S3 S4 S5]. unfold commit. pose proof (ready_prefix_spec (rob c)) as H.
  destruct (ready_prefix (rob c)) as [out rest]. destruct H as (E & Hr & Hs).
  exists (pre ++ out). split; [|done]. split; simpl.
  - by rewrite E, (assoc_L (++)).
  - rewrite length_app. lia.
  - by apply Forall_app.
  - by rewrite S4, fmap_app.
  - done.
Qed.

Lemma ptrs_push ptrs h p line ptrs' :
  ptrs_ok ptrs h -> (forall e, e ∈ h -> ready e = false -> pdst e <> p) ->
  vset ptrs p (Some (length h)) = Ok ptrs' -> ptrs_ok ptrs' (h ++ [mkEntry false p line]).
Proof.
  intros [Hl Hp] Hno E. split; [by rewrite (vset_length _ _ _ _ E)|]. intros q k.
  rewrite (vget_vset _ _ _ _ _ E). destruct (Z.eqb_spec q p) as [->|Hne].
  - split.
    + intros [= <-]. eexists. rewrite lookup_app_r, Nat.sub_diag by done. by split.
    + intros (e & [He|(Hle & He)]%lookup_app_Some & Hr & Hpd).
      * apply list_elem_of_lookup_2 in He. by destruct (Hno e He Hr).
      * apply list_lookup_singleton_Some in He as [Hk _]. f_equal. f_equal.
        lia.
  - rewrite Hp. split; intros (e & He & Hr & Hpd); exists e; (split; [|done]).
    + by apply lookup_app_l_Some.
    + apply lookup_app_Some in He as [He|(_ & He)]; [done|].
      apply list_lookup_singleton_Some in He as [_ <-]. by simpl in Hpd.
Qed.

Lemma ptrs_ready ptrs h line : ptrs_ok ptrs h -> ptrs_ok ptrs (h ++ [mkEntry true 0 line]).
Proof.
  intros [Hl Hp]. split; [done|]. intros p k. rewrite Hp. split; intros (e & He & Hr & Hpd); exists e;
    (split; [|done]).
  - by apply lookup_app_l_Some.
  - apply lookup_app_Some in He as [He|(_ & He)]; [done|].
    apply list_lookup_singleton_Some in He as [_ <-]. done.
Qed.

Lemma ptrs_writeback ptrs h p k e s ptrs' :
  ptrs_ok ptrs h -> h !! k = Some e -> ready e = false -> pdst e = p ->
  vset ptrs p None = Ok ptrs' -> ptrs_ok ptrs' (<[k := mkEntry true p s]> h).
Proof.
  intros [Hl Hp] Hk Hr Hpd E. split; [by rewrite (vset_length _ _ _ _ E)|]. intros q j.
  rewrite (vget_vset _ _ _ _ _ E).
  assert (vget ptrs p = Ok (Some k)) as Ek by (apply Hp; eauto).
  destruct (Z.eqb_spec q p) as [->|Hne].
  - split; [done|]. intros (e' & [(_ & <- & _)|(Hne & Hj)]%list_lookup_insert_Some & Hr' & Hpd'); [done|].
    assert (vget ptrs p = Ok (Some j)) as Ej by (apply Hp; eauto). congruence.
  - rewrite Hp. split; intros (e' & He & Hr' & Hpd'); exists e'; (split; [|done]).
    + rewrite list_lookup_insert_ne; [done|]. intros ->. rewrite Hk in He. injection He as ->. congruence.
    + apply list_lookup_insert_Some in He as [(_ & <- & _)|(_ & He)]; done.
Qed.

Lemma length_log c h pre : splits c h pre -> (first c + length (rob c))%nat = length h.
Proof. intros [-> -> _ _ _]. by rewrite length_app. Qed.

Lemma not_waiting ptrs h p : ptrs_ok ptrs h -> vget ptrs p = Ok None ->
  forall e, e ∈ h -> ready e = false -> pdst e <> p.
Proof.
  intros [_ Hp] Hn e [k Hk]%list_elem_of_lookup Hr Hpd.
  assert (vget ptrs p = Ok (Some k)) as Ek by (apply Hp; eauto). congruence.
Qed.

(** An instruction, as the code adds it and as the log gets it. *)
Lemma push_log line c h pre c' :
  splits c h pre -> is_instruction line = Ok true -> push line c = Ok c' ->
  exists h', log_step h line h' /\ splits c' h' pre.
Proof.
  intros Hs Hi E. pose proof (length_log c h pre Hs) as Hlen. destruct Hs as [S1 S2 S3 S4 S5]. unfold push in E.
  destruct (is_partial_commit line) as [[]| |] eqn:Ep; try done; cbn [mbind res_bind] in E.
  - destruct (get_pdst line) as [p| |] eqn:Eg; try done. cbn [mbind res_bind] in E.
    destruct (Z.leb_spec kMaxPdst p); [done|]. destruct (vget (pdst_to_rob c) p) as [[]| |] eqn:Ew; try done.
    cbn [mbind res_bind] in E. destruct (vset _ p _) as [ptrs| |] eqn:Es; try done. injection E as <-.
    pose proof (vget_range _ _ _ Ew). pose proof (not_waiting _ _ _ S5 Ew) as Hno.
    eexists. split; [apply (log_partial h line p); try done; lia|]. split; simpl; try done.
    + by rewrite S1, (assoc_L (++)).
    + rewrite Hlen in Es. by eapply ptrs_push.
  - injection E as <-. eexists. split; [by apply log_instruction|]. split; simpl; try done.
    + by rewrite S1, (assoc_L (++)).
    + by apply ptrs_ready.
Qed.

Lemma push_total line c h pre h' :
  splits c h pre -> is_instruction line = Ok true -> log_step h line h' ->
  exists c', push line c = Ok c' /\ splits c' h' pre.
Proof.
  intros Hs Hi Hst. pose proof (length_log c h pre Hs) as Hlen. destruct Hs as [S1 S2 S3 S4 S5]. unfold push.
  inversion Hst as [? ? _ Ep|? ? p _ Ep Eg Hp Hno|]; subst h0 line0; [| |congruence].
  - rewrite Ep. cbn [mbind res_bind]. eexists. split; [done|]. split; simpl; try done.
    + by rewrite S1, (assoc_L (++)).
    + by apply ptrs_ready.
  - rewrite Ep. cbn [mbind res_bind]. rewrite Eg. cbn [mbind res_bind].
    destruct (Z.leb_spec kMaxPdst p); [lia|].
    destruct (vget_in_range (pdst_to_rob c) p) as [w Ew]; [destruct S5 as [-> _]; lia|].
    rewrite Ew. cbn [mbind res_bind]. destruct w as [k|].
    { apply (proj2 S5) in Ew as (e & He & Hr & Hpd). apply list_elem_of_lookup_2 in He.
      by destruct (Hno e He Hr). }
    destruct (vset (pdst_to_rob c) p (Some (first c + length (rob c))%nat)) as [ptrs| |] eqn:Es;
      [|rewrite vset_Ok in Es by (destruct S5 as [-> _]; lia); done..].
    cbn [mbind res_bind]. eexists. split; [done|]. split; simpl; try done.
    + by rewrite S1, (assoc_L (++)).
    + rewrite Hlen in Es. by eapply ptrs_push.
Qed.

(** The entry a writeback completes is in the buffer: entries that were printed do not wait. *)
Lemma waiting_in_rob c h pre p k :
  splits c h pre -> vget (pdst_to_rob c) p = Ok (Some k) ->
  exists e, vget (rob c) (Z.of_nat k - Z.of_nat (first c)) = Ok e /\ h !! k = Some e /\
    ready e = false /\ pdst e = p /\ (first c <= k)%nat /\ k = (length pre + (k - first c))%nat.
Proof.
  intros [-> S2 S3 S4 [_ S5]] Ew. apply S5 in Ew as (e & He & Hr & Hpd). exists e.
  pose proof He as [He'|(Hle & He')]%lookup_app_Some.
  { rewrite Forall_lookup in S3. rewrite (S3 _ _ He') in Hr. done. }
  split_and!; try done; try lia. apply vget_Ok. split; [lia|]. rewrite S2.
  by replace (Z.to_nat (Z.of_nat k - Z.of_nat (length pre))) with (k - length pre)%nat by lia.
Qed.

Lemma splits_writeback c h pre p k e s ptrs :
  splits c h pre -> vget (pdst_to_rob c) p = Ok (Some k) -> h !! k = Some e -> ready e = false -> pdst e = p ->
  vset (pdst_to_rob c) p None = Ok ptrs ->
  exists rob', vset (rob c) (Z.of_nat k - Z.of_nat (first c)) (mkEntry true p s) = Ok rob' /\
    splits (mkComlog rob' (first c) ptrs (cout c)) (<[k := mkEntry true p s]> h) pre.
Proof.
  intros Hs Ew Hk Hr Hpd Es. destruct (waiting_in_rob c h pre p k Hs Ew) as (e' & Ev & _ & _ & _ & Hle & Ek).
  eexists. split; [apply vset_Ok; by eapply vget_range|]. destruct Hs as [-> S2 S3 S4 S5]. split; simpl; try done.
  - rewrite Ek, insert_app_r, S2. do 2 f_equal. lia.
  - by eapply ptrs_writeback.
Qed.

Lemma writeback_log line c h pre c' :
  splits c h pre -> is_instruction line = Ok false -> writeback line c = Ok c' ->
  exists h', log_step h line h' /\ splits c' h' pre.
Proof.
  intros Hs Hi E. unfold writeback in E. destruct (char_at line 0) as [c0| |] eqn:E0; try done.
  cbn [mbind res_bind] in E. destruct (negb (is_reg c0)); [done|].
  destruct (Z.eqb_spec (find_first_of "p"%char line) npos) as [|Hnp]; [done|].
  destruct (tag_after_p line _) as [p| |] eqn:Et; try done. cbn [mbind res_bind] in E.
  destruct (kMaxPdst <=? p); [done|]. destruct (vget (pdst_to_rob c) p) as [[k|]| |] eqn:Ew; try done.
  cbn [mbind res_bind] in E. destruct (vset (pdst_to_rob c) p None) as [ptrs| |] eqn:Es; try done.
  cbn [mbind res_bind] in E.
  destruct (waiting_in_rob c h pre p k Hs Ew) as (e & Ev & Hk & Hr & Hpd & _). rewrite Ev in E.
  cbn [mbind res_bind] in E. destruct (patch line (str e)) as [s| |] eqn:Ep; try done. cbn [mbind res_bind] in E.
  rewrite Hpd in E. destruct (splits_writeback c h pre p k e s ptrs Hs Ew Hk Hr Hpd Es) as (rob' & Er & Hs').
  rewrite Er in E. injection E as <-. eexists. split; [|exact Hs']. by apply (log_writeback h line p k e s).
Qed.

Lemma writeback_total line c h pre h' :
  splits c h pre -> is_instruction line = Ok false -> log_step h line h' ->
  exists c', writeback line c = Ok c' /\ splits c' h' pre.
Proof.
  intros Hs Hi Hst. inversion Hst as [| |? ? p k e s _ Hnp Et Hk Hr Hpd Ep]; subst h0 line0; [congruence..|].
  unfold writeback. unfold is_instruction in Hi. destruct (char_at line 0) as [c0| |]; try done.
  cbn [mbind res_bind] in *. injection Hi as ->. rewrite (proj2 (Z.eqb_neq _ _) Hnp), Et. cbn [mbind res_bind].
  pose proof (sp_ptrs _ _ _ Hs) as [Hl Hp]. assert (vget (pdst_to_rob c) p = Ok (Some k)) as Ew by (apply Hp; eauto).
  pose proof (vget_range _ _ _ Ew) as Hrg. rewrite Hl in Hrg. destruct (Z.leb_spec kMaxPdst p); [lia|].
  rewrite Ew. cbn [mbind res_bind].
  destruct (vset (pdst_to_rob c) p None) as [ptrs| |] eqn:Es; [|rewrite vset_Ok in Es by lia; done..].
  cbn [mbind res_bind]. destruct (waiting_in_rob c h pre p k Hs Ew) as (e' & Ev & Hk' & _).
  rewrite Hk in Hk'. injection Hk' as <-. rewrite Ev. cbn [mbind res_bind]. rewrite Ep. cbn [mbind res_bind].
  destruct (splits_writeback c h pre p k e s ptrs Hs Ew Hk Hr Hpd Es) as (rob' & Er & Hs'). rewrite Hpd, Er. eauto.
Qed.

(** One line, both ways. *)
Lemma process_log line c h pre c' :
  splits c h pre -> process line c = Ok c' ->
  exists h' pre', log_step h line h' /\ splits c' h' pre' /\ stalled (rob c').
Proof.
  intros Hs E. unfold process in E. destruct (is_instruction line) as [inst| |] eqn:Ei; try done.
  cbn [mbind res_bind] in E. destruct inst.
  - destruct (push line c) as [c1| |] eqn:E1; try done. injection E as <-.
    destruct (push_log line c h pre c1 Hs Ei E1) as (h' & Hst & Hs1).
    destruct (commit_ok c1 h' pre Hs1) as (pre' & ? & ?). eauto 6.
  - destruct (writeback line c) as [c1| |] eqn:E1; try done. injection E as <-.
    destruct (writeback_log line c h pre c1 Hs Ei E1) as (h' & Hst & Hs1).
    destruct (commit_ok c1 h' pre Hs1) as (pre' & ? & ?). eauto 6.
Qed.

Lemma process_total line c h pre h' :
  splits c h pre -> log_step h line h' ->
  exists c' pre', process line c = Ok c' /\ splits c' h' pre' /\ stalled (rob c').
Proof.
  intros Hs Hst. unfold process.
  assert (is_instruction line = Ok true \/ is_instruction line = Ok false) as [Ei|Ei]
    by (inversion Hst; auto); rewrite Ei; cbn [mbind res_bind].
  - destruct (push_total line c h pre h' Hs Ei Hst) as (c1 & -> & Hs1). cbn [mbind res_bind].
    destruct (commit_ok c1 h' pre Hs1) as (pre' & ? & ?). eauto 6.
  - destruct (writeback_total line c h pre h' Hs Ei Hst) as (c1 & -> & Hs1). cbn [mbind res_bind].
    destruct (commit_ok c1 h' pre Hs1) as (pre' & ? & ?). eauto 6.
Qed.

Lemma newComlog_splits : splits newComlog [] [].
Proof.
  split; try done. split; [done|]. intros p k. split.
  - intros [_ [Hk _]%lookup_replicate]%vget_Ok. done.
  - by intros (e & He & _).
Qed.

Lemma comlog_main_snoc lines line :
  comlog_main (lines ++ [line]) = (c ← comlog_main lines; process line c).
Proof.
  unfold comlog_main. rewrite forM_app. destruct (forM lines process newComlog) as [c| |]; try done.
  cbn [mbind res_bind forM]. by destruct (process line c).
Qed.

Lemma main_total lines h :
  logged lines h -> exists c pre, comlog_main lines = Ok c /\ splits c h pre /\ stalled (rob c).
Proof.
  induction 1 as [|lines line h h' _ (c & pre & E & Hs & _) Hst].
  - exists newComlog, []. split; [done|]. split; [apply newComlog_splits|done].
  - destruct (process_total line c h pre h' Hs Hst) as (c' & pre' & E' & Hs'). exists c', pre'.
    rewrite comlog_main_snoc, E. done.
Qed.

Lemma main_log lines c :
  comlog_main lines = Ok c -> exists h pre, logged lines h /\ splits c h pre /\ stalled (rob c).
Proof.
  revert c. induction lines as [|line lines IH] using rev_ind; intros c.
  - intros [= <-]. exists [], []. split; [constructor|]. split; [apply newComlog_splits|done].
  - rewrite comlog_main_snoc. destruct (comlog_main lines) as [c0| |]; try done. cbn [mbind res_bind].
    intros E. destruct (IH c0 eq_refl) as (h & pre & Hl & Hs & _).
    destruct (process_log line c0 h pre c Hs E) as (h' & pre' & Hst & Hs').
    exists h', pre'. split; [by eapply logged_line|done].
Qed.

(** C24: The post-processed log is in the order of commit.  The program accepts a raw log exactly
    when it is one: when every partial commit names a register nothing else waits for, and every
    writeback a register something waits for.  What it has printed is then the longest beginning
    of the completed log in which no entry waits, each entry with its own writeback filled in; so
    once nothing waits, everything has been printed, in order. *)
Theorem comlog_in_order lines :
  (forall h, logged lines h -> exists c, comlog_main lines = Ok c /\
     cout c = str <$> fst (ready_prefix h) /\ rob c = snd (ready_prefix h) /\
     (Forall (fun e => ready e = true) h -> cout c = str <$> h /\ rob c = [])) /\
  (forall c, comlog_main lines = Ok c -> exists h, logged lines h).
Proof.
  split.
  - intros h Hl. destruct (main_total lines h Hl) as (c & pre & E & [S1 S2 S3 S4 S5] & Hst). exists c.
    split; [done|]. rewrite S1, ready_prefix_unique by done. split; [done|]. split; [done|].
    intros [_ Hr]%Forall_app. destruct (rob c) as [|e l]; [by rewrite app_nil_r|].
    apply Forall_cons in Hr as [He _]. simpl in Hst. congruence.
  - intros c E. destruct (main_log lines c E) as (h & _ & Hl & _). eauto.
Qed.

(** The example is such a log, of four entries. *)
Lemma comlog_in_order_witness :
  exists h c, logged header_log h /\ comlog_main header_log = Ok c /\ length h = 4%nat /\
    cout c = str <$> fst (ready_prefix h).
Proof.
  destruct (proj2 (comlog_in_order header_log) _ eq_refl) as [h Hl].
  destruct (proj1 (comlog_in_order header_log) h Hl) as (c & E & Hc & Hr & _).
  exists h, c. split; [done|]. split; [done|]. split; [|done].
  pose proof (ready_prefix_spec h) as Hs. destruct (ready_prefix h) as [out rest]. destruct Hs as (-> & _ & _).
  simpl in *. rewrite length_app, <- (length_fmap str out), <- Hc, <- Hr.
  vm_compute in E. by injection E as <-.
Defined.
