(* ===== verification/FloatFix.v ===== *)
(** * Repairing floats in commit logs

    [src/main/resources/csrc/float_fix.cc] takes the commit log of the processor and that of the
    reference simulator, and undoes the recoding of single-precision floats that were loaded as
    doubles.  The recoding itself is hardware: [recFNFromFN] and [fNFromRecFN] of
    [hardfloat/src/main/scala], at the widths of a single float.

    A shift by 64 or more is undefined in C++.  Its result is the parameter [oob]; theorems hold
    for all such results, or for [oob_masked], the shifters that use the count modulo 64.
    Lines are strings that may hold NULs: a C string ends at the first ([until_nul]). *)
From S2P Require Import Prelude DramCommon Comlog.
From Stdlib Require Import Ascii.
From stdpp Require Import strings.
Local Open Scope string_scope.
Local Open Scope list_scope.
Local Open Scope Z_scope.

(** ** The hardware's encoding *)

(** The bits [hi] to [lo] of a signal. *)
Definition bits (x hi lo : Z) : Z := Z.shiftr x lo mod 2 ^ (hi - lo + 1).

Record RawFloat := mkRaw {
  isNaN : bool; isInf : bool; isZero : bool; sign : Z; sExp : Z; sig : Z }.

(** The priority encoder, as a tree of multiplexers over the bits from [off]: the index of the
    lowest that is set, and whether one is. *)
Fixpoint EncTree (width inps off : Z) (level : nat) : Z * bool :=
  match level with
  | O => (off, Z.testbit inps off)
  | S level =>
      if width <=? off + 2 ^ Z.of_nat level then EncTree width inps off level
      else
        let '(in1, v1) := EncTree width inps off level in
        let '(in2, v2) := EncTree width inps (off + 2 ^ Z.of_nat level) level in
        (if v1 then in1 else in2, v1 || v2)
  end.
Definition EncTreeO (width inps : Z) : Z := (EncTree width inps 0 (Z.to_nat (Z.log2_up width))).1.

(** The [width] low bits of a signal in reverse order. *)
Fixpoint Reverse (width : nat) (x : Z) : Z :=
  match width with
  | O => 0
  | S width => Z.lor (Z.shiftl (x mod 2) (Z.of_nat width)) (Reverse width (x / 2))
  end.

Definition opt_countLeadingZeros (width x : Z) : Z := EncTreeO width (Reverse (Z.to_nat width) x).

Section hardware.
Context (expWidth sigWidth : Z).

Definition rawFloatFromFN (x : Z) : RawFloat :=
  let sign := bits x (expWidth + sigWidth - 1) (expWidth + sigWidth - 1) in
  let expIn := bits x (expWidth + sigWidth - 2) (sigWidth - 1) in
  let fractIn := bits x (sigWidth - 2) 0 in
  let isZeroExpIn := expIn =? 0 in
  let isZeroFractIn := fractIn =? 0 in
  let normDist := opt_countLeadingZeros (sigWidth - 1) fractIn in
  let subnormFract := Z.shiftl (bits (Z.shiftl fractIn normDist) (sigWidth - 3) 0) 1 in
  let adjustedExp :=
    wrapU (expWidth + 1)
      ((if isZeroExpIn then Z.lxor normDist (2 ^ (expWidth + 1) - 1) else expIn)
       + Z.lor (2 ^ (expWidth - 1)) (if isZeroExpIn then 2 else 1)) in
  let isZero := isZeroExpIn && isZeroFractIn in
  let isSpecial := bits adjustedExp expWidth (expWidth - 1) =? 3 in
  mkRaw (isSpecial && negb isZeroFractIn) (isSpecial && isZeroFractIn) isZero sign adjustedExp
    (Z.lor (Z.shiftl (if isZero then 0 else 1) (sigWidth - 1))
       (if isZeroExpIn then subnormFract else fractIn)).

Definition recFNFromFN (x : Z) : Z :=
  let rawIn := rawFloatFromFN x in
  let top := Z.lor (if isZero rawIn then 0 else bits (sExp rawIn) expWidth (expWidth - 2))
               (if isNaN rawIn then 1 else 0) in
  Z.lor (Z.shiftl (sign rawIn) (expWidth + sigWidth))
    (Z.lor (Z.shiftl top (expWidth + sigWidth - 3))
       (Z.lor (Z.shiftl (bits (sExp rawIn) (expWidth - 3) 0) (sigWidth - 1))
          (bits (sig rawIn) (sigWidth - 2) 0))).

Definition rawFloatFromRecFN (x : Z) : RawFloat :=
  let exp := bits x (expWidth + sigWidth - 1) (sigWidth - 1) in
  let isZero := bits exp expWidth (expWidth - 2) =? 0 in
  let isSpecial := bits exp expWidth (expWidth - 1) =? 3 in
  mkRaw (isSpecial && Z.testbit exp (expWidth - 2)) (isSpecial && negb (Z.testbit exp (expWidth - 2)))
    isZero (bits x (expWidth + sigWidth) (expWidth + sigWidth)) exp
    (Z.lor (Z.shiftl (if isZero then 0 else 1) (sigWidth - 1)) (bits x (sigWidth - 2) 0)).

Definition fNFromRecFN (x : Z) : Z :=
  let minNormExp := 2 ^ (expWidth - 1) + 2 in
  let rawIn := rawFloatFromRecFN x in
  let isSubnormal := sExp rawIn <? minNormExp in
  let w := Z.log2_up (sigWidth - 1) in
  let denormShiftDist := wrapU w (1 - bits (sExp rawIn) (w - 1) 0) in
  let denormFract := bits (Z.shiftr (Z.shiftr (sig rawIn) 1) denormShiftDist) (sigWidth - 2) 0 in
  let expOut :=
    Z.lor (if isSubnormal then 0
           else wrapU expWidth (bits (sExp rawIn) (expWidth - 1) 0 - (2 ^ (expWidth - 1) + 1)))
      (if isNaN rawIn || isInf rawIn then 2 ^ expWidth - 1 else 0) in
  let fractOut :=
    if isSubnormal then denormFract
    else if isInf rawIn then 0 else bits (sig rawIn) (sigWidth - 2) 0 in
  Z.lor (Z.shiftl (sign rawIn) (expWidth + sigWidth - 1))
    (Z.lor (Z.shiftl expOut (sigWidth - 1)) fractOut).
End hardware.

(** A recoded float in a register for doubles: the upper 31 bits are set. *)
Definition nested (recoded : Z) : Z := Z.lor 0xfffffffe00000000 recoded.

(** ** The tool *)

Section float_fix.
Context (oob : Z -> Z -> Z).

(** [x >> d] on [uint64_t]. *)
Definition shr (x d : Z) : Z := if d <? 64 then Z.shiftr x d else oob x d.

Definition BitRange (x high low : Z) : Z :=
  let high_gap := 63 - high in
  Z.shiftr (u64 (Z.shiftl x high_gap)) (low + high_gap).

Definition NestedFloatPossible (raw_input : Z) : bool :=
  let mask := 0xfffffffe00000000 in
  Z.land raw_input mask =? mask.

Definition UnrecodeFloatFromDouble (raw_input : Z) : Z :=
  let recoded_float := Z.land raw_input 0x1ffffffff in
  let sign := BitRange recoded_float 32 32 in
  let exp_in := BitRange recoded_float 31 23 in
  let sig_in := BitRange recoded_float 22 0 in
  let is_high_subnormal_in := BitRange exp_in 6 0 <? 2 in
  let is_subnormal :=
    (BitRange exp_in 8 6 =? 1) || ((BitRange exp_in 8 7 =? 1) && is_high_subnormal_in) in
  let is_normal :=
    ((BitRange exp_in 8 7 =? 1) && negb is_high_subnormal_in) || (BitRange exp_in 8 7 =? 2) in
  let is_special := BitRange exp_in 8 7 =? 3 in
  let is_NaN := is_special && negb (BitRange exp_in 6 6 =? 0) in
  let denorm_shift_dist := u64 (2 - BitRange exp_in 4 0) in
  let subnormal_sig_out := shr (Z.lor 0x400000 sig_in) denorm_shift_dist in
  let normal_exp_out := u8 (BitRange exp_in 7 0 - 129) in
  let exp_out := if is_normal then normal_exp_out else if is_special then 255 else 0 in
  let sig_out :=
    if is_normal || is_NaN then sig_in else if is_subnormal then subnormal_sig_out else 0 in
  Z.lor (Z.lor (u64 (Z.shiftl sign 31)) (u64 (Z.shiftl exp_out 23))) sig_out.

(** [strtoull(s, nullptr, 16)], whose range error fails the assertion on [errno]. *)
Definition hex_digit (c : ascii) : option Z :=
  let n := Z.of_N (N_of_ascii c) in
  if (48 <=? n) && (n <=? 57) then Some (n - 48)
  else if (97 <=? n) && (n <=? 102) then Some (n - 87)
  else if (65 <=? n) && (n <=? 70) then Some (n - 55)
  else None.

Fixpoint hex_digits (s : string) (acc : Z) : Z :=
  match s with
  | String c s => match hex_digit c with Some d => hex_digits s (16 * acc + d) | None => acc end
  | EmptyString => acc
  end.

(** The prefix ["0x"] counts only if a digit follows. *)
Definition hex_prefix (s : string) : string :=
  match s with
  | String a (String b ((String c _) as rest)) =>
      if Ascii.eqb a "0"%char && (Ascii.eqb b "x"%char || Ascii.eqb b "X"%char)
         && bool_decide (hex_digit c <> None)
      then rest else s
  | _ => s
  end.

Fixpoint strtoull16 (s : string) : M Z :=
  let magnitude s := let x := hex_digits (hex_prefix s) 0 in
    if x <? 2 ^ 64 then Ok x else Err AssertFailed in
  match s with
  | EmptyString => Ok 0
  | String c rest =>
      if is_space c then strtoull16 rest
      else if Ascii.eqb c "-"%char then x ← magnitude rest; Ok (u64 (- x))
      else if Ascii.eqb c "+"%char then magnitude rest
      else magnitude s
  end.

(** A read behind the end of the string is not checked by the code. *)
Definition UIntFromHexSubstring (s : string) (index : Z) : M Z :=
  if slen s <? index then Err BadIndex
  else strtoull16 (String.substring (Z.to_nat index) (String.length s - Z.to_nat index) s).

Definition LineIsFLDInst (line : string) : M bool :=
  x ← UIntFromHexSubstring line 22;
  let inst_bits := u32 x in
  let width_field := Z.land (Z.shiftr inst_bits 12) 7 in
  let opcode_field := Z.land inst_bits 127 in
  Ok ((width_field =? 3) && (opcode_field =? 7)).

(** The text of ["%016lx"]. *)
Definition hex_char (d : Z) : ascii := ascii_of_N (Z.to_N (if d <? 10 then 48 + d else 87 + d)).
Fixpoint hex_text (n : nat) (x : Z) : string :=
  match n with
  | O => ""
  | S n => hex_text n (x / 16) +:+ String (hex_char (x mod 16)) ""
  end.

(** [snprintf] into the buffer of the string at 40: the digits, and a NUL behind them. *)
Definition overwrite (line : string) (x : Z) : M string :=
  if slen line <? 56 then Err BadIndex
  else
    Ok (String.substring 0 40 line +:+ hex_text 16 x
        +:+ (if slen line =? 56 then "" else
               String "000"%char (String.substring 57 (String.length line - 57) line))).

(** A string as [c_str()] shows it to C. *)
Fixpoint until_nul (s : string) : string :=
  match s with
  | String c s => if Ascii.eqb c "000"%char then "" else String c (until_nul s)
  | EmptyString => ""
  end.

(** The body of the loop of [DiffAndFix], on a line of each log; the copy of the line is made from
    a C string. *)
Definition fix_line (rocket_line lspike_line : string) : M string :=
  if bool_decide (rocket_line = lspike_line) then Ok rocket_line
  else
    fld ← LineIsFLDInst rocket_line;
    if (fld : bool) then
      let fixed_line := until_nul rocket_line in
      raw_fp ← UIntFromHexSubstring fixed_line 40;
      if NestedFloatPossible raw_fp then
        fixed_line ← overwrite fixed_line (UnrecodeFloatFromDouble raw_fp);
        Ok (if bool_decide (fixed_line = lspike_line) then fixed_line else rocket_line)
      else Ok rocket_line
    else Ok rocket_line.

(** The lines printed, each as a C string; the second log may end first. *)
Fixpoint DiffAndFix (rocket_log lspike_log : list string) : M (list string) :=
  match rocket_log with
  | [] => Ok []
  | rocket_line :: rocket_log =>
      match lspike_log with
      | lspike_line :: lspike_log =>
          line ← fix_line rocket_line lspike_line;
          out ← DiffAndFix rocket_log lspike_log;
          Ok (until_nul line :: out)
      | [] => out ← DiffAndFix rocket_log []; Ok (until_nul rocket_line :: out)
      end
  end.
End float_fix.

(** The shifters of x86-64 and RISC-V. *)
Definition oob_masked (x d : Z) : Z := Z.shiftr x (d mod 64).

(** ** Fields of a word *)

Lemma lor_shiftl a b k : 0 <= k -> 0 <= b < 2 ^ k -> Z.lor (Z.shiftl a k) b = a * 2 ^ k + b.
Proof. intros Hk Hb. rewrite Z.shiftl_mul_pow2 by done. by apply lor_disjoint_add. Qed.

Lemma bits_div x hi lo : 0 <= lo -> bits x hi lo = x / 2 ^ lo mod 2 ^ (hi - lo + 1).
Proof. intros. unfold bits. by rewrite Z.shiftr_div_pow2. Qed.

(** The field between [k] and [k + w] of a word put together. *)
Lemma bits_field a f b k w :
  0 <= k -> 0 <= w -> 0 <= f < 2 ^ w -> 0 <= b < 2 ^ k ->
  bits (a * 2 ^ (k + w) + f * 2 ^ k + b) (k + w - 1) k = f.
Proof.
  intros Hk Hw Hf Hb. pose proof (Z.pow_pos_nonneg 2 k ltac:(lia) Hk). pose proof (Z.pow_pos_nonneg 2 w ltac:(lia) Hw).
  rewrite bits_div by done. rewrite Z.pow_add_r by done.
  replace (a * (2 ^ k * 2 ^ w) + f * 2 ^ k + b) with (b + (a * 2 ^ w + f) * 2 ^ k) by ring.
  rewrite Z.div_add by lia. rewrite (Z.div_small b) by done. replace (k + w - 1 - k + 1) with w by ring.
  rewrite Z.add_0_l, Z.add_comm, Z.mod_add, Z.mod_small by lia. done.
Qed.

Lemma BitRange_bits x high low :
  0 <= low <= high -> high <= 63 -> BitRange x high low = bits x high low.
Proof.
  intros Hl Hh. unfold BitRange, bits. apply Z.bits_inj'. intros n Hn.
  rewrite Z.shiftr_spec, testbit_wrapU by lia. destruct (Z.ltb_spec n (high - low + 1)) as [Hlt|Hge].
  - rewrite Z.mod_pow2_bits_low, Z.shiftr_spec by lia. destruct (Z.ltb_spec (n + (low + (63 - high))) 64); [|lia].
    rewrite Z.shiftl_spec by lia. cbn [andb]. f_equal. lia.
  - rewrite Z.mod_pow2_bits_high by lia. destruct (Z.ltb_spec (n + (low + (63 - high))) 64); [lia|done].
Qed.

(** A single float, and a recoded one, from their fields. *)
Definition float_of (s e g : Z) : Z := s * 2 ^ 31 + e * 2 ^ 23 + g.
Definition rec_of (s e g : Z) : Z := s * 2 ^ 32 + e * 2 ^ 23 + g.

Lemma float_fields x : 0 <= x < 2 ^ 32 ->
  exists s e g, x = float_of s e g /\ 0 <= s < 2 /\ 0 <= e < 256 /\ 0 <= g < 2 ^ 23.
Proof.
  intros Hx. exists (x / 2 ^ 31), (x / 2 ^ 23 mod 256), (x mod 2 ^ 23). unfold float_of. dlia.
Qed.

Lemma float_bits s e g : 0 <= s < 2 -> 0 <= e < 256 -> 0 <= g < 2 ^ 23 ->
  bits (float_of s e g) 31 31 = s /\ bits (float_of s e g) 30 23 = e /\ bits (float_of s e g) 22 0 = g.
Proof.
  intros Hs He Hg. unfold float_of. split_and!.
  - pose proof (bits_field 0 s (e * 2 ^ 23 + g) 31 1) as H. simpl (_ + _) in H. rewrite Z.add_assoc in H. apply H; lia.
  - pose proof (bits_field s e g 23 8) as H. apply H; lia.
  - pose proof (bits_field (s * 256 + e) g 0 0 23) as H.
    replace (s * 2 ^ 31 + e * 2 ^ 23 + g) with ((s * 256 + e) * 2 ^ (0 + 23) + g * 2 ^ 0 + 0) by lia. apply H; lia.
Qed.

Lemma rec_bits s e g : 0 <= s < 2 -> 0 <= e < 512 -> 0 <= g < 2 ^ 23 ->
  bits (rec_of s e g) 32 32 = s /\ bits (rec_of s e g) 31 23 = e /\ bits (rec_of s e g) 22 0 = g.
Proof.
  intros Hs He Hg. unfold rec_of. split_and!.
  - pose proof (bits_field 0 s (e * 2 ^ 23 + g) 32 1) as H. simpl (_ + _) in H. rewrite Z.add_assoc in H. apply H; lia.
  - pose proof (bits_field s e g 23 9) as H. apply H; lia.
  - pose proof (bits_field (s * 512 + e) g 0 0 23) as H.
    replace (s * 2 ^ 32 + e * 2 ^ 23 + g) with ((s * 512 + e) * 2 ^ (0 + 23) + g * 2 ^ 0 + 0) by lia. apply H; lia.
Qed.

Lemma unnest s e g : 0 <= s < 2 -> 0 <= e < 512 -> 0 <= g < 2 ^ 23 ->
  NestedFloatPossible (nested (rec_of s e g)) = true /\
  Z.land (nested (rec_of s e g)) 0x1ffffffff = rec_of s e g.
Proof.
  intros Hs He Hg. assert (0 <= rec_of s e g < 2 ^ 33) as Hr by (unfold rec_of; lia).
  assert (nested (rec_of s e g) = 0x7fffffff * 2 ^ 33 + rec_of s e g) as En.
  { unfold nested. change 0xfffffffe00000000 with (0x7fffffff * 2 ^ 33). by apply lor_disjoint_add. }
  split.
  - unfold NestedFloatPossible, nested. rewrite Z.land_lor_distr_l, Z.land_diag. apply Z.eqb_eq.
    apply Z.bits_inj'. intros n Hn. rewrite Z.lor_spec, Z.land_spec.
    destruct (Z.ltb_spec n 33) as [Hlt|Hge].
    + change 0xfffffffe00000000 with (0x7fffffff * 2 ^ 33). by rewrite Z.mul_pow2_bits_low, andb_false_r.
    + by rewrite (testbit_high (rec_of s e g) 33 n), orb_false_r by lia.
  - change 0x1ffffffff with (2 ^ 33 - 1). rewrite land_pow2_mask, En by lia.
    rewrite Z.add_comm, Z.mod_add, Z.mod_small by lia. done.
Qed.

(** ** The encoder tree *)

Lemma Reverse_testbit n x i : 0 <= i ->
  Z.testbit (Reverse n x) i = (i <? Z.of_nat n) && Z.testbit x (Z.of_nat n - 1 - i).
Proof.
  revert x. induction n as [|n IH]; intros x Hi.
  { cbn [Reverse]. rewrite Z.testbit_0_l. by rewrite (proj2 (Z.ltb_ge _ _)) by lia. }
  cbn [Reverse]. rewrite Z.lor_spec, IH, Z.shiftl_spec by lia.
  destruct (Z.ltb_spec i (Z.of_nat n)) as [Hlt|Hge], (Z.ltb_spec i (Z.of_nat (S n))) as [Hlt'|Hge']; try lia; cbn [andb].
  - rewrite Z.testbit_neg_r by lia. change (x / 2) with (x / 2 ^ 1).
    rewrite <- Z.shiftr_div_pow2, Z.shiftr_spec by lia. cbn [orb]. f_equal. lia.
  - replace i with (Z.of_nat n) by lia. rewrite orb_false_r, Z.sub_diag.
    replace (Z.of_nat (S n) - 1 - Z.of_nat n) with 0 by lia. change (x mod 2) with (x mod 2 ^ 1).
    by apply Z.mod_pow2_bits_low.
  - rewrite orb_false_r. apply (testbit_high _ 1); [|lia..]. change (2 ^ 1) with 2. by apply Z.mod_pos_bound.
Qed.

(** The tree finds the lowest bit set, if there is one. *)
Lemma EncTree_spec width inps level off : 0 <= off < width ->
  let '(n, v) := EncTree width inps off level in
  off <= n < off + 2 ^ Z.of_nat level /\ n < width /\
  if v then Z.testbit inps n = true /\ forall i, off <= i < n -> Z.testbit inps i = false
  else forall i, off <= i < off + 2 ^ Z.of_nat level -> i < width -> Z.testbit inps i = false.
Proof.
  revert off. induction level as [|level IH]; intros off Hoff.
  { simpl. split_and!; [lia|lia|lia|]. destruct (Z.testbit inps off) eqn:E.
    - split; [done|lia].
    - intros i Hi _. by replace i with off by lia. }
  cbn [EncTree]. rewrite Nat2Z.inj_succ, Z.pow_succ_r by lia. set (h := 2 ^ Z.of_nat level) in *.
  assert (0 < h) by (apply Z.pow_pos_nonneg; lia). pose proof (IH off Hoff) as H1.
  destruct (Z.leb_spec width (off + h)) as [Hw|Hw].
  - destruct (EncTree width inps off level) as [n v]. destruct H1 as ([A B] & C & D).
    split_and!; [lia..|]. destruct v; [done|]. intros i Hi Hi'. apply D; lia.
  - pose proof (IH (off + h) ltac:(lia)) as H2.
    destruct (EncTree width inps off level) as [n1 v1], (EncTree width inps (off + h) level) as [n2 v2].
    destruct H1 as ([A1 B1] & C1 & D1), H2 as ([A2 B2] & C2 & D2). destruct v1; cbn [orb].
    + split; [lia|]. split; [lia|exact D1].
    + split_and!; [lia..|]. destruct v2 as [|].
      * destruct D2 as [D2 D3]. split; [done|]. intros i Hi.
        destruct (Z.ltb_spec i (off + h)); [apply D1; lia|apply D3; lia].
      * intros i Hi Hi'. destruct (Z.ltb_spec i (off + h)); [apply D1; lia|apply D2; lia].
Qed.

(** ** The recoding, field by field *)

Definition norm_dist (g : Z) : Z := 22 - Z.log2 g.

Lemma norm_dist_spec g : 0 < g < 2 ^ 23 ->
  0 <= norm_dist g <= 22 /\ 2 ^ 22 <= g * 2 ^ norm_dist g < 2 ^ 23.
Proof.
  intros Hg. unfold norm_dist. pose proof (Z.log2_spec g ltac:(lia)) as Hl.
  assert (0 <= Z.log2 g <= 22) by (split; [apply Z.log2_nonneg|]; apply Z.lt_succ_r, Z.log2_lt_pow2; lia).
  split; [lia|]. replace (2 ^ 22) with (2 ^ Z.log2 g * 2 ^ (22 - Z.log2 g)) by (rewrite <- Z.pow_add_r by lia; f_equal; lia).
  replace (2 ^ 23) with (2 ^ Z.succ (Z.log2 g) * 2 ^ (22 - Z.log2 g)) by (rewrite <- Z.pow_add_r by lia; f_equal; lia).
  pose proof (Z.pow_pos_nonneg 2 (22 - Z.log2 g) ltac:(lia) ltac:(lia)). nia.
Qed.

(** The encoder tree computes it; with no bit set its value is some index. *)
Lemma clz_range x : 0 <= opt_countLeadingZeros 23 x < 23.
Proof.
  unfold opt_countLeadingZeros, EncTreeO. pose proof (EncTree_spec 23 (Reverse (Z.to_nat 23) x) (Z.to_nat (Z.log2_up 23)) 0 ltac:(lia)) as H.
  destruct (EncTree _ _ _ _) as [n v]. cbn [fst]. destruct H as ([A _] & B & _). lia.
Qed.

Lemma clz_norm_dist g : 0 < g < 2 ^ 23 -> opt_countLeadingZeros 23 g = norm_dist g.
Proof.
  intros Hg. assert (0 <= Z.log2 g <= 22) by (split; [apply Z.log2_nonneg|]; apply Z.lt_succ_r, Z.log2_lt_pow2; lia).
  pose proof (Z.bit_log2 g ltac:(lia)) as Hb. unfold opt_countLeadingZeros, EncTreeO, norm_dist.
  pose proof (EncTree_spec 23 (Reverse (Z.to_nat 23) g) (Z.to_nat (Z.log2_up 23)) 0 ltac:(lia)) as H'.
  destruct (EncTree _ _ _ _) as [n v]. cbn [fst]. destruct H' as ([A _] & B & D).
  assert (forall i, 0 <= i < 23 -> Z.testbit (Reverse (Z.to_nat 23) g) i = Z.testbit g (22 - i)) as Hr.
  { intros i Hi. rewrite Reverse_testbit by lia. change (Z.of_nat (Z.to_nat 23)) with 23.
    by rewrite (proj2 (Z.ltb_lt _ _)) by lia. }
  destruct v.
  - destruct D as [D1 D2]. rewrite Hr in D1 by lia.
    assert (~ Z.log2 g < 22 - n) by (intros Hlt; rewrite Z.bits_above_log2 in D1; [done|lia..]).
    assert (~ 22 - n < Z.log2 g); [|lia]. intros Hlt.
    specialize (D2 (22 - Z.log2 g) ltac:(lia)). rewrite Hr in D2 by lia.
    replace (22 - (22 - Z.log2 g)) with (Z.log2 g) in D2 by lia. congruence.
  - specialize (D (22 - Z.log2 g)). rewrite Hr in D by lia.
    replace (22 - (22 - Z.log2 g)) with (Z.log2 g) in D by lia.
    rewrite D in Hb; [done| |lia]. change (2 ^ Z.of_nat _) with 32. lia.
Qed.

(** The exponent and the fraction of a recoded float: those of zero, of a number below the normal
    range, of infinity, of other non-numbers, and of a number in the normal range. *)
Inductive recoded : Z -> Z -> Z -> Z -> Prop :=
| rec_zero E : 0 <= E < 64 -> recoded 0 0 E 0
| rec_subnormal g : 0 < g < 2 ^ 23 ->
    recoded 0 g (129 - norm_dist g) (2 * (g * 2 ^ norm_dist g - 2 ^ 22))
| rec_infinity : recoded 255 0 384 0
| rec_nan g : 0 < g < 2 ^ 23 -> recoded 255 g 448 g
| rec_normal e g : 1 <= e <= 254 -> 0 <= g < 2 ^ 23 -> recoded e g (e + 129) g.

Lemma recoded_range e g E G : recoded e g E G -> 0 <= E < 512 /\ 0 <= G < 2 ^ 23.
Proof. destruct 1 as [|g Hg| | |]; try lia. pose proof (norm_dist_spec g Hg). lia. Qed.

Lemma xor_ones n : 0 <= n < 2 ^ 9 -> Z.lxor n (2 ^ 9 - 1) = 2 ^ 9 - 1 - n.
Proof.
  intros Hn. apply Z.add_move_r. rewrite Z.add_nocarry_lxor.
  - rewrite Z.lxor_assoc, (Z.lxor_comm (2 ^ 9 - 1)), <- Z.lxor_assoc, Z.lxor_nilpotent. done.
  - apply Z.bits_inj'. intros i Hi. change (2 ^ 9 - 1) with (Z.ones 9).
    rewrite Z.land_spec, Z.lxor_spec, Z.bits_0. destruct (Z.ltb_spec i 9) as [Hlt|Hge].
    + rewrite Z.ones_spec_low by lia. by destruct (Z.testbit n i).
    + rewrite Z.ones_spec_high, (testbit_high n 9) by lia. done.
Qed.

(** The words [recFNFromFN] puts together. *)
Lemma assemble s top low g : 0 <= top < 8 -> 0 <= low < 64 -> 0 <= g < 2 ^ 23 ->
  Z.lor (Z.shiftl s 32) (Z.lor (Z.shiftl top 29) (Z.lor (Z.shiftl low 23) g)) =
  rec_of s (top * 64 + low) g.
Proof. intros Ht Hl Hg. unfold rec_of. rewrite (lor_shiftl low), (lor_shiftl top), (lor_shiftl s) by lia. lia. Qed.

Lemma sig_bits b g : 0 <= b < 2 -> 0 <= g < 2 ^ 23 -> bits (Z.lor (Z.shiftl b 23) g) 22 0 = g.
Proof.
  intros Hb Hg. rewrite lor_shiftl by lia. pose proof (bits_field b g 0 0 23) as H.
  replace (b * 2 ^ 23 + g) with (b * 2 ^ (0 + 23) + g * 2 ^ 0 + 0) by lia. apply H; lia.
Qed.

(** The widths of a single float. *)
Ltac single :=
  change (8 + 24 - 1) with 31 in *; change (8 + 24 - 2) with 30 in *; change (8 + 24 - 3) with 29 in *;
  change (8 + 24) with 32 in *; change (8 + 1) with 9 in *; change (8 - 1) with 7 in *;
  change (8 - 2) with 6 in *; change (8 - 3) with 5 in *; change (24 - 1) with 23 in *;
  change (24 - 2) with 22 in *; change (24 - 3) with 21 in *; change (2 ^ 7) with 128 in *;
  change (Z.lor 128 2) with 130 in *; change (Z.lor 128 1) with 129 in *.

Lemma exp_bits E : 0 <= E < 512 ->
  bits E 8 6 = E / 64 /\ bits E 8 7 = E / 128 /\ bits E 5 0 = E mod 64 /\ bits E 6 0 = E mod 128 /\
  bits E 6 6 = E / 64 mod 2 /\ bits E 4 0 = E mod 32 /\ bits E 7 0 = E mod 256.
Proof. intros HE. rewrite !bits_div by lia. simpl. dlia. Qed.

Lemma subnormal_sig g : 0 < g < 2 ^ 23 ->
  Z.shiftl (bits (Z.shiftl g (norm_dist g)) 21 0) 1 = 2 * (g * 2 ^ norm_dist g - 2 ^ 22).
Proof.
  intros Hg. pose proof (norm_dist_spec g Hg) as [Hn Hr].
  rewrite !Z.shiftl_mul_pow2, bits_div by lia. rewrite Z.pow_0_r, Z.div_1_r.
  change (21 - 0 + 1) with 22. rewrite (Z.mod_eq _ (2 ^ 22)) by lia.
  replace (g * 2 ^ norm_dist g / 2 ^ 22) with 1 by (apply Z.div_unique with (g * 2 ^ norm_dist g - 2 ^ 22); lia).
  lia.
Qed.

Lemma recFNFromFN_fields s e g : 0 <= s < 2 -> 0 <= e < 256 -> 0 <= g < 2 ^ 23 ->
  exists E G, recoded e g E G /\ recFNFromFN 8 24 (float_of s e g) = rec_of s E G.
Proof.
  intros Hs He Hg. destruct (float_bits s e g Hs He Hg) as (B1 & B2 & B3).
  unfold recFNFromFN, rawFloatFromFN. single. rewrite B1, B2, B3. cbn [isZero isNaN sExp sig sign].
  destruct (Z.eqb_spec e 0) as [->|He0].
  - single. destruct (Z.eqb_spec g 0) as [->|Hg0]; cbn [andb negb].
    + replace (Z.shiftl (bits (Z.shiftl 0 _) 21 0) 1) with 0 by (by rewrite Z.shiftl_0_l).
      rewrite andb_false_r, sig_bits, assemble; [|done|apply Z.mod_pos_bound; done|done..].
      eexists _, _. split; [apply rec_zero|done]. apply Z.mod_pos_bound. done.
    + rewrite clz_norm_dist by lia. pose proof (norm_dist_spec g ltac:(lia)) as [Hn Hr].
      rewrite xor_ones, subnormal_sig by lia.
      replace (wrapU 9 _) with (129 - norm_dist g) by (unfold wrapU; dlia).
      destruct (exp_bits (129 - norm_dist g)) as (-> & -> & -> & _); [lia|].
      destruct (Z.eqb_spec ((129 - norm_dist g) / 128) 3); [dlia|]. cbn [andb].
      rewrite Z.lor_0_r, sig_bits, assemble by dlia.
      eexists _, _. split; [apply rec_subnormal; lia|]. f_equal. dlia.
  - single. cbn [andb]. replace (wrapU 9 _) with (e + 129) by (rewrite wrapU_small; lia).
    destruct (exp_bits (e + 129)) as (-> & -> & -> & _); [lia|]. rewrite sig_bits by lia.
    destruct (Z.eq_dec e 255) as [->|Hne].
    + change ((255 + 129) / 128 =? 3) with true. change ((255 + 129) / 64) with 6. cbn [andb].
      destruct (Z.eqb_spec g 0) as [->|Hg0]; cbn [negb].
      * rewrite assemble by done. eexists _, _. split; [apply rec_infinity|done].
      * rewrite assemble by done. eexists _, _. split; [apply rec_nan; lia|done].
    + destruct (Z.eqb_spec ((e + 129) / 128) 3); [dlia|]. cbn [andb]. rewrite Z.lor_0_r, assemble by dlia.
      eexists _, _. split; [apply rec_normal; lia|]. f_equal. dlia.
Qed.

Lemma float_assemble s e g : 0 <= e < 256 -> 0 <= g < 2 ^ 23 ->
  Z.lor (Z.shiftl s 31) (Z.lor (Z.shiftl e 23) g) = float_of s e g.
Proof. intros He Hg. unfold float_of. rewrite (lor_shiftl e), (lor_shiftl s) by lia. lia. Qed.

(** The hardware undoes its own recoding. *)
Lemma fNFromRecFN_fields s e g E G : 0 <= s < 2 -> recoded e g E G ->
  fNFromRecFN 8 24 (rec_of s E G) = float_of s e g.
Proof.
  intros Hs H. destruct (recoded_range _ _ _ _ H) as [HE HG].
  destruct (rec_bits s E G Hs HE HG) as (B1 & B2 & B3). destruct (exp_bits E HE) as (X1 & X2 & X3 & _ & _ & X6 & X7).
  unfold fNFromRecFN, rawFloatFromRecFN. single. change (Z.log2_up 23 - 1) with 4. change (Z.log2_up 23) with 5.
  cbn [isNaN isInf isZero sExp sig sign]. rewrite B1, B2, B3, X1, X2, X6, X7.
  destruct H as [E HE'|g Hg| |g Hg|e g He Hg].
  - rewrite (proj2 (Z.ltb_lt E _)) by lia. rewrite (Z.div_small E 64), (Z.div_small E 128) by lia.
    change (Z.shiftr (Z.lor _ 0) 1) with 0. rewrite Z.shiftr_0_l. by apply float_assemble.
  - pose proof (norm_dist_spec g Hg) as [Hn Hr]. rewrite (proj2 (Z.ltb_lt (129 - _) _)) by lia.
    destruct (Z.eqb_spec ((129 - norm_dist g) / 128) 3); [dlia|].
    destruct (Z.eqb_spec ((129 - norm_dist g) / 64) 0); [dlia|]. cbn [andb orb].
    replace (wrapU 5 _) with (norm_dist g) by (unfold wrapU; dlia). rewrite (lor_shiftl 1) by lia.
    replace (Z.shiftr (Z.shiftr _ 1) _) with g.
    + change (Z.lor 0 0) with 0. rewrite bits_div, Z.div_1_r, Z.mod_small by (simpl; lia).
      apply float_assemble; lia.
    + rewrite !Z.shiftr_div_pow2 by lia.
      replace (1 * 2 ^ 23 + _) with (g * 2 ^ norm_dist g * 2 ^ 1) by lia.
      rewrite Z.div_mul, Z.div_mul; [done|apply Z.pow_nonzero; lia|done].
  - change (Z.lor 0 _) with 255. by apply float_assemble.
  - cbn [Z.ltb Z.compare]. rewrite sig_bits by done. apply float_assemble; lia.
  - rewrite (proj2 (Z.ltb_ge (e + 129) _)) by lia.
    destruct (Z.eqb_spec ((e + 129) / 128) 3); [dlia|]. cbn [andb orb].
    destruct (Z.eqb_spec ((e + 129) / 64) 0); [dlia|]. rewrite sig_bits, Z.lor_0_r by lia.
    replace (wrapU 8 _) with e by (unfold wrapU; dlia). apply float_assemble; lia.
Qed.

(** A property of the exponent field, by evaluation. *)
Lemma by_exponents (P : Z -> bool) : forallb P (seqZ 0 512) = true -> forall E, 0 <= E < 512 -> P E = true.
Proof. rewrite forallb_forall. intros H E HE. apply H, list_elem_of_In, elem_of_seqZ. lia. Qed.

Lemma exponent_classes E : 0 <= E < 512 ->
  (((E / 128 =? 1) && negb (E mod 128 <? 2)) || (E / 128 =? 2)) = ((130 <=? E) && (E <? 384)) /\
  (E / 128 =? 3) = (384 <=? E) /\
  ((E / 128 =? 3) && negb (E / 64 mod 2 =? 0)) = (448 <=? E) /\
  ((E / 64 =? 1) || ((E / 128 =? 1) && (E mod 128 <? 2))) = ((64 <=? E) && (E <? 130)).
Proof.
  intros HE. assert (Hall : forallb (fun E =>
      eqb (((E / 128 =? 1) && negb (E mod 128 <? 2)) || (E / 128 =? 2)) ((130 <=? E) && (E <? 384)) &&
      (eqb (E / 128 =? 3) (384 <=? E) &&
      (eqb ((E / 128 =? 3) && negb (E / 64 mod 2 =? 0)) (448 <=? E) &&
       eqb ((E / 64 =? 1) || ((E / 128 =? 1) && (E mod 128 <? 2))) ((64 <=? E) && (E <? 130)))))
    (seqZ 0 512) = true) by (vm_compute; reflexivity).
  pose proof (by_exponents _ Hall E HE) as H. cbv beta in H.
  apply andb_prop in H as [H1 H]. apply andb_prop in H as [H2 H]. apply andb_prop in H as [H3 H4].
  split_and!; by apply eqb_prop.
Qed.

(** The fields [UnrecodeFloatFromDouble] puts out, by the range of the recoded exponent. *)
Definition unrecode_exp (E : Z) : Z := if E <? 130 then 0 else if E <? 384 then E - 129 else 255.
Definition unrecode_sig (oob : Z -> Z -> Z) (E G : Z) : Z :=
  if E <? 64 then 0 else if E <? 130 then shr oob (Z.lor 0x400000 G) (u64 (2 - E mod 32))
  else if E <? 384 then G else if E <? 448 then 0 else G.

Lemma Unrecode_fields oob s E G : 0 <= s < 2 -> 0 <= E < 512 -> 0 <= G < 2 ^ 23 ->
  UnrecodeFloatFromDouble oob (nested (rec_of s E G)) =
  Z.lor (Z.lor (Z.shiftl s 31) (Z.shiftl (unrecode_exp E) 23)) (unrecode_sig oob E G).
Proof.
  intros Hs HE HG. unfold UnrecodeFloatFromDouble. rewrite (proj2 (unnest s E G Hs HE HG)), !BitRange_bits by lia.
  destruct (rec_bits s E G Hs HE HG) as (-> & -> & ->).
  destruct (exp_bits E HE) as (-> & -> & _ & -> & -> & -> & ->).
  destruct (exponent_classes E HE) as (-> & -> & -> & ->).
  assert (u64 (Z.shiftl s 31) = Z.shiftl s 31) as -> by (rewrite Z.shiftl_mul_pow2, wrapU_small by lia; lia).
  rewrite (wrapU_small 64 (Z.shiftl _ 23)).
  - f_equal; [do 2 f_equal|]; unfold unrecode_exp, unrecode_sig;
      destruct (Z.ltb_spec E 130), (Z.ltb_spec E 384), (Z.leb_spec 130 E), (Z.leb_spec 384 E); try lia; try done.
    + unfold wrapU. cbn [andb]. dlia.
    + cbn [andb orb]. destruct (Z.leb_spec 448 E), (Z.leb_spec 64 E), (Z.ltb_spec E 64); try lia; done.
    + cbn [andb orb]. destruct (Z.leb_spec 448 E), (Z.ltb_spec E 448), (Z.leb_spec 64 E), (Z.ltb_spec E 64); try lia; done.
    + cbn [andb orb]. destruct (Z.leb_spec 448 E), (Z.ltb_spec E 448), (Z.leb_spec 64 E), (Z.ltb_spec E 64); try lia; done.
  - rewrite Z.shiftl_mul_pow2 by lia. pose proof (wrapU_range 8 (E mod 256 - 129) ltac:(lia)).
    destruct (_ && _); [lia|]. destruct (384 <=? E); lia.
Qed.

Definition subnormal (f : Z) : bool := (bits f 30 23 =? 0) && negb (bits f 22 0 =? 0).

Lemma subnormal_fields s e g : 0 <= s < 2 -> 0 <= e < 256 -> 0 <= g < 2 ^ 23 ->
  subnormal (float_of s e g) = (e =? 0) && negb (g =? 0).
Proof. intros Hs He Hg. unfold subnormal. by destruct (float_bits s e g Hs He Hg) as (_ & -> & ->). Qed.

Lemma unrecode_exact oob s e g E G : 0 <= s < 2 -> recoded e g E G -> (e = 0 -> g = 0) ->
  UnrecodeFloatFromDouble oob (nested (rec_of s E G)) = float_of s e g.
Proof.
  intros Hs H Hn. destruct (recoded_range _ _ _ _ H) as [HE HG]. rewrite Unrecode_fields, <- Z.lor_assoc by done.
  assert (unrecode_exp E = e /\ unrecode_sig oob E G = g /\ 0 <= e < 256 /\ 0 <= g < 2 ^ 23) as (-> & -> & He & Hg).
  { unfold unrecode_exp, unrecode_sig. destruct H as [E HE'|g Hg| |g Hg|e g He Hg].
    - destruct (Z.ltb_spec E 130), (Z.ltb_spec E 64); lia.
    - lia.
    - done.
    - simpl. lia.
    - destruct (Z.ltb_spec (e + 129) 130), (Z.ltb_spec (e + 129) 384), (Z.ltb_spec (e + 129) 64); lia. }
  by apply float_assemble.
Qed.

(** The shift distance of a number below the normal range is that of the hardware plus one, but the
    leading bit is put one place too low, and for more than one leading zero the distance wraps. *)
Lemma unrecode_subnormal_sig oob g : 0 < g < 2 ^ 23 -> oob = oob_masked \/ 2 ^ 21 <= g ->
  0 <= unrecode_sig oob (129 - norm_dist g) (2 * (g * 2 ^ norm_dist g - 2 ^ 22)) < g.
Proof.
  intros Hg Ho. pose proof (norm_dist_spec g Hg) as [Hn Hr]. unfold unrecode_sig.
  destruct (Z.ltb_spec (129 - norm_dist g) 64); [lia|]. destruct (Z.ltb_spec (129 - norm_dist g) 130); [|lia].
  set (x := Z.lor _ _). assert (0 <= x < 2 ^ 23) as Hx by (apply lor_bound; lia). clearbody x.
  assert (norm_dist g = 0 \/ norm_dist g = 1 \/ 2 <= norm_dist g) as [En|[En|Hn2]] by lia.
  - rewrite En in *. change (shr _ _ _) with (Z.shiftr x 1). rewrite Z.shiftr_div_pow2 by lia. dlia.
  - rewrite En in *. change (shr _ _ _) with (Z.shiftr x 2). rewrite Z.shiftr_div_pow2 by lia. dlia.
  - destruct Ho as [->|Hb].
    2: { pose proof (Z.log2_le_mono _ _ Hb) as Hl. change (Z.log2 (2 ^ 21)) with 21 in Hl. unfold norm_dist in Hn2. lia. }
    replace (u64 _) with (2 ^ 64 - 31 + norm_dist g) by (unfold wrapU; dlia). unfold shr, oob_masked.
    destruct (Z.ltb_spec (2 ^ 64 - 31 + norm_dist g) 64); [lia|].
    replace (_ mod 64) with (33 + norm_dist g) by dlia. rewrite Z.shiftr_div_pow2 by lia.
    rewrite Z.div_small; [lia|]. pose proof (Z.pow_le_mono_r 2 23 (33 + norm_dist g)). lia.
Qed.

Lemma nested_back f : 0 <= f < 2 ^ 32 ->
  NestedFloatPossible (nested (recFNFromFN 8 24 f)) = true /\
  (subnormal f = false -> forall oob, UnrecodeFloatFromDouble oob (nested (recFNFromFN 8 24 f)) = f).
Proof.
  intros Hf. destruct (float_fields f Hf) as (s & e & g & -> & Hs & He & Hg).
  rewrite subnormal_fields by done.
  destruct (recFNFromFN_fields s e g Hs He Hg) as (E & G & Hr & ->).
  destruct (recoded_range _ _ _ _ Hr) as [HE HG]. split; [by apply unnest|]. intros Hn oob.
  eapply unrecode_exact; try done. intros ->. simpl in Hn. by destruct (Z.eqb_spec g 0).
Qed.

(** C32: Every single float comes back from the hardware's recoding, and [float_fix] recognises all
    of them in a register for doubles.  It gets back zeros, normal numbers, infinities and NaNs,
    whatever an overlong shift does.  Of the numbers below the normal range it gets back none on
    machines whose shifters use the count modulo 64, and none of those from 2^-128 on any machine:
    there the tool sets the leading bit one place too low. *)
Theorem unrecode_floats f : 0 <= f < 2 ^ 32 ->
  fNFromRecFN 8 24 (recFNFromFN 8 24 f) = f /\
  NestedFloatPossible (nested (recFNFromFN 8 24 f)) = true /\
  (subnormal f = false -> forall oob,
     UnrecodeFloatFromDouble oob (nested (recFNFromFN 8 24 f)) = f) /\
  (subnormal f = true -> forall oob, oob = oob_masked \/ 2 ^ 21 <= bits f 22 0 ->
     UnrecodeFloatFromDouble oob (nested (recFNFromFN 8 24 f)) <> f).
Proof.
  intros Hf. destruct (nested_back f Hf) as [Hp Hb].
  destruct (float_fields f Hf) as (s & e & g & -> & Hs & He & Hg). rewrite subnormal_fields in * by done.
  destruct (float_bits s e g Hs He Hg) as (_ & _ & ->).
  destruct (recFNFromFN_fields s e g Hs He Hg) as (E & G & Hr & Er). rewrite Er in *.
  destruct (recoded_range _ _ _ _ Hr) as [HE HG].
  split; [by apply fNFromRecFN_fields|]. split; [done|]. split; [done|]. intros Hn oob Ho.
  apply andb_prop in Hn as [->%Z.eqb_eq Hg0]. rewrite Unrecode_fields by done.
  destruct (Z.eqb_spec g 0) as [|Hg1]; [done|]. inversion Hr; subst; [done| |lia].
  pose proof (norm_dist_spec g ltac:(lia)) as [Hd _].
  pose proof (unrecode_subnormal_sig oob g ltac:(lia) Ho) as Hx. set (x := unrecode_sig _ _ _) in *.
  unfold unrecode_exp. destruct (Z.ltb_spec (129 - norm_dist g) 130); [|lia].
  rewrite <- Z.lor_assoc, float_assemble by lia. unfold float_of. lia.
Qed.

Lemma unrecode_floats_witness :
  UnrecodeFloatFromDouble oob_masked (nested (recFNFromFN 8 24 0x3f800000)) = 0x3f800000 /\
  UnrecodeFloatFromDouble oob_masked (nested (recFNFromFN 8 24 0x00000001)) <> 0x00000001 /\
  UnrecodeFloatFromDouble (fun _ _ => 0) (nested (recFNFromFN 8 24 0x00400000)) <> 0x00400000.
Proof.
  split_and!.
  - apply (unrecode_floats 0x3f800000); [lia|reflexivity].
  - apply (unrecode_floats 0x00000001); [lia|reflexivity|by left].
  - apply (unrecode_floats 0x00400000); [lia|reflexivity|right; vm_compute; discriminate].
Defined.

(** ** The text *)

Lemma substring_all s : String.substring 0 (String.length s) s = s.
Proof. induction s as [|c s IH]; simpl; [done|]. by rewrite IH. Qed.

Lemma substring_left s t : String.substring 0 (String.length s) (s +:+ t) = s.
Proof. induction s as [|c s IH]; simpl; [by destruct t|]. by rewrite IH. Qed.

Lemma substring_right s t n : n = String.length t -> String.substring (String.length s) n (s +:+ t) = t.
Proof. intros ->. induction s as [|c s IH]; simpl; [apply substring_all|done]. Qed.

Lemma length_append s t : String.length (s +:+ t) = (String.length s + String.length t)%nat.
Proof. induction s as [|c s IH]; simpl; [done|]. by rewrite IH. Qed.

Lemma append_empty s : s +:+ "" = s.
Proof. induction s as [|c s IH]; [done|]. change (String c (s +:+ "") = String c s). by f_equal. Qed.

Lemma append_snoc s c t : s +:+ String c t = (s +:+ String c "") +:+ t.
Proof.
  induction s as [|a s IH]; [done|].
  change (String a (s +:+ String c t) = String a ((s +:+ String c "") +:+ t)). by f_equal.
Qed.

Lemma hex_char_facts d : 0 <= d < 16 ->
  hex_digit (hex_char d) = Some d /\ is_space (hex_char d) = false /\
  Ascii.eqb (hex_char d) "-" = false /\ Ascii.eqb (hex_char d) "+" = false /\
  Ascii.eqb (hex_char d) "x" = false /\ Ascii.eqb (hex_char d) "X" = false /\
  Ascii.eqb (hex_char d) "000" = false.
Proof.
  intros Hd. assert (In d (seqZ 0 16)) as Hin by (apply list_elem_of_In, elem_of_seqZ; lia).
  vm_compute in Hin. repeat destruct Hin as [<-|Hin]; done.
Qed.

Lemma hex_text_head n x : hex_text (S n) x = String (hex_char (x / 16 ^ Z.of_nat n mod 16)) (hex_text n x).
Proof.
  revert x. induction n as [|n IH]; intros x.
  - simpl. by rewrite Z.div_1_r.
  - cbn [hex_text] in *. rewrite IH. cbn [String.append]. do 2 f_equal. do 2 f_equal.
    rewrite Z.div_div by lia. f_equal. rewrite Nat2Z.inj_succ, Z.pow_succ_r by lia. done.
Qed.

Lemma hex_digits_text n x acc : 0 <= x ->
  hex_digits (hex_text n x) acc = acc * 16 ^ Z.of_nat n + x mod 16 ^ Z.of_nat n.
Proof.
  intros Hx. revert acc. induction n as [|n IH]; intros acc; [simpl; rewrite Z.mod_1_r; lia|].
  rewrite hex_text_head. cbn [hex_digits]. rewrite (proj1 (hex_char_facts (_ mod 16) ltac:(by apply Z.mod_pos_bound))), IH.
  rewrite Nat2Z.inj_succ, Z.pow_succ_r, (Z.mul_comm 16 (16 ^ _)), Z.rem_mul_r by lia. ring.
Qed.

Lemma length_hex_text n x : String.length (hex_text n x) = n.
Proof. induction n as [|n IH]; [done|]. rewrite hex_text_head. simpl. by rewrite IH. Qed.

(** Up to sixteen digits are read back. *)
Lemma strtoull16_text n x : 0 <= x -> (n <= 14)%nat ->
  strtoull16 (hex_text (S (S n)) x) = Ok (x mod 16 ^ Z.of_nat (S (S n))).
Proof.
  intros Hx Hn. pose proof (hex_digits_text (S (S n)) x 0 Hx) as E. rewrite (hex_text_head (S n)), (hex_text_head n) in *.
  set (t := hex_text n x) in *. set (d1 := x / 16 ^ Z.of_nat (S n) mod 16) in *. set (d2 := x / 16 ^ Z.of_nat n mod 16) in *.
  destruct (hex_char_facts d1) as (_ & F1 & F2 & F3 & _); [by apply Z.mod_pos_bound|].
  destruct (hex_char_facts d2) as (_ & _ & _ & _ & F4 & F5 & _); [by apply Z.mod_pos_bound|].
  cbn [strtoull16]. rewrite F1, F2, F3.
  assert (hex_prefix (String (hex_char d1) (String (hex_char d2) t)) = String (hex_char d1) (String (hex_char d2) t))
    as -> by (cbn [hex_prefix]; rewrite F4, F5, andb_false_r; by destruct t).
  rewrite E, Z.add_0_l. pose proof (Z.mod_pos_bound x (16 ^ Z.of_nat (S (S n))) ltac:(apply Z.pow_pos_nonneg; lia)).
  pose proof (Z.pow_le_mono_r 16 (Z.of_nat (S (S n))) 16 ltac:(lia) ltac:(lia)).
  by rewrite (proj2 (Z.ltb_lt _ _)) by lia.
Qed.

Lemma until_nul_app s t : until_nul s = s -> until_nul (s +:+ t) = s +:+ until_nul t.
Proof.
  induction s as [|c s IH]; [done|]. change (String c s +:+ t) with (String c (s +:+ t)). cbn [until_nul].
  destruct (Ascii.eqb c "000"); [done|]. intros [= E]. change (String c s +:+ until_nul t) with (String c (s +:+ until_nul t)).
  f_equal. by apply IH.
Qed.

Lemma until_nul_hex n x : until_nul (hex_text n x) = hex_text n x.
Proof.
  induction n as [|n IH]; [done|]. rewrite hex_text_head. cbn [until_nul].
  destruct (hex_char_facts (x / 16 ^ Z.of_nat n mod 16)) as (_ & _ & _ & _ & _ & _ & ->); [by apply Z.mod_pos_bound|].
  by rewrite IH.
Qed.

(** ** The tool on a log *)

(** A line of the processor's log for an [fld] that loaded a recoded float, and the line of the
    reference simulator: both end in the value, at column 40, as with two digits for the register,
    and hold no NUL. *)
Inductive float_line : string -> string -> Prop :=
| float_line_intro pre f :
    String.length pre = 40%nat -> until_nul pre = pre -> 0 <= f < 2 ^ 32 -> subnormal f = false ->
    let rocket := pre +:+ hex_text 16 (nested (recFNFromFN 8 24 f)) in
    LineIsFLDInst rocket = Ok true ->
    float_line rocket (pre +:+ hex_text 16 f).

Lemma nested_range f : 0 <= f < 2 ^ 32 -> 0 <= nested (recFNFromFN 8 24 f) < 2 ^ 64.
Proof.
  intros Hf. destruct (float_fields f Hf) as (s & e & g & -> & Hs & He & Hg).
  destruct (recFNFromFN_fields s e g Hs He Hg) as (E & G & Hr & ->).
  destruct (recoded_range _ _ _ _ Hr). unfold nested, rec_of. apply lor_bound; lia.
Qed.

Lemma line_length pre x : slen (pre +:+ hex_text 16 x) = Z.of_nat (String.length pre) + 16.
Proof. unfold slen. rewrite length_append, length_hex_text. lia. Qed.

Lemma fix_float_line oob r l : float_line r l -> fix_line oob r l = Ok l /\ until_nul l = l.
Proof.
  intros [pre f Hpre Hnul Hf Hn rocket Hfld]. split; [|by rewrite until_nul_app, until_nul_hex].
  unfold fix_line. case_bool_decide as E; [by rewrite E|].
  rewrite Hfld. cbn [mbind res_bind]. subst rocket. set (x := nested _).
  rewrite until_nul_app, until_nul_hex by done.
  assert (slen (pre +:+ hex_text 16 x) = 56) as Hl by (rewrite line_length, Hpre; done).
  assert (UIntFromHexSubstring (pre +:+ hex_text 16 x) 40 = Ok x) as ->.
  { unfold UIntFromHexSubstring. rewrite Hl. change (56 <? 40) with false. cbv iota. change (Z.to_nat 40) with 40%nat.
    pose proof (nested_range f Hf). rewrite <- Hpre, substring_right.
    - rewrite (strtoull16_text 14) by (subst x; lia). f_equal. apply Z.mod_small. subst x. lia.
    - rewrite length_append. lia. }
  cbn [mbind res_bind]. destruct (nested_back f Hf) as [Hp Hb]. fold x in Hp, Hb.
  rewrite Hp. unfold overwrite. rewrite Hl.
  change (56 <? 56) with false. change (56 =? 56) with true. cbv iota. cbn [mbind res_bind].
  rewrite Hb, <- Hpre by done. rewrite substring_left, append_empty. by rewrite bool_decide_true.
Qed.

(** With one digit for the register, as [comlog] prints f0 to f9, the value starts at column 39:
    the first of its digits is missed, and the line is never repaired. *)
Lemma single_digit_not_repaired oob pre x l :
  String.length pre = 39%nat -> until_nul pre = pre -> 0 <= x ->
  let r := pre +:+ hex_text 16 x in
  is_Some (match LineIsFLDInst r with Ok b => Some b | _ => None end) -> fix_line oob r l = Ok r.
Proof.
  intros Hpre Hnul Hx r [b Hb]. unfold fix_line. case_bool_decide; [done|].
  destruct (LineIsFLDInst r) as [b'| |]; try done. cbn [mbind res_bind]. destruct b'; [|done].
  subst r. rewrite until_nul_app, until_nul_hex by done.
  assert (UIntFromHexSubstring (pre +:+ hex_text 16 x) 40 = Ok (x mod 16 ^ 15)) as ->.
  { unfold UIntFromHexSubstring. rewrite line_length, Hpre. change (_ <? 40) with false. cbv iota.
    rewrite (hex_text_head 15). set (c := hex_char _).
    rewrite append_snoc.
    assert (String.length (pre +:+ String c "") = 40%nat) as H40 by (by rewrite length_append, Hpre).
    change (Z.to_nat 40) with 40%nat. rewrite length_append, H40.
    replace (40 + _ - 40)%nat with (String.length (hex_text 15 x)) by lia. rewrite <- H40, substring_right by done.
    by rewrite (strtoull16_text 13) by lia. }
  cbn [mbind res_bind]. assert (NestedFloatPossible (x mod 16 ^ 15) = false) as ->; [|done].
  unfold NestedFloatPossible. apply Z.eqb_neq. intros E%(f_equal (fun y => Z.testbit y 63)).
  rewrite Z.land_spec in E. change (16 ^ 15) with (2 ^ 60) in E. rewrite Z.mod_pow2_bits_high in E by lia. done.
Qed.

(** What a line of the output can be. *)
Definition kept_or_fixed (r l out : string) : Prop := out = r \/ (out = l /\ LineIsFLDInst r = Ok true).

Lemma fix_line_conservative oob r l out : fix_line oob r l = Ok out -> kept_or_fixed r l out.
Proof.
  unfold fix_line. case_bool_decide; [intros [= <-]; by left|].
  destruct (LineIsFLDInst r) as [[]| |] eqn:Ef; try done; cbn [mbind res_bind]; [|intros [= <-]; by left].
  destruct (UIntFromHexSubstring (until_nul r) 40) as [x| |]; try done. cbn [mbind res_bind].
  destruct (NestedFloatPossible x); [|intros [= <-]; by left].
  destruct (overwrite (until_nul r) _) as [s| |]; try done. cbn [mbind res_bind].
  case_bool_decide as E; intros [= <-]; [|by left]. right. by split.
Qed.

(** C31: [float_fix] repairs a log and spoils none.  Whatever the logs, a line of the output is, up
    to its first NUL, the processor's own line, or that of the reference simulator for an [fld].
    If the logs differ only in floats that were loaded as doubles and recoded, none of them below
    the normal range, and all of them at column 40 and at the end of a line without NULs, the
    output is the log of the reference simulator, up to the NULs of its lines.  Column 40 is that
    of registers with two digits: see [single_digit_not_repaired] for the others. *)
Theorem float_fix_repairs oob rocket lspike :
  (forall out, DiffAndFix oob rocket lspike = Ok out ->
     length out = length rocket /\
     forall i r line, rocket !! i = Some r -> out !! i = Some line ->
       line = until_nul r \/
       exists l, lspike !! i = Some l /\ line = until_nul l /\ LineIsFLDInst r = Ok true) /\
  (Forall2 (fun r l => r = l \/ float_line r l) rocket lspike ->
     DiffAndFix oob rocket lspike = Ok (map until_nul lspike)).
Proof.
  split.
  - revert lspike. induction rocket as [|r rocket IH]; intros lspike out E; [by injection E as <-|].
    destruct lspike as [|l lspike]; cbn [DiffAndFix] in E.
    + destruct (DiffAndFix oob rocket []) as [o| |] eqn:Eo; try done. injection E as <-.
      destruct (IH _ _ Eo) as [Hl Hi]. split; [simpl; by rewrite Hl|]. intros [|i] r' line; simpl.
      * intros [= <-] [= <-]. by left.
      * apply Hi.
    + destruct (fix_line oob r l) as [x| |] eqn:Ex; try done. cbn [mbind res_bind] in E.
      destruct (DiffAndFix oob rocket lspike) as [o| |] eqn:Eo; try done. injection E as <-.
      destruct (IH _ _ Eo) as [Hl Hi]. split; [simpl; by rewrite Hl|]. intros [|i] r' line; simpl.
      * intros [= <-] [= <-]. destruct (fix_line_conservative _ _ _ _ Ex) as [->|[-> ?]]; eauto.
      * apply Hi.
  - induction 1 as [|r l rocket lspike [->|Hrl] _ IH]; [done|..]; cbn [DiffAndFix].
    + unfold fix_line. rewrite bool_decide_true by done. cbn [mbind res_bind]. by rewrite IH.
    + rewrite (proj1 (fix_float_line oob r l Hrl)). cbn [mbind res_bind]. by rewrite IH.
Qed.

(** One loaded as a double. *)
Lemma float_fix_repairs_witness :
  DiffAndFix oob_masked
    ["0 0x0000000000002cdc (0x0000b707) f14 0xfffffffe80000000";
     "0 0x0000000000002ce0 (0x00973423)"]
    ["0 0x0000000000002cdc (0x0000b707) f14 0x000000003f800000";
     "0 0x0000000000002ce0 (0x00973423)"] =
  Ok ["0 0x0000000000002cdc (0x0000b707) f14 0x000000003f800000";
      "0 0x0000000000002ce0 (0x00973423)"].
Proof.
  apply (float_fix_repairs oob_masked
    ["0 0x0000000000002cdc (0x0000b707) f14 0xfffffffe80000000"; "0 0x0000000000002ce0 (0x00973423)"]
    ["0 0x0000000000002cdc (0x0000b707) f14 0x000000003f800000"; "0 0x0000000000002ce0 (0x00973423)"]).
  constructor; [right|by repeat constructor; left].
  apply (float_line_intro "0 0x0000000000002cdc (0x0000b707) f14 0x" 0x3f800000); [done|done|lia|done|].
  vm_compute. reflexivity.
Defined.
