(* ===== verification/ElfLoader.v ===== *)
(** * The ELF loader of the emulator

    [src/main/resources/csrc/elfloader.h] and [elfloader.cc]: the loadable segments of an ELF file
    of either class are copied to the simulated memory, which starts at the lowest of them.

    The file is mapped into memory: [raw] are its bytes and [size] their number.  A read outside
    of the file and a write outside of the buffer are not caught by the code; they are [BadIndex]
    here.  [std::sort] is insertion sort, which is what it does for up to sixteen elements. *)
From S2P Require Import Prelude DramCommon Memory SimRam.
From Stdlib Require Import Sorted.
Local Open Scope list_scope.
Local Open Scope Z_scope.

(** ** Headers *)

(** The fields of the two kinds of header that the loader reads. *)
Record Ehdr := mkEhdr { e_entry : Z; e_phoff : Z; e_phnum : Z }.
Record Phdr := mkPhdr { p_type : Z; p_offset : Z; p_paddr : Z; p_filesz : Z; p_memsz : Z }.

(** The template parameters of [parse]: where the fields are, and the width of addresses. *)
Record ElfTypes := mkTypes {
  ehdr_t : mem -> Ehdr; phdr_t : mem -> Z -> Phdr; phdr_size : Z; addr_width : Z }.

Definition data32 : ElfTypes := {|
  ehdr_t raw := mkEhdr (load_le 4 raw 24) (load_le 4 raw 28) (load_le 2 raw 44);
  phdr_t raw p := mkPhdr (load_le 4 raw p) (load_le 4 raw (p + 4)) (load_le 4 raw (p + 12))
                    (load_le 4 raw (p + 16)) (load_le 4 raw (p + 20));
  phdr_size := 32; addr_width := 32 |}.

Definition data64 : ElfTypes := {|
  ehdr_t raw := mkEhdr (load_le 8 raw 24) (load_le 8 raw 32) (load_le 2 raw 56);
  phdr_t raw p := mkPhdr (load_le 4 raw p) (load_le 8 raw (p + 8)) (load_le 8 raw (p + 24))
                    (load_le 8 raw (p + 32)) (load_le 8 raw (p + 40));
  phdr_size := 56; addr_width := 64 |}.

Definition PT_LOAD : Z := 1.

Definition IS_ELF (raw : mem) : bool :=
  (raw 0 =? 0x7f) && (raw 1 =? 69) && (raw 2 =? 76) && (raw 3 =? 70).
Definition IS_ELF32 (raw : mem) : bool := IS_ELF raw && (raw 4 =? 1).
Definition IS_ELF64 (raw : mem) : bool := IS_ELF raw && (raw 4 =? 2).

(** [data_src] is the offset in the file. *)
Record ElfSection := mkSection {
  data_src : Z; data_dst : Z; data_len : Z; zero_dst : Z; zero_len : Z }.

(** ** Parsing *)

Section parsing.
Context (raw : mem) (size : Z).

(** [data.ph[i]]. *)
Definition ph (t : ElfTypes) (eh : Ehdr) (i : Z) : M Phdr :=
  let p := e_phoff eh + i * phdr_size t in
  if size <? p + phdr_size t then Err BadIndex else Ok (phdr_t t raw p).

(** The body of the loop over the program headers. *)
Definition parse_segment (t : ElfTypes) (eh : Ehdr) (i : Z) (sections : list ElfSection)
    : M (list ElfSection) :=
  p ← ph t eh i;
  if (p_type p =? PT_LOAD) && negb (p_memsz p =? 0) then
    if negb (p_filesz p =? 0) then
      if size <? wrapU (addr_width t) (p_offset p + p_filesz p) then Err AssertFailed
      else
        Ok (sections ++
            [mkSection (p_offset p) (p_paddr p) (p_filesz p)
               (wrapU (addr_width t) (p_paddr p + p_filesz p))
               (wrapU (addr_width t) (p_memsz p - p_filesz p))])
    else Ok sections
  else Ok sections.

Fixpoint insert_section (s : ElfSection) (l : list ElfSection) : list ElfSection :=
  match l with
  | [] => [s]
  | s' :: l => if data_dst s <? data_dst s' then s :: s' :: l else s' :: insert_section s l
  end.
Definition sort_sections (l : list ElfSection) : list ElfSection := foldl (flip insert_section) [] l.

Definition parse (t : ElfTypes) : M (Z * list ElfSection) :=
  let eh := ehdr_t t raw in
  if size <? u64 (e_phoff eh + e_phnum eh * phdr_size t) then Err AssertFailed
  else
    sections ← forM (seqZ 0 (e_phnum eh)) (parse_segment t eh) [];
    Ok (e_entry eh, sort_sections sections).

(** The entry point and the sections. *)
Definition load : M (Z * list ElfSection) :=
  if size <? 64 then Err AssertFailed
  else if negb (IS_ELF32 raw || IS_ELF64 raw) then Err AssertFailed
  else if IS_ELF32 raw then parse data32 else parse data64.

(** ** Loading *)

(** [memset] and [memcpy] from the file, into a buffer of [buf_size] bytes. *)
Definition zero_fill (m : mem) (a n : Z) : mem := put_bytes m a (replicate (Z.to_nat n) 0).

Definition copy_section (buf_size base_addr : Z) (s : ElfSection) (m : mem) : M (Z + mem) :=
  let len := u64 (data_len s + zero_len s) in
  let offset := u64 (data_dst s - base_addr) in
  if u64 buf_size <? u64 (offset + len) then Ok (inl (-1))
  else if (buf_size <? offset + len) || (buf_size <? offset + data_len s) then Err BadIndex
  else if size <? data_src s + data_len s then Err BadIndex
  else Ok (inr (put_bytes (zero_fill m offset len) offset (get_bytes raw (data_src s) (data_len s)))).

Fixpoint copy_sections (buf_size base_addr : Z) (l : list ElfSection) (m : mem) : M (option Z * mem) :=
  match l with
  | [] => Ok (None, m)
  | s :: l =>
      x ← copy_section buf_size base_addr s m;
      match x with
      | inl v => Ok (Some v, m)
      | inr m => copy_sections buf_size base_addr l m
      end
  end.

(** The value returned, and the buffer. *)
Definition readFromElf (m : mem) (buf_size : Z) : M (Z * mem) :=
  '(_, sections) ← load;
  match sections with
  | [] => Ok (-1, m)
  | first :: _ =>
      let base_addr := data_dst first in
      '(r, m) ← copy_sections buf_size base_addr sections m;
      match r, last sections with
      | Some v, _ => Ok (v, m)
      | None, Some s => Ok (s64 (data_dst s - base_addr + data_len s + zero_len s), m)
      | None, None => Err BadIndex
      end
  end.
End parsing.

(** [isElfFile] reads four bytes into a buffer whose content before was [buf]. *)
Definition isElfFile (content buf : list Z) : bool :=
  bool_decide (take 4 (take 4 content ++ drop (length (take 4 content)) buf) = [0x7f; 69; 76; 70]).

#[export] Instance Phdr_eq_dec : EqDecision Phdr.
Proof. solve_decision. Defined.

(** ** Copies *)

Lemma put_bytes_lookup m a l x :
  put_bytes m a l x =
  if in_range a (Z.of_nat (length l)) x then u8 (l !!! Z.to_nat (x - a)) else m x.
Proof.
  revert m a. induction l as [|b l IH]; intros m a; [by simpl; range_cases; lia|].
  cbn [put_bytes length]. rewrite IH. unfold store8. range_cases; try lia.
  - by replace (Z.to_nat (x - a)) with (S (Z.to_nat (x - (a + 1)))) by lia.
  - destruct (Z.eqb_spec x a) as [->|]; [|lia]. by rewrite Z.sub_diag.
  - by destruct (Z.eqb_spec x a); [lia|].
Qed.

Lemma get_bytes_length m a n : length (get_bytes m a n) = Z.to_nat n.
Proof. unfold get_bytes. by rewrite length_fmap, length_seqZ. Qed.

Lemma get_bytes_lookup m a n i : 0 <= i < n -> get_bytes m a n !!! Z.to_nat i = m (a + i).
Proof.
  intros Hi. apply list_lookup_total_correct. unfold get_bytes.
  rewrite list_lookup_fmap, lookup_seqZ_lt by lia. simpl. f_equal. f_equal. lia.
Qed.

Lemma insert_section_perm s l : insert_section s l ≡ₚ s :: l.
Proof.
  induction l as [|s' l IH]; [done|]. cbn [insert_section]. destruct (_ <? _); [done|].
  rewrite IH. apply Permutation_swap.
Qed.

Definition below (s s' : ElfSection) : Prop := data_dst s <= data_dst s'.

Lemma insert_section_sorted s l : StronglySorted below l -> StronglySorted below (insert_section s l).
Proof.
  induction 1 as [|s' l Hs IH Hf]; [by repeat constructor|]. cbn [insert_section].
  destruct (Z.ltb_spec (data_dst s) (data_dst s')) as [Hlt|Hge].
  - constructor; [by constructor|]. constructor; [unfold below; lia|].
    eapply Forall_impl; [done|]. unfold below. intros; lia.
  - constructor; [done|]. rewrite insert_section_perm. by constructor.
Qed.

Lemma sort_sections_spec l : sort_sections l ≡ₚ l /\ StronglySorted below (sort_sections l).
Proof.
  unfold sort_sections. assert (forall acc, StronglySorted below acc ->
    foldl (flip insert_section) acc l ≡ₚ acc ++ l /\ StronglySorted below (foldl (flip insert_section) acc l)) as H.
  { induction l as [|s l IH]; intros acc Ha; simpl; [by rewrite app_nil_r|].
    destruct (IH _ (insert_section_sorted s acc Ha)) as [Hp Hs]. split; [|done].
    rewrite Hp, insert_section_perm. by rewrite <- Permutation_middle. }
  apply (H []). constructor.
Qed.

Lemma sorted_last l s z : StronglySorted below l -> last l = Some z -> s ∈ l -> below s z.
Proof.
  induction 1 as [|s' l Hs IH Hf]; [done|]. destruct l as [|s'' l].
  - simpl. intros [= <-] [->|H]%elem_of_cons; [unfold below; lia|by apply not_elem_of_nil in H].
  - intros Hz [->|H]%elem_of_cons; [|by apply IH]. rewrite Forall_forall in Hf. apply Hf.
    apply last_Some_elem_of. exact Hz.
Qed.

(** ** Which segments are loaded, and where *)

(** Segments to load that have data in the file. *)
Definition loadable (p : Phdr) : bool :=
  (p_type p =? PT_LOAD) && negb (p_memsz p =? 0) && negb (p_filesz p =? 0).

Section segments.
Context (raw : mem) (size : Z) (t : ElfTypes).

Definition phdrs : list Phdr :=
  (fun i => phdr_t t raw (e_phoff (ehdr_t t raw) + i * phdr_size t)) <$> seqZ 0 (e_phnum (ehdr_t t raw)).
Definition segments : list Phdr := List.filter loadable phdrs.

(** A section in the buffer, relative to the lowest address. *)
Definition segment_at (base : Z) (p : Phdr) (a : Z) : bool := in_range (p_paddr p - base) (p_memsz p) a.
Definition segment_byte (base : Z) (p : Phdr) (a : Z) : Z :=
  let k := a - (p_paddr p - base) in if k <? p_filesz p then raw (p_offset p + k) else 0.

(** A file whose loadable segments have their data within the file, do not wrap around, do not
    overlap and lie within [buf_size] bytes of each other. *)
Record elf_ok (buf_size : Z) : Prop := {
  eo_bytes : wf_mem raw;
  eo_size : 64 <= size < 2 ^ 63;
  eo_class : t = data32 /\ IS_ELF32 raw = true \/ t = data64 /\ IS_ELF64 raw = true;
  eo_headers : e_phoff (ehdr_t t raw) + e_phnum (ehdr_t t raw) * phdr_size t <= size;
  eo_some : segments <> [];
  eo_data p : p ∈ segments -> p_filesz p <= p_memsz p /\ p_offset p + p_filesz p <= size;
  eo_nowrap p : p ∈ segments -> p_paddr p + p_memsz p < 2 ^ addr_width t;
  eo_distinct : NoDup segments;
  eo_disjoint p q : p ∈ segments -> q ∈ segments -> p <> q ->
    p_paddr p + p_memsz p <= p_paddr q \/ p_paddr q + p_memsz q <= p_paddr p;
  eo_buffer : 0 <= buf_size < 2 ^ 63;
  eo_fits p q : p ∈ segments -> q ∈ segments -> p_paddr p + p_memsz p - p_paddr q <= buf_size }.

Context (buf_size : Z) (ok : elf_ok buf_size).

Lemma header_range : 0 <= e_phoff (ehdr_t t raw) /\ 0 <= e_phnum (ehdr_t t raw) /\ 32 <= phdr_size t.
Proof.
  pose proof (fun n a => load_le_range n raw a (eo_bytes _ ok)) as R.
  destruct (eo_class _ ok) as [[-> _]|[-> _]]; cbn [data32 data64 ehdr_t e_phoff e_phnum phdr_size]; split_and!; try lia; apply R.
Qed.

Lemma segment_range p : p ∈ segments ->
  0 <= p_offset p /\ 0 <= p_paddr p /\ 0 < p_filesz p <= p_memsz p /\ p_memsz p < 2 ^ addr_width t /\
  (addr_width t = 32 \/ addr_width t = 64).
Proof.
  intros Hp. pose proof (eo_data _ ok p Hp) as [Hf _]. pose proof (eo_nowrap _ ok p Hp) as Hw. revert Hw.
  unfold segments in Hp. apply list_elem_of_In, filter_In in Hp as [Hp Hl].
  apply list_elem_of_In, list_elem_of_fmap in Hp as (i & -> & _).
  apply andb_true_iff in Hl as [_ Hl]. apply negb_true_iff, Z.eqb_neq in Hl.
  pose proof (fun n a => load_le_range n raw a (eo_bytes _ ok)) as R. revert Hf Hl.
  destruct (eo_class _ ok) as [[-> _]|[-> _]];
    cbn [data32 data64 phdr_t p_offset p_paddr p_filesz p_memsz addr_width]; intros;
    repeat match goal with |- context [load_le ?n raw ?a] => pose proof (R n a); generalize dependent (load_le n raw a); intros end; lia.
Qed.

(** What [parse_segment] makes of a loadable segment. *)
Definition section_of (p : Phdr) : ElfSection :=
  mkSection (p_offset p) (p_paddr p) (p_filesz p) (wrapU (addr_width t) (p_paddr p + p_filesz p))
    (p_memsz p - p_filesz p).

Lemma parse_segment_ok i acc :
  0 <= i < e_phnum (ehdr_t t raw) ->
  let p := phdr_t t raw (e_phoff (ehdr_t t raw) + i * phdr_size t) in
  parse_segment raw size t (ehdr_t t raw) i acc =
  Ok (if loadable p then acc ++ [section_of p] else acc).
Proof.
  intros Hi p. destruct header_range as (H0 & H1 & H2). pose proof (eo_headers _ ok) as H3.
  assert (p ∈ phdrs) as Hin.
  { apply list_elem_of_fmap. exists i. split; [done|]. apply elem_of_seqZ. lia. }
  assert (loadable p = true -> p ∈ segments) as Hp.
  { intros Hl. apply list_elem_of_In, filter_In. by rewrite <- list_elem_of_In. }
  unfold parse_segment, ph. rewrite (proj2 (Z.ltb_ge size _)) by nia. fold p. cbn [mbind res_bind].
  unfold loadable in *. destruct (_ && negb (p_memsz p =? 0)); [|done].
  destruct (negb (p_filesz p =? 0)); [|done]. specialize (Hp eq_refl).
  destruct (segment_range p Hp) as (R1 & R2 & R3 & R4 & R5). pose proof (eo_data _ ok p Hp) as [_ Hd].
  pose proof (eo_size _ ok). unfold section_of.
  rewrite (proj2 (Z.ltb_ge size _)), (wrapU_small _ (p_memsz p - p_filesz p)); [done|lia|].
  transitivity (p_offset p + p_filesz p); [|done]. apply Z.mod_le; [lia|]. destruct R5 as [-> | ->]; lia.
Qed.

Lemma parse_loop l acc :
  (forall i, i ∈ l -> 0 <= i < e_phnum (ehdr_t t raw)) ->
  forM l (parse_segment raw size t (ehdr_t t raw)) acc =
  Ok (acc ++ (section_of <$> List.filter loadable
    ((fun i => phdr_t t raw (e_phoff (ehdr_t t raw) + i * phdr_size t)) <$> l))).
Proof.
  revert acc. induction l as [|i l IH]; intros acc Hl; [by rewrite app_nil_r|]. cbn [forM fmap list_fmap].
  rewrite parse_segment_ok by (apply Hl; set_solver). cbn [mbind res_bind].
  rewrite IH by set_solver. cbn [List.filter]. destruct (loadable _); [|done]. by rewrite <- (assoc_L (++)).
Qed.

Lemma load_ok : exists entry l, load raw size = Ok (entry, section_of <$> l) /\
  l ≡ₚ segments /\ StronglySorted below (section_of <$> l).
Proof.
  destruct header_range as (H0 & H1 & H2). pose proof (eo_size _ ok). pose proof (eo_headers _ ok).
  assert (load raw size = parse raw size t) as ->.
  { unfold load. rewrite (proj2 (Z.ltb_ge size 64)) by lia. unfold IS_ELF32, IS_ELF64.
    destruct (eo_class _ ok) as [[-> Hc]|[-> Hc]]; unfold IS_ELF32, IS_ELF64 in Hc; [by rewrite Hc|].
    rewrite Hc, orb_true_r. apply andb_true_iff in Hc as [_ ->%Z.eqb_eq]. by rewrite andb_false_r. }
  unfold parse. rewrite (wrapU_small 64) by nia. rewrite (proj2 (Z.ltb_ge size _)) by lia.
  rewrite parse_loop by (intros i Hi; apply elem_of_seqZ in Hi; lia). cbn [mbind res_bind app].
  destruct (sort_sections_spec (section_of <$> segments)) as [Hp Hs].
  apply Permutation_map_inv in Hp as (l & El & Hp).
  eexists _, l. split; [|split]; [|by symmetry|].
  - do 2 f_equal. exact El.
  - change (section_of <$> l) with (map section_of l). by rewrite <- El.
Qed.

Lemma width_range p : p ∈ segments -> p_paddr p + p_memsz p < 2 ^ 64.
Proof.
  intros Hp. pose proof (eo_nowrap _ ok p Hp). destruct (segment_range p Hp) as (_ & _ & _ & _ & [E|E]); rewrite E in *; lia.
Qed.

Lemma copy_section_ok base p q m : p ∈ segments -> q ∈ segments -> base = p_paddr q -> base <= p_paddr p ->
  exists m', copy_section raw size buf_size base (section_of p) m = Ok (inr m') /\
    forall a, m' a = if segment_at base p a then segment_byte base p a else m a.
Proof.
  intros Hp Hq Eb Hle. destruct (segment_range p Hp) as (R1 & R2 & R3 & _ & _). pose proof (width_range p Hp).
  destruct (segment_range q Hq) as (_ & Q2 & Q3 & _ & _). pose proof (eo_buffer _ ok).
  pose proof (eo_fits _ ok p q Hp Hq). pose proof (eo_data _ ok p Hp). pose proof (eo_bytes _ ok) as Hb.
  unfold copy_section, section_of. cbn [data_len zero_len data_dst data_src].
  rewrite (wrapU_small 64 (p_filesz p + _)), (wrapU_small 64 (p_paddr p - base)) by lia.
  rewrite !(wrapU_small 64) by lia. rewrite !(proj2 (Z.ltb_ge _ _)) by lia. cbn [orb].
  eexists. split; [done|]. intros a. unfold segment_at, segment_byte, zero_fill.
  rewrite !put_bytes_lookup, get_bytes_length, length_replicate. range_cases; try lia.
  - rewrite get_bytes_lookup by lia. rewrite (wrapU_small 8) by apply Hb.
    by rewrite (proj2 (Z.ltb_lt _ (p_filesz p))) by lia.
  - rewrite lookup_total_replicate_2 by lia. by rewrite (proj2 (Z.ltb_ge _ (p_filesz p))) by lia.
Qed.

Lemma copy_sections_ok base q l m : q ∈ segments -> base = p_paddr q ->
  NoDup l -> (forall p, p ∈ l -> p ∈ segments /\ base <= p_paddr p) ->
  exists m', copy_sections raw size buf_size base (section_of <$> l) m = Ok (None, m') /\
    (forall p a, p ∈ l -> segment_at base p a = true -> m' a = segment_byte base p a) /\
    (forall a, (forall p, p ∈ l -> segment_at base p a = false) -> m' a = m a).
Proof.
  intros Hq Eb. revert m. induction l as [|p l IH]; intros m Hnd Hl.
  - exists m. split; [done|]. split; [|done]. intros p a Hp. by apply not_elem_of_nil in Hp.
  - apply NoDup_cons in Hnd as [Hnp Hnd]. destruct (Hl p) as [Hp Hle]; [set_solver|].
    destruct (copy_section_ok base p q m Hp Hq Eb Hle) as (m1 & E1 & H1).
    destruct (IH m1) as (m' & E' & Hin & Hout); [done|set_solver|].
    exists m'. cbn [fmap list_fmap copy_sections]. rewrite E1. cbn [mbind res_bind]. split; [exact E'|]. split.
    + intros p' a [->|Hp']%elem_of_cons Ha; [|by apply Hin]. rewrite Hout, H1, Ha; [done|].
      intros p' Hp'. destruct (Hl p') as [Hs _]; [set_solver|].
      assert (p <> p') as Hne by (intros ->; done). pose proof (eo_disjoint _ ok p p' Hp Hs Hne).
      revert Ha. unfold segment_at. rewrite in_range_spec, in_range_out. lia.
    + intros a Ha. rewrite Hout, H1, Ha by set_solver. done.
Qed.
End segments.

(** C13: An ELF file of either class is loaded as its program headers say, if its segments with data in
    the file are well formed, do not overlap and fit into the buffer together: with the lowest of them
    at the start of the buffer, each has its bytes from the file followed by zeros, the rest of the
    buffer is as before, and the result is the end of the highest of them, counted from the lowest.
    Segments that have no data in the file are skipped ([bss_segment_skipped]). *)
Theorem elf_loads raw size t buf_size m : elf_ok raw size t buf_size ->
  exists low high m', low ∈ segments raw t /\ high ∈ segments raw t /\
    let base := p_paddr low in
    readFromElf raw size m buf_size = Ok (p_paddr high + p_memsz high - base, m') /\
    (forall p, p ∈ segments raw t -> base <= p_paddr p /\ p_paddr p + p_memsz p <= p_paddr high + p_memsz high) /\
    (forall p a, p ∈ segments raw t -> segment_at base p a = true ->
       0 <= a < buf_size /\ m' a = segment_byte raw base p a) /\
    (forall a, (forall p, p ∈ segments raw t -> segment_at base p a = false) -> m' a = m a).
Proof.
  intros ok. destruct (load_ok raw size t buf_size ok) as (entry & l & El & Hp & Hs).
  unfold readFromElf. rewrite El. cbn [mbind res_bind].
  destruct l as [|q l']; [by apply Permutation_nil_l in Hp; destruct (eo_some _ _ _ _ ok)|].
  set (l := q :: l') in *.
  assert (forall p, p ∈ l <-> p ∈ segments raw t) as Hin by (intros p; by rewrite Hp).
  assert (q ∈ segments raw t) as Hq by (apply Hin; subst l; set_solver).
  assert (forall p, p ∈ l -> p_paddr q <= p_paddr p) as Hmin.
  { intros p [->|Hpl]%elem_of_cons; [done|]. apply StronglySorted_inv in Hs as [_ Hf]. rewrite Forall_forall in Hf.
    apply (Hf (section_of t p)). by apply list_elem_of_fmap_2. }
  destruct (copy_sections_ok raw size t buf_size ok (p_paddr q) q l m) as (m' & Ec & Hi & Ho); [done|done|by rewrite Hp; apply ok| |].
  { intros p Hpl. split; [by apply Hin|by apply Hmin]. }
  assert (exists z, last l = Some z) as [z Hz] by (apply last_is_Some; done).
  assert (z ∈ segments raw t) as Hzs by (by apply Hin, last_Some_elem_of).
  assert (last (section_of t <$> l) = Some (section_of t z)) as Hlz by (by rewrite fmap_last, Hz).
  destruct (segment_range raw size t buf_size ok z Hzs) as (_ & Z2 & Z3 & _ & _).
  destruct (segment_range raw size t buf_size ok q Hq) as (_ & Q2 & _).
  pose proof (width_range raw size t buf_size ok z Hzs). pose proof (eo_fits _ _ _ _ ok z q Hzs Hq) as Hfit.
  pose proof (eo_buffer _ _ _ _ ok). pose proof (Hmin z ltac:(by apply Hin)).
  exists q, z, m'. split; [done|]. split; [done|]. cbv zeta. split; [|split; [|split]].
  - assert (section_of t <$> l = section_of t q :: (section_of t <$> l')) as E by done.
    rewrite E in *. change (data_dst (section_of t q)) with (p_paddr q). rewrite Ec. cbn [mbind res_bind]. rewrite Hlz. cbn [section_of data_dst data_len zero_len].
    rewrite (wrapS_small 64) by lia. do 2 f_equal. lia.
  - intros p Hp'. split; [by apply Hmin, Hin|]. destruct (decide (p = z)) as [->|Hne]; [done|].
    assert (p_paddr p <= p_paddr z) as Hle.
    { apply (sorted_last _ (section_of t p) (section_of t z) Hs Hlz), list_elem_of_fmap_2. by apply Hin. }
    destruct (segment_range raw size t buf_size ok p Hp') as (_ & _ & P3 & _).
    destruct (eo_disjoint _ _ _ _ ok p z Hp' Hzs Hne); lia.
  - intros p a Hp' Ha. split; [|by apply Hi; [apply Hin|]].
    pose proof (eo_fits _ _ _ _ ok p q Hp' Hq). pose proof (Hmin p ltac:(by apply Hin)).
    revert Ha. unfold segment_at. rewrite in_range_spec. lia.
  - intros a Ha. apply Ho. intros p Hp'. by apply Ha, Hin.
Qed.

(** ** Sample files *)

(** A 64-bit file with the given program headers behind its own, and zeros behind them. *)
Definition write_phdr (p : Phdr) (m_at : mem * Z) : mem * Z :=
  let '(m, a) := m_at in
  (store_le 8 (store_le 8 (store_le 8 (store_le 8 (store_le 4 m a (p_type p)) (a + 8) (p_offset p))
     (a + 24) (p_paddr p)) (a + 32) (p_filesz p)) (a + 40) (p_memsz p), a + 56).
Definition elf64_file (l : list Phdr) : mem :=
  let m := put_bytes (fun _ => 0) 0 [0x7f; 69; 76; 70; 2] in
  let m := store_le 2 (store_le 8 (store_le 8 m 24 0x20000000) 32 64) 56 (Z.of_nat (length l)) in
  (foldl (flip write_phdr) (m, 64) l).1.

Lemma wf_elf64_file l : wf_mem (elf64_file l).
Proof.
  unfold elf64_file. set (m := store_le 2 _ _ _). assert (wf_mem m) as Hm.
  { repeat apply wf_store_le. apply wf_put_bytes. intros a. lia. }
  clearbody m. generalize 64. revert m Hm. induction l as [|p l IH]; intros m Hm a; [done|].
  cbn [foldl flip write_phdr]. apply IH. by repeat apply wf_store_le.
Qed.

(** Two segments, the higher one first, with data behind the headers. *)
Definition two_segments : mem :=
  put_bytes (elf64_file [mkPhdr 1 176 0x20000010 4 8; mkPhdr 1 180 0x20000000 4 4]) 176 [1; 2; 3; 4; 5; 6; 7; 8].

Lemma two_segments_segments : segments two_segments data64 = [mkPhdr 1 176 0x20000010 4 8; mkPhdr 1 180 0x20000000 4 4].
Proof. vm_compute. reflexivity. Qed.

Lemma two_segments_ok : elf_ok two_segments 184 data64 64.
Proof.
  split; rewrite ?two_segments_segments; try done.
  - apply wf_put_bytes, wf_elf64_file.
  - right. done.
  - intros p Hp. set_unfold in Hp. by destruct Hp as [->|[->|[]]].
  - intros p Hp. set_unfold in Hp. by destruct Hp as [->|[->|[]]].
  - apply (bool_decide_unpack _). vm_compute. exact I.
  - intros p q Hp Hq. set_unfold in Hp. set_unfold in Hq.
    destruct Hp as [->|[->|[]]], Hq as [->|[->|[]]]; simpl; intros ?; try done; lia.
  - intros p q Hp Hq. set_unfold in Hp. set_unfold in Hq.
    by destruct Hp as [->|[->|[]]], Hq as [->|[->|[]]].
Qed.

Lemma elf_loads_witness : exists base ret m', readFromElf two_segments 184 (fun _ => 7) 64 = Ok (ret, m') /\
  forall p a, p ∈ segments two_segments data64 -> segment_at base p a = true ->
    m' a = segment_byte two_segments base p a.
Proof.
  destruct (elf_loads two_segments 184 data64 64 (fun _ => 7) two_segments_ok) as (low & high & m' & _ & _ & E & _ & H & _).
  eexists _, _, m'. split; [exact E|]. intros p a Hp Ha. by apply H.
Defined.

Lemma two_segments_loaded :
  ('(ret, m) ← readFromElf two_segments 184 (fun _ => 7) 64; Ok (ret, get_bytes m 0 26)) =
  Ok (24, [5; 6; 7; 8; 7; 7; 7; 7; 7; 7; 7; 7; 7; 7; 7; 7; 1; 2; 3; 4; 0; 0; 0; 0; 7; 7]).
Proof. vm_compute. reflexivity. Qed.

(** The check against the buffer uses the size in memory: a segment with more data than that is
    copied over the end of the buffer. *)
Lemma long_data_overflows :
  readFromElf (elf64_file [mkPhdr 1 64 0x20000000 40 8]) 184 (fun _ => 0) 8 = Err BadIndex.
Proof. vm_compute. reflexivity. Qed.

(** A segment that only takes space in memory is neither cleared nor counted. *)
Lemma bss_segment_skipped :
  ('(ret, m) ← readFromElf (elf64_file [mkPhdr 1 64 0x20000000 4 4; mkPhdr 1 0 0x20000008 0 8]) 184 (fun _ => 7) 64;
   Ok (ret, get_bytes m 8 8)) = Ok (4, [7; 7; 7; 7; 7; 7; 7; 7]).
Proof. vm_compute. reflexivity. Qed.

(** The check against the file wraps around. *)
Lemma wrapped_offset_passes :
  readFromElf (elf64_file [mkPhdr 1 (2 ^ 64 - 8) 0x20000000 16 16]) 184 (fun _ => 0) 64 = Err BadIndex.
Proof. vm_compute. reflexivity. Qed.
