(* ===== verification/Compress.v ===== *)
(** * Compressed memory images

    [src/main/resources/csrc/compress.h] and [compress.cc]: the readers of gzip and zstd images, the
    snapshot writer, and a copy that skips zeros.  The compression libraries are parameters.

    The readers store only words that are not zero, and store one word more than they have read.
    The page they read into is a byte memory; the word behind its end belongs to something else, and
    can be anything here. *)
From S2P Require Import Prelude DramCommon Memory SimRam ElfLoader.
Local Open Scope list_scope.
Local Open Scope Z_scope.

(** ** Recognising a format *)

Definition isGzFile (content : list Z) : bool := bool_decide (take 2 content = [0x1f; 0x8b]).
Definition isZstdFile (content : list Z) : bool :=
  bool_decide (take 4 content = [0x28; 0xb5; 0x2f; 0xfd]).

Inductive load_type := LOAD_SNAPSHOT | LOAD_RAM.

Definition chunk_size : Z := 16384.

(** ** Reading *)

(** The next at most [n] bytes of a compressed stream; [None] is an error. *)
Class ChunkSource (G : Type) := {
  read_chunk : Z -> G -> option (list Z) * G }.

(** Streams that deliver all they can: [to_come g] are the bytes of such a stream, and a read gives less
    than it is asked for only at the end.  zlib documents this of [gzread] for every file that is not
    damaged.  [ZSTD_decompressStream] stops at the end of each frame; with the whole file as its input,
    a stream of zstd is one of these when the file is a single frame. *)
Class ChunkLaws (G : Type) `{ChunkSource G} := {
  to_come : G -> option (list Z);
  read_chunk_ok n g l : to_come g = Some l -> 0 < n -> exists g',
    read_chunk n g = (Some (take (Z.to_nat n) l), g') /\ to_come g' = Some (drop (Z.to_nat n) l) }.

(** The word [x] of the page, stored to the buffer at [curr_size] if it is not zero. *)
Definition store_word (buf_size curr_size : Z) (page : mem) (x : Z) (m : mem) : M mem :=
  let w := load64 page (8 * x) in
  if w =? 0 then Ok m
  else if buf_size <? curr_size + 8 * x + 8 then Err BadIndex
  else Ok (store64 m (curr_size + 8 * x) w).

Definition store_words (buf_size curr_size : Z) (page : mem) (bytes_read : Z) (m : mem) : M mem :=
  forM (seqZ 0 (bytes_read / 8 + 1)) (store_word buf_size curr_size page) m.

Section reading.
Context {G : Type} `{ChunkSource G}.

(** The loop of both readers: the buffer, and the count of bytes with the stream behind them, or
    nothing on an error of the stream. *)
Fixpoint load_chunks (fuel : nat) (buf_size curr_size : Z) (m page : mem) (g : G)
    : M (mem * option (Z * G)) :=
  match fuel with
  | O => NoFuel
  | S fuel =>
      if curr_size <? u64 buf_size then
        match read_chunk (chunk_size * 8) g with
        | (None, _) => Ok (m, None)
        | (Some [], g) => Ok (m, Some (curr_size, g))
        | (Some bytes, g) =>
            let bytes_read := Z.of_nat (length bytes) in
            let page := put_bytes page 0 bytes in
            m ← store_words buf_size curr_size page bytes_read m;
            load_chunks fuel buf_size (u64 (curr_size + bytes_read)) m page g
        end
      else Ok (m, Some (curr_size, g))
  end.

(** [file] is what [gzopen] gives, and [gzclose] its closing.  An error of [gzread] is taken for a
    count of 2^32 - 1 bytes. *)
Definition readFromGz (fuel : nat) (m page : mem) (file : option G) (gzclose : G -> Z)
    (buf_size : Z) (kind : load_type) : M (Z * mem) :=
  if buf_size <=? 0 then Err AssertFailed
  else match file with
  | None => Ok (-1, m)
  | Some g =>
      match kind with
      | LOAD_RAM => if negb (Z.rem buf_size chunk_size =? 0) then Err AssertFailed else Ok tt
      | LOAD_SNAPSHOT => Ok tt
      end;;
      '(m, r) ← load_chunks fuel buf_size 0 m page g;
      match r with
      | None => Err BadIndex
      | Some (curr_size, g) =>
          match read_chunk chunk_size g with
          | (Some (_ :: _), _) => Err AssertFailed
          | (_, g) => Ok (if gzclose g =? 0 then s64 curr_size else -1, m)
          end
      end
  end.

(** [file] is the opened file and its size, and [stream] its decompression, if it can be set up. *)
Definition readFromZstd (fuel : nat) (m page : mem) (file_size : option Z) (stream : option G)
    (buf_size : Z) (kind : load_type) : M (Z * mem) :=
  if buf_size <=? 0 then Err AssertFailed
  else if (match kind with LOAD_RAM => negb (Z.rem buf_size chunk_size =? 0) | LOAD_SNAPSHOT => false end)
  then Ok (-1, m)
  else match file_size, stream with
  | Some n, Some g =>
      if n =? 0 then Ok (-1, m)
      else
        '(m, r) ← load_chunks fuel buf_size 0 m page g;
        match r with
        | None => Ok (-1, m)
        | Some (curr_size, g) =>
            match read_chunk (chunk_size * 8) g with
            | (Some [], _) => Ok (s64 curr_size, m)
            | _ => Ok (-1, m)
            end
        end
  | _, _ => Ok (-1, m)
  end.
End reading.

(** ** Writing a snapshot *)

Class ChunkSink (W : Type) := {
  gzwrite : list Z -> W -> Z * W }.

Class SinkLaws (W : Type) `{ChunkSink W} := {
  written : W -> list Z;
  gzwrite_ok l w : exists w', gzwrite l w = (Z.of_nat (length l), w') /\ written w' = written w ++ l }.

(** The page: the words of a chunk that are not zero, on zeros. *)
Definition snapshot_page (ptr : mem) (curr_size : Z) : mem :=
  foldl (fun page x =>
    let w := load64 ptr (curr_size + 8 * x) in
    if w =? 0 then page else store64 page (8 * x) w)
  (fun _ => 0) (seqZ 0 (chunk_size / 8)).

Section writing.
Context {W : Type} `{ChunkSink W}.

Fixpoint snapshot_chunks (fuel : nat) (ptr : mem) (buf_size curr_size : Z) (w : W) : M (Z * W) :=
  match fuel with
  | O => NoFuel
  | S fuel =>
      if curr_size <? buf_size then
        let '(n, w) := gzwrite (get_bytes (snapshot_page ptr curr_size) 0 chunk_size) w in
        let bytes_write := u32 n in
        if bytes_write <=? 0 then Ok (curr_size, w)
        else snapshot_chunks fuel ptr buf_size (s64 (curr_size + bytes_write)) w
      else Ok (curr_size, w)
  end.

Definition snapshot_compressToFile (fuel : nat) (ptr : mem) (file : option W) (gzclose : W -> Z)
    (buf_size : Z) : M (Z * option W) :=
  match file with
  | None => Ok (-1, None)
  | Some w =>
      '(curr_size, w) ← snapshot_chunks fuel ptr buf_size 0 w;
      Ok (if gzclose w =? 0 then curr_size else -1, Some w)
  end.
End writing.

(** ** A copy that skips zeros *)

Fixpoint copy_words (k : nat) (dst : mem) (dest : Z) (src_mem : mem) (src : Z) : mem :=
  match k with
  | O => dst
  | S k =>
      let w := load64 src_mem src in
      copy_words k (if w =? 0 then dst else store64 dst dest w) (dest + 8) src_mem (src + 8)
  end.

(** The two memories are apart ([__restrict]). *)
Definition nonzero_large_memcpy (dst : mem) (dest : Z) (src_mem : mem) (src n : Z) : mem :=
  let k := n / 8 in
  put_bytes (copy_words (Z.to_nat k) dst dest src_mem src) (dest + 8 * k)
    (get_bytes src_mem (src + 8 * k) (n - 8 * k)).

#[local] Arguments load_le : simpl never.
#[local] Arguments store_le : simpl never.

(** ** Words that are zero *)

Lemma word_zero m a i : wf_mem m -> load64 m a = 0 -> 0 <= i < 8 -> m (a + i) = 0.
Proof. intros Hm E Hi. rewrite <- (load_le_byte 8 m a i) by done. by rewrite E. Qed.

Lemma word_byte m a x : wf_mem m -> a <= x < a + 8 -> (load64 m a / 256 ^ (x - a)) mod 256 = m x.
Proof. intros Hm Hx. rewrite (load_le_byte 8 m a (x - a)) by (done || lia). f_equal. lia. Qed.

(** Storing the nonzero words of a page. *)
Lemma store_words_ok buf_size curr page k m :
  wf_mem page -> 0 <= k ->
  (forall x, 0 <= x < k -> load64 page (8 * x) <> 0 -> curr + 8 * x + 8 <= buf_size) ->
  exists m', forM (seqZ 0 k) (store_word buf_size curr page) m = Ok m' /\
    forall a, m' a = if in_range curr (8 * k) a && negb (load64 page (8 * ((a - curr) / 8)) =? 0)
                     then page (a - curr) else m a.
Proof.
  intros Hp Hk. revert m. pattern k. apply natlike_ind; [..|done]; clear k Hk.
  - intros m _. exists m. split; [done|]. intros a. range_cases; [lia|done].
  - intros k Hk IH m Hb. destruct (IH m) as (m1 & E1 & H1); [intros x Hx; apply Hb; lia|].
    change (Z.succ k) with (k + 1) in *. rewrite seqZ_snoc, forM_app, E1 by done. cbn [mbind res_bind forM]. rewrite Z.add_0_l.
    assert (forall a, curr + 8 * k <= a < curr + 8 * k + 8 -> (a - curr) / 8 = k) as Hd by (intros; dlia).
    unfold store_word. destruct (Z.eqb_spec (load64 page (8 * k)) 0) as [E0|E0].
    + exists m1. split; [done|]. intros a. rewrite H1. range_cases; try lia; try done. cbn [andb].
      rewrite (Hd a), E0 by lia. done.
    + rewrite (proj2 (Z.ltb_ge buf_size _)) by (apply Hb; [lia|done]). eexists. split; [done|]. intros a.
      rewrite store_le_lookup, H1. change (Z.of_nat 8) with 8. range_cases; try lia; try done.
      cbn [andb]. rewrite (Hd a), (proj2 (Z.eqb_neq _ 0) E0) by lia. cbn [negb].
      rewrite <- (word_byte page (8 * k) (a - curr)) by (done || lia). do 3 f_equal. lia.
Qed.

Definition page_bytes : Z := chunk_size * 8.

Section reading_ok.
Context {G : Type} `{ChunkLaws G}.
Context (image : list Z) (buf_size : Z) (page0 : mem).
Definition image_size : Z := Z.of_nat (length image).
Definition image_at (a : Z) : Z := if in_range 0 image_size a then image !!! Z.to_nat a else 0.

(** The word that happens to be behind the page. *)
Definition stray : Z := load64 page0 page_bytes.

(** The image fits, with a word to spare; or it is made of whole chunks and the stray word is zero. *)
Record image_fits : Prop := {
  if_bytes : Forall (fun b => 0 <= b < 256) image;
  if_page : wf_mem page0;
  if_buffer : 0 < buf_size < 2 ^ 63;
  if_size : image_size <= buf_size;
  if_spare : image_size + 8 <= buf_size \/ image_size mod page_bytes = 0 /\ stray = 0 }.

(** The places where the stray word stays: the first words of the chunks after the first, where
    the image has a word of zero. *)
Definition stray_at (a : Z) : bool :=
  (page_bytes <=? a) && (a mod page_bytes <? 8) && (load64 image_at (8 * (a / 8)) =? 0).
Definition expected (a : Z) : Z := if stray_at a then page0 (page_bytes + a mod 8) else image_at a.

Lemma wf_image : Forall (fun b => 0 <= b < 256) image -> wf_mem image_at.
Proof.
  intros F a. unfold image_at. range_cases; [|lia]. destruct (lookup_lt_is_Some_2 image (Z.to_nat a)) as [b E]; [unfold image_size in *; lia|].
  rewrite (list_lookup_total_correct _ _ _ E). rewrite Forall_lookup in F. eauto.
Qed.

Lemma stream_end fuel curr m page g : to_come g = Some [] ->
  exists g', load_chunks (S fuel) buf_size curr m page g = Ok (m, Some (curr, g')) /\ to_come g' = Some [].
Proof.
  intros E. cbn [load_chunks]. destruct (_ <? _); [|eauto].
  destruct (read_chunk_ok (chunk_size * 8) g [] E) as (g' & -> & Hg); [done|]. rewrite take_nil, drop_nil in *. eauto.
Qed.

(** The buffer before the chunk at [curr], and at the end. *)
Definition overrun (curr a : Z) : Z := if curr =? 0 then 0 else page0 (page_bytes + (a - curr)).
Definition upto (curr : Z) (m : mem) : Prop :=
  (forall a, 0 <= a < curr -> m a = expected a) /\ (forall a, curr <= a < curr + 8 -> m a = overrun curr a) /\
  (forall a, curr + 8 <= a -> m a = 0).
Definition loaded (m : mem) : Prop :=
  (forall a, 0 <= a -> 8 * (a / 8) + 8 <= image_size -> m a = expected a) /\ (forall a, image_size + 8 <= a -> m a = 0) /\
  (image_size mod page_bytes = 0 -> upto image_size m).

(** The page after a read. *)
Lemma page_filled curr page g : Forall (fun b => 0 <= b < 256) image ->
  (forall a, page_bytes <= a -> page a = page0 a) -> wf_mem page -> 0 <= curr < image_size ->
  to_come g = Some (drop (Z.to_nat curr) image) ->
  exists bytes g', read_chunk page_bytes g = (Some bytes, g') /\ bytes <> [] /\
    let r := Z.min page_bytes (image_size - curr) in
    Z.of_nat (length bytes) = r /\ to_come g' = Some (drop (Z.to_nat (curr + r)) image) /\
    let page' := put_bytes page 0 bytes in
    wf_mem page' /\ (forall a, page_bytes <= a -> page' a = page0 a) /\ (forall a, 0 <= a < r -> page' a = image_at (curr + a)).
Proof.
  intros F Hz Hp Hc Hg. assert (0 < page_bytes) as HB by done.
  destruct (read_chunk_ok page_bytes g _ Hg HB) as (g' & E & Hg'). set (bytes := take (Z.to_nat page_bytes) _) in *.
  assert (Z.of_nat (length bytes) = Z.min page_bytes (image_size - curr)) as Hl.
  { subst bytes. unfold image_size in *. rewrite length_take, length_drop. lia. }
  exists bytes, g'. split; [done|]. split; [intros Hn; rewrite Hn in Hl; change (length []) with 0%nat in Hl; lia|].
  split; [done|]. split; [|split; [by apply wf_put_bytes|]].
  { rewrite Hg', drop_drop. f_equal. unfold image_size in *.
    destruct (Z.le_gt_cases page_bytes (Z.of_nat (length image) - curr)); [f_equal; lia|]. by rewrite !drop_ge by lia. }
  split; intros a Ha; rewrite put_bytes_lookup, Hl; range_cases; try lia; [by apply Hz|].
  pose proof (wf_image F (curr + a)) as Hw. unfold image_at in *. revert Hw. range_cases; [|lia]. intros Hw. rewrite Z.sub_0_r.
  subst bytes. rewrite lookup_total_take_lt, lookup_total_drop by lia.
  replace (Z.to_nat curr + Z.to_nat a)%nat with (Z.to_nat (curr + a)) by lia. by apply (wrapU_small 8).
Qed.

Context (fits : image_fits).

(** A word of the chunk is the word of the image. *)
Lemma chunk_word curr page' r a : curr mod 8 = 0 -> (forall a, 0 <= a < r -> page' a = image_at (curr + a)) ->
  curr <= a -> 8 * ((a - curr) / 8) + 8 <= r -> load64 page' (8 * ((a - curr) / 8)) = load64 image_at (8 * (a / 8)).
Proof.
  intros Hm Hin Ha Hr. apply load_le_ext. intros i Hi. rewrite Hin by dlia. f_equal. dlia.
Qed.

(** Where a word of the image has been stored or skipped, the buffer holds what is expected. *)
Lemma word_expected curr m a : (exists j, curr = page_bytes * j) -> 0 <= curr -> upto curr m -> curr <= a < curr + page_bytes ->
  (if negb (load64 image_at (8 * (a / 8)) =? 0) then image_at a else m a) = expected a.
Proof.
  intros [j Hj] Hc (_ & H1 & H2) Ha. unfold expected, stray_at. assert (page_bytes = 131072) as EB by done.
  assert (a mod page_bytes = a - curr) as Em by (symmetry; apply (Z.mod_unique_pos _ _ j); lia). rewrite Em.
  destruct (Z.eqb_spec (load64 image_at (8 * (a / 8))) 0) as [E0|E0]; cbn [negb]; [|by rewrite andb_false_r].
  rewrite andb_true_r. assert (image_at a = 0) as Ia.
  { replace a with (8 * (a / 8) + a mod 8) by dlia. apply word_zero; [apply wf_image, fits|done|]. by apply Z.mod_pos_bound. }
  destruct (Z.ltb_spec (a - curr) 8) as [Hlt|Hge]; [|by rewrite andb_false_r, Ia, H2 by lia].
  rewrite andb_true_r, H1 by lia. unfold overrun. destruct (Z.eqb_spec curr 0) as [->|Hne].
  - rewrite (proj2 (Z.leb_gt page_bytes a)) by lia. done.
  - rewrite (proj2 (Z.leb_le page_bytes a)) by nia. f_equal. subst curr. dlia.
Qed.

Lemma chunk_ok curr m page g : (forall a, page_bytes <= a -> page a = page0 a) -> wf_mem page ->
  0 <= curr < image_size -> (exists j, curr = page_bytes * j) -> to_come g = Some (drop (Z.to_nat curr) image) -> upto curr m ->
  exists bytes g' m', read_chunk page_bytes g = (Some bytes, g') /\ bytes <> [] /\
    let r := Z.min page_bytes (image_size - curr) in
    Z.of_nat (length bytes) = r /\ to_come g' = Some (drop (Z.to_nat (curr + r)) image) /\
    let page' := put_bytes page 0 bytes in
    wf_mem page' /\ (forall a, page_bytes <= a -> page' a = page0 a) /\
    store_words buf_size curr page' r m = Ok m' /\
    if r =? page_bytes then upto (curr + page_bytes) m' else loaded m'.
Proof.
  intros Hz Hp Hc Hj Hg Hm. destruct (page_filled curr page g (if_bytes fits) Hz Hp Hc Hg) as (bytes & g' & E & Hnn & Hl & Hg' & Hp' & Hz' & Hin).
  set (r := Z.min page_bytes (image_size - curr)) in *. set (page' := put_bytes page 0 bytes) in *. cbv zeta.
  assert (page_bytes = 131072) as EB by done. assert (curr mod 8 = 0) as H8 by (destruct Hj as [j ->]; dlia).
  assert (r <> page_bytes -> image_size mod page_bytes <> 0) as Hpart.
  { intros Hr Hmod. destruct Hj as [j ->]. assert (r = image_size - page_bytes * j) by lia. dlia. }
  assert (load64 page' page_bytes = stray) as Est by (apply load_le_ext; intros i Hi; apply Hz'; lia).
  pose proof (if_size fits). destruct (store_words_ok buf_size curr page' (r / 8 + 1) m) as (m' & Es & Hm'); [done|dlia|..].
  { intros x Hx Hw. destruct (if_spare fits) as [Hs|[Hs Hst]]; [subst r; dlia|].
    destruct (Z.eq_dec r page_bytes) as [Er|Er]; [|by destruct (Hpart Er)]. destruct (Z.eq_dec (8 * x) page_bytes) as [Ex|Ex]; [|dlia].
    rewrite Ex, Est in Hw. done. }
  exists bytes, g', m'. split_and!; try done.
  assert (forall a, 0 <= a < curr -> m' a = expected a) as Hlow.
  { intros a Ha. rewrite Hm'. range_cases; [lia|]. cbn [andb]. by apply Hm. }
  assert (forall a, curr <= a -> 8 * ((a - curr) / 8) + 8 <= r -> m' a = expected a) as Hmid.
  { intros a Ha Hr. rewrite Hm', (chunk_word curr page' r a) by done. range_cases; [|dlia]. cbn [andb].
    rewrite Hin by dlia. replace (curr + (a - curr)) with a by lia. apply (word_expected curr m a Hj); [lia|done|dlia]. }
  destruct (Z.eqb_spec r page_bytes) as [Er|Er].
  - split; [intros a Ha; destruct (Z.lt_ge_cases a curr); [apply Hlow|apply Hmid]; dlia|]. destruct Hm as (_ & _ & Hm2). split.
    + intros a Ha. rewrite Hm'. replace (8 * ((a - curr) / 8)) with page_bytes by dlia. rewrite Est. range_cases; [|dlia].
      unfold overrun. rewrite (proj2 (Z.eqb_neq (curr + page_bytes) 0)) by lia. cbn [andb].
      destruct (Z.eqb_spec stray 0) as [E0|E0]; cbn [negb].
      * rewrite Hm2 by lia. symmetry. apply word_zero; [apply fits|done|lia].
      * rewrite Hz' by lia. f_equal. lia.
    + intros a Ha. rewrite Hm'. range_cases; [dlia|]. apply Hm2. lia.
  - split; [|split].
    + intros a Ha Hr. destruct (Z.lt_ge_cases a curr); [by apply Hlow|apply Hmid]; [done|]. subst r. dlia.
    + intros a Ha. rewrite Hm'. range_cases; [subst r; dlia|]. apply Hm. lia.
    + intros Hmod. by destruct (Hpart Er).
Qed.

Lemma load_chunks_ok fuel curr m page g : (forall a, page_bytes <= a -> page a = page0 a) -> wf_mem page ->
  0 <= curr <= image_size -> (exists j, curr = page_bytes * j) -> to_come g = Some (drop (Z.to_nat curr) image) -> upto curr m ->
  (image_size - curr) / page_bytes + 2 <= Z.of_nat fuel ->
  exists m' g', load_chunks fuel buf_size curr m page g = Ok (m', Some (image_size, g')) /\
    to_come g' = Some [] /\ loaded m'.
Proof.
  pose proof (if_buffer fits) as Hbuf. pose proof (if_size fits) as Hsize. assert (page_bytes = 131072) as EB by done.
  revert curr m page g. induction fuel as [|fuel IH]; intros curr m page g Hz Hp Hc Hj Hg Hm Hf; [dlia|].
  destruct (Z.eq_dec curr image_size) as [->|Hne].
  - destruct (stream_end fuel image_size m page g) as (g' & E & Hg').
    { rewrite Hg. f_equal. apply drop_ge. unfold image_size. lia. }
    exists m, g'. split; [done|]. split; [done|]. split; [|split; [apply Hm|done]]. intros a Ha0 Ha. apply Hm. dlia.
  - destruct (chunk_ok curr m page g) as (bytes & g1 & m1 & E & Hnn & Hl & Hg1 & Hp1 & Hz1 & Es & Hm1); try done; try lia.
    cbn [load_chunks]. rewrite (wrapU_small 64 buf_size), (proj2 (Z.ltb_lt curr buf_size)) by lia.
    change (chunk_size * 8) with page_bytes. rewrite E. destruct bytes as [|b bytes]; [done|].
    rewrite Hl, Es. cbn [mbind res_bind]. rewrite wrapU_small by lia.
    destruct (Z.eqb_spec (Z.min page_bytes (image_size - curr)) page_bytes) as [Er|Er].
    + rewrite Er in *. apply IH; try done; [lia| |].
      * destruct Hj as [j ->]. exists (j + 1). lia.
      * replace (image_size - (curr + page_bytes)) with (image_size - curr + (-1) * page_bytes) by lia.
        rewrite Z.div_add by lia. lia.
    + replace (curr + Z.min page_bytes (image_size - curr)) with image_size in * by lia.
      destruct fuel as [|fuel]; [dlia|].
      destruct (stream_end fuel image_size m1 (put_bytes page 0 (b :: bytes)) g1) as (g' & E' & Hg').
      { rewrite Hg1. f_equal. apply drop_ge. unfold image_size. lia. }
      exists m1, g'. by split.
Qed.
End reading_ok.

(** A stray word that is not zero is stored behind a buffer that the image fills to its end. *)
Section overrunning.
Context {G : Type} `{ChunkLaws G}.
Context (image : list Z) (page0 : mem) (Hbytes : Forall (fun b => 0 <= b < 256) image).
Context (Hmod : image_size image mod page_bytes = 0) (Hsize : image_size image < 2 ^ 63) (Hstray : stray page0 <> 0).

Lemma load_chunks_overrun fuel curr m page g : (forall a, page_bytes <= a -> page a = page0 a) -> wf_mem page ->
  0 <= curr < image_size image -> (exists j, curr = page_bytes * j) -> to_come g = Some (drop (Z.to_nat curr) image) ->
  (image_size image - curr) / page_bytes + 1 <= Z.of_nat fuel ->
  load_chunks fuel (image_size image) curr m page g = Err BadIndex.
Proof.
  assert (page_bytes = 131072) as EB by done.
  revert curr m page g. induction fuel as [|fuel IH]; intros curr m page g Hz Hp Hc Hj Hg Hf; [dlia|].
  destruct (page_filled image page0 curr page g Hbytes Hz Hp Hc Hg) as (bytes & g1 & E & Hnn & Hl & Hg1 & Hp1 & Hz1 & _).
  cbn [load_chunks]. rewrite (wrapU_small 64), (proj2 (Z.ltb_lt curr _)) by lia.
  change (chunk_size * 8) with page_bytes. rewrite E. destruct bytes as [|b bytes]; [done|]. set (page' := put_bytes page 0 (b :: bytes)) in *.
  rewrite Hl. assert (page_bytes <= image_size image - curr) as Hwhole by (destruct Hj as [j ->]; dlia). rewrite Z.min_l in * by done.
  unfold store_words. destruct (Z.eq_dec (curr + page_bytes) (image_size image)) as [Hend|Hend].
  - destruct (store_words_ok (image_size image) curr page' (page_bytes / 8) m) as (m' & Es & _); [done|dlia|intros; dlia|].
    rewrite seqZ_snoc, forM_app, Es by dlia. cbn [mbind res_bind forM]. unfold store_word.
    replace (8 * (0 + page_bytes / 8)) with page_bytes by done.
    assert (load64 page' page_bytes = stray page0) as -> by (apply load_le_ext; intros i Hi; apply Hz1; lia).
    rewrite (proj2 (Z.eqb_neq _ 0) Hstray), (proj2 (Z.ltb_lt _ _)) by lia. done.
  - destruct (store_words_ok (image_size image) curr page' (page_bytes / 8 + 1) m) as (m' & -> & _); [done|dlia| |].
    { intros x Hx _. destruct Hj as [j ->]. dlia. }
    cbn [mbind res_bind]. rewrite wrapU_small by lia. apply IH; try done.
    + destruct Hj as [j ->]. dlia.
    + destruct Hj as [j ->]. exists (j + 1). lia.
    + replace (image_size image - (curr + page_bytes)) with (image_size image - curr + (-1) * page_bytes) by lia.
      rewrite Z.div_add by lia. lia.
Qed.
End overrunning.

(** Turns of the loops that are always enough. *)
Definition chunk_fuel (size : Z) : nat := Z.to_nat (size / page_bytes + 2).

Lemma upto_start image page : upto image page 0 (fun _ => 0).
Proof. split; [lia|]. by split. Qed.

Lemma gz_loads {G} `{ChunkLaws G} g image gzclose page buf_size kind fuel :
  to_come g = Some image -> image_fits image buf_size page ->
  (kind = LOAD_RAM -> buf_size mod chunk_size = 0) -> (forall g, to_come g = Some [] -> gzclose g = 0) ->
  (chunk_fuel (image_size image) <= fuel)%nat ->
  exists m g', load_chunks fuel buf_size 0 (fun _ => 0) page g = Ok (m, Some (image_size image, g')) /\
    loaded image page m /\ to_come g' = Some [] /\
    readFromGz fuel (fun _ => 0) page (Some g) gzclose buf_size kind = Ok (image_size image, m).
Proof.
  intros Hi fits Hk Hclose Hf. pose proof (if_buffer _ _ _ fits) as Hbuf. pose proof (if_size _ _ _ fits) as Hsize.
  assert (0 <= image_size image) as Hge by (unfold image_size; lia).
  destruct (load_chunks_ok image buf_size page fits fuel 0 (fun _ => 0) page g) as (m & g' & E & Hg & Hm); try done; try lia.
  { apply fits. }
  { exists 0. lia. }
  { apply upto_start. }
  { unfold chunk_fuel in Hf. rewrite Z.sub_0_r. assert (page_bytes = 131072) by done. dlia. }
  exists m, g'. split; [done|]. split; [done|]. split; [done|].
  destruct (read_chunk_ok chunk_size g' _ Hg) as (g1 & Er & Hg1); [done|]. rewrite take_nil, drop_nil in *.
  unfold readFromGz. rewrite (proj2 (Z.leb_gt buf_size 0)) by lia.
  destruct kind; [|rewrite Z.rem_mod_nonneg, Hk by (done || unfold chunk_size; lia)]; cbn [mbind res_bind negb Z.eqb];
    rewrite E; cbn [mbind res_bind]; rewrite Er, (Hclose g1 Hg1); simpl; by rewrite (wrapS_small 64) by lia.
Qed.

Lemma zstd_loads {G} `{ChunkLaws G} g g' m page buf_size kind fuel size file_size :
  0 < buf_size -> 0 <= size < 2 ^ 63 -> (kind = LOAD_RAM -> buf_size mod chunk_size = 0) -> file_size <> 0 ->
  load_chunks fuel buf_size 0 (fun _ => 0) page g = Ok (m, Some (size, g')) -> to_come g' = Some [] ->
  readFromZstd fuel (fun _ => 0) page (Some file_size) (Some g) buf_size kind = Ok (size, m).
Proof.
  intros Hbuf Hsize Hk Hfs E Hg. unfold readFromZstd.
  rewrite (proj2 (Z.leb_gt buf_size 0)), (proj2 (Z.eqb_neq _ _) Hfs), E by lia. cbn [mbind res_bind].
  destruct (read_chunk_ok (chunk_size * 8) g' _ Hg) as (g1 & -> & _); [done|]. rewrite take_nil.
  rewrite (wrapS_small 64) by lia.
  destruct kind; [done|]. by rewrite Z.rem_mod_nonneg, Hk by (done || unfold chunk_size; lia).
Qed.

(** ** Snapshots *)

Lemma snapshot_page_ok ptr curr a : wf_mem ptr -> 0 <= a < chunk_size -> snapshot_page ptr curr a = ptr (curr + a).
Proof.
  intros Hp Ha. unfold snapshot_page.
  assert (forall k, 0 <= k -> forall a, foldl (fun page x => let w := load64 ptr (curr + 8 * x) in
    if w =? 0 then page else store64 page (8 * x) w) (fun _ => 0) (seqZ 0 k) a =
    if in_range 0 (8 * k) a then ptr (curr + a) else 0) as Hk.
  { apply (natlike_ind (fun k => forall a, _ a = _)).
    - intros b. simpl. range_cases; [lia|done].
    - intros k Hk IH b. change (Z.succ k) with (k + 1). rewrite seqZ_snoc, foldl_app by done. cbn [foldl].
      rewrite Z.add_0_l. destruct (Z.eqb_spec (load64 ptr (curr + 8 * k)) 0) as [E0|E0].
      + rewrite IH. range_cases; try lia; try done.
        replace (curr + b) with (curr + 8 * k + (b - 8 * k)) by lia. symmetry. apply word_zero; [done..|lia].
      + rewrite store_le_lookup, IH. change (Z.of_nat 8) with 8. range_cases; try lia; try done.
        rewrite <- (word_byte ptr (curr + 8 * k) (curr + b)) by (done || lia). do 3 f_equal. lia. }
  rewrite Hk by done. range_cases; [done|]. unfold chunk_size in *. dlia.
Qed.

Lemma get_bytes_app m a n k : 0 <= n -> 0 <= k -> get_bytes m a (n + k) = get_bytes m a n ++ get_bytes m (a + n) k.
Proof.
  intros Hn Hk. unfold get_bytes. rewrite seqZ_app, fmap_app by done. f_equal. rewrite Z.add_0_l.
  apply list_eq. intros i. rewrite !list_lookup_fmap. destruct (decide (Z.of_nat i < k)).
  - rewrite !lookup_seqZ_lt by lia. simpl. do 2 f_equal. lia.
  - by rewrite !lookup_seqZ_ge by lia.
Qed.

Section writing_ok.
Context {W : Type} `{SinkLaws W}.
Context (ptr : mem) (buf_size : Z) (Hptr : wf_mem ptr) (Hbuf : 0 <= buf_size < 2 ^ 63).
Context (Hmod : buf_size mod chunk_size = 0).

Lemma snapshot_chunks_ok fuel curr w : 0 <= curr <= buf_size -> curr mod chunk_size = 0 ->
  (buf_size - curr) / chunk_size + 1 <= Z.of_nat fuel ->
  exists w', snapshot_chunks fuel ptr buf_size curr w = Ok (buf_size, w') /\
    written w' = written w ++ get_bytes ptr curr (buf_size - curr).
Proof.
  assert (chunk_size = 16384) as EC by done.
  revert curr w. induction fuel as [|fuel IH]; intros curr w Hc Hm Hf; [dlia|]. cbn [snapshot_chunks].
  destruct (Z.ltb_spec curr buf_size) as [Hlt|Hge].
  - assert (curr + chunk_size <= buf_size) by dlia.
    assert (get_bytes (snapshot_page ptr curr) 0 chunk_size = get_bytes ptr curr chunk_size) as ->.
    { unfold get_bytes. apply list_fmap_ext. intros i x Hx. apply list_elem_of_lookup_2, elem_of_seqZ in Hx.
      rewrite Z.add_0_l. apply snapshot_page_ok; [done|lia]. }
    destruct (gzwrite_ok (get_bytes ptr curr chunk_size) w) as (w1 & -> & Hw1).
    rewrite get_bytes_length, Z2Nat.id, (wrapU_small 32), (proj2 (Z.leb_gt chunk_size 0)), (wrapS_small 64) by lia.
    destruct (IH (curr + chunk_size) w1) as (w' & -> & Hw'); [lia|..].
    { by rewrite <- Zplus_mod_idemp_r, Z_mod_same_full, Z.add_0_r. }
    { replace (buf_size - (curr + chunk_size)) with (buf_size - curr + (-1) * chunk_size) by lia.
      rewrite Z.div_add by lia. lia. }
    exists w'. split; [done|]. rewrite Hw', Hw1, <- (assoc_L (++)), <- get_bytes_app by lia. do 2 f_equal. lia.
  - exists w. replace curr with buf_size by lia. split; [done|]. by rewrite Z.sub_diag, app_nil_r.
Qed.
End writing_ok.

Lemma expected_image image page a : Forall (fun b => 0 <= b < 256) image -> wf_mem page -> stray page = 0 ->
  expected image page a = image_at image a.
Proof.
  intros F Hp Hs. unfold expected, stray_at. destruct (_ && _) eqn:E; [|done].
  apply andb_true_iff in E as [_ E%Z.eqb_eq]. rewrite (word_zero page) by (try apply Z.mod_pos_bound; done).
  replace a with (8 * (a / 8) + a mod 8) at 1 by dlia. rewrite word_zero; [done|by apply wf_image|done|by apply Z.mod_pos_bound].
Qed.

(** C15: A snapshot of a memory of whole pages of 128 KiB is written in full.  Read back into a zeroed
    memory of the same size it gives the memory, if the word that happens to lie behind the reader's
    page is zero; if not, the reader writes that word behind the end of the memory. *)
Theorem snapshot_roundtrip {W G} `{SinkLaws W} `{ChunkLaws G} ptr buf_size w0 closew closer page fuel1 fuel2 :
  wf_mem ptr -> 0 < buf_size < 2 ^ 63 -> buf_size mod page_bytes = 0 -> written w0 = [] ->
  (forall w, closew w = 0) -> (forall g, to_come g = Some [] -> closer g = 0) -> wf_mem page ->
  buf_size / chunk_size + 1 <= Z.of_nat fuel1 -> (chunk_fuel buf_size <= fuel2)%nat ->
  exists w, snapshot_compressToFile fuel1 ptr (Some w0) closew buf_size = Ok (buf_size, Some w) /\
    written w = get_bytes ptr 0 buf_size /\
    forall g, to_come g = Some (written w) ->
    let back := readFromGz fuel2 (fun _ => 0) page (Some g) closer buf_size LOAD_RAM in
    (stray page = 0 -> exists m, back = Ok (buf_size, m) /\ forall a, 0 <= a -> m a = if a <? buf_size then ptr a else 0) /\
    (stray page <> 0 -> back = Err BadIndex).
Proof.
  intros Hptr Hbuf Hmod Hw0 Hcw Hcr Hpage Hf1 Hf2. assert (page_bytes = 131072) as EB by done.
  assert (buf_size mod chunk_size = 0) as Hmod' by (unfold page_bytes, chunk_size in *; dlia).
  destruct (snapshot_chunks_ok ptr buf_size Hptr ltac:(lia) Hmod' fuel1 0 w0) as (w & E & Hw); [lia|done|by rewrite Z.sub_0_r|].
  exists w. unfold snapshot_compressToFile. rewrite E. cbn [mbind res_bind]. rewrite Hcw. split; [done|].
  rewrite Hw0, Z.sub_0_r in Hw. simpl in Hw. split; [done|].
  intros g Hg. rewrite Hw in Hg. cbv zeta. set (image := get_bytes ptr 0 buf_size) in *.
  assert (image_size image = buf_size) as Hn by (unfold image_size; subst image; rewrite get_bytes_length; lia).
  assert (Forall (fun b => 0 <= b < 256) image) as Hb by (apply Forall_fmap, Forall_forall; intros i _; apply Hptr). split.
  - intros Hs. destruct (gz_loads g image closer page buf_size LOAD_RAM fuel2) as (m & g' & _ & Hm & _ & Er); try done.
    + split; [done|done|lia|lia|]. right. by rewrite Hn.
    + by rewrite Hn.
    + exists m. rewrite Er, Hn. split; [done|]. intros a Ha. destruct Hm as (_ & Hz & Hup). rewrite Hn in *.
      destruct (Hup Hmod) as (Hin & Hover & _). destruct (Z.ltb_spec a buf_size).
      * rewrite Hin, expected_image by (done || lia). unfold image_at. rewrite Hn. range_cases; [|lia].
        subst image. by rewrite get_bytes_lookup by lia.
      * destruct (Z.lt_ge_cases a (buf_size + 8)); [|apply Hz; lia]. rewrite Hover by lia. unfold overrun.
        destruct (_ =? _); [done|]. apply word_zero; [done|done|lia].
  - intros Hs. unfold readFromGz. rewrite (proj2 (Z.leb_gt buf_size 0)), Z.rem_mod_nonneg, Hmod' by (unfold chunk_size; lia).
    cbn [mbind res_bind negb Z.eqb]. rewrite <- Hn. rewrite (load_chunks_overrun image page); rewrite ?Hn; try done; try lia.
    + exists 0. lia.
    + unfold chunk_fuel in Hf2. rewrite Z.sub_0_r. dlia.
Qed.

(** ** A copy that skips zeros *)

Lemma copy_words_ok k dst dest src_mem src a : wf_mem src_mem -> (forall x, in_range dest (8 * Z.of_nat k) x = true -> dst x = 0) ->
  copy_words k dst dest src_mem src a =
  if in_range dest (8 * Z.of_nat k) a then src_mem (src + (a - dest)) else dst a.
Proof.
  intros Hs. revert dst dest src. induction k as [|k IH]; intros dst dest src Hz; [cbn [copy_words]; range_cases; [lia|done]|].
  cbn [copy_words]. set (w := load64 src_mem src).
  assert (forall x, (if w =? 0 then dst else store64 dst dest w) x =
    if in_range dest 8 x then src_mem (src + (x - dest)) else dst x) as Hw.
  { intros x. subst w. destruct (Z.eqb_spec (load64 src_mem src) 0) as [E0|E0].
    - range_cases; [|done]. rewrite (word_zero src_mem src (x - dest)) by (done || lia). apply Hz, in_range_spec. lia.
    - rewrite store_le_lookup. change (Z.of_nat 8) with 8. range_cases; [|done].
      rewrite <- (word_byte src_mem src (src + (x - dest))) by (done || lia). do 3 f_equal. lia. }
  rewrite IH.
  - rewrite Hw. range_cases; try lia; try done. f_equal. lia.
  - intros x Hx. apply in_range_spec in Hx. rewrite Hw. range_cases; [lia|]. apply Hz, in_range_spec. lia.
Qed.

(** On zeros the copy that skips them is a copy. *)
Lemma nonzero_large_memcpy_ok dst dest src_mem src n a :
  wf_mem src_mem -> 0 <= n -> (forall x, in_range dest n x = true -> dst x = 0) ->
  nonzero_large_memcpy dst dest src_mem src n a =
  if in_range dest n a then src_mem (src + (a - dest)) else dst a.
Proof.
  intros Hs Hn Hz. unfold nonzero_large_memcpy. rewrite put_bytes_lookup, get_bytes_length, copy_words_ok; [|done|].
  - rewrite !Z2Nat.id by dlia. range_cases; try dlia; try done.
    rewrite get_bytes_lookup, (wrapU_small 8) by (apply Hs || lia). f_equal. lia.
  - intros x Hx. apply in_range_spec in Hx. apply Hz, in_range_spec. rewrite Z2Nat.id in Hx by dlia. dlia.
Qed.

(** ** Samples *)

(** A stream that is its own content. *)
#[export] Instance plain_source : ChunkSource (list Z) := {
  read_chunk n g := (Some (take (Z.to_nat n) g), drop (Z.to_nat n) g) }.
#[export, refine] Instance plain_source_laws : ChunkLaws (list Z) := { to_come g := Some g }.
Proof. intros n g l [= ->] _. by eexists. Defined.

(** A stream of frames, of which a read gives no more than one. *)
#[export] Instance framed_source : ChunkSource (list (list Z)) := {
  read_chunk n g :=
    match g with
    | [] => (Some [], [])
    | f :: fs => (Some (take (Z.to_nat n) f), if Z.of_nat (length f) <=? n then fs else drop (Z.to_nat n) f :: fs)
    end }.
#[export, refine] Instance framed_source_laws : ChunkLaws (list (list Z)) := {
  to_come g := match g with [] => Some [] | [f] => Some f | _ => None end }.
Proof.
  intros n [|f [|f' fs]] l Hl Hn; [| |done]; injection Hl as <-.
  - exists []. cbn [read_chunk framed_source]. by rewrite take_nil, drop_nil.
  - cbn [read_chunk framed_source]. destruct (Z.leb_spec (Z.of_nat (length f)) n); eexists; (split; [done|]); [|done].
    by rewrite drop_ge by lia.
Defined.

(** In a stream of several frames a short read in the middle leaves bytes of an earlier one behind: of
    sixteen ones, four twos and eight zeros, four of the zeros are lost. *)
Lemma frames_corrupted :
  ('(r, m) ← readFromZstd 9 (fun _ => 0) (fun _ => 0) (Some 1) (Some [replicate 16 1; replicate 4 2; replicate 8 0]) 16384 LOAD_RAM;
   Ok (r, get_bytes m 0 28)) = Ok (28, replicate 16 1 ++ replicate 4 2 ++ replicate 4 1 ++ replicate 4 0).
Proof. vm_compute. reflexivity. Qed.

#[export] Instance plain_sink : ChunkSink (list Z) := {
  gzwrite l w := (Z.of_nat (length l), w ++ l) }.
#[export, refine] Instance plain_sink_laws : SinkLaws (list Z) := { written w := w }.
Proof. intros l w. by eexists. Defined.

Lemma snapshot_roundtrip_witness : exists w,
  snapshot_compressToFile 9 (fun _ => 1) (Some []) (fun _ => 0) 131072 = Ok (131072, Some w) /\
  (exists m, readFromGz 3 (fun _ => 0) (fun _ => 0) (Some w) (fun _ => 0) 131072 LOAD_RAM = Ok (131072, m) /\
    m 131071 = 1) /\
  readFromGz 3 (fun _ => 0) (fun _ => 1) (Some w) (fun _ => 0) 131072 LOAD_RAM = Err BadIndex.
Proof.
  pose proof (fun page (Hp : wf_mem page) => snapshot_roundtrip (W := list Z) (G := list Z) (fun _ => 1) 131072 [] (fun _ => 0) (fun _ => 0)
    page 9 3 ltac:(intros a; lia) ltac:(lia) eq_refl eq_refl ltac:(done) ltac:(done) Hp
    ltac:(apply Z.leb_le; vm_compute; reflexivity) ltac:(apply Nat.leb_le; vm_compute; reflexivity)) as H.
  destruct (H (fun _ => 0) ltac:(intros a; lia)) as (w & E & _ & H0).
  destruct (H (fun _ => 1) ltac:(intros a; lia)) as (w' & E' & _ & H1).
  assert (w' = w) as -> by congruence. exists w. split; [exact E|]. split.
  - destruct (H0 w eq_refl) as [Hback _]. destruct Hback as (m & Em & Hm); [reflexivity|]. exists m. split; [exact Em|].
    rewrite Hm by lia. reflexivity.
  - apply (H1 w eq_refl). discriminate.
Defined.

(** The word behind the last one read comes from an earlier chunk: here eight bytes were read over
    a page that held sixteen, and sixteen are stored, even behind the end of the buffer. *)
Lemma stale_word_stored :
  let page := put_bytes (put_bytes (fun _ => 0) 0 (replicate 16 1)) 0 (replicate 8 2) in
  (m ← store_words 64 0 page 8 (fun _ => 0); Ok (get_bytes m 0 17)) = Ok (replicate 8 2 ++ replicate 8 1 ++ [0]) /\
  store_words 8 0 page 8 (fun _ => 0) = Err BadIndex.
Proof. split; vm_compute; reflexivity. Qed.
