(* ===== verification/Image.v ===== *)
(** * Memory images of the emulator

    [ram.cc]: which reader a name stands for ([is_stdin], [is_wim], [createInputReader]), the whole
    constructor [MmapMemory::MmapMemory] with its four formats, [init_ram] and [overwrite_ram].

    The file system, the standard input and the emulator's own memory are parameters, as are the
    streams of the compression libraries and what happens to be in buffers that are not
    initialised. *)
From S2P Require Import Prelude DramCommon Memory SimRam Comlog FloatFix ElfLoader Compress.
From Stdlib Require Import Ascii.
From stdpp Require Import strings.
Local Open Scope string_scope.
Local Open Scope list_scope.
Local Open Scope Z_scope.

(** ** Names *)

Definition is_stdin (image : string) : bool := bool_decide (image = "-").

(** [strtoul(s, &end, 16)]: the value, clamped, and the rest of the string; all of it if there is
    no digit. *)
Fixpoint skip_hex (s : string) : string :=
  match s with
  | String c rest => match hex_digit c with Some _ => skip_hex rest | None => s end
  | EmptyString => s
  end.

Definition clamp64 (x : Z) : Z := Z.min x (2 ^ 64 - 1).

Definition starts_hex (s : string) : bool :=
  match s with String c _ => bool_decide (hex_digit c <> None) | EmptyString => false end.

Fixpoint strtoul_from (whole s : string) : Z * string :=
  let number negative s :=
    let t := hex_prefix s in
    if starts_hex t then
      let x := clamp64 (hex_digits t 0) in
      (if (negative : bool) then u64 (- x) else x, skip_hex t)
    else (0, whole) in
  match s with
  | EmptyString => (0, whole)
  | String c rest =>
      if is_space c then strtoul_from whole rest
      else if Ascii.eqb c "-"%char then number true rest
      else if Ascii.eqb c "+"%char then number false rest
      else number false s
  end.
Definition strtoul16 (s : string) : Z * string := strtoul_from s s.

(** What is behind the first ['@']. *)
Fixpoint after_at (s : string) : option string :=
  match s with
  | EmptyString => None
  | String c rest => if Ascii.eqb c "@"%char then Some rest else after_at rest
  end.

(** The address and the size of an image in the emulator's memory. *)
Definition is_wim (image : string) : option (Z * Z) :=
  match after_at image with
  | None => None
  | Some info =>
      if negb (bool_decide (String.substring 0 3 image = "wim")) then None
      else
        let '(base_addr, info) := strtoul16 info in
        match info with
        | String "+" info =>
            if negb (base_addr mod 8 =? 0) then None
            else
              let '(wim_size, info) := strtoul16 info in
              match info with
              | EmptyString => if base_addr =? 0 then None else Some (base_addr, wim_size)
              | _ => None
              end
        | _ => None
        end
  end.

(** ** Readers *)

Inductive Reader := RStdin (r : StdinReader) | RWim (r : WimReader) | RFile (r : FileReader).

(** The virtual calls. *)
#[export] Instance any_reader : InputReader Reader := {
  len r := match r with RStdin r => len r | RWim r => len r | RFile r => len r end;
  next r :=
    match r with
    | RStdin r => let '(v, r) := next r in (v, RStdin r)
    | RWim r => let '(v, r) := next r in (v, RWim r)
    | RFile r => let '(v, r) := next r in (v, RFile r)
    end;
  read_all r m dest max_bytes :=
    match r with
    | RStdin r => let '(n, m, r) := read_all r m dest max_bytes in (n, m, RStdin r)
    | RWim r => let '(n, m, r) := read_all r m dest max_bytes in (n, m, RWim r)
    | RFile r => let '(n, m, r) := read_all r m dest max_bytes in (n, m, RFile r)
    end }.

Section image.
Context (files : string -> option (list Z)) (input : list Z) (host : mem).
Context {G : Type} `{ChunkSource G} (gzopen zstdopen : list Z -> option G) (gzclose : G -> Z).
Context (page : mem) (buf : list Z).

Definition createInputReader (image : string) : M Reader :=
  if is_stdin image then Ok (RStdin (newStdinReader input))
  else match is_wim image with
  | Some (ptr, n_bytes) => Ok (RWim (mkWim host ptr n_bytes 0))
  | None =>
      match files image with
      | Some content => Ok (RFile (newFileReader content))
      | None => Err AssertFailed
      end
  end.

(** [MmapMemory::MmapMemory] when [mmap] gives the memory.  The tests of the format read from a
    file that may not exist; the result of a reader is stored without its sign. *)
Definition load_image (fuel : nat) (image : option string) (n_bytes : Z) : M MmapMemory :=
  match image with
  | None => Ok (mkMmap (fun _ => 0) n_bytes 0)
  | Some name =>
      let content := default [] (files name) in
      if isGzFile content then
        '(r, m) ← readFromGz fuel (fun _ => 0) page (gzopen content) gzclose (s64 n_bytes) LOAD_RAM;
        Ok (mkMmap m n_bytes (u64 r))
      else if isZstdFile content then
        '(r, m) ← readFromZstd fuel (fun _ => 0) page (Some (Z.of_nat (length content)))
                    (zstdopen content) (s64 n_bytes) LOAD_RAM;
        Ok (mkMmap m n_bytes (u64 r))
      else if isElfFile content buf then
        '(r, m) ← readFromElf (put_bytes (fun _ => 0) 0 content) (Z.of_nat (length content))
                    (fun _ => 0) (s64 n_bytes);
        Ok (mkMmap m n_bytes (u64 r))
      else
        reader ← createInputReader name;
        let '(n, m, _) := read_all reader (fun _ => 0) 0 n_bytes in
        Ok (mkMmap m n_bytes n)
  end.

Definition init_ram (fuel : nat) (image : option string) (ram_size : Z) : M MmapMemory :=
  load_image fuel image ram_size.

(** A file over the start of the memory. *)
Definition overwrite_ram (gcpt_restore : string) (overwrite_nbytes : Z) (sim : MmapMemory) : M MmapMemory :=
  match files gcpt_restore with
  | None => Err AssertFailed
  | Some content =>
      let '(_, m, _) := read_all (newFileReader content) (ram sim) 0 overwrite_nbytes in
      Ok (mkMmap m (memory_size sim) (img_size sim))
  end.
End image.

(** ** Names are read back *)

Lemma append_cons c s t : String c s +:+ t = String c (s +:+ t).
Proof. done. Qed.

Lemma hex_run n x acc rest : 0 <= x -> starts_hex rest = false ->
  hex_digits (hex_text n x +:+ rest) acc = hex_digits (hex_text n x) acc /\
  skip_hex (hex_text n x +:+ rest) = rest.
Proof.
  intros Hx Hr. revert acc. induction n as [|n IH]; intros acc.
  - change (hex_text 0 x +:+ rest) with rest. destruct rest as [|c rest]; [done|]. cbn [hex_digits skip_hex hex_text].
    unfold starts_hex in Hr. by destruct (hex_digit c); case_bool_decide.
  - rewrite hex_text_head, append_cons. cbn [hex_digits skip_hex].
    rewrite (proj1 (hex_char_facts (_ mod 16) ltac:(by apply Z.mod_pos_bound))). apply IH.
Qed.

(** Sixteen digits in front of something else. *)
Lemma strtoul16_text x rest : 0 <= x < 2 ^ 64 -> starts_hex rest = false ->
  strtoul16 (hex_text 16 x +:+ rest) = (x, rest).
Proof.
  intros Hx Hr. pose proof (hex_digits_text 16 x 0 ltac:(lia)) as E.
  destruct (hex_run 16 x 0 rest ltac:(lia) Hr) as [E1 E2]. rewrite E in E1.
  unfold strtoul16. rewrite (hex_text_head 15), (hex_text_head 14), !append_cons in *.
  set (t := hex_text 14 x +:+ rest) in *. set (d1 := x / 16 ^ Z.of_nat 15 mod 16) in *. set (d2 := x / 16 ^ Z.of_nat 14 mod 16) in *.
  destruct (hex_char_facts d1) as (F0 & F1 & F2 & F3 & _); [by apply Z.mod_pos_bound|].
  destruct (hex_char_facts d2) as (_ & _ & _ & _ & F4 & F5 & _); [by apply Z.mod_pos_bound|].
  cbn [strtoul_from]. rewrite F1, F2, F3.
  assert (hex_prefix (String (hex_char d1) (String (hex_char d2) t)) = String (hex_char d1) (String (hex_char d2) t))
    as -> by (cbn [hex_prefix]; rewrite F4, F5, andb_false_r; by destruct t).
  cbn [starts_hex]. rewrite F0. rewrite bool_decide_true by done. rewrite E1, E2.
  change (16 ^ Z.of_nat 16) with (2 ^ 64). rewrite Z.mod_small by done. unfold clamp64. f_equal. lia.
Qed.

Lemma wim_name a n : 0 < a < 2 ^ 64 -> a mod 8 = 0 -> 0 <= n < 2 ^ 64 ->
  is_wim ("wim@" +:+ (hex_text 16 a +:+ String "+" (hex_text 16 n))) = Some (a, n).
Proof.
  intros Ha Hm Hn. unfold is_wim. set (t := hex_text 16 a +:+ _).
  change (after_at ("wim@" +:+ t)) with (Some t). cbv iota.
  rewrite (bool_decide_true (_ = "wim")) by (by destruct t). cbn [negb]. subst t.
  rewrite strtoul16_text by (done || lia). rewrite Hm. cbn [Z.eqb negb].
  replace (hex_text 16 n) with (hex_text 16 n +:+ "") by apply append_empty. rewrite strtoul16_text by done.
  by rewrite (proj2 (Z.eqb_neq a 0)) by lia.
Qed.

(** The form the comment in the source gives is taken for the name of a file. *)
Lemma wim_comma : is_wim "wim@80000000,1000" = None /\ is_wim "wim@80000000+1000" = Some (0x80000000, 0x1000).
Proof. done. Qed.

(** ** The formats agree *)

Lemma load_of_bytes l m a : (forall i, 0 <= i < Z.of_nat (length l) -> m (a + i) = l !!! Z.to_nat i) ->
  load_le (length l) m a = of_bytes l.
Proof.
  revert a. induction l as [|b l IH]; intros a Hl; [done|]. cbn [length load_le of_bytes]. f_equal.
  - rewrite <- (Z.add_0_r a), Hl by (simpl; lia). done.
  - rewrite IH; [done|]. intros i Hi. replace (a + 1 + i) with (a + (1 + i)) by lia.
    rewrite Hl by (cbn [length]; lia). by replace (Z.to_nat (1 + i)) with (S (Z.to_nat i)) by lia.
Qed.

(** The words of the image, as the Verilog side sees them.  [stray] stands in the place of a zero word
    at the start of each chunk of 16384 words after the first. *)
Definition image_word (c : list Z) (idx : Z) : Z := of_bytes (take 8 (drop (Z.to_nat (8 * idx)) c)).
Definition shows (stray : Z) (c : list Z) (m : MmapMemory) : Prop :=
  img_size m = Z.of_nat (length c) /\
  forall idx, 0 <= idx -> 8 * idx + 8 <= Z.of_nat (length c) ->
    difftest_ram_read idx (Some m) =
    Ok (if (0 <? idx) && (idx mod chunk_size =? 0) && (image_word c idx =? 0) then stray else image_word c idx, Some m).

Lemma read_word m idx v : 0 <= idx -> 8 * idx + 8 <= memory_size m < 2 ^ 63 -> load64 (ram m) (8 * idx) = v ->
  difftest_ram_read idx (Some m) = Ok (v, Some m).
Proof.
  intros H0 H1 <-. unfold difftest_ram_read. cbn [get_size at_ mmap_memory].
  destruct (Z.eqb_spec (memory_size m / 8) 0); [dlia|]. by rewrite (wrapU_small 64), Z.mod_small by dlia.
Qed.

Lemma image_word_load c idx : 0 <= idx -> 8 * idx + 8 <= Z.of_nat (length c) -> load64 (image_at c) (8 * idx) = image_word c idx.
Proof.
  intros H0 H1. unfold image_word. set (l := take 8 _). assert (length l = 8%nat) as Hl by (subst l; rewrite length_take, length_drop; lia).
  rewrite <- Hl. apply load_of_bytes. intros i Hlt. rewrite Hl in Hlt. unfold image_at, image_size. range_cases; [|lia]. subst l.
  rewrite lookup_total_take_lt, lookup_total_drop by lia. apply (f_equal (fun k => c !!! k)). lia.
Qed.

Lemma shows_plain c m : (forall a, 0 <= a < Z.of_nat (length c) -> ram m a = image_at c a) ->
  Z.of_nat (length c) <= memory_size m < 2 ^ 63 -> img_size m = Z.of_nat (length c) -> shows 0 c m.
Proof.
  intros Hb Hs Hi. split; [done|]. intros idx H0 H1. apply read_word; [done|lia|].
  transitivity (image_word c idx).
  - rewrite <- image_word_load by done. apply load_le_ext. intros i Hi'. apply Hb. lia.
  - destruct (Z.eqb_spec (image_word c idx) 0) as [->|]; [by destruct (_ && _)|]. by rewrite andb_false_r.
Qed.

Lemma shows_loaded c page m n_bytes : loaded c page m -> Z.of_nat (length c) <= n_bytes < 2 ^ 63 ->
  shows (stray page) c (mkMmap m n_bytes (Z.of_nat (length c))).
Proof.
  intros (Hm & _) Hs. split; [done|]. intros idx H0 H1. apply read_word; [done|cbn [memory_size]; lia|]. cbn [ram].
  assert (forall i, 0 <= i < 8 -> m (8 * idx + i) = expected c page (8 * idx + i)) as He.
  { intros i Hi. apply Hm; [lia|]. unfold image_size. dlia. }
  assert (page_bytes = 131072 /\ chunk_size = 16384) as [EP EC] by done.
  assert (forall i, 0 <= i < 8 -> stray_at c (8 * idx + i) = (0 <? idx) && (idx mod chunk_size =? 0) && (image_word c idx =? 0)) as Hst.
  { intros i Hi. unfold stray_at. replace (8 * ((8 * idx + i) / 8)) with (8 * idx) by dlia. rewrite image_word_load by done.
    f_equal. apply eq_true_iff_eq. rewrite !andb_true_iff, Z.leb_le, !Z.ltb_lt, Z.eqb_eq. dlia. }
  unfold expected in He. destruct (_ && _).
  - apply load_le_ext. intros i Hi. change (Z.of_nat 8) with 8 in Hi. rewrite He, Hst by lia. f_equal. dlia.
  - rewrite <- image_word_load by done. apply load_le_ext. intros i Hi. change (Z.of_nat 8) with 8 in Hi. by rewrite He, Hst by lia.
Qed.

Lemma magic_differs content : isZstdFile content = true -> isGzFile content = false /\ Z.of_nat (length content) <> 0.
Proof.
  unfold isZstdFile, isGzFile. case_bool_decide as E; [|done]. intros _. split; [|by destruct content].
  apply bool_decide_eq_false. intros E2. apply (f_equal (take 2)) in E. rewrite take_take in E.
  change (2 `min` 4)%nat with 2%nat in E. by rewrite E2 in E.
Qed.

(** How a file can hold the image [c], compressed or not. *)
Inductive holds {G} `{ChunkLaws G} (gzopen zstdopen : list Z -> option G) (buf : list Z) (name : string) (c content : list Z)
    : bool -> Prop :=
| holds_plain : content = c -> is_stdin name = false -> is_wim name = None -> isGzFile c = false ->
    isZstdFile c = false -> isElfFile c buf = false -> holds gzopen zstdopen buf name c content false
| holds_gz g : isGzFile content = true -> gzopen content = Some g -> to_come g = Some c ->
    holds gzopen zstdopen buf name c content true
| holds_zstd g : isZstdFile content = true -> zstdopen content = Some g -> to_come g = Some c ->
    holds gzopen zstdopen buf name c content true.

(** C14: An image is loaded from each of the formats that are not linked: from a plain file, from gzip,
    and from a single frame of zstd, into a memory with at least a word to spare, the constructor succeeds,
    the size of the image is its own, and the Verilog side reads its words.  The compressed formats have
    one exception: where the image has a zero word at the start of a chunk of 128 KiB after the first,
    the memory has the word that happens to lie behind the reader's page. *)
Theorem image_formats {G} `{ChunkLaws G} files input host gzopen zstdopen gzclose page buf fuel name content c n_bytes compressed :
  Forall (fun b => 0 <= b < 256) c -> 0 < n_bytes < 2 ^ 63 -> Z.of_nat (length c) + 8 <= n_bytes ->
  n_bytes mod chunk_size = 0 -> wf_mem page ->
  (forall g, to_come g = Some [] -> gzclose g = 0) -> (chunk_fuel (image_size c) <= fuel)%nat ->
  files name = Some content -> holds gzopen zstdopen buf name c content compressed ->
  exists m, load_image files input host gzopen zstdopen gzclose page buf fuel (Some name) n_bytes = Ok m /\
    memory_size m = n_bytes /\ shows (if compressed then stray page else 0) c m.
Proof.
  intros Hbytes Hbuf Hsize Hmod Hp Hclose Hf Hfile Hh.
  assert (image_fits c n_bytes page) as fits by (split; [done|done|done|unfold image_size; lia|by left]).
  unfold load_image. rewrite Hfile. change (default [] (Some content)) with content. cbv zeta.
  assert (forall g, to_come g = Some c -> exists m g', load_chunks fuel n_bytes 0 (fun _ => 0) page g = Ok (m, Some (Z.of_nat (length c), g')) /\
    to_come g' = Some [] /\ readFromGz fuel (fun _ => 0) page (Some g) gzclose n_bytes LOAD_RAM = Ok (Z.of_nat (length c), m) /\
    shows (stray page) c (mkMmap m n_bytes (Z.of_nat (length c)))) as Hload.
  { intros g Hg. destruct (gz_loads g c gzclose page n_bytes LOAD_RAM fuel) as (m & g' & E & Hm & Hg' & Er); try done.
    exists m, g'. split; [done|]. split; [done|]. split; [done|]. apply shows_loaded; [done|lia]. }
  rewrite (wrapS_small 64 n_bytes) by lia. assert (u64 (Z.of_nat (length c)) = Z.of_nat (length c)) as Eu by (apply wrapU_small; lia).
  destruct Hh as [Ec Hn1 Hn2 Hg1 Hg2 Hg3|g Hg Eg Hc|g Hg Eg Hc].
  - subst content. rewrite Hg1, Hg2, Hg3. unfold createInputReader. rewrite Hn1, Hn2, Hfile. cbn [mbind res_bind read_all any_reader file_reader].
    unfold newFileReader. cbn [file file_size]. rewrite (proj2 (Z.ltb_ge n_bytes _)) by lia.
    eexists. split; [done|]. split; [done|]. apply shows_plain; [|cbn [memory_size]; lia|done].
    intros a Ha. cbn [ram]. rewrite Nat2Z.id, firstn_all, put_bytes_lookup.
    pose proof (wf_image c Hbytes a) as Hw. unfold image_at, image_size in *. range_cases; [|lia]. rewrite Z.sub_0_r. by apply (wrapU_small 8).
  - destruct (Hload g Hc) as (m & g' & _ & _ & Er & Hs). rewrite Hg, Eg, Er. cbn [mbind res_bind].
    rewrite Eu. eexists. split; [done|]. by split.
  - destruct (Hload g Hc) as (m & g' & E & Hg' & _ & Hs). destruct (magic_differs content Hg) as [-> Hl].
    rewrite Hg, Eg, (zstd_loads g g' m page n_bytes LOAD_RAM fuel (Z.of_nat (length c))) by (done || lia).
    cbn [mbind res_bind]. rewrite Eu. eexists. split; [done|]. by split.
Qed.

(** An image of nine bytes, plain and compressed by libraries that only add their magic numbers; the
    one for zstd delivers frame by frame. *)
Definition nine : list Z := [1; 2; 3; 4; 5; 6; 7; 8; 9].
Definition nine_files (name : string) : option (list Z) :=
  if bool_decide (name = "a.bin") then Some nine
  else if bool_decide (name = "a.gz") then Some (0x1f :: 0x8b :: nine) else Some (0x28 :: 0xb5 :: 0x2f :: 0xfd :: nine).
Definition load_nine (name : string) : M MmapMemory :=
  load_image nine_files [] (fun _ => 0) (fun l => Some [drop 2 l]) (fun l => Some [drop 4 l])
    (fun _ => 0) (fun _ => 7) [] 2 (Some name) 16384.

Lemma image_formats_witness : exists m1 m2 m3,
  load_nine "a.bin" = Ok m1 /\ load_nine "a.gz" = Ok m2 /\ load_nine "a.zst" = Ok m3 /\
  shows 0 nine m1 /\ shows 0x0707070707070707 nine m2 /\ shows 0x0707070707070707 nine m3.
Proof.
  pose proof (fun name content compressed => image_formats (G := list (list Z)) nine_files [] (fun _ => 0)
    (fun l => Some [drop 2 l]) (fun l => Some [drop 4 l]) (fun _ => 0) (fun _ => 7) [] 2 name content nine 16384 compressed
    ltac:(repeat constructor; lia) ltac:(lia) ltac:(simpl; lia) eq_refl ltac:(intros a; lia) ltac:(done)
    ltac:(change (chunk_fuel _) with 2%nat; lia)) as H.
  destruct (H "a.bin" nine false eq_refl) as (m1 & E1 & _ & S1); [by apply holds_plain|].
  destruct (H "a.gz" (0x1f :: 0x8b :: nine) true eq_refl) as (m2 & E2 & _ & S2); [by eapply holds_gz|].
  destruct (H "a.zst" (0x28 :: 0xb5 :: 0x2f :: 0xfd :: nine) true eq_refl) as (m3 & E3 & _ & S3); [by eapply holds_zstd|].
  exists m1, m2, m3. split; [exact E1|]. split; [exact E2|]. split; [exact E3|]. split; [exact S1|]. split; [exact S2|exact S3].
Defined.
