(* ===== verification/Emulator.v ===== *)
(** * The emulator

    [src/main/resources/csrc/emulator.cc]: the reset schedule, the main loop around the Verilated
    design, its outcome, the size of the memory and the chunks of the fast loader;
    [remote_bitbang.cc] and [SimJTAG.cc]: the JTAG pins driven over a socket.

    The design is a parameter.  It reaches its environment only through the DPI calls of [ram.cc],
    so an evaluation of it is a tree of such calls ([dpi]).  The front-end server, the
    results of the socket calls and the number of DRAM cycles per turn of the loop are parameters
    too.  Tracing, throttling and option parsing by [getopt_long] are left out. *)
From S2P Require Import Prelude DramCommon Memory DramSystem Cosim SimRam Comlog ElfLoader.
From Stdlib Require Import Ascii.
From stdpp Require Import strings gmap.
Local Open Scope string_scope.
Local Open Scope list_scope.
Local Open Scope Z_scope.

(** ** The size of the memory *)

(** [sscanf(s, "%ld%s", &value, unit)]: the value if there are digits, and the word behind them. *)
Fixpoint take_word (s : string) : string :=
  match s with
  | String c rest => if is_space c then "" else String c (take_word rest)
  | EmptyString => ""
  end.
Fixpoint skip_space (s : string) : string :=
  match s with
  | String c rest => if is_space c then skip_space rest else s
  | EmptyString => ""
  end.
Fixpoint skip_digits (s : string) : string :=
  match s with
  | String c rest => match digit_of c with Some _ => skip_digits rest | None => s end
  | EmptyString => ""
  end.
Definition starts_digit (s : string) : bool :=
  match s with String c _ => bool_decide (digit_of c <> None) | EmptyString => false end.

Definition sscanf_size (s : string) : option (Z * string) :=
  let s := skip_space s in
  let '(negative, s) :=
    match s with
    | String "-" rest => (true, rest) | String "+" rest => (false, rest) | _ => (false, s)
    end in
  if starts_digit s then
    let x := digits s 0 in
    Some (if (negative : bool) then - x else x, take_word (skip_space (skip_digits s)))
  else None.

(** [unit0] is what the buffer for the unit holds before. *)
Definition parse_and_update_ramsize (unit0 arg : string) : M Z :=
  let '(value, unit_) :=
    match sscanf_size arg with
    | Some (v, "") => (u64 v, unit0) | Some (v, u) => (u64 v, u) | None => (0, unit0)
    end in
  if value <=? 0 then Err AssertFailed
  else if bool_decide (unit_ = "GB") || bool_decide (unit_ = "gb") then Ok (u64 (value * 1024 * 1024 * 1024))
  else if bool_decide (unit_ = "MB") || bool_decide (unit_ = "mb") then Ok (u64 (value * 1024 * 1024))
  else Ok 0.

(** ** The fast loader *)

(** [fastload_memif_t]: chunks of the target's memory, whose first word is at [base]. *)
Section fastload.
Context (base : Z).

Definition chunk_ok_ (taddr len : Z) : bool := (len mod 8 =? 0) && (taddr mod 8 =? 0).
Definition word_at (taddr : Z) : Z := 8 * (u64 (taddr - base) / 8).

Definition memif_read_chunk (m : mem) (taddr len : Z) : M (list Z) :=
  if negb (chunk_ok_ taddr len) then Err Aborted else Ok (get_bytes m (word_at taddr) len).
Definition memif_write_chunk (m : mem) (taddr len : Z) (src : list Z) : M mem :=
  if negb (chunk_ok_ taddr len) then Err Aborted
  else Ok (put_bytes m (word_at taddr) (take (Z.to_nat len) src)).
Definition memif_clear_chunk (m : mem) (taddr len : Z) : M mem :=
  if negb (chunk_ok_ taddr len) then Err Aborted
  else Ok (put_bytes m (word_at taddr) (replicate (Z.to_nat len) 0)).
End fastload.

(** ** The design and its calls *)

(** A computation of the design between calls of [memory_request], [memory_response],
    [difftest_ram_read] and [difftest_ram_write]. *)
Inductive dpi (A : Type) :=
| Done (a : A)
| Request (address id : Z) (isWrite : bool) (k : bool -> dpi A)
| Response (isWrite : bool) (k : Z -> dpi A)
| Read (rIdx : Z) (k : Z -> dpi A)
| Write (wIdx wdata wmask : Z) (k : dpi A).
Arguments Done {A}.
Arguments Request {A}.
Arguments Response {A}.
Arguments Read {A}.
Arguments Write {A}.

Section emulator.
Context {C : Type} `{CoDRAMsim3 C}.

(** The globals of [ram.cc]. *)
Record Env := mkEnv { bridge : Bridge C; simMemory : option MmapMemory }.

(** The calls made, with the requests that were accepted, in order. *)
Fixpoint run_dpi {A} (p : dpi A) (e : Env) : M (A * Env * list (Z * Z * bool)) :=
  match p with
  | Done a => Ok (a, e, [])
  | Request address id isWrite k =>
      '(ok, b) ← memory_request address id isWrite (bridge e);
      '(a, e, l) ← run_dpi (k ok) (mkEnv b (simMemory e));
      Ok (a, e, if (ok : bool) then (address, id, isWrite) :: l else l)
  | Response isWrite k =>
      let '(v, b) := memory_response isWrite (bridge e) in
      run_dpi (k v) (mkEnv b (simMemory e))
  | Read rIdx k =>
      '(v, sim) ← difftest_ram_read rIdx (simMemory e);
      run_dpi (k v) (mkEnv (bridge e) sim)
  | Write wIdx wdata wmask k =>
      run_dpi k (mkEnv (bridge e) (difftest_ram_write wIdx wdata wmask (simMemory e)))
  end.

(** ** The main loop *)

Definition async_reset_cycles : Z := 2.
Definition sync_reset_cycles : Z := 150.

(** [tile->reset] and [done_reset] in turn [trace_count]. *)
Definition reset_at (trace_count : Z) : bool :=
  if trace_count <? async_reset_cycles * 2 then trace_count mod 2 =? 1
  else trace_count <? async_reset_cycles * 2 + sync_reset_cycles.
Definition done_reset_at (trace_count : Z) : bool :=
  async_reset_cycles * 2 + sync_reset_cycles <=? trace_count.

Context {T : Type} (eval : bool -> bool -> T -> dpi T) (io_success : T -> bool).
Context (dtm_done jtag_done : Z -> bool) (dram_cycles : Z -> nat).

(** [done_reset] is false before the first turn. *)
Record Emulator := mkEmulator {
  tile : T; env : Env; trace_count : Z; done_reset : bool;
  accepted : list (Z * (Z * Z * bool)) }.

(** One turn: the two evaluations of the design with the clock low and high, and a step of the
    DRAM. *)
Definition turn (s : Emulator) : M Emulator :=
  let t := trace_count s in
  '(x, e, l) ← run_dpi (eval false (reset_at t) (tile s)) (env s);
  '(x, e, l') ← run_dpi (eval (async_reset_cycles * 2 <=? t) (reset_at t) x) e;
  b ← dramsim3_step (dram_cycles t) (bridge e);
  Ok (mkEmulator x (mkEnv b (simMemory e)) (u64 (t + 1)) (done_reset_at t)
        (accepted s ++ ((fun r => (t, r)) <$> l ++ l'))).

Definition finished (s : Emulator) : bool :=
  done_reset s && (dtm_done (trace_count s) || jtag_done (trace_count s) || io_success (tile s)).

Fixpoint run (fuel : nat) (max_cycles : Z) (s : Emulator) : M Emulator :=
  match fuel with
  | O => NoFuel
  | S fuel =>
      if trace_count s <? max_cycles then
        if finished s then Ok s else s ← turn s; run fuel max_cycles s
      else Ok s
  end.

(** The value [main] returns. *)
Definition exit_status (dtm_exit jtag_exit max_cycles : Z) (s : Emulator) : Z :=
  if negb (dtm_exit =? 0) then dtm_exit
  else if negb (jtag_exit =? 0) then jtag_exit
  else if trace_count s =? max_cycles then 2
  else 0.

(** From [init_ram] and [dramsim3_init] on. *)
Definition emulate (fuel : nat) (max_cycles dtm_exit jtag_exit : Z) (c : C) (sim : option MmapMemory) (x : T)
    : M (Z * Emulator) :=
  b ← dramsim3_init c (mkBridge None 0 ∅ ∅);
  s ← run fuel max_cycles (mkEmulator x (mkEnv b sim) 0 false []);
  Ok (exit_status dtm_exit jtag_exit max_cycles s, s).
End emulator.
Arguments Env C : clear implicits.
Arguments Emulator C T : clear implicits.

(** ** JTAG over a socket *)

(** [remote_bitbang_t].  The receive buffer is never used. *)
Record remote_bitbang_t := mkRbb {
  tck : Z; tms : Z; tdi : Z; trstn : Z; tdo : Z; quit : Z; client_fd : Z; err : Z }.


(** What the calls of [accept], [read] and [write] on the sockets give, in order, and the
    characters sent.  [AcceptAgain] and [ReadAgain] are [EAGAIN], [ReadZero] is the end of a stream
    that the client has closed. *)
Inductive accept_result := Accepted (fd : Z) | AcceptAgain | AcceptFailed.
Inductive read_result := ReadByte (c : ascii) | ReadZero | ReadAgain | ReadFailed.
Record Sockets := mkSockets {
  accepts : list accept_result; reads : list read_result; writes : list Z; sent : list ascii }.

(** The loops around the calls.  They end only with the call that makes them end: [NoFuel] says
    that none of the results given does. *)
Fixpoint accept_loop (l : list accept_result) : M (Z * list accept_result) :=
  match l with
  | [] => NoFuel
  | Accepted fd :: l => Ok (fd, l)
  | AcceptAgain :: l => accept_loop l
  | AcceptFailed :: _ => Err Aborted
  end.
Fixpoint read_loop (l : list read_result) : M (ascii * list read_result) :=
  match l with
  | [] => NoFuel
  | ReadByte command :: l => Ok (command, l)
  | ReadZero :: l | ReadAgain :: l => read_loop l
  | ReadFailed :: _ => Err Aborted
  end.
Fixpoint write_loop (l : list Z) : M (list Z) :=
  match l with
  | [] => NoFuel
  | bytes :: l =>
      if bytes =? -1 then Err Aborted else if 0 <? bytes then Ok l else write_loop l
  end.

Definition set_pins (_tck _tms _tdi : Z) (r : remote_bitbang_t) : remote_bitbang_t :=
  mkRbb _tck _tms _tdi (trstn r) (tdo r) (quit r) (client_fd r) (err r).

(** The assignment to [trstn] is commented out. *)
Definition rbb_reset (r : remote_bitbang_t) : remote_bitbang_t := r.

(** The [switch] on the command: the pins, and the character to send. *)
Definition rbb_switch (command : ascii) (r : remote_bitbang_t) : remote_bitbang_t * option ascii :=
  match command with
  | "B"%char | "b"%char => (r, None)
  | "r"%char => (rbb_reset r, None)
  | "0"%char => (set_pins 0 0 0 r, None)
  | "1"%char => (set_pins 0 0 1 r, None)
  | "2"%char => (set_pins 0 1 0 r, None)
  | "3"%char => (set_pins 0 1 1 r, None)
  | "4"%char => (set_pins 1 0 0 r, None)
  | "5"%char => (set_pins 1 0 1 r, None)
  | "6"%char => (set_pins 1 1 0 r, None)
  | "7"%char => (set_pins 1 1 1 r, None)
  | "R"%char => (r, Some (if tdo r =? 0 then "0"%char else "1"%char))
  | "Q"%char => (mkRbb (tck r) (tms r) (tdi r) (trstn r) (tdo r) 1 (client_fd r) (err r), None)
  | _ => (r, None)
  end.

Definition execute_command (r : remote_bitbang_t) (k : Sockets) : M (remote_bitbang_t * Sockets) :=
  '(command, rd) ← read_loop (reads k);
  let '(r, tosend) := rbb_switch command r in
  k ← match tosend with
      | Some c =>
          wr ← write_loop (writes k);
          Ok (mkSockets (accepts k) rd wr (sent k ++ [c]))
      | None => Ok (mkSockets (accepts k) rd (writes k) (sent k))
      end;
  Ok (if quit r =? 0 then r
      else mkRbb (tck r) (tms r) (tdi r) (trstn r) (tdo r) (quit r) 0 (err r), k).

(** A tick.  Without a client it waits for one; with a client it waits for a command. *)
Definition rbb_tick (jtag_tdo : Z) (r : remote_bitbang_t) (k : Sockets)
    : M (remote_bitbang_t * Sockets) :=
  if 0 <? client_fd r then
    execute_command (mkRbb (tck r) (tms r) (tdi r) (trstn r) jtag_tdo (quit r) (client_fd r) (err r)) k
  else
    '(fd, ac) ← accept_loop (accepts k);
    Ok (mkRbb (tck r) (tms r) (tdi r) (trstn r) (tdo r) (quit r) fd (err r),
        mkSockets ac (reads k) (writes k) (sent k)).


(** ** The gate of the bridge *)

Section gate.
Context {C : Type} `{CoDRAMsim3 C}.

Lemma memory_request_gate a id w ok (b b' : Bridge C) : memory_request a id w b = Ok (ok, b') ->
  dram_step_count b' = dram_step_count b /\ (ok = true -> DRAM_RESET_SETTLE_TICKS <= dram_step_count b).
Proof.
  unfold memory_request. destruct (dram b) as [c|]; [|by intros [= <- <-]].
  destruct (Z.ltb_spec (dram_step_count b) DRAM_RESET_SETTLE_TICKS); [by intros [= <- <-]|].
  destruct (bool_decide _); [by intros [= <- <-]|]. destruct (will_accept c _ _) as [[]| |]; try done; cbn [mbind res_bind].
  - destruct (add_request c _) as [[x c']| |]; try done. cbn [mbind res_bind]. intros [= <- <-]. split; [by destruct w|done].
  - by intros [= <- <-].
Qed.

Lemma memory_response_gate w v (b b' : Bridge C) : memory_response w b = (v, b') ->
  dram_step_count b' = dram_step_count b.
Proof.
  unfold memory_response. destruct (dram b) as [c|]; [|by intros [= <- <-]].
  destruct (check_response w c) as [[x|] c']; intros [= <- <-]; by destruct w.
Qed.

Lemma dramsim3_step_count n (b b' : Bridge C) c : dram b = Some c -> dramsim3_step n b = Ok b' ->
  dram_step_count b' = u64 (dram_step_count b + 1).
Proof.
  intros E. unfold dramsim3_step. rewrite E. destruct (tick n c) as [c'| |]; try done. cbn [mbind res_bind]. by intros [= <-].
Qed.
End gate.

(** ** The design runs *)

Section running.
Context {C : Type} `{CoDRAMLaws C}.

(** The memory holds a word at least. *)
Definition sim_ok (sim : option MmapMemory) : Prop :=
  match sim with Some m => 8 <= memory_size m | None => True end.

Definition tag_of_call (r : Z * Z * bool) : bool * Z := (r.2, u32 r.1.2).

(** What an evaluation of the design keeps: the environment is sound, with the tags it took. *)
Record env_ok (taken : list (bool * Z)) (e : Env C) (c : C) : Prop := {
  ev_bridge : bridge_inv (bridge e) c;
  ev_sim : sim_ok (simMemory e);
  ev_reach : exists given, bridge_reach (bridge e) taken given }.

Lemma run_dpi_ok {A} (p : dpi A) taken e c : env_ok taken e c ->
  exists a e' l c', run_dpi p e = Ok (a, e', l) /\ env_ok (rev (tag_of_call <$> l) ++ taken) e' c' /\
    co_time c' = co_time c /\ dram_step_count (bridge e') = dram_step_count (bridge e) /\
    (l <> [] -> DRAM_RESET_SETTLE_TICKS <= dram_step_count (bridge e)).
Proof.
  revert taken e c. induction p as [a|a id w k IH|w k IH|i k IH|i d msk k IH]; intros taken e c [E1 E2 [given E3]]; cbn [run_dpi].
  - exists a, e, [], c. split_and!; try done. by split; eauto.
  - destruct (memory_request_ok a id w _ _ E1) as (ok & b' & c' & E & Hb & Ht & _). rewrite E. cbn [mbind res_bind].
    destruct (memory_request_gate _ _ _ _ _ _ E) as [Hc Hg].
    destruct (IH ok (if ok then (w, u32 id) :: taken else taken) (mkEnv b' (simMemory e)) c') as (x & e' & l & c2 & -> & He & Ht2 & Hc2 & Hg2).
    { split; [done|done|]. exists given. by eapply br_request. }
    cbn [bridge] in *. rewrite Hc in *. cbn [mbind res_bind]. eexists _, _, _, c2. split; [done|].
    split; [|split; [lia|split; [done|destruct ok; auto]]].
    destruct ok; [|done]. cbn [fmap list_fmap rev]. rewrite <- (assoc_L (++)). done.
  - destruct (memory_response w (bridge e)) as [v b'] eqn:E. pose proof (memory_response_gate _ _ _ _ E) as Hc.
    assert (exists c', bridge_inv b' c' /\ co_time c' = co_time c) as (c' & Hb & Ht).
    { destruct (memory_response_ok w _ _ E1) as [E'|(b1 & c' & r & E' & Hb & Ht & _)]; rewrite E in E'; injection E' as -> ->; eauto. }
    destruct (IH v taken (mkEnv b' (simMemory e)) c') as (x & e' & l & c2 & -> & He & Ht2 & Hc2 & Hg2).
    { split; [done|done|]. eexists. by eapply br_response. }
    cbn [bridge] in *. rewrite Hc in *. exists x, e', l, c2. split_and!; try done. lia.
  - assert (exists v, difftest_ram_read i (simMemory e) = Ok (v, simMemory e)) as [v ->].
    { unfold difftest_ram_read, sim_ok in *. destruct (simMemory e) as [m|]; [|eauto]. cbn [get_size at_ mmap_memory].
      destruct (Z.eqb_spec (memory_size m / 8) 0); [dlia|]. eauto. }
    cbn [mbind res_bind]. destruct e as [b sim]. apply IH. by split; eauto.
  - destruct (IH taken (mkEnv (bridge e) (difftest_ram_write i d msk (simMemory e))) c) as (x & e' & l & c2 & -> & He & Ht2 & Hc2 & Hg2); [|eauto 10].
    split; [done| |eauto]. unfold difftest_ram_write, sim_ok in *. cbn [simMemory]. destruct (simMemory e) as [m|]; [|done].
    by destruct (negb _).
Qed.

Context {T : Type} (eval : bool -> bool -> T -> dpi T) (io_success : T -> bool).
Context (dtm_done jtag_done : Z -> bool) (dram_cycles : Z -> nat).

(** Where the loop can be, with the tags taken so far. *)
Record emulator_ok (s : Emulator C T) (c : C) : Prop := {
  em_env : env_ok (rev (tag_of_call <$> (accepted s).*2)) (env s) c;
  em_time : 0 <= trace_count s < 2 ^ 64;
  em_count : dram_step_count (bridge (env s)) = trace_count s;
  em_accepted : Forall (fun x => DRAM_RESET_SETTLE_TICKS <= x.1 < trace_count s) (accepted s);
  em_reset : done_reset s = true -> done_reset_at (trace_count s - 1) = true }.

Lemma turn_ok s c : emulator_ok s c -> trace_count s + 1 < 2 ^ 64 ->
  co_time c + Z.of_nat (dram_cycles (trace_count s)) <= co_horizon C ->
  exists s' c', turn eval dram_cycles s = Ok s' /\ emulator_ok s' c' /\ trace_count s' = trace_count s + 1 /\
    co_time c' <= co_time c + Z.of_nat (dram_cycles (trace_count s)).
Proof.
  intros [M1 M2 M3 M4 M5] Ht Hh. unfold turn.
  destruct (run_dpi_ok (eval false (reset_at (trace_count s)) (tile s)) _ _ _ M1) as (x & e & l & c1 & -> & He & Ht1 & Hc1 & Hg1).
  cbn [mbind res_bind].
  destruct (run_dpi_ok (eval (async_reset_cycles * 2 <=? trace_count s) (reset_at (trace_count s)) x) _ _ _ He)
    as (x' & e' & l' & c2 & -> & He' & Ht2 & Hc2 & Hg2). cbn [mbind res_bind].
  destruct (dramsim3_step_ok (dram_cycles (trace_count s)) (bridge e') c2 (ev_bridge _ _ _ He')) as (b & c3 & E & Hb & Ht3 & _); [lia|].
  rewrite E. cbn [mbind res_bind]. eexists _, c3. split; [done|].
  pose proof (dramsim3_step_count _ _ _ _ (bi_dram _ _ (ev_bridge _ _ _ He')) E) as Hc3.
  rewrite Hc2, Hc1, M3 in *. rewrite (wrapU_small 64) in * by lia.
  split; [|split; [done|lia]]. destruct He' as [V1 V2 [given V3]]. split; cbn [accepted env bridge trace_count done_reset].
  - split; [done|done|]. exists given. cbn [bridge].
    eapply br_step; [|apply (bi_dram _ _ V1)| |exact E]; [|lia].
    rewrite !fmap_app, !rev_app_distr, <- (assoc_L (++)).
    assert (forall l0 : list (Z * Z * bool), ((fun r => (trace_count s, r)) <$> l0).*2 = l0) as Hsnd.
    { induction l0 as [|r l0 IH]; simpl; [done|]. by f_equal. }
    rewrite !Hsnd. done.
  - lia.
  - done.
  - apply Forall_app. split; [eapply Forall_impl; [exact M4|]; simpl; intros; lia|].
    apply Forall_fmap, Forall_forall. intros r Hr. simpl. split; [|lia].
    destruct l; [|by apply Hg1]. destruct l'; [by apply not_elem_of_nil in Hr|]. by apply Hg2.
  - intros Hd. by replace (trace_count s + 1 - 1) with (trace_count s) by lia.
Qed.

(** The loop ends: at the limit, or because something is done. *)
Lemma run_ok K fuel max_cycles s c : (forall t, Z.of_nat (dram_cycles t) <= K) ->
  emulator_ok s c -> trace_count s <= max_cycles < 2 ^ 64 -> max_cycles - trace_count s < Z.of_nat fuel ->
  co_time c + K * (max_cycles - trace_count s) <= co_horizon C ->
  exists s' c', run eval io_success dtm_done jtag_done dram_cycles fuel max_cycles s = Ok s' /\ emulator_ok s' c' /\
    (trace_count s' = max_cycles \/
     trace_count s' < max_cycles /\ finished io_success dtm_done jtag_done s' = true).
Proof.
  intros HK. revert s c. induction fuel as [|fuel IH]; intros s c Hs Ht Hf Hh; [lia|]. cbn [run].
  destruct (Z.ltb_spec (trace_count s) max_cycles) as [Hlt|Hge].
  - destruct (finished _ _ _ s) eqn:Ef; [by exists s, c; eauto|].
    pose proof (HK (trace_count s)). assert (0 <= K) by lia.
    destruct (turn_ok s c Hs) as (s1 & c1 & -> & Hs1 & Et & Hc1); [lia|nia|]. cbn [mbind res_bind].
    apply (IH s1 c1); [done|lia|lia|]. rewrite Et. nia.
  - exists s, c. split; [done|]. split; [done|]. left. lia.
Qed.
End running.

(** C4: The emulator runs any design to an end.  Whatever calls the design makes, over a memory
    that holds a word and a DRAM model that keeps the promises of the co-simulation, and with at
    most [K] DRAM cycles per turn up to the horizon of its clock: the loop ends without the
    program being stopped; requests are only accepted in turns in which the reset schedule is
    over; the tags the bridge took are those of the accepted requests; and the program returns the
    exit codes of the front-end server or of JTAG, or 2 at the limit, or 0 when after the reset one of
    them or the design reports the end. *)
Theorem emulator_runs {C T} `{CoDRAMLaws C} (eval : bool -> bool -> T -> dpi T) io_success dtm_done jtag_done
    dram_cycles K fuel max_cycles dtm_exit jtag_exit c sim x :
  co_inv c -> in_flight c = [] -> sim_ok sim -> (forall t, Z.of_nat (dram_cycles t) <= K) ->
  0 <= max_cycles < 2 ^ 64 -> co_time c + K * max_cycles <= co_horizon C -> max_cycles < Z.of_nat fuel ->
  exists status s,
    emulate eval io_success dtm_done jtag_done dram_cycles fuel max_cycles dtm_exit jtag_exit c sim x = Ok (status, s) /\
    Forall (fun r => reset_at r.1 = false /\ done_reset_at r.1 = true) (accepted s) /\
    (exists given, bridge_reach (bridge (env s)) (rev (tag_of_call <$> (accepted s).*2)) given) /\
    status = (if negb (dtm_exit =? 0) then dtm_exit else if negb (jtag_exit =? 0) then jtag_exit
              else if trace_count s =? max_cycles then 2 else 0) /\
    (trace_count s = max_cycles \/
     trace_count s < max_cycles /\ done_reset_at (trace_count s) = true /\
     (dtm_done (trace_count s) = true \/ jtag_done (trace_count s) = true \/ io_success (tile s) = true)).
Proof.
  intros Hc Hf Hsim HK Hm Hh Hfuel. unfold emulate. cbn [dramsim3_init dram mbind res_bind].
  set (b := mkBridge (Some c) _ _ _).
  assert (bridge_reach b [] []) as Hr by (by eapply (br_init c)).
  destruct (bridge_reach_inv b [] [] Hr) as (c' & Hb & _). pose proof (bi_dram _ _ Hb) as Ec. injection Ec as <-.
  destruct (run_ok eval io_success dtm_done jtag_done dram_cycles K fuel max_cycles
    (mkEmulator x (mkEnv b sim) 0 false []) c) as (s & c1 & -> & [M1 M2 M3 M4 M5] & He); try done; cbn [trace_count]; try lia.
  { split; [split; [done|done|by exists []]|simpl; lia|done|constructor|done]. }
  cbn [mbind res_bind]. eexists _, s. split; [done|]. split; [|split; [|split; [done|]]].
  - eapply Forall_impl; [exact M4|]. intros r [Hr1 _]. unfold reset_at, done_reset_at, DRAM_RESET_SETTLE_TICKS, async_reset_cycles, sync_reset_cycles in *.
    rewrite !(proj2 (Z.ltb_ge _ _)) by lia. split; [done|]. apply Z.leb_le. lia.
  - apply M1.
  - destruct He as [He|[He Hfin]]; [by left|right]. split; [done|].
    unfold finished in Hfin. apply andb_true_iff in Hfin as [Hd Hfin]. split.
    + specialize (M5 Hd). unfold done_reset_at in *. apply Z.leb_le in M5. apply Z.leb_le. lia.
    + apply orb_true_iff in Hfin as [Hfin|?]; [|auto]. apply orb_true_iff in Hfin as [?|?]; auto.
Qed.

(** A design that asks for a word until it gets an answer, over a memory with a fixed latency. *)
Definition asking (clock reset : bool) (n : Z) : dpi Z :=
  if clock then Request 64 7 false (fun _ => Response false (fun v => Done (if v =? 0 then n else n + 1))) else Done n.

Lemma emulator_runs_witness : exists status s,
  emulate asking (fun n => 1 <=? n) (fun _ => false) (fun _ => false) (fun _ => 1%nat) 1001 1000 0 0
    (mkSimple 0 90 []) None 0 = Ok (status, s) /\
  Forall (fun r => reset_at r.1 = false /\ done_reset_at r.1 = true) (accepted s).
Proof.
  destruct (emulator_runs asking (fun n => 1 <=? n) (fun _ => false) (fun _ => false) (fun _ => 1%nat) 1 1001 1000 0 0
    (mkSimple 0 90 []) None 0) as (status & s & E & Ha & _).
  - done.
  - done.
  - done.
  - intros _. lia.
  - lia.
  - vm_compute. discriminate.
  - lia.
  - exists status, s. split; [exact E|exact Ha].
Defined.

(** The request is taken in turn 200 and answered 90 turns later. *)
Lemma asking_run :
  ('(status, s) ← emulate asking (fun n => 1 <=? n) (fun _ => false) (fun _ => false) (fun _ => 1%nat) 1001 1000 0 0
     (mkSimple 0 90 []) None 0; Ok (status, trace_count s, accepted s)) = Ok (0, 291, [(200, (64, 7, false))]).
Proof. vm_compute. reflexivity. Qed.

Lemma ramsize_samples :
  parse_and_update_ramsize "" "8GB" = Ok (8 * 2 ^ 30) /\ parse_and_update_ramsize "" "128mb" = Ok (128 * 2 ^ 20) /\
  parse_and_update_ramsize "" "8G" = Ok 0 /\ parse_and_update_ramsize "" "GB" = Err AssertFailed.
Proof. done. Qed.

(** ** The fast loader reads what it wrote *)

Lemma memif_roundtrip base m taddr len src m' :
  Forall (fun b => 0 <= b < 256) src -> Z.of_nat (length src) = len ->
  memif_write_chunk base m taddr len src = Ok m' -> memif_read_chunk base m' taddr len = Ok src.
Proof.
  unfold memif_write_chunk, memif_read_chunk. intros Hb Hl. destruct (negb _); [done|]. intros [= <-]. f_equal.
  rewrite <- Hl, Nat2Z.id, firstn_all. apply list_eq. intros i. unfold get_bytes. rewrite list_lookup_fmap.
  destruct (decide (i < length src)%nat) as [Hi|Hi].
  - rewrite lookup_seqZ_lt by lia. simpl. rewrite put_bytes_lookup. range_cases; [|lia].
    destruct (lookup_lt_is_Some_2 src i Hi) as [b E]. rewrite E. f_equal.
    replace (Z.to_nat _) with i by lia. rewrite (list_lookup_total_correct _ _ _ E). apply (wrapU_small 8).
    rewrite Forall_lookup in Hb. eauto.
  - rewrite lookup_seqZ_ge by lia. symmetry. apply lookup_ge_None. lia.
Qed.

(** ** The protocol of the JTAG socket *)





Lemma read_loop_waits n l : read_loop (replicate n ReadAgain ++ l) = read_loop l.
Proof. by induction n. Qed.
Lemma read_loop_closed n : read_loop (replicate n ReadZero) = NoFuel.
Proof. by induction n. Qed.





(** A client that closes its end without [Q] keeps the tick waiting for ever, and one whose
    connection fails stops the simulation. *)
Lemma closed_client_spins n o r k : 0 < client_fd r -> reads k = replicate n ReadZero ->
  rbb_tick o r k = NoFuel.
Proof.
  intros Hc E. unfold rbb_tick, execute_command. rewrite (proj2 (Z.ltb_lt _ _)), E by done.
  by rewrite read_loop_closed.
Qed.
Lemma failed_read_aborts n o r k rd : 0 < client_fd r -> reads k = replicate n ReadAgain ++ ReadFailed :: rd ->
  rbb_tick o r k = Err Aborted.
Proof.
  intros Hc E. unfold rbb_tick, execute_command. by rewrite (proj2 (Z.ltb_lt _ _)), E, read_loop_waits by done.
Qed.

(** [r] asks for a reset, and changes no pin. *)
Lemma reset_ignored r : rbb_switch "r" r = (r, None).
Proof. done. Qed.


