(* ===== verification/Kernels.v ===== *)
(** * Small benchmark kernels

    [riscv-tests/benchmarks]: the median filter ([median/median.c]), the software multiplication
    ([multiply/multiply.c]) and the radix sort ([rsort/rsort.c]).  Signed overflow wraps around, as
    in the compiled code.  Arrays that are only indexed by a digit are functions; the others are
    vectors whose indices are checked. *)
From S2P Require Import Prelude Runtime DramCommon.
From Stdlib Require Import Sorted.
From stdpp Require Import list sorting.
Local Open Scope list_scope.
Local Open Scope Z_scope.

(** ** Multiplication *)

(** One turn of the loop of [multiply]: the result and the two operands. *)
Definition multiply_step (s : Z * Z * Z) : Z * Z * Z :=
  let '(result, x, y) := s in
  (if Z.land x 1 =? 1 then s32 (result + y) else result, Z.shiftr x 1, s32 (Z.shiftl y 1)).

Definition multiply (x y : Z) : Z := (Nat.iter 32 multiply_step (0, x, y)).1.1.

(** ** Median filter *)

Definition median3 (A B C : Z) : Z :=
  if A <? B then if B <? C then B else if C <? A then A else C
  else if A <? C then A else if C <? B then B else C.

(** The body of the loop of [median]. *)
Definition median_at (input : list Z) (i : Z) (results : list Z) : M (list Z) :=
  A ← vget input (i - 1);
  B ← vget input i;
  C ← vget input (i + 1);
  vset results i (median3 A B C).

Definition median (n : Z) (input results : list Z) : M (list Z) :=
  results ← vset results 0 0;
  results ← vset results (n - 1) 0;
  forM (seqZ 1 (n - 2)) (median_at input) results.

(** ** Radix sort *)

Definition LOG_BASE : Z := 8.
Definition BASE : Z := Z.shiftl 1 LOG_BASE.

Section pass.
Context (log_exp : Z).

(** [(a >> log_exp) % BASE]. *)
Definition digit (a : Z) : Z := Z.shiftr a log_exp mod BASE.

(** [fetch_add(&bucket[i], inc)]: the bucket and the value before. *)
Definition fetch_add (bucket : Z -> Z) (i inc : Z) : (Z -> Z) * Z :=
  let bucket := upd bucket i (u64 (bucket i + inc)) in (bucket, u64 (bucket i - inc)).
Definition count_one (a : Z) (bucket : Z -> Z) : Z -> Z := (fetch_add bucket (digit a) 1).1.

(** The two loops that count: by four as long as there are four, then one by one. *)
Fixpoint count_all (arr : list Z) (bucket : Z -> Z) : Z -> Z :=
  match arr with
  | a0 :: a1 :: a2 :: a3 :: rest => count_all rest (count_one a3 (count_one a2 (count_one a1 (count_one a0 bucket))))
  | _ => foldl (flip count_one) bucket arr
  end.

(** [prev += fetch_add(&bucket[i], prev)]. *)
Definition sum_one (s : Z * (Z -> Z)) (i : Z) : Z * (Z -> Z) :=
  let '(prev, bucket) := s in
  let '(bucket, old) := fetch_add bucket i prev in (u64 (prev + old), bucket).

(** The running sums: the bucket 1, then two at a time. *)
Definition sum_all (bucket : Z -> Z) : Z -> Z :=
  let s := sum_one (bucket 0, bucket) 1 in
  (foldl (fun s k => sum_one (sum_one s (2 * k)) (2 * k + 1)) s (seqZ 1 (BASE / 2 - 1))).2.

(** [scratch[--bucket[d]] = a]. *)
Definition place_one (a : Z) (s : (Z -> Z) * list Z) : M ((Z -> Z) * list Z) :=
  let '(bucket, scratch) := s in
  let '(bucket, old) := fetch_add bucket (digit a) (-1) in
  scratch ← vset scratch (old - 1) a;
  Ok (bucket, scratch).

(** Four elements: their places are taken before any of them is stored. *)
Definition place_four (a0 a1 a2 a3 : Z) (s : (Z -> Z) * list Z) : M ((Z -> Z) * list Z) :=
  let '(bucket, scratch) := s in
  let '(bucket, s0) := fetch_add bucket (digit a0) (-1) in
  let '(bucket, s1) := fetch_add bucket (digit a1) (-1) in
  let '(bucket, s2) := fetch_add bucket (digit a2) (-1) in
  let '(bucket, s3) := fetch_add bucket (digit a3) (-1) in
  scratch ← vset scratch (s0 - 1) a0;
  scratch ← vset scratch (s1 - 1) a1;
  scratch ← vset scratch (s2 - 1) a2;
  scratch ← vset scratch (s3 - 1) a3;
  Ok (bucket, scratch).

(** The two loops that place the elements, from the last to the first. *)
Fixpoint place_all (rev_arr : list Z) (s : (Z -> Z) * list Z) : M ((Z -> Z) * list Z) :=
  match rev_arr with
  | a0 :: a1 :: a2 :: a3 :: rest => s ← place_four a0 a1 a2 a3 s; place_all rest s
  | _ => forM rev_arr place_one s
  end.

(** One turn of the loop: the array with the elements in the order of the digit. *)
Definition radix_pass (arr scratch : list Z) : M (list Z) :=
  '(_, scratch) ← place_all (rev arr) (sum_all (count_all arr (fun _ => 0)), scratch); Ok scratch.
End pass.

(** The loop over the digits; the arrays are exchanged after each turn, and [swapped] says whether
    [arr] is then another array than [arrIn]. *)
Fixpoint radix_loop (fuel : nat) (log_exp : Z) (swapped : bool) (arr scratch : list Z) : M (bool * list Z * list Z) :=
  match fuel with
  | O => NoFuel
  | S fuel =>
      if log_exp <? 8 * 4 then
        scratch ← radix_pass log_exp arr scratch;
        radix_loop fuel (log_exp + LOG_BASE) (negb swapped) scratch arr
      else Ok (swapped, arr, scratch)
  end.

(** [sort]: the arrays [arrIn] and [scratchIn] after it.  The copy at the end is into [arr], so where
    the arrays were left exchanged both hold what [scratch] names. *)
Definition radix_sort (arrIn scratchIn : list Z) : M (list Z * list Z) :=
  '(swapped, arr, scratch) ← radix_loop 5 0 false arrIn scratchIn;
  if (swapped : bool) then Ok (scratch, scratch) else Ok (arr, scratch).

(** ** The programs *)

(** The [main]s on the data of the benchmarks; [PREALLOCATE] is the run that fills the caches. *)
Definition multiply_all (input_data1 input_data2 results_data : list Z) : M (list Z) :=
  forM (seqZ 0 (Z.of_nat (length results_data))) (fun i results_data =>
    x ← vget input_data1 i; y ← vget input_data2 i; vset results_data i (multiply x y)) results_data.

Definition multiply_main (PREALLOCATE : bool) (input_data1 input_data2 results_data verify_data : list Z) : M Z :=
  results_data ← (if PREALLOCATE then multiply_all input_data1 input_data2 results_data else Ok results_data);
  results_data ← multiply_all input_data1 input_data2 results_data;
  Ok (verify (Z.of_nat (length results_data)) results_data verify_data).

Definition median_main (PREALLOCATE : bool) (input_data results_data verify_data : list Z) : M Z :=
  let DATA_SIZE := Z.of_nat (length input_data) in
  results_data ← (if PREALLOCATE then median DATA_SIZE input_data results_data else Ok results_data);
  results_data ← median DATA_SIZE input_data results_data;
  Ok (verify DATA_SIZE results_data verify_data).

(** The extra run sorts the expected data; [verify] reads the unsigned numbers as [int]s. *)
Definition rsort_main (PREALLOCATE : bool) (input_data verify_data scratch : list Z) : M Z :=
  let DATA_SIZE := Z.of_nat (length input_data) in
  if PREALLOCATE then
    '(verify_data, scratch) ← radix_sort verify_data scratch;
    if negb (verify DATA_SIZE (wrapS 32 <$> input_data) (wrapS 32 <$> input_data) =? 0) then Ok 1
    else '(input_data, _) ← radix_sort input_data scratch; Ok (verify DATA_SIZE (wrapS 32 <$> input_data) (wrapS 32 <$> verify_data))
  else '(input_data, _) ← radix_sort input_data scratch; Ok (verify DATA_SIZE (wrapS 32 <$> input_data) (wrapS 32 <$> verify_data)).

(** ** Multiplication *)

Lemma multiply_steps k x y : - 2 ^ 31 <= y < 2 ^ 31 ->
  Nat.iter k multiply_step (0, x, y) =
  (s32 (x mod 2 ^ Z.of_nat k * y), x / 2 ^ Z.of_nat k, s32 (y * 2 ^ Z.of_nat k)).
Proof.
  intros Hy. induction k as [|k IH].
  - change (2 ^ Z.of_nat 0) with 1. rewrite Z.mod_1_r, Z.div_1_r, Z.mul_1_r, Z.mul_0_l, (wrapS_small 32 y) by lia. done.
  - cbn [Nat.iter nat_rect]. change (nat_rect _ _ _ k) with (Nat.iter k multiply_step (0, x, y)). rewrite IH. clear IH.
    set (p := 2 ^ Z.of_nat k). assert (0 < p) as Hp by (subst p; lia).
    assert (2 ^ Z.of_nat (S k) = p * 2) as -> by (subst p; rewrite Nat2Z.inj_succ, Z.pow_succ_r; lia).
    cbn [multiply_step]. change 1 with (Z.ones 1) at 1. rewrite Z.land_ones, Z.shiftr_div_pow2, Z.shiftl_mul_pow2 by lia.
    rewrite Z.div_div, wrapS_mul_l by lia. rewrite (Z.rem_mul_r x p 2) by lia. change (2 ^ 1) with 2.
    f_equal; [f_equal|f_equal; ring].
    pose proof (Z.mod_pos_bound (x / p) 2). destruct (Z.eqb_spec ((x / p) mod 2) 1) as [E|E].
    + rewrite E, wrapS_add by lia. f_equal. ring.
    + replace ((x / p) mod 2) with 0 by lia. f_equal. ring.
Qed.

(** The shift-and-add loop multiplies, modulo 2^32. *)
Lemma multiply_correct x y : - 2 ^ 31 <= x < 2 ^ 31 -> - 2 ^ 31 <= y < 2 ^ 31 -> multiply x y = s32 (x * y).
Proof.
  intros Hx Hy. unfold multiply. rewrite (multiply_steps 32 x y) by done. cbn [fst].
  apply wrapS_cong; [lia|]. unfold wrapU. change (2 ^ Z.of_nat 32) with (2 ^ 32). apply Zmult_mod_idemp_l.
Qed.

(** ** Median filter *)

Lemma median3_spec A B C : median3 A B C = Z.max (Z.min A B) (Z.min (Z.max A B) C).
Proof.
  unfold median3. destruct (Z.ltb_spec A B).
  - destruct (Z.ltb_spec B C); [lia|]. destruct (Z.ltb_spec C A); lia.
  - destruct (Z.ltb_spec A C); [lia|]. destruct (Z.ltb_spec C B); lia.
Qed.

Lemma median_loop input k results : 0 <= k -> Z.of_nat (length results) = Z.of_nat (length input) ->
  k + 1 < Z.of_nat (length input) ->
  exists results', forM (seqZ 1 k) (median_at input) results = Ok results' /\ length results' = length results /\
    forall i, (1 <= Z.of_nat i <= k -> results' !! i = Some (median3 (input !!! (i - 1)%nat) (input !!! i) (input !!! (i + 1)%nat))) /\
      (~ 1 <= Z.of_nat i <= k -> results' !! i = results !! i).
Proof.
  intros Hk. pattern k. apply natlike_ind; [..|done]; clear k Hk.
  - intros _ _. exists results. split; [done|]. split; [done|]. intros i. split; [lia|done].
  - intros k Hk IH Hl Hb. destruct IH as (r1 & E1 & L1 & H1); [done|lia|].
    change (Z.succ k) with (k + 1) in *. rewrite seqZ_snoc, forM_app, E1 by done. cbn [mbind res_bind forM].
    assert (forall j, 0 <= j < Z.of_nat (length input) -> vget input j = Ok (input !!! Z.to_nat j)) as Hg.
    { intros j Hj. apply vget_Ok. split; [lia|]. apply list_lookup_lookup_total_lt. lia. }
    unfold median_at. rewrite !Hg by lia. cbn [mbind res_bind]. rewrite vset_Ok by lia. cbn [mbind res_bind].
    eexists. split; [done|]. split; [by rewrite length_insert|]. intros i.
    replace (Z.to_nat (1 + k - 1)) with (Z.to_nat (1 + k) - 1)%nat by lia.
    replace (Z.to_nat (1 + k + 1)) with (Z.to_nat (1 + k) + 1)%nat by lia.
    destruct (decide (i = Z.to_nat (1 + k))) as [->|Hne].
    + split; [intros _|lia]. rewrite list_lookup_insert_eq; [done|]. lia.
    + rewrite list_lookup_insert_ne by done. split; intros Hi; apply H1; lia.
Qed.

(** The filter: the ends are zero, every other element is the median of its neighbourhood. *)
Lemma median_correct n input results : 1 <= n -> Z.of_nat (length input) = n -> Z.of_nat (length results) = n ->
  exists out, median n input results = Ok out /\ Z.of_nat (length out) = n /\
    out !! 0%nat = Some 0 /\ out !! Z.to_nat (n - 1) = Some 0 /\
    forall i, 1 <= Z.of_nat i < n - 1 ->
      let A := input !!! (i - 1)%nat in let B := input !!! i in let C := input !!! (i + 1)%nat in
      out !! i = Some (Z.max (Z.min A B) (Z.min (Z.max A B) C)).
Proof.
  intros Hn Hi Hr. unfold median. rewrite vset_Ok by lia. cbn [mbind res_bind].
  rewrite vset_Ok by (rewrite length_insert; lia). cbn [mbind res_bind].
  change (Z.to_nat 0) with 0%nat. set (r0 := <[_ := 0]> _).
  assert (length r0 = length results) as L0 by (subst r0; by rewrite !length_insert).
  assert (r0 !! 0%nat = Some 0 /\ r0 !! Z.to_nat (n - 1) = Some 0) as [Z1 Z2].
  { subst r0. split; [|apply list_lookup_insert_eq; rewrite length_insert; lia].
    destruct (decide (Z.to_nat (n - 1) = 0%nat)) as [->|Hne]; [apply list_lookup_insert_eq; rewrite length_insert; lia|].
    rewrite list_lookup_insert_ne by done. apply list_lookup_insert_eq. lia. }
  destruct (Z.le_gt_cases n 2) as [Hle|Hgt].
  - rewrite (seqZ_nil 1 (n - 2)) by lia. exists r0. split; [done|]. split; [lia|]. split; [done|]. split; [done|]. lia.
  - destruct (median_loop input (n - 2) r0) as (out & -> & L & H); [lia..|]. exists out. split; [done|]. split; [lia|].
    split; [by rewrite (proj2 (H 0%nat)) by lia|]. split; [by rewrite (proj2 (H (Z.to_nat (n - 1)))) by lia|].
    intros i Hlt. cbv zeta. rewrite (proj1 (H i)) by lia. by rewrite median3_spec.
Qed.

(** ** Radix sort *)

Section pass_ok.
Context (e : Z) (He : 0 <= e).
Let D := digit e.

Lemma digit_range a : 0 <= D a < 256.
Proof. by apply Z.mod_pos_bound. Qed.

(** How many elements of a list have the digit [d], or one below it; and which have it. *)
Definition with_digit (d : Z) (l : list Z) : list Z := List.filter (fun x => D x =? d) l.
Definition cnt (d : Z) (l : list Z) : Z := Z.of_nat (length (with_digit d l)).
Fixpoint cnt_below (d : Z) (l : list Z) : Z :=
  match l with [] => 0 | x :: l => (if D x <? d then 1 else 0) + cnt_below d l end.

Lemma digit_cnt_cons d x l : cnt d (x :: l) = (if D x =? d then 1 else 0) + cnt d l.
Proof. unfold cnt, with_digit. simpl. destruct (D x =? d); cbn [length]; lia. Qed.

Lemma cnt_app d l k : cnt d (l ++ k) = cnt d l + cnt d k.
Proof. induction l as [|x l IH]; [done|]. cbn [app]. rewrite !digit_cnt_cons, IH. lia. Qed.

Lemma cnt_bound d l : 0 <= cnt d l <= Z.of_nat (length l).
Proof. induction l as [|x l IH]; [done|]. rewrite digit_cnt_cons. cbn [length]. destruct (D x =? d); lia. Qed.

Lemma cnt_below_step d l : cnt_below (d + 1) l = cnt_below d l + cnt d l.
Proof.
  induction l as [|x l IH]; [done|]. rewrite digit_cnt_cons. cbn [cnt_below]. rewrite IH.
  destruct (Z.ltb_spec (D x) (d + 1)), (Z.ltb_spec (D x) d), (Z.eqb_spec (D x) d); lia.
Qed.

Lemma cnt_below_0 l : cnt_below 0 l = 0.
Proof.
  induction l as [|x l IH]; [done|]. cbn [cnt_below]. pose proof (digit_range x).
  destruct (Z.ltb_spec (D x) 0); lia.
Qed.

Lemma cnt_below_all l : cnt_below 256 l = Z.of_nat (length l).
Proof.
  induction l as [|x l IH]; [done|]. cbn [cnt_below length]. pose proof (digit_range x).
  destruct (Z.ltb_spec (D x) 256); lia.
Qed.

Lemma cnt_below_mono d d' l : d <= d' -> cnt_below d l <= cnt_below d' l.
Proof.
  intros Hd. induction l as [|x l IH]; [done|]. cbn [cnt_below].
  destruct (Z.ltb_spec (D x) d), (Z.ltb_spec (D x) d'); lia.
Qed.

(** *** Counting and summing *)

Lemma count_all_foldl l b : count_all e l b = foldl (flip (count_one e)) b l.
Proof.
  revert l b. fix IH 1. intros [|a0 [|a1 [|a2 [|a3 rest]]]] b; [reflexivity..|]. cbn [count_all foldl]. apply IH.
Qed.

Lemma count_ok l b i : 0 <= i < 256 -> (forall j, 0 <= b j) -> (forall j, b j + Z.of_nat (length l) < 2 ^ 64) ->
  count_all e l b i = b i + cnt i l.
Proof.
  intros Hi. rewrite count_all_foldl. revert b. induction l as [|x l IH]; intros b H0 H1; [symmetry; apply Z.add_0_r|].
  cbn [foldl length] in *. unfold flip at 2. unfold count_one, fetch_add. cbn [fst]. rewrite IH.
  - rewrite digit_cnt_cons. unfold upd. change (digit e x) with (D x). destruct (Z.eqb_spec i (D x)) as [->|Hne].
    + rewrite Z.eqb_refl, (wrapU_small 64) by (specialize (H0 (D x)); specialize (H1 (D x)); lia). lia.
    + rewrite (proj2 (Z.eqb_neq (D x) i)) by congruence. lia.
  - intros j. unfold upd. destruct (_ =? _); [apply wrapU_range; lia|done].
  - intros j. unfold upd. destruct (_ =? _); [|specialize (H1 j); lia].
    specialize (H0 (digit e x)). specialize (H1 (digit e x)). rewrite (wrapU_small 64); lia.
Qed.

Lemma pairs_flat s n : 0 <= n ->
  foldl (fun s k => sum_one (sum_one s (2 * k)) (2 * k + 1)) s (seqZ 1 n) = foldl sum_one s (seqZ 2 (2 * n)).
Proof.
  intros Hn. pattern n. apply natlike_ind; [done|..|done]. clear n Hn. intros n Hn IH. change (Z.succ n) with (n + 1).
  rewrite seqZ_snoc, foldl_app, IH by done. replace (2 * (n + 1)) with (2 * n + 1 + 1) by lia.
  rewrite (seqZ_snoc 2 (2 * n + 1)), (seqZ_snoc 2 (2 * n)), !foldl_app by lia. cbn [foldl]. f_equal; [f_equal|]; lia.
Qed.

Lemma sums_ok l b k : 0 <= k < 256 -> Z.of_nat (length l) < 2 ^ 64 -> (forall i, 0 <= i < 256 -> b i = cnt i l) ->
  exists b', foldl sum_one (b 0, b) (seqZ 1 k) = (cnt_below (k + 1) l, b') /\
    forall i, 0 <= i < 256 -> b' i = if i <=? k then cnt_below (i + 1) l else b i.
Proof.
  intros Hk Hl Hb. assert (forall d, 0 <= d <= 256 -> 0 <= cnt_below d l <= Z.of_nat (length l)) as Hr.
  { intros d Hd. pose proof (cnt_below_mono 0 d l). pose proof (cnt_below_mono d 256 l).
    pose proof (cnt_below_0 l). pose proof (cnt_below_all l). lia. }
  destruct Hk as [Hk Hk']. revert Hk'. pattern k. apply natlike_ind; [..|done]; clear k Hk.
  - intros _. exists b. split.
    + simpl. rewrite Hb by lia. f_equal. rewrite (cnt_below_step 0), cnt_below_0. lia.
    + intros i Hi. destruct (Z.leb_spec i 0); [|done]. assert (i = 0) as -> by lia.
      rewrite Hb by lia. rewrite (cnt_below_step 0), cnt_below_0. lia.
  - intros k Hk IH Hk'. destruct IH as (b1 & E & H1); [lia|]. change (Z.succ k) with (k + 1) in *.
    rewrite seqZ_snoc, foldl_app, E by done. cbn [foldl]. unfold sum_one, fetch_add. rewrite upd_eq.
    replace (1 + k) with (k + 1) by lia. rewrite H1 by lia. rewrite (proj2 (Z.leb_gt (k + 1) k)), (Hb (k + 1)) by lia.
    pose proof (cnt_below_step (k + 1) l) as Hs. pose proof (Hr (k + 1)). pose proof (Hr (k + 1 + 1)).
    pose proof (cnt_bound (k + 1) l). rewrite (wrapU_small 64 (cnt (k + 1) l + _)) by lia.
    rewrite (wrapU_small 64 (_ - _)) by lia. rewrite (wrapU_small 64) by lia. eexists. split; [f_equal; lia|].
    intros i Hi. unfold upd. destruct (Z.eqb_spec i (k + 1)) as [->|Hne].
    + rewrite Z.leb_refl. lia.
    + rewrite H1 by done. destruct (Z.leb_spec i k), (Z.leb_spec i (k + 1)); try lia; done.
Qed.

Lemma sum_all_flat b : sum_all b = (foldl sum_one (b 0, b) (seqZ 1 255)).2.
Proof.
  assert (seqZ 1 255 = [1] ++ seqZ 2 (2 * (BASE / 2 - 1))) as -> by (vm_compute; reflexivity).
  rewrite foldl_app, <- (pairs_flat _ (BASE / 2 - 1)) by done. reflexivity.
Qed.

(** The bucket of a digit is where its elements end. *)
Lemma buckets_ok l d : 0 <= d < 256 -> Z.of_nat (length l) < 2 ^ 64 ->
  sum_all (count_all e l (fun _ => 0)) d = cnt_below (d + 1) l.
Proof.
  intros Hd Hl. rewrite sum_all_flat. destruct (sums_ok l (count_all e l (fun _ => 0)) 255) as (b' & E & Hb'); [lia|done|..].
  { intros i Hi. rewrite count_ok; [apply Z.add_0_l|done|intros ?; lia|intros ?; lia]. }
  rewrite E. cbn [snd]. rewrite Hb' by done. by rewrite (proj2 (Z.leb_le d 255)) by lia.
Qed.

(** *** Placing *)

Lemma place_four_ones a0 a1 a2 a3 s :
  place_four e a0 a1 a2 a3 s =
  s ← place_one e a0 s; s ← place_one e a1 s; s ← place_one e a2 s; place_one e a3 s.
Proof.
  destruct s as [b sc]. unfold place_four, place_one, fetch_add. cbn [fst snd].
  destruct (vset sc _ a0); [|reflexivity..]. cbn [mbind res_bind].
  destruct (vset _ _ a1); [|reflexivity..]. cbn [mbind res_bind].
  destruct (vset _ _ a2); reflexivity.
Qed.

Lemma place_all_ones l s : place_all e l s = forM l (place_one e) s.
Proof.
  revert l s. fix IH 1. intros [|a0 [|a1 [|a2 [|a3 rest]]]] s; [reflexivity..|].
  cbn [place_all]. rewrite place_four_ones. cbn [forM].
  destruct (place_one e a0 s) as [s0| |]; [|reflexivity..]. cbn [mbind res_bind].
  destruct (place_one e a1 s0) as [s1| |]; [|reflexivity..]. cbn [mbind res_bind].
  destruct (place_one e a2 s1) as [s2| |]; [|reflexivity..]. cbn [mbind res_bind].
  destruct (place_one e a3 s2) as [s3| |]; [|reflexivity..]. cbn [mbind res_bind]. apply IH.
Qed.

(** While the elements [pre] of [pre ++ suf] are still to be placed: where each bucket stands, and
    what lies above it. *)
Definition placing (pre suf : list Z) (b : Z -> Z) (sc : list Z) : Prop :=
  length sc = length (pre ++ suf) /\
  forall d, 0 <= d < 256 -> b d = cnt_below d (pre ++ suf) + cnt d pre /\
    forall j x, with_digit d suf !! j = Some x -> sc !! (Z.to_nat (b d) + j)%nat = Some x.

Lemma with_digit_cons d x l : with_digit d (x :: l) = if D x =? d then x :: with_digit d l else with_digit d l.
Proof. reflexivity. Qed.

Lemma cnt_below_nonneg d l : 0 <= cnt_below d l.
Proof. induction l as [|x l IH]; [done|]. cbn [cnt_below]. destruct (D x <? d); lia. Qed.

Lemma cnt_below_bound d l : 0 <= d <= 256 -> 0 <= cnt_below d l <= Z.of_nat (length l).
Proof.
  intros Hd. pose proof (cnt_below_nonneg d l). pose proof (cnt_below_mono d 256 l). rewrite cnt_below_all in *. lia.
Qed.

(** The segments of two digits do not meet. *)
Lemma segments_apart d d' l : d < d' -> cnt_below d l + cnt d l <= cnt_below d' l.
Proof. intros Hd. rewrite <- cnt_below_step. apply cnt_below_mono. lia. Qed.

Lemma place_one_ok pre suf a b sc : Z.of_nat (length (pre ++ [a] ++ suf)) < 2 ^ 64 -> placing (pre ++ [a]) suf b sc ->
  exists b' sc', place_one e a (b, sc) = Ok (b', sc') /\ placing pre (a :: suf) b' sc'.
Proof.
  intros Hl [Hlen Hb]. rewrite <- !app_assoc in *. set (l := pre ++ [a] ++ suf) in *. pose proof (digit_range a) as Ha.
  destruct (Hb (D a) Ha) as [Ea _]. rewrite cnt_app, digit_cnt_cons, Z.eqb_refl in Ea. change (cnt (D a) []) with 0 in Ea.
  pose proof (cnt_below_bound (D a) l). pose proof (cnt_below_bound (D a + 1) l) as Hbd. rewrite cnt_below_step in Hbd.
  pose proof (cnt_bound (D a) pre). assert (cnt (D a) l = cnt (D a) pre + 1 + cnt (D a) suf) as El.
  { subst l. rewrite !cnt_app, digit_cnt_cons, Z.eqb_refl. change (cnt (D a) []) with 0. lia. }
  pose proof (cnt_bound (D a) suf).
  unfold place_one, fetch_add. change (digit e a) with (D a). rewrite upd_eq.
  rewrite (wrapU_small 64 (b (D a) + -1)) by lia. rewrite (wrapU_small 64) by lia.
  rewrite vset_Ok by lia. cbn [mbind res_bind]. eexists _, _. split; [done|]. split; [by rewrite length_insert|].
  change (pre ++ a :: suf) with l. intros d Hd. destruct (Hb d Hd) as [Ed Hs]. unfold upd.
  destruct (Z.eqb_spec d (D a)) as [->|Hne].
  - split; [lia|]. intros j x. rewrite with_digit_cons, Z.eqb_refl. replace (b (D a) + -1 - -1 - 1) with (b (D a) + -1) by lia.
    destruct j as [|j].
    + intros [= <-]. rewrite Nat.add_0_r. apply list_lookup_insert_eq. lia.
    + intros Hj. rewrite list_lookup_insert_ne by lia. rewrite <- (Hs j x Hj). f_equal. lia.
  - rewrite cnt_app, digit_cnt_cons, (proj2 (Z.eqb_neq (D a) d)) in Ed by congruence. change (cnt d []) with 0 in Ed.
    split; [lia|]. intros j x. rewrite with_digit_cons, (proj2 (Z.eqb_neq (D a) d)) by congruence. intros Hj.
    rewrite list_lookup_insert_ne; [by apply Hs|]. apply lookup_lt_Some in Hj.
    assert (cnt d l = cnt d pre + cnt d suf) as Ed'.
    { subst l. rewrite !cnt_app, digit_cnt_cons, (proj2 (Z.eqb_neq (D a) d)) by congruence. change (cnt d []) with 0. lia. }
    pose proof (cnt_below_bound d l). pose proof (cnt_bound d pre). change (cnt d suf) with (Z.of_nat (length (with_digit d suf))) in Ed'.
    destruct (Z.lt_trichotomy d (D a)) as [Hlt|[?|Hlt]]; [|done|]; pose proof (segments_apart _ _ l Hlt); lia.
Qed.

Lemma place_all_ok l suf b sc : Z.of_nat (length (l ++ suf)) < 2 ^ 64 -> placing l suf b sc ->
  exists b' sc', forM (rev l) (place_one e) (b, sc) = Ok (b', sc') /\ placing [] (l ++ suf) b' sc'.
Proof.
  revert suf b sc. induction l as [|a l IH] using rev_ind; intros suf b sc Hl Hp; [by exists b, sc|].
  rewrite rev_app_distr. cbn [rev app forM].
  rewrite <- app_assoc in *. destruct (place_one_ok l suf a b sc) as (b1 & sc1 & -> & H1); [done..|].
  cbn [mbind res_bind]. apply IH; done.
Qed.

(** *** The order after a pass *)

(** The elements of the digits below [d], digit by digit. *)
Definition by_digit (d : Z) (l : list Z) : list Z := mjoin ((fun d => with_digit d l) <$> seqZ 0 d).

Lemma by_digit_step d l : 0 <= d -> by_digit (d + 1) l = by_digit d l ++ with_digit d l.
Proof. intros Hd. unfold by_digit. rewrite seqZ_snoc, fmap_app, join_app by done. cbn. by rewrite app_nil_r. Qed.

Lemma by_digit_length d l : 0 <= d -> Z.of_nat (length (by_digit d l)) = cnt_below d l.
Proof.
  intros Hd. pattern d. apply natlike_ind; [by rewrite cnt_below_0|..|done]. clear d Hd. intros d Hd IH.
  change (Z.succ d) with (d + 1). rewrite by_digit_step, length_app, cnt_below_step by done. unfold cnt. lia.
Qed.

Lemma placed_lookup l b sc d i x : placing [] l b sc -> 0 <= d <= 256 -> by_digit d l !! i = Some x -> sc !! i = Some x.
Proof.
  intros [_ Hb] [Hd Hd']. revert Hd' i x. pattern d. apply natlike_ind; [done|..|done]. clear d Hd.
  intros d Hd IH Hd' i x. change (Z.succ d) with (d + 1) in *. rewrite by_digit_step, lookup_app_Some by done.
  intros [Hi|[Hge Hi]]; [apply IH; [lia|done]|]. destruct (Hb d) as [E Hs]; [lia|]. rewrite <- (Hs _ _ Hi). f_equal.
  pose proof (by_digit_length d l Hd). change ([] ++ l) with l in E. change (cnt d []) with 0 in E. lia.
Qed.

Lemma pass_by_digit arr sc : length sc = length arr -> Z.of_nat (length arr) < 2 ^ 64 ->
  radix_pass e arr sc = Ok (by_digit 256 arr).
Proof.
  intros Hs Hl. unfold radix_pass. rewrite place_all_ones.
  destruct (place_all_ok arr [] (sum_all (count_all e arr (fun _ => 0))) sc) as (b' & sc' & -> & Hp).
  - by rewrite app_nil_r.
  - unfold placing. rewrite app_nil_r. split; [done|]. intros d Hd. rewrite buckets_ok, cnt_below_step by done. done.
  - rewrite app_nil_r in Hp. cbn [mbind res_bind]. f_equal. symmetry.
    assert (length (by_digit 256 arr) = length sc') as Hlen.
    { apply Nat2Z.inj. rewrite by_digit_length, cnt_below_all by lia. by destruct Hp as [-> _]. }
    apply list_eq_same_length with (length sc'); [done..|]. intros i x y Hi Hx Hy.
    apply (placed_lookup arr b' sc') in Hx; [congruence|done|lia].
Qed.

Lemma with_digit_In d l x : In x (with_digit d l) <-> In x l /\ D x = d.
Proof. unfold with_digit. rewrite filter_In, Z.eqb_eq. done. Qed.

Lemma below_split d l : List.filter (fun x => D x <? d) l ++ with_digit d l ≡ₚ List.filter (fun x => D x <? d + 1) l.
Proof.
  induction l as [|x l IH]; [done|]. rewrite with_digit_cons. cbn [List.filter].
  destruct (Z.ltb_spec (D x) d), (Z.ltb_spec (D x) (d + 1)), (Z.eqb_spec (D x) d); try lia; cbn [app].
  - by rewrite IH.
  - rewrite <- IH. symmetry. apply Permutation_middle.
  - done.
Qed.

Lemma by_digit_below d l : 0 <= d -> by_digit d l ≡ₚ List.filter (fun x => D x <? d) l.
Proof.
  intros Hd. pattern d. apply natlike_ind; [..|done]; clear d Hd.
  - induction l as [|x l IH]; [done|]. cbn [List.filter]. pose proof (digit_range x).
    by rewrite (proj2 (Z.ltb_ge (D x) 0)) by lia.
  - intros d Hd IH. change (Z.succ d) with (d + 1). rewrite by_digit_step, IH by done. apply below_split.
Qed.

Lemma by_digit_perm l : by_digit 256 l ≡ₚ l.
Proof.
  rewrite by_digit_below by done. induction l as [|x l IH]; [done|]. cbn [List.filter]. pose proof (digit_range x).
  rewrite (proj2 (Z.ltb_lt (D x) 256)) by lia. by rewrite IH.
Qed.

(** The order by the low [k] bits. *)
Definition low_le (k : Z) (x y : Z) : Prop := x mod 2 ^ k <= y mod 2 ^ k.

Lemma low_digit x : x mod 2 ^ (e + 8) = x mod 2 ^ e + 2 ^ e * D x.
Proof.
  rewrite Z.pow_add_r, Z.rem_mul_r by lia. unfold D, digit. by rewrite Z.shiftr_div_pow2 by lia.
Qed.

Lemma with_digit_sorted d l : StronglySorted (low_le e) l -> StronglySorted (low_le (e + 8)) (with_digit d l).
Proof.
  induction 1 as [|x l Hs IH Hx]; [constructor|]. rewrite with_digit_cons. destruct (Z.eqb_spec (D x) d) as [E|]; [|done].
  constructor; [done|]. rewrite Forall_forall in *. intros y [Hy E']%list_elem_of_In%with_digit_In.
  unfold low_le. rewrite !low_digit, E, E'. apply Z.add_le_mono_r. apply Hx. by apply list_elem_of_In.
Qed.

Lemma by_digit_sorted d l : 0 <= d -> StronglySorted (low_le e) l -> StronglySorted (low_le (e + 8)) (by_digit d l).
Proof.
  intros Hd Hs. pattern d. apply natlike_ind; [constructor|..|done]. clear d Hd. intros d Hd IH.
  change (Z.succ d) with (d + 1). rewrite by_digit_step by done. apply StronglySorted_app_2; [|done|by apply with_digit_sorted].
  intros x y Hx Hy. rewrite (by_digit_below d l) in Hx by done. apply list_elem_of_In, filter_In in Hx as [_ Hx].
  apply list_elem_of_In, with_digit_In in Hy as [_ Hy]. apply Z.ltb_lt in Hx. unfold low_le. rewrite !low_digit.
  pose proof (Z.mod_pos_bound x (2 ^ e)). pose proof (Z.mod_pos_bound y (2 ^ e)). pose proof (Z.pow_pos_nonneg 2 e). nia.
Qed.

(** A turn: the array is rearranged, and an array in the order of the low [e] bits comes to be in
    the order of the low [e + 8]. *)
Lemma radix_pass_ok arr sc : length sc = length arr -> Z.of_nat (length arr) < 2 ^ 64 ->
  StronglySorted (low_le e) arr ->
  exists out, radix_pass e arr sc = Ok out /\ out ≡ₚ arr /\ StronglySorted (low_le (e + 8)) out.
Proof.
  intros Hs Hl Ho. exists (by_digit 256 arr). split; [by apply pass_by_digit|].
  split; [apply by_digit_perm|by apply by_digit_sorted].
Qed.
End pass_ok.

Lemma low_le_0 l : StronglySorted (low_le 0) l.
Proof.
  induction l as [|x l IH]; constructor; [done|]. apply Forall_true. intros y. unfold low_le. by rewrite !Z.mod_1_r.
Qed.

(** [sort] returns the elements in order. *)
Lemma radix_sort_correct arr scratch : length scratch = length arr -> Z.of_nat (length arr) < 2 ^ 64 ->
  Forall (fun x => 0 <= x < 2 ^ 32) arr ->
  exists out left, radix_sort arr scratch = Ok (out, left) /\ out ≡ₚ arr /\ StronglySorted Z.le out /\ length left = length arr.
Proof.
  intros Hs Hl Hr.
  destruct (radix_pass_ok 0 ltac:(done) arr scratch) as (a1 & E1 & P1 & O1); [done..|apply low_le_0|].
  pose proof (Permutation_length P1) as L1.
  destruct (radix_pass_ok 8 ltac:(done) a1 arr) as (a2 & E2 & P2 & O2); [lia|lia|done|].
  pose proof (Permutation_length P2) as L2.
  destruct (radix_pass_ok 16 ltac:(done) a2 a1) as (a3 & E3 & P3 & O3); [lia|lia|done|].
  pose proof (Permutation_length P3) as L3.
  destruct (radix_pass_ok 24 ltac:(done) a3 a2) as (a4 & E4 & P4 & O4); [lia|lia|done|].
  assert (a4 ≡ₚ arr) as P by (by rewrite P4, P3, P2).
  exists a4, a3. split; [|split; [done|split; [|congruence]]].
  - unfold radix_sort. cbn [radix_loop].
    change (0 <? 8 * 4) with true. change (0 + LOG_BASE <? 8 * 4) with true.
    change (0 + LOG_BASE + LOG_BASE <? 8 * 4) with true. change (0 + LOG_BASE + LOG_BASE + LOG_BASE <? 8 * 4) with true.
    change (0 + LOG_BASE + LOG_BASE + LOG_BASE + LOG_BASE <? 8 * 4) with false.
    cbn [negb]. cbv iota. rewrite E1. cbn [mbind res_bind]. change (0 + LOG_BASE) with 8. rewrite E2. cbn [mbind res_bind].
    change (8 + LOG_BASE) with 16. rewrite E3. cbn [mbind res_bind]. change (16 + LOG_BASE) with 24. by rewrite E4.
  - rewrite <- P in Hr. clear -O4 Hr.
    induction O4 as [|x l Hsl IH Hx]; [constructor|]. apply Forall_cons in Hr as [Hx0 Hr]. constructor; [by apply IH|].
    rewrite Forall_forall in *. intros y Hy. specialize (Hx y Hy). specialize (Hr y Hy). unfold low_le in Hx.
    change (24 + 8) with 32 in Hx. rewrite !Z.mod_small in Hx by lia. done.
Qed.

(** ** The programs *)

Lemma wrapS_inj_u32 x y : 0 <= x < 2 ^ 32 -> 0 <= y < 2 ^ 32 -> wrapS 32 x = wrapS 32 y -> x = y.
Proof.
  intros Hx Hy E. apply (f_equal (wrapU 32)) in E. rewrite !wrapU_wrapS in E by lia. by rewrite !(wrapU_small 32) in E by lia.
Qed.

Lemma map_wrapS_inj l k : Forall (fun x => 0 <= x < 2 ^ 32) l -> Forall (fun x => 0 <= x < 2 ^ 32) k ->
  wrapS 32 <$> l = wrapS 32 <$> k -> l = k.
Proof.
  intros Hl. revert k. induction Hl as [|x l Hx Hl IH]; intros [|y k] Hk E; [done..|]. apply Forall_cons in Hk as [Hy Hk].
  rewrite !fmap_cons in E. injection E as E1 E2. f_equal; [by apply wrapS_inj_u32|by apply IH].
Qed.

Lemma verify_u32 n a b : n < 2 ^ 31 -> Z.of_nat (length a) = n -> length b = length a ->
  Forall (fun x => 0 <= x < 2 ^ 32) a -> Forall (fun x => 0 <= x < 2 ^ 32) b ->
  verify n (wrapS 32 <$> a) (wrapS 32 <$> b) = 0 <-> a = b.
Proof.
  intros Hm Hn Hb Ha Hb'. destruct (verify_correct n (wrapS 32 <$> a) (wrapS 32 <$> b) Hm) as [-> _];
    [rewrite length_fmap; lia..|]. split; [by apply map_wrapS_inj|by intros ->].
Qed.

(** C30: The radix sort benchmark, for every input of fewer than 2^31 32-bit numbers, runs to its end
    inside its arrays and buckets.  It returns 0 exactly when the expected data is the input in
    order, and, with the run that fills the caches, which sorts the expected data first, when it is
    the input in any order. *)
Theorem rsort_main_passes PREALLOCATE input_data verify_data scratch :
  Z.of_nat (length input_data) < 2 ^ 31 ->
  length verify_data = length input_data -> length scratch = length input_data ->
  Forall (fun x => 0 <= x < 2 ^ 32) input_data -> Forall (fun x => 0 <= x < 2 ^ 32) verify_data ->
  exists r, rsort_main PREALLOCATE input_data verify_data scratch = Ok r /\
    (r = 0 <-> verify_data ≡ₚ input_data /\ (PREALLOCATE = true \/ StronglySorted Z.le verify_data)).
Proof.
  intros Hl Hv Hs Hi Hr. unfold rsort_main. destruct PREALLOCATE.
  - destruct (radix_sort_correct verify_data scratch) as (v & left & -> & Pv & Sv & Lv); [lia|lia|done|]. cbn [mbind res_bind].
    pose proof (proj2 (verify_u32 _ input_data input_data Hl eq_refl eq_refl Hi Hi) eq_refl) as ->.
    change (negb (0 =? 0)) with false. cbv iota.
    destruct (radix_sort_correct input_data left) as (a & ? & -> & Pa & Sa & _); [lia|lia|done|]. cbn [mbind res_bind].
    eexists. split; [done|].
    rewrite verify_u32; [|done|by rewrite (Permutation_length Pa)|rewrite (Permutation_length Pa), (Permutation_length Pv); lia
                         |by rewrite Pa|by rewrite Pv].
    split; [intros ->; split; [by rewrite <- Pv|by left]|].
    intros [P _]. apply (StronglySorted_unique Z.le); [done..|]. by rewrite Pa, Pv.
  - destruct (radix_sort_correct input_data scratch) as (a & ? & -> & Pa & Sa & _); [lia|lia|done|]. cbn [mbind res_bind].
    eexists. split; [done|].
    rewrite verify_u32; [|done|by rewrite (Permutation_length Pa)|rewrite (Permutation_length Pa); lia|by rewrite Pa|done].
    split; [intros <-; split; [done|by right]|].
    intros [P [?|S]]; [done|]. apply (StronglySorted_unique Z.le); [done..|]. by rewrite Pa.
Qed.

Lemma rsort_main_passes_witness :
  exists r, rsort_main true [70000; 3; 4294967295; 3; 258] [3; 3; 258; 70000; 4294967295] [0; 0; 0; 0; 0] = Ok r /\
    (r = 0 <-> [3; 3; 258; 70000; 4294967295] ≡ₚ [70000; 3; 4294967295; 3; 258] /\
       (true = true \/ StronglySorted Z.le [3; 3; 258; 70000; 4294967295])).
Proof. apply (rsort_main_passes true); [simpl; lia|reflexivity|reflexivity|repeat constructor; lia..]. Defined.

(** The multiplication benchmark returns 0 exactly when the expected data is the products. *)
Lemma multiply_all_ok xs ys results : length xs = length results -> length ys = length results ->
  multiply_all xs ys results = Ok (zip_with multiply xs ys).
Proof.
  intros Hx Hy. unfold multiply_all.
  assert (forall k, 0 <= k -> k <= Z.of_nat (length results) ->
    forM (seqZ 0 k) (fun i results_data =>
      x ← vget xs i; y ← vget ys i; vset results_data i (multiply x y)) results =
    Ok (take (Z.to_nat k) (zip_with multiply xs ys) ++ drop (Z.to_nat k) results)) as Hk.
  { intros k Hk. pattern k. apply natlike_ind; [done|..|done]. clear k Hk. intros k Hk IH Hle. change (Z.succ k) with (k + 1).
    rewrite seqZ_snoc, forM_app, IH by lia. cbn [mbind res_bind forM]. rewrite Z.add_0_l.
    destruct (lookup_lt_is_Some_2 xs (Z.to_nat k)) as [x Ex]; [lia|].
    destruct (lookup_lt_is_Some_2 ys (Z.to_nat k)) as [y Ey]; [lia|].
    rewrite (proj2 (vget_Ok xs k x)), (proj2 (vget_Ok ys k y)) by done. cbn [mbind res_bind].
    assert (length (take (Z.to_nat k) (zip_with multiply xs ys)) = Z.to_nat k) as Lt.
    { rewrite length_take, length_zip_with. lia. }
    rewrite vset_Ok by (rewrite length_app, Lt, length_drop; lia). cbn [mbind res_bind]. f_equal.
    replace (Z.to_nat (k + 1)) with (S (Z.to_nat k)) by lia.
    rewrite (take_S_r _ _ (multiply x y)) by (apply lookup_zip_with_Some; by exists x, y).
    rewrite <- app_assoc, insert_app_r_alt by lia. rewrite Lt, Nat.sub_diag. f_equal.
    destruct (lookup_lt_is_Some_2 results (Z.to_nat k)) as [r Er]; [lia|]. by rewrite (drop_S _ _ _ Er). }
  rewrite Hk by lia. f_equal. rewrite Nat2Z.id, drop_all, app_nil_r. apply take_ge. rewrite length_zip_with. lia.
Qed.

Lemma multiply_main_passes PREALLOCATE xs ys results ver :
  Z.of_nat (length results) < 2 ^ 31 ->
  length xs = length results -> length ys = length results -> length ver = length results ->
  Forall (fun x => - 2 ^ 31 <= x < 2 ^ 31) xs -> Forall (fun y => - 2 ^ 31 <= y < 2 ^ 31) ys ->
  exists r, multiply_main PREALLOCATE xs ys results ver = Ok r /\
    (r = 0 <-> ver = zip_with (fun x y => s32 (x * y)) xs ys).
Proof.
  intros Hl Hx Hy Hv Rx Ry. assert (length (zip_with multiply xs ys) = length results) as Lz by (rewrite length_zip_with; lia).
  assert (zip_with multiply xs ys = zip_with (fun x y => s32 (x * y)) xs ys) as Ez.
  { clear -Rx Ry. revert ys Ry. induction Rx as [|x xs Hx Rx IH]; intros [|y ys] Ry; [done..|].
    apply Forall_cons in Ry as [Hy Ry]. cbn [zip_with]. rewrite multiply_correct by done. f_equal. by apply IH. }
  exists (verify (Z.of_nat (length results)) (zip_with multiply xs ys) ver). split.
  - unfold multiply_main. rewrite (multiply_all_ok xs ys results) by done. destruct PREALLOCATE; cbn [mbind res_bind].
    + rewrite multiply_all_ok by lia. cbn [mbind res_bind]. by rewrite Lz.
    + rewrite multiply_all_ok by lia. cbn [mbind res_bind]. by rewrite Lz.
  - destruct (verify_correct (Z.of_nat (length results)) (zip_with multiply xs ys) ver) as [-> _]; [lia..|].
    rewrite Ez. split; by intros ->.
Qed.

(** The filter's output, by position. *)
Definition filtered (input out : list Z) : Prop :=
  out !! 0%nat = Some 0 /\ out !! (length input - 1)%nat = Some 0 /\
  forall i, 1 <= Z.of_nat i < Z.of_nat (length input) - 1 ->
    let A := input !!! (i - 1)%nat in let B := input !!! i in let C := input !!! (i + 1)%nat in
    out !! i = Some (Z.max (Z.min A B) (Z.min (Z.max A B) C)).

Lemma filtered_unique input out out' : length out = length input -> length out' = length input ->
  filtered input out -> filtered input out' -> out = out'.
Proof.
  intros L L' (F0 & Fn & Fi) (F0' & Fn' & Fi'). apply list_eq. intros i.
  destruct (decide (i = 0%nat)) as [->|]; [congruence|]. destruct (decide (i = length input - 1)%nat) as [->|]; [congruence|].
  destruct (decide (i < length input)%nat); [rewrite Fi, Fi'; [done|lia..]|]. rewrite !lookup_ge_None_2 by lia. done.
Qed.

(** The median benchmark returns 0 exactly when the expected data is the filtered input. *)
Lemma median_main_passes PREALLOCATE input results ver : 1 <= Z.of_nat (length input) < 2 ^ 31 ->
  length results = length input -> length ver = length input ->
  exists r, median_main PREALLOCATE input results ver = Ok r /\ (r = 0 <-> filtered input ver).
Proof.
  intros Hn Hr Hv. assert (forall res, length res = length input ->
    exists out, median (Z.of_nat (length input)) input res = Ok out /\ length out = length input /\ filtered input out) as Hm.
  { intros res Hres. destruct (median_correct (Z.of_nat (length input)) input res) as (out & E & L & F0 & Fn & Fi); [lia..|].
    exists out. split; [done|]. split; [lia|]. split; [done|]. split; [|done].
    by replace (length input - 1)%nat with (Z.to_nat (Z.of_nat (length input) - 1)) by lia. }
  assert (forall out, length out = length input -> filtered input out ->
    (verify (Z.of_nat (length input)) out ver = 0 <-> filtered input ver)) as Hok.
  { intros out L F. destruct (verify_correct (Z.of_nat (length input)) out ver) as [-> _]; [lia..|].
    split; [by intros <-|]. by apply filtered_unique. }
  unfold median_main. destruct PREALLOCATE.
  - destruct (Hm results Hr) as (o1 & -> & L1 & _). cbn [mbind res_bind].
    destruct (Hm o1 L1) as (o2 & -> & L2 & F2). cbn [mbind res_bind]. eexists. split; [done|]. by apply Hok.
  - cbn [mbind res_bind]. destruct (Hm results Hr) as (o1 & -> & L1 & F1). cbn [mbind res_bind]. eexists. split; [done|]. by apply Hok.
Qed.
