(* ===== verification/Qsort.v ===== *)
(** * Quicksort benchmark

    [riscv-tests/benchmarks/qsort/qsort_main.c]: [insertion_sort], [selection_sort] and the
    non-recursive [sort] with its stack of pending ranges.  The pointers into the array are offsets
    from [arr]; an access outside the array or outside the stack of [NSTACK] pointers is an error.
    The main theorem: for fewer than 11 * 2^24 elements [sort] returns with the elements in order,
    without leaving the array (the scans of the partitioning have no bounds of their own) or the
    stack. *)
From S2P Require Import Prelude Runtime DramCommon.
From Stdlib Require Import Sorted.
From stdpp Require Import list sorting.
Local Open Scope list_scope.
Local Open Scope Z_scope.

Definition INSERTION_THRESHOLD : Z := 10.
Definition NSTACK : Z := 50.

Definition SWAP (i j : Z) (arr : list Z) : M (list Z) :=
  x ← vget arr i; y ← vget arr j; arr ← vset arr i y; vset arr j x.

Definition SWAP_IF_GREATER (i j : Z) (arr : list Z) : M (list Z) :=
  x ← vget arr i; y ← vget arr j; if y <? x then SWAP i j arr else Ok arr.

(** ** Insertion and selection sort *)

(** The loop that opens a place for [value], and where the place is. *)
Fixpoint shift_up (fuel : nat) (base value j : Z) (arr : list Z) : M (Z * list Z) :=
  match fuel with
  | O => NoFuel
  | S fuel =>
      x ← vget arr (j - 1);
      if value <? x then
        arr ← vset arr j x;
        let j := j - 1 in
        if j =? base then Ok (j, arr) else shift_up fuel base value j arr
      else Ok (j, arr)
  end.

Definition insert_value (base i : Z) (arr : list Z) : M (list Z) :=
  value ← vget arr i;
  '(j, arr) ← shift_up (Z.to_nat (i - base)) base value i arr;
  vset arr j value.

(** [insertion_sort(n, arr + base)]. *)
Definition insertion_sort (n base : Z) (arr : list Z) : M (list Z) :=
  forM (seqZ (base + 1) (n - 1)) (insert_value base) arr.

Definition selection_sort (n : Z) (arr : list Z) : M (list Z) :=
  forM (seqZ 0 (n - 1)) (fun i => forM (seqZ (i + 1) (n - (i + 1))) (fun j => SWAP_IF_GREATER i j)) arr.

(** ** Partitioning *)

(** The scans up to an element not below [a] and down to one not above it; each leaves its pointer
    one place after the element. *)
Fixpoint scan_up (fuel : nat) (a : Z) (arr : list Z) (i : Z) : M Z :=
  match fuel with
  | O => NoFuel
  | S fuel => x ← vget arr i; if x <? a then scan_up fuel a arr (i + 1) else Ok (i + 1)
  end.
Fixpoint scan_down (fuel : nat) (a : Z) (arr : list Z) (j : Z) : M Z :=
  match fuel with
  | O => NoFuel
  | S fuel => x ← vget arr (j - 2); if a <? x then scan_down fuel a arr (j - 1) else Ok (j - 1)
  end.

(** The innermost loop, until the pointers have crossed. *)
Fixpoint partition_loop (fuel : nat) (a i j : Z) (arr : list Z) : M (Z * Z * list Z) :=
  match fuel with
  | O => NoFuel
  | S fuel =>
      i ← scan_up (length arr) a arr i;
      j ← scan_down (length arr) a arr j;
      if j <? i then Ok (i, j, arr)
      else arr ← SWAP (i - 1) (j - 1) arr; partition_loop fuel a i j arr
  end.

(** The median of three, the partition and the insertion of the partitioning element. *)
Definition partition (l ir : Z) (arr : list Z) : M (Z * Z * list Z) :=
  arr ← SWAP ((l + ir) / 2 - 1) l arr;
  arr ← SWAP_IF_GREATER (l - 1) (ir - 1) arr;
  arr ← SWAP_IF_GREATER l (ir - 1) arr;
  arr ← SWAP_IF_GREATER (l - 1) l arr;
  a ← vget arr l;
  '(i, j, arr) ← partition_loop (length arr) a (l + 1) ir arr;
  x ← vget arr (j - 1);
  arr ← vset arr l x;
  arr ← vset arr (j - 1) a;
  Ok (i, j, arr).

(** ** The driver *)

(** One turn of the outer loop from [l], [ir], the stack, its pointer and the array: whether the
    loop is left, and the same afterwards. *)
Definition sort_turn (l ir : Z) (stack : list Z) (stackp : Z) (arr : list Z)
    : M (bool * (Z * Z * list Z * Z * list Z)) :=
  if ir - l <? INSERTION_THRESHOLD then
    arr ← insertion_sort (ir - l + 1) (l - 1) arr;
    if stackp =? 0 then Ok (true, (l, ir, stack, stackp, arr))
    else
      ir ← vget stack stackp;
      l ← vget stack (stackp - 1);
      Ok (false, (l, ir, stack, stackp - 2, arr))
  else
    '(i, j, arr) ← partition l ir arr;
    let stackp := stackp + 2 in
    if j - l <=? ir - i + 1 then
      stack ← vset stack stackp ir;
      stack ← vset stack (stackp - 1) i;
      Ok (false, (l, j - 1, stack, stackp, arr))
    else
      stack ← vset stack stackp (j - 1);
      stack ← vset stack (stackp - 1) l;
      Ok (false, (i, ir, stack, stackp, arr)).

Fixpoint sort_loop (fuel : nat) (s : Z * Z * list Z * Z * list Z) : M (list Z) :=
  match fuel with
  | O => NoFuel
  | S fuel =>
      let '(l, ir, stack, stackp, arr) := s in
      '(stop, s) ← sort_turn l ir stack stackp arr;
      if (stop : bool) then Ok s.2 else sort_loop fuel s
  end.

(** [sort]: [stack] is what the array of the stack held before.  Every turn ends a pending range or
    takes an element out of one, so twice the size is fuel enough. *)
Definition sort (n : Z) (stack arr : list Z) : M (list Z) :=
  sort_loop (2 * Z.to_nat n + 2) (1, n, stack, 0, arr).

(** [main] on the data of the benchmark, with or without the run that fills the caches; [stack1] and
    [stack2] are what the stack holds before each run. *)
Definition qsort_main (PREALLOCATE : bool) (stack1 stack2 input_data verify_data : list Z) : M Z :=
  let DATA_SIZE := Z.of_nat (length input_data) in
  if PREALLOCATE then
    input_dataX ← sort DATA_SIZE stack1 input_data;
    if negb (verify DATA_SIZE input_dataX verify_data =? 0) then Ok 1
    else input_dataX ← sort DATA_SIZE stack2 input_dataX; Ok (verify DATA_SIZE input_dataX verify_data)
  else input_dataX ← sort DATA_SIZE stack2 input_data; Ok (verify DATA_SIZE input_dataX verify_data).

Example sort_example :
  sort 16 (replicate 50 0) [9; 3; 7; 1; 12; 0; 5; 5; 2; 14; 8; 6; 11; 4; 13; 10] =
  Ok [0; 1; 2; 3; 4; 5; 5; 6; 7; 8; 9; 10; 11; 12; 13; 14].
Proof. vm_compute. reflexivity. Qed.

(** ** Arrays by position *)

Definition at_pos (arr : list Z) (p : Z) : Z := arr !!! Z.to_nat p.
Definition in_arr (arr : list Z) (p : Z) : Prop := 0 <= p < Z.of_nat (length arr).

Lemma vget_at arr p : in_arr arr p -> vget arr p = Ok (at_pos arr p).
Proof. intros Hp. apply vget_Ok. unfold in_arr in Hp. split; [lia|]. apply list_lookup_lookup_total_lt. lia. Qed.

Lemma at_insert arr p q v : in_arr arr p -> 0 <= q ->
  at_pos (<[Z.to_nat p := v]> arr) q = if q =? p then v else at_pos arr q.
Proof.
  unfold in_arr, at_pos. intros Hp Hq. destruct (Z.eqb_spec q p) as [->|Hne].
  - apply list_lookup_total_insert_eq. lia.
  - apply list_lookup_total_insert_ne. lia.
Qed.

(** The array with two places exchanged. *)
Definition swapped (p q : Z) (arr : list Z) : list Z :=
  <[Z.to_nat q := at_pos arr p]> (<[Z.to_nat p := at_pos arr q]> arr).

Lemma swapped_length p q arr : length (swapped p q arr) = length arr.
Proof. unfold swapped. by rewrite !length_insert. Qed.

Lemma at_swapped p q arr r : in_arr arr p -> in_arr arr q -> 0 <= r ->
  at_pos (swapped p q arr) r = if r =? q then at_pos arr p else if r =? p then at_pos arr q else at_pos arr r.
Proof.
  intros Hp Hq Hr. unfold swapped. rewrite at_insert; [by rewrite at_insert by done| |done].
  unfold in_arr. by rewrite length_insert.
Qed.

Lemma SWAP_ok p q arr : in_arr arr p -> in_arr arr q -> SWAP p q arr = Ok (swapped p q arr).
Proof.
  intros Hp Hq. unfold SWAP. rewrite !vget_at by done. cbn [mbind res_bind]. rewrite vset_Ok by done.
  cbn [mbind res_bind]. by rewrite vset_Ok by (by rewrite length_insert).
Qed.

Lemma swapped_perm p q arr : in_arr arr p -> in_arr arr q -> swapped p q arr ≡ₚ arr.
Proof.
  intros Hp Hq. apply Permutation_inj. split; [by rewrite swapped_length|].
  exists (fun r => if decide (r = Z.to_nat q) then Z.to_nat p else if decide (r = Z.to_nat p) then Z.to_nat q else r).
  unfold in_arr in *. split.
  - intros r r'. repeat case_decide; lia.
  - intros r. unfold swapped, at_pos. case_decide as Hrq; [|case_decide as Hrp].
    + subst. rewrite list_lookup_insert_eq by (rewrite length_insert; lia). symmetry. apply list_lookup_lookup_total_lt. lia.
    + subst. rewrite list_lookup_insert_ne, list_lookup_insert_eq by lia. symmetry. apply list_lookup_lookup_total_lt. lia.
    + by rewrite !list_lookup_insert_ne by lia.
Qed.

(** [new] is [old] with the places from [lo] to below [hi] rearranged. *)
Record rearranged (lo hi : Z) (old new : list Z) : Prop := mkRearranged {
  re_length : length new = length old;
  re_perm : new ≡ₚ old;
  re_outside : forall p, 0 <= p -> ~ lo <= p < hi -> at_pos new p = at_pos old p;
  re_inside : forall p, lo <= p < hi -> exists p', lo <= p' < hi /\ at_pos new p = at_pos old p'
}.

Lemma rearranged_refl lo hi arr : rearranged lo hi arr arr.
Proof. split; [done|done|done|]. intros p Hp. by exists p. Qed.

Lemma rearranged_trans lo hi a b c : rearranged lo hi a b -> rearranged lo hi b c -> rearranged lo hi a c.
Proof.
  intros [L1 P1 O1 I1] [L2 P2 O2 I2]. split; [congruence|by rewrite P2|..].
  - intros p H0 Hp. by rewrite O2, O1.
  - intros p Hp. destruct (I2 p Hp) as (p' & Hp' & ->). apply (I1 p' Hp').
Qed.

Lemma rearranged_swap lo hi p q arr : 0 <= lo -> hi <= Z.of_nat (length arr) -> lo <= p < hi -> lo <= q < hi ->
  rearranged lo hi arr (swapped p q arr).
Proof.
  intros Hlo Hhi Hp Hq. assert (in_arr arr p /\ in_arr arr q) as [Ip Iq] by (unfold in_arr; lia).
  split; [apply swapped_length|by apply swapped_perm|..]; intros r Hr.
  - intros Hne. rewrite at_swapped by done. by rewrite (proj2 (Z.eqb_neq r q)), (proj2 (Z.eqb_neq r p)) by lia.
  - rewrite at_swapped by (done || lia). destruct (r =? q); [by exists p|]. destruct (r =? p); [by exists q|by exists r].
Qed.

(** In order from [lo] to below [hi]. *)
Definition ordered (lo hi : Z) (arr : list Z) : Prop :=
  forall p q, lo <= p < q -> q < hi -> at_pos arr p <= at_pos arr q.

Lemma ordered_sorted arr : ordered 0 (Z.of_nat (length arr)) arr -> StronglySorted Z.le arr.
Proof.
  induction arr as [|x arr IH]; intros Ho; constructor.
  - apply IH. intros p q Hp Hq. specialize (Ho (p + 1) (q + 1)). unfold at_pos in *. cbn [length] in Ho.
    rewrite !Z2Nat.inj_add, !Nat.add_1_r in Ho by lia. apply Ho; lia.
  - apply Forall_lookup. intros i y Hi. pose proof (lookup_lt_Some _ _ _ Hi).
    specialize (Ho 0 (Z.of_nat i + 1)). unfold at_pos in Ho. cbn [length] in Ho.
    rewrite Z2Nat.inj_add, Nat2Z.id, Nat.add_1_r in Ho by lia.
    rewrite (list_lookup_total_correct (x :: arr) (S i) y Hi) in Ho. apply Ho; lia.
Qed.

(** ** Insertion sort *)

(** With the value in the open place, every step of the loop is an exchange. *)
Lemma shift_up_ok base i value fuel j arr : 0 <= base -> i < Z.of_nat (length arr) -> base < j <= i -> j - base <= Z.of_nat fuel ->
  (forall p q, base <= p < q -> q <= i -> p <> j -> q <> j -> at_pos arr p <= at_pos arr q) ->
  (forall q, j < q <= i -> value <= at_pos arr q) ->
  exists j' arr', shift_up fuel base value j arr = Ok (j', arr') /\ base <= j' <= i /\
    rearranged base (i + 1) (<[Z.to_nat j := value]> arr) (<[Z.to_nat j' := value]> arr') /\
    ordered base (i + 1) (<[Z.to_nat j' := value]> arr') /\ length arr' = length arr.
Proof.
  intros Hb Hi. revert j arr Hi. induction fuel as [|fuel IH]; intros j arr Hi Hj Hf Hs Hv; [lia|]. cbn [shift_up].
  assert (in_arr arr j /\ in_arr arr (j - 1)) as [Ij Ij'] by (unfold in_arr; lia).
  rewrite vget_at by done. cbn [mbind res_bind]. destruct (Z.ltb_spec value (at_pos arr (j - 1))) as [Hlt|Hge].
  - rewrite vset_Ok by done. cbn [mbind res_bind]. set (arr1 := <[Z.to_nat j := at_pos arr (j - 1)]> arr).
    assert (<[Z.to_nat (j - 1) := value]> arr1 = swapped (j - 1) j (<[Z.to_nat j := value]> arr)) as E1.
    { subst arr1. unfold swapped. rewrite !at_insert by (done || lia). rewrite Z.eqb_refl, (proj2 (Z.eqb_neq (j - 1) j)) by lia.
      rewrite (list_insert_insert_ne _ (Z.to_nat j) (Z.to_nat (j - 1))) by lia. by rewrite list_insert_insert_eq. }
    assert (length arr1 = length arr) as L1 by apply length_insert.
    assert (rearranged base (i + 1) (<[Z.to_nat j := value]> arr) (<[Z.to_nat (j - 1) := value]> arr1)) as R1.
    { rewrite E1. apply rearranged_swap; rewrite ?length_insert; lia. }
    assert (forall p, 0 <= p -> at_pos arr1 p = if p =? j then at_pos arr (j - 1) else at_pos arr p) as A1.
    { intros p Hp. by apply at_insert. }
    assert (forall p q, base <= p < q -> q <= i -> p <> j - 1 -> q <> j - 1 -> at_pos arr1 p <= at_pos arr1 q) as S1.
    { intros p q Hp Hq Np Nq. rewrite !A1 by lia.
      destruct (Z.eqb_spec p j), (Z.eqb_spec q j); subst; try lia; apply Hs; lia. }
    assert (forall q, j - 1 < q <= i -> value <= at_pos arr1 q) as V1.
    { intros q Hq. rewrite A1 by lia. destruct (Z.eqb_spec q j); [lia|]. apply Hv. lia. }
    destruct (Z.eqb_spec (j - 1) base) as [Ebase|Nbase].
    + exists (j - 1), arr1. split; [done|]. split; [lia|]. split; [done|]. split; [|done].
      intros p q Hp Hq. rewrite !at_insert by (unfold in_arr in *; lia).
      rewrite (proj2 (Z.eqb_neq q (j - 1))) by lia. destruct (Z.eqb_spec p (j - 1)); [apply V1; lia|apply S1; lia].
    + destruct (IH (j - 1) arr1) as (j' & arr' & -> & Hj' & R & O & L); [lia|lia|lia|done|done|].
      exists j', arr'. split; [done|]. split; [done|]. split; [by eapply rearranged_trans|]. split; [done|congruence].
  - exists j, arr. split; [done|]. split; [lia|]. split; [apply rearranged_refl|]. split; [|done].
    intros p q Hp Hq. rewrite !at_insert by (done || lia). destruct (Z.eqb_spec q j) as [->|Nq]; [|destruct (Z.eqb_spec p j) as [->|Np]].
    + rewrite (proj2 (Z.eqb_neq p j)) by lia. destruct (Z.eq_dec p (j - 1)) as [->|]; [done|].
      transitivity (at_pos arr (j - 1)); [apply Hs; lia|done].
    + apply Hv. lia.
    + apply Hs; lia.
Qed.

Lemma insertion_step_ok base i arr : 0 <= base < i -> i < Z.of_nat (length arr) -> ordered base i arr ->
  exists arr', insert_value base i arr = Ok arr' /\ rearranged base (i + 1) arr arr' /\ ordered base (i + 1) arr'.
Proof.
  intros Hb Hi Ho. unfold insert_value. rewrite vget_at by (unfold in_arr; lia). cbn [mbind res_bind].
  destruct (shift_up_ok base i (at_pos arr i) (Z.to_nat (i - base)) i arr) as (j & arr' & -> & Hj & R & O & L); [lia..| | |].
  - intros p q Hp Hq Np Nq. apply Ho; lia.
  - lia.
  - cbn [mbind res_bind]. rewrite vset_Ok by lia. eexists. split; [done|]. split; [|done].
    replace arr with (<[Z.to_nat i := at_pos arr i]> arr) at 1; [done|].
    apply list_insert_id. apply list_lookup_lookup_total_lt. lia.
Qed.

Lemma rearranged_wider lo hi hi' old new : hi <= hi' -> 0 <= lo -> rearranged lo hi old new -> rearranged lo hi' old new.
Proof.
  intros Hhi Hlo [L P O I]. split; [done|done|..].
  - intros p H0 Hp. apply O; [done|lia].
  - intros p Hp. destruct (Z.lt_ge_cases p hi) as [Hlt|Hge].
    + destruct (I p) as (p' & Hp' & E); [lia|]. exists p'. split; [lia|done].
    + exists p. split; [done|]. apply O; lia.
Qed.

(** [insertion_sort] sorts its part of the array and leaves the rest. *)
Lemma insertion_sort_ok n base arr : 0 <= base -> 0 <= n -> base + n <= Z.of_nat (length arr) ->
  exists arr', insertion_sort n base arr = Ok arr' /\ rearranged base (base + n) arr arr' /\ ordered base (base + n) arr'.
Proof.
  intros Hb Hn Hl. unfold insertion_sort. destruct (Z.eq_dec n 0) as [->|Hn0].
  { exists arr. split; [done|]. split; [apply rearranged_refl|]. intros p q. lia. }
  assert (forall k, 0 <= k -> k < n -> exists arr', forM (seqZ (base + 1) k) (insert_value base) arr = Ok arr' /\
    rearranged base (base + k + 1) arr arr' /\ ordered base (base + k + 1) arr') as Hk.
  { intros k Hk. pattern k. apply natlike_ind; [..|done]; clear k Hk.
    - intros _. exists arr. split; [done|]. split; [apply rearranged_refl|]. intros p q. lia.
    - intros k Hk IH Hlt. destruct IH as (a1 & E & R & O); [lia|]. change (Z.succ k) with (k + 1).
      rewrite seqZ_snoc, forM_app, E by done. cbn [mbind res_bind forM]. pose proof (re_length _ _ _ _ R).
      replace (base + 1 + k) with (base + k + 1) by lia.
      destruct (insertion_step_ok base (base + k + 1) a1) as (a2 & -> & R2 & O2); [lia|lia|done|].
      cbn [mbind res_bind]. exists a2. replace (base + (k + 1) + 1) with (base + k + 1 + 1) by lia.
      split; [done|]. split; [|done]. eapply rearranged_trans; [|done]. eapply rearranged_wider; [..|done]; lia. }
  destruct (Hk (n - 1)) as (arr' & E & R & O); [lia..|]. replace (base + (n - 1) + 1) with (base + n) in * by lia. eauto.
Qed.

(** ** Selection sort *)

Lemma SWAP_IF_GREATER_ok i j arr : in_arr arr i -> in_arr arr j ->
  SWAP_IF_GREATER i j arr = Ok (if at_pos arr j <? at_pos arr i then swapped i j arr else arr).
Proof.
  intros Hi Hj. unfold SWAP_IF_GREATER. rewrite !vget_at by done. cbn [mbind res_bind].
  destruct (_ <? _); [by apply SWAP_ok|done].
Qed.

(** What a conditional exchange does. *)
Lemma sorted_pair i j arr arr' lo hi : 0 <= lo -> hi <= Z.of_nat (length arr) -> lo <= i < j -> j < hi ->
  arr' = (if at_pos arr j <? at_pos arr i then swapped i j arr else arr) ->
  rearranged lo hi arr arr' /\ at_pos arr' i = Z.min (at_pos arr i) (at_pos arr j) /\
  at_pos arr' j = Z.max (at_pos arr i) (at_pos arr j) /\
  forall p, 0 <= p -> p <> i -> p <> j -> at_pos arr' p = at_pos arr p.
Proof.
  intros Hlo Hhi Hi Hj ->. assert (in_arr arr i /\ in_arr arr j) as [Ii Ij] by (unfold in_arr; lia).
  destruct (Z.ltb_spec (at_pos arr j) (at_pos arr i)).
  - split; [apply rearranged_swap; lia|]. rewrite !at_swapped by (done || lia).
    rewrite !Z.eqb_refl, (proj2 (Z.eqb_neq i j)) by lia. split; [lia|]. split; [lia|].
    intros p Hp Ni Nj. rewrite at_swapped by done. by rewrite (proj2 (Z.eqb_neq p i)), (proj2 (Z.eqb_neq p j)) by lia.
  - split; [apply rearranged_refl|]. split; [lia|]. split; [lia|done].
Qed.

(** The inner loop brings the least of the rest to the place [i]. *)
Lemma select_ok i k arr : 0 <= i -> 0 <= k -> i + 1 + k <= Z.of_nat (length arr) ->
  exists arr', forM (seqZ (i + 1) k) (fun j => SWAP_IF_GREATER i j) arr = Ok arr' /\
    rearranged i (i + 1 + k) arr arr' /\ forall p, i <= p < i + 1 + k -> at_pos arr' i <= at_pos arr' p.
Proof.
  intros Hi Hk. pattern k. apply natlike_ind; [..|done]; clear k Hk.
  - intros _. exists arr. split; [done|]. split; [apply rearranged_refl|]. intros p Hp. replace p with i by lia. done.
  - intros k Hk IH Hl. destruct IH as (a1 & E & R & Hmin); [lia|]. change (Z.succ k) with (k + 1) in *.
    rewrite seqZ_snoc, forM_app, E by done. cbn [mbind res_bind forM]. pose proof (re_length _ _ _ _ R).
    rewrite SWAP_IF_GREATER_ok by (unfold in_arr; lia). cbn [mbind res_bind]. eexists. split; [done|].
    destruct (sorted_pair i (i + 1 + k) a1 _ i (i + 1 + (k + 1)) Hi ltac:(lia) ltac:(lia) ltac:(lia) eq_refl)
      as (R1 & Ei & Ej & Eo).
    split; [eapply rearranged_trans; [eapply rearranged_wider; [..|exact R]; lia|exact R1]|].
    intros p Hp. rewrite Ei. destruct (Z.eq_dec p i) as [->|]; [lia|]. destruct (Z.eq_dec p (i + 1 + k)) as [->|]; [lia|].
    rewrite Eo by lia. specialize (Hmin p). lia.
Qed.

(** [selection_sort] sorts the array. *)
Lemma selection_sort_correct n arr : Z.of_nat (length arr) = n ->
  exists arr', selection_sort n arr = Ok arr' /\ arr' ≡ₚ arr /\ StronglySorted Z.le arr'.
Proof.
  intros Hn. unfold selection_sort. destruct (Z.eq_dec n 0) as [E0|Hn0].
  { destruct arr; [|simpl in Hn; lia]. subst n. exists []. split; [done|]. split; [done|constructor]. }
  assert (forall k, 0 <= k -> k < n -> exists arr',
    forM (seqZ 0 k) (fun i => forM (seqZ (i + 1) (n - (i + 1))) (fun j => SWAP_IF_GREATER i j)) arr = Ok arr' /\
    arr' ≡ₚ arr /\ forall p q, 0 <= p < k -> p < q < n -> at_pos arr' p <= at_pos arr' q) as Hk.
  { intros k Hk. pattern k. apply natlike_ind; [..|done]; clear k Hk.
    - intros _. exists arr. split; [done|]. split; [done|]. lia.
    - intros k Hk IH Hlt. destruct IH as (a1 & E & P & O); [lia|]. change (Z.succ k) with (k + 1).
      rewrite seqZ_snoc, forM_app, E by done. cbn [mbind res_bind forM]. pose proof (Permutation_length P).
      destruct (select_ok (0 + k) (n - (0 + k + 1)) a1) as (a2 & -> & R & Hmin); [lia..|]. cbn [mbind res_bind].
      exists a2. split; [done|]. split; [by rewrite (re_perm _ _ _ _ R)|]. rewrite !Z.add_0_l in *.
      replace (k + 1 + (n - (k + 1))) with n in * by lia. intros p q Hp Hq.
      destruct (Z.eq_dec p k) as [->|]; [apply Hmin; lia|]. rewrite (re_outside _ _ _ _ R p) by lia.
      destruct (Z.lt_ge_cases q k); [rewrite (re_outside _ _ _ _ R q) by lia; apply O; lia|].
      destruct (re_inside _ _ _ _ R q) as (q' & Hq' & ->); [lia|]. apply O; lia. }
  destruct (Hk (n - 1)) as (arr' & E & P & O); [lia..|]. exists arr'. split; [done|]. split; [done|].
  apply ordered_sorted. pose proof (Permutation_length P). intros p q Hp Hq. apply O; lia.
Qed.

(** ** Partitioning *)

(** An element not below [a] stops the scan up, one not above it the scan down. *)
Lemma scan_up_ok a arr s fuel i : s < Z.of_nat (length arr) -> a <= at_pos arr s -> 0 <= i <= s -> s - i < Z.of_nat fuel ->
  exists i', scan_up fuel a arr i = Ok i' /\ i < i' <= s + 1 /\ a <= at_pos arr (i' - 1) /\
    forall p, i <= p < i' - 1 -> at_pos arr p < a.
Proof.
  intros Hs Ha. revert i. induction fuel as [|fuel IH]; intros i Hi Hf; [lia|]. cbn [scan_up].
  rewrite vget_at by (unfold in_arr; lia). cbn [mbind res_bind]. destruct (Z.ltb_spec (at_pos arr i) a) as [Hlt|Hge].
  - destruct (Z.eq_dec i s) as [->|]; [lia|]. destruct (IH (i + 1)) as (i' & E & Hi' & H1 & H2); [lia..|].
    exists i'. split; [done|]. split; [lia|]. split; [done|]. intros p Hp. destruct (Z.eq_dec p i) as [->|]; [done|]. apply H2. lia.
  - exists (i + 1). split; [done|]. split; [lia|]. replace (i + 1 - 1) with i by lia. split; [done|lia].
Qed.

Lemma scan_down_ok a arr s fuel j : 0 <= s -> at_pos arr s <= a -> s <= j - 2 < Z.of_nat (length arr) -> j - 2 - s < Z.of_nat fuel ->
  exists j', scan_down fuel a arr j = Ok j' /\ s + 1 <= j' < j /\ at_pos arr (j' - 1) <= a /\
    forall p, j' <= p < j - 1 -> a < at_pos arr p.
Proof.
  intros Hs Ha. revert j. induction fuel as [|fuel IH]; intros j Hj Hf; [lia|]. cbn [scan_down].
  rewrite vget_at by (unfold in_arr; lia). cbn [mbind res_bind]. destruct (Z.ltb_spec a (at_pos arr (j - 2))) as [Hlt|Hge].
  - destruct (Z.eq_dec (j - 2) s) as [E|]; [rewrite E in Hlt; lia|].
    destruct (IH (j - 1)) as (j' & E & Hj' & H1 & H2); [lia..|].
    exists j'. split; [done|]. split; [lia|]. split; [done|]. intros p Hp.
    destruct (Z.eq_dec p (j - 2)) as [->|]; [done|]. apply H2. lia.
  - exists (j - 1). split; [done|]. split; [lia|]. replace (j - 1 - 1) with (j - 2) by lia. split; [done|lia].
Qed.

(** The range from [lo] to below [hi] while the pointers [i] and [j] approach each other, and when
    they have crossed. *)
Record parting (lo hi a i j : Z) (arr : list Z) : Prop := mkParting {
  pt_range : 0 <= lo /\ hi <= Z.of_nat (length arr) /\ lo + 2 <= i <= j /\ j <= hi /\ i < hi /\ lo + 2 < j;
  pt_low : forall p, lo <= p < i -> at_pos arr p <= a;
  pt_high : forall p, j - 1 <= p < hi -> a <= at_pos arr p;
  pt_pivot : at_pos arr (lo + 1) = a
}.
Record crossed (lo hi a i j : Z) (arr : list Z) : Prop := mkCrossed {
  cr_range : lo + 1 < j < i /\ j < hi /\ lo + 3 <= i <= hi;
  cr_low : forall p, lo <= p < i - 1 -> at_pos arr p <= a;
  cr_high : forall p, j <= p < hi -> a <= at_pos arr p;
  cr_mid : at_pos arr (j - 1) <= a;
  cr_pivot : at_pos arr (lo + 1) = a
}.

(** Both scans, from a range that is being parted. *)
Lemma scans_ok lo hi a i j arr : parting lo hi a i j arr ->
  exists i' j', scan_up (length arr) a arr i = Ok i' /\ scan_down (length arr) a arr j = Ok j' /\
    i < i' <= hi /\ lo + 1 < j' < j /\ a <= at_pos arr (i' - 1) /\ at_pos arr (j' - 1) <= a /\
    (forall p, lo <= p < i' - 1 -> at_pos arr p <= a) /\ (forall p, j' <= p < hi -> a <= at_pos arr p).
Proof.
  intros [Hr Hlow Hhigh _].
  destruct (scan_up_ok a arr (Z.max i (j - 1)) (length arr) i) as (i' & Ei & Hi & Ai & Li); [lia|apply Hhigh; lia|lia|lia|].
  destruct (scan_down_ok a arr (Z.min (i - 1) (j - 2)) (length arr) j) as (j' & Ej & Hj & Aj & Lj); [lia|apply Hlow; lia|lia|lia|].
  exists i', j'. split; [done|]. split; [done|]. split; [lia|]. split; [lia|]. split; [done|]. split; [done|]. split.
  - intros p Hp. destruct (Z.lt_ge_cases p i); [apply Hlow; lia|]. specialize (Li p). lia.
  - intros p Hp. destruct (Z.lt_ge_cases p (j - 1)); [specialize (Lj p); lia|]. apply Hhigh. lia.
Qed.

Lemma partition_loop_ok lo hi a fuel i j arr : parting lo hi a i j arr -> j - i < Z.of_nat fuel ->
  exists i' j' arr', partition_loop fuel a i j arr = Ok (i', j', arr') /\
    rearranged lo hi arr arr' /\ crossed lo hi a i' j' arr'.
Proof.
  revert i j arr. induction fuel as [|fuel IH]; intros i j arr Hp Hf; [destruct (pt_range _ _ _ _ _ _ Hp); lia|].
  destruct (scans_ok _ _ _ _ _ _ Hp) as (i' & j' & Ei & Ej & Hi & Hj & Ai & Aj & Hlow & Hhigh).
  destruct Hp as [Hr _ _ Hpv]. cbn [partition_loop]. rewrite Ei. cbn [mbind res_bind]. rewrite Ej. cbn [mbind res_bind].
  destruct (Z.ltb_spec j' i') as [Hlt|Hge].
  - exists i', j', arr. split; [done|]. split; [apply rearranged_refl|]. split; [lia|done..].
  - assert (in_arr arr (i' - 1) /\ in_arr arr (j' - 1)) as [Ii Ij] by (unfold in_arr; lia).
    rewrite SWAP_ok by done. cbn [mbind res_bind].
    destruct (IH i' j' (swapped (i' - 1) (j' - 1) arr)) as (i2 & j2 & arr2 & E & R & C); [|lia|].
    + split; [rewrite swapped_length; lia|..].
      * intros p Hp. rewrite at_swapped by (done || lia). destruct (Z.eqb_spec p (j' - 1)), (Z.eqb_spec p (i' - 1)); try lia.
        -- subst. replace (i' - 1) with (j' - 1) by lia. done.
        -- apply Hlow. lia.
      * intros p Hp. rewrite at_swapped by (done || lia). destruct (Z.eqb_spec p (j' - 1)), (Z.eqb_spec p (i' - 1)); try lia.
        apply Hhigh. lia.
      * rewrite at_swapped by (done || lia). by rewrite (proj2 (Z.eqb_neq _ (j' - 1))), (proj2 (Z.eqb_neq _ (i' - 1))) by lia.
    + exists i2, j2, arr2. split; [done|]. split; [|done]. eapply rearranged_trans; [|done]. apply rearranged_swap; lia.
Qed.

(** A partition: [i] and [j] separate a low range, elements equal to [a] and a high range. *)
Record parted (lo hi i j : Z) (arr : list Z) : Prop := mkParted {
  pd_range : lo + 1 < j < i /\ j < hi /\ lo + 3 <= i <= hi;
  pd_low : forall p q, lo <= p < j - 1 -> j - 1 <= q < hi -> at_pos arr p <= at_pos arr q;
  pd_high : forall p q, lo <= p < i - 1 -> i - 1 <= q < hi -> at_pos arr p <= at_pos arr q;
  pd_mid : forall p q, j - 1 <= p < i - 1 -> j - 1 <= q < i - 1 -> at_pos arr p = at_pos arr q
}.

(** The last exchange puts the partitioning element between them. *)
Lemma place_pivot lo hi a i j arr : 0 <= lo -> hi <= Z.of_nat (length arr) -> crossed lo hi a i j arr ->
  exists arr', (x ← vget arr (j - 1); arr ← vset arr (lo + 1) x; arr ← vset arr (j - 1) a; Ok (i, j, arr)) = Ok (i, j, arr') /\
    rearranged lo hi arr arr' /\ parted lo hi i j arr'.
Proof.
  intros Hlo Hhi [Hr Hl Hh Hm Hpv]. assert (in_arr arr (lo + 1) /\ in_arr arr (j - 1)) as [Ip Ij] by (unfold in_arr; lia).
  rewrite vget_at by done. cbn [mbind res_bind]. rewrite vset_Ok by done. cbn [mbind res_bind].
  rewrite vset_Ok by (rewrite length_insert; unfold in_arr in *; lia). cbn [mbind res_bind]. exists (swapped (lo + 1) (j - 1) arr).
  split; [unfold swapped; by rewrite Hpv|].
  split; [apply rearranged_swap; lia|].
  assert (forall p, lo <= p < j - 1 -> at_pos (swapped (lo + 1) (j - 1) arr) p <= a) as L.
  { intros p Hp. rewrite at_swapped by (done || lia). rewrite (proj2 (Z.eqb_neq p (j - 1))) by lia.
    destruct (p =? lo + 1); [done|]. apply Hl. lia. }
  assert (forall p, j - 1 <= p < hi -> a <= at_pos (swapped (lo + 1) (j - 1) arr) p) as Hg.
  { intros p Hp. rewrite at_swapped by (done || lia). destruct (Z.eqb_spec p (j - 1)); [lia|].
    rewrite (proj2 (Z.eqb_neq p (lo + 1))) by lia. apply Hh. lia. }
  assert (forall p, j - 1 <= p < i - 1 -> at_pos (swapped (lo + 1) (j - 1) arr) p = a) as Mi.
  { intros p Hp. apply Z.le_antisymm; [|apply Hg; lia]. rewrite at_swapped by (done || lia). destruct (Z.eqb_spec p (j - 1)); [lia|].
    rewrite (proj2 (Z.eqb_neq p (lo + 1))) by lia. apply Hl. lia. }
  split; [done|..].
  - intros p q Hp Hq. transitivity a; [by apply L|by apply Hg].
  - intros p q Hp Hq. transitivity a; [|apply Hg; lia]. destruct (Z.lt_ge_cases p (j - 1)); [apply L; lia|]. rewrite Mi; lia.
  - intros p q Hp Hq. by rewrite !Mi.
Qed.

Lemma partition_ok lo hi arr : 0 <= lo -> lo + 10 < hi -> hi <= Z.of_nat (length arr) ->
  exists i j arr', partition (lo + 1) hi arr = Ok (i, j, arr') /\ rearranged lo hi arr arr' /\ parted lo hi i j arr'.
Proof.
  intros Hlo Hs Hhi. unfold partition. set (mid := (lo + 1 + hi) / 2 - 1).
  assert (lo <= mid < hi) as Hmid by (subst mid; pose proof (Z.div_mod (lo + 1 + hi) 2); pose proof (Z.mod_pos_bound (lo + 1 + hi) 2); lia).
  rewrite SWAP_ok by (unfold in_arr; lia). cbn [mbind res_bind]. set (a1 := swapped mid (lo + 1) arr).
  assert (rearranged lo hi arr a1) as R1 by (apply rearranged_swap; lia). pose proof (re_length _ _ _ _ R1) as L1.
  replace (lo + 1 - 1) with lo by lia. rewrite SWAP_IF_GREATER_ok by (unfold in_arr; lia). cbn [mbind res_bind].
  match goal with |- context [SWAP_IF_GREATER _ _ ?a] => remember a as a2 eqn:E2 end.
  apply (sorted_pair lo (hi - 1) a1 a2 lo hi) in E2 as (R2 & B1 & B2 & B3); [|lia..]. pose proof (re_length _ _ _ _ R2) as L2.
  rewrite SWAP_IF_GREATER_ok by (unfold in_arr; lia). cbn [mbind res_bind].
  match goal with |- context [SWAP_IF_GREATER _ _ ?a] => remember a as a3 eqn:E3 end.
  apply (sorted_pair (lo + 1) (hi - 1) a2 a3 lo hi) in E3 as (R3 & C1 & C2 & C3); [|lia..]. pose proof (re_length _ _ _ _ R3) as L3.
  rewrite SWAP_IF_GREATER_ok by (unfold in_arr; lia). cbn [mbind res_bind].
  match goal with |- context [vget ?a (lo + 1)] => remember a as a4 eqn:E4 end.
  apply (sorted_pair lo (lo + 1) a3 a4 lo hi) in E4 as (R4 & D1 & D2 & D3); [|lia..]. pose proof (re_length _ _ _ _ R4) as L4.
  rewrite vget_at by (unfold in_arr; lia). cbn [mbind res_bind]. replace (lo + 1 + 1) with (lo + 2) by lia.
  destruct (partition_loop_ok lo hi (at_pos a4 (lo + 1)) (length a4) (lo + 2) hi a4) as (i & j & a5 & -> & R5 & C); [|lia|].
  { split; [lia|..|done].
    - intros p Hp. destruct (Z.eq_dec p lo) as [->|]; [lia|]. replace p with (lo + 1) by lia. lia.
    - intros p Hp. replace p with (hi - 1) by lia. rewrite (D3 (hi - 1)), D2, C2, C1, (C3 lo), B2, B1 by lia. lia. }
  cbn [mbind res_bind]. pose proof (re_length _ _ _ _ R5) as L5.
  destruct (place_pivot lo hi _ i j a5 Hlo ltac:(lia) C) as (a6 & -> & R6 & P). exists i, j, a6. split; [done|]. split; [|done].
  do 5 (eapply rearranged_trans; [eassumption|]). done.
Qed.

(** ** The ranges that are still to be sorted *)

Abbreviation range := (Z * Z)%type.
Definition apart (s t : range) : Prop := s.2 <= t.1 \/ t.2 <= s.1.

(** The array is in order but for the elements of a common range, and the ranges do not meet. *)
Record pending (n : Z) (segs : list range) (arr : list Z) : Prop := mkPending {
  pe_length : Z.of_nat (length arr) = n;
  pe_range : forall s, s ∈ segs -> 0 <= s.1 <= s.2 /\ s.2 <= n;
  pe_apart : ForallOrdPairs apart segs;
  pe_order : forall p q, 0 <= p < q -> q < n ->
    at_pos arr p <= at_pos arr q \/ exists s, s ∈ segs /\ s.1 <= p /\ q < s.2
}.

Lemma pending_perm n segs segs' arr : segs ≡ₚ segs' -> pending n segs arr -> pending n segs' arr.
Proof.
  intros P [L R A O]. split; [done|..].
  - intros s. rewrite <- P. apply R.
  - clear -P A. induction P as [|x l k P IH|x y l|? ? ? ? IH1 ? IH2]; [done|..|eauto].
    + inversion A; subst. constructor; [by rewrite <- P|eauto].
    + inversion A as [|? ? Hy A']; subst. inversion A' as [|? ? Hx A'']; subst. apply Forall_cons in Hy as [Hxy Hy].
      constructor; [constructor; [destruct Hxy; [right|left]; done|done]|constructor; done].
  - intros p q Hp Hq. destruct (O p q Hp Hq) as [?|(s & Hs & ?)]; [by left|right]. exists s. by rewrite <- P.
Qed.

(** What remains in order when one of the ranges is rearranged. *)
Lemma rearranged_order n s segs arr arr' : pending n (s :: segs) arr -> rearranged s.1 s.2 arr arr' ->
  forall p q, 0 <= p < q -> q < n -> ~ (s.1 <= p /\ q < s.2) ->
  at_pos arr' p <= at_pos arr' q \/ exists t, t ∈ segs /\ t.1 <= p /\ q < t.2.
Proof.
  intros [L R A O] Re p q Hp Hq Hn. inversion A as [|? ? Ha _]; subst. rewrite Forall_forall in Ha.
  assert (forall p, 0 <= p -> exists p', at_pos arr' p = at_pos arr p' /\
    (~ s.1 <= p < s.2 -> p' = p) /\ (s.1 <= p < s.2 -> s.1 <= p' < s.2)) as Hm.
  { intros r Hr. destruct (decide (s.1 <= r < s.2)) as [Hin|Hout].
    - destruct (re_inside _ _ _ _ Re r Hin) as (r' & Hr' & E). exists r'. split; [done|]. split; [done|done].
    - exists r. split; [by apply (re_outside _ _ _ _ Re)|]. split; [done|done]. }
  destruct (Hm p) as (p' & -> & Hp1 & Hp2); [lia|]. destruct (Hm q) as (q' & -> & Hq1 & Hq2); [lia|].
  destruct (R s) as [Hs1 Hs2]; [set_solver|].
  destruct (O p' q') as [?|(t & Ht & Htp & Htq)]; [lia..|by left|]. right.
  apply elem_of_cons in Ht as [->|Ht]; [lia|]. exists t. split; [done|]. pose proof (Ha t Ht) as Hat. unfold apart in Hat.
  destruct (R t) as [Ht1 Ht2]; [set_solver|]. lia.
Qed.

(** A range that has been sorted is no longer pending. *)
Lemma pending_settle n lo hi segs arr arr' : pending n ((lo, hi) :: segs) arr -> rearranged lo hi arr arr' ->
  ordered lo hi arr' -> pending n segs arr'.
Proof.
  intros P Re Ho. pose proof P as [L R A _]. split; [rewrite (re_length _ _ _ _ Re); done|..].
  - intros s Hs. apply R. set_solver.
  - by inversion A.
  - intros p q Hp Hq. destruct (decide (lo <= p /\ q < hi)) as [Hin|Hout]; [left; apply Ho; lia|].
    by apply (rearranged_order _ _ _ _ _ P Re).
Qed.

(** A range that has been parted leaves its two parts. *)
Lemma pending_split n lo hi i j segs arr arr' : pending n ((lo, hi) :: segs) arr -> rearranged lo hi arr arr' ->
  parted lo hi i j arr' -> pending n ((lo, j - 1) :: (i - 1, hi) :: segs) arr'.
Proof.
  intros P Re [Hr Hlow Hhigh Hmid]. pose proof P as [L R A _]. destruct (R (lo, hi)) as [Hs1 Hs2]; [set_solver|]. cbn [fst snd] in *.
  inversion A as [|? ? Ha A']; subst. rewrite Forall_forall in Ha.
  split; [rewrite (re_length _ _ _ _ Re); done|..].
  - intros s. rewrite !elem_of_cons. intros [->|[->|Hs]]; cbn [fst snd]; [lia..|]. apply R. set_solver.
  - constructor; [constructor|constructor; [|done]].
    + unfold apart. cbn [fst snd]. lia.
    + apply Forall_forall. intros t Ht. specialize (Ha t Ht). unfold apart in *. cbn [fst snd] in *. lia.
    + apply Forall_forall. intros t Ht. specialize (Ha t Ht). unfold apart in *. cbn [fst snd] in *. lia.
  - intros p q Hp Hq. destruct (decide (lo <= p /\ q < hi)) as [[Hin1 Hin2]|Hout].
    + destruct (Z.lt_ge_cases q (j - 1)); [right; exists (lo, j - 1); split; [set_solver|cbn [fst snd]; lia]|].
      destruct (Z.lt_ge_cases p (j - 1)); [left; apply Hlow; lia|].
      destruct (Z.lt_ge_cases q (i - 1)); [left; rewrite (Hmid p q); lia|].
      destruct (Z.lt_ge_cases p (i - 1)); [left; apply Hhigh; lia|].
      right. exists (i - 1, hi). split; [set_solver|cbn [fst snd]; lia].
    + destruct (rearranged_order _ _ _ _ _ P Re p q Hp Hq Hout) as [?|(t & Ht & ?)]; [by left|right].
      exists t. split; [set_solver|done].
Qed.

(** ** The stack *)

(** The pending ranges, the last one first, as the stack holds them: the pointer to the end above
    the one to the second element. *)
Fixpoint stacked (segs : list range) (stack : list Z) : Prop :=
  match segs with
  | [] => True
  | (lo, hi) :: rest =>
      let sp := 2 * Z.of_nat (length segs) in
      vget stack sp = Ok hi /\ vget stack (sp - 1) = Ok (lo + 1) /\ stacked rest stack
  end.

(** The range at the depth [d] is at most the 2^d-th part of the array. *)
Fixpoint halving (n : Z) (segs : list range) : Prop :=
  match segs with
  | [] => True
  | (lo, hi) :: rest => (hi - lo) * 2 ^ Z.of_nat (length rest) <= n /\ halving n rest
  end.

(** Each turn ends a range, or takes at least one element out of it. *)
Fixpoint work (segs : list range) : Z :=
  match segs with [] => 0 | (lo, hi) :: rest => 2 * (hi - lo) + 1 + work rest end.

Lemma stacked_above segs stack stack' i x : stacked segs stack -> 2 * Z.of_nat (length segs) < i ->
  vset stack i x = Ok stack' -> stacked segs stack'.
Proof.
  induction segs as [|[lo hi] rest IH]; intros Hs Hi Hv; [done|]. destruct Hs as (H1 & H2 & H3).
  cbn [stacked length] in *. rewrite !(vget_vset _ _ _ _ _ Hv), !(proj2 (Z.eqb_neq _ i)) by lia.
  split; [done|]. split; [done|]. apply IH; [done|lia|done].
Qed.

(** Pushing a range. *)
Lemma push_ok lo hi segs stack : length stack = 50%nat -> Z.of_nat (length segs) < 24 -> stacked segs stack ->
  exists stack1 stack2, let sp := 2 * Z.of_nat (length segs) + 2 in
    vset stack sp hi = Ok stack1 /\ vset stack1 (sp - 1) (lo + 1) = Ok stack2 /\
    length stack2 = 50%nat /\ stacked ((lo, hi) :: segs) stack2.
Proof.
  intros Hl Hk Hs. set (sp := 2 * Z.of_nat (length segs) + 2).
  destruct (vset stack sp hi) as [st1| |] eqn:E1; [|by rewrite vset_Ok in E1 by lia..].
  pose proof (vset_length _ _ _ _ E1) as L1.
  destruct (vset st1 (sp - 1) (lo + 1)) as [st2| |] eqn:E2; [|by rewrite vset_Ok in E2 by lia..].
  pose proof (vset_length _ _ _ _ E2) as L2. exists st1, st2. split; [done|]. split; [done|]. split; [congruence|].
  cbn [stacked length]. replace (2 * Z.of_nat (S (length segs))) with sp by lia.
  rewrite !(vget_vset _ _ _ _ _ E2), Z.eqb_refl, (proj2 (Z.eqb_neq sp (sp - 1))) by lia.
  rewrite (vget_vset _ _ _ _ _ E1), Z.eqb_refl. split; [done|]. split; [done|].
  eapply stacked_above; [eapply stacked_above|..]; [exact Hs|..|exact E1| |exact E2]; lia.
Qed.

(** ** The driver *)

(** The state of the loop: the range at hand, and the ranges on the stack. *)
Definition sort_inv (n : Z) (cur : range) (segs : list range) (stack arr : list Z) : Prop :=
  pending n (cur :: segs) arr /\ halving n (cur :: segs) /\ stacked segs stack /\ length stack = 50%nat.

Lemma sort_small n lo hi segs stack arr : sort_inv n (lo, hi) segs stack arr -> hi - lo <= 10 ->
  exists arr', insertion_sort (hi - (lo + 1) + 1) (lo + 1 - 1) arr = Ok arr' /\ arr' ≡ₚ arr /\ pending n segs arr'.
Proof.
  intros (P & _) Hs. pose proof P as [L R _ _]. destruct (R (lo, hi)) as [R1 R2]; [set_solver|]. cbn [fst snd] in *.
  replace (lo + 1 - 1) with lo by lia. replace (hi - (lo + 1) + 1) with (hi - lo) by lia.
  destruct (insertion_sort_ok (hi - lo) lo arr) as (arr' & -> & Re & O); [lia..|].
  replace (lo + (hi - lo)) with hi in * by lia. exists arr'. split; [done|]. split; [apply Re|]. by eapply pending_settle.
Qed.

(** A push keeps the ranges halving, so there is room for it. *)
Lemma depth_bound n lo hi segs : n < 11 * 2 ^ 24 -> 10 < hi - lo -> halving n ((lo, hi) :: segs) -> Z.of_nat (length segs) < 24.
Proof.
  intros Hn Hs [Hh _]. destruct (Z.lt_ge_cases (Z.of_nat (length segs)) 24) as [|Hge]; [done|].
  pose proof (Z.pow_le_mono_r 2 24 (Z.of_nat (length segs))). nia.
Qed.

Lemma sort_large n lo hi segs stack arr : n < 11 * 2 ^ 24 -> sort_inv n (lo, hi) segs stack arr -> 10 < hi - lo ->
  exists lo' hi' top stack' arr', sort_turn (lo + 1) hi stack (2 * Z.of_nat (length segs)) arr =
      Ok (false, (lo' + 1, hi', stack', 2 * Z.of_nat (length (top :: segs)), arr')) /\
    arr' ≡ₚ arr /\ sort_inv n (lo', hi') (top :: segs) stack' arr' /\ work ((lo', hi') :: top :: segs) < work ((lo, hi) :: segs).
Proof.
  intros Hn (P & Hh & Hst & Hl) Hs. pose proof P as [L R _ _]. destruct (R (lo, hi)) as [R1 R2]; [set_solver|]. cbn [fst snd] in *.
  unfold sort_turn, INSERTION_THRESHOLD. rewrite (proj2 (Z.ltb_ge (hi - (lo + 1)) 10)) by lia.
  destruct (partition_ok lo hi arr) as (i & j & arr' & -> & Re & Pa); [lia..|]. cbn [mbind res_bind].
  pose proof (pending_split _ _ _ _ _ _ _ _ P Re Pa) as P'. destruct Pa as [Hr _ _ _].
  pose proof (depth_bound _ _ _ _ Hn Hs Hh) as Hd. destruct Hh as [Hc Hh].
  set (pw := 2 ^ Z.of_nat (length segs)) in *. assert (0 < pw) as Hpw by (subst pw; lia).
  assert (2 ^ Z.of_nat (S (length segs)) = 2 * pw) as E2 by (subst pw; rewrite Nat2Z.inj_succ, Z.pow_succ_r; lia).
  replace (2 * Z.of_nat (length segs) + 2 - 1) with (2 * Z.of_nat (length segs) + 1) by lia.
  destruct (Z.leb_spec (j - (lo + 1)) (hi - i + 1)) as [Hle|Hgt].
  - destruct (push_ok (i - 1) hi segs stack) as (st1 & st2 & E1 & E3 & L2 & S2); [done..|]. rewrite E1. cbn [mbind res_bind].
    replace (i - 1 + 1) with i in E3 by lia. replace (2 * _ + 2 - 1) with (2 * Z.of_nat (length segs) + 1) in E3 by lia.
    rewrite E3. cbn [mbind res_bind]. exists lo, (j - 1), (i - 1, hi), st2, arr'.
    split; [cbn [length]; repeat f_equal; lia|]. split; [apply Re|]. split; [|cbn [work]; lia].
    split; [done|]. split; [|done]. cbn [halving length]. fold pw. rewrite E2. split; [nia|]. split; [nia|done].
  - destruct (push_ok lo (j - 1) segs stack) as (st1 & st2 & E1 & E3 & L2 & S2); [done..|]. rewrite E1. cbn [mbind res_bind].
    replace (2 * _ + 2 - 1) with (2 * Z.of_nat (length segs) + 1) in E3 by lia.
    rewrite E3. cbn [mbind res_bind]. exists (i - 1), hi, (lo, j - 1), st2, arr'.
    split; [cbn [length]; repeat f_equal; lia|]. split; [apply Re|]. split; [|cbn [work]; lia].
    split; [by eapply pending_perm; [apply Permutation_swap|]|]. split; [|done].
    cbn [halving length]. fold pw. rewrite E2. split; [nia|]. split; [nia|done].
Qed.

Lemma work_nonneg n segs arr : pending n segs arr -> 0 <= work segs.
Proof.
  intros [_ R _ _]. induction segs as [|[lo hi] rest IH]; [done|]. cbn [work]. destruct (R (lo, hi)) as [? _]; [set_solver|].
  cbn [fst snd] in *. assert (0 <= work rest); [|lia]. apply IH. intros s Hs. apply R. set_solver.
Qed.

Lemma sort_loop_ok n fuel lo hi segs stack arr : n < 11 * 2 ^ 24 -> sort_inv n (lo, hi) segs stack arr ->
  work ((lo, hi) :: segs) < Z.of_nat fuel ->
  exists arr', sort_loop fuel (lo + 1, hi, stack, 2 * Z.of_nat (length segs), arr) = Ok arr' /\ arr' ≡ₚ arr /\ StronglySorted Z.le arr'.
Proof.
  intros Hn. revert lo hi segs stack arr. induction fuel as [|fuel IH]; intros lo hi segs stack arr Hi Hf.
  { pose proof (work_nonneg _ _ _ (proj1 Hi)). lia. }
  cbn [sort_loop]. destruct (Z.le_gt_cases (hi - lo) 10) as [Hs|Hs].
  - unfold sort_turn, INSERTION_THRESHOLD. rewrite (proj2 (Z.ltb_lt (hi - (lo + 1)) 10)) by lia.
    destruct (sort_small _ _ _ _ _ _ Hi Hs) as (a1 & -> & P1 & Pe). cbn [mbind res_bind].
    destruct Hi as (P & (_ & Hh) & Hst & Hl). destruct segs as [|[lo' hi'] segs].
    + exists a1. split; [done|]. split; [done|]. apply ordered_sorted. destruct Pe as [L _ _ O]. intros p q Hp Hq.
      destruct (O p q) as [?|(s & Hs' & _)]; [lia..|done|set_solver].
    + destruct Hst as (H1 & H2 & H3). rewrite (proj2 (Z.eqb_neq _ 0)) by (cbn [length]; lia). rewrite H1. cbn [mbind res_bind].
      rewrite H2. cbn [mbind res_bind].
      destruct (IH lo' hi' segs stack a1) as (a2 & E & P2 & S2); [done| |].
      * destruct P as [_ R _ _]. destruct (R (lo, hi)) as [? _]; [set_solver|].
        cbn [fst snd work] in *. lia.
      * exists a2. split; [|split; [by rewrite P2|done]]. rewrite <- E. repeat f_equal. cbn [length]. lia.
  - destruct (sort_large _ _ _ _ _ _ Hn Hi Hs) as (lo' & hi' & top & st' & a1 & -> & P1 & Hi' & Hw). cbn [mbind res_bind].
    destruct (IH lo' hi' (top :: segs) st' a1 Hi') as (a2 & -> & P2 & S2); [lia|]. exists a2. split; [done|].
    split; [by rewrite P2|done].
Qed.

(** [sort] returns the elements in order, inside its array and its stack. *)
Lemma qsort_correct n stack arr : Z.of_nat (length arr) = n -> n < 11 * 2 ^ 24 -> length stack = 50%nat ->
  exists arr', sort n stack arr = Ok arr' /\ arr' ≡ₚ arr /\ StronglySorted Z.le arr'.
Proof.
  intros Hl Hn Hs. unfold sort. apply (sort_loop_ok n _ 0 n [] stack arr); [done| |cbn [work]; lia].
  split; [|split; [cbn; lia|done]]. split; [done|..].
  - intros s ->%list_elem_of_singleton. cbn [fst snd]. lia.
  - repeat constructor.
  - intros p q Hp Hq. right. exists (0, n). split; [set_solver|cbn [fst snd]; lia].
Qed.

(** ** The program *)

(** A sorted array passes the check exactly when the expected data is the input in order. *)
Lemma sorted_verify n input out ver : n < 2 ^ 31 -> Z.of_nat (length input) = n -> length ver = length input ->
  out ≡ₚ input -> StronglySorted Z.le out ->
  (verify n out ver = 0 <-> ver ≡ₚ input /\ StronglySorted Z.le ver).
Proof.
  intros Hm Hn Hv P S. pose proof (Permutation_length P).
  destruct (verify_correct n out ver) as [-> _]; [lia..|]. split; [by intros <-|].
  intros [P' S']. apply (StronglySorted_unique Z.le); [done..|]. by rewrite P, P'.
Qed.

(** C29: The quicksort benchmark, for every input of fewer than 11 * 2^24 elements and whatever its stack held before,
    runs to its end: no scan leaves the array, the 50 words of stack are enough, and the loops end.
    It returns 0 exactly when the expected data is the input in order. *)
Theorem qsort_main_passes PREALLOCATE stack1 stack2 input_data verify_data :
  Z.of_nat (length input_data) < 11 * 2 ^ 24 -> length verify_data = length input_data ->
  length stack1 = 50%nat -> length stack2 = 50%nat ->
  exists r, qsort_main PREALLOCATE stack1 stack2 input_data verify_data = Ok r /\
    (r = 0 <-> verify_data ≡ₚ input_data /\ StronglySorted Z.le verify_data).
Proof.
  intros Hn Hv H1 H2. unfold qsort_main. destruct PREALLOCATE.
  - destruct (qsort_correct _ stack1 input_data eq_refl Hn H1) as (a1 & -> & P1 & S1). cbn [mbind res_bind].
    pose proof (sorted_verify (Z.of_nat (length input_data)) input_data a1 verify_data ltac:(lia) eq_refl Hv P1 S1) as V1.
    destruct (Z.eqb_spec (verify (Z.of_nat (length input_data)) a1 verify_data) 0) as [E|E]; cbn [negb].
    + destruct (qsort_correct (Z.of_nat (length input_data)) stack2 a1) as (a2 & -> & P2 & S2);
        [by rewrite (Permutation_length P1)|done..|]. cbn [mbind res_bind].
      eexists. split; [done|]. apply sorted_verify; [lia|done|done|by rewrite P2|done].
    + exists 1. split; [done|]. split; [done|]. intros H. by apply V1 in H.
  - destruct (qsort_correct _ stack2 input_data eq_refl Hn H2) as (a1 & -> & P1 & S1). cbn [mbind res_bind].
    eexists. split; [done|]. apply sorted_verify; [lia|done..].
Qed.

Lemma qsort_main_passes_witness :
  let input := [5; 1; 4; 1; 5; 9; 2; 6; 5; 3; 5; 8; 9; 7] in
  exists r, qsort_main true (replicate 50 7) (replicate 50 0) input [1; 1; 2; 3; 4; 5; 5; 5; 5; 6; 7; 8; 9; 9] = Ok r /\
    (r = 0 <-> [1; 1; 2; 3; 4; 5; 5; 5; 5; 6; 7; 8; 9; 9] ≡ₚ input /\ StronglySorted Z.le [1; 1; 2; 3; 4; 5; 5; 5; 5; 6; 7; 8; 9; 9]).
Proof. apply (qsort_main_passes true); [simpl; lia|reflexivity..]. Defined.
