(* ===== verification/Matmul.v ===== *)
(** * Blocked matrix multiplication

    [riscv-tests/benchmarks/mm]: the register-blocked kernel ([rb.h]), the loops around it, the
    packing into cache blocks and [mm] ([mm.c]); with them the sparse product of
    [spmv/spmv_main.c], whose inner loop has the shape of [mm_naive]'s.  The numbers are any type
    with the operations the code uses; the matrices [a], [b] and [c] and the packed copies are
    separate arrays, functions of the index.  Nothing is assumed of the operations in
    [mm_correct], so it holds of doubles: a place of the product is a sum of the right terms in
    some order.  In exact arithmetic that is the plain triple loop ([mm_exact]); with doubles it is
    not, which is why the program's own check allows a relative error. *)
From S2P Require Import Prelude.
From stdpp Require Import list sets gmultiset.
Local Open Scope list_scope.
Local Open Scope Z_scope.

(** The arithmetic of the elements ([t] in [common.h]). *)
Class Arith (T : Type) := mkArith { tzero : T; tadd : T -> T -> T; tmul : T -> T -> T; fma : T -> T -> T -> T }.

#[export] Instance Z_arith : Arith Z := mkArith Z 0 Z.add Z.mul (fun x y z => x * y + z).

Definition RBM : Z := 4.
Definition RBN : Z := 5.
Definition RBK : Z := 6.
Definition CBM : Z := 24.
Definition CBN : Z := 25.
Definition CBK : Z := 24.

(** The indices of [for (i = lo; i < hi; i += step)]. *)
Definition steps (lo hi step : Z) : list Z := (fun q => lo + step * q) <$> seqZ 0 ((hi - lo + step - 1) / step).

(** A loop whose body updates an array. *)
Definition for_ {S} (l : list Z) (body : Z -> S -> S) (s : S) : S := foldl (flip body) s l.

Section mm.
Context {T : Type} `{!Arith T}.
Implicit Types a b c : Z -> T.

(** [a + d]. *)
Definition ptr a (d : Z) : Z -> T := fun x => a (d + x).

(** ** The plain kernel *)

(** The four sums of [mm_naive] over a row of [a] and a column of [b], from [c[i*ldc+j]]. *)
Definition naive_four (p : Z) a b (ldb j : Z) (s : T * T * T * T) : T * T * T * T :=
  for_ (steps 0 (p / 4 * 4) 4) (fun k '(s0, s1, s2, s3) =>
    (fma (a (k + 0)) (b ((k + 0) * ldb + j)) s0, fma (a (k + 1)) (b ((k + 1) * ldb + j)) s1,
     fma (a (k + 2)) (b ((k + 2) * ldb + j)) s2, fma (a (k + 3)) (b ((k + 3) * ldb + j)) s3)) s.
Definition naive_cell (p : Z) a b (ldb j : Z) (s0 : T) : T :=
  let '(s0, s1, s2, s3) := naive_four p a b ldb j (s0, tzero, tzero, tzero) in
  let s0 := for_ (steps (p / 4 * 4) p 1) (fun k s0 => fma (a k) (b (k * ldb + j)) s0) s0 in
  tadd (tadd s0 s1) (tadd s2 s3).

(** [mm_naive(m, n, p, a, lda, b, ldb, c + oc, ldc)]. *)
Definition mm_naive (m n p : Z) a (lda : Z) b (ldb : Z) (oc ldc : Z) c : Z -> T :=
  for_ (steps 0 m 1) (fun i c =>
    for_ (steps 0 n 1) (fun j c =>
      upd c (oc + (i * ldc + j)) (naive_cell p (ptr a (i * lda)) b ldb j (c (oc + (i * ldc + j))))) c) c.

(** ** The register-blocked kernel *)

(** The twenty registers [c_0_0 .. c_3_4], by row and column. *)
Abbreviation regs := (Z -> Z -> T) (only parsing).
Definition kloop_load (oc ldc : Z) c : regs := fun r s => c (oc + (ldc * r + s)).

(** The twenty [fma]s for the column [k] of [a] and the row [k] of [b]. *)
Definition kloop_fma a (lda : Z) b (ldb k : Z) (v : regs) : regs :=
  fun r s => fma (a (lda * r + k)) (b (ldb * k + s)) (v r s).

(** The loop over [RBK] columns at a time, and the one over the columns that are left. *)
Definition kloop_blocks (p : Z) a (lda : Z) b (ldb : Z) (v : regs) : regs :=
  for_ (steps 0 (p / RBK * RBK) RBK) (fun k => for_ (steps 0 RBK 1) (kloop_fma (ptr a k) lda (ptr b (k * ldb)) ldb)) v.
Definition kloop_rest (p : Z) a (lda : Z) b (ldb : Z) (v : regs) : regs :=
  for_ (steps (p / RBK * RBK) p 1) (fun k => kloop_fma (ptr a k) lda (ptr b (k * ldb)) ldb 0) v.
Definition kloop_store (oc ldc : Z) (v : regs) c : Z -> T :=
  for_ (steps 0 RBM 1) (fun r c => for_ (steps 0 RBN 1) (fun s c => upd c (oc + (ldc * r + s)) (v r s)) c) c.

Definition kloop (p : Z) a (lda : Z) b (ldb : Z) (oc ldc : Z) c : Z -> T :=
  kloop_store oc ldc (kloop_rest p a lda b ldb (kloop_blocks p a lda b ldb (kloop_load oc ldc c))) c.

Definition mm_rb (m n p : Z) a (lda : Z) b (ldb : Z) (oc ldc : Z) c : Z -> T :=
  let mb := m / RBM * RBM in
  let nb := n / RBN * RBN in
  let c := for_ (steps 0 mb RBM) (fun i c =>
    let c := for_ (steps 0 nb RBN) (fun j => kloop p (ptr a (i * lda)) lda (ptr b j) ldb (oc + (i * ldc + j)) ldc) c in
    mm_naive RBM (n - nb) p (ptr a (i * lda)) lda (ptr b nb) ldb (oc + (i * ldc + nb)) ldc c) c in
  mm_naive (m - mb) n p (ptr a (mb * lda)) lda b ldb (oc + mb * ldc) ldc c.

(** ** Cache blocks *)

(** [repack(a + oa, lda, a0, lda0, m, p)]: eight elements at a time, then the rest. *)
Definition repack (oa lda : Z) (a0 : Z -> T) (lda0 m p : Z) a : Z -> T :=
  for_ (steps 0 m 1) (fun i a =>
    let a := for_ (steps 0 (p / 8 * 8) 8) (fun j a =>
      for_ (steps 0 8 1) (fun u a => upd a (oa + (i * lda + j + u)) (a0 (i * lda0 + j + u))) a) a in
    for_ (steps (p / 8 * 8) p 1) (fun j a => upd a (oa + (i * lda + j)) (a0 (i * lda0 + j))) a) a.

(** The offset of a packed block. *)
Definition block_at (blocks_per_row bi bj size : Z) : Z := (blocks_per_row * bi + bj) * size.

(** Packing the blocks of [a], [b] or [c], of [BM] rows and [BN] columns. *)
Definition pack (rows cols per_row BM BN : Z) (src : Z -> T) (ld : Z) (dst : Z -> T) : Z -> T :=
  for_ (steps 0 rows BM) (fun i => for_ (steps 0 cols BN) (fun j =>
    repack (block_at per_row (i / BM) (j / BN) (BM * BN)) BN (ptr src (i * ld + j)) ld BM BN)) dst.

(** The three parts of the product: the whole blocks of [c], in the packed copy; the columns and the
    rows that fill no block, in place. *)
Definition cb_block (p pb nnb npb : Z) a (lda : Z) b (ldb : Z) (a1 b1 : Z -> T) (i j : Z) (c1 : Z -> T) : Z -> T :=
  let oc := block_at nnb (i / CBM) (j / CBN) (CBM * CBN) in
  let c1 := for_ (steps 0 pb CBK) (fun k =>
    mm_rb CBM CBN CBK (ptr a1 (block_at npb (i / CBM) (k / CBK) (CBM * CBK))) CBK
      (ptr b1 (block_at nnb (k / CBK) (j / CBN) (CBK * CBN))) CBN oc CBN) c1 in
  if pb <? p then mm_rb CBM CBN (p - pb) (ptr a (i * lda + pb)) lda (ptr b (pb * ldb + j)) ldb oc CBN c1 else c1.
Definition cb_columns (n p nb : Z) a (lda : Z) b (ldb ldc i : Z) c : Z -> T :=
  if nb <? n then
    for_ (steps 0 p CBK) (fun k =>
      mm_rb CBM (n - nb) (Z.min (p - k) CBK) (ptr a (i * lda + k)) lda (ptr b (k * ldb + nb)) ldb (i * ldc + nb) ldc) c
  else c.
Definition cb_rows (m n p mb : Z) a (lda : Z) b (ldb ldc : Z) c : Z -> T :=
  if mb <? m then
    for_ (steps 0 n CBN) (fun j => for_ (steps 0 p CBK) (fun k =>
      mm_rb (m - mb) (Z.min (n - j) CBN) (Z.min (p - k) CBK) (ptr a (mb * lda + k)) lda
        (ptr b (k * ldb + j)) ldb (mb * ldc + j) ldc)) c
  else c.

(** Unpacking the blocks of [c]. *)
Definition unpack (mb nb nnb ldc : Z) (c1 : Z -> T) c : Z -> T :=
  for_ (steps 0 mb CBM) (fun i => for_ (steps 0 nb CBN) (fun j =>
    repack (i * ldc + j) ldc (ptr c1 (block_at nnb (i / CBM) (j / CBN) (CBM * CBN))) CBN CBM CBN)) c.

(** [mm_cb]; [a1], [b1] and [c1] are what the stack holds where the copies are placed. *)
Definition mm_cb (a1 b1 c1 : Z -> T) (m n p : Z) a (lda : Z) b (ldb ldc : Z) c : Z -> T :=
  let nmb := m / CBM in let nnb := n / CBN in let npb := p / CBK in
  let mb := nmb * CBM in let nb := nnb * CBN in let pb := npb * CBK in
  let a1 := pack mb pb npb CBM CBK a lda a1 in
  let b1 := pack pb nb nnb CBK CBN b ldb b1 in
  let c1 := pack mb nb nnb CBM CBN c ldc c1 in
  let '(c, c1) := for_ (steps 0 mb CBM) (fun i '(c, c1) =>
    let c1 := for_ (steps 0 nb CBN) (cb_block p pb nnb npb a lda b ldb a1 b1 i) c1 in
    (cb_columns n p nb a lda b ldb ldc i c, c1)) (c, c1) in
  unpack mb nb nnb ldc c1 (cb_rows m n p mb a lda b ldb ldc c).

Definition mm (a1 b1 c1 : Z -> T) (m n p : Z) a (lda : Z) b (ldb ldc : Z) c : Z -> T :=
  if (m <=? 2 * CBM) && (n <=? 2 * CBN) && (p <=? 2 * CBK) then mm_rb m n p a lda b ldb 0 ldc c
  else mm_cb a1 b1 c1 m n p a lda b ldb ldc c.

(** ** Reference *)

Definition sum (l : list Z) (f : Z -> T) : T := foldr (fun k s => tadd (f k) s) tzero l.

(** [c + a * b] on the [m] by [n] places of [c] at [oc], by the row and column of the index. *)
Definition mm_ref (m n p : Z) a (lda : Z) b (ldb : Z) (oc ldc : Z) c : Z -> T := fun x =>
  let i := (x - oc) / ldc in let j := (x - oc) mod ldc in
  if (0 <=? i) && (i <? m) && (j <? n)
  then tadd (c x) (sum (seqZ 0 p) (fun k => tmul (a (i * lda + k)) (b (k * ldb + j)))) else c x.
End mm.

(** ** Sparse product *)

Section spmv.
Context {T : Type} `{!Arith T}.

(** One row of [spmv]: four sums over the entries [k] to below [e], then the rest. *)
Definition spmv_row (val : Z -> T) (idx : Z -> Z) (x : Z -> T) (k e : Z) : T :=
  let four := steps k (e - 3) 4 in
  let '(y0, y1, y2, y3) := for_ four (fun k '(y0, y1, y2, y3) =>
    (tadd y0 (tmul (val (k + 0)) (x (idx (k + 0)))), tadd y1 (tmul (val (k + 1)) (x (idx (k + 1)))),
     tadd y2 (tmul (val (k + 2)) (x (idx (k + 2)))), tadd y3 (tmul (val (k + 3)) (x (idx (k + 3))))))
    (tzero, tzero, tzero, tzero) in
  let y0 := for_ (steps (k + 4 * Z.of_nat (length four)) e 1) (fun k y0 => tadd y0 (tmul (val k) (x (idx k)))) y0 in
  tadd (tadd y0 y1) (tadd y2 y3).

Definition spmv (r : Z) (val : Z -> T) (idx : Z -> Z) (x : Z -> T) (ptr : Z -> Z) (y : Z -> T) : Z -> T :=
  for_ (steps 0 r 1) (fun i y => upd y i (spmv_row val idx x (ptr i) (ptr (i + 1)))) y.
End spmv.

(** ** Kernels that several harts share *)

Section shared.
Context {T : Type} `{!Arith T}.

(** [mt-vvadd/vvadd.c]: the part of one hart, [x] being the result itself in the second run. *)
Definition mt_vvadd (coreid ncores n : Z) (x : option (Z -> T)) (y z : Z -> T) : Z -> T :=
  for_ (steps coreid n ncores) (fun i z => upd z i (tadd (default z x i) (y i))) z.
End shared.

(** [mt-matmul/matmul.c]: the rows of one hart; the elements are [int]s. *)
Definition matmul (coreid ncores lda : Z) (A B C : Z -> Z) : Z -> Z :=
  let block := lda / ncores in
  let start := block * coreid in
  for_ (steps 0 lda 1) (fun i C => for_ (steps start (start + block) 1) (fun j C =>
    upd C (i + j * lda)
      (for_ (steps 0 lda 1) (fun k sum => s32 (sum + s32 (A (j * lda + k) * B (k * lda + i)))) 0)) C) C.

Definition ex_a (x : Z) : Z := x mod 7 - 2.
Definition ex_b (x : Z) : Z := x mod 5 + 1.
Definition agree (m n ldc : Z) (c c' : Z -> Z) : bool :=
  forallb (fun i => forallb (fun j => c (i * ldc + j) =? c' (i * ldc + j)) (seqZ 0 (n + 1))) (seqZ 0 (m + 1)).

Example rb_example :
  agree 9 11 13 (mm_rb 9 11 14 ex_a 15 ex_b 12 0 13 (fun x => x)) (mm_ref 9 11 14 ex_a 15 ex_b 12 0 13 (fun x => x)) = true.
Proof. vm_compute. reflexivity. Qed.

(** ** Exact arithmetic *)

Class ExactArith (T : Type) `{!Arith T} : Prop := mkExact {
  tadd_assoc : forall x y z : T, tadd x (tadd y z) = tadd (tadd x y) z;
  tadd_comm : forall x y : T, tadd x y = tadd y x;
  tadd_0_l : forall x : T, tadd tzero x = x;
  fma_exact : forall x y z : T, fma x y z = tadd (tmul x y) z
}.

#[export] Instance Z_exact : ExactArith Z.
Proof. split; cbn; intros; lia. Qed.

(** ** Loops *)

Lemma steps_1 lo hi : steps lo hi 1 = seqZ lo (hi - lo).
Proof.
  unfold steps. rewrite Z.div_1_r. replace (hi - lo + 1 - 1) with (hi - lo) by lia.
  rewrite <- (Z.add_0_r lo) at 2. rewrite <- fmap_add_seqZ. apply list_fmap_ext. intros _ k _. lia.
Qed.

Lemma steps_mult q s : 0 < s -> steps 0 (q * s) s = (fun k => s * k) <$> seqZ 0 q.
Proof.
  intros Hs. unfold steps. replace ((q * s - 0 + s - 1) / s) with q; [by apply list_fmap_ext|].
  apply (Z.div_unique _ _ _ (s - 1)); lia.
Qed.

Lemma elem_of_steps lo hi s x : 0 < s -> x ∈ steps lo hi s -> lo <= x < hi /\ (s | x - lo).
Proof.
  intros Hs. unfold steps. rewrite list_elem_of_fmap. intros (q & -> & Hq%elem_of_seqZ).
  pose proof (Z.mul_div_le (hi - lo + s - 1) s Hs). split; [nia|]. exists q. lia.
Qed.

Lemma NoDup_steps lo hi s : 0 < s -> NoDup (steps lo hi s).
Proof. intros Hs. unfold steps. apply NoDup_fmap_2; [intros x y E; nia|apply NoDup_seqZ]. Qed.

Lemma for_app {S} l k (body : Z -> S -> S) s : for_ (l ++ k) body s = for_ k body (for_ l body s).
Proof. apply foldl_app. Qed.

Section sums.
Context {T : Type} `{!Arith T, !ExactArith T}.
Implicit Types (f g : Z -> T) (v w : T).

Lemma tadd_0_r v : tadd v tzero = v.
Proof. by rewrite tadd_comm, tadd_0_l. Qed.

Lemma tadd_interchange x y z w : tadd (tadd x y) (tadd z w) = tadd (tadd x z) (tadd y w).
Proof. by rewrite <- !tadd_assoc, (tadd_assoc y z w), (tadd_comm y z), <- tadd_assoc. Qed.

Lemma sum_nil f : sum [] f = tzero.
Proof. done. Qed.

Lemma sum_cons i l f : sum (i :: l) f = tadd (f i) (sum l f).
Proof. done. Qed.

Lemma sum_ext l f g : (forall i, i ∈ l -> f i = g i) -> sum l f = sum l g.
Proof. intros H. induction l as [|i l IH]; [done|]. rewrite !sum_cons, H by set_solver. rewrite IH; [done|]. set_solver. Qed.

Lemma sum_zero l f : (forall i, i ∈ l -> f i = tzero) -> sum l f = tzero.
Proof.
  intros H. induction l as [|i l IH]; [done|]. rewrite sum_cons, H, tadd_0_l by set_solver. apply IH. set_solver.
Qed.

Lemma sum_app l k f : sum (l ++ k) f = tadd (sum l f) (sum k f).
Proof. induction l as [|i l IH]; cbn [app]; [by rewrite sum_nil, tadd_0_l|]. by rewrite !sum_cons, IH, tadd_assoc. Qed.

Lemma sum_fmap l (h : Z -> Z) f : sum (h <$> l) f = sum l (fun i => f (h i)).
Proof. induction l as [|i l IH]; [done|]. by rewrite fmap_cons, !sum_cons, IH. Qed.

Lemma sum_snoc lo n f : 0 <= n -> sum (seqZ lo (n + 1)) f = tadd (sum (seqZ lo n) f) (f (lo + n)).
Proof. intros. by rewrite seqZ_snoc, sum_app, sum_cons, sum_nil, tadd_0_r by done. Qed.

Lemma sum_seqZ_app lo n k f : 0 <= n -> 0 <= k -> sum (seqZ lo (n + k)) f = tadd (sum (seqZ lo n) f) (sum (seqZ (lo + n) k) f).
Proof. intros. by rewrite seqZ_app, sum_app by done. Qed.

Lemma sum_cut q n f : 0 <= q <= n -> sum (seqZ 0 n) f = tadd (sum (seqZ 0 q) f) (sum (seqZ q (n - q)) f).
Proof. intros. rewrite <- (Z.add_0_l q) at 2. rewrite <- sum_seqZ_app by lia. by replace (q + (n - q)) with n by lia. Qed.

Lemma sum_shift lo n d f : sum (seqZ (d + lo) n) f = sum (seqZ lo n) (fun i => f (d + i)).
Proof. by rewrite <- fmap_add_seqZ, sum_fmap. Qed.

(** A value that counts only under a condition, and one that counts in an interval. *)
Definition ind (b : bool) v : T := if b then v else tzero.
Definition within (lo len x : Z) : bool := (lo <=? x) && (x <? lo + len).

Lemma within_true lo len x : within lo len x = true <-> lo <= x < lo + len.
Proof. unfold within. rewrite andb_true_iff, Z.leb_le, Z.ltb_lt. done. Qed.

Lemma ind_add b v w : tadd (ind b v) (ind b w) = ind b (tadd v w).
Proof. destruct b; [done|apply tadd_0_l]. Qed.

Lemma ind_and b b' v : ind (b && b') v = ind b (ind b' v).
Proof. by destruct b. Qed.

Lemma sum_ind l b f : sum l (fun i => ind b (f i)) = ind b (sum l f).
Proof. induction l as [|i l IH]; [by destruct b|]. by rewrite !sum_cons, IH, ind_add. Qed.

Lemma ind_ext b b' v w : b = b' -> (b = true -> v = w) -> ind b v = ind b' w.
Proof. intros <- H. destruct b; [by apply H|done]. Qed.

Lemma ind_split lo n k x v : 0 <= n -> 0 <= k ->
  tadd (ind (within lo n x) v) (ind (within (lo + n) k x) v) = ind (within lo (n + k) x) v.
Proof.
  intros Hn Hk. unfold within, ind.
  destruct (Z.leb_spec lo x), (Z.ltb_spec x (lo + n)), (Z.leb_spec (lo + n) x), (Z.ltb_spec x (lo + n + k)),
    (Z.ltb_spec x (lo + (n + k))); cbn; try lia; rewrite ?tadd_0_l, ?tadd_0_r; done.
Qed.

(** The blocks of size [s] of an interval, the last one cut, add up to the interval. *)
Lemma blocks_rule (F : Z -> T) (G : Z -> Z -> T) n s : 0 <= n -> 0 < s -> F 0 = tzero ->
  (forall k l, 0 <= k -> 0 <= l -> k + l <= n -> tadd (F k) (G k l) = F (k + l)) ->
  sum (steps 0 n s) (fun k => G k (Z.min (n - k) s)) = F n.
Proof.
  intros Hn Hs H0 Hstep. unfold steps. rewrite sum_fmap. set (Q := (n - 0 + s - 1) / s).
  assert (n <= s * Q < n + s) as HQ by (pose proof (Z.div_mod (n - 0 + s - 1) s); pose proof (Z.mod_pos_bound (n - 0 + s - 1) s); lia).
  assert (forall q, 0 <= q -> q <= Q -> sum (seqZ 0 q) (fun k => G (0 + s * k) (Z.min (n - (0 + s * k)) s)) = F (Z.min n (s * q))) as Hq.
  { intros q Hq. pattern q. apply natlike_ind; [..|done]; clear q Hq.
    - intros _. rewrite Z.mul_0_r, Z.min_r by done. done.
    - intros q Hq IH Hle. change (Z.succ q) with (q + 1) in *. rewrite sum_snoc, IH by lia. rewrite !Z.add_0_l.
      assert (s * q < n) by nia. rewrite Z.min_r by lia. rewrite Hstep by lia. f_equal. lia. }
  rewrite Hq by nia. f_equal. lia.
Qed.

Lemma sum_blocks f n s : 0 <= n -> 0 < s ->
  sum (steps 0 n s) (fun k => sum (seqZ k (Z.min (n - k) s)) f) = sum (seqZ 0 n) f.
Proof.
  intros Hn Hs. apply (blocks_rule (fun k => sum (seqZ 0 k) f) (fun k l => sum (seqZ k l) f)); [done..|].
  intros k l Hk Hl _. by rewrite sum_seqZ_app.
Qed.

Lemma ind_blocks n s x v : 0 <= n -> 0 < s ->
  sum (steps 0 n s) (fun k => ind (within k (Z.min (n - k) s) x) v) = ind (within 0 n x) v.
Proof.
  intros Hn Hs. apply (blocks_rule (fun k => ind (within 0 k x) v) (fun k l => ind (within k l x) v)); [done..| |].
  - unfold within. destruct (Z.leb_spec 0 x), (Z.ltb_spec x (0 + 0)); try lia; done.
  - intros k l Hk Hl _. by rewrite <- (Z.add_0_l k) at 2; rewrite ind_split.
Qed.

(** Whole blocks. *)
Lemma whole_block q s k : 0 < s -> k ∈ steps 0 (q * s) s -> Z.min (q * s - k) s = s.
Proof.
  intros Hs [Hk [d Hd]]%elem_of_steps; [|done]. assert (k = d * s) as -> by lia. assert (d + 1 <= q) by nia.
  rewrite Z.min_r; nia.
Qed.

Lemma sum_whole_blocks f q s : 0 <= q -> 0 < s ->
  sum (steps 0 (q * s) s) (fun k => sum (seqZ k s) f) = sum (seqZ 0 (q * s)) f.
Proof.
  intros Hq Hs. rewrite <- (sum_blocks f (q * s) s) by nia. apply sum_ext. intros k Hk. by rewrite whole_block.
Qed.

Lemma ind_whole_blocks q s x v : 0 <= q -> 0 < s ->
  sum (steps 0 (q * s) s) (fun k => ind (within k s x) v) = ind (within 0 (q * s) x) v.
Proof.
  intros Hq Hs. rewrite <- (ind_blocks (q * s) s) by nia. apply sum_ext. intros k Hk. by rewrite whole_block.
Qed.

(** Only one of the conditions holds. *)
Lemma sum_one_ind l (b : Z -> bool) f i : NoDup l -> i ∈ l -> (forall k, k ∈ l -> b k = true <-> k = i) ->
  sum l (fun k => ind (b k) (f k)) = f i.
Proof.
  intros Hnd. induction Hnd as [|k l Hk Hnd IH]; [set_solver|]. intros Hi Hb. rewrite sum_cons.
  destruct (decide (k = i)) as [->|Hne].
  - rewrite (proj2 (Hb i ltac:(set_solver)) eq_refl). rewrite sum_zero; [apply tadd_0_r|].
    intros j Hj. destruct (b j) eqn:E; [|done]. apply Hb in E; [|set_solver]. congruence.
  - destruct (b k) eqn:E; [apply Hb in E; [done|set_solver]|]. cbn [ind]. rewrite tadd_0_l. apply IH; [set_solver|]. set_solver.
Qed.
End sums.

(** ** What a loop adds to an array, and what it overwrites *)

Section kernels.
Context {T : Type} `{!Arith T, !ExactArith T}.
Implicit Types (a b c G V : Z -> T).

Definition adds (op : (Z -> T) -> Z -> T) G : Prop := forall c x, op c x = tadd (c x) (G x).
Definition overwrites (op : (Z -> T) -> Z -> T) (R : Z -> bool) V : Prop :=
  forall c x, op c x = if R x then V x else c x.

Lemma adds_ext op G G' : (forall x, G x = G' x) -> adds op G -> adds op G'.
Proof. intros E H c x. by rewrite H, E. Qed.

Lemma adds_for l body (G : Z -> Z -> T) : (forall i, i ∈ l -> adds (body i) (G i)) ->
  adds (for_ l body) (fun x => sum l (fun i => G i x)).
Proof.
  intros H c x. revert c. induction l as [|i l IH]; intros c; [by rewrite sum_nil, tadd_0_r|].
  rewrite sum_cons. change (for_ (i :: l) body c) with (for_ l body (body i c)).
  rewrite IH by set_solver. rewrite (H i) by set_solver. by rewrite <- tadd_assoc.
Qed.

Lemma adds_comp op op' G G' : adds op G -> adds op' G' -> adds (fun c => op' (op c)) (fun x => tadd (G x) (G' x)).
Proof. intros H H' c x. by rewrite H', H, tadd_assoc. Qed.

Lemma overwrites_ext op R R' V V' : (forall x, R x = R' x) -> (forall x, R' x = true -> V x = V' x) ->
  overwrites op R V -> overwrites op R' V'.
Proof. intros E E' H c x. rewrite H, E. destruct (R' x) eqn:ER; [by apply E'|done]. Qed.

Lemma overwrites_upd addr v V : V addr = v -> overwrites (fun c => upd c addr v) (fun x => x =? addr) V.
Proof. intros <- c x. unfold upd. destruct (Z.eqb_spec x addr) as [->|]; done. Qed.

Lemma overwrites_for l body (R : Z -> Z -> bool) V : (forall i, i ∈ l -> overwrites (body i) (R i) V) ->
  overwrites (for_ l body) (fun x => existsb (fun i => R i x) l) V.
Proof.
  intros H c x. revert c. induction l as [|i l IH]; intros c; [done|].
  change (for_ (i :: l) body c) with (for_ l body (body i c)). rewrite IH by set_solver. cbn [existsb].
  rewrite (H i) by set_solver. destruct (R i x), (existsb _ l); done.
Qed.

Lemma overwrites_comp op op' R R' V : overwrites op R V -> overwrites op' R' V ->
  overwrites (fun c => op' (op c)) (fun x => R x || R' x) V.
Proof. intros H H' c x. rewrite H', H. destruct (R x), (R' x); done. Qed.

(** ** Blocks of a matrix *)

(** Row and column of an index, and a block of rows and columns. *)
Definition row (o ld x : Z) : Z := (x - o) / ld.
Definition col (o ld x : Z) : Z := (x - o) mod ld.
Definition blk (oc ldc i0 m j0 n : Z) (f : Z -> Z -> T) : Z -> T := fun x =>
  ind (within i0 m (row oc ldc x)) (ind (within j0 n (col oc ldc x)) (f (row oc ldc x) (col oc ldc x))).

(** A part of the product of two matrices. *)
Definition dot a (lda : Z) b (ldb k0 p i j : Z) : T :=
  sum (seqZ k0 p) (fun k => tmul (a (i * lda + k)) (b (k * ldb + j))).

Lemma row_col o ld i j x : 0 < ld -> 0 <= j < ld -> x = o + (i * ld + j) <-> row o ld x = i /\ col o ld x = j.
Proof.
  intros Hl Hj. unfold row, col. split.
  - intros ->. replace (o + (i * ld + j) - o) with (j + i * ld) by lia.
    rewrite Z.div_add, Z.mod_add, Z.div_small, Z.mod_small by lia. lia.
  - intros [<- <-]. pose proof (Z.div_mod (x - o) ld). lia.
Qed.

Lemma col_range o ld x : 0 < ld -> 0 <= col o ld x < ld.
Proof. intros. by apply Z.mod_pos_bound. Qed.

Lemma row_col_eq o ld x : 0 < ld -> x = o + (row o ld x * ld + col o ld x).
Proof. intros. apply row_col; [done|by apply col_range|done]. Qed.

(** A block at its own origin is a block of the whole matrix. *)
Lemma rebase oc ldc i0 m j0 n x : 0 < ldc -> 0 <= j0 -> 0 <= n -> j0 + n <= ldc ->
  within 0 m (row (oc + (i0 * ldc + j0)) ldc x) && within 0 n (col (oc + (i0 * ldc + j0)) ldc x) =
    within i0 m (row oc ldc x) && within j0 n (col oc ldc x) /\
  (within i0 m (row oc ldc x) && within j0 n (col oc ldc x) = true ->
    row oc ldc x = i0 + row (oc + (i0 * ldc + j0)) ldc x /\ col oc ldc x = j0 + col (oc + (i0 * ldc + j0)) ldc x).
Proof.
  intros Hl Hj0 Hn Hjn. set (i := row oc ldc x). set (j := col oc ldc x).
  pose proof (col_range oc ldc x Hl) as Hj. fold j in Hj. pose proof (row_col_eq oc ldc x Hl) as E. fold i j in E.
  destruct (Z.lt_ge_cases j j0) as [Hlt|Hge].
  - destruct (proj1 (row_col (oc + (i0 * ldc + j0)) ldc (i - i0 - 1) (ldc + j - j0) x Hl ltac:(lia)) ltac:(lia)) as [-> ->].
    split; [apply eq_true_iff_eq|]; rewrite !andb_true_iff, !within_true; lia.
  - destruct (proj1 (row_col (oc + (i0 * ldc + j0)) ldc (i - i0) (j - j0) x Hl ltac:(lia)) ltac:(lia)) as [-> ->].
    split; [apply eq_true_iff_eq; rewrite !andb_true_iff, !within_true; lia|lia].
Qed.

Lemma blk_rebase oc ldc i0 m j0 n f g x : 0 < ldc -> 0 <= j0 -> 0 <= n -> j0 + n <= ldc ->
  (forall i j, 0 <= i < m -> 0 <= j < n -> f i j = g (i0 + i) (j0 + j)) ->
  blk (oc + (i0 * ldc + j0)) ldc 0 m 0 n f x = blk oc ldc i0 m j0 n g x.
Proof.
  intros Hl Hj0 Hn Hjn Hf. destruct (rebase oc ldc i0 m j0 n x) as [E1 E2]; [done..|]. unfold blk. rewrite <- !ind_and.
  apply ind_ext; [done|]. intros Hin. rewrite E1 in Hin. destruct (E2 Hin) as [-> ->]. rewrite <- E1, andb_true_iff, !within_true in Hin.
  apply Hf; lia.
Qed.

Lemma blk_ext oc ldc i0 m j0 n f g x :
  (forall i j, i0 <= i < i0 + m -> j0 <= j < j0 + n -> f i j = g i j) -> blk oc ldc i0 m j0 n f x = blk oc ldc i0 m j0 n g x.
Proof.
  intros H. unfold blk. rewrite <- !ind_and. apply ind_ext; [done|]. rewrite andb_true_iff, !within_true. intros [? ?]. by apply H.
Qed.

Lemma dot_rebase a lda b ldb i0 j0 k0 p i j :
  dot (ptr a (i0 * lda + k0)) lda (ptr b (k0 * ldb + j0)) ldb 0 p i j = dot a lda b ldb k0 p (i0 + i) (j0 + j).
Proof.
  unfold dot. replace (seqZ k0 p) with (seqZ (k0 + 0) p) by (f_equal; lia). rewrite sum_shift. apply sum_ext. intros k _. unfold ptr. f_equal; f_equal; ring.
Qed.

(** What each kernel does to its part of [c]. *)
Definition multiplies (m n p : Z) a lda b ldb oc ldc (op : (Z -> T) -> Z -> T) : Prop :=
  adds op (blk oc ldc 0 m 0 n (dot a lda b ldb 0 p)).

Lemma multiplies_at m n p a lda b ldb oc ldc i0 j0 k0 a' b' oc' op : 0 < ldc -> 0 <= j0 -> 0 <= n -> j0 + n <= ldc ->
  a' = ptr a (i0 * lda + k0) -> b' = ptr b (k0 * ldb + j0) -> oc' = oc + (i0 * ldc + j0) ->
  multiplies m n p a' lda b' ldb oc' ldc op -> adds op (blk oc ldc i0 m j0 n (dot a lda b ldb k0 p)).
Proof.
  intros Hl Hj Hn Hjn -> -> ->. apply adds_ext. intros x. apply blk_rebase; [done..|]. intros i j _ _. apply dot_rebase.
Qed.

Lemma ptr_0 a : ptr a 0 = a.
Proof. reflexivity. Qed.

(** ** The plain kernel *)

Lemma for_fma l (h g : Z -> T) s : for_ l (fun k s => fma (h k) (g k) s) s = tadd s (sum l (fun k => tmul (h k) (g k))).
Proof.
  revert s. induction l as [|k l IH]; intros s; [by rewrite sum_nil, tadd_0_r|].
  change (for_ (k :: l) ?f s) with (for_ l f (f k s)). rewrite IH, sum_cons, fma_exact, (tadd_comm _ s). by rewrite tadd_assoc.
Qed.

(** Four sums taken side by side, together. *)
Lemma four_sums l (f : Z -> T) (step : Z -> T * T * T * T -> T * T * T * T) s0 s1 s2 s3 :
  (forall k s0 s1 s2 s3, step k (s0, s1, s2, s3) =
     (tadd s0 (f (k + 0)), tadd s1 (f (k + 1)), tadd s2 (f (k + 2)), tadd s3 (f (k + 3)))) ->
  let '(r0, r1, r2, r3) := for_ l step (s0, s1, s2, s3) in
  tadd (tadd r0 r1) (tadd r2 r3) = tadd (tadd (tadd s0 s1) (tadd s2 s3)) (sum l (fun k => sum (seqZ k 4) f)).
Proof.
  intros Hstep. revert s0 s1 s2 s3. induction l as [|k l IH]; intros s0 s1 s2 s3.
  { cbn. by rewrite tadd_0_r. }
  change (for_ (k :: l) step ?s) with (for_ l step (step k s)). rewrite Hstep.
  specialize (IH (tadd s0 (f (k + 0))) (tadd s1 (f (k + 1))) (tadd s2 (f (k + 2))) (tadd s3 (f (k + 3)))).
  destruct (for_ l step _) as [[[r0 r1] r2] r3]. rewrite IH, sum_cons.
  change (seqZ k 4) with [0 + k; 1 + k; 2 + k; 3 + k]. rewrite !sum_cons, sum_nil, !(Z.add_comm _ k).
  generalize (f (k + 0)) (f (k + 1)) (f (k + 2)) (f (k + 3)). intros x0 x1 x2 x3.
  rewrite tadd_0_r, (tadd_interchange s0), (tadd_interchange s2), (tadd_interchange (tadd s0 s1)).
  by rewrite <- !tadd_assoc.
Qed.

Lemma naive_four_ok p a b ldb j s0 s1 s2 s3 : 0 <= p ->
  let '(r0, r1, r2, r3) := naive_four p a b ldb j (s0, s1, s2, s3) in
  tadd (tadd r0 r1) (tadd r2 r3) =
  tadd (tadd (tadd s0 s1) (tadd s2 s3)) (sum (seqZ 0 (p / 4 * 4)) (fun k => tmul (a k) (b (k * ldb + j)))).
Proof.
  intros Hp. set (f := fun k => tmul (a k) (b (k * ldb + j))).
  rewrite <- (sum_whole_blocks f (p / 4) 4) by (try apply Z.div_pos; lia). apply four_sums.
  intros k r0 r1 r2 r3. subst f. cbv beta. by rewrite !fma_exact, !(tadd_comm (tmul _ _)).
Qed.

Lemma naive_cell_ok p a b ldb j s : 0 <= p ->
  naive_cell p a b ldb j s = tadd s (sum (seqZ 0 p) (fun k => tmul (a k) (b (k * ldb + j)))).
Proof.
  intros Hp. unfold naive_cell. pose proof (naive_four_ok p a b ldb j s tzero tzero tzero Hp) as H.
  destruct (naive_four _ _ _ _ _ _) as [[[s0 s1] s2] s3]. rewrite steps_1, for_fma.
  set (f := fun k => tmul (a k) (b (k * ldb + j))) in *.
  rewrite (tadd_comm s0), <- !tadd_assoc. rewrite <- !tadd_assoc in H. rewrite H, !tadd_0_l.
  rewrite (sum_cut (p / 4 * 4) p) by (pose proof (Z.mul_div_le p 4); pose proof (Z.div_pos p 4); lia).
  by rewrite tadd_comm, <- tadd_assoc.
Qed.

(** A cell of a row, and the rows. *)
Lemma cell_adds addr (F : T -> T) v : (forall s, F s = tadd s v) ->
  adds (fun c => upd c addr (F (c addr))) (fun x => ind (x =? addr) v).
Proof.
  intros HF c x. unfold upd. destruct (Z.eqb_spec x addr) as [->|]; cbn [ind]; [apply HF|by rewrite tadd_0_r].
Qed.

Lemma within_one lo x : within lo 1 x = (x =? lo).
Proof. apply eq_true_iff_eq. rewrite within_true, Z.eqb_eq. lia. Qed.

(** The rows or columns of an interval, one by one. *)
Lemma ind_ones n x (f : Z -> T) : 0 <= n -> sum (seqZ 0 n) (fun k => ind (x =? k) (f k)) = ind (within 0 n x) (f x).
Proof.
  intros Hn. rewrite (sum_ext _ _ (fun k => ind (within k (Z.min (n - k) 1) x) (f x))).
  - replace (seqZ 0 n) with (steps 0 n 1) by (rewrite steps_1; f_equal; lia). by apply ind_blocks.
  - intros k Hk%elem_of_seqZ. rewrite Z.min_r, within_one by lia. destruct (Z.eqb_spec x k) as [->|]; done.
Qed.

Lemma naive_multiplies m n p a lda b ldb oc ldc : 0 <= m -> 0 <= n <= ldc -> 0 < ldc -> 0 <= p ->
  multiplies m n p a lda b ldb oc ldc (mm_naive m n p a lda b ldb oc ldc).
Proof.
  intros Hm Hn Hl Hp. unfold mm_naive. rewrite !steps_1, !Z.sub_0_r.
  eapply adds_ext; [|apply adds_for; intros i _; apply adds_for; intros j _; apply cell_adds;
    intros s; by apply naive_cell_ok].
  intros x. cbv beta. unfold blk. pose proof (col_range oc ldc x Hl) as Hc.
  rewrite <- (ind_ones m _ (fun i => ind _ (dot a lda b ldb 0 p i (col oc ldc x)))) by done.
  apply sum_ext. intros i _. rewrite <- (ind_ones n _ (fun j => dot a lda b ldb 0 p i j)) by lia. rewrite <- sum_ind.
  apply sum_ext. intros j Hj%elem_of_seqZ. rewrite <- ind_and. apply ind_ext; [|done].
  apply eq_true_iff_eq. rewrite andb_true_iff, !Z.eqb_eq. apply row_col; lia.
Qed.

(** ** The register-blocked kernel *)

Lemma for_kloop_fma l a lda b ldb v r s :
  for_ l (kloop_fma a lda b ldb) v r s = tadd (v r s) (sum l (fun k => tmul (a (r * lda + k)) (b (k * ldb + s)))).
Proof.
  revert v. induction l as [|k l IH]; intros v; [by rewrite sum_nil, tadd_0_r|].
  change (for_ (k :: l) ?f v) with (for_ l f (f k v)). rewrite IH, sum_cons. unfold kloop_fma at 1.
  rewrite fma_exact, (tadd_comm _ (v r s)), tadd_assoc. by rewrite (Z.mul_comm lda), (Z.mul_comm ldb).
Qed.

Lemma kloop_blocks_ok p a lda b ldb v r s : 0 <= p ->
  kloop_blocks p a lda b ldb v r s = tadd (v r s) (dot a lda b ldb 0 (p / RBK * RBK) r s).
Proof.
  intros Hp. unfold kloop_blocks, dot. rewrite <- sum_whole_blocks by (try apply Z.div_pos; unfold RBK; lia).
  revert v. induction (steps 0 (p / RBK * RBK) RBK) as [|k l IH]; intros v; [by rewrite sum_nil, tadd_0_r|].
  change (for_ (k :: l) ?f v) with (for_ l f (f k v)). rewrite IH, sum_cons, for_kloop_fma, tadd_assoc. f_equal. f_equal.
  rewrite steps_1, Z.sub_0_r. replace (seqZ k RBK) with (seqZ (k + 0) RBK) by (f_equal; lia). rewrite sum_shift.
  apply sum_ext. intros kk _. unfold ptr. f_equal; f_equal; ring.
Qed.

Lemma kloop_rest_ok p a lda b ldb v r s : 0 <= p ->
  kloop_rest p a lda b ldb v r s = tadd (v r s) (dot a lda b ldb (p / RBK * RBK) (p - p / RBK * RBK) r s).
Proof.
  intros Hp. unfold kloop_rest, dot. rewrite steps_1. revert v.
  induction (seqZ (p / RBK * RBK) (p - p / RBK * RBK)) as [|k l IH]; intros v; [by rewrite sum_nil, tadd_0_r|].
  change (for_ (k :: l) ?f v) with (for_ l f (f k v)). rewrite IH, sum_cons. unfold kloop_fma at 1, ptr.
  rewrite fma_exact, (tadd_comm _ (v r s)), tadd_assoc. f_equal. f_equal. f_equal; f_equal; ring.
Qed.

Lemma existsb_within n (R : Z -> bool) y : 0 <= n -> (forall k, 0 <= k < n -> R k = true <-> y = k) ->
  existsb R (seqZ 0 n) = within 0 n y.
Proof.
  intros Hn HR. apply eq_true_iff_eq. rewrite existsb_exists, within_true. split.
  - intros (k & Hk%list_elem_of_In%elem_of_seqZ & E). apply HR in E; lia.
  - intros Hy. exists y. split; [apply list_elem_of_In, elem_of_seqZ; lia|]. apply HR; lia.
Qed.

(** The rows and columns of a block, one cell at a time. *)
Lemma cells_within m n o ld x : 0 <= m -> 0 <= n <= ld -> 0 < ld ->
  existsb (fun r => existsb (fun s => x =? o + (r * ld + s)) (seqZ 0 n)) (seqZ 0 m) =
  within 0 m (row o ld x) && within 0 n (col o ld x).
Proof.
  intros Hm Hn Hl. pose proof (col_range o ld x Hl). apply eq_true_iff_eq. rewrite existsb_exists, andb_true_iff, !within_true. split.
  - intros (r & Hr%list_elem_of_In%elem_of_seqZ & (s & Hs%list_elem_of_In%elem_of_seqZ & E%Z.eqb_eq)%existsb_exists).
    apply row_col in E as [-> ->]; lia.
  - intros [Hr Hs]. exists (row o ld x). split; [apply list_elem_of_In, elem_of_seqZ; lia|].
    apply existsb_exists. exists (col o ld x). split; [apply list_elem_of_In, elem_of_seqZ; lia|].
    apply Z.eqb_eq. by apply row_col_eq.
Qed.

Lemma kloop_store_ok oc ldc v : RBN <= ldc ->
  overwrites (kloop_store oc ldc v) (fun x => within 0 RBM (row oc ldc x) && within 0 RBN (col oc ldc x))
    (fun x => v (row oc ldc x) (col oc ldc x)).
Proof.
  intros Hl. unfold RBN in *. eapply overwrites_ext; [|done|].
  - intros x. cbv beta. by apply (cells_within RBM 5 oc ldc x); unfold RBM; lia.
  - unfold kloop_store. rewrite !steps_1. apply overwrites_for. intros r _. apply overwrites_for. intros s Hs%elem_of_seqZ.
    rewrite (Z.mul_comm ldc r). apply overwrites_upd. cbv beta. unfold RBN in Hs.
    by destruct (proj1 (row_col oc ldc r s _ ltac:(lia) ltac:(lia)) eq_refl) as [-> ->].
Qed.

Lemma kloop_multiplies p a lda b ldb oc ldc : RBN <= ldc -> 0 <= p ->
  multiplies RBM RBN p a lda b ldb oc ldc (kloop p a lda b ldb oc ldc).
Proof.
  intros Hl Hp c x. unfold kloop. rewrite kloop_store_ok by done. unfold blk. rewrite <- ind_and.
  destruct (_ && _); cbn [ind]; [|by rewrite tadd_0_r]. rewrite kloop_rest_ok, kloop_blocks_ok by done. unfold kloop_load.
  assert (0 < ldc) as Hl0 by (unfold RBN in Hl; lia). rewrite (Z.mul_comm ldc), <- row_col_eq by done. rewrite <- tadd_assoc. f_equal.
  pose proof (Z.mul_div_le p RBK ltac:(done)). pose proof (Z.div_pos p RBK Hp ltac:(done)).
  unfold dot. rewrite (sum_cut (p / RBK * RBK) p); [done|]. unfold RBK in *. lia.
Qed.

(** ** The loops around it *)

(** Sums of blocks that share their rows, and those of a matrix. *)
Lemma blk_add_cols oc ldc i0 m j0 n n' f x : 0 <= n -> 0 <= n' ->
  tadd (blk oc ldc i0 m j0 n f x) (blk oc ldc i0 m (j0 + n) n' f x) = blk oc ldc i0 m j0 (n + n') f x.
Proof. intros. unfold blk. by rewrite ind_add, ind_split. Qed.

Lemma blk_add_rows oc ldc i0 m m' j0 n f x : 0 <= m -> 0 <= m' ->
  tadd (blk oc ldc i0 m j0 n f x) (blk oc ldc (i0 + m) m' j0 n f x) = blk oc ldc i0 (m + m') j0 n f x.
Proof. intros. unfold blk. by rewrite ind_split. Qed.

Lemma blk_cols oc ldc i0 m n s f x : 0 <= n -> 0 < s ->
  sum (steps 0 n s) (fun j => blk oc ldc i0 m j (Z.min (n - j) s) f x) = blk oc ldc i0 m 0 n f x.
Proof. intros. unfold blk. by rewrite sum_ind, ind_blocks. Qed.

Lemma blk_rows oc ldc q s j0 n f x : 0 <= q -> 0 < s ->
  sum (steps 0 (q * s) s) (fun i => blk oc ldc i s j0 n f x) = blk oc ldc 0 (q * s) j0 n f x.
Proof. intros. unfold blk. by rewrite ind_whole_blocks. Qed.

Lemma blk_whole_cols oc ldc i0 m q s f x : 0 <= q -> 0 < s ->
  sum (steps 0 (q * s) s) (fun j => blk oc ldc i0 m j s f x) = blk oc ldc i0 m 0 (q * s) f x.
Proof. intros. unfold blk. by rewrite sum_ind, ind_whole_blocks. Qed.

(** The columns of the product, block by block. *)
Lemma blk_depth oc ldc i0 m j0 n a lda b ldb p s x : 0 <= p -> 0 < s ->
  sum (steps 0 p s) (fun k => blk oc ldc i0 m j0 n (dot a lda b ldb k (Z.min (p - k) s)) x) =
  blk oc ldc i0 m j0 n (dot a lda b ldb 0 p) x.
Proof. intros. unfold blk, dot. by rewrite !sum_ind, sum_blocks. Qed.

Lemma rb_multiplies m n p a lda b ldb oc ldc : 0 <= m -> 0 <= n <= ldc -> 0 < ldc -> 0 <= p ->
  multiplies m n p a lda b ldb oc ldc (mm_rb m n p a lda b ldb oc ldc).
Proof.
  intros Hm Hn Hl Hp. unfold mm_rb. set (qm := m / RBM). set (qn := n / RBN).
  assert (0 <= qm /\ qm * RBM <= m) as [Hqm Hmb] by (pose proof (Z.mul_div_le m RBM); pose proof (Z.div_pos m RBM); unfold RBM in *; lia).
  assert (0 <= qn /\ qn * RBN <= n) as [Hqn Hnb] by (pose proof (Z.mul_div_le n RBN); pose proof (Z.div_pos n RBN); unfold RBN in *; lia).
  set (f := dot a lda b ldb 0 p). eapply adds_ext; [|apply (adds_comp (for_ _ _))].
  2: { apply (adds_for _ _ (fun i x => blk oc ldc i RBM 0 n f x)). intros i _.
       eapply adds_ext; [|apply (adds_comp (for_ _ _))].
       2: { apply (adds_for _ _ (fun j x => blk oc ldc i RBM j RBN f x)). intros j [Hj [d Hd]]%elem_of_steps; [|done].
            eapply (multiplies_at _ _ _ a lda b ldb oc ldc i j 0); [| | | | | | |apply kloop_multiplies];
              unfold RBN in *; try (f_equal; lia); try lia; nia. }
       2: { eapply (multiplies_at _ _ _ a lda b ldb oc ldc i (qn * RBN) 0); [| | | | | | |apply naive_multiplies];
              unfold RBM, RBN in *; try (f_equal; lia); lia. }
       intros x. cbv beta. rewrite blk_whole_cols by done. rewrite <- (Z.add_0_l (qn * RBN)) at 2.
       rewrite blk_add_cols by (unfold RBN in *; lia). f_equal. lia. }
  2: { eapply (multiplies_at _ _ _ a lda b ldb oc ldc (qm * RBM) 0 0); [| | | | | | |apply naive_multiplies];
         try (f_equal; lia); lia. }
  intros x. cbv beta. rewrite blk_rows by done. rewrite <- (Z.add_0_l (qm * RBM)) at 2.
  rewrite blk_add_rows by (unfold RBM in *; lia). f_equal. lia.
Qed.

(** ** Packing *)

Lemma existsb_blocks q s (R : Z -> bool) y : 0 <= q -> 0 < s ->
  (forall k, k ∈ steps 0 (q * s) s -> R k = within k s y) -> existsb R (steps 0 (q * s) s) = within 0 (q * s) y.
Proof.
  intros Hq Hs HR. apply eq_true_iff_eq. rewrite existsb_exists, within_true. split.
  - intros (k & Hk%list_elem_of_In & E). rewrite HR, within_true in E by done.
    apply elem_of_steps in Hk as [Hk [d Hd]]; [|done]. assert (d + 1 <= q) by nia. nia.
  - intros Hy. exists (s * (y / s)). assert (s * (y / s) ∈ steps 0 (q * s) s) as Hin.
    { rewrite steps_mult by done. apply list_elem_of_fmap. exists (y / s). split; [done|]. apply elem_of_seqZ.
      split; [apply Z.div_pos; lia|]. apply Z.div_lt_upper_bound; lia. }
    split; [by apply list_elem_of_In|]. rewrite HR, within_true by done.
    pose proof (Z.div_mod y s). pose proof (Z.mod_pos_bound y s). lia.
Qed.

Lemma existsb_ext (f g : Z -> bool) l : (forall i, f i = g i) -> existsb f l = existsb g l.
Proof. intros E. induction l as [|i l IH]; [done|]. cbn [existsb]. by rewrite E, IH. Qed.

(** A row of [repack]: the eights and the rest. *)
Lemma repack_row_cells i o ld p x : 0 <= p <= ld -> 0 < ld ->
  existsb (fun j => existsb (fun u => x =? o + (i * ld + j + u)) (seqZ 0 8)) (steps 0 (p / 8 * 8) 8) ||
  existsb (fun j => x =? o + (i * ld + j)) (seqZ (p / 8 * 8) (p - p / 8 * 8)) =
  existsb (fun j => x =? o + (i * ld + j)) (seqZ 0 p).
Proof.
  intros Hp Hl. pose proof (Z.mul_div_le p 8). pose proof (Z.div_pos p 8). set (y := x - o - i * ld).
  rewrite (existsb_within p _ y) by (try (intros; rewrite Z.eqb_eq); subst y; lia).
  rewrite (existsb_blocks (p / 8) 8 _ y); [|lia|lia|].
  - apply eq_true_iff_eq. rewrite orb_true_iff, !within_true, existsb_exists. split.
    + intros [?|(j & Hj%list_elem_of_In%elem_of_seqZ & E%Z.eqb_eq)]; subst y; lia.
    + intros Hy. destruct (Z.lt_ge_cases y (p / 8 * 8)); [left; lia|right]. exists y.
      split; [apply list_elem_of_In, elem_of_seqZ; lia|]. apply Z.eqb_eq. subst y. lia.
  - intros k _. rewrite (existsb_within 8 _ (y - k)) by (try (intros; rewrite Z.eqb_eq); subst y; lia).
    apply eq_true_iff_eq. rewrite !within_true. lia.
Qed.

Lemma repack_ok oa lda a0 lda0 m p : 0 <= m -> 0 <= p <= lda -> 0 < lda ->
  overwrites (repack oa lda a0 lda0 m p) (fun x => within 0 m (row oa lda x) && within 0 p (col oa lda x))
    (fun x => a0 (row oa lda x * lda0 + col oa lda x)).
Proof.
  intros Hm Hp Hl. unfold repack. rewrite !steps_1, !Z.sub_0_r.
  set (V := fun x => a0 (row oa lda x * lda0 + col oa lda x)).
  assert (forall i j, 0 <= j < p -> V (oa + (i * lda + j)) = a0 (i * lda0 + j)) as HV.
  { intros i j Hj. subst V. cbv beta. by destruct (proj1 (row_col oa lda i j _ Hl ltac:(lia)) eq_refl) as [-> ->]. }
  eapply overwrites_ext; [|done|apply overwrites_for; intros i _; apply (overwrites_comp (for_ _ _) (for_ _ _))].
  2: { apply overwrites_for. intros j [Hj [d Hd]]%elem_of_steps; [|done]. apply overwrites_for. intros u Hu%elem_of_seqZ.
       apply overwrites_upd. rewrite <- !Z.add_assoc. apply HV. pose proof (Z.mul_div_le p 8). lia. }
  2: { apply overwrites_for. intros j Hj%elem_of_seqZ. apply overwrites_upd. apply HV. pose proof (Z.div_pos p 8). lia. }
  intros x. cbv beta. rewrite <- (cells_within m p oa lda x) by done. apply existsb_ext.
  intros i. by apply repack_row_cells.
Qed.

(** Where the cells of a matrix of [BM] by [BN] blocks lie in its packed copy. *)
Definition packed_at (per_row BM BN i j : Z) : Z :=
  block_at per_row (i / BM) (j / BN) (BM * BN) + (i mod BM * BN + j mod BN).

Lemma block_row_col per_row bi bj BM BN x : 0 < BM -> 0 < BN ->
  within 0 BM (row (block_at per_row bi bj (BM * BN)) BN x) = (x / (BM * BN) =? per_row * bi + bj).
Proof.
  intros HM HN. assert (0 < BM * BN) as Hs by nia. set (B := per_row * bi + bj). unfold block_at. fold B.
  apply eq_true_iff_eq. rewrite within_true, Z.eqb_eq. unfold row.
  pose proof (Z.div_mod (x - B * (BM * BN)) BN). pose proof (Z.mod_pos_bound (x - B * (BM * BN)) BN HN).
  split.
  - intros H2. symmetry. apply (Z.div_unique _ _ _ (x - B * (BM * BN))); nia.
  - intros E. pose proof (Z.div_mod x (BM * BN)). pose proof (Z.mod_pos_bound x (BM * BN) Hs). rewrite E in *.
    split; [apply Z.div_pos; nia|]. apply Z.div_lt_upper_bound; nia.
Qed.

(** The block and the place in it of an index of the packed copy. *)
Lemma packed_block per_row BM BN i j : 0 < BM -> 0 < BN ->
  packed_at per_row BM BN i j / (BM * BN) = per_row * (i / BM) + j / BN /\
  row (block_at per_row (i / BM) (j / BN) (BM * BN)) BN (packed_at per_row BM BN i j) = i mod BM /\
  col (block_at per_row (i / BM) (j / BN) (BM * BN)) BN (packed_at per_row BM BN i j) = j mod BN.
Proof.
  intros HM HN. assert (0 < BM * BN) as Hs by nia. pose proof (Z.mod_pos_bound i BM HM). pose proof (Z.mod_pos_bound j BN HN).
  split; [|by apply row_col]. unfold packed_at, block_at. symmetry. apply (Z.div_unique _ _ _ (i mod BM * BN + j mod BN)); nia.
Qed.

Lemma pack_ok qr qc BM BN (src : Z -> T) ld (dst : Z -> T) i j : 0 < BM -> 0 < BN -> 0 <= i < qr * BM -> 0 <= j < qc * BN ->
  pack (qr * BM) (qc * BN) qc BM BN src ld dst (packed_at qc BM BN i j) = src (i * ld + j).
Proof.
  intros HM HN Hi Hj. assert (0 < BM * BN) as Hs by nia. set (x := packed_at qc BM BN i j).
  assert (0 < qc) as Hqc by nia. assert (0 <= qr) as Hqr by nia.
  (* the whole copy, by the block of the index *)
  set (V := fun x => let B := x / (BM * BN) in let o := B * (BM * BN) in
              src ((B / qc * BM + row o BN x) * ld + (B mod qc * BN + col o BN x))).
  set (R := fun i j x => (x / (BM * BN) =? qc * (i / BM) + j / BN) && within 0 BN (col (block_at qc (i / BM) (j / BN) (BM * BN)) BN x)).
  assert (overwrites (pack (qr * BM) (qc * BN) qc BM BN src ld)
    (fun x => existsb (fun i => existsb (fun j => R i j x) (steps 0 (qc * BN) BN)) (steps 0 (qr * BM) BM)) V) as Ho.
  { apply overwrites_for. intros i' [Hi' [di Hdi]]%elem_of_steps; [|done]. apply overwrites_for.
    intros j' [Hj' [dj Hdj]]%elem_of_steps; [|done].
    assert (i' = di * BM) as -> by lia. assert (j' = dj * BN) as -> by lia.
    eapply overwrites_ext; [..|apply repack_ok]; [| |lia..].
    - intros y. cbv beta. subst R. cbv beta. by rewrite block_row_col.
    - intros y. subst R V. cbv beta zeta. rewrite andb_true_iff, Z.eqb_eq, !Z.div_mul by lia. intros [E _]. rewrite E.
      rewrite (Z.mul_comm qc di), Z.div_add_l, (Z.div_small dj) by nia.
      rewrite (Z.add_comm (di * qc) dj), Z.mod_add, Z.mod_small by nia. unfold block_at, ptr.
      rewrite (Z.mul_comm qc di), (Z.add_comm (di * qc) dj).
      f_equal. ring. }
  unfold pack in *. rewrite Ho. destruct (packed_block qc BM BN i j HM HN) as (E1 & E2 & E3). fold x in E1, E2, E3.
  replace (existsb _ _) with true.
  - subst V. cbv beta zeta. rewrite E1. unfold block_at in E2, E3. rewrite E2, E3.
    assert (0 <= j / BN < qc) as Hb by (split; [apply Z.div_pos; lia|apply Z.div_lt_upper_bound; lia]).
    rewrite (Z.mul_comm qc), Z.div_add_l, (Z.div_small (j / BN)) by lia.
    rewrite (Z.add_comm (i / BM * qc)), Z.mod_add, (Z.mod_small (j / BN)) by lia.
    pose proof (Z.div_mod i BM ltac:(lia)). pose proof (Z.div_mod j BN ltac:(lia)). f_equal. f_equal; [f_equal|]; lia.
  - symmetry. apply existsb_exists. exists (BM * (i / BM)). split.
    { apply list_elem_of_In. rewrite steps_mult by done. apply list_elem_of_fmap. exists (i / BM). split; [done|].
      apply elem_of_seqZ. split; [apply Z.div_pos; lia|]. apply Z.div_lt_upper_bound; lia. }
    apply existsb_exists. exists (BN * (j / BN)). split.
    { apply list_elem_of_In. rewrite steps_mult by done. apply list_elem_of_fmap. exists (j / BN). split; [done|].
      apply elem_of_seqZ. split; [apply Z.div_pos; lia|]. apply Z.div_lt_upper_bound; lia. }
    subst R. cbv beta. rewrite (Z.mul_comm BM (i / BM)), (Z.mul_comm BN (j / BN)), !Z.div_mul by lia.
    rewrite andb_true_iff, Z.eqb_eq, within_true, E1. split; [done|]. rewrite E3. by apply Z.mod_pos_bound.
Qed.

(** ** Cache blocks *)

Lemma steps_block q s i : 0 < s -> i ∈ steps 0 (q * s) s -> i = i / s * s /\ 0 <= i / s < q.
Proof.
  intros Hs [Hi [d Hd]]%elem_of_steps; [|done]. assert (i = d * s) as -> by lia. rewrite Z.div_mul by lia. nia.
Qed.

Lemma in_block i r s : 0 < s -> i = i / s * s -> 0 <= r < s -> (i + r) / s = i / s /\ (i + r) mod s = r.
Proof.
  intros Hs -> Hr. set (d := i / s) at 1 2. rewrite (Z.div_mul (i / s)) by lia. fold d. clearbody d.
  rewrite Z.add_comm, Z.div_add, Z.mod_add, Z.div_small, Z.mod_small by lia. lia.
Qed.

(** A block of the packed copies is a block of the matrices. *)
Lemma packed_dot a lda b ldb a1 b1 npb nnb i j k r s :
  i = i / CBM * CBM -> j = j / CBN * CBN -> k = k / CBK * CBK -> 0 <= r < CBM -> 0 <= s < CBN ->
  (forall kk, 0 <= kk < CBK -> a1 (packed_at npb CBM CBK (i + r) (k + kk)) = a ((i + r) * lda + (k + kk)) /\
     b1 (packed_at nnb CBK CBN (k + kk) (j + s)) = b ((k + kk) * ldb + (j + s))) ->
  dot (ptr a1 (block_at npb (i / CBM) (k / CBK) (CBM * CBK))) CBK (ptr b1 (block_at nnb (k / CBK) (j / CBN) (CBK * CBN))) CBN 0 CBK r s =
  dot a lda b ldb k CBK (i + r) (j + s).
Proof.
  intros Hi Hj Hk Hr Hs Hab. unfold dot. replace (seqZ k CBK) with (seqZ (k + 0) CBK) by (f_equal; lia). rewrite sum_shift.
  apply sum_ext. intros kk Hkk%elem_of_seqZ. destruct (Hab kk) as [<- <-]; [lia|]. unfold packed_at, ptr.
  destruct (in_block i r CBM) as [-> ->]; [done..|]. destruct (in_block j s CBN) as [-> ->]; [done..|].
  destruct (in_block k kk CBK) as [-> ->]; [done|done|lia|]. done.
Qed.

Lemma blk_whole_depth oc ldc i0 m j0 n a lda b ldb q s di dj x : 0 <= q -> 0 < s ->
  sum (steps 0 (q * s) s) (fun k => blk oc ldc i0 m j0 n (fun i j => dot a lda b ldb k s (di + i) (dj + j)) x) =
  blk oc ldc i0 m j0 n (fun i j => dot a lda b ldb 0 (q * s) (di + i) (dj + j)) x.
Proof. intros. unfold blk, dot. by rewrite !sum_ind, sum_whole_blocks. Qed.

Section cb.
Context (m n p : Z) (a : Z -> T) (lda : Z) (b : Z -> T) (ldb ldc : Z).
Context (Hm : 0 <= m) (Hn : 0 <= n <= ldc) (Hp : 0 <= p) (Hldc : 0 < ldc).
Let nmb := m / CBM.
Let nnb := n / CBN.
Let npb := p / CBK.

Lemma cb_counts : 0 <= nmb /\ nmb * CBM <= m /\ 0 <= nnb /\ nnb * CBN <= n /\ 0 <= npb /\ npb * CBK <= p.
Proof.
  subst nmb nnb npb. pose proof (Z.mul_div_le m CBM). pose proof (Z.mul_div_le n CBN). pose proof (Z.mul_div_le p CBK).
  pose proof (Z.div_pos m CBM). pose proof (Z.div_pos n CBN). pose proof (Z.div_pos p CBK). unfold CBM, CBN, CBK in *. lia.
Qed.

(** The two packed copies. *)
Definition packed_ab (a1 b1 : Z -> T) : Prop :=
  (forall i k, 0 <= i < nmb * CBM -> 0 <= k < npb * CBK -> a1 (packed_at npb CBM CBK i k) = a (i * lda + k)) /\
  (forall k j, 0 <= k < npb * CBK -> 0 <= j < nnb * CBN -> b1 (packed_at nnb CBK CBN k j) = b (k * ldb + j)).

Lemma cb_block_adds a1 b1 i j : packed_ab a1 b1 -> i ∈ steps 0 (nmb * CBM) CBM -> j ∈ steps 0 (nnb * CBN) CBN ->
  adds (cb_block p (npb * CBK) nnb npb a lda b ldb a1 b1 i j)
    (blk (block_at nnb (i / CBM) (j / CBN) (CBM * CBN)) CBN 0 CBM 0 CBN (fun r s => dot a lda b ldb 0 p (i + r) (j + s))).
Proof.
  intros [Ha Hb] Hi Hj. pose proof cb_counts as Hc. apply steps_block in Hi as [Ei Hi]; [|done].
  apply steps_block in Hj as [Ej Hj]; [|done]. set (oc := block_at nnb (i / CBM) (j / CBN) (CBM * CBN)).
  assert (adds (for_ (steps 0 (npb * CBK) CBK) (fun k =>
      mm_rb CBM CBN CBK (ptr a1 (block_at npb (i / CBM) (k / CBK) (CBM * CBK))) CBK
        (ptr b1 (block_at nnb (k / CBK) (j / CBN) (CBK * CBN))) CBN oc CBN))
    (blk oc CBN 0 CBM 0 CBN (fun r s => dot a lda b ldb 0 (npb * CBK) (i + r) (j + s)))) as H1.
  { eapply adds_ext; [|apply adds_for; intros k Hk; apply rb_multiplies; done].
    intros x. cbv beta. rewrite <- blk_whole_depth by (done || lia). apply sum_ext. intros k Hk.
    apply steps_block in Hk as [Ek Hk]; [|done]. apply blk_ext. intros r s Hr Hs. apply packed_dot; [done..|].
    unfold CBM, CBN, CBK in *. intros kk Hkk. split; [apply Ha|apply Hb]; lia. }
  unfold cb_block. fold oc. destruct (Z.ltb_spec (npb * CBK) p) as [Hlt|Hge].
  - eapply adds_ext; [|apply (adds_comp (for_ _ _) (mm_rb _ _ _ _ _ _ _ _ _)); [exact H1|apply rb_multiplies; done || lia]].
    intros x. cbv beta. unfold blk. rewrite !ind_add. apply ind_ext; [done|]. intros _. apply ind_ext; [done|]. intros _.
    rewrite dot_rebase. unfold dot. rewrite (sum_cut (npb * CBK) p); [done|]. unfold CBK in *. lia.
  - assert (npb * CBK = p) as E by lia. rewrite E in *. exact H1.
Qed.

Lemma cb_columns_adds i : i ∈ steps 0 (nmb * CBM) CBM ->
  adds (cb_columns n p (nnb * CBN) a lda b ldb ldc i) (blk 0 ldc i CBM (nnb * CBN) (n - nnb * CBN) (dot a lda b ldb 0 p)).
Proof.
  intros Hi. pose proof cb_counts as Hc. unfold cb_columns. destruct (Z.ltb_spec (nnb * CBN) n) as [Hlt|Hge].
  - eapply adds_ext; [intros x; apply (blk_depth _ _ _ _ _ _ _ _ _ _ p CBK); [done|done]|]. apply adds_for.
    intros k [Hk _]%elem_of_steps; [|done]. unfold CBN, CBM, CBK in *.
    eapply (multiplies_at _ _ _ a lda b ldb 0 ldc i (nnb * 25) k); [| | | | | | |apply rb_multiplies]; try done; lia.
  - intros c x. unfold blk. rewrite <- (tadd_0_r (c x)) at 1. f_equal. destruct (within i _ _); [|done]. cbn [ind].
    replace (within _ _ (col _ _ _)) with false; [done|]. symmetry. apply not_true_iff_false. rewrite within_true. lia.
Qed.

Lemma cb_rows_adds :
  adds (cb_rows m n p (nmb * CBM) a lda b ldb ldc) (blk 0 ldc (nmb * CBM) (m - nmb * CBM) 0 n (dot a lda b ldb 0 p)).
Proof.
  pose proof cb_counts as Hc. unfold cb_rows. destruct (Z.ltb_spec (nmb * CBM) m) as [Hlt|Hge].
  - eapply adds_ext; [intros x; apply (blk_cols _ _ _ _ n CBN); [lia|done]|]. apply adds_for.
    intros j [Hj _]%elem_of_steps; [|done].
    eapply adds_ext; [intros x; apply (blk_depth _ _ _ _ _ _ _ _ _ _ p CBK); [done|done]|]. apply adds_for.
    intros k [Hk _]%elem_of_steps; [|done]. unfold CBN, CBM, CBK in *.
    eapply (multiplies_at _ _ _ a lda b ldb 0 ldc (nmb * 24) j k); [| | | | | | |apply rb_multiplies]; try done; lia.
  - intros c x. unfold blk. rewrite <- (tadd_0_r (c x)) at 1. f_equal.
    replace (within _ _ (row _ _ _)) with false; [done|]. symmetry. apply not_true_iff_false. rewrite within_true. lia.
Qed.

(** The packed copy of [c] after all its blocks. *)
Lemma steps_mem q s i : 0 < s -> 0 <= i < q * s -> i / s * s ∈ steps 0 (q * s) s.
Proof.
  intros Hs Hi. rewrite steps_mult by done. apply list_elem_of_fmap. exists (i / s). split; [lia|].
  apply elem_of_seqZ. split; [apply Z.div_pos; lia|apply Z.div_lt_upper_bound; lia].
Qed.

Lemma cb_blocks_at a1 b1 c1 i0 j0 : packed_ab a1 b1 -> 0 <= i0 < nmb * CBM -> 0 <= j0 < nnb * CBN ->
  for_ (steps 0 (nmb * CBM) CBM) (fun i =>
    for_ (steps 0 (nnb * CBN) CBN) (cb_block p (npb * CBK) nnb npb a lda b ldb a1 b1 i)) c1 (packed_at nnb CBM CBN i0 j0) =
  tadd (c1 (packed_at nnb CBM CBN i0 j0)) (dot a lda b ldb 0 p i0 j0).
Proof.
  intros Hab Hi0 Hj0. set (x := packed_at nnb CBM CBN i0 j0).
  destruct (packed_block nnb CBM CBN i0 j0) as (E1 & E2 & E3); [done..|]. fold x in E1, E2, E3.
  erewrite (adds_for _ _ (fun i x => sum (steps 0 (nnb * CBN) CBN) (fun j => blk _ _ _ _ _ _ _ x)));
    [|intros i Hi; apply adds_for; intros j Hj; by apply cb_block_adds].
  f_equal. set (I := i0 / CBM * CBM). set (J := j0 / CBN * CBN).
  assert (0 <= j0 / CBN < nnb) as HJ by (split; [apply Z.div_pos; [lia|done]|apply Z.div_lt_upper_bound; [done|unfold CBN in *; lia]]).
  rewrite (sum_ext _ _ (fun i => ind (i =? I) (sum (steps 0 (nnb * CBN) CBN) (fun j => ind (j =? J)
    (dot a lda b ldb 0 p (i + row (block_at nnb (i / CBM) (j / CBN) (CBM * CBN)) CBN x)
       (j + col (block_at nnb (i / CBM) (j / CBN) (CBM * CBN)) CBN x)))))).
  - rewrite (sum_one_ind _ (fun i => i =? I) _ I); [|by apply NoDup_steps|by apply steps_mem|intros; apply Z.eqb_eq].
    rewrite (sum_one_ind _ (fun j => j =? J) _ J); [|by apply NoDup_steps|by apply steps_mem|intros; apply Z.eqb_eq].
    subst I J. rewrite !Z.div_mul, E2, E3 by done. f_equal; rewrite Z.mul_comm; symmetry; by apply Z.div_mod.
  - intros i Hi. rewrite <- sum_ind. apply sum_ext. intros j Hj. apply steps_block in Hi as [Ei Hi]; [|done].
    apply steps_block in Hj as [Ej Hj]; [|done]. unfold blk. rewrite block_row_col, <- !ind_and by done.
    apply ind_ext; [|done]. apply eq_true_iff_eq. rewrite !andb_true_iff, within_true, !Z.eqb_eq, E1.
    pose proof (col_range (block_at nnb (i / CBM) (j / CBN) (CBM * CBN)) CBN x ltac:(done)).
    assert (nnb * (i0 / CBM) + j0 / CBN = nnb * (i / CBM) + j / CBN <-> i / CBM = i0 / CBM /\ j / CBN = j0 / CBN) as ->
      by (split; [intros E; apply Z.div_mod_unique in E; lia|by intros [-> ->]]).
    subst I J. unfold CBM, CBN in *. lia.
Qed.

(** Unpacking. *)
Lemma unpack_ok c1 : overwrites (unpack (nmb * CBM) (nnb * CBN) nnb ldc c1)
  (fun x => within 0 (nmb * CBM) (row 0 ldc x) && within 0 (nnb * CBN) (col 0 ldc x))
  (fun x => c1 (packed_at nnb CBM CBN (row 0 ldc x) (col 0 ldc x))).
Proof.
  pose proof cb_counts as Hc. unfold unpack.
  eapply overwrites_ext; [|done|apply (overwrites_for _ _ (fun i x => within i CBM (row 0 ldc x) && within 0 (nnb * CBN) (col 0 ldc x)))].
  - intros x. cbv beta. destruct (within 0 (nnb * CBN) (col 0 ldc x)).
    + rewrite andb_true_r. apply existsb_blocks; [lia|done|]. intros k _. apply andb_true_r.
    + rewrite andb_false_r. apply not_true_iff_false. rewrite existsb_exists. intros (k & _ & H). by rewrite andb_false_r in H.
  - intros i Hi. apply steps_block in Hi as [Ei Hi]; [|done].
    eapply overwrites_ext; [|done|apply (overwrites_for _ _ (fun j x => within i CBM (row 0 ldc x) && within j CBN (col 0 ldc x)))].
    + intros x. cbv beta. destruct (within i CBM (row 0 ldc x)); [|apply not_true_iff_false; rewrite existsb_exists; by intros (k & _ & H)].
      apply existsb_blocks; [lia|done|done].
    + intros j Hj. apply steps_block in Hj as [Ej Hj]; [|done]. unfold CBM, CBN in *.
      eapply overwrites_ext; [| |apply (repack_ok (0 + (i * ldc + j)) ldc _ 25 24 25); lia].
      * intros x. by apply rebase; lia.
      * intros x Hx. cbv beta. destruct (rebase 0 ldc i 24 j 25 x) as [E1 E2]; [lia..|]. destruct (E2 Hx) as [F1 F2].
        rewrite <- E1, andb_true_iff, !within_true in Hx. rewrite F1, F2. unfold packed_at, ptr.
        destruct (in_block i (row (0 + (i * ldc + j)) ldc x) 24) as [-> ->]; [done|done|lia|].
        destruct (in_block j (col (0 + (i * ldc + j)) ldc x) 25) as [-> ->]; [done|done|lia|]. done.
Qed.

Lemma for_pair {A B} l (f : Z -> A -> A) (g : Z -> B -> B) x y :
  for_ l (fun i '(x, y) => (f i x, g i y)) (x, y) = (for_ l f x, for_ l g y).
Proof. revert x y. induction l as [|i l IH]; intros x y; [done|]. apply IH. Qed.

Lemma cb_ok a1 b1 c1 c x :
  mm_cb a1 b1 c1 m n p a lda b ldb ldc c x = tadd (c x) (blk 0 ldc 0 m 0 n (dot a lda b ldb 0 p) x).
Proof.
  pose proof cb_counts as Hc. unfold mm_cb. fold nmb nnb npb.
  set (a1' := pack (nmb * CBM) (npb * CBK) npb CBM CBK a lda a1). set (b1' := pack (npb * CBK) (nnb * CBN) nnb CBK CBN b ldb b1).
  set (c1' := pack (nmb * CBM) (nnb * CBN) nnb CBM CBN c ldc c1).
  assert (packed_ab a1' b1') as Hab by (split; intros; by apply pack_ok).
  rewrite (for_pair _ (cb_columns n p (nnb * CBN) a lda b ldb ldc)
             (fun i => for_ (steps 0 (nnb * CBN) CBN) (cb_block p (npb * CBK) nnb npb a lda b ldb a1' b1' i))).
  rewrite unpack_ok. set (i := row 0 ldc x). set (j := col 0 ldc x).
  pose proof (col_range 0 ldc x Hldc) as Hj. fold j in Hj. unfold blk at 1. fold i j.
  destruct (within 0 (nmb * CBM) i && within 0 (nnb * CBN) j) eqn:E.
  - rewrite andb_true_iff, !within_true in E. rewrite cb_blocks_at by (done || lia). subst c1'. rewrite pack_ok by (done || lia).
    pose proof (row_col_eq 0 ldc x Hldc) as Ex. fold i j in Ex. rewrite Z.add_0_l in Ex. rewrite <- Ex. f_equal.
    rewrite (proj2 (within_true 0 m i)), (proj2 (within_true 0 n j)) by lia. done.
  - rewrite cb_rows_adds, (adds_for _ _ _ cb_columns_adds). rewrite blk_rows by (done || lia). rewrite <- tadd_assoc. f_equal.
    unfold blk. fold i j. apply not_true_iff_false in E. rewrite andb_true_iff, !within_true in E.
    rewrite <- !ind_and. unfold ind. destruct (within 0 m i && within 0 n j) eqn:Er.
    + rewrite andb_true_iff, !within_true in Er. destruct (Z.lt_ge_cases i (nmb * CBM)).
      * rewrite (proj2 (within_true 0 (nmb * CBM) i)), (proj2 (within_true (nnb * CBN) _ j)) by lia.
        replace (within (nmb * CBM) (m - nmb * CBM) i) with false by (symmetry; apply not_true_iff_false; rewrite within_true; lia).
        apply tadd_0_r.
      * replace (within 0 (nmb * CBM) i) with false by (symmetry; apply not_true_iff_false; rewrite within_true; lia).
        rewrite (proj2 (within_true (nmb * CBM) _ i)), (proj2 (within_true 0 n j)) by lia. apply tadd_0_l.
    + apply not_true_iff_false in Er. rewrite andb_true_iff, !within_true in Er.
      replace (within 0 (nmb * CBM) i && _) with false
        by (symmetry; apply not_true_iff_false; rewrite andb_true_iff, !within_true; lia).
      replace (within (nmb * CBM) _ i && _) with false
        by (symmetry; apply not_true_iff_false; rewrite andb_true_iff, !within_true; unfold CBM in *; lia).
      apply tadd_0_l.
Qed.
End cb.

Lemma mm_ref_blk m n p a lda b ldb oc ldc c x : 0 < ldc ->
  mm_ref m n p a lda b ldb oc ldc c x = tadd (c x) (blk oc ldc 0 m 0 n (dot a lda b ldb 0 p) x).
Proof.
  intros Hl. unfold mm_ref, blk. fold (row oc ldc x) (col oc ldc x). pose proof (col_range oc ldc x Hl).
  rewrite <- ind_and. unfold within. rewrite (proj2 (Z.leb_le 0 (col oc ldc x))), !Z.add_0_l, andb_true_l by lia.
  destruct (_ && _); cbn [ind]; [done|by rewrite tadd_0_r].
Qed.

(** ** Sparse product *)

Lemma steps_length lo hi s : 0 < s -> Z.of_nat (length (steps lo hi s)) = Z.max 0 ((hi - lo + s - 1) / s).
Proof. intros Hs. unfold steps. rewrite length_fmap, length_seqZ. lia. Qed.

Lemma steps_shift lo hi s : steps lo hi s = (fun k => lo + k) <$> steps 0 (hi - lo) s.
Proof. unfold steps. rewrite <- list_fmap_compose, Z.sub_0_r. apply list_fmap_ext. intros _ k _. cbn. lia. Qed.

Lemma for_tadd l (f : Z -> T) s : for_ l (fun k s => tadd s (f k)) s = tadd s (sum l f).
Proof.
  revert s. induction l as [|k l IH]; intros s; [by rewrite sum_nil, tadd_0_r|].
  change (for_ (k :: l) ?g s) with (for_ l g (g k s)). by rewrite IH, sum_cons, tadd_assoc.
Qed.

Lemma spmv_row_ok (val : Z -> T) idx (x : Z -> T) k e :
  spmv_row val idx x k e = sum (seqZ k (e - k)) (fun k => tmul (val k) (x (idx k))).
Proof.
  unfold spmv_row. set (f := fun k => tmul (val k) (x (idx k))). set (four := steps k (e - 3) 4).
  pose proof (four_sums four f (fun k '(y0, y1, y2, y3) =>
    (tadd y0 (tmul (val (k + 0)) (x (idx (k + 0)))), tadd y1 (tmul (val (k + 1)) (x (idx (k + 1)))),
     tadd y2 (tmul (val (k + 2)) (x (idx (k + 2)))), tadd y3 (tmul (val (k + 3)) (x (idx (k + 3))))))
    tzero tzero tzero tzero ltac:(done)) as H.
  destruct (for_ four _ _) as [[[y0 y1] y2] y3]. rewrite steps_1, for_tadd. fold f.
  rewrite (tadd_comm y0), <- !tadd_assoc. rewrite <- !tadd_assoc in H. rewrite H, !tadd_0_l. clear H.
  set (q := Z.of_nat (length four)). assert (sum four (fun k => sum (seqZ k 4) f) = sum (seqZ k (4 * q)) f) as ->.
  { subst four q. rewrite steps_length by done. set (h := (e - 3 - k + 4 - 1) / 4).
    unfold steps. fold h. rewrite sum_fmap. destruct (Z.le_gt_cases h 0) as [Hle|Hgt].
    - rewrite (seqZ_nil 0 h), (seqZ_nil k) by lia. done.
    - rewrite Z.max_r by lia. replace (seqZ k (4 * h)) with (seqZ (k + 0) (h * 4)) by (f_equal; lia). rewrite sum_shift.
      rewrite <- (sum_whole_blocks _ h 4) by lia. rewrite steps_mult, sum_fmap by done. apply sum_ext. intros d _.
      by rewrite sum_shift. }
  destruct (Z.le_gt_cases (e - k) 0) as [Hle|Hgt].
  - assert (q = 0) as ->.
    { subst q four. rewrite steps_length by done. apply Z.max_l. apply Z.lt_succ_r, Z.div_lt_upper_bound; lia. }
    rewrite !(seqZ_nil k) by lia. rewrite seqZ_nil by lia. rewrite !sum_nil. apply tadd_0_l.
  - assert (0 <= 4 * q <= e - k) as Hq.
    { subst q four. rewrite steps_length by done. pose proof (Z.mul_div_le (e - 3 - k + 4 - 1) 4). lia. }
    replace (e - k) with (4 * q + (e - (k + 4 * q))) by lia. rewrite sum_seqZ_app by lia. by rewrite tadd_comm.
Qed.

(** Each of the [r] rows is the product of its entries with the vector. *)
Lemma spmv_correct r (val : Z -> T) idx (x : Z -> T) ptr (y : Z -> T) i : 0 <= r ->
  spmv r val idx x ptr y i =
  if within 0 r i then sum (seqZ (ptr i) (ptr (i + 1) - ptr i)) (fun k => tmul (val k) (x (idx k))) else y i.
Proof.
  intros Hr. unfold spmv. rewrite steps_1, Z.sub_0_r.
  rewrite (overwrites_for _ _ (fun k i => i =? k) (fun i => spmv_row val idx x (ptr i) (ptr (i + 1)))).
  - rewrite (existsb_within r _ i) by (try (intros; apply Z.eqb_eq); lia). by rewrite spmv_row_ok.
  - intros k _. by apply overwrites_upd.
Qed.

(** ** Kernels that several harts share *)

(** The indices of a hart. *)
Lemma hart_indices h nc n i : 0 < nc -> 0 <= h < nc -> 0 <= n -> i ∈ steps h n nc <-> 0 <= i < n /\ i mod nc = h.
Proof.
  intros Hnc Hc Hn. split.
  - intros [Hr [d Hd]]%elem_of_steps; [|done]. split; [lia|]. replace i with (h + d * nc) by lia.
    rewrite Z.mod_add, Z.mod_small by lia. done.
  - intros [Hlt Hm]. unfold steps. apply list_elem_of_fmap. exists (i / nc). pose proof (Z.div_mod i nc). split; [lia|].
    apply elem_of_seqZ. split; [apply Z.div_pos; lia|]. rewrite Z.add_0_l. apply Z.le_succ_l, Z.div_le_lower_bound; lia.
Qed.

(** Whatever the order of the harts, the sum is taken once for every index, in another array and in
    place. *)
Lemma mt_vvadd_correct nc n order (x : option (Z -> T)) (y z : Z -> T) i : 0 < nc -> 0 <= n -> order ≡ₚ seqZ 0 nc ->
  for_ order (fun h => mt_vvadd h nc n x y) z i = if within 0 n i then tadd (default z x i) (y i) else z i.
Proof.
  intros Hnc Hn Ho. assert (forall h, h ∈ order <-> 0 <= h < nc) as Hh by (intros h; rewrite Ho, elem_of_seqZ; lia).
  destruct x as [x|].
  - rewrite (overwrites_for order _ (fun h i => existsb (fun k => i =? k) (steps h n nc)) (fun i => tadd (x i) (y i))).
    + replace (existsb _ order) with (within 0 n i); [done|]. apply eq_true_iff_eq. rewrite within_true, existsb_exists. split.
      * intros Hi. exists (i mod nc). pose proof (Z.mod_pos_bound i nc). split; [apply list_elem_of_In, Hh; lia|].
        apply existsb_exists. exists i. split; [apply list_elem_of_In, hart_indices; lia|apply Z.eqb_refl].
      * intros (h & Hin%list_elem_of_In%Hh & (k & Hk%list_elem_of_In & ->%Z.eqb_eq)%existsb_exists).
        apply hart_indices in Hk; lia.
    + intros h _. apply overwrites_for. intros k _. by apply (overwrites_upd k (tadd (x k) (y k))).
  - assert (adds (for_ order (fun h => mt_vvadd h nc n None y)) (fun i => ind (within 0 n i) (y i))) as Ha.
    { eapply adds_ext; [|apply adds_for; intros h _; apply adds_for; intros k _; apply (cell_adds k (fun s => tadd s (y k))); done].
      intros j. cbv beta. destruct (within 0 n j) eqn:E.
      - rewrite within_true in E. pose proof (Z.mod_pos_bound j nc Hnc).
        rewrite (sum_ext _ _ (fun h => ind (h =? j mod nc) (y j))).
        + apply (sum_one_ind _ _ (fun _ => y j) (j mod nc)); [rewrite Ho; apply NoDup_seqZ|by apply Hh|intros; apply Z.eqb_eq].
        + intros h Hin%Hh. destruct (Z.eqb_spec h (j mod nc)) as [->|Hne]; cbn [ind].
          * apply (sum_one_ind _ _ y j); [by apply NoDup_steps|apply hart_indices; lia|].
            intros k _. rewrite Z.eqb_eq. split; by intros ->.
          * apply sum_zero. intros k Hk.
            apply hart_indices in Hk as [_ Hk]; [|lia..]. rewrite (proj2 (Z.eqb_neq j k)) by congruence. done.
      - apply sum_zero. intros h Hin%Hh.
        apply sum_zero. intros k Hk.
        apply hart_indices in Hk as [Hk _]; [|lia..]. rewrite (proj2 (Z.eqb_neq j k)); [done|].
        intros ->. apply not_true_iff_false in E. rewrite within_true in E. lia. }
    rewrite Ha. cbn [default]. destruct (within 0 n i); cbn [ind]; [done|apply tadd_0_r].
Qed.
End kernels.

(** The sum of a row and a column modulo 2^32. *)
Lemma for_s32 l (g : Z -> Z) s : s32 s = s -> for_ l (fun k sum => s32 (sum + s32 (g k))) s = s32 (s + sum l g).
Proof.
  revert s. induction l as [|k l IH]; intros s Hs; [by rewrite sum_nil, Z.add_0_r|].
  change (for_ (k :: l) ?f s) with (for_ l f (f k s)). rewrite IH, sum_cons.
  - rewrite <- (wrapS_add 32 (s32 (s + s32 (g k)))) by done. rewrite <- Hs at 1. rewrite (wrapS_add 32 s (g k)) by done.
    rewrite <- (wrapS_wrapU 32 (wrapS 32 (s + g k))), wrapU_wrapS, wrapS_wrapU, wrapS_add by done. f_equal. cbn. lia.
  - by rewrite <- (wrapS_wrapU 32 (wrapS 32 _)), wrapU_wrapS, wrapS_wrapU.
Qed.

(** The harts together, in any order, fill the rows of their blocks with the product modulo 2^32:
    all rows when the number of harts divides the size, as in the one call of the benchmark. *)
Lemma matmul_correct nc lda order A B C x : 0 < nc -> 0 < lda -> order ≡ₚ seqZ 0 nc ->
  for_ order (fun h => matmul h nc lda A B) C x =
  if within 0 (lda / nc * nc) (row 0 lda x) then s32 (dot A lda B lda 0 lda (row 0 lda x) (col 0 lda x)) else C x.
Proof.
  intros Hnc Hl Ho. set (blocks := lda / nc). assert (0 <= blocks) as Hb by (apply Z.div_pos; lia).
  set (V := fun x => s32 (dot A lda B lda 0 lda (row 0 lda x) (col 0 lda x))).
  rewrite (overwrites_for order _ (fun h x => within (blocks * h) blocks (row 0 lda x)) V).
  - replace (existsb _ order) with (within 0 (blocks * nc) (row 0 lda x)); [done|]. apply eq_true_iff_eq.
    rewrite within_true, existsb_exists. split.
    + intros Hr. assert (0 < blocks) by nia. exists (row 0 lda x / blocks). split.
      * apply list_elem_of_In. rewrite Ho. apply elem_of_seqZ. split; [apply Z.div_pos; lia|apply Z.div_lt_upper_bound; lia].
      * apply within_true. pose proof (Z.div_mod (row 0 lda x) blocks). pose proof (Z.mod_pos_bound (row 0 lda x) blocks). lia.
    + intros (h & Hin%list_elem_of_In & E%within_true). rewrite Ho in Hin. apply elem_of_seqZ in Hin. nia.
  - intros h _. unfold matmul. fold blocks. rewrite !steps_1, Z.sub_0_r.
    eapply overwrites_ext; [|done|apply overwrites_for; intros i Hi; apply overwrites_for; intros j _; apply overwrites_upd].
    + intros y. cbv beta. pose proof (col_range 0 lda y Hl). apply eq_true_iff_eq. rewrite within_true, existsb_exists. split.
      * intros (i & Hi%list_elem_of_In%elem_of_seqZ & (j & Hj%list_elem_of_In%elem_of_seqZ & E%Z.eqb_eq)%existsb_exists).
        destruct (proj1 (row_col 0 lda j i y Hl ltac:(lia)) ltac:(lia)) as [-> _]. lia.
      * intros Hr. exists (col 0 lda y). split; [apply list_elem_of_In, elem_of_seqZ; lia|]. apply existsb_exists.
        exists (row 0 lda y). split; [apply list_elem_of_In, elem_of_seqZ; lia|]. apply Z.eqb_eq.
        rewrite (row_col_eq 0 lda y Hl) at 1. lia.
    + apply elem_of_seqZ in Hi. subst V. cbv beta.
      destruct (proj1 (row_col 0 lda j i (i + j * lda) Hl ltac:(lia)) ltac:(lia)) as [-> ->]. by rewrite for_s32.
Qed.


(** ** The product in exact arithmetic *)

Lemma mm_exact {T} `{!Arith T, !ExactArith T} (a1 b1 c1 : Z -> T) m n p (a : Z -> T) lda (b : Z -> T) ldb ldc (c : Z -> T) :
  0 <= m -> 0 <= n <= ldc -> 0 < ldc -> 0 <= p ->
  forall x, mm a1 b1 c1 m n p a lda b ldb ldc c x = mm_ref m n p a lda b ldb 0 ldc c x.
Proof.
  intros Hm Hn Hl Hp x. rewrite mm_ref_blk by done. unfold mm. destruct (_ && _).
  - by apply rb_multiplies.
  - by apply cb_ok.
Qed.

(** ** The elements that are not written, in any arithmetic *)

Section frame.
Context {T : Type} `{!Arith T}.
Implicit Types (a b c : Z -> T).

(** The places of an [m] by [n] matrix at [oc]. *)
Definition inside (oc ldc m n x : Z) : Prop := exists i j, 0 <= i < m /\ 0 <= j < n /\ x = oc + (i * ldc + j).
Definition keeps (x : Z) (op : (Z -> T) -> Z -> T) : Prop := forall c, op c x = c x.

Lemma inside_part i0 j0 oc ldc m' n' m n x : 0 <= i0 -> 0 <= j0 -> i0 + m' <= m -> j0 + n' <= n ->
  inside (oc + (i0 * ldc + j0)) ldc m' n' x -> inside oc ldc m n x.
Proof. intros ? ? ? ? (i & j & Hi & Hj & ->). exists (i0 + i), (j0 + j). split_and!; lia. Qed.

Lemma steps_bound q s i : 0 < s -> i ∈ steps 0 (q * s) s -> 0 <= i /\ i + s <= q * s.
Proof. intros Hs [Hi [d Hd]]%elem_of_steps; [|done]. assert (d + 1 <= q) by nia. nia. Qed.

Lemma keeps_for x l body : (forall i, i ∈ l -> keeps x (body i)) -> keeps x (for_ l body).
Proof.
  intros H. induction l as [|i l IH]; intros c; [done|]. change (for_ (i :: l) body c) with (for_ l body (body i c)).
  rewrite IH by set_solver. apply H. set_solver.
Qed.

Lemma keeps_upd x y (v : (Z -> T) -> T) : x <> y -> keeps x (fun c => upd c y (v c)).
Proof. intros Hne c. unfold upd. by rewrite (proj2 (Z.eqb_neq _ _)). Qed.

Lemma naive_keeps m n p a lda b ldb oc ldc x : ~ inside oc ldc m n x ->
  keeps x (mm_naive m n p a lda b ldb oc ldc).
Proof.
  intros Hx. unfold mm_naive. rewrite !steps_1, !Z.sub_0_r. apply keeps_for. intros i Hi%elem_of_seqZ.
  apply keeps_for. intros j Hj%elem_of_seqZ.
  apply (keeps_upd x (oc + (i * ldc + j)) (fun c => naive_cell _ _ _ _ _ (c (oc + (i * ldc + j))))).
  intros ->. apply Hx. exists i, j. split_and!; lia.
Qed.

Lemma kloop_keeps p a lda b ldb oc ldc x : ~ inside oc ldc RBM RBN x -> keeps x (kloop p a lda b ldb oc ldc).
Proof.
  intros Hx c. unfold kloop. generalize (kloop_rest p a lda b ldb (kloop_blocks p a lda b ldb (kloop_load oc ldc c))). intros v.
  unfold kloop_store. rewrite !steps_1. apply keeps_for. intros r Hr%elem_of_seqZ. apply keeps_for. intros s Hs%elem_of_seqZ.
  apply (keeps_upd x _ (fun _ => v r s)). intros ->. apply Hx. exists r, s. split_and!; lia.
Qed.

Lemma rb_keeps m n p a lda b ldb oc ldc x : 0 <= m -> 0 <= n -> ~ inside oc ldc m n x ->
  keeps x (mm_rb m n p a lda b ldb oc ldc).
Proof.
  intros Hm Hn Hx c. unfold mm_rb. pose proof (Z.mul_div_le m RBM ltac:(done)). pose proof (Z.mul_div_le n RBN ltac:(done)).
  pose proof (Z.div_pos m RBM Hm ltac:(done)). pose proof (Z.div_pos n RBN Hn ltac:(done)). unfold RBM, RBN in *.
  rewrite naive_keeps.
  2: { contradict Hx. apply (inside_part (m / 4 * 4) 0 _ _ (m - m / 4 * 4) n); [lia..|].
       by replace (oc + (m / 4 * 4 * ldc + 0)) with (oc + m / 4 * 4 * ldc) by lia. }
  apply keeps_for. intros i Hi. apply steps_bound in Hi; [|done]. intros c'. rewrite naive_keeps.
  2: { contradict Hx. apply (inside_part i (n / 5 * 5) _ _ 4 (n - n / 5 * 5)); [lia..|done]. }
  apply keeps_for. intros j Hj. apply steps_bound in Hj; [|done]. apply kloop_keeps. contradict Hx.
  apply (inside_part i j _ _ 4 5); [lia..|done].
Qed.

Lemma repack_keeps oa lda a0 lda0 m p x : 0 <= p -> ~ inside oa lda m p x -> keeps x (repack oa lda a0 lda0 m p).
Proof.
  intros Hp Hx. unfold repack. apply keeps_for. rewrite steps_1. intros i Hi%elem_of_seqZ c. rewrite (keeps_for x).
  - apply (keeps_for x). intros j Hj. apply steps_bound in Hj; [|done]. apply keeps_for. rewrite steps_1.
    intros u Hu%elem_of_seqZ. pose proof (Z.mul_div_le p 8 ltac:(done)). apply (keeps_upd x _ (fun _ => _)). intros ->.
    apply Hx. exists i, (j + u). split_and!; lia.
  - rewrite steps_1. intros j Hj%elem_of_seqZ. apply (keeps_upd x _ (fun _ => _)). intros ->.
    apply Hx. exists i, j. pose proof (Z.div_pos p 8). split_and!; lia.
Qed.

Lemma part_keeps i0 j0 m' n' p a lda b ldb m n ldc oc' x :
  0 <= i0 -> 0 <= j0 -> 0 <= m' -> 0 <= n' -> i0 + m' <= m -> j0 + n' <= n -> oc' = i0 * ldc + j0 ->
  ~ inside 0 ldc m n x -> keeps x (mm_rb m' n' p a lda b ldb oc' ldc).
Proof.
  intros ? ? ? ? ? ? -> Hx. apply rb_keeps; [done..|]. contradict Hx. by apply (inside_part i0 j0 _ _ m' n').
Qed.

Lemma mm_keeps a1 b1 c1 m n p a lda b ldb ldc x : 0 <= m -> 0 <= n -> 0 <= p -> ~ inside 0 ldc m n x ->
  keeps x (mm a1 b1 c1 m n p a lda b ldb ldc).
Proof.
  intros Hm Hn Hp Hx c. unfold mm. destruct (_ && _); [by apply rb_keeps|]. unfold mm_cb.
  set (mb := m / CBM * CBM). set (nb := n / CBN * CBN).
  assert (0 <= mb <= m) by (subst mb; unfold CBM; pose proof (Z.mul_div_le m 24); pose proof (Z.div_pos m 24); lia).
  assert (0 <= nb <= n) by (subst nb; unfold CBN; pose proof (Z.mul_div_le n 25); pose proof (Z.div_pos n 25); lia).
  set (C1 := pack mb nb _ _ _ c _ _). set (A1 := pack mb _ _ _ _ a _ _). set (B1 := pack _ nb _ _ _ b _ _).
  rewrite (for_pair _ (cb_columns n p nb a lda b ldb ldc)
             (fun i => for_ (steps 0 nb CBN) (cb_block p (p / CBK * CBK) (n / CBN) (p / CBK) a lda b ldb A1 B1 i))).
  set (c2 := for_ _ _ C1). unfold unpack. rewrite (keeps_for x).
  2: { intros i Hi. apply steps_bound in Hi; [|done]. apply keeps_for. intros j Hj. apply steps_bound in Hj; [|done].
       apply repack_keeps; [done|]. contradict Hx. unfold CBM, CBN in *.
       apply (inside_part i j 0 _ 24 25); [lia..|exact Hx]. }
  unfold cb_rows. transitivity (for_ (steps 0 mb CBM) (cb_columns n p nb a lda b ldb ldc) c x).
  - destruct (Z.ltb_spec mb m); [|done]. apply (keeps_for x). intros j [Hj _]%elem_of_steps; [|done]. apply keeps_for.
    intros k _. apply (part_keeps mb j _ _ _ _ _ _ _ m n); try done; unfold CBN; lia.
  - apply (keeps_for x). intros i Hi. apply steps_bound in Hi; [|done]. unfold cb_columns.
    destruct (Z.ltb_spec nb n); [|done]. apply (keeps_for x). intros k _.
    apply (part_keeps i nb _ _ _ _ _ _ _ m n); try done; unfold CBM in *; lia.
Qed.
End frame.

(** ** Two runs side by side

    The code is the same for all arithmetics, so relations between the elements of two runs that
    the operations respect hold of their results: [Ra] and [Rb] between the elements of [a] and [b],
    [Rc] between those of [c]. *)

Section relate.
Context {T T' : Type} `{!Arith T, !Arith T'} (Ra Rb Rc : T -> T' -> Prop).
Context (Hzero : Rc tzero tzero)
        (Hadd : forall x x' y y', Rc x x' -> Rc y y' -> Rc (tadd x y) (tadd x' y'))
        (Hfma : forall x x' y y' z z', Ra x x' -> Rb y y' -> Rc z z' -> Rc (fma x y z) (fma x' y' z')).

Definition arrays {A B} (R : A -> B -> Prop) (f : Z -> A) (g : Z -> B) : Prop := forall x, R (f x) (g x).

Lemma for_rel {S S'} (R : S -> S' -> Prop) l body body' s s' :
  (forall i t t', R t t' -> R (body i t) (body' i t')) -> R s s' -> R (for_ l body s) (for_ l body' s').
Proof.
  intros H. revert s s'. induction l as [|i l IH]; intros s s' Hs; [done|].
  change (R (for_ l body (body i s)) (for_ l body' (body' i s'))). by apply IH, H.
Qed.

Lemma upd_rel {A B} (R : A -> B -> Prop) f g x v w : arrays R f g -> R v w -> arrays R (upd f x v) (upd g x w).
Proof. intros Hf Hv y. unfold upd. destruct (_ =? _); [done|apply Hf]. Qed.

Lemma ptr_rel (R : T -> T' -> Prop) f g d : arrays R f g -> arrays R (ptr f d) (ptr g d).
Proof. intros Hf x. apply Hf. Qed.

Definition four_rel (s : T * T * T * T) (s' : T' * T' * T' * T') : Prop :=
  let '(s0, s1, s2, s3) := s in let '(s0', s1', s2', s3') := s' in Rc s0 s0' /\ Rc s1 s1' /\ Rc s2 s2' /\ Rc s3 s3'.

Lemma naive_rel m n p a a' lda b b' ldb oc ldc c c' : arrays Ra a a' -> arrays Rb b b' -> arrays Rc c c' ->
  arrays Rc (mm_naive m n p a lda b ldb oc ldc c) (mm_naive m n p a' lda b' ldb oc ldc c').
Proof.
  intros Ha Hb. apply (for_rel (arrays Rc)). intros i d d'. apply (for_rel (arrays Rc)). clear d d'. intros j d d' Hd. apply upd_rel; [done|].
  unfold naive_cell. pose proof (for_rel four_rel (steps 0 (p / 4 * 4) 4)
    (fun k '(s0, s1, s2, s3) => (fma (ptr a (i * lda) (k + 0)) (b ((k + 0) * ldb + j)) s0, fma (ptr a (i * lda) (k + 1)) (b ((k + 1) * ldb + j)) s1,
       fma (ptr a (i * lda) (k + 2)) (b ((k + 2) * ldb + j)) s2, fma (ptr a (i * lda) (k + 3)) (b ((k + 3) * ldb + j)) s3))
    (fun k '(s0, s1, s2, s3) => (fma (ptr a' (i * lda) (k + 0)) (b' ((k + 0) * ldb + j)) s0, fma (ptr a' (i * lda) (k + 1)) (b' ((k + 1) * ldb + j)) s1,
       fma (ptr a' (i * lda) (k + 2)) (b' ((k + 2) * ldb + j)) s2, fma (ptr a' (i * lda) (k + 3)) (b' ((k + 3) * ldb + j)) s3))
    (d (oc + (i * ldc + j)), tzero, tzero, tzero) (d' (oc + (i * ldc + j)), tzero, tzero, tzero)) as H.
  fold (naive_four p (ptr a (i * lda)) b ldb j (d (oc + (i * ldc + j)), tzero, tzero, tzero)) in H.
  fold (naive_four p (ptr a' (i * lda)) b' ldb j (d' (oc + (i * ldc + j)), tzero, tzero, tzero)) in H.
  destruct (naive_four p (ptr a _) _ _ _ _) as [[[s0 s1] s2] s3], (naive_four p (ptr a' _) _ _ _ _) as [[[s0' s1'] s2'] s3'].
  destruct H as (H0 & H1 & H2 & H3).
  - intros k [[[t0 t1] t2] t3] [[[t0' t1'] t2'] t3'] (? & ? & ? & ?). unfold ptr. split_and!; by apply Hfma.
  - split_and!; done || apply Hd.
  - apply Hadd; [apply Hadd; [|done]|by apply Hadd]. apply (for_rel Rc); [|done]. intros k t t' Ht. by apply Hfma; [apply Ha|apply Hb|].
Qed.

Definition regs_rel (v : Z -> Z -> T) (v' : Z -> Z -> T') : Prop := forall r s, Rc (v r s) (v' r s).

Lemma kloop_rel p a a' lda b b' ldb oc ldc c c' : arrays Ra a a' -> arrays Rb b b' -> arrays Rc c c' ->
  arrays Rc (kloop p a lda b ldb oc ldc c) (kloop p a' lda b' ldb oc ldc c').
Proof.
  intros Ha Hb Hc. unfold kloop.
  assert (forall k d e v v', regs_rel v v' ->
    regs_rel (kloop_fma (ptr a d) lda (ptr b e) ldb k v) (kloop_fma (ptr a' d) lda (ptr b' e) ldb k v')) as Hk
    by (intros k d e v v' Hv r s; apply Hfma; [apply Ha|apply Hb|apply Hv]).
  set (v := kloop_rest _ _ _ _ _ _). set (v' := kloop_rest p a' _ _ _ _). assert (regs_rel v v') as Hv.
  { apply (for_rel regs_rel). { intros k t t' Ht. by apply Hk. }
    apply (for_rel regs_rel). { intros k t t' Ht. apply (for_rel regs_rel); [|done]. intros q u u' Hu. by apply Hk. }
    intros r s. apply Hc. }
  apply (for_rel (arrays Rc)); [|done]. intros r d d'. apply (for_rel (arrays Rc)). clear d d'. intros q d d' Hd. by apply upd_rel.
Qed.

Lemma rb_rel m n p a a' lda b b' ldb oc ldc c c' : arrays Ra a a' -> arrays Rb b b' -> arrays Rc c c' ->
  arrays Rc (mm_rb m n p a lda b ldb oc ldc c) (mm_rb m n p a' lda b' ldb oc ldc c').
Proof.
  intros Ha Hb Hc. unfold mm_rb. apply naive_rel; [by apply ptr_rel|done|]. apply (for_rel (arrays Rc)); [|done]. intros i d d' Hd.
  apply naive_rel; [by apply ptr_rel|by apply ptr_rel|]. apply (for_rel (arrays Rc)); [|done]. intros j e e' He.
  apply kloop_rel; [by apply ptr_rel|by apply ptr_rel|done].
Qed.

Lemma repack_rel (R : T -> T' -> Prop) oa lda a0 a0' lda0 m p a a' : arrays R a0 a0' -> arrays R a a' ->
  arrays R (repack oa lda a0 lda0 m p a) (repack oa lda a0' lda0 m p a').
Proof.
  intros H0. apply (for_rel (arrays R)). intros i d d' Hd. apply (for_rel (arrays R)); [intros j e e' He; by apply upd_rel|].
  apply (for_rel (arrays R)); [|done]. intros j e e'. apply (for_rel (arrays R)). clear e e'. intros u e e' He. by apply upd_rel.
Qed.

Lemma pack_rel (R : T -> T' -> Prop) rows cols per_row BM BN src src' ld dst dst' : arrays R src src' -> arrays R dst dst' ->
  arrays R (pack rows cols per_row BM BN src ld dst) (pack rows cols per_row BM BN src' ld dst').
Proof.
  intros H0. apply (for_rel (arrays R)). intros i d d'. apply (for_rel (arrays R)). clear d d'. intros j d d'. apply repack_rel. by apply ptr_rel.
Qed.

Lemma part_rel m n p a a' lda b b' ldb oc ldc o1 o2 c c' : arrays Ra a a' -> arrays Rb b b' -> arrays Rc c c' ->
  arrays Rc (mm_rb m n p (ptr a o1) lda (ptr b o2) ldb oc ldc c) (mm_rb m n p (ptr a' o1) lda (ptr b' o2) ldb oc ldc c').
Proof. intros Ha Hb. by apply rb_rel; apply ptr_rel. Qed.

Section cache.
Context (a a1 b b1 : Z -> T) (a' a1' b' b1' : Z -> T').
Context (Ha : arrays Ra a a') (Ha1 : arrays Ra a1 a1') (Hb : arrays Rb b b') (Hb1 : arrays Rb b1 b1').

Lemma cb_block_rel p pb nnb npb lda ldb i j c1 c1' : arrays Rc c1 c1' ->
  arrays Rc (cb_block p pb nnb npb a lda b ldb a1 b1 i j c1) (cb_block p pb nnb npb a' lda b' ldb a1' b1' i j c1').
Proof.
  intros Hc. unfold cb_block. cbv zeta. set (d := for_ _ _ c1). set (d' := for_ _ _ c1').
  assert (arrays Rc d d') by (apply (for_rel (arrays Rc)); [|done]; intros k e e'; by apply part_rel).
  clearbody d d'. destruct (_ <? _); [by apply part_rel|done].
Qed.

Lemma cb_columns_rel n p nb lda ldb ldc i c c' : arrays Rc c c' ->
  arrays Rc (cb_columns n p nb a lda b ldb ldc i c) (cb_columns n p nb a' lda b' ldb ldc i c').
Proof.
  intros Hc. unfold cb_columns. destruct (_ <? _); [|done]. apply (for_rel (arrays Rc)); [|done].
  intros k e e'. by apply part_rel.
Qed.

Lemma cb_rows_rel m n p mb lda ldb ldc c c' : arrays Rc c c' ->
  arrays Rc (cb_rows m n p mb a lda b ldb ldc c) (cb_rows m n p mb a' lda b' ldb ldc c').
Proof.
  intros Hc. unfold cb_rows. destruct (_ <? _); [|done]. apply (for_rel (arrays Rc)); [|done].
  intros j d d'. apply (for_rel (arrays Rc)). intros k e e'. by apply part_rel.
Qed.
End cache.

Lemma unpack_rel (R : T -> T' -> Prop) mb nb nnb ldc c1 c1' c c' : arrays R c1 c1' -> arrays R c c' ->
  arrays R (unpack mb nb nnb ldc c1 c) (unpack mb nb nnb ldc c1' c').
Proof.
  intros H1. apply (for_rel (arrays R)). intros i d d'. apply (for_rel (arrays R)). clear d d'. intros j d d'.
  apply repack_rel. by apply ptr_rel.
Qed.

Lemma mm_rel a1 a1' b1 b1' c1 c1' m n p a a' lda b b' ldb ldc c c' :
  arrays Ra a a' -> arrays Ra a1 a1' -> arrays Rb b b' -> arrays Rb b1 b1' -> arrays Rc c c' -> arrays Rc c1 c1' ->
  arrays Rc (mm a1 b1 c1 m n p a lda b ldb ldc c) (mm a1' b1' c1' m n p a' lda b' ldb ldc c').
Proof.
  intros Ha Ha1 Hb Hb1 Hc Hc1. unfold mm. destruct (_ && _); [by apply rb_rel|]. unfold mm_cb. cbv zeta.
  set (nb := n / CBN * CBN). set (mb := m / CBM * CBM). set (pb := p / CBK * CBK).
  pose proof (pack_rel Ra mb pb (p / CBK) CBM CBK a a' lda a1 a1' Ha Ha1) as HA1.
  pose proof (pack_rel Rb pb nb (n / CBN) CBK CBN b b' ldb b1 b1' Hb Hb1) as HB1.
  pose proof (pack_rel Rc mb nb (n / CBN) CBM CBN c c' ldc c1 c1' Hc Hc1) as HC1.
  revert HA1 HB1 HC1. generalize (pack mb pb (p / CBK) CBM CBK a lda a1) (pack mb pb (p / CBK) CBM CBK a' lda a1').
  generalize (pack pb nb (n / CBN) CBK CBN b ldb b1) (pack pb nb (n / CBN) CBK CBN b' ldb b1').
  generalize (pack mb nb (n / CBN) CBM CBN c ldc c1) (pack mb nb (n / CBN) CBM CBN c' ldc c1').
  intros C1 C1' B1 B1' A1 A1' HA1 HB1 HC1.
  rewrite (for_pair _ (cb_columns n p nb a lda b ldb ldc)
    (fun i => for_ (steps 0 nb CBN) (cb_block p pb (n / CBN) (p / CBK) a lda b ldb A1 B1 i))).
  rewrite (for_pair _ (cb_columns n p nb a' lda b' ldb ldc)
    (fun i => for_ (steps 0 nb CBN) (cb_block p pb (n / CBN) (p / CBK) a' lda b' ldb A1' B1' i))).
  apply unpack_rel.
  - apply (for_rel (arrays Rc)); [|done]. intros i d d'. apply (for_rel (arrays Rc)). clear d d'. intros j d d'.
    by apply cb_block_rel.
  - apply cb_rows_rel; [done..|]. apply (for_rel (arrays Rc)); [|done]. intros i d d'. by apply cb_columns_rel.
Qed.
End relate.

(** ** The terms of a sum

    A product of matrices whose elements are their own names: an element of [c] is the bag of the
    elements and products it was summed from.  This arithmetic is exact. *)

(** A name: of an element of the array given, or of what the stack held. *)
Definition name : Type := bool * Z.
(** An element of [a], of [b], of [c], and a product. *)
Definition term : Type := name + name + name + name * name.
Definition bag_mul (s t : gmultiset term) : gmultiset term :=
  match elements s, elements t with
  | [inl (inl (inl u))], [inl (inl (inr w))] => {[+ inr (u, w) +]}
  | _, _ => ∅
  end.

#[local] Instance bag_arith : Arith (gmultiset term) :=
  mkArith (gmultiset term) ∅ (⊎) bag_mul (fun s t r => bag_mul s t ⊎ r).
#[local] Instance bag_exact : ExactArith (gmultiset term).
Proof. split; [apply gmultiset_disj_union_assoc|apply gmultiset_disj_union_comm|apply gmultiset_disj_union_left_id|done]. Qed.

(** Sums in some order and grouping: of elements, zeros, and products that [fma] adds. *)
Inductive sum_tree (T : Type) : Type :=
| Elem (v : T)
| Nothing
| Fma (x y : T) (t : sum_tree T)
| Plus (t u : sum_tree T).
Arguments Elem {T} v.
Arguments Nothing {T}.
Arguments Fma {T} x y t.
Arguments Plus {T} t u.

Fixpoint tree_value {T} `{!Arith T} (t : sum_tree T) : T :=
  match t with
  | Elem v => v
  | Nothing => tzero
  | Fma x y t => fma x y (tree_value t)
  | Plus t u => tadd (tree_value t) (tree_value u)
  end.
Fixpoint tree_terms {T} (t : sum_tree T) : list (T + T * T) :=
  match t with
  | Elem v => [inl v]
  | Nothing => []
  | Fma x y t => inr (x, y) :: tree_terms t
  | Plus t u => tree_terms t ++ tree_terms u
  end.

Section names.
Context {T : Type} `{!Arith T} (a a1 b b1 c c1 : Z -> T).

Definition named (f g : Z -> T) (u : name) : T := (if u.1 then f else g) u.2.
Definition meaning (t : term) : option (T + T * T) :=
  match t with
  | inl (inr u) => Some (inl (named c c1 u))
  | inr (u, w) => Some (inr (named a a1 u, named b b1 w))
  | _ => None
  end.

Definition is_a (x : T) (s : gmultiset term) : Prop := exists u, x = named a a1 u /\ s = {[+ inl (inl (inl u)) +]}.
Definition is_b (x : T) (s : gmultiset term) : Prop := exists u, x = named b b1 u /\ s = {[+ inl (inl (inr u)) +]}.
Definition is_sum (x : T) (s : gmultiset term) : Prop :=
  exists t, x = tree_value t /\ tree_terms t ≡ₚ omap meaning (elements s).

Lemma sum_zero_rel : is_sum tzero tzero.
Proof. exists Nothing. done. Qed.

Lemma sum_add_rel x x' y y' : is_sum x x' -> is_sum y y' -> is_sum (tadd x y) (tadd x' y').
Proof.
  intros (t & -> & Ht) (u & -> & Hu). exists (Plus t u). split; [done|]. cbn [tree_terms tadd bag_arith].
  by rewrite gmultiset_elements_disj_union, omap_app, Ht, Hu.
Qed.

Lemma sum_fma_rel x x' y y' z z' : is_a x x' -> is_b y y' -> is_sum z z' -> is_sum (fma x y z) (fma x' y' z').
Proof.
  intros (u & -> & ->) (w & -> & ->) (t & -> & Ht). exists (Fma (named a a1 u) (named b b1 w) t). split; [done|].
  cbn [tree_terms fma bag_arith]. unfold bag_mul. rewrite !gmultiset_elements_singleton.
  by rewrite gmultiset_elements_disj_union, gmultiset_elements_singleton, Ht.
Qed.

(** The arrays of names. *)
Definition names_a (k : bool) (x : Z) : gmultiset term := {[+ inl (inl (inl (k, x))) +]}.
Definition names_b (k : bool) (x : Z) : gmultiset term := {[+ inl (inl (inr (k, x))) +]}.
Definition names_c (k : bool) (x : Z) : gmultiset term := {[+ inl (inr (k, x)) +]}.

Lemma names_rel :
  (arrays is_a a (names_a true) /\ arrays is_a a1 (names_a false)) /\
  (arrays is_b b (names_b true) /\ arrays is_b b1 (names_b false)) /\
  (arrays is_sum c (names_c true) /\ arrays is_sum c1 (names_c false)).
Proof.
  split_and!; intros x.
  - by exists (true, x).
  - by exists (false, x).
  - by exists (true, x).
  - by exists (false, x).
  - exists (Elem (c x)). split; [done|]. unfold names_c. by rewrite gmultiset_elements_singleton.
  - exists (Elem (c1 x)). split; [done|]. unfold names_c. by rewrite gmultiset_elements_singleton.
Qed.

Lemma dot_terms l (f g : Z -> Z) :
  omap meaning (elements (sum l (fun k => tmul (names_a true (f k)) (names_b true (g k))))) ≡ₚ
  (fun k => inr (a (f k), b (g k))) <$> l.
Proof.
  induction l as [|k l IH]; [done|]. cbn [sum foldr fmap list_fmap tadd bag_arith].
  rewrite gmultiset_elements_disj_union, omap_app. unfold sum in IH. cbn [tadd bag_arith] in IH. rewrite IH.
  cbn [tmul bag_arith]. unfold bag_mul, names_a, names_b. by rewrite !gmultiset_elements_singleton.
Qed.
End names.

(** C27: Whatever the arithmetic of the elements, rounded or not, the blocked multiplication of [mm.c],
    register blocks, packed cache blocks and the parts that fill no block included, leaves at each
    place of the [m] by [n] matrix [c] a sum of the old element and of the [p] products of its row of
    [a] and its column of [b], each once and no others, in some order and grouping, the products
    being added by [fma]; zeros may be added too.  It changes no other element of the array of
    [c], and what the stack held where the packed copies are placed does not matter.  The rows of
    [c] must not overlap: [n <= ldc]. *)
Theorem mm_correct {T} `{!Arith T} (a1 b1 c1 : Z -> T) m n p (a : Z -> T) lda (b : Z -> T) ldb ldc (c : Z -> T) :
  0 <= m -> 0 <= n <= ldc -> 0 < ldc -> 0 <= p ->
  (forall i j, 0 <= i < m -> 0 <= j < n -> exists t,
     mm a1 b1 c1 m n p a lda b ldb ldc c (i * ldc + j) = tree_value t /\
     tree_terms t ≡ₚ inl (c (i * ldc + j)) :: ((fun k => inr (a (i * lda + k), b (k * ldb + j))) <$> seqZ 0 p)) /\
  (forall x, ~ inside 0 ldc m n x -> mm a1 b1 c1 m n p a lda b ldb ldc c x = c x).
Proof.
  intros Hm Hn Hl Hp. split; [|intros x Hx; by apply mm_keeps; try lia].
  intros i j Hi Hj. destruct (names_rel a a1 b b1 c c1) as ([Ra Ra1] & [Rb Rb1] & [Rc Rc1]).
  destruct (mm_rel _ _ _ (sum_zero_rel a a1 b b1 c c1) (sum_add_rel a a1 b b1 c c1) (sum_fma_rel a a1 b b1 c c1)
    _ _ _ _ _ _ m n p _ _ lda _ _ ldb ldc _ _ Ra Ra1 Rb Rb1 Rc Rc1 (i * ldc + j)) as (t & -> & Ht).
  exists t. split; [done|]. rewrite Ht, mm_exact by done. unfold mm_ref.
  destruct (proj1 (row_col 0 ldc i j (i * ldc + j) Hl ltac:(lia)) ltac:(lia)) as [E1 E2]. unfold row, col in E1, E2.
  rewrite E1, E2. rewrite (proj2 (Z.leb_le 0 i)), (proj2 (Z.ltb_lt i m)), (proj2 (Z.ltb_lt j n)) by lia. cbn [andb].
  cbn [tadd bag_arith]. rewrite gmultiset_elements_disj_union, omap_app, dot_terms. unfold names_c.
  by rewrite gmultiset_elements_singleton.
Qed.

(** An arithmetic in which additions are neither associative nor exact. *)
Definition rounded : Arith Z :=
  mkArith Z 0 (fun x y => (x + y) / 4 * 4) (fun x y => x * y / 4 * 4) (fun x y z => (x * y + z) / 4 * 4).

Lemma mm_correct_witness : 0 <= 50 /\ 0 <= 26 <= 28 /\ exists t : sum_tree Z,
  @mm Z rounded (fun _ => 7) (fun _ => 8) (fun _ => 9) 50 26 25 ex_a 28 ex_b 27 28 (fun x => x) (49 * 28 + 25) =
    @tree_value Z rounded t /\
  tree_terms t ≡ₚ inl (49 * 28 + 25) :: ((fun k => inr (ex_a (49 * 28 + k), ex_b (k * 27 + 25))) <$> seqZ 0 25).
Proof.
  split; [lia|]. split; [lia|].
  apply (proj1 (@mm_correct Z rounded (fun _ => 7) (fun _ => 8) (fun _ => 9) 50 26 25 ex_a 28 ex_b 27 28 (fun x => x)
    ltac:(lia) ltac:(lia) ltac:(lia) ltac:(lia)) 49 25); lia.
Defined.
