(* ===== verification/CkPr.v ===== *)
(** * Atomic primitives of Concurrency Kit

    [riscv-tests/common/ck/ck_pr.h] over the GCC port [gcc/ck_pr.h], with its feature list
    [gcc/ck_f_pr.h]: the families of atomic operations the macros generate, which of them the port
    provides as one compiler builtin and which are loops around a compare-and-swap, the loops as
    steps of harts that share one word, and the fences of the three memory models.  The main theorem:
    a run of the loops, in any interleaving, is a run of indivisible operations in the order in
    which they take effect, and no schedule keeps all harts from finishing.  Pointers are 64 bits
    and [char] is unsigned, as on RISC-V; the operations on [double] are not generated, since the
    port has no loads of that type in its feature list. *)
From S2P Require Import Prelude.
From stdpp Require Import list.
Local Open Scope list_scope.
Local Open Scope Z_scope.

(** ** Types and operations *)

Inductive ck_type := CHAR | INT | UINT | PTR | U64 | U32 | U16 | U8.
#[export] Instance ck_type_eq_dec : EqDecision ck_type.
Proof. solve_decision. Defined.

Definition width (S : ck_type) : Z :=
  match S with CHAR | U8 => 8 | U16 => 16 | INT | UINT | U32 => 32 | PTR | U64 => 64 end.
Definition cast (S : ck_type) (z : Z) : Z :=
  match S with INT => wrapS 32 z | _ => wrapU (width S) z end.

Inductive binop := ADD | SUB | AND | XOR | OR.
Inductive btop := BTC | BTR | BTS.
#[export] Instance binop_eq_dec : EqDecision binop.
Proof. solve_decision. Defined.
#[export] Instance btop_eq_dec : EqDecision btop.
Proof. solve_decision. Defined.
Inductive ck_op :=
| ck_load
| ck_store (v : Z)
| ck_cas (compare set : Z)
| ck_bin (K : binop) (value : Z)
| ck_btx (K : btop) (offset : Z)
| ck_inc
| ck_dec
| ck_inc_is_zero
| ck_dec_is_zero
| ck_not
| ck_neg
| ck_neg_zero
| ck_faa (delta : Z)
| ck_fas (update : Z).

(** [previous P value]. *)
Definition bin_apply (K : binop) (previous value : Z) : Z :=
  match K with
  | ADD => previous + value
  | SUB => previous - value
  | AND => Z.land previous value
  | XOR => Z.lxor previous value
  | OR => Z.lor previous value
  end.

(** [previous P (R ((T)1 << offset))]. *)
Definition btx_apply (S : ck_type) (K : btop) (previous offset : Z) : Z :=
  let mask := cast S (Z.shiftl 1 offset) in
  match K with
  | BTC => Z.lxor previous mask
  | BTR => Z.land previous (Z.lnot mask)
  | BTS => Z.lor previous mask
  end.

(** The constant [Z] of the increments that report zero. *)
Definition inc_zero_const (S : ck_type) : Z :=
  match S with
  | CHAR | INT => -1
  | UINT | PTR => 2 ^ 32 - 1
  | U64 => 2 ^ 64 - 1
  | U32 => 2 ^ 32 - 1
  | U16 => 2 ^ 16 - 1
  | U8 => 2 ^ 8 - 1
  end.

(** The value an operation stores when the target held [previous], and what it returns. *)
Definition op_new (S : ck_type) (o : ck_op) (previous : Z) : Z :=
  match o with
  | ck_load => previous
  | ck_store v => v
  | ck_cas compare set => if previous =? compare then set else previous
  | ck_bin K value => cast S (bin_apply K previous value)
  | ck_btx K offset => cast S (btx_apply S K previous offset)
  | ck_inc | ck_inc_is_zero => cast S (previous + 1)
  | ck_dec | ck_dec_is_zero => cast S (previous - 1)
  | ck_not => cast S (Z.lnot previous)
  | ck_neg | ck_neg_zero => cast S (- previous)
  | ck_faa delta => cast S (previous + delta)
  | ck_fas update => update
  end.
Definition op_result (S : ck_type) (o : ck_op) (previous : Z) : option Z :=
  match o with
  | ck_load | ck_faa _ | ck_fas _ => Some previous
  | ck_cas compare _ => Some (Z.b2z (previous =? compare))
  | ck_btx _ offset => Some (Z.land (Z.shiftr previous offset) 1)
  | ck_inc_is_zero => Some (Z.b2z (previous =? cast S (inc_zero_const S)))
  | ck_dec_is_zero => Some (Z.b2z (previous =? cast S 1))
  | ck_neg_zero => Some (Z.b2z (previous =? 0))
  | ck_store _ | ck_bin _ _ | ck_inc | ck_dec | ck_not | ck_neg => None
  end.

(** ** Which operations there are, and how they are made *)

(** The operations without their operands. *)
Inductive ck_kind :=
| LOAD | STORE | CAS | BIN (K : binop) | BTX (K : btop) | INC | DEC | INC_ZERO | DEC_ZERO | NOT | NEG | NEG_ZERO | FAA | FAS.
#[export] Instance ck_kind_eq_dec : EqDecision ck_kind.
Proof. solve_decision. Defined.

Definition kind_of (o : ck_op) : ck_kind :=
  match o with
  | ck_load => LOAD | ck_store _ => STORE | ck_cas _ _ => CAS
  | ck_bin K _ => BIN K | ck_btx K _ => BTX K | ck_inc => INC | ck_dec => DEC
  | ck_inc_is_zero => INC_ZERO | ck_dec_is_zero => DEC_ZERO
  | ck_not => NOT | ck_neg => NEG | ck_neg_zero => NEG_ZERO
  | ck_faa _ => FAA | ck_fas _ => FAS
  end.

(** The feature list: the port has these as one builtin, for every type. *)
Definition ck_f_pr (k : ck_kind) (S : ck_type) : bool :=
  match k with
  | LOAD | STORE | CAS | BIN _ | INC | DEC | FAA => true
  | BTX _ | INC_ZERO | DEC_ZERO | NOT | NEG | NEG_ZERO | FAS => false
  end.

(** The instances the generic macros are expanded for, in the order of the file: by type, and
    within a type by operation. *)
Definition instances (kinds : list ck_kind) (types : list ck_type) : list (ck_kind * ck_type) :=
  S ← types; (fun k => (k, S)) <$> kinds.
Definition bin_kinds : list ck_kind := BIN <$> [ADD; SUB; AND; XOR; OR].
Definition bin_named : list (ck_kind * ck_type) := instances bin_kinds [CHAR; INT; UINT; PTR].
Definition bin_sized : list (ck_kind * ck_type) := instances bin_kinds [U64; U32; U16; U8].
Definition btx_instances : list (ck_kind * ck_type) :=
  instances (BTX <$> [BTC; BTR; BTS]) [INT; UINT; PTR; U64; U32; U16].
Definition unary_kinds : list ck_kind := [INC; INC_ZERO; DEC; DEC_ZERO].
Definition unary_named : list (ck_kind * ck_type) := instances unary_kinds [CHAR; INT; UINT; PTR].
Definition unary_sized : list (ck_kind * ck_type) := instances unary_kinds [U64; U32; U16; U8].
Definition n_instances : list (ck_kind * ck_type) :=
  instances [NOT; NEG; NEG_ZERO] [CHAR; INT; UINT; PTR; U64; U32; U16; U8].
Definition fetch_instances : list (ck_kind * ck_type) :=
  instances [FAA; FAS] [CHAR; INT; UINT; PTR; U64; U32; U16; U8].
Definition ck_generic : list (ck_kind * ck_type) :=
  bin_named ++ bin_sized ++ btx_instances ++ unary_named ++ unary_sized ++ n_instances ++ fetch_instances.

Inductive impl := Builtin | Loop.

(** A generic macro is only expanded where the port lacks the operation. *)
Definition implementation (k : ck_kind) (S : ck_type) : option impl :=
  if ck_f_pr k S then Some Builtin
  else if bool_decide ((k, S) ∈ ck_generic) then Some Loop
  else None.

(** [ck_pr_K_S_zero], which stores what [is_zero] returns: made from [CK_PR_UNARY_Z_S], or as a stub
    where the port has [is_zero]; the pointer versions use [CK_PR_UNARY_Z], which lacks it. *)
Definition zero_stub (S : ck_type) : bool := negb (bool_decide (S = PTR)).

(** ** Harts *)

(** A hart: its operations still to do, in a loop the value last seen, and what the finished ones
    returned. *)
Record hart := mkHart { todo : list ck_op; seen : option Z; log : list (option Z) }.
Record word_st := mkWord { word : Z; harts : list hart }.

Section machine.
Context (S : ck_type) (impl_of : ck_op -> impl).

(** The operation takes effect on a word that holds [v]. *)
Definition complete (o : ck_op) (rest : list ck_op) (h : hart) (v : Z) : Z * hart :=
  (op_new S o v, mkHart rest None (log h ++ [op_result S o v])).

(** One step of a hart: the builtin; or, in a loop, the first load, and the compare-and-swap, which
    leaves the current value in [previous] when it fails. *)
Definition hart_step (h : hart) (w : Z) : option (Z * hart) :=
  match todo h with
  | [] => None
  | o :: rest =>
      match impl_of o with
      | Builtin => Some (complete o rest h w)
      | Loop =>
          match seen h with
          | None => Some (w, mkHart (todo h) (Some w) (log h))
          | Some previous =>
              if w =? previous then Some (complete o rest h previous)
              else Some (w, mkHart (todo h) (Some w) (log h))
          end
      end
  end.

Definition ck_step (s : word_st) (i : nat) : option word_st :=
  h ← harts s !! i;
  '(w, h) ← hart_step h (word s);
  Some (mkWord w (<[i := h]> (harts s))).
Fixpoint ck_run (s : word_st) (schedule : list nat) : option word_st :=
  match schedule with [] => Some s | i :: schedule => s ← ck_step s i; ck_run s schedule end.

(** The specification: an operation is one step. *)
Definition atomic_step (s : word_st) (i : nat) : option word_st :=
  h ← harts s !! i;
  match todo h with
  | [] => None
  | o :: rest => let '(w, h) := complete o rest h (word s) in Some (mkWord w (<[i := h]> (harts s)))
  end.
Fixpoint atomic_run (s : word_st) (schedule : list nat) : option word_st :=
  match schedule with [] => Some s | i :: schedule => s ← atomic_step s i; atomic_run s schedule end.
End machine.

(** The harts of a run of the library's operations on a word of type [S]. *)
Definition ck_impl (S : ck_type) (o : ck_op) : impl := default Builtin (implementation (kind_of o) S).
Definition start (w : Z) (programs : list (list ck_op)) : word_st := mkWord w ((fun p => mkHart p None []) <$> programs).

(** ** Fences *)

Inductive memory_model := CK_MD_RMO | CK_MD_PSO | CK_MD_TSO.
Inductive fence :=
| F_atomic | F_atomic_load | F_atomic_store | F_store_atomic | F_load_atomic | F_load_store | F_store_load
| F_load | F_store | F_memory | F_acquire | F_release | F_acqrel | F_lock | F_unlock.

(** Whether [ck_pr_fence_T] is the full fence of the port or only a compiler barrier. *)
Definition ck_pr_fence (m : memory_model) (f : fence) : bool :=
  match m with
  | CK_MD_RMO => true
  | CK_MD_PSO => match f with F_atomic_load | F_load_atomic | F_load => false | _ => true end
  | CK_MD_TSO => match f with F_store_load | F_memory => true | _ => false end
  end.

Example two_harts_example :
  ck_run U32 (ck_impl U32) (start 5 [[ck_fas 7]; [ck_btx BTS 1; ck_faa 3]]) [0; 1; 0; 1; 1; 1]%nat =
  Some (mkWord 10 [mkHart [] None [Some 5]; mkHart [] None [Some 1; Some 7]]).
Proof. vm_compute. reflexivity. Qed.

(** ** Runs of the loops are runs of indivisible operations *)

(** What the specification keeps of a state. *)
Definition forget_hart (h : hart) : hart := mkHart (todo h) None (log h).
Definition forget (s : word_st) : word_st := mkWord (word s) (forget_hart <$> harts s).

Section linear.
Context (S : ck_type) (impl_of : ck_op -> impl).

Lemma forget_insert w i h l : forget (mkWord w (<[i := h]> l)) = mkWord w (<[i := forget_hart h]> (forget_hart <$> l)).
Proof. unfold forget. cbn [word harts]. by rewrite list_fmap_insert. Qed.

(** A hart's step leaves the word and the operation, or completes the operation on the word as it is. *)
Lemma hart_step_cases h w w' h' : hart_step S impl_of h w = Some (w', h') ->
  (w' = w /\ todo h' = todo h /\ log h' = log h /\ seen h' = Some w /\ todo h <> [] /\ seen h <> Some w) \/
  (exists o rest, todo h = o :: rest /\ (w', h') = complete S o rest h w).
Proof.
  unfold hart_step. destruct (todo h) as [|o rest] eqn:E; [done|]. destruct (impl_of o).
  { intros [= <- <-]. right. by exists o, rest. }
  destruct (seen h) as [p|] eqn:Es; [destruct (Z.eqb_spec w p) as [->|Hne]|].
  - intros [= <- <-]. right. by exists o, rest.
  - intros [= <- <-]. left. cbn. split_and!; [done..|congruence].
  - intros [= <- <-]. left. done.
Qed.

Lemma ck_step_refines s i s' : ck_step S impl_of s i = Some s' ->
  forget s' = forget s \/ atomic_step S (forget s) i = Some (forget s').
Proof.
  unfold ck_step. destruct (harts s !! i) as [h|] eqn:Eh; [|done]. cbn [mbind option_bind].
  destruct (hart_step S impl_of h (word s)) as [[w' h']|] eqn:Es; [|done]. cbn [mbind option_bind]. intros [= <-].
  apply hart_step_cases in Es as [(-> & Ht & Hl & _)|(o & rest & Ht & Hc)].
  - left. rewrite forget_insert. unfold forget. f_equal. apply list_insert_id. rewrite list_lookup_fmap, Eh. cbn.
    unfold forget_hart. by rewrite Ht, Hl.
  - right. unfold atomic_step. cbn [harts forget]. rewrite list_lookup_fmap, Eh. cbn [fmap option_fmap option_map mbind option_bind].
    cbn [todo forget_hart]. rewrite Ht. unfold complete in *. injection Hc as -> ->. by rewrite forget_insert.
Qed.

Lemma ck_run_refines s schedule s' : ck_run S impl_of s schedule = Some s' ->
  exists order, order `sublist_of` schedule /\ atomic_run S (forget s) order = Some (forget s').
Proof.
  revert s. induction schedule as [|i schedule IH]; intros s; cbn [ck_run].
  - intros [= ->]. by exists [].
  - destruct (ck_step S impl_of s i) as [s1|] eqn:E; [|done]. cbn [mbind option_bind]. intros Hr.
    destruct (IH _ Hr) as (order & Ho & Ha). apply ck_step_refines in E as [E|E].
    + exists order. split; [by apply sublist_cons|]. by rewrite <- E.
    + exists (i :: order). split; [by apply sublist_skip|]. cbn [atomic_run]. by rewrite E.
Qed.

(** ** No schedule goes on for ever *)

(** What a hart may still do: a value it has seen counts more while the word has it. *)
Definition effort (N : Z) (w : Z) (h : hart) : Z :=
  (N + 2) * Z.of_nat (length (todo h)) - match seen h with None => 0 | Some p => if w =? p then 2 else 1 end.
Definition efforts (N w : Z) (l : list hart) : Z := foldr (fun h s => effort N w h + s) 0 l.

(** A hart in a loop has an operation to do. *)
Definition busy (h : hart) : Prop := seen h <> None -> todo h <> [].

Lemma efforts_app N w l k : efforts N w (l ++ k) = efforts N w l + efforts N w k.
Proof. induction l as [|h l IH]; [done|]. cbn. unfold efforts in *. rewrite IH. lia. Qed.

Lemma efforts_other N w w' l : efforts N w' l <= efforts N w l + Z.of_nat (length l).
Proof.
  induction l as [|h l IH]; [done|]. cbn [efforts foldr length]. fold (efforts N w' l) (efforts N w l).
  assert (effort N w' h <= effort N w h + 1); [|lia]. unfold effort. destruct (seen h) as [p|]; [|lia].
  destruct (w' =? p), (w =? p); lia.
Qed.

Lemma effort_nonneg N w h : 0 <= N -> busy h -> 0 <= effort N w h.
Proof.
  intros HN Hb. unfold effort. destruct (seen h) as [p|] eqn:E; [|nia].
  destruct (todo h) as [|o rest] eqn:Et; [exfalso; apply Hb; [congruence|done]|]. cbn [length]. destruct (w =? p); nia.
Qed.

Lemma efforts_nonneg N w l : 0 <= N -> Forall busy l -> 0 <= efforts N w l.
Proof.
  intros HN. induction 1 as [|h l Hh Hl IH]; [done|]. cbn [efforts foldr]. fold (efforts N w l).
  pose proof (effort_nonneg N w h HN Hh). lia.
Qed.

Lemma ck_step_effort s i s' : Forall busy (harts s) -> ck_step S impl_of s i = Some s' ->
  Forall busy (harts s') /\ length (harts s') = length (harts s) /\
  efforts (Z.of_nat (length (harts s))) (word s') (harts s') < efforts (Z.of_nat (length (harts s))) (word s) (harts s).
Proof.
  intros Hb. unfold ck_step. destruct (harts s !! i) as [h|] eqn:Eh; [|done]. cbn [mbind option_bind].
  destruct (hart_step S impl_of h (word s)) as [[w' h']|] eqn:Es; [|done]. cbn [mbind option_bind]. intros [= <-]. cbn [word harts].
  pose proof (Forall_lookup_1 _ _ _ _ Hb Eh) as Hh. apply hart_step_cases in Es.
  split; [|split; [apply length_insert|]].
  - apply Forall_insert; [done|]. destruct Es as [(_ & Ht & _ & _ & Hne & _)|(o & rest & _ & Hc)].
    + intros _. by rewrite Ht.
    + unfold complete in Hc. injection Hc as -> ->. by intros [].
  - set (N := Z.of_nat (length (harts s))). pose proof (lookup_lt_Some _ _ _ Eh) as Hi.
    rewrite insert_take_drop by done.
    assert (efforts N (word s) (harts s) = efforts N (word s) (take i (harts s) ++ h :: drop (Datatypes.S i) (harts s))) as ->
      by (by rewrite take_drop_middle). rewrite !efforts_app. cbn [efforts foldr].
    fold (efforts N w' (drop (Datatypes.S i) (harts s))) (efforts N (word s) (drop (Datatypes.S i) (harts s))).
    destruct Es as [(-> & Ht & _ & Hsn & Hne & Hold)|(o & rest & Ht & Hc)].
    + assert (effort N (word s) h' < effort N (word s) h); [|lia]. unfold effort. rewrite Hsn, Ht, Z.eqb_refl.
      destruct (seen h) as [p|]; [|lia]. rewrite (proj2 (Z.eqb_neq (word s) p)) by congruence. lia.
    + unfold complete in Hc. injection Hc as -> ->.
      pose proof (efforts_other N (word s) (op_new S o (word s)) (take i (harts s))) as H1.
      pose proof (efforts_other N (word s) (op_new S o (word s)) (drop (Datatypes.S i) (harts s))) as H2.
      rewrite length_take in H1. rewrite length_drop in H2.
      unfold effort at 1 2. cbn [todo seen]. rewrite Ht. cbn [length].
      destruct (seen h) as [p|]; [destruct (word s =? p)|]; lia.
Qed.

Lemma ck_run_bound s schedule s' : Forall busy (harts s) -> ck_run S impl_of s schedule = Some s' ->
  Z.of_nat (length schedule) <= efforts (Z.of_nat (length (harts s))) (word s) (harts s).
Proof.
  revert s. induction schedule as [|i schedule IH]; intros s Hb; cbn [ck_run length].
  - intros _. apply efforts_nonneg; [lia|done].
  - destruct (ck_step S impl_of s i) as [s1|] eqn:E; [|done]. cbn [mbind option_bind]. intros Hr.
    destruct (ck_step_effort _ _ _ Hb E) as (Hb1 & L1 & He). specialize (IH _ Hb1 Hr). rewrite L1 in IH. lia.
Qed.

Lemma ck_step_enabled s i h : harts s !! i = Some h -> todo h <> [] -> is_Some (ck_step S impl_of s i).
Proof.
  intros Eh Ht. unfold ck_step. rewrite Eh. cbn [mbind option_bind]. unfold hart_step. destruct (todo h) as [|o rest]; [done|].
  destruct (impl_of o); [by eexists|]. destruct (seen h); [destruct (_ =? _)|]; by eexists.
Qed.
End linear.

Lemma start_efforts w programs N :
  efforts N w (harts (start w programs)) = (N + 2) * foldr (fun p s => Z.of_nat (length p) + s) 0 programs.
Proof.
  induction programs as [|p programs IH]; cbn [start harts fmap list_fmap efforts foldr] in *; [lia|].
  fold (efforts N w (harts (start w programs))) in *. unfold start, efforts in *. cbn [harts] in *. rewrite IH. unfold effort. cbn. lia.
Qed.

(** C25: The atomic operations of [ck_pr.h] are indivisible and lock-free.  Let any number of harts
    execute any programs of these operations on one word, each operation made the way the library
    makes it for the type of the word, and let their steps be interleaved in any way.  Then the word
    and all results are those of a run in which every operation is one step, and these steps are taken
    in the order of some steps of the original run.  The number of steps is at most the number of
    operations times the number of harts plus two, whatever the schedule, and a hart that has an
    operation to do can always take a step; so no schedule keeps the harts from finishing. *)
Theorem ck_pr_linearizable S w programs schedule s' :
  ck_run S (ck_impl S) (start w programs) schedule = Some s' ->
  (exists order, order `sublist_of` schedule /\ atomic_run S (start w programs) order = Some (forget s')) /\
  Z.of_nat (length schedule) <=
    (Z.of_nat (length programs) + 2) * foldr (fun p s => Z.of_nat (length p) + s) 0 programs /\
  (forall i h, harts s' !! i = Some h -> todo h <> [] -> is_Some (ck_step S (ck_impl S) s' i)).
Proof.
  intros Hr. split; [|split].
  - apply ck_run_refines in Hr as (order & Ho & Ha). exists order. split; [done|]. rewrite <- Ha. f_equal.
    unfold start, forget. cbn [word harts]. f_equal. rewrite <- list_fmap_compose. by apply list_fmap_ext.
  - rewrite <- (start_efforts w). apply ck_run_bound in Hr.
    + unfold start in Hr at 1. cbn [harts] in Hr. by rewrite length_fmap in Hr.
    + cbn [start harts]. apply Forall_fmap, Forall_true. by intros p [].
  - apply ck_step_enabled.
Qed.

Lemma ck_pr_linearizable_witness :
  let programs := [[ck_fas 7]; [ck_btx BTS 1; ck_faa 3]] in
  let schedule := [0; 1; 0; 1; 1; 1]%nat in
  (exists order, order `sublist_of` schedule /\
     atomic_run U32 (start 5 programs) order = Some (mkWord 10 [mkHart [] None [Some 5]; mkHart [] None [Some 1; Some 7]])) /\
  Z.of_nat (length schedule) <= (2 + 2) * 3.
Proof.
  intros programs schedule.
  pose proof (ck_pr_linearizable U32 5 programs schedule _ two_harts_example) as (H1 & H2 & _). split; [exact H1|exact H2].
Defined.

(** ** What the operations do *)

Lemma width_pos S : 0 < width S.
Proof. by destruct S. Qed.

Lemma cast_wrapU S z : wrapU (width S) (cast S z) = wrapU (width S) z.
Proof. destruct S; cbn [cast width]; (apply wrapU_wrapS || apply Zmod_mod); lia. Qed.

Lemma testbit_wrapU_low w z i : 0 <= i < w -> Z.testbit (wrapU w z) i = Z.testbit z i.
Proof. intros. unfold wrapU. apply Z.mod_pow2_bits_low. lia. Qed.

Lemma testbit_cast S z i : 0 <= i < width S -> Z.testbit (cast S z) i = Z.testbit z i.
Proof. intros Hi. by rewrite <- (testbit_wrapU_low (width S) (cast S z)), cast_wrapU, testbit_wrapU_low. Qed.

(** The bit operations return the bit and flip, clear or set it; the other bits stay. *)
Lemma btx_correct S K previous offset : 0 <= offset < width S ->
  op_result S (ck_btx K offset) previous = Some (Z.b2z (Z.testbit previous offset)) /\
  forall i, 0 <= i < width S -> Z.testbit (op_new S (ck_btx K offset) previous) i =
    if i =? offset then match K with BTC => negb (Z.testbit previous offset) | BTR => false | BTS => true end
    else Z.testbit previous i.
Proof.
  intros Ho. split.
  - cbn [op_result]. f_equal. change 1 with (Z.ones 1). rewrite Z.land_ones by lia. change (2 ^ 1) with 2.
    rewrite <- Z.bit0_mod, Z.shiftr_spec by lia. by rewrite Z.add_0_l.
  - intros i Hi. cbn [op_new]. rewrite testbit_cast by done. unfold btx_apply.
    assert (Z.testbit (cast S (Z.shiftl 1 offset)) i = (i =? offset)) as Hm.
    { rewrite testbit_cast, Z.shiftl_mul_pow2, Z.mul_1_l, Z.pow2_bits_eqb by lia. apply Z.eqb_sym. }
    destruct K; rewrite ?Z.lxor_spec, ?Z.land_spec, ?Z.lor_spec, ?Z.lnot_spec, Hm by lia;
      destruct (Z.eqb_spec i offset) as [->|]; cbn [negb]; rewrite ?xorb_false_r, ?xorb_true_r, ?andb_false_r, ?andb_true_r,
        ?orb_false_r, ?orb_true_r; done.
Qed.

Lemma cast_range S z : cast S z = z -> if bool_decide (S = INT) then - 2 ^ 31 <= z < 2 ^ 31 else 0 <= z < 2 ^ width S.
Proof.
  intros E. destruct S; cbn [bool_decide decide] in *; rewrite <- E; try (by apply wrapU_range).
  apply (wrapS_range 32). lia.
Qed.

Lemma wrapU_succ_zero w x : 0 < w -> 0 <= x < 2 ^ w -> wrapU w (x + 1) = 0 <-> x = 2 ^ w - 1.
Proof.
  intros Hw Hx. destruct (Z.eq_dec x (2 ^ w - 1)) as [->|Hne].
  - unfold wrapU. replace (2 ^ w - 1 + 1) with (2 ^ w) by lia. rewrite Z.mod_same by lia. done.
  - rewrite wrapU_small by lia. lia.
Qed.

Lemma wrapU_pred_zero w x : 0 < w -> 0 <= x < 2 ^ w -> wrapU w (x - 1) = 0 <-> x = 1.
Proof.
  intros Hw Hx. pose proof (Z.pow_gt_1 2 w). destruct (Z.eq_dec x 0) as [->|Hne].
  - unfold wrapU. rewrite <- (Z.mod_add (0 - 1) 1) by lia. rewrite Z.mod_small by lia. lia.
  - rewrite wrapU_small by lia. lia.
Qed.

(** The increments and decrements that report zero say whether the new value is zero, for all types
    but the increment of pointers. *)
Lemma inc_is_zero_correct S previous : S <> PTR -> cast S previous = previous ->
  op_result S ck_inc_is_zero previous = Some (Z.b2z (op_new S ck_inc_is_zero previous =? 0)).
Proof.
  intros HS E. apply cast_range in E. cbn [op_result op_new]. f_equal. f_equal. apply eq_true_iff_eq. rewrite !Z.eqb_eq.
  destruct S; try done; try (symmetry; first [exact (wrapU_succ_zero 8 previous eq_refl E)|exact (wrapU_succ_zero 16 previous eq_refl E)
    |exact (wrapU_succ_zero 32 previous eq_refl E)|exact (wrapU_succ_zero 64 previous eq_refl E)]).
  change (cast INT (inc_zero_const INT)) with (-1). change (cast INT (previous + 1)) with (wrapS 32 (previous + 1)).
  change (- 2 ^ 31 <= previous < 2 ^ 31) in E. destruct (Z.eq_dec previous (2 ^ 31 - 1)) as [->|]; [vm_compute; split; discriminate|].
  rewrite wrapS_small by lia. lia.
Qed.

Lemma dec_is_zero_correct S previous : cast S previous = previous ->
  op_result S ck_dec_is_zero previous = Some (Z.b2z (op_new S ck_dec_is_zero previous =? 0)).
Proof.
  intros E. apply cast_range in E. cbn [op_result op_new]. f_equal. f_equal. apply eq_true_iff_eq. rewrite !Z.eqb_eq.
  destruct S; try (symmetry; first [exact (wrapU_pred_zero 8 previous eq_refl E)|exact (wrapU_pred_zero 16 previous eq_refl E)
    |exact (wrapU_pred_zero 32 previous eq_refl E)|exact (wrapU_pred_zero 64 previous eq_refl E)]).
  change (cast INT 1) with 1. change (cast INT (previous - 1)) with (wrapS 32 (previous - 1)).
  change (- 2 ^ 31 <= previous < 2 ^ 31) in E. destruct (Z.eq_dec previous (- 2 ^ 31)) as [->|]; [vm_compute; split; discriminate|].
  rewrite wrapS_small by lia. lia.
Qed.

(** A pointer is compared with the largest 32-bit number: the increment from there is reported as
    zero, and the one that wraps around is not. *)
Lemma inc_ptr_is_zero_wrong :
  op_result PTR ck_inc_is_zero (2 ^ 32 - 1) = Some 1 /\ op_new PTR ck_inc_is_zero (2 ^ 32 - 1) = 2 ^ 32 /\
  op_result PTR ck_inc_is_zero (2 ^ 64 - 1) = Some 0 /\ op_new PTR ck_inc_is_zero (2 ^ 64 - 1) = 0.
Proof. done. Qed.

(** Every operation exists for every type, but for the bit operations on bytes. *)
Lemma implementation_complete k S :
  implementation k S = None <-> (exists K, k = BTX K) /\ (S = CHAR \/ S = U8).
Proof.
  split.
  - destruct k as [| | |[]|[]| | | | | | | | |], S; try discriminate; intros _; (split; [by eexists|]); tauto.
  - intros [[K ->] [-> | ->]]; by destruct K.
Qed.

(** The pointer operations that store the outcome are missing. *)
Lemma zero_stub_missing S : zero_stub S = false <-> S = PTR.
Proof. by destruct S. Qed.

(** A weaker memory model never has fewer fences. *)
Lemma fences_ordered f :
  (ck_pr_fence CK_MD_TSO f = true -> ck_pr_fence CK_MD_PSO f = true) /\
  (ck_pr_fence CK_MD_PSO f = true -> ck_pr_fence CK_MD_RMO f = true).
Proof. by destruct f. Qed.
