(* ===== verification/Pmp.v ===== *)
(** * Physical memory protection test

    [riscv-tests/benchmarks/pmp/pmp.c]: the page tables, the configurations of the protection entry
    under test, the program's own rule for them ([pmp_ok]) and the loops over ranges, addresses and
    sizes.  The hardware is a parameter: what a load does in a state of the control registers and the
    page tables, and whether there is memory protection at all.  Beside it stands the rule of the
    privileged architecture ([arch_load]: translation by the page tables, then the protection
    entries in order).  The program passes exactly when the hardware follows that rule in every
    access it makes. *)
From S2P Require Import Prelude Sv39 Runtime.
From stdpp Require Import list sets.
Local Open Scope list_scope.
Local Open Scope Z_scope.

Definition PMP_R : Z := 0x01.
Definition PMP_A : Z := 0x18.
Definition PMP_TOR : Z := 0x08.
Definition PMP_NA4 : Z := 0x10.
Definition PMP_NAPOT : Z := 0x18.
Definition PMP_SHIFT : Z := 2.
Definition SCRATCH : Z := RISCV_PGSIZE.
Definition GRANULE : Z := Z.shiftl 1 PMP_SHIFT.

(** ** The machine *)

Record csrs := mkCsrs { satp : Z; pmpcfg0 : Z; pmpaddr0 : Z; pmpaddr1 : Z; pmpaddr2 : Z }.
Inductive outcome := Loaded | Trap (cause : Z).
#[export] Instance outcome_eq_dec : EqDecision outcome.
Proof. solve_decision. Defined.

(** The hardware: whether it has the protection registers, and what a load with the effective
    privilege of the supervisor does. *)
Record hardware := mkHw { has_pmp : bool; load : csrs -> (Z -> Z) -> Z -> Z -> outcome }.

(** ** The rule of the architecture *)

(** The bytes an entry matches, from its configuration, the previous address register and its own. *)
Fixpoint trailing_ones (fuel : nat) (a : Z) : Z :=
  match fuel with
  | O => 0
  | S fuel => if Z.odd a then 1 + trailing_ones fuel (a / 2) else 0
  end.
Definition entry_matches (cfg prev addr b : Z) : bool :=
  let A := Z.land cfg PMP_A in
  if A =? PMP_TOR then (4 * prev <=? b) && (b <? 4 * addr)
  else if A =? PMP_NA4 then b / 4 =? addr
  else if A =? PMP_NAPOT then
    let size := 2 ^ (trailing_ones 64 addr + 3) in b / size =? 4 * addr / size
  else false.

(** The entries of the registers: configuration, previous address, address. *)
Definition cfg_of (c : csrs) (i : Z) : Z := Z.land (Z.shiftr (pmpcfg0 c) (8 * i)) 0xff.
Definition entries (c : csrs) : list (Z * Z * Z) :=
  [(cfg_of c 0, 0, pmpaddr0 c); (cfg_of c 1, pmpaddr0 c, pmpaddr1 c); (cfg_of c 2, pmpaddr1 c, pmpaddr2 c)].

(** The first entry that matches a byte of the access decides: it must match all of them and allow
    reads.  With none the access fails. *)
Fixpoint pmp_arch (es : list (Z * Z * Z)) (pa size : Z) : bool :=
  match es with
  | [] => false
  | (cfg, prev, addr) :: es =>
      let hits := filter (fun b => entry_matches cfg prev addr b = true) (seqZ pa size) in
      if bool_decide (hits = []) then pmp_arch es pa size
      else bool_decide (hits = seqZ pa size) && negb (Z.land cfg PMP_R =? 0)
  end.

Definition arch_load (c : csrs) (mem : Z -> Z) (va size : Z) : outcome :=
  match sv39 mem (Z.land (satp c) (2 ^ 44 - 1) * RISCV_PGSIZE) va with
  | None => Trap CAUSE_LOAD_PAGE_FAULT
  | Some (pa, pte) =>
      if has pte PTE_R && has pte PTE_A then
        if pmp_arch (entries c) pa size then Loaded else Trap CAUSE_LOAD_ACCESS
      else Trap CAUSE_LOAD_PAGE_FAULT
  end.

(** ** The program *)

(** Its state; [exit(n)] is the error [n]. *)
Record st := mkSt { regs : csrs; mem : Z -> Z; trap_expected : bool }.
Abbreviation P := (res Z).

Section program.
Context (hw : hardware) (scratch l1pt l2pt l3pt : Z).

(** The handler, with the address of the faulting instruction and its first half word. *)
Definition handle_trap (cause epc insn : Z) (s : st) : P (st * Z) :=
  if cause =? CAUSE_ILLEGAL_INSTRUCTION then Err 0
  else if negb (trap_expected s) || negb (cause =? CAUSE_LOAD_ACCESS) then Err 1
  else Ok (mkSt (regs s) (mem s) false, epc + insn_len insn).

(** A write of a protection register. *)
Definition write_pmp (f : csrs -> csrs) (s : st) : P st :=
  if has_pmp hw then Ok (mkSt (f (regs s)) (mem s) (trap_expected s))
  else '(s, _) ← handle_trap CAUSE_ILLEGAL_INSTRUCTION 0 0 s; Ok s.
Definition set_cfg0 (v : Z) (c : csrs) : csrs := mkCsrs (satp c) v (pmpaddr0 c) (pmpaddr1 c) (pmpaddr2 c).
Definition set_addr0 (v : Z) (c : csrs) : csrs := mkCsrs (satp c) (pmpcfg0 c) v (pmpaddr1 c) (pmpaddr2 c).
Definition set_addr1 (v : Z) (c : csrs) : csrs := mkCsrs (satp c) (pmpcfg0 c) (pmpaddr0 c) v (pmpaddr2 c).
Definition set_addr2 (v : Z) (c : csrs) : csrs := mkCsrs (satp c) (pmpcfg0 c) (pmpaddr0 c) (pmpaddr1 c) v.

Definition ppn_field (table : Z) : Z := Z.shiftl (Z.shiftr table RISCV_PGSHIFT) PTE_PPN_SHIFT.
Definition init_pt (s : st) : P st :=
  let m := upd (mem s) (l1pt + 8 * 0) (Z.lor (ppn_field l2pt) PTE_V) in
  let m := upd m (l3pt + 8 * (SCRATCH / RISCV_PGSIZE))
             (Z.lor (ppn_field scratch) (Z.lor PTE_A (Z.lor PTE_D (Z.lor PTE_V (Z.lor PTE_R PTE_W))))) in
  let m := upd m (l2pt + 8 * 0) (Z.lor (ppn_field l3pt) PTE_V) in
  let vm := Z.lor (Z.shiftr l1pt RISCV_PGSHIFT) (SATP_MODE_SV39 * 2 ^ 60) in
  let c := regs s in
  let s := mkSt (mkCsrs vm (pmpcfg0 c) (pmpaddr0 c) (pmpaddr1 c) (pmpaddr2 c)) m (trap_expected s) in
  s ← write_pmp (set_cfg0 (Z.shiftl (Z.lor PMP_NAPOT PMP_R) 16)) s;
  write_pmp (set_addr2 (2 ^ 64 - 1)) s.

Definition va2pa (va : Z) : P Z :=
  if (va <? SCRATCH) || (SCRATCH + RISCV_PGSIZE <=? va) then Err 3 else Ok (va - SCRATCH + scratch).

Record pmpcfg_t := mkPmpcfg { cfg : Z; a0 : Z; a1 : Z }.

(** The loop that takes the trailing ones of a naturally aligned range. *)
Fixpoint napot_loop (fuel : nat) (i a1 range : Z) : Z * Z :=
  match fuel with
  | O => (a1, range)
  | S fuel =>
      if Z.land a1 i =? 0 then (a1, range)
      else napot_loop fuel (u64 (Z.shiftl i 1)) (Z.land a1 (Z.lnot i)) (u64 (Z.shiftl range 1))
  end.

(** The ends of the range of a configuration, in granules. *)
Definition cfg_range (p : pmpcfg_t) : Z * Z :=
  if negb (Z.land (cfg p) PMP_A =? PMP_TOR) then
    let '(a1, range) := if Z.land (cfg p) PMP_A =? PMP_NAPOT then napot_loop 64 1 (a1 p) (Z.shiftl 1 1) else (a1 p, 1) in
    (a1, u64 (a1 + range))
  else (a0 p, a1 p).
Definition granules (size : Z) : list Z := (fun k => GRANULE * k) <$> seqZ 0 ((size + GRANULE - 1) / GRANULE).

Definition pmp_ok (p : pmpcfg_t) (addr size : Z) : P bool :=
  if Z.land (cfg p) PMP_A =? 0 then Ok true
  else
    let '(a0, a1) := cfg_range p in
    let a0 := u64 (a0 * GRANULE) in
    let a1 := u64 (a1 * GRANULE) in
    addr ← va2pa addr;
    let hits := foldl (fun hits i => if (a0 <=? addr + i) && (addr + i <? a1) then hits + GRANULE else hits) 0 (granules size) in
    Ok ((hits =? 0) || (size <=? hits)).

(** The load, whose faulting instruction is at an address of no importance. *)
Definition test_one (addr size : Z) (s : st) : P st :=
  match load hw (regs s) (mem s) addr size with
  | Loaded => Ok s
  | Trap cause => '(s, _) ← handle_trap cause 0 3 s; Ok s
  end.

Definition test_size (p : pmpcfg_t) (addr size : Z) (s : st) : P st :=
  if negb (Z.land addr (size - 1) =? 0) then Ok s
  else
    ok ← pmp_ok p addr size;
    s ← test_one addr size (mkSt (regs s) (mem s) (negb ok));
    if trap_expected s then Err 2 else Ok s.

(** A loop that stops with the first exit. *)
Fixpoint each {A} (l : list A) (body : A -> st -> P st) (s : st) : P st :=
  match l with [] => Ok s | x :: l => s ← body x s; each l body s end.

Definition sizes : list Z := [1; 2; 4; 8].
Definition test_all_sizes (p : pmpcfg_t) (addr : Z) (s : st) : P st := each sizes (test_size p addr) s.
Definition addresses (base range : Z) : list Z := (fun i => base + i) <$> granules range.
Definition test_range_once (p : pmpcfg_t) (base range : Z) (s : st) : P st := each (addresses base range) (test_all_sizes p) s.

Definition set_pmp (p : pmpcfg_t) (s : st) : P st :=
  let cfg0 := pmpcfg0 (regs s) in
  s ← write_pmp (set_cfg0 (Z.land cfg0 (Z.lnot 0xff00))) s;
  s ← write_pmp (set_addr0 (a0 p)) s;
  s ← write_pmp (set_addr1 (a1 p)) s;
  write_pmp (set_cfg0 (Z.lor (Z.land (Z.shiftl (cfg p) 8) 0xff00) (Z.land cfg0 (Z.lnot 0xff00)))) s.

Definition range_cfg (base range : Z) : pmpcfg_t :=
  mkPmpcfg (Z.lor PMP_TOR PMP_R) (Z.shiftr base PMP_SHIFT) (Z.shiftr (u64 (base + range)) PMP_SHIFT).
Definition napot_cfg (base range : Z) : pmpcfg_t :=
  mkPmpcfg (Z.lor PMP_R (if GRANULE <? range then PMP_NAPOT else PMP_NA4)) 0 (Z.shiftr (u64 (base + (range / 2 - 1))) PMP_SHIFT).

Definition test_range (addr range : Z) (s : st) : P st :=
  pa ← va2pa addr;
  s ← set_pmp (range_cfg pa range) s;
  s ← test_range_once (range_cfg pa range) addr range s;
  if (Z.land range (range - 1) =? 0) && (Z.land addr (range - 1) =? 0) then
    pa ← va2pa addr;
    s ← set_pmp (napot_cfg pa range) s;
    test_range_once (napot_cfg pa range) addr range s
  else Ok s.

Definition test_ranges (addr size : Z) (s : st) : P st :=
  each ((fun i => i + GRANULE) <$> granules (size - GRANULE + 1)) (fun range => test_range addr range) s.
Definition exhaustive_test (addr size : Z) (s : st) : P st :=
  each (addresses addr size) (fun base => test_ranges base (size - (base - addr))) s.

Definition max_exhaustive : Z := 32.

(** [main]: the value it returns, or the value of the [exit] it ends in. *)
Definition pmp_main (s : st) : Z :=
  let run :=
    s ← init_pt s;
    s ← exhaustive_test SCRATCH max_exhaustive s;
    s ← exhaustive_test (SCRATCH + RISCV_PGSIZE - max_exhaustive) max_exhaustive s;
    s ← test_range SCRATCH RISCV_PGSIZE s;
    s ← test_range SCRATCH (RISCV_PGSIZE / 2) s;
    test_range (SCRATCH + RISCV_PGSIZE / 2) (RISCV_PGSIZE / 2) s in
  match run with Ok _ => 0 | Err n => n | NoFuel => 0 end.
End program.


(** ** The entry under test *)

Lemma filter_none_iff {A} (Q : A -> bool) (l : list A) : filter (fun x => Q x = true) l = [] <-> Forall (fun x => Q x = false) l.
Proof.
  induction l as [|x l IH]; [done|]. rewrite Forall_cons. destruct (Q x) eqn:E.
  - rewrite filter_cons_True by done. split; [done|by intros [? _]].
  - rewrite filter_cons_False by (by rewrite E). rewrite IH. tauto.
Qed.

Lemma filter_all_iff {A} (Q : A -> bool) (l : list A) : filter (fun x => Q x = true) l = l <-> Forall (fun x => Q x = true) l.
Proof.
  induction l as [|x l IH]; [done|]. rewrite Forall_cons. destruct (Q x) eqn:E.
  - rewrite filter_cons_True by done. rewrite <- IH. split; [by intros [= ->]|by intros [_ ->]].
  - rewrite filter_cons_False by (by rewrite E). split; [|by intros [? _]]. intros F.
    pose proof (length_filter (fun x => Q x = true) l) as L. rewrite F in L. cbn [length] in L. lia.
Qed.

Lemma filter_bool_ext {A} (Q R : A -> bool) (l : list A) : (forall x, x ∈ l -> Q x = R x) ->
  filter (fun x => Q x = true) l = filter (fun x => R x = true) l.
Proof.
  intros H. induction l as [|x l IH]; [done|]. rewrite !filter_cons, IH by set_solver.
  by rewrite H by set_solver.
Qed.

Definition inside (lo hi b : Z) : bool := (lo <=? b) && (b <? hi).

Lemma all_inside lo hi pa size : 0 < size -> Forall (fun b => inside lo hi b = true) (seqZ pa size) <-> lo <= pa /\ pa + size <= hi.
Proof.
  intros Hs. rewrite Forall_forall. unfold inside. setoid_rewrite elem_of_seqZ. setoid_rewrite andb_true_iff.
  setoid_rewrite Z.leb_le. setoid_rewrite Z.ltb_lt. split.
  - intros H. pose proof (H pa). pose proof (H (pa + size - 1)). lia.
  - lia.
Qed.

Lemma none_inside lo hi pa size : 0 < size -> lo < hi ->
  Forall (fun b => inside lo hi b = false) (seqZ pa size) <-> pa + size <= lo \/ hi <= pa.
Proof.
  intros Hs Hlh. rewrite Forall_forall. setoid_rewrite elem_of_seqZ. unfold inside. split.
  - intros H. destruct (Z.le_gt_cases (pa + size) lo) as [|H1]; [by left|]. destruct (Z.le_gt_cases hi pa) as [|H2]; [by right|].
    specialize (H (Z.max pa lo) ltac:(lia)). destruct (Z.leb_spec lo (Z.max pa lo)), (Z.ltb_spec (Z.max pa lo) hi); done || lia.
  - intros H b Hb. destruct (Z.leb_spec lo b), (Z.ltb_spec b hi); try lia; done.
Qed.

(** The program counts granules, the architecture bytes. *)
Lemma hits_ok lo hi pa size : size ∈ sizes -> lo < hi -> (4 | lo) -> (4 | hi) -> (4 | pa) ->
  let hits := foldl (fun hits i => if (lo <=? pa + i) && (pa + i <? hi) then hits + GRANULE else hits) 0 (granules size) in
  (hits =? 0) || (size <=? hits) =
  bool_decide (Forall (fun b => inside lo hi b = false) (seqZ pa size)) || bool_decide (Forall (fun b => inside lo hi b = true) (seqZ pa size)).
Proof.
  intros Hs Hlh [x ->] [y ->] [k ->]. apply eq_true_iff_eq. rewrite !orb_true_iff, !bool_decide_eq_true.
  unfold sizes in Hs. rewrite !elem_of_cons, elem_of_nil in Hs. rewrite none_inside, all_inside by lia. destruct Hs as [->|[->|[->|[->|[]]]]].
  all: rewrite Z.eqb_eq, Z.leb_le; unfold granules; change GRANULE with 4.
  all: match goal with |- context [foldl _ _ ?l] => let l' := eval vm_compute in l in change l with l' end.
  all: cbn [foldl]; repeat match goal with
    | |- context [?a <=? ?b] => destruct (Z.leb_spec a b)
    | |- context [?a <? ?b] => destruct (Z.ltb_spec a b) end; cbn [andb]; lia.
Qed.

(** ** Naturally aligned ranges *)

(** The encoding of the range of 2^(t+1) granules at [q * 2^(t+1)]. *)
Lemma trailing_ones_napot t q fuel : 0 <= t -> (Z.to_nat t < fuel)%nat -> 0 <= q ->
  trailing_ones fuel (q * 2 ^ (t + 1) + (2 ^ t - 1)) = t.
Proof.
  intros Ht. revert fuel. pattern t. apply natlike_ind; [..|done]; clear t Ht.
  - intros [|fuel] Hf Hq; [lia|]. cbn [trailing_ones]. change (2 ^ (0 + 1)) with 2. change (2 ^ 0 - 1) with 0.
    rewrite Z.add_0_r, Z.mul_comm, Z.odd_mul. done.
  - intros t Ht IH [|fuel] Hf Hq; [lia|]. cbn [trailing_ones]. change (Z.succ t) with (t + 1).
    rewrite (Z.pow_add_r 2 (t + 1) 1), (Z.pow_add_r 2 t 1) by lia. change (2 ^ 1) with 2.
    replace (q * (2 ^ t * 2 * 2) + (2 ^ t * 2 - 1)) with (1 + 2 * (q * (2 ^ t * 2) + (2 ^ t - 1))) by lia.
    rewrite Z.odd_add_mul_2. cbn [Z.odd]. rewrite (Z.mul_comm 2), Z.div_add by lia. change (1 / 2) with 0. rewrite Z.add_0_l.
    specialize (IH fuel ltac:(lia) Hq). rewrite (Z.pow_add_r 2 t 1) in IH by lia. change (2 ^ 1) with 2 in IH. rewrite IH. lia.
Qed.

Lemma land_pow2_bit a k : 0 <= k -> (Z.land a (2 ^ k) =? 0) = negb (Z.testbit a k).
Proof.
  intros Hk. apply eq_true_iff_eq. rewrite Z.eqb_eq, negb_true_iff. split.
  - intros E. apply (f_equal (fun z => Z.testbit z k)) in E. by rewrite Z.land_spec, Z.pow2_bits_true, andb_true_r, Z.bits_0 in E by lia.
  - intros E. apply Z.bits_inj'. intros i Hi. rewrite Z.land_spec, Z.bits_0, Z.pow2_bits_eqb by lia.
    destruct (Z.eqb_spec k i) as [<-|]; [by rewrite E|apply andb_false_r].
Qed.

Lemma clear_bit a k : 0 <= k -> Z.testbit a k = true -> Z.land a (Z.lnot (2 ^ k)) = a - 2 ^ k.
Proof.
  intros Hk E. rewrite <- Z.ldiff_land. pose proof (Z.sub_nocarry_ldiff a (2 ^ k)) as H. rewrite H; [done|].
  apply Z.bits_inj'. intros i Hi. rewrite Z.ldiff_spec, Z.bits_0, Z.pow2_bits_eqb by lia.
  destruct (Z.eqb_spec k i) as [<-|]; [by rewrite E|done].
Qed.

(** While the ones below [k] have been cleared. *)
Lemma napot_loop_ok t q fuel k : 0 <= k <= t -> t <= 61 -> 0 <= q -> (Z.to_nat (t - k) < fuel)%nat ->
  napot_loop fuel (2 ^ k) (q * 2 ^ (t + 1) + (2 ^ t - 2 ^ k)) (2 ^ (k + 1)) = (q * 2 ^ (t + 1), 2 ^ (t + 1)).
Proof.
  revert k. induction fuel as [|fuel IH]; intros k Hk Ht Hq Hf; [lia|]. cbn [napot_loop]. rewrite land_pow2_bit by lia.
  set (a := q * 2 ^ (t + 1) + (2 ^ t - 2 ^ k)).
  assert (Z.testbit a k = (k <? t)) as Eb.
  { assert (a / 2 ^ k = q * 2 ^ (t + 1 - k) + (2 ^ (t - k) - 1)) as E.
    { subst a. replace (t + 1) with (t + 1 - k + k) at 1 by lia. replace t with (t - k + k) at 2 by lia.
      rewrite !Z.pow_add_r by lia. replace (_ + _) with ((q * 2 ^ (t + 1 - k) + (2 ^ (t - k) - 1)) * 2 ^ k) at 1 by ring.
      apply Z.div_mul. lia. }
    rewrite Z.testbit_odd, Z.shiftr_div_pow2, E by lia. replace (t + 1 - k) with (t - k + 1) by lia.
    rewrite Z.pow_add_r, Z.odd_add, Z.odd_sub, !Z.odd_mul by lia. change (Z.odd (2 ^ 1)) with false. rewrite !andb_false_r.
    destruct (Z.ltb_spec k t) as [Hlt|Hge].
    - rewrite <- (Z.succ_pred (t - k)), Z.pow_succ_r, Z.odd_mul by lia. done.
    - replace (t - k) with 0 by lia. done. }
  rewrite Eb. destruct (Z.ltb_spec k t) as [Hlt|Hge]; cbn [negb].
  - rewrite clear_bit; [|lia|done].
    subst a. rewrite !Z.shiftl_mul_pow2 by lia. change (2 ^ 1) with 2.
    assert (2 ^ (k + 1) = 2 * 2 ^ k) as E1 by (rewrite Z.pow_add_r; lia).
    assert (2 ^ (k + 1 + 1) = 2 * 2 ^ (k + 1)) as E2 by (rewrite (Z.pow_add_r 2 (k + 1)); lia).
    pose proof (Z.pow_le_mono_r 2 (k + 1 + 1) 63).
    rewrite !(wrapU_small 64) by lia. rewrite <- (IH (k + 1)) by lia. f_equal; lia.
  - assert (k = t) as -> by lia. subst a. f_equal. lia.
Qed.

(** ** The configurations of the test *)

(** The program's rule and the architecture's take the configuration for the same range. *)
Record covers (p : pmpcfg_t) (lo hi : Z) : Prop := mkCovers {
  cv_cfg : cfg p = 0x09 \/ cfg p = 0x11 \/ cfg p = 0x19;
  cv_lo : u64 ((cfg_range p).1 * GRANULE) = lo;
  cv_hi : u64 ((cfg_range p).2 * GRANULE) = hi;
  cv_match : forall b, 0 <= b -> entry_matches (cfg p) (a0 p) (a1 p) b = inside lo hi b
}.

Lemma range_cfg_covers pa range : 0 <= pa -> (4 | pa) -> (4 | range) -> 0 < range -> pa + range < 2 ^ 60 ->
  covers (range_cfg pa range) pa (pa + range).
Proof.
  intros H0 [x ->] [y ->] Hr Hb. unfold range_cfg. rewrite (wrapU_small 64) by lia. rewrite !Z.shiftr_div_pow2 by done.
  change (2 ^ PMP_SHIFT) with 4. rewrite <- Z.mul_add_distr_r, !Z.div_mul by done. split.
  - by left.
  - change (cfg_range _) with (x, x + y). cbn [fst]. change GRANULE with 4. rewrite (wrapU_small 64); lia.
  - change (cfg_range _) with (x, x + y). cbn [snd]. change GRANULE with 4. rewrite (wrapU_small 64); lia.
  - intros b Hb0. unfold entry_matches, inside. cbn [cfg a0 a1]. change (Z.land (Z.lor PMP_TOR PMP_R) PMP_A =? PMP_TOR) with true.
    cbv iota. by rewrite !(Z.mul_comm 4).
Qed.

Lemma na4_covers pa : 0 <= pa -> (4 | pa) -> pa + 4 < 2 ^ 60 -> covers (napot_cfg pa 4) pa (pa + 4).
Proof.
  intros H0 [x ->] Hb. unfold napot_cfg. change (4 / 2 - 1) with 1. change (GRANULE <? 4) with false. cbv iota.
  rewrite (wrapU_small 64) by lia. rewrite Z.shiftr_div_pow2 by done. change (2 ^ PMP_SHIFT) with 4.
  rewrite Z.div_add_l by done. change (1 / 4) with 0. rewrite Z.add_0_r. split.
  - by right; left.
  - change (cfg_range _) with (x, u64 (x + 1)). cbn [fst]. change GRANULE with 4. rewrite (wrapU_small 64); lia.
  - change (cfg_range _) with (x, u64 (x + 1)). cbn [snd]. change GRANULE with 4. rewrite (wrapU_small 64 (x + 1)) by lia.
    rewrite (wrapU_small 64); lia.
  - intros b Hb0. unfold entry_matches, inside. cbn [cfg a0 a1].
    change (Z.land (Z.lor PMP_R PMP_NA4) PMP_A =? PMP_TOR) with false. change (Z.land (Z.lor PMP_R PMP_NA4) PMP_A =? PMP_NA4) with true.
    cbv iota. apply eq_true_iff_eq. rewrite Z.eqb_eq, andb_true_iff, Z.leb_le, Z.ltb_lt.
    pose proof (Z.div_mod b 4). pose proof (Z.mod_pos_bound b 4). lia.
Qed.

Lemma napot_covers q r : 0 <= q -> 3 <= r -> q * 2 ^ r + 2 ^ r < 2 ^ 60 ->
  covers (napot_cfg (q * 2 ^ r) (2 ^ r)) (q * 2 ^ r) (q * 2 ^ r + 2 ^ r).
Proof.
  intros Hq Hr Hb. assert (exists t, 0 <= t /\ r = t + 3) as (t & Ht & ->) by (exists (r - 3); lia). clear Hr.
  assert (2 ^ (t + 3) = 8 * 2 ^ t) as E3 by (rewrite Z.pow_add_r; lia).
  assert (2 ^ (t + 1) = 2 * 2 ^ t) as E1 by (rewrite Z.pow_add_r; lia).
  assert (t <= 56) as Ht' by (destruct (Z.le_gt_cases t 56); [done|]; pose proof (Z.pow_le_mono_r 2 57 t); lia).
  assert (GRANULE <? 2 ^ (t + 3) = true) as EG by (apply Z.ltb_lt; change GRANULE with 4; lia).
  unfold napot_cfg. rewrite EG.
  assert (Z.shiftr (u64 (q * 2 ^ (t + 3) + (2 ^ (t + 3) / 2 - 1))) PMP_SHIFT = q * 2 ^ (t + 1) + (2 ^ t - 1)) as Ea.
  { rewrite E3. replace (8 * 2 ^ t / 2) with (4 * 2 ^ t) by (replace (8 * 2 ^ t) with (4 * 2 ^ t * 2) by lia; by rewrite Z.div_mul).
    rewrite (wrapU_small 64) by lia. rewrite Z.shiftr_div_pow2 by done. change (2 ^ PMP_SHIFT) with 4. symmetry.
    apply (Z.div_unique _ _ _ 3); lia. }
  rewrite Ea. set (p := mkPmpcfg _ _ _).
  assert (cfg_range p = (q * 2 ^ (t + 1), q * 2 ^ (t + 1) + 2 ^ (t + 1))) as Er.
  { unfold cfg_range, p. cbn [cfg a1]. change (Z.land (Z.lor PMP_R PMP_NAPOT) PMP_A) with PMP_NAPOT. cbn -[napot_loop Z.pow Z.shiftl].
    change (Z.shiftl 1 1) with (2 ^ (0 + 1)). pose proof (napot_loop_ok t q 64 0) as Hl. change (2 ^ 0) with 1 in Hl.
    rewrite Hl by lia. rewrite (wrapU_small 64) by lia. done. }
  split.
  - by right; right.
  - rewrite Er. cbn [fst]. change GRANULE with 4. rewrite (wrapU_small 64) by lia. lia.
  - rewrite Er. cbn [snd]. change GRANULE with 4. rewrite (wrapU_small 64) by lia. lia.
  - intros b Hb0. unfold entry_matches, inside, p. cbn [cfg a0 a1].
    change (Z.land (Z.lor PMP_R PMP_NAPOT) PMP_A) with PMP_NAPOT. change (PMP_NAPOT =? PMP_TOR) with false.
    change (PMP_NAPOT =? PMP_NA4) with false. change (PMP_NAPOT =? PMP_NAPOT) with true. cbv iota zeta.
    rewrite trailing_ones_napot by lia. replace (4 * (q * 2 ^ (t + 1) + (2 ^ t - 1)) / 2 ^ (t + 3)) with q.
    + apply eq_true_iff_eq. rewrite Z.eqb_eq, andb_true_iff, Z.leb_le, Z.ltb_lt.
      pose proof (Z.div_mod b (2 ^ (t + 3))). pose proof (Z.mod_pos_bound b (2 ^ (t + 3))).
      split; [nia|]. intros. symmetry. apply (Z.div_unique _ _ _ (b - q * 2 ^ (t + 3))); lia.
    + apply (Z.div_unique _ _ _ (4 * 2 ^ t - 4)); lia.
Qed.

(** A number with one bit is a power of two. *)
Lemma one_bit x : 0 < x -> Z.land x (x - 1) = 0 -> x = 2 ^ Z.log2 x.
Proof.
  intros Hx E. pose proof (Z.log2_spec x Hx) as [Hlo Hhi]. destruct (Z.eq_dec x (2 ^ Z.log2 x)) as [|Hne]; [done|exfalso].
  assert (Z.log2 (x - 1) = Z.log2 x) as El by (apply Z.log2_unique; [apply Z.log2_nonneg|lia]).
  apply (f_equal (fun z => Z.testbit z (Z.log2 x))) in E. rewrite Z.land_spec, Z.bits_0, Z.bit_log2 in E by done.
  rewrite <- El, Z.bit_log2 in E; [done|]. pose proof (Z.pow_pos_nonneg 2 (Z.log2 x)). pose proof (Z.log2_nonneg x). lia.
Qed.

Lemma napot_cfg_covers pa range : 0 <= pa -> 4 <= range -> Z.land range (range - 1) = 0 -> (range | pa) -> pa + range < 2 ^ 60 ->
  covers (napot_cfg pa range) pa (pa + range).
Proof.
  intros H0 Hr E [q ->] Hb. pose proof (one_bit range ltac:(lia) E) as Er. generalize dependent (Z.log2 range). intros r ->. clear E.
  destruct (Z.le_gt_cases 3 r) as [H3|H3]; [apply napot_covers; nia|].
  assert (r = 2) as -> by (destruct (Z.lt_ge_cases r 2) as [Hlt|]; [pose proof (Z.pow_le_mono_r 2 r 1); lia|lia]).
  apply na4_covers; [done| |done]. by exists q.
Qed.

(** ** Accesses *)

Section run.
Context (hw : hardware) (scratch l1pt l2pt l3pt : Z) (mem0 : Z -> Z).
Hypothesis tables : Forall (fun pa => 0 <= pa < 2 ^ 56 /\ pa mod 4096 = 0) [scratch; l1pt; l2pt; l3pt].
Hypothesis apart_12 : l1pt <> l2pt.
Hypothesis apart_13 : l1pt <> l3pt.
Hypothesis apart_23 : l2pt <> l3pt.

(** The page tables after [init_pt]. *)
Definition mem_pt : Z -> Z :=
  upd (upd (upd mem0 (l1pt + 8 * 0) (Z.lor (ppn_field l2pt) PTE_V))
    (l3pt + 8 * (SCRATCH / RISCV_PGSIZE)) (Z.lor (ppn_field scratch) (Z.lor PTE_A (Z.lor PTE_D (Z.lor PTE_V (Z.lor PTE_R PTE_W))))))
    (l2pt + 8 * 0) (Z.lor (ppn_field l3pt) PTE_V).

(** The registers while a configuration is under test. *)
Definition satp_pt : Z := Z.lor (Z.shiftr l1pt RISCV_PGSHIFT) (SATP_MODE_SV39 * 2 ^ 60).
Definition csrs_for (p : pmpcfg_t) : csrs :=
  mkCsrs satp_pt (Z.lor (Z.land (Z.shiftl (cfg p) 8) 0xff00) 0x190000) (a0 p) (a1 p) (2 ^ 64 - 1).

Lemma table_ok pa : pa ∈ [scratch; l1pt; l2pt; l3pt] -> 0 <= pa < 2 ^ 56 /\ pa mod 4096 = 0.
Proof. intros H. rewrite Forall_forall in tables. by apply tables. Qed.

(** The page of the test is where the program takes it to be. *)
Lemma scratch_mapped va : SCRATCH <= va < SCRATCH + RISCV_PGSIZE -> exists pte,
  sv39 mem_pt (Z.land satp_pt (2 ^ 44 - 1) * RISCV_PGSIZE) va = Some (va - SCRATCH + scratch, pte) /\
  has pte PTE_R && has pte PTE_A = true.
Proof.
  intros Hva. change SCRATCH with 4096 in *. change RISCV_PGSIZE with 4096 in *.
  destruct (table_ok scratch) as [Hs As]; [set_solver|]. destruct (table_ok l1pt) as [H1 A1]; [set_solver|].
  destruct (table_ok l2pt) as [H2 A2]; [set_solver|]. destruct (table_ok l3pt) as [H3 A3]; [set_solver|].
  assert (Z.land satp_pt (2 ^ 44 - 1) * 4096 = l1pt) as ->.
  { unfold satp_pt. rewrite Z.land_lor_distr_l. change (Z.land (SATP_MODE_SV39 * 2 ^ 60) (2 ^ 44 - 1)) with 0. rewrite Z.lor_0_r.
    change (2 ^ 44 - 1) with (Z.ones 44). rewrite Z.land_ones, Z.shiftr_div_pow2 by done. change (2 ^ RISCV_PGSHIFT) with 4096.
    pose proof (Z.div_mod l1pt 4096 ltac:(done)). rewrite Z.mod_small; [lia|]. split; [apply Z.div_pos; lia|].
    apply Z.div_lt_upper_bound; lia. }
  pose proof (Z.div_mod l1pt 4096 ltac:(done)). pose proof (Z.div_mod l2pt 4096 ltac:(done)). pose proof (Z.div_mod l3pt 4096 ltac:(done)).
  assert (forall l, 0 < l -> vpn va l = 0) as Hv.
  { intros l Hl. unfold vpn. rewrite Z.shiftr_div_pow2, (Z.div_small va) by (pose proof (Z.pow_le_mono_r 2 21 (12 + 9 * l)); lia). done. }
  assert (vpn va 0 = 1) as Hv0.
  { unfold vpn. rewrite Z.shiftr_div_pow2 by lia. change (2 ^ (12 + 9 * 0)) with 4096.
    rewrite <- (Z.div_unique va 4096 1 (va - 4096)) by lia. done. }
  unfold sv39. rewrite (walk_table 2 mem_pt l1pt va l2pt); [|done|done|].
  2: { change (Z.of_nat 2) with 2. rewrite Hv by lia. unfold mem_pt. change (SCRATCH / RISCV_PGSIZE) with 1. rewrite !upd_ne by lia. apply upd_eq. }
  rewrite (walk_table 1 mem_pt l2pt va l3pt); [|done|done|].
  2: { change (Z.of_nat 1) with 1. rewrite Hv by lia. unfold mem_pt. apply upd_eq. }
  rewrite (walk_leaf 0 mem_pt l3pt va scratch (Z.lor PTE_A (Z.lor PTE_D (Z.lor PTE_V (Z.lor PTE_R PTE_W))))); [|done|done|done|done| |].
  - eexists. split.
    + change (2 ^ (12 + 9 * Z.of_nat 0)) with 4096. f_equal. f_equal.
      rewrite <- (Z.mod_unique va 4096 1 (va - 4096)) by lia. lia.
    + rewrite !has_mk by done. done.
  - by change (2 ^ (12 + 9 * Z.of_nat 0)) with 4096.
  - change (Z.of_nat 0) with 0. rewrite Hv0. unfold mem_pt. change (4096 / 4096) with 1.
    change (SCRATCH / RISCV_PGSIZE) with 1. rewrite upd_ne by lia. apply upd_eq.
Qed.

(** The bytes of the configuration register. *)
Lemma cfg_of_for p : cfg p = 0x09 \/ cfg p = 0x11 \/ cfg p = 0x19 ->
  entries (csrs_for p) = [(0, 0, a0 p); (cfg p, a0 p, a1 p); (0x19, a1 p, 2 ^ 64 - 1)].
Proof. unfold entries, cfg_of, csrs_for. cbn [pmpcfg0 pmpaddr0 pmpaddr1 pmpaddr2]. by intros [-> | [-> | ->]]. Qed.

Lemma last_entry_matches prev b : 0 <= b < 2 ^ 60 -> entry_matches 0x19 prev (2 ^ 64 - 1) b = true.
Proof.
  intros Hb. unfold entry_matches. change (Z.land 25 PMP_A) with PMP_NAPOT. change (PMP_NAPOT =? PMP_TOR) with false.
  change (PMP_NAPOT =? PMP_NA4) with false. change (PMP_NAPOT =? PMP_NAPOT) with true. cbv iota zeta.
  change (trailing_ones 64 (2 ^ 64 - 1)) with 64. change (4 * (2 ^ 64 - 1) / 2 ^ (64 + 3)) with 0.
  rewrite Z.div_small; [done|]. change (2 ^ (64 + 3)) with 147573952589676412928. lia.
Qed.

(** The program's rule is the architecture's. *)
Lemma pmp_arch_ok p lo hi pa size : covers p lo hi -> 0 <= pa -> pa + size < 2 ^ 60 -> 0 < size ->
  pmp_arch (entries (csrs_for p)) pa size =
  bool_decide (Forall (fun b => inside lo hi b = false) (seqZ pa size)) || bool_decide (Forall (fun b => inside lo hi b = true) (seqZ pa size)).
Proof.
  intros [Hc _ _ Hm] H0 Hb Hs. rewrite cfg_of_for by done.
  assert (seqZ pa size <> []) as Hne by (rewrite seqZ_cons by lia; done). cbn [pmp_arch].
  rewrite (bool_decide_eq_true_2 (filter (fun b => entry_matches 0 0 (a0 p) b = true) _ = []))
    by (apply filter_none_iff, Forall_forall; done).
  assert (filter (fun b => entry_matches (cfg p) (a0 p) (a1 p) b = true) (seqZ pa size) =
          filter (fun b => inside lo hi b = true) (seqZ pa size)) as ->.
  { apply filter_bool_ext. intros b Hin%elem_of_seqZ. apply Hm. lia. }
  rewrite (bool_decide_ext _ _ (filter_none_iff (inside lo hi) (seqZ pa size))).
  rewrite (bool_decide_ext _ _ (filter_all_iff (inside lo hi) (seqZ pa size))).
  destruct (bool_decide (Forall _ _)); cbn [orb].
  - assert (filter (fun b => entry_matches 25 (a1 p) (2 ^ 64 - 1) b = true) (seqZ pa size) = seqZ pa size) as ->.
    { apply filter_all_iff, Forall_forall. intros b Hin%elem_of_seqZ. apply last_entry_matches. lia. }
    rewrite bool_decide_eq_false_2 by done. by rewrite bool_decide_eq_true_2 by done.
  - replace (negb (Z.land (cfg p) PMP_R =? 0)) with true by (by destruct Hc as [-> | [-> | ->]]). apply andb_true_r.
Qed.

(** ** The program on a hardware *)

Hypothesis present : has_pmp hw = true.
Hypothesis legal : forall c m va size, load hw c m va size <> Trap CAUSE_ILLEGAL_INSTRUCTION.

(** An access: the registers, the address and the size; and whether the hardware follows the
    architecture in it. *)
Abbreviation access := (csrs * Z * Z)%type.
Definition follows (x : access) : Prop :=
  let '(c, va, size) := x in load hw c mem_pt va size = arch_load c mem_pt va size.

(** A part of the program that goes on exactly when the hardware follows the architecture in the
    accesses [l], and else exits with 1 or 2. *)
Definition decides (F F' : csrs -> Prop) (prog : st -> P st) (l : list access) : Prop :=
  forall c, F c ->
    (exists c', F' c' /\ prog (mkSt c mem_pt false) = Ok (mkSt c' mem_pt false) /\ Forall follows l) \/
    ((prog (mkSt c mem_pt false) = Err 1 \/ prog (mkSt c mem_pt false) = Err 2) /\ ~ Forall follows l).

Lemma decides_skip F : decides F F (fun s => Ok s) [].
Proof. intros c Hc. left. by exists c. Qed.

Lemma decides_seq F G H p q l k : decides F G p l -> decides G H q k -> decides F H (fun s => s ← p s; q s) (l ++ k).
Proof.
  intros Hp Hq c Hc. destruct (Hp c Hc) as [(c1 & Hc1 & E & Hl)|[E Hl]].
  - rewrite E. cbn [mbind res_bind]. destruct (Hq c1 Hc1) as [(c2 & ? & ? & ?)|[? ?]]; 
      [left; exists c2; split_and!; [done|done|by apply Forall_app]|right; rewrite Forall_app; tauto].
  - right. split; [|rewrite Forall_app; tauto]. destruct E as [-> | ->]; cbn [mbind res_bind]; [by left|by right].
Qed.

Lemma decides_each {A} F (body : A -> st -> P st) (L : A -> list access) xs :
  (forall x, x ∈ xs -> decides F F (body x) (L x)) -> decides F F (each xs body) (concat (L <$> xs)).
Proof.
  induction xs as [|x xs IH]; intros H; [apply decides_skip|]. cbn [each fmap list_fmap concat].
  apply (decides_seq F F F (body x) (each xs body)); [apply H; rewrite elem_of_cons; by left|].
  apply IH. intros y Hy. apply H. rewrite elem_of_cons. by right.
Qed.

(** An access of the page, with a configuration under test. *)
Lemma test_size_decides p lo hi va size : covers p lo hi -> lo < hi -> (4 | lo) -> (4 | hi) ->
  (4 | va) -> SCRATCH <= va < SCRATCH + RISCV_PGSIZE -> size ∈ sizes ->
  decides (eq (csrs_for p)) (eq (csrs_for p)) (test_size hw scratch p va size)
    (if Z.land va (size - 1) =? 0 then [(csrs_for p, va, size)] else []).
Proof.
  intros Hcv Hlh Hlo Hhi Hva Hr Hsz c <-. unfold test_size. destruct (Z.land va (size - 1) =? 0); cbn [negb];
    [|left; by exists (csrs_for p)].
  pose proof Hcv as [Hc El Eh _]. assert (0 < size /\ size <= 8) as Hs8 by (unfold sizes in Hsz; rewrite !elem_of_cons, elem_of_nil in Hsz; lia).
  destruct (table_ok scratch) as [Hsc As]; [set_solver|]. set (pa := va - SCRATCH + scratch).
  assert (4 | pa) as Hpa.
  { subst pa. apply Z.divide_add_r; [apply Z.divide_sub_r; [done|by exists 1024]|].
    apply Z.mod_divide in As; [|done]. etransitivity; [|exact As]. by exists 1024. }
  assert (0 <= pa /\ pa + size < 2 ^ 60) as [Hpa0 Hpa1] by (change SCRATCH with 4096 in *; change RISCV_PGSIZE with 4096 in *; lia).
  (* the program's rule, and the architecture's *)
  set (ok := bool_decide (Forall (fun b => inside lo hi b = false) (seqZ pa size)) || bool_decide (Forall (fun b => inside lo hi b = true) (seqZ pa size))).
  assert (pmp_ok scratch p va size = Ok ok) as ->.
  { unfold pmp_ok. replace (Z.land (cfg p) PMP_A =? 0) with false by (by destruct Hc as [-> | [-> | ->]]).
    destruct (cfg_range p) as [x y]. cbn [fst snd] in El, Eh. rewrite El, Eh. unfold va2pa.
    replace ((va <? SCRATCH) || (SCRATCH + RISCV_PGSIZE <=? va)) with false
      by (destruct (Z.ltb_spec va SCRATCH), (Z.leb_spec (SCRATCH + RISCV_PGSIZE) va); lia || done).
    cbn [mbind res_bind]. fold pa. f_equal. by apply hits_ok. }
  assert (arch_load (csrs_for p) mem_pt va size = if ok then Loaded else Trap CAUSE_LOAD_ACCESS) as Ha.
  { unfold arch_load. cbn [satp csrs_for]. destruct (scratch_mapped va Hr) as (pte & -> & ->). fold pa.
    by rewrite (pmp_arch_ok p lo hi) by (done || lia). }
  cbn [mbind res_bind]. unfold test_one. cbn [regs mem]. pose proof (legal (csrs_for p) mem_pt va size) as Hlg.
  assert (Forall follows [(csrs_for p, va, size)] <-> load hw (csrs_for p) mem_pt va size = if ok then Loaded else Trap CAUSE_LOAD_ACCESS)
    as Hf by (rewrite Forall_singleton; unfold follows; by rewrite Ha).
  destruct (load hw (csrs_for p) mem_pt va size) as [|cause].
  - cbn [mbind res_bind trap_expected]. destruct ok; cbn [negb].
    + left. exists (csrs_for p). split_and!; [done|done|by apply Hf].
    + right. split; [by right|by rewrite Hf].
  - unfold handle_trap. cbn [trap_expected regs mem]. rewrite (proj2 (Z.eqb_neq cause CAUSE_ILLEGAL_INSTRUCTION)) by congruence.
    destruct ok; cbn [negb orb mbind res_bind]; [right; split; [by left|by rewrite Hf]|].
    destruct (Z.eqb_spec cause CAUSE_LOAD_ACCESS) as [->|Hne]; cbn [negb mbind res_bind trap_expected].
    + left. exists (csrs_for p). split_and!; [done|done|by apply Hf].
    + right. split; [by left|]. rewrite Hf. congruence.
Qed.

(** The accesses to a range with a configuration. *)
Definition sizes_at (p : pmpcfg_t) (va : Z) : list access :=
  concat ((fun size => if Z.land va (size - 1) =? 0 then [(csrs_for p, va, size)] else []) <$> sizes).
Definition accesses (p : pmpcfg_t) (base range : Z) : list access := concat (sizes_at p <$> addresses base range).

Lemma elem_of_granules size i : 0 <= size -> i ∈ granules size -> 0 <= i < size /\ (4 | i).
Proof.
  intros Hs. unfold granules. change GRANULE with 4. intros (k & -> & Hk%elem_of_seqZ)%list_elem_of_fmap.
  pose proof (Z.mul_div_le (size + 4 - 1) 4). split; [lia|]. exists k. lia.
Qed.

Lemma test_range_once_decides p lo hi base range : covers p lo hi -> lo < hi -> (4 | lo) -> (4 | hi) ->
  (4 | base) -> SCRATCH <= base -> 0 <= range -> base + range <= SCRATCH + RISCV_PGSIZE ->
  decides (eq (csrs_for p)) (eq (csrs_for p)) (test_range_once hw scratch p base range) (accesses p base range).
Proof.
  intros Hcv Hlh Hlo Hhi H4 Hb Hr He. unfold test_range_once, accesses. apply decides_each. intros va Hva.
  unfold addresses in Hva. apply list_elem_of_fmap in Hva as (i & -> & [Hi Hi4]%elem_of_granules); [|done].
  unfold test_all_sizes, sizes_at. apply decides_each. intros size Hsz.
  apply (test_size_decides p lo hi); [done..| |lia|done]. by apply Z.divide_add_r.
Qed.

(** Between the tests. *)
Definition idle (c : csrs) : Prop :=
  satp c = satp_pt /\ Z.land (pmpcfg0 c) (Z.lnot 0xff00) = 0x190000 /\ pmpaddr2 c = 2 ^ 64 - 1.

Lemma csrs_for_idle p : cfg p = 0x09 \/ cfg p = 0x11 \/ cfg p = 0x19 -> idle (csrs_for p).
Proof. unfold idle, csrs_for. cbn [satp pmpcfg0 pmpaddr2]. by intros [-> | [-> | ->]]. Qed.

Lemma set_pmp_decides p : cfg p = 0x09 \/ cfg p = 0x11 \/ cfg p = 0x19 ->
  decides idle (eq (csrs_for p)) (set_pmp hw p) [].
Proof.
  intros Hc c (Hs & Hcfg & H2). left. exists (csrs_for p). split; [done|]. split; [|done].
  destruct c as [sp cf x0 x1 x2]. cbn [satp pmpcfg0 pmpaddr2] in *. subst sp x2. unfold set_pmp, write_pmp. rewrite present.
  cbn [mbind res_bind regs pmpcfg0]. rewrite Hcfg. reflexivity.
Qed.

(** A range, with the interval and, if it is aligned, as a power of two. *)
Definition pa_of (va : Z) : Z := va - SCRATCH + scratch.
Definition range_accesses (addr range : Z) : list access :=
  accesses (range_cfg (pa_of addr) range) addr range ++
  (if (Z.land range (range - 1) =? 0) && (Z.land addr (range - 1) =? 0)
   then accesses (napot_cfg (pa_of addr) range) addr range else []).

Lemma decides_weaken F F' G prog l : decides F F' prog l -> (forall c, F' c -> G c) -> decides F G prog l.
Proof. intros H HG c Hc. destruct (H c Hc) as [(c' & ? & ? & ?)|?]; [left; exists c'; eauto|by right]. Qed.

Lemma one_range_decides p lo hi base range : covers p lo hi -> lo < hi -> (4 | lo) -> (4 | hi) ->
  (4 | base) -> SCRATCH <= base -> 0 <= range -> base + range <= SCRATCH + RISCV_PGSIZE ->
  decides idle idle (fun s => s ← set_pmp hw p s; test_range_once hw scratch p base range s) (accesses p base range).
Proof.
  intros Hcv. intros. rewrite <- (app_nil_l (accesses p base range)).
  apply (decides_seq idle (eq (csrs_for p)) idle); [apply set_pmp_decides, Hcv|].
  eapply decides_weaken; [by eapply test_range_once_decides|]. intros c <-. apply csrs_for_idle, Hcv.
Qed.

Lemma pow2_divides range x : 0 < range -> Z.land range (range - 1) = 0 -> Z.land x (range - 1) = 0 -> (range | x).
Proof.
  intros Hr E Ex. pose proof (one_bit range Hr E) as Er. pose proof (Z.log2_nonneg range) as Hl.
  generalize dependent (Z.log2 range). intros r -> Hl. replace (2 ^ r - 1) with (Z.ones r) in Ex by (rewrite Z.ones_equiv; lia).
  rewrite Z.land_ones in Ex by done. apply Z.mod_divide; [lia|done].
Qed.

Lemma pow2_divides_page range : 0 < range <= 4096 -> Z.land range (range - 1) = 0 -> (range | 4096).
Proof.
  intros Hr E. pose proof (one_bit range ltac:(lia) E) as Er. pose proof (Z.log2_nonneg range) as Hl.
  pose proof (Z.log2_le_mono range 4096 ltac:(lia)) as Hm. change (Z.log2 4096) with 12 in Hm. rewrite Er. generalize dependent (Z.log2 range).
  intros r _ Hl Hm. exists (2 ^ (12 - r)). rewrite <- Z.pow_add_r by lia. by replace (12 - r + r) with 12 by lia.
Qed.

Lemma va2pa_ok va : SCRATCH <= va < SCRATCH + RISCV_PGSIZE -> va2pa scratch va = Ok (pa_of va).
Proof.
  intros Hva. unfold va2pa. by destruct (Z.ltb_spec va SCRATCH), (Z.leb_spec (SCRATCH + RISCV_PGSIZE) va); try lia.
Qed.

Lemma test_range_decides addr range : (4 | addr) -> (4 | range) -> 0 < range -> SCRATCH <= addr ->
  addr + range <= SCRATCH + RISCV_PGSIZE -> decides idle idle (test_range hw scratch addr range) (range_accesses addr range).
Proof.
  intros Ha4 Hr4 Hr Ha He. destruct (table_ok scratch) as [Hsc As]; [set_solver|]. apply Z.mod_divide in As; [|done].
  set (pa := pa_of addr). assert (4 | pa) as Hp4.
  { unfold pa, pa_of. apply Z.divide_add_r; [apply Z.divide_sub_r; [done|by exists 1024]|]. etransitivity; [|exact As]. by exists 1024. }
  assert (0 <= pa /\ pa + range < 2 ^ 60) as [Hp0 Hp1]
    by (unfold pa, pa_of; change SCRATCH with 4096 in *; change RISCV_PGSIZE with 4096 in *; lia).
  assert (4 | pa + range) as Hpr4 by (by apply Z.divide_add_r).
  assert (4 <= range) as Hr4' by (destruct Hr4; lia).
  assert (decides idle idle (fun s => s ← set_pmp hw (range_cfg pa range) s; test_range_once hw scratch (range_cfg pa range) addr range s)
    (accesses (range_cfg pa range) addr range)) as H1.
  { apply (one_range_decides _ pa (pa + range)); try done; try lia. by apply range_cfg_covers. }
  intros c Hc. unfold test_range. rewrite va2pa_ok by lia. cbn [mbind res_bind]. fold pa. unfold range_accesses. fold pa.
  destruct ((Z.land range (range - 1) =? 0) && (Z.land addr (range - 1) =? 0)) eqn:E.
  - rewrite andb_true_iff, !Z.eqb_eq in E. destruct E as [E1 E2].
    assert (decides idle idle (fun s => s ← set_pmp hw (napot_cfg pa range) s; test_range_once hw scratch (napot_cfg pa range) addr range s)
      (accesses (napot_cfg pa range) addr range)) as H2.
    { apply (one_range_decides _ pa (pa + range)); try done; try lia. apply napot_cfg_covers; try done.
      pose proof (pow2_divides_page range ltac:(change SCRATCH with 4096 in *; change RISCV_PGSIZE with 4096 in *; lia) E1) as Hpg.
      unfold pa, pa_of. apply Z.divide_add_r; [apply Z.divide_sub_r; [by apply pow2_divides|done]|]. by etransitivity. }
    destruct (decides_seq _ _ _ _ _ _ _ H1 H2 c Hc) as [(c' & Hc' & Er & Hf)|[Er Hf]].
    + left. exists c'. split; [done|]. split; [|done]. rewrite <- Er. by destruct (set_pmp hw (range_cfg pa range) _).
    + right. split; [|done]. by destruct (set_pmp hw (range_cfg pa range) _).
  - rewrite app_nil_r. destruct (H1 c Hc) as [(c' & Hc' & Er & Hf)|[Er Hf]].
    + left. exists c'. split; [done|]. split; [|done]. destruct (set_pmp hw (range_cfg pa range) _); try done.
      cbn [mbind res_bind] in *. by rewrite Er.
    + right. split; [|done]. destruct (set_pmp hw (range_cfg pa range) _); try done.
      cbn [mbind res_bind] in *. by destruct Er as [-> | ->]; [left|right].
Qed.

(** All accesses of the program, in its order. *)
Definition ranges_accesses (addr size : Z) : list access :=
  concat ((fun range => range_accesses addr range) <$> ((fun i => i + GRANULE) <$> granules (size - GRANULE + 1))).
Definition exhaustive_accesses (addr size : Z) : list access :=
  concat ((fun base => ranges_accesses base (size - (base - addr))) <$> addresses addr size).
Definition tested : list access :=
  exhaustive_accesses SCRATCH max_exhaustive ++
  exhaustive_accesses (SCRATCH + RISCV_PGSIZE - max_exhaustive) max_exhaustive ++
  range_accesses SCRATCH RISCV_PGSIZE ++ range_accesses SCRATCH (RISCV_PGSIZE / 2) ++
  range_accesses (SCRATCH + RISCV_PGSIZE / 2) (RISCV_PGSIZE / 2).

Lemma exhaustive_decides addr size : (4 | addr) -> (4 | size) -> 0 <= size -> SCRATCH <= addr ->
  addr + size <= SCRATCH + RISCV_PGSIZE ->
  decides idle idle (exhaustive_test hw scratch addr size) (exhaustive_accesses addr size).
Proof.
  intros Ha Hs Hs0 Hlo Hhi. unfold exhaustive_test, exhaustive_accesses. apply decides_each. intros base Hb.
  unfold addresses in Hb. apply list_elem_of_fmap in Hb as (i & -> & [Hi Hi4]%elem_of_granules); [|done].
  unfold test_ranges, ranges_accesses. apply decides_each. intros range Hrg.
  apply list_elem_of_fmap in Hrg as (k & -> & Hk). change GRANULE with 4 in *. destruct Hs as [s ->], Hi4 as [d ->].
  apply elem_of_granules in Hk as [Hk [e ->]]; [|lia]. apply test_range_decides; [|by exists (e + 1); lia|lia|lia|lia].
  apply Z.divide_add_r; [done|by exists d].
Qed.

Lemma run_decides : decides idle idle
  (fun s => s ← exhaustive_test hw scratch SCRATCH max_exhaustive s;
            s ← exhaustive_test hw scratch (SCRATCH + RISCV_PGSIZE - max_exhaustive) max_exhaustive s;
            s ← test_range hw scratch SCRATCH RISCV_PGSIZE s;
            s ← test_range hw scratch SCRATCH (RISCV_PGSIZE / 2) s;
            test_range hw scratch (SCRATCH + RISCV_PGSIZE / 2) (RISCV_PGSIZE / 2) s) tested.
Proof.
  unfold tested. change max_exhaustive with 32. change SCRATCH with 4096. change RISCV_PGSIZE with 4096. change (4096 / 2) with 2048.
  assert (forall n, n mod 4 = 0 -> (4 | n)) as D by (intros n; by apply Z.mod_divide).
  apply (decides_seq idle idle idle); [apply exhaustive_decides; done || by apply D|].
  apply (decides_seq idle idle idle); [apply exhaustive_decides; done || by apply D|].
  apply (decides_seq idle idle idle); [apply test_range_decides; done || by apply D|].
  apply (decides_seq idle idle idle); [apply test_range_decides; done || by apply D|].
  apply test_range_decides; done || by apply D.
Qed.

Lemma init_pt_ok c : exists c', idle c' /\ init_pt hw scratch l1pt l2pt l3pt (mkSt c mem0 false) = Ok (mkSt c' mem_pt false).
Proof.
  unfold init_pt, write_pmp. rewrite present. cbn [mbind res_bind]. eexists. split; [|reflexivity]. done.
Qed.
End run.

(** C26: The protection test passes exactly when the hardware follows the architecture.  Let the four
    pages of the program be aligned physical pages below 2^56, the page tables distinct, and let no
    load be an illegal instruction.  On hardware with protection registers [main] returns 0 if and
    only if every access it makes, 15,400 loads of 1, 2, 4 and 8 bytes under every
    configuration it sets up, ends as the architecture's rule says: translated by the page tables it
    has built, and allowed or refused by the first protection entry that matches.  Otherwise it
    returns 1 or 2.  Without the registers it returns 0. *)
Theorem pmp_main_passes hw scratch l1pt l2pt l3pt mem0 c :
  Forall (fun pa => 0 <= pa < 2 ^ 56 /\ pa mod 4096 = 0) [scratch; l1pt; l2pt; l3pt] ->
  l1pt <> l2pt -> l1pt <> l3pt -> l2pt <> l3pt ->
  (forall c m va size, load hw c m va size <> Trap CAUSE_ILLEGAL_INSTRUCTION) ->
  let result := pmp_main hw scratch l1pt l2pt l3pt (mkSt c mem0 false) in
  (has_pmp hw = true ->
     (result = 0 <-> Forall (follows hw scratch l1pt l2pt l3pt mem0) (tested scratch l1pt)) /\
     (result = 0 \/ result = 1 \/ result = 2)) /\
  (has_pmp hw = false -> result = 0).
Proof.
  intros Ht H12 H13 H23 Hlg result. subst result. split.
  - intros Hp. unfold pmp_main. destruct (init_pt_ok hw scratch l1pt l2pt l3pt mem0 Hp c) as (c1 & Hc1 & ->). cbn [mbind res_bind].
    destruct (run_decides hw scratch l1pt l2pt l3pt mem0 Ht H12 H13 H23 Hp Hlg c1 Hc1) as [(c2 & _ & -> & Hf)|[[-> | ->] Hf]];
      (split; [split; intros; done|by auto]).
  - intros Hp. unfold pmp_main, init_pt, write_pmp. by rewrite Hp.
Qed.

Lemma pmp_main_passes_witness :
  pmp_main (mkHw true arch_load) 0x80010000 0x80020000 0x80030000 0x80040000 (mkSt (mkCsrs 0 0 0 0 0) (fun _ => 0) false) = 0.
Proof.
  refine (proj2 (proj1 (proj1 (pmp_main_passes (mkHw true arch_load) 0x80010000 0x80020000 0x80030000 0x80040000
    (fun _ => 0) (mkCsrs 0 0 0 0 0) _ _ _ _ _) _)) _).
  - repeat (apply Forall_cons; split; [split; [split; [done|reflexivity]|reflexivity]|]). apply Forall_nil_2.
  - done.
  - done.
  - done.
  - intros c m va size. cbn [load]. unfold arch_load, CAUSE_LOAD_PAGE_FAULT, CAUSE_LOAD_ACCESS, CAUSE_ILLEGAL_INSTRUCTION.
    destruct (sv39 _ _ _) as [[pa pte]|]; [|done]. destruct (_ && _); [|done]. by destruct (pmp_arch _ _ _).
  - done.
  - apply Forall_forall. intros [[c va] size] _. done.
Defined.
