(* ===== verification/MtLang.v ===== *)
(** * Matrix kernels for several harts: language and checker

    The kernels of [riscv-tests/mt] run on several harts at once.  Their control flow and their
    addresses do not depend on the data, so the model of a kernel is the list of the assignments and
    barriers one hart executes, written with the loops of the source ([code]).  The harts interleave
    these freely; an update [x += e] of memory is a load and a store, and a barrier lets nobody pass
    before everybody has come.  The checker runs the harts one after the other on formal sums of
    products, and looks in every phase between two barriers whether a hart uses a cell that another
    one writes.  Its soundness theorem: if it accepts, every interleaving ends, and with the result
    that was computed. *)
From S2P Require Import Prelude Matmul.
From stdpp Require Import list relations.
Local Open Scope list_scope.
Local Open Scope Z_scope.

(** ** Programs *)

(** An element of an array; arrays have numbers. *)
Inductive cell := Cell (array : positive) (index : Z).
#[export] Instance cell_eq_dec : EqDecision cell.
Proof. solve_decision. Defined.

Inductive lval := LReg (x : positive) | LCell (c : cell).
Inductive expr := EVal (l : lval) | EZero | EAdd (e f : expr) | EMul (e f : expr).
Inductive stmt := Assign (l : lval) (e : expr) | Barrier.
Abbreviation code := (list stmt).
#[export] Instance lval_eq_dec : EqDecision lval.
Proof. solve_decision. Defined.
#[export] Instance expr_eq_dec : EqDecision expr.
Proof. solve_decision. Defined.
#[export] Instance stmt_eq_dec : EqDecision stmt.
Proof. solve_decision. Defined.
Coercion EVal : lval >-> expr.

Declare Scope mt_scope.
Delimit Scope mt_scope with mt.
Notation "e ⊕ f" := (EAdd e f) (at level 50, left associativity) : mt_scope.
Notation "e ⊗ f" := (EMul e f) (at level 40, left associativity) : mt_scope.

(** The assignments [l = e] and [l += e]; the latter goes through a temporary when [l] is in memory. *)
Definition assign (l : lval) (e : expr) : code := [Assign l e].
Definition tmp : lval := LReg 1.
Definition add_assign (l : lval) (e : expr) : code :=
  match l with
  | LReg _ => [Assign l (EAdd l e)]
  | LCell _ => [Assign tmp (EAdd l e); Assign l tmp]
  end.
Notation "l ≔ e" := (assign l e) (at level 60) : mt_scope.
Notation "l +≔ e" := (add_assign l e) (at level 60) : mt_scope.
Definition barrier : code := [Barrier].

(** Sequences and loops; [steps] and [downs] are the values of a counter. *)
Definition begin_ (l : list code) : code := concat l.
Fixpoint loop (l : list Z) (body : Z -> code) : code :=
  match l with [] => [] | x :: l => body x ++ loop l body end.
Definition downs (hi lo step : Z) : list Z := (fun q => hi - step * q) <$> seqZ 0 ((hi - lo + step) / step).
Definition when_ (b : bool) (s : code) : code := if b then s else [].

(** The arrays of the caller, arrays shared by the harts, arrays of one hart, and variables. *)
Definition A (i : Z) : lval := LCell (Cell 1 i).
Definition B (i : Z) : lval := LCell (Cell 2 i).
Definition C (i : Z) : lval := LCell (Cell 3 i).
Definition shared (n i : Z) : lval := LCell (Cell (Z.to_pos (4 + n)) i).
Definition private (h n i : Z) : lval := LCell (Cell (Z.to_pos (8 + 8 * h + n)) i).
Definition var (n : Z) : lval := LReg (Z.to_pos (n + 2)).

(** ** Stores *)

(** Maps as binary tries, which any conversion evaluates quickly. *)
Inductive trie (V : Type) := Leaf | Node (l : trie V) (o : option V) (r : trie V).
Arguments Leaf {V}.
Arguments Node {V}.
Fixpoint tget {V} (p : positive) (t : trie V) {struct t} : option V :=
  match t with
  | Leaf => None
  | Node l o r => match p with xH => o | xO p => tget p l | xI p => tget p r end
  end.
Fixpoint tset {V} (p : positive) (v : V) (t : trie V) : trie V :=
  match p, t with
  | xH, Leaf => Node Leaf (Some v) Leaf
  | xH, Node l _ r => Node l (Some v) r
  | xO p, Leaf => Node (tset p v Leaf) None Leaf
  | xO p, Node l o r => Node (tset p v l) o r
  | xI p, Leaf => Node Leaf None (tset p v Leaf)
  | xI p, Node l o r => Node l o (tset p v r)
  end.
Fixpoint tmap {V W} (f : V -> W) (t : trie V) : trie W :=
  match t with Leaf => Leaf | Node l o r => Node (tmap f l) (f <$> o) (tmap f r) end.

(** Indices of any sign as keys; a store has a trie per array. *)
Definition key (i : Z) : positive := match i with Z0 => xH | Zpos p => xO p | Zneg p => xI p end.
Abbreviation store V := (trie (trie V)).
Definition sget {V} (m : store V) (c : cell) : option V :=
  let 'Cell a i := c in match tget a m with Some w => tget (key i) w | None => None end.
Definition sset {V} (m : store V) (c : cell) (v : V) : store V :=
  let 'Cell a i := c in tset a (tset (key i) v (match tget a m with Some w => w | None => Leaf end)) m.
Definition smap {V W} (f : V -> W) (m : store V) : store W := tmap (tmap f) m.

(** ** Execution *)

(** Values: integers, or the formal sums of the checker. *)
Record ops (V : Type) := mkOps { vzero : V; vadd : V -> V -> V; vmul : V -> V -> V; vcell : cell -> V; vreg : positive -> V }.
Arguments mkOps {V}.
Arguments vzero {V}.
Arguments vadd {V}.
Arguments vmul {V}.
Arguments vcell {V}.
Arguments vreg {V}.

(** Memory and registers hold what has been written; the rest is as at the start. *)
Abbreviation memory V := (store V).
Abbreviation regs V := (trie V).

Section run.
Context {V : Type} (U : ops V).

Definition rd (m : memory V) (c : cell) : V := match sget m c with Some v => v | None => vcell U c end.
Definition rg (r : regs V) (x : positive) : V := match tget x r with Some v => v | None => vreg U x end.

Fixpoint eval (r : regs V) (m : memory V) (e : expr) : V :=
  match e with
  | EVal (LReg x) => rg r x
  | EVal (LCell c) => rd m c
  | EZero => vzero U
  | EAdd e f => vadd U (eval r m e) (eval r m f)
  | EMul e f => vmul U (eval r m e) (eval r m f)
  end.

Definition exec (s : stmt) (r : regs V) (m : memory V) : regs V * memory V :=
  match s with
  | Assign (LReg x) e => (tset x (eval r m e) r, m)
  | Assign (LCell c) e => (r, sset m c (eval r m e))
  | Barrier => (r, m)
  end.
Fixpoint exec_all (l : code) (r : regs V) (m : memory V) : regs V * memory V :=
  match l with [] => (r, m) | s :: l => let '(r, m) := exec s r m in exec_all l r m end.

(** The machine: a memory and the harts, each with its registers and the code it has still to run. *)
Record state := mkState { mem : memory V; harts : list (regs V * code) }.
Definition waiting (h : regs V * code) : Prop := head h.2 = Some Barrier.
Definition pass (h : regs V * code) : regs V * code := (h.1, tail h.2).
Inductive step : state -> state -> Prop :=
| step_assign s i r l e rest :
    harts s !! i = Some (r, Assign l e :: rest) ->
    step s (mkState (exec (Assign l e) r (mem s)).2 (<[i := ((exec (Assign l e) r (mem s)).1, rest)]> (harts s)))
| step_barrier s :
    harts s <> [] -> Forall waiting (harts s) -> step s (mkState (mem s) (pass <$> harts s)).
Definition finished (s : state) : Prop := Forall (fun h => h.2 = []) (harts s).

(** ** One hart after the other *)

(** The code up to the first barrier, and the code behind it. *)
Fixpoint phase (l : code) : code * option code :=
  match l with
  | [] => ([], None)
  | Barrier :: l => ([], Some l)
  | s :: l => let '(p, rest) := phase l in (s :: p, rest)
  end.
Fixpoint run_phase (m : memory V) (hs : list (regs V * code)) : memory V * list (regs V) :=
  match hs with
  | [] => (m, [])
  | (r, l) :: hs =>
      let '(r, m) := exec_all (phase l).1 r m in
      let '(m, rs) := run_phase m hs in (m, r :: rs)
  end.

(** A hart owns the cells it writes in a phase; nobody else may use them there. *)
Fixpoint uses (e : expr) (ok : cell -> bool) : bool :=
  match e with
  | EVal (LReg _) | EZero => true
  | EVal (LCell c) => ok c
  | EAdd e f | EMul e f => uses e ok && uses f ok
  end.
Definition accesses (s : stmt) (ok : cell -> bool) : bool :=
  match s with
  | Assign (LReg _) e => uses e ok
  | Assign (LCell c) e => ok c && uses e ok
  | Barrier => true
  end.
Abbreviation owners := (store nat).
Definition may_use (o : owners) (h : nat) (c : cell) : bool :=
  match sget o c with None => true | Some h' => Nat.eqb h' h end.
Definition claim (h : nat) (c : cell) (o : owners) : owners :=
  if match sget o c with Some h' => Nat.eqb h' h | None => false end then o else sset o c h.
Fixpoint own (h : nat) (l : code) (o : owners) : owners :=
  match l with
  | [] => o
  | Assign (LCell c) _ :: l => own h l (claim h c o)
  | _ :: l => own h l o
  end.
Fixpoint own_all (h : nat) (ls : list code) (o : owners) : owners :=
  match ls with [] => o | l :: ls => own_all (S h) ls (own h l o) end.
Fixpoint respect (o : owners) (h : nat) (ls : list code) : bool :=
  match ls with
  | [] => true
  | l :: ls => forallb (fun s => accesses s (may_use o h)) l && respect o (S h) ls
  end.
Definition disjoint (ls : list code) : bool := respect (own_all 0 ls Leaf) 0 ls.

(** All phases, as long as no phase has a conflict and the harts meet at the same barriers. *)
Fixpoint run_phases (fuel : nat) (m : memory V) (hs : list (regs V * code)) : option (memory V) :=
  match fuel with
  | O => None
  | S fuel =>
      if disjoint ((fun h => (phase h.2).1) <$> hs) then
        let '(m, rs) := run_phase m hs in
        let rests := (fun h => (phase h.2).2) <$> hs in
        if forallb (fun x => match x with None => true | Some _ => false end) rests then Some m
        else match mapM id rests with Some ls => run_phases fuel m (zip rs ls) | None => None end
      else None
  end.
End run.

Lemma tget_tset_eq {V} p (v : V) t : tget p (tset p v t) = Some v.
Proof. revert t. induction p as [p IH|p IH|]; intros [|l o r]; cbn; done. Qed.

Lemma tget_tset_ne {V} p q (v : V) t : p <> q -> tget q (tset p v t) = tget q t.
Proof.
  revert q t. induction p as [p IH|p IH|]; intros [q|q|] [|l o r] Hne; cbn [tset tget]; try done; by rewrite IH by congruence.
Qed.

Lemma tset_tset_eq {V} p (v w : V) t : tset p w (tset p v t) = tset p w t.
Proof. revert t. induction p as [p IH|p IH|]; intros [|l o r]; cbn; by rewrite ?IH. Qed.

Lemma tset_comm {V} p q (v w : V) t : p <> q -> tset q w (tset p v t) = tset p v (tset q w t).
Proof. revert q t. induction p as [p IH|p IH|]; intros [q|q|] [|l o r] Hne; cbn; try done; by rewrite IH by congruence. Qed.

Lemma tget_tmap {V W} (f : V -> W) p t : tget p (tmap f t) = f <$> tget p t.
Proof. revert p. induction t as [|l IHl o r IHr]; intros [p|p|]; cbn; done. Qed.

Lemma tmap_tset {V W} (f : V -> W) p v t : tmap f (tset p v t) = tset p (f v) (tmap f t).
Proof. revert t. induction p as [p IH|p IH|]; intros [|l o r]; cbn; by rewrite ?IH. Qed.

Lemma key_inj i j : key i = key j -> i = j.
Proof. destruct i, j; cbn; congruence. Qed.

Lemma sget_sset {V} (m : store V) c c' v : sget (sset m c v) c' = if decide (c' = c) then Some v else sget m c'.
Proof.
  destruct c as [a i], c' as [a' i']. unfold sget, sset. destruct (decide (a = a')) as [<-|Ha].
  - rewrite tget_tset_eq. destruct (decide (Cell a i' = Cell a i)) as [[= ->]|Hne]; [apply tget_tset_eq|].
    rewrite tget_tset_ne by (intros E%key_inj; congruence). by destruct (tget a m).
  - rewrite tget_tset_ne by done. destruct (decide _) as [[= -> ->]|]; done.
Qed.

Lemma sset_comm {V} (m : store V) c c' v v' : c <> c' -> sset (sset m c v) c' v' = sset (sset m c' v') c v.
Proof.
  destruct c as [a i], c' as [a' i']. intros Hne. unfold sset. destruct (decide (a = a')) as [<-|Ha].
  - rewrite !tget_tset_eq, !tset_tset_eq. f_equal. apply tset_comm. intros E%key_inj. congruence.
  - rewrite !tget_tset_ne by congruence. by apply tset_comm.
Qed.

Lemma sget_smap {V W} (f : V -> W) m c : sget (smap f m) c = f <$> sget m c.
Proof. destruct c as [a i]. unfold sget, smap. rewrite tget_tmap. destruct (tget a m) as [w|]; [apply tget_tmap|done]. Qed.

Lemma smap_sset {V W} (f : V -> W) m c v : smap f (sset m c v) = sset (smap f m) c (f v).
Proof. destruct c as [a i]. unfold sset, smap. rewrite tmap_tset, tmap_tset, tget_tmap. by destruct (tget a m). Qed.

(** ** Harts that do not meet commute *)

Fixpoint reads (e : expr) (c : cell) : Prop :=
  match e with
  | EVal (LReg _) | EZero => False
  | EVal (LCell c') => c' = c
  | EAdd e f | EMul e f => reads e c \/ reads f c
  end.
Definition writes (s : stmt) (c : cell) : Prop :=
  match s with Assign (LCell c') _ => c' = c | _ => False end.
Definition touches (s : stmt) (c : cell) : Prop :=
  writes s c \/ match s with Assign _ e => reads e c | Barrier => False end.
Definition independent (s : stmt) (l : code) : Prop :=
  forall t c, t ∈ l -> (writes s c -> ~ touches t c) /\ (writes t c -> ~ touches s c).

Section commute.
Context {V : Type} (U : ops V).

Lemma rd_sset_ne m c c' (v : V) : c <> c' -> rd U (sset m c v) c' = rd U m c'.
Proof. intros Hne. unfold rd. rewrite sget_sset. destruct (decide _); congruence. Qed.

Lemma eval_sset r m c (v : V) e : ~ reads e c -> eval U r (sset m c v) e = eval U r m e.
Proof.
  induction e as [[x|c']| |e IHe f IHf|e IHe f IHf]; cbn; intros Hn; try done.
  - apply rd_sset_ne. congruence.
  - rewrite IHe, IHf by tauto. done.
  - rewrite IHe, IHf by tauto. done.
Qed.

Lemma exec_commute s t (r q : regs V) m :
  (forall c, (writes s c -> ~ touches t c) /\ (writes t c -> ~ touches s c)) ->
  exec U t q (exec U s r m).2 = ((exec U t q m).1, (exec U s r (exec U t q m).2).2) /\
  (exec U s r (exec U t q m).2).1 = (exec U s r m).1.
Proof.
  unfold touches. intros Hi. destruct s as [[x|c] e|], t as [[y|d] f|]; cbn in *; try done.
  - split; [done|]. rewrite eval_sset; [done|]. destruct (Hi d) as [_ H]. specialize (H eq_refl). tauto.
  - split; [|done]. rewrite eval_sset; [done|]. destruct (Hi c) as [H _]. specialize (H eq_refl). tauto.
  - destruct (Hi c) as [H1 _]. specialize (H1 eq_refl). destruct (Hi d) as [_ H2]. specialize (H2 eq_refl).
    split; [|done]. f_equal. rewrite !eval_sset by tauto. apply sset_comm. naive_solver.
Qed.

Lemma exec_all_commute s l (r q : regs V) m : independent s l ->
  exec_all U l q (exec U s r m).2 = ((exec_all U l q m).1, (exec U s r (exec_all U l q m).2).2) /\
  (exec U s r (exec_all U l q m).2).1 = (exec U s r m).1.
Proof.
  revert q m. induction l as [|t l IH]; intros q m Hi; [done|]. cbn [exec_all].
  destruct (exec_commute s t r q m) as [H1 H2]; [intros c; apply Hi; left|]. rewrite H1.
  destruct (exec U t q m) as [q' m'] eqn:E. cbn [fst snd] in *.
  destruct (IH q' m') as [IH1 IH2]; [intros t' c Ht; apply Hi; by right|]. rewrite IH1, IH2. done.
Qed.

Lemma phase_assign l e rest : phase (Assign l e :: rest) = (Assign l e :: (phase rest).1, (phase rest).2).
Proof. cbn. by destruct (phase rest). Qed.

(** A step of a hart that is independent of the code before it is a step of the run in order. *)
Lemma run_phase_step (hs : list (regs V * code)) m i r l e rest :
  hs !! i = Some (r, Assign l e :: rest) ->
  (forall j q k, (j < i)%nat -> hs !! j = Some (q, k) -> independent (Assign l e) (phase k).1) ->
  run_phase U m hs =
  run_phase U (exec U (Assign l e) r m).2 (<[i := ((exec U (Assign l e) r m).1, rest)]> hs).
Proof.
  revert m i. induction hs as [|[q k] hs IH]; intros m [|i] Hh Hi; try done.
  - cbn in Hh. injection Hh as -> ->. cbn [list_insert insert run_phase]. rewrite phase_assign. cbn [exec_all fst].
    by destruct (exec U (Assign l e) r m).
  - cbn in Hh. destruct (exec_all_commute (Assign l e) (phase k).1 r q m) as [H1 H2]; [apply (Hi 0%nat q); [lia|done]|].
    assert (forall m x, run_phase U m ((q, k) :: x) =
      let '(q', m') := exec_all U (phase k).1 q m in let '(m'', rs) := run_phase U m' x in (m'', q' :: rs)) as Hc by done.
    change (<[S i:=?h]> ((q, k) :: hs)) with ((q, k) :: <[i:=h]> hs). rewrite !Hc, H1.
    destruct (exec_all U (phase k).1 q m) as [q' m'] eqn:E. cbn [fst snd] in *.
    rewrite (IH m' i Hh), H2; [done|]. intros j p k' Hj Hp. by apply (Hi (S j) p k'); [lia|].
Qed.
End commute.

(** ** The owners decide disjointness *)

Definition written (l : code) (c : cell) : Prop := exists s, s ∈ l /\ writes s c.

(** No hart writes what another one uses. *)
Definition conflict_free (ls : list code) : Prop :=
  forall i j l k s t c, ls !! i = Some l -> ls !! j = Some k -> s ∈ l -> t ∈ k -> writes s c -> touches t c -> i = j.

Lemma written_cons s l c : written (s :: l) c <-> writes s c \/ written l c.
Proof. unfold written. setoid_rewrite elem_of_cons. naive_solver. Qed.

Lemma sget_claim h c o c' : sget (claim h c o) c' = if decide (c' = c) then Some h else sget o c'.
Proof.
  unfold claim. destruct (match sget o c with Some h' => Nat.eqb h' h | None => false end) eqn:E; [|apply sget_sset].
  destruct (decide (c' = c)) as [->|]; [|done]. destruct (sget o c) as [h'|]; [|done]. apply Nat.eqb_eq in E. by subst.
Qed.

Lemma own_cons h s l o c :
  sget (own h (s :: l) o) c = sget (own h l (match s with Assign (LCell c) _ => claim h c o | _ => o end)) c.
Proof. by destruct s as [[x|d] e|]. Qed.

Lemma own_written h l o c : written l c \/ sget o c = Some h -> sget (own h l o) c = Some h.
Proof.
  revert o. induction l as [|s l IH]; intros o Hw; [destruct Hw as [(s & Hs & _)|]; [by apply elem_of_nil in Hs|done]|].
  rewrite own_cons. apply IH. rewrite written_cons in Hw. destruct s as [[x|d] e|]; cbn in Hw; try tauto.
  rewrite sget_claim. destruct (decide _) as [->|]; [by right|]. naive_solver.
Qed.

Lemma own_inv h l o c h' : sget (own h l o) c = Some h' -> (h' = h /\ written l c) \/ sget o c = Some h'.
Proof.
  revert o. induction l as [|s l IH]; intros o; [by right|]. rewrite own_cons, written_cons. intros [[-> Hw]|Hw]%IH; [tauto|].
  destruct s as [[x|d] e|]; try tauto. rewrite sget_claim in Hw. destruct (decide _) as [->|]; [|tauto].
  injection Hw as ->. left. split; [done|]. by left.
Qed.

Lemma own_keeps h l o c : is_Some (sget o c) -> is_Some (sget (own h l o) c).
Proof.
  revert o. induction l as [|s l IH]; intros o Ho; [done|]. rewrite own_cons. apply IH. destruct s as [[x|d] e|]; try done.
  rewrite sget_claim. by destruct (decide _).
Qed.

Lemma own_all_keeps h ls o c : is_Some (sget o c) -> is_Some (sget (own_all h ls o) c).
Proof. revert h o. induction ls as [|l ls IH]; intros h o Ho; [done|]. cbn. by apply IH, own_keeps. Qed.

Lemma own_all_written h ls o i l c : ls !! i = Some l -> written l c -> is_Some (sget (own_all h ls o) c).
Proof.
  revert h o i. induction ls as [|k ls IH]; intros h o [|i] Hl Hw; try done; cbn in *.
  - injection Hl as ->. apply own_all_keeps. exists h. apply own_written. by left.
  - by eapply IH.
Qed.

Lemma own_all_inv h ls o c x : sget (own_all h ls o) c = Some x ->
  (exists i l, x = (h + i)%nat /\ ls !! i = Some l /\ written l c) \/ sget o c = Some x.
Proof.
  revert h o. induction ls as [|l ls IH]; intros h o; cbn; [by right|].
  intros [(i & k & -> & Hk & Hw)|Ho]%IH; [left; exists (S i), k; split_and!; [lia|done..]|].
  apply own_inv in Ho as [[-> Hw]|Ho]; [|by right]. left. exists 0%nat, l. split_and!; [lia|done..].
Qed.

Lemma uses_spec e ok : uses e ok = true <-> forall c, reads e c -> ok c = true.
Proof. induction e as [[x|c]| |e IHe f IHf|e IHe f IHf]; cbn; rewrite ?andb_true_iff, ?IHe, ?IHf; naive_solver. Qed.

Lemma accesses_spec s ok : accesses s ok = true <-> forall c, touches s c -> ok c = true.
Proof.
  unfold touches. destruct s as [[x|c] e|]; cbn; rewrite ?andb_true_iff, ?uses_spec; naive_solver.
Qed.

Lemma respect_spec o h ls : respect o h ls = true <->
  forall j l t c, ls !! j = Some l -> t ∈ l -> touches t c -> may_use o (h + j) c = true.
Proof.
  revert h. induction ls as [|l ls IH]; intros h; cbn; [naive_solver|].
  rewrite andb_true_iff, IH, forallb_forall. split.
  - intros [H1 H2] [|j] k t c Hk Ht Hc; cbn in Hk.
    + injection Hk as ->. rewrite Nat.add_0_r. apply list_elem_of_In in Ht. specialize (H1 _ Ht).
      rewrite accesses_spec in H1. by apply H1.
    + specialize (H2 j k t c Hk Ht Hc). by rewrite <- Nat.add_succ_comm.
  - intros H. split.
    + intros t Ht. apply accesses_spec. intros c Hc. apply list_elem_of_In in Ht.
      specialize (H 0%nat l t c eq_refl Ht Hc). by rewrite Nat.add_0_r in H.
    + intros j k t c Hk Ht Hc. rewrite Nat.add_succ_comm. by apply (H (S j) k t c).
Qed.

Lemma disjoint_spec ls : disjoint ls = true <-> conflict_free ls.
Proof.
  unfold disjoint. rewrite respect_spec. split.
  - intros H i j l k s t c Hl Hk Hs Ht Hw Hc.
    destruct (own_all_written 0 ls Leaf i l c Hl) as [x Hx]; [by exists s|].
    pose proof (H i l s c Hl Hs (or_introl Hw)) as H1. pose proof (H j k t c Hk Ht Hc) as H2.
    unfold may_use in H1, H2. rewrite Hx in H1, H2. apply Nat.eqb_eq in H1, H2. cbn in *. lia.
  - intros H j l t c Hl Ht Hc. unfold may_use. destruct (sget (own_all 0 ls Leaf) c) as [x|] eqn:E; [|done].
    apply own_all_inv in E as [(i & k & -> & Hk & s & Hs & Hw)|E].
    + apply Nat.eqb_eq. f_equal. by apply (H i j k l s t c).
    + by destruct c.
Qed.

(** ** Every interleaving is the run in order *)

Section sound.
Context {V : Type} (U : ops V).
Implicit Types hs : list (regs V * code).

Lemma run_phases_assign fuel m hs mf i r l e rest :
  run_phases U fuel m hs = Some mf -> hs !! i = Some (r, Assign l e :: rest) ->
  run_phases U fuel (exec U (Assign l e) r m).2 (<[i := ((exec U (Assign l e) r m).1, rest)]> hs) = Some mf.
Proof.
  destruct fuel as [|fuel]; [done|]. cbn [run_phases]. intros Hr Hh.
  destruct (disjoint ((fun h => (phase h.2).1) <$> hs)) eqn:Hd; [|done]. apply disjoint_spec in Hd.
  assert (forall j q k, hs !! j = Some (q, k) -> ((fun h => (phase h.2).1) <$> hs) !! j = Some (phase k).1) as Hp
    by (intros j q k Hk; rewrite list_lookup_fmap; by setoid_rewrite Hk).
  assert ((phase (Assign l e :: rest)).1 = Assign l e :: (phase rest).1) as Eph by (by rewrite phase_assign).
  assert (forall j q k, j <> i -> hs !! j = Some (q, k) -> independent (Assign l e) (phase k).1) as Hi.
  { intros j q k Hj Hk t c Ht. pose proof (Hp _ _ _ Hh) as H1. rewrite Eph in H1. pose proof (Hp _ _ _ Hk) as H2. split; intros Hw Hc.
    - apply Hj. symmetry. eapply (Hd i j _ _ (Assign l e) t c); [done..|left|done|done|done].
    - apply Hj. eapply (Hd j i _ _ t (Assign l e) c); [done..|left|done|done]. }
  assert (disjoint ((fun h => (phase h.2).1) <$> <[i:=((exec U (Assign l e) r m).1, rest)]> hs) = true) as ->.
  { apply disjoint_spec. rewrite list_fmap_insert. cbn [snd]. pose proof (Hp _ _ _ Hh) as H1. rewrite Eph in H1.
    intros j k lj lk s t c Hj Hk Hs Ht Hw Hc.
    assert (forall j lj s, <[i:=(phase rest).1]> ((fun h => (phase h.2).1) <$> hs) !! j = Some lj -> s ∈ lj ->
      exists lj', ((fun h => (phase h.2).1) <$> hs) !! j = Some lj' /\ s ∈ lj') as Hsub.
    { intros j' lj' s' Hj' Hs'. destruct (decide (i = j')) as [<-|Hne].
      - rewrite list_lookup_insert_eq in Hj' by (by eapply lookup_lt_Some). injection Hj' as <-. eexists. split; [exact H1|by right].
      - rewrite list_lookup_insert_ne in Hj' by done. eauto. }
    destruct (Hsub _ _ _ Hj Hs) as (lj' & ? & ?), (Hsub _ _ _ Hk Ht) as (lk' & ? & ?). by eapply (Hd j k lj' lk' s t c). }
  rewrite <- (run_phase_step U hs m i r l e rest Hh); [|intros j q k Hj Hk; eapply Hi; [|done]; lia].
  assert ((fun h => (phase h.2).2) <$> <[i:=((exec U (Assign l e) r m).1, rest)]> hs = (fun h => (phase h.2).2) <$> hs) as ->.
  { rewrite list_fmap_insert. apply list_insert_id. rewrite list_lookup_fmap, Hh. cbn [fmap option_fmap option_map snd]. by rewrite phase_assign. }
  exact Hr.
Qed.

Lemma waiting_cons (h : regs V * code) : waiting h -> exists k, h = (h.1, Barrier :: k).
Proof. destruct h as [r [|s k]]; unfold waiting; cbn; [done|]. intros [= ->]. eauto. Qed.

Lemma run_phase_waiting m hs : Forall waiting hs -> run_phase U m hs = (m, fst <$> hs).
Proof.
  induction 1 as [|h hs Hh Hw IH]; [done|]. destruct (waiting_cons h Hh) as [k ->]. cbn. by rewrite IH.
Qed.

Lemma rests_waiting hs : Forall waiting hs -> (fun h => (phase h.2).2) <$> hs = (fun h => Some (tail h.2)) <$> hs.
Proof. intros Hw. apply list_fmap_ext. intros i h Hh. eapply Forall_lookup_1 in Hw; [|done]. by destruct (waiting_cons h Hw) as [k ->]. Qed.

Lemma run_phases_barrier fuel m hs mf : hs <> [] -> Forall waiting hs ->
  run_phases U (S fuel) m hs = Some mf -> run_phases U fuel m (pass <$> hs) = Some mf.
Proof.
  intros Hne Hw. cbn [run_phases]. destruct (disjoint _); [|done]. rewrite run_phase_waiting, rests_waiting by done.
  destruct hs as [|h hs]; [done|]. replace (forallb _ _) with false by done.
  replace (mapM id ((fun h => Some (tail h.2)) <$> h :: hs)) with (Some ((fun h : regs V * code => tail h.2) <$> h :: hs)).
  - intros Hr. rewrite <- Hr. f_equal. clear. induction (h :: hs) as [|x l IH]; [done|]. cbn. by rewrite IH.
  - clear. induction (h :: hs) as [|x l IH]; [done|]. rewrite !fmap_cons. cbn [mapM]. cbn. by rewrite <- IH.
Qed.

Lemma run_phases_finished fuel m hs mf : Forall (fun h => h.2 = []) hs -> run_phases U fuel m hs = Some mf -> mf = m.
Proof.
  destruct fuel as [|fuel]; [done|]. cbn [run_phases]. intros Hf. destruct (disjoint _); [|done].
  assert (run_phase U m hs = (m, fst <$> hs)) as ->.
  { clear -Hf. induction Hf as [|[r k] hs Hh Hf IH]; [done|]. cbn in *. subst k. cbn. by rewrite IH. }
  replace (forallb _ _) with true; [by intros [= ->]|]. symmetry. apply forallb_forall. intros x Hx.
  apply list_elem_of_In, list_elem_of_fmap in Hx as (h & -> & Hh). rewrite Forall_forall in Hf. by rewrite (Hf h Hh).
Qed.

(** Harts that cannot go on alone are all at the end or all at a barrier. *)
Lemma run_phases_progress fuel m hs mf : run_phases U fuel m hs = Some mf ->
  Forall (fun h => h.2 = []) hs \/ exists s', step U (mkState m hs) s'.
Proof.
  destruct fuel as [|fuel]; [done|]. cbn [run_phases]. destruct (disjoint _); [|done]. destruct (run_phase U m hs) as [m' rs]. intros Hr.
  destruct (decide (Exists (fun h => match h.2 with Assign _ _ :: _ => true | _ => false end = true) hs)) as [He|He].
  { apply Exists_exists in He as ([r k] & Hh & Hk). destruct k as [|[l e|] k]; try done.
    apply list_elem_of_lookup in Hh as [i Hi]. right. eexists. by eapply step_assign. }
  assert (Forall (fun h => h.2 = [] \/ waiting h) hs) as Hf.
  { apply Forall_forall. intros [r [|[l e|] k]] Hh; [by left| |by right]. exfalso. apply He, Exists_exists. by eexists. }
  destruct (forallb _ _) eqn:Ef.
  - left. rewrite Forall_forall in *. intros h Hh. destruct (Hf h Hh) as [|Hw]; [done|]. exfalso. rewrite forallb_forall in Ef.
    destruct h as [r k]. destruct (waiting_cons (r, k) Hw) as [k' [= ->]]. specialize (Ef (Some k')).
    discriminate Ef. apply list_elem_of_In, list_elem_of_fmap. by exists (r, Barrier :: k').
  - right. destruct (mapM id _) as [ls|] eqn:Em; [|done]. exists (mkState m (pass <$> hs)). apply step_barrier.
    + intros Hn. cbn in Hn. by subst hs.
    + cbn [harts]. rewrite Forall_forall in *. intros h Hh. destruct (Hf h Hh) as [E|]; [|done]. exfalso.
      apply mapM_Some_1 in Em. apply list_elem_of_lookup in Hh as [i Hi].
      assert (((fun h => (phase h.2).2) <$> hs) !! i = Some None) as Hn by (rewrite list_lookup_fmap, Hi; cbn; by rewrite E).
      destruct (Forall2_lookup_l _ _ _ _ _ Em Hn) as (y & _ & Hy). done.
Qed.

Definition work (s : state (V := V)) : nat := sum_list_with (fun h => length h.2) (harts s).

Lemma work_insert hs i r k r' k' : hs !! i = Some (r, k) ->
  (sum_list_with (fun h => length h.2) (<[i := (r', k')]> hs) + length k = sum_list_with (fun h : regs V * code => length h.2) hs + length k')%nat.
Proof.
  revert i. induction hs as [|h hs IH]; intros [|i] Hi; try done.
  - injection Hi as ->. cbn. lia.
  - change (<[S i:=?x]> (h :: hs)) with (h :: <[i:=x]> hs). specialize (IH i Hi). cbn [sum_list_with]. lia.
Qed.

Lemma step_work s s' : step U s s' -> (work s' < work s)%nat.
Proof.
  destruct 1 as [s i r l e rest Hi|s Hne Hw]; unfold work; cbn [harts].
  - pose proof (work_insert _ _ _ _ (exec U (Assign l e) r (mem s)).1 rest Hi) as H. cbn [length] in H. lia.
  - destruct Hw as [|h hs Hh Hw]; [done|]. destruct (waiting_cons h Hh) as [k ->]. cbn.
    assert (sum_list_with (fun h => length h.2) (pass <$> hs) <= sum_list_with (fun h : regs V * code => length h.2) hs)%nat; [|cbn in *; lia].
    clear. induction hs as [|[r [|s k]] hs IH]; cbn in *; lia.
Qed.

(** If the run in order succeeds, every run of the machine can go on until all harts have finished,
    finishes within the number of its statements, and then has the memory of the run in order. *)
Theorem run_phases_sound fuel s mf : run_phases U fuel (mem s) (harts s) = Some mf ->
  forall n s', nsteps (step U) n s s' ->
    (n <= work s)%nat /\ (finished s' /\ mem s' = mf \/ exists s'', step U s' s'').
Proof.
  intros Hr n s' Hn. assert (exists fuel, run_phases U fuel (mem s') (harts s') = Some mf) as [fuel' Hr'].
  { revert fuel Hr. induction Hn as [s|n s s1 s' Hst Hn IH]; [eauto|]. intros fuel Hr. destruct Hst as [s i r l e rest Hi|s Hne Hw].
    - by eapply IH, run_phases_assign.
    - destruct fuel as [|fuel]; [done|]. by eapply IH, run_phases_barrier. }
  split.
  - clear -Hn. induction Hn as [s|n s s1 s' Hst Hn IH]; [lia|]. apply step_work in Hst. lia.
  - destruct s' as [m hs]. destruct (run_phases_progress _ _ _ _ Hr') as [Hf|]; [left|by right].
    split; [exact Hf|]. symmetry. by eapply run_phases_finished.
Qed.
End sound.

(** ** Change of values *)

(** Values of one kind are mapped to values of another; so are whole runs. *)
Section change.
Context {V W : Type} (U : ops V) (X : ops W) (f : V -> W).
Context (f_zero : f (vzero U) = vzero X) (f_add : forall x y, f (vadd U x y) = vadd X (f x) (f y)).
Context (f_mul : forall x y, f (vmul U x y) = vmul X (f x) (f y)).
Context (f_cell : forall c, f (vcell U c) = vcell X c) (f_reg : forall x, f (vreg U x) = vreg X x).

Definition map_hart (h : regs V * code) : regs W * code := (tmap f h.1, h.2).

Lemma rd_change m c : rd X (smap f m) c = f (rd U m c).
Proof. unfold rd. rewrite sget_smap. destruct (sget m c); [done|]. cbn. by rewrite f_cell. Qed.

Lemma eval_change r m e : eval X (tmap f r) (smap f m) e = f (eval U r m e).
Proof.
  induction e as [[x|c]| |e IHe g IHg|e IHe g IHg]; cbn [eval].
  - unfold rg. rewrite tget_tmap. destruct (tget x r); cbn; [done|by rewrite f_reg].
  - apply rd_change.
  - done.
  - by rewrite IHe, IHg, f_add.
  - by rewrite IHe, IHg, f_mul.
Qed.

Lemma exec_change s r m : exec X s (tmap f r) (smap f m) = (tmap f (exec U s r m).1, smap f (exec U s r m).2).
Proof.
  destruct s as [[x|c] e|]; cbn [exec fst snd]; [|by rewrite eval_change, smap_sset|done]. by rewrite eval_change, tmap_tset.
Qed.

Lemma exec_all_change l r m : exec_all X l (tmap f r) (smap f m) = (tmap f (exec_all U l r m).1, smap f (exec_all U l r m).2).
Proof.
  revert r m. induction l as [|s l IH]; intros r m; [done|]. cbn [exec_all]. rewrite exec_change.
  destruct (exec U s r m) as [r' m']. apply IH.
Qed.

Lemma run_phase_change m (hs : list (regs V * code)) : run_phase X (smap f m) (map_hart <$> hs) =
  (smap f (run_phase U m hs).1, tmap f <$> (run_phase U m hs).2).
Proof.
  revert m. induction hs as [|[r l] hs IH]; intros m; [done|]. rewrite fmap_cons. cbn [run_phase map_hart fst snd].
  rewrite exec_all_change. destruct (exec_all U (phase l).1 r m) as [r' m']. cbn [fst snd]. rewrite IH.
  by destruct (run_phase U m' hs).
Qed.

Lemma run_phases_change fuel m (hs : list (regs V * code)) : run_phases X fuel (smap f m) (map_hart <$> hs) = smap f <$> run_phases U fuel m hs.
Proof.
  revert m hs. induction fuel as [|fuel IH]; intros m hs; [done|]. cbn [run_phases].
  assert (forall A (g : code -> A), (fun h : regs W * code => g h.2) <$> (map_hart <$> hs) = (fun h : regs V * code => g h.2) <$> hs) as Hs
    by (intros A' g; rewrite <- list_fmap_compose; done).
  rewrite (Hs _ (fun l => (phase l).1)), (Hs _ (fun l => (phase l).2)). destruct (disjoint _); [|done].
  rewrite run_phase_change. destruct (run_phase U m hs) as [m' rs]. cbn [fst snd]. destruct (forallb _ _); [done|].
  destruct (mapM id _) as [ls|]; [|done]. rewrite <- IH. f_equal.
  revert ls. induction rs as [|r rs IHr]; intros [|l ls]; try done. cbn. f_equal. apply IHr.
Qed.
End change.

(** ** Integers and formal sums *)

Definition int_ops (init : cell -> Z) : ops Z :=
  mkOps 0 (fun x y => s32 (x + y)) (fun x y => s32 (x * y)) init (fun x => init (Cell 7 (Zpos x))).

(** A sum of products of cells, by the values they have at the start; [C] is zero then.  The value
    of a variable that is read before it is written is that of a cell of its own. *)
Definition sym := list (list cell).
Definition sadd (p q : sym) : sym := rev_append q p.
Definition smul (p q : sym) : sym := flat_map (fun x => map (fun y => x ++ y) q) p.
Definition sym_ops : ops sym :=
  mkOps [] sadd smul (fun c => match c with Cell 3 _ => [] | _ => [[c]] end) (fun x => [[Cell 7 (Zpos x)]]).

Section values.
Context (init : cell -> Z) (int_init : forall c, s32 (init c) = init c) (zero_C : forall i, init (Cell 3 i) = 0).

Definition mono_val (m : list cell) : Z := foldr (fun c p => init c * p) 1 m.
Definition poly_val (p : sym) : Z := foldr (fun m s => mono_val m + s) 0 p.
Definition sym_val (p : sym) : Z := s32 (poly_val p).

Lemma poly_val_app p q : poly_val (p ++ q) = poly_val p + poly_val q.
Proof. induction p as [|m p IH]; [done|]. cbn. unfold poly_val in *. lia. Qed.

Lemma poly_val_rev_append p q : poly_val (rev_append p q) = poly_val p + poly_val q.
Proof. revert q. induction p as [|m p IH]; intros q; [done|]. cbn [rev_append]. rewrite IH. cbn. unfold poly_val. lia. Qed.

Lemma mono_val_app m n : mono_val (m ++ n) = mono_val m * mono_val n.
Proof. induction m as [|c m IH]; cbn; unfold mono_val in *; [lia|]. rewrite IH. ring. Qed.

Lemma poly_val_smul p q : poly_val (smul p q) = poly_val p * poly_val q.
Proof.
  induction p as [|m p IH]; [done|]. cbn [smul flat_map]. rewrite poly_val_app. unfold smul in IH. rewrite IH.
  assert (poly_val (map (fun y => m ++ y) q) = mono_val m * poly_val q) as ->; [|cbn; unfold poly_val; ring].
  clear IH. induction q as [|n q IHq]; cbn; [lia|]. unfold poly_val in *. rewrite IHq, mono_val_app. ring.
Qed.

Lemma sym_val_add p q : sym_val (sadd p q) = s32 (sym_val p + sym_val q).
Proof. unfold sym_val, sadd. rewrite poly_val_rev_append, wrapS_add by done. f_equal. lia. Qed.

Lemma sym_val_mul p q : sym_val (smul p q) = s32 (sym_val p * sym_val q).
Proof.
  unfold sym_val. rewrite poly_val_smul, wrapS_mul_l, Z.mul_comm by done.
  by rewrite (Z.mul_comm (poly_val p)), wrapS_mul_l.
Qed.

Lemma sym_val_cell c : sym_val (vcell sym_ops c) = init c.
Proof.
  assert (sym_val [[c]] = init c) as H by (unfold sym_val; cbn; rewrite <- (int_init c) at 2; f_equal; lia).
  destruct c as [[[a|a|]|a|] i]; done.
Qed.

Lemma sym_val_reg x : sym_val (vreg sym_ops x) = init (Cell 7 (Zpos x)).
Proof. unfold sym_val. cbn. rewrite <- (int_init (Cell 7 _)) at 2. f_equal. lia. Qed.
End values.

(** ** The checker *)

(** A kernel: the body as a function of [coreid], [ncores] and [lda], and the size of its private
    arrays, as an exponent of two; [A], [B], [C] and the shared arrays have 2^10 elements. *)
Record kernel := mkKernel { body : Z -> Z -> Z -> code; local_bits : nat }.

Definition start {V} (k : kernel) (ncores : Z) : state (V := V) :=
  mkState Leaf ((fun h => (Leaf, body k h ncores 32)) <$> seqZ 0 ncores).

Fixpoint fits (bits : nat) (p : positive) : bool :=
  match bits, p with
  | O, _ => false
  | S _, 1%positive => true
  | S bits, (p~0 | p~1)%positive => fits bits p
  end.
Definition in_bounds (local : nat) (c : cell) : bool :=
  let 'Cell a i := c in
  match i with
  | Z0 => true
  | Zpos p => fits (if (a <? 8)%positive then 10 else local) p
  | Zneg _ => false
  end.

(** The sum [l] is that of the [n] products of [A[x]] and [B[y]], [A[x - 1]] and [B[y - 32]], and so on. *)
Definition is_cell (a : positive) (x : Z) (c : cell) : bool := let 'Cell b i := c in Pos.eqb b a && (i =? x).
Definition is_product (x y : Z) (m : list cell) : bool :=
  match m with
  | [c; d] => (is_cell 1 x c && is_cell 2 y d) || (is_cell 2 y c && is_cell 1 x d)
  | _ => false
  end.
Fixpoint take_product (x y : Z) (l : sym) : option sym :=
  match l with
  | [] => None
  | m :: l =>
      if is_product x y m then Some l
      else match take_product x y l with Some l => Some (m :: l) | None => None end
  end.
Fixpoint is_dot (n : nat) (x y : Z) (l : sym) : bool :=
  match n with
  | O => match l with [] => true | _ => false end
  | S n => match take_product x y l with Some l => is_dot n (x - 1) (y - 32) l | None => false end
  end.

Definition check_result (m : memory sym) : bool :=
  forallb (fun j => forallb (fun i => is_dot 32 (j * 32 + 31) (31 * 32 + i) (rd sym_ops m (Cell 3 (j * 32 + i)))) (seqZ 0 32)) (seqZ 0 32).
Definition barriers (l : code) : nat := length (List.filter (fun s => match s with Barrier => true | _ => false end) l).
Definition check (k : kernel) (ncores : Z) : bool :=
  let hs := harts (start (V := sym) k ncores) in
  forallb (fun h => forallb (fun s => accesses s (in_bounds (local_bits k))) h.2) hs &&
  match run_phases sym_ops (S (match hs with [] => 0 | h :: _ => barriers h.2 end)) Leaf hs with
  | Some m => check_result m
  | None => false
  end.

Section check.
Context (init : cell -> Z) (int_init : forall c, s32 (init c) = init c) (zero_C : forall i, init (Cell 3 i) = 0).

(** The bounds are those of the array. *)
Lemma in_bounds_spec local a i : in_bounds local (Cell a i) = true <-> 0 <= i < 2 ^ Z.of_nat (if (a <? 8)%positive then 10 else local).
Proof.
  cbn [in_bounds]. generalize (if (a <? 8)%positive then 10%nat else local). intros bits. pose proof (Z.pow_pos_nonneg 2 (Z.of_nat bits)).
  destruct i as [|p|p]; [intuition lia| |intuition lia]. clear H. revert p. induction bits as [|bits IH]; intros p; [cbn; split; [done|lia]|].
  rewrite Nat2Z.inj_succ, Z.pow_succ_r by lia. destruct p as [p|p|]; cbn [fits]; rewrite ?IH; lia.
Qed.

Lemma is_cell_spec a x c : is_cell a x c = true -> c = Cell a x.
Proof. destruct c as [b i]. cbn. rewrite andb_true_iff, Pos.eqb_eq, Z.eqb_eq. by intros [-> ->]. Qed.

Lemma is_product_val x y m : is_product x y m = true -> mono_val init m = init (Cell 1 x) * init (Cell 2 y).
Proof.
  destruct m as [|c [|d [|]]]; try done. cbn [is_product]. rewrite orb_true_iff, !andb_true_iff.
  intros [[->%is_cell_spec ->%is_cell_spec]|[->%is_cell_spec ->%is_cell_spec]]; cbn; lia.
Qed.

Lemma take_product_val x y l l' : take_product x y l = Some l' ->
  poly_val init l = init (Cell 1 x) * init (Cell 2 y) + poly_val init l'.
Proof.
  revert l'. induction l as [|m l IH]; intros l'; [done|]. cbn [take_product]. destruct (is_product x y m) eqn:E.
  - intros [= <-]. apply is_product_val in E. cbn. unfold poly_val. lia.
  - destruct (take_product x y l) as [l1|]; [|done]. intros [= <-]. specialize (IH l1 eq_refl).
    cbn. unfold poly_val in *. lia.
Qed.

Lemma is_dot_val n x y l : is_dot n x y l = true ->
  poly_val init l = sum (seqZ 0 (Z.of_nat n)) (fun q => init (Cell 1 (x - q)) * init (Cell 2 (y - 32 * q))).
Proof.
  revert x y l. induction n as [|n IH]; intros x y l; cbn [is_dot]; [by destruct l|].
  destruct (take_product x y l) as [l'|] eqn:E; [|done]. intros H. rewrite (take_product_val _ _ _ _ E), (IH _ _ _ H).
  rewrite (seqZ_cons 0 (Z.of_nat (S n))) by lia. rewrite sum_cons. cbn [tadd Z_arith]. f_equal; [by rewrite Z.sub_0_r, Z.mul_0_r, Z.sub_0_r|].
  replace (Z.pred (Z.of_nat (S n))) with (Z.of_nat n) by lia. change (Z.succ 0) with (1 + 0). rewrite <- (fmap_add_seqZ 1 0 (Z.of_nat n)), sum_fmap. apply sum_ext.
  intros q _. by replace (x - (1 + q)) with (x - 1 - q) by lia; replace (y - 32 * (1 + q)) with (y - 32 - 32 * q) by lia.
Qed.

Lemma check_result_val m j i : check_result m = true -> 0 <= j < 32 -> 0 <= i < 32 ->
  sym_val init (rd sym_ops m (Cell 3 (j * 32 + i))) =
  s32 (sum (seqZ 0 32) (fun k => init (Cell 1 (j * 32 + k)) * init (Cell 2 (k * 32 + i)))).
Proof.
  intros Hc Hj Hi. unfold check_result in Hc. rewrite forallb_forall in Hc. specialize (Hc j).
  rewrite <- list_elem_of_In, elem_of_seqZ, forallb_forall in Hc. specialize (Hc ltac:(lia) i).
  rewrite <- list_elem_of_In, elem_of_seqZ in Hc. specialize (Hc ltac:(lia)). apply is_dot_val in Hc.
  unfold sym_val. f_equal. rewrite Hc. change (Z.of_nat 32) with 32.
  set (f := fun k => init (Cell 1 (j * 32 + k)) * init (Cell 2 (k * 32 + i))).
  rewrite (sum_ext _ _ (fun q => f (31 - q))).
  - clearbody f. rewrite <- (sum_fmap (seqZ 0 32) (fun q => 31 - q) f).
    let l := eval vm_compute in ((fun q => 31 - q) <$> seqZ 0 32) in change ((fun q => 31 - q) <$> seqZ 0 32) with l.
    let l := eval vm_compute in (seqZ 0 32) in change (seqZ 0 32) with l. cbn. lia.
  - intros q _. unfold f. by replace (j * 32 + (31 - q)) with (j * 32 + 31 - q) by lia;
      replace ((31 - q) * 32 + i) with (31 * 32 + i - 32 * q) by lia.
Qed.

(** What the checker accepts multiplies, on all interleavings. *)
Lemma check_sound k ncores : check k ncores = true ->
  (forall h s c, 0 <= h < ncores -> s ∈ body k h ncores 32 -> touches s c -> in_bounds (local_bits k) c = true) /\
  forall n s, nsteps (step (int_ops init)) n (start k ncores) s ->
    (n <= work (start (V := Z) k ncores))%nat /\
    ((finished s /\ forall j i, 0 <= j < 32 -> 0 <= i < 32 ->
        rd (int_ops init) (mem s) (Cell 3 (j * 32 + i)) =
        s32 (sum (seqZ 0 32) (fun k => init (Cell 1 (j * 32 + k)) * init (Cell 2 (k * 32 + i))))) \/
     exists s', step (int_ops init) s s').
Proof.
  unfold check. rewrite andb_true_iff. intros [Hb Hr]. split.
  - intros h s c Hh Hs Ht. rewrite forallb_forall in Hb. specialize (Hb (Leaf, body k h ncores 32)).
    rewrite <- list_elem_of_In in Hb. cbn [snd] in Hb. rewrite forallb_forall in Hb. specialize (Hb ltac:(apply list_elem_of_fmap; exists h; split; [done|]; apply elem_of_seqZ; lia) s).
    rewrite <- list_elem_of_In, accesses_spec in Hb. by apply Hb.
  - destruct (run_phases sym_ops _ Leaf _) as [m|] eqn:E; [|done].
    pose proof (run_phases_change sym_ops (int_ops init) (sym_val init) eq_refl (sym_val_add init) (sym_val_mul init)
      (sym_val_cell init int_init zero_C) (sym_val_reg init int_init)) as Hch.
    intros n s Hn. pose proof (Hch (S (match harts (start (V := sym) k ncores) with [] => 0 | h :: _ => barriers h.2 end)) Leaf
      (harts (start (V := sym) k ncores))) as Hz. rewrite E in Hz. cbn [fmap option_fmap option_map] in Hz.
    change (smap (sym_val init) Leaf) with (Leaf (V := trie Z)) in Hz.
    assert (map_hart (sym_val init) <$> harts (start (V := sym) k ncores) = harts (start k ncores)) as H2.
    { unfold start. cbn [harts]. rewrite <- list_fmap_compose. apply list_fmap_ext. intros i h _. done. }
    rewrite H2 in Hz. destruct (run_phases_sound (int_ops init) _ (start k ncores) _ Hz n s Hn) as [Hle [[Hf Hm]|Hs]]; (split; [done|]); [left|by right].
    split; [done|]. intros j i Hj Hi. rewrite Hm.
    rewrite (rd_change sym_ops (int_ops init) (sym_val init) (sym_val_cell init int_init zero_C)). by apply check_result_val.
Qed.
End check.
