(* ===== verification/MtKernels.v ===== *)
(** * Matrix kernels for several harts: the kernels

    One definition per file of [riscv-tests/mt]: the code that hart [coreid] of [ncores] runs on
    matrices of [lda] rows.  Loops that the source has unrolled by hand are [unrolled] here, with the
    assignments in the same order; local variables are numbered ([va], [vb], [vc] for elements of the
    matrices [A], [B] and [C]), and thread-local arrays that are only used with constant indices are
    variables too.  Products in indices have the constant factor first ([lda * j] for [j*lda]).  The
    files fix the dimension 32 in many places. *)
From S2P Require Import Prelude Matmul MtLang.
Local Open Scope list_scope.
Local Open Scope Z_scope.
Local Open Scope mt_scope.

Definition va (n : Z) : lval := var n.
Definition vb (n : Z) : lval := var (32 + n).
Definition vc (n : Z) : lval := var (64 + n).
Definition unrolled (n : Z) (f : Z -> code) : code := loop (seqZ 0 n) f.
Definition rows_of (coreid ncores lda step : Z) : list Z := steps (coreid * (lda / ncores)) ((coreid + 1) * (lda / ncores)) step.
Definition dot4 (f g : Z -> expr) : expr := f 0 ⊗ g 0 ⊕ f 1 ⊗ g 1 ⊕ f 2 ⊗ g 2 ⊕ f 3 ⊗ g 3.

Definition ad_matmul (coreid ncores lda : Z) : code :=
  loop (rows_of coreid ncores lda 1) (fun j =>
    let j32 := Z.shiftl j 5 in
    loop (steps 0 32 2) (fun k => begin_ [
      va 0 ≔ A (k + j32); va 1 ≔ A (k + 1 + j32);
      loop (steps 0 32 4) (fun i => unrolled 4 (fun u => begin_ [
        C (j32 + (i + u)) +≔ va 0 ⊗ B (Z.shiftl k 5 + (i + u));
        C (j32 + (i + u)) +≔ va 1 ⊗ B (Z.shiftl k 5 + 32 + (i + u))]));
      barrier])).

(** The transposed copy of [B], the columns of one hart at a time. *)
Definition transpose_shared (coreid ncores lda : Z) : code :=
  loop (steps 0 lda 1) (fun k => begin_ [
    loop (rows_of coreid ncores lda 1) (fun i => shared 0 (lda * i + k) ≔ B (lda * k + i));
    barrier]).

Definition ae_matmul (coreid ncores lda : Z) : code := begin_ [
  transpose_shared coreid ncores lda;
  loop (steps 0 lda 4) (fun i => loop (rows_of coreid ncores lda 1) (fun j => begin_ [
    unrolled 4 (fun v => vc v ≔ EZero);
    loop (steps 0 lda 8) (fun k => begin_ [
      unrolled 8 (fun u => va u ≔ A (lda * j + k + u));
      unrolled 4 (fun v => unrolled 8 (fun u => vc v +≔ va u ⊗ shared 0 (lda * (i + v) + (k + u))))]);
    unrolled 4 (fun v => C (i + v + lda * j) ≔ vc v);
    barrier]))].

(** Two rows of the result are summed in private arrays of 32 elements, set to zero at first. *)
Definition temp_mat (h i : Z) : lval := private h 0 i.
Definition temp_mat2 (h i : Z) : lval := private h 1 i.
Definition temps_zero (h : Z) : code := begin_ [
  unrolled 32 (fun k => temp_mat h k ≔ EZero); unrolled 32 (fun k => temp_mat2 h k ≔ EZero)].

Definition af_matmul (coreid ncores lda : Z) : code := begin_ [
  temps_zero coreid;
  loop (steps (lda * coreid / ncores) (lda * (1 + coreid) / ncores) 2) (fun l =>
    let row := 32 * l in
    let row2 := 32 * (l + 1) in begin_ [
    loop (steps 0 lda 4) (fun i => begin_ [
      unrolled 4 (fun u => va u ≔ A (row + i + u));
      unrolled 4 (fun u => va (4 + u) ≔ A (row2 + i + u));
      unrolled 4 (fun u => vb u ≔ B (lda * (i + u)));
      loop (steps 0 lda 4) (fun j => begin_ [
        temp_mat coreid j +≔ dot4 (fun u => va u) (fun u => vb u);
        loop (steps 1 4 1) (fun w => temp_mat coreid (j + w) +≔ dot4 (fun u => va u) (fun u => B (lda * (i + u) + j + w)));
        temp_mat2 coreid j +≔ dot4 (fun u => va (4 + u)) (fun u => vb u);
        loop (steps 1 4 1) (fun w => temp_mat2 coreid (j + w) +≔ dot4 (fun u => va (4 + u)) (fun u => B (lda * (i + u) + j + w)));
        unrolled 4 (fun u => vb u ≔ B (lda * (i + u) + j + 4))])]);
    loop (steps 0 lda 1) (fun k => begin_ [
      C (row + k) ≔ temp_mat coreid k; temp_mat coreid k ≔ EZero;
      C (row2 + k) ≔ temp_mat2 coreid k; temp_mat2 coreid k ≔ EZero])])].

(** A product of four elements of a row of [A] with four of a column of [B], added to an element of [C]. *)
Definition ag_sum (lda j k : Z) (d : Z -> lval) (dst : lval) : code := begin_ [
  vc 0 ≔ A (lda * j + k) ⊗ d 0;
  loop (steps 1 4 1) (fun u => vc 0 +≔ A (lda * j + k + u) ⊗ d u);
  dst +≔ vc 0].
Definition ag_matmul (coreid ncores lda : Z) : code :=
  loop (steps 0 lda 2) (fun i => loop (steps 0 lda 4) (fun k => begin_ [
    unrolled 4 (fun u => begin_ [vb u ≔ B (lda * (k + u) + i); vb (4 + u) ≔ B (lda * (k + u) + i + 1)]);
    loop (rows_of coreid ncores lda 4) (fun j => unrolled 4 (fun v => begin_ [
      ag_sum lda (j + v) k (fun u => vb u) (C (lda * (j + v) + i));
      ag_sum lda (j + v) k (fun u => vb (4 + u)) (C (lda * (j + v) + i + 1))]));
    barrier])).

(** Four columns of the result at a time, over the given order of the inner index. *)
Definition four_columns (ks : list Z) (lda j i : Z) : code := begin_ [
  unrolled 4 (fun u => vc u ≔ EZero);
  loop ks (fun k => unrolled 4 (fun u => vc u +≔ A (lda * j + k) ⊗ B (lda * k + i + u)));
  unrolled 4 (fun u => C (lda * j + i + u) ≔ vc u)].
Definition ai_matmul (coreid ncores lda : Z) : code := begin_ [
  barrier;
  loop (steps (lda * coreid / ncores) (lda * coreid / ncores + lda / ncores) 1) (fun j =>
    loop (steps 0 lda 4) (fun i => four_columns (steps 0 lda 1) lda j i))].

Definition ak_matmul (coreid ncores lda : Z) : code :=
  let bsize := 16 in
  loop (steps (bsize * coreid) lda (bsize * ncores)) (fun jj => loop (steps 0 lda bsize) (fun ii =>
    loop (steps jj (Z.min lda (jj + bsize)) 1) (fun j => loop (steps ii (Z.min lda (ii + bsize)) 8) (fun i => begin_ [
      unrolled 8 (fun u => vc u ≔ C (i + lda * j + u));
      loop (steps 0 lda 4) (fun k => loop (steps 0 4 1) (fun x => begin_ [
        va 0 ≔ A (lda * j + k + x);
        unrolled 8 (fun u => vb u ≔ B (lda * (k + x) + i + u));
        unrolled 8 (fun u => vc u +≔ va 0 ⊗ vb u)]));
      unrolled 8 (fun u => C (i + lda * j + u) ≔ vc u)])))).

(** Sixteen columns of a row, from [base] on. *)
Definition sixteen (first : Z -> expr) (lda base j : Z) : code := begin_ [
  unrolled 16 (fun u => vc u ≔ first (base + u + lda * j));
  loop (steps 0 32 1) (fun k => unrolled 16 (fun u => vc u +≔ A (lda * j + k) ⊗ B (base + u + lda * k)));
  unrolled 16 (fun u => C (base + u + lda * j) ≔ vc u)].
Definition al_matmul (coreid ncores lda : Z) : code :=
  when_ (coreid <=? 1) (begin_ [
    when_ (coreid =? 0) (loop (steps 0 32 1) (sixteen C lda 0));
    when_ ((coreid =? 1) || (ncores =? 1)) (loop (steps 0 32 1) (sixteen C lda 16))]).

(** Four elements of two rows of [A], times four rows of [B]. *)
Definition two_rows (h row row2 i : Z) : code := begin_ [
  unrolled 4 (fun u => va u ≔ A (row + i + u));
  unrolled 4 (fun u => va (4 + u) ≔ A (row2 + i + u));
  loop (steps 0 32 4) (fun j => begin_ [
    unrolled 4 (fun w => temp_mat h (j + w) +≔ dot4 (fun u => va u) (fun u => B (32 * (i + u) + j + w)));
    unrolled 4 (fun w => temp_mat2 h (j + w) +≔ dot4 (fun u => va (4 + u)) (fun u => B (32 * (i + u) + j + w)))])].
Definition am_matmul (coreid ncores lda : Z) : code := begin_ [
  temps_zero coreid;
  loop (steps (32 * coreid / ncores) (32 * (1 + coreid) / ncores) 2) (fun l => begin_ [
    loop (steps 0 lda 4) (two_rows coreid (32 * l) (32 * (l + 1)));
    loop (steps 0 32 1) (fun k => begin_ [
      C (32 * l + k) ≔ temp_mat coreid k; C (32 * (l + 1) + k) ≔ temp_mat2 coreid k;
      temp_mat coreid k ≔ EZero; temp_mat2 coreid k ≔ EZero])])].

Definition an_matmul (coreid ncores lda : Z) : code :=
  let limit := lda / ncores in
  loop (steps (coreid * limit) ((coreid + 1) * limit) 1) (fun j => loop (steps 0 lda 1) (fun k => begin_ [
    va 0 ≔ A (lda * j + k);
    loop (steps 0 lda 1) (fun i => C (i + lda * j) +≔ va 0 ⊗ B (lda * k + i));
    barrier])).

Definition ap_matmul (coreid ncores lda : Z) : code :=
  let block := lda / ncores in
  let start := block * coreid in
  loop (steps start (start + block) 1) (fun j => loop (steps 0 lda 1) (fun k =>
    loop (steps 0 lda 1) (fun i => C (i + lda * j) +≔ A (lda * j + k) ⊗ B (lda * k + i)))).

Definition aq_matmul (coreid ncores lda : Z) : code :=
  loop (steps coreid lda (ncores * 2)) (fun i => loop (steps 0 lda 1) (fun j => loop (steps 0 lda 1) (fun k => begin_ [
    va 0 ≔ A (lda * j + k); vb 0 ≔ B (lda * k + i); vb 1 ≔ B (lda * k + i + ncores);
    C (i + lda * j) +≔ va 0 ⊗ vb 0;
    C (i + ncores + lda * j) +≔ va 0 ⊗ vb 1]))).

Definition ar_matmul (coreid ncores lda : Z) : code :=
  let B_t := private coreid 0 in begin_ [
  loop (steps 0 lda 1) (fun x => loop (steps 0 lda 1) (fun y => B_t (lda * y + x) ≔ B (lda * x + y)));
  loop (steps (coreid * (lda / ncores)) (Z.min ((coreid + 1) * (lda / ncores)) lda) 1) (fun i =>
    loop (steps 0 lda 1) (fun j => loop (steps 0 lda 1) (fun k => C (lda * i + j) +≔ A (lda * i + k) ⊗ B_t (lda * j + k))))].

Definition at_matmul (coreid ncores lda : Z) : code :=
  let bTrans := private coreid 0 in begin_ [
  loop (steps 0 32 1) (fun counti => loop (steps 0 32 1) (fun countj => bTrans (counti + lda * countj) ≔ B (countj + lda * counti)));
  loop (steps 0 lda 1) (fun j => loop (steps (lda * coreid / ncores) (lda * (coreid + 1) / ncores) 8) (fun i =>
    loop (steps i (i + 8) 1) (fun iTemp => loop (steps 0 lda 16) (fun k => unrolled 16 (fun u =>
      C (lda * j + iTemp) +≔ A (lda * j + k + u) ⊗ bTrans (lda * iTemp + k + u))))))].

(** A row of the result from blocks of eight by eight: the sum of a block is added to [C]. *)
Definition av_row (lda j : Z) : code :=
  loop (steps 0 4 1) (fun m => begin_ [
    unrolled 8 (fun u => va u ≔ A (lda * j + u + 8 * m));
    loop (steps 0 4 1) (fun n => begin_ [
      unrolled 8 (fun v => vc v ≔ va 0 ⊗ B (lda * (0 + 8 * m) + v + 8 * n));
      loop (steps 1 8 1) (fun u => unrolled 8 (fun v => vc v +≔ va u ⊗ B (lda * (u + 8 * m) + v + 8 * n)));
      unrolled 8 (fun v => C (v + 8 * n + lda * j) +≔ vc v)])]).
Definition av_matmul (coreid ncores lda : Z) : code := begin_ [
  when_ ((coreid =? 1) || (ncores =? 1)) (loop (steps 16 32 1) (av_row lda));
  when_ (coreid =? 0) (loop (steps 0 16 1) (av_row lda))].

(** Eight elements of the result from index [j] on, with the matrices read from [a] and [b]. *)
Definition ay_eight (a b : Z -> lval) (lda j : Z) : code :=
  let jToRow := Z.shiftl (Z.shiftr j 5) 5 in
  let jToCol := Z.rem j 32 in begin_ [
  unrolled 8 (fun u => vc u ≔ EZero);
  loop (steps 0 lda 2) (fun i => begin_ [
    va 0 ≔ a (i + jToRow); va 1 ≔ a (i + 1 + jToRow);
    unrolled 8 (fun u => vc u +≔ va 0 ⊗ b (jToCol + u + Z.shiftl i 5));
    unrolled 8 (fun u => vc u +≔ va 1 ⊗ b (jToCol + u + Z.shiftl (i + 1) 5))]);
  unrolled 8 (fun u => C (j + u) ≔ vc u)].
Definition ay_indices (coreid ncores : Z) : list Z :=
  steps (Z.shiftl coreid 9) (Z.shiftl (if ncores =? 1 then 2 else coreid + 1) 9) 8.
Definition ay_matmul (coreid ncores lda : Z) : code :=
  when_ (coreid <=? 1) (loop (ay_indices coreid ncores) (ay_eight A B lda)).

Definition az_matmul (coreid ncores lda : Z) : code :=
  when_ (coreid <=? 1) (loop (ay_indices coreid ncores) (fun j =>
    let jToRow := Z.shiftl (Z.shiftr j 5) 5 in
    let jToCol := Z.rem j 32 in begin_ [
    unrolled 8 (fun u => vc u ≔ EZero);
    loop (steps 0 lda 2) (fun i =>
      let iToRow := Z.shiftl i 5 in begin_ [
      va 0 ≔ A (i + jToRow); va 1 ≔ A (i + 1 + jToRow);
      unrolled 8 (fun u => vc u +≔ va 0 ⊗ B (jToCol + u + iToRow));
      unrolled 8 (fun u => vc u +≔ va 1 ⊗ B (jToCol + u + (iToRow + 32)))]);
    unrolled 8 (fun u => C (j + u) ≔ vc u)])).

Definition bb_matmul (coreid ncores lda : Z) : code :=
  loop (steps 0 lda 2) (fun i => loop (rows_of coreid ncores lda 4) (fun j => begin_ [
    unrolled 4 (fun r => begin_ [vc (2 * r) ≔ EZero; vc (2 * r + 1) ≔ EZero]);
    loop (steps 0 lda 1) (fun k => begin_ [
      unrolled 4 (fun r => va r ≔ A (lda * j + k + lda * r));
      unrolled 2 (fun u => vb u ≔ B (lda * k + i + u));
      unrolled 4 (fun r => begin_ [vc (2 * r) +≔ va r ⊗ vb 0; vc (2 * r + 1) +≔ va r ⊗ vb 1])]);
    unrolled 4 (fun r => begin_ [C (i + lda * j + 0 + lda * r) ≔ vc (2 * r); C (i + lda * j + 1 + lda * r) ≔ vc (2 * r + 1)])])).

(** The registers [c[ri][rj]] of the blocked kernels, and their loads and stores. *)
Definition reg_c (ri rj : Z) : lval := vc (2 * ri + rj).
Definition load_block (i j : Z) : code :=
  loop (steps 0 8 1) (fun ri => loop (steps 0 2 1) (fun rj => reg_c ri rj ≔ C (32 * j + (i + ri + 32 * rj)))).
Definition store_block (i j : Z) : code :=
  loop (steps 0 8 1) (fun ri => loop (steps 0 2 1) (fun rj => C (32 * j + (i + ri + 32 * rj)) ≔ reg_c ri rj)).
Definition first_row (coreid : Z) : Z := coreid * (32 / 2).
Definition end_row (coreid : Z) : Z := if coreid =? 2 - 1 then 32 else (coreid + 1) * (32 / 2).
(** What the blocked kernels do for other sizes or numbers of harts. *)
Definition naive_on_first (coreid lda : Z) : code :=
  when_ (negb (0 <? coreid)) (loop (steps 0 lda 1) (fun i => loop (steps 0 lda 1) (fun j => loop (steps 0 lda 1) (fun k =>
    C (i + lda * j) +≔ A (lda * j + k) ⊗ B (lda * k + i))))).

Definition bc_matmul (coreid ncores lda : Z) : code :=
  if (ncores =? 2) && (lda =? 32) then
    loop (steps (first_row coreid) (end_row coreid) 16) (fun jj => loop (steps 0 32 16) (fun kk =>
      loop (steps jj (Z.min (end_row coreid) (jj + 16)) 2) (fun j => loop (steps 0 32 8) (fun i => begin_ [
        load_block i j;
        loop (steps kk (Z.min 32 (kk + 16)) 1) (fun k => begin_ [
          va 0 ≔ A (32 * j + k); va 1 ≔ A (32 * j + (k + 32));
          unrolled 8 (fun r => vb r ≔ B (i + (32 * k + r)));
          unrolled 8 (fun r => begin_ [reg_c r 0 +≔ vb r ⊗ va 0; reg_c r 1 +≔ vb r ⊗ va 1])]);
        store_block i j]))))
  else naive_on_first coreid lda.

Definition bf_matmul (coreid ncores lda : Z) : code := begin_ [
  when_ (coreid =? 0) (loop (steps 0 32 1) (sixteen (fun _ => EZero) lda 0));
  when_ ((coreid =? 1) || (ncores =? 1)) (loop (steps 0 32 1) (sixteen (fun _ => EZero) lda 16))].

(** The loop of [bh] that moves [iB0] and [iB1 = iB0 + lda] along with [k]. *)
Fixpoint loop_from (l : list Z) (iB0 stride : Z) (f : Z -> Z -> code) : code :=
  match l with [] => [] | k :: l => f k iB0 ++ loop_from l (iB0 + stride) stride f end.
Definition bh_matmul (coreid ncores lda : Z) : code :=
  when_ (coreid <=? 1) (begin_ [
    when_ (coreid =? 0) (loop (steps 0 2 1) (fun m => loop (steps 0 (lda / 2) 1) (fun j => loop (steps 0 lda 8) (fun i => begin_ [
      unrolled 8 (fun u => vc u ≔ C (i + lda * j + u));
      loop_from (steps (lda * m / 2) (lda * (m + 1) / 2) 2) (m * lda * lda / 2 + i) (lda * 2) (fun k iB0 => begin_ [
        va 0 ≔ A (lda * j + k); va 1 ≔ A (lda * j + k + 1);
        unrolled 8 (fun u => vc u +≔ va 0 ⊗ B (iB0 + u) ⊕ va 1 ⊗ B (iB0 + lda + u))]);
      unrolled 8 (fun u => C (i + lda * j + u) ≔ vc u)]))));
    when_ ((coreid =? 1) || (ncores =? 1)) (loop (downs 2 1 1) (fun m => loop (downs (lda - 1) (lda / 2) 1) (fun j =>
      loop (downs (lda - 1) 0 8) (fun i => begin_ [
        unrolled 8 (fun u => vc u ≔ C (i + lda * j - u));
        loop (downs (lda * m / 2 - 1) (lda * (m - 1) / 2) 2) (fun k => begin_ [
          va 0 ≔ A (lda * j + k); va 1 ≔ A (lda * j + k - 1);
          unrolled 8 (fun u => vc u +≔ va 0 ⊗ B (lda * k + i - u) ⊕ va 1 ⊗ B (lda * (k - 1) + i - u))]);
        unrolled 8 (fun u => C (i + lda * j - u) ≔ vc u)]))))]).
(** The text of [bj] differs from that of [bh] in the order of its declarations only. *)
Definition bj_matmul : Z -> Z -> Z -> code := bh_matmul.

(** Rows of the result in two passes over halves of the inner index. *)
Definition bk_rows (js : list Z) : code :=
  loop (steps 0 32 16) (fun kk => loop js (fun j => loop (steps 0 32 8) (fun i => begin_ [
    unrolled 8 (fun u => vc u ≔ C (i + 32 * j + u));
    loop (steps kk (Z.min (kk + 16) 32) 1) (fun k => begin_ [
      va 0 ≔ A (32 * j + k);
      unrolled 8 (fun u => vc u +≔ va 0 ⊗ B (32 * k + i + u))]);
    unrolled 8 (fun u => C (i + 32 * j + u) ≔ vc u)]))).
Definition bk_matmul (coreid ncores lda : Z) : code :=
  when_ (coreid <=? 1) (begin_ [
    when_ (coreid =? 0) (bk_rows (steps 0 16 1));
    when_ ((coreid =? 1) || (ncores =? 1)) (bk_rows (steps 16 32 1))]).

(** The rows of one hart of [bm] and [dm]: the last hart takes what is left. *)
Definition fours_of (coreid ncores lda : Z) : list Z :=
  let space := lda / ncores in
  let max := space * coreid + space in
  if negb (coreid =? ncores - 1) then steps (space * coreid) (max / 4 * 4) 4 else steps (space * coreid) (lda / 4 * 4) 4.

Definition bm_matmul (coreid ncores lda : Z) : code := begin_ [
  unrolled 4 (fun r => begin_ [va r ≔ EZero; unrolled 4 (fun w => vc (4 * r + w) ≔ EZero)]);
  loop (fours_of coreid ncores lda) (fun i => loop (steps 0 lda 4) (fun j => begin_ [
    unrolled 4 (fun r => unrolled 4 (fun w => vc (4 * r + w) ≔ C (j + w + lda * (i + r))));
    loop (steps 0 lda 1) (fun k => unrolled 4 (fun r => begin_ [
      va r ≔ A (k + lda * (i + r));
      unrolled 4 (fun w => vc (4 * r + w) +≔ va r ⊗ B (j + w + lda * k))]));
    unrolled 4 (fun r => unrolled 4 (fun w => C (j + w + lda * (i + r)) ≔ vc (4 * r + w)))]))].

Definition bo_rows (coreid lda : Z) (js : list Z) : code :=
  let B_trans := private coreid 0 in
  loop (steps 0 32 1) (fun i => begin_ [
    loop (steps 0 32 1) (fun z => B_trans (32 * i + z) ≔ B (i + 32 * z));
    loop js (fun j => begin_ [
      vc 0 ≔ EZero;
      loop (steps 0 32 8) (fun k => unrolled 8 (fun u => vc 0 +≔ A (lda * j + k + u) ⊗ B_trans (32 * i + k + u)));
      vc 1 ≔ EZero;
      loop (steps 0 32 8) (fun k => unrolled 8 (fun u => vc 1 +≔ A (lda * j + 32 + k + u) ⊗ B_trans (32 * i + k + u)));
      C (i + lda * j) ≔ vc 0;
      C (i + lda * (j + 1)) ≔ vc 1])]).
Definition bo_matmul (coreid ncores lda : Z) : code := begin_ [
  when_ (coreid =? 0) (bo_rows coreid lda (steps 0 16 2));
  when_ ((coreid =? 1) || (ncores =? 1)) (bo_rows coreid lda (steps 16 32 2))].

(** [br] and [dr]: two rows and [w] columns at a time, from a thread-local transposed copy. *)
Definition br_blocks (w coreid ncores lda : Z) : code :=
  let tB := private coreid 0 in
  let startInd := coreid * (lda / ncores) in
  let endInd := (coreid + 1) * (lda / ncores) in begin_ [
  loop (steps 0 lda 2) (fun i => begin_ [
    loop (steps startInd endInd 2) (fun j => begin_ [
      tB (lda * j + i) ≔ B (lda * i + j);
      tB (lda * (j + 1) + i) ≔ B (lda * i + j + 1);
      tB (lda * j + i + 1) ≔ B (lda * (i + 1) + j);
      tB (lda * (j + 1) + i + 1) ≔ B (lda * (i + 1) + j + 1)]);
    barrier]);
  loop (steps 0 lda 32) (fun j2 => loop (steps startInd endInd 16) (fun i2 => loop (steps j2 (j2 + 32) 2) (fun j =>
    loop (steps 0 lda 32) (fun k2 => loop (steps i2 (i2 + 16) w) (fun i => begin_ [
      unrolled w (fun v => begin_ [vc v ≔ C (lda * j + i + v); vc (8 + v) ≔ C (lda * (j + 1) + i + v)]);
      loop (steps k2 (k2 + 32) 4) (fun k => unrolled 4 (fun u => begin_ [
        unrolled w (fun v => vc v +≔ A (lda * j + k + u) ⊗ tB (lda * (i + v) + k + u));
        unrolled w (fun v => vc (8 + v) +≔ A (lda * (j + 1) + k + u) ⊗ tB (lda * (i + v) + k + u))]));
      unrolled w (fun v => begin_ [C (lda * j + i + v) ≔ vc v; C (lda * (j + 1) + i + v) ≔ vc (8 + v)]);
      barrier])))))].
Definition br_matmul : Z -> Z -> Z -> code := br_blocks 4.

Definition bs_matmul (coreid ncores lda : Z) : code :=
  loop (steps coreid lda (4 * ncores)) (fun j => loop (steps 0 lda 1) (fun k => loop (steps 0 lda 1) (fun i => begin_ [
    vb 0 ≔ B (lda * k + i);
    unrolled 4 (fun r => C (i + lda * (j + r * ncores)) +≔ A (lda * (j + r * ncores) + k) ⊗ vb 0)]))).

Definition ce_matmul (coreid ncores lda : Z) : code := begin_ [
  transpose_shared coreid ncores lda;
  loop (steps 0 ncores 1) (fun x => loop (steps (x * (32 / ncores)) ((x + 1) * (32 / ncores)) 8) (fun i =>
    loop (rows_of coreid ncores lda 1) (fun j => begin_ [
      unrolled 8 (fun v => vc v ≔ EZero);
      loop (steps 0 lda 8) (fun k => begin_ [
        unrolled 8 (fun u => va u ≔ A (lda * j + k + u));
        unrolled 8 (fun v => unrolled 8 (fun u => vc v +≔ va u ⊗ shared 0 (lda * (i + v) + (k + u))))]);
      unrolled 8 (fun v => C (i + v + lda * j) +≔ vc v)])))].

(** [cf] and [cm]: every hart adds its half of the inner index to all rows, upwards or downwards. *)
Definition add_rows (h row row2 : Z) : code :=
  loop (steps 0 32 1) (fun l => begin_ [
    C (row + l) +≔ temp_mat h l; C (row2 + l) +≔ temp_mat2 h l;
    temp_mat h l ≔ EZero; temp_mat2 h l ≔ EZero]).
Definition cf_matmul (coreid ncores lda : Z) : code :=
  when_ (coreid <=? 1) (begin_ [
    temps_zero coreid;
    when_ (coreid =? 0) (loop (steps 0 32 2) (fun i => begin_ [
      loop (steps 0 16 4) (two_rows coreid (32 * i) (32 * (i + 1)));
      add_rows coreid (32 * i) (32 * (i + 1))]));
    when_ ((coreid =? 1) || (ncores =? 1)) (loop (steps 0 32 2) (fun i => begin_ [
      loop (steps 16 32 4) (two_rows coreid (32 * (31 - i)) (32 * (31 - i - 1)));
      add_rows coreid (32 * (31 - i)) (32 * (31 - i - 1))]))]).

(** The text of [cg] is that of [ag]. *)
Definition cg_matmul : Z -> Z -> Z -> code := ag_matmul.

Definition ci_matmul (coreid ncores lda : Z) : code := begin_ [
  barrier;
  loop (steps (lda * coreid / ncores) (lda * coreid / ncores + lda / ncores) 1) (fun j =>
    loop (steps 0 lda 4) (fun i =>
      four_columns (if coreid =? 0 then steps 0 lda 1 else downs (lda - 1) 0 1) lda j i))].

(** The values of [ii], which starts at [start] and goes round modulo [lda] until it is back. *)
Fixpoint rotation (fuel : nat) (lda bsize start ii : Z) : list Z :=
  match fuel with
  | O => []
  | S fuel => ii :: if (bsize + ii) mod lda =? start then [] else rotation fuel lda bsize start ((bsize + ii) mod lda)
  end.
Definition ck_matmul (coreid ncores lda : Z) : code :=
  let bsize := 16 in
  let start := bsize * coreid in
  loop (steps start lda (bsize * ncores)) (fun jj => loop (rotation 32 lda bsize start start) (fun ii =>
    loop (steps jj (Z.min lda (jj + bsize)) 4) (fun j => loop (steps ii (Z.min lda (ii + bsize)) 2) (fun i => begin_ [
      unrolled 4 (fun r => begin_ [vc (2 * r) ≔ C (i + lda * (j + r)); vc (2 * r + 1) ≔ C (i + lda * (j + r) + 1)]);
      loop (steps 0 lda 8) (fun k => loop (steps 0 8 1) (fun x => begin_ [
        unrolled 4 (fun r => va r ≔ A (lda * (j + r) + k + x));
        unrolled 2 (fun u => vb u ≔ B (lda * (k + x) + i + u));
        unrolled 4 (fun r => begin_ [vc (2 * r) +≔ va r ⊗ vb 0; vc (2 * r + 1) +≔ va r ⊗ vb 1])]));
      unrolled 4 (fun r => begin_ [C (i + lda * (j + r)) ≔ vc (2 * r); C (i + lda * (j + r) + 1) ≔ vc (2 * r + 1)])])))).

Definition cl_matmul (coreid ncores lda : Z) : code :=
  when_ (coreid <=? 1) (begin_ [
    when_ (coreid =? 0) (loop (steps 0 32 1) (sixteen C lda 0));
    when_ ((coreid =? 1) || (ncores =? 1)) (begin_ [
      loop (steps 16 32 1) (sixteen C lda 16); loop (steps 0 16 1) (sixteen C lda 16)])]).

Definition cm_matmul (coreid ncores lda : Z) : code := begin_ [
  temps_zero coreid;
  when_ (coreid =? 0) (loop (steps 0 lda 2) (fun i => loop (steps 0 16 4) (fun j => begin_ [
    two_rows coreid (lda * i) (lda * (i + 1)) j;
    when_ (j =? 12) (add_rows coreid (lda * i) (lda * (i + 1)))])));
  when_ ((coreid =? 1) || (ncores =? 1)) (loop (steps 0 32 2) (fun i => loop (steps 16 32 4) (fun j => begin_ [
    two_rows coreid (lda * (31 - i)) (lda * (31 - i - 1)) j;
    when_ (j =? 28) (add_rows coreid (lda * (31 - i)) (lda * (31 - i - 1)))])))].

Definition cs_matmul (coreid ncores lda : Z) : code :=
  loop (steps coreid lda (2 * ncores)) (fun j => loop (steps 0 lda 1) (fun i => begin_ [
    vc 1 ≔ EZero; vc 2 ≔ EZero;
    loop (steps 0 lda 1) (fun k => begin_ [
      vc 1 +≔ A (lda * j + k) ⊗ B (lda * k + i);
      vc 2 +≔ A (lda * (j + ncores) + k) ⊗ B (lda * k + i)]);
    C (i + lda * j) ≔ vc 1;
    C (i + lda * (j + ncores)) ≔ vc 2;
    barrier])).

(** As [av], but every product is added to [C] at once. *)
Definition cv_row (lda j : Z) : code :=
  loop (steps 0 4 1) (fun m => begin_ [
    unrolled 8 (fun u => va u ≔ A (lda * j + u + 8 * m));
    loop (steps 0 4 1) (fun n => unrolled 8 (fun u => begin_ [
      unrolled 8 (fun v => vb v ≔ B (lda * (u + 8 * m) + v + 8 * n));
      unrolled 8 (fun v => C (v + 8 * n + lda * j) +≔ va u ⊗ vb v)]))]).
Definition cv_matmul (coreid ncores lda : Z) : code := begin_ [
  when_ ((coreid =? 1) || (ncores =? 1)) (loop (steps 16 32 1) (cv_row lda));
  when_ (coreid =? 0) (loop (steps 0 16 1) (cv_row lda))].

Definition cy_matmul (coreid ncores lda : Z) : code :=
  when_ (coreid <=? 1) (
    if coreid =? 0 then loop (ay_indices coreid ncores) (ay_eight A B lda)
    else begin_ [
      loop (steps 0 1024 1) (fun i => begin_ [shared 0 i ≔ A i; shared 1 i ≔ B i]);
      loop (ay_indices coreid ncores) (ay_eight (shared 0) (shared 1) lda)]).

(** One of the two passes of [dc], over half of the inner index. *)
Definition dc_pass (coreid kk_start kk_end : Z) : code :=
  loop (steps (first_row coreid) (end_row coreid) 16) (fun jj => loop (steps kk_start kk_end 16) (fun kk =>
    loop (steps jj (Z.min (end_row coreid) (jj + 16)) 2) (fun j => loop (steps 0 32 8) (fun i => begin_ [
      load_block i j;
      loop (steps kk (Z.min 32 (kk + 16)) 1) (fun k => begin_ [
        loop (steps 0 8 1) (fun ri => vb ri ≔ B (i + (32 * k + ri)));
        loop (steps 0 2 1) (fun rj => begin_ [
          va rj ≔ A (32 * j + (32 * rj + k));
          loop (steps 0 8 1) (fun ri => reg_c ri rj +≔ va rj ⊗ vb ri)])]);
      store_block i j])))).
Definition dc_matmul (coreid ncores lda : Z) : code :=
  if (ncores =? 2) && (lda =? 32) then begin_ [
    dc_pass coreid (if coreid =? 0 then 0 else 32 / 2) (if coreid =? 0 then 32 / 2 else 32);
    dc_pass coreid (if negb (coreid =? 0) then 0 else 32 / 2) (if negb (coreid =? 0) then 32 / 2 else 32)]
  else naive_on_first coreid lda.

Definition df_matmul (coreid ncores lda : Z) : code := begin_ [
  when_ (coreid =? 0) (begin_ [loop (steps 0 16 1) (sixteen C lda 0); loop (steps 16 32 1) (sixteen C lda 0)]);
  when_ ((coreid =? 1) || (ncores =? 1)) (begin_ [loop (steps 16 32 1) (sixteen C lda 16); loop (steps 0 16 1) (sixteen C lda 16)])].

Definition dm_rows (src : Z -> lval) (coreid ncores lda : Z) : code :=
  loop (fours_of coreid ncores lda) (fun i => loop (steps 0 (lda / 4 * 4) 4) (fun j => begin_ [
    unrolled 4 (fun w => unrolled 4 (fun r => vc (4 * w + r) ≔ C (j + w + lda * (i + r))));
    loop (steps 0 lda 1) (fun k => unrolled 4 (fun w => begin_ [
      vb w ≔ src (j + w + lda * k);
      unrolled 4 (fun r => vc (4 * w + r) +≔ A (k + lda * (i + r)) ⊗ vb w)]));
    unrolled 4 (fun w => unrolled 4 (fun r => C (j + w + lda * (i + r)) ≔ vc (4 * w + r)))])).
Definition dm_matmul (coreid ncores lda : Z) : code := begin_ [
  if coreid =? ncores - 1 then loop (steps 0 (lda * lda / ncores) 1) (fun i => shared 0 i ≔ B i)
  else loop (steps (lda * lda / ncores) (lda * lda) 1) (fun i => shared 0 i ≔ B i);
  unrolled 4 (fun w => begin_ [unrolled 4 (fun r => vc (4 * w + r) ≔ EZero); vb w ≔ EZero]);
  barrier;
  if negb (coreid =? ncores - 1) then dm_rows B coreid ncores lda else dm_rows (shared 0) coreid ncores lda].

Definition do_matmul (coreid ncores lda : Z) : code :=
  loop (steps 0 32 1) (fun i => loop (steps (coreid * (32 / ncores)) ((coreid + 1) * (32 / ncores)) 1) (fun j => begin_ [
    vc 0 ≔ EZero;
    loop (steps 0 32 1) (fun k => vc 0 +≔ A (32 * j + k) ⊗ B (i + 32 * k));
    C (i + 32 * j) ≔ vc 0])).

Definition dr_matmul : Z -> Z -> Z -> code := br_blocks 8.

Definition ds_matmul (coreid ncores lda : Z) : code :=
  loop (steps (coreid * 4) lda (4 * ncores)) (fun j => loop (steps 0 lda 2) (fun k => loop (steps 0 lda 1) (fun i => begin_ [
    vb 0 ≔ B (lda * k + i); vb 1 ≔ B (lda * (k + 1) + i);
    unrolled 4 (fun r => C (i + lda * (j + r)) +≔ A (lda * (j + r) + k) ⊗ vb 0);
    unrolled 4 (fun r => C (i + lda * (j + r)) +≔ A (lda * (j + r) + k + 1) ⊗ vb 1)]))).

(** The text of [du] is that of [am]. *)
Definition du_matmul : Z -> Z -> Z -> code := am_matmul.

Definition dv_matmul (coreid ncores lda : Z) : code :=
  when_ (coreid <=? 1) (begin_ [
    when_ (negb (coreid =? 0) || (ncores =? 1)) (bk_rows (steps 0 16 1));
    when_ (coreid =? 0) (bk_rows (steps 16 32 1))]).
