(* ===== verification/MtMatmul.v ===== *)
(** * Matrix kernels for several harts: results

    The kernels of [MtKernels], run by two harts on matrices of 32 rows, multiply: in every
    interleaving, without a deadlock, and inside their arrays.  Three of the files are left out of
    that statement: [cf] and [cm] are correct on one hart only, since two harts add to the same
    elements of [C] without a lock, and [af] reads behind the end of [B]. *)
From S2P Require Import Prelude Matmul MtLang MtKernels.
From stdpp Require Import list relations.
Local Open Scope list_scope.
Local Open Scope Z_scope.

(** The kernels with the number of harts, by the first letters of their files. *)
Definition verified_a : list (kernel * Z) := [
  (mkKernel ad_matmul 0, 2); (mkKernel ae_matmul 0, 2); (mkKernel ag_matmul 0, 2); (mkKernel ai_matmul 0, 2);
  (mkKernel ak_matmul 0, 2); (mkKernel al_matmul 0, 2); (mkKernel am_matmul 5, 2); (mkKernel an_matmul 0, 2);
  (mkKernel ap_matmul 0, 2); (mkKernel aq_matmul 0, 2); (mkKernel ar_matmul 10, 2); (mkKernel at_matmul 10, 2);
  (mkKernel av_matmul 0, 2); (mkKernel ay_matmul 0, 2); (mkKernel az_matmul 0, 2)].
Definition verified_b : list (kernel * Z) := [
  (mkKernel bb_matmul 0, 2); (mkKernel bc_matmul 0, 2); (mkKernel bf_matmul 0, 2); (mkKernel bh_matmul 0, 2);
  (mkKernel bk_matmul 0, 2); (mkKernel bm_matmul 0, 2); (mkKernel bo_matmul 10, 2); (mkKernel br_matmul 12, 2);
  (mkKernel bs_matmul 0, 2)].
Definition verified_c : list (kernel * Z) := [
  (mkKernel ce_matmul 0, 2); (mkKernel cf_matmul 5, 1); (mkKernel ci_matmul 0, 2); (mkKernel ck_matmul 0, 2);
  (mkKernel cl_matmul 0, 2); (mkKernel cm_matmul 5, 1); (mkKernel cs_matmul 0, 2); (mkKernel cv_matmul 0, 2);
  (mkKernel cy_matmul 0, 2)].
Definition verified_d : list (kernel * Z) := [
  (mkKernel dc_matmul 0, 2); (mkKernel df_matmul 0, 2); (mkKernel dm_matmul 0, 2); (mkKernel do_matmul 0, 2);
  (mkKernel dr_matmul 12, 2); (mkKernel ds_matmul 0, 2); (mkKernel dv_matmul 0, 2)].
Definition verified : list (kernel * Z) := verified_a ++ verified_b ++ verified_c ++ verified_d.
Definition check_all (l : list (kernel * Z)) : bool := forallb (fun '(k, ncores) => check k ncores) l.

Lemma verified_a_checked : check_all verified_a = true.
Proof. vm_compute. reflexivity. Qed.
Lemma verified_b_checked : check_all verified_b = true.
Proof. vm_compute. reflexivity. Qed.
Lemma verified_c_checked : check_all verified_c = true.
Proof. vm_compute. reflexivity. Qed.
Lemma verified_d_checked : check_all verified_d = true.
Proof. vm_compute. reflexivity. Qed.

Lemma check_all_app l l' : check_all (l ++ l') = check_all l && check_all l'.
Proof. apply forallb_app. Qed.

Lemma check_all_elem l k ncores : check_all l = true -> (k, ncores) ∈ l -> check k ncores = true.
Proof. unfold check_all. rewrite forallb_forall. intros H Hk%list_elem_of_In. exact (H _ Hk). Qed.

Lemma verified_check k ncores : (k, ncores) ∈ verified -> check k ncores = true.
Proof.
  apply check_all_elem. unfold verified.
  by rewrite !check_all_app, verified_a_checked, verified_b_checked, verified_c_checked, verified_d_checked.
Qed.

(** A run that has not come to its end can be completed. *)
Lemma finished_stuck {V} (U : ops V) s s' : finished s -> ~ step U s s'.
Proof.
  unfold finished. intros Hf Hs. destruct Hs as [s i r l e rest Hi|s Hne Hw].
  - eapply Forall_lookup_1 in Hf; [|done]. done.
  - destruct (harts s) as [|h hs]; [done|]. apply Forall_cons in Hf as [Hf _]. apply Forall_cons in Hw as [Hw _].
    unfold waiting in Hw. by rewrite Hf in Hw.
Qed.

Lemma completes {V} (U : ops V) s : (forall s', rtc (step U) s s' -> finished s' \/ exists s'', step U s' s'') ->
  exists s', rtc (step U) s s' /\ finished s'.
Proof.
  remember (work s) as n eqn:En. revert s En. induction (lt_wf n) as [n _ IH]. intros s -> Hp.
  destruct (Hp s) as [Hf|[s1 H1]]; [done|by exists s|]. pose proof (step_work U _ _ H1) as Hw.
  destruct (IH _ Hw s1 eq_refl) as (s' & Hs' & Hf); [|exists s'; split; [by eapply rtc_l|done]].
  intros s' Hs'. apply Hp. by eapply rtc_l.
Qed.

(** C28: The kernels of [riscv-tests/mt] multiply.  Let two harts (one hart for [cf] and [cm]) run one of
    the kernels of the table on matrices [A] and [B] of 32-bit integers with 32 rows, a zero [C], and
    any contents of other memory and of variables.  No access is outside its array; every
    interleaving of the harts has at most as many steps as there are statements, and can go on until
    all harts have returned; and then each element of [C] is the sum of products, modulo 2^32. *)
Theorem mt_matmul_correct k ncores (init : cell -> Z) :
  (k, ncores) ∈ verified -> (forall c, s32 (init c) = init c) -> (forall i, init (Cell 3 i) = 0) ->
  (forall h s c, 0 <= h < ncores -> s ∈ body k h ncores 32 -> touches s c -> in_bounds (local_bits k) c = true) /\
  forall n s, nsteps (step (int_ops init)) n (start k ncores) s ->
    (n <= work (start (V := Z) k ncores))%nat /\
    (exists s', rtc (step (int_ops init)) s s' /\ finished s') /\
    (finished s -> forall j i, 0 <= j < 32 -> 0 <= i < 32 ->
      rd (int_ops init) (mem s) (Cell 3 (j * 32 + i)) =
      s32 (sum (seqZ 0 32) (fun k => init (Cell 1 (j * 32 + k)) * init (Cell 2 (k * 32 + i))))).
Proof.
  intros Hk Hi H0. destruct (check_sound init Hi H0 k ncores (verified_check _ _ Hk)) as [Hb Hr]. split; [exact Hb|].
  intros n s Hn. destruct (Hr n s Hn) as [Hle Hcase]. split; [done|]. split.
  - apply completes. intros s' Hs'. apply rtc_nsteps in Hs' as [n' Hn']. destruct (Hr (n + n')%nat s') as [_ [[Hf _]|]]; [|by left|by right].
    by eapply nsteps_trans.
  - intros Hf. destruct Hcase as [[_ Hv]|[s' Hs']]; [exact Hv|]. by destruct (finished_stuck _ _ _ Hf Hs').
Qed.

(** Matrices of ones. *)
Definition ones (c : cell) : Z := match c with Cell 1 _ | Cell 2 _ => 1 | _ => 0 end.

Lemma mt_matmul_correct_witness :
  exists s, rtc (step (int_ops ones)) (start (mkKernel cs_matmul 0) 2) s /\ finished s.
Proof.
  apply (mt_matmul_correct (mkKernel cs_matmul 0) 2 ones) with (n := 0%nat) (s := start (mkKernel cs_matmul 0) 2).
  - apply list_elem_of_In. unfold verified, verified_a, verified_b, verified_c, verified_d. cbn [app In]. tauto.
  - intros [[[]|[]|] i]; reflexivity.
  - reflexivity.
  - constructor.
Defined.

(** ** Two harts that add to the same elements *)

(** A hart can run any part of its code that has no barrier. *)
Definition no_barrier (l : code) : bool := forallb (fun s => match s with Barrier => false | _ => true end) l.

Lemma run_part {V} (U : ops V) m (hs : list (regs V * code)) i r p q :
  no_barrier p = true -> hs !! i = Some (r, p ++ q) ->
  nsteps (step U) (length p) (mkState m hs) (mkState (exec_all U p r m).2 (<[i := ((exec_all U p r m).1, q)]> hs)).
Proof.
  revert m hs r. induction p as [|s p IH]; intros m hs r Hn Hh; cbn [exec_all length app].
  - rewrite list_insert_id by done. constructor.
  - cbn [no_barrier forallb] in Hn. destruct s as [l e|]; [|done]. cbn [andb] in Hn.
    econstructor; [by eapply (step_assign U (mkState m hs))|]. cbn [mem harts].
    set (x := exec U (Assign l e) r m). destruct x as [r' m'] eqn:Ex. cbn [fst snd].
    specialize (IH m' (<[i:=(r', p ++ q)]> hs) r' Hn). rewrite list_insert_insert_eq in IH. apply IH.
    apply list_lookup_insert_eq. by eapply lookup_lt_Some.
Qed.

(** The code before the first store to [C], and the rest. *)
Fixpoint before_store (l : code) : code * code :=
  match l with
  | [] => ([], [])
  | Assign (LCell (Cell 3 _)) _ :: _ => ([], l)
  | s :: l => let '(p, q) := before_store l in (s :: p, q)
  end.

Lemma before_store_app l : (before_store l).1 ++ (before_store l).2 = l.
Proof.
  induction l as [|s l IH]; [done|]. cbn. destruct s as [[x|[[[]|[]|] i]] e|]; try done; destruct (before_store l); cbn in *; by rewrite IH.
Qed.

(** The first hart is stopped between a load and a store of [C], while the second one runs. *)
Definition lost_update (k : kernel) : memory Z :=
  let U := int_ops ones in
  let '(p, q) := before_store (body k 0 2 32) in
  let '(r, m) := exec_all U p Leaf Leaf in
  let '(_, m) := exec_all U (body k 1 2 32) Leaf m in
  (exec_all U q r m).2.

Lemma lost_update_runs k : no_barrier (body k 0 2 32) = true -> no_barrier (body k 1 2 32) = true ->
  exists n s, nsteps (step (int_ops ones)) n (start k 2) s /\ finished s /\ mem s = lost_update k.
Proof.
  intros H0 H1. unfold lost_update. pose proof (before_store_app (body k 0 2 32)) as Eb.
  destruct (before_store (body k 0 2 32)) as [p q]. cbn [fst snd] in Eb. rewrite <- Eb in H0.
  unfold no_barrier in H0. rewrite forallb_app, andb_true_iff in H0. destruct H0 as [Hp Hq].
  set (U := int_ops ones). set (h1 := (Leaf : regs Z, body k 1 2 32)).
  assert (start k 2 = mkState Leaf [(Leaf, p ++ q); h1]) as -> by (unfold start; rewrite Eb; done).
  pose proof (run_part U Leaf [(Leaf, p ++ q); h1] 0 Leaf p q Hp eq_refl) as S1.
  destruct (exec_all U p Leaf Leaf) as [r m1]. cbn [fst snd] in S1. change (<[0%nat:=?x]> [_; h1]) with [x; h1] in S1.
  pose proof (run_part U m1 [(r, q); h1] 1 Leaf (body k 1 2 32) [] H1 ltac:(by rewrite app_nil_r)) as S2.
  destruct (exec_all U (body k 1 2 32) Leaf m1) as [r1 m2]. cbn [fst snd] in S2. change (<[1%nat:=?x]> [_; h1]) with [(r, q); x] in S2.
  pose proof (run_part U m2 [(r, q); (r1, [])] 0 r q [] Hq ltac:(by rewrite app_nil_r)) as S3.
  eexists _, _. split; [exact (nsteps_trans _ _ _ _ _ (nsteps_trans _ _ _ _ _ S1 S2) S3)|]. split; [|done].
  cbn [harts]. by repeat constructor.
Qed.

(** With matrices of ones every element of the product is 32; these runs end with 16. *)
Lemma cf_loses_updates : exists n s,
  nsteps (step (int_ops ones)) n (start (mkKernel cf_matmul 5) 2) s /\ finished s /\ rd (int_ops ones) (mem s) (Cell 3 0) = 16.
Proof.
  destruct (lost_update_runs (mkKernel cf_matmul 5)) as (n & s & Hn & Hf & Hm); [by vm_compute..|].
  exists n, s. split; [done|]. split; [done|]. rewrite Hm. vm_compute. reflexivity.
Qed.

Lemma cm_loses_updates : exists n s,
  nsteps (step (int_ops ones)) n (start (mkKernel cm_matmul 5) 2) s /\ finished s /\ rd (int_ops ones) (mem s) (Cell 3 0) = 16.
Proof.
  destruct (lost_update_runs (mkKernel cm_matmul 5)) as (n & s & Hn & Hf & Hm); [by vm_compute..|].
  exists n, s. split; [done|]. split; [done|]. rewrite Hm. vm_compute. reflexivity.
Qed.

(** [af] loads the next elements of four rows of [B] one round too often. *)
Lemma af_reads_past_end : exists s, s ∈ af_matmul 0 2 32 /\ touches s (Cell 2 1024).
Proof.
  exists (Assign (vb 3) (B 1024)). split; [|right; reflexivity].
  assert (existsb (fun s => bool_decide (s = Assign (vb 3) (B 1024))) (af_matmul 0 2 32) = true) as H by (vm_compute; reflexivity).
  apply existsb_exists in H as (s & Hs & ->%bool_decide_eq_true). by apply list_elem_of_In.
Qed.
