(* ===== verification/MtVvadd.v ===== *)
(** * Vector addition for several harts

    The variants of [mt-vvadd] in [riscv-tests/mt] ([vvadd0.c] to [vvadd4.c]).  A variant is the
    sequence of indices at which one hart adds ([steps], [seqZ]); the turn for an index reads and writes
    only elements of that index, so the runs of all harts are the permutations of their sequences.
    Vectors are shorter than 2^60, so that no index wraps.  The driver passes the result itself as the
    first vector in its second run. *)
From S2P Require Import Prelude Matmul.
From stdpp Require Import list sets.
Local Open Scope list_scope.
Local Open Scope Z_scope.

(** [vvadd0.c]: a block per hart, then what is left over. *)
Definition vvadd0 (coreid ncores n : Z) : list Z :=
  let leftover := n mod (n / ncores) in
  steps (coreid * (n / ncores)) ((coreid + 1) * (n / ncores)) 1 ++ steps (n - leftover + coreid) n ncores.

(** [vvadd1.c]: two groups of four per turn. *)
Definition vvadd1 (coreid ncores n : Z) : list Z :=
  steps (coreid * 4) n (8 * ncores) ≫= fun i =>
    [i; i + 1; i + 2; i + 3; i + ncores * 4; i + ncores * 4 + 1; i + ncores * 4 + 2; i + ncores * 4 + 3].

(** [vvadd2.c]: two elements per turn. *)
Definition vvadd2 (coreid ncores n : Z) : list Z := steps coreid n (2 * ncores) ≫= fun i => [i; i + ncores].

(** [vvadd3.c]: the loop entered in its middle by the switch.  [entry] is the number of statements
    that the round executes, [to] the next index. *)
Fixpoint duff (fuel : nat) (entry c to : Z) : option (list Z) :=
  match fuel with
  | O => None
  | S fuel =>
      let c := u64 (c - 1) in
      if 0 <? c then (fun l => seqZ to entry ++ l) <$> duff fuel 8 c (to + entry) else Some (seqZ to entry)
  end.

Definition vvadd3 (fuel : nat) (coreid ncores n : Z) : option (list Z) :=
  let count := n / ncores in
  let c := (count + 7) / 8 in
  duff fuel (if count mod 8 =? 0 then 8 else count mod 8) c (coreid * (n / ncores)).

(** [vvadd4.c]. *)
Definition vvadd4 (coreid ncores n : Z) : list Z := steps coreid n ncores.

Section run.
Context {T : Type} `{!Arith T}.

(** [z[i] = x[i] + y[i]], where [x] can be [z] itself. *)
Definition add_elem (x : option (Z -> T)) (y : Z -> T) (i : Z) (z : Z -> T) : Z -> T :=
  upd z i (tadd (default z x i) (y i)).

Lemma add_elems x y l z i : NoDup l ->
  for_ l (add_elem x y) z i = if bool_decide (i ∈ l) then tadd (default z x i) (y i) else z i.
Proof.
  intros Hl. revert z. induction Hl as [|k l Hk Hl IH]; intros z; [done|].
  change (for_ (k :: l) ?f z) with (for_ l f (f k z)). rewrite IH. unfold add_elem, upd.
  destruct (Z.eqb_spec i k) as [->|Hne].
  - rewrite (bool_decide_eq_false_2 _ Hk), bool_decide_eq_true_2 by set_solver. done.
  - rewrite (bool_decide_ext (i ∈ k :: l) (i ∈ l)) by set_solver.
    destruct x as [x|]; cbn [default]; [done|]. by rewrite (proj2 (Z.eqb_neq i k) Hne).
Qed.

(** Whatever the order of the turns of all harts, the sum is taken once at every index. *)
Lemma harts_add x y l m z i : l ≡ₚ seqZ 0 m ->
  for_ l (add_elem x y) z i = if within 0 m i then tadd (default z x i) (y i) else z i.
Proof.
  intros Hl. rewrite add_elems by (rewrite Hl; apply NoDup_seqZ).
  replace (bool_decide (i ∈ l)) with (within 0 m i); [done|]. symmetry.
  apply eq_true_iff_eq. rewrite bool_decide_eq_true, within_true, Hl, elem_of_seqZ. done.
Qed.
End run.

(** ** The indices of all harts *)

(** Sequences without repetition whose elements tell the hart make up the whole. *)
Lemma harts_cover nc m (f : Z -> list Z) (g : Z -> Z) :
  (forall h, 0 <= h < nc -> NoDup (f h)) ->
  (forall h j, 0 <= h < nc -> j ∈ f h <-> 0 <= j < m /\ g j = h) ->
  (forall j, 0 <= j < m -> 0 <= g j < nc) ->
  seqZ 0 nc ≫= f ≡ₚ seqZ 0 m.
Proof.
  intros Hd Hf Hg. apply NoDup_Permutation; [|apply NoDup_seqZ|].
  - apply NoDup_bind; [|intros h Hh%elem_of_seqZ; apply Hd; lia|apply NoDup_seqZ].
    intros h h' j Hh%elem_of_seqZ Hh'%elem_of_seqZ Hj Hj'. apply Hf in Hj, Hj'; lia.
  - intros j. rewrite list_elem_of_bind, elem_of_seqZ. split.
    + intros (h & Hj & Hh%elem_of_seqZ). apply Hf in Hj; lia.
    + intros Hj. exists (g j). pose proof (Hg j ltac:(lia)). rewrite Hf, elem_of_seqZ by lia. lia.
Qed.

Lemma vvadd4_covers nc n : 0 < nc -> 0 <= n -> (seqZ 0 nc ≫= fun h => vvadd4 h nc n) ≡ₚ seqZ 0 n.
Proof.
  intros. apply (harts_cover nc n _ (fun j => j mod nc)).
  - intros h _. by apply NoDup_steps.
  - intros h j Hh. by apply hart_indices.
  - intros j _. by apply Z.mod_pos_bound.
Qed.

(** Two groups of [s] elements per turn. *)
Definition two_groups (s coreid ncores n : Z) : list Z :=
  steps (coreid * s) n (2 * s * ncores) ≫= fun i => seqZ i s ++ seqZ (i + ncores * s) s.

Section groups.
Context (s nc : Z) (Hs : 0 < s) (Hnc : 0 < nc).

(** The index of an element by hart, turn, group and place. *)
Lemma group_element h q e u j : 0 <= h < nc -> 0 <= u < s -> 0 <= e < 2 -> j = h * s + 2 * s * nc * q + e * (nc * s) + u ->
  (j / s) mod nc = h /\ j / s / nc / 2 = q.
Proof.
  intros Hh Hu He ->. assert ((h * s + 2 * s * nc * q + e * (nc * s) + u) / s = h + (2 * q + e) * nc) as ->.
  { symmetry. apply (Z.div_unique_pos _ _ _ u); [lia|ring]. }
  rewrite Z.mod_add, Z.mod_small, Z.div_add, (Z.div_small h nc) by lia. split; [done|].
  symmetry. apply (Z.div_unique_pos _ _ _ e); lia.
Qed.

Lemma elem_of_group h q j : j ∈ seqZ (h * s + 2 * s * nc * q) s ++ seqZ (h * s + 2 * s * nc * q + nc * s) s <->
  exists e u, 0 <= e < 2 /\ 0 <= u < s /\ j = h * s + 2 * s * nc * q + e * (nc * s) + u.
Proof.
  rewrite elem_of_app, !elem_of_seqZ. split.
  - intros [Hj|Hj]; [exists 0, (j - (h * s + 2 * s * nc * q))|exists 1, (j - (h * s + 2 * s * nc * q + nc * s))]; lia.
  - intros (e & u & He & Hu & ->). assert (e = 0 \/ e = 1) as [-> | ->] by lia; [left|right]; lia.
Qed.

Lemma two_groups_cover n : 0 <= n -> (2 * s * nc | n) -> (seqZ 0 nc ≫= fun h => two_groups s h nc n) ≡ₚ seqZ 0 n.
Proof.
  intros Hn [N HN]. assert (0 < s * nc) as Hp by nia.
  assert (forall h i, 0 <= h < nc -> i ∈ steps (h * s) n (2 * s * nc) <-> exists q, 0 <= q < N /\ i = h * s + 2 * s * nc * q) as Hst.
  { intros h i Hh. split.
    - intros [Hi [q Hq]]%elem_of_steps; [|lia]. exists q. split; [nia|lia].
    - intros (q & Hq & ->). unfold steps. apply list_elem_of_fmap. exists q. split; [done|]. apply elem_of_seqZ. split; [lia|].
      rewrite Z.add_0_l. apply Z.le_succ_l, Z.div_le_lower_bound; [lia|].
      assert (h * s < 2 * s * nc) by nia. assert (2 * s * nc * q <= 2 * s * nc * (N - 1)) by (apply Z.mul_le_mono_nonneg_l; lia). subst n. lia. }
  apply (harts_cover nc n _ (fun j => (j / s) mod nc)).
  - intros h Hh. apply NoDup_bind; [|intros i (q & Hq & ->)%Hst; [|done]|apply NoDup_steps; lia].
    + intros i i' j (q & Hq & ->)%Hst (q' & Hq' & ->)%Hst Hj Hj'; [|done..].
      apply elem_of_group in Hj as (e & u & He & Hu & Hj), Hj' as (e' & u' & He' & Hu' & Hj').
      apply group_element in Hj as [_ <-]; [|done..]. apply group_element in Hj' as [_ <-]; done.
    + apply NoDup_app. split_and!; [apply NoDup_seqZ| |apply NoDup_seqZ].
      intros j Hj%elem_of_seqZ Hj'%elem_of_seqZ. nia.
  - intros h j Hh. unfold two_groups. rewrite list_elem_of_bind. split.
    + intros (i & Hj & (q & Hq & ->)%Hst); [|done]. apply elem_of_group in Hj as (e & u & He & Hu & Hj).
      pose proof (group_element h q e u j Hh Hu He Hj) as [Hm _]. split; [|done].
      assert (h * s + u < nc * s) by nia. assert (e * (nc * s) <= nc * s) by nia. split; [nia|].
      assert (2 * s * nc * q <= 2 * s * nc * (N - 1)) by nia. nia.
    + intros [Hj Hm]. pose proof (Z.div_mod j s). pose proof (Z.mod_pos_bound j s Hs). pose proof (Z.div_mod (j / s) nc).
      set (p := j / s / nc) in *. pose proof (Z.div_mod p 2). pose proof (Z.mod_pos_bound p 2).
      assert (0 <= p) by (apply Z.div_pos; [apply Z.div_pos|]; lia).
      assert (j = h * s + 2 * s * nc * (p / 2) + p mod 2 * (nc * s) + j mod s) as Ej by nia.
      exists (h * s + 2 * s * nc * (p / 2)). split; [apply elem_of_group; exists (p mod 2), (j mod s); lia|].
      apply Hst; [done|]. exists (p / 2). split; [|done]. split; [apply Z.div_pos; lia|].
      assert (2 * s * nc * (p / 2) < 2 * s * nc * N) by nia. nia.
  - intros j _. by apply Z.mod_pos_bound.
Qed.
End groups.

Lemma seqZ_1 i : seqZ i 1 = [i].
Proof. by rewrite seqZ_cons, seqZ_nil by lia. Qed.

Lemma seqZ_4 i : seqZ i 4 = [i; i + 1; i + 2; i + 3].
Proof.
  change 4 with (1 + (1 + (1 + 1))). rewrite !seqZ_app, !seqZ_1 by lia. cbn [app]. by rewrite <- !Z.add_assoc.
Qed.

Lemma vvadd1_covers nc n : 0 < nc -> 0 <= n -> (8 * nc | n) -> (seqZ 0 nc ≫= fun h => vvadd1 h nc n) ≡ₚ seqZ 0 n.
Proof.
  intros Hnc Hn Hd. rewrite <- (two_groups_cover 4 nc ltac:(lia) Hnc n Hn Hd). apply reflexive_eq, list_bind_ext; [intros h|done]. unfold vvadd1, two_groups.
  apply list_bind_ext; [|done]. intros i. by rewrite !seqZ_4.
Qed.

Lemma vvadd2_covers nc n : 0 < nc -> 0 <= n -> (2 * nc | n) -> (seqZ 0 nc ≫= fun h => vvadd2 h nc n) ≡ₚ seqZ 0 n.
Proof.
  intros Hnc Hn Hd. rewrite <- (two_groups_cover 1 nc ltac:(lia) Hnc n Hn Hd). apply reflexive_eq, list_bind_ext; [intros h|done]. unfold vvadd2, two_groups.
  rewrite !Z.mul_1_r. apply list_bind_ext; [|done]. intros i. by rewrite !seqZ_1.
Qed.

Lemma vvadd0_covers nc n : 0 < nc -> 0 <= n -> n mod nc < n / nc -> (seqZ 0 nc ≫= fun h => vvadd0 h nc n) ≡ₚ seqZ 0 n.
Proof.
  intros Hnc Hn Hr. pose proof (Z.div_mod n nc ltac:(lia)) as En. pose proof (Z.mod_pos_bound n nc Hnc) as Hb.
  set (b := n / nc) in *. set (r := n mod nc) in *.
  assert (n mod b = r) as Er by (symmetry; apply (Z.mod_unique_pos _ _ nc); lia).
  apply (harts_cover nc n _ (fun j => if j <? nc * b then j / b else (j - nc * b) mod nc)).
  - intros h Hh. unfold vvadd0. fold b. rewrite Er. apply NoDup_app. split_and!; [by apply NoDup_steps| |by apply NoDup_steps].
    intros j [Hj _]%elem_of_steps [Hj' _]%elem_of_steps; [|done..]. nia.
  - intros h j Hh. unfold vvadd0. fold b. rewrite Er, elem_of_app, steps_1, elem_of_seqZ.
    replace (n - r + h) with (nc * b + h) by lia. destruct (Z.ltb_spec j (nc * b)).
    + pose proof (Z.div_mod j b ltac:(lia)). pose proof (Z.mod_pos_bound j b ltac:(lia)). split.
      * intros [Hj|[Hj _]%elem_of_steps]; [|lia|done]. split; [nia|]. symmetry. apply (Z.div_unique_pos _ _ _ (j - h * b)); lia.
      * intros [Hj <-]. left. nia.
    + assert (steps (nc * b + h) n nc = (fun k => nc * b + k) <$> steps h (n - nc * b) nc) as ->.
      { unfold steps. rewrite <- list_fmap_compose. replace (n - (nc * b + h)) with (n - nc * b - h) by lia.
        apply list_fmap_ext. intros _ k _. unfold compose. lia. }
      rewrite list_elem_of_fmap. split.
      * intros [Hj|(k & -> & Hk)]; [nia|]. apply hart_indices in Hk as [Hk Hm]; [|lia..].
        split; [nia|]. by replace (nc * b + k - nc * b) with k by lia.
      * intros [Hj Hm]. right. exists (j - nc * b). split; [lia|]. apply hart_indices; lia.
  - intros j Hj. destruct (Z.ltb_spec j (nc * b)); [|by apply Z.mod_pos_bound].
    split; [apply Z.div_pos; lia|apply Z.div_lt_upper_bound; lia].
Qed.

(** ** The loop entered in its middle *)

Lemma duff_rounds fuel entry c i : 0 <= entry -> 0 < c < 2 ^ 64 -> c <= Z.of_nat fuel ->
  duff fuel entry c i = Some (seqZ i (entry + 8 * (c - 1))).
Proof.
  revert entry c i. induction fuel as [|fuel IH]; intros entry c i He Hc Hf; [lia|]. cbn [duff]. rewrite wrapU_small by lia.
  destruct (Z.ltb_spec 0 (c - 1)).
  - rewrite IH by lia. cbn. rewrite <- seqZ_app by lia. do 2 f_equal. lia.
  - do 2 f_equal. lia.
Qed.

(** A hart whose part is not empty adds at the [n / ncores] indices of its block. *)
Lemma vvadd3_block fuel h nc n : 0 < n / nc < 2 ^ 60 -> (n / nc + 7) / 8 <= Z.of_nat fuel ->
  vvadd3 fuel h nc n = Some (seqZ (h * (n / nc)) (n / nc)).
Proof.
  intros Hn Hf. unfold vvadd3. set (count := n / nc) in *.
  pose proof (Z.div_mod count 8). pose proof (Z.mod_pos_bound count 8).
  pose proof (Z.div_mod (count + 7) 8). pose proof (Z.mod_pos_bound (count + 7) 8).
  rewrite duff_rounds; [|destruct (Z.eqb_spec (count mod 8) 0); lia|lia|done].
  do 2 f_equal. destruct (Z.eqb_spec (count mod 8) 0); lia.
Qed.

(** A hart with an empty part runs through all values of its counter. *)
Lemma vvadd3_runs_away fuel h nc n : n / nc = 0 -> Z.of_nat fuel < 2 ^ 64 -> vvadd3 fuel h nc n = None.
Proof.
  intros E Hf. unfold vvadd3. rewrite E. cbn [Z.modulo Z.div_eucl Z.eqb].
  assert (forall fuel entry c i, Z.of_nat fuel < c < 2 ^ 64 -> duff fuel entry c i = None) as Hd.
  { clear. induction fuel as [|fuel IH]; intros entry c i Hc; [done|]. cbn [duff]. rewrite wrapU_small by lia.
    rewrite (proj2 (Z.ltb_lt 0 (c - 1))), IH by lia. done. }
  destruct fuel as [|fuel]; [done|]. cbn [duff]. change (u64 ((0 + 7) / 8 - 1)) with (2 ^ 64 - 1).
  change (0 <? 2 ^ 64 - 1) with true. rewrite Hd by lia. done.
Qed.

(** The blocks make up the vector up to the last multiple of [ncores]. *)
Lemma vvadd3_covers nc n : 0 < nc -> 0 < n / nc ->
  (seqZ 0 nc ≫= fun h => seqZ (h * (n / nc)) (n / nc)) ≡ₚ seqZ 0 (nc * (n / nc)).
Proof.
  intros Hnc Hb. set (b := n / nc) in *. apply (harts_cover nc _ _ (fun j => j / b)).
  - intros h _. apply NoDup_seqZ.
  - intros h j Hh. rewrite elem_of_seqZ. pose proof (Z.div_mod j b ltac:(lia)). pose proof (Z.mod_pos_bound j b Hb). split.
    + intros Hj. split; [nia|]. symmetry. apply (Z.div_unique_pos _ _ _ (j - h * b)); lia.
    + intros [Hj <-]. nia.
  - intros j Hj. split; [apply Z.div_pos; lia|apply Z.div_lt_upper_bound; lia].
Qed.

Lemma vvadd3_all fuel nc n : 0 < nc -> (nc | n) -> 0 < n / nc < 2 ^ 60 -> (n / nc + 7) / 8 <= Z.of_nat fuel ->
  (seqZ 0 nc ≫= fun h => default [] (vvadd3 fuel h nc n)) ≡ₚ seqZ 0 n.
Proof.
  intros Hnc Hd Hb Hf. assert (n = nc * (n / nc)) as En by (apply Z.div_exact, Z.mod_divide; [lia|lia|done]).
  pose proof (vvadd3_covers nc n Hnc ltac:(lia)) as H. rewrite <- En in H. rewrite <- H. apply reflexive_eq, list_bind_ext; [intros h|done]. by rewrite vvadd3_block.
Qed.

(** ** On the vectors of the benchmark, of 1000 elements *)

(** All variants add every element once on one hart, and all but [vvadd1] on two. *)
Lemma vvadd_benchmark :
  (forall nc, nc = 1 \/ nc = 2 -> seqZ 0 nc ≫= (fun h => vvadd0 h nc 1000) ≡ₚ seqZ 0 1000 /\
    seqZ 0 nc ≫= (fun h => vvadd2 h nc 1000) ≡ₚ seqZ 0 1000 /\ seqZ 0 nc ≫= (fun h => vvadd4 h nc 1000) ≡ₚ seqZ 0 1000 /\
    seqZ 0 nc ≫= (fun h => default [] (vvadd3 125 h nc 1000)) ≡ₚ seqZ 0 1000) /\
  seqZ 0 1 ≫= (fun h => vvadd1 h 1 1000) ≡ₚ seqZ 0 1000.
Proof.
  assert (forall m, 1000 mod m = 0 -> m <> 0 -> (m | 1000)) as Hd by (intros m Hm H0; by apply Z.mod_divide).
  split; [|apply vvadd1_covers; [done|done|by apply Hd]].
  intros nc Hnc. assert (1000 mod nc < 1000 / nc /\ 0 < 1000 / nc < 2 ^ 60 /\ (1000 / nc + 7) / 8 <= Z.of_nat 125) as (H0 & H1 & H2)
    by (destruct Hnc as [-> | ->]; done).
  assert ((nc | 1000) /\ (2 * nc | 1000)) as [Hd1 Hd2] by (destruct Hnc as [-> | ->]; split; by apply Hd).
  split; [apply vvadd0_covers; lia|]. split; [apply vvadd2_covers; [lia|done|done]|].
  split; [apply vvadd4_covers; lia|apply vvadd3_all; [lia|done|done|done]].
Qed.

(** On two harts the second group of the last turn lies behind the end. *)
Lemma vvadd1_overruns : 1000 ∈ vvadd1 0 2 1000 /\ 1007 ∈ vvadd1 1 2 1000.
Proof. split; apply (bool_decide_eq_true _); vm_compute; reflexivity. Qed.

(** On 64 harts [vvadd0] takes [n % (n / ncores)] for the rest and loses elements. *)
Lemma vvadd0_loses : forall h, 0 <= h < 64 -> 960 ∉ vvadd0 h 64 1000.
Proof.
  intros h Hh [Hj|Hj]%elem_of_app; apply elem_of_steps in Hj as [Hj _]; try done; change (1000 / 64) with 15 in Hj; change (1000 mod 15) with 10 in Hj; lia.
Qed.

(** [vvadd3] never adds the last element on three harts. *)
Lemma vvadd3_loses h : 0 <= h < 3 -> exists l, vvadd3 42 h 3 1000 = Some l /\ 999 ∉ l.
Proof.
  intros Hh. rewrite vvadd3_block by done. eexists. split; [done|]. rewrite elem_of_seqZ. change (1000 / 3) with 333. lia.
Qed.
